(* ===== verification/_CoqProject ===== *)
-Q . S2P
Prelude.v
Std.v
SharedBuffer.v
Float64.v
InspectFormat.v
InspectBlock.v
InspectHeap.v
HeapInvariant.v
HeapCorrect.v
HeapAllocate.v
HeapTheorems.v
InspectOps.v
InspectState.v
StateInvariant.v
StateSteps.v
StateCorrect.v
StateOps.v
StateProperty.v
StateArray.v
StateTheorems.v
InspectReader.v
ReaderReads.v
ReaderScan.v
ReaderFold.v
ReaderClaims.v
ReaderEnds.v
InspectApi.v
InspectContrib.v
Merkle.v
MerkleTheorems.v
MerkleBinding.v
Archive.v
ArchiveTheorems.v
ArchiveRoundTrip.v
CharCollection.v
CharTheorems.v
CharClaims.v
Stash.v
StashAccessor.v
StashService.v
StashCommit.v
StashSession.v
StashListing.v
StashClaims.v
Wayland.v
WaylandClaims.v
Packet.v
PacketSerialize.v
PacketBuffers.v
PacketCorrect.v
PacketClaims.v
FidlCore.v
FidlTypes.v
FidlAggregates.v
FidlLogic.v
FidlFormat.v
FidlLaws.v
FidlStruct.v
FidlTable.v
FidlUnion.v
FidlUniverse.v
FidlSafety.v
FidlSafetyUnions.v
FidlClaims.v
Threads.v
AtomicFuture.v
AsyncHandle.v
FidlClient.v
FidlClientSafety.v
FidlClientWakes.v
FidlClientClaims.v
CmValidator.v
CmValid.v
CmRust.v
CmClaims.v
VfsFile.v
VfsFileTheorems.v
VfsDirectory.v
VfsDirectoryTheorems.v
VfsClaims.v
