(* ===== verification/Prelude.v ===== *)
(** * Verification of the Rust libraries and services of garnet

    This development models parts of garnet's Rust code and proves what they are
    for: the Inspect data format and its allocator, the memory shared with other
    processes, Merkle trees, FAR archives, character collections, packet buffers, the
    Wayland wire format, the stash key-value service, the FIDL encoding, FIDL clients and
    the futures they run on, component declarations, and pseudo file systems.

    ** Parts, and how they fit together

    - Shared memory.  [SharedBuffer] models [public/rust/shared-buffer]: buffers
      over memory another process may write, their slices and bounds.
    - Inspect.  A process publishes diagnostics in a VMO, a block of memory that
      other processes read while it is written.  [Float64] (the doubles of the
      format), [InspectFormat] ([constants.rs], [bitfields.rs], [block_type.rs],
      [utils.rs]) and [InspectBlock] ([block.rs]) give the format of blocks;
      [InspectHeap] ([heap.rs]) is the buddy allocator of blocks;
      [InspectOps] and [InspectState] ([state.rs]) are the values: nodes, metrics,
      properties with their chains of extents, and arrays; [InspectReader]
      ([reader/mod.rs], [reader/snapshot.rs]) reads a snapshot back into a
      hierarchy; [InspectApi] ([lib.rs], [health.rs]) is what programs call,
      histograms included; [InspectContrib] ([fuchsia-inspect-contrib]) has bounded
      lists and the logging macros.
    - Merkle trees.  [Merkle] models [public/rust/fuchsia-merkle].  SHA-256 is a
      parameter.
    - Archives.  [Archive] models [public/rust/fuchsia-archive].  The [bincode]
      package is a class of operations with its laws.
    - Character collections.  [CharCollection] models
      [lib/rust/intl/unicode_utils/char_collection].  The [unic_char_range] package
      is a class of operations with its laws.
    - Packets.  [Packet] (buffers, views and parsing) and [PacketSerialize]
      (serializers) model [public/rust/packet].  The traits are
      classes; builders of packets are instances a client gives.
    - Wayland.  [Wayland] models [bin/wayland/core]: messages and their arguments.
    - Stash.  [Stash] ([bin/stash/src/store.rs]) is the store and its file,
      [StashAccessor] ([accessor.rs], [instance.rs]) the transactions over it and
      [StashService] ([main.rs], [instance.rs]) the service.  The [byteorder]
      package and the iteration order of a [HashMap] are classes.
    - FIDL messages.  [FidlCore] (the encoder, the decoder, out-of-line data),
      [FidlTypes] (the implementations of [Encodable] and [Decodable]) and
      [FidlAggregates] (what the macros make for structs, tables and unions, and
      transaction messages) model [public/lib/fidl/rust/fidl/src/encoding.rs].
    - Futures and handles.  [AtomicFuture] ([public/rust/fuchsia-async/src/
      atomic_future.rs]) is a future that several threads of an executor poll;
      [AsyncHandle] ([rwhandle.rs], [channel.rs], [need_signal] of [executor.rs]) a
      channel a task waits for.  [Threads] is the language both are written in.
    - FIDL clients.  [FidlClient] models [public/lib/fidl/rust/fidl/src/client.rs],
      the asynchronous and the synchronous client: it writes and reads messages of
      [FidlAggregates] over a channel of [AsyncHandle].  The [slab] package is a class
      with its laws.
    - Component declarations.  [CmValidator] models [lib/rust/cm_fidl_validator]: the
      declarations of [fuchsia.sys2] and their validation.  [CmRust] models
      [lib/rust/cm_rust]: native declarations, the conversions, capability paths and
      the look-ups that route capabilities.  The [regex] package is a class; what its
      three expressions match is stated as its laws.

    - Pseudo file systems.  [VfsFile] and [VfsDirectory] model files, simple directories
      and their watchers of [public/rust/fuchsia-vfs/pseudo-fs].  The constants of
      [fuchsia.io] are a class with its laws; the handlers of the owner of a file are
      functions on a state of the owner; channels are numbers, with the messages sent on
      them as the state.

    [Std] models what the sources use of Rust's standard library: writers, readers
    and cursors, ordered maps, binary search, splitting and joining of strings.

    ** How code is represented

    A computation of type [M E S A] takes a state and returns an outcome and a
    state; an outcome ([result E A]) is [Ok], an error, a panic, or [OutOfFuel].  A
    function of the source that changes an object takes the object as the state; a
    function that may panic (arithmetic overflow, an index out of range, an
    [unwrap]) returns [Panic] there.  Machine integers are integers of [Z] with
    their ranges written out; [usize] is 64 bits wide; an addition that overflows is
    [Panic], a [wrapping] one reduces modulo the width.  Bytes are integers in
    [0, 256), and strings are their UTF-8 bytes.  Memory is a list of bytes.

    Loops whose recursion is not structural take fuel.  The fuel is a bound given
    by the code that calls the loop (the number of blocks of a mapping, the number
    of bytes left to read, the orders of the allocator), and theorems that say that
    a function returns a result include that it does not run out of fuel.

    Code that several threads run at a time is a program of atomic steps ([prog] of
    [Threads]).  A machine interleaves the steps of any number of threads with those of
    an environment (the kernel, the other end of a channel).  A block of code that holds
    a lock is one step, and an atomic operation is one step; the memory orderings of the
    source are read as sequentially consistent.

    In the stash the state holds the outcomes of the system calls to come: each may
    fail, and a failed write leaves a prefix of what it was to write.

    ** What is proved

    - Shared memory: reads and writes stay inside the buffer, slices and splits are
      where the offsets say, and a write is read back.
    - The allocator ([HeapInvariant], [HeapCorrect], [HeapAllocate],
      [HeapTheorems]): the invariant (blocks tile the mapping, free lists hold
      exactly the free blocks, buddies are merged), and that [allocate_block] and
      [free_block] refine an abstract allocator, on every path; the only panic is that of
      an allocation of 8 bytes or less, and what the heap has not grown to is not written.
    - Inspect values ([StateInvariant] to [StateTheorems]): every operation of
      [State] on live values refines an operation on a forest of named values, for
      every program that respects the preconditions; what each operation does when
      the heap is exhausted; that additions which overflow panic.  The slot at the capacity
      of an array and properties that lost their value are outside the preconditions, and
      examples show what the code does there.
    - Reading back ([ReaderReads], [ReaderScan], [ReaderFold], [ReaderClaims],
      [ReaderEnds]): a snapshot of the memory of a
      [State] reads as exactly its forest, when the forest has one root node, no
      tombstones and names in UTF-8, and the part of the VMO the heap has not grown into
      yet is zero; on a new VMO it is, whatever the client does.  Reading any bytes ends.
    - Merkle trees ([MerkleTheorems], [MerkleBinding]): the streaming builder
      computes the tree of the whole data for every split into writes; the shape of
      the tree; equal roots of the builder mean equal data, unless the hash collides, or
      is zero, on the blocks that were hashed.
    - Archives ([ArchiveTheorems], [ArchiveRoundTrip]): what is written can be read
      back through the whole client interface; wrong sizes are refused; opening any
      bytes ends.
    - Character collections ([CharTheorems], [CharClaims]): a normal form, that all
      operations keep it and are the operations of sets, and that equality of
      collections is equality of sets.
    - Packets ([PacketBuffers], [PacketCorrect], [PacketClaims]): every kind of buffer simulates a prefix, a body and a suffix;
      any stack of serializers over any buffers produces the packet it describes,
      within its limits and without bytes of earlier packets; undoing a parse restores
      the packet.
    - Wayland ([WaylandClaims]): messages are a
      round trip, and no message makes the reader panic.
    - Stash ([StashCommit] to [StashClaims]): the file format is a round trip for
      any iteration order; a commit applies all of its updates or takes them back; the
      backing file is never half written, for every interleaving of requests and
      every choice of failing calls; a value changes only by a commit of an accessor that a
      connection identified as its client created; while no call fails an accessor refines a
      machine of two maps, listings included; iterators; reading any file ends.
    - FIDL messages.  [FidlFormat] states the wire format of every type apart from the
      code, [FidlLogic] the rules about encoding and decoding code, [FidlLaws] to
      [FidlUniverse] that every type of the bindings writes and reads its format, tables with
      gaps in their ordinals and results without room for their values apart.
      [FidlClaims]: encoding gives the format, decoding gives the value back, alone or
      in a transaction, or the recursion limit is reported.  [FidlSafety] and
      [FidlSafetyUnions]: decoding any bytes gives a value or an error.
    - Futures and handles: no two threads poll a future at a time, no notification is
      lost, and a task that waits for a channel is woken.
    - FIDL clients ([FidlClientSafety], [FidlClientWakes], [FidlClientClaims]): no
      message and no interleaving make the client panic, and a query completes only
      with the decoded answer to it; calls return, and what a poll returns is stated; on an
      executor of one thread, with a task of its own for the event stream, no wakeup is lost.  Runs of several threads that lose a wakeup, or that reorder events, are
      given as examples.
    - Component declarations ([CmValid], [CmClaims]): the validator accepts exactly the
      well-formed declarations, stated without its order and its state, and never panics;
      the native form of what it accepts converts back to it; routing in it finds the
      one match, and sources and targets are declared.
    - Pseudo file systems ([VfsFileTheorems], [VfsDirectoryTheorems], [VfsClaims]): nothing
      that clients or the owner do makes a tree panic, unless the kernel refuses the memory
      object of a buffer a client asked for, and rights stay within those
      that were given, for clients that do not truncate what they may not write; each
      connection to a file sees its own session of reads and writes; a watcher knows the
      names of a directory; listings are complete while entries come and go.  What clients
      that do truncate, or clone with [OPEN_FLAG_POSIX], can do is given as examples.

    ** What is not modelled

    System calls and the rest of the repository (its C++ and Go services, and the Rust
    services and libraries that
    are not named above).  Memory that another process changes while it is read is
    modelled for shared buffers; snapshots of a VMO are taken of one state.  Of
    Inspect: the singleton of [component.rs], the test helpers of [testing.rs] and
    serving a VMO over a directory.  Of Merkle trees: the hexadecimal text of a
    hash.  Of character collections: the table of Unicode blocks and the
    [char_collect!] macro.  Of packets: the reinterpretation of bytes as typed objects
    ([zerocopy]).  Of the stash: that a memory object is changed by others who hold it
    after it was given as a value.  Of Wayland: failing allocations, conversion of fixed point numbers to floating point, and
    the generator of protocol code.  Of FIDL: types that refer to themselves, the
    arithmetic of floating point numbers (they are their bits), servers and the traits
    of [endpoints.rs] that generated code implements.  Of the executor: timers, sockets,
    fifos, the run loops and their task queues.  In the client a read of the channel is
    one step, whose own steps are those of [AsyncHandle].  Of component declarations: the
    texts of errors, and manifests in JSON.  Of pseudo file systems: lazy and controlled
    directories, files with asynchronous handlers, and the registration of wakers; the
    order in which [poll] visits nodes and connections is any. *)

From stdpp Require Export base numbers list list_numbers gmap strings.
From Stdlib Require Export ZArith Lia.

#[global] Open Scope Z_scope.

(** * Outcomes of Rust code

    [Ok] and [Err] are the two constructors of [Result].  [Panic] is a Rust
    panic: a failed [unwrap]/[expect], an index out of range, an assertion, or
    an arithmetic overflow (the code is read with overflow checks on).
    [OutOfFuel] is not an outcome of the program; it marks a bounded unrolling
    of a loop that was cut short, and the termination theorems exclude it. *)
Inductive result (E A : Type) : Type :=
| Ok (a : A)
| Err (e : E)
| Panic
| OutOfFuel.
Arguments Ok {E A} a.
Arguments Err {E A} e.
Arguments Panic {E A}.
Arguments OutOfFuel {E A}.

Definition rbind {E A B : Type} (r : result E A) (k : A → result E B) : result E B :=
  match r with
  | Ok a => k a
  | Err e => Err e
  | Panic => Panic
  | OutOfFuel => OutOfFuel
  end.

(** Computations that read and change a store of type [S].  The store is
    returned with every outcome: an [Err] keeps the writes made before it. *)
Definition M (E S A : Type) : Type := S → result E A * S.

Definition ret {E S A : Type} (a : A) : M E S A := λ s, (Ok a, s).
Definition fail {E S A : Type} (e : E) : M E S A := λ s, (Err e, s).
Definition panic {E S A : Type} : M E S A := λ s, (Panic, s).
Definition get_store {E S : Type} : M E S S := λ s, (Ok s, s).
Definition put_store {E S : Type} (s' : S) : M E S unit := λ _, (Ok tt, s').

Definition bind {E S A B : Type} (m : M E S A) (k : A → M E S B) : M E S B :=
  λ s, match m s with
       | (Ok a, s') => k a s'
       | (Err e, s') => (Err e, s')
       | (Panic, s') => (Panic, s')
       | (OutOfFuel, s') => (OutOfFuel, s')
       end.

(** A computation that only reads. *)
Definition reading {E S A : Type} (f : S → result E A) : M E S A := λ s, (f s, s).

(** A pure fallible value in a computation. *)
Definition lift {E S A : Type} (r : result E A) : M E S A := λ s, (r, s).

(** [expect]/[unwrap] on a [Result]: an error becomes a panic. *)
Definition runwrap {E A : Type} (r : result E A) : result E A :=
  match r with
  | Err _ => Panic
  | _ => r
  end.
Definition unwrap {E S A : Type} (m : M E S A) : M E S A :=
  λ s, match m s with
       | (Err _, s') => (Panic, s')
       | r => r
       end.

(** [expect]/[unwrap] on an [Option]. *)
Definition ounwrap {E A : Type} (o : option A) : result E A :=
  match o with
  | Some a => Ok a
  | None => Panic
  end.

(** The outcome of a computation as a value, errors included (the source's
    [match] on a [Result]); panics still propagate. *)
Definition try {E S A : Type} (m : M E S A) : M E S (A + E) :=
  λ s, match m s with
       | (Ok a, s') => (Ok (inl a), s')
       | (Err e, s') => (Ok (inr e), s')
       | (Panic, s') => (Panic, s')
       | (OutOfFuel, s') => (OutOfFuel, s')
       end.

Declare Scope rust_scope.
Delimit Scope rust_scope with rust.
Notation "x <- m ;; k" := (bind m (λ x, k))
  (at level 100, m at next level, right associativity) : rust_scope.
Notation "m ;;; k" := (bind m (λ _, k))
  (at level 100, right associativity) : rust_scope.
Notation "x <-? r ;; k" := (rbind r (λ x, k))
  (at level 100, r at next level, right associativity) : rust_scope.
Notation "r ;?; k" := (rbind r (λ _, k))
  (at level 100, right associativity) : rust_scope.
#[global] Open Scope rust_scope.

(** * Machine integers

    Unsigned [w]-bit integers are integers in [0, 2^w); [usize] is 64 bits
    wide.  Arithmetic panics when its result is not representable. *)
Definition uadd {E : Type} (w a b : Z) : result E Z :=
  if a + b <? 2 ^ w then Ok (a + b) else Panic.
Definition usub {E : Type} (a b : Z) : result E Z :=
  if b <=? a then Ok (a - b) else Panic.
Definition umul {E : Type} (w a b : Z) : result E Z :=
  if a * b <? 2 ^ w then Ok (a * b) else Panic.

(** Signed [w]-bit integers are integers in [-2^(w-1), 2^(w-1)). *)
Definition signed_ok (w x : Z) : bool :=
  (- 2 ^ (w - 1) <=? x) && (x <? 2 ^ (w - 1)).
Definition iadd {E : Type} (w a b : Z) : result E Z :=
  if signed_ok w (a + b) then Ok (a + b) else Panic.
Definition isub {E : Type} (w a b : Z) : result E Z :=
  if signed_ok w (a - b) then Ok (a - b) else Panic.
Definition imul {E : Type} (w a b : Z) : result E Z :=
  if signed_ok w (a * b) then Ok (a * b) else Panic.

(** Two's complement: the bits of a signed integer and back. *)
Definition to_unsigned (w x : Z) : Z := x mod 2 ^ w.
Definition to_signed (w x : Z) : Z := if x <? 2 ^ (w - 1) then x else x - 2 ^ w.

(** [to_le_bytes]/[from_le_bytes] of an [n]-byte integer. *)
Definition to_le_bytes (n v : Z) : list Z := Z_to_little_endian n 8 v.
Definition from_le_bytes (bs : list Z) : Z := little_endian_to_Z 8 bs.

Definition is_byte (b : Z) : Prop := 0 ≤ b < 256.
Definition bytes_ok (bs : list Z) : Prop := Forall is_byte bs.

(** Well-formed UTF-8, as [std::str::from_utf8] accepts it: no overlong forms,
    no surrogates, nothing above U+10FFFF. *)
Definition utf8_cont (b : Z) : bool := (0x80 <=? b) && (b <=? 0xBF).
Definition utf8_in (lo hi b : Z) : bool := (lo <=? b) && (b <=? hi).
Fixpoint utf8_valid (bs : list Z) : bool :=
  match bs with
  | [] => true
  | b :: t =>
      if utf8_in 0x00 0x7F b then utf8_valid t
      else if utf8_in 0xC2 0xDF b then
        match t with c1 :: t => utf8_cont c1 && utf8_valid t | _ => false end
      else if utf8_in 0xE0 0xEF b then
        match t with
        | c1 :: c2 :: t =>
            utf8_in (if b =? 0xE0 then 0xA0 else 0x80) (if b =? 0xED then 0x9F else 0xBF) c1
            && utf8_cont c2 && utf8_valid t
        | _ => false
        end
      else if utf8_in 0xF0 0xF4 b then
        match t with
        | c1 :: c2 :: c3 :: t =>
            utf8_in (if b =? 0xF0 then 0x90 else 0x80) (if b =? 0xF4 then 0x8F else 0xBF) c1
            && utf8_cont c2 && utf8_cont c3 && utf8_valid t
        | _ => false
        end
      else false
  end.

(** [String::from_utf8_lossy]: every maximal ill-formed sequence becomes U+FFFD.
    [utf8_next] is the length of the first character, or of the first
    ill-formed sequence. *)
Definition utf8_next (bs : list Z) : nat * bool :=
  let byte i := default (-1) (bs !! i) in
  let b := byte 0%nat in
  if utf8_in 0x00 0x7F b then (1, true)%nat
  else if utf8_in 0xC2 0xDF b then
    if utf8_cont (byte 1%nat) then (2, true)%nat else (1, false)%nat
  else if utf8_in 0xE0 0xEF b then
    if utf8_in (if b =? 0xE0 then 0xA0 else 0x80) (if b =? 0xED then 0x9F else 0xBF) (byte 1%nat)
    then if utf8_cont (byte 2%nat) then (3, true)%nat else (2, false)%nat
    else (1, false)%nat
  else if utf8_in 0xF0 0xF4 b then
    if utf8_in (if b =? 0xF0 then 0x90 else 0x80) (if b =? 0xF4 then 0x8F else 0xBF) (byte 1%nat)
    then if utf8_cont (byte 2%nat)
         then if utf8_cont (byte 3%nat) then (4, true)%nat else (3, false)%nat
         else (2, false)%nat
    else (1, false)%nat
  else (1, false)%nat.

Definition replacement_character : list Z := [0xEF; 0xBF; 0xBD].

Fixpoint lossy_loop (fuel : nat) (bs : list Z) : list Z :=
  match fuel, bs with
  | O, _ | _, [] => []
  | S fuel, _ =>
      let (n, good) := utf8_next bs in
      (if good then take n bs else replacement_character) ++ lossy_loop fuel (drop n bs)
  end.
Definition from_utf8_lossy (bs : list Z) : list Z := lossy_loop (length bs) bs.

(** * Byte ranges of a buffer *)
Definition zlen {A : Type} (l : list A) : Z := Z.of_nat (length l).
Definition zeros (n : Z) : list Z := replicate (Z.to_nat n) 0.
Definition slice {A : Type} (off n : Z) (m : list A) : list A :=
  take (Z.to_nat n) (drop (Z.to_nat off) m).
Definition splice {A : Type} (off : Z) (bs m : list A) : list A :=
  take (Z.to_nat off) m ++ bs ++ drop (Z.to_nat off + length bs) m.

(** * Automation

    [cases] splits the booleans and options a goal matches on; the hint
    database [rust] holds the rewriting lemmas of the outcome monad and of
    byte ranges. *)
Create HintDb rust.

Ltac cases_bool :=
  match goal with
  | |- context [if ?b then _ else _] => destruct b eqn:?
  | H : context [if ?b then _ else _] |- _ => destruct b eqn:?
  end.

Ltac to_props :=
  repeat match goal with
  | H : (_ <? _) = true |- _ => apply Z.ltb_lt in H
  | H : (_ <? _) = false |- _ => apply Z.ltb_ge in H
  | H : (_ <=? _) = true |- _ => apply Z.leb_le in H
  | H : (_ <=? _) = false |- _ => apply Z.leb_gt in H
  | H : (_ =? _) = true |- _ => apply Z.eqb_eq in H
  | H : (_ =? _) = false |- _ => apply Z.eqb_neq in H
  | H : _ && _ = true |- _ => apply andb_true_iff in H as [? ?]
  | H : _ || _ = false |- _ => apply orb_false_iff in H as [? ?]
  | H : negb _ = true |- _ => apply negb_true_iff in H
  | H : negb _ = false |- _ => apply negb_false_iff in H
  end.

(** Boolean comparisons of the source decided by linear arithmetic. *)
Ltac by_ltb :=
  first [ rewrite (proj2 (Z.ltb_lt _ _)) by lia
        | rewrite (proj2 (Z.ltb_ge _ _)) by lia
        | rewrite (proj2 (Z.leb_le _ _)) by lia
        | rewrite (proj2 (Z.leb_gt _ _)) by lia
        | rewrite (proj2 (Z.eqb_eq _ _)) by lia
        | rewrite (proj2 (Z.eqb_neq _ _)) by lia ].

(** * Outcome monad laws *)
Section monad.
Context {E S A B : Type}.
Implicit Types (m : M E S A) (k : A → M E S B) (s : S).

Lemma bind_ok m k s s' a : m s = (Ok a, s') → bind m k s = k a s'.
Proof. unfold bind. by intros ->. Qed.
Lemma bind_err m k s s' e : m s = (Err e, s') → bind m k s = (Err e, s').
Proof. unfold bind. by intros ->. Qed.
Lemma bind_panic m k s s' : m s = (Panic, s') → bind m k s = (Panic, s').
Proof. unfold bind. by intros ->. Qed.
Lemma bind_lift (r : result E A) k s a : r = Ok a → bind (lift r) k s = k a s.
Proof. by intros ->. Qed.
Lemma bind_get_store (k : S → M E S B) s : bind get_store k s = k s s.
Proof. done. Qed.
Lemma bind_ends m k s :
  fst (m s) ≠ OutOfFuel → (∀ x s', m s = (Ok x, s') → fst (k x s') ≠ OutOfFuel) → fst (bind m k s) ≠ OutOfFuel.
Proof. unfold bind. destruct (m s) as [[x|e| |] s']; intros Hm Hk; try done. by apply Hk. Qed.

(** A sequence that succeeds is two computations that succeed. *)
Lemma bind_ok_inv m k s s' b :
  bind m k s = (Ok b, s') → ∃ a s1, m s = (Ok a, s1) ∧ k a s1 = (Ok b, s').
Proof.
  unfold bind. destruct (m s) as [[a|e| |] s1] eqn:Hm; intros Hk; simplify_eq.
  by exists a, s1.
Qed.
Lemma rbind_ok_inv (r : result E A) (k : A → result E B) b :
  rbind r k = Ok b → ∃ a, r = Ok a ∧ k a = Ok b.
Proof. destruct r; simpl; intros; simplify_eq; eauto. Qed.
Lemma unwrap_ok m s s' a : m s = (Ok a, s') → unwrap m s = (Ok a, s').
Proof. unfold unwrap. by intros ->. Qed.
Lemma try_ok m s s' a : m s = (Ok a, s') → try m s = (Ok (inl a), s').
Proof. unfold try. by intros ->. Qed.
Lemma try_err m s s' e : m s = (Err e, s') → try m s = (Ok (inr e), s').
Proof. unfold try. by intros ->. Qed.
End monad.

(** One step of a computation: the first command by its lemma, or a pure value. *)
Ltac step H := first [ rewrite (bind_lift _ _ _ _ H) | rewrite (bind_ok _ _ _ _ _ H) ].

Lemma uadd_ok {E} w a b : a + b < 2 ^ w → @uadd E w a b = Ok (a + b).
Proof. intros. unfold uadd. by by_ltb. Qed.
Lemma usub_ok {E} a b : b ≤ a → @usub E a b = Ok (a - b).
Proof. intros. unfold usub. by by_ltb. Qed.
Lemma umul_ok {E} w a b : a * b < 2 ^ w → @umul E w a b = Ok (a * b).
Proof. intros. unfold umul. by by_ltb. Qed.

(** * Byte ranges *)
Section ranges.
Context {A : Type}.
Implicit Types (m bs : list A).

Lemma zlen_nonneg m : 0 ≤ zlen m.
Proof. unfold zlen. lia. Qed.
Lemma zlen_app m bs : zlen (m ++ bs) = zlen m + zlen bs.
Proof. unfold zlen. rewrite length_app. lia. Qed.

Lemma lookup_slice m off n (i : nat) :
  0 ≤ off → slice off n m !! i =
  if decide (Z.of_nat i < n) then m !! (Z.to_nat off + i)%nat else None.
Proof.
  intros ?. unfold slice. case_decide.
  - rewrite lookup_take_lt by lia. by rewrite lookup_drop.
  - apply lookup_take_ge. lia.
Qed.

Lemma zlen_slice m off n :
  0 ≤ off → 0 ≤ n → off + n ≤ zlen m → zlen (slice off n m) = n.
Proof. unfold zlen, slice. rewrite length_take, length_drop. lia. Qed.

Lemma zlen_splice m off bs :
  0 ≤ off → off + zlen bs ≤ zlen m → zlen (splice off bs m) = zlen m.
Proof.
  unfold zlen, splice. rewrite !length_app, length_take, length_drop. lia.
Qed.

Lemma lookup_splice m off bs (j : nat) :
  0 ≤ off → off + zlen bs ≤ zlen m →
  splice off bs m !! j =
  if decide (off ≤ Z.of_nat j < off + zlen bs)
  then bs !! (j - Z.to_nat off)%nat else m !! j.
Proof.
  unfold zlen, splice. intros ??. case_decide.
  - rewrite lookup_app_r; rewrite length_take; [|lia].
    rewrite lookup_app_l by lia. f_equal. lia.
  - destruct (decide (Z.of_nat j < off)).
    + rewrite lookup_app_l by (rewrite length_take; lia).
      by rewrite lookup_take_lt by lia.
    + rewrite lookup_app_r; rewrite length_take; [|lia].
      rewrite lookup_app_r by lia. rewrite lookup_drop. f_equal. lia.
Qed.

Lemma slice_splice_same m off bs :
  0 ≤ off → off + zlen bs ≤ zlen m → slice off (zlen bs) (splice off bs m) = bs.
Proof.
  intros ??. apply list_eq. intros i. rewrite lookup_slice by done.
  case_decide as Hi.
  - rewrite lookup_splice by done. rewrite decide_True by lia. f_equal. lia.
  - symmetry. apply lookup_ge_None. unfold zlen in Hi. lia.
Qed.

Lemma slice_splice_disjoint m off bs off' n :
  0 ≤ off → off + zlen bs ≤ zlen m → 0 ≤ off' →
  off' + n ≤ off ∨ off + zlen bs ≤ off' →
  slice off' n (splice off bs m) = slice off' n m.
Proof.
  intros ????. apply list_eq. intros i. rewrite !lookup_slice by done.
  case_decide; [|done]. rewrite lookup_splice by done.
  by rewrite decide_False by lia.
Qed.

(** A write of the bytes already there changes nothing. *)
Lemma splice_slice m off n :
  0 ≤ off → 0 ≤ n → off + n ≤ zlen m → splice off (slice off n m) m = m.
Proof.
  intros ???. apply list_eq. intros i.
  rewrite lookup_splice; rewrite ?zlen_slice by lia; try lia.
  case_decide; [|done]. rewrite lookup_slice by done.
  rewrite decide_True by lia. f_equal. lia.
Qed.
End ranges.

(** * Little-endian integers *)
Section le_bytes.
Lemma zlen_to_le_bytes n v : 0 ≤ n → zlen (to_le_bytes n v) = n.
Proof. intros. unfold zlen, to_le_bytes. by apply length_Z_to_little_endian. Qed.

Lemma from_to_le_bytes n v :
  0 ≤ n → 0 ≤ v < 2 ^ (8 * n) → from_le_bytes (to_le_bytes n v) = v.
Proof.
  intros. unfold from_le_bytes, to_le_bytes.
  rewrite little_endian_to_Z_to_little_endian by lia.
  apply Z.mod_small. by replace (n * 8) with (8 * n) by lia.
Qed.

Lemma to_le_bytes_ok n v : 0 ≤ n → bytes_ok (to_le_bytes n v).
Proof. intros. by apply (Z_to_little_endian_bound n 8 v). Qed.

Lemma from_le_bytes_bound bs : bytes_ok bs → 0 ≤ from_le_bytes bs < 2 ^ (8 * zlen bs).
Proof.
  intros. rewrite Z.mul_comm. apply (little_endian_to_Z_bound 8 bs); [lia|done].
Qed.
End le_bytes.

(** Two's complement round trip. *)
Lemma to_signed_unsigned w x :
  0 < w → - 2 ^ (w - 1) ≤ x < 2 ^ (w - 1) → to_signed w (to_unsigned w x) = x.
Proof.
  intros Hw Hx. unfold to_signed, to_unsigned.
  assert (2 ^ w = 2 * 2 ^ (w - 1)) as Hp.
  { rewrite <- Z.pow_succ_r by lia. f_equal. lia. }
  destruct (decide (0 ≤ x)).
  - rewrite Z.mod_small by lia. by by_ltb.
  - replace (x mod 2 ^ w) with (x + 2 ^ w); [by_ltb; lia|].
    rewrite <- (Z.mod_small (x + 2 ^ w) (2 ^ w)) by lia.
    by rewrite <- Z.add_mod_idemp_r, Z.mod_same, Z.add_0_r by lia.
Qed.

(** Buffers of bytes stay buffers of bytes. *)
Lemma bytes_ok_slice off n m : bytes_ok m → bytes_ok (slice off n m).
Proof. intros. unfold slice. by apply Forall_take, Forall_drop. Qed.
Lemma bytes_ok_splice off bs m : bytes_ok bs → bytes_ok m → bytes_ok (splice off bs m).
Proof.
  intros. unfold splice, bytes_ok. rewrite !Forall_app.
  auto using Forall_take, Forall_drop.
Qed.
Lemma bytes_ok_zeros n : bytes_ok (zeros n).
Proof. apply Forall_replicate. unfold is_byte. lia. Qed.
#[export] Hint Resolve bytes_ok_slice bytes_ok_splice bytes_ok_zeros to_le_bytes_ok : rust.

(** * Powers of two *)
Section pow2.
Lemma pow2_pos k : 0 ≤ k → 0 < 2 ^ k.
Proof. intros. by apply Z.pow_pos_nonneg. Qed.

Lemma pow2_divide j k : 0 ≤ j ≤ k → (2 ^ j | 2 ^ k).
Proof.
  intros. exists (2 ^ (k - j)). rewrite <- Z.pow_add_r by lia. f_equal. lia.
Qed.

Lemma pow2_S k : 0 ≤ k → 2 ^ (k + 1) = 2 * 2 ^ k.
Proof. intros. rewrite Z.add_1_r. by apply Z.pow_succ_r. Qed.

Lemma div_mul_pow2 q k : 0 ≤ k → q * 2 ^ k / 2 ^ k = q.
Proof. intros. pose proof (pow2_pos k). by apply Z.div_mul; lia. Qed.

(** Flipping bit [k] of a multiple of [2^k] moves it to its sibling in the
    enclosing multiple of [2^(k+1)]. *)
Lemma lxor_pow2 b k :
  0 ≤ k → (2 ^ k | b) →
  Z.lxor b (2 ^ k) = if Z.even (b / 2 ^ k) then b + 2 ^ k else b - 2 ^ k.
Proof.
  intros Hk [q ->]. pose proof (pow2_pos k Hk). rewrite div_mul_pow2 by done.
  assert (∀ q', Z.even q' = true →
    Z.lxor (q' * 2 ^ k) (2 ^ k) = q' * 2 ^ k + 2 ^ k) as Heven.
  { intros q' [r ->]%Z.even_spec. symmetry. apply Z.add_nocarry_lxor.
    apply Z.bits_inj_0. intros i. rewrite Z.land_spec, Z.pow2_bits_eqb by done.
    destruct (Z.eqb_spec k i) as [<-|]; [|apply andb_false_r].
    rewrite Z.mul_pow2_bits, Z.sub_diag by done. by rewrite Z.testbit_even_0. }
  destruct (Z.even q) eqn:Hq; [by apply Heven|].
  replace (q * 2 ^ k) with ((q - 1) * 2 ^ k + 2 ^ k) by lia.
  rewrite <- Heven by (rewrite Z.even_sub, Hq; done).
  rewrite Z.lxor_assoc, Z.lxor_nilpotent, Z.lxor_0_r.
  rewrite Heven by (rewrite Z.even_sub, Hq; done). lia.
Qed.
End pow2.

(** * Lengths *)
Lemma zlen_zeros n : 0 ≤ n → zlen (zeros n) = n.
Proof. intros. unfold zlen, zeros. rewrite length_replicate. lia. Qed.
Lemma zlen_take {A} n (l : list A) : 0 ≤ n ≤ zlen l → zlen (take (Z.to_nat n) l) = n.
Proof. unfold zlen. intros. rewrite length_take. lia. Qed.
Lemma zlen_drop {A} n (l : list A) : 0 ≤ n ≤ zlen l → zlen (drop (Z.to_nat n) l) = zlen l - n.
Proof. unfold zlen. intros. rewrite length_drop. lia. Qed.

(** * Valid strings are unchanged by [from_utf8_lossy] *)
(** The lengths [utf8_next] finds are those of [utf8_valid]. *)
Lemma utf8_next_valid b bs : utf8_valid (b :: bs) = true →
  ∃ n, utf8_next (b :: bs) = (S n, true) ∧ (n ≤ length bs)%nat ∧ utf8_valid (drop n bs) = true.
Proof.
  unfold utf8_next. cbv zeta. change (default (-1) ((b :: bs) !! 0%nat)) with b. cbn [utf8_valid].
  destruct (utf8_in 0x00 0x7F b); [intros H; exists 0%nat; split_and!; [done|lia|done]|].
  destruct (utf8_in 0xC2 0xDF b).
  { destruct bs as [|c1 bs]; [done|]. intros [H1 H]%andb_prop. cbn. rewrite H1. exists 1%nat. split_and!; [done|lia|done]. }
  destruct (utf8_in 0xE0 0xEF b).
  { destruct bs as [|c1 [|c2 bs]]; [done..|]. intros [[H1 H2]%andb_prop H]%andb_prop. cbn. rewrite H1, H2.
    exists 2%nat. split_and!; [done|lia|done]. }
  destruct (utf8_in 0xF0 0xF4 b); [|done].
  destruct bs as [|c1 [|c2 [|c3 bs]]]; [done..|]. intros [[[H1 H2]%andb_prop H3]%andb_prop H]%andb_prop. cbn. rewrite H1, H2, H3.
  exists 3%nat. split_and!; [done|lia|done].
Qed.
Lemma from_utf8_lossy_valid bs : utf8_valid bs = true → from_utf8_lossy bs = bs.
Proof.
  unfold from_utf8_lossy. assert (∀ fuel l, (length l ≤ fuel)%nat → utf8_valid l = true → lossy_loop fuel l = l) as Hloop; [|by apply Hloop].
  induction fuel as [|fuel IH]; intros [|b l] Hf Hv; cbn [length] in Hf; [done|lia|done|].
  cbn [lossy_loop]. destruct (utf8_next_valid b l Hv) as (n&->&Hn&Hd). rewrite skipn_cons, IH; [|rewrite length_drop; lia|done].
  by rewrite firstn_cons, <- app_comm_cons, take_drop.
Qed.
