(* ===== verification/Std.v ===== *)
(** What several components use of Rust's standard library: readers, writers and
    cursors over bytes ([std::io]), ordered maps ([BTreeMap]) and binary search
    on slices; and the class of the integers of the [byteorder] package. *)

From stdpp Require Import sorting.
From S2P Require Import Prelude.

(** * [std::io] *)
Definition io_error := Z.

(** A writer is a state with [write_all] and [flush]. *)
Class Write (W : Type) := {
  write_all : list Z → W → (io_error + unit) * W;
  flush : W → (io_error + unit) * W
}.

(** A [Vec<u8>] accepts every write at its end. *)
#[export] Instance vec_write : Write (list Z) :=
  {| write_all := λ buf w, (inr tt, w ++ buf); flush := λ w, (inr tt, w) |}.

(** A reader is the list of the results of its successive [read]s; once they are
    used up every [read] is empty.  An interrupted read is retried by the
    callers in the standard library and is not listed. *)
Definition reads : Type := list (io_error + list Z).

(** [std::io::copy]: everything up to the first empty read goes to the writer. *)
Fixpoint io_copy {W : Type} `{!Write W} (contents : reads) (copied : Z) (target : W)
    : (io_error + Z) * W :=
  match contents with
  | [] | inr [] :: _ => (inr copied, target)
  | inl e :: _ => (inl e, target)
  | inr buf :: contents =>
      match write_all buf target with
      | (inl e, target) => (inl e, target)
      | (inr _, target) => io_copy contents (copied + zlen buf) target
      end
  end.

(** The bytes a reader gives before its end, when it gives no error. *)
Fixpoint read_all (contents : reads) : option (list Z) :=
  match contents with
  | [] | inr [] :: _ => Some []
  | inl _ :: _ => None
  | inr buf :: contents => (λ bs, buf ++ bs) <$> read_all contents
  end.

Lemma io_copy_vec contents copied (target bs : list Z) :
  read_all contents = Some bs →
  io_copy contents copied target = (inr (copied + zlen bs), target ++ bs).
Proof.
  revert copied target bs. induction contents as [|[e|[|b buf]] contents IH]; intros copied target bs Hr.
  - cbn in Hr. simplify_eq. cbn. by rewrite Z.add_0_r, app_nil_r.
  - done.
  - cbn in Hr. simplify_eq. cbn. by rewrite Z.add_0_r, app_nil_r.
  - cbn [read_all] in Hr. destruct (read_all contents) as [bs'|] eqn:E; [|done].
    cbn [fmap option_fmap option_map] in Hr. injection Hr as <-.
    cbn [io_copy write_all vec_write]. rewrite (IH _ _ bs') by done.
    rewrite <- app_assoc. unfold zlen. cbn [length app]. rewrite length_app. do 2 f_equal. lia.
Qed.

(** A cursor: bytes and a position, which may be past their end. *)
Record Cursor := { cursor_bytes : list Z; position : Z }.
Definition unexpected_eof : io_error := 0.

Definition seek_start (pos : Z) (self : Cursor) : Cursor :=
  {| cursor_bytes := cursor_bytes self; position := pos |}.

(** [read] fills as much of a buffer of [n] bytes as it can; [read_exact] fails
    when it cannot fill it, and then stays where it is. *)
Definition cursor_read (n : Z) (self : Cursor) : list Z * Cursor :=
  let bs := slice (position self) n (cursor_bytes self) in
  (bs, {| cursor_bytes := cursor_bytes self; position := position self + zlen bs |}).
Definition read_exact (n : Z) (self : Cursor) : (io_error + list Z) * Cursor :=
  let (bs, self') := cursor_read n self in
  if zlen bs =? n then (inr bs, self') else (inl unexpected_eof, self).

Lemma slice_app_mid {A : Type} (a b c : list A) : slice (zlen a) (zlen b) (a ++ b ++ c) = b.
Proof.
  unfold slice, zlen. rewrite !Nat2Z.id, drop_app_length, take_app_length. done.
Qed.

Lemma read_exact_app (a b c : list Z) :
  read_exact (zlen b) {| cursor_bytes := a ++ b ++ c; position := zlen a |}
  = (inr b, {| cursor_bytes := a ++ b ++ c; position := zlen a + zlen b |}).
Proof.
  unfold read_exact, cursor_read. cbn [cursor_bytes position]. rewrite slice_app_mid.
  by rewrite Z.eqb_refl.
Qed.

(** A write to a cursor over a [Vec<u8>] replaces what is at the position and
    extends the vector; it does not fail. *)
Definition cursor_write (bs : list Z) (self : Cursor) : Cursor :=
  let padded := cursor_bytes self ++ zeros (position self - zlen (cursor_bytes self)) in
  {| cursor_bytes := splice (position self) bs padded; position := position self + zlen bs |}.

Lemma cursor_write_end (a bs : list Z) :
  cursor_write bs {| cursor_bytes := a; position := zlen a |}
  = {| cursor_bytes := a ++ bs; position := zlen a + zlen bs |}.
Proof.
  unfold cursor_write. cbn [cursor_bytes position]. rewrite Z.sub_diag. cbn [zeros Z.to_nat replicate].
  unfold splice, zlen. rewrite app_nil_r, Nat2Z.id, firstn_all, drop_ge by lia. by rewrite app_nil_r.
Qed.

(** * Integers of the [byteorder] package *)
Class ByteOrder := {
  write_int : Z → Z → list Z;
  read_int : list Z → Z
}.
Class ByteOrderSpec `{!ByteOrder} := {
  write_int_length n v : 0 ≤ n → zlen (write_int n v) = n;
  read_write_int n v : 0 ≤ n → 0 ≤ v < 2 ^ (8 * n) → read_int (write_int n v) = v;
  read_int_bound bs : bytes_ok bs → 0 ≤ read_int bs < 2 ^ (8 * zlen bs)
}.

(** Little-endian integers, an instance. *)
Definition le_order : ByteOrder := {| write_int := to_le_bytes; read_int := from_le_bytes |}.
Lemma le_order_spec : @ByteOrderSpec le_order.
Proof. split; [apply zlen_to_le_bytes|apply from_to_le_bytes|apply from_le_bytes_bound]. Qed.

(** * Strings in byte order and [BTreeMap] *)
Fixpoint bytes_compare (a b : list Z) : comparison :=
  match a, b with
  | [], [] => Eq
  | [], _ :: _ => Lt
  | _ :: _, [] => Gt
  | x :: a, y :: b => match Z.compare x y with Eq => bytes_compare a b | c => c end
  end.
Definition bytes_lt (a b : list Z) : Prop := bytes_compare a b = Lt.

Lemma bytes_compare_eq a b : bytes_compare a b = Eq ↔ a = b.
Proof.
  revert b. induction a as [|x a IH]; intros [|y b]; cbn [bytes_compare]; try done.
  destruct (Z.compare_spec x y) as [->|Hlt|Hlt].
  - rewrite IH. split; [by intros ->|by intros [= ->]].
  - split; [done|]. intros [= ? ?]. lia.
  - split; [done|]. intros [= ? ?]. lia.
Qed.
Lemma bytes_compare_antisym a b : bytes_compare b a = CompOpp (bytes_compare a b).
Proof.
  revert b. induction a as [|x a IH]; intros [|y b]; cbn [bytes_compare]; try done.
  rewrite (Z.compare_antisym x y). destruct (x ?= y); cbn [CompOpp]; auto.
Qed.
#[export] Instance bytes_lt_trans : Transitive bytes_lt.
Proof.
  intros a. unfold bytes_lt. induction a as [|x a IH]; intros [|y b] [|z c]; cbn [bytes_compare]; try done.
  destruct (Z.compare_spec x y) as [->|Hxy|Hxy]; [|intros _|done].
  - destruct (y ?= z); [apply IH|done|done].
  - destruct (Z.compare_spec y z) as [->|Hyz|Hyz]; intros H; try done;
      by rewrite (proj2 (Z.compare_lt_iff _ _)) by lia.
Qed.
#[export] Instance bytes_lt_irrefl : Irreflexive bytes_lt.
Proof. intros a Ha. unfold bytes_lt in Ha. by rewrite (proj2 (bytes_compare_eq a a)) in Ha. Qed.

(** A map from strings, as the list of its entries in the order of the keys. *)
Definition BTreeMap (V : Type) : Type := list (list Z * V).

Section btree.
Context {V : Type}.
Implicit Types (m : BTreeMap V) (k : list Z) (v : V).

Fixpoint bt_insert k v m : BTreeMap V :=
  match m with
  | [] => [(k, v)]
  | (k', v') :: m' =>
      match bytes_compare k k' with
      | Lt => (k, v) :: m
      | Eq => (k, v) :: m'
      | Gt => (k', v') :: bt_insert k v m'
      end
  end.
Fixpoint bt_get k m : option V :=
  match m with
  | [] => None
  | (k', v') :: m' => if decide (k = k') then Some v' else bt_get k m'
  end.
Definition bt_keys m : list (list Z) := map fst m.
Definition bt_sorted m : Prop := StronglySorted bytes_lt (bt_keys m).

(** Entries inserted in the order of their keys are the map itself. *)
Lemma bt_insert_last k v m :
  Forall (λ k', bytes_lt k' k) (bt_keys m) → bt_insert k v m = m ++ [(k, v)].
Proof.
  induction m as [|[k' v'] m IH]; cbn [bt_keys map fst bt_insert]; [done|].
  intros [Hk Hm]%Forall_cons. rewrite bytes_compare_antisym, Hk. cbn [CompOpp app]. by rewrite IH.
Qed.

Lemma bt_sorted_app m k v m' :
  bt_sorted (m ++ (k, v) :: m') → Forall (λ k', bytes_lt k' k) (bt_keys m).
Proof.
  unfold bt_sorted, bt_keys. induction m as [|[k' v'] m IH]; cbn [app map fst]; [done|].
  intros [Hs Hf]%StronglySorted_inv. constructor; [|by apply IH].
  rewrite map_app in Hf. apply Forall_app in Hf as [_ Hf]. by apply Forall_cons in Hf as [? _].
Qed.

Lemma bt_get_sorted m k v : bt_sorted m → (k, v) ∈ m → bt_get k m = Some v.
Proof.
  unfold bt_sorted, bt_keys. induction m as [|[k' v'] m IH]; cbn [map fst bt_get].
  - by intros _ H%not_elem_of_nil.
  - intros [Hs Hf]%StronglySorted_inv Hin. apply elem_of_cons in Hin as [Heq|Hin].
    + injection Heq as -> ->. by rewrite decide_True.
    + rewrite decide_False; [by apply IH|]. intros ->.
      rewrite Forall_forall in Hf. apply (bytes_lt_irrefl k'), Hf.
      apply list_elem_of_In, in_map_iff. exists (k', v). split; [done|]. by apply list_elem_of_In.
Qed.
Lemma bt_get_none m k : k ∉ bt_keys m → bt_get k m = None.
Proof.
  induction m as [|[k' v'] m IH]; cbn [bt_keys map fst bt_get]; [done|].
  intros [Hne Hm]%not_elem_of_cons. rewrite decide_False by done. by apply IH.
Qed.
Lemma bt_get_elem m k v : bt_get k m = Some v → (k, v) ∈ m.
Proof.
  induction m as [|[k' v'] m IH]; cbn [bt_get]; [done|]. case_decide as Hk; [|intros Hv; right; by apply IH].
  intros [= ->]. subst. by left.
Qed.
Lemma bt_insert_forall (P : list Z * V → Prop) m k v : P (k, v) → Forall P m → Forall P (bt_insert k v m).
Proof.
  intros Hk. induction 1 as [|[k' v'] m Hx Hm IH]; cbn [bt_insert]; [by constructor|].
  destruct (bytes_compare k k'); by repeat constructor.
Qed.
Lemma bt_keys_forall (P : list Z → Prop) m : Forall P (bt_keys m) ↔ Forall (λ e, P e.1) m.
Proof. unfold bt_keys. apply Forall_fmap. Qed.
Lemma bt_insert_sorted m k v : bt_sorted m → bt_sorted (bt_insert k v m).
Proof.
  unfold bt_sorted. induction m as [|[k' v'] m IH]; cbn [bt_insert bt_keys map fst]; [intros _; by repeat constructor|].
  intros Hs. pose proof Hs as [Hm Hf]%StronglySorted_inv. destruct (bytes_compare k k') eqn:Ek; cbn [bt_keys map fst].
  - apply bytes_compare_eq in Ek as ->. done.
  - constructor; [done|]. constructor; [done|]. eapply Forall_impl; [exact Hf|]. intros x Hx. by etrans.
  - constructor; [by apply IH|]. apply bt_keys_forall, bt_insert_forall; [|by apply bt_keys_forall].
    unfold bytes_lt. cbn. by rewrite bytes_compare_antisym, Ek.
Qed.
End btree.

(** * [binary_search_by] *)
Section search.
Context {A : Type} (f : A → comparison) (s : list A).

(** The size is halved, rounded up, until it is one. *)
Fixpoint search_loop (fuel base size : nat) : result nat nat :=
  match fuel with
  | O => OutOfFuel
  | S fuel =>
      if (1 <? size)%nat then
        let half := (size / 2)%nat in
        let mid := (base + half)%nat in
        x <-? ounwrap (s !! mid) ;;
        search_loop fuel (match f x with Gt => base | _ => mid end) (size - half)
      else Ok base
  end.
Definition binary_search_by : result nat nat :=
  match length s with
  | O => Err 0%nat
  | size =>
      base <-? search_loop size 0 size ;;
      x <-? ounwrap (s !! base) ;;
      match f x with
      | Eq => Ok base
      | Lt => Err (S base)
      | Gt => Err base
      end
  end.

(** The comparison is below, then equal, then above, as the position grows. *)
Definition monotone : Prop := ∀ (i j : nat) x y,
  (i < j)%nat → s !! i = Some x → s !! j = Some y → (f y = Lt → f x = Lt) ∧ (f x = Gt → f y = Gt).

Lemma search_loop_ok fuel base size :
  monotone → (0 < size ≤ fuel)%nat → (base + size ≤ length s)%nat →
  (base = 0%nat ∨ ∃ x, s !! base = Some x ∧ f x ≠ Gt) →
  (∀ j x, (base + size ≤ j)%nat → s !! j = Some x → f x = Gt) →
  ∃ b, search_loop fuel base size = Ok b ∧ (b < length s)%nat ∧
    (b = 0%nat ∨ ∃ x, s !! b = Some x ∧ f x ≠ Gt) ∧ (∀ j x, (b < j)%nat → s !! j = Some x → f x = Gt).
Proof.
  intros Hm. revert base size. induction fuel as [|fuel IH]; intros base size Hs Hb Hlow Hhigh; [lia|].
  cbn [search_loop]. destruct (Nat.ltb_spec 1 size) as [H1|H1].
  - pose proof (Nat.div_mod_eq size 2). pose proof (Nat.mod_upper_bound size 2).
    destruct (lookup_lt_is_Some_2 s (base + size / 2)) as [x Hx]; [lia|].
    rewrite Hx. cbn [ounwrap rbind]. destruct (f x) eqn:Hf.
    1,2: apply IH; [lia|lia|right; exists x; rewrite Hf; done|intros j y Hj; apply Hhigh; lia].
    apply IH; [lia|lia|done|]. intros j y Hj Hy.
    destruct (decide (j = base + size / 2)%nat) as [->|]; [by simplify_eq|].
    by apply (Hm (base + size / 2)%nat j x y); [lia|..].
  - assert (size = 1%nat) as -> by lia. exists base. split; [done|]. split; [lia|]. split; [done|].
    intros j x Hj. apply Hhigh. lia.
Qed.

(** The position found, or the one where the value belongs. *)
Lemma binary_search_spec :
  monotone →
  (∃ i x, binary_search_by = Ok i ∧ s !! i = Some x ∧ f x = Eq) ∨
  (∃ i, binary_search_by = Err i ∧ (i ≤ length s)%nat ∧
     (∀ j x, (j < i)%nat → s !! j = Some x → f x = Lt) ∧
     (∀ j x, (i ≤ j)%nat → s !! j = Some x → f x = Gt)).
Proof.
  intros Hm. unfold binary_search_by. destruct (length s) as [|n] eqn:Hl.
  { right. exists 0%nat. apply length_zero_iff_nil in Hl. rewrite Hl. split_and!; [done|lia|lia|done]. }
  destruct (search_loop_ok (S n) 0 (S n)) as (b&->&Hb&Hlow&Hhigh); [done|lia|lia|by left| |].
  { intros j x Hj Hx. apply lookup_lt_Some in Hx. lia. }
  cbn [rbind]. destruct (lookup_lt_is_Some_2 s b Hb) as [x Hx]. rewrite Hx. cbn [ounwrap rbind].
  destruct (f x) eqn:Hf.
  - left. by exists b, x.
  - right. exists (S b). split_and!; [done|lia| |intros j y Hj; apply Hhigh; lia].
    intros j y Hj Hy. destruct (decide (j = b)) as [->|]; [by simplify_eq|].
    by apply (Hm j b y x); [lia|..].
  - right. destruct Hlow as [->|(y&Hy&Hg)]; [|by simplify_eq]. exists 0%nat. split_and!; [done|lia|lia|].
    intros j y Hj Hy. destruct (decide (j = 0%nat)) as [->|]; [by simplify_eq|]. apply (Hhigh j y); [lia|done].
Qed.
End search.

(** * Splitting and joining strings *)
(** [str::split], which gives one piece more than there are separators, and [join]. *)
Fixpoint str_split (sep : Z) (s : list Z) : list (list Z) :=
  match s with
  | [] => [[]]
  | c :: s =>
      if c =? sep then [] :: str_split sep s
      else match str_split sep s with p :: ps => (c :: p) :: ps | [] => [[c]] end
  end.
Fixpoint str_join (sep : Z) (parts : list (list Z)) : list Z :=
  match parts with
  | [] => []
  | [p] => p
  | p :: parts => p ++ sep :: str_join sep parts
  end.
Lemma split_app sep a (parts : list (list Z)) :
  sep ∉ a → Forall (λ p, sep ∉ p) parts → str_split sep (a ++ concat (cons sep <$> parts)) = a :: parts.
Proof.
  intros Ha Hp. revert a Ha. induction parts as [|p parts IH]; intros a Ha.
  - cbn. rewrite app_nil_r. induction a as [|c a IHa]; [done|]. cbn. rewrite IHa by set_solver.
    destruct (Z.eqb_spec c sep); [set_solver|done].
  - apply Forall_cons in Hp as [Hp Hps]. induction a as [|c a IHa]; cbn.
    + rewrite Z.eqb_refl. by rewrite (IH Hps p Hp).
    + cbn in IHa. rewrite IHa by set_solver. destruct (Z.eqb_spec c sep); [set_solver|done].
Qed.
Lemma split_spec sep s :
  ∃ a parts, str_split sep s = a :: parts ∧ s = a ++ concat (cons sep <$> parts) ∧ Forall (λ p, sep ∉ p) (a :: parts).
Proof.
  induction s as [|c s (a&parts&E&->&H)]; [exists [], []; split_and!; [done..|]; constructor; [set_solver|done]|].
  cbn. destruct (Z.eqb_spec c sep) as [->|Hc].
  - exists [], (a :: parts). rewrite E. split_and!; [done..|]. constructor; [set_solver|done].
  - exists (c :: a), parts. rewrite E. split_and!; [done..|]. apply Forall_cons in H as [??]. constructor; [set_solver|done].
Qed.
Lemma join_concat sep p (parts : list (list Z)) : str_join sep (p :: parts) = p ++ concat (cons sep <$> parts).
Proof.
  revert p. induction parts as [|q parts IH]; intros p; [by rewrite app_nil_r|]. change (p ++ sep :: str_join sep (q :: parts) = p ++ sep :: q ++ concat (cons sep <$> parts)). by rewrite IH.
Qed.
