(* ===== verification/SharedBuffer.v ===== *)
(** Shared memory buffers: [src/public/rust/shared-buffer/src/lib.rs].

    A [SharedBufferInner] is a raw pointer and a length.  The memory it points
    into is an explicit store, a list of bytes indexed by address; the fences
    of the code order accesses of other processes and have no effect on it. *)

From S2P Require Import Prelude.

Record SharedBufferInner := { buf : Z; len : Z }.

Definition offset_from {E : Type} (ptr offset : Z) : result E Z := uadd 64 ptr offset.

(** How much of a copy of [copy_len] bytes at [offset] lies in a buffer of
    [range_len] bytes; [checked_add] is [None] on overflow. *)
Definition overlap (offset copy_len range_len : Z) : option Z :=
  if range_len <? offset then None
  else if (offset + copy_len <? 2 ^ 64) && (offset + copy_len <=? range_len)
       then Some copy_len
       else Some (range_len - offset).

(** [read_at] returns the new contents of [dst] and the number of bytes read. *)
Definition read_at {E : Type} (ram : list Z) (self : SharedBufferInner)
    (offset : Z) (dst : list Z) : result E (list Z * Z) :=
  match overlap offset (zlen dst) (len self) with
  | Some to_copy =>
      base <-? offset_from (buf self) offset ;;
      Ok (slice base to_copy ram ++ drop (Z.to_nat to_copy) dst, to_copy)
  | None => Panic
  end.

(** [write_at] returns the new memory and the number of bytes written. *)
Definition write_at {E : Type} (ram : list Z) (self : SharedBufferInner)
    (offset : Z) (src : list Z) : result E (list Z * Z) :=
  match overlap offset (zlen src) (len self) with
  | Some to_copy =>
      base <-? offset_from (buf self) offset ;;
      Ok (splice base (take (Z.to_nat to_copy) src) ram, to_copy)
  | None => Panic
  end.

(** Bounds of a [RangeBounds<usize>]. *)
Inductive Bound := Included (x : Z) | Excluded (x : Z) | Unbounded.

Definition canonicalize_lower_bound {E : Type} (bound : Bound) : result E Z :=
  match bound with
  | Included x => Ok x
  | Excluded x => uadd 64 x 1
  | Unbounded => Ok 0
  end.

Definition canonicalize_upper_bound {E : Type} (len : Z) (bound : Bound)
    : result E (option Z) :=
  b <-? match bound with
        | Included x => uadd 64 x 1
        | Excluded x => Ok x
        | Unbounded => Ok len
        end ;;
  Ok (if len <? b then None else Some b).

Definition canonicalize_range_infallible {E : Type} (len : Z) (start stop : Bound)
    : result E (Z * Z) :=
  lower <-? canonicalize_lower_bound start ;;
  o <-? canonicalize_upper_bound len stop ;;
  upper <-? ounwrap o ;;
  if lower <=? upper then Ok (lower, upper) else Panic.

Definition buf_slice {E : Type} (self : SharedBufferInner) (start stop : Bound)
    : result E SharedBufferInner :=
  range <-? canonicalize_range_infallible (len self) start stop ;;
  base <-? offset_from (buf self) (fst range) ;;
  Ok {| buf := base; len := snd range - fst range |}.

Definition split_at {E : Type} (self : SharedBufferInner) (idx : Z)
    : result E (SharedBufferInner * SharedBufferInner) :=
  if idx <=? len self then
    base <-? offset_from (buf self) idx ;;
    Ok ({| buf := buf self; len := idx |}, {| buf := base; len := len self - idx |})
  else Panic.

(** * The public handles

    [SharedBuffer] owns its memory, [SharedBufferSlice] may read a part of it
    and [SharedBufferSliceMut] read and write a part of it; their lifetimes are
    the type checker's business.  [write_volatile] on a local and the fences of
    [new], [acquire_writes], [release_writes] and [drop] leave memory alone. *)
Record SharedBuffer := { sb_inner : SharedBufferInner }.
Record SharedBufferSlice := { ss_inner : SharedBufferInner }.
Record SharedBufferSliceMut := { sm_inner : SharedBufferInner }.

Section handles.
Context {E : Type}.

Definition buffer_new (buf len : Z) : SharedBuffer := {| sb_inner := {| buf := buf; len := len |} |}.
Definition buffer_read (ram : list Z) (self : SharedBuffer) (dst : list Z)
    : result E (list Z * Z) := read_at ram (sb_inner self) 0 dst.
Definition buffer_read_at (ram : list Z) (self : SharedBuffer) (offset : Z) (dst : list Z)
    : result E (list Z * Z) := read_at ram (sb_inner self) offset dst.
Definition buffer_write (ram : list Z) (self : SharedBuffer) (src : list Z)
    : result E (list Z * Z) := write_at ram (sb_inner self) 0 src.
Definition buffer_write_at (ram : list Z) (self : SharedBuffer) (offset : Z) (src : list Z)
    : result E (list Z * Z) := write_at ram (sb_inner self) offset src.
Definition buffer_len (self : SharedBuffer) : Z := len (sb_inner self).
Definition buffer_slice (self : SharedBuffer) (start stop : Bound) : result E SharedBufferSlice :=
  inner <-? buf_slice (sb_inner self) start stop ;; Ok {| ss_inner := inner |}.
Definition buffer_slice_mut (self : SharedBuffer) (start stop : Bound)
    : result E SharedBufferSliceMut :=
  inner <-? buf_slice (sb_inner self) start stop ;; Ok {| sm_inner := inner |}.
Definition buffer_split_at (self : SharedBuffer) (idx : Z)
    : result E (SharedBufferSlice * SharedBufferSlice) :=
  ab <-? split_at (sb_inner self) idx ;;
  Ok ({| ss_inner := fst ab |}, {| ss_inner := snd ab |}).
Definition buffer_split_at_mut (self : SharedBuffer) (idx : Z)
    : result E (SharedBufferSliceMut * SharedBufferSliceMut) :=
  ab <-? split_at (sb_inner self) idx ;;
  Ok ({| sm_inner := fst ab |}, {| sm_inner := snd ab |}).
Definition as_ptr_len (self : SharedBuffer) : Z * Z := (buf (sb_inner self), len (sb_inner self)).
Definition consume (self : SharedBuffer) : Z * Z := (buf (sb_inner self), len (sb_inner self)).

Definition slice_read (ram : list Z) (self : SharedBufferSlice) (dst : list Z)
    : result E (list Z * Z) := read_at ram (ss_inner self) 0 dst.
Definition slice_read_at (ram : list Z) (self : SharedBufferSlice) (offset : Z) (dst : list Z)
    : result E (list Z * Z) := read_at ram (ss_inner self) offset dst.
Definition slice_slice (self : SharedBufferSlice) (start stop : Bound)
    : result E SharedBufferSlice :=
  inner <-? buf_slice (ss_inner self) start stop ;; Ok {| ss_inner := inner |}.
Definition slice_split_at (self : SharedBufferSlice) (idx : Z)
    : result E (SharedBufferSlice * SharedBufferSlice) :=
  ab <-? split_at (ss_inner self) idx ;;
  Ok ({| ss_inner := fst ab |}, {| ss_inner := snd ab |}).
Definition slice_len (self : SharedBufferSlice) : Z := len (ss_inner self).

Definition slice_mut_read (ram : list Z) (self : SharedBufferSliceMut) (dst : list Z)
    : result E (list Z * Z) := read_at ram (sm_inner self) 0 dst.
Definition slice_mut_read_at (ram : list Z) (self : SharedBufferSliceMut) (offset : Z)
    (dst : list Z) : result E (list Z * Z) := read_at ram (sm_inner self) offset dst.
Definition slice_mut_write (ram : list Z) (self : SharedBufferSliceMut) (src : list Z)
    : result E (list Z * Z) := write_at ram (sm_inner self) 0 src.
Definition slice_mut_write_at (ram : list Z) (self : SharedBufferSliceMut) (offset : Z)
    (src : list Z) : result E (list Z * Z) := write_at ram (sm_inner self) offset src.
Definition slice_mut_slice (self : SharedBufferSliceMut) (start stop : Bound)
    : result E SharedBufferSlice :=
  inner <-? buf_slice (sm_inner self) start stop ;; Ok {| ss_inner := inner |}.
Definition slice_mut_slice_mut (self : SharedBufferSliceMut) (start stop : Bound)
    : result E SharedBufferSliceMut :=
  inner <-? buf_slice (sm_inner self) start stop ;; Ok {| sm_inner := inner |}.
Definition slice_mut_split_at (self : SharedBufferSliceMut) (idx : Z)
    : result E (SharedBufferSlice * SharedBufferSlice) :=
  ab <-? split_at (sm_inner self) idx ;;
  Ok ({| ss_inner := fst ab |}, {| ss_inner := snd ab |}).
Definition slice_mut_split_at_mut (self : SharedBufferSliceMut) (idx : Z)
    : result E (SharedBufferSliceMut * SharedBufferSliceMut) :=
  ab <-? split_at (sm_inner self) idx ;;
  Ok ({| sm_inner := fst ab |}, {| sm_inner := snd ab |}).
Definition slice_mut_len (self : SharedBufferSliceMut) : Z := len (sm_inner self).

(** * Derived handles *)
Inductive handle :=
  | HBuffer (b : SharedBuffer)
  | HSlice (s : SharedBufferSlice)
  | HSliceMut (s : SharedBufferSliceMut).
Definition inner (h : handle) : SharedBufferInner :=
  match h with HBuffer b => sb_inner b | HSlice s => ss_inner s | HSliceMut s => sm_inner s end.

(** Numbers of the code are unsigned. *)
Definition bound_ok (b : Bound) : Prop :=
  match b with Included x | Excluded x => 0 ≤ x | Unbounded => True end.

(** [derives h h']: a method of [h] returns [h']. *)
Inductive derives : handle → handle → Prop :=
  | d_slice b x y s : bound_ok x → buffer_slice b x y = Ok s → derives (HBuffer b) (HSlice s)
  | d_slice_mut b x y s :
      bound_ok x → buffer_slice_mut b x y = Ok s → derives (HBuffer b) (HSliceMut s)
  | d_split b i s s' h : 0 ≤ i → buffer_split_at b i = Ok (s, s') →
      h = HSlice s ∨ h = HSlice s' → derives (HBuffer b) h
  | d_split_mut b i s s' h : 0 ≤ i → buffer_split_at_mut b i = Ok (s, s') →
      h = HSliceMut s ∨ h = HSliceMut s' → derives (HBuffer b) h
  | d_s_slice b x y s : bound_ok x → slice_slice b x y = Ok s → derives (HSlice b) (HSlice s)
  | d_s_split b i s s' h : 0 ≤ i → slice_split_at b i = Ok (s, s') →
      h = HSlice s ∨ h = HSlice s' → derives (HSlice b) h
  | d_m_slice b x y s :
      bound_ok x → slice_mut_slice b x y = Ok s → derives (HSliceMut b) (HSlice s)
  | d_m_slice_mut b x y s :
      bound_ok x → slice_mut_slice_mut b x y = Ok s → derives (HSliceMut b) (HSliceMut s)
  | d_m_split b i s s' h : 0 ≤ i → slice_mut_split_at b i = Ok (s, s') →
      h = HSlice s ∨ h = HSlice s' → derives (HSliceMut b) h
  | d_m_split_mut b i s s' h : 0 ≤ i → slice_mut_split_at_mut b i = Ok (s, s') →
      h = HSliceMut s ∨ h = HSliceMut s' → derives (HSliceMut b) h.

(** A write through a handle: there is none for a [SharedBufferSlice]. *)
Definition handle_write_at (ram : list Z) (h : handle) (offset : Z) (src : list Z)
    : option (result E (list Z * Z)) :=
  match h with
  | HBuffer b => Some (buffer_write_at ram b offset src)
  | HSlice _ => None
  | HSliceMut s => Some (slice_mut_write_at ram s offset src)
  end.
End handles.

(** The buffer lies in mapped memory, and [buf + len] does not overflow. *)
Definition buffer_wf (ram : list Z) (self : SharedBufferInner) : Prop :=
  0 ≤ buf self ∧ 0 ≤ len self ∧ buf self + len self ≤ zlen ram ∧
  buf self + len self < 2 ^ 64.

(** [self] is a part of the memory of [parent]. *)
Definition within (self parent : SharedBufferInner) : Prop :=
  buf parent ≤ buf self ∧ buf self + len self ≤ buf parent + len parent.

Section facts.
Context {E : Type}.
Implicit Types (ram : list Z) (self : SharedBufferInner).

Lemma overlap_some offset copy_len range_len :
  0 ≤ offset ≤ range_len → 0 ≤ copy_len → range_len < 2 ^ 64 →
  overlap offset copy_len range_len = Some (Z.min copy_len (range_len - offset)).
Proof.
  intros. unfold overlap. by_ltb.
  destruct (_ && _) eqn:Hb; f_equal; to_props; [lia|].
  apply andb_false_iff in Hb as [Hb|Hb]; to_props; lia.
Qed.

Lemma overlap_none offset copy_len range_len :
  range_len < offset → overlap offset copy_len range_len = None.
Proof. intros. unfold overlap. by by_ltb. Qed.

(** A read that fits returns exactly the bytes of the range. *)
Lemma read_at_full ram self offset dst :
  buffer_wf ram self → 0 ≤ offset → offset + zlen dst ≤ len self →
  @read_at E ram self offset dst
  = Ok (slice (buf self + offset) (zlen dst) ram, zlen dst).
Proof.
  intros (?&?&?&?) ??. pose proof (zlen_nonneg dst). unfold read_at.
  rewrite overlap_some, Z.min_l by lia. unfold offset_from.
  rewrite uadd_ok by lia. simpl. rewrite drop_ge by (unfold zlen; lia).
  by rewrite app_nil_r.
Qed.

Lemma write_at_full ram self offset src :
  buffer_wf ram self → 0 ≤ offset → offset + zlen src ≤ len self →
  @write_at E ram self offset src = Ok (splice (buf self + offset) src ram, zlen src).
Proof.
  intros (?&?&?&?) ??. pose proof (zlen_nonneg src). unfold write_at.
  rewrite overlap_some, Z.min_l by lia. unfold offset_from.
  rewrite uadd_ok by lia. simpl. by rewrite take_ge by (unfold zlen; lia).
Qed.

Lemma zlen_take_min (n : Z) (l : list Z) :
  0 ≤ n ≤ zlen l → zlen (take (Z.to_nat n) l) = n.
Proof. unfold zlen. rewrite length_take. lia. Qed.

Lemma write_at_spec ram self offset src :
  buffer_wf ram self → 0 ≤ offset →
  if offset <=? len self then
    let n := Z.min (zlen src) (len self - offset) in
    ∃ ram', @write_at E ram self offset src = Ok (ram', n) ∧ zlen ram' = zlen ram ∧
      ∀ j : nat, ram' !! j =
        if decide (buf self + offset ≤ Z.of_nat j < buf self + offset + n)
        then src !! (j - Z.to_nat (buf self + offset))%nat else ram !! j
  else @write_at E ram self offset src = Panic.
Proof.
  intros (?&?&?&?) ?. pose proof (zlen_nonneg src). case_match; to_props.
  - set (n := Z.min _ _). unfold write_at.
    rewrite overlap_some by lia. fold n. unfold offset_from.
    rewrite uadd_ok by lia. simpl.
    assert (zlen (take (Z.to_nat n) src) = n) as Hn by (apply zlen_take_min; lia).
    eexists. split; [done|]. split; [apply zlen_splice; lia|].
    intros j. rewrite lookup_splice by lia. rewrite Hn. case_decide; [|done].
    rewrite lookup_take_lt; [done|]. lia.
  - unfold write_at. by rewrite overlap_none by lia.
Qed.

Lemma buf_slice_within ram self start stop s :
  buffer_wf ram self → bound_ok start → @buf_slice E self start stop = Ok s →
  within s self ∧ buffer_wf ram s.
Proof.
  intros (?&?&?&?) Hpos Hs. unfold buf_slice in Hs.
  apply rbind_ok_inv in Hs as ([lo hi] & Hr & Hs).
  unfold canonicalize_range_infallible in Hr.
  apply rbind_ok_inv in Hr as (lo' & Hlo & Hr).
  apply rbind_ok_inv in Hr as ([hi'|] & Hhi & Hr); simpl in Hr; [|done].
  destruct (lo' <=? hi') eqn:?; simplify_eq. to_props.
  assert (0 ≤ lo).
  { destruct start; simpl in Hpos; unfold canonicalize_lower_bound, uadd in Hlo;
      repeat cases_bool; simplify_eq; lia. }
  assert (hi ≤ len self).
  { unfold canonicalize_upper_bound in Hhi. apply rbind_ok_inv in Hhi as (b & _ & Hb).
    cases_bool; simplify_eq. to_props. lia. }
  unfold offset_from in Hs. simpl in Hs. rewrite uadd_ok in Hs by lia.
  simpl in Hs. simplify_eq. unfold within, buffer_wf. simpl. lia.
Qed.

Lemma split_at_within ram self idx a b :
  buffer_wf ram self → 0 ≤ idx → @split_at E self idx = Ok (a, b) →
  within a self ∧ within b self ∧ buffer_wf ram a ∧ buffer_wf ram b ∧
  buf b = buf a + len a ∧ len a + len b = len self.
Proof.
  intros (?&?&?&?) ? Hs. unfold split_at in Hs. case_match; to_props; [|done].
  unfold offset_from in Hs. rewrite uadd_ok in Hs by lia. simpl in Hs. simplify_eq.
  unfold within, buffer_wf. simpl. lia.
Qed.

Lemma derives_within ram h h' :
  @derives E h h' → buffer_wf ram (inner h) →
  within (inner h') (inner h) ∧ buffer_wf ram (inner h').
Proof.
  intros Hd Hwf. destruct Hd as
    [b x y s Hx Hs|b x y s Hx Hs|b i s s' h' Hi Hs Hh|b i s s' h' Hi Hs Hh|b x y s Hx Hs
    |b i s s' h' Hi Hs Hh|b x y s Hx Hs|b x y s Hx Hs|b i s s' h' Hi Hs Hh|b i s s' h' Hi Hs Hh];
    apply rbind_ok_inv in Hs as (r & Hr & ?); simplify_eq; simpl in *;
    try by eapply buf_slice_within.
  all: destruct r as [a a']; eapply split_at_within in Hr as (?&?&?&?&_); [|done..].
  all: destruct Hh as [->| ->]; done.
Qed.

Lemma within_trans a b c : within a b → within b c → within a c.
Proof. unfold within. lia. Qed.

Lemma derived_within ram h h' :
  rtc (@derives E) h h' → buffer_wf ram (inner h) →
  within (inner h') (inner h) ∧ buffer_wf ram (inner h').
Proof.
  induction 1 as [h|h h1 h' Hd _ IH]; intros Hwf; [by split; [unfold within; lia|]|].
  destruct (derives_within ram h h1 Hd Hwf) as [Hw Hwf1].
  destruct (IH Hwf1) as [Hw' ?]. split; [by eapply within_trans|done].
Qed.

Lemma derived_slice s h : rtc (@derives E) (HSlice s) h → ∃ s', h = HSlice s'.
Proof.
  remember (HSlice s) as h0 eqn:Hh0. intros Hd. revert s Hh0.
  induction Hd as [h|h h1 h' Hd _ IH]; intros s ->; [by exists s|].
  inversion Hd; subst; [by eapply IH|]. destruct H2 as [->| ->]; by eapply IH.
Qed.
End facts.

(** [write_at] panics exactly when the offset is past the end of the buffer.
    Otherwise it copies the longest prefix of [src] that fits, and no byte
    outside of that range changes: in particular none outside of the buffer. *)
Theorem write_at_confined E ram self offset src :
  buffer_wf ram self → 0 ≤ offset →
  if offset <=? len self then
    let n := Z.min (zlen src) (len self - offset) in
    ∃ ram', @write_at E ram self offset src = Ok (ram', n) ∧ zlen ram' = zlen ram ∧
      ∀ j : nat, ram' !! j =
        if decide (buf self + offset ≤ Z.of_nat j < buf self + offset + n)
        then src !! (j - Z.to_nat (buf self + offset))%nat else ram !! j
  else @write_at E ram self offset src = Panic.
Proof. apply write_at_spec. Qed.

Lemma write_at_confined_witness :
  ∃ ram', @write_at unit [0; 1; 2; 3] {| buf := 1; len := 2 |} 1 [7; 8; 9]
          = Ok (ram', 1) ∧ zlen ram' = 4 ∧ ram' !! 3%nat = Some 3.
Proof.
  destruct (write_at_confined unit [0; 1; 2; 3] {| buf := 1; len := 2 |} 1 [7; 8; 9])
    as (ram' & Hw & Hl & Hj); [unfold buffer_wf, zlen; simpl; lia|lia|].
  exists ram'. split; [exact Hw|]. split; [exact Hl|]. exact (Hj 3%nat).
Defined.

(** C4: Whatever views are taken of a buffer, one of another, a write through any
    of them leaves every byte outside of the first one alone, and a read-only
    slice never gives access to a handle that can write. *)
Theorem derived_write_confined E ram h0 h offset src ram' n :
  buffer_wf ram (inner h0) → rtc (@derives E) h0 h → 0 ≤ offset →
  @handle_write_at E ram h offset src = Some (Ok (ram', n)) →
  (¬ ∃ s, h0 = HSlice s) ∧ zlen ram' = zlen ram ∧
  ∀ j : nat, ¬ (buf (inner h0) ≤ Z.of_nat j < buf (inner h0) + len (inner h0)) →
    ram' !! j = ram !! j.
Proof.
  intros Hwf Hd Ho Hw. destruct (derived_within ram h0 h Hd Hwf) as [Hin Hwf'].
  assert (@write_at E ram (inner h) offset src = Ok (ram', n)) as Hwr
    by (destruct h; simpl in Hw; by simplify_eq).
  split.
  { intros [s ->]. apply derived_slice in Hd as [s' ->]. done. }
  pose proof (write_at_spec (E:=E) ram (inner h) offset src Hwf' Ho) as Hs.
  case_match; to_props; [|congruence]. destruct Hs as (r & Hr & Hl & Hj).
  rewrite Hr in Hwr. simplify_eq. split; [done|]. intros j Hout. rewrite Hj.
  rewrite decide_False; [done|]. unfold within in Hin. pose proof (zlen_nonneg src). lia.
Qed.

Lemma derived_write_confined_witness :
  splice 4 [7; 8] (zeros 8) !! 7%nat = Some 0 ∧ splice 4 [7; 8] (zeros 8) !! 4%nat = Some 7.
Proof.
  split; [|reflexivity].
  refine (proj2 (proj2 (derived_write_confined unit (zeros 8) (HBuffer (buffer_new 1 6))
    (HSliceMut {| sm_inner := {| buf := 3; len := 3 |} |}) 1 [7; 8] _ 2 _ _ _ _)) 7%nat _).
  - unfold buffer_wf. vm_compute. intuition congruence.
  - apply rtc_once. eapply (d_slice_mut _ (Included 2) (Excluded 5)); [simpl; lia|reflexivity].
  - lia.
  - vm_compute. reflexivity.
  - simpl. lia.
Defined.
