(* ===== verification/Float64.v ===== *)
(** [f64] values as their 64 bits: the arithmetic and comparisons of the source
    language (IEEE 754 binary64, round to nearest even), through the Standard
    Library's specification of floating-point numbers.  A result that is not a
    number is the canonical quiet one; its payload is unspecified in Rust. *)

From Stdlib Require Import SpecFloat.
From S2P Require Import Prelude.

Definition f64_of_bits (x : Z) : spec_float :=
  let s := 2 ^ 63 <=? x in
  let e := (x / 2 ^ 52) mod 2 ^ 11 in
  let f := x mod 2 ^ 52 in
  if e =? 2047 then (if f =? 0 then S754_infinity s else S754_nan)
  else if e =? 0 then (if f =? 0 then S754_zero s else S754_finite s (Z.to_pos f) (-1074))
  else S754_finite s (Z.to_pos (f + 2 ^ 52)) (e - 1075).

Definition sign_bit (s : bool) : Z := if s then 2 ^ 63 else 0.

Definition f64_to_bits (v : spec_float) : Z :=
  match v with
  | S754_nan => 0x7ff8000000000000
  | S754_infinity s => sign_bit s + 2047 * 2 ^ 52
  | S754_zero s => sign_bit s
  | S754_finite s m e =>
      if Z.pos m <? 2 ^ 52 then sign_bit s + Z.pos m
      else sign_bit s + (e + 1075) * 2 ^ 52 + (Z.pos m - 2 ^ 52)
  end.

Definition f64_add (x y : Z) : Z :=
  f64_to_bits (SFadd 53 1024 (f64_of_bits x) (f64_of_bits y)).
Definition f64_sub (x y : Z) : Z :=
  f64_to_bits (SFsub 53 1024 (f64_of_bits x) (f64_of_bits y)).
Definition f64_mul (x y : Z) : Z :=
  f64_to_bits (SFmul 53 1024 (f64_of_bits x) (f64_of_bits y)).
Definition f64_div (x y : Z) : Z :=
  f64_to_bits (SFdiv 53 1024 (f64_of_bits x) (f64_of_bits y)).
Definition f64_ltb (x y : Z) : bool := SFltb (f64_of_bits x) (f64_of_bits y).
Definition f64_leb (x y : Z) : bool := SFleb (f64_of_bits x) (f64_of_bits y).

Definition f64_is_nan (x : Z) : bool :=
  match f64_of_bits x with S754_nan => true | _ => false end.

(** The bits determine the number and are recovered from it. *)
Lemma f64_bits_roundtrip x :
  0 ≤ x < 2 ^ 64 → f64_is_nan x = false → f64_to_bits (f64_of_bits x) = x.
Proof.
  intros Hx Hnan. unfold f64_is_nan in Hnan. unfold f64_of_bits in *.
  set (f := x mod 2 ^ 52) in *. set (e := (x / 2 ^ 52) mod 2 ^ 11) in *.
  set (s := 2 ^ 63 <=? x) in *.
  assert (x = sign_bit s + e * 2 ^ 52 + f) as Hsplit.
  { unfold sign_bit, s, e, f.
    pose proof (Z.div_mod x (2 ^ 52) ltac:(lia)).
    pose proof (Z.div_mod (x / 2 ^ 52) (2 ^ 11) ltac:(lia)).
    assert (x / 2 ^ 52 / 2 ^ 11 = x / 2 ^ 63) as Hd by (rewrite Z.div_div by lia; done).
    pose proof (Z.div_mod x (2 ^ 63) ltac:(lia)). pose proof (Z.mod_pos_bound x (2 ^ 63)).
    destruct (2 ^ 63 <=? x) eqn:Hs; to_props.
    - assert (x / 2 ^ 63 = 1) by (symmetry; apply Z.div_unique with (x - 2 ^ 63); lia). lia.
    - assert (x / 2 ^ 63 = 0) by (apply Z.div_small; lia). lia. }
  pose proof (Z.mod_pos_bound x (2 ^ 52) ltac:(lia)) as Hf. fold f in Hf.
  pose proof (Z.mod_pos_bound (x / 2 ^ 52) (2 ^ 11) ltac:(lia)) as He. fold e in He.
  repeat case_match; to_props; simplify_eq; unfold f64_to_bits; try lia.
  - rewrite Z2Pos.id by lia. by_ltb. lia.
  - rewrite Z2Pos.id by lia. by_ltb. lia.
Qed.

Example f64_sum : f64_add 0x3ff8000000000000 0x4002000000000000 = 0x400e000000000000.
Proof. vm_compute. reflexivity. Qed.
