(* ===== verification/InspectFormat.v ===== *)
(** The format of an Inspect VMO: constants, block types, the bit fields of
    block headers and payloads, and the size arithmetic
    ([constants.rs], [block_type.rs], [bitfields.rs], [utils.rs] of
    [src/public/rust/fuchsia-inspect/src]). *)

From S2P Require Import Prelude.

(** * constants.rs *)
Definition PAGE_SIZE_BYTES : Z := 4096.
Definition HEADER_SIZE_BYTES : Z := 8.
Definition ROOT_PARENT_INDEX : Z := 0.
Definition HEADER_INDEX : Z := 0.
Definition HEADER_MAGIC_NUMBER : Z := 0x50534e49.
Definition HEADER_VERSION_NUMBER : Z := 0.
Definition NUM_ORDERS : Z := 8.
Definition MIN_ORDER_SHIFT : Z := 4.
Definition MIN_ORDER_SIZE : Z := Z.shiftl 1 MIN_ORDER_SHIFT.
Definition MAX_ORDER_SHIFT : Z := MIN_ORDER_SHIFT + NUM_ORDERS - 1.
Definition MAX_ORDER_SIZE : Z := Z.shiftl 1 MAX_ORDER_SHIFT.
Definition DEFAULT_VMO_SIZE_BYTES : Z := 256 * 1024.
Definition MINIMUM_VMO_SIZE_BYTES : Z := 4 * 1024.
Definition ARRAY_PAYLOAD_METADATA_SIZE_BYTES : Z := 8.
Definition LINEAR_HISTOGRAM_EXTRA_SLOTS : Z := 4.
Definition EXPONENTIAL_HISTOGRAM_EXTRA_SLOTS : Z := 5.

(** * block_type.rs *)
Inductive BlockType :=
| Free | Reserved | Header | NodeValue | IntValue | UintValue | DoubleValue
| PropertyValue | Extent | Name | Tombstone | ArrayValue.

#[export] Instance BlockType_eq_dec : EqDecision BlockType.
Proof. solve_decision. Defined.

Definition to_u8 (t : BlockType) : Z :=
  match t with
  | Free => 0 | Reserved => 1 | Header => 2 | NodeValue => 3 | IntValue => 4
  | UintValue => 5 | DoubleValue => 6 | PropertyValue => 7 | Extent => 8
  | Name => 9 | Tombstone => 10 | ArrayValue => 11
  end.

Definition from_u8 (n : Z) : option BlockType :=
  match n with
  | 0 => Some Free | 1 => Some Reserved | 2 => Some Header | 3 => Some NodeValue
  | 4 => Some IntValue | 5 => Some UintValue | 6 => Some DoubleValue
  | 7 => Some PropertyValue | 8 => Some Extent | 9 => Some Name
  | 10 => Some Tombstone | 11 => Some ArrayValue
  | _ => None
  end.

Definition is_any_value (t : BlockType) : bool :=
  match t with
  | NodeValue | IntValue | UintValue | DoubleValue | PropertyValue | ArrayValue => true
  | _ => false
  end.

Definition is_numeric_value (t : BlockType) : bool :=
  match t with IntValue | UintValue | DoubleValue => true | _ => false end.

Definition is_node_or_tombstone (t : BlockType) : bool :=
  match t with NodeValue | Tombstone => true | _ => false end.

(** Formats stored in payloads ([block.rs]). *)
Inductive PropertyFormat := PropertyString | PropertyBytes.
Definition PropertyFormat_to_u8 (f : PropertyFormat) : Z :=
  match f with PropertyString => 0 | PropertyBytes => 1 end.
Definition PropertyFormat_from_u8 (n : Z) : option PropertyFormat :=
  match n with 0 => Some PropertyString | 1 => Some PropertyBytes | _ => None end.

Inductive ArrayFormat := ArrayDefault | LinearHistogram | ExponentialHistogram.
Definition ArrayFormat_to_u8 (f : ArrayFormat) : Z :=
  match f with ArrayDefault => 0 | LinearHistogram => 1 | ExponentialHistogram => 2 end.
Definition ArrayFormat_from_u8 (n : Z) : option ArrayFormat :=
  match n with
  | 0 => Some ArrayDefault | 1 => Some LinearHistogram | 2 => Some ExponentialHistogram
  | _ => None
  end.

Lemma from_to_u8 t : from_u8 (to_u8 t) = Some t.
Proof. by destruct t. Qed.
Lemma to_from_u8 n t : from_u8 n = Some t → n = to_u8 t.
Proof.
  intros H. destruct n as [|p|p]; simpl in H; [by simplify_eq| |done].
  do 4 (destruct p as [p|p|]; simpl in H; try done; try by simplify_eq).
Qed.
Lemma to_u8_range t : 0 ≤ to_u8 t < 12.
Proof. destruct t; simpl; lia. Qed.
Lemma to_u8_inj t t' : to_u8 t = to_u8 t' → t = t'.
Proof. by destruct t, t'. Qed.

(** * bitfields.rs

    The getters and setters are generated by the [bitfield!] macro of an
    external crate; it is a parameter of the model.  Its documented behaviour:
    a getter returns the bits [lsb..=msb] of the word, a setter replaces
    exactly those bits by the low bits of its argument. *)
Class Bitfield := {
  bit_range : Z → Z → Z → Z;
  set_bit_range : Z → Z → Z → Z → Z
}.

Definition u64_ok (h : Z) : Prop := 0 ≤ h < 2 ^ 64.

Class BitfieldSpec (B : Bitfield) : Prop := {
  bit_range_spec h msb lsb i :
    u64_ok h → 0 ≤ lsb ≤ msb → msb < 64 → 0 ≤ i →
    Z.testbit (bit_range h msb lsb) i = bool_decide (i ≤ msb - lsb) && Z.testbit h (i + lsb);
  set_bit_range_spec h msb lsb v i :
    u64_ok h → 0 ≤ lsb ≤ msb → msb < 64 → 0 ≤ v → 0 ≤ i →
    Z.testbit (set_bit_range h msb lsb v) i
    = if bool_decide (lsb ≤ i ≤ msb) then Z.testbit v (i - lsb) else Z.testbit h i;
  bit_range_nonneg h msb lsb :
    u64_ok h → 0 ≤ lsb ≤ msb → msb < 64 → 0 ≤ bit_range h msb lsb;
  set_bit_range_nonneg h msb lsb v :
    u64_ok h → 0 ≤ lsb ≤ msb → msb < 64 → 0 ≤ v → 0 ≤ set_bit_range h msb lsb v
}.

(** Shift-and-mask bit fields, an instance. *)
#[export] Instance shift_bitfield : Bitfield := {|
  bit_range h msb lsb := Z.land (Z.shiftr h lsb) (Z.ones (msb - lsb + 1));
  set_bit_range h msb lsb v :=
    let mask := Z.shiftl (Z.ones (msb - lsb + 1)) lsb in
    Z.lor (Z.ldiff h mask) (Z.land (Z.shiftl v lsb) mask)
|}.

Section bitfield_facts.
Context {B : Bitfield} {BS : BitfieldSpec B}.

Lemma bits_above (x n i : Z) : 0 ≤ n → 0 ≤ x < 2 ^ n → n ≤ i → Z.testbit x i = false.
Proof.
  intros. destruct (decide (x = 0)) as [->|]; [apply Z.bits_0|].
  apply Z.bits_above_log2; [lia|].
  assert (Z.log2 x < n) by (apply Z.log2_lt_pow2; lia). lia.
Qed.

Lemma nonneg_bound (x n : Z) :
  0 ≤ x → 0 ≤ n → (∀ i, n ≤ i → Z.testbit x i = false) → x < 2 ^ n.
Proof.
  intros Hx Hn Hi. destruct (decide (x = 0)) as [->|]; [by apply pow2_pos|].
  apply Z.log2_lt_pow2; [lia|]. apply Z.nle_gt. intros Hle.
  pose proof (Hi _ Hle) as Hb. rewrite Z.bit_log2 in Hb by lia. done.
Qed.

Lemma bit_range_bound h msb lsb :
  u64_ok h → 0 ≤ lsb ≤ msb → msb < 64 → 0 ≤ bit_range h msb lsb < 2 ^ (msb - lsb + 1).
Proof.
  intros. split; [by apply bit_range_nonneg|].
  apply nonneg_bound; [by apply bit_range_nonneg|lia|].
  intros. rewrite bit_range_spec by (done || lia). by rewrite bool_decide_false by lia.
Qed.

Lemma set_bit_range_ok h msb lsb v :
  u64_ok h → 0 ≤ lsb ≤ msb → msb < 64 → 0 ≤ v → u64_ok (set_bit_range h msb lsb v).
Proof.
  intros. split; [by apply set_bit_range_nonneg|].
  apply nonneg_bound; [by apply set_bit_range_nonneg|lia|].
  intros. rewrite set_bit_range_spec by (done || lia).
  rewrite bool_decide_false by lia. by apply bits_above with 64.
Qed.

(** A field reads back what was stored in it, truncated to its width. *)
Lemma get_set_same h msb lsb v :
  u64_ok h → 0 ≤ lsb ≤ msb → msb < 64 → 0 ≤ v →
  bit_range (set_bit_range h msb lsb v) msb lsb = v mod 2 ^ (msb - lsb + 1).
Proof.
  intros. apply Z.bits_inj'. intros i Hi.
  rewrite bit_range_spec by (try apply set_bit_range_ok; done || lia).
  rewrite set_bit_range_spec by (done || lia).
  destruct (decide (i ≤ msb - lsb)).
  - rewrite !bool_decide_true by lia. simpl.
    rewrite Z.mod_pow2_bits_low by lia. f_equal. lia.
  - rewrite bool_decide_false by lia. symmetry. apply Z.mod_pow2_bits_high. lia.
Qed.

(** Setting a field leaves the fields of the other bits alone. *)
Lemma get_set_other h msb lsb v msb' lsb' :
  u64_ok h → 0 ≤ lsb ≤ msb → msb < 64 → 0 ≤ v → 0 ≤ lsb' ≤ msb' → msb' < 64 →
  msb' < lsb ∨ msb < lsb' →
  bit_range (set_bit_range h msb lsb v) msb' lsb' = bit_range h msb' lsb'.
Proof.
  intros. apply Z.bits_inj'. intros i Hi.
  rewrite !bit_range_spec by (try apply set_bit_range_ok; done || lia).
  destruct (decide (i ≤ msb' - lsb')); [|by rewrite bool_decide_false by lia].
  rewrite bool_decide_true by lia. simpl.
  rewrite set_bit_range_spec by (done || lia). by rewrite bool_decide_false by lia.
Qed.

(** The whole word as a field. *)
Lemma bit_range_all h : u64_ok h → bit_range h 63 0 = h.
Proof.
  intros. apply Z.bits_inj'. intros i Hi. rewrite bit_range_spec by (done || lia).
  rewrite Z.add_0_r. case_bool_decide; [done|]. symmetry. apply bits_above with 64; [lia|done|lia].
Qed.
Lemma set_bit_range_all h v : u64_ok h → u64_ok v → set_bit_range h 63 0 v = v.
Proof.
  intros Hh Hv. destruct Hv as [Hv0 Hv1]. apply Z.bits_inj'. intros i Hi.
  rewrite set_bit_range_spec by (done || lia). case_bool_decide; [by rewrite Z.sub_0_r|].
  rewrite !(bits_above _ 64); [done|..]; unfold u64_ok in *; lia.
Qed.
End bitfield_facts.

#[export] Instance shift_bitfield_spec : BitfieldSpec shift_bitfield.
Proof.
  constructor; simpl; intros.
  - rewrite Z.land_spec, Z.shiftr_spec by lia. rewrite andb_comm.
    rewrite Z.testbit_ones by lia. f_equal. case_bool_decide; to_props.
    + apply andb_true_iff. split; [by apply Z.leb_le|]. apply Z.ltb_lt. lia.
    + apply andb_false_iff. right. apply Z.ltb_ge. lia.
  - rewrite Z.lor_spec, Z.ldiff_spec, Z.land_spec, !Z.shiftl_spec by lia.
    case_bool_decide.
    + rewrite Z.testbit_ones by lia.
      rewrite (proj2 (Z.leb_le 0 (i - lsb))), (proj2 (Z.ltb_lt (i - lsb) _)) by lia.
      simpl. by rewrite andb_false_r, andb_true_r.
    + rewrite Z.testbit_ones by lia.
      assert ((0 <=? i - lsb) && (i - lsb <? msb - lsb + 1) = false) as ->.
      { apply andb_false_iff. destruct (decide (0 ≤ i - lsb));
          [right; apply Z.ltb_ge; lia|left; apply Z.leb_gt; lia]. }
      by rewrite andb_true_r, andb_false_r, orb_false_r.
  - apply Z.land_nonneg. left. apply Z.shiftr_nonneg. by unfold u64_ok in *; lia.
  - apply Z.lor_nonneg. split.
    + apply Z.ldiff_nonneg. left. unfold u64_ok in *. lia.
    + apply Z.land_nonneg. left. by apply Z.shiftl_nonneg.
Qed.

Section fields.
Context {B : Bitfield}.

(** Fields of [BlockHeader]. *)
Definition hdr_order (h : Z) : Z := bit_range h 3 0.
Definition set_hdr_order (h v : Z) : Z := set_bit_range h 3 0 v.
Definition hdr_block_type (h : Z) : Z := bit_range h 7 4.
Definition set_hdr_block_type (h v : Z) : Z := set_bit_range h 7 4 v.
Definition hdr_header_version (h : Z) : Z := bit_range h 31 8.
Definition set_hdr_header_version (h v : Z) : Z := set_bit_range h 31 8 v.
Definition hdr_header_magic (h : Z) : Z := bit_range h 63 32.
Definition set_hdr_header_magic (h v : Z) : Z := set_bit_range h 63 32 v.
Definition hdr_value_name_index (h : Z) : Z := bit_range h 63 36.
Definition set_hdr_value_name_index (h v : Z) : Z := set_bit_range h 63 36 v.
Definition hdr_value_parent_index (h : Z) : Z := bit_range h 35 8.
Definition set_hdr_value_parent_index (h v : Z) : Z := set_bit_range h 35 8 v.
Definition hdr_free_next_index (h : Z) : Z := bit_range h 35 8.
Definition set_hdr_free_next_index (h v : Z) : Z := set_bit_range h 35 8 v.
Definition hdr_name_length (h : Z) : Z := bit_range h 19 8.
Definition set_hdr_name_length (h v : Z) : Z := set_bit_range h 19 8 v.
Definition hdr_extent_next_index (h : Z) : Z := bit_range h 35 8.
Definition set_hdr_extent_next_index (h v : Z) : Z := set_bit_range h 35 8 v.
Definition hdr_value (h : Z) : Z := bit_range h 63 0.

(** Fields of [Payload]. *)
Definition pl_value (p : Z) : Z := bit_range p 63 0.
Definition pl_property_total_length (p : Z) : Z := bit_range p 31 0.
Definition set_pl_property_total_length (p v : Z) : Z := set_bit_range p 31 0 v.
Definition pl_property_extent_index (p : Z) : Z := bit_range p 59 32.
Definition set_pl_property_extent_index (p v : Z) : Z := set_bit_range p 59 32 v.
Definition pl_property_flags (p : Z) : Z := bit_range p 63 60.
Definition set_pl_property_flags (p v : Z) : Z := set_bit_range p 63 60 v.
Definition pl_numeric_value (p : Z) : Z := bit_range p 63 0.
Definition set_pl_numeric_value (p v : Z) : Z := set_bit_range p 63 0 v.
Definition pl_header_generation_count (p : Z) : Z := bit_range p 63 0.
Definition set_pl_header_generation_count (p v : Z) : Z := set_bit_range p 63 0 v.
Definition pl_array_entry_type (p : Z) : Z := bit_range p 3 0.
Definition set_pl_array_entry_type (p v : Z) : Z := set_bit_range p 3 0 v.
Definition pl_array_flags (p : Z) : Z := bit_range p 7 4.
Definition set_pl_array_flags (p v : Z) : Z := set_bit_range p 7 4 v.
Definition pl_array_slots_count (p : Z) : Z := bit_range p 15 8.
Definition set_pl_array_slots_count (p v : Z) : Z := set_bit_range p 15 8 v.
End fields.

(** * utils.rs

    Orders are at most 15 (the width of the header's order field), so the
    shift of [order_to_size] loses no bits. *)
Definition leading_zeros (x : Z) : Z := 64 - (if x =? 0 then 0 else Z.log2 x + 1).

Definition fit_order {E : Type} (size : Z) : result E Z :=
  x <-? usub size 1 ;;
  a <-? usub (8 * 8) (leading_zeros x) ;;
  usub a MIN_ORDER_SHIFT.

Definition index_for_offset {E : Type} (offset : Z) : result E Z :=
  let i := offset / MIN_ORDER_SIZE in
  if i <? 2 ^ 32 then Ok i else Panic.

Definition offset_for_index (index : Z) : Z := index * MIN_ORDER_SIZE.

Definition order_to_size (order : Z) : Z := Z.shiftl MIN_ORDER_SIZE order.

Definition block_size_for_payload (payload_size : Z) : Z :=
  Z.min MAX_ORDER_SIZE (Z.max (payload_size + HEADER_SIZE_BYTES) MIN_ORDER_SIZE).

Definition payload_size_for_order (order : Z) : Z := order_to_size order - HEADER_SIZE_BYTES.

Definition array_capacity (order : Z) : Z :=
  (order_to_size order - HEADER_SIZE_BYTES - ARRAY_PAYLOAD_METADATA_SIZE_BYTES) / 8.

Lemma order_to_size_eq k : 0 ≤ k → order_to_size k = 16 * 2 ^ k.
Proof. intros. unfold order_to_size. by rewrite Z.shiftl_mul_pow2. Qed.

Lemma offset_for_index_eq i : offset_for_index i = 16 * i.
Proof. unfold offset_for_index. change MIN_ORDER_SIZE with 16. lia. Qed.

Lemma index_for_offset_ok {E} i : 0 ≤ i < 2 ^ 32 → @index_for_offset E (16 * i) = Ok i.
Proof.
  intros. unfold index_for_offset. change MIN_ORDER_SIZE with 16.
  replace (16 * i / 16) with i by (rewrite Z.mul_comm; symmetry; by apply Z.div_mul).
  by by_ltb.
Qed.

Lemma log2_bracket x : 0 < x → 2 ^ Z.log2 x ≤ x < 2 * 2 ^ Z.log2 x.
Proof.
  intros Hx. pose proof (Z.log2_spec x Hx) as H.
  by rewrite Z.pow_succ_r in H by apply Z.log2_nonneg.
Qed.

Lemma fit_order_bracket {E} size :
  9 ≤ size ≤ 2 ^ 64 →
  ∃ k, @fit_order E size = Ok k ∧ 0 ≤ k ≤ 60 ∧ size ≤ 16 * 2 ^ k ∧
       ∀ j, 0 ≤ j < k → 16 * 2 ^ j < size.
Proof.
  intros Hs. exists (Z.log2 (size - 1) - 3).
  assert (3 ≤ Z.log2 (size - 1)) by (change 3 with (Z.log2 8); apply Z.log2_le_mono; lia).
  assert (Z.log2 (size - 1) < 64) by (apply Z.log2_lt_pow2; lia).
  pose proof (log2_bracket (size - 1) ltac:(lia)) as Hb.
  split; [|split; [lia|split]].
  - unfold fit_order. rewrite usub_ok by lia. simpl. unfold leading_zeros. by_ltb.
    unfold usub at 1. by_ltb. simpl. unfold MIN_ORDER_SHIFT.
    rewrite usub_ok by lia. f_equal. lia.
  - assert (2 ^ Z.log2 (size - 1) = 2 ^ 3 * 2 ^ (Z.log2 (size - 1) - 3)); [|lia].
    rewrite <- Z.pow_add_r by lia. f_equal. lia.
  - intros j Hj. assert (2 ^ 4 * 2 ^ j ≤ 2 ^ Z.log2 (size - 1)); [|lia].
    rewrite <- Z.pow_add_r by lia. apply Z.pow_le_mono_r; lia.
Qed.

(** [fit_order] is the smallest order whose block holds [size] bytes, for every
    size from 9 on; on the sizes 0 to 8 its subtractions underflow. *)
Theorem fit_order_least E size :
  0 ≤ size ≤ 2 ^ 64 →
  if size <=? 8 then @fit_order E size = Panic
  else ∃ k, @fit_order E size = Ok k ∧ size ≤ order_to_size k ∧
            ∀ j, 0 ≤ j < k → order_to_size j < size.
Proof.
  intros Hs. case_match eqn:H8; to_props.
  - assert (size = 0 ∨ size = 1 ∨ size = 2 ∨ size = 3 ∨ size = 4 ∨ size = 5 ∨
            size = 6 ∨ size = 7 ∨ size = 8) as Hc by lia.
    by repeat destruct Hc as [->|Hc]; [vm_compute..|subst; vm_compute].
  - destruct (@fit_order_bracket E size) as (k & Hk & ? & ? & Hmin); [lia|].
    exists k. rewrite order_to_size_eq by lia. split; [done|]. split; [done|].
    intros j ?. rewrite order_to_size_eq by lia. by apply Hmin.
Qed.

Lemma fit_order_least_witness : ∃ k, @fit_order unit 100 = Ok k ∧ 100 ≤ order_to_size k.
Proof.
  destruct (fit_order_least unit 100 ltac:(lia)) as (k & Hk & Hle & _).
  exists k. split; [exact Hk|exact Hle].
Defined.
