(* ===== verification/InspectBlock.v ===== *)
(** Blocks of an Inspect VMO: [src/public/rust/fuchsia-inspect/src/block.rs].

    A [Block<T>] is an index and a container.  The container of the writer is
    an [Arc<Mapping>] shared by every block and by the heap, so a block is
    represented by its index and the mapping is the store of the computations;
    the reader's blocks share a byte slice, an argument of the functions.
    [f64] values are represented by their 64 bits. *)

From S2P Require Import Prelude SharedBuffer InspectFormat.

(** The errors of the crate: one constructor per [bail!]. *)
Inductive Error :=
| OrderTooBig                                   (* heap: no such order *)
| InvalidOrder (order index : Z)                 (* heap: split_block *)
| CannotFree                                    (* heap: block is free already *)
| InvalidIndex                                  (* heap: get_block *)
| HeapAtMaximumSize
| ExpectedType (expected got : BlockType)
| NotNodeOrTombstone (got : BlockType)
| NotAnyValue (got : BlockType)
| ExpectedLocked (value : bool)
| IndexOutOfBounds (slot : Z)
| InvalidArrayEntryType (expected got : BlockType)
| InvalidEntryType
| OrderMustBeLess (order : Z)
| CannotSwap
| InvalidBlockType (t : BlockType)
| InvalidParentIndex (parent : Z) (cause : Error)
| CannotAllocate (size : Z)
| CannotReadSnapshot
| ExpectedHeader
| FailedToParseName
| FailedToGetExtent
| TooManySlots
| UnexpectedArrayEntryType
| CannotFindIndex (index : Z)
| MalformedTree
| PropertyNoOp
| FailedToAllocateVmo.

(** * Containers: [read_bytes] returns the new contents of the buffer it is
    given and the number of bytes read. *)
Class ReadableBlockContainer (T : Type) :=
  read_bytes : T → Z → list Z → result Error (list Z * Z).

(** A mapped VMO ([src/public/rust/mapped-vmo/src/lib.rs]): a shared buffer
    over all of its bytes, addressed from the start of the mapping. *)
Record Mapping := { mapping_bytes : list Z }.

Definition mapping_buffer (m : Mapping) : SharedBufferInner :=
  {| buf := 0; len := zlen (mapping_bytes m) |}.

Definition mapping_len (m : Mapping) : Z := len (mapping_buffer m).

#[export] Instance mapping_container : ReadableBlockContainer Mapping := λ m offset bytes,
  read_at (mapping_bytes m) (mapping_buffer m) offset bytes.

(** A byte slice. *)
Record Slice := { slice_bytes : list Z }.

#[export] Instance slice_container : ReadableBlockContainer Slice := λ s offset bytes,
  let n := zlen (slice_bytes s) in
  if n <=? offset then Ok (bytes, 0)
  else let upper_bound := Z.min n (zlen bytes + offset) in
       let bytes_read := upper_bound - offset in
       Ok (slice offset bytes_read (slice_bytes s) ++ drop (Z.to_nat bytes_read) bytes,
           bytes_read).

Definition write_bytes (offset : Z) (bytes : list Z) : M Error Mapping Z := λ m,
  match write_at (mapping_bytes m) (mapping_buffer m) offset bytes with
  | Ok (ram, n) => (Ok n, {| mapping_bytes := ram |})
  | Err e => (Err e, m)
  | Panic => (Panic, m)
  | OutOfFuel => (OutOfFuel, m)
  end.

Definition header_offset (self : Z) : Z := offset_for_index self.
Definition payload_offset (self : Z) : Z := offset_for_index self + HEADER_SIZE_BYTES.

(** * Reading *)
Section readable.
Context {B : Bitfield} {T : Type} `{!ReadableBlockContainer T}.

Definition read_header (c : T) (self : Z) : result Error Z :=
  r <-? read_bytes c (header_offset self) (zeros 8) ;; Ok (from_le_bytes (fst r)).

Definition read_payload (c : T) (self : Z) : result Error Z :=
  r <-? read_bytes c (payload_offset self) (zeros 8) ;; Ok (from_le_bytes (fst r)).

Definition order (c : T) (self : Z) : result Error Z :=
  h <-? read_header c self ;; Ok (hdr_order h).

Definition block_type (c : T) (self : Z) : result Error BlockType :=
  h <-? read_header c self ;; ounwrap (from_u8 (hdr_block_type h)).

Definition check_type (c : T) (self : Z) (t : BlockType) : result Error unit :=
  got <-? block_type c self ;;
  if decide (got = t) then Ok tt else Err (ExpectedType t got).

Definition check_locked (c : T) (self : Z) (value : bool) : result Error unit :=
  payload <-? read_payload c self ;;
  if eqb (Z.land (pl_header_generation_count payload) 1 =? 1) value then Ok tt
  else Err (ExpectedLocked value).

Definition check_node_or_tombstone (c : T) (self : Z) : result Error unit :=
  got <-? block_type c self ;;
  if is_node_or_tombstone got then Ok tt else Err (NotNodeOrTombstone got).

Definition check_any_value (c : T) (self : Z) : result Error unit :=
  got <-? block_type c self ;;
  if is_any_value got then Ok tt else Err (NotAnyValue got).

Definition header_magic (c : T) (self : Z) : result Error Z :=
  check_type c self Header ;?;
  h <-? read_header c self ;; Ok (hdr_header_magic h).

Definition header_version (c : T) (self : Z) : result Error Z :=
  check_type c self Header ;?;
  h <-? read_header c self ;; Ok (hdr_header_version h).

Definition header_generation_count (c : T) (self : Z) : result Error Z :=
  check_type c self Header ;?;
  p <-? read_payload c self ;; Ok (pl_header_generation_count p).

Definition header_is_locked (c : T) (self : Z) : result Error bool :=
  check_type c self Header ;?;
  p <-? read_payload c self ;; Ok (Z.land (pl_header_generation_count p) 1 =? 1).

Definition double_value (c : T) (self : Z) : result Error Z :=
  check_type c self DoubleValue ;?;
  p <-? read_payload c self ;; Ok (pl_numeric_value p).

Definition int_value (c : T) (self : Z) : result Error Z :=
  check_type c self IntValue ;?;
  p <-? read_payload c self ;; Ok (to_signed 64 (pl_numeric_value p)).

Definition uint_value (c : T) (self : Z) : result Error Z :=
  check_type c self UintValue ;?;
  p <-? read_payload c self ;; Ok (pl_numeric_value p).

Definition property_extent_index (c : T) (self : Z) : result Error Z :=
  check_type c self PropertyValue ;?;
  p <-? read_payload c self ;; Ok (pl_property_extent_index p).

Definition property_total_length (c : T) (self : Z) : result Error Z :=
  check_type c self PropertyValue ;?;
  p <-? read_payload c self ;; Ok (pl_property_total_length p).

Definition property_format (c : T) (self : Z) : result Error PropertyFormat :=
  check_type c self PropertyValue ;?;
  p <-? read_payload c self ;; ounwrap (PropertyFormat_from_u8 (pl_property_flags p)).

Definition next_extent (c : T) (self : Z) : result Error Z :=
  check_type c self Extent ;?;
  h <-? read_header c self ;; Ok (hdr_extent_next_index h).

Definition extent_contents (c : T) (self : Z) : result Error (list Z) :=
  check_type c self Extent ;?;
  k <-? order c self ;;
  r <-? read_bytes c (payload_offset self) (zeros (payload_size_for_order k)) ;; Ok (fst r).

Definition name_index (c : T) (self : Z) : result Error Z :=
  check_any_value c self ;?;
  h <-? read_header c self ;; Ok (hdr_value_name_index h).

Definition array_format (c : T) (self : Z) : result Error ArrayFormat :=
  check_type c self ArrayValue ;?;
  p <-? read_payload c self ;; ounwrap (ArrayFormat_from_u8 (pl_array_flags p)).

Definition array_slots (c : T) (self : Z) : result Error Z :=
  check_type c self ArrayValue ;?;
  p <-? read_payload c self ;; Ok (pl_array_slots_count p).

Definition array_entry_type (c : T) (self : Z) : result Error BlockType :=
  check_type c self ArrayValue ;?;
  p <-? read_payload c self ;; ounwrap (from_u8 (pl_array_entry_type p)).

Definition check_array_entry_type (c : T) (self : Z) (expected : BlockType)
    : result Error unit :=
  actual <-? array_entry_type c self ;;
  if decide (actual = expected) then Ok tt
  else Err (InvalidArrayEntryType expected actual).

(** [index + 1] is a [u32] addition. *)
Definition slot_offset (self slot_index : Z) : result Error Z :=
  i <-? uadd 32 self 1 ;; Ok (offset_for_index i + slot_index * 8).

Definition array_get_slot (t : BlockType) (c : T) (self slot_index : Z) : result Error Z :=
  check_array_entry_type c self t ;?;
  k <-? order c self ;;
  if array_capacity k <? slot_index then Err (IndexOutOfBounds slot_index)
  else off <-? slot_offset self slot_index ;;
       r <-? read_bytes c off (zeros 8) ;;
       Ok (from_le_bytes (fst r)).

Definition array_get_int_slot (c : T) (self slot_index : Z) : result Error Z :=
  v <-? array_get_slot IntValue c self slot_index ;; Ok (to_signed 64 v).
Definition array_get_double_slot : T → Z → Z → result Error Z := array_get_slot DoubleValue.
Definition array_get_uint_slot : T → Z → Z → result Error Z := array_get_slot UintValue.

Definition parent_index (c : T) (self : Z) : result Error Z :=
  check_any_value c self ;?;
  h <-? read_header c self ;; Ok (hdr_value_parent_index h).

Definition child_count (c : T) (self : Z) : result Error Z :=
  check_node_or_tombstone c self ;?;
  p <-? read_payload c self ;; Ok (pl_numeric_value p).

Definition free_next_index (c : T) (self : Z) : result Error Z :=
  check_type c self Free ;?;
  h <-? read_header c self ;; Ok (hdr_free_next_index h).

Definition name_length (c : T) (self : Z) : result Error Z :=
  check_type c self Name ;?;
  h <-? read_header c self ;; Ok (hdr_name_length h).

(** Strings are represented by their UTF-8 bytes. *)
Definition name_contents (c : T) (self : Z) : result Error (list Z) :=
  check_type c self Name ;?;
  length <-? name_length c self ;;
  r <-? read_bytes c (payload_offset self) (zeros length) ;;
  if utf8_valid (fst r) then Ok (fst r) else Panic.
End readable.

(** * Writing *)
Section writable.
Context {B : Bitfield}.

Definition write_header (self header : Z) : M Error Mapping unit :=
  write_bytes (header_offset self) (to_le_bytes 8 (hdr_value header)) ;;; ret tt.

Definition write_payload_from_bytes (self : Z) (bytes : list Z) : M Error Mapping unit :=
  write_bytes (payload_offset self) bytes ;;; ret tt.

Definition write_payload (self payload : Z) : M Error Mapping unit :=
  write_payload_from_bytes self (to_le_bytes 8 (pl_value payload)).

Definition write (self header payload : Z) : M Error Mapping unit :=
  write_header self header ;;; write_payload self payload.

(** Reads of the current store. *)
Definition rd {A : Type} (f : Mapping → Z → result Error A) (self : Z) : M Error Mapping A :=
  reading (λ c, f c self).

(** [new_free] writes a fresh header and yields the block at [index]. *)
Definition new_free (index order next_free : Z) : M Error Mapping Z :=
  if NUM_ORDERS <=? order then fail (OrderMustBeLess order)
  else let header := set_hdr_order 0 order in
       let header := set_hdr_block_type header (to_u8 Free) in
       let header := set_hdr_free_next_index header next_free in
       write_header index header ;;; ret index.

(** [swap] exchanges the indices of two blocks of the same order; [ptr_eq]
    says whether they have the same container. *)
Definition swap (self other : Z) (ptr_eq : bool) : M Error Mapping (Z * Z) :=
  k1 <- rd order self ;;
  k2 <- rd order other ;;
  if negb (k1 =? k2) || negb ptr_eq then fail CannotSwap else ret (other, self).

Definition set_order (self order : Z) : M Error Mapping unit :=
  if NUM_ORDERS <=? order then fail (OrderMustBeLess order)
  else header <- rd read_header self ;; write_header self (set_hdr_order header order).

(** [become_header] moves the block to index 0 and returns that index. *)
Definition become_header (self : Z) : M Error Mapping Z :=
  rd (λ c i, check_type c i Reserved) self ;;;
  let self := 0 in
  let header := set_hdr_order 0 0 in
  let header := set_hdr_block_type header (to_u8 Header) in
  let header := set_hdr_header_magic header HEADER_MAGIC_NUMBER in
  let header := set_hdr_header_version header HEADER_VERSION_NUMBER in
  write self header 0 ;;; ret self.

(** The fences around the write have no effect on the store. *)
Definition increment_generation_count (self : Z) : M Error Mapping unit :=
  payload <- rd read_payload self ;;
  let value := pl_header_generation_count payload in
  let new_value := if value =? 2 ^ 64 - 1 then 0 else value + 1 in
  write_payload self (set_pl_header_generation_count payload new_value).

Definition lock_header (self : Z) : M Error Mapping unit :=
  rd (λ c i, check_type c i Header) self ;;;
  rd (λ c i, check_locked c i false) self ;;;
  increment_generation_count self.

Definition unlock_header (self : Z) : M Error Mapping unit :=
  rd (λ c i, check_type c i Header) self ;;;
  rd (λ c i, check_locked c i true) self ;;;
  increment_generation_count self.

Definition become_tombstone (self : Z) : M Error Mapping unit :=
  rd (λ c i, check_type c i NodeValue) self ;;;
  header <- rd read_header self ;;
  write_header self (set_hdr_block_type header (to_u8 Tombstone)).

Definition become_reserved (self : Z) : M Error Mapping unit :=
  rd (λ c i, check_type c i Free) self ;;;
  header <- rd read_header self ;;
  write_header self (set_hdr_block_type header (to_u8 Reserved)).

Definition become_free (self next : Z) : M Error Mapping unit :=
  header <- rd read_header self ;;
  let header := set_hdr_block_type header (to_u8 Free) in
  let header := set_hdr_free_next_index header next in
  write_header self header.

Definition write_value_header (self : Z) (block_type : BlockType)
    (name_index parent_index : Z) : M Error Mapping unit :=
  if negb (is_any_value block_type) then fail (NotAnyValue block_type)
  else rd (λ c i, check_type c i Reserved) self ;;;
       header <- rd read_header self ;;
       let header := set_hdr_block_type header (to_u8 block_type) in
       let header := set_hdr_value_name_index header name_index in
       let header := set_hdr_value_parent_index header parent_index in
       write_header self header.

Definition become_array_value (self slots : Z) (format : ArrayFormat)
    (entry_type : BlockType) (name_index parent_index : Z) : M Error Mapping unit :=
  if negb (is_numeric_value entry_type) then fail InvalidEntryType
  else write_value_header self ArrayValue name_index parent_index ;;;
       let payload := set_pl_array_entry_type 0 (to_u8 entry_type) in
       let payload := set_pl_array_flags payload (ArrayFormat_to_u8 format) in
       let payload := set_pl_array_slots_count payload slots in
       write_payload self payload.

(** The three slot setters differ in the entry type they expect and in how
    the value becomes 64 bits. *)
Definition array_set_slot (t : BlockType) (self slot_index bits : Z) : M Error Mapping unit :=
  rd (λ c i, check_array_entry_type c i t) self ;;;
  k <- rd order self ;;
  if array_capacity k <? slot_index then fail (IndexOutOfBounds slot_index)
  else off <- lift (slot_offset self slot_index) ;;
       write_bytes off (to_le_bytes 8 bits) ;;; ret tt.

Definition array_set_int_slot (self slot_index value : Z) : M Error Mapping unit :=
  array_set_slot IntValue self slot_index (to_unsigned 64 value).
Definition array_set_double_slot : Z → Z → Z → M Error Mapping unit := array_set_slot DoubleValue.
Definition array_set_uint_slot : Z → Z → Z → M Error Mapping unit := array_set_slot UintValue.

Definition become_extent (self next_extent_index : Z) : M Error Mapping unit :=
  rd (λ c i, check_type c i Reserved) self ;;;
  header <- rd read_header self ;;
  let header := set_hdr_block_type header (to_u8 Extent) in
  let header := set_hdr_extent_next_index header next_extent_index in
  write_header self header.

Definition set_extent_next_index (self next_extent_index : Z) : M Error Mapping unit :=
  rd (λ c i, check_type c i Extent) self ;;;
  header <- rd read_header self ;;
  write_header self (set_hdr_extent_next_index header next_extent_index).

(** Writes as many bytes as the block holds and returns how many. *)
Definition extent_set_contents (self : Z) (value : list Z) : M Error Mapping Z :=
  rd (λ c i, check_type c i Extent) self ;;;
  k <- rd order self ;;
  let max_bytes := payload_size_for_order k in
  let bytes := if max_bytes <? zlen value
               then take (Z.to_nat (Z.min (zlen value) max_bytes)) value else value in
  write_payload_from_bytes self bytes ;;; ret (zlen bytes).

Definition set_double_value (self value : Z) : M Error Mapping unit :=
  rd (λ c i, check_type c i DoubleValue) self ;;;
  payload <- rd read_payload self ;;
  write_payload self (set_pl_numeric_value payload value).

Definition become_double_value (self value name_index parent_index : Z)
    : M Error Mapping unit :=
  write_value_header self DoubleValue name_index parent_index ;;;
  set_double_value self value.

Definition set_int_value (self value : Z) : M Error Mapping unit :=
  rd (λ c i, check_type c i IntValue) self ;;;
  payload <- rd read_payload self ;;
  write_payload self (set_pl_numeric_value payload (to_unsigned 64 value)).

Definition become_int_value (self value name_index parent_index : Z)
    : M Error Mapping unit :=
  write_value_header self IntValue name_index parent_index ;;;
  set_int_value self value.

Definition set_uint_value (self value : Z) : M Error Mapping unit :=
  rd (λ c i, check_type c i UintValue) self ;;;
  payload <- rd read_payload self ;;
  write_payload self (set_pl_numeric_value payload value).

Definition become_uint_value (self value name_index parent_index : Z)
    : M Error Mapping unit :=
  write_value_header self UintValue name_index parent_index ;;;
  set_uint_value self value.

Definition become_node (self name_index parent_index : Z) : M Error Mapping unit :=
  write_value_header self NodeValue name_index parent_index ;;;
  write_payload self 0.

Definition become_property (self name_index parent_index : Z) (format : PropertyFormat)
    : M Error Mapping unit :=
  write_value_header self PropertyValue name_index parent_index ;;;
  write_payload self (set_pl_property_flags 0 (PropertyFormat_to_u8 format)).

Definition set_property_total_length (self length : Z) : M Error Mapping unit :=
  rd (λ c i, check_type c i PropertyValue) self ;;;
  payload <- rd read_payload self ;;
  write_payload self (set_pl_property_total_length payload length).

Definition set_property_extent_index (self index : Z) : M Error Mapping unit :=
  rd (λ c i, check_type c i PropertyValue) self ;;;
  payload <- rd read_payload self ;;
  write_payload self (set_pl_property_extent_index payload index).

Definition set_child_count (self count : Z) : M Error Mapping unit :=
  rd check_node_or_tombstone self ;;; write_payload self count.

(** [u16::from_usize(..).unwrap()] fits: a payload has at most 2040 bytes. *)
Definition become_name (self : Z) (name : list Z) : M Error Mapping unit :=
  rd (λ c i, check_type c i Reserved) self ;;;
  k <- rd order self ;;
  let max_len := payload_size_for_order k in
  let bytes := if max_len <? zlen name
               then take (Z.to_nat (Z.min (zlen name) max_len)) name else name in
  header <- rd read_header self ;;
  let header := set_hdr_block_type header (to_u8 Name) in
  name_len <- lift (if zlen bytes <? 2 ^ 16 then Ok (zlen bytes) else Panic) ;;
  let header := set_hdr_name_length header name_len in
  write_header self header ;;;
  write_payload_from_bytes self bytes.

Definition set_free_next_index (self next_free : Z) : M Error Mapping unit :=
  rd (λ c i, check_type c i Free) self ;;;
  header <- rd read_header self ;;
  write_header self (set_hdr_free_next_index header next_free).
End writable.

(** * The mapping as words

    [hdr m i] and [pay m i] are the header and payload words of slot [i], the
    16 bytes at offset [16 * i]. *)
Definition map_ok (m : Mapping) : Prop :=
  bytes_ok (mapping_bytes m) ∧ zlen (mapping_bytes m) < 2 ^ 64.
Definition in_slots (m : Mapping) (i : Z) : Prop :=
  0 ≤ i ∧ 16 * i + 16 ≤ zlen (mapping_bytes m).

Definition hdr (m : Mapping) (i : Z) : Z := from_le_bytes (slice (16 * i) 8 (mapping_bytes m)).
Definition pay (m : Mapping) (i : Z) : Z :=
  from_le_bytes (slice (16 * i + 8) 8 (mapping_bytes m)).
Definition put_bytes (m : Mapping) (off : Z) (bs : list Z) : Mapping :=
  {| mapping_bytes := splice off bs (mapping_bytes m) |}.
Definition put_hdr (m : Mapping) (i h : Z) : Mapping := put_bytes m (16 * i) (to_le_bytes 8 h).
Definition put_pay (m : Mapping) (i p : Z) : Mapping :=
  put_bytes m (16 * i + 8) (to_le_bytes 8 p).

Section words.
Implicit Types (m : Mapping) (i j : Z).

Lemma mapping_buffer_wf m : map_ok m → buffer_wf (mapping_bytes m) (mapping_buffer m).
Proof. intros [_ ?]. pose proof (zlen_nonneg (mapping_bytes m)). unfold buffer_wf; simpl. lia. Qed.

Lemma read_bytes_ok m off bytes :
  map_ok m → 0 ≤ off → off + zlen bytes ≤ zlen (mapping_bytes m) →
  read_bytes m off bytes = Ok (slice off (zlen bytes) (mapping_bytes m), zlen bytes).
Proof.
  intros Hm ??. unfold read_bytes, mapping_container.
  rewrite read_at_full by (try apply mapping_buffer_wf; done). done.
Qed.

Lemma write_bytes_ok m off bytes :
  map_ok m → 0 ≤ off → off + zlen bytes ≤ zlen (mapping_bytes m) →
  write_bytes off bytes m = (Ok (zlen bytes), put_bytes m off bytes).
Proof.
  intros Hm ??. unfold write_bytes.
  rewrite write_at_full by (try apply mapping_buffer_wf; done). done.
Qed.

Lemma write_bytes_unit m off bytes :
  map_ok m → 0 ≤ off → off + zlen bytes ≤ zlen (mapping_bytes m) →
  (write_bytes off bytes ;;; ret tt) m = (Ok tt, put_bytes m off bytes).
Proof. intros. by erewrite bind_ok by (by apply write_bytes_ok). Qed.


Lemma word_ok m off : map_ok m → 0 ≤ off → off + 8 ≤ zlen (mapping_bytes m) →
  u64_ok (from_le_bytes (slice off 8 (mapping_bytes m))).
Proof.
  intros [Hb _] ??. unfold u64_ok.
  pose proof (from_le_bytes_bound (slice off 8 (mapping_bytes m))) as Hw.
  rewrite zlen_slice in Hw by lia. apply Hw. by apply bytes_ok_slice.
Qed.
Lemma hdr_ok m i : map_ok m → in_slots m i → u64_ok (hdr m i).
Proof. intros ? [??]. apply word_ok; [done|lia..]. Qed.
Lemma pay_ok m i : map_ok m → in_slots m i → u64_ok (pay m i).
Proof. intros ? [??]. apply word_ok; [done|lia..]. Qed.

Lemma put_bytes_len m off bs :
  0 ≤ off → off + zlen bs ≤ zlen (mapping_bytes m) →
  zlen (mapping_bytes (put_bytes m off bs)) = zlen (mapping_bytes m).
Proof. intros. by apply zlen_splice. Qed.
Lemma put_bytes_ok m off bs :
  map_ok m → bytes_ok bs → 0 ≤ off → off + zlen bs ≤ zlen (mapping_bytes m) →
  map_ok (put_bytes m off bs).
Proof.
  intros [??] ???. split; [by apply bytes_ok_splice|]. by rewrite put_bytes_len.
Qed.

Lemma zlen_word v : zlen (to_le_bytes 8 v) = 8.
Proof. by apply zlen_to_le_bytes. Qed.

Lemma put_hdr_len m i h : in_slots m i →
  zlen (mapping_bytes (put_hdr m i h)) = zlen (mapping_bytes m).
Proof. intros [??]. apply put_bytes_len; rewrite ?zlen_word; lia. Qed.
Lemma put_pay_len m i p : in_slots m i →
  zlen (mapping_bytes (put_pay m i p)) = zlen (mapping_bytes m).
Proof. intros [??]. apply put_bytes_len; rewrite ?zlen_word; lia. Qed.
Lemma put_hdr_ok m i h : map_ok m → in_slots m i → map_ok (put_hdr m i h).
Proof. intros ? [??]. apply put_bytes_ok; rewrite ?zlen_word; try lia; auto with rust. by apply to_le_bytes_ok. Qed.
Lemma put_pay_ok m i p : map_ok m → in_slots m i → map_ok (put_pay m i p).
Proof. intros ? [??]. apply put_bytes_ok; rewrite ?zlen_word; try lia; auto with rust. by apply to_le_bytes_ok. Qed.

Lemma in_slots_put_hdr m i h j : in_slots m i → in_slots (put_hdr m i h) j ↔ in_slots m j.
Proof. intros. unfold in_slots. by rewrite put_hdr_len. Qed.
Lemma in_slots_put_pay m i p j : in_slots m i → in_slots (put_pay m i p) j ↔ in_slots m j.
Proof. intros. unfold in_slots. by rewrite put_pay_len. Qed.

(** Words after a write of bytes elsewhere. *)
Lemma word_put_disjoint m off bs off' n :
  0 ≤ off → off + zlen bs ≤ zlen (mapping_bytes m) → 0 ≤ off' →
  off' + n ≤ off ∨ off + zlen bs ≤ off' →
  slice off' n (mapping_bytes (put_bytes m off bs)) = slice off' n (mapping_bytes m).
Proof. intros. by apply slice_splice_disjoint. Qed.

Lemma word_put_same m off v :
  u64_ok v → 0 ≤ off → off + 8 ≤ zlen (mapping_bytes m) →
  from_le_bytes (slice off 8 (mapping_bytes (put_bytes m off (to_le_bytes 8 v)))) = v.
Proof.
  intros. rewrite <- (zlen_word v). simpl.
  rewrite slice_splice_same by (rewrite ?zlen_word; lia).
  by apply from_to_le_bytes.
Qed.

Lemma hdr_put_hdr m i h j :
  in_slots m i → u64_ok h → 0 ≤ j →
  hdr (put_hdr m i h) j = if decide (i = j) then h else hdr m j.
Proof.
  intros [??] ??. unfold hdr, put_hdr. case_decide; [subst; apply word_put_same; [done|lia..]|].
  rewrite word_put_disjoint; rewrite ?zlen_word; [done|lia..].
Qed.
Lemma pay_put_hdr m i h j : in_slots m i → 0 ≤ j → pay (put_hdr m i h) j = pay m j.
Proof.
  intros [??] ?. unfold pay, put_hdr. rewrite word_put_disjoint; rewrite ?zlen_word; [done|lia..].
Qed.
Lemma hdr_put_pay m i p j : in_slots m i → 0 ≤ j → hdr (put_pay m i p) j = hdr m j.
Proof.
  intros [??] ?. unfold hdr, put_pay. rewrite word_put_disjoint; rewrite ?zlen_word; [done|lia..].
Qed.
Lemma pay_put_pay m i p j :
  in_slots m i → u64_ok p → 0 ≤ j →
  pay (put_pay m i p) j = if decide (i = j) then p else pay m j.
Proof.
  intros [??] ??. unfold pay, put_pay. case_decide; [subst; apply word_put_same; [done|lia..]|].
  rewrite word_put_disjoint; rewrite ?zlen_word; [done|lia..].
Qed.
End words.

Section block_ops.
Context {B : Bitfield} {BS : BitfieldSpec B}.
Implicit Types (m : Mapping) (i : Z).

Lemma read_header_ok m i : map_ok m → in_slots m i → read_header m i = Ok (hdr m i).
Proof.
  intros ? [??]. unfold read_header, header_offset. rewrite offset_for_index_eq.
  rewrite read_bytes_ok; rewrite ?zlen_zeros; try lia; done.
Qed.
Lemma read_payload_ok m i : map_ok m → in_slots m i → read_payload m i = Ok (pay m i).
Proof.
  intros ? [??]. unfold read_payload, payload_offset. rewrite offset_for_index_eq.
  change HEADER_SIZE_BYTES with 8.
  rewrite read_bytes_ok; rewrite ?zlen_zeros; try lia; done.
Qed.
Lemma write_header_ok m i h :
  map_ok m → in_slots m i → u64_ok h → write_header i h m = (Ok tt, put_hdr m i h).
Proof.
  intros ? [??] ?. unfold write_header, header_offset, hdr_value.
  rewrite offset_for_index_eq, bit_range_all by done.
  apply write_bytes_unit; rewrite ?zlen_word; [done|lia..].
Qed.
Lemma write_payload_ok m i p :
  map_ok m → in_slots m i → u64_ok p → write_payload i p m = (Ok tt, put_pay m i p).
Proof.
  intros ? [??] ?. unfold write_payload, write_payload_from_bytes, payload_offset, pl_value.
  rewrite offset_for_index_eq, bit_range_all by done.
  apply write_bytes_unit; rewrite ?zlen_word; change HEADER_SIZE_BYTES with 8; [done|lia..].
Qed.

Lemma bind_rd_ok {A C} (f : Mapping → Z → result Error A) (k : A → M Error Mapping C) m i a :
  f m i = Ok a → bind (rd f i) k m = k a m.
Proof. unfold bind, rd, reading. by intros ->. Qed.

(** The type and order of a slot's header. *)
Definition btype m i : option BlockType := from_u8 (hdr_block_type (hdr m i)).
Definition bord m i : Z := hdr_order (hdr m i).
Definition bnext m i : Z := hdr_free_next_index (hdr m i).

Lemma order_ok m i : map_ok m → in_slots m i → order m i = Ok (bord m i).
Proof. intros. unfold order. by rewrite read_header_ok. Qed.
Lemma block_type_ok m i t :
  map_ok m → in_slots m i → btype m i = Some t → block_type m i = Ok t.
Proof. unfold btype, block_type. intros ?? Ht. rewrite read_header_ok by done. simpl. by rewrite Ht. Qed.
Lemma check_type_ok m i t :
  map_ok m → in_slots m i → btype m i = Some t → check_type m i t = Ok tt.
Proof. intros. unfold check_type. erewrite block_type_ok by done. simpl. by rewrite decide_True. Qed.
Lemma check_type_err m i t t' :
  map_ok m → in_slots m i → btype m i = Some t → t ≠ t' →
  check_type m i t' = Err (ExpectedType t' t).
Proof. intros. unfold check_type. erewrite block_type_ok by done. simpl. by rewrite decide_False. Qed.

(** Headers with some fields replaced. *)
Lemma set_hdr_order_ok h v : u64_ok h → 0 ≤ v → u64_ok (set_hdr_order h v).
Proof. intros. apply set_bit_range_ok; [done|lia..]. Qed.
Lemma set_hdr_block_type_ok h v : u64_ok h → 0 ≤ v → u64_ok (set_hdr_block_type h v).
Proof. intros. apply set_bit_range_ok; [done|lia..]. Qed.
Lemma set_hdr_next_ok h v : u64_ok h → 0 ≤ v → u64_ok (set_hdr_free_next_index h v).
Proof. intros. apply set_bit_range_ok; [done|lia..]. Qed.
Lemma u64_ok_0 : u64_ok 0.
Proof. unfold u64_ok. lia. Qed.
End block_ops.
#[export] Hint Resolve set_hdr_order_ok set_hdr_block_type_ok set_hdr_next_ok u64_ok_0
  hdr_ok pay_ok put_hdr_ok put_pay_ok : rust.

(** * Fields of an updated header *)
Section header_fields.
Context {B : Bitfield} {BS : BitfieldSpec B}.
Implicit Types (h v : Z).

Ltac field_other := intros; apply get_set_other; (done || lia).
Ltac field_same := intros; etransitivity; [apply get_set_same; (done || lia)|];
                   apply Z.mod_small; lia.

Lemma order_set_order h v : u64_ok h → 0 ≤ v < 16 → hdr_order (set_hdr_order h v) = v.
Proof. field_same. Qed.
Lemma type_set_order h v :
  u64_ok h → 0 ≤ v → hdr_block_type (set_hdr_order h v) = hdr_block_type h.
Proof. field_other. Qed.
Lemma next_set_order h v :
  u64_ok h → 0 ≤ v → hdr_free_next_index (set_hdr_order h v) = hdr_free_next_index h.
Proof. field_other. Qed.
Lemma order_set_type h v :
  u64_ok h → 0 ≤ v → hdr_order (set_hdr_block_type h v) = hdr_order h.
Proof. field_other. Qed.
Lemma type_set_type h v :
  u64_ok h → 0 ≤ v < 16 → hdr_block_type (set_hdr_block_type h v) = v.
Proof. field_same. Qed.
Lemma next_set_type h v :
  u64_ok h → 0 ≤ v → hdr_free_next_index (set_hdr_block_type h v) = hdr_free_next_index h.
Proof. field_other. Qed.
Lemma order_set_next h v :
  u64_ok h → 0 ≤ v → hdr_order (set_hdr_free_next_index h v) = hdr_order h.
Proof. field_other. Qed.
Lemma type_set_next h v :
  u64_ok h → 0 ≤ v → hdr_block_type (set_hdr_free_next_index h v) = hdr_block_type h.
Proof. field_other. Qed.
Lemma next_set_next h v :
  u64_ok h → 0 ≤ v < 2 ^ 28 → hdr_free_next_index (set_hdr_free_next_index h v) = v.
Proof. field_same. Qed.
Lemma hdr_order_bound h : u64_ok h → 0 ≤ hdr_order h < 16.
Proof. intros. apply (bit_range_bound h 3 0); [done|lia..]. Qed.
Lemma hdr_next_bound h : u64_ok h → 0 ≤ hdr_free_next_index h < 2 ^ 28.
Proof. intros. apply (bit_range_bound h 35 8); [done|lia..]. Qed.
End header_fields.
Create Rewrite HintDb fields.
#[export] Hint Rewrite @order_set_order @type_set_order @next_set_order @order_set_type
  @type_set_type @next_set_type @order_set_next @type_set_next @next_set_next
  using (solve [eauto with rust | lia | eauto 6 with rust]) : fields.

(** Reads and writes of headers by the operations the heap uses. *)
Section header_ops.
Context {B : Bitfield} {BS : BitfieldSpec B}.
Implicit Types (m : Mapping) (i : Z).

Lemma to_u8_nonneg t : 0 ≤ to_u8 t.
Proof. by destruct t. Qed.
Hint Resolve to_u8_nonneg : rust.

Lemma set_order_ok m i k :
  map_ok m → in_slots m i → 0 ≤ k < 8 →
  set_order i k m = (Ok tt, put_hdr m i (set_hdr_order (hdr m i) k)).
Proof.
  intros. unfold set_order, NUM_ORDERS. by_ltb.
  rewrite (bind_rd_ok _ _ _ _ (hdr m i)) by (by apply read_header_ok).
  apply write_header_ok; [done..|]. apply set_hdr_order_ok; [by apply hdr_ok|lia].
Qed.

Definition free_header (h next : Z) : Z :=
  set_hdr_free_next_index (set_hdr_block_type h (to_u8 Free)) next.

Lemma free_header_ok h next : u64_ok h → 0 ≤ next → u64_ok (free_header h next).
Proof. intros. apply set_hdr_next_ok; [|done]. by apply set_hdr_block_type_ok. Qed.

Lemma become_free_ok m i next :
  map_ok m → in_slots m i → 0 ≤ next →
  become_free i next m = (Ok tt, put_hdr m i (free_header (hdr m i) next)).
Proof.
  intros. unfold become_free.
  rewrite (bind_rd_ok _ _ _ _ (hdr m i)) by (by apply read_header_ok).
  apply write_header_ok; [done..|]. apply free_header_ok; [by apply hdr_ok|done].
Qed.

Lemma become_reserved_ok m i :
  map_ok m → in_slots m i → btype m i = Some Free →
  become_reserved i m
  = (Ok tt, put_hdr m i (set_hdr_block_type (hdr m i) (to_u8 Reserved))).
Proof.
  intros. unfold become_reserved.
  rewrite (bind_rd_ok _ _ _ _ tt) by (by apply check_type_ok).
  rewrite (bind_rd_ok _ _ _ _ (hdr m i)) by (by apply read_header_ok).
  apply write_header_ok; [done..|]. apply set_hdr_block_type_ok; [by apply hdr_ok|done].
Qed.

Lemma free_next_index_ok m i :
  map_ok m → in_slots m i → btype m i = Some Free → free_next_index m i = Ok (bnext m i).
Proof.
  intros. unfold free_next_index. rewrite check_type_ok by done. simpl.
  by rewrite read_header_ok.
Qed.

Lemma set_free_next_index_ok m i next :
  map_ok m → in_slots m i → btype m i = Some Free → 0 ≤ next →
  set_free_next_index i next m
  = (Ok tt, put_hdr m i (set_hdr_free_next_index (hdr m i) next)).
Proof.
  intros. unfold set_free_next_index.
  rewrite (bind_rd_ok _ _ _ _ tt) by (by apply check_type_ok).
  rewrite (bind_rd_ok _ _ _ _ (hdr m i)) by (by apply read_header_ok).
  apply write_header_ok; [done..|]. apply set_hdr_next_ok; [by apply hdr_ok|done].
Qed.

Definition new_free_header (k next : Z) : Z := free_header (set_hdr_order 0 k) next.

Lemma new_free_ok m i k next :
  map_ok m → in_slots m i → 0 ≤ k < 8 → 0 ≤ next →
  new_free i k next m = (Ok i, put_hdr m i (new_free_header k next)).
Proof.
  intros. unfold new_free, NUM_ORDERS. by_ltb.
  erewrite bind_ok; [done|]. apply write_header_ok; [done..|].
  apply free_header_ok; [|done]. apply set_hdr_order_ok; [apply u64_ok_0|lia].
Qed.

Lemma free_header_fields h next :
  u64_ok h → 0 ≤ next < 2 ^ 28 →
  hdr_order (free_header h next) = hdr_order h ∧
  hdr_block_type (free_header h next) = to_u8 Free ∧
  hdr_free_next_index (free_header h next) = next.
Proof.
  intros. unfold free_header.
  assert (u64_ok (set_hdr_block_type h (to_u8 Free))) by (by apply set_hdr_block_type_ok).
  rewrite order_set_next, order_set_type, type_set_next, next_set_next by (done || lia).
  rewrite type_set_type by (done || simpl; lia). done.
Qed.
End header_ops.
#[export] Hint Resolve to_u8_nonneg free_header_ok : rust.
