(* ===== verification/InspectHeap.v ===== *)
(** The buddy allocator of an Inspect VMO:
    [src/public/rust/fuchsia-inspect/src/heap.rs]. *)

From S2P Require Import Prelude SharedBuffer InspectFormat InspectBlock.

Record Heap := {
  mapping : Mapping;
  current_size_bytes : Z;
  free_head_per_order : list Z
}.

(** Operations on blocks act on the heap's mapping. *)
Definition on_mapping {A : Type} (f : M Error Mapping A) : M Error Heap A := λ h,
  let '(r, m) := f (mapping h) in
  (r, {| mapping := m; current_size_bytes := current_size_bytes h;
         free_head_per_order := free_head_per_order h |}).

(** [self.free_head_per_order[order]], which panics out of range. *)
Definition free_head (order : Z) : M Error Heap Z := λ h,
  (ounwrap (free_head_per_order h !! Z.to_nat order), h).
Definition set_free_head (order index : Z) : M Error Heap unit := λ h,
  if order <? zlen (free_head_per_order h) then
    (Ok tt, {| mapping := mapping h; current_size_bytes := current_size_bytes h;
               free_head_per_order := <[Z.to_nat order := index]> (free_head_per_order h) |})
  else (Panic, h).

Section heap.
Context {B : Bitfield}.

Definition get_block (h : Heap) (index : Z) : result Error Z :=
  let offset := offset_for_index index in
  if current_size_bytes h <=? offset then Err InvalidIndex
  else k <-? order (mapping h) index ;;
       if current_size_bytes h - offset <? order_to_size k then Err InvalidIndex
       else Ok index.

Definition buddy (index order : Z) : result Error Z :=
  i <-? index_for_offset (order_to_size order) ;; Ok (Z.lxor index i).

Definition is_free_block (h : Heap) (index expected_order : Z) : result Error bool :=
  if current_size_bytes h / MIN_ORDER_SIZE <=? index then Ok false
  else match get_block h index with
       | Err _ => Ok false
       | Ok block =>
           t <-? block_type (mapping h) block ;;
           if decide (t = Free)
           then k <-? order (mapping h) block ;; Ok (k =? expected_order)
           else Ok false
       | Panic => Panic
       | OutOfFuel => OutOfFuel
       end.

(** The walk of [remove_free] along the free list of [order].  The fuel is the
    number of 16-byte slots of the heap: a list has no more blocks. *)
Fixpoint remove_free_loop (fuel : nat) (block order next_index : Z) : M Error Heap bool :=
  match fuel with
  | O => λ h, (OutOfFuel, h)
  | S fuel =>
      free <- reading (λ h, is_free_block h next_index order) ;;
      if free : bool then
        curr_block <- unwrap (reading (λ h, get_block h next_index)) ;;
        next_index <- on_mapping (rd free_next_index curr_block) ;;
        if next_index =? block then
          next <- on_mapping (rd free_next_index block) ;;
          on_mapping (set_free_next_index curr_block next) ;;;
          ret true
        else remove_free_loop fuel block order next_index
      else ret false
  end.

Definition remove_free (block : Z) : M Error Heap bool :=
  k <- on_mapping (rd order block) ;;
  if NUM_ORDERS <=? k then ret false
  else next_index <- free_head k ;;
       if next_index =? block then
         next <- on_mapping (rd free_next_index block) ;;
         set_free_head k next ;;;
         ret true
       else λ h, remove_free_loop (Z.to_nat (current_size_bytes h / MIN_ORDER_SIZE))
                   block k next_index h.

Definition split_block (block : Z) : M Error Heap unit :=
  k <- on_mapping (rd order block) ;;
  if NUM_ORDERS <=? k then fail (InvalidOrder k block)
  else remove_free block ;;;
       k <- on_mapping (rd order block) ;;
       k' <- lift (usub k 1) ;;
       buddy_index <- lift (buddy block k') ;;
       on_mapping (set_order block k') ;;;
       on_mapping (become_free block buddy_index) ;;;
       on_mapping (set_order buddy_index k') ;;;
       head <- free_head k' ;;
       on_mapping (become_free buddy_index head) ;;;
       set_free_head k' block.

(** [loop] of [grow_heap]: free blocks of the largest order from [curr_index]
    down to [min_index], each linked to the previous one. *)
Fixpoint grow_loop (fuel : nat) (min_index curr_index last_index : Z) : M Error Heap Z :=
  match fuel with
  | O => λ h, (OutOfFuel, h)
  | S fuel =>
      step <- lift (index_for_offset MAX_ORDER_SIZE) ;;
      curr_index <- lift (usub curr_index step) ;;
      on_mapping (unwrap (new_free curr_index (NUM_ORDERS - 1) last_index)) ;;;
      if curr_index <=? min_index then ret curr_index
      else grow_loop fuel min_index curr_index curr_index
  end.

Definition grow_heap (requested_size : Z) : M Error Heap unit := λ h,
  let mapping_size := mapping_len (mapping h) in
  if (current_size_bytes h =? mapping_size) && (mapping_size <? requested_size)
  then (Err HeapAtMaximumSize, h)
  else
    let new_size := Z.min mapping_size requested_size in
    (min_index <- lift (index_for_offset (current_size_bytes h)) ;;
     last_index <- free_head (NUM_ORDERS - 1) ;;
     curr_index <- lift (index_for_offset (new_size - new_size mod PAGE_SIZE_BYTES)) ;;
     last_index <- grow_loop (Z.to_nat (new_size / MAX_ORDER_SIZE + 1))
                     min_index curr_index last_index ;;
     set_free_head (NUM_ORDERS - 1) last_index ;;;
     λ h, (Ok tt, {| mapping := mapping h; current_size_bytes := new_size;
                     free_head_per_order := free_head_per_order h |})) h.

(** [Heap::new]. *)
Definition new_heap (m : Mapping) : result Error unit * Heap :=
  grow_heap PAGE_SIZE_BYTES
    {| mapping := m; current_size_bytes := 0; free_head_per_order := replicate 8 0 |}.

(** [(order..NUM_ORDERS).find(|&i| self.is_free_block(self.free_head_per_order[i], i))] *)
Fixpoint find_order (n : nat) (order : Z) : M Error Heap (option Z) :=
  match n with
  | O => ret None
  | S n =>
      head <- free_head order ;;
      free <- reading (λ h, is_free_block h head order) ;;
      if free : bool then ret (Some order) else find_order n (order + 1)
  end.

(** [while block.order() > min_fit_order { self.split_block(&block)? }]; each
    turn lowers the order, a 4-bit field. *)
Fixpoint split_loop (fuel : nat) (block min_fit_order : Z) : M Error Heap unit :=
  match fuel with
  | O => λ h, (OutOfFuel, h)
  | S fuel =>
      k <- on_mapping (rd order block) ;;
      if min_fit_order <? k then split_block block ;;; split_loop fuel block min_fit_order
      else ret tt
  end.

Definition allocate_block (min_size : Z) : M Error Heap Z :=
  min_fit_order <- lift (fit_order min_size) ;;
  if NUM_ORDERS <=? min_fit_order then fail OrderTooBig
  else
    order_found <- find_order (Z.to_nat (NUM_ORDERS - min_fit_order)) min_fit_order ;;
    next_order <- match order_found with
                  | Some o => ret o
                  | None =>
                      size <- (λ h, (umul 64 (current_size_bytes h) 2, h)) ;;
                      grow_heap size ;;; ret (NUM_ORDERS - 1)
                  end ;;
    next_block_index <- free_head next_order ;;
    block <- unwrap (reading (λ h, get_block h next_block_index)) ;;
    split_loop 16 block min_fit_order ;;;
    remove_free block ;;;
    on_mapping (unwrap (become_reserved block)) ;;;
    ret block.

(** The [while] loop of [free_block]: merge with a free buddy of the same
    order, up to the largest order.  Returns the block to free. *)
Fixpoint free_loop (fuel : nat) (block_to_free buddy_block : Z) : M Error Heap Z :=
  match fuel with
  | O => λ h, (OutOfFuel, h)
  | S fuel =>
      t <- on_mapping (rd block_type buddy_block) ;;
      k <- on_mapping (rd order block_to_free) ;;
      kb <- on_mapping (rd order buddy_block) ;;
      if bool_decide (t = Free) && (k <? NUM_ORDERS - 1) && (k =? kb) then
        remove_free buddy_block ;;;
        block_to_free <- (if buddy_block <? block_to_free
                          then p <- on_mapping (swap block_to_free buddy_block true) ;;
                               ret (fst p)
                          else ret block_to_free) ;;
        k <- on_mapping (rd order block_to_free) ;;
        on_mapping (set_order block_to_free (k + 1)) ;;;
        k <- on_mapping (rd order block_to_free) ;;
        buddy_index <- lift (buddy block_to_free k) ;;
        buddy_block <- unwrap (reading (λ h, get_block h buddy_index)) ;;
        free_loop fuel block_to_free buddy_block
      else ret block_to_free
  end.

Definition free_block (block : Z) : M Error Heap unit :=
  t <- on_mapping (rd block_type block) ;;
  if decide (t = Free) then fail CannotFree
  else
    k <- on_mapping (rd order block) ;;
    buddy_index <- lift (buddy block k) ;;
    buddy_block <- unwrap (reading (λ h, get_block h buddy_index)) ;;
    block_to_free <- free_loop 16 block buddy_block ;;
    k <- on_mapping (rd order block_to_free) ;;
    head <- free_head k ;;
    on_mapping (become_free block_to_free head) ;;;
    k <- on_mapping (rd order block_to_free) ;;
    set_free_head k block_to_free.
End heap.

(** A one-page heap, a few operations on it, and the free lists they leave. *)
Definition page : Mapping := {| mapping_bytes := zeros 4096 |}.
Example heap_run :
  match new_heap page with
  | (Ok _, h) =>
      match (a <- allocate_block 16 ;; b <- allocate_block 100 ;; c <- allocate_block 40 ;;
             free_block b ;;; d <- allocate_block 16 ;; ret [a; b; c; d]) h with
      | (Ok l, h') => Some (l, free_head_per_order h')
      | _ => None
      end
  | _ => None
  end = Some ([0; 8; 4; 1], [0; 2; 0; 8; 16; 32; 64; 128]).
Proof. vm_compute. reflexivity. Qed.
