(* ===== verification/HeapInvariant.v ===== *)
(** The invariant of the Inspect heap and the abstract allocator it
    implements.

    Abstractly a heap of [n] slots is a map from block index to order and
    type.  [tiled] says that the blocks are aligned to their size and partition
    the slots; [heap_rep] relates the bytes of the VMO and the free lists to
    the map. *)

From S2P Require Import Prelude SharedBuffer InspectFormat InspectBlock InspectHeap.

Abbreviation blocks := (gmap Z (Z * BlockType)).

Record tiled (n : Z) (A : blocks) : Prop := {
  tiled_order i k t : A !! i = Some (k, t) → 0 ≤ k < 8;
  tiled_align i k t : A !! i = Some (k, t) → (2 ^ k | i);
  tiled_range i k t : A !! i = Some (k, t) → 0 ≤ i ∧ i + 2 ^ k ≤ n;
  tiled_cover x : 0 ≤ x < n → ∃ i k t, A !! i = Some (k, t) ∧ i ≤ x < i + 2 ^ k;
  tiled_disjoint i k t j k' t' :
    A !! i = Some (k, t) → A !! j = Some (k', t') → i ≠ j →
    i + 2 ^ k ≤ j ∨ j + 2 ^ k' ≤ i
}.

(** The index of the sibling of an aligned block. *)
Definition sibling (i k : Z) : Z := Z.lxor i (2 ^ k).

Section tiled.
Context (n : Z) (A : blocks) (HA : tiled n A).
Implicit Types (i j k : Z) (t : BlockType).

Lemma tiled_unique x i k t j k' t' :
  A !! i = Some (k, t) → A !! j = Some (k', t') →
  i ≤ x < i + 2 ^ k → j ≤ x < j + 2 ^ k' → i = j.
Proof.
  intros Hi Hj ??. destruct (decide (i = j)) as [|Hne]; [done|].
  destruct (tiled_disjoint _ _ HA _ _ _ _ _ _ Hi Hj Hne); lia.
Qed.

Lemma block_pos i k t : A !! i = Some (k, t) → 0 < 2 ^ k.
Proof. intros H. apply pow2_pos. by destruct (tiled_order _ _ HA _ _ _ H). Qed.

Lemma tiled_retype i k t t' : A !! i = Some (k, t) → tiled n (<[i := (k, t')]> A).
Proof.
  intros Hi.
  assert (∀ j k0 t0, <[i := (k, t')]> A !! j = Some (k0, t0) →
    ∃ t1, A !! j = Some (k0, t1)) as Hold.
  { intros j k0 t0 Hj. destruct (decide (i = j)); simplify_map_eq; eauto. }
  split.
  - intros j k0 t0 Hj. destruct (Hold _ _ _ Hj). by eapply tiled_order.
  - intros j k0 t0 Hj. destruct (Hold _ _ _ Hj). by eapply tiled_align.
  - intros j k0 t0 Hj. destruct (Hold _ _ _ Hj). by eapply tiled_range.
  - intros x Hx. destruct (tiled_cover _ _ HA x Hx) as (j & k0 & t0 & Hj & ?).
    destruct (decide (i = j)) as [->|].
    + rewrite Hi in Hj. simplify_eq. do 3 eexists. by rewrite lookup_insert_eq.
    + exists j, k0, t0. by rewrite lookup_insert_ne.
  - intros a ka ta b kb tb Ha Hb.
    destruct (Hold _ _ _ Ha), (Hold _ _ _ Hb). by eapply tiled_disjoint.
Qed.
End tiled.

Section sibling.
Implicit Types (i k n : Z).

Lemma sibling_cases i k :
  0 ≤ k → (2 ^ k | i) →
  (sibling i k = i + 2 ^ k ∧ (2 ^ (k + 1) | i)) ∨
  (sibling i k = i - 2 ^ k ∧ (2 ^ (k + 1) | i - 2 ^ k)).
Proof.
  intros Hk Hd. unfold sibling. rewrite lxor_pow2 by done. destruct Hd as [q ->].
  rewrite div_mul_pow2, pow2_S by done. destruct (Z.even q) eqn:Hq.
  - left. split; [done|]. apply Z.even_spec in Hq as [r ->]. exists r. lia.
  - right. split; [done|]. rewrite <- Z.negb_odd in Hq. apply negb_false_iff in Hq.
    apply Z.odd_spec in Hq as [r ->]. exists r. lia.
Qed.

Lemma sibling_up i k : 0 ≤ k → (2 ^ (k + 1) | i) → sibling i k = i + 2 ^ k.
Proof.
  intros Hk Hd. pose proof (pow2_pos k Hk).
  assert (2 ^ k | i) as Hd' by (by eapply Z.divide_trans; [apply pow2_divide with (k := k + 1)|]; lia || done).
  destruct (sibling_cases i k Hk Hd') as [[-> _]|[_ Hm]]; [done|exfalso].
  rewrite pow2_S in * by done. destruct Hd as [q ->], Hm as [r Hm].
  assert (2 * (q - r) = 1) by nia. lia.
Qed.

Lemma sibling_involutive i k : sibling (sibling i k) k = i.
Proof. unfold sibling. by rewrite Z.lxor_assoc, Z.lxor_nilpotent, Z.lxor_0_r. Qed.

Lemma sibling_ne i k : 0 ≤ k → sibling i k ≠ i.
Proof.
  intros Hk He. pose proof (pow2_pos k Hk). assert (Z.lxor i (sibling i k) = 0) as H0.
  { rewrite He. apply Z.lxor_nilpotent. }
  unfold sibling in H0. rewrite <- Z.lxor_assoc, Z.lxor_nilpotent, Z.lxor_0_l in H0. lia.
Qed.

Lemma sibling_align i k : 0 ≤ k → (2 ^ k | i) → (2 ^ k | sibling i k).
Proof.
  intros Hk Hd. assert (2 ^ k | 2 ^ k) by apply Z.divide_refl.
  destruct (sibling_cases i k Hk Hd) as [[-> _]|[-> _]];
    [by apply Z.divide_add_r|by apply Z.divide_sub_r].
Qed.

(** Both siblings lie in the same aligned interval of the next order. *)
Lemma sibling_pair i k :
  0 ≤ k → (2 ^ k | i) →
  ∃ p, (2 ^ (k + 1) | p) ∧ ((i = p ∧ sibling i k = p + 2 ^ k) ∨
                            (i = p + 2 ^ k ∧ sibling i k = p)).
Proof.
  intros Hk Hd. destruct (sibling_cases i k Hk Hd) as [[-> ?]|[-> ?]].
  - exists i. auto.
  - exists (i - 2 ^ k). split; [done|]. right. lia.
Qed.

(** An aligned interval that fits in [n] slots has its sibling in range when
    [n] is a multiple of the pair's size. *)
Lemma divide_lt_le p q x : 0 < p → (p | x) → (p | q) → x < q → x + p ≤ q.
Proof. intros ? [a ->] [b ->] ?. assert (a < b) by nia. nia. Qed.

Lemma sibling_range i k n :
  0 ≤ k → (2 ^ k | i) → 0 ≤ i → i + 2 ^ k ≤ n → (2 ^ (k + 1) | n) →
  0 ≤ sibling i k ∧ sibling i k + 2 ^ k ≤ n.
Proof.
  intros Hk Hd ? Hn Hdn. pose proof (pow2_pos k Hk).
  destruct (sibling_pair i k Hk Hd) as (p & Hp & Hc).
  assert (0 ≤ p).
  { destruct Hp as [q Hp]. rewrite pow2_S in Hp by done.
    destruct (decide (0 ≤ q)); nia. }
  assert (p + 2 ^ (k + 1) ≤ n).
  { apply divide_lt_le; [apply pow2_pos; lia|done|done|]. lia. }
  rewrite pow2_S in * by done. lia.
Qed.
End sibling.

Section buddies.
Context (n : Z) (A : blocks) (HA : tiled n A).
Implicit Types (i j k : Z) (t : BlockType).

(** Aligned blocks nest or are disjoint: the slot of a block's sibling is the
    start of a block, of the same or of a smaller order. *)
Lemma aligned_start x j k t :
  A !! j = Some (k, t) → j ≤ x < j + 2 ^ k → (2 ^ k | x) → j = x.
Proof.
  intros Hj Hx [q Hq]. pose proof (block_pos n A HA _ _ _ Hj).
  destruct (tiled_align _ _ HA _ _ _ Hj) as [r Hr]. subst. f_equal. nia.
Qed.

Lemma sibling_block i k t :
  A !! i = Some (k, t) → (2 ^ (k + 1) | n) →
  ∃ k' t', A !! sibling i k = Some (k', t') ∧ 0 ≤ k' ≤ k.
Proof.
  intros Hi Hn. pose proof (tiled_order _ _ HA _ _ _ Hi) as Hk.
  pose proof (tiled_align _ _ HA _ _ _ Hi) as Ha.
  pose proof (tiled_range _ _ HA _ _ _ Hi) as Hr.
  pose proof (block_pos n A HA _ _ _ Hi) as Hpos.
  destruct (sibling_range i k n) as [Hs1 Hs2]; [lia|done|lia..|done|].
  destruct (tiled_cover _ _ HA (sibling i k)) as (j & k' & t' & Hj & Hin); [lia|].
  pose proof (tiled_order _ _ HA _ _ _ Hj) as Hk'.
  destruct (decide (k' ≤ k)) as [Hle|Hgt].
  - assert (j = sibling i k) as <-; [|exists k', t'; split; [done|lia]].
    apply (aligned_start _ _ k' t'); [done|done|].
    apply Z.divide_trans with (2 ^ k); [apply pow2_divide; lia|].
    apply sibling_align; [lia|done].
  - exfalso. (* the larger block also covers slot [i] *)
    destruct (sibling_pair i k ltac:(lia) Ha) as (p & Hp & Hc).
    assert (j ≤ p) as Hjp.
    { destruct (tiled_align _ _ HA _ _ _ Hj) as [q Hq].
      destruct (decide (j ≤ p)); [done|exfalso].
      assert (p + 2 ^ (k + 1) ≤ j); [|rewrite pow2_S in * by lia; lia].
      apply divide_lt_le; [apply pow2_pos; lia|done| |lia].
      apply Z.divide_trans with (2 ^ k'); [apply pow2_divide; lia|].
      by eapply tiled_align. }
    assert (p + 2 ^ (k + 1) ≤ j + 2 ^ k') as Hpj.
    { apply divide_lt_le; [apply pow2_pos; lia|done| |lia].
      apply Z.divide_add_r.
      - apply Z.divide_trans with (2 ^ k'); [apply pow2_divide; lia|].
        by eapply tiled_align.
      - apply pow2_divide. lia. }
    rewrite pow2_S in Hpj by lia.
    assert (i = j) as <- by (apply (tiled_unique n A HA i i k t j k' t'); [done|done|lia..]).
    rewrite Hi in Hj. simplify_eq. lia.
Qed.
End buddies.

(** * Splitting and merging *)
Definition split_map (i k : Z) (t1 t2 : BlockType) (A : blocks) : blocks :=
  <[i + 2 ^ k := (k, t2)]> (<[i := (k, t1)]> A).
Definition merge_map (i k : Z) (t : BlockType) (A : blocks) : blocks :=
  <[i := (k + 1, t)]> (delete (i + 2 ^ k) A).

Section split_merge.
Context (n : Z) (A : blocks) (HA : tiled n A).
Implicit Types (i j k : Z) (t : BlockType).

Lemma no_block_inside i k t x :
  A !! i = Some (k, t) → i < x < i + 2 ^ k → A !! x = None.
Proof.
  intros Hi Hx. destruct (A !! x) as [[k' t']|] eqn:Hx'; [|done]. exfalso.
  pose proof (block_pos n A HA _ _ _ Hx').
  assert (x = i); [|lia]. apply (tiled_unique n A HA x x k' t' i k t); [done|done|lia..].
Qed.

Lemma split_lookup i k t t1 t2 j k0 t0 :
  0 ≤ k → A !! i = Some (k + 1, t) → split_map i k t1 t2 A !! j = Some (k0, t0) →
  (j = i ∧ k0 = k ∧ t0 = t1) ∨ (j = i + 2 ^ k ∧ k0 = k ∧ t0 = t2) ∨
  (A !! j = Some (k0, t0) ∧ (j + 2 ^ k0 ≤ i ∨ i + 2 * 2 ^ k ≤ j)).
Proof.
  intros Hk Hi Hj. unfold split_map in Hj. pose proof (pow2_pos k Hk).
  destruct (decide (i + 2 ^ k = j)) as [<-|]; [rewrite lookup_insert_eq in Hj; naive_solver|].
  rewrite lookup_insert_ne in Hj by done.
  destruct (decide (i = j)) as [<-|]; [rewrite lookup_insert_eq in Hj; naive_solver|].
  rewrite lookup_insert_ne in Hj by done. right. right. split; [done|].
  destruct (tiled_disjoint _ _ HA _ _ _ _ _ _ Hj Hi) as [?|Hd]; [done|by left|].
  rewrite pow2_S in Hd by done. by right.
Qed.

Lemma tiled_split i k t t1 t2 :
  0 ≤ k → A !! i = Some (k + 1, t) → tiled n (split_map i k t1 t2 A).
Proof.
  intros Hk Hi. pose proof (pow2_pos k Hk).
  pose proof (tiled_order _ _ HA _ _ _ Hi) as Hord.
  pose proof (tiled_range _ _ HA _ _ _ Hi) as Hr. rewrite pow2_S in Hr by done.
  assert (2 ^ k | i) as Hal.
  { apply Z.divide_trans with (2 ^ (k + 1)); [apply pow2_divide; lia|by eapply tiled_align]. }
  split.
  - intros j k0 t0 Hj. destruct (split_lookup _ _ _ _ _ _ _ _ Hk Hi Hj)
      as [(->&->&_)|[(->&->&_)|[? _]]]; [lia..|by eapply tiled_order].
  - intros j k0 t0 Hj. destruct (split_lookup _ _ _ _ _ _ _ _ Hk Hi Hj)
      as [(->&->&_)|[(->&->&_)|[? _]]]; [done| |by eapply tiled_align].
    by apply Z.divide_add_r, Z.divide_refl.
  - intros j k0 t0 Hj. destruct (split_lookup _ _ _ _ _ _ _ _ Hk Hi Hj)
      as [(->&->&_)|[(->&->&_)|[? _]]]; [lia..|by eapply tiled_range].
  - intros x Hx. destruct (tiled_cover _ _ HA x Hx) as (j & k0 & t0 & Hj & Hin).
    unfold split_map. destruct (decide (j = i)) as [->|Hne].
    + rewrite Hi in Hj. simplify_eq. rewrite pow2_S in Hin by done.
      destruct (decide (x < i + 2 ^ k)).
      * exists i, k, t1. rewrite lookup_insert_ne, lookup_insert_eq by lia. split; [done|lia].
      * exists (i + 2 ^ k), k, t2. rewrite lookup_insert_eq. split; [done|lia].
    + exists j, k0, t0. rewrite !lookup_insert_ne; [done|done|].
      intros <-. assert (A !! (i + 2 ^ k) = None); [|congruence].
      apply no_block_inside with i (k + 1) t; [done|]. rewrite pow2_S by done. lia.
  - intros a ka ta b kb tb Ha Hb Hne.
    destruct (split_lookup _ _ _ _ _ _ _ _ Hk Hi Ha) as [(->&->&_)|[(->&->&_)|[Ha' ?]]],
      (split_lookup _ _ _ _ _ _ _ _ Hk Hi Hb) as [(->&->&_)|[(->&->&_)|[Hb' ?]]];
      try lia. by eapply tiled_disjoint.
Qed.

Lemma merge_lookup i k t1 t2 t j k0 t0 :
  0 ≤ k → A !! i = Some (k, t1) → A !! (i + 2 ^ k) = Some (k, t2) →
  merge_map i k t A !! j = Some (k0, t0) →
  (j = i ∧ k0 = k + 1 ∧ t0 = t) ∨
  (A !! j = Some (k0, t0) ∧ (j + 2 ^ k0 ≤ i ∨ i + 2 * 2 ^ k ≤ j)).
Proof.
  intros Hk Hi Hi' Hj. unfold merge_map in Hj. pose proof (pow2_pos k Hk).
  destruct (decide (i = j)) as [<-|]; [rewrite lookup_insert_eq in Hj; naive_solver|].
  rewrite lookup_insert_ne in Hj by done.
  destruct (decide (i + 2 ^ k = j)) as [<-|]; [by rewrite lookup_delete_eq in Hj|].
  rewrite lookup_delete_ne in Hj by done. right. split; [done|].
  pose proof (block_pos n A HA _ _ _ Hj).
  destruct (tiled_disjoint _ _ HA _ _ _ _ _ _ Hj Hi) as [?|Hd1]; [done|by left|].
  destruct (tiled_disjoint _ _ HA _ _ _ _ _ _ Hj Hi') as [?|Hd2]; [done|lia..].
Qed.

Lemma tiled_merge i k t1 t2 t :
  0 ≤ k → k + 1 < 8 → A !! i = Some (k, t1) → A !! (i + 2 ^ k) = Some (k, t2) →
  (2 ^ (k + 1) | i) → tiled n (merge_map i k t A).
Proof.
  intros Hk Hk8 Hi Hi' Hal. pose proof (pow2_pos k Hk).
  pose proof (tiled_range _ _ HA _ _ _ Hi) as Hr.
  pose proof (tiled_range _ _ HA _ _ _ Hi') as Hr'.
  split.
  - intros j k0 t0 Hj. destruct (merge_lookup _ _ _ _ _ _ _ _ Hk Hi Hi' Hj)
      as [(->&->&_)|[? _]]; [lia|by eapply tiled_order].
  - intros j k0 t0 Hj. destruct (merge_lookup _ _ _ _ _ _ _ _ Hk Hi Hi' Hj)
      as [(->&->&_)|[? _]]; [done|by eapply tiled_align].
  - intros j k0 t0 Hj. destruct (merge_lookup _ _ _ _ _ _ _ _ Hk Hi Hi' Hj)
      as [(->&->&_)|[? _]]; [rewrite pow2_S by done; lia|by eapply tiled_range].
  - intros x Hx. destruct (tiled_cover _ _ HA x Hx) as (j & k0 & t0 & Hj & Hin).
    unfold merge_map. destruct (decide (i ≤ x < i + 2 * 2 ^ k)) as [Hin'|Hout].
    + exists i, (k + 1), t. rewrite lookup_insert_eq, pow2_S by done. split; [done|lia].
    + exists j, k0, t0. rewrite lookup_insert_ne, lookup_delete_ne; [done|..].
      * intros <-. rewrite Hi' in Hj. simplify_eq. lia.
      * intros <-. rewrite Hi in Hj. simplify_eq. lia.
  - intros a ka ta b kb tb Ha Hb Hne.
    destruct (merge_lookup _ _ _ _ _ _ _ _ Hk Hi Hi' Ha) as [(->&->&_)|[Ha' ?]],
      (merge_lookup _ _ _ _ _ _ _ _ Hk Hi Hi' Hb) as [(->&->&_)|[Hb' ?]];
      try (rewrite ?pow2_S by done; lia). by eapply tiled_disjoint.
Qed.
End split_merge.

(** * Coalescing: no block and its buddy are both free, the largest order
    apart. While a block is being split or merged this holds but for it. *)
Definition coalesced (A : blocks) : Prop :=
  ∀ j k, 0 ≤ k < 7 → A !! j = Some (k, Free) → A !! sibling j k ≠ Some (k, Free).
Definition coalesced_but (i : Z) (A : blocks) : Prop :=
  ∀ j k, 0 ≤ k < 7 → A !! j = Some (k, Free) → A !! sibling j k = Some (k, Free) →
    j = i ∨ sibling j k = i.

Lemma coalesced_weaken i A : coalesced A → coalesced_but i A.
Proof. intros HA j k Hk Hj Hs. by destruct (HA j k Hk Hj). Qed.

Lemma coalesced_split i k A n :
  tiled n A → 0 ≤ k → A !! i = Some (k + 1, Free) → coalesced_but i A →
  coalesced_but i (split_map i k Free Free A).
Proof.
  intros HA Hk Hi Hco j k' Hk' Hj Hs.
  assert (2 ^ (k + 1) | i) as Hal by (by eapply tiled_align).
  assert (sibling (i + 2 ^ k) k = i) as Hback.
  { rewrite <- sibling_up by done. apply sibling_involutive. }
  destruct (split_lookup n A HA _ _ _ _ _ _ _ _ Hk Hi Hj) as [(->&->&_)|[(->&->&_)|[Hj' _]]];
    [by left|by right|].
  destruct (split_lookup n A HA _ _ _ _ _ _ _ _ Hk Hi Hs) as [(->&->&_)|[(He&->&_)|[Hs' _]]];
    [by right| |by apply Hco].
  left. rewrite <- (sibling_involutive j k), He. done.
Qed.

Lemma coalesced_merge i k t1 t2 t b A n :
  tiled n A → 0 ≤ k → A !! i = Some (k, t1) → A !! (i + 2 ^ k) = Some (k, t2) →
  b = i ∨ b = i + 2 ^ k → coalesced_but b A → coalesced_but i (merge_map i k t A).
Proof.
  intros HA Hk Hi Hi' Hb Hco j k' Hk' Hj Hs. pose proof (pow2_pos k Hk).
  destruct (merge_lookup n A HA _ _ _ _ _ _ _ _ Hk Hi Hi' Hj) as [(->&_)|[Hj' Hd]]; [by left|].
  destruct (merge_lookup n A HA _ _ _ _ _ _ _ _ Hk Hi Hi' Hs) as [(->&_)|[Hs' Hd']]; [by right|].
  pose proof (pow2_pos k' ltac:(lia)).
  destruct (Hco j k' Hk' Hj' Hs'); lia.
Qed.

(** Once the block is not free, or its buddy is not a free block of its size. *)
Lemma coalesced_fill i k t A :
  coalesced_but i A → (t = Free → 0 ≤ k < 7 → A !! sibling i k ≠ Some (k, Free)) →
  coalesced (<[i := (k, t)]> A).
Proof.
  intros HA Hi j k' Hk' Hj Hs. pose proof (sibling_involutive j k') as Hinv.
  destruct (decide (i = j)) as [->|Hne].
  - rewrite lookup_insert_eq in Hj. simplify_eq. apply Hi; [done..|].
    rewrite lookup_insert_ne in Hs; [done|]. apply not_eq_sym, sibling_ne. lia.
  - rewrite lookup_insert_ne in Hj by done. destruct (decide (i = sibling j k')) as [->|Hne'].
    + rewrite lookup_insert_eq in Hs. simplify_eq. rewrite Hinv in Hi. by apply Hi.
    + rewrite lookup_insert_ne in Hs by done. by destruct (HA j k').
Qed.

(** * Free lists

    [chain m hd l]: following the next-free fields from [hd] visits the blocks
    [l] and ends with index 0, which is also the index of a block. *)
Section chain.
Context {B : Bitfield}.
Implicit Types (m : Mapping) (l : list Z).

Fixpoint chain m (hd : Z) l : Prop :=
  match l with
  | [] => hd = 0
  | x :: l => hd = x ∧ chain m (bnext m x) l
  end.

Lemma chain_ext m m' hd l :
  (∀ x, x ∈ l → bnext m' x = bnext m x) → chain m hd l → chain m' hd l.
Proof.
  revert hd. induction l as [|x l IH]; intros hd Heq Hc; [done|].
  destruct Hc as [-> Hc]. split; [done|]. rewrite Heq by set_solver.
  apply IH; [|done]. intros y Hy. apply Heq. set_solver.
Qed.
End chain.

(** * The invariant *)
Definition slots (h : Heap) : Z := current_size_bytes h / 16.

Section rep.
Context {B : Bitfield}.

Definition block_repr (m : Mapping) (A : blocks) : Prop :=
  ∀ i k t, A !! i = Some (k, t) → bord m i = k ∧ btype m i = Some t.

(** The heap [h] has the blocks [A]; [F k] is the free list of order [k]; the
    free blocks of [D] are detached, in no list. *)
Record heap_rep (h : Heap) (A : blocks) (F : Z → list Z) (D : gset Z) : Prop := {
  rep_map : map_ok (mapping h);
  rep_len : (4096 | zlen (mapping_bytes (mapping h)));
  rep_max : zlen (mapping_bytes (mapping h)) ≤ 2 ^ 32;
  rep_size : current_size_bytes h = 16 * slots h;
  rep_page : (256 | slots h);
  rep_nonneg : 0 ≤ slots h;
  rep_fit : 16 * slots h ≤ zlen (mapping_bytes (mapping h));
  rep_heads : length (free_head_per_order h) = 8%nat;
  rep_tiled : tiled (slots h) A;
  rep_repr : block_repr (mapping h) A;
  rep_chain k : 0 ≤ k < 8 → ∃ hd, free_head_per_order h !! Z.to_nat k = Some hd ∧
    chain (mapping h) hd (F k) ∧ NoDup (F k);
  rep_mem k i : 0 ≤ k < 8 → i ∈ F k ↔ A !! i = Some (k, Free) ∧ i ∉ D
}.

(** A heap between two operations: at least one page, no two free buddies left
    unmerged, and no detached block. *)
Definition heap_inv (h : Heap) (A : blocks) : Prop :=
  0 < current_size_bytes h ∧ coalesced A ∧ ∃ F, heap_rep h A F ∅.
End rep.

(** The bytes of a block. *)
Definition block_bytes (m : Mapping) (i k : Z) : list Z :=
  slice (16 * i) (16 * 2 ^ k) (mapping_bytes m).

(** Nothing changed from slot [n] on. *)
Definition same_tail (n : Z) (m m' : Mapping) : Prop :=
  ∀ off len, 16 * n ≤ off → slice off len (mapping_bytes m') = slice off len (mapping_bytes m).

(** The heap may have grown; the slots it does not use yet are as they were. *)
Definition kept_tail (h h' : Heap) : Prop :=
  slots h ≤ slots h' ∧ same_tail (slots h') (mapping h) (mapping h').

(** Nothing changed in the blocks of [A] that are in use, nor from slot [n] on. *)
Definition frame (n : Z) (A : blocks) (m m' : Mapping) : Prop :=
  (∀ i k t, A !! i = Some (k, t) → t ≠ Free → block_bytes m' i k = block_bytes m i k) ∧
  same_tail n m m'.

(** Nothing changed outside of the block of order [k] at [i]. *)
Definition outside (m m' : Mapping) (i k : Z) : Prop :=
  map_ok m' ∧ zlen (mapping_bytes m') = zlen (mapping_bytes m) ∧
  ∀ off n, 0 ≤ off → off + n ≤ 16 * i ∨ 16 * i + 16 * 2 ^ k ≤ off →
    slice off n (mapping_bytes m') = slice off n (mapping_bytes m).

Section outside.
Implicit Types (m : Mapping) (i k : Z).

Lemma outside_trans m1 m2 m3 i k : outside m1 m2 i k → outside m2 m3 i k → outside m1 m3 i k.
Proof.
  intros (_ & Hl & Ho) (Hm' & Hl' & Ho'). split; [done|]. split; [congruence|].
  intros off n ??. by rewrite Ho', Ho.
Qed.

Lemma outside_put_bytes m i k off bs :
  map_ok m → bytes_ok bs → 0 ≤ i → 16 * i ≤ off → off + zlen bs ≤ 16 * i + 16 * 2 ^ k →
  off + zlen bs ≤ zlen (mapping_bytes m) → outside m (put_bytes m off bs) i k.
Proof.
  intros. split; [apply put_bytes_ok; done || lia|]. split; [apply put_bytes_len; lia|].
  intros. apply word_put_disjoint; lia.
Qed.

Lemma outside_put_hdr m i k v : map_ok m → in_slots m i → 0 ≤ k → outside m (put_hdr m i v) i k.
Proof.
  intros Hm [??] Hk. pose proof (pow2_pos k Hk).
  apply outside_put_bytes; rewrite ?zlen_word; try done; try lia. by apply to_le_bytes_ok.
Qed.
Lemma outside_put_pay m i k v : map_ok m → in_slots m i → 0 ≤ k → outside m (put_pay m i v) i k.
Proof.
  intros Hm [??] Hk. pose proof (pow2_pos k Hk).
  apply outside_put_bytes; rewrite ?zlen_word; try done; try lia. by apply to_le_bytes_ok.
Qed.
End outside.
