(* ===== verification/HeapCorrect.v ===== *)
(** Correctness of the Inspect heap: every operation preserves the invariant
    of [HeapInvariant], implements its abstract counterpart on the map of
    blocks, and leaves the blocks in use alone. *)

From S2P Require Import Prelude SharedBuffer InspectFormat InspectBlock InspectHeap HeapInvariant.

Definition with_map (h : Heap) (m : Mapping) : Heap :=
  {| mapping := m; current_size_bytes := current_size_bytes h;
     free_head_per_order := free_head_per_order h |}.
Definition with_heads (h : Heap) (l : list Z) : Heap :=
  {| mapping := mapping h; current_size_bytes := current_size_bytes h;
     free_head_per_order := l |}.

Section heap_monad.
Implicit Types (h : Heap) (m : Mapping).

Lemma with_map_id h : with_map h (mapping h) = h.
Proof. by destruct h. Qed.

Lemma on_mapping_ok {A} (f : M Error Mapping A) h a m :
  f (mapping h) = (Ok a, m) → on_mapping f h = (Ok a, with_map h m).
Proof. unfold on_mapping. by intros ->. Qed.

Lemma on_mapping_rd {A} (f : Mapping → Z → result Error A) h i a :
  f (mapping h) i = Ok a → on_mapping (rd f i) h = (Ok a, h).
Proof. intros Hf. unfold on_mapping, rd, reading. rewrite Hf. by destruct h. Qed.

Lemma bind_on_rd {A C} (f : Mapping → Z → result Error A) (k : A → M Error Heap C) h i a :
  f (mapping h) i = Ok a → bind (on_mapping (rd f i)) k h = k a h.
Proof. intros. erewrite bind_ok; [done|]. by apply on_mapping_rd. Qed.

Lemma bind_on_mapping {A C} (f : M Error Mapping A) (k : A → M Error Heap C) h a m :
  f (mapping h) = (Ok a, m) → bind (on_mapping f) k h = k a (with_map h m).
Proof. intros. erewrite bind_ok; [done|]. by apply on_mapping_ok. Qed.

Lemma bind_reading {S A C} (f : S → result Error A) (k : A → M Error S C) s a :
  f s = Ok a → bind (reading f) k s = k a s.
Proof. unfold bind, reading. by intros ->. Qed.

Lemma bind_unwrap_reading {S A C} (f : S → result Error A) (k : A → M Error S C) s a :
  f s = Ok a → bind (unwrap (reading f)) k s = k a s.
Proof. unfold bind, unwrap, reading. by intros ->. Qed.

Lemma bind_free_head {C} (k : Z → M Error Heap C) h o hd :
  free_head_per_order h !! Z.to_nat o = Some hd → bind (free_head o) k h = k hd h.
Proof. unfold bind, free_head. by intros ->. Qed.

Lemma set_free_head_ok h o v :
  length (free_head_per_order h) = 8%nat → o < 8 →
  set_free_head o v h = (Ok tt, with_heads h (<[Z.to_nat o := v]> (free_head_per_order h))).
Proof. intros Hl ?. unfold set_free_head, zlen. rewrite Hl. by by_ltb. Qed.
End heap_monad.

Section rep_facts.
Context {B : Bitfield} {BS : BitfieldSpec B}.
Context (h : Heap) (A : blocks) (F : Z → list Z) (D : gset Z).
Context (HR : heap_rep h A F D).
Implicit Types (i k : Z) (t : BlockType).

Lemma rep_slots_bound : slots h ≤ 2 ^ 28.
Proof. pose proof (rep_fit _ _ _ _ HR). pose proof (rep_max _ _ _ _ HR). lia. Qed.

Lemma rep_slot i : 0 ≤ i < slots h → in_slots (mapping h) i.
Proof. intros. pose proof (rep_fit _ _ _ _ HR). unfold in_slots. lia. Qed.

Lemma rep_block_range i k t : A !! i = Some (k, t) → 0 ≤ i ∧ i + 2 ^ k ≤ slots h ∧ 0 ≤ k < 8.
Proof.
  intros Hi. destruct (tiled_range _ _ (rep_tiled _ _ _ _ HR) _ _ _ Hi).
  by pose proof (tiled_order _ _ (rep_tiled _ _ _ _ HR) _ _ _ Hi).
Qed.

Lemma rep_block_pos i k t : A !! i = Some (k, t) → 0 < 2 ^ k.
Proof. intros Hi. by eapply block_pos; [apply HR|]. Qed.

Lemma rep_in_slots i k t : A !! i = Some (k, t) → in_slots (mapping h) i.
Proof.
  intros Hi. pose proof (rep_block_range _ _ _ Hi). pose proof (rep_block_pos _ _ _ Hi).
  apply rep_slot. lia.
Qed.

Lemma rep_order i k t : A !! i = Some (k, t) → order (mapping h) i = Ok k.
Proof.
  intros Hi. rewrite order_ok by (apply HR || by eapply rep_in_slots).
  by destruct (rep_repr _ _ _ _ HR _ _ _ Hi) as [-> _].
Qed.
Lemma rep_btype i k t : A !! i = Some (k, t) → btype (mapping h) i = Some t.
Proof. intros Hi. by destruct (rep_repr _ _ _ _ HR _ _ _ Hi). Qed.
Lemma rep_type i k t : A !! i = Some (k, t) → block_type (mapping h) i = Ok t.
Proof. intros Hi. apply block_type_ok; [apply HR|by eapply rep_in_slots|by eapply rep_btype]. Qed.

Lemma rep_get_block i k t : A !! i = Some (k, t) → get_block h i = Ok i.
Proof.
  intros Hi. pose proof (rep_block_range _ _ _ Hi). pose proof (rep_block_pos _ _ _ Hi).
  unfold get_block. rewrite offset_for_index_eq, (rep_size _ _ _ _ HR). by_ltb.
  erewrite rep_order by done. simpl. rewrite order_to_size_eq by lia. by by_ltb.
Qed.

Lemma rep_is_free i k t k' :
  A !! i = Some (k, t) →
  is_free_block h i k' = Ok (bool_decide (t = Free) && (k =? k')).
Proof.
  intros Hi. pose proof (rep_block_range _ _ _ Hi). pose proof (rep_block_pos _ _ _ Hi).
  unfold is_free_block. change MIN_ORDER_SIZE with 16.
  change (current_size_bytes h / 16) with (slots h). by_ltb.
  erewrite rep_get_block by done. erewrite rep_type by done. simpl.
  destruct (decide (t = Free)) as [->|Hne]; [|by rewrite bool_decide_false].
  by erewrite rep_order by done.
Qed.

Lemma rep_free_next i k :
  A !! i = Some (k, Free) → free_next_index (mapping h) i = Ok (bnext (mapping h) i).
Proof.
  intros Hi. apply free_next_index_ok; [apply HR|by eapply rep_in_slots|by eapply rep_btype].
Qed.

Lemma bnext_bound i : 0 ≤ i < slots h → 0 ≤ bnext (mapping h) i < 2 ^ 28.
Proof. intros. apply hdr_next_bound, hdr_ok; [apply HR|by apply rep_slot]. Qed.

(** Block 0 exists, so an empty free list is recognised as empty. *)
Lemma rep_block0 : 0 < slots h → ∃ k t, A !! 0 = Some (k, t).
Proof.
  intros Hpos. destruct (tiled_cover _ _ (rep_tiled _ _ _ _ HR) 0) as (i & k & t & Hi & Hin);
    [lia|]. destruct (rep_block_range _ _ _ Hi).
  assert (i = 0) as -> by lia. by exists k, t.
Qed.
End rep_facts.

Section rep_update.
Context {B : Bitfield}.

Lemma heap_rep_update h A F D h' A' F' D' :
  heap_rep h A F D →
  map_ok (mapping h') →
  zlen (mapping_bytes (mapping h')) = zlen (mapping_bytes (mapping h)) →
  current_size_bytes h' = current_size_bytes h →
  length (free_head_per_order h') = 8%nat →
  tiled (slots h) A' → block_repr (mapping h') A' →
  (∀ k, 0 ≤ k < 8 → ∃ hd, free_head_per_order h' !! Z.to_nat k = Some hd ∧
     chain (mapping h') hd (F' k) ∧ NoDup (F' k)) →
  (∀ k i, 0 ≤ k < 8 → i ∈ F' k ↔ A' !! i = Some (k, Free) ∧ i ∉ D') →
  heap_rep h' A' F' D'.
Proof.
  intros [] ? Hlen Hsize ?????.
  assert (slots h' = slots h) as Hs by (unfold slots; by rewrite Hsize).
  split; rewrite ?Hs, ?Hlen, ?Hsize; done.
Qed.

(** A header write outside of the blocks in use keeps their bytes. *)
Lemma block_bytes_put_hdr m i k j v :
  in_slots m j → 0 ≤ i → 0 ≤ k → j < i ∨ i + 2 ^ k ≤ j →
  block_bytes (put_hdr m j v) i k = block_bytes m i k.
Proof.
  intros [??] ???. unfold block_bytes, put_hdr. pose proof (pow2_pos k).
  apply word_put_disjoint; rewrite ?zlen_word; lia.
Qed.

Lemma slots_eq h h' : current_size_bytes h' = current_size_bytes h → slots h' = slots h.
Proof. unfold slots. by intros ->. Qed.
Lemma same_tail_trans n n' m1 m2 m3 : n ≤ n' → same_tail n m1 m2 → same_tail n' m2 m3 → same_tail n' m1 m3.
Proof. intros Hn H12 H23 off len Hoff. rewrite H23, H12 by lia. done. Qed.
Lemma frame_refl n A m : frame n A m m.
Proof. by split. Qed.
Lemma frame_trans n n' A m1 m2 m3 : n ≤ n' → frame n A m1 m2 → frame n' A m2 m3 → frame n' A m1 m3.
Proof.
  intros Hn [H12 T12] [H23 T23]. split; [|by eapply same_tail_trans].
  intros i k t Hi Ht. by rewrite (H23 i k t), (H12 i k t).
Qed.

(** A header write in block [i0] leaves every other block alone. *)
Lemma frame_put_hdr n A A0 m i0 k0 t0 j v :
  tiled n A → A !! i0 = Some (k0, t0) → i0 ≤ j < i0 + 2 ^ k0 → in_slots m j →
  (∀ i k t, A0 !! i = Some (k, t) → t ≠ Free → i ≠ i0 ∧ A !! i = Some (k, t)) →
  frame n A0 m (put_hdr m j v).
Proof.
  intros HA Hi0 Hj Hin Hsub. destruct (tiled_range _ _ HA _ _ _ Hi0) as [Hpos Hend]. split.
  2: { intros off len Hoff. destruct Hin. apply word_put_disjoint; rewrite ?zlen_word; lia. }
  intros i k t Hi Ht. destruct (Hsub _ _ _ Hi Ht) as [Hne HiA].
  destruct (tiled_range _ _ HA _ _ _ HiA). pose proof (tiled_order _ _ HA _ _ _ HiA).
  apply block_bytes_put_hdr; [done|lia..|].
  destruct (tiled_disjoint _ _ HA _ _ _ _ _ _ HiA Hi0 Hne); lia.
Qed.
End rep_update.

Lemma NoDup_bounded_length (l : list Z) (n : Z) :
  0 ≤ n → NoDup l → (∀ x, x ∈ l → 0 ≤ x < n) → zlen l ≤ n.
Proof.
  intros Hn Hl Hb. assert (length l ≤ length (seqZ 0 n))%nat as Hle.
  { apply submseteq_length, NoDup_submseteq; [done|]. intros x Hx.
    apply elem_of_seqZ. specialize (Hb x Hx). lia. }
  rewrite length_seqZ in Hle. unfold zlen. lia.
Qed.

(** [F] with the list of order [k] replaced. *)
Definition fset (F : Z → list Z) (k : Z) (l : list Z) : Z → list Z :=
  λ j, if decide (j = k) then l else F j.

Lemma fset_eq F k l : fset F k l k = l.
Proof. unfold fset. by rewrite decide_True. Qed.
Lemma fset_ne F k l j : j ≠ k → fset F k l j = F j.
Proof. intros. unfold fset. by rewrite decide_False. Qed.

Section remove.
Context {B : Bitfield} {BS : BitfieldSpec B}.
Implicit Types (h : Heap) (A : blocks) (F : Z → list Z) (D : gset Z).

(** [p]'s link skips its successor. *)
Definition unlink (m : Mapping) (p i : Z) : Mapping :=
  put_hdr m p (set_hdr_free_next_index (hdr m p) (bnext m i)).

Lemma remove_free_loop_ok h A F D k i p post mid nx fuel :
  heap_rep h A F D → A !! i = Some (k, Free) →
  (∀ x, x ∈ mid ++ [p] → A !! x = Some (k, Free)) →
  NoDup (mid ++ p :: i :: post) →
  chain (mapping h) nx (mid ++ p :: i :: post) → (length mid < fuel)%nat →
  remove_free_loop fuel i k nx h = (Ok true, with_map h (unlink (mapping h) p i)).
Proof.
  intros HR Hi. revert mid nx.
  induction fuel as [|fuel IH]; intros mid nx Hfree Hnd Hc Hlen; [lia|].
  assert (∃ x l, mid ++ p :: i :: post = x :: l ∧ A !! x = Some (k, Free))
    as (x & l & Hxl & Hx).
  { destruct mid as [|y mid]; simpl; do 2 eexists; (split; [done|]);
      apply Hfree; simpl; apply list_elem_of_here. }
  rewrite Hxl in Hc. destruct Hc as [-> Hc]. simpl.
  erewrite bind_reading by (by eapply rep_is_free).
  rewrite bool_decide_true, Z.eqb_refl by done. simpl.
  erewrite bind_unwrap_reading by (by eapply rep_get_block).
  erewrite bind_on_rd by (by eapply rep_free_next).
  destruct mid as [|y mid]; simplify_eq/=.
  - destruct Hc as [-> Hc]. rewrite Z.eqb_refl.
    erewrite bind_on_rd by (by eapply rep_free_next).
    erewrite bind_on_mapping; [done|]. apply set_free_next_index_ok.
    + apply HR.
    + by eapply rep_in_slots.
    + by eapply rep_btype.
    + pose proof (rep_block_range _ _ _ _ HR _ _ _ Hi).
      pose proof (rep_block_pos _ _ _ _ HR _ _ _ Hi).
      eapply bnext_bound; [done|lia].
  - rewrite (proj2 (Z.eqb_neq _ _)).
    + apply (IH mid); [|by apply NoDup_cons in Hnd as [_ ?]|done|lia].
      intros z Hz. apply Hfree. by apply list_elem_of_further.
    + (* the successor is not [i] *)
      apply NoDup_cons in Hnd as [_ Hnd].
      destruct mid as [|z mid]; simpl in *; destruct Hc as [-> _]; intros ->;
        apply NoDup_cons in Hnd as [Hn _]; set_solver.
Qed.

Lemma rep_list_in h A F D k x :
  heap_rep h A F D → 0 ≤ k < 8 → x ∈ F k → A !! x = Some (k, Free) ∧ 0 ≤ x < slots h.
Proof.
  intros HR Hk Hx. apply (rep_mem _ _ _ _ HR k x Hk) in Hx as [Hx _].
  pose proof (rep_block_range _ _ _ _ HR _ _ _ Hx).
  pose proof (rep_block_pos _ _ _ _ HR _ _ _ Hx). split; [done|lia].
Qed.

Lemma unlink_fields h A F D p i :
  heap_rep h A F D → 0 ≤ p < slots h → 0 ≤ i < slots h →
  let m := mapping h in
  map_ok (unlink m p i) ∧ zlen (mapping_bytes (unlink m p i)) = zlen (mapping_bytes m) ∧
  (∀ j, 0 ≤ j → bord (unlink m p i) j = bord m j ∧ btype (unlink m p i) j = btype m j) ∧
  (∀ j, 0 ≤ j → j ≠ p → hdr (unlink m p i) j = hdr m j) ∧
  bnext (unlink m p i) p = bnext m i.
Proof.
  intros HR Hp Hi m. pose proof (rep_slot _ _ _ _ HR _ Hp) as Hsp.
  pose proof (bnext_bound _ _ _ _ HR _ Hi) as Hb. fold m in Hb, Hsp.
  assert (map_ok m) as Hm by apply HR.
  pose proof (hdr_ok _ _ Hm Hsp) as Hh.
  assert (u64_ok (set_hdr_free_next_index (hdr m p) (bnext m i))) as Hu
    by (apply set_hdr_next_ok; [done|lia]).
  unfold unlink. split; [by apply put_hdr_ok|]. split; [by apply put_hdr_len|].
  split; [|split].
  - intros j Hj. unfold bord, btype. rewrite hdr_put_hdr by done.
    case_decide; [subst|done]. by rewrite order_set_next, type_set_next by (done || lia).
  - intros j Hj Hne. rewrite hdr_put_hdr by done. by rewrite decide_False.
  - unfold bnext at 1. rewrite hdr_put_hdr, decide_True by (done || lia).
    by apply next_set_next.
Qed.

Lemma block_repr_ext m m' A :
  (∀ i k t, A !! i = Some (k, t) → bord m' i = bord m i ∧ btype m' i = btype m i) →
  block_repr m A → block_repr m' A.
Proof. intros He Hr i k t Hi. destruct (He _ _ _ Hi) as [-> ->]. by apply Hr. Qed.

Lemma chain_unlink m m' pre p i post hd :
  NoDup (pre ++ p :: i :: post) →
  (∀ x, x ∈ pre ++ i :: post → bnext m' x = bnext m x) → bnext m' p = bnext m i →
  chain m hd (pre ++ p :: i :: post) → chain m' hd (pre ++ p :: post).
Proof.
  intros Hnd Hother Hp. revert hd Hnd Hother.
  induction pre as [|x pre IH]; intros hd Hnd Hother; simpl.
  - intros (-> & _ & Hc). split; [done|]. rewrite Hp.
    apply chain_ext with m; [|done]. intros y Hy. apply Hother. set_solver.
  - intros (-> & Hc). split; [done|]. rewrite Hother by set_solver.
    apply IH; [by apply NoDup_cons in Hnd as [_ ?]| |done].
    intros y Hy. apply Hother. set_solver.
Qed.
End remove.

Section remove_rep.
Context {B : Bitfield} {BS : BitfieldSpec B}.
Implicit Types (h : Heap) (A : blocks) (F : Z → list Z) (D : gset Z).

Lemma NoDup_remove_mid (l1 l2 : list Z) (x : Z) :
  NoDup (l1 ++ x :: l2) → NoDup (l1 ++ l2) ∧ x ∉ l1 ++ l2.
Proof.
  intros Hnd. rewrite <- Permutation_middle in Hnd. by apply NoDup_cons in Hnd as [??].
Qed.

(** The lists after block [i] left the list of order [k]. *)
Lemma mem_removed A F D k i l1 l2 :
  (∀ k i, 0 ≤ k < 8 → i ∈ F k ↔ A !! i = Some (k, Free) ∧ i ∉ D) →
  0 ≤ k < 8 → F k = l1 ++ i :: l2 → NoDup (F k) → A !! i = Some (k, Free) →
  ∀ j x, 0 ≤ j < 8 →
    x ∈ fset F k (l1 ++ l2) j ↔ A !! x = Some (j, Free) ∧ x ∉ D ∪ {[i]}.
Proof.
  intros Hmem Hk HF Hnd Hi j x Hj. rewrite HF in Hnd.
  apply NoDup_remove_mid in Hnd as [_ Hni]. destruct (decide (j = k)) as [->|Hne].
  - rewrite fset_eq. specialize (Hmem k x Hk). rewrite HF in Hmem.
    destruct (decide (x = i)) as [->|]; set_solver.
  - rewrite fset_ne by done. rewrite Hmem by done. split; [|set_solver].
    intros [Hx ?]. split; [done|]. rewrite elem_of_union, elem_of_singleton.
    intros [?| ->]; [done|]. congruence.
Qed.

Lemma remove_free_rep h A F D i k :
  heap_rep h A F D → A !! i = Some (k, Free) → i ∉ D →
  ∃ h' F', remove_free i h = (Ok true, h') ∧ heap_rep h' A F' (D ∪ {[i]}) ∧
    current_size_bytes h' = current_size_bytes h ∧
    frame (slots h) A (mapping h) (mapping h') ∧ hdr (mapping h') i = hdr (mapping h) i.
Proof.
  intros HR Hi HiD. pose proof (rep_block_range _ _ _ _ HR _ _ _ Hi) as (?&?&Hk).
  pose proof (rep_block_pos _ _ _ _ HR _ _ _ Hi).
  destruct (rep_chain _ _ _ _ HR k Hk) as (hd & Hhd & Hc & Hnd).
  assert (i ∈ F k) as HiF by (by apply (rep_mem _ _ _ _ HR)).
  apply list_elem_of_split in HiF as (l1 & l2 & HF).
  pose proof (mem_removed A F D k i l1 l2 (rep_mem _ _ _ _ HR) Hk HF Hnd Hi) as Hmem.
  pose proof Hnd as Hnd'. rewrite HF in Hnd'. apply NoDup_remove_mid in Hnd' as [Hnd' Hni].
  unfold remove_free. erewrite bind_on_rd by (by eapply rep_order).
  unfold NUM_ORDERS. by_ltb. erewrite bind_free_head by done.
  destruct l1 as [|p pre _] using rev_ind.
  - (* first of its list *)
    rewrite HF in Hc. destruct Hc as [-> Hc]. rewrite Z.eqb_refl.
    erewrite bind_on_rd by (by eapply rep_free_next).
    erewrite bind_ok by (apply set_free_head_ok; [apply HR|lia]).
    exists (with_heads h (<[Z.to_nat k := bnext (mapping h) i]> (free_head_per_order h))),
      (fset F k l2). split; [done|]. split; [|done].
    apply (heap_rep_update h A F D); try apply HR; try done.
    + simpl. rewrite length_insert. apply HR.
    + intros j Hj. simpl. destruct (decide (j = k)) as [->|Hne].
      * rewrite fset_eq, list_lookup_insert_eq by (rewrite (rep_heads _ _ _ _ HR); lia). eauto.
      * rewrite fset_ne, list_lookup_insert_ne by lia. by apply HR.
  - (* after [p] *)
    rewrite <- (assoc_L (++)) in HF, Hnd', Hni, Hmem. simpl in *.
    assert (p ∈ F k) as HpF by (rewrite HF; set_solver).
    destruct (rep_list_in _ _ _ _ _ _ HR Hk HpF) as [Hp Hps].
    rewrite HF in Hc, Hnd.
    assert (p ≠ i) as Hpi by (intros ->; set_solver).
    assert (hd ≠ i) as Hhdi.
    { destruct pre as [|y pre]; simpl in Hc; destruct Hc as [-> _]; [done|].
      intros ->. set_solver. }
    rewrite (proj2 (Z.eqb_neq _ _)) by done.
    assert (zlen (F k) ≤ slots h) as Hlen.
    { apply NoDup_bounded_length; [apply HR|by rewrite HF|]. intros x Hx.
      by eapply rep_list_in. }
    erewrite remove_free_loop_ok; [|done|done| |done|done|].
    2: { intros x Hx. eapply (rep_list_in _ _ _ _ _ _ HR Hk). rewrite HF. set_solver. }
    2: { change (current_size_bytes h / MIN_ORDER_SIZE) with (slots h).
         rewrite HF in Hlen. unfold zlen in Hlen. rewrite length_app in Hlen. simpl in Hlen. lia. }
    destruct (unlink_fields _ _ _ _ p i HR Hps) as (Hm' & Hl' & Hot & Hh' & Hn'); [lia|].
    exists (with_map h (unlink (mapping h) p i)), (fset F k (pre ++ p :: l2)).
    split; [done|]. split; [|split; [done|split]].
    + apply (heap_rep_update h A F D); try done; try apply HR.
      * eapply block_repr_ext; [|apply HR]. intros x kx tx Hx. apply Hot.
        pose proof (rep_block_range _ _ _ _ HR _ _ _ Hx). lia.
      * intros j Hj. simpl. destruct (decide (j = k)) as [->|Hne].
        -- rewrite fset_eq. exists hd. split; [done|]. split; [|done].
           eapply chain_unlink; [done| |done|done].
           intros x Hx. unfold bnext. rewrite Hh'; [done| |].
           ++ assert (x ∈ F k) as HxF by (rewrite HF; set_solver).
              destruct (rep_list_in _ _ _ _ _ _ HR Hk HxF). lia.
           ++ intros ->. clear -Hnd Hx. apply NoDup_remove_mid in Hnd as [_ Hnd]. set_solver.
        -- rewrite fset_ne by done. destruct (rep_chain _ _ _ _ HR j Hj) as (hd' & ? & Hcj & ?).
           exists hd'. split; [done|]. split; [|done]. eapply chain_ext; [|done].
           intros x Hx. destruct (rep_list_in _ _ _ _ _ _ HR Hj Hx) as [HxA ?].
           unfold bnext. rewrite Hh'; [done|lia|]. intros ->. congruence.
    + simpl. eapply frame_put_hdr; [apply HR|exact Hp| |by eapply rep_in_slots|].
      * pose proof (rep_block_pos _ _ _ _ HR _ _ _ Hp). lia.
      * intros x kx tx Hx Ht. split; [|done]. intros ->. congruence.
    + simpl. apply Hh'; [lia|done].
Qed.
End remove_rep.

(** * Turning a slot into the header of a free block *)
Section freed.
Context {B : Bitfield} {BS : BitfieldSpec B}.
Implicit Types (m : Mapping) (i k nx : Z).

(** The store after [set_order] and then [become_free]. *)
Definition ordered m i k : Mapping := put_hdr m i (set_hdr_order (hdr m i) k).
Definition freed m i nx : Mapping := put_hdr m i (free_header (hdr m i) nx).

Lemma ordered_facts m i k :
  map_ok m → in_slots m i → 0 ≤ k < 8 →
  map_ok (ordered m i k) ∧
  zlen (mapping_bytes (ordered m i k)) = zlen (mapping_bytes m) ∧
  (∀ j, 0 ≤ j → j ≠ i → hdr (ordered m i k) j = hdr m j) ∧
  bord (ordered m i k) i = k ∧ btype (ordered m i k) i = btype m i ∧
  bnext (ordered m i k) i = bnext m i.
Proof.
  intros Hm Hi Hk. pose proof (hdr_ok _ _ Hm Hi) as Hh.
  assert (u64_ok (set_hdr_order (hdr m i) k)) by (apply set_hdr_order_ok; [done|lia]).
  unfold ordered, bord, btype, bnext. destruct Hi as [Hi ?].
  split; [by apply put_hdr_ok|]. split; [by apply put_hdr_len|].
  split; [intros j ??; by rewrite hdr_put_hdr, decide_False by done|].
  rewrite hdr_put_hdr, decide_True by done.
  rewrite order_set_order, type_set_order, next_set_order by (done || lia). done.
Qed.

Lemma freed_facts m i nx :
  map_ok m → in_slots m i → 0 ≤ nx < 2 ^ 28 →
  map_ok (freed m i nx) ∧
  zlen (mapping_bytes (freed m i nx)) = zlen (mapping_bytes m) ∧
  (∀ j, 0 ≤ j → j ≠ i → hdr (freed m i nx) j = hdr m j) ∧
  bord (freed m i nx) i = bord m i ∧ btype (freed m i nx) i = Some Free ∧
  bnext (freed m i nx) i = nx.
Proof.
  intros Hm Hi Hn. pose proof (hdr_ok _ _ Hm Hi) as Hh.
  assert (u64_ok (free_header (hdr m i) nx)) by (apply free_header_ok; [done|lia]).
  destruct (free_header_fields (hdr m i) nx Hh Hn) as (Ho & Ht & Hx).
  unfold freed, bord, btype, bnext. destruct Hi as [Hi ?].
  split; [by apply put_hdr_ok|]. split; [by apply put_hdr_len|].
  split; [intros j ??; by rewrite hdr_put_hdr, decide_False by done|].
  rewrite hdr_put_hdr, decide_True by done. by rewrite Ho, Ht, Hx.
Qed.

Lemma in_slots_len m m' i :
  zlen (mapping_bytes m') = zlen (mapping_bytes m) → in_slots m i → in_slots m' i.
Proof. unfold in_slots. by intros ->. Qed.

(** A slot made free with an order of its own. *)
Lemma ordered_freed_facts m i k nx :
  map_ok m → in_slots m i → 0 ≤ k < 8 → 0 ≤ nx < 2 ^ 28 →
  let m' := freed (ordered m i k) i nx in
  map_ok m' ∧ zlen (mapping_bytes m') = zlen (mapping_bytes m) ∧
  (∀ j, 0 ≤ j → j ≠ i → hdr m' j = hdr m j) ∧
  bord m' i = k ∧ btype m' i = Some Free ∧ bnext m' i = nx.
Proof.
  intros Hm Hi Hk Hn. destruct (ordered_facts m i k Hm Hi Hk) as (H1&H2&H3&H4&_&_).
  destruct (freed_facts (ordered m i k) i nx H1) as (H1'&H2'&H3'&H4'&H5'&H6');
    [by eapply in_slots_len|done|].
  cbv zeta. split; [done|]. split; [congruence|]. split; [|by rewrite H4', H4].
  intros j ??. by rewrite H3', H3.
Qed.

Lemma hdr_same_fields m m' i :
  hdr m' i = hdr m i → bord m' i = bord m i ∧ btype m' i = btype m i ∧ bnext m' i = bnext m i.
Proof. unfold bord, btype, bnext. by intros ->. Qed.

Lemma chain_hdr_ext m m' hd l :
  (∀ x, x ∈ l → hdr m' x = hdr m x) → chain m hd l → chain m' hd l.
Proof.
  intros He. apply chain_ext. intros x Hx. unfold bnext. by rewrite He.
Qed.
End freed.

Section split.
Context {B : Bitfield} {BS : BitfieldSpec B}.
Implicit Types (h : Heap) (A : blocks) (F : Z → list Z) (D : gset Z).

Lemma buddy_ok i k : 0 ≤ k < 16 → buddy i k = Ok (sibling i k).
Proof.
  intros. unfold buddy. rewrite order_to_size_eq by lia.
  rewrite index_for_offset_ok; [done|]. split; [apply Z.lt_le_incl, pow2_pos; lia|].
  apply Z.pow_lt_mono_r; lia.
Qed.

(** A head of a free list fits the next-free field. *)
Lemma rep_head_bound h A F D k hd :
  heap_rep h A F D → 0 ≤ k < 8 → chain (mapping h) hd (F k) → 0 ≤ hd < 2 ^ 28.
Proof.
  intros HR Hk Hc. pose proof (rep_slots_bound _ _ _ _ HR).
  destruct (F k) as [|x l] eqn:HF; [simpl in Hc; lia|]. destruct Hc as [-> _].
  destruct (rep_list_in _ _ _ _ _ x HR Hk) as [_ ?]; [rewrite HF; apply list_elem_of_here|]. lia.
Qed.

(** The memory operations of [split_block] once the block left its list. *)
Definition split_store (m : Mapping) (i k hd : Z) : Mapping :=
  let b := i + 2 ^ k in
  freed (ordered (freed (ordered m i k) i b) b k) b hd.

Lemma split_store_facts m i k hd :
  map_ok m → in_slots m i → in_slots m (i + 2 ^ k) → 0 ≤ k < 8 → i + 2 ^ k < 2 ^ 28 →
  0 ≤ hd < 2 ^ 28 →
  let b := i + 2 ^ k in let m' := split_store m i k hd in
  map_ok m' ∧ zlen (mapping_bytes m') = zlen (mapping_bytes m) ∧
  (∀ j, 0 ≤ j → j ≠ i → j ≠ b → hdr m' j = hdr m j) ∧
  (bord m' i = k ∧ btype m' i = Some Free ∧ bnext m' i = b) ∧
  (bord m' b = k ∧ btype m' b = Some Free ∧ bnext m' b = hd).
Proof.
  intros Hm Hi Hb Hk Hlt Hhd b m'. pose proof (pow2_pos k ltac:(lia)).
  assert (0 ≤ i) by apply Hi.
  destruct (ordered_freed_facts m i k b Hm Hi Hk) as (H1&H2&H3&H4&H5&H6); [unfold b; lia|].
  destruct (ordered_freed_facts _ b k hd H1) as (G1&G2&G3&G4&G5&G6);
    [by eapply in_slots_len|done|done|].
  change (freed (ordered (freed (ordered m i k) i b) b k) b hd) with m' in *.
  split; [done|]. split; [by etransitivity|]. split; [intros j ???; rewrite G3, H3; done|].
  split; [|done].
  assert (hdr m' i = hdr (freed (ordered m i k) i b) i) as Hs by (apply G3; unfold b; lia).
  by apply hdr_same_fields in Hs as (-> & -> & ->).
Qed.
End split.

Section split_rep.
Context {B : Bitfield} {BS : BitfieldSpec B}.
Implicit Types (h : Heap) (A : blocks) (F : Z → list Z).

(** Attaching both halves of a detached block to the list of their order. *)
Lemma split_attach h A F i k hd :
  heap_rep h A F {[i]} → 0 ≤ k → A !! i = Some (k + 1, Free) →
  free_head_per_order h !! Z.to_nat k = Some hd → chain (mapping h) hd (F k) →
  heap_rep (with_heads (with_map h (split_store (mapping h) i k hd))
              (<[Z.to_nat k := i]> (free_head_per_order h)))
    (split_map i k Free Free A) (fset F k (i :: (i + 2 ^ k) :: F k)) ∅.
Proof.
  intros HR Hk Hi Hhd Hc. pose proof (pow2_pos k Hk) as Hp.
  pose proof (rep_block_range _ _ _ _ HR _ _ _ Hi) as Hr. rewrite pow2_S in Hr by done.
  pose proof (rep_slots_bound _ _ _ _ HR) as Hsb.
  assert (0 ≤ k < 8) as Hk8 by lia. set (b := i + 2 ^ k).
  assert (A !! b = None) as Hb.
  { eapply no_block_inside; [apply HR|exact Hi|]. rewrite pow2_S by done. unfold b. lia. }
  destruct (split_store_facts (mapping h) i k hd) as (M1&M2&M3&(Mi1&Mi2&Mi3)&(Mb1&Mb2&Mb3));
    [apply HR|apply (rep_slot _ _ _ _ HR); lia|apply (rep_slot _ _ _ _ HR); lia|lia|lia| |].
  { by eapply rep_head_bound. }
  fold b in M3, Mi3, Mb1, Mb2, Mb3.
  assert (∀ j x, 0 ≤ j < 8 → x ∈ F j → hdr (split_store (mapping h) i k hd) x = hdr (mapping h) x)
    as Hlist.
  { intros j x Hj Hx. destruct (rep_list_in _ _ _ _ _ _ HR Hj Hx) as [HxA ?].
    apply (rep_mem _ _ _ _ HR) in Hx as [_ Hx]; [|done].
    apply M3; [lia| |intros ->; congruence]. intros ->. set_solver. }
  apply (heap_rep_update h A F {[i]}); simpl; try done.
  - rewrite length_insert. apply HR.
  - eapply tiled_split; [apply HR|done|done].
  - intros x kx tx Hx. destruct (split_lookup _ _ (rep_tiled _ _ _ _ HR) _ _ _ _ _ _ _ _ Hk Hi Hx)
      as [(->&->&->)|[(->&->&->)|[HxA Hout]]]; [done|done|].
    pose proof (rep_block_range _ _ _ _ HR _ _ _ HxA).
    pose proof (rep_block_pos _ _ _ _ HR _ _ _ HxA).
    destruct (hdr_same_fields (mapping h) (split_store (mapping h) i k hd) x) as (->&->&_).
    { apply M3; unfold b; lia. } by apply (rep_repr _ _ _ _ HR).
  - intros j Hj. destruct (decide (j = k)) as [->|Hne].
    + rewrite fset_eq, list_lookup_insert_eq by (rewrite (rep_heads _ _ _ _ HR); lia).
      exists i. split; [done|]. split.
      * simpl. rewrite Mi3. split; [done|]. split; [done|]. rewrite Mb3.
        eapply chain_hdr_ext; [|done]. intros x Hx. by apply (Hlist k).
      * apply NoDup_cons. split; [|apply NoDup_cons; split].
        -- rewrite elem_of_cons. intros [?|Hin]; [unfold b in *; lia|].
           apply (rep_mem _ _ _ _ HR) in Hin as [_ ?]; [set_solver|done].
        -- intros Hin. apply (rep_mem _ _ _ _ HR) in Hin as [? _]; [congruence|done].
        -- destruct (rep_chain _ _ _ _ HR k) as (?&?&?&?); [done|done].
    + rewrite fset_ne, list_lookup_insert_ne by lia.
      destruct (rep_chain _ _ _ _ HR j Hj) as (hd'&?&?&?). exists hd'.
      split; [done|]. split; [|done]. eapply chain_hdr_ext; [|done]. intros x Hx. by apply (Hlist j).
  - (* membership *)
    intros j x Hj. unfold split_map. fold b. destruct (decide (x = b)) as [->|Hxb].
    { rewrite lookup_insert_eq. destruct (decide (j = k)) as [->|Hne].
      - rewrite fset_eq. set_solver.
      - rewrite fset_ne by done. rewrite (rep_mem _ _ _ _ HR) by done. naive_solver. }
    rewrite lookup_insert_ne by done. destruct (decide (x = i)) as [->|Hxi].
    { rewrite lookup_insert_eq. destruct (decide (j = k)) as [->|Hne].
      - rewrite fset_eq. set_solver.
      - rewrite fset_ne by done. rewrite (rep_mem _ _ _ _ HR) by done. split; [set_solver|].
        intros [? _]. simplify_eq. }
    rewrite lookup_insert_ne by done. destruct (decide (j = k)) as [->|Hne].
    + rewrite fset_eq, !elem_of_cons, (rep_mem _ _ _ _ HR) by done. set_solver.
    + rewrite fset_ne, (rep_mem _ _ _ _ HR) by done. set_solver.
Qed.

Lemma split_block_rep h A F i k :
  heap_rep h A F ∅ → 0 ≤ k → A !! i = Some (k + 1, Free) →
  ∃ h' F', split_block i h = (Ok tt, h') ∧ heap_rep h' (split_map i k Free Free A) F' ∅ ∧
    current_size_bytes h' = current_size_bytes h ∧ frame (slots h) A (mapping h) (mapping h').
Proof.
  intros HR Hk Hi. pose proof (pow2_pos k Hk).
  destruct (remove_free_rep _ _ _ _ _ _ HR Hi) as (h1 & F1 & Hrem & HR1 & Hs1 & Hf1 & _);
    [set_solver|]. rewrite (left_id_L ∅ (∪)) in HR1.
  pose proof (rep_block_range _ _ _ _ HR1 _ _ _ Hi) as Hr.
  pose proof (tiled_align _ _ (rep_tiled _ _ _ _ HR1) _ _ _ Hi) as Hal.
  pose proof (rep_slots_bound _ _ _ _ HR1) as Hsb. rewrite pow2_S in Hr by done.
  destruct (rep_chain _ _ _ _ HR1 k) as (hd & Hhd & Hc & _); [lia|].
  pose proof (rep_head_bound _ _ _ _ k _ HR1 ltac:(lia) Hc) as Hhdb.
  pose proof (split_attach h1 A F1 i k hd HR1 Hk Hi Hhd Hc) as HR2.
  assert (in_slots (mapping h1) i) as Hsi by (apply (rep_slot _ _ _ _ HR1); lia).
  assert (in_slots (mapping h1) (i + 2 ^ k)) as Hsb' by (apply (rep_slot _ _ _ _ HR1); lia).
  destruct (ordered_facts (mapping h1) i k) as (O1&O2&_); [apply HR1|done|lia|].
  destruct (freed_facts (ordered (mapping h1) i k) i (i + 2 ^ k)) as (P1&P2&_);
    [done|by eapply in_slots_len|lia|].
  destruct (ordered_facts (freed (ordered (mapping h1) i k) i (i + 2 ^ k)) (i + 2 ^ k) k)
    as (Q1&Q2&_); [done|eapply in_slots_len; [|done]; congruence|lia|].
  eexists _, _. split; [|split; [exact HR2|split; [exact Hs1|]]].
  - unfold split_block. erewrite bind_on_rd by (by eapply (rep_order _ _ _ _ HR)).
    unfold NUM_ORDERS. by_ltb. erewrite bind_ok by exact Hrem.
    erewrite bind_on_rd by (by eapply (rep_order _ _ _ _ HR1)).
    rewrite (bind_lift _ _ _ k) by (rewrite usub_ok by lia; f_equal; lia).
    rewrite (bind_lift _ _ _ (i + 2 ^ k)) by (rewrite buddy_ok, sibling_up by (done || lia); done).
    erewrite bind_on_mapping by (apply set_order_ok; [apply HR1|done|lia]).
    erewrite bind_on_mapping by (apply become_free_ok; [exact O1|by eapply in_slots_len|lia]).
    erewrite bind_on_mapping by
      (apply set_order_ok; [exact P1|exact (in_slots_len _ _ _ (eq_trans P2 O2) Hsb')|lia]).
    erewrite bind_free_head by exact Hhd.
    erewrite bind_on_mapping by
      (apply become_free_ok; [exact Q1|exact (in_slots_len _ _ _ (eq_trans Q2 (eq_trans P2 O2)) Hsb')|lia]).
    rewrite set_free_head_ok; [done|apply HR1|lia].
  - pose proof (slots_eq _ _ Hs1) as Hsl. eapply (frame_trans (slots h)); [done|exact Hf1|]. simpl. unfold split_store.
    assert (∀ j k' t', A !! j = Some (k', t') → t' ≠ Free → j ≠ i ∧ A !! j = Some (k', t')) as Hsub.
    { intros j k' t' Hj Ht. split; [|done]. intros ->. congruence. }
    assert (∀ m j v, in_slots m j → i ≤ j < i + 2 * 2 ^ k → frame (slots h) A m (put_hdr m j v)) as Hput.
    { rewrite <- Hsl. intros. eapply frame_put_hdr; [apply HR1|exact Hi|rewrite pow2_S by done; lia|done|done]. }
    pose proof (in_slots_len _ _ _ O2 Hsi). pose proof (in_slots_len _ _ _ (eq_trans P2 O2) Hsb').
    pose proof (in_slots_len _ _ _ (eq_trans Q2 (eq_trans P2 O2)) Hsb').
    repeat (eapply (frame_trans (slots h)); [done| |apply Hput; [done|lia]]). apply frame_refl.
Qed.
End split_rep.

(** * Growing *)

(** [n] more free blocks of the largest order after slot [lo]. *)
Fixpoint grow_map (lo : Z) (n : nat) (A : blocks) : blocks :=
  match n with
  | O => A
  | S n => <[lo + 128 * Z.of_nat n := (7, Free)]> (grow_map lo n A)
  end.
Fixpoint grow_list (lo : Z) (n : nat) : list Z :=
  match n with
  | O => []
  | S n => grow_list lo n ++ [lo + 128 * Z.of_nat n]
  end.

Lemma head_grow_list lo n l : head (grow_list lo (S n) ++ l) = Some lo.
Proof.
  revert l. induction n as [|n IH]; intros l; [simpl; f_equal; lia|].
  change (grow_list lo (S (S n))) with (grow_list lo (S n) ++ [lo + 128 * Z.of_nat (S n)]).
  rewrite <- app_assoc. apply IH.
Qed.

Lemma elem_of_grow_list lo n x :
  x ∈ grow_list lo n ↔ ∃ q : nat, (q < n)%nat ∧ x = lo + 128 * Z.of_nat q.
Proof.
  induction n as [|n IH]; simpl; [set_solver by lia|].
  rewrite elem_of_app, IH, list_elem_of_singleton. split.
  - intros [(q&?&->)| ->]; [exists q|exists n]; split; lia || done.
  - intros (q&?&->). destruct (decide (q = n)) as [->|]; [by right|left; exists q; split; lia || done].
Qed.

Lemma NoDup_grow_list lo n : NoDup (grow_list lo n).
Proof.
  induction n as [|n IH]; simpl; [constructor|]. apply NoDup_app. split; [done|].
  split; [|apply NoDup_singleton]. intros x Hx%elem_of_grow_list.
  rewrite list_elem_of_singleton. destruct Hx as (q&?&->). lia.
Qed.

Lemma lookup_grow_map lo n A x :
  (∀ q : nat, (q < n)%nat → A !! (lo + 128 * Z.of_nat q) = None) →
  grow_map lo n A !! x = if decide (x ∈ grow_list lo n) then Some (7, Free) else A !! x.
Proof.
  induction n as [|n IH]; intros Hn; cbn [grow_map grow_list].
  { rewrite decide_False; [done|apply not_elem_of_nil]. }
  destruct (decide (lo + 128 * Z.of_nat n = x)) as [<-|Hne].
  - rewrite lookup_insert_eq, decide_True; [done|]. set_solver.
  - rewrite lookup_insert_ne, IH by (done || auto with lia).
    destruct (decide (x ∈ grow_list lo n)) as [?|Hx];
      [rewrite decide_True by set_solver; done|rewrite decide_False by set_solver; done].
Qed.

Lemma tiled_append N A :
  tiled N A → 0 ≤ N → (128 | N) → tiled (N + 128) (<[N := (7, Free)]> A).
Proof.
  intros HA HN Hd. change 128 with (2 ^ 7) in *.
  assert (∀ j k t, <[N := (7, Free)]> A !! j = Some (k, t) →
    (j = N ∧ k = 7) ∨ (A !! j = Some (k, t) ∧ j + 2 ^ k ≤ N ∧ 0 ≤ j ∧ 0 < 2 ^ k)) as Hl.
  { intros j k t Hj. destruct (decide (N = j)) as [<-|Hne].
    - rewrite lookup_insert_eq in Hj. simplify_eq. by left.
    - rewrite lookup_insert_ne in Hj by done. right. split; [done|].
      pose proof (tiled_range _ _ HA _ _ _ Hj). pose proof (block_pos _ _ HA _ _ _ Hj). lia. }
  split.
  - intros j k t Hj. destruct (Hl _ _ _ Hj) as [[-> ->]|[? _]]; [lia|by eapply tiled_order].
  - intros j k t Hj. destruct (Hl _ _ _ Hj) as [[-> ->]|[? _]]; [done|by eapply tiled_align].
  - intros j k t Hj. destruct (Hl _ _ _ Hj) as [[-> ->]|[? ?]]; lia.
  - intros x Hx. destruct (decide (x < N)).
    + destruct (tiled_cover _ _ HA x) as (j & k & t & Hj & ?); [lia|]. exists j, k, t.
      split; [|done]. rewrite lookup_insert_ne; [done|].
      pose proof (tiled_range _ _ HA _ _ _ Hj). lia.
    + exists N, 7, Free. rewrite lookup_insert_eq. split; [done|lia].
  - intros i k t j k' t' Hi Hj Hne.
    destruct (Hl _ _ _ Hi) as [[-> ->]|[Hi' ?]], (Hl _ _ _ Hj) as [[-> ->]|[Hj' ?]];
      try lia. by eapply tiled_disjoint.
Qed.

Lemma tiled_grow N A n :
  tiled N A → 0 ≤ N → (128 | N) → tiled (N + 128 * Z.of_nat n) (grow_map N n A).
Proof.
  intros HA HN Hd. induction n as [|n IH]; simpl; [by rewrite Z.mul_0_r, Z.add_0_r|].
  replace (N + 128 * Z.of_nat (S n)) with (N + 128 * Z.of_nat n + 128) by lia.
  apply tiled_append; [done|lia|]. apply Z.divide_add_r; [done|]. exists (Z.of_nat n). lia.
Qed.

Section grow.
Context {B : Bitfield} {BS : BitfieldSpec B}.
Implicit Types (h : Heap) (m : Mapping) (A : blocks) (F : Z → list Z).

Lemma new_free_facts m i nx :
  map_ok m → in_slots m i → 0 ≤ nx < 2 ^ 28 →
  let m' := put_hdr m i (new_free_header 7 nx) in
  map_ok m' ∧ zlen (mapping_bytes m') = zlen (mapping_bytes m) ∧
  (∀ j, 0 ≤ j → j ≠ i → hdr m' j = hdr m j) ∧
  bord m' i = 7 ∧ btype m' i = Some Free ∧ bnext m' i = nx.
Proof.
  intros Hm Hi Hn. assert (u64_ok (set_hdr_order 0 7)) as Hu
    by (apply set_hdr_order_ok; [apply u64_ok_0|lia]).
  destruct (free_header_fields (set_hdr_order 0 7) nx Hu Hn) as (Ho & Ht & Hx).
  fold (new_free_header 7 nx) in Ho, Ht, Hx.
  assert (u64_ok (new_free_header 7 nx)) by (apply free_header_ok; [done|lia]).
  unfold bord, btype, bnext. destruct Hi as [Hi ?].
  split; [by apply put_hdr_ok|]. split; [by apply put_hdr_len|].
  split; [intros j ??; by rewrite hdr_put_hdr, decide_False by done|].
  rewrite hdr_put_hdr, decide_True, Ho, Ht, Hx by done.
  split; [apply order_set_order; [apply u64_ok_0|lia]|done].
Qed.

Lemma grow_loop_step fuel lo c last h :
  map_ok (mapping h) → in_slots (mapping h) c → 0 ≤ last →
  grow_loop (S fuel) lo (c + 128) last h =
  let h' := with_map h (put_hdr (mapping h) c (new_free_header 7 last)) in
  if c <=? lo then (Ok c, h') else grow_loop fuel lo c c h'.
Proof.
  intros Hm Hin ?. cbn [grow_loop]. rewrite (bind_lift _ _ _ 128) by reflexivity.
  destruct Hin as [Hc ?]. rewrite (bind_lift _ _ _ c) by (rewrite usub_ok by lia; f_equal; lia).
  change (NUM_ORDERS - 1) with 7.
  erewrite bind_on_mapping by (apply unwrap_ok, new_free_ok; [done|done|lia|lia]).
  by destruct (c <=? lo).
Qed.

Lemma grow_loop_ok lo n :
  ∀ fuel h last l,
  (n < fuel)%nat → 0 ≤ lo → lo + 128 * Z.of_nat (S n) ≤ 2 ^ 28 →
  map_ok (mapping h) → in_slots (mapping h) (lo + 128 * Z.of_nat n) → 0 ≤ last < 2 ^ 28 →
  chain (mapping h) last l → (∀ x, x ∈ l → 0 ≤ x ∧ x ∉ grow_list lo (S n)) →
  ∃ m', grow_loop fuel lo (lo + 128 * Z.of_nat (S n)) last h = (Ok lo, with_map h m') ∧
    map_ok m' ∧ zlen (mapping_bytes m') = zlen (mapping_bytes (mapping h)) ∧
    chain m' lo (grow_list lo (S n) ++ l) ∧
    (∀ x, x ∈ grow_list lo (S n) → bord m' x = 7 ∧ btype m' x = Some Free) ∧
    (∀ x, 0 ≤ x → x ∉ grow_list lo (S n) → hdr m' x = hdr (mapping h) x) ∧
    (∀ off len, 0 ≤ off → off + len ≤ 16 * lo ∨ 16 * (lo + 128 * Z.of_nat (S n)) ≤ off →
       slice off len (mapping_bytes m') = slice off len (mapping_bytes (mapping h))).
Proof.
  induction n as [|n IH]; intros fuel h last l Hf Hlo Htop Hm Hin Hlast Hc Hl;
    (destruct fuel as [|fuel]; [lia|]).
  1: replace (lo + 128 * Z.of_nat 1) with (lo + 128 * Z.of_nat 0 + 128) by lia;
     set (c := lo + 128 * Z.of_nat 0) in *.
  2: replace (lo + 128 * Z.of_nat (S (S n))) with (lo + 128 * Z.of_nat (S n) + 128) by lia;
     set (c := lo + 128 * Z.of_nat (S n)) in *.
  all: rewrite grow_loop_step by (done || lia); cbv zeta;
       pose proof (new_free_facts _ _ _ Hm Hin Hlast) as (M1&M2&M3&M4&M5&M6);
       set (m1 := put_hdr _ _ _) in *.
  all: assert (∀ off len, 0 ≤ off → off + len ≤ 16 * lo ∨ 16 * (c + 128) ≤ off →
         slice off len (mapping_bytes m1) = slice off len (mapping_bytes (mapping h))) as Hbb
         by (intros; destruct Hin; unfold c in *; apply word_put_disjoint; rewrite ?zlen_word; lia).
  - assert (c = lo) as Hclo by (unfold c; lia). by_ltb. rewrite Hclo in *.
    assert (grow_list lo 1 = [lo]) as Hgl by (simpl; f_equal; lia).
    rewrite Hgl in *. exists m1. split; [done|].
    split; [done|]. split; [done|]. split; [|split; [|split; [|done]]].
    + simpl. split; [done|]. rewrite M6. eapply chain_hdr_ext; [|done]. intros x Hx.
      destruct (Hl x Hx). apply M3; [done|]. set_solver.
    + intros x ->%list_elem_of_singleton. done.
    + intros x ? Hx. apply M3; [done|]. set_solver.
  - by_ltb.
    assert (chain m1 c (c :: l)) as Hc1.
    { simpl. split; [done|]. rewrite M6. eapply chain_hdr_ext; [|done]. intros x Hx.
      destruct (Hl x Hx) as [? Hx']. apply M3; [done|]. intros ->. apply Hx'.
      apply elem_of_grow_list. exists (S n). unfold c. split; [lia|done]. }
    assert (c ∉ grow_list lo (S n)) as Hcn.
    { rewrite elem_of_grow_list. intros (q&?&?). unfold c in *. lia. }
    destruct (IH fuel (with_map h m1) c (c :: l)) as (m' & He & N1 & N2 & N3 & N4 & N5 & N6);
      [lia|done|lia|done| |unfold c; lia|done| |].
    + eapply in_slots_len; [exact M2|]. destruct Hin. unfold in_slots, c in *. lia.
    + intros x [->|Hx]%elem_of_cons; [split; [unfold c; lia|done]|].
      destruct (Hl x Hx) as [? Hx']. split; [done|]. intros Hx''. apply Hx'.
      cbn [grow_list]. apply elem_of_app. by left.
    + simpl in N2, N5, N6. exists m'. split; [exact He|]. split; [done|]. split; [by etransitivity|].
      split; [|split; [|split]].
      * change (grow_list lo (S (S n))) with (grow_list lo (S n) ++ [c]).
        by rewrite <- (assoc_L (++)).
      * change (grow_list lo (S (S n))) with (grow_list lo (S n) ++ [c]).
        intros x [Hx| ->%list_elem_of_singleton]%elem_of_app; [by apply N4|].
        destruct (hdr_same_fields m1 m' c) as (->&->&_); [|done].
        apply N5; [unfold c; lia|done].
      * change (grow_list lo (S (S n))) with (grow_list lo (S n) ++ [c]).
        intros x ? [Hx ?]%not_elem_of_app. rewrite N5 by done. apply M3; [done|]. set_solver.
      * intros. rewrite N6 by (done || unfold c in *; lia). apply Hbb; unfold c in *; lia.
Qed.
End grow.

Section grow_rep.
Context {B : Bitfield} {BS : BitfieldSpec B}.
Implicit Types (h : Heap) (A : blocks) (F : Z → list Z).

Definition grown (h : Heap) (m : Mapping) (size : Z) : Heap :=
  {| mapping := m; current_size_bytes := size;
     free_head_per_order := <[7%nat := slots h]> (free_head_per_order h) |}.

Lemma rep_None h A F D x : heap_rep h A F D → slots h ≤ x → A !! x = None.
Proof.
  intros HR Hx. destruct (A !! x) as [[k t]|] eqn:He; [|done].
  pose proof (rep_block_range _ _ _ _ HR _ _ _ He).
  pose proof (rep_block_pos _ _ _ _ HR _ _ _ He). lia.
Qed.

Lemma grown_rep h A F m' n :
  heap_rep h A F ∅ → let N := slots h + 128 * Z.of_nat n in
  (256 | N) → 16 * N ≤ zlen (mapping_bytes (mapping h)) → map_ok m' →
  zlen (mapping_bytes m') = zlen (mapping_bytes (mapping h)) →
  chain m' (slots h) (grow_list (slots h) n ++ F 7) →
  (∀ x, x ∈ grow_list (slots h) n → bord m' x = 7 ∧ btype m' x = Some Free) →
  (∀ x, 0 ≤ x → x ∉ grow_list (slots h) n → hdr m' x = hdr (mapping h) x) →
  heap_rep (grown h m' (16 * N)) (grow_map (slots h) n A)
    (fset F 7 (grow_list (slots h) n ++ F 7)) ∅.
Proof.
  intros HR N H256 Hfit Hm Hlen Hc Hnew Hold.
  pose proof (rep_nonneg _ _ _ _ HR) as Hpos.
  assert (slots (grown h m' (16 * N)) = N) as HN.
  { unfold slots. simpl. rewrite Z.mul_comm. by apply Z.div_mul. }
  assert (∀ x, grow_map (slots h) n A !! x =
            if decide (x ∈ grow_list (slots h) n) then Some (7, Free) else A !! x) as Hl.
  { intros x. apply lookup_grow_map. intros q ?. eapply rep_None; [done|lia]. }
  assert (∀ j x, 0 ≤ j < 8 → x ∈ F j → (x ∉ grow_list (slots h) n) ∧ 0 ≤ x) as Hlist.
  { intros j x Hj Hx. destruct (rep_list_in _ _ _ _ _ _ HR Hj Hx) as [_ ?].
    split; [|lia]. rewrite elem_of_grow_list. intros (q&?&?). lia. }
  split; rewrite ?HN; simpl; rewrite ?Hlen; try done; try apply HR.
  - lia.
  - rewrite length_insert. apply HR.
  - apply tiled_grow; [apply HR|done|]. eapply Z.divide_trans; [|apply HR]. by exists 2.
  - intros x k t. rewrite Hl. case_decide as Hx.
    + intros. simplify_eq. by apply Hnew.
    + intros HxA. pose proof (rep_block_range _ _ _ _ HR _ _ _ HxA).
      destruct (hdr_same_fields (mapping h) m' x) as (->&->&_); [apply Hold; [lia|done]|].
      by apply (rep_repr _ _ _ _ HR).
  - intros k Hk. destruct (rep_chain _ _ _ _ HR k Hk) as (hd & Hhd & Hck & Hnd).
    destruct (decide (k = 7)) as [->|Hne].
    + rewrite fset_eq, list_lookup_insert_eq by (rewrite (rep_heads _ _ _ _ HR); lia).
      exists (slots h). split; [done|]. split; [done|]. apply NoDup_app.
      split; [apply NoDup_grow_list|]. split; [|done]. intros x Hx Hx'.
      by destruct (Hlist 7 x).
    + rewrite fset_ne, list_lookup_insert_ne by lia. exists hd. split; [done|]. split; [|done].
      eapply chain_hdr_ext; [|done]. intros x Hx. destruct (Hlist k x Hk Hx). by apply Hold.
  - intros k x Hk. rewrite Hl. destruct (decide (k = 7)) as [->|Hne].
    + rewrite fset_eq, elem_of_app, (rep_mem _ _ _ _ HR) by done. case_decide; set_solver.
    + rewrite fset_ne by done. case_decide as Hx; [|by apply HR].
      rewrite (rep_mem _ _ _ _ HR) by done.
      split; [intros [HxA _]|intros [? _]; simplify_eq].
      apply elem_of_grow_list in Hx as (q&?&->).
      rewrite (rep_None _ _ _ _ _ HR) in HxA by lia. done.
Qed.

Lemma grow_heap_rep h A F req :
  heap_rep h A F ∅ → (4096 | req) → current_size_bytes h < req →
  current_size_bytes h < mapping_len (mapping h) →
  ∃ h' F' n, grow_heap req h = (Ok tt, h') ∧
    heap_rep h' (grow_map (slots h) (S n) A) F' ∅ ∧
    current_size_bytes h' = Z.min (mapping_len (mapping h)) req ∧
    current_size_bytes h' = 16 * (slots h + 128 * Z.of_nat (S n)) ∧
    mapping_len (mapping h') = mapping_len (mapping h) ∧ head (F' 7) = Some (slots h) ∧
    frame (slots h') A (mapping h) (mapping h').
Proof.
  intros HR Hd Hreq Hlt. unfold mapping_len, mapping_buffer in *. simpl in *.
  set (L := zlen (mapping_bytes (mapping h))) in *. set (new := Z.min L req).
  pose proof (rep_max _ _ _ _ HR) as Hmax. pose proof (rep_nonneg _ _ _ _ HR) as Hpos.
  pose proof (rep_size _ _ _ _ HR) as Hsize. pose proof (rep_fit _ _ _ _ HR) as Hfit.
  assert (4096 | new) as Hnew by (unfold new; destruct (Z.min_spec L req) as [[_ ->]|[_ ->]];
    [apply HR|done]).
  assert (∃ n : nat, new = 16 * (slots h + 128 * Z.of_nat (S n)) ∧ (256 | slots h + 128 * Z.of_nat (S n)))
    as (n & Hn & H256).
  { destruct Hnew as [a Ha], (rep_page _ _ _ _ HR) as [b Hb].
    assert (b < a) by lia. exists (Z.to_nat (2 * (a - b) - 1)). split; [lia|]. exists a. lia. }
  fold L in Hfit, Hmax.
  destruct (rep_chain _ _ _ _ HR 7) as (hd & Hhd & Hc & _); [lia|].
  destruct (grow_loop_ok (slots h) n (Z.to_nat (new / MAX_ORDER_SIZE + 1)) h hd (F 7))
    as (m' & He & M1 & M2 & M3 & M4 & M5 & M6).
  - change MAX_ORDER_SIZE with 2048.
    replace new with ((slots h / 128 + Z.of_nat (S n)) * 2048 + (slots h mod 128) * 16)
      by (rewrite Hn; pose proof (Z.div_mod (slots h) 128); lia).
    rewrite Z.div_add_l by lia.
    pose proof (Z.div_pos (slots h mod 128 * 16) 2048). pose proof (Z.div_pos (slots h) 128).
    pose proof (Z.mod_pos_bound (slots h) 128). lia.
  - done.
  - lia.
  - apply HR.
  - unfold in_slots. fold L. lia.
  - eapply (rep_head_bound _ _ _ _ 7); [done|lia|done].
  - done.
  - intros x Hx. destruct (rep_list_in _ _ _ _ 7 x HR) as [_ ?]; [lia|done|].
    split; [lia|]. rewrite elem_of_grow_list. intros (q&?&?). lia.
  - exists (grown h m' new), (fset F 7 (grow_list (slots h) (S n) ++ F 7)), n.
    split; [|split; [|split; [done|split; [done|split; [done|split]]]]].
    + unfold grow_heap, mapping_len, mapping_buffer. simpl len. fold L.
      rewrite (proj2 (Z.eqb_neq (current_size_bytes h) L)) by lia. simpl andb. cbv iota.
      fold new. rewrite Hsize.
      rewrite (bind_lift _ _ _ (slots h)) by (apply index_for_offset_ok; lia).
      change (NUM_ORDERS - 1) with 7. erewrite bind_free_head by exact Hhd.
      change PAGE_SIZE_BYTES with 4096.
      replace (new mod 4096) with 0 by (symmetry; apply Z.mod_divide; [lia|done]).
      rewrite Z.sub_0_r.
      rewrite (bind_lift _ _ _ (slots h + 128 * Z.of_nat (S n)))
        by (rewrite Hn; apply index_for_offset_ok; lia).
      erewrite bind_ok by exact He.
      erewrite bind_ok by (apply set_free_head_ok; [apply HR|lia]). done.
    + rewrite Hn. apply (grown_rep h A F m' (S n)); try done. fold L. lia.
    + rewrite fset_eq. apply head_grow_list.
    + split; [intros i k t Hi _|intros off len Hoff].
      * pose proof (rep_block_range _ _ _ _ HR _ _ _ Hi). apply M6; lia.
      * assert (slots (grown h m' new) = slots h + 128 * Z.of_nat (S n)) as HN
          by (change (new / 16 = slots h + 128 * Z.of_nat (S n)); rewrite Hn, Z.mul_comm; by apply Z.div_mul).
        rewrite HN in Hoff. apply M6; lia.
Qed.
End grow_rep.
