(* ===== verification/HeapAllocate.v ===== *)
(** [allocate_block], [free_block] and [Heap::new] against the abstract allocator: allocation
    takes one block, freeing returns exactly one block to the free memory, merged with its
    buddies, and a new heap is well formed. *)

From S2P Require Import Prelude SharedBuffer InspectFormat InspectBlock InspectHeap HeapInvariant HeapCorrect.

(** The blocks in use are the same. *)
Definition same_used (A A' : blocks) : Prop :=
  ∀ x k t, t ≠ Free → A !! x = Some (k, t) ↔ A' !! x = Some (k, t).

#[export] Instance same_used_equiv : Equivalence same_used.
Proof.
  split.
  - by intros A x k t.
  - intros A A' HA x k t Ht. by rewrite (HA x k t Ht).
  - intros A A' A'' H1 H2 x k t Ht. by rewrite (H1 x k t Ht), (H2 x k t Ht).
Qed.

(** [frame] only depends on the blocks in use. *)
#[export] Instance frame_proper : Proper (eq ==> same_used ==> eq ==> eq ==> iff) frame.
Proof.
  intros n _ <- A A' HA m _ <- m' _ <-. unfold frame.
  split; (intros [Hf ?]; split; [|done]); intros x k t Hx Ht; apply (Hf x k t); try done; by apply (HA x k t Ht).
Qed.

Lemma same_used_split A n i k t1 t2 :
  tiled n A → 0 ≤ k → A !! i = Some (k + 1, Free) → t1 = Free → t2 = Free →
  same_used A (split_map i k t1 t2 A).
Proof.
  intros HA Hk Hi -> -> x kx tx Ht. split.
  - intros Hx. unfold split_map. rewrite !lookup_insert_ne; [done|intros ->; congruence|].
    intros <-. rewrite (no_block_inside n A HA i (k + 1) Free) in Hx; [done|done|].
    pose proof (pow2_pos k Hk). rewrite pow2_S by done. lia.
  - intros Hx. destruct (split_lookup n A HA _ _ _ _ _ _ _ _ Hk Hi Hx)
      as [(->&->&->)|[(->&->&->)|[? _]]]; done.
Qed.

Lemma same_used_grow h A F n :
  ∀ {B : Bitfield}, heap_rep h A F ∅ → same_used A (grow_map (slots h) n A).
Proof.
  intros B HR x k t Ht. rewrite lookup_grow_map.
  2: { intros q _. eapply rep_None; [done|lia]. }
  case_decide as Hx; [|done]. apply elem_of_grow_list in Hx as (q & _ & ->).
  rewrite (rep_None _ _ _ _ _ HR) by lia. split; [done|]. intros ?. simplify_eq.
Qed.

Lemma coalesced_grow h A F n :
  ∀ {B : Bitfield}, heap_rep h A F ∅ → coalesced A → coalesced (grow_map (slots h) n A).
Proof.
  intros B HR Hco j k Hk. assert (∀ q : nat, (q < n)%nat → A !! (slots h + 128 * Z.of_nat q) = None)
    as Hnone by (intros q _; eapply rep_None; [done|lia]).
  rewrite !lookup_grow_map by done. intros Hj Hs. repeat case_decide; simplify_eq; try lia.
  by destruct (Hco j k Hk).
Qed.

Section steps.
Context {B : Bitfield} {BS : BitfieldSpec B}.
Implicit Types (h : Heap) (A : blocks) (F : Z → list Z) (D : gset Z).

(** Giving a block that is in no free list another type and contents. *)
Lemma retype_rep h A F D i k t t' m' :
  heap_rep h A F D → A !! i = Some (k, t) → t ≠ Free ∨ i ∈ D → t' ≠ Free →
  outside (mapping h) m' i k → bord m' i = k → btype m' i = Some t' →
  heap_rep (with_map h m') (<[i := (k, t')]> A) F (D ∖ {[i]}).
Proof.
  intros HR Hi Hno Ht' (Hm & Hlen & Hout) Ho Ht.
  assert (∀ x kx tx, A !! x = Some (kx, tx) → i ≠ x → hdr m' x = hdr (mapping h) x) as Hother.
  { intros x kx tx Hx Hne. unfold hdr. pose proof (rep_block_range _ _ _ _ HR _ _ _ Hx).
    pose proof (rep_block_pos _ _ _ _ HR _ _ _ Hx).
    destruct (tiled_disjoint _ _ (rep_tiled _ _ _ _ HR) _ _ _ _ _ _ Hi Hx Hne);
      rewrite Hout; [done|lia..|done|lia|lia]. }
  assert (∀ j x, 0 ≤ j < 8 → x ∈ F j → hdr m' x = hdr (mapping h) x) as Hlist.
  { intros j x Hj Hx. destruct (rep_list_in _ _ _ _ _ _ HR Hj Hx) as [HxA _].
    apply (Hother _ _ _ HxA). apply (rep_mem _ _ _ _ HR) in Hx as [_ HxD]; [|done].
    intros ->. destruct Hno; [congruence|done]. }
  apply (heap_rep_update h A F D); simpl; try done; try apply HR.
  - eapply tiled_retype; [apply HR|done].
  - intros x kx tx Hx. destruct (decide (i = x)) as [<-|Hne].
    + rewrite lookup_insert_eq in Hx. by simplify_eq.
    + rewrite lookup_insert_ne in Hx by done.
      destruct (hdr_same_fields (mapping h) m' x) as (->&->&_); [by eapply Hother|].
      by apply (rep_repr _ _ _ _ HR).
  - intros j Hj. destruct (rep_chain _ _ _ _ HR j Hj) as (hd&?&?&?). exists hd.
    split; [done|]. split; [|done]. eapply chain_hdr_ext; [|done]. intros x. by apply Hlist.
  - intros j x Hj. rewrite (rep_mem _ _ _ _ HR) by done.
    destruct (decide (i = x)) as [<-|Hne].
    + rewrite lookup_insert_eq. split; [intros [??]; destruct Hno; congruence || done|].
      intros [? _]. simplify_eq.
    + rewrite lookup_insert_ne by done. set_solver.
Qed.

Lemma find_order_ok h A F n k :
  heap_rep h A F ∅ → 0 < slots h → 0 ≤ k → k + Z.of_nat n ≤ 8 →
  ∃ o, find_order n k h = (Ok o, h) ∧
    match o with
    | Some j => k ≤ j < k + Z.of_nat n ∧ F j ≠ []
    | None => ∀ j, k ≤ j < k + Z.of_nat n → F j = []
    end.
Proof.
  intros HR Hpos. revert k. induction n as [|n IH]; intros k Hk Hn; simpl.
  { exists None. split; [done|]. intros. lia. }
  destruct (rep_chain _ _ _ _ HR k) as (hd & Hhd & Hc & _); [lia|].
  erewrite bind_free_head by done. destruct (F k) as [|x l] eqn:HF.
  - (* an empty list: block 0 is not a free block of this order *)
    simpl in Hc. subst hd. destruct (rep_block0 _ _ _ _ HR Hpos) as (k0 & t0 & H0).
    erewrite bind_reading by (by eapply rep_is_free).
    assert (bool_decide (t0 = Free) && (k0 =? k) = false) as ->.
    { apply not_true_iff_false. intros [Ht%bool_decide_eq_true ?]%andb_true_iff. to_props.
      subst. assert (0 ∈ F k) as Hin; [|rewrite HF in Hin; set_solver].
      apply (rep_mem _ _ _ _ HR); [lia|]. set_solver. }
    destruct (IH (k + 1)) as (o & Ho & Hspec); [lia..|]. exists o. split; [done|].
    destruct o as [j|]; [destruct Hspec; split; [lia|done]|].
    intros j Hj. destruct (decide (j = k)) as [->|]; [done|]. apply Hspec. lia.
  - destruct Hc as [-> _].
    destruct (rep_list_in _ _ _ _ k x HR) as [Hx _]; [lia|rewrite HF; apply list_elem_of_here|].
    erewrite bind_reading by (by eapply rep_is_free).
    rewrite bool_decide_true, Z.eqb_refl by done. simpl.
    exists (Some k). split; [done|]. split; [lia|]. by rewrite HF.
Qed.

Lemma split_loop_rep fuel h A F i k lo :
  heap_rep h A F ∅ → coalesced_but i A → A !! i = Some (k, Free) → 0 ≤ lo ≤ k →
  (Z.to_nat (k - lo) < fuel)%nat →
  ∃ h' A' F', split_loop fuel i lo h = (Ok tt, h') ∧ heap_rep h' A' F' ∅ ∧
    coalesced_but i A' ∧ A' !! i = Some (lo, Free) ∧ same_used A A' ∧
    current_size_bytes h' = current_size_bytes h ∧ frame (slots h) A (mapping h) (mapping h').
Proof.
  revert h A F k. induction fuel as [|fuel IH]; intros h A F k HR Hco Hi Hlo Hf; [lia|].
  simpl. erewrite bind_on_rd by (by eapply rep_order).
  destruct (decide (lo = k)) as [->|Hne].
  - rewrite Z.ltb_irrefl. exists h, A, F.
    do 6 (split; [done|]). apply frame_refl.
  - by_ltb. replace k with (k - 1 + 1) in Hi by lia.
    destruct (split_block_rep h A F i (k - 1) HR) as (h1 & F1 & He & HR1 & Hs1 & Hf1);
      [lia|done|]. erewrite bind_ok by exact He.
    assert (same_used A (split_map i (k - 1) Free Free A)) as Hsu
      by (eapply same_used_split; [apply HR|lia|done..]).
    destruct (IH h1 (split_map i (k - 1) Free Free A) F1 (k - 1) HR1)
      as (h' & A' & F' & He' & HR' & Hco' & Hi' & Hsu' & Hs' & Hf').
    + eapply coalesced_split; [apply HR|lia|done..].
    + unfold split_map. rewrite lookup_insert_ne, lookup_insert_eq; [done|].
      pose proof (pow2_pos (k - 1)). lia.
    + lia.
    + lia.
    + exists h', A', F'. do 4 (split; [done|]).
      split; [by etransitivity|]. split; [congruence|].
      eapply (frame_trans (slots h)); [done|exact Hf1|]. rewrite Hsu. by rewrite <- (slots_eq _ _ Hs1).
Qed.

(** [block.become_reserved()] on a detached block. *)
Lemma reserve_rep h A F D i k :
  heap_rep h A F D → A !! i = Some (k, Free) → i ∈ D →
  ∃ h', on_mapping (unwrap (become_reserved i)) h = (Ok tt, h') ∧
    heap_rep h' (<[i := (k, Reserved)]> A) F (D ∖ {[i]}) ∧
    current_size_bytes h' = current_size_bytes h ∧ frame (slots h) A (mapping h) (mapping h').
Proof.
  intros HR Hi HiD. pose proof (rep_in_slots _ _ _ _ HR _ _ _ Hi) as Hin.
  assert (map_ok (mapping h)) as Hm by apply HR.
  pose proof (hdr_ok _ _ Hm Hin) as Hh.
  destruct (rep_repr _ _ _ _ HR _ _ _ Hi) as [Ho _].
  eexists. split; [|split; [|split]].
  - apply on_mapping_ok, unwrap_ok, become_reserved_ok; [done..|by eapply rep_btype].
  - assert (u64_ok (set_hdr_block_type (hdr (mapping h) i) (to_u8 Reserved))) as Hv
      by (by apply set_hdr_block_type_ok).
    pose proof (rep_block_range _ _ _ _ HR _ _ _ Hi).
    eapply retype_rep; [done|done|by right|done|apply outside_put_hdr; [done..|lia]| |].
    + unfold bord. rewrite hdr_put_hdr, decide_True by (done || apply Hin).
      by rewrite order_set_type.
    + unfold btype. rewrite hdr_put_hdr, decide_True by (done || apply Hin).
      by rewrite type_set_type by (done || simpl; lia).
  - done.
  - pose proof (rep_block_pos _ _ _ _ HR _ _ _ Hi).
    eapply frame_put_hdr; [apply HR|done|lia|done|]. intros x kx tx Hx Ht.
    split; [|done]. intros ->. congruence.
Qed.

(** The block [i] of [A'] was taken from free memory of [A]; nothing else that
    is in use changed. *)
Definition allocated (h : Heap) (A : blocks) (k i : Z) (h' : Heap) (A' : blocks) : Prop :=
  heap_inv h' A' ∧ A' !! i = Some (k, Reserved) ∧ same_used A (delete i A') ∧
  slots h ≤ slots h' ∧ frame (slots h') A (mapping h) (mapping h').

Lemma same_used_take A A' i k t :
  same_used A A' → A' !! i = Some (k, Free) → same_used A (delete i (<[i := (k, t)]> A')).
Proof.
  intros HA Hi x kx tx Ht. rewrite (HA x kx tx Ht). destruct (decide (i = x)) as [<-|].
  - rewrite lookup_delete_eq. split; [congruence|done].
  - by rewrite lookup_delete_ne, lookup_insert_ne.
Qed.

(** What [allocate_block] does with the free block it found. *)
Lemma take_block_rep h A F i k lo :
  heap_rep h A F ∅ → 0 < current_size_bytes h → coalesced A →
  A !! i = Some (k, Free) → 0 ≤ lo ≤ k →
  ∃ h' A', (split_loop 16 i lo ;;; remove_free i ;;;
            on_mapping (unwrap (become_reserved i)) ;;; ret i) h = (Ok i, h') ∧
    allocated h A lo i h' A' ∧ current_size_bytes h' = current_size_bytes h.
Proof.
  intros HR Hpos Hco Hi Hlo. pose proof (rep_block_range _ _ _ _ HR _ _ _ Hi) as (_&_&?).
  destruct (split_loop_rep 16 h A F i k lo HR (coalesced_weaken i A Hco) Hi Hlo)
    as (h1 & A1 & F1 & E1 & HR1 & Hco1 & Hi1 & Hsu & Hs1 & Hf1); [lia|].
  erewrite bind_ok by exact E1.
  destruct (remove_free_rep h1 A1 F1 ∅ i lo HR1 Hi1)
    as (h2 & F2 & E2 & HR2 & Hs2 & Hf2 & _); [set_solver|].
  erewrite bind_ok by exact E2.
  destruct (reserve_rep h2 A1 F2 (∅ ∪ {[i]}) i lo HR2 Hi1) as (h3 & E3 & HR3 & Hs3 & Hf3);
    [set_solver|].
  erewrite bind_ok by exact E3. exists h3, (<[i := (lo, Reserved)]> A1).
  split; [done|]. split; [|congruence]. pose proof (slots_eq _ _ Hs1) as Hn1. pose proof (slots_eq _ _ Hs2) as Hn2.
  pose proof (slots_eq _ _ Hs3) as Hn3. split; [|split; [|split; [|split; [lia|]]]].
  - split; [lia|]. split; [by apply coalesced_fill|]. exists F2. by replace ∅ with ((∅ ∪ {[i]}) ∖ {[i]} : gset Z) by set_solver.
  - apply lookup_insert_eq.
  - by apply same_used_take.
  - rewrite Hsu in Hf1 |- *. rewrite Hn3, Hn2, Hn1. rewrite Hn2, Hn1 in Hf3. rewrite Hn1 in Hf2.
    eapply (frame_trans (slots h)); [done|done|]. by eapply (frame_trans (slots h)).
Qed.

Lemma allocated_same_used h0 A0 h A k i h' A' :
  same_used A0 A → slots h0 ≤ slots h → frame (slots h) A0 (mapping h0) (mapping h) →
  allocated h A k i h' A' → allocated h0 A0 k i h' A'.
Proof.
  intros HA Hn Hf (?&?&?&Hn'&Hf'). split; [done|]. split; [done|].
  split; [by etransitivity|]. split; [lia|]. eapply (frame_trans (slots h)); [done|done|]. by rewrite HA.
Qed.

Lemma fit_order_small {E} size :
  8 < size ≤ 2048 → ∃ k, @fit_order E size = Ok k ∧ 0 ≤ k < 8 ∧ size ≤ 16 * 2 ^ k ∧
    ∀ j, 0 ≤ j < k → 16 * 2 ^ j < size.
Proof.
  intros Hs. destruct (@fit_order_bracket E size) as (k & ? & ? & ? & Hmin); [lia|].
  exists k. split; [done|]. split; [|done]. split; [lia|].
  destruct (decide (k < 8)); [done|]. specialize (Hmin 7). lia.
Qed.

(** A free block of sufficient order is at the head of a free list. *)
Lemma rep_head h A F D k i :
  heap_rep h A F D → 0 ≤ k < 8 → head (F k) = Some i →
  free_head_per_order h !! Z.to_nat k = Some i ∧ A !! i = Some (k, Free).
Proof.
  intros HR Hk HF. destruct (rep_chain _ _ _ _ HR k Hk) as (hd & Hhd & Hc & _).
  destruct (F k) as [|x l] eqn:HFk; [done|]. destruct Hc as [-> _]. simpl in HF. simplify_eq.
  split; [done|]. eapply rep_list_in; [done|done|]. rewrite HFk. apply list_elem_of_here.
Qed.

(** [allocate_block] takes the first block of a non-empty free list. *)
Lemma take_head_rep h A F j lo i :
  heap_rep h A F ∅ → 0 < current_size_bytes h → coalesced A →
  0 ≤ lo ≤ j → j < 8 → head (F j) = Some i →
  ∃ h' A', (next_block_index <- free_head j ;;
              block <- unwrap (reading (λ h, get_block h next_block_index)) ;;
              split_loop 16 block lo ;;; remove_free block ;;;
              on_mapping (unwrap (become_reserved block)) ;;; ret block) h = (Ok i, h') ∧
    allocated h A lo i h' A' ∧ current_size_bytes h' = current_size_bytes h.
Proof.
  intros HR Hpos Hco Hlo Hj HF. destruct (rep_head h A F ∅ j i HR) as [Hhd Hi]; [lia|done|].
  destruct (take_block_rep h A F i j lo HR Hpos Hco Hi Hlo) as (h' & A' & He & Hal).
  exists h', A'. split; [|done].
  erewrite bind_free_head by done. by erewrite bind_unwrap_reading by (by eapply rep_get_block).
Qed.
End steps.

Section allocate.
Context {B : Bitfield} {BS : BitfieldSpec B}.
Implicit Types (h : Heap) (A : blocks).

(** No free block of order [k] or more, and no room to grow. *)
Definition exhausted (h : Heap) (A : blocks) (k : Z) : Prop :=
  current_size_bytes h = mapping_len (mapping h) ∧
  ∀ i j, A !! i = Some (j, Free) → j < k.

Lemma exhausted_lists h A F k :
  heap_rep h A F ∅ → 0 ≤ k →
  (∀ j, k ≤ j < 8 → F j = []) ↔ (∀ i j, A !! i = Some (j, Free) → j < k).
Proof.
  intros HR Hk. split.
  - intros HF i j Hi. pose proof (rep_block_range _ _ _ _ HR _ _ _ Hi).
    destruct (decide (j < k)); [done|]. assert (i ∈ F j) as Hin.
    { apply (rep_mem _ _ _ _ HR); [lia|]. set_solver. }
    rewrite HF in Hin by lia. set_solver.
  - intros HA j Hj. destruct (F j) as [|x l] eqn:HF; [done|].
    destruct (rep_list_in h A F ∅ j x HR) as [Hx _]; [lia|rewrite HF; apply list_elem_of_here|].
    apply HA in Hx. lia.
Qed.

(** The two ways [allocate_block] finds a block: a free list, or new memory. *)
Lemma allocate_found h A F k j size i :
  heap_rep h A F ∅ → 0 < current_size_bytes h → coalesced A → @fit_order Error size = Ok k →
  0 ≤ k ≤ j → j < 8 →
  find_order (Z.to_nat (8 - k)) k h = (Ok (Some j), h) → head (F j) = Some i →
  ∃ h' A', allocate_block size h = (Ok i, h') ∧ allocated h A k i h' A'.
Proof.
  intros HR Hpos Hco Hk Hkj Hj Hfind HF.
  destruct (take_head_rep h A F j k i HR Hpos Hco Hkj Hj HF) as (h' & A' & He & Hal & _).
  exists h', A'. split; [|done]. unfold allocate_block.
  erewrite bind_lift by done. change NUM_ORDERS with 8. by_ltb.
  erewrite bind_ok by exact Hfind. by erewrite bind_ok by done.
Qed.

Lemma allocate_grown h A F k size :
  heap_rep h A F ∅ → 0 < current_size_bytes h → coalesced A → @fit_order Error size = Ok k →
  0 ≤ k < 8 →
  find_order (Z.to_nat (8 - k)) k h = (Ok None, h) →
  current_size_bytes h < mapping_len (mapping h) →
  ∃ i h' A', allocate_block size h = (Ok i, h') ∧ allocated h A k i h' A'.
Proof.
  intros HR Hpos Hco Hk Hkj Hfind Hlt. pose proof (rep_slots_bound _ _ _ _ HR).
  pose proof (rep_size _ _ _ _ HR) as Hs. destruct (rep_page _ _ _ _ HR) as [q Hq].
  destruct (grow_heap_rep h A F (current_size_bytes h * 2) HR)
    as (h1 & F1 & n & E1 & HR1 & Hs1 & Hn1 & _ & Hin & Hf1); [exists (2 * q); lia|lia|done|].
  destruct (take_head_rep h1 _ F1 7 k (slots h) HR1) as (h' & A' & He & Hal & _);
    [lia|by eapply coalesced_grow|lia|lia|exact Hin|].
  exists (slots h), h', A'. split.
  - unfold allocate_block. erewrite bind_lift by done. change NUM_ORDERS with 8. by_ltb.
    erewrite bind_ok by exact Hfind. cbv beta iota.
    erewrite (bind_ok _ _ _ h1 7); [exact He|].
    erewrite bind_ok by (rewrite umul_ok by lia; done). by erewrite bind_ok by exact E1.
  - eapply allocated_same_used; [by eapply same_used_grow| |done|done].
    rewrite (rep_size _ _ _ _ HR1) in Hn1. lia.
Qed.

Lemma allocate_full h A F k size :
  heap_rep h A F ∅ → 0 < current_size_bytes h → coalesced A → @fit_order Error size = Ok k →
  0 ≤ k < 8 →
  find_order (Z.to_nat (8 - k)) k h = (Ok None, h) →
  current_size_bytes h = mapping_len (mapping h) →
  allocate_block size h = (Err HeapAtMaximumSize, h).
Proof.
  intros HR Hpos _ Hk Hk8 Hfind Hfull. pose proof (rep_slots_bound _ _ _ _ HR).
  pose proof (rep_size _ _ _ _ HR).
  unfold allocate_block. erewrite bind_lift by done. change NUM_ORDERS with 8. by_ltb.
  erewrite bind_ok by exact Hfind. cbv beta iota. erewrite bind_err; [done|].
  erewrite bind_ok by (rewrite umul_ok by lia; done). erewrite bind_err; [done|].
  unfold grow_heap. rewrite <- Hfull, Z.eqb_refl. by by_ltb.
Qed.

Lemma allocate_block_spec h A size :
  heap_inv h A → 8 < size ≤ 2 ^ 64 →
  if 2048 <? size then allocate_block size h = (Err OrderTooBig, h)
  else ∃ k, size ≤ order_to_size k ∧ (∀ j, 0 ≤ j < k → order_to_size j < size) ∧
    ((exhausted h A k ∧ allocate_block size h = (Err HeapAtMaximumSize, h)) ∨
     (¬ exhausted h A k ∧
      ∃ i h' A', allocate_block size h = (Ok i, h') ∧ allocated h A k i h' A')).
Proof.
  intros (Hpos & Hco & F & HR) Hsize. case_match eqn:Hbig; to_props.
  { destruct (@fit_order_bracket Error size) as (k & Hk & ? & ? & _); [lia|].
    unfold allocate_block. erewrite bind_lift by done. change NUM_ORDERS with 8.
    destruct (decide (k < 8)) as [Hk8|]; [|by by_ltb].
    pose proof (Z.pow_le_mono_r 2 k 7). lia. }
  destruct (@fit_order_small Error size) as (k & Hk & ? & ? & Hmin); [lia|].
  exists k. rewrite order_to_size_eq by lia. split; [done|]. split.
  { intros j ?. rewrite order_to_size_eq by lia. by apply Hmin. }
  pose proof (rep_size _ _ _ _ HR).
  destruct (find_order_ok h A F (Z.to_nat (8 - k)) k HR) as (o & Hfind & Ho); [lia..|].
  destruct o as [j|].
  - right. destruct Ho as [Hj HF]. split.
    + intros [_ Hex]. apply HF. apply (exhausted_lists h A F k HR); [lia|done|lia].
    + destruct (F j) as [|i l] eqn:HFj; [done|]. exists i.
      apply (allocate_found h A F k j size); try done; try lia. by rewrite HFj.
  - assert (∀ i j, A !! i = Some (j, Free) → j < k) as Hnone.
    { apply (exhausted_lists _ _ _ _ HR); [lia|]. intros j Hj. apply Ho. lia. }
    destruct (decide (current_size_bytes h = mapping_len (mapping h))) as [Hfull|Hroom].
    + left. split; [done|]. by apply (allocate_full h A F k size).
    + right. split; [by intros [? _]|]. apply (allocate_grown h A F k size); try done.
      pose proof (rep_fit _ _ _ _ HR). pose proof (rep_size _ _ _ _ HR).
      unfold mapping_len, mapping_buffer in *. simpl in *. lia.
Qed.
(** The subtractions of [fit_order] underflow. *)
Lemma allocate_block_tiny h size : 0 ≤ size ≤ 8 → allocate_block size h = (Panic, h).
Proof.
  intros Hs. pose proof (fit_order_least Error size ltac:(lia)) as Hf. rewrite (proj2 (Z.leb_le _ _)) in Hf by lia.
  unfold allocate_block, bind, lift. by rewrite Hf.
Qed.
End allocate.

Section free.
Context {B : Bitfield} {BS : BitfieldSpec B}.
Implicit Types (h : Heap) (A : blocks) (F : Z → list Z) (D : gset Z).

(** A block in no free list and its detached buddy become one block, at the
    lower of the two indices [i]. *)
Lemma merge_rep h A F i k t1 t2 :
  heap_rep h A F {[i; i + 2 ^ k]} → 0 ≤ k < 7 → A !! i = Some (k, t1) →
  A !! (i + 2 ^ k) = Some (k, t2) → (2 ^ (k + 1) | i) →
  heap_rep (with_map h (ordered (mapping h) i (k + 1))) (merge_map i k t1 A) F {[i]}.
Proof.
  intros HR Hk Hi Hi' Hal. pose proof (rep_in_slots _ _ _ _ HR _ _ _ Hi) as Hin.
  destruct (ordered_facts (mapping h) i (k + 1)) as (M1&M2&M3&M4&M5&M6); [apply HR|done|lia|].
  assert (∀ j x, 0 ≤ j < 8 → x ∈ F j → hdr (ordered (mapping h) i (k + 1)) x = hdr (mapping h) x)
    as Hlist.
  { intros j x Hj Hx. destruct (rep_list_in _ _ _ _ _ _ HR Hj Hx) as [HxA ?].
    apply (rep_mem _ _ _ _ HR) in Hx as [_ Hx]; [|done]. apply M3; [lia|]. set_solver. }
  apply (heap_rep_update h A F {[i; i + 2 ^ k]}); simpl; try done; try apply HR.
  - eapply tiled_merge; [apply HR|lia|lia|done..].
  - intros x kx tx Hx. destruct (merge_lookup _ _ (rep_tiled _ _ _ _ HR) i k t1 t2 t1 x kx tx)
      as [(->&->&->)|[HxA Hout]]; [lia|done..| |].
    + rewrite M4, M5. by destruct (rep_repr _ _ _ _ HR _ _ _ Hi).
    + pose proof (rep_block_range _ _ _ _ HR _ _ _ HxA).
      pose proof (rep_block_pos _ _ _ _ HR _ _ _ HxA). pose proof (pow2_pos k).
      destruct (hdr_same_fields (mapping h) (ordered (mapping h) i (k + 1)) x) as (->&->&_);
        [apply M3; lia|]. by apply (rep_repr _ _ _ _ HR).
  - intros j Hj. destruct (rep_chain _ _ _ _ HR j Hj) as (hd&?&?&?). exists hd.
    split; [done|]. split; [|done]. eapply chain_hdr_ext; [|done]. intros x. by apply Hlist.
  - intros j x Hj. rewrite (rep_mem _ _ _ _ HR) by done. unfold merge_map.
    destruct (decide (i = x)) as [<-|]; [set_solver|].
    rewrite lookup_insert_ne by done. destruct (decide (i + 2 ^ k = x)) as [<-|].
    + rewrite lookup_delete_eq. set_solver.
    + rewrite lookup_delete_ne by done. set_solver.
Qed.

(** The used blocks but for the one being freed. *)
Lemma same_used_merge n A i k t1 t2 t b :
  tiled n A → 0 ≤ k → A !! i = Some (k, t1) → A !! (i + 2 ^ k) = Some (k, t2) →
  (b = i ∧ t2 = Free) ∨ (b = i + 2 ^ k ∧ t1 = Free) →
  same_used (delete b A) (delete i (merge_map i k t A)).
Proof.
  intros HA Hk Hi Hi' Hb x kx tx Ht. unfold merge_map. pose proof (pow2_pos k Hk).
  destruct (decide (i = x)) as [<-|Hx].
  - rewrite lookup_delete_eq. destruct Hb as [[-> _]|[-> ->]].
    + by rewrite lookup_delete_eq.
    + rewrite lookup_delete_ne by lia. split; [congruence|done].
  - rewrite (lookup_delete_ne _ i x), lookup_insert_ne by done.
    destruct (decide (i + 2 ^ k = x)) as [<-|Hx'].
    + rewrite (lookup_delete_eq A (i + 2 ^ k)). destruct Hb as [[-> ->]|[-> _]].
      * rewrite lookup_delete_ne by lia. split; [congruence|done].
      * by rewrite lookup_delete_eq.
    + rewrite !lookup_delete_ne by (done || lia). done.
Qed.

Lemma rep_sibling h A F D i k t :
  heap_rep h A F D → A !! i = Some (k, t) →
  ∃ k' t', A !! sibling i k = Some (k', t') ∧ 0 ≤ k' ≤ k.
Proof.
  intros HR Hi. pose proof (rep_block_range _ _ _ _ HR _ _ _ Hi).
  eapply sibling_block; [apply HR|done|]. eapply Z.divide_trans; [|apply HR].
  change 256 with (2 ^ 8). apply pow2_divide. lia.
Qed.

(** The lower block of a pair takes over: [swap] and [set_order] of the loop. *)
Lemma swap_ok {C} h A F D b s k t t' (f : Z → M Error Heap C) :
  heap_rep h A F D → A !! b = Some (k, t) → A !! s = Some (k, t') →
  (block_to_free <- (if s <? b then p <- on_mapping (swap b s true) ;; ret (fst p) else ret b) ;;
   f block_to_free) h = f (Z.min b s) h.
Proof.
  intros HR Hb Hs. destruct (s <? b) eqn:Hlt; to_props.
  - rewrite Z.min_r by lia. erewrite (bind_ok _ _ _ h s); [done|].
    erewrite (bind_on_mapping _ _ _ (s, b) (mapping h)); [by rewrite with_map_id|].
    unfold swap. rewrite (bind_rd_ok _ _ _ _ k), (bind_rd_ok _ _ _ _ k)
      by (by eapply rep_order). by rewrite Z.eqb_refl.
  - by rewrite Z.min_l by lia.
Qed.

Lemma merge_step h A F b k t fuel :
  heap_rep h A F {[b]} → coalesced_but b A → A !! b = Some (k, t) → 0 ≤ k < 7 →
  A !! sibling b k = Some (k, Free) →
  ∃ h' A' F' b' t', free_loop (S fuel) b (sibling b k) h = free_loop fuel b' (sibling b' (k + 1)) h' ∧
    heap_rep h' A' F' {[b']} ∧ coalesced_but b' A' ∧ A' !! b' = Some (k + 1, t') ∧
    same_used (delete b A) (delete b' A') ∧
    current_size_bytes h' = current_size_bytes h ∧ frame (slots h) (delete b A) (mapping h) (mapping h').
Proof.
  intros HR Hco Hb Hk Hs. pose proof (pow2_pos k ltac:(lia)).
  destruct (sibling_pair b k) as (p & Hp & Hcase);
    [lia|by eapply tiled_align; [apply HR|]|].
  destruct (remove_free_rep _ _ _ _ _ _ HR Hs) as (h1 & F1 & Hrem & HR1 & Hs1 & Hf1 & _);
    [rewrite elem_of_singleton; apply sibling_ne; lia|].
  assert (∃ t1 t2, A !! p = Some (k, t1) ∧ A !! (p + 2 ^ k) = Some (k, t2) ∧
            ((b = p ∧ t2 = Free) ∨ (b = p + 2 ^ k ∧ t1 = Free))) as (t1&t2&Hp1&Hp2&Hb').
  { destruct Hcase as [[-> He]|[-> He]]; rewrite He in Hs; eauto 10. }
  replace ({[b]} ∪ {[sibling b k]}) with ({[p; p + 2 ^ k]} : gset Z) in HR1
    by (destruct Hcase as [[-> ->]|[-> ->]]; set_solver).
  pose proof (merge_rep h1 A F1 p k t1 t2 HR1 Hk Hp1 Hp2 Hp) as HR2.
  set (h2 := with_map h1 (ordered (mapping h1) p (k + 1))) in *.
  set (A2 := merge_map p k t1 A) in *.
  assert (A2 !! p = Some (k + 1, t1)) as Hp' by apply lookup_insert_eq.
  exists h2, A2, F1, p, t1. split; [|split; [done|split; [|split; [done|split; [|split]]]]].
  - simpl. erewrite bind_on_rd by (by eapply rep_type). erewrite bind_on_rd by (by eapply rep_order).
    erewrite bind_on_rd by (by eapply rep_order). change (NUM_ORDERS - 1) with 7.
    rewrite bool_decide_true, Z.eqb_refl by done. by_ltb. cbn [andb].
    erewrite bind_ok by exact Hrem. erewrite (swap_ok h1 A) by done.
    replace (Z.min b (sibling b k)) with p by (destruct Hcase as [[-> ->]|[-> ->]]; lia).
    erewrite bind_on_rd by (by eapply rep_order).
    erewrite bind_on_mapping
      by (apply set_order_ok; [apply HR1|by eapply rep_in_slots|lia]).
    fold (ordered (mapping h1) p (k + 1)). fold h2.
    erewrite bind_on_rd by (by eapply rep_order).
    erewrite bind_lift by (apply buddy_ok; lia).
    destruct (rep_sibling _ _ _ _ _ _ _ HR2 Hp') as (?&?&Hsib&_).
    by erewrite bind_unwrap_reading by (by eapply rep_get_block).
  - eapply coalesced_merge; [apply HR|lia|done|done| |done]. naive_solver.
  - eapply same_used_merge; [apply HR|lia|done..].
  - done.
  - eapply (frame_trans (slots h)) with (mapping h1); [done| |].
    + destruct Hf1 as [Hf1 ?]. split; [|done]. intros x kx tx Hx. apply Hf1. by apply lookup_delete_Some in Hx as [_ ?].
    + eapply frame_put_hdr; [apply HR|exact Hp1|lia|by eapply rep_in_slots|].
      intros x kx tx [??]%lookup_delete_Some ?. split; [|done]. intros ->. naive_solver.
Qed.

Lemma free_loop_rep fuel h A F b k t :
  heap_rep h A F {[b]} → coalesced_but b A → A !! b = Some (k, t) → 7 - k < Z.of_nat fuel →
  ∃ h' A' F' b' k' t', free_loop fuel b (sibling b k) h = (Ok b', h') ∧
    heap_rep h' A' F' {[b']} ∧ coalesced_but b' A' ∧ A' !! b' = Some (k', t') ∧
    (0 ≤ k' < 7 → A' !! sibling b' k' ≠ Some (k', Free)) ∧
    same_used (delete b A) (delete b' A') ∧
    current_size_bytes h' = current_size_bytes h ∧ frame (slots h) (delete b A) (mapping h) (mapping h').
Proof.
  revert h A F b k t. induction fuel as [|fuel IH]; intros h A F b k t HR Hco Hb Hf;
    pose proof (rep_block_range _ _ _ _ HR _ _ _ Hb) as (?&?&Hk); [lia|].
  destruct (rep_sibling _ _ _ _ _ _ _ HR Hb) as (ks & ts & Hs & _).
  destruct (decide (k < 7 ∧ ks = k ∧ ts = Free)) as [(Hk7&->&->)|Hstop].
  - destruct (merge_step h A F b k t fuel HR Hco Hb) as
      (h1 & A1 & F1 & b1 & t1 & E1 & HR1 & Hco1 & Hb1 & Hsu1 & Hs1 & Hf1); [lia|done|].
    destruct (IH h1 A1 F1 b1 (k + 1) t1 HR1 Hco1 Hb1) as
      (h' & A' & F' & b' & k' & t' & E' & HR' & Hco' & Hb' & Hst & Hsu' & Hs' & Hf'); [lia|].
    exists h', A', F', b', k', t'. rewrite E1. do 5 (split; [done|]).
    split; [by etransitivity|]. split; [congruence|].
    eapply (frame_trans (slots h)); [done|done|]. rewrite Hsu1. by rewrite <- (slots_eq _ _ Hs1).
  - exists h, A, F, b, k, t. split; [|do 3 (split; [done|]); split; [|split; [done|split; [done|apply frame_refl]]]].
    + simpl. erewrite bind_on_rd by (by eapply rep_type).
      erewrite !bind_on_rd by (by eapply rep_order). change (NUM_ORDERS - 1) with 7.
      destruct (bool_decide (ts = Free) && (k <? 7) && (k =? ks)) eqn:Hc; [|done].
      apply andb_true_iff in Hc as [[?%bool_decide_eq_true ?]%andb_true_iff ?]. to_props.
      naive_solver.
    + intros ?. rewrite Hs. intros ?. simplify_eq. naive_solver lia.
Qed.

(** [become_free] and the update of the head put a block in front of its list. *)
Lemma attach_rep h A F b k t hd :
  heap_rep h A F {[b]} → A !! b = Some (k, t) →
  free_head_per_order h !! Z.to_nat k = Some hd → chain (mapping h) hd (F k) →
  heap_rep (with_heads (with_map h (freed (mapping h) b hd))
              (<[Z.to_nat k := b]> (free_head_per_order h)))
    (<[b := (k, Free)]> A) (fset F k (b :: F k)) ∅.
Proof.
  intros HR Hb Hhd Hc. pose proof (rep_in_slots _ _ _ _ HR _ _ _ Hb) as Hin.
  pose proof (rep_block_range _ _ _ _ HR _ _ _ Hb) as (?&?&Hk).
  destruct (freed_facts (mapping h) b hd) as (M1&M2&M3&M4&M5&M6);
    [apply HR|done|by eapply rep_head_bound|].
  assert (∀ j, 0 ≤ j < 8 → ∀ x, x ∈ F j → hdr (freed (mapping h) b hd) x = hdr (mapping h) x)
    as Hlist.
  { intros j Hj x Hx. destruct (rep_list_in _ _ _ _ _ _ HR Hj Hx) as [HxA ?].
    apply (rep_mem _ _ _ _ HR) in Hx as [_ Hx]; [|done]. apply M3; [lia|set_solver]. }
  apply (heap_rep_update h A F {[b]}); simpl; try done.
  - rewrite length_insert. apply HR.
  - eapply tiled_retype; [apply HR|done].
  - intros x kx tx Hx. destruct (decide (b = x)) as [<-|Hne].
    + rewrite lookup_insert_eq in Hx. simplify_eq. rewrite M4, M5.
      by destruct (rep_repr _ _ _ _ HR _ _ _ Hb).
    + rewrite lookup_insert_ne in Hx by done.
      pose proof (rep_block_range _ _ _ _ HR _ _ _ Hx).
      destruct (hdr_same_fields (mapping h) (freed (mapping h) b hd) x) as (->&->&_);
        [apply M3; [lia|done]|]. by apply (rep_repr _ _ _ _ HR).
  - intros j Hj. destruct (rep_chain _ _ _ _ HR j Hj) as (hd'&?&?&Hnd).
    destruct (decide (j = k)) as [->|Hne].
    + rewrite fset_eq, list_lookup_insert_eq by (rewrite (rep_heads _ _ _ _ HR); lia).
      exists b. split; [done|]. split.
      * simpl. rewrite M6. split; [done|]. eapply chain_hdr_ext; [by apply Hlist|done].
      * apply NoDup_cons. split; [|done]. rewrite (rep_mem _ _ _ _ HR) by done. set_solver.
    + rewrite fset_ne, list_lookup_insert_ne by lia. exists hd'.
      split; [done|]. split; [|done]. eapply chain_hdr_ext; [by apply Hlist|done].
  - intros j x Hj. destruct (decide (b = x)) as [<-|Hx].
    + rewrite lookup_insert_eq. destruct (decide (j = k)) as [->|Hne].
      * rewrite fset_eq. set_solver.
      * rewrite fset_ne, (rep_mem _ _ _ _ HR) by done. split; [set_solver|].
        intros [? _]. simplify_eq.
    + rewrite lookup_insert_ne by done. destruct (decide (j = k)) as [->|Hne].
      * rewrite fset_eq, elem_of_cons, (rep_mem _ _ _ _ HR) by done. set_solver.
      * rewrite fset_ne, (rep_mem _ _ _ _ HR) by done. set_solver.
Qed.

(** A block in use counts as detached. *)
Lemma rep_detach h A F b k t :
  heap_rep h A F ∅ → A !! b = Some (k, t) → t ≠ Free → heap_rep h A F {[b]}.
Proof.
  intros HR Hb Ht. apply (heap_rep_update h A F ∅); try done; try apply HR.
  intros j x Hj. rewrite (rep_mem _ _ _ _ HR) by done. set_solver.
Qed.

Lemma free_block_spec h A b k t :
  heap_inv h A → A !! b = Some (k, t) →
  if decide (t = Free) then free_block b h = (Err CannotFree, h)
  else ∃ h' A', free_block b h = (Ok tt, h') ∧ heap_inv h' A' ∧
    same_used (delete b A) A' ∧ frame (slots h) (delete b A) (mapping h) (mapping h') ∧
    current_size_bytes h' = current_size_bytes h.
Proof.
  intros (Hpos & Hco & F & HR) Hb. unfold free_block.
  erewrite bind_on_rd by (by eapply rep_type). case_decide as Ht; [done|].
  pose proof (rep_block_range _ _ _ _ HR _ _ _ Hb) as (_&_&Hk).
  destruct (rep_sibling _ _ _ _ _ _ _ HR Hb) as (ks & ts & Hs & _).
  erewrite bind_on_rd by (by eapply rep_order).
  erewrite bind_lift by (apply buddy_ok; lia).
  erewrite bind_unwrap_reading by (by eapply rep_get_block).
  destruct (free_loop_rep 16 h A F b k t) as
    (h1 & A1 & F1 & b1 & k1 & t1 & E1 & HR1 & Hco1 & Hb1 & Hst & Hsu & Hs1 & Hf1);
    [by eapply rep_detach|by apply coalesced_weaken|done|lia|].
  erewrite bind_ok by exact E1. erewrite bind_on_rd by (by eapply rep_order).
  pose proof (rep_block_range _ _ _ _ HR1 _ _ _ Hb1) as (_&_&Hk1).
  destruct (rep_chain _ _ _ _ HR1 k1 Hk1) as (hd & Hhd & Hc & _).
  pose proof (rep_head_bound _ _ _ _ _ _ HR1 Hk1 Hc).
  pose proof (attach_rep h1 A1 F1 b1 k1 t1 hd HR1 Hb1 Hhd Hc) as HR2.
  erewrite bind_free_head by done.
  erewrite bind_on_mapping by (apply become_free_ok; [apply HR1|by eapply rep_in_slots|lia]).
  fold (freed (mapping h1) b1 hd). erewrite bind_on_rd.
  2: { eapply (rep_order _ _ _ _ HR2 b1 k1 Free). apply lookup_insert_eq. }
  eexists _, (<[b1 := (k1, Free)]> A1).
  split; [apply set_free_head_ok; [apply HR1|lia]|]. split; [|split; [|split]].
  - split; [simpl; lia|]. split; [by apply coalesced_fill|]. by eexists.
  - rewrite Hsu. intros x kx tx Hx. destruct (decide (b1 = x)) as [<-|].
    + rewrite lookup_delete_eq, lookup_insert_eq. split; [done|congruence].
    + by rewrite lookup_delete_ne, lookup_insert_ne.
  - eapply (frame_trans (slots h)); [done|done|]. rewrite Hsu, <- (slots_eq _ _ Hs1). pose proof (rep_block_pos _ _ _ _ HR1 _ _ _ Hb1).
    eapply frame_put_hdr; [apply HR1|done|lia|by eapply rep_in_slots|].
    intros x kx tx [??]%lookup_delete_Some ?. done.
  - done.
Qed.
End free.

Section new.
Context {B : Bitfield} {BS : BitfieldSpec B}.

(** The heap before its first [grow_heap]. *)
Lemma empty_rep m :
  map_ok m → (4096 | mapping_len m) → mapping_len m ≤ 2 ^ 32 →
  heap_rep {| mapping := m; current_size_bytes := 0; free_head_per_order := replicate 8 0 |}
    ∅ (λ _, []) ∅.
Proof.
  intros Hm Hd Hl. split; try done.
  - apply Z.divide_0_r.
  - unfold slots. simpl. apply zlen_nonneg.
  - split; try (intros *; by rewrite ?lookup_empty).
    unfold slots. simpl. change (0 / 16) with 0. intros; lia.
  - intros k Hk. exists 0. cbn [free_head_per_order]. rewrite lookup_replicate_2 by lia.
    split; [done|].
    split; [done|constructor].
  - intros k i _. rewrite lookup_empty. set_solver.
Qed.

Lemma new_heap_rep m :
  map_ok m → (4096 | mapping_len m) → 4096 ≤ mapping_len m ≤ 2 ^ 32 →
  ∃ h F, new_heap m = (Ok tt, h) ∧ current_size_bytes h = 4096 ∧
    mapping_len (mapping h) = mapping_len m ∧
    heap_rep h (<[0 := (7, Free)]> (<[128 := (7, Free)]> ∅)) F ∅ ∧ head (F 7) = Some 0 ∧
    same_tail (slots h) m (mapping h).
Proof.
  intros Hm Hd [Hl1 Hl2]. pose proof (empty_rep m Hm Hd Hl2) as HR.
  destruct (grow_heap_rep _ _ _ PAGE_SIZE_BYTES HR) as (h & F & n & E & HR' & Hs & Hn & Hlen & Hhd & [_ Htail]);
    [by exists 1|done|simpl; lia|]. exists h, F. split; [done|].
  cbn [mapping] in Hs, Hlen. rewrite Z.min_r in Hs by done.
  change (slots _) with 0 in Hn, HR', Hhd.
  rewrite Hs in Hn. change PAGE_SIZE_BYTES with 4096 in Hn, Hs.
  by assert (n = 1%nat) as -> by lia.
Qed.

Lemma new_page_coalesced : coalesced (<[0 := (7, Free)]> (<[128 := (7, Free)]> ∅)).
Proof.
  intros j k Hk [[_ ?]|[_ [[_ ?]|[_ ?]]%lookup_insert_Some]]%lookup_insert_Some; simplify_map_eq; lia.
Qed.

Lemma new_heap_inv m :
  map_ok m → (4096 | mapping_len m) → 4096 ≤ mapping_len m ≤ 2 ^ 32 →
  ∃ h, new_heap m = (Ok tt, h) ∧ heap_inv h (<[0 := (7, Free)]> (<[128 := (7, Free)]> ∅)) ∧
    current_size_bytes h = 4096 ∧ mapping_len (mapping h) = mapping_len m.
Proof.
  intros Hm Hd Hl. destruct (new_heap_rep m Hm Hd Hl) as (h & F & E & Hs & Hlen & HR & _).
  exists h. split; [done|]. split; [|done]. split; [lia|].
  split; [apply new_page_coalesced|by exists F].
Qed.
End new.
