(* ===== verification/HeapTheorems.v ===== *)
(** The heap's theorems: each operation against the abstract allocator, and
    every sequence of operations of a client. *)

From S2P Require Import Prelude SharedBuffer InspectFormat InspectBlock InspectHeap HeapInvariant HeapCorrect HeapAllocate.

(** * Clients

    A client allocates any sizes and frees what it holds.  A heap that refuses
    to allocate changes nothing, and the client goes on; [run] ends with the panic,
    the lack of fuel or the refusal to free of the first operation that has one. *)
Inductive heap_op :=
  | Allocate (size : Z)
  | Release (block : Z).

Fixpoint run {B : Bitfield} (ops : list heap_op) (h : Heap) (held : gmap Z Z)
    : result Error (Heap * gmap Z Z) :=
  match ops with
  | [] => Ok (h, held)
  | Allocate size :: ops =>
      match allocate_block size h with
      | (Ok i, h') =>
          match order (mapping h') i with
          | Ok k => run ops h' (<[i := k]> held)
          | Err e => Err e
          | Panic => Panic
          | OutOfFuel => OutOfFuel
          end
      | (Err _, h') => run ops h' held
      | (Panic, _) => Panic
      | (OutOfFuel, _) => OutOfFuel
      end
  | Release b :: ops =>
      match held !! b with
      | None => run ops h held
      | Some _ =>
          match free_block b h with
          | (Ok _, h') => run ops h' (delete b held)
          | (Err e, _) => Err e
          | (Panic, _) => Panic
          | (OutOfFuel, _) => OutOfFuel
          end
      end
  end.

(** Sizes are of type [usize]. *)
Definition heap_op_ok (o : heap_op) : Prop :=
  match o with Allocate size => 0 ≤ size < 2 ^ 64 | Release _ => True end.
(** The allocations that panic. *)
Definition tiny (o : heap_op) : bool :=
  match o with Allocate size => size <=? 8 | Release _ => false end.

(** The blocks in use are those the client holds. *)
Definition holds (A : blocks) (held : gmap Z Z) : Prop :=
  ∀ i k, held !! i = Some k ↔ ∃ t, t ≠ Free ∧ A !! i = Some (k, t).

Section clients.
Context {B : Bitfield} {BS : BitfieldSpec B}.

Lemma holds_same_used A A' held : same_used A A' → holds A held → holds A' held.
Proof.
  intros HA Hh i k. rewrite (Hh i k). split; intros (t & Ht & Hi); exists t;
    (split; [done|]); by apply (HA i k t Ht).
Qed.

Lemma holds_delete A held b : holds A held → holds (delete b A) (delete b held).
Proof.
  intros Hh i k. rewrite lookup_delete_Some, (Hh i k). split.
  - intros (Hb & t & Ht & Hi). exists t. by rewrite lookup_delete_ne.
  - intros (t & Ht & [Hb Hi]%lookup_delete_Some). eauto.
Qed.

Lemma holds_insert A A' held i k t :
  same_used A (delete i A') → A' !! i = Some (k, t) → t ≠ Free →
  holds A held → holds A' (<[i := k]> held).
Proof.
  intros HA Hi Ht Hh j k'. destruct (decide (i = j)) as [<-|Hne].
  - rewrite lookup_insert_eq, Hi. split; [|naive_solver]. intros ?. simplify_eq. eauto.
  - rewrite lookup_insert_ne by done. rewrite (Hh j k').
    split; intros (t' & Ht' & Hj); exists t'; (split; [done|]).
    + apply (HA j k' t' Ht') in Hj. by apply lookup_delete_Some in Hj as [_ ?].
    + apply (HA j k' t' Ht'). by rewrite lookup_delete_ne.
Qed.

Lemma run_inv ops h A held :
  Forall heap_op_ok ops → heap_inv h A → holds A held →
  if existsb tiny ops then run ops h held = Panic
  else ∃ h' A' held', run ops h held = Ok (h', held') ∧ heap_inv h' A' ∧ holds A' held'.
Proof.
  revert h A held. induction ops as [|o ops IH]; intros h A held Hops HI Hh; [simpl; by eauto 10|].
  apply Forall_cons in Hops as [Ho Hops]. destruct o as [size|b]; simpl in *.
  - destruct (Z.leb_spec size 8); cbn [orb]; [by rewrite allocate_block_tiny by lia|].
    pose proof (allocate_block_spec h A size HI ltac:(lia)) as Hal. destruct (2048 <? size).
    { rewrite Hal. by apply (IH h A). }
    destruct Hal as (k & _ & _ & [(_ & ->)|(_ & i & h1 & A1 & -> & HI1 & Hi & Hsu & _)]).
    { by apply (IH h A). }
    pose proof HI1 as (_&_&F1&HR1). erewrite rep_order by done.
    apply (IH h1 A1); [done..|]. by eapply holds_insert.
  - destruct (held !! b) as [k|] eqn:Hb; [|by apply (IH h A)].
    apply Hh in Hb as (t & Ht & Hb). pose proof (free_block_spec h A b k t HI Hb) as Hfr.
    rewrite decide_False in Hfr by done. destruct Hfr as (h1 & A1 & -> & HI1 & Hsu & _).
    apply (IH h1 A1); [done..|]. eapply holds_same_used; [done|by apply holds_delete].
Qed.

(** When nothing is in use, coalescing has restored the largest blocks. *)
Lemma all_free_order7 h A i k t :
  heap_inv h A → (∀ j k t, A !! j = Some (k, t) → t = Free) → A !! i = Some (k, t) → k = 7.
Proof.
  intros (_ & Hco & F & HR) Hfree Hi.
  pose proof (rep_block_range _ _ _ _ HR _ _ _ Hi) as (_ & _ & Hk).
  destruct (decide (k = 7)) as [|Hne]; [done|exfalso].
  assert (k < 7) as Hlt by lia. clear Hne. revert i t Hi Hk Hlt.
  induction k as [k IH] using (well_founded_induction (Z.lt_wf 0)). intros i t Hi Hk Hlt.
  destruct (rep_sibling _ _ _ _ _ _ _ HR Hi) as (ks & ts & Hs & Hks).
  rewrite (Hfree _ _ _ Hi) in Hi. rewrite (Hfree _ _ _ Hs) in Hs.
  destruct (decide (ks = k)) as [->|Hne]; [by destruct (Hco i k); [lia|..]|].
  apply (IH ks) with (sibling i k) Free; [lia|done|lia|lia].
Qed.
End clients.

(** A page of an allocator, for the witnesses. *)
Definition page_heap : Heap := snd (new_heap page).
Definition page_blocks : blocks := <[0 := (7, Free)]> (<[128 := (7, Free)]> ∅).

Lemma page_inv : heap_inv page_heap page_blocks.
Proof.
  destruct (new_heap_inv page) as (h & E & HI & _).
  - split; [apply bytes_ok_zeros|done].
  - by exists 1.
  - done.
  - unfold page_heap. by rewrite E.
Qed.

Section theorems.
Context {B : Bitfield} {BS : BitfieldSpec B}.

(** C1: [allocate_block] for a size of 9 to 2048 bytes either returns a
    block of the smallest order that holds the size, taken from free memory,
    reserved, disjoint from every block in use, with the allocator's invariant
    kept and every byte of the blocks in use unchanged; or reports
    [HeapAtMaximumSize] and changes nothing, exactly when no free block is
    large enough and the mapping is used up.  Larger sizes are refused with
    [OrderTooBig].  Sizes of at most 8 bytes, and only those, panic: the subtractions of
    [fit_order] underflow. *)
Theorem allocate_block_correct h A size :
  heap_inv h A → 0 ≤ size < 2 ^ 64 →
  if size <=? 8 then allocate_block size h = (Panic, h)
  else if 2048 <? size then allocate_block size h = (Err OrderTooBig, h)
  else ∃ k, size ≤ order_to_size k ∧ (∀ j, 0 ≤ j < k → order_to_size j < size) ∧
    ((exhausted h A k ∧ allocate_block size h = (Err HeapAtMaximumSize, h)) ∨
     (¬ exhausted h A k ∧
      ∃ i h' A', allocate_block size h = (Ok i, h') ∧ allocated h A k i h' A')).
Proof.
  intros HI Hs. destruct (Z.leb_spec size 8); [apply allocate_block_tiny; lia|]. apply allocate_block_spec; [done|lia].
Qed.

(** C2: [free_block] of a block in use returns exactly that block to the free
    memory: the invariant is kept (free lists sound and complete, buddies
    merged), every other block in use keeps its place, its order, its type and
    its bytes, the heap keeps its size and nothing past it is written; no step panics.  Freeing a free
    block is refused and changes nothing. *)
Theorem free_block_correct h A b k t :
  heap_inv h A → A !! b = Some (k, t) →
  if decide (t = Free) then free_block b h = (Err CannotFree, h)
  else ∃ h' A', free_block b h = (Ok tt, h') ∧ heap_inv h' A' ∧
    same_used (delete b A) A' ∧ frame (slots h) (delete b A) (mapping h) (mapping h') ∧
    current_size_bytes h' = current_size_bytes h.
Proof. apply free_block_spec. Qed.

(** [Heap::new] on a mapping of whole pages succeeds with one page in two
    free blocks of the largest order, whatever the mapping held before. *)
Theorem new_heap_correct m :
  map_ok m → (4096 | mapping_len m) → 4096 ≤ mapping_len m ≤ 2 ^ 32 →
  ∃ h, new_heap m = (Ok tt, h) ∧ heap_inv h (<[0 := (7, Free)]> (<[128 := (7, Free)]> ∅)) ∧
    current_size_bytes h = 4096 ∧ mapping_len (mapping h) = mapping_len m.
Proof. apply new_heap_inv. Qed.

(** C3: a sequence of allocations and releases of a client on a new heap panics
    exactly when it allocates 8 bytes or less.  Else every operation ends
    and no release is refused; the blocks held are in bounds and pairwise disjoint;
    and when the client holds nothing the heap is again made of free blocks of the
    largest order only. *)
Theorem client_run_safe m ops :
  map_ok m → (4096 | mapping_len m) → 4096 ≤ mapping_len m ≤ 2 ^ 32 → Forall heap_op_ok ops →
  if existsb tiny ops then run ops (snd (new_heap m)) ∅ = Panic
  else ∃ h held A, run ops (snd (new_heap m)) ∅ = Ok (h, held) ∧ heap_inv h A ∧
    (∀ i k, held !! i = Some k → 0 ≤ i ∧ 16 * (i + 2 ^ k) ≤ current_size_bytes h) ∧
    (∀ i k j k', held !! i = Some k → held !! j = Some k' → i ≠ j →
       i + 2 ^ k ≤ j ∨ j + 2 ^ k' ≤ i) ∧
    (held = ∅ → ∀ i k t, A !! i = Some (k, t) → k = 7 ∧ t = Free).
Proof.
  intros Hm Hd Hl Hops. destruct (new_heap_inv m Hm Hd Hl) as (h0 & E0 & HI0 & _). rewrite E0.
  assert (holds (<[0 := (7, Free)]> (<[128 := (7, Free)]> ∅)) ∅) as Hh0.
  { intros i k. rewrite lookup_empty. split; [done|].
    intros (t & Ht & [[_ ?]|[_ [[_ ?]|[_ ?]]%lookup_insert_Some]]%lookup_insert_Some);
      simplify_map_eq. }
  pose proof (run_inv ops h0 _ ∅ Hops HI0 Hh0) as Hrun. destruct (existsb tiny ops); [done|].
  destruct Hrun as (h & A & held & Hrun & HI & Hh). exists h, held, A. split; [done|]. split; [done|]. pose proof HI as (_&_&F&HR).
  split; [|split].
  - intros i k (t & _ & Hi)%Hh. pose proof (rep_block_range _ _ _ _ HR _ _ _ Hi).
    rewrite (rep_size _ _ _ _ HR). lia.
  - intros i k j k' (t & _ & Hi)%Hh (t' & _ & Hj)%Hh Hne.
    by eapply tiled_disjoint; [apply HR|..].
  - intros ->. assert (∀ j k t, A !! j = Some (k, t) → t = Free) as Hfree.
    { intros j k t Hj. destruct (decide (t = Free)) as [|Ht]; [done|].
      assert ((∅ : gmap Z Z) !! j = Some k) by (apply Hh; eauto). done. }
    intros i k t Hi. split; [by eapply all_free_order7|by eapply Hfree].
Qed.
End theorems.

Lemma page_ok : map_ok page ∧ (4096 | mapping_len page) ∧ 4096 ≤ mapping_len page ≤ 2 ^ 32.
Proof. split; [split; [apply bytes_ok_zeros|done]|]. split; [by exists 1|done]. Qed.

(** A block of order 3 allocated on the page. *)
Lemma page_alloc : ∃ A' k, heap_inv (snd (allocate_block 100 page_heap)) A' ∧
  A' !! 0 = Some (k, Reserved).
Proof.
  destruct (allocate_block_spec page_heap page_blocks 100 page_inv ltac:(lia))
    as (k & _ & Hmin & [[[_ Hex] _]|(_ & i & h' & A' & Ha & HI & Hi & _)]).
  - specialize (Hmin 7). specialize (Hex 0 7 eq_refl). change (order_to_size 7) with 2048 in Hmin. lia.
  - assert (fst (allocate_block 100 page_heap) = Ok 0) as H0 by (vm_compute; reflexivity).
    rewrite Ha in H0 |- *. cbn [fst snd] in H0 |- *. injection H0 as ->.
    exists A', k. split; assumption.
Qed.

Lemma allocate_block_correct_witness :
  ∃ k i h' A', allocate_block 100 page_heap = (Ok i, h') ∧
    allocated page_heap page_blocks k i h' A'.
Proof.
  destruct (allocate_block_correct page_heap page_blocks 100 page_inv ltac:(lia))
    as (k & _ & Hmin & [[[_ Hex] _]|(_ & i & h' & A' & Ha)]).
  - specialize (Hmin 7). specialize (Hex 0 7 eq_refl). change (order_to_size 7) with 2048 in Hmin. lia.
  - exists k, i, h', A'. exact Ha.
Defined.

Lemma free_block_correct_witness :
  ∃ h' A', free_block 0 (snd (allocate_block 100 page_heap)) = (Ok tt, h') ∧ heap_inv h' A'.
Proof.
  destruct page_alloc as (A & k & HI & Hb).
  pose proof (free_block_correct _ A 0 k Reserved HI Hb) as Hf.
  destruct (decide (Reserved = Free)) as [He|_]; [discriminate He|].
  destruct Hf as (h' & A' & E & HI' & _). exists h', A'. split; [exact E|exact HI'].
Defined.

Lemma new_heap_correct_witness :
  ∃ h, new_heap page = (Ok tt, h) ∧ current_size_bytes h = 4096.
Proof.
  destruct page_ok as (H1 & H2 & H3).
  destruct (new_heap_correct page H1 H2 H3) as (h & E & _ & Hs & _).
  exists h. split; [exact E|exact Hs].
Defined.

Lemma client_run_safe_witness :
  ∃ h held, run [Allocate 100; Allocate 16; Release 0; Allocate 2000; Release 8]
              (snd (new_heap page)) ∅ = Ok (h, held).
Proof.
  destruct page_ok as (H1 & H2 & H3).
  destruct (client_run_safe page [Allocate 100; Allocate 16; Release 0; Allocate 2000; Release 8]
              H1 H2 H3) as (h & held & A & E & _).
  - repeat constructor; simpl; lia.
  - exists h, held. exact E.
Defined.
