(* ===== verification/InspectOps.v ===== *)
(** What the value operations of a block do to the words of a mapping: the
    functional behaviour the state and the reader rely on. *)

From S2P Require Import Prelude SharedBuffer InspectFormat InspectBlock InspectHeap HeapInvariant HeapCorrect.

(** Headers of the kinds of blocks. *)
Section headers.
Context {B : Bitfield} {BS : BitfieldSpec B}.
Implicit Types (h : Z) (t : BlockType).

Definition value_header h t name parent : Z :=
  set_hdr_value_parent_index (set_hdr_value_name_index (set_hdr_block_type h (to_u8 t)) name) parent.
Definition name_header h len : Z :=
  set_hdr_name_length (set_hdr_block_type h (to_u8 Name)) len.
Definition extent_header h next : Z :=
  set_hdr_extent_next_index (set_hdr_block_type h (to_u8 Extent)) next.

(** The first word of the header block. *)
Definition header_word : Z :=
  set_hdr_header_version (set_hdr_header_magic
    (set_hdr_block_type (set_hdr_order 0 0) (to_u8 Header)) HEADER_MAGIC_NUMBER)
    HEADER_VERSION_NUMBER.

Ltac in_field := repeat (first [apply set_bit_range_ok | done | lia]).
Ltac other := rewrite get_set_other by (in_field; lia).
Ltac same := rewrite get_set_same by in_field; rewrite Z.mod_small by (simpl; lia).

Lemma to_u8_small t : 0 ≤ to_u8 t < 16.
Proof. by destruct t. Qed.

Lemma value_header_fields h t n p :
  u64_ok h → 0 ≤ n < 2 ^ 28 → 0 ≤ p < 2 ^ 28 →
  let v := value_header h t n p in
  u64_ok v ∧ hdr_order v = hdr_order h ∧ from_u8 (hdr_block_type v) = Some t ∧
  hdr_value_name_index v = n ∧ hdr_value_parent_index v = p.
Proof.
  intros Hh Hn Hp. pose proof (to_u8_small t). cbv zeta.
  unfold value_header, hdr_order, hdr_block_type, hdr_value_name_index, hdr_value_parent_index,
    set_hdr_value_parent_index, set_hdr_value_name_index, set_hdr_block_type.
  split; [in_field|]. split; [by do 3 other|]. split; [do 2 other; same; apply from_to_u8|].
  split; [other; by same|by same].
Qed.

Lemma header_word_fields :
  u64_ok header_word ∧ hdr_order header_word = 0 ∧
  from_u8 (hdr_block_type header_word) = Some Header ∧
  hdr_header_magic header_word = HEADER_MAGIC_NUMBER ∧
  hdr_header_version header_word = HEADER_VERSION_NUMBER.
Proof.
  assert (0 ≤ HEADER_MAGIC_NUMBER < 2 ^ 32) by done. assert (0 ≤ HEADER_VERSION_NUMBER < 2 ^ 24) by done.
  pose proof (to_u8_small Header). pose proof u64_ok_0.
  unfold header_word, hdr_order, hdr_block_type, hdr_header_magic, hdr_header_version,
    set_hdr_header_version, set_hdr_header_magic, set_hdr_block_type, set_hdr_order.
  split; [in_field|]. split; [do 3 other; by same|]. split; [do 2 other; by same|].
  split; [other; by same|by same].
Qed.

Lemma name_header_fields h n :
  u64_ok h → 0 ≤ n < 2 ^ 12 →
  let v := name_header h n in
  u64_ok v ∧ hdr_order v = hdr_order h ∧ from_u8 (hdr_block_type v) = Some Name ∧
  hdr_name_length v = n.
Proof.
  intros Hh Hn. cbv zeta. unfold name_header, hdr_order, hdr_block_type, hdr_name_length,
    set_hdr_name_length, set_hdr_block_type.
  split; [in_field|]. split; [by do 2 other|]. split; [other; same; apply from_to_u8|by same].
Qed.

Lemma extent_header_fields h n :
  u64_ok h → 0 ≤ n < 2 ^ 28 →
  let v := extent_header h n in
  u64_ok v ∧ hdr_order v = hdr_order h ∧ from_u8 (hdr_block_type v) = Some Extent ∧
  hdr_extent_next_index v = n.
Proof.
  intros Hh Hn. cbv zeta. unfold extent_header, hdr_order, hdr_block_type, hdr_extent_next_index,
    set_hdr_extent_next_index, set_hdr_block_type.
  split; [in_field|]. split; [by do 2 other|]. split; [other; same; apply from_to_u8|by same].
Qed.

Lemma set_extent_next_fields h n :
  u64_ok h → 0 ≤ n < 2 ^ 28 →
  let v := set_hdr_extent_next_index h n in
  u64_ok v ∧ hdr_order v = hdr_order h ∧ hdr_block_type v = hdr_block_type h ∧
  hdr_extent_next_index v = n.
Proof.
  intros Hh Hn. cbv zeta. unfold hdr_order, hdr_block_type, hdr_extent_next_index,
    set_hdr_extent_next_index.
  split; [in_field|]. split; [by other|]. split; [by other|by same].
Qed.

Lemma set_type_fields h t :
  u64_ok h → let v := set_hdr_block_type h (to_u8 t) in
  u64_ok v ∧ hdr_order v = hdr_order h ∧ from_u8 (hdr_block_type v) = Some t ∧
  hdr_value_name_index v = hdr_value_name_index h ∧
  hdr_value_parent_index v = hdr_value_parent_index h.
Proof.
  intros Hh. pose proof (to_u8_small t). cbv zeta. unfold hdr_order, hdr_block_type,
    hdr_value_name_index, hdr_value_parent_index, set_hdr_block_type.
  split; [in_field|]. split; [by other|]. split; [same; apply from_to_u8|].
  split; by other.
Qed.

(** Payloads. *)
Definition property_payload (p total extent : Z) : Z :=
  set_pl_property_extent_index (set_pl_property_total_length p total) extent.
Definition array_payload (slots : Z) (format : ArrayFormat) (entry : BlockType) : Z :=
  set_pl_array_slots_count (set_pl_array_flags
    (set_pl_array_entry_type 0 (to_u8 entry)) (ArrayFormat_to_u8 format)) slots.

Lemma property_payload_fields p total extent :
  u64_ok p → 0 ≤ total < 2 ^ 32 → 0 ≤ extent < 2 ^ 28 →
  let v := property_payload p total extent in
  u64_ok v ∧ pl_property_total_length v = total ∧ pl_property_extent_index v = extent ∧
  pl_property_flags v = pl_property_flags p.
Proof.
  intros Hp Ht He. cbv zeta. unfold property_payload, pl_property_total_length,
    pl_property_extent_index, pl_property_flags, set_pl_property_extent_index,
    set_pl_property_total_length.
  split; [in_field|]. split; [other; by same|]. split; [by same|by do 2 other].
Qed.

Lemma new_property_fields f :
  let v := set_pl_property_flags 0 (PropertyFormat_to_u8 f) in
  u64_ok v ∧ pl_property_total_length v = 0 ∧ pl_property_extent_index v = 0 ∧
  pl_property_flags v = PropertyFormat_to_u8 f.
Proof.
  assert (0 ≤ PropertyFormat_to_u8 f < 16) by (by destruct f). pose proof u64_ok_0 as H0.
  cbv zeta. unfold pl_property_total_length, pl_property_extent_index, pl_property_flags,
    set_pl_property_flags.
  split; [in_field|]. split; [|split; [|by same]]; other;
    (apply Z.bits_inj'; intros i Hi; rewrite bit_range_spec by (done || lia);
     by rewrite !Z.bits_0, andb_false_r).
Qed.

Lemma array_payload_fields slots f t :
  0 ≤ slots < 256 → let v := array_payload slots f t in
  u64_ok v ∧ pl_array_slots_count v = slots ∧ pl_array_flags v = ArrayFormat_to_u8 f ∧
  pl_array_entry_type v = to_u8 t.
Proof.
  intros Hs. assert (0 ≤ ArrayFormat_to_u8 f < 16) by (by destruct f).
  pose proof u64_ok_0 as H0. pose proof (to_u8_small t).
  cbv zeta. unfold array_payload, pl_array_slots_count, pl_array_flags, pl_array_entry_type,
    set_pl_array_slots_count, set_pl_array_flags, set_pl_array_entry_type.
  split; [in_field|]. split; [by same|]. split; [other; by same|do 2 other; by same].
Qed.
End headers.

(** * The operations *)
Section ops.
Context {B : Bitfield} {BS : BitfieldSpec B}.
Implicit Types (m : Mapping) (i : Z) (t : BlockType).

(** Reads of a well-formed slot succeed; the tactic runs them. *)
Ltac rd_step := first
  [ rewrite (bind_rd_ok _ _ _ _ tt) by (by apply check_type_ok)
  | rewrite (bind_rd_ok _ _ _ _ (hdr _ _)) by (by apply read_header_ok)
  | rewrite (bind_rd_ok _ _ _ _ (pay _ _)) by (by apply read_payload_ok)
  | rewrite (bind_rd_ok _ _ _ _ (bord _ _)) by (by apply order_ok) ].

Lemma write_value_header_ok m i t n p :
  map_ok m → in_slots m i → btype m i = Some Reserved → is_any_value t = true →
  0 ≤ n < 2 ^ 28 → 0 ≤ p < 2 ^ 28 →
  write_value_header i t n p m = (Ok tt, put_hdr m i (value_header (hdr m i) t n p)).
Proof.
  intros Hm Hi Ht Hv Hn Hp. unfold write_value_header. rewrite Hv. cbn [negb].
  repeat rd_step. apply write_header_ok; [done..|].
  by apply value_header_fields; [apply hdr_ok|..].
Qed.

(** A value block after its header and payload were written. *)
Definition put_value m i t n p v : Mapping :=
  put_pay (put_hdr m i (value_header (hdr m i) t n p)) i v.

Lemma put_value_facts m i k t n p v :
  map_ok m → in_slots m i → 0 ≤ k → bord m i = k → 0 ≤ n < 2 ^ 28 → 0 ≤ p < 2 ^ 28 → u64_ok v →
  let m' := put_value m i t n p v in
  outside m m' i k ∧ bord m' i = k ∧ btype m' i = Some t ∧ pay m' i = v ∧
  hdr_value_name_index (hdr m' i) = n ∧ hdr_value_parent_index (hdr m' i) = p.
Proof.
  intros Hm Hi Hk Ho Hn Hp Hv m'. pose proof Hi as [Hi0 _].
  destruct (value_header_fields (hdr m i) t n p) as (H1&H2&H3&H4&H5); [by apply hdr_ok|done..|].
  assert (in_slots (put_hdr m i (value_header (hdr m i) t n p)) i) as Hi'
    by (by apply in_slots_put_hdr).
  assert (map_ok (put_hdr m i (value_header (hdr m i) t n p))) as Hm' by (by apply put_hdr_ok).
  assert (hdr m' i = value_header (hdr m i) t n p) as Hh.
  { unfold m', put_value. rewrite hdr_put_pay by done. by rewrite hdr_put_hdr, decide_True. }
  split; [|split; [|split; [|split]]].
  - eapply outside_trans; [by apply outside_put_hdr|by apply outside_put_pay].
  - unfold bord. rewrite Hh, H2. done.
  - unfold btype. by rewrite Hh.
  - unfold m', put_value. by rewrite pay_put_pay, decide_True.
  - by rewrite Hh.
Qed.

Lemma put_value_run m i t n p v (f : M Error Mapping unit) :
  map_ok m → in_slots m i → btype m i = Some Reserved → is_any_value t = true →
  0 ≤ n < 2 ^ 28 → 0 ≤ p < 2 ^ 28 →
  (∀ m1, map_ok m1 → in_slots m1 i → btype m1 i = Some t → f m1 = (Ok tt, put_pay m1 i v)) →
  (write_value_header i t n p ;;; f) m = (Ok tt, put_value m i t n p v).
Proof.
  intros Hm Hi Ht Hv Hn Hp Hf. pose proof Hi as [Hi0 _].
  erewrite bind_ok by (by apply write_value_header_ok). apply Hf.
  - by apply put_hdr_ok.
  - by apply in_slots_put_hdr.
  - destruct (value_header_fields (hdr m i) t n p) as (?&_&H3&_); [by apply hdr_ok|done..|].
    unfold btype. by rewrite hdr_put_hdr, decide_True.
Qed.

Lemma set_numeric_ok m i v :
  map_ok m → in_slots m i → u64_ok v →
  (payload <- rd read_payload i ;; write_payload i (set_pl_numeric_value payload v)) m
  = (Ok tt, put_pay m i v).
Proof.
  intros Hm Hi Hv. rd_step. unfold set_pl_numeric_value.
  rewrite set_bit_range_all by (done || by apply pay_ok). by apply write_payload_ok.
Qed.

Lemma set_int_value_ok m i v :
  map_ok m → in_slots m i → btype m i = Some IntValue →
  set_int_value i v m = (Ok tt, put_pay m i (to_unsigned 64 v)).
Proof.
  intros. unfold set_int_value. rd_step. apply set_numeric_ok; [done..|].
  unfold u64_ok, to_unsigned. by apply Z.mod_pos_bound.
Qed.
Lemma set_uint_value_ok m i v :
  map_ok m → in_slots m i → btype m i = Some UintValue → u64_ok v →
  set_uint_value i v m = (Ok tt, put_pay m i v).
Proof. intros. unfold set_uint_value. rd_step. by apply set_numeric_ok. Qed.
Lemma set_double_value_ok m i v :
  map_ok m → in_slots m i → btype m i = Some DoubleValue → u64_ok v →
  set_double_value i v m = (Ok tt, put_pay m i v).
Proof. intros. unfold set_double_value. rd_step. by apply set_numeric_ok. Qed.

Section become.
Context (m : Mapping) (i n p : Z).
Context (Hm : map_ok m) (Hi : in_slots m i) (Ht : btype m i = Some Reserved).
Context (Hn : 0 ≤ n < 2 ^ 28) (Hp : 0 ≤ p < 2 ^ 28).

Lemma become_int_value_ok v :
  become_int_value i v n p m = (Ok tt, put_value m i IntValue n p (to_unsigned 64 v)).
Proof. apply put_value_run; try done. intros. by apply set_int_value_ok. Qed.
Lemma become_uint_value_ok v :
  u64_ok v → become_uint_value i v n p m = (Ok tt, put_value m i UintValue n p v).
Proof. intros. apply put_value_run; try done. intros. by apply set_uint_value_ok. Qed.
Lemma become_double_value_ok v :
  u64_ok v → become_double_value i v n p m = (Ok tt, put_value m i DoubleValue n p v).
Proof. intros. apply put_value_run; try done. intros. by apply set_double_value_ok. Qed.
Lemma become_node_ok : become_node i n p m = (Ok tt, put_value m i NodeValue n p 0).
Proof.
  apply put_value_run; try done. intros. apply write_payload_ok; [done..|apply u64_ok_0].
Qed.
Lemma become_property_ok f :
  become_property i n p f m
  = (Ok tt, put_value m i PropertyValue n p (set_pl_property_flags 0 (PropertyFormat_to_u8 f))).
Proof.
  apply put_value_run; try done. intros. apply write_payload_ok; [done..|].
  apply new_property_fields.
Qed.
Lemma become_array_value_ok slots f t :
  is_numeric_value t = true → 0 ≤ slots < 256 →
  become_array_value i slots f t n p m
  = (Ok tt, put_value m i ArrayValue n p (array_payload slots f t)).
Proof.
  intros Htn Hs. unfold become_array_value. rewrite Htn. cbn [negb].
  apply put_value_run; try done. intros. apply write_payload_ok; [done..|].
  by apply array_payload_fields.
Qed.
End become.

Lemma check_node_ok m i t :
  map_ok m → in_slots m i → btype m i = Some t → is_node_or_tombstone t = true →
  check_node_or_tombstone m i = Ok tt.
Proof.
  intros ??? Ht. unfold check_node_or_tombstone. erewrite block_type_ok by done. simpl.
  by rewrite Ht.
Qed.
Lemma child_count_ok m i t :
  map_ok m → in_slots m i → btype m i = Some t → is_node_or_tombstone t = true →
  child_count m i = Ok (pay m i).
Proof.
  intros. unfold child_count. erewrite check_node_ok by done. simpl.
  rewrite read_payload_ok by done. simpl. unfold pl_numeric_value.
  by rewrite bit_range_all by (by apply pay_ok).
Qed.
Lemma set_child_count_ok m i t c :
  map_ok m → in_slots m i → btype m i = Some t → is_node_or_tombstone t = true → u64_ok c →
  set_child_count i c m = (Ok tt, put_pay m i c).
Proof.
  intros. unfold set_child_count.
  rewrite (bind_rd_ok _ _ _ _ tt) by (by eapply check_node_ok). by apply write_payload_ok.
Qed.

Lemma check_any_value_ok m i t :
  map_ok m → in_slots m i → btype m i = Some t → is_any_value t = true →
  check_any_value m i = Ok tt.
Proof.
  intros ??? Ht. unfold check_any_value. erewrite block_type_ok by done. simpl. by rewrite Ht.
Qed.
Lemma name_index_ok m i t :
  map_ok m → in_slots m i → btype m i = Some t → is_any_value t = true →
  name_index m i = Ok (hdr_value_name_index (hdr m i)).
Proof.
  intros. unfold name_index. erewrite check_any_value_ok by done. simpl.
  by rewrite read_header_ok.
Qed.
Lemma parent_index_ok m i t :
  map_ok m → in_slots m i → btype m i = Some t → is_any_value t = true →
  parent_index m i = Ok (hdr_value_parent_index (hdr m i)).
Proof.
  intros. unfold parent_index. erewrite check_any_value_ok by done. simpl.
  by rewrite read_header_ok.
Qed.

Lemma become_tombstone_ok m i :
  map_ok m → in_slots m i → btype m i = Some NodeValue →
  become_tombstone i m
  = (Ok tt, put_hdr m i (set_hdr_block_type (hdr m i) (to_u8 Tombstone))).
Proof.
  intros Hm Hi Ht. unfold become_tombstone. repeat rd_step. apply write_header_ok; [done..|].
  apply set_type_fields. by apply hdr_ok.
Qed.

(** Names, extents and the other operations with a payload of bytes. *)
Lemma payload_size_eq k : 0 ≤ k → payload_size_for_order k = 16 * 2 ^ k - 8.
Proof. intros. unfold payload_size_for_order. by rewrite order_to_size_eq. Qed.

Definition clip (k : Z) (bs : list Z) : list Z := take (Z.to_nat (16 * 2 ^ k - 8)) bs.

Lemma clip_if k (bs : list Z) :
  0 ≤ k →
  (if payload_size_for_order k <? zlen bs
   then take (Z.to_nat (Z.min (zlen bs) (payload_size_for_order k))) bs else bs) = clip k bs.
Proof.
  intros Hk. rewrite payload_size_eq by done. unfold clip. case_match; to_props.
  - by rewrite Z.min_r by lia.
  - symmetry. apply take_ge. unfold zlen in *. lia.
Qed.
Lemma zlen_clip k (bs : list Z) :
  0 ≤ k → zlen (clip k bs) = Z.min (zlen bs) (16 * 2 ^ k - 8).
Proof. intros. unfold zlen, clip. rewrite length_take. pose proof (pow2_pos k). lia. Qed.
Lemma bytes_ok_clip k bs : bytes_ok bs → bytes_ok (clip k bs).
Proof. apply Forall_take. Qed.

Lemma put_payload_facts m i k h bs :
  map_ok m → in_slots m i → 0 ≤ k → 16 * i + 16 * 2 ^ k ≤ zlen (mapping_bytes m) →
  u64_ok h → bytes_ok bs → zlen bs ≤ 16 * 2 ^ k - 8 →
  let m' := put_bytes (put_hdr m i h) (16 * i + 8) bs in
  outside m m' i k ∧ hdr m' i = h ∧ slice (16 * i + 8) (zlen bs) (mapping_bytes m') = bs.
Proof.
  intros Hm Hi Hk Hfit Hh Hbs Hl m'. pose proof Hi as [Hi0 _]. pose proof (zlen_nonneg bs).
  assert (map_ok (put_hdr m i h)) by (by apply put_hdr_ok).
  assert (zlen (mapping_bytes (put_hdr m i h)) = zlen (mapping_bytes m)) as Hlen
    by (by apply put_hdr_len).
  split; [|split].
  - eapply outside_trans; [by apply outside_put_hdr|]. apply outside_put_bytes; done || lia.
  - transitivity (hdr (put_hdr m i h) i); [|by rewrite hdr_put_hdr, decide_True].
    unfold hdr, m'. by rewrite word_put_disjoint by lia.
  - apply slice_splice_same; [lia|]. rewrite Hlen. lia.
Qed.

Lemma write_payload_from_bytes_ok m i bs :
  map_ok m → 0 ≤ i → 16 * i + 8 + zlen bs ≤ zlen (mapping_bytes m) →
  write_payload_from_bytes i bs m = (Ok tt, put_bytes m (16 * i + 8) bs).
Proof.
  intros. unfold write_payload_from_bytes, payload_offset. rewrite offset_for_index_eq.
  change HEADER_SIZE_BYTES with 8. apply write_bytes_unit; [done|lia|lia].
Qed.

Lemma become_name_ok m i k name :
  map_ok m → in_slots m i → btype m i = Some Reserved → bord m i = k → 0 ≤ k < 8 →
  16 * i + 16 * 2 ^ k ≤ zlen (mapping_bytes m) →
  become_name i name m
  = (Ok tt, put_bytes (put_hdr m i (name_header (hdr m i) (zlen (clip k name))))
              (16 * i + 8) (clip k name)).
Proof.
  intros Hm Hi Ht Ho Hk Hfit. unfold become_name. do 2 rd_step. rewrite Ho.
  cbv zeta. rewrite clip_if by lia. rd_step.
  pose proof (zlen_clip k name ltac:(lia)) as Hc. pose proof (zlen_nonneg name).
  pose proof (pow2_pos k ltac:(lia)). pose proof (Z.pow_le_mono_r 2 k 7 ltac:(lia) ltac:(lia)).
  change (2 ^ 7) with 128 in *. by_ltb.
  rewrite (bind_lift _ _ _ (zlen (clip k name))) by done.
  destruct (name_header_fields (hdr m i) (zlen (clip k name))) as (Hh&_); [by apply hdr_ok|lia|].
  erewrite bind_ok by (by apply write_header_ok). apply write_payload_from_bytes_ok.
  - by apply put_hdr_ok.
  - apply Hi.
  - rewrite put_hdr_len by done. lia.
Qed.

Lemma become_extent_ok m i n :
  map_ok m → in_slots m i → btype m i = Some Reserved → 0 ≤ n < 2 ^ 28 →
  become_extent i n m = (Ok tt, put_hdr m i (extent_header (hdr m i) n)).
Proof.
  intros Hm Hi Ht Hn. unfold become_extent. repeat rd_step. apply write_header_ok; [done..|].
  by apply extent_header_fields; [apply hdr_ok|].
Qed.
Lemma set_extent_next_index_ok m i n :
  map_ok m → in_slots m i → btype m i = Some Extent → 0 ≤ n < 2 ^ 28 →
  set_extent_next_index i n m = (Ok tt, put_hdr m i (set_hdr_extent_next_index (hdr m i) n)).
Proof.
  intros Hm Hi Ht Hn. unfold set_extent_next_index. repeat rd_step.
  apply write_header_ok; [done..|]. by apply set_extent_next_fields; [apply hdr_ok|].
Qed.
Lemma next_extent_ok m i :
  map_ok m → in_slots m i → btype m i = Some Extent →
  next_extent m i = Ok (hdr_extent_next_index (hdr m i)).
Proof.
  intros. unfold next_extent. rewrite check_type_ok by done. simpl. by rewrite read_header_ok.
Qed.
Lemma extent_set_contents_ok m i k v :
  map_ok m → in_slots m i → btype m i = Some Extent → bord m i = k → 0 ≤ k →
  16 * i + 16 * 2 ^ k ≤ zlen (mapping_bytes m) →
  extent_set_contents i v m = (Ok (zlen (clip k v)), put_bytes m (16 * i + 8) (clip k v)).
Proof.
  intros Hm Hi Ht Ho Hk Hfit. unfold extent_set_contents. do 2 rd_step. rewrite Ho. cbv zeta.
  rewrite clip_if by lia. pose proof (zlen_clip k v Hk).
  erewrite bind_ok by (apply write_payload_from_bytes_ok; [done|apply Hi|lia]). done.
Qed.

Lemma property_extent_index_ok m i :
  map_ok m → in_slots m i → btype m i = Some PropertyValue →
  property_extent_index m i = Ok (pl_property_extent_index (pay m i)).
Proof.
  intros. unfold property_extent_index. rewrite check_type_ok by done. simpl.
  by rewrite read_payload_ok.
Qed.
(** The two setters of a property, one after the other. *)
Lemma set_property_ok m i total extent :
  map_ok m → in_slots m i → btype m i = Some PropertyValue →
  0 ≤ total < 2 ^ 32 → 0 ≤ extent < 2 ^ 28 →
  set_property_total_length i total m
  = (Ok tt, put_pay m i (set_pl_property_total_length (pay m i) total)) ∧
  set_property_extent_index i extent (put_pay m i (set_pl_property_total_length (pay m i) total))
  = (Ok tt, put_pay (put_pay m i (set_pl_property_total_length (pay m i) total)) i
              (property_payload (pay m i) total extent)).
Proof.
  intros Hm Hi Ht Hl He. pose proof Hi as [Hi0 _]. pose proof (pay_ok m i Hm Hi) as Hp.
  assert (u64_ok (set_pl_property_total_length (pay m i) total)) as Hu
    by (apply set_bit_range_ok; [done|lia..]).
  set (m1 := put_pay _ _ _). assert (map_ok m1) by (by apply put_pay_ok).
  assert (in_slots m1 i) by (by apply in_slots_put_pay).
  split.
  - unfold set_property_total_length. repeat rd_step. by apply write_payload_ok.
  - unfold set_property_extent_index.
    assert (btype m1 i = Some PropertyValue) by (unfold btype, m1; by rewrite hdr_put_pay).
    repeat rd_step. unfold m1. rewrite pay_put_pay, decide_True by done.
    apply write_payload_ok; [done..|]. by apply property_payload_fields.
Qed.

(** Arrays. *)
Lemma array_entry_type_ok m i t :
  map_ok m → in_slots m i → btype m i = Some ArrayValue →
  from_u8 (pl_array_entry_type (pay m i)) = Some t → array_entry_type m i = Ok t.
Proof.
  intros ??? He. unfold array_entry_type. rewrite check_type_ok by done. simpl.
  rewrite read_payload_ok by done. simpl. by rewrite He.
Qed.
Lemma array_capacity_eq k : 0 ≤ k → array_capacity k = 2 * 2 ^ k - 2.
Proof.
  intros. unfold array_capacity. rewrite order_to_size_eq by done.
  change HEADER_SIZE_BYTES with 8. change ARRAY_PAYLOAD_METADATA_SIZE_BYTES with 8.
  replace (16 * 2 ^ k - 8 - 8) with ((2 * 2 ^ k - 2) * 8) by lia. by rewrite Z.div_mul.
Qed.

(** [slot_index > capacity] is refused; the slot right after the last one is not. *)
Lemma array_set_slot_ok m i k t slot bits :
  map_ok m → in_slots m i → btype m i = Some ArrayValue → bord m i = k → 0 ≤ k →
  from_u8 (pl_array_entry_type (pay m i)) = Some t → i < 2 ^ 28 → 0 ≤ slot →
  2 * 2 ^ k - 2 < slot ∨ 16 * i + 16 + 8 * slot + 8 ≤ zlen (mapping_bytes m) →
  array_set_slot t i slot bits m =
  if 2 * 2 ^ k - 2 <? slot then (Err (IndexOutOfBounds slot), m)
  else (Ok tt, put_bytes m (16 * i + 16 + 8 * slot) (to_le_bytes 8 bits)).
Proof.
  intros Hm Hi Ht Ho Hk He Hi28 Hs Hfit. unfold array_set_slot.
  rewrite (bind_rd_ok _ _ _ _ tt).
  2: { unfold check_array_entry_type. erewrite array_entry_type_ok by done. simpl.
       by rewrite decide_True. }
  rd_step. rewrite Ho, array_capacity_eq by done. case_match; to_props; [done|].
  destruct Hfit as [?|Hfit]; [lia|].
  pose proof Hi as [Hi0 _]. unfold slot_offset. rewrite uadd_ok by lia. simpl rbind.
  rewrite (bind_lift _ _ _ (16 * i + 16 + 8 * slot)) by (rewrite offset_for_index_eq; apply f_equal; lia).
  apply write_bytes_unit; rewrite ?zlen_word; [done|lia|lia].
Qed.
Lemma array_get_slot_ok m i k t slot :
  map_ok m → in_slots m i → btype m i = Some ArrayValue → bord m i = k → 0 ≤ k →
  from_u8 (pl_array_entry_type (pay m i)) = Some t → i < 2 ^ 28 → 0 ≤ slot →
  2 * 2 ^ k - 2 < slot ∨ 16 * i + 16 + 8 * slot + 8 ≤ zlen (mapping_bytes m) →
  array_get_slot t m i slot =
  if 2 * 2 ^ k - 2 <? slot then Err (IndexOutOfBounds slot)
  else Ok (from_le_bytes (slice (16 * i + 16 + 8 * slot) 8 (mapping_bytes m))).
Proof.
  intros Hm Hi Ht Ho Hk He Hi28 Hs Hfit. unfold array_get_slot, check_array_entry_type.
  erewrite array_entry_type_ok by done. simpl. rewrite decide_True by done. simpl.
  rewrite order_ok by done. simpl. rewrite Ho, array_capacity_eq by done. case_match; to_props; [done|].
  destruct Hfit as [?|Hfit]; [lia|].
  pose proof Hi as [Hi0 _]. unfold slot_offset. rewrite uadd_ok by lia. simpl.
  rewrite offset_for_index_eq, read_bytes_ok by (done || (rewrite ?zlen_zeros by lia; lia)).
  simpl. by replace (16 * (i + 1) + slot * 8) with (16 * i + 16 + 8 * slot) by lia.
Qed.

(** * The header block's lock *)
Definition next_generation (g : Z) : Z := if g =? 2 ^ 64 - 1 then 0 else g + 1.

Lemma increment_ok m i :
  map_ok m → in_slots m i →
  increment_generation_count i m = (Ok tt, put_pay m i (next_generation (pay m i))).
Proof.
  intros Hm Hi. unfold increment_generation_count. rd_step. cbv zeta.
  pose proof (pay_ok m i Hm Hi) as Hp.
  unfold pl_header_generation_count, set_pl_header_generation_count.
  rewrite bit_range_all by done. fold (next_generation (pay m i)).
  assert (u64_ok (next_generation (pay m i))).
  { unfold next_generation, u64_ok in *. case_match; to_props; lia. }
  rewrite set_bit_range_all by done. by apply write_payload_ok.
Qed.

Lemma check_locked_ok m i b :
  map_ok m → in_slots m i →
  check_locked m i b = if eqb (Z.odd (pay m i)) b then Ok tt else Err (ExpectedLocked b).
Proof.
  intros Hm Hi. unfold check_locked. rewrite read_payload_ok by done. simpl.
  unfold pl_header_generation_count. rewrite bit_range_all by (by apply pay_ok).
  assert ((Z.land (pay m i) 1 =? 1) = Z.odd (pay m i)) as ->; [|done].
  change 1 with (Z.ones 1) at 1. rewrite Z.land_ones by lia. change (2 ^ 1) with 2.
  rewrite Zmod_odd. by destruct (Z.odd (pay m i)).
Qed.

Lemma lock_header_ok m i :
  map_ok m → in_slots m i → btype m i = Some Header → Z.even (pay m i) = true →
  lock_header i m = (Ok tt, put_pay m i (next_generation (pay m i))).
Proof.
  intros Hm Hi Ht He. unfold lock_header. rd_step.
  rewrite (bind_rd_ok _ _ _ _ tt); [by apply increment_ok|].
  rewrite check_locked_ok by done. by rewrite <- Z.negb_even, He.
Qed.
Lemma unlock_header_ok m i :
  map_ok m → in_slots m i → btype m i = Some Header → Z.odd (pay m i) = true →
  unlock_header i m = (Ok tt, put_pay m i (next_generation (pay m i))).
Proof.
  intros Hm Hi Ht He. unfold unlock_header. rd_step.
  rewrite (bind_rd_ok _ _ _ _ tt); [by apply increment_ok|].
  rewrite check_locked_ok by done. by rewrite He.
Qed.
End ops.
