(* ===== verification/InspectState.v ===== *)
(** The low-level Inspect API on top of the heap:
    [src/public/rust/fuchsia-inspect/src/state.rs]. *)

From S2P Require Import Prelude SharedBuffer Float64 InspectFormat InspectBlock InspectHeap.

(** [header] is the index of the header block. *)
Record State := { heap : Heap; header : Z }.

Definition on_heap {A : Type} (f : M Error Heap A) : M Error State A := λ s,
  let '(r, h) := f (heap s) in (r, {| heap := h; header := header s |}).

(** Operations on the blocks of the state's heap. *)
Definition on_block {A : Type} (f : M Error Mapping A) : M Error State A :=
  on_heap (on_mapping f).

(** [self.heap.get_block(index)] *)
Definition heap_block {B : Bitfield} (index : Z) : M Error State Z :=
  on_heap (reading (λ h, get_block h index)).

(** [State::create]: [become_header] moves the block to index 0. *)
Definition create {B : Bitfield} (h : Heap) : result Error State * Heap :=
  match (block <- allocate_block 16 ;; on_mapping (become_header block)) h with
  | (Ok block, h') => (Ok {| heap := h'; header := block |}, h')
  | (Err e, h') => (Err e, h')
  | (Panic, h') => (Panic, h')
  | (OutOfFuel, h') => (OutOfFuel, h')
  end.

Section state.
Context {B : Bitfield}.

(** The macro [with_header_lock!]: the closure's outcome is returned after the
    header is unlocked. *)
Definition with_header_lock {A : Type} (code : M Error State A) : M Error State A :=
  (λ s, on_block (lock_header (header s)) s) ;;;
  result <- try code ;;
  (λ s, on_block (unlock_header (header s)) s) ;;;
  match result with
  | inl a => ret a
  | inr e => fail e
  end.

(** The closure given to [and_then] in [allocate_reserved_value]. *)
Definition count_child (parent : Z) : M Error State unit :=
  parent_block <- heap_block parent ;;
  t <- on_block (rd block_type parent_block) ;;
  match t with
  | NodeValue | Tombstone =>
      count <- on_block (unwrap (rd child_count parent_block)) ;;
      count' <- lift (uadd 64 count 1) ;;
      on_block (set_child_count parent_block count')
  | Header => ret tt
  | _ => fail (InvalidBlockType t)
  end.

Definition allocate_reserved_value (name : list Z) (parent block_size : Z)
    : M Error State (Z * Z) :=
  block <- on_heap (allocate_block block_size) ;;
  let max_bytes := MAX_ORDER_SIZE - HEADER_SIZE_BYTES in
  let bytes := if max_bytes <? zlen name then take (Z.to_nat max_bytes) name else name in
  r <- try (on_heap (allocate_block (block_size_for_payload (zlen bytes)))) ;;
  match r with
  | inr err => on_heap (free_block block) ;;; fail err
  | inl name_block =>
      on_block (unwrap (become_name name_block name)) ;;;
      result <- try (count_child parent) ;;
      match result with
      | inl _ => ret (block, name_block)
      | inr e =>
          on_heap (unwrap (free_block name_block)) ;;;
          on_heap (unwrap (free_block block)) ;;;
          fail (InvalidParentIndex parent e)
      end
  end.

(** The first half of [delete_value]: decrement the parent's child count. *)
Definition uncount_child (parent_idx : Z) : M Error State unit :=
  if negb (parent_idx =? HEADER_INDEX) then
    parent <- unwrap (heap_block parent_idx) ;;
    count <- on_block (unwrap (rd child_count parent)) ;;
    count' <- lift (usub count 1) ;;
    t <- on_block (rd block_type parent) ;;
    if bool_decide (t = Tombstone) && (count' =? 0)
    then on_heap (unwrap (free_block parent))
    else on_block (unwrap (set_child_count parent count'))
  else ret tt.

Definition delete_value (block : Z) : M Error State unit :=
  parent_idx <- on_block (rd parent_index block) ;;
  uncount_child parent_idx ;;;
  name_idx <- on_block (rd name_index block) ;;
  name <- unwrap (heap_block name_idx) ;;
  on_heap (unwrap (free_block name)) ;;;
  t <- on_block (rd block_type block) ;;
  has_children <- (if decide (t = NodeValue)
                   then c <- on_block (rd child_count block) ;; ret (negb (c =? 0))
                   else ret false) ;;
  if has_children : bool then on_block (become_tombstone block)
  else on_heap (free_block block).

(** [while index != HEADER_INDEX] of [free_extents].  Each turn frees a block,
    so the slots of the heap bound their number. *)
Fixpoint free_extents_loop (fuel : nat) (index : Z) : M Error State unit :=
  match fuel with
  | O => λ s, (OutOfFuel, s)
  | S fuel =>
      if index =? HEADER_INDEX then ret tt
      else block <- unwrap (heap_block index) ;;
           index <- on_block (rd next_extent block) ;;
           on_heap (free_block block) ;;;
           free_extents_loop fuel index
  end.

Definition free_extents (head_extent_index : Z) : M Error State unit := λ s,
  free_extents_loop (S (Z.to_nat (current_size_bytes (heap s) / MIN_ORDER_SIZE)))
    head_extent_index s.

(** [while offset < total_size] of [write_extents]: each turn writes at least
    one byte, so the length of the value bounds their number. *)
Fixpoint write_extents_loop (fuel : nat) (value : list Z) (extent_block offset : Z)
    : M Error State unit :=
  match fuel with
  | O => λ s, (OutOfFuel, s)
  | S fuel =>
      let total_size := zlen value in
      if offset <? total_size then
        on_block (become_extent extent_block 0) ;;;
        bytes_written <- on_block (extent_set_contents extent_block
                                     (drop (Z.to_nat offset) value)) ;;
        let offset := offset + bytes_written in
        if offset <? total_size then
          block <- on_heap (allocate_block (block_size_for_payload (total_size - offset))) ;;
          on_block (set_extent_next_index extent_block block) ;;;
          write_extents_loop fuel value block offset
        else write_extents_loop fuel value extent_block offset
      else ret tt
  end.

Definition write_extents (value : list Z) : M Error State Z :=
  if zlen value =? 0 then ret HEADER_INDEX
  else extent_block <- on_heap (allocate_block (block_size_for_payload (zlen value))) ;;
       write_extents_loop (S (length value)) value extent_block 0 ;;;
       ret extent_block.

Definition inner_set_property_value (block : Z) (value : list Z) : M Error State unit :=
  head <- on_block (rd property_extent_index block) ;;
  free_extents head ;;;
  extent_index <- write_extents value ;;
  length <- lift (if zlen value <? 2 ^ 32 then Ok (zlen value) else Panic) ;;
  on_block (set_property_total_length block length) ;;;
  on_block (set_property_extent_index block extent_index).

Definition create_node (name : list Z) (parent : Z) : M Error State Z :=
  with_header_lock (
    bn <- allocate_reserved_value name parent MIN_ORDER_SIZE ;;
    on_block (become_node (fst bn) (snd bn) parent) ;;;
    ret (fst bn)).

Definition free_value (index : Z) : M Error State unit :=
  with_header_lock (block <- heap_block index ;; unwrap (delete_value block)).

Definition create_property (name value : list Z) (format : PropertyFormat) (parent : Z)
    : M Error State Z :=
  with_header_lock (
    bn <- allocate_reserved_value name parent MIN_ORDER_SIZE ;;
    on_block (become_property (fst bn) (snd bn) parent format) ;;;
    r <- try (inner_set_property_value (fst bn) value) ;;
    match r with
    | inl _ => ret (fst bn)
    | inr err =>
        on_heap (unwrap (free_block (fst bn))) ;;;
        on_heap (unwrap (free_block (snd bn))) ;;;
        fail err
    end).

Definition free_property (index : Z) : M Error State unit :=
  with_header_lock (
    block <- heap_block index ;;
    head <- on_block (rd property_extent_index block) ;;
    free_extents head ;;;
    delete_value block).

Definition set_property (block_index : Z) (value : list Z) : M Error State unit :=
  with_header_lock (
    block <- heap_block block_index ;; inner_set_property_value block value).
End state.

(** What the macros [metric_fns!] and [array_fns!] paste the name and the type
    of a metric into; values are the numbers of an [i64] or [u64] and the bits
    of an [f64]. *)
Class Metric {B : Bitfield} := {
  become_value : Z → Z → Z → Z → M Error Mapping unit;
  set_value : Z → Z → M Error Mapping unit;
  value_of : Mapping → Z → result Error Z;
  value_add : Z → Z → result Error Z;
  value_sub : Z → Z → result Error Z;
  entry_type : BlockType;
  set_slot : Z → Z → Z → M Error Mapping unit;
  get_slot : Mapping → Z → Z → result Error Z
}.

Section macros.
Context {B : Bitfield} {T : Metric}.

Definition create_metric (name : list Z) (value parent : Z) : M Error State Z :=
  with_header_lock (
    bn <- allocate_reserved_value name parent MIN_ORDER_SIZE ;;
    on_block (become_value (fst bn) value (snd bn) parent) ;;;
    ret (fst bn)).

Definition set_metric (block_index value : Z) : M Error State unit :=
  with_header_lock (block <- heap_block block_index ;; on_block (set_value block value)).

Definition add_metric (block_index value : Z) : M Error State unit :=
  with_header_lock (
    block <- heap_block block_index ;;
    current_value <- on_block (rd value_of block) ;;
    v <- lift (value_add current_value value) ;;
    on_block (set_value block v)).

Definition subtract_metric (block_index value : Z) : M Error State unit :=
  with_header_lock (
    block <- heap_block block_index ;;
    current_value <- on_block (rd value_of block) ;;
    v <- lift (value_sub current_value value) ;;
    on_block (set_value block v)).

Definition get_metric (block_index : Z) : M Error State Z :=
  with_header_lock (block <- heap_block block_index ;; on_block (rd value_of block)).

(** [slots as usize * size_of::<$type>() + MIN_ORDER_SIZE] of a [u8]. *)
Definition create_array (name : list Z) (slots : Z) (format : ArrayFormat) (parent : Z)
    : M Error State Z :=
  let block_size := slots * 8 + MIN_ORDER_SIZE in
  if MAX_ORDER_SIZE <? block_size then fail (CannotAllocate block_size)
  else with_header_lock (
    bn <- allocate_reserved_value name parent block_size ;;
    on_block (become_array_value (fst bn) slots format entry_type (snd bn) parent) ;;;
    ret (fst bn)).

Definition set_array_slot (block_index slot_index value : Z) : M Error State unit :=
  with_header_lock (
    block <- heap_block block_index ;; on_block (set_slot block slot_index value)).

Definition add_array_slot (block_index slot_index value : Z) : M Error State unit :=
  with_header_lock (
    block <- heap_block block_index ;;
    previous_value <- on_block (rd (λ c i, get_slot c i slot_index) block) ;;
    v <- lift (value_add previous_value value) ;;
    on_block (set_slot block slot_index v)).

Definition subtract_array_slot (block_index slot_index value : Z) : M Error State unit :=
  with_header_lock (
    block <- heap_block block_index ;;
    previous_value <- on_block (rd (λ c i, get_slot c i slot_index) block) ;;
    v <- lift (value_sub previous_value value) ;;
    on_block (set_slot block slot_index v)).
End macros.

(** The three expansions of the macros. *)
Section expansions.
Context {B : Bitfield}.

Definition int_metric : Metric := {|
  become_value := become_int_value; set_value := set_int_value; value_of := int_value;
  value_add := iadd 64; value_sub := isub 64; entry_type := IntValue;
  set_slot := array_set_int_slot; get_slot := array_get_int_slot
|}.
Definition uint_metric : Metric := {|
  become_value := become_uint_value; set_value := set_uint_value; value_of := uint_value;
  value_add := uadd 64; value_sub := usub; entry_type := UintValue;
  set_slot := array_set_uint_slot; get_slot := array_get_uint_slot
|}.
Definition double_metric : Metric := {|
  become_value := become_double_value; set_value := set_double_value; value_of := double_value;
  value_add := λ a b, Ok (f64_add a b); value_sub := λ a b, Ok (f64_sub a b);
  entry_type := DoubleValue;
  set_slot := array_set_double_slot; get_slot := array_get_double_slot
|}.
End expansions.

(** The node test of the source: indices and child counts on a one-page VMO. *)
Definition page_state : option State :=
  match new_heap page with
  | (Ok _, h) => match create h with (Ok s, _) => Some s | _ => None end
  | _ => None
  end.
Definition run_state {A : Type} (f : M Error State A) : option (result Error A) :=
  match page_state with Some s => Some (fst (f s)) | None => None end.

Example node_run :
  run_state (a <- create_node [116; 101; 115; 116; 45; 110; 111; 100; 101] 0 ;;
             b <- create_node [99] a ;;
             c <- create_metric (T := int_metric) [109] (-3) a ;;
             add_metric (T := int_metric) c 10 ;;;
             v <- get_metric (T := int_metric) c ;;
             n <- on_block (rd child_count a) ;;
             free_value b ;;;
             n' <- on_block (rd child_count a) ;;
             free_value a ;;;
             t <- on_block (rd block_type a) ;;
             free_value c ;;;
             t' <- on_block (rd block_type a) ;;
             ret (a, b, c, v, n, n', t, t'))
  = Some (Ok (1, 4, 6, 7, 2, 1, Tombstone, Free)).
Proof. vm_compute. reflexivity. Qed.
