(* ===== verification/StateInvariant.v ===== *)
(** The abstract contents of an Inspect VMO, a forest of named values, and how
    the blocks of a [State] represent it. *)

From S2P Require Import Prelude SharedBuffer Float64 InspectFormat InspectBlock InspectHeap HeapInvariant HeapCorrect HeapAllocate InspectOps InspectState.

(** * The forest *)
Inductive kind :=
  | KNode
  | KTomb                       (* freed, but has children *)
  | KDying                      (* a node in the middle of its deletion *)
  | KInt (v : Z)
  | KUint (v : Z)
  | KDouble (v : Z)
  | KProperty (f : PropertyFormat) (value : list Z)
  | KStale                      (* a property whose extents were freed *)
  | KArray (t : BlockType) (f : ArrayFormat) (vals : list Z).

#[export] Instance PropertyFormat_eq_dec : EqDecision PropertyFormat.
Proof. solve_decision. Defined.
#[export] Instance ArrayFormat_eq_dec : EqDecision ArrayFormat.
Proof. solve_decision. Defined.
#[export] Instance kind_eq_dec : EqDecision kind.
Proof. solve_decision. Defined.

Definition kind_type (k : kind) : BlockType :=
  match k with
  | KNode | KDying => NodeValue
  | KTomb => Tombstone
  | KInt _ => IntValue
  | KUint _ => UintValue
  | KDouble _ => DoubleValue
  | KProperty _ _ | KStale => PropertyValue
  | KArray _ _ _ => ArrayValue
  end.

(** Values that can have children; values that are gone for their parent. *)
Definition is_node (k : kind) : bool :=
  match k with KNode | KTomb | KDying => true | _ => false end.
Definition is_gone (k : kind) : bool :=
  match k with KTomb | KDying => true | _ => false end.

(** [o_lost] counts children the node's child count still includes although
    they are gone. *)
Record obj := Obj {
  o_kind : kind;
  o_order : Z;
  o_name : list Z;
  o_name_block : Z;
  o_extents : list Z;
  o_parent : Z;
  o_lost : Z
}.
#[export] Instance obj_eq_dec : EqDecision obj.
Proof. solve_decision. Defined.

Definition with_kind (k : kind) (o : obj) : obj :=
  Obj k (o_order o) (o_name o) (o_name_block o) (o_extents o) (o_parent o) (o_lost o).
Definition with_lost (l : Z) (o : obj) : obj :=
  Obj (o_kind o) (o_order o) (o_name o) (o_name_block o) (o_extents o) (o_parent o) l.
Definition with_extents (k : kind) (l : list Z) (o : obj) : obj :=
  Obj k (o_order o) (o_name o) (o_name_block o) l (o_parent o) (o_lost o).

Abbreviation tree := (gmap Z obj).

(** The blocks of a value besides its own. *)
Definition owned (o : obj) : list Z :=
  if is_gone (o_kind o) then [] else o_name_block o :: o_extents o.

Definition child_of (p : Z) (x : Z * obj) : Prop :=
  is_gone (o_kind (snd x)) = false ∧ o_parent (snd x) = p.
#[export] Instance child_of_dec p x : Decision (child_of p x).
Proof. unfold child_of. apply _. Defined.
Definition children (T : tree) (p : Z) : Z := Z.of_nat (size (filter (child_of p) T)).

(** Well-formed forests: parents exist, no value shares a block with another
    one, and the leaked blocks [L] belong to none. *)
Record tree_ok (T : tree) (L : gset Z) : Prop := {
  tree_parent i o : T !! i = Some o → is_gone (o_kind o) = false →
    o_parent o ≠ i ∧
    (o_parent o = 0 ∨ ∃ po, T !! o_parent o = Some po ∧ is_node (o_kind po) = true);
  tree_owner i j o o' b : T !! i = Some o → T !! j = Some o' →
    b ∈ owned o → b ∈ owned o' → i = j;
  tree_nodup i o : T !! i = Some o → NoDup (owned o);
  tree_leak b : b ∈ L → b ≠ 0 ∧ T !! b = None ∧ ∀ i o, T !! i = Some o → b ∉ owned o
}.

(** The blocks a forest and its leaked blocks account for. *)
Definition accounted (T : tree) (L : gset Z) (b : Z) : Prop :=
  b = 0 ∨ is_Some (T !! b) ∨ (∃ i o, T !! i = Some o ∧ b ∈ owned o) ∨ b ∈ L.

(** * Representation *)
Section repr.
Context {B : Bitfield}.
Implicit Types (m : Mapping) (A : blocks).

Definition name_repr m A (n : Z) (name : list Z) : Prop :=
  ∃ k, A !! n = Some (k, Name) ∧ hdr_name_length (hdr m n) = zlen name ∧
    zlen name ≤ 16 * 2 ^ k - 8 ∧ slice (16 * n + 8) (zlen name) (mapping_bytes m) = name.

(** The extents [l] hold [value], each as much as fits. *)
Fixpoint extents_repr m A (l : list Z) (value : list Z) : Prop :=
  match l with
  | [] => value = []
  | b :: l' => value ≠ [] ∧ ∃ k, A !! b = Some (k, Extent) ∧
      hdr_extent_next_index (hdr m b) = default 0 (head l') ∧
      slice (16 * b + 8) (zlen (clip k value)) (mapping_bytes m) = clip k value ∧
      extents_repr m A l' (drop (length (clip k value)) value)
  end.

Definition array_bytes (vals : list Z) : list Z := concat (map (to_le_bytes 8) vals).

Definition kind_repr m A (i : Z) (o : obj) : Prop :=
  match o_kind o with
  | KNode | KTomb | KDying | KStale => o_extents o = []
  | KInt v => o_extents o = [] ∧ signed_ok 64 v = true ∧ pay m i = to_unsigned 64 v
  | KUint v | KDouble v => o_extents o = [] ∧ pay m i = v
  | KProperty f value =>
      pl_property_total_length (pay m i) = zlen value ∧
      pl_property_extent_index (pay m i) = default 0 (head (o_extents o)) ∧
      PropertyFormat_from_u8 (pl_property_flags (pay m i)) = Some f ∧
      extents_repr m A (o_extents o) value
  | KArray t f vals =>
      o_extents o = [] ∧ is_numeric_value t = true ∧
      pl_array_slots_count (pay m i) = zlen vals ∧
      ArrayFormat_from_u8 (pl_array_flags (pay m i)) = Some f ∧
      from_u8 (pl_array_entry_type (pay m i)) = Some t ∧
      16 + 8 * zlen vals ≤ 16 * 2 ^ o_order o ∧ Forall u64_ok vals ∧
      slice (16 * i + 16) (8 * zlen vals) (mapping_bytes m) = array_bytes vals
  end.

Record obj_repr m A (i : Z) (o : obj) : Prop := {
  or_block : A !! i = Some (o_order o, kind_type (o_kind o));
  or_parent : hdr_value_parent_index (hdr m i) = o_parent o;
  or_kind : kind_repr m A i o;
  or_name : is_gone (o_kind o) = false →
    hdr_value_name_index (hdr m i) = o_name_block o ∧ name_repr m A (o_name_block o) (o_name o)
}.

(** The child count of a node, in its payload. *)
Definition count_repr m (T : tree) (i : Z) (o : obj) : Prop :=
  is_node (o_kind o) = true →
  pay m i = children T i + o_lost o ∧ 0 ≤ o_lost o ∧ (o_kind o = KTomb → pay m i ≠ 0).

Definition used A (b : Z) : Prop := ∃ k t, A !! b = Some (k, t) ∧ t ≠ Free.

(** The bytes of the VMO before the heap was made on it. *)
Class Origin := origin : Mapping.

Record state_rep `{og : Origin} (s : State) A (T : tree) (L : gset Z) (g : Z) : Prop := {
  sr_heap : heap_inv (heap s) A;
  sr_header : header s = 0;
  sr_header_block : A !! 0 = Some (0, Header);
  sr_header_word : hdr (mapping (heap s)) 0 = header_word;
  sr_gen : pay (mapping (heap s)) 0 = g;
  sr_tree : tree_ok T L;
  sr_obj i o : T !! i = Some o → obj_repr (mapping (heap s)) A i o;
  sr_count i o : T !! i = Some o → count_repr (mapping (heap s)) T i o;
  sr_used b : used A b ↔ accounted T L b;
  sr_tail : same_tail (slots (heap s)) origin (mapping (heap s))
}.

(** Used blocks outside of [X] are the same, and so are their bytes. *)
Definition preserved (X : gset Z) A m A' m' : Prop :=
  ∀ b k t, b ∉ X → A !! b = Some (k, t) → t ≠ Free →
    A' !! b = Some (k, t) ∧ block_bytes m' b k = block_bytes m b k.
End repr.

(** * Children *)
Section children.
Implicit Types (T : tree) (o : obj) (i p : Z).

Definition counts (p : Z) (o : obj) : Z := if decide (child_of p (0, o)) then 1 else 0.

Lemma child_of_key p i j o : child_of p (i, o) ↔ child_of p (j, o).
Proof. done. Qed.

Lemma children_insert T i o p :
  T !! i = None → children (<[i := o]> T) p = children T p + counts p o.
Proof.
  intros Hi. unfold children, counts. case_decide as Hc.
  - rewrite map_filter_insert_True by done. rewrite map_size_insert_None; [lia|].
    apply map_lookup_filter_None. by left.
  - rewrite map_filter_insert_False by done.
    rewrite delete_id by done. lia.
Qed.
Lemma children_delete T i o p :
  T !! i = Some o → children (delete i T) p = children T p - counts p o.
Proof.
  intros Hi. rewrite <- (insert_delete_id T i o Hi) at 2.
  rewrite children_insert by apply lookup_delete_eq. lia.
Qed.
Lemma children_update T i o o' p :
  T !! i = Some o → children (<[i := o']> T) p = children T p - counts p o + counts p o'.
Proof.
  intros Hi. rewrite <- insert_delete_eq, children_insert by apply lookup_delete_eq.
  erewrite children_delete by done. lia.
Qed.
Lemma children_nonneg T p : 0 ≤ children T p.
Proof. unfold children. lia. Qed.
Lemma children_none T i p : children T p = 0 → ∀ o, T !! i = Some o → counts p o = 0.
Proof.
  intros Hc o Hi. pose proof (children_delete T i o p Hi) as Hd.
  pose proof (children_nonneg (delete i T) p). unfold counts in *. case_decide; lia.
Qed.
Lemma children_size T p : children T p ≤ Z.of_nat (size T).
Proof.
  unfold children. apply inj_le. apply map_subseteq_size, map_filter_subseteq.
Qed.
Lemma counts_range p o : 0 ≤ counts p o ≤ 1.
Proof. unfold counts. case_decide; lia. Qed.
End children.

(** * Preservation *)
Section preserved.
Context {B : Bitfield}.
Implicit Types (m : Mapping) (A : blocks) (X Y : gset Z).

Lemma preserved_refl X A m : preserved X A m A m.
Proof. done. Qed.
Lemma preserved_trans X Y A1 m1 A2 m2 A3 m3 :
  preserved X A1 m1 A2 m2 → preserved Y A2 m2 A3 m3 → preserved (X ∪ Y) A1 m1 A3 m3.
Proof.
  intros H12 H23 b k t Hb HA Ht. destruct (H12 b k t) as [HA2 Hb2]; [set_solver|done..|].
  destruct (H23 b k t) as [HA3 Hb3]; [set_solver|done..|]. split; [done|congruence].
Qed.
Lemma preserved_mono X Y A m A' m' : X ⊆ Y → preserved X A m A' m' → preserved Y A m A' m'.
Proof. intros HXY Hp b k t Hb. apply Hp. set_solver. Qed.
(** What happened to blocks that were not in use does not matter. *)
Lemma preserved_fresh X Y A m A' m' :
  preserved X A m A' m' → (∀ b, b ∈ X → b ∈ Y ∨ ¬ used A b) → preserved Y A m A' m'.
Proof.
  intros Hp HX b k t Hb HA Ht. apply Hp; [|done..].
  intros Hin. destruct (HX b Hin) as [?|Hu]; [done|]. apply Hu. by exists k, t.
Qed.

(** A part of a block's bytes. *)
Lemma block_slice m m' b k off n :
  block_bytes m' b k = block_bytes m b k → 0 ≤ b → 0 ≤ k → 16 * b ≤ off → 0 ≤ n →
  off + n ≤ 16 * b + 16 * 2 ^ k →
  slice off n (mapping_bytes m') = slice off n (mapping_bytes m).
Proof.
  intros He ?????. apply list_eq. intros j. rewrite !lookup_slice by lia.
  case_decide; [|done]. unfold block_bytes in He.
  assert (slice (16 * b) (16 * 2 ^ k) (mapping_bytes m') !! (Z.to_nat (off - 16 * b) + j)%nat
    = slice (16 * b) (16 * 2 ^ k) (mapping_bytes m) !! (Z.to_nat (off - 16 * b) + j)%nat)
    as Hl by (by rewrite He).
  rewrite !lookup_slice in Hl by lia. rewrite !decide_True in Hl by lia.
  by replace (Z.to_nat off + j)%nat with (Z.to_nat (16 * b) + (Z.to_nat (off - 16 * b) + j))%nat
    by lia.
Qed.

Lemma block_words m m' b k :
  block_bytes m' b k = block_bytes m b k → 0 ≤ b → 0 ≤ k →
  hdr m' b = hdr m b ∧ pay m' b = pay m b.
Proof.
  intros He Hb Hk. pose proof (pow2_pos k Hk).
  split; unfold hdr, pay; f_equal; (eapply block_slice; [done|lia..]).
Qed.

Context {BS : BitfieldSpec B}.
Context (h : Heap) (A : blocks) (HI : heap_inv h A).

Lemma inv_block i k t : A !! i = Some (k, t) → 0 ≤ i < 2 ^ 28 ∧ 0 ≤ k < 8 ∧
  in_slots (mapping h) i ∧ 16 * i + 16 * 2 ^ k ≤ zlen (mapping_bytes (mapping h)) ∧
  bord (mapping h) i = k ∧ btype (mapping h) i = Some t.
Proof.
  intros Hi. destruct HI as (_&_&F&HR). pose proof (rep_block_range _ _ _ _ HR _ _ _ Hi).
  pose proof (rep_slots_bound _ _ _ _ HR). pose proof (rep_block_pos _ _ _ _ HR _ _ _ Hi).
  pose proof (rep_fit _ _ _ _ HR). pose proof (rep_in_slots _ _ _ _ HR _ _ _ Hi).
  pose proof (rep_repr _ _ _ _ HR _ _ _ Hi) as [??]. split; [lia|]. split; [lia|].
  split; [done|]. split; [lia|done].
Qed.
Lemma inv_map : map_ok (mapping h).
Proof. destruct HI as (_&_&F&HR). apply HR. Qed.

Context (m' : Mapping) (A' : blocks) (X : gset Z) (HP : preserved X A (mapping h) A' m').

Lemma name_repr_preserved n name :
  n ∉ X → name_repr (mapping h) A n name → name_repr m' A' n name.
Proof.
  intros Hn (k & Hk & Hl & Hle & Hs). destruct (HP n k Name Hn Hk) as [Hk' Hb]; [done|].
  destruct (inv_block _ _ _ Hk) as ([? _]&[? _]&_).
  destruct (block_words _ _ _ _ Hb) as [Hw _]; [lia..|].
  exists k. split; [done|]. split; [by rewrite Hw|]. split; [done|].
  pose proof (zlen_nonneg name). by rewrite (block_slice _ _ _ _ _ _ Hb) by lia.
Qed.

Lemma extents_repr_preserved l value :
  (∀ b, b ∈ l → b ∉ X) → extents_repr (mapping h) A l value → extents_repr m' A' l value.
Proof.
  revert value. induction l as [|b l IH]; intros value HX; [done|].
  intros (Hv & k & Hk & Hn & Hs & Hr). split; [done|]. exists k.
  destruct (HP b k Extent) as [Hk' Hb]; [apply HX; set_solver|done..|].
  destruct (inv_block _ _ _ Hk) as ([? _]&[? _]&_).
  destruct (block_words _ _ _ _ Hb) as [Hw _]; [lia..|].
  split; [done|]. split; [by rewrite Hw|]. split.
  - pose proof (zlen_clip k value ltac:(lia)). pose proof (zlen_nonneg (clip k value)).
    by rewrite (block_slice _ _ _ _ _ _ Hb) by lia.
  - apply IH; [|done]. intros x Hx. apply HX. set_solver.
Qed.

Lemma obj_repr_preserved i o :
  i ∉ X → (∀ b, b ∈ owned o → b ∉ X) → obj_repr (mapping h) A i o → obj_repr m' A' i o.
Proof.
  intros Hi Ho [Hb Hp Hk Hn]. destruct (HP _ _ _ Hi Hb) as [Hb' Hbytes];
    [by destruct (o_kind o)|].
  destruct (inv_block _ _ _ Hb) as ([? _]&[? _]&_).
  destruct (block_words _ _ _ _ Hbytes) as [Hh Hpay]; [lia..|].
  split; [done|by rewrite Hh| |].
  - unfold kind_repr in *. unfold owned in Ho.
    destruct (o_kind o); simpl in *; rewrite ?Hpay; try done.
    + destruct Hk as (?&?&?&?). do 3 (split; [done|]).
      apply extents_repr_preserved; [|done]. intros b ?. apply Ho. set_solver.
    + destruct Hk as (?&?&?&?&?&?&?&Hs). do 7 (split; [done|]).
      pose proof (zlen_nonneg vals). by rewrite (block_slice _ _ _ _ _ _ Hbytes) by lia.
  - intros Hg. destruct (Hn Hg) as [??]. rewrite Hh. split; [done|].
    apply name_repr_preserved; [|done]. apply Ho. unfold owned. rewrite Hg. set_solver.
Qed.
End preserved.
