(* ===== verification/StateSteps.v ===== *)
(** The steps the operations of a [State] are made of, each against the forest
    it represents: allocating, freeing and writing blocks, and the changes of
    ownership between them. *)

From S2P Require Import Prelude SharedBuffer Float64 InspectFormat InspectBlock InspectHeap HeapInvariant HeapCorrect HeapAllocate InspectOps InspectState StateInvariant.

Definition add_lost (d : Z) (o : obj) : obj := with_lost (o_lost o + d) o.
Definition adj (p d : Z) (T : tree) : tree := alter (add_lost d) p T.

(** ** Changes of a forest *)
Section forests.
Implicit Types (T : tree) (L : gset Z) (o : obj).

(** Objects that look the same to the others. *)
Definition alike o o' : Prop :=
  owned o' = owned o ∧ o_parent o' = o_parent o ∧
  is_gone (o_kind o') = is_gone (o_kind o) ∧ is_node (o_kind o') = is_node (o_kind o).

Lemma alike_add_lost d o : alike o (add_lost d o).
Proof. done. Qed.

Lemma lookup_update T i o o' j x :
  T !! i = Some o → alike o o' → <[i := o']> T !! j = Some x →
  ∃ x0, T !! j = Some x0 ∧ alike x0 x.
Proof.
  intros Hi Ha Hj. destruct (decide (i = j)) as [<-|].
  - rewrite lookup_insert_eq in Hj. simplify_eq. eauto.
  - rewrite lookup_insert_ne in Hj by done. by exists x.
Qed.

Lemma tree_ok_update T L i o o' :
  tree_ok T L → T !! i = Some o → alike o o' → tree_ok (<[i := o']> T) L.
Proof.
  intros [Hpar Hown Hnd Hleak] Hi Ha. split.
  - intros j x Hj Hg. destruct (lookup_update _ _ _ _ _ _ Hi Ha Hj) as (x0&Hx0&(_&Hp&Hg'&_)).
    destruct (Hpar j x0 Hx0) as [Hne Hex]; [congruence|]. rewrite Hp. split; [done|].
    destruct Hex as [?|(po&Hpo&Hn)]; [by left|right].
    destruct (decide (i = o_parent x0)) as [He|].
    + exists o'. rewrite He, lookup_insert_eq. split; [done|].
      destruct Ha as (_&_&_&->). congruence.
    + exists po. by rewrite lookup_insert_ne.
  - intros j j' x x' b Hj Hj' Hb Hb'.
    destruct (lookup_update _ _ _ _ _ _ Hi Ha Hj) as (x0&Hx0&(Ho&_)).
    destruct (lookup_update _ _ _ _ _ _ Hi Ha Hj') as (x0'&Hx0'&(Ho'&_)).
    rewrite Ho in Hb. rewrite Ho' in Hb'. by eapply Hown.
  - intros j x Hj. destruct (lookup_update _ _ _ _ _ _ Hi Ha Hj) as (x0&Hx0&(->&_)).
    by eapply Hnd.
  - intros b Hb. destruct (Hleak b Hb) as (?&Hn&Hno). split; [done|]. split.
    + rewrite lookup_insert_ne; [done|]. intros ->. congruence.
    + intros j x Hj. destruct (lookup_update _ _ _ _ _ _ Hi Ha Hj) as (x0&Hx0&(->&_)).
      by eapply Hno.
Qed.

Lemma accounted_update T L i o o' b :
  T !! i = Some o → alike o o' → accounted (<[i := o']> T) L b ↔ accounted T L b.
Proof.
  intros Hi Ha. unfold accounted. destruct (decide (b = i)) as [->|Hne].
  { split; intros _; right; left; rewrite ?lookup_insert_eq; by eexists. }
  rewrite (lookup_insert_ne T i b) by done.
  assert ((∃ j x, <[i := o']> T !! j = Some x ∧ b ∈ owned x) ↔
          (∃ j x, T !! j = Some x ∧ b ∈ owned x)) as ->; [|done].
  split; intros (j&x&Hj&Hb).
  - destruct (lookup_update _ _ _ _ _ _ Hi Ha Hj) as (x0&Hx0&(Ho&_)).
    exists j, x0. by rewrite <- Ho.
  - destruct (decide (i = j)) as [->|].
    + exists j, o'. rewrite lookup_insert_eq. destruct Ha as (->&_). by simplify_eq.
    + exists j, x. by rewrite lookup_insert_ne.
Qed.

Lemma counts_alike p o o' : alike o o' → counts p o' = counts p o.
Proof.
  intros (_&Hp&Hg&_). unfold counts. apply decide_ext. unfold child_of. simpl. by rewrite Hp, Hg.
Qed.

Lemma children_alike T i o o' p :
  T !! i = Some o → alike o o' → children (<[i := o']> T) p = children T p.
Proof. intros Hi Ha. erewrite children_update, (counts_alike p o o') by done. lia. Qed.

Lemma adj_None T p d : T !! p = None → adj p d T = T.
Proof. intros Hp. apply map_eq. intros j. unfold adj. destruct (decide (p = j)) as [<-|].
  - by rewrite lookup_alter_eq, Hp.
  - by rewrite lookup_alter_ne.
Qed.
Lemma adj_Some T p d o : T !! p = Some o → adj p d T = <[p := add_lost d o]> T.
Proof. intros Hp. apply map_eq. intros j. unfold adj. destruct (decide (p = j)) as [<-|].
  - by rewrite lookup_alter_eq, lookup_insert_eq, Hp.
  - by rewrite lookup_alter_ne, lookup_insert_ne.
Qed.
Lemma adj_lookup T p d i :
  adj p d T !! i = (λ o, if decide (p = i) then add_lost d o else o) <$> T !! i.
Proof.
  unfold adj. case_decide as Hp; [subst; by rewrite lookup_alter_eq|].
  rewrite lookup_alter_ne by done. by rewrite option_fmap_id.
Qed.
Lemma adj_children T p d q : children (adj p d T) q = children T q.
Proof.
  destruct (T !! p) as [o|] eqn:Hp; [|by rewrite adj_None].
  erewrite adj_Some by done. by eapply children_alike.
Qed.
Lemma adj_tree_ok T L p d : tree_ok T L → tree_ok (adj p d T) L.
Proof.
  intros HT. destruct (T !! p) as [o|] eqn:Hp; [|by rewrite adj_None].
  erewrite adj_Some by done. by eapply tree_ok_update.
Qed.
Lemma adj_accounted T L p d b : accounted (adj p d T) L b ↔ accounted T L b.
Proof.
  destruct (T !! p) as [o|] eqn:Hp; [|by rewrite adj_None].
  erewrite adj_Some by done. by eapply accounted_update.
Qed.

(** A new leaf whose blocks come from the leaked ones. *)
Lemma tree_ok_insert T L i o :
  tree_ok T L → i ∈ L → is_gone (o_kind o) = false →
  (∀ b, b ∈ owned o → b ∈ L ∧ b ≠ i) → NoDup (owned o) → o_parent o ≠ i →
  (o_parent o = 0 ∨ ∃ po, T !! o_parent o = Some po ∧ is_node (o_kind po) = true) →
  tree_ok (<[i := o]> T) (L ∖ ({[i]} ∪ list_to_set (owned o))).
Proof.
  intros [Hpar Hown Hnd Hleak] Hi Hg Hb Hno Hne Hp. destruct (Hleak i Hi) as (Hi0&HiT&_).
  assert (∀ j x b, T !! j = Some x → b ∈ owned x → b ∉ owned o) as Hdis.
  { intros j x b Hj Hbx Hbo. destruct (Hb b Hbo) as [HbL _].
    by apply (proj2 (proj2 (Hleak b HbL)) j x Hj). }
  split.
  - intros j x [[<- <-]|[Hij Hj]]%lookup_insert_Some Hgx.
    + split; [done|]. destruct Hp as [?|(po&?&?)]; [by left|right]. exists po.
      by rewrite lookup_insert_ne.
    + destruct (Hpar j x Hj Hgx) as [? [?|(po&?&?)]]; (split; [done|]); [by left|right].
      exists po. rewrite lookup_insert_ne; [done|]. intros ->. congruence.
  - intros j j' x x' b [[<- <-]|[Hij Hj]]%lookup_insert_Some
      [[<- <-]|[Hij' Hj']]%lookup_insert_Some Hbx Hbx'; [done| | |by eapply Hown].
    + by destruct (Hdis j' x' b).
    + by destruct (Hdis j x b).
  - intros j x [[<- <-]|[Hij Hj]]%lookup_insert_Some; [done|by eapply Hnd].
  - intros b HbL. destruct (Hleak b) as (?&?&Hno'); [set_solver|]. split; [done|].
    split; [rewrite lookup_insert_ne; [done|set_solver]|].
    intros j x [[<- <-]|[Hij Hj]]%lookup_insert_Some; [set_solver|by eapply Hno'].
Qed.

Lemma accounted_insert T L i o b :
  tree_ok T L → i ∈ L → (∀ b, b ∈ owned o → b ∈ L) →
  accounted (<[i := o]> T) (L ∖ ({[i]} ∪ list_to_set (owned o))) b ↔ accounted T L b.
Proof.
  intros HT Hi Ho. destruct (tree_leak _ _ HT i Hi) as (_&HiT&_). unfold accounted. split.
  - intros [->|[[x Hx]|[(j&x&Hj&Hb)|Hb]]]; [by left| | |set_solver].
    + apply lookup_insert_Some in Hx as [[<- _]|[_ Hx]]; [by do 3 right|].
      right. left. by exists x.
    + apply lookup_insert_Some in Hj as [[<- <-]|[_ Hj]]; [do 3 right; by apply Ho|].
      right. right. left. by exists j, x.
  - intros [->|[[x Hx]|[(j&x&Hj&Hb)|Hb]]].
    + by left.
    + right. left. exists x. rewrite lookup_insert_ne; [done|]. intros ->. congruence.
    + right. right. left. exists j, x. rewrite lookup_insert_ne; [done|]. intros ->. congruence.
    + destruct (decide (b = i)) as [->|]; [right; left; rewrite lookup_insert_eq; by eexists|].
      destruct (decide (b ∈ owned o)); [|set_solver].
      right. right. left. exists i, o. by rewrite lookup_insert_eq.
Qed.

(** A value without children is removed; its blocks are leaked. *)
Lemma tree_ok_delete T L i o :
  tree_ok T L → T !! i = Some o → i ≠ 0 → children T i = 0 → (0 ∉ owned o) →
  (∀ j x b, T !! j = Some x → b ∈ owned o → b ≠ j) → (∀ j x, T !! j = Some x → i ∉ owned x) →
  tree_ok (delete i T) (L ∪ {[i]} ∪ list_to_set (owned o)).
Proof.
  intros [Hpar Hown Hnd Hleak] Hi Hi0 Hc H0 Hval Hnot. split.
  - intros j x [Hij Hj]%lookup_delete_Some Hg. destruct (Hpar j x Hj Hg) as [? Hex].
    split; [done|]. destruct Hex as [?|(po&?&?)]; [by left|right].
    exists po. rewrite lookup_delete_ne; [done|]. intros Heq.
    pose proof (children_none T j i Hc x Hj) as Hz. unfold counts in Hz.
    rewrite decide_True in Hz; [done|]. by split.
  - intros j j' x x' b [_ Hj]%lookup_delete_Some [_ Hj']%lookup_delete_Some. by eapply Hown.
  - intros j x [_ Hj]%lookup_delete_Some. by eapply Hnd.
  - intros b [[Hb| ->%elem_of_singleton]%elem_of_union|Hb%elem_of_list_to_set]%elem_of_union.
    + destruct (Hleak b Hb) as (?&?&Hno). split; [done|]. split.
      * apply lookup_delete_None. by right.
      * intros j x [_ Hj]%lookup_delete_Some. by eapply Hno.
    + split; [done|]. split; [apply lookup_delete_eq|].
      intros j x [_ Hj]%lookup_delete_Some. by eapply Hnot.
    + split; [intros ->; done|]. split.
      * apply eq_None_not_Some. intros [x [_ Hx]%lookup_delete_Some]. by eapply (Hval b x b).
      * intros j x [Hij Hj]%lookup_delete_Some Hbx. by destruct Hij; eapply (Hown i j o x b).
Qed.

Lemma accounted_delete T L i o b :
  T !! i = Some o →
  accounted (delete i T) (L ∪ {[i]} ∪ list_to_set (owned o)) b ↔ accounted T L b.
Proof.
  intros Hi. unfold accounted. rewrite !elem_of_union, elem_of_singleton, elem_of_list_to_set.
  split.
  - intros [->|[[x [_ Hx]%lookup_delete_Some]|[(j&x&[_ Hj]%lookup_delete_Some&Hb)|[[Hb| ->]|Hb]]]].
    + by left.
    + right. left. by exists x.
    + right. right. left. by exists j, x.
    + by do 3 right.
    + right. left. by exists o.
    + right. right. left. by exists i, o.
  - intros [->|[[x Hx]|[(j&x&Hj&Hb)|Hb]]].
    + by left.
    + destruct (decide (i = b)) as [->|]; [do 3 right; left; by right|].
      right. left. exists x. by rewrite lookup_delete_ne.
    + destruct (decide (i = j)) as [->|]; [simplify_eq; by do 4 right|].
      right. right. left. exists j, x. by rewrite lookup_delete_ne.
    + by do 3 right; left; left.
Qed.

(** A node that dies gives up its name. *)
Lemma tree_ok_gone T L i o o' :
  tree_ok T L → T !! i = Some o → is_gone (o_kind o') = true →
  is_node (o_kind o') = true → (0 ∉ owned o) →
  (∀ j x b, T !! j = Some x → b ∈ owned o → b ≠ j) →
  tree_ok (<[i := o']> T) (L ∪ list_to_set (owned o)).
Proof.
  intros [Hpar Hown Hnd Hleak] Hi Hg' Hn' H0 Hval.
  assert (owned o' = []) as Ho' by (unfold owned; by rewrite Hg').
  split.
  - intros j x [[<- <-]|[Hij Hj]]%lookup_insert_Some Hg; [congruence|].
    destruct (Hpar j x Hj Hg) as [? Hex]. split; [done|].
    destruct Hex as [?|(po&?&?)]; [by left|right].
    destruct (decide (i = o_parent x)) as [He|]; [exists o'|exists po].
    + by rewrite He, lookup_insert_eq.
    + by rewrite lookup_insert_ne.
  - intros j j' x x' b [[<- <-]|[Hij Hj]]%lookup_insert_Some
      [[<- <-]|[Hij' Hj']]%lookup_insert_Some; rewrite ?Ho'; set_solver.
  - intros j x [[<- <-]|[Hij Hj]]%lookup_insert_Some; [rewrite Ho'; constructor|by eapply Hnd].
  - intros b [Hb|Hb%elem_of_list_to_set]%elem_of_union.
    + destruct (Hleak b Hb) as (?&?&Hno). split; [done|]. split.
      * rewrite lookup_insert_ne; [done|]. intros ->. congruence.
      * intros j x [[<- <-]|[Hij Hj]]%lookup_insert_Some; [rewrite Ho'; set_solver|by eapply Hno].
    + split; [intros ->; done|]. split.
      * apply eq_None_not_Some. intros [x [[<- _]|[_ Hx]]%lookup_insert_Some].
        -- by eapply (Hval i o i).
        -- by eapply (Hval b x b).
      * intros j x [[<- <-]|[Hij Hj]]%lookup_insert_Some Hbx; [rewrite Ho' in Hbx; set_solver|].
        by destruct Hij; eapply (Hown i j o x b).
Qed.

Lemma accounted_gone T L i o o' b :
  T !! i = Some o → is_gone (o_kind o') = true →
  accounted (<[i := o']> T) (L ∪ list_to_set (owned o)) b ↔ accounted T L b.
Proof.
  intros Hi Hg'. unfold accounted. rewrite elem_of_union, elem_of_list_to_set.
  assert (owned o' = []) as Ho' by (unfold owned; by rewrite Hg'). split.
  - intros [->|[[x [[<- _]|[_ Hx]]%lookup_insert_Some]|[(j&x&Hj&Hb)|[Hb|Hb]]]].
    + by left.
    + right. left. by exists o.
    + right. left. by exists x.
    + apply lookup_insert_Some in Hj as [[<- <-]|[_ Hj]]; [rewrite Ho' in Hb; set_solver|].
      right. right. left. by exists j, x.
    + by do 3 right.
    + right. right. left. by exists i, o.
  - intros [->|[[x Hx]|[(j&x&Hj&Hb)|Hb]]].
    + by left.
    + right. left. destruct (decide (i = b)) as [->|];
        [exists o'; by rewrite lookup_insert_eq|exists x; by rewrite lookup_insert_ne].
    + destruct (decide (i = j)) as [->|]; [simplify_eq; by do 4 right|].
      right. right. left. exists j, x. by rewrite lookup_insert_ne.
    + by do 3 right; left.
Qed.
End forests.

Section steps.
Context {B : Bitfield} {BS : BitfieldSpec B} {og : Origin}.
Implicit Types (s : State) (A : blocks) (T : tree) (L X : gset Z) (g : Z) (o : obj).

Abbreviation mem s := (mapping (heap s)).

(** ** Facts of a represented state *)
Section facts.
Context s A T L g (HS : state_rep s A T L g).

Lemma sr_map : map_ok (mem s).
Proof. by eapply inv_map, HS. Qed.

Lemma sr_obj_block i o : T !! i = Some o → A !! i = Some (o_order o, kind_type (o_kind o)).
Proof. intros Hi. by apply (sr_obj _ _ _ _ _ HS _ _ Hi). Qed.

Lemma sr_block_used i o : T !! i = Some o → used A i.
Proof. intros Hi. apply (sr_used _ _ _ _ _ HS). right. left. by exists o. Qed.

Lemma sr_zero : T !! 0 = None.
Proof.
  destruct (T !! 0) as [o|] eqn:H0; [|done]. apply sr_obj_block in H0.
  rewrite (sr_header_block _ _ _ _ _ HS) in H0. simplify_eq.
  by destruct (o_kind o).
Qed.

(** Blocks of different owners are different: by their types. *)
Lemma sr_name_block i o :
  T !! i = Some o → is_gone (o_kind o) = false →
  ∃ k, A !! o_name_block o = Some (k, Name).
Proof.
  intros Hi Hg. destruct (or_name _ _ _ _ (sr_obj _ _ _ _ _ HS _ _ Hi) Hg) as [_ (k&?&_)].
  by exists k.
Qed.

Lemma extents_type m l value b :
  extents_repr m A l value → b ∈ l → ∃ k, A !! b = Some (k, Extent).
Proof.
  revert value. induction l as [|x l IH]; intros value Hr Hb; [set_solver|].
  destruct Hr as (_&k&Hk&_&_&Hr). apply elem_of_cons in Hb as [->|Hb]; [by exists k|].
  by eapply IH.
Qed.

Lemma sr_extents i o b :
  T !! i = Some o → b ∈ o_extents o → ∃ k, A !! b = Some (k, Extent).
Proof.
  intros Hi Hb. pose proof (or_kind _ _ _ _ (sr_obj _ _ _ _ _ HS _ _ Hi)) as Hk.
  unfold kind_repr in Hk. destruct (o_kind o); try (rewrite Hk in Hb; set_solver);
    try (rewrite (proj1 Hk) in Hb; set_solver).
  by eapply extents_type; [apply Hk|].
Qed.

Lemma sr_owned i o b :
  T !! i = Some o → b ∈ owned o → ∃ k t, A !! b = Some (k, t) ∧ (t = Name ∨ t = Extent).
Proof.
  intros Hi Hb. unfold owned in Hb. destruct (is_gone (o_kind o)) eqn:Hg; [set_solver|].
  apply elem_of_cons in Hb as [->|Hb].
  - destruct (sr_name_block _ _ Hi Hg) as [k ?]. eauto.
  - destruct (sr_extents _ _ _ Hi Hb) as [k ?]. eauto.
Qed.

Lemma sr_owned_not_value i o j o' : T !! i = Some o → T !! j = Some o' → j ∉ owned o.
Proof.
  intros Hi Hj Hb. destruct (sr_owned _ _ _ Hi Hb) as (k&t&Hk&Ht).
  rewrite (sr_obj_block _ _ Hj) in Hk. simplify_eq.
  destruct Ht, (o_kind o'); done.
Qed.

Lemma sr_owned_not_zero i o : T !! i = Some o → 0 ∉ owned o.
Proof.
  intros Hi Hb. destruct (sr_owned _ _ _ Hi Hb) as (k&t&Hk&Ht).
  rewrite (sr_header_block _ _ _ _ _ HS) in Hk. simplify_eq. by destruct Ht.
Qed.

Lemma sr_size : Z.of_nat (size T) ≤ 2 ^ 28.
Proof.
  pose proof (sr_heap _ _ _ _ _ HS) as HI.
  assert (dom T ⊆ list_to_set (seqZ 0 (2 ^ 28))) as Hsub.
  { intros i [o Hi]%elem_of_dom. apply elem_of_list_to_set, elem_of_seqZ.
    destruct (inv_block _ _ HI _ _ _ (sr_obj_block _ _ Hi)) as [? _]. lia. }
  apply subseteq_size in Hsub. rewrite size_dom, size_list_to_set in Hsub by apply NoDup_seqZ.
  rewrite length_seqZ in Hsub. lia.
Qed.
End facts.

(** ** The heap's promises in these terms *)
Lemma alloc_preserved h A size :
  heap_inv h A → 8 < size ≤ 2048 →
  allocate_block size h = (Err HeapAtMaximumSize, h) ∨
  ∃ i k h' A', allocate_block size h = (Ok i, h') ∧ heap_inv h' A' ∧
    A' !! i = Some (k, Reserved) ∧ size ≤ 16 * 2 ^ k ∧ (∀ j, 0 ≤ j < k → 16 * 2 ^ j < size) ∧
    (∀ b, used A' b ↔ used A b ∨ b = i) ∧ ¬ used A i ∧ kept_tail h h' ∧ preserved ∅ A (mapping h) A' (mapping h').
Proof.
  intros HI Hsize. pose proof (allocate_block_spec h A size HI ltac:(lia)) as Hal.
  rewrite (proj2 (Z.ltb_ge 2048 size)) in Hal by lia.
  destruct Hal as (k & Hk & Hmin & [[_ ?]|(_ & i & h' & A' & He & HI' & Hi & Hsu & Hn & Hf & Htail)]); [by left|right].
  destruct (inv_block _ _ HI' _ _ _ Hi) as (_&Hk8&_).
  exists i, k, h', A'. split; [done|]. split; [done|]. split; [done|].
  rewrite order_to_size_eq in Hk by lia. split; [done|]. split.
  { intros j Hj. specialize (Hmin j Hj). by rewrite order_to_size_eq in Hmin by lia. }
  assert (¬ used A i) as Hni.
  { intros (k0&t0&HA&Ht0). apply (Hsu i k0 t0 Ht0) in HA. by rewrite lookup_delete_eq in HA. }
  split; [|split; [done|split; [done|]]].
  - intros b. split.
    + intros (kb&tb&Hb&Htb). destruct (decide (b = i)) as [->|]; [by right|left].
      exists kb, tb. split; [|done]. apply (Hsu b kb tb Htb). by rewrite lookup_delete_ne.
    + intros [(kb&tb&Hb&Htb)| ->]; [|by exists k, Reserved]. exists kb, tb. split; [|done].
      apply (Hsu b kb tb Htb) in Hb. by apply lookup_delete_Some in Hb as [_ ?].
  - intros b kb tb _ Hb Htb. split; [|by apply (Hf b kb tb)].
    apply (Hsu b kb tb Htb) in Hb. by apply lookup_delete_Some in Hb as [_ ?].
Qed.

Lemma free_preserved h A b k t :
  heap_inv h A → A !! b = Some (k, t) → t ≠ Free →
  ∃ h' A', free_block b h = (Ok tt, h') ∧ heap_inv h' A' ∧
    (∀ x, used A' x ↔ used A x ∧ x ≠ b) ∧ kept_tail h h' ∧ preserved {[b]} A (mapping h) A' (mapping h').
Proof.
  intros HI Hb Ht. pose proof (free_block_spec h A b k t HI Hb) as Hfr.
  rewrite decide_False in Hfr by done. destruct Hfr as (h'&A'&He&HI'&Hsu&[Hf Htail]&Hs).
  apply slots_eq in Hs. exists h', A'. split; [done|]. split; [done|]. split; [|split; [split; [lia|by rewrite Hs]|]].
  - intros x. split.
    + intros (kx&tx&Hx&Htx). apply (Hsu x kx tx Htx) in Hx.
      apply lookup_delete_Some in Hx as [Hne Hx]. split; [by exists kx, tx|done].
    + intros [(kx&tx&Hx&Htx) Hne]. exists kx, tx. split; [|done].
      apply (Hsu x kx tx Htx). by rewrite lookup_delete_ne.
  - intros x kx tx Hx HA Htx.
    assert (delete b A !! x = Some (kx, tx)) as Hd by (rewrite lookup_delete_ne; set_solver).
    split; [by apply (Hsu x kx tx Htx)|by apply (Hf x kx tx)].
Qed.

Lemma coalesced_retype A i k t t' :
  coalesced A → A !! i = Some (k, t) → t' ≠ Free → coalesced (<[i := (k, t')]> A).
Proof. intros Hc Hi Ht. apply coalesced_fill; [by apply coalesced_weaken|done]. Qed.

Lemma write_preserved h A i k t t' m' :
  heap_inv h A → A !! i = Some (k, t) → t ≠ Free → t' ≠ Free →
  outside (mapping h) m' i k → bord m' i = k → btype m' i = Some t' →
  heap_inv (with_map h m') (<[i := (k, t')]> A) ∧
  (∀ b, used (<[i := (k, t')]> A) b ↔ used A b) ∧ kept_tail h (with_map h m') ∧
  preserved {[i]} A (mapping h) (<[i := (k, t')]> A) m'.
Proof.
  intros (Hpos & Hco & F & HR) Hi Ht Ht' Hout Hbo Hbt. split; [|split; [|split]].
  - split; [done|]. split; [by eapply coalesced_retype|]. exists F.
    replace ∅ with (∅ ∖ {[i]} : gset Z) by set_solver.
    by eapply retype_rep; [|done|left|..].
  - intros b. unfold used. destruct (decide (i = b)) as [<-|Hne].
    + rewrite lookup_insert_eq. split; intros _; eauto.
    + by rewrite lookup_insert_ne.
  - split; [done|]. intros off len Hoff. destruct (rep_block_range _ _ _ _ HR _ _ _ Hi). apply Hout; unfold with_map, slots in *; simpl in *; lia.
  - intros b kb tb Hb HA Htb. assert (i ≠ b) as Hne by set_solver.
    split; [by rewrite lookup_insert_ne|]. destruct Hout as (_&_&Ho).
    pose proof (rep_block_range _ _ _ _ HR _ _ _ HA).
    pose proof (rep_block_pos _ _ _ _ HR _ _ _ HA). apply Ho; [lia|].
    destruct (tiled_disjoint _ _ (rep_tiled _ _ _ _ HR) _ _ _ _ _ _ Hi HA Hne); lia.
Qed.

(** ** Rebuilding the representation

    After a change outside of the values' blocks. *)
Lemma touched_free s A T L g X :
  state_rep s A T L g → (∀ b, b ∈ X → b ∈ L ∨ ¬ used A b) →
  (0 ∉ X) ∧ ∀ i o, T !! i = Some o → (i ∉ X) ∧ ∀ b, b ∈ owned o → b ∉ X.
Proof.
  intros HS HX. pose proof (sr_tree _ _ _ _ _ HS) as HT.
  assert (∀ b, accounted T ∅ b → b ∈ X → b ∈ L) as Hin.
  { intros b Hb HbX. destruct (HX b HbX) as [?|Hu]; [done|]. destruct Hu.
    apply (sr_used _ _ _ _ _ HS). unfold accounted in *. set_solver. }
  split; [|intros i o Hi; split].
  - intros H0. apply Hin in H0; [|by left]. by apply (tree_leak _ _ HT) in H0 as [? _].
  - intros HiX. apply Hin in HiX; [|right; left; by exists o].
    apply (tree_leak _ _ HT) in HiX as (_&?&_). congruence.
  - intros b Hb HbX. apply Hin in HbX; [|right; right; left; by exists i, o].
    apply (tree_leak _ _ HT) in HbX as (_&_&Hno). by apply (Hno i o Hi).
Qed.

Lemma header_kept s A T L g s' A' X :
  state_rep s A T L g → preserved X A (mem s) A' (mem s') → 0 ∉ X →
  A' !! 0 = Some (0, Header) ∧ hdr (mem s') 0 = header_word ∧ pay (mem s') 0 = g.
Proof.
  intros HS HP H0. pose proof (sr_header_block _ _ _ _ _ HS) as Hh.
  destruct (HP 0 0 Header H0 Hh) as [? Hb]; [done|].
  destruct (block_words _ _ _ _ Hb) as [-> ->]; [lia..|].
  split; [done|]. split; apply HS.
Qed.

Lemma pay_kept s A T L g s' A' X i o :
  state_rep s A T L g → preserved X A (mem s) A' (mem s') → i ∉ X → T !! i = Some o →
  pay (mem s') i = pay (mem s) i.
Proof.
  intros HS HP Hi Ho. pose proof (sr_obj_block _ _ _ _ _ HS _ _ Ho) as Hb.
  destruct (HP _ _ _ Hi Hb) as [_ Hby]; [by destruct (o_kind o)|].
  destruct (inv_block _ _ (sr_heap _ _ _ _ _ HS) _ _ _ Hb) as (?&?&_).
  by destruct (block_words _ _ _ _ Hby) as [_ ->]; [lia..|].
Qed.

Lemma tail_kept s A T L g h' :
  state_rep s A T L g → kept_tail (heap s) h' → same_tail (slots h') origin (mapping h').
Proof. intros HS [??]. eapply same_tail_trans; [done|apply HS|done]. Qed.

Lemma rep_same s A T L g s' A' L' X :
  state_rep s A T L g → heap_inv (heap s') A' → header s' = header s → kept_tail (heap s) (heap s') →
  preserved X A (mem s) A' (mem s') → (∀ b, b ∈ X → b ∈ L ∨ ¬ used A b) →
  tree_ok T L' → (∀ b, used A' b ↔ accounted T L' b) → state_rep s' A' T L' g.
Proof.
  intros HS HI' Hh HK HP HX HT Hu. destruct (touched_free _ _ _ _ _ _ HS HX) as [H0 Hobj].
  destruct (header_kept _ _ _ _ _ _ _ _ HS HP H0) as (?&?&?).
  split; try done.
  - rewrite Hh. apply HS.
  - intros i o Hi. destruct (Hobj i o Hi). eapply obj_repr_preserved; [apply HS|done..|].
    by apply HS.
  - intros i o Hi. destruct (Hobj i o Hi) as [HiX _]. unfold count_repr.
    rewrite (pay_kept _ _ _ _ _ _ _ _ _ _ HS HP HiX Hi). by apply HS.
  - by eapply tail_kept.
Qed.

(** ** Allocating and freeing *)
Lemma tree_ok_sub T L L' : tree_ok T L → L' ⊆ L → tree_ok T L'.
Proof. intros [] HL. split; try done. set_solver. Qed.

Lemma on_heap_ok {C} (f : M Error Heap C) s r h' :
  f (heap s) = (r, h') → on_heap f s = (r, {| heap := h'; header := header s |}).
Proof. unfold on_heap. by intros ->. Qed.

Lemma alloc_step s A T L g size :
  state_rep s A T L g → 8 < size ≤ 2048 →
  on_heap (allocate_block size) s = (Err HeapAtMaximumSize, s) ∨
  ∃ i k s' A', on_heap (allocate_block size) s = (Ok i, s') ∧
    state_rep s' A' T (L ∪ {[i]}) g ∧ A' !! i = Some (k, Reserved) ∧
    size ≤ 16 * 2 ^ k ∧ (∀ j, 0 ≤ j < k → 16 * 2 ^ j < size) ∧ ¬ used A i ∧
    preserved ∅ A (mem s) A' (mem s').
Proof.
  intros HS Hsize.
  destruct (alloc_preserved (heap s) A size (sr_heap _ _ _ _ _ HS) Hsize)
    as [He|(i&k&h'&A'&He&HI'&Hi&Hk&Hmin&Hu&Hni&HK&HP)].
  { left. rewrite (on_heap_ok _ _ _ _ He). by destruct s. }
  right. exists i, k, {| heap := h'; header := header s |}, A'.
  split; [by apply on_heap_ok|]. split; [|done].
  assert (¬ accounted T L i) as Hacc by (by rewrite <- (sr_used _ _ _ _ _ HS)).
  unfold accounted in Hacc.
  eapply rep_same; [done|done|done|exact HK|exact HP|set_solver| |].
  - pose proof (sr_tree _ _ _ _ _ HS) as [??? Hleak]. split; try done.
    intros b [Hb| ->%elem_of_singleton]%elem_of_union; [by apply Hleak|].
    split; [naive_solver|]. split; [|naive_solver]. apply eq_None_not_Some. naive_solver.
  - intros b. rewrite Hu, (sr_used _ _ _ _ _ HS). unfold accounted. set_solver.
Qed.

Lemma leaked_block s A T L g b :
  state_rep s A T L g → b ∈ L → ∃ k t, A !! b = Some (k, t) ∧ t ≠ Free.
Proof. intros HS Hb. apply (sr_used _ _ _ _ _ HS b). by do 3 right. Qed.

Lemma free_step s A T L g b :
  state_rep s A T L g → b ∈ L →
  ∃ s' A', on_heap (free_block b) s = (Ok tt, s') ∧ state_rep s' A' T (L ∖ {[b]}) g ∧
    preserved {[b]} A (mem s) A' (mem s').
Proof.
  intros HS Hb. destruct (leaked_block _ _ _ _ _ _ HS Hb) as (k&t&HA&Ht).
  destruct (free_preserved (heap s) A b k t (sr_heap _ _ _ _ _ HS) HA Ht)
    as (h'&A'&He&HI'&Hu&HK&HP).
  exists {| heap := h'; header := header s |}, A'. split; [by apply on_heap_ok|].
  split; [|done]. pose proof (sr_tree _ _ _ _ _ HS) as HT.
  eapply rep_same; [done|done|done|exact HK|exact HP|set_solver|eapply tree_ok_sub; [done|set_solver]|].
  intros x. rewrite Hu, (sr_used _ _ _ _ _ HS). unfold accounted.
  destruct (decide (x = b)) as [->|Hne]; [|set_solver].
  destruct (tree_leak _ _ HT b Hb) as (H0&Hn&Hno). split; [naive_solver|].
  intros [->|[[o Ho]|[(i&o&Hi&Hin)|?]]]; [done|congruence|by destruct (Hno i o Hi)|set_solver].
Qed.

(** ** Writing to a block that belongs to no value *)
Lemma on_block_ok {C} (f : M Error Mapping C) s r m' :
  f (mem s) = (r, m') → on_block f s = (r, {| heap := with_map (heap s) m'; header := header s |}).
Proof. intros Hf. apply on_heap_ok. unfold on_mapping. by rewrite Hf. Qed.

Lemma write_step {C} (f : M Error Mapping C) s A T L g b k t t' a m' :
  state_rep s A T L g → b ∈ L → A !! b = Some (k, t) → t' ≠ Free → f (mem s) = (Ok a, m') →
  outside (mem s) m' b k → bord m' b = k → btype m' b = Some t' →
  ∃ s', on_block f s = (Ok a, s') ∧ mem s' = m' ∧
    state_rep s' (<[b := (k, t')]> A) T L g ∧ preserved {[b]} A (mem s) (<[b := (k, t')]> A) m'.
Proof.
  intros HS Hb HA Ht' Hf Hout Hbo Hbt.
  assert (t ≠ Free) as Ht0.
  { destruct (leaked_block _ _ _ _ _ _ HS Hb) as (k0&t0&HA0&Ht0). congruence. }
  destruct (write_preserved (heap s) A b k t t' m' (sr_heap _ _ _ _ _ HS) HA Ht0 Ht' Hout Hbo Hbt)
    as (HI'&Hu&HK&HP).
  eexists. split; [by apply on_block_ok|]. split; [done|]. split; [|done].
  eapply rep_same; [done|done|done|exact HK|exact HP|set_solver|apply HS|].
  intros x. rewrite Hu. apply HS.
Qed.

(** ** Changes of ownership: the memory stays the same *)
Lemma rep_ghost s A T L g T' L' :
  state_rep s A T L g → tree_ok T' L' →
  (∀ i o, T' !! i = Some o → obj_repr (mem s) A i o ∧ count_repr (mem s) T' i o) →
  (∀ b, accounted T' L' b ↔ accounted T L b) → state_rep s A T' L' g.
Proof.
  intros HS HT Ho Ha. split; try done; try apply HS.
  - intros i o Hi. by apply Ho.
  - intros i o Hi. by apply Ho.
  - intros b. rewrite Ha. apply HS.
Qed.

Lemma obj_repr_lost m A i d o : obj_repr m A i (add_lost d o) ↔ obj_repr m A i o.
Proof. split; intros []; split; done. Qed.

Lemma children_parentless s A T L g i :
  state_rep s A T L g → i ≠ 0 → (∀ o, T !! i = Some o → is_node (o_kind o) = false) →
  children T i = 0.
Proof.
  intros HS Hi0 Hi. unfold children. apply (f_equal Z.of_nat (y := 0%nat)).
  apply map_size_empty_iff, map_empty_filter. intros j o Hj [Hg Hp]. simpl in *.
  destruct (tree_parent _ _ (sr_tree _ _ _ _ _ HS) j o Hj Hg) as [_ [?|(po&Hpo&Hn)]]; [lia|].
  rewrite Hp in Hpo. apply Hi in Hpo. congruence.
Qed.

(** Counts of the values that are neither the one that changes nor its parent. *)
Lemma adj_count s A T L g i o p d :
  state_rep s A T L g → T !! i = Some o → is_node (o_kind o) = true →
  0 ≤ o_lost o + (if decide (p = i) then d else 0) →
  ∀ T', children T' i = children T i - (if decide (p = i) then d else 0) →
  count_repr (mem s) T' i (if decide (p = i) then add_lost d o else o).
Proof.
  intros HS Hi Hn Hl T' HT'. destruct (sr_count _ _ _ _ _ HS i o Hi Hn) as (Hp&?&?).
  intros _. case_decide; simpl; split; try lia; (split; [lia|done]).
Qed.

Lemma counts_parent p o :
  is_gone (o_kind o) = false → counts p o = if decide (o_parent o = p) then 1 else 0.
Proof.
  intros Hg. unfold counts. apply decide_ext. unfold child_of. simpl. naive_solver.
Qed.
Lemma counts_gone p o : is_gone (o_kind o) = true → counts p o = 0.
Proof.
  intros Hg. unfold counts. rewrite decide_False; [done|]. intros [? _]. simpl in *. congruence.
Qed.

Lemma adopt s A T L g i o :
  state_rep s A T L g → i ∈ L → is_gone (o_kind o) = false →
  (∀ b, b ∈ owned o → b ∈ L ∧ b ≠ i) → NoDup (owned o) →
  (o_parent o = 0 ∨ ∃ po, T !! o_parent o = Some po ∧ is_node (o_kind po) = true ∧ 1 ≤ o_lost po) →
  obj_repr (mem s) A i o → (is_node (o_kind o) = true → pay (mem s) i = 0 ∧ o_lost o = 0) →
  state_rep s A (<[i := o]> (adj (o_parent o) (-1) T)) (L ∖ ({[i]} ∪ list_to_set (owned o))) g.
Proof.
  intros HS Hi Hg Ho Hnd Hp Hr Hn. pose proof (sr_tree _ _ _ _ _ HS) as HT.
  destruct (tree_leak _ _ HT i Hi) as (Hi0&HiT&_). set (p := o_parent o) in *.
  assert (p ≠ i) as Hpi by (intros He; destruct Hp as [?|(po&Hpo&_)]; congruence).
  assert (adj p (-1) T !! i = None) as HiT' by (rewrite adj_lookup, HiT; done).
  apply (rep_ghost s A T L g); [done| | |].
  - apply tree_ok_insert; try done; [by apply adj_tree_ok|].
    destruct Hp as [?|(po&Hpo&?&?)]; [by left|right]. exists (add_lost (-1) po).
    fold p. rewrite adj_lookup, Hpo. simpl. by rewrite decide_True.
  - intros j x [[<- <-]|[Hij Hj]]%lookup_insert_Some.
    + split; [done|]. intros Hnode. destruct (Hn Hnode) as [-> ->].
      rewrite children_insert, adj_children, (counts_parent i), decide_False by done.
      erewrite (children_parentless s A T); [|done|done|congruence].
      split; [lia|]. split; [lia|]. by destruct (o_kind o).
    + rewrite adj_lookup in Hj. apply fmap_Some in Hj as (x0&Hx0&->).
      split; [case_decide; [apply obj_repr_lost|]; by apply HS|].
      intros Hnode. apply (adj_count s A T L g); try done; [by case_decide| |].
      * destruct (sr_count _ _ _ _ _ HS j x0 Hx0) as (_&?&_); [by case_decide|].
        case_decide as Hpj; [subst j|lia].
        destruct Hp as [H0|(po&Hpo&?&?)]; [|simplify_eq; lia].
        pose proof (sr_zero _ _ _ _ _ HS). congruence.
      * rewrite children_insert, adj_children, (counts_parent j) by done. fold p.
        case_decide; lia.
  - intros b. rewrite accounted_insert; [apply adj_accounted|by apply adj_tree_ok|done|].
    intros x Hx. by apply Ho.
Qed.

Lemma orphan s A T L g i o :
  state_rep s A T L g → T !! i = Some o → is_gone (o_kind o) = false → children T i = 0 →
  state_rep s A (delete i (adj (o_parent o) 1 T)) (L ∪ {[i]} ∪ list_to_set (owned o)) g.
Proof.
  intros HS Hi Hg Hc. pose proof (sr_tree _ _ _ _ _ HS) as HT. set (p := o_parent o).
  destruct (tree_parent _ _ HT i o Hi Hg) as [Hpi _]. fold p in Hpi.
  assert (i ≠ 0) as Hi0 by (intros ->; pose proof (sr_zero _ _ _ _ _ HS); congruence).
  assert (adj p 1 T !! i = Some o) as Hi'
    by (rewrite adj_lookup, Hi; simpl; by rewrite decide_False).
  assert (∀ j x, adj p 1 T !! j = Some x → ∃ x0, T !! j = Some x0 ∧ owned x = owned x0) as Hadj.
  { intros j x Hj. rewrite adj_lookup in Hj. apply fmap_Some in Hj as (x0&?&->).
    exists x0. split; [done|]. by case_decide. }
  apply (rep_ghost s A T L g); [done| | |].
  - apply tree_ok_delete; try done.
    + by apply adj_tree_ok.
    + by rewrite adj_children.
    + by eapply sr_owned_not_zero.
    + intros j x b (x0&Hx0&_)%Hadj Hb ->. by eapply (sr_owned_not_value _ _ _ _ _ HS i o j x0).
    + intros j x (x0&Hx0&->)%Hadj. by eapply (sr_owned_not_value _ _ _ _ _ HS j x0 i o).
  - intros j x [Hij Hj]%lookup_delete_Some.
    rewrite adj_lookup in Hj. apply fmap_Some in Hj as (x0&Hx0&->).
    split; [case_decide; [apply obj_repr_lost|]; by apply HS|].
    intros Hn. apply (adj_count s A T L g); try done; [by case_decide| |].
    + destruct (sr_count _ _ _ _ _ HS j x0 Hx0) as (_&?&_); [by case_decide|]. case_decide; lia.
    + erewrite children_delete, adj_children, (counts_parent j) by done. fold p. case_decide; lia.
  - intros b. rewrite accounted_delete by done. apply adj_accounted.
Qed.

Lemma dying s A T L g i o :
  state_rep s A T L g → T !! i = Some o → o_kind o = KNode →
  state_rep s A (<[i := with_kind KDying o]> (adj (o_parent o) 1 T))
    (L ∪ list_to_set (owned o)) g.
Proof.
  intros HS Hi Hk. pose proof (sr_tree _ _ _ _ _ HS) as HT. set (p := o_parent o).
  assert (is_gone (o_kind o) = false) as Hg by (by rewrite Hk).
  destruct (tree_parent _ _ HT i o Hi Hg) as [Hpi _]. fold p in Hpi.
  assert (adj p 1 T !! i = Some o) as Hi'
    by (rewrite adj_lookup, Hi; simpl; by rewrite decide_False).
  assert (∀ q, children (<[i := with_kind KDying o]> (adj p 1 T)) q
               = children T q - (if decide (p = q) then 1 else 0)) as Hch.
  { intros q. erewrite children_update, adj_children, (counts_parent q o) by done.
    rewrite (counts_gone q (with_kind KDying o)) by done. fold p. case_decide; lia. }
  apply (rep_ghost s A T L g); [done| | |].
  - apply tree_ok_gone; try done.
    + by apply adj_tree_ok.
    + by eapply sr_owned_not_zero.
    + intros j x b Hj Hb ->. rewrite adj_lookup in Hj. apply fmap_Some in Hj as (x0&Hx0&_).
      by eapply (sr_owned_not_value _ _ _ _ _ HS i o j x0).
  - intros j x [[<- <-]|[Hij Hj]]%lookup_insert_Some.
    + split.
      * destruct (sr_obj _ _ _ _ _ HS i o Hi) as [Hb Hp Hkr Hnm]. rewrite Hk in *.
        split; [done|done| |done]. unfold kind_repr in *. simpl. by rewrite Hk in Hkr.
      * intros _. destruct (sr_count _ _ _ _ _ HS i o Hi) as (?&?&_); [by rewrite Hk|].
        rewrite Hch, decide_False by done. simpl. split; [lia|done].
    + rewrite adj_lookup in Hj. apply fmap_Some in Hj as (x0&Hx0&->).
      split; [case_decide; [apply obj_repr_lost|]; by apply HS|].
      intros Hn. apply (adj_count s A T L g); try done; [by case_decide|].
      destruct (sr_count _ _ _ _ _ HS j x0 Hx0) as (_&?&_); [by case_decide|]. case_decide; lia.
  - intros b. rewrite accounted_gone by done. apply adj_accounted.
Qed.

(** A tombstone without children. *)
Lemma bury s A T L g i o :
  state_rep s A T L g → T !! i = Some o → o_kind o = KTomb → children T i = 0 →
  state_rep s A (delete i T) (L ∪ {[i]}) g.
Proof.
  intros HS Hi Hk Hc. pose proof (sr_tree _ _ _ _ _ HS) as HT.
  assert (owned o = []) as Ho by (unfold owned; by rewrite Hk).
  assert (i ≠ 0) as Hi0 by (intros ->; pose proof (sr_zero _ _ _ _ _ HS); congruence).
  replace (L ∪ {[i]}) with (L ∪ {[i]} ∪ list_to_set (owned o)) by (rewrite Ho; set_solver).
  apply (rep_ghost s A T L g); [done| | |].
  - apply tree_ok_delete; try done; rewrite ?Ho; [set_solver..|].
    intros j x Hj. by eapply (sr_owned_not_value _ _ _ _ _ HS j x i o).
  - intros j x [Hij Hj]%lookup_delete_Some. split; [by apply HS|].
    intros Hn. erewrite children_delete, counts_gone by (done || by rewrite Hk).
    rewrite Z.sub_0_r. by apply (sr_count _ _ _ _ _ HS).
  - intros b. by apply accounted_delete.
Qed.

(** ** Writing to a value's block *)
Lemma write_obj {C} (f : M Error Mapping C) s A T L g i o o' a m' :
  state_rep s A T L g → T !! i = Some o → alike o o' → o_order o' = o_order o →
  f (mem s) = (Ok a, m') → outside (mem s) m' i (o_order o) → bord m' i = o_order o →
  btype m' i = Some (kind_type (o_kind o')) →
  obj_repr m' (<[i := (o_order o, kind_type (o_kind o'))]> A) i o' →
  count_repr m' (<[i := o']> T) i o' →
  ∃ s', on_block f s = (Ok a, s') ∧ mem s' = m' ∧
    state_rep s' (<[i := (o_order o, kind_type (o_kind o'))]> A) (<[i := o']> T) L g ∧
    preserved {[i]} A (mem s) (<[i := (o_order o, kind_type (o_kind o'))]> A) m'.
Proof.
  intros HS Hi Ha Hord Hf Hout Hbo Hbt Hr Hcnt.
  pose proof (sr_obj_block _ _ _ _ _ HS _ _ Hi) as HA.
  destruct (write_preserved (heap s) A i (o_order o) (kind_type (o_kind o))
    (kind_type (o_kind o')) m' (sr_heap _ _ _ _ _ HS) HA) as (HI'&Hu&HK&HP);
    [by destruct (o_kind o)|by destruct (o_kind o')|done..|].
  eexists. split; [by apply on_block_ok|]. split; [done|]. split; [|done].
  assert (i ≠ 0) as Hi0 by (intros ->; pose proof (sr_zero _ _ _ _ _ HS); congruence).
  destruct (header_kept s A T L g {| heap := with_map (heap s) m'; header := header s |}
    _ _ HS HP) as (?&?&?); [set_solver|].
  split; try done.
  - apply HS.
  - eapply tree_ok_update; [apply HS|done|done].
  - intros j x [[<- <-]|[Hij Hj]]%lookup_insert_Some; [done|].
    eapply obj_repr_preserved; [apply HS|exact HP|set_solver| |by apply HS].
    intros b Hb ->%elem_of_singleton. by eapply (sr_owned_not_value _ _ _ _ _ HS j x i o).
  - intros j x [[<- <-]|[Hij Hj]]%lookup_insert_Some; [done|]. unfold count_repr.
    cbn [heap]. erewrite (pay_kept s A T L g {| heap := with_map (heap s) m'; header := header s |});
      [|done|exact HP|set_solver|done].
    erewrite children_alike by done. by apply HS.
  - intros b. rewrite Hu, (sr_used _ _ _ _ _ HS). symmetry. by eapply accounted_update.
  - by eapply (tail_kept s).
Qed.
End steps.
