(* ===== verification/StateCorrect.v ===== *)
(** The operations of a [State] against the forest it represents. *)

From S2P Require Import Prelude SharedBuffer Float64 InspectFormat InspectBlock InspectHeap HeapInvariant HeapCorrect HeapAllocate InspectOps InspectState StateInvariant StateSteps.

Abbreviation mem s := (mapping (heap s)).

Section runs.
Context {B : Bitfield} {BS : BitfieldSpec B} {og : Origin}.
Implicit Types (s : State) (A : blocks) (T : tree) (L : gset Z) (g : Z) (o : obj).

(** ** Running the reads of a represented state *)
Lemma on_block_rd {C} (f : Mapping → Z → result Error C) s i a :
  f (mem s) i = Ok a → on_block (rd f i) s = (Ok a, s).
Proof.
  intros Hf. unfold on_block, on_heap, on_mapping, rd, reading. rewrite Hf. by destruct s as [[]].
Qed.
Lemma bind_on_block_rd {C D} (f : Mapping → Z → result Error C) (k : C → M Error State D) s i a :
  f (mem s) i = Ok a → bind (on_block (rd f i)) k s = k a s.
Proof. intros Hf. by erewrite bind_ok by (by apply on_block_rd). Qed.
Lemma unwrap_on_block_rd {C} (f : Mapping → Z → result Error C) s i a :
  f (mem s) i = Ok a → on_block (unwrap (rd f i)) s = (Ok a, s).
Proof.
  intros Hf. unfold on_block, on_heap, on_mapping, unwrap, rd, reading. rewrite Hf.
  by destruct s as [[]].
Qed.

Lemma on_block_unwrap {C} (f : M Error Mapping C) s a s' :
  on_block f s = (Ok a, s') → on_block (unwrap f) s = (Ok a, s').
Proof.
  unfold on_block, on_heap, on_mapping, unwrap. destruct (f (mem s)) as [[] ?]; naive_solver.
Qed.
Lemma on_heap_unwrap {C} (f : M Error Heap C) s a s' :
  on_heap f s = (Ok a, s') → on_heap (unwrap f) s = (Ok a, s').
Proof.
  unfold on_heap, unwrap. destruct (f (heap s)) as [[] ?]; naive_solver.
Qed.

Section facts.
Context s A T L g (HS : state_rep s A T L g).

Lemma heap_block_ok i k t : A !! i = Some (k, t) → heap_block i s = (Ok i, s).
Proof.
  intros Hi. pose proof (sr_heap _ _ _ _ _ HS) as (_&_&F&HR).
  unfold heap_block, on_heap, reading. erewrite rep_get_block by done. by destruct s.
Qed.

Lemma block_type_of i k t : A !! i = Some (k, t) → block_type (mem s) i = Ok t.
Proof.
  intros Hi. pose proof (sr_heap _ _ _ _ _ HS) as (_&_&F&HR). by eapply rep_type.
Qed.

Lemma obj_slot i o : T !! i = Some o → map_ok (mem s) ∧ in_slots (mem s) i ∧
  btype (mem s) i = Some (kind_type (o_kind o)) ∧ bord (mem s) i = o_order o ∧
  0 ≤ i < 2 ^ 28 ∧ 0 ≤ o_order o < 8 ∧
  16 * i + 16 * 2 ^ o_order o ≤ zlen (mapping_bytes (mem s)).
Proof.
  intros Hi. pose proof (sr_obj_block _ _ _ _ _ HS _ _ Hi) as HA.
  destruct (inv_block _ _ (sr_heap _ _ _ _ _ HS) _ _ _ HA) as (?&?&?&?&?&?).
  split; [by eapply sr_map|done].
Qed.

Lemma obj_child_count i o :
  T !! i = Some o → is_node (o_kind o) = true → child_count (mem s) i = Ok (pay (mem s) i).
Proof.
  intros Hi Hn. destruct (obj_slot i o Hi) as (?&?&?&_).
  eapply child_count_ok; [done..|]. by destruct (o_kind o).
Qed.
End facts.

(** ** Writes of a value that keep its header *)
Lemma write_same_header (f : M Error Mapping unit) s A T L g i o o' m' :
  state_rep s A T L g → T !! i = Some o → alike o o' → o_order o' = o_order o →
  o_name o' = o_name o → o_name_block o' = o_name_block o →
  kind_type (o_kind o') = kind_type (o_kind o) → f (mem s) = (Ok tt, m') →
  outside (mem s) m' i (o_order o) → hdr m' i = hdr (mem s) i →
  (preserved {[i]} A (mem s) A m' → kind_repr m' A i o') → count_repr m' (<[i := o']> T) i o' →
  ∃ s', on_block f s = (Ok tt, s') ∧ mem s' = m' ∧
    state_rep s' A (<[i := o']> T) L g ∧ preserved {[i]} A (mem s) A (mem s').
Proof.
  intros HS Hi Ha Hord Hnm Hnb Hkt Hf Hout Hh Hkind Hcnt.
  destruct (obj_slot _ _ _ _ _ HS _ _ Hi) as (_&_&Hbt&Hbo&_).
  pose proof (sr_obj_block _ _ _ _ _ HS _ _ Hi) as HA.
  assert (bord m' i = o_order o) as Hbo' by (unfold bord; by rewrite Hh).
  assert (btype m' i = Some (kind_type (o_kind o'))) as Hbt' by (unfold btype; by rewrite Hh, Hkt).
  destruct (write_preserved (heap s) A i _ _ (kind_type (o_kind o')) m'
    (sr_heap _ _ _ _ _ HS) HA) as (_&_&_&HP);
    [by destruct (o_kind o)|by destruct (o_kind o')|done..|].
  assert (<[i := (o_order o, kind_type (o_kind o'))]> A = A) as HAid
    by (rewrite Hkt; by apply insert_id).
  rewrite HAid in HP.
  destruct (write_obj f s A T L g i o o' tt m' HS Hi Ha Hord Hf Hout Hbo' Hbt') as (s'&He&Hm'&HS'&_);
    [|done|].
  - rewrite HAid. destruct (sr_obj _ _ _ _ _ HS i o Hi) as [_ Hpar _ Hname].
    split; [by rewrite Hord, Hkt|rewrite Hh; by destruct Ha as (_&->&_)|by apply Hkind|].
    destruct Ha as (_&_&Hg&_). rewrite Hg, Hh, Hnm, Hnb by done. intros Hgo.
    destruct (Hname Hgo) as [? Hnr]. split; [done|].
    eapply name_repr_preserved; [apply HS|exact HP| |done].
    destruct (sr_name_block _ _ _ _ _ HS _ _ Hi Hgo) as [kn Hkn].
    intros Heq%elem_of_singleton. rewrite Heq, HA in Hkn. simplify_eq. by destruct (o_kind o).
  - rewrite HAid in HS'. exists s'. by rewrite Hm'.
Qed.

Lemma write_pay_obj (f : M Error Mapping unit) s A T L g i o o' v :
  state_rep s A T L g → T !! i = Some o → alike o o' → o_order o' = o_order o →
  o_name o' = o_name o → o_name_block o' = o_name_block o →
  kind_type (o_kind o') = kind_type (o_kind o) → u64_ok v →
  f (mem s) = (Ok tt, put_pay (mem s) i v) →
  (∀ m', preserved {[i]} A (mem s) A m' → pay m' i = v → outside (mem s) m' i (o_order o) →
     m' = put_pay (mem s) i v → kind_repr m' A i o') →
  (is_node (o_kind o') = true →
     v = children T i + o_lost o' ∧ 0 ≤ o_lost o' ∧ (o_kind o' = KTomb → v ≠ 0)) →
  ∃ s', on_block f s = (Ok tt, s') ∧ mem s' = put_pay (mem s) i v ∧
    state_rep s' A (<[i := o']> T) L g ∧ preserved {[i]} A (mem s) A (mem s').
Proof.
  intros HS Hi Ha Hord Hnm Hnb Hkt Hv Hf Hkind Hcnt.
  destruct (obj_slot _ _ _ _ _ HS _ _ Hi) as (Hm&Hin&_&_&?&?&_). pose proof Hin as [Hi0 _].
  assert (pay (put_pay (mem s) i v) i = v) as Hp by (by rewrite pay_put_pay, decide_True).
  assert (outside (mem s) (put_pay (mem s) i v) i (o_order o)) as Hout
    by (apply outside_put_pay; [done..|lia]).
  apply (write_same_header f s A T L g i o o'); try done.
  - by apply hdr_put_pay.
  - intros HP. by apply Hkind.
  - intros Hn. rewrite Hp. erewrite children_alike by done. by apply Hcnt.
Qed.

(** [set_child_count] of a node by [d] more. *)
Lemma set_count_step s A T L g p po d :
  state_rep s A T L g → T !! p = Some po → is_node (o_kind po) = true → -1 ≤ d ≤ 1 →
  0 ≤ o_lost po + d → o_lost po + d ≤ 2 ^ 32 → (o_kind po = KTomb → pay (mem s) p + d ≠ 0) →
  ∃ s', on_block (set_child_count p (pay (mem s) p + d)) s = (Ok tt, s') ∧
    state_rep s' A (adj p d T) L g ∧ preserved {[p]} A (mem s) A (mem s').
Proof.
  intros HS Hp Hn Hd Hl Hub Ht. destruct (obj_slot _ _ _ _ _ HS _ _ Hp) as (Hm&Hin&Hbt&_).
  destruct (sr_count _ _ _ _ _ HS p po Hp Hn) as (Hpay&?&_).
  pose proof (children_size T p). pose proof (sr_size _ _ _ _ _ HS). pose proof (children_nonneg T p).
  assert (u64_ok (pay (mem s) p + d)) by (unfold u64_ok; lia).
  destruct (write_pay_obj (set_child_count p (pay (mem s) p + d)) s A T L g p po
    (add_lost d po) (pay (mem s) p + d)) as (s'&He&_&HS'&HP); try done.
  - eapply set_child_count_ok; [done..| |done]. by destruct (o_kind po).
  - intros m' _ _ _ _. pose proof (or_kind _ _ _ _ (sr_obj _ _ _ _ _ HS p po Hp)) as Hk.
    unfold kind_repr in *. simpl. by destruct (o_kind po).
  - intros _. simpl. split; [lia|]. split; [lia|done].
  - exists s'. split; [done|]. erewrite adj_Some by done. done.
Qed.

(** ** Reserving a block and its name *)

(** A parent is the header block (the root) or a value of the forest. *)
Definition parent_known T (p : Z) : Prop := p = 0 ∨ is_Some (T !! p).
Definition is_parent T (p : Z) : bool :=
  match T !! p with
  | Some po => is_node (o_kind po)
  | None => p =? 0
  end.
(** No child count is near its limit. *)
Definition lost_ok T : Prop := ∀ i o, T !! i = Some o → 0 ≤ o_lost o < 2 ^ 31.

Lemma count_child_ok s A T L g p :
  state_rep s A T L g → parent_known T p → lost_ok T →
  if is_parent T p then
    ∃ s', count_child p s = (Ok tt, s') ∧ state_rep s' A (adj p 1 T) L g ∧
      preserved (if decide (p = 0) then ∅ else {[p]}) A (mem s) A (mem s')
  else ∃ t, count_child p s = (Err (InvalidBlockType t), s).
Proof.
  intros HS Hk Hlo. unfold count_child, is_parent. pose proof (sr_zero _ _ _ _ _ HS) as H0.
  destruct (T !! p) as [po|] eqn:Hp.
  - pose proof (sr_obj_block _ _ _ _ _ HS _ _ Hp) as HA.
    assert (p ≠ 0) as Hp0 by congruence.
    erewrite bind_ok by (by eapply heap_block_ok).
    erewrite bind_on_block_rd by (by eapply block_type_of).
    destruct (is_node (o_kind po)) eqn:Hn; [|by destruct (o_kind po); try done; eexists].
    destruct (sr_count _ _ _ _ _ HS p po Hp Hn) as (Hpay&?&Htomb).
    pose proof (children_size T p). pose proof (sr_size _ _ _ _ _ HS).
    pose proof (children_nonneg T p). pose proof (Hlo p po Hp).
    destruct (set_count_step s A T L g p po 1) as (s'&He&HS'&HP); try done; try lia.
    pose proof (obj_child_count _ _ _ _ _ HS _ _ Hp Hn) as Hcc.
    exists s'. rewrite decide_False by done. split; [|done].
    destruct (o_kind po); try done; cbn [kind_type];
      (erewrite bind_ok by (by apply unwrap_on_block_rd);
       rewrite (bind_lift _ _ _ (pay (mem s) p + 1)) by (apply uadd_ok; lia); exact He).
  - destruct Hk as [->|[? ?]]; [|congruence]. simpl.
    pose proof (sr_header_block _ _ _ _ _ HS) as HA.
    rewrite (bind_ok _ _ _ _ _ (heap_block_ok _ _ _ _ _ HS _ _ _ HA)).
    rewrite (bind_on_block_rd _ _ _ _ _ (block_type_of _ _ _ _ _ HS _ _ _ HA)).
    exists s. split; [done|]. rewrite adj_None by done. done.
Qed.

(** What a name becomes. *)
Definition stored_name (name : list Z) : list Z := take (Z.to_nat 2040) name.

Lemma name_block_size name kn :
  let max_bytes := MAX_ORDER_SIZE - HEADER_SIZE_BYTES in
  let bytes := if max_bytes <? zlen name then take (Z.to_nat max_bytes) name else name in
  8 < block_size_for_payload (zlen bytes) ≤ 2048 ∧
  (0 ≤ kn < 8 → block_size_for_payload (zlen bytes) ≤ 16 * 2 ^ kn → clip kn name = stored_name name).
Proof.
  cbv zeta. change (MAX_ORDER_SIZE - HEADER_SIZE_BYTES) with 2040.
  set (bytes := if 2040 <? zlen name then _ else _).
  assert (zlen bytes = Z.min (zlen name) 2040) as Hb.
  { unfold bytes. case_match; to_props; [rewrite zlen_take_min; lia|lia]. }
  pose proof (zlen_nonneg name). unfold block_size_for_payload. rewrite Hb.
  change MAX_ORDER_SIZE with 2048. change HEADER_SIZE_BYTES with 8. change MIN_ORDER_SIZE with 16.
  split; [lia|]. intros Hkn Hle. unfold clip, stored_name.
  pose proof (Z.pow_le_mono_r 2 kn 7 ltac:(lia) ltac:(lia)). change (2 ^ 7) with 128 in *.
  destruct (decide (zlen name ≤ 2040)).
  - rewrite !take_ge; [done|..]; unfold zlen in *; lia.
  - by replace (16 * 2 ^ kn - 8) with 2040 by lia.
Qed.

Lemma become_name_step s A T L g n kn name :
  state_rep s A T L g → n ∈ L → A !! n = Some (kn, Reserved) → bytes_ok name →
  ∃ s', on_block (unwrap (become_name n name)) s = (Ok tt, s') ∧
    state_rep s' (<[n := (kn, Name)]> A) T L g ∧
    name_repr (mem s') (<[n := (kn, Name)]> A) n (clip kn name) ∧
    preserved {[n]} A (mem s) (<[n := (kn, Name)]> A) (mem s').
Proof.
  intros HS Hn HA Hb. pose proof (sr_map _ _ _ _ _ HS) as Hm.
  destruct (inv_block _ _ (sr_heap _ _ _ _ _ HS) _ _ _ HA) as (?&?&Hin&Hfit&Hbo&Hbt).
  pose proof (zlen_clip kn name ltac:(lia)) as Hc. pose proof (zlen_nonneg name).
  pose proof (Z.pow_le_mono_r 2 kn 7 ltac:(lia) ltac:(lia)). change (2 ^ 7) with 128 in *.
  pose proof (pow2_pos kn ltac:(lia)).
  destruct (name_header_fields (hdr (mem s) n) (zlen (clip kn name))) as (Hh1&Hh2&Hh3&Hh4);
    [by apply hdr_ok|lia|].
  destruct (put_payload_facts (mem s) n kn (name_header (hdr (mem s) n) (zlen (clip kn name)))
    (clip kn name)) as (Hout&Hhdr&Hsl); [done|done|lia|done|done|by apply bytes_ok_clip|lia|].
  destruct (write_step (become_name n name) s A T L g n kn Reserved Name tt
    (put_bytes (put_hdr (mem s) n (name_header (hdr (mem s) n) (zlen (clip kn name))))
       (16 * n + 8) (clip kn name))) as (s'&He&Hm'&HS'&HP); try done.
  - by apply become_name_ok.
  - unfold bord. rewrite Hhdr, Hh2. done.
  - unfold btype. by rewrite Hhdr.
  - exists s'. split; [by apply on_block_unwrap|]. split; [done|]. rewrite Hm'.
    split; [|done]. exists kn. rewrite lookup_insert_eq, Hhdr. split; [done|].
    split; [done|]. split; [lia|done].
Qed.

(** The blocks [b] and [n] were reserved for a value and hold its name. *)
Record reserved s A T L g (name : list Z) (p size b n : Z) (s' : State) (A' : blocks) : Prop := {
  rv_rep : state_rep s' A' (adj p 1 T) (L ∪ {[b]} ∪ {[n]}) g;
  rv_ne : b ≠ n;
  rv_b : b ∉ L;
  rv_n : n ∉ L;
  rv_block : ∃ k, A' !! b = Some (k, Reserved) ∧ size ≤ 16 * 2 ^ k ∧
    ∀ j, 0 ≤ j < k → 16 * 2 ^ j < size;
  rv_name : name_repr (mem s') A' n (stored_name name)
}.

Lemma not_leaked s A T L g i : state_rep s A T L g → ¬ used A i → i ∉ L.
Proof. intros HS Hu Hi. apply Hu, (sr_used _ _ _ _ _ HS). by do 3 right. Qed.

Lemma not_parent s A T L g i p : state_rep s A T L g → ¬ used A i → parent_known T p → i ≠ p.
Proof.
  intros HS Hu Hp ->. apply Hu, (sr_used _ _ _ _ _ HS).
  destruct Hp as [->|?]; [by left|by right; left].
Qed.

Lemma reserve_error T L g b n s1 A1 e p :
  state_rep s1 A1 T (L ∪ {[b]} ∪ {[n]}) g → b ≠ n → b ∉ L → n ∉ L →
  ∃ s' A', (on_heap (unwrap (free_block n)) ;;; on_heap (unwrap (free_block b)) ;;;
            fail (InvalidParentIndex p e) : M Error State (Z * Z)) s1
           = (Err (InvalidParentIndex p e), s') ∧ state_rep s' A' T L g.
Proof.
  intros HS1 Hne Hb Hn.
  destruct (free_step s1 A1 T _ g n HS1) as (s2&A2&E2&HS2&_); [set_solver|].
  erewrite bind_ok by (apply on_heap_unwrap; exact E2).
  destruct (free_step s2 A2 T _ g b HS2) as (s3&A3&E3&HS3&_); [set_solver|].
  erewrite bind_ok by (apply on_heap_unwrap; exact E3).
  exists s3, A3. split; [done|].
  by replace L with (((L ∪ {[b]} ∪ {[n]}) ∖ {[n]}) ∖ {[b]}) by set_solver.
Qed.

Lemma reserve_ok s A T L g name p size :
  state_rep s A T L g → bytes_ok name → 8 < size ≤ 2048 → parent_known T p → lost_ok T →
  (∃ e s' A', allocate_reserved_value name p size s = (Err e, s') ∧ state_rep s' A' T L g ∧
     (e = HeapAtMaximumSize ∨ is_parent T p = false ∧ ∃ e', e = InvalidParentIndex p e')) ∨
  (is_parent T p = true ∧ ∃ b n s' A', allocate_reserved_value name p size s = (Ok (b, n), s') ∧
     reserved s A T L g name p size b n s' A').
Proof.
  intros HS Hname Hsize Hp Hlo. unfold allocate_reserved_value.
  destruct (alloc_step s A T L g size HS Hsize)
    as [E1|(b&k&s1&A1&E1&HS1&Hb&Hk&Hmin&Hub&HP1)].
  { left. exists HeapAtMaximumSize, s, A. by erewrite bind_err by exact E1; auto. }
  erewrite bind_ok by exact E1. cbv zeta.
  pose proof (not_leaked _ _ _ _ _ _ HS Hub) as HbL.
  destruct (name_block_size name 0) as [Hns _]. cbv zeta in Hns.
  set (bytes := if _ <? zlen name then _ else name) in *.
  destruct (alloc_step s1 A1 T _ g _ HS1 Hns) as [E2|(n&kn&s2&A2&E2&HS2&Hn&Hkn&_&Hun&HP2)].
  { left. destruct (free_step s1 A1 T _ g b HS1) as (s2&A2&Ef&HS2&_); [set_solver|].
    exists HeapAtMaximumSize, s2, A2. erewrite bind_ok by (by apply try_err).
    cbv beta iota. erewrite bind_ok by exact Ef. split; [done|].
    replace L with ((L ∪ {[b]}) ∖ {[b]}) by set_solver. auto. }
  erewrite bind_ok by (by apply try_ok). cbv beta iota.
  pose proof (not_leaked _ _ _ _ _ _ HS1 Hun) as HnL.
  destruct (inv_block _ _ (sr_heap _ _ _ _ _ HS2) _ _ _ Hn) as (_&Hkn8&_).
  destruct (become_name_step s2 A2 T _ g n kn name HS2) as (s3&E3&HS3&Hnm&HP3); [set_solver|done..|].
  rewrite (proj2 (name_block_size name kn) Hkn8 Hkn) in Hnm.
  erewrite bind_ok by exact E3.
  destruct (HP2 b k Reserved) as [Hb2 _]; [set_solver|done..|].
  pose proof (count_child_ok s3 _ T _ g p HS3 Hp Hlo) as Hcc.
  destruct (is_parent T p) eqn:Hpar.
  - destruct Hcc as (s4&E4&HS4&HP4). right. split; [done|]. exists b, n, s4, (<[n := (kn, Name)]> A2).
    erewrite bind_ok by (by apply try_ok). split; [done|]. split; try done; [set_solver..| |].
    + exists k. rewrite lookup_insert_ne by set_solver. done.
    + eapply name_repr_preserved; [apply HS3|exact HP4| |done].
      case_decide; [set_solver|]. rewrite elem_of_singleton. exact (not_parent _ _ _ _ _ _ _ HS1 Hun Hp).
  - destruct Hcc as (t&E4). left. erewrite bind_ok by (by apply try_err). cbv beta iota.
    destruct (reserve_error T L g b n s3 _ (InvalidBlockType t) p HS3) as (s5&A5&E5&HS5);
      [set_solver..|]. exists (InvalidParentIndex p (InvalidBlockType t)), s5, A5.
    split; [exact E5|]. eauto 6.
Qed.

Lemma adj_undo p d T : adj p (- d) (adj p d T) = T.
Proof.
  apply map_eq. intros i. rewrite !adj_lookup. destruct (T !! i) as [o|]; [|done]. simpl.
  case_decide; [|done]. f_equal. destruct o. unfold add_lost, with_lost. simpl. f_equal. lia.
Qed.

Lemma parent_range s A T L g p : state_rep s A T L g → parent_known T p → 0 ≤ p < 2 ^ 28.
Proof.
  intros HS [->|[o Hp]]; [lia|]. by destruct (obj_slot _ _ _ _ _ HS p o Hp) as (_&_&_&_&?&_).
Qed.
Lemma is_parent_known T p : is_parent T p = true → parent_known T p.
Proof.
  unfold is_parent, parent_known. destruct (T !! p); [by eauto|]. intros ?%Z.eqb_eq. by left.
Qed.
Lemma is_parent_adj T p d q : is_parent (adj q d T) p = is_parent T p.
Proof.
  unfold is_parent. rewrite adj_lookup. destruct (T !! p) as [o|]; [|done]. simpl. by case_decide.
Qed.

(** The new value of [reserved] blocks once its header and payload are written. *)
Definition new_obj (kd : kind) (k : Z) (name : list Z) (n p : Z) : obj :=
  Obj kd k (stored_name name) n [] p 0.

Lemma finish_create (f : M Error Mapping unit) s A T L g name p size b n s' A' kd v k :
  reserved s A T L g name p size b n s' A' → is_parent T p = true → lost_ok T →
  A' !! b = Some (k, Reserved) → is_any_value (kind_type kd) = true → is_gone kd = false → u64_ok v →
  (map_ok (mem s') → in_slots (mem s') b → btype (mem s') b = Some Reserved →
   0 ≤ n < 2 ^ 28 → 0 ≤ p < 2 ^ 28 →
   f (mem s') = (Ok tt, put_value (mem s') b (kind_type kd) n p v)) →
  (∀ A2, pay (put_value (mem s') b (kind_type kd) n p v) b = v →
     kind_repr (put_value (mem s') b (kind_type kd) n p v) A2 b (new_obj kd k name n p)) →
  (is_node kd = true → v = 0) →
  ∃ s2 A2, on_block f s' = (Ok tt, s2) ∧
    state_rep s2 A2 (<[b := new_obj kd k name n p]> T) L g.
Proof.
  intros [HS' Hne HbL HnL _ Hnm] Hpar Hlo HA' Hany Hgone Hv Hf Hkind Hnode.
  pose proof (sr_heap _ _ _ _ _ HS') as HI.
  destruct (inv_block _ _ HI _ _ _ HA') as (?&?&Hin&Hfit&Hbo&Hbt).
  pose proof Hnm as (kn&Hkn&_). destruct (inv_block _ _ HI _ _ _ Hkn) as (Hnr&_).
  pose proof (sr_map _ _ _ _ _ HS') as Hm.
  assert (parent_known (adj p 1 T) p) as Hpk by (apply is_parent_known; by rewrite is_parent_adj).
  pose proof (parent_range _ _ _ _ _ _ HS' Hpk) as Hpr.
  destruct (put_value_facts (mem s') b k (kind_type kd) n p v)
    as (Hout&Ho2&Ht2&Hp2&Hn2&Hpp2); [done|done|lia|done..|].
  destruct (write_step f s' A' (adj p 1 T) (L ∪ {[b]} ∪ {[n]}) g b k Reserved (kind_type kd) tt
    (put_value (mem s') b (kind_type kd) n p v)) as (s2&E2&Hm2&HS2&HP2); try done.
  { set_solver. } { by destruct kd. } { by apply Hf. }
  exists s2, (<[b := (k, kind_type kd)]> A'). split; [done|].
  rewrite <- (adj_undo p 1 T) at 1.
  replace L with ((L ∪ {[b]} ∪ {[n]}) ∖ ({[b]} ∪ list_to_set [n])) at 1 by set_solver.
  assert (owned (new_obj kd k name n p) = [n]) as Hown by (unfold owned, new_obj; simpl; by rewrite Hgone).
  rewrite <- Hown. apply (adopt s2 _ (adj p 1 T)); [done|set_solver|done|..]; rewrite ?Hown.
  - set_solver.
  - apply NoDup_singleton.
  - unfold is_parent in Hpar. cbn [o_parent new_obj]. destruct (T !! p) as [po|] eqn:Hp.
    + right. exists (add_lost 1 po). rewrite adj_lookup, Hp. simpl. rewrite decide_True by done.
      split; [done|]. split; [done|]. simpl. pose proof (Hlo p po Hp). lia.
    + left. by apply Z.eqb_eq.
  - rewrite Hm2. split; simpl; [by rewrite lookup_insert_eq|done|by apply Hkind|].
    intros _. split; [done|]. eapply name_repr_preserved; [exact HI|exact HP2|set_solver|done].
  - intros Hn. rewrite Hm2, Hp2. split; [by apply Hnode|done].
Qed.

(** ** The header's lock *)
Lemma header_step (f : M Error Mapping unit) s A T L g v :
  state_rep s A T L g → u64_ok v → f (mem s) = (Ok tt, put_pay (mem s) 0 v) →
  ∃ s', on_block f s = (Ok tt, s') ∧ state_rep s' A T L v.
Proof.
  intros HS Hv Hf. pose proof (sr_map _ _ _ _ _ HS) as Hm.
  pose proof (sr_header_block _ _ _ _ _ HS) as HA.
  destruct (inv_block _ _ (sr_heap _ _ _ _ _ HS) _ _ _ HA) as (_&_&Hin&_&Hbo&Hbt).
  destruct (write_preserved (heap s) A 0 0 Header Header (put_pay (mem s) 0 v)
    (sr_heap _ _ _ _ _ HS) HA) as (HI'&Hu&HK&HP); [done|done|by apply outside_put_pay|..].
  { unfold bord. by rewrite hdr_put_pay. } { unfold btype. by rewrite hdr_put_pay. }
  rewrite insert_id in HI', Hu, HP by done.
  eexists. split; [by apply on_block_ok|].
  assert (∀ i o, T !! i = Some o → i ≠ 0) as Hne.
  { intros i o Hi ->. pose proof (sr_zero _ _ _ _ _ HS). congruence. }
  split; simpl; try done; try apply HS.
  - rewrite hdr_put_pay by done. apply HS.
  - by rewrite pay_put_pay, decide_True.
  - intros i o Hi. eapply obj_repr_preserved; [apply HS|exact HP| | |by apply HS].
    + pose proof (Hne i o Hi). set_solver.
    + intros b Hb ->%elem_of_singleton. by eapply (sr_owned_not_zero _ _ _ _ _ HS i o).
  - intros i o Hi. unfold count_repr. destruct (obj_slot _ _ _ _ _ HS i o Hi) as (_&_&_&_&?&_).
    rewrite pay_put_pay, decide_False by (done || lia || by apply not_eq_sym, (Hne i o)).
    by apply HS.
  - by eapply (tail_kept s).
Qed.

Definition finished {C} (r : result Error C) : Prop :=
  match r with Ok _ | Err _ => True | _ => False end.

Definition next2 (g : Z) : Z := (g + 2) mod 2 ^ 64.

Lemma gen_range s A T L g : state_rep s A T L g → u64_ok g.
Proof.
  intros HS. rewrite <- (sr_gen _ _ _ _ _ HS). apply pay_ok; [by eapply sr_map|].
  by destruct (inv_block _ _ (sr_heap _ _ _ _ _ HS) _ _ _ (sr_header_block _ _ _ _ _ HS))
    as (_&_&?&_).
Qed.

(** Locking the header makes the generation odd. *)
Lemma lock_step s A T L g :
  state_rep s A T L g → Z.even g = true →
  ∃ s1, on_block (lock_header (header s)) s = (Ok tt, s1) ∧ state_rep s1 A T L (g + 1).
Proof.
  intros HS Hev. pose proof (gen_range _ _ _ _ _ HS) as Hg.
  assert (g ≠ 2 ^ 64 - 1) as Hmax by (intros ->; done).
  pose proof (sr_header_block _ _ _ _ _ HS) as HA.
  destruct (inv_block _ _ (sr_heap _ _ _ _ _ HS) _ _ _ HA) as (_&_&Hin&_&_&Hbt).
  destruct (header_step (lock_header 0) s A T L g (g + 1) HS) as (s1&E1&HS1).
  { unfold u64_ok in *. lia. }
  { rewrite lock_header_ok; [|by eapply sr_map|done..|by rewrite (sr_gen _ _ _ _ _ HS)].
    rewrite (sr_gen _ _ _ _ _ HS). unfold next_generation. by by_ltb. }
  exists s1. split; [by rewrite (sr_header _ _ _ _ _ HS)|done].
Qed.
Lemma with_lock_panics {C} (code : M Error State C) s A T L g :
  state_rep s A T L g → Z.even g = true → (∀ s1, state_rep s1 A T L (g + 1) → fst (code s1) = Panic) →
  fst (with_header_lock code s) = Panic.
Proof.
  intros HS Hev Hcode. destruct (lock_step _ _ _ _ _ HS Hev) as (s1&E1&HS1). specialize (Hcode s1 HS1).
  unfold with_header_lock. rewrite (bind_ok _ _ _ s1 tt) by exact E1. unfold bind, try.
  by destruct (code s1) as [[]].
Qed.
Lemma with_lock_rule {C} (code : M Error State C) s A T L g
    (Q : result Error C → tree → gset Z → Prop) :
  state_rep s A T L g → Z.even g = true →
  (∀ s1, state_rep s1 A T L (g + 1) → ∃ r s2 A2 T2 L2,
     code s1 = (r, s2) ∧ state_rep s2 A2 T2 L2 (g + 1) ∧ finished r ∧ Q r T2 L2) →
  ∃ r s3 A3 T3 L3, with_header_lock code s = (r, s3) ∧ state_rep s3 A3 T3 L3 (next2 g) ∧
    finished r ∧ Q r T3 L3.
Proof.
  intros HS Hev Hcode. pose proof (gen_range _ _ _ _ _ HS) as Hg.
  assert (g ≠ 2 ^ 64 - 1) as Hmax by (intros ->; done).
  unfold with_header_lock. destruct (lock_step _ _ _ _ _ HS Hev) as (s1&E1&HS1).
  rewrite (bind_ok _ _ _ s1 tt) by exact E1.
  destruct (Hcode s1 HS1) as (r&s2&A2&T2&L2&E2&HS2&Hfin&HQ).
  pose proof (sr_header_block _ _ _ _ _ HS2) as HA2.
  destruct (inv_block _ _ (sr_heap _ _ _ _ _ HS2) _ _ _ HA2) as (_&_&Hin2&_&_&Hbt2).
  destruct (header_step (unlock_header 0) s2 A2 T2 L2 (g + 1) (next2 g) HS2) as (s3&E3&HS3).
  { unfold u64_ok, next2. by apply Z.mod_pos_bound. }
  { rewrite unlock_header_ok; [|by eapply sr_map|done..|].
    - rewrite (sr_gen _ _ _ _ _ HS2). unfold next_generation, next2, u64_ok in *.
      case_match; to_props.
      + by replace (g + 2) with (2 ^ 64) by lia.
      + rewrite Z.mod_small by lia. do 2 f_equal. lia.
    - rewrite (sr_gen _ _ _ _ _ HS2), Z.odd_add, <- Z.negb_even, Hev. done. }
  assert ((λ s, on_block (unlock_header (header s)) s) s2 = (Ok tt, s3)) as E3'
    by (simpl; by rewrite (sr_header _ _ _ _ _ HS2)).
  exists r, s3, A2, T2, L2. split; [|done].
  destruct r as [a|e| |]; try done.
  - erewrite bind_ok by (by apply try_ok). by erewrite bind_ok by exact E3'.
  - erewrite bind_ok by (by apply try_err). by erewrite bind_ok by exact E3'.
Qed.
End runs.
