(* ===== verification/StateOps.v ===== *)
(** The public operations of a [State]: creating, changing and freeing values
    ([delete_value], [free_value] and [free_property]).  Each runs under the lock of the
    header, which it leaves unlocked with a new generation, and never panics. *)

From S2P Require Import Prelude SharedBuffer Float64 InspectFormat InspectBlock InspectHeap HeapInvariant HeapCorrect HeapAllocate InspectOps InspectState StateInvariant StateSteps StateCorrect.

Section create.
Context {B : Bitfield} {BS : BitfieldSpec B} {og : Origin}.
Implicit Types (s : State) (A : blocks) (T : tree) (L : gset Z) (g : Z) (o : obj).

(** A creation adds one new value or leaves the forest as it is: when the heap
    is exhausted or the parent cannot have children. *)
Definition created (T : tree) (name : list Z) (p size : Z) (P : kind → Prop)
    (r : result Error Z) (T' : tree) : Prop :=
  match r with
  | Ok b => is_parent T p = true ∧ T !! b = None ∧
      ∃ kd k n, P kd ∧ T' = <[b := new_obj kd k name n p]> T ∧ size ≤ 16 * 2 ^ k ∧
        ∀ j, 0 ≤ j < k → 16 * 2 ^ j < size
  | Err e => T' = T ∧
      (e = HeapAtMaximumSize ∨ is_parent T p = false ∧ ∃ e', e = InvalidParentIndex p e')
  | _ => False
  end.

Lemma create_rule (become : Z → Z → M Error Mapping unit) s A T L g name p size t v (P : kind → Prop) :
  state_rep s A T L g → Z.even g = true → bytes_ok name → 8 < size ≤ 2048 →
  parent_known T p → lost_ok T → is_any_value t = true → u64_ok v →
  (∀ m b n, map_ok m → in_slots m b → btype m b = Some Reserved → 0 ≤ n < 2 ^ 28 → 0 ≤ p < 2 ^ 28 →
     become b n m = (Ok tt, put_value m b t n p v)) →
  (∀ m b n k, map_ok m → 0 ≤ b → 0 ≤ k → 16 * b + 16 * 2 ^ k ≤ zlen (mapping_bytes m) → size ≤ 16 * 2 ^ k →
     ∃ kd, P kd ∧ kind_type kd = t ∧ is_gone kd = false ∧ (is_node kd = true → v = 0) ∧
       ∀ A2, pay m b = v → kind_repr m A2 b (new_obj kd k name n p)) →
  ∃ r s' A' T', with_header_lock (
      bn <- allocate_reserved_value name p size ;;
      on_block (become (fst bn) (snd bn)) ;;; ret (fst bn)) s = (r, s') ∧
    state_rep s' A' T' L (next2 g) ∧ created T name p size P r T'.
Proof.
  intros HS Hev Hname Hsize Hp Hlo Ht Hv Hbec Hkind.
  destruct (with_lock_rule (bn <- allocate_reserved_value name p size ;;
      on_block (become (fst bn) (snd bn)) ;;; ret (fst bn)) s A T L g
      (λ r T2 L2, L2 = L ∧ created T name p size P r T2) HS Hev)
    as (r&s3&A3&T3&L3&E&HS3&_&->&HQ); [|by exists r, s3, A3, T3].
  intros s1 HS1. destruct (reserve_ok s1 A T L (g + 1) name p size HS1)
    as [(e&s2&A2&E2&HS2&He)|(Hpar&b&n&s2&A2&E2&Hres)]; try done.
  { exists (Err e), s2, A2, T, L. erewrite bind_err by exact E2. done. }
  erewrite bind_ok by exact E2. cbn [fst snd].
  pose proof Hres as [HS2 _ _ _ (k&Hk&Hsz&Hmin) _].
  destruct (inv_block _ _ (sr_heap _ _ _ _ _ HS2) _ _ _ Hk) as (?&?&?&Hfit&_).
  pose proof (sr_map _ _ _ _ _ HS2) as Hm2.
  assert (map_ok (put_value (mem s2) b t n p v) ∧
    zlen (mapping_bytes (put_value (mem s2) b t n p v)) = zlen (mapping_bytes (mem s2))) as [Hm' Hl'].
  { unfold put_value. split.
    - apply put_pay_ok; [by apply put_hdr_ok|by apply in_slots_put_hdr].
    - rewrite put_pay_len, put_hdr_len by (done || by apply in_slots_put_hdr). done. }
  destruct (Hkind (put_value (mem s2) b t n p v) b n k) as (kd&HP&Htk&Hgo&Hno&Hkr);
    [done|lia|lia|lia|done|]. subst t.
  destruct (finish_create (become b n) s1 A T L (g + 1) name p size b n s2 A2 kd v k)
    as (s3&A3&E3&HS3); try done.
  { intros. by apply Hbec. }
  exists (Ok b), s3, A3, (<[b := new_obj kd k name n p]> T), L.
  erewrite bind_ok by exact E3. split; [done|]. split; [done|]. split; [done|].
  split; [done|]. split; [done|]. split; [|by exists kd, k, n].
  pose proof (tree_leak _ _ (sr_tree _ _ _ _ _ HS2) b ltac:(set_solver)) as (_&Hb&_).
  rewrite adj_lookup in Hb. by destruct (T !! b).
Qed.

Lemma order_zero k : 0 ≤ k → (∀ j, 0 ≤ j < k → 16 * 2 ^ j < 16) → k = 0.
Proof. intros Hk Hmin. destruct (decide (k = 0)); [done|]. specialize (Hmin 0). lia. Qed.

Section creators.
Context s A T L g (name : list Z) (p : Z).
Context (HS : state_rep s A T L g) (Hev : Z.even g = true) (Hname : bytes_ok name).
Context (Hp : parent_known T p) (Hlo : lost_ok T).

Lemma create_node_spec :
  ∃ r s' A' T', create_node name p s = (r, s') ∧ state_rep s' A' T' L (next2 g) ∧
    created T name p 16 (eq KNode) r T'.
Proof.
  apply (create_rule (λ b n, become_node b n p) s A T L g name p 16 NodeValue 0); try done.
  - intros. by apply become_node_ok.
  - intros. by exists KNode.
Qed.

Lemma create_int_spec v :
  signed_ok 64 v = true →
  ∃ r s' A' T', create_metric (T := int_metric) name v p s = (r, s') ∧
    state_rep s' A' T' L (next2 g) ∧ created T name p 16 (eq (KInt v)) r T'.
Proof.
  intros Hv. apply (create_rule (λ b n, become_int_value b v n p) s A T L g name p 16 IntValue (to_unsigned 64 v)); try done.
  - unfold u64_ok, to_unsigned. by apply (Z.mod_pos_bound v).
  - intros. by apply become_int_value_ok.
  - intros. by exists (KInt v).
Qed.
Lemma create_uint_spec v :
  u64_ok v →
  ∃ r s' A' T', create_metric (T := uint_metric) name v p s = (r, s') ∧
    state_rep s' A' T' L (next2 g) ∧ created T name p 16 (eq (KUint v)) r T'.
Proof.
  intros Hv. apply (create_rule (λ b n, become_uint_value b v n p) s A T L g name p 16 UintValue v); try done.
  - intros. by apply become_uint_value_ok.
  - intros. by exists (KUint v).
Qed.
Lemma create_double_spec v :
  u64_ok v →
  ∃ r s' A' T', create_metric (T := double_metric) name v p s = (r, s') ∧
    state_rep s' A' T' L (next2 g) ∧ created T name p 16 (eq (KDouble v)) r T'.
Proof.
  intros Hv. apply (create_rule (λ b n, become_double_value b v n p) s A T L g name p 16 DoubleValue v); try done.
  - intros. by apply become_double_value_ok.
  - intros. by exists (KDouble v).
Qed.

(** The words that are in memory already. *)
Lemma words_exist (bs : list Z) (n : nat) :
  bytes_ok bs → zlen bs = 8 * Z.of_nat n →
  ∃ vals, zlen vals = Z.of_nat n ∧ Forall u64_ok vals ∧ array_bytes vals = bs.
Proof.
  revert bs. induction n as [|n IH]; intros bs Hb Hl.
  { exists []. split; [done|]. split; [constructor|]. by destruct bs. }
  assert (bytes_ok (take 8 bs)) as Hb1 by (by apply Forall_take).
  assert (length (take 8 bs) = 8%nat) as Hl1 by (rewrite length_take; unfold zlen in Hl; lia).
  destruct (IH (drop 8 bs)) as (vals&Hv&Hu&He).
  { by apply Forall_drop. } { unfold zlen in *. rewrite length_drop. lia. }
  exists (from_le_bytes (take 8 bs) :: vals). split; [unfold zlen in *; simpl; lia|]. split.
  - constructor; [|done]. pose proof (from_le_bytes_bound (take 8 bs) Hb1) as Hw.
    unfold zlen in Hw. rewrite Hl1 in Hw. exact Hw.
  - unfold array_bytes in *. cbn [map concat]. rewrite He. unfold to_le_bytes, from_le_bytes.
    rewrite Z_to_little_endian_to_Z; [apply take_drop|by rewrite Hl1|lia|done].
Qed.

(** [create_array] reserves room for its slots; their values are whatever the
    memory held. *)
Lemma create_array_rule (M0 : Metric) (t : BlockType) slots f :
  entry_type = t → is_numeric_value t = true → 0 ≤ slots < 256 →
  if 254 <? slots then create_array (T := M0) name slots f p s
                       = (Err (CannotAllocate (slots * 8 + 16)), s)
  else ∃ r s' A' T', create_array (T := M0) name slots f p s = (r, s') ∧
    state_rep s' A' T' L (next2 g) ∧
    created T name p (slots * 8 + 16) (λ kd, ∃ vals, kd = KArray t f vals ∧ zlen vals = slots) r T'.
Proof.
  intros Het Hn Hs. unfold create_array. change MAX_ORDER_SIZE with 2048.
  change MIN_ORDER_SIZE with 16. cbv zeta. destruct (254 <? slots) eqn:Hc; to_props; [by by_ltb|].
  by_ltb. rewrite Het.
  apply (create_rule (λ b n, become_array_value b slots f t n p) s A T L g name p (slots * 8 + 16)
    ArrayValue (array_payload slots f t)); try done; try lia.
  - by apply array_payload_fields.
  - intros. by apply become_array_value_ok.
  - intros m b n k Hm Hb Hk Hfit Hsz.
    assert (16 * b + 16 + 8 * slots ≤ zlen (mapping_bytes m)) as Hr by lia.
    destruct (words_exist (slice (16 * b + 16) (8 * slots) (mapping_bytes m)) (Z.to_nat slots))
      as (vals&Hv&Hu&He).
    { apply bytes_ok_slice. apply Hm. } { rewrite zlen_slice by lia. lia. }
    exists (KArray t f vals). split; [exists vals; split; [done|lia]|]. split; [done|].
    split; [done|]. split; [done|]. intros A2 Hpay.
    destruct (array_payload_fields slots f t Hs) as (_&Hp1&Hp2&Hp3).
    unfold kind_repr. simpl. rewrite Hpay, Hp1, Hp2, Hp3, He.
    replace (zlen vals) with slots by lia. split; [done|]. split; [done|]. split; [done|].
    split; [by destruct f|]. split; [apply from_to_u8|]. split; [lia|done].
Qed.
End creators.
End create.

(** * Changing values *)
Section change.
Context {B : Bitfield} {BS : BitfieldSpec B} {og : Origin}.
Implicit Types (s : State) (A : blocks) (T : tree) (L : gset Z) (g : Z) (o : obj).

(** What a metric class promises: how a number is represented, and that its
    operations read and write exactly that. *)
Class MetricSpec (M0 : Metric) (mk : Z → kind) (ok : Z → Prop) (bits : Z → Z) := {
  ms_type v v' : kind_type (mk v) = kind_type (mk v');
  ms_plain v : is_gone (mk v) = false ∧ is_node (mk v) = false;
  ms_bits v : ok v → u64_ok (bits v);
  ms_repr m A i o v : o_kind o = mk v → o_extents o = [] → ok v → pay m i = bits v →
    kind_repr m A i o;
  ms_inv m A i o v : o_kind o = mk v → kind_repr m A i o →
    o_extents o = [] ∧ (u64_ok (pay m i) → ok v) ∧ pay m i = bits v;
  ms_set m i v v' : map_ok m → in_slots m i → btype m i = Some (kind_type (mk v')) → ok v →
    set_value i v m = (Ok tt, put_pay m i (bits v));
  ms_get m i v : map_ok m → in_slots m i → btype m i = Some (kind_type (mk v)) → ok v →
    pay m i = bits v → value_of m i = Ok v
}.

Lemma check_ok_read m i t :
  map_ok m → in_slots m i → btype m i = Some t →
  (check_type m i t ;?; p <-? read_payload m i ;; Ok (pl_numeric_value p)) = Ok (pay m i).
Proof.
  intros. rewrite check_type_ok by done. simpl. rewrite read_payload_ok by done. simpl.
  unfold pl_numeric_value. by rewrite bit_range_all by (by apply pay_ok).
Qed.

#[export] Instance int_metric_spec :
  MetricSpec int_metric KInt (λ v, signed_ok 64 v = true) (to_unsigned 64).
Proof.
  split; try done.
  - intros v _. unfold u64_ok, to_unsigned. by apply Z.mod_pos_bound.
  - intros m A i o v Hk He Hv Hp. unfold kind_repr. by rewrite Hk.
  - intros m A i o v Hk Hr. unfold kind_repr in Hr. rewrite Hk in Hr. naive_solver.
  - intros. by apply set_int_value_ok.
  - intros m i v Hm Hi Ht Hv Hp. simpl. unfold int_value.
    pose proof (check_ok_read m i IntValue Hm Hi Ht) as Hc.
    rewrite check_type_ok in Hc |- * by done. simpl in *.
    rewrite read_payload_ok in Hc |- * by done. simpl in *. simplify_eq. rewrite Hc, Hp.
    f_equal. apply to_signed_unsigned; [lia|]. unfold signed_ok in Hv. to_props. lia.
Qed.
#[export] Instance uint_metric_spec : MetricSpec uint_metric KUint u64_ok (λ v, v).
Proof.
  split; try done.
  - intros m A i o v Hk He Hv Hp. unfold kind_repr. by rewrite Hk.
  - intros m A i o v Hk Hr. unfold kind_repr in Hr. rewrite Hk in Hr. naive_solver.
  - intros. by apply set_uint_value_ok.
  - intros m i v Hm Hi Ht Hv Hp. simpl. unfold uint_value.
    erewrite check_ok_read by done. by rewrite Hp.
Qed.
#[export] Instance double_metric_spec : MetricSpec double_metric KDouble u64_ok (λ v, v).
Proof.
  split; try done.
  - intros m A i o v Hk He Hv Hp. unfold kind_repr. by rewrite Hk.
  - intros m A i o v Hk Hr. unfold kind_repr in Hr. rewrite Hk in Hr. naive_solver.
  - intros. by apply set_double_value_ok.
  - intros m i v Hm Hi Ht Hv Hp. simpl. unfold double_value.
    erewrite check_ok_read by done. by rewrite Hp.
Qed.

Section metrics.
Context (M0 : Metric) (mk : Z → kind) (ok : Z → Prop) (bits : Z → Z).
Context {MS : MetricSpec M0 mk ok bits}.

(** The value of a metric in the forest is the one in memory. *)
Lemma metric_value s A T L g i o v :
  state_rep s A T L g → T !! i = Some o → o_kind o = mk v →
  o_extents o = [] ∧ ok v ∧ value_of (mem s) i = Ok v.
Proof.
  intros HS Hi Hk. destruct (obj_slot _ _ _ _ _ HS _ _ Hi) as (Hm&Hin&Hbt&_).
  destruct (ms_inv (mem s) A i o v Hk) as (?&Hok&Hp); [by apply HS|].
  assert (ok v) as Hv by (apply Hok, pay_ok; done). split; [done|]. split; [done|].
  rewrite Hk in Hbt. by eapply ms_get.
Qed.

Lemma set_value_step s A T L g i o v v0 :
  state_rep s A T L g → T !! i = Some o → o_kind o = mk v0 → ok v →
  ∃ s', on_block (set_value i v) s = (Ok tt, s') ∧
    state_rep s' A (<[i := with_kind (mk v) o]> T) L g.
Proof.
  intros HS Hi Hk Hv. destruct (obj_slot _ _ _ _ _ HS _ _ Hi) as (Hm&Hin&Hbt&_).
  destruct (metric_value _ _ _ _ _ _ _ _ HS Hi Hk) as (Hex&_&_).
  destruct (ms_plain v) as [Hg Hn]. destruct (ms_plain v0) as [Hg0 Hn0].
  destruct (write_pay_obj (set_value i v) s A T L g i o (with_kind (mk v) o) (bits v))
    as (s'&E&_&HS'&_); try done.
  - unfold alike, owned. simpl. rewrite Hk. by rewrite Hg, Hg0, Hn, Hn0.
  - simpl. rewrite Hk. apply ms_type.
  - by apply ms_bits.
  - rewrite Hk in Hbt. by eapply ms_set.
  - intros m' _ Hp _ _. by eapply ms_repr.
  - simpl. congruence.
  - by exists s'.
Qed.

(** The operations of [metric_fns!] on an existing metric. *)
Lemma metric_op_rule {C} (code : Z → M Error State C) s A T L g i o (Q : result Error C → tree → Prop) :
  state_rep s A T L g → Z.even g = true → T !! i = Some o →
  (∀ s1, state_rep s1 A T L (g + 1) → ∃ r s2 T2,
     code i s1 = (r, s2) ∧ state_rep s2 A T2 L (g + 1) ∧ finished r ∧ Q r T2) →
  ∃ r s' A' T', with_header_lock (block <- heap_block i ;; code block) s = (r, s') ∧
    state_rep s' A' T' L (next2 g) ∧ Q r T'.
Proof.
  intros HS Hev Hi Hcode.
  destruct (with_lock_rule (block <- heap_block i ;; code block) s A T L g
    (λ r T2 L2, L2 = L ∧ Q r T2) HS Hev) as (r&s3&A3&T3&L3&E&HS3&_&->&HQ);
    [|by exists r, s3, A3, T3].
  intros s1 HS1. destruct (Hcode s1 HS1) as (r&s2&T2&E2&HS2&Hf&HQ).
  exists r, s2, A, T2, L. split; [|done].
  pose proof (sr_obj_block _ _ _ _ _ HS _ _ Hi) as HA.
  by rewrite (bind_ok _ _ _ _ _ (heap_block_ok _ _ _ _ _ HS1 _ _ _ HA)).
Qed.

(** ... and those that panic in the middle. *)
Lemma metric_op_panics {C} (code : Z → M Error State C) s A T L g i o :
  state_rep s A T L g → Z.even g = true → T !! i = Some o →
  (∀ s1, state_rep s1 A T L (g + 1) → fst (code i s1) = Panic) →
  fst (with_header_lock (block <- heap_block i ;; code block) s) = Panic.
Proof.
  intros HS Hev Hi Hcode. eapply with_lock_panics; [done..|]. intros s1 HS1. specialize (Hcode s1 HS1).
  pose proof (sr_obj_block _ _ _ _ _ HS _ _ Hi) as HA.
  by rewrite (bind_ok _ _ _ _ _ (heap_block_ok _ _ _ _ _ HS1 _ _ _ HA)).
Qed.

Lemma set_metric_spec s A T L g i o v v0 :
  state_rep s A T L g → Z.even g = true → T !! i = Some o → o_kind o = mk v0 → ok v →
  ∃ s' A', set_metric i v s = (Ok tt, s') ∧
    state_rep s' A' (<[i := with_kind (mk v) o]> T) L (next2 g).
Proof.
  intros HS Hev Hi Hk Hv.
  destruct (metric_op_rule (λ b, on_block (set_value b v)) s A T L g i o
    (λ r T', r = Ok tt ∧ T' = <[i := with_kind (mk v) o]> T) HS Hev Hi)
    as (r&s'&A'&T'&E&HS'&->&->); [|by exists s', A'].
  intros s1 HS1. destruct (set_value_step s1 A T L _ i o v v0 HS1 Hi Hk Hv) as (s2&E2&HS2).
  by exists (Ok tt), s2, (<[i := with_kind (mk v) o]> T).
Qed.

Lemma get_metric_spec s A T L g i o v :
  state_rep s A T L g → Z.even g = true → T !! i = Some o → o_kind o = mk v →
  ∃ s' A', get_metric i s = (Ok v, s') ∧ state_rep s' A' T L (next2 g).
Proof.
  intros HS Hev Hi Hk.
  destruct (metric_op_rule (λ b, on_block (rd value_of b)) s A T L g i o
    (λ r T', r = Ok v ∧ T' = T) HS Hev Hi) as (r&s'&A'&T'&E&HS'&->&->); [|by exists s', A'].
  intros s1 HS1. destruct (metric_value s1 A T L _ i o v HS1 Hi Hk) as (_&_&Hg).
  exists (Ok v), s1, T. split; [by apply on_block_rd|done].
Qed.

(** [add_metric] and [subtract_metric]: read, compute, write. *)
Lemma update_metric_spec (op : Z → Z → result Error Z) s A T L g i o v v0 v' :
  state_rep s A T L g → Z.even g = true → T !! i = Some o → o_kind o = mk v0 →
  op v0 v = Ok v' → ok v' →
  ∃ s' A', with_header_lock (
      block <- heap_block i ;;
      current_value <- on_block (rd value_of block) ;;
      w <- lift (op current_value v) ;;
      on_block (set_value block w)) s = (Ok tt, s') ∧
    state_rep s' A' (<[i := with_kind (mk v') o]> T) L (next2 g).
Proof.
  intros HS Hev Hi Hk Hop Hv.
  destruct (metric_op_rule (λ block, current_value <- on_block (rd value_of block) ;;
      w <- lift (op current_value v) ;; on_block (set_value block w)) s A T L g i o
    (λ r T', r = Ok tt ∧ T' = <[i := with_kind (mk v') o]> T) HS Hev Hi)
    as (r&s'&A'&T'&E&HS'&->&->); [|by exists s', A'].
  intros s1 HS1. destruct (metric_value s1 A T L _ i o v0 HS1 Hi Hk) as (_&_&Hg).
  destruct (set_value_step s1 A T L _ i o v' v0 HS1 Hi Hk Hv) as (s2&E2&HS2).
  exists (Ok tt), s2, (<[i := with_kind (mk v') o]> T).
  erewrite bind_on_block_rd by exact Hg. by erewrite bind_lift by exact Hop.
Qed.
Lemma update_metric_panics (op : Z → Z → result Error Z) s A T L g i o v v0 :
  state_rep s A T L g → Z.even g = true → T !! i = Some o → o_kind o = mk v0 → op v0 v = Panic →
  fst (with_header_lock (
      block <- heap_block i ;;
      current_value <- on_block (rd value_of block) ;;
      w <- lift (op current_value v) ;;
      on_block (set_value block w)) s) = Panic.
Proof.
  intros HS Hev Hi Hk Hop. eapply metric_op_panics; [done..|]. intros s1 HS1.
  destruct (metric_value s1 A T L _ i o v0 HS1 Hi Hk) as (_&_&Hg).
  erewrite bind_on_block_rd by exact Hg. unfold bind, lift. by rewrite Hop.
Qed.
End metrics.
End change.

(** The forest after value [i] was deleted: its parent loses a child, and is
    itself freed if it is a tombstone that had no other; a node that still has
    children becomes a tombstone. *)
Definition uncounted (p : Z) (T : tree) : tree :=
  match T !! p with
  | Some po => if decide (o_kind po = KTomb ∧ children T p + o_lost po = 1) then delete p T else T
  | None => T
  end.
Definition entombed (o : obj) : obj :=
  Obj KTomb (o_order o) (o_name o) (o_name_block o) [] (o_parent o) (o_lost o).
Definition deleted (T : tree) (i : Z) (o : obj) : tree :=
  let T1 := uncounted (o_parent o) T in
  if bool_decide (o_kind o = KNode) && negb (children T i + o_lost o =? 0)
  then <[i := entombed o]> T1 else delete i T1.

Section delete.
Context {B : Bitfield} {BS : BitfieldSpec B} {og : Origin}.
Implicit Types (s : State) (A : blocks) (T : tree) (L : gset Z) (g : Z) (o : obj).

Lemma unwrap_heap_block s A T L g i k t :
  state_rep s A T L g → A !! i = Some (k, t) → unwrap (heap_block i) s = (Ok i, s).
Proof. intros HS HA. apply unwrap_ok. by eapply heap_block_ok. Qed.

(** The parent's side, once the child is a lost one. *)
Lemma uncount_step s A T L g p po :
  state_rep s A T L g → T !! p = Some po → is_node (o_kind po) = true → 1 ≤ o_lost po < 2 ^ 32 →
  ∃ s' A', uncount_child p s = (Ok tt, s') ∧ preserved {[p]} A (mem s) A' (mem s') ∧
    state_rep s' A' (if decide (o_kind po = KTomb ∧ children T p + o_lost po = 1)
                     then delete p T else adj p (-1) T) L g.
Proof.
  intros HS Hp Hn Hl. pose proof (sr_obj_block _ _ _ _ _ HS _ _ Hp) as HA.
  assert (p ≠ 0) as Hp0 by (intros ->; pose proof (sr_zero _ _ _ _ _ HS); congruence).
  destruct (sr_count _ _ _ _ _ HS p po Hp Hn) as (Hpay&_&_).
  pose proof (children_nonneg T p).
  unfold uncount_child. change HEADER_INDEX with 0. rewrite (proj2 (Z.eqb_neq p 0)) by done.
  cbn [negb]. rewrite (bind_ok _ _ _ _ _ (unwrap_heap_block _ _ _ _ _ _ _ _ HS HA)).
  rewrite (bind_ok _ _ _ _ _ (unwrap_on_block_rd _ _ _ _ (obj_child_count _ _ _ _ _ HS _ _ Hp Hn))).
  rewrite (bind_lift _ _ _ (pay (mem s) p - 1)) by (apply usub_ok; lia).
  rewrite (bind_on_block_rd _ _ _ _ _ (block_type_of _ _ _ _ _ HS _ _ _ HA)).
  case_decide as Hd.
  - destruct Hd as [Hk Hc]. assert (children T p = 0) as Hc0 by lia.
    rewrite bool_decide_true by (by rewrite Hk). by_ltb. cbn [andb].
    pose proof (bury _ _ _ _ _ _ _ HS Hp Hk Hc0) as HS1.
    destruct (free_step s A (delete p T) (L ∪ {[p]}) g p HS1) as (s2&A2&E2&HS2&HP2); [set_solver|].
    exists s2, A2. split; [by apply on_heap_unwrap|]. split; [done|].
    assert (p ∉ L) as HpL.
    { intros Hin. apply (tree_leak _ _ (sr_tree _ _ _ _ _ HS)) in Hin as (_&?&_). congruence. }
    by replace L with ((L ∪ {[p]}) ∖ {[p]}) at 1 by set_solver.
  - assert (bool_decide (kind_type (o_kind po) = Tombstone) && (pay (mem s) p - 1 =? 0) = false) as ->.
    { apply not_true_iff_false. intros [Ht%bool_decide_eq_true ?]%andb_true_iff. to_props.
      apply Hd. split; [by destruct (o_kind po)|lia]. }
    destruct (set_count_step s A T L g p po (-1)) as (s2&E2&HS2&HP2); try done; try lia.
    { intros Hk Hz. apply Hd. split; [done|lia]. }
    exists s2, A. split; [by apply on_block_unwrap|done].
Qed.

(** What [uncount_child] makes of a forest in which [p] has one lost child more. *)
Definition settled (p : Z) (T0 T : tree) : tree :=
  match T0 !! p with
  | Some po => if decide (o_kind po = KTomb ∧ children T p + (o_lost po + 1) = 1)
               then delete p T else adj p (-1) T
  | None => T
  end.

Lemma uncount_settle s A T0 T L g p :
  state_rep s A T L g → (p = 0 → T0 !! p = None) →
  (p ≠ 0 → ∃ po, T0 !! p = Some po ∧ is_node (o_kind po) = true ∧ 0 ≤ o_lost po < 2 ^ 32 - 1 ∧
     T !! p = Some (add_lost 1 po)) →
  ∃ s' A', uncount_child p s = (Ok tt, s') ∧ preserved {[p]} A (mem s) A' (mem s') ∧
    state_rep s' A' (settled p T0 T) L g.
Proof.
  intros HS H0 Hp. unfold settled. destruct (decide (p = 0)) as [->|Hne].
  - rewrite H0 by done. exists s, A. done.
  - destruct (Hp Hne) as (po&Hpo&Hn&Hl&HT). rewrite Hpo.
    destruct (uncount_step s A T L g p (add_lost 1 po) HS HT) as (s'&A'&E&HP&HS'); [done|simpl; lia|].
    exists s', A'. split; [done|]. split; [done|]. exact HS'.
Qed.

Lemma delete_adj T i p d : i ≠ p → delete i (adj p d T) = adj p d (delete i T).
Proof.
  intros Hne. apply map_eq. intros j. rewrite adj_lookup. destruct (decide (i = j)) as [<-|].
  - by rewrite !lookup_delete_eq.
  - by rewrite !lookup_delete_ne, adj_lookup.
Qed.
Lemma delete_adj_same T p d : delete p (adj p d T) = delete p T.
Proof.
  apply map_eq. intros j. destruct (decide (p = j)) as [<-|]; [by rewrite !lookup_delete_eq|].
  rewrite !lookup_delete_ne, adj_lookup by done. destruct (T !! j); simpl; [|done].
  by rewrite decide_False.
Qed.
Lemma insert_adj T i o p d : i ≠ p → <[i := o]> (adj p d T) = adj p d (<[i := o]> T).
Proof.
  intros Hne. apply map_eq. intros j. rewrite adj_lookup. destruct (decide (i = j)) as [<-|].
  - rewrite !lookup_insert_eq. simpl. by rewrite decide_False.
  - by rewrite !lookup_insert_ne, adj_lookup.
Qed.

Lemma adj_other T i o p d : T !! i = Some o → i ≠ p → adj p d T !! i = Some o.
Proof. intros Hi Hne. rewrite adj_lookup, Hi. simpl. by rewrite decide_False. Qed.

(** The net effect on the forest, for a leaf and for a node with children. *)
Lemma settled_leaf T i o p :
  T !! i = Some o → is_gone (o_kind o) = false → o_parent o = p → i ≠ p →
  settled p T (delete i (adj p 1 T)) = delete i (uncounted p T).
Proof.
  intros Hi Hg Hp Hne. unfold settled, uncounted. destruct (T !! p) as [po|] eqn:Hpo.
  2: { by rewrite adj_None. }
  rewrite (children_delete (adj p 1 T) i o) by (by apply adj_other).
  rewrite adj_children, counts_parent, (decide_True (P := o_parent o = p)) by done.
  assert ((o_kind po = KTomb ∧ children T p - 1 + (o_lost po + 1) = 1) ↔
          (o_kind po = KTomb ∧ children T p + o_lost po = 1)) as Heq by intuition lia.
  rewrite (decide_ext _ _ _ _ Heq). case_decide.
  - rewrite !(delete_delete _ p i), delete_adj_same. done.
  - rewrite delete_adj by done. apply adj_undo.
Qed.

Lemma settled_node T i o o' p :
  T !! i = Some o → is_gone (o_kind o) = false → o_parent o = p → i ≠ p →
  is_gone (o_kind o') = true →
  settled p T (<[i := o']> (adj p 1 T)) = <[i := o']> (uncounted p T).
Proof.
  intros Hi Hg Hp Hne Hg'. unfold settled, uncounted. destruct (T !! p) as [po|] eqn:Hpo.
  2: { by rewrite adj_None. }
  rewrite (children_update (adj p 1 T) i o) by (by apply adj_other).
  rewrite adj_children, (counts_gone p o'), counts_parent by done.
  rewrite (decide_True (P := o_parent o = p)) by done.
  assert ((o_kind po = KTomb ∧ children T p - 1 + 0 + (o_lost po + 1) = 1) ↔
          (o_kind po = KTomb ∧ children T p + o_lost po = 1)) as Heq by intuition lia.
  rewrite (decide_ext _ _ _ _ Heq). case_decide.
  - rewrite !delete_insert_ne by done. by rewrite delete_adj_same.
  - rewrite insert_adj by done. apply adj_undo.
Qed.

(** A value's block after steps that did not touch it. *)
Lemma kept_block s A T L g s' A' T' L' X i o :
  state_rep s A T L g → T !! i = Some o → state_rep s' A' T' L' g →
  preserved X A (mem s) A' (mem s') → i ∉ X →
  A' !! i = Some (o_order o, kind_type (o_kind o)) ∧ map_ok (mem s') ∧ in_slots (mem s') i ∧
  btype (mem s') i = Some (kind_type (o_kind o)) ∧ bord (mem s') i = o_order o ∧
  hdr (mem s') i = hdr (mem s) i ∧ pay (mem s') i = pay (mem s) i.
Proof.
  intros HS Hi HS' HP HX. pose proof (sr_obj_block _ _ _ _ _ HS _ _ Hi) as HA.
  destruct (HP _ _ _ HX HA) as [HA' Hb]; [by destruct (o_kind o)|].
  destruct (inv_block _ _ (sr_heap _ _ _ _ _ HS') _ _ _ HA') as (?&?&?&_&?&?).
  destruct (block_words _ _ _ _ Hb) as [? ?]; [lia..|]. split; [done|].
  split; [by eapply sr_map|done].
Qed.

Lemma kind_any o : is_gone (o_kind o) = false → is_any_value (kind_type (o_kind o)) = true.
Proof. by destruct (o_kind o). Qed.

(** The second half of [delete_value]: the name, then the block itself. *)
Lemma delete_tail s A T L g i o s1 A1 T1 L1 X :
  state_rep s A T L g → T !! i = Some o → is_gone (o_kind o) = false →
  state_rep s1 A1 T1 L1 g → preserved X A (mem s) A1 (mem s1) → i ∉ X → o_name_block o ∈ L1 →
  ∃ s2 A2, preserved (X ∪ {[o_name_block o]}) A (mem s) A2 (mem s2) ∧
    state_rep s2 A2 T1 (L1 ∖ {[o_name_block o]}) g ∧
    (name_idx <- on_block (rd name_index i) ;;
     name <- unwrap (heap_block name_idx) ;;
     on_heap (unwrap (free_block name)) ;;;
     t <- on_block (rd block_type i) ;;
     has_children <- (if decide (t = NodeValue)
                      then c <- on_block (rd child_count i) ;; ret (negb (c =? 0))
                      else ret false) ;;
     if has_children : bool then on_block (become_tombstone i) else on_heap (free_block i)) s1
    = (if bool_decide (o_kind o = KNode) && negb (pay (mem s) i =? 0)
       then on_block (become_tombstone i) else on_heap (free_block i)) s2.
Proof.
  intros HS Hi Hg HS1 HP1 HX Hn.
  destruct (kept_block _ _ _ _ _ _ _ _ _ _ _ _ HS Hi HS1 HP1 HX) as (_&Hm1&Hin1&Hbt1&_&Hh1&_).
  destruct (or_name _ _ _ _ (sr_obj _ _ _ _ _ HS _ _ Hi) Hg) as [Hni _].
  destruct (leaked_block _ _ _ _ _ _ HS1 Hn) as (kn&tn&HAn&_).
  destruct (free_step s1 A1 T1 L1 g (o_name_block o) HS1 Hn) as (s2&A2&E2&HS2&HP2).
  assert (i ∉ X ∪ {[o_name_block o]}) as HX2.
  { destruct (sr_name_block _ _ _ _ _ HS _ _ Hi Hg) as (k&Hk).
    pose proof (sr_obj_block _ _ _ _ _ HS _ _ Hi) as HA.
    intros [?|Heq%elem_of_singleton]%elem_of_union; [done|]. rewrite <- Heq, HA in Hk.
    simplify_eq. by destruct (o_kind o). }
  pose proof (preserved_trans _ _ _ _ _ _ _ _ HP1 HP2) as HP.
  destruct (kept_block _ _ _ _ _ _ _ _ _ _ _ _ HS Hi HS2 HP HX2) as (HA2&Hm2&Hin2&Hbt2&_&_&Hp2).
  exists s2, A2. split; [done|]. split; [done|].
  erewrite bind_on_block_rd by (eapply name_index_ok; [done..|by apply kind_any]).
  rewrite Hh1, Hni. rewrite (bind_ok _ _ _ _ _ (unwrap_heap_block _ _ _ _ _ _ _ _ HS1 HAn)).
  erewrite bind_ok by (apply on_heap_unwrap; exact E2).
  rewrite (bind_on_block_rd _ _ _ _ _ (block_type_of _ _ _ _ _ HS2 _ _ _ HA2)).
  destruct (decide (o_kind o = KNode)) as [Hk|Hk].
  - rewrite Hk. cbn [kind_type]. rewrite decide_True, bool_decide_true by done.
    rewrite Hk in Hbt2. erewrite bind_ok.
    2: { erewrite bind_on_block_rd by (by eapply child_count_ok). done. }
    by rewrite Hp2.
  - rewrite bool_decide_false by done. cbn [andb]. rewrite decide_False by (by destruct (o_kind o)).
    by erewrite bind_ok by done.
Qed.

Lemma uncount_after s A T L g i o T1 L1 :
  state_rep s A T L g → T !! i = Some o → is_gone (o_kind o) = false → lost_ok T →
  state_rep s A T1 L1 g → (∀ po, T !! o_parent o = Some po → T1 !! o_parent o = Some (add_lost 1 po)) →
  ∃ s' A', uncount_child (o_parent o) s = (Ok tt, s') ∧
    preserved {[o_parent o]} A (mem s) A' (mem s') ∧
    state_rep s' A' (settled (o_parent o) T T1) L1 g.
Proof.
  intros HS Hi Hg Hlo HS1 Hpo. apply (uncount_settle s A T T1); [done|..].
  - intros ->. by eapply sr_zero.
  - intros Hp0. destruct (tree_parent _ _ (sr_tree _ _ _ _ _ HS) i o Hi Hg) as [_ [?|(po&Hp&Hn)]];
      [done|]. exists po. split; [done|]. split; [done|]. split; [|by apply Hpo].
    pose proof (Hlo _ _ Hp). lia.
Qed.

Lemma owned_fresh s A T L g i o :
  state_rep s A T L g → T !! i = Some o → is_gone (o_kind o) = false →
  (i ∉ L) ∧ i ≠ o_name_block o ∧ (i ∉ o_extents o) ∧ (o_name_block o ∉ L) ∧
  o_name_block o ∉ o_extents o.
Proof.
  intros HS Hi Hg. pose proof (sr_tree _ _ _ _ _ HS) as HT.
  pose proof (sr_owned_not_value _ _ _ _ _ HS i o i o Hi Hi) as Hno.
  pose proof (tree_nodup _ _ HT i o Hi) as Hnd. unfold owned in Hno, Hnd. rewrite Hg in Hno, Hnd.
  apply NoDup_cons in Hnd as [? _]. rewrite elem_of_cons in Hno.
  split; [|split; [|split; [|split]]]; try tauto.
  - intros Hin. apply (tree_leak _ _ HT) in Hin as (_&?&_). congruence.
  - intros Hin. apply (tree_leak _ _ HT) in Hin as (_&_&Hn). apply (Hn i o Hi).
    unfold owned. rewrite Hg. apply list_elem_of_here.
Qed.

(** [become_tombstone] ends the life of a node that still has children. *)
Lemma tombstone_step s A T L g i o :
  state_rep s A T L g → T !! i = Some o → o_kind o = KDying → pay (mem s) i ≠ 0 →
  ∃ s' A', on_block (become_tombstone i) s = (Ok tt, s') ∧
    state_rep s' A' (<[i := entombed o]> T) L g.
Proof.
  intros HS Hi Hk Hp0. destruct (obj_slot _ _ _ _ _ HS _ _ Hi) as (Hm&Hin&Hbt&Hbo&Hi0&Ho&_).
  rewrite Hk in Hbt. cbn [kind_type] in Hbt. pose proof (hdr_ok _ _ Hm Hin) as Hh.
  destruct (set_type_fields (hdr (mem s) i) Tombstone Hh) as (H1&H2&H3&_&H5).
  assert (hdr (put_hdr (mem s) i (set_hdr_block_type (hdr (mem s) i) (to_u8 Tombstone))) i
    = set_hdr_block_type (hdr (mem s) i) (to_u8 Tombstone)) as Hh'
    by (by rewrite hdr_put_hdr, decide_True by (done || lia)).
  assert (pay (put_hdr (mem s) i (set_hdr_block_type (hdr (mem s) i) (to_u8 Tombstone))) i
    = pay (mem s) i) as Hp' by (apply pay_put_hdr; [done|lia]).
  destruct (write_obj (become_tombstone i) s A T L g i o (entombed o) tt
    (put_hdr (mem s) i (set_hdr_block_type (hdr (mem s) i) (to_u8 Tombstone)))) as (s'&E&_&HS'&_);
    try done.
  - unfold alike, owned. by rewrite Hk.
  - by apply become_tombstone_ok.
  - apply outside_put_hdr; [done..|lia].
  - unfold bord. rewrite Hh', H2. done.
  - unfold btype. by rewrite Hh'.
  - split; [by rewrite lookup_insert_eq| |done|done].
    rewrite Hh', H5. apply (sr_obj _ _ _ _ _ HS i o Hi).
  - intros _. rewrite Hp'. erewrite children_alike; [|done|unfold alike, owned; by rewrite Hk].
    destruct (sr_count _ _ _ _ _ HS i o Hi) as (?&?&_); [by rewrite Hk|]. done.
  - by eexists s', _.
Qed.

(** The two ends of [delete_value], after the parent was seen to. *)
Section ends.
Context s A T L g i o (HS : state_rep s A T L g) (Hi : T !! i = Some o).
Context (Hg : is_gone (o_kind o) = false) (Hlo : lost_ok T).

Lemma delete_node_ok :
  o_kind o = KNode → pay (mem s) i ≠ 0 →
  ∃ s' A', delete_value i s = (Ok tt, s') ∧
    state_rep s' A' (<[i := entombed o]> (uncounted (o_parent o) T)) L g.
Proof.
  intros Hk Hc. set (p := o_parent o).
  destruct (tree_parent _ _ (sr_tree _ _ _ _ _ HS) i o Hi Hg) as [Hpi _]. fold p in Hpi.
  destruct (obj_slot _ _ _ _ _ HS _ _ Hi) as (Hm&Hin&Hbt&_).
  destruct (owned_fresh _ _ _ _ _ _ _ HS Hi Hg) as (?&?&?&?&?).
  assert (o_extents o = []) as Hex.
  { pose proof (or_kind _ _ _ _ (sr_obj _ _ _ _ _ HS i o Hi)) as Hkr.
    unfold kind_repr in Hkr. by rewrite Hk in Hkr. }
  assert (owned o = [o_name_block o]) as Hown by (unfold owned; by rewrite Hg, Hex).
  unfold delete_value. erewrite bind_on_block_rd by (eapply parent_index_ok; [done..|by apply kind_any]).
  rewrite (or_parent _ _ _ _ (sr_obj _ _ _ _ _ HS _ _ Hi)). fold p.
  pose proof (dying _ _ _ _ _ _ _ HS Hi Hk) as HS1. fold p in HS1.
  destruct (uncount_after s A T L g i o _ _ HS Hi Hg Hlo HS1) as (s2&A2&E2&HP2&HS2).
  { fold p. intros po Hpo. rewrite lookup_insert_ne by done. rewrite adj_lookup, Hpo. simpl.
    by rewrite decide_True. }
  fold p in E2, HP2, HS2. erewrite bind_ok by exact E2.
  rewrite (settled_node T i o) in HS2 by done.
  destruct (delete_tail s A T L g i o s2 A2 _ _ _ HS Hi Hg HS2 HP2) as (s3&A3&HP3&HS3&->);
    [set_solver|rewrite Hown; set_solver|]. rewrite bool_decide_true by done. by_ltb. cbn [andb negb].
  assert (i ∉ ({[p]} ∪ {[o_name_block o]} : gset Z)) as HX by set_solver.
  destruct (kept_block _ _ _ _ _ _ _ _ _ _ _ _ HS Hi HS3 HP3 HX) as (_&_&_&_&_&_&Hpay).
  destruct (tombstone_step s3 A3 _ _ g i (with_kind KDying o) HS3) as (s4&A4&E4&HS4);
    [apply lookup_insert_eq|done|congruence|].
  exists s4, A4. split; [done|]. rewrite insert_insert_eq in HS4. rewrite Hown in HS4.
  by replace L with ((L ∪ list_to_set [o_name_block o]) ∖ {[o_name_block o]}) by set_solver.
Qed.

Lemma delete_leaf_ok :
  children T i = 0 → bool_decide (o_kind o = KNode) && negb (pay (mem s) i =? 0) = false →
  ∃ s' A', delete_value i s = (Ok tt, s') ∧
    state_rep s' A' (delete i (uncounted (o_parent o) T)) (L ∪ list_to_set (o_extents o)) g.
Proof.
  intros Hch Hc. set (p := o_parent o).
  destruct (tree_parent _ _ (sr_tree _ _ _ _ _ HS) i o Hi Hg) as [Hpi _]. fold p in Hpi.
  destruct (obj_slot _ _ _ _ _ HS _ _ Hi) as (Hm&Hin&Hbt&_).
  destruct (owned_fresh _ _ _ _ _ _ _ HS Hi Hg) as (?&?&?&?&?).
  assert (owned o = o_name_block o :: o_extents o) as Hown by (unfold owned; by rewrite Hg).
  unfold delete_value. erewrite bind_on_block_rd by (eapply parent_index_ok; [done..|by apply kind_any]).
  rewrite (or_parent _ _ _ _ (sr_obj _ _ _ _ _ HS _ _ Hi)). fold p.
  pose proof (orphan _ _ _ _ _ _ _ HS Hi Hg Hch) as HS1. fold p in HS1.
  destruct (uncount_after s A T L g i o _ _ HS Hi Hg Hlo HS1) as (s2&A2&E2&HP2&HS2).
  { fold p. intros po Hpo. rewrite lookup_delete_ne by done. rewrite adj_lookup, Hpo. simpl.
    by rewrite decide_True. }
  fold p in E2, HP2, HS2. erewrite bind_ok by exact E2.
  rewrite (settled_leaf T i o) in HS2 by done.
  destruct (delete_tail s A T L g i o s2 A2 _ _ _ HS Hi Hg HS2 HP2) as (s3&A3&HP3&HS3&->);
    [set_solver|rewrite Hown; set_solver|]. rewrite Hc.
  destruct (free_step s3 A3 _ _ g i HS3) as (s4&A4&E4&HS4&_); [rewrite Hown; set_solver|].
  exists s4, A4. split; [done|]. rewrite Hown in HS4.
  by replace (L ∪ list_to_set (o_extents o)) with
    (((L ∪ {[i]} ∪ list_to_set (o_name_block o :: o_extents o)) ∖ {[o_name_block o]}) ∖ {[i]})
    by set_solver.
Qed.

Lemma delete_value_ok :
  ∃ s' A', delete_value i s = (Ok tt, s') ∧
    state_rep s' A' (deleted T i o) (L ∪ list_to_set (o_extents o)) g.
Proof.
  unfold deleted. destruct (decide (o_kind o = KNode)) as [Hk|Hk].
  - destruct (sr_count _ _ _ _ _ HS i o Hi) as (Hp&Hl&_); [by rewrite Hk|].
    assert (o_extents o = []) as Hex.
    { pose proof (or_kind _ _ _ _ (sr_obj _ _ _ _ _ HS i o Hi)) as Hkr.
      unfold kind_repr in Hkr. by rewrite Hk in Hkr. }
    pose proof (children_nonneg T i). rewrite bool_decide_true, <- Hp by done. cbn [andb].
    destruct (pay (mem s) i =? 0) eqn:Hz; to_props; cbn [negb].
    + apply delete_leaf_ok; [lia|]. rewrite Hz. by rewrite andb_false_r.
    + rewrite Hex. replace (L ∪ list_to_set []) with L by set_solver. by apply delete_node_ok.
  - rewrite bool_decide_false by done. cbn [andb]. apply delete_leaf_ok.
    + eapply children_parentless; [done|..].
      * intros ->. pose proof (sr_zero _ _ _ _ _ HS). congruence.
      * intros o' Ho'. rewrite Hi in Ho'. simplify_eq. by destruct (o_kind o').
    + by rewrite bool_decide_false.
Qed.
End ends.

(** [free_value] deletes a value; of a property it would leak the extents. *)
Lemma free_value_spec s A T L g i o :
  state_rep s A T L g → Z.even g = true → T !! i = Some o → is_gone (o_kind o) = false → lost_ok T →
  ∃ s' A', free_value i s = (Ok tt, s') ∧
    state_rep s' A' (deleted T i o) (L ∪ list_to_set (o_extents o)) (next2 g).
Proof.
  intros HS Hev Hi Hg Hlo. unfold free_value.
  destruct (with_lock_rule (block <- heap_block i ;; unwrap (delete_value block)) s A T L g
    (λ r T2 L2, r = Ok tt ∧ T2 = deleted T i o ∧ L2 = L ∪ list_to_set (o_extents o)) HS Hev)
    as (r&s3&A3&T3&L3&E&HS3&_&->&->&->); [|by exists s3, A3].
  intros s1 HS1. destruct (delete_value_ok s1 A T L _ i o HS1 Hi Hg Hlo) as (s2&A2&E2&HS2).
  exists (Ok tt), s2, A2, (deleted T i o), (L ∪ list_to_set (o_extents o)). split; [|done].
  pose proof (sr_obj_block _ _ _ _ _ HS _ _ Hi) as HA.
  rewrite (bind_ok _ _ _ _ _ (heap_block_ok _ _ _ _ _ HS1 _ _ _ HA)). by apply unwrap_ok.
Qed.
End delete.
