(* ===== verification/StateProperty.v ===== *)
(** Properties: values stored in a chain of extents. *)

From S2P Require Import Prelude SharedBuffer Float64 InspectFormat InspectBlock InspectHeap HeapInvariant HeapCorrect HeapAllocate InspectOps InspectState StateInvariant StateSteps StateCorrect StateOps.

(** A value trades owned blocks for leaked ones. *)
Section reown.
Implicit Types (T : tree) (L : gset Z) (o : obj).

Lemma tree_ok_reown T L L' i o o' :
  tree_ok T L → T !! i = Some o → o_parent o' = o_parent o →
  is_gone (o_kind o') = is_gone (o_kind o) → is_node (o_kind o') = is_node (o_kind o) →
  (∀ b, b ∈ owned o' → b ∈ owned o ∨ b ∈ L) →
  (∀ b, b ∈ L' → (b ∈ owned o ∨ b ∈ L) ∧ b ∉ owned o') →
  (∀ b, b ∈ owned o → b ≠ 0 ∧ T !! b = None) → NoDup (owned o') →
  tree_ok (<[i := o']> T) L'.
Proof.
  intros [Hpar Hown Hnd Hleak] Hi Hp Hg Hn Ho' HL' Hval Hnd'.
  assert (∀ j x b, T !! j = Some x → i ≠ j → b ∈ owned x → (b ∉ owned o) ∧ b ∉ L) as Hdis.
  { intros j x b Hj Hij Hb. split.
    - intros Hbo. apply Hij. by eapply (Hown i j o x b).
    - intros HbL. by apply (proj2 (proj2 (Hleak b HbL)) j x Hj). }
  split.
  - intros j x [[<- <-]|[Hij Hj]]%lookup_insert_Some Hgx.
    + rewrite Hp. destruct (Hpar i o Hi) as [? Hex]; [congruence|]. split; [done|].
      destruct Hex as [?|(po&?&?)]; [by left|right]. exists po. by rewrite lookup_insert_ne.
    + destruct (Hpar j x Hj Hgx) as [? Hex]. split; [done|].
      destruct Hex as [?|(po&?&?)]; [by left|right].
      destruct (decide (i = o_parent x)) as [He|]; [exists o'|exists po].
      * rewrite He, lookup_insert_eq, Hn. split; [done|]. congruence.
      * by rewrite lookup_insert_ne.
  - intros j j' x x' b [[<- <-]|[Hij Hj]]%lookup_insert_Some
      [[<- <-]|[Hij' Hj']]%lookup_insert_Some Hbx Hbx'; [done| | |by eapply Hown].
    + destruct (Hdis j' x' b Hj' Hij' Hbx'). by destruct (Ho' b Hbx).
    + destruct (Hdis j x b Hj Hij Hbx). by destruct (Ho' b Hbx').
  - intros j x [[<- <-]|[Hij Hj]]%lookup_insert_Some; [done|by eapply Hnd].
  - intros b Hb. destruct (HL' b Hb) as [Hor Hno].
    assert (b ≠ 0 ∧ T !! b = None) as [? HbT].
    { destruct Hor as [?|HbL]; [by apply Hval|]. by destruct (Hleak b HbL) as (?&?&_). }
    split; [done|]. split; [rewrite lookup_insert_ne; [done|congruence]|].
    intros j x [[<- <-]|[Hij Hj]]%lookup_insert_Some; [done|]. intros Hbx.
    destruct (Hdis j x b Hj Hij Hbx). by destruct Hor.
Qed.

Lemma accounted_reown T L L' i o o' b :
  T !! i = Some o → (∀ b, b ∈ owned o' ∨ b ∈ L' ↔ b ∈ owned o ∨ b ∈ L) →
  accounted (<[i := o']> T) L' b ↔ accounted T L b.
Proof.
  intros Hi Hb. specialize (Hb b). unfold accounted.
  assert (is_Some (<[i := o']> T !! b) ↔ is_Some (T !! b)) as ->.
  { destruct (decide (i = b)) as [<-|]; [rewrite lookup_insert_eq, Hi|by rewrite lookup_insert_ne].
    split; eauto. }
  assert ((∃ j x, <[i := o']> T !! j = Some x ∧ b ∈ owned x) ↔
          b ∈ owned o' ∨ ∃ j x, j ≠ i ∧ T !! j = Some x ∧ b ∈ owned x) as ->.
  { split.
    - intros (j&x&[[<- <-]|[? Hj]]%lookup_insert_Some&?); [by left|right]. by exists j, x.
    - intros [?|(j&x&?&Hj&?)]; [exists i, o'; by rewrite lookup_insert_eq|].
      exists j, x. by rewrite lookup_insert_ne. }
  assert ((∃ j x, T !! j = Some x ∧ b ∈ owned x) ↔
          b ∈ owned o ∨ ∃ j x, j ≠ i ∧ T !! j = Some x ∧ b ∈ owned x) as ->; [|tauto].
  split.
  - intros (j&x&Hj&?). destruct (decide (j = i)) as [->|]; [left; by simplify_eq|right].
    by exists j, x.
  - intros [?|(j&x&_&Hj&?)]; [by exists i, o|by exists j, x].
Qed.

Lemma children_same T i o o' p :
  T !! i = Some o → o_parent o' = o_parent o → is_gone (o_kind o') = is_gone (o_kind o) →
  children (<[i := o']> T) p = children T p.
Proof.
  intros Hi Hp Hg. erewrite children_update by done.
  replace (counts p o') with (counts p o); [lia|].
  unfold counts. apply decide_ext. unfold child_of. simpl. by rewrite Hp, Hg.
Qed.
End reown.

Section property.
Context {B : Bitfield} {BS : BitfieldSpec B} {og : Origin}.
Implicit Types (s : State) (A : blocks) (T : tree) (L : gset Z) (g : Z) (o : obj).

Lemma owned_values s A T L g i o b :
  state_rep s A T L g → T !! i = Some o → b ∈ owned o → b ≠ 0 ∧ T !! b = None.
Proof.
  intros HS Hi Hb. split.
  - intros ->. by eapply (sr_owned_not_zero _ _ _ _ _ HS i o).
  - apply eq_None_not_Some. intros [x Hx]. by eapply (sr_owned_not_value _ _ _ _ _ HS i o b x).
Qed.

(** ** Freeing extents *)
Fixpoint linked (m : Mapping) (A : blocks) (l : list Z) : Prop :=
  match l with
  | [] => True
  | b :: l' => (∃ k, A !! b = Some (k, Extent)) ∧
      hdr_extent_next_index (hdr m b) = default 0 (head l') ∧ linked m A l'
  end.

Lemma extents_linked m A l value : extents_repr m A l value → linked m A l.
Proof.
  revert value. induction l as [|b l IH]; intros value; [done|].
  intros (_&k&Hk&Hn&_&Hr). split; [by exists k|]. split; [done|]. by eapply IH.
Qed.

Lemma linked_preserved h A m' A' X l :
  heap_inv h A → preserved X A (mapping h) A' m' → (∀ b, b ∈ l → b ∉ X) →
  linked (mapping h) A l → linked m' A' l.
Proof.
  intros HI HP. induction l as [|b l IH]; intros HX; [done|].
  intros ([k Hk]&Hn&Hl). destruct (HP b k Extent) as [Hk' Hb]; [apply HX; set_solver|done..|].
  destruct (inv_block _ _ HI _ _ _ Hk) as (?&?&_).
  destruct (block_words _ _ _ _ Hb) as [Hw _]; [lia..|].
  split; [by exists k|]. split; [by rewrite Hw|]. apply IH; [|done].
  intros x Hx. apply HX. set_solver.
Qed.

Lemma free_extents_loop_ok fuel s A T L g l :
  state_rep s A T L g → linked (mem s) A l → NoDup l → (∀ b, b ∈ l → b ∈ L) →
  (length l < fuel)%nat →
  ∃ s' A', free_extents_loop fuel (default 0 (head l)) s = (Ok tt, s') ∧
    state_rep s' A' T (L ∖ list_to_set l) g ∧
    preserved (list_to_set l) A (mem s) A' (mem s').
Proof.
  revert s A L l. induction fuel as [|fuel IH]; intros s A L l HS Hl Hnd HL Hf; [lia|].
  destruct l as [|b l]; simpl.
  { exists s, A. split; [done|]. replace (L ∖ ∅) with L by set_solver. done. }
  destruct Hl as ([k Hk]&Hn&Hl). apply NoDup_cons in Hnd as [Hb Hnd].
  destruct (tree_leak _ _ (sr_tree _ _ _ _ _ HS) b) as (Hb0&_); [apply HL; set_solver|].
  change HEADER_INDEX with 0. rewrite (proj2 (Z.eqb_neq b 0)) by done.
  destruct (inv_block _ _ (sr_heap _ _ _ _ _ HS) _ _ _ Hk) as (?&?&Hin&_&_&Hbt).
  pose proof (sr_map _ _ _ _ _ HS) as Hm.
  rewrite (bind_ok _ _ _ _ _ (unwrap_heap_block _ _ _ _ _ _ _ _ HS Hk)).
  rewrite (bind_on_block_rd _ _ _ _ _ (next_extent_ok _ _ Hm Hin Hbt)), Hn.
  destruct (free_step s A T L g b HS) as (s1&A1&E1&HS1&HP1); [apply HL; set_solver|].
  erewrite bind_ok by exact E1.
  destruct (IH s1 A1 (L ∖ {[b]}) l HS1) as (s2&A2&E2&HS2&HP2).
  - eapply linked_preserved; [apply HS|exact HP1|set_solver|done].
  - done.
  - intros x Hx. assert (x ≠ b) by (intros ->; done). set_solver.
  - simpl in Hf. lia.
  - exists s2, A2. split; [done|].
    replace (L ∖ ({[b]} ∪ list_to_set l)) with (L ∖ {[b]} ∖ list_to_set l) by set_solver.
    split; [done|]. by eapply preserved_trans.
Qed.

Lemma free_extents_ok s A T L g l :
  state_rep s A T L g → linked (mem s) A l → NoDup l → (∀ b, b ∈ l → b ∈ L) →
  ∃ s' A', free_extents (default 0 (head l)) s = (Ok tt, s') ∧
    state_rep s' A' T (L ∖ list_to_set l) g ∧ preserved (list_to_set l) A (mem s) A' (mem s').
Proof.
  intros HS Hl Hnd HL. unfold free_extents. change MIN_ORDER_SIZE with 16.
  apply (free_extents_loop_ok _ s A T L g l); try done.
  pose proof (sr_heap _ _ _ _ _ HS) as (_&_&F&HR). fold (slots (heap s)).
  pose proof (rep_nonneg _ _ _ _ HR).
  assert (zlen l ≤ slots (heap s)) as Hlen; [|unfold zlen in Hlen; lia].
  apply NoDup_bounded_length; [done|done|]. intros b Hb.
  destruct (leaked_block _ _ _ _ _ b HS) as (k&t&HA&_); [by apply HL|].
  pose proof (rep_block_range _ _ _ _ HR _ _ _ HA). pose proof (rep_block_pos _ _ _ _ HR _ _ _ HA).
  lia.
Qed.

(** ** Writing extents *)
Lemma extent_fill_step s A T L g b k v :
  state_rep s A T L g → b ∈ L → A !! b = Some (k, Reserved) → bytes_ok v →
  ∃ s', (on_block (become_extent b 0) ;;; on_block (extent_set_contents b v)) s
        = (Ok (zlen (clip k v)), s') ∧
    state_rep s' (<[b := (k, Extent)]> A) T L g ∧
    preserved {[b]} A (mem s) (<[b := (k, Extent)]> A) (mem s') ∧
    hdr_extent_next_index (hdr (mem s') b) = 0 ∧
    slice (16 * b + 8) (zlen (clip k v)) (mapping_bytes (mem s')) = clip k v.
Proof.
  intros HS Hb HA Hv. pose proof (sr_map _ _ _ _ _ HS) as Hm.
  destruct (inv_block _ _ (sr_heap _ _ _ _ _ HS) _ _ _ HA) as (?&?&Hin&Hfit&Hbo&Hbt).
  destruct (extent_header_fields (hdr (mem s) b) 0) as (H1&H2&H3&H4); [by apply hdr_ok|lia|].
  set (eh := extent_header (hdr (mem s) b) 0) in *.
  assert (hdr (put_hdr (mem s) b eh) b = eh) as Hh by (by rewrite hdr_put_hdr, decide_True by (done || lia)).
  destruct (write_step (become_extent b 0) s A T L g b k Reserved Extent tt (put_hdr (mem s) b eh))
    as (s1&E1&Hm1&HS1&HP1); try done.
  { apply become_extent_ok; done || lia. } { apply outside_put_hdr; [done..|lia]. }
  { unfold bord. rewrite Hh, H2. done. } { unfold btype. by rewrite Hh. }
  erewrite bind_ok by exact E1.
  pose proof (zlen_clip k v ltac:(lia)) as Hc. pose proof (zlen_nonneg v). pose proof (pow2_pos k).
  assert (mapping_bytes (mem s1) = mapping_bytes (put_hdr (mem s) b eh)) as Hmb by (by rewrite Hm1).
  destruct (put_payload_facts (mem s) b k eh (clip k v)) as (Hout&Hh2&Hsl);
    [done|done|lia|done|done|by apply bytes_ok_clip|lia|].
  assert (map_ok (mem s1)) as Hm1' by (by eapply sr_map).
  assert (zlen (mapping_bytes (mem s1)) = zlen (mapping_bytes (mem s))) as Hl1
    by (rewrite Hm1; by apply put_hdr_len).
  destruct (write_step (extent_set_contents b v) s1 (<[b := (k, Extent)]> A) T L g b k Extent Extent
    (zlen (clip k v)) (put_bytes (mem s1) (16 * b + 8) (clip k v))) as (s2&E2&Hm2&HS2&HP2); try done.
  - apply lookup_insert_eq.
  - apply extent_set_contents_ok; try done; [by eapply in_slots_len| | |lia|lia].
    + rewrite Hm1. unfold btype. by rewrite Hh.
    + rewrite Hm1. unfold bord. rewrite Hh, H2. done.
  - apply outside_put_bytes; [done|by apply bytes_ok_clip|lia|lia|lia|lia].
  - rewrite Hm1. unfold bord. rewrite Hh2, H2. done.
  - rewrite Hm1. unfold btype. by rewrite Hh2.
  - exists s2. rewrite insert_insert_eq in HS2, HP2. split; [done|]. split; [done|].
    rewrite Hm2, Hm1. split; [|by rewrite Hh2].
    rewrite Hm1 in HP2. replace {[b]} with ({[b]} ∪ {[b]} : gset Z) by set_solver.
    eapply preserved_trans; [exact HP1|exact HP2].
Qed.

Lemma extent_link_step s A T L g b k n :
  state_rep s A T L g → b ∈ L → A !! b = Some (k, Extent) → 0 ≤ n < 2 ^ 28 →
  ∃ s', on_block (set_extent_next_index b n) s = (Ok tt, s') ∧
    state_rep s' A T L g ∧ preserved {[b]} A (mem s) A (mem s') ∧
    hdr_extent_next_index (hdr (mem s') b) = n ∧
    ∀ len, 0 ≤ len → slice (16 * b + 8) len (mapping_bytes (mem s'))
                     = slice (16 * b + 8) len (mapping_bytes (mem s)).
Proof.
  intros HS Hb HA Hn. pose proof (sr_map _ _ _ _ _ HS) as Hm.
  destruct (inv_block _ _ (sr_heap _ _ _ _ _ HS) _ _ _ HA) as (?&?&Hin&Hfit&Hbo&Hbt).
  destruct (set_extent_next_fields (hdr (mem s) b) n) as (H1&H2&H3&H4); [by apply hdr_ok|done|].
  set (eh := set_hdr_extent_next_index (hdr (mem s) b) n) in *.
  assert (hdr (put_hdr (mem s) b eh) b = eh) as Hh by (by rewrite hdr_put_hdr, decide_True by (done || lia)).
  destruct (write_step (set_extent_next_index b n) s A T L g b k Extent Extent tt
    (put_hdr (mem s) b eh)) as (s1&E1&Hm1&HS1&HP1); try done.
  { by apply set_extent_next_index_ok. } { apply outside_put_hdr; [done..|lia]. }
  { unfold bord. rewrite Hh, H2. done. } { unfold btype. rewrite Hh, H3. done. }
  rewrite insert_id in HS1, HP1 by done. exists s1. rewrite Hm1, Hh.
  split; [done|]. split; [done|]. split; [done|]. split; [done|].
  intros len Hlen. destruct Hin as [? ?]. apply word_put_disjoint; rewrite ?zlen_word; lia.
Qed.

(** [write_extents] stops with an error when the heap is exhausted; what it
    allocated until then stays allocated. *)
Definition extents_written s A T L g (b : Z) (v : list Z) (r : result Error unit) (s' : State) : Prop :=
  (∃ l A', r = Ok tt ∧ state_rep s' A' T (L ∪ list_to_set l) g ∧ extents_repr (mem s') A' (b :: l) v ∧
     NoDup l ∧ (∀ x, x ∈ l → x ∉ L) ∧ preserved {[b]} A (mem s) A' (mem s')) ∨
  (∃ L' A', r = Err HeapAtMaximumSize ∧ state_rep s' A' T L' g ∧ L ⊆ L' ∧
     preserved {[b]} A (mem s) A' (mem s')).

Lemma payload_request n : 0 < n → 8 < block_size_for_payload n ≤ 2048.
Proof.
  intros. unfold block_size_for_payload. change MAX_ORDER_SIZE with 2048.
  change HEADER_SIZE_BYTES with 8. change MIN_ORDER_SIZE with 16. lia.
Qed.

Lemma drop_clip (offset k : Z) (value : list Z) :
  0 ≤ offset → 0 ≤ k →
  drop (length (clip k (drop (Z.to_nat offset) value))) (drop (Z.to_nat offset) value)
  = drop (Z.to_nat (offset + zlen (clip k (drop (Z.to_nat offset) value)))) value.
Proof. intros. rewrite drop_drop. f_equal. unfold zlen. lia. Qed.

(** One extent followed by the others. *)
Lemma extents_cons s A L b k v l s2 A2 X g T n :
  state_rep s A T L g → A !! b = Some (k, Extent) → v ≠ [] →
  hdr_extent_next_index (hdr (mem s) b) = n → default 0 (head l) = n →
  slice (16 * b + 8) (zlen (clip k v)) (mapping_bytes (mem s)) = clip k v →
  preserved X A (mem s) A2 (mem s2) → b ∉ X →
  extents_repr (mem s2) A2 l (drop (length (clip k v)) v) → extents_repr (mem s2) A2 (b :: l) v.
Proof.
  intros HS HA Hv Hn Hl Hsl HP HX Hr. split; [done|]. exists k.
  destruct (HP b k Extent HX HA) as [HA2 Hb]; [done|].
  destruct (inv_block _ _ (sr_heap _ _ _ _ _ HS) _ _ _ HA) as (?&?&_).
  destruct (block_words _ _ _ _ Hb) as [-> _]; [lia..|].
  pose proof (zlen_clip k v ltac:(lia)). pose proof (zlen_nonneg (clip k v)).
  split; [done|]. split; [by rewrite Hn|]. split; [|done].
  by rewrite (block_slice _ _ _ _ _ _ Hb) by lia.
Qed.

Lemma drop_nonempty (offset : Z) (value : list Z) :
  0 ≤ offset < zlen value → drop (Z.to_nat offset) value ≠ [].
Proof.
  intros Ho Hd. apply (f_equal length) in Hd. rewrite length_drop in Hd. unfold zlen in Ho.
  simpl in Hd. lia.
Qed.

Lemma write_extents_loop_ok fuel s A T L g value offset b k :
  state_rep s A T L g → b ∈ L → A !! b = Some (k, Reserved) → bytes_ok value →
  0 ≤ offset < zlen value → zlen value - offset < Z.of_nat fuel →
  ∃ r s', write_extents_loop fuel value b offset s = (r, s') ∧
    extents_written s A T L g b (drop (Z.to_nat offset) value) r s'.
Proof.
  revert s A L offset b k.
  induction fuel as [|fuel IH]; intros s A L offset b k HS Hb HA Hv Ho Hf; [lia|].
  cbn [write_extents_loop]. cbv zeta. by_ltb.
  set (v := drop (Z.to_nat offset) value). assert (v ≠ []) as Hne by (by apply drop_nonempty).
  assert (zlen v = zlen value - offset) as Hzv by (unfold v, zlen in *; rewrite length_drop; lia).
  destruct (extent_fill_step s A T L g b k v HS Hb HA) as (s1&E1&HS1&HP1&Hn1&Hsl1);
    [by apply Forall_drop|].
  destruct (inv_block _ _ (sr_heap _ _ _ _ _ HS) _ _ _ HA) as (Hbr&Hk8&_).
  pose proof (zlen_clip k v ltac:(lia)) as Hc. pose proof (pow2_pos k ltac:(lia)).
  apply bind_ok_inv in E1 as (u&s0&E0&E1). erewrite bind_ok by exact E0.
  erewrite bind_ok by exact E1. set (off' := offset + zlen (clip k v)) in *.
  assert (<[b := (k, Extent)]> A !! b = Some (k, Extent)) as HA1 by apply lookup_insert_eq.
  destruct (off' <? zlen value) eqn:Hlt; to_props.
  - destruct (alloc_step s1 _ T L g _ HS1 (payload_request (zlen value - off') ltac:(lia)))
      as [E2|(b'&k'&s2&A2&E2&HS2&Hb'&_&_&Hub&HP2)].
    { exists (Err HeapAtMaximumSize), s1. erewrite bind_err by exact E2. split; [done|].
      right. by exists L, (<[b := (k, Extent)]> A). }
    erewrite bind_ok by exact E2.
    destruct (inv_block _ _ (sr_heap _ _ _ _ _ HS2) _ _ _ Hb') as (Hb'r&_).
    destruct (HP2 b k Extent) as [HA2 Hby2]; [set_solver|done..|].
    destruct (extent_link_step s2 A2 T _ g b k b' HS2) as (s3&E3&HS3&HP3&Hn3&Hsl3);
      [set_solver|done..|]. erewrite bind_ok by exact E3.
    assert (b' ≠ b) as Hbb.
    { intros ->. apply Hub. by exists k, Extent. }
    assert (¬ used A b') as HubA.
    { intros (kb&tb&HAb&Htb). apply Hub. exists kb, tb. by rewrite lookup_insert_ne. }
    assert (A2 !! b' = Some (k', Reserved)) as HA3 by done.
    destruct (IH s3 A2 (L ∪ {[b']}) off' b' k' HS3) as (r&s'&E4&Hw); [set_solver|done|done|lia|lia|].
    exists r, s'. split; [done|].
    assert (preserved {[b]} A (mem s) A2 (mem s3)) as HP03.
    { eapply preserved_mono; [|eapply preserved_trans; [exact HP1|];
        eapply preserved_trans; [exact HP2|exact HP3]]. set_solver. }
    assert (∀ A4 m4, preserved {[b']} A2 (mem s3) A4 m4 → preserved {[b]} A (mem s) A4 m4) as Hcomb.
    { intros A4 m4 HP4. eapply preserved_fresh; [by eapply preserved_trans|].
      intros x Hx. destruct (decide (x = b')) as [->|]; [by right|left; set_solver]. }
    destruct Hw as [(l&A4&->&HS4&Hr4&Hnd&Hfr&HP4)|(L'&A4&->&HS4&HLs&HP4)].
    + left. exists (b' :: l), A4. split; [done|].
      split; [by replace (L ∪ list_to_set (b' :: l)) with (L ∪ {[b']} ∪ list_to_set l) by set_solver|].
      split; [|split; [|split; [|by apply Hcomb]]].
      * eapply (extents_cons s3 A2 _ b k v (b' :: l)); [exact HS3|done|done|exact Hn3|done| |exact HP4|set_solver|].
        -- pose proof (zlen_nonneg (clip k v)). rewrite Hsl3 by done.
           by rewrite (block_slice _ _ _ _ _ _ Hby2) by lia.
        -- unfold v. rewrite drop_clip by lia. exact Hr4.
      * apply NoDup_cons. split; [|done]. intros Hin. apply Hfr in Hin. set_solver.
      * intros x [->|Hx]%elem_of_cons; [|apply Hfr in Hx; set_solver].
        intros HxL. destruct (leaked_block _ _ _ _ _ _ HS HxL) as (kx&tx&?&?).
        apply HubA. by exists kx, tx.
    + right. exists L', A4. split; [done|]. split; [done|]. split; [set_solver|by apply Hcomb].
  - destruct fuel as [|fuel]; [lia|]. cbn [write_extents_loop]. cbv zeta. by_ltb.
    exists (Ok tt), s1. split; [done|]. left. exists [], (<[b := (k, Extent)]> A).
    split; [done|]. split; [by replace (L ∪ list_to_set []) with L by set_solver|].
    split; [|split; [constructor|split; [set_solver|done]]].
    eapply (extents_cons s1 _ _ b k v []); [exact HS1|done|done|exact Hn1|done|done
      |apply (preserved_refl ∅)|set_solver|].
    unfold v. rewrite drop_clip by lia. fold v off'. apply drop_ge. unfold zlen in Hlt at 1. lia.
Qed.

Lemma write_extents_ok s A T L g value :
  state_rep s A T L g → bytes_ok value →
  (∃ l s' A', write_extents value s = (Ok (default 0 (head l)), s') ∧
     state_rep s' A' T (L ∪ list_to_set l) g ∧ extents_repr (mem s') A' l value ∧
     NoDup l ∧ (∀ x, x ∈ l → x ∉ L) ∧ preserved ∅ A (mem s) A' (mem s')) ∨
  (∃ L' s' A', write_extents value s = (Err HeapAtMaximumSize, s') ∧
     state_rep s' A' T L' g ∧ L ⊆ L' ∧ preserved ∅ A (mem s) A' (mem s')).
Proof.
  intros HS Hv. unfold write_extents. destruct (zlen value =? 0) eqn:Hz; to_props.
  { left. exists [], s, A. split; [done|].
    replace (L ∪ list_to_set []) with L by set_solver. split; [done|]. split; [by destruct value|].
    split; [constructor|]. split; [set_solver|done]. }
  pose proof (zlen_nonneg value).
  destruct (alloc_step s A T L g _ HS (payload_request (zlen value) ltac:(lia)))
    as [E1|(b&k&s1&A1&E1&HS1&Hb&_&_&Hub&HP1)].
  { right. exists L, s, A. by erewrite bind_err by exact E1. }
  erewrite bind_ok by exact E1. pose proof (not_leaked _ _ _ _ _ _ HS Hub) as HbL.
  destruct (write_extents_loop_ok (S (length value)) s1 A1 T (L ∪ {[b]}) g value 0 b k HS1)
    as (r&s2&E2&Hw); [set_solver|done|done|lia|unfold zlen; lia|].
  assert (∀ A4 m4, preserved {[b]} A1 (mem s1) A4 m4 → preserved ∅ A (mem s) A4 m4) as Hcomb.
  { intros A4 m4 HP4. eapply preserved_fresh; [by eapply preserved_trans|].
    intros x Hx. right. assert (x = b) as -> by set_solver. done. }
  destruct Hw as [(l&A2&->&HS2&Hr2&Hnd&Hfr&HP2)|(L'&A2&->&HS2&HLs&HP2)].
  - left. exists (b :: l), s2, A2. erewrite bind_ok by exact E2. split; [done|].
    split; [by replace (L ∪ list_to_set (b :: l)) with (L ∪ {[b]} ∪ list_to_set l) by set_solver|].
    split; [done|]. split; [|split; [|by apply Hcomb]].
    + apply NoDup_cons. split; [|done]. intros Hin. apply Hfr in Hin. set_solver.
    + intros x [->|Hx]%elem_of_cons; [done|]. apply Hfr in Hx. set_solver.
  - right. exists L', s2, A2. erewrite bind_err by exact E2. split; [done|]. split; [done|].
    split; [set_solver|by apply Hcomb].
Qed.

(** ** Setting the value of a property *)
Definition stale (o : obj) : obj := with_extents KStale [] o.

Lemma go_stale s A T L g i o f value :
  state_rep s A T L g → T !! i = Some o → o_kind o = KProperty f value →
  state_rep s A (<[i := stale o]> T) (L ∪ list_to_set (o_extents o)) g.
Proof.
  intros HS Hi Hk. destruct (owned_fresh _ _ _ _ _ _ _ HS Hi) as (?&?&?&?&?); [by rewrite Hk|].
  assert (owned o = o_name_block o :: o_extents o) as Ho by (unfold owned; by rewrite Hk).
  assert (owned (stale o) = [o_name_block o]) as Ho' by done.
  apply (rep_ghost s A T L g); [done| | |].
  - apply (tree_ok_reown T L _ i o); rewrite ?Ho, ?Ho'; try (by rewrite Hk) || done.
    + apply HS.
    + set_solver.
    + intros b. rewrite elem_of_union, elem_of_list_to_set. intros [Hb|Hb]; set_solver.
    + intros b Hb. eapply owned_values; [done|done|]. by rewrite Ho.
    + apply NoDup_singleton.
  - intros j x [[<- <-]|[Hij Hj]]%lookup_insert_Some.
    + split; [|done]. destruct (sr_obj _ _ _ _ _ HS i o Hi) as [Hb Hp _ Hn]. rewrite Hk in *.
      split; [done|done|done|]. intros _. by apply Hn.
    + split; [by apply HS|]. unfold count_repr.
      erewrite children_same by (done || by rewrite Hk). by apply HS.
  - intros b. apply accounted_reown with o; [done|]. rewrite Ho, Ho'. intros x. set_solver.
Qed.

Lemma go_fresh s A T L g i o l f value :
  state_rep s A T (L ∪ list_to_set l) g → T !! i = Some (stale o) → (∀ x, x ∈ l → x ∉ L) → NoDup l →
  kind_repr (mem s) A i (with_extents (KProperty f value) l o) →
  state_rep s A (<[i := with_extents (KProperty f value) l o]> T) L g.
Proof.
  intros HS Hi Hl Hnd Hkr.
  destruct (owned_fresh _ _ _ _ _ _ _ HS Hi) as (?&?&?&Hn&?); [done|]. simpl in *.
  apply (rep_ghost s A T (L ∪ list_to_set l) g); [done| | |].
  - apply (tree_ok_reown T (L ∪ list_to_set l) _ i (stale o)); try done; simpl.
    + apply HS.
    + set_solver.
    + intros b Hb. split; [set_solver|]. intros [->|Hbl]%elem_of_cons; [set_solver|].
      by apply (Hl b Hbl).
    + intros b Hb. by eapply (owned_values s A T _ g i (stale o)).
    + apply NoDup_cons. split; [set_solver|done].
  - intros j x [[<- <-]|[Hij Hj]]%lookup_insert_Some.
    + split; [|done]. destruct (sr_obj _ _ _ _ _ HS i _ Hi) as [Hb Hp _ Hnm].
      split; [done|done|done|]. intros _. by apply Hnm.
    + split; [by apply HS|]. unfold count_repr.
      erewrite children_same by done. by apply HS.
  - intros b. apply accounted_reown with (stale o); [done|]. simpl. intros x. set_solver.
Qed.

(** Reading the extent chain of a property and freeing it. *)
Lemma release_step {C} (k : M Error State C) s A T L g i o f old :
  state_rep s A T L g → T !! i = Some o → o_kind o = KProperty f old →
  ∃ s' A', (head <- on_block (rd property_extent_index i) ;; free_extents head ;;; k) s = k s' ∧
    state_rep s' A' (<[i := stale o]> T) L g ∧
    preserved (list_to_set (o_extents o)) A (mem s) A' (mem s').
Proof.
  intros HS Hi Hk. destruct (obj_slot _ _ _ _ _ HS _ _ Hi) as (Hm&Hin&Hbt&_). rewrite Hk in Hbt.
  pose proof (or_kind _ _ _ _ (sr_obj _ _ _ _ _ HS i o Hi)) as Hkr.
  unfold kind_repr in Hkr. rewrite Hk in Hkr. destruct Hkr as (_&Hx&_&Hr).
  destruct (free_extents_ok s A (<[i := stale o]> T) (L ∪ list_to_set (o_extents o)) g (o_extents o))
    as (s1&A1&E1&HS1&HP1).
  - by eapply go_stale.
  - by eapply extents_linked.
  - pose proof (tree_nodup _ _ (sr_tree _ _ _ _ _ HS) i o Hi) as Hnd. unfold owned in Hnd.
    rewrite Hk in Hnd. by apply NoDup_cons in Hnd as [_ Hnd].
  - set_solver.
  - exists s1, A1.
    rewrite (bind_on_block_rd _ _ _ _ _ (property_extent_index_ok _ _ Hm Hin Hbt)), Hx.
    rewrite (bind_ok _ _ _ _ _ E1). split; [done|]. split; [|done].
    assert (∀ b, b ∈ o_extents o → b ∉ L) as Hd.
    { intros b Hb HL. apply (tree_leak _ _ (sr_tree _ _ _ _ _ HS)) in HL as (_&_&Hno).
      apply (Hno i o Hi). unfold owned. rewrite Hk. by right. }
    replace ((L ∪ list_to_set (o_extents o)) ∖ list_to_set (o_extents o)) with L in HS1; [done|].
    apply set_eq. intros x. rewrite elem_of_difference, elem_of_union, elem_of_list_to_set.
    specialize (Hd x). tauto.
Qed.

(** Linking a property to its new extents. *)
Lemma link_step s A T L g i o l f value :
  state_rep s A T (L ∪ list_to_set l) g → T !! i = Some (stale o) → (∀ x, x ∈ l → x ∉ L) → NoDup l →
  PropertyFormat_from_u8 (pl_property_flags (pay (mem s) i)) = Some f → zlen value < 2 ^ 32 →
  extents_repr (mem s) A l value →
  ∃ s' A', (on_block (set_property_total_length i (zlen value)) ;;;
    on_block (set_property_extent_index i (default 0 (head l)))) s = (Ok tt, s') ∧
    state_rep s' A' (<[i := with_extents (KProperty f value) l o]> T) L g.
Proof.
  intros HS Hi Hl Hnd Hf Hv Hr. destruct (obj_slot _ _ _ _ _ HS _ _ Hi) as (Hm&Hin&Hbt&_).
  simpl in Hbt. pose proof Hin as [Hi0 _]. pose proof (pay_ok _ _ Hm Hin) as Hpay.
  pose proof (zlen_nonneg value). assert (0 ≤ default 0 (head l) < 2 ^ 28) as Hx.
  { destruct l as [|b l]; simpl; [lia|]. destruct Hr as (_&k&Hk&_).
    by destruct (inv_block _ _ (sr_heap _ _ _ _ _ HS) _ _ _ Hk) as (?&_). }
  destruct (set_property_ok (mem s) i (zlen value) _ Hm Hin Hbt (conj (zlen_nonneg value) Hv) Hx)
    as [W1 W2].
  assert (u64_ok (set_pl_property_total_length (pay (mem s) i) (zlen value))) as Hu
    by (apply set_bit_range_ok; [done|lia..]).
  destruct (property_payload_fields (pay (mem s) i) (zlen value) _ Hpay (conj (zlen_nonneg value) Hv) Hx)
    as (Hu2&Ht2&Hx2&Hf2).
  destruct (write_pay_obj _ s A T _ g i (stale o) (stale o) _ HS Hi ltac:(done) ltac:(done) ltac:(done)
    ltac:(done) ltac:(done) Hu W1 ltac:(done) ltac:(done)) as (s1&E1&Hm1&HS1&HP1).
  rewrite insert_id in HS1 by done. rewrite <- Hm1 in W2.
  destruct (write_pay_obj _ s1 A T _ g i (stale o) (stale o) _ HS1 Hi ltac:(done) ltac:(done) ltac:(done)
    ltac:(done) ltac:(done) Hu2 W2 ltac:(done) ltac:(done)) as (s2&E2&Hm2&HS2&HP2).
  rewrite insert_id in HS2 by done. exists s2, A. rewrite (bind_ok _ _ _ _ _ E1). split; [done|].
  assert (pay (mem s2) i = property_payload (pay (mem s) i) (zlen value) (default 0 (head l))) as Hp2.
  { rewrite Hm2, pay_put_pay, decide_True; try done.
    by destruct (obj_slot _ _ _ _ _ HS1 _ _ Hi) as (_&?&_). }
  apply go_fresh; try done. unfold kind_repr. cbn [o_kind o_extents with_extents]. rewrite Hp2.
  rewrite Ht2, Hx2, Hf2. split; [done|]. split; [done|]. split; [done|].
  eapply extents_repr_preserved; [apply HS|by eapply preserved_trans| |done].
  intros b Hb ?. assert (b = i) as -> by set_solver.
  destruct (tree_leak _ _ (sr_tree _ _ _ _ _ HS) i) as (_&?&_); [set_solver|congruence].
Qed.

Lemma inner_set_ok s A T L g i o f old value :
  state_rep s A T L g → T !! i = Some o → o_kind o = KProperty f old →
  bytes_ok value → zlen value < 2 ^ 32 →
  (∃ l s' A', inner_set_property_value i value s = (Ok tt, s') ∧
     state_rep s' A' (<[i := with_extents (KProperty f value) l o]> T) L g) ∨
  (∃ L' s' A', inner_set_property_value i value s = (Err HeapAtMaximumSize, s') ∧
     state_rep s' A' (<[i := stale o]> T) L' g ∧ L ⊆ L').
Proof.
  intros HS Hi Hk Hv Hlen. unfold inner_set_property_value.
  destruct (release_step (extent_index <- write_extents value ;;
    length <- lift (if zlen value <? 2 ^ 32 then Ok (zlen value) else Panic) ;;
    on_block (set_property_total_length i length) ;;;
    on_block (set_property_extent_index i extent_index)) s A T L g i o f old HS Hi Hk)
    as (s1&A1&->&HS1&HP1).
  assert (<[i := stale o]> T !! i = Some (stale o)) as Hi1 by apply lookup_insert_eq.
  destruct (write_extents_ok s1 A1 _ L g value HS1 Hv)
    as [(l&s2&A2&E2&HS2&Hr2&Hnd&Hfr&HP2)|(L'&s2&A2&E2&HS2&HL&_)].
  - left. rewrite (bind_ok _ _ _ _ _ E2). rewrite (proj2 (Z.ltb_lt _ _) Hlen). cbn [lift bind].
    destruct (link_step s2 A2 _ L g i o l f value HS2 Hi1 Hfr Hnd) as (s3&A3&E3&HS3); try done.
    + rewrite (λ H, pay_kept s1 A1 _ _ g s2 A2 ∅ i _ HS1 HP2 H Hi1) by set_solver.
      rewrite (λ H, pay_kept s A T L g s1 A1 _ i o HS HP1 H Hi).
      * pose proof (or_kind _ _ _ _ (sr_obj _ _ _ _ _ HS i o Hi)) as Hkr.
        unfold kind_repr in Hkr. rewrite Hk in Hkr. apply Hkr.
      * destruct (owned_fresh _ _ _ _ _ _ _ HS Hi) as (_&_&?&_); [by rewrite Hk|].
        by rewrite elem_of_list_to_set.
    + exists l, s3, A3. rewrite insert_insert_eq in HS3. done.
  - right. exists L', s2, A2. by rewrite (bind_err _ _ _ _ _ E2).
Qed.

(** What setting a property does to the forest and to the leaked blocks. *)
Definition property_set T L (i : Z) (o : obj) (f : PropertyFormat) (value : list Z)
    (r : result Error unit) T' L' : Prop :=
  match r with
  | Ok _ => L' = L ∧ ∃ l, T' = <[i := with_extents (KProperty f value) l o]> T
  | Err e => e = HeapAtMaximumSize ∧ T' = <[i := stale o]> T ∧ L ⊆ L'
  | _ => False
  end.

Lemma set_property_spec s A T L g i o f old value :
  state_rep s A T L g → Z.even g = true → T !! i = Some o → o_kind o = KProperty f old →
  bytes_ok value → zlen value < 2 ^ 32 →
  ∃ r s' A' T' L', set_property i value s = (r, s') ∧ state_rep s' A' T' L' (next2 g) ∧
    property_set T L i o f value r T' L'.
Proof.
  intros HS Hev Hi Hk Hv Hlen. unfold set_property.
  destruct (with_lock_rule (block <- heap_block i ;; inner_set_property_value block value) s A T L g
    (property_set T L i o f value) HS Hev) as (r&s3&A3&T3&L3&E&HS3&_&HQ);
    [|by exists r, s3, A3, T3, L3].
  intros s1 HS1. pose proof (sr_obj_block _ _ _ _ _ HS _ _ Hi) as HA.
  rewrite (bind_ok _ _ _ _ _ (heap_block_ok _ _ _ _ _ HS1 _ _ _ HA)).
  destruct (inner_set_ok s1 A T L _ i o f old value HS1 Hi Hk Hv Hlen)
    as [(l&s2&A2&E2&HS2)|(L'&s2&A2&E2&HS2&HL)].
  - exists (Ok tt), s2, A2, (<[i := with_extents (KProperty f value) l o]> T), L.
    split; [done|]. split; [done|]. split; [done|]. split; [done|]. by exists l.
  - by exists (Err HeapAtMaximumSize), s2, A2, (<[i := stale o]> T), L'.
Qed.

(** ** Freeing a property *)
Lemma deleted_stale T i o f value :
  T !! i = Some o → o_kind o = KProperty f value → o_parent o ≠ i →
  deleted (<[i := stale o]> T) i (stale o) = deleted T i o.
Proof.
  intros Hi Hk Hp. unfold deleted. cbn [o_kind stale with_extents o_parent]. rewrite Hk.
  rewrite !bool_decide_false by done. cbn [andb]. unfold uncounted.
  rewrite lookup_insert_ne by done. destruct (T !! o_parent o) as [po|]; [|by rewrite delete_insert_eq].
  rewrite (children_same T i o (stale o)) by (done || by rewrite Hk).
  case_decide; [|by rewrite delete_insert_eq].
  by rewrite delete_insert_ne, delete_insert_eq by done.
Qed.

Lemma free_property_spec s A T L g i o f value :
  state_rep s A T L g → Z.even g = true → T !! i = Some o → o_kind o = KProperty f value → lost_ok T →
  ∃ s' A', free_property i s = (Ok tt, s') ∧ state_rep s' A' (deleted T i o) L (next2 g).
Proof.
  intros HS Hev Hi Hk Hlo. unfold free_property.
  destruct (with_lock_rule (block <- heap_block i ;; head <- on_block (rd property_extent_index block) ;;
    free_extents head ;;; delete_value block) s A T L g
    (λ r T2 L2, r = Ok tt ∧ T2 = deleted T i o ∧ L2 = L) HS Hev)
    as (r&s3&A3&T3&L3&E&HS3&_&->&->&->); [|by exists s3, A3].
  intros s1 HS1. pose proof (sr_obj_block _ _ _ _ _ HS _ _ Hi) as HA.
  rewrite (bind_ok _ _ _ _ _ (heap_block_ok _ _ _ _ _ HS1 _ _ _ HA)).
  destruct (release_step (delete_value i) s1 A T L _ i o f value HS1 Hi Hk) as (s2&A2&->&HS2&_).
  destruct (tree_parent _ _ (sr_tree _ _ _ _ _ HS) i o Hi) as [Hp _]; [by rewrite Hk|].
  destruct (delete_value_ok s2 A2 (<[i := stale o]> T) L _ i (stale o) HS2) as (s3&A3&E3&HS3).
  - apply lookup_insert_eq.
  - done.
  - intros j x [[<- <-]|[_ Hj]]%lookup_insert_Some; [by apply (Hlo i o)|by eapply Hlo].
  - erewrite deleted_stale in HS3 by done.
    replace (L ∪ list_to_set (o_extents (stale o))) with L in HS3 by set_solver.
    by exists (Ok tt), s3, A3, (deleted T i o), L.
Qed.

(** ** Creating a property *)
Definition property_created T L (name value : list Z) (f : PropertyFormat) (p : Z)
    (r : result Error Z) T' L' : Prop :=
  match r with
  | Ok b => L' = L ∧ is_parent T p = true ∧ T !! b = None ∧
      ∃ n l, T' = <[b := with_extents (KProperty f value) l (new_obj (KProperty f []) 0 name n p)]> T
  | Err e => created T name p MIN_ORDER_SIZE (λ _, False) (Err e) T' ∧ L' = L ∨
      e = HeapAtMaximumSize ∧ is_parent T p = true ∧ T' = adj p 1 T ∧ L ⊆ L'
  | _ => False
  end.

(** The cleanup after a failure frees the two blocks of the new property. *)
Lemma discard_step {C} (k : M Error State C) s A T L g b o :
  state_rep s A (<[b := o]> T) L g → T !! b = None → is_gone (o_kind o) = false →
  is_node (o_kind o) = false → o_extents o = [] →
  ∃ s' A' L', (on_heap (unwrap (free_block b)) ;;; on_heap (unwrap (free_block (o_name_block o))) ;;; k) s
      = k s' ∧ state_rep s' A' (adj (o_parent o) 1 T) L' g ∧ L ⊆ L'.
Proof.
  intros HS Hb Hg Hn Hx. assert (<[b := o]> T !! b = Some o) as Hi by apply lookup_insert_eq.
  destruct (tree_parent _ _ (sr_tree _ _ _ _ _ HS) b o Hi Hg) as [Hp _].
  destruct (owned_fresh _ _ _ _ _ _ _ HS Hi Hg) as (HbL&Hne&_&HnL&_).
  assert (children (<[b := o]> T) b = 0) as Hc.
  { eapply children_parentless; [apply HS|..].
    - intros ->. pose proof (sr_zero _ _ _ _ _ HS). congruence.
    - intros o' Ho'. rewrite Hi in Ho'. by simplify_eq. }
  pose proof (orphan _ _ _ _ _ _ _ HS Hi Hg Hc) as HS1.
  assert (delete b (adj (o_parent o) 1 (<[b := o]> T)) = adj (o_parent o) 1 T) as HT.
  { apply map_eq. intros j. destruct (decide (j = b)) as [->|Hj].
    - by rewrite lookup_delete_eq, adj_lookup, Hb.
    - by rewrite lookup_delete_ne, !adj_lookup, lookup_insert_ne by done. }
  rewrite HT in HS1. unfold owned in HS1. rewrite Hg, Hx in HS1.
  destruct (free_step _ _ _ _ _ b HS1) as (s2&A2&E2&HS2&_); [set_solver|].
  destruct (free_step _ _ _ _ _ (o_name_block o) HS2) as (s3&A3&E3&HS3&_); [set_solver|].
  eexists s3, A3, _. rewrite (bind_ok _ _ _ _ _ (on_heap_unwrap _ _ _ _ E2)).
  rewrite (bind_ok _ _ _ _ _ (on_heap_unwrap _ _ _ _ E3)). split; [done|]. split; [done|set_solver].
Qed.

Lemma new_property_step s A T L g name p f b n s' A' :
  reserved s A T L g name p MIN_ORDER_SIZE b n s' A' → is_parent T p = true → lost_ok T →
  T !! b = None ∧ ∃ s2 A2, on_block (become_property b n p f) s' = (Ok tt, s2) ∧
    state_rep s2 A2 (<[b := new_obj (KProperty f []) 0 name n p]> T) L g.
Proof.
  intros Hres Hpar Hlo. pose proof Hres as [HS2 _ _ _ (k&Hk&_&Hmin) _].
  destruct (inv_block _ _ (sr_heap _ _ _ _ _ HS2) _ _ _ Hk) as (_&?&_).
  pose proof (order_zero k ltac:(lia) Hmin) as ->.
  split.
  - pose proof (tree_leak _ _ (sr_tree _ _ _ _ _ HS2) b ltac:(set_solver)) as (_&Hb&_).
    rewrite adj_lookup in Hb. by destruct (T !! b).
  - destruct (new_property_fields f) as (Hu&Ht&Hx&Hf).
    eapply (finish_create _ s A T L g name p MIN_ORDER_SIZE b n s' A' (KProperty f [])); try done.
    + intros. by apply become_property_ok.
    + intros A2 Hp. unfold kind_repr. cbn [o_kind new_obj]. rewrite Hp, Ht, Hx, Hf.
      split; [done|]. split; [done|]. split; [by destruct f|done].
Qed.

Lemma create_property_spec s A T L g name value f p :
  state_rep s A T L g → Z.even g = true → bytes_ok name → parent_known T p → lost_ok T →
  bytes_ok value → zlen value < 2 ^ 32 →
  ∃ r s' A' T' L', create_property name value f p s = (r, s') ∧ state_rep s' A' T' L' (next2 g) ∧
    property_created T L name value f p r T' L'.
Proof.
  intros HS Hev Hname Hp Hlo Hv Hlen. unfold create_property.
  match goal with |- context [with_header_lock ?c] => destruct (with_lock_rule c s A T L g
    (property_created T L name value f p) HS Hev) as (r&s3&A3&T3&L3&E&HS3&_&HQ) end;
    [|by exists r, s3, A3, T3, L3].
  intros s1 HS1. destruct (reserve_ok s1 A T L (g + 1) name p MIN_ORDER_SIZE HS1)
    as [(e&s2&A2&E2&HS2&He)|(Hpar&b&n&s2&A2&E2&Hres)]; try done.
  { exists (Err e), s2, A2, T, L. rewrite (bind_err _ _ _ _ _ E2).
    split; [done|]. split; [done|]. split; [done|]. by left. }
  rewrite (bind_ok _ _ _ _ _ E2). cbn [fst snd].
  destruct (new_property_step s1 A T L _ name p f b n s2 A2 Hres Hpar Hlo) as (Hb&s3&A3&E3&HS3).
  rewrite (bind_ok _ _ _ _ _ E3). set (o := new_obj (KProperty f []) 0 name n p) in *.
  assert (<[b := o]> T !! b = Some o) as Hi by apply lookup_insert_eq.
  destruct (inner_set_ok s3 A3 _ L _ b o f [] value HS3 Hi eq_refl Hv Hlen)
    as [(l&s4&A4&E4&HS4)|(L'&s4&A4&E4&HS4&HL)]; rewrite insert_insert_eq in HS4.
  - rewrite (bind_ok _ _ _ _ _ (try_ok _ _ _ _ E4)). cbv beta iota.
    exists (Ok b), s4, A4, (<[b := with_extents (KProperty f value) l o]> T), L.
    split; [done|]. split; [done|]. split; [done|]. split; [done|]. split; [done|].
    split; [done|]. by exists n, l.
  - rewrite (bind_ok _ _ _ _ _ (try_err _ _ _ _ E4)). cbv beta iota.
    destruct (discard_step (fail HeapAtMaximumSize : M Error State Z) s4 A4 T L' (g + 1) b (stale o) HS4)
      as (s5&A5&L5&E5&HS5&HL5); try done. cbn [o_name_block stale with_extents o new_obj] in E5.
    exists (Err HeapAtMaximumSize), s5, A5, (adj p 1 T), L5. rewrite E5.
    split; [done|]. split; [done|]. split; [done|]. right. split; [done|]. split; [done|].
    split; [done|]. by transitivity L'.
Qed.
End property.
