(* ===== verification/StateArray.v ===== *)
(** The slots of arrays; and [State::create] on a new heap: the header block at index 0
    and an empty forest. *)

From S2P Require Import Prelude SharedBuffer Float64 InspectFormat InspectBlock InspectHeap HeapInvariant HeapCorrect HeapAllocate InspectOps InspectState StateInvariant StateSteps StateCorrect StateOps.

Lemma slice_split (off a b : Z) (bs : list Z) :
  0 ≤ off → 0 ≤ a → 0 ≤ b → slice off (a + b) bs = slice off a bs ++ slice (off + a) b bs.
Proof.
  intros. unfold slice. rewrite !Z2Nat.inj_add by lia. rewrite <- drop_drop.
  generalize (drop (Z.to_nat off) bs) as l. intros l.
  rewrite <- (take_drop (Z.to_nat a) (take (Z.to_nat a + Z.to_nat b) l)) at 1.
  rewrite take_take, Nat.min_l by lia. f_equal.
  rewrite <- take_drop_commute. done.
Qed.

(** An array is in memory when every slot is. *)
Lemma array_words (off : Z) (bs vals : list Z) :
  0 ≤ off → off + 8 * zlen vals ≤ zlen bs →
  slice off (8 * zlen vals) bs = array_bytes vals ↔
  ∀ j v, vals !! j = Some v → slice (off + 8 * Z.of_nat j) 8 bs = to_le_bytes 8 v.
Proof.
  revert off. induction vals as [|v vals IH]; intros off Ho Hl; try (assert (zlen (v :: vals) = 1 + zlen vals) as Hc by (unfold zlen; simpl length; lia)).
  { split; [done|]. intros _. by unfold slice. }
  pose proof (zlen_nonneg vals). replace (8 * zlen (v :: vals)) with (8 + 8 * zlen vals) by (unfold zlen; simpl length; lia).
  rewrite slice_split by lia. unfold array_bytes in *. cbn [map concat].
  assert (length (slice off 8 bs) = length (to_le_bytes 8 v)) as Hlen.
  { apply Nat2Z.inj. change (zlen (slice off 8 bs) = zlen (to_le_bytes 8 v)).
    rewrite zlen_slice, zlen_word by lia. done. }
  specialize (IH (off + 8) ltac:(lia) ltac:(lia)). split.
  - intros Happ. apply app_inj_1 in Happ as [H0 Ht]; [|done].
    intros [|j] x Hx; simplify_eq/=; [by rewrite Z.add_0_r|].
    rewrite <- (proj1 IH Ht j x Hx). f_equal. lia.
  - intros Hall. f_equal; [rewrite <- (Hall 0%nat v eq_refl); f_equal; lia|].
    apply IH. intros j x Hx. rewrite <- (Hall (S j) x Hx). f_equal. lia.
Qed.

Section array.
Context {B : Bitfield} {BS : BitfieldSpec B} {og : Origin}.
Implicit Types (s : State) (A : blocks) (T : tree) (L : gset Z) (g : Z) (o : obj).

(** Writing the word of a slot; a slot past the array's slots changes none. *)
Lemma slot_written (m : Mapping) (off slot w : Z) (vals : list Z) :
  0 ≤ off → 0 ≤ slot → off + 8 * zlen vals ≤ zlen (mapping_bytes m) →
  off + 8 * slot + 8 ≤ zlen (mapping_bytes m) →
  slice off (8 * zlen vals) (mapping_bytes m) = array_bytes vals →
  slice off (8 * zlen vals) (mapping_bytes (put_bytes m (off + 8 * slot) (to_le_bytes 8 w)))
  = array_bytes (<[Z.to_nat slot := w]> vals).
Proof.
  intros Ho Hs Hl Hf Hv.
  assert (zlen (<[Z.to_nat slot := w]> vals) = zlen vals) as Hz
    by (unfold zlen; by rewrite length_insert).
  rewrite <- Hz. apply array_words; rewrite ?Hz, ?put_bytes_len; rewrite ?zlen_word; try lia.
  intros j v Hj. pose proof (proj1 (array_words _ _ _ Ho Hl) Hv) as Hw.
  apply list_lookup_insert_Some in Hj as [(<-&->&_)|[Hne Hj]].
  - rewrite Z2Nat.id by lia. 
    pose proof (slice_splice_same (mapping_bytes m) (off + 8 * slot) (to_le_bytes 8 v)) as He.
    rewrite zlen_word in He. apply He; lia.
  - rewrite <- (Hw j v Hj). apply word_put_disjoint; rewrite ?zlen_word; lia.
Qed.

(** What an array's class of numbers promises about its slots. *)
Class SlotSpec (M0 : Metric) (t : BlockType) (ok : Z → Prop) (bits : Z → Z) := {
  ss_entry : entry_type = t;
  ss_bits v : ok v → u64_ok (bits v);
  ss_set i slot v : set_slot i slot v = array_set_slot t i slot (bits v);
  ss_get m i slot v : ok v → array_get_slot t m i slot = Ok (bits v) → get_slot m i slot = Ok v
}.

#[export] Instance int_slot_spec :
  SlotSpec int_metric IntValue (λ v, signed_ok 64 v = true) (to_unsigned 64).
Proof.
  split; try done.
  - intros v _. unfold u64_ok, to_unsigned. by apply Z.mod_pos_bound.
  - intros m i slot v Hv Hg. simpl. unfold array_get_int_slot. rewrite Hg. simpl. f_equal.
    apply to_signed_unsigned; [lia|]. unfold signed_ok in Hv. to_props. lia.
Qed.
#[export] Instance uint_slot_spec : SlotSpec uint_metric UintValue u64_ok (λ v, v).
Proof. by split. Qed.
#[export] Instance double_slot_spec : SlotSpec double_metric DoubleValue u64_ok (λ v, v).
Proof. by split. Qed.

Definition with_slot (t : BlockType) (f : ArrayFormat) (vals : list Z) (slot bits : Z) (o : obj) : obj :=
  with_kind (KArray t f (<[Z.to_nat slot := bits]> vals)) o.

(** The number of slots the block of an array has room for. *)
Definition room (o : obj) : Z := 2 * 2 ^ o_order o - 2.

Lemma array_facts s A T L g i o t f vals :
  state_rep s A T L g → T !! i = Some o → o_kind o = KArray t f vals →
  map_ok (mem s) ∧ in_slots (mem s) i ∧ btype (mem s) i = Some ArrayValue ∧
  bord (mem s) i = o_order o ∧ 0 ≤ i < 2 ^ 28 ∧ 0 ≤ o_order o < 8 ∧
  16 * i + 16 * 2 ^ o_order o ≤ zlen (mapping_bytes (mem s)) ∧
  from_u8 (pl_array_entry_type (pay (mem s) i)) = Some t ∧ kind_repr (mem s) A i o ∧
  zlen vals ≤ room o.
Proof.
  intros HS Hi Hk. destruct (obj_slot _ _ _ _ _ HS _ _ Hi) as (?&?&Hbt&?&?&?&?).
  rewrite Hk in Hbt. pose proof (or_kind _ _ _ _ (sr_obj _ _ _ _ _ HS i o Hi)) as Hkr.
  pose proof Hkr as Hkr'. unfold kind_repr in Hkr'. rewrite Hk in Hkr'.
  destruct Hkr' as (_&_&_&_&?&?&_). unfold room. do 9 (split; [done|]). lia.
Qed.

Lemma set_slot_step s A T L g i o t f vals slot bits :
  state_rep s A T L g → T !! i = Some o → o_kind o = KArray t f vals → u64_ok bits →
  0 ≤ slot < room o →
  ∃ s', on_block (array_set_slot t i slot bits) s = (Ok tt, s') ∧
    state_rep s' A (<[i := with_slot t f vals slot bits o]> T) L g.
Proof.
  intros HS Hi Hk Hb Hs. destruct (array_facts _ _ _ _ _ _ _ _ _ _ HS Hi Hk)
    as (Hm&Hin&Hbt&Hbo&Hi28&Hord&Hfit&Het&Hkr&Hroom). unfold room in *.
  set (m' := put_bytes (mem s) (16 * i + 16 + 8 * slot) (to_le_bytes 8 bits)).
  assert (hdr m' i = hdr (mem s) i ∧ pay m' i = pay (mem s) i) as [Hh Hp].
  { unfold hdr, pay, m'. by rewrite !word_put_disjoint by (rewrite ?zlen_word; lia). }
  destruct (write_same_header (array_set_slot t i slot bits) s A T L g i o
    (with_slot t f vals slot bits o) m') as (s'&E&_&HS'&_); try done.
  - unfold alike, owned. cbn [with_slot with_kind o_kind o_parent o_name_block o_extents]. by rewrite Hk.
  - by rewrite Hk.
  - rewrite (array_set_slot_ok _ _ (o_order o)) by (done || lia). by by_ltb.
  - apply outside_put_bytes; rewrite ?zlen_word; try done; try lia. by apply to_le_bytes_ok.
  - intros _. unfold kind_repr in *. rewrite Hk in Hkr. destruct Hkr as (?&?&Hsc&?&?&Hz&Hall&Hsl).
    cbn [with_slot with_kind o_kind o_order o_extents]. rewrite Hp.
    assert (zlen (<[Z.to_nat slot := bits]> vals) = zlen vals) as ->
      by (unfold zlen; by rewrite length_insert).
    do 6 (split; [done|]). split; [by apply Forall_insert|].
    apply slot_written; done || lia.
  - by exists s'.
Qed.

Section slots.
Context (M0 : Metric) (t : BlockType) (ok : Z → Prop) (bits : Z → Z).
Context {SS : SlotSpec M0 t ok bits}.
Context s A T L g (i : Z) o (f : ArrayFormat) (vals : list Z) (HS : state_rep s A T L g) (Hev : Z.even g = true).
Context (Hi : T !! i = Some o) (Hk : o_kind o = KArray t f vals).

(** A slot the block has room for is written; a slot beyond [room] is refused. *)
Lemma set_array_slot_spec slot v :
  ok v → 0 ≤ slot → slot ≠ room o →
  ∃ s' A', set_array_slot i slot v s
      = (if room o <? slot then Err (IndexOutOfBounds slot) else Ok tt, s') ∧
    state_rep s' A' (if room o <? slot then T else <[i := with_slot t f vals slot (bits v) o]> T)
      L (next2 g).
Proof.
  intros Hv Hs Hne. destruct (metric_op_rule (λ b, on_block (set_slot b slot v)) s A T L g i o
    (λ r T', r = (if room o <? slot then Err (IndexOutOfBounds slot) else Ok tt) ∧
      T' = if room o <? slot then T else <[i := with_slot t f vals slot (bits v) o]> T) HS Hev Hi)
    as (r&s'&A'&T'&E&HS'&->&->); [|by exists s', A'].
  intros s1 HS1. rewrite ss_set. destruct (room o <? slot) eqn:Hr; to_props.
  - destruct (array_facts _ _ _ _ _ _ _ _ _ _ HS1 Hi Hk) as (?&?&?&?&?&?&?&?&_). unfold room in Hr.
    exists (Err (IndexOutOfBounds slot)), s1, T. split; [|done].
    erewrite on_block_ok by (rewrite (array_set_slot_ok _ _ (o_order o)) by (done || lia); by by_ltb).
    by destruct s1 as [[]].
  - destruct (set_slot_step s1 A T L _ i o t f vals slot (bits v) HS1 Hi Hk (ss_bits v Hv))
      as (s2&E2&HS2); [lia|].
    by exists (Ok tt), s2, (<[i := with_slot t f vals slot (bits v) o]> T).
Qed.

Lemma get_slot_value s1 slot v :
  state_rep s1 A T L (g + 1) → 0 ≤ slot → vals !! Z.to_nat slot = Some (bits v) → ok v →
  get_slot (mem s1) i slot = Ok v ∧ slot < room o.
Proof.
  intros HS1 Hs Hl Hv.
  destruct (array_facts _ _ _ _ _ _ _ _ _ _ HS1 Hi Hk) as (?&?&?&?&?&?&?&?&Hkr&Hr).
  unfold kind_repr in Hkr. rewrite Hk in Hkr. destruct Hkr as (_&_&_&_&_&?&_&Hsl).
  assert (slot < zlen vals) as Hlt by (apply lookup_lt_Some in Hl; unfold zlen; lia).
  split; [|lia]. unfold room in Hr. apply ss_get; [done|].
  rewrite (array_get_slot_ok _ _ (o_order o)) by (done || lia). by_ltb.
  pose proof (proj1 (array_words (16 * i + 16) (mapping_bytes (mem s1)) vals ltac:(lia) ltac:(lia)) Hsl
    (Z.to_nat slot) (bits v) Hl) as Hw.
  rewrite Z2Nat.id in Hw by lia. rewrite Hw. f_equal. apply from_to_le_bytes; [lia|]. by apply ss_bits.
Qed.

(** [add_array_slot] and [subtract_array_slot]: read, compute, write. *)
Lemma update_slot_spec (op : Z → Z → result Error Z) slot v0 v v' :
  0 ≤ slot → vals !! Z.to_nat slot = Some (bits v0) → ok v0 → op v0 v = Ok v' → ok v' →
  ∃ s' A', with_header_lock (
      block <- heap_block i ;;
      previous_value <- on_block (rd (λ c i, get_slot c i slot) block) ;;
      w <- lift (op previous_value v) ;;
      on_block (set_slot block slot w)) s = (Ok tt, s') ∧
    state_rep s' A' (<[i := with_slot t f vals slot (bits v') o]> T) L (next2 g).
Proof.
  intros Hs Hl Hv0 Hop Hv.
  destruct (metric_op_rule (λ block, previous_value <- on_block (rd (λ c i, get_slot c i slot) block) ;;
      w <- lift (op previous_value v) ;; on_block (set_slot block slot w)) s A T L g i o
    (λ r T', r = Ok tt ∧ T' = <[i := with_slot t f vals slot (bits v') o]> T) HS Hev Hi)
    as (r&s'&A'&T'&E&HS'&->&->); [|by exists s', A'].
  intros s1 HS1. destruct (get_slot_value s1 slot v0 HS1 Hs Hl Hv0) as [Hg Hr].
  destruct (set_slot_step s1 A T L _ i o t f vals slot (bits v') HS1 Hi Hk (ss_bits v' Hv))
    as (s2&E2&HS2); [lia|].
  exists (Ok tt), s2, (<[i := with_slot t f vals slot (bits v') o]> T).
  erewrite bind_on_block_rd by exact Hg. erewrite bind_lift by exact Hop. by rewrite ss_set.
Qed.
Lemma update_slot_panics (op : Z → Z → result Error Z) slot v0 v :
  0 ≤ slot → vals !! Z.to_nat slot = Some (bits v0) → ok v0 → op v0 v = Panic →
  fst (with_header_lock (
      block <- heap_block i ;;
      previous_value <- on_block (rd (λ c i, get_slot c i slot) block) ;;
      w <- lift (op previous_value v) ;;
      on_block (set_slot block slot w)) s) = Panic.
Proof.
  intros Hs Hl Hv0 Hop. eapply metric_op_panics; [done..|]. intros s1 HS1.
  destruct (get_slot_value s1 slot v0 HS1 Hs Hl Hv0) as [Hg _].
  erewrite bind_on_block_rd by exact Hg. unfold bind, lift. by rewrite Hop.
Qed.
End slots.
End array.

Section create.
Context {B : Bitfield} {BS : BitfieldSpec B}.

(** The first block of a new heap is the one at index 0. *)
Lemma first_block m h :
  map_ok m → (4096 | mapping_len m) → 4096 ≤ mapping_len m ≤ 2 ^ 32 → new_heap m = (Ok tt, h) →
  ∃ h' A', allocate_block 16 h = (Ok 0, h') ∧ heap_inv h' A' ∧ A' !! 0 = Some (0, Reserved) ∧
    (∀ b, used A' b → b = 0) ∧ same_tail (slots h') m (mapping h').
Proof.
  intros Hm Hd Hl E. destruct (new_heap_rep m Hm Hd Hl) as (h0 & F & E0 & Hs & _ & HR & Hhd & Htail).
  rewrite E in E0. simplify_eq. set (A := <[0 := (7, Free)]> (<[128 := (7, Free)]> ∅) : blocks) in *.
  assert (∀ i k t, A !! i = Some (k, t) → k = 7 ∧ t = Free) as HA.
  { intros i k t [[_ ?]|[_ [[_ ?]|[_ ?]]%lookup_insert_Some]]%lookup_insert_Some; simplify_map_eq; done. }
  pose proof (rep_size _ _ _ _ HR).
  destruct (find_order_ok h0 A F 8 0 HR) as (o & Hfind & Ho); [lia..|].
  assert (o = Some 7) as ->.
  { destruct o as [j|].
    - destruct Ho as [Hj HF]. destruct (F j) as [|x l] eqn:HFj; [done|].
      destruct (rep_list_in h0 A F ∅ j x HR) as [Hx _]; [lia|rewrite HFj; apply list_elem_of_here|].
      apply HA in Hx as [-> _]. done.
    - rewrite (Ho 7) in Hhd by lia. done. }
  destruct (allocate_found h0 A F 0 7 16 0 HR) as (h' & A' & E' & HI & H0 & Hsu & Hn & _ & Htail');
    [lia|apply new_page_coalesced|done|lia|lia|done|done|].
  exists h', A'. split; [done|]. split; [done|]. split; [done|]. split; [|by eapply same_tail_trans].
  intros b (k & t & Hb & Ht). destruct (decide (b = 0)) as [|Hne]; [done|].
  assert (delete 0 A' !! b = Some (k, t)) as Hb' by (by rewrite lookup_delete_ne).
  apply (Hsu b k t Ht) in Hb'. by apply HA in Hb' as [_ ->].
Qed.

Lemma create_spec m h :
  map_ok m → (4096 | mapping_len m) → 4096 ≤ mapping_len m ≤ 2 ^ 32 → new_heap m = (Ok tt, h) →
  ∃ s A, create h = (Ok s, heap s) ∧ state_rep (og := m) s A ∅ ∅ 0.
Proof.
  intros Hm Hd Hl E. destruct (first_block m h Hm Hd Hl E) as (h1 & A & E1 & HI & H0 & Hu & Htail).
  destruct (inv_block _ _ HI _ _ _ H0) as (_&_&Hin&_&Hbo&Hbt).
  pose proof HI as (_&_&F&HR). pose proof (rep_map _ _ _ _ HR) as Hm1.
  destruct header_word_fields as (Hw&Hwo&Hwt&_).
  set (m' := put_pay (put_hdr (mapping h1) 0 header_word) 0 0).
  assert (in_slots (put_hdr (mapping h1) 0 header_word) 0) as Hin1 by (by apply in_slots_put_hdr).
  assert (hdr m' 0 = header_word) as Hh.
  { unfold m'. rewrite hdr_put_pay by done. by rewrite hdr_put_hdr, decide_True by done. }
  destruct (write_preserved h1 A 0 0 Reserved Header m' HI H0) as (HI'&Hu'&HK&_); try done.
  - eapply outside_trans; [by apply outside_put_hdr|]. apply outside_put_pay; [|done..]. by apply put_hdr_ok.
  - unfold bord. by rewrite Hh.
  - unfold btype. by rewrite Hh.
  - exists {| heap := with_map h1 m'; header := 0 |}, (<[0 := (0, Header)]> A). split.
    + unfold create. erewrite bind_ok by exact E1.
      unfold on_mapping, become_header. rewrite (bind_rd_ok _ _ _ _ tt) by (by apply check_type_ok).
      cbv zeta. fold header_word. unfold write.
      erewrite bind_ok; [done|]. erewrite bind_ok by (by apply write_header_ok).
      apply write_payload_ok; [by apply put_hdr_ok|done..].
    + split; simpl; try done.
      * by rewrite lookup_insert_eq.
      * intros b. rewrite Hu'. unfold accounted. split; [intros ?%Hu; by left|].
        intros [->|[[? ?]|[(?&?&?&_)|?]]]; [|by simplify_map_eq..|set_solver].
        exists 0, Reserved. done.
      * destruct HK. by eapply same_tail_trans.
Qed.
End create.
