(* ===== verification/StateTheorems.v ===== *)
(** The theorems of the Inspect state: each operation of [State] against the
    forest of values it maintains, and every sequence of operations of a client. *)

From S2P Require Import Prelude SharedBuffer Float64 InspectFormat InspectBlock InspectHeap HeapInvariant HeapCorrect HeapAllocate HeapTheorems InspectOps InspectState StateInvariant StateSteps StateCorrect StateOps StateProperty StateArray.

(** * Operations of a client

    [NInt], [NUint] and [NDouble] choose the expansion of the macros. *)
Inductive num := NInt | NUint | NDouble.

Definition mk_of (n : num) : Z → kind :=
  match n with NInt => KInt | NUint => KUint | NDouble => KDouble end.
Definition ok_of (n : num) (v : Z) : Prop :=
  match n with NInt => signed_ok 64 v = true | NUint | NDouble => u64_ok v end.
Definition bits_of (n : num) (v : Z) : Z :=
  match n with NInt => to_unsigned 64 v | NUint | NDouble => v end.
Definition type_of (n : num) : BlockType :=
  match n with NInt => IntValue | NUint => UintValue | NDouble => DoubleValue end.

Inductive state_op :=
  | ONode (name : list Z) (parent : Z)
  | OMetric (n : num) (name : list Z) (v parent : Z)
  | OArray (n : num) (name : list Z) (slots : Z) (f : ArrayFormat) (parent : Z)
  | OProperty (name value : list Z) (f : PropertyFormat) (parent : Z)
  | OSet (n : num) (i v : Z)
  | OAdd (n : num) (i v : Z)
  | OSubtract (n : num) (i v : Z)
  | OGet (n : num) (i : Z)
  | OSetSlot (n : num) (i slot v : Z)
  | OAddSlot (n : num) (i slot v : Z)
  | OSubtractSlot (n : num) (i slot v : Z)
  | OSetProperty (i : Z) (value : list Z)
  | OFreeProperty (i : Z)
  | OFree (i : Z).

Section ops.
Context {B : Bitfield}.

Definition metric_of (n : num) : Metric :=
  match n with NInt => int_metric | NUint => uint_metric | NDouble => double_metric end.

(** An operation's outcome: an index, a value, or nothing. *)
Definition exec (o : state_op) : M Error State (option Z) :=
  let some := λ m : M Error State Z, (a <- m ;; ret (Some a)) in
  let none := λ m : M Error State unit, (m ;;; ret None) in
  match o with
  | ONode name p => some (create_node name p)
  | OMetric n name v p => some (create_metric (T := metric_of n) name v p)
  | OArray n name slots f p => some (create_array (T := metric_of n) name slots f p)
  | OProperty name value f p => some (create_property name value f p)
  | OSet n i v => none (set_metric (T := metric_of n) i v)
  | OAdd n i v => none (add_metric (T := metric_of n) i v)
  | OSubtract n i v => none (subtract_metric (T := metric_of n) i v)
  | OGet n i => some (get_metric (T := metric_of n) i)
  | OSetSlot n i slot v => none (set_array_slot (T := metric_of n) i slot v)
  | OAddSlot n i slot v => none (add_array_slot (T := metric_of n) i slot v)
  | OSubtractSlot n i slot v => none (subtract_array_slot (T := metric_of n) i slot v)
  | OSetProperty i value => none (set_property i value)
  | OFreeProperty i => none (free_property i)
  | OFree i => none (free_value i)
  end.

(** [i] is a metric of the forest with value [v], or an array with slots [vals]. *)
Definition is_metric (T : tree) (n : num) (i v : Z) (o : obj) : Prop :=
  T !! i = Some o ∧ o_kind o = mk_of n v.
Definition is_array (T : tree) (n : num) (i : Z) (f : ArrayFormat) (vals : list Z) (o : obj) : Prop :=
  T !! i = Some o ∧ o_kind o = KArray (type_of n) f vals.
Definition is_property (T : tree) (i : Z) (f : PropertyFormat) (value : list Z) (o : obj) : Prop :=
  T !! i = Some o ∧ o_kind o = KProperty f value.

(** When a client may use an operation: parents are known, other handles are of
    live values of the right kind, and arithmetic does not overflow. *)
Definition pre (T : tree) (o : state_op) : Prop :=
  match o with
  | ONode name p => bytes_ok name ∧ parent_known T p
  | OMetric n name v p => bytes_ok name ∧ parent_known T p ∧ ok_of n v
  | OArray n name slots f p => bytes_ok name ∧ parent_known T p ∧ 0 ≤ slots < 256
  | OProperty name value f p => bytes_ok name ∧ parent_known T p ∧ bytes_ok value ∧ zlen value < 2 ^ 32
  | OSet n i v => ok_of n v ∧ ∃ v0 x, is_metric T n i v0 x
  | OAdd n i v => ∃ v0 v' x, is_metric T n i v0 x ∧
      value_add (Metric := metric_of n) v0 v = Ok v' ∧ ok_of n v'
  | OSubtract n i v => ∃ v0 v' x, is_metric T n i v0 x ∧
      value_sub (Metric := metric_of n) v0 v = Ok v' ∧ ok_of n v'
  | OGet n i => ∃ v x, is_metric T n i v x
  | OSetSlot n i slot v => ok_of n v ∧ 0 ≤ slot ∧ ∃ f vals x, is_array T n i f vals x ∧ slot ≠ room x
  | OAddSlot n i slot v => 0 ≤ slot ∧ ∃ f vals x v0 v', is_array T n i f vals x ∧ ok_of n v0 ∧
      vals !! Z.to_nat slot = Some (bits_of n v0) ∧
      value_add (Metric := metric_of n) v0 v = Ok v' ∧ ok_of n v'
  | OSubtractSlot n i slot v => 0 ≤ slot ∧ ∃ f vals x v0 v', is_array T n i f vals x ∧ ok_of n v0 ∧
      vals !! Z.to_nat slot = Some (bits_of n v0) ∧
      value_sub (Metric := metric_of n) v0 v = Ok v' ∧ ok_of n v'
  | OSetProperty i value => bytes_ok value ∧ zlen value < 2 ^ 32 ∧ ∃ f old x, is_property T i f old x
  | OFreeProperty i => ∃ f value x, is_property T i f value x
  | OFree i => ∃ x, T !! i = Some x ∧ is_gone (o_kind x) = false
  end.

(** Arithmetic on a live metric, or on a slot of a live array, that overflows. *)
Definition overflows (T : tree) (o : state_op) : Prop :=
  let on_metric n i (f : Z → result Error Z) := ∃ v0 x, is_metric T n i v0 x ∧ f v0 = Panic in
  let on_slot n i slot (f : Z → result Error Z) := 0 ≤ slot ∧ ∃ fm vals x v0, is_array T n i fm vals x ∧ ok_of n v0 ∧
    vals !! Z.to_nat slot = Some (bits_of n v0) ∧ f v0 = Panic in
  match o with
  | OAdd n i v => on_metric n i (λ v0, value_add (Metric := metric_of n) v0 v)
  | OSubtract n i v => on_metric n i (λ v0, value_sub (Metric := metric_of n) v0 v)
  | OAddSlot n i slot v => on_slot n i slot (λ v0, value_add (Metric := metric_of n) v0 v)
  | OSubtractSlot n i slot v => on_slot n i slot (λ v0, value_sub (Metric := metric_of n) v0 v)
  | _ => False
  end.

(** The outcome of an operation and what it does to the forest [T] and to the
    leaked blocks [L]. *)
Definition outcome {C : Type} (f : C → option Z) (r : result Error C) : result Error (option Z) :=
  x <-? r ;; Ok (f x).

Definition post (T : tree) (L : gset Z) (o : state_op) (r : result Error (option Z))
    (T' : tree) (L' : gset Z) : Prop :=
  match o with
  | ONode name p => L' = L ∧ ∃ r0, r = outcome Some r0 ∧ created T name p 16 (eq KNode) r0 T'
  | OMetric n name v p => L' = L ∧ ∃ r0, r = outcome Some r0 ∧ created T name p 16 (eq (mk_of n v)) r0 T'
  | OArray n name slots f p => L' = L ∧
      if 254 <? slots then r = Err (CannotAllocate (slots * 8 + 16)) ∧ T' = T
      else ∃ r0, r = outcome Some r0 ∧ created T name p (slots * 8 + 16)
        (λ kd, ∃ vals, kd = KArray (type_of n) f vals ∧ zlen vals = slots) r0 T'
  | OProperty name value f p => ∃ r0, r = outcome Some r0 ∧ property_created T L name value f p r0 T' L'
  | OSet n i v => r = Ok None ∧ L' = L ∧
      ∃ v0 x, is_metric T n i v0 x ∧ T' = <[i := with_kind (mk_of n v) x]> T
  | OAdd n i v => r = Ok None ∧ L' = L ∧ ∃ v0 v' x, is_metric T n i v0 x ∧
      value_add (Metric := metric_of n) v0 v = Ok v' ∧ T' = <[i := with_kind (mk_of n v') x]> T
  | OSubtract n i v => r = Ok None ∧ L' = L ∧ ∃ v0 v' x, is_metric T n i v0 x ∧
      value_sub (Metric := metric_of n) v0 v = Ok v' ∧ T' = <[i := with_kind (mk_of n v') x]> T
  | OGet n i => L' = L ∧ T' = T ∧ ∃ v x, is_metric T n i v x ∧ r = Ok (Some v)
  | OSetSlot n i slot v => L' = L ∧ ∃ f vals x, is_array T n i f vals x ∧
      (r, T') = if room x <? slot then (Err (IndexOutOfBounds slot), T)
                else (Ok None, <[i := with_slot (type_of n) f vals slot (bits_of n v) x]> T)
  | OAddSlot n i slot v => r = Ok None ∧ L' = L ∧ ∃ f vals x v0 v', is_array T n i f vals x ∧
      vals !! Z.to_nat slot = Some (bits_of n v0) ∧ value_add (Metric := metric_of n) v0 v = Ok v' ∧
      T' = <[i := with_slot (type_of n) f vals slot (bits_of n v') x]> T
  | OSubtractSlot n i slot v => r = Ok None ∧ L' = L ∧ ∃ f vals x v0 v', is_array T n i f vals x ∧
      vals !! Z.to_nat slot = Some (bits_of n v0) ∧ value_sub (Metric := metric_of n) v0 v = Ok v' ∧
      T' = <[i := with_slot (type_of n) f vals slot (bits_of n v') x]> T
  | OSetProperty i value => ∃ f old x r0, is_property T i f old x ∧ r = outcome (λ _, None) r0 ∧
      property_set T L i x f value r0 T' L'
  | OFreeProperty i => r = Ok None ∧ L' = L ∧ ∃ f value x, is_property T i f value x ∧ T' = deleted T i x
  | OFree i => r = Ok None ∧ ∃ x, T !! i = Some x ∧ T' = deleted T i x ∧
      L' = L ∪ list_to_set (o_extents x)
  end.
End ops.

Section step.
Context {B : Bitfield} {BS : BitfieldSpec B} {og : Origin}.
Implicit Types (s : State) (A : blocks) (T : tree) (L : gset Z) (g : Z).

#[local] Instance metric_of_spec n : MetricSpec (metric_of n) (mk_of n) (ok_of n) (bits_of n).
Proof. destruct n; apply _. Qed.
#[local] Instance slot_of_spec n : SlotSpec (metric_of n) (type_of n) (ok_of n) (bits_of n).
Proof. destruct n; apply _. Qed.

Lemma run_outcome {C} (m : M Error State C) (f : C → option Z) s r s' :
  m s = (r, s') → (a <- m ;; ret (f a)) s = (outcome f r, s').
Proof. intros Hm. unfold bind. rewrite Hm. by destruct r. Qed.

Lemma create_metric_spec n s A T L g name v p :
  state_rep s A T L g → Z.even g = true → bytes_ok name → parent_known T p → lost_ok T → ok_of n v →
  ∃ r s' A' T', create_metric (T := metric_of n) name v p s = (r, s') ∧
    state_rep s' A' T' L (next2 g) ∧ created T name p 16 (eq (mk_of n v)) r T'.
Proof.
  intros HS Hev Hname Hp Hlo Hv. destruct n; simpl in *;
    [eapply create_int_spec|eapply create_uint_spec|eapply create_double_spec]; done.
Qed.

Lemma next2_even g : Z.even g = true → Z.even (next2 g) = true.
Proof.
  intros Hg. unfold next2. rewrite Z.mod_eq by lia. rewrite Z.even_sub, Z.even_mul, Z.even_add, Hg. done.
Qed.

Definition stepped s T L (op : state_op) : Prop :=
  ∃ r s' A' g' T' L', exec op s = (r, s') ∧ state_rep s' A' T' L' g' ∧ Z.even g' = true ∧
    post T L op r T' L'.

Section cases.
Context s A T L g (HS : state_rep s A T L g) (Hev : Z.even g = true) (Hlo : lost_ok T).

Lemma stepped_intro {C} (m : M Error State C) (f : C → option Z) op r s' A' T' L' :
  exec op = (a <- m ;; ret (f a)) → m s = (r, s') → state_rep s' A' T' L' (next2 g) →
  post T L op (outcome f r) T' L' → stepped s T L op.
Proof.
  intros Hop Hm HS' Hpost. exists (outcome f r), s', A', (next2 g), T', L'. rewrite Hop.
  split; [by apply run_outcome|]. split; [done|]. split; [by apply next2_even|done].
Qed.

Lemma step_create op :
  match op with ONode _ _ | OMetric _ _ _ _ | OArray _ _ _ _ _ | OProperty _ _ _ _ => True | _ => False end →
  pre T op → stepped s T L op.
Proof.
  destruct op; try done; intros _ Hpre; cbn [pre] in Hpre; destruct Hpre as (Hname&Hp).
  - destruct (create_node_spec s A T L g name parent HS Hev Hname Hp Hlo) as (r&s'&A'&T'&E&HS'&HQ).
    eapply stepped_intro; [done..|]. split; [done|]. by exists r.
  - destruct Hp as [Hp Hv].
    destruct (create_metric_spec n s A T L g name v parent HS Hev Hname Hp Hlo Hv)
      as (r&s'&A'&T'&E&HS'&HQ).
    eapply stepped_intro; [done..|]. split; [done|]. by exists r.
  - destruct Hp as [Hp Hs].
    pose proof (create_array_rule s A T L g name parent HS Hev Hname Hp Hlo (metric_of n) (type_of n)
      slots f ss_entry ltac:(by destruct n) Hs) as Hc.
    destruct (254 <? slots) eqn:Hbig.
    + exists (Err (CannotAllocate (slots * 8 + 16))), s, A, g, T, L.
      split; [by apply (run_outcome _ _ _ (Err (CannotAllocate (slots * 8 + 16))))|].
      split; [done|]. split; [done|]. split; [done|]. by rewrite Hbig.
    + destruct Hc as (r&s'&A'&T'&E&HS'&HQ).
      eapply stepped_intro; [done..|]. split; [done|]. rewrite Hbig. by exists r.
  - destruct Hp as (Hp&Hv&Hlen).
    destruct (create_property_spec s A T L g name value f parent HS Hev Hname Hp Hlo Hv Hlen)
      as (r&s'&A'&T'&L'&E&HS'&HQ).
    eapply stepped_intro; [done..|]. by exists r.
Qed.

Lemma step_metric op :
  match op with OSet _ _ _ | OAdd _ _ _ | OSubtract _ _ _ | OGet _ _ => True | _ => False end →
  pre T op → stepped s T L op.
Proof.
  destruct op; try done; intros _ Hpre; cbn [pre] in Hpre.
  - destruct Hpre as (Hv&v0&x&Hi&Hk).
    destruct (set_metric_spec (metric_of n) (mk_of n) _ _ s A T L g i x v v0 HS Hev Hi Hk Hv)
      as (s'&A'&E&HS').
    eapply stepped_intro; [done..|]. split; [done|]. split; [done|]. by exists v0, x.
  - destruct Hpre as (v0&v'&x&[Hi Hk]&Hop&Hv).
    destruct (update_metric_spec (metric_of n) (mk_of n) _ _ _ s A T L g i x v v0 v' HS Hev Hi Hk Hop Hv)
      as (s'&A'&E&HS').
    eapply stepped_intro; [done..|]. split; [done|]. split; [done|]. by exists v0, v', x.
  - destruct Hpre as (v0&v'&x&[Hi Hk]&Hop&Hv).
    destruct (update_metric_spec (metric_of n) (mk_of n) _ _ _ s A T L g i x v v0 v' HS Hev Hi Hk Hop Hv)
      as (s'&A'&E&HS').
    eapply stepped_intro; [done..|]. split; [done|]. split; [done|]. by exists v0, v', x.
  - destruct Hpre as (v&x&Hi&Hk).
    destruct (get_metric_spec (metric_of n) (mk_of n) _ _ s A T L g i x v HS Hev Hi Hk) as (s'&A'&E&HS').
    eapply stepped_intro; [done..|]. split; [done|]. split; [done|]. by exists v, x.
Qed.

Lemma step_slot op :
  match op with OSetSlot _ _ _ _ | OAddSlot _ _ _ _ | OSubtractSlot _ _ _ _ => True | _ => False end →
  pre T op → stepped s T L op.
Proof.
  destruct op; try done; intros _ Hpre; cbn [pre] in Hpre.
  - destruct Hpre as (Hv&Hs&f&vals&x&[Hi Hk]&Hne).
    destruct (set_array_slot_spec (metric_of n) _ _ _ s A T L g i x f vals HS Hev Hi Hk slot v Hv Hs Hne)
      as (s'&A'&E&HS').
    eapply stepped_intro; [done..|]. split; [done|]. exists f, vals, x. split; [done|].
    by destruct (room x <? slot).
  - destruct Hpre as (Hs&f&vals&x&v0&v'&[Hi Hk]&Hv0&Hl&Hop&Hv).
    destruct (update_slot_spec (metric_of n) _ _ _ s A T L g i x f vals HS Hev Hi Hk _ slot v0 v v' Hs Hl
      Hv0 Hop Hv) as (s'&A'&E&HS').
    eapply stepped_intro; [done..|]. split; [done|]. split; [done|]. by exists f, vals, x, v0, v'.
  - destruct Hpre as (Hs&f&vals&x&v0&v'&[Hi Hk]&Hv0&Hl&Hop&Hv).
    destruct (update_slot_spec (metric_of n) _ _ _ s A T L g i x f vals HS Hev Hi Hk _ slot v0 v v' Hs Hl
      Hv0 Hop Hv) as (s'&A'&E&HS').
    eapply stepped_intro; [done..|]. split; [done|]. split; [done|]. by exists f, vals, x, v0, v'.
Qed.

Lemma step_free op :
  match op with OSetProperty _ _ | OFreeProperty _ | OFree _ => True | _ => False end →
  pre T op → stepped s T L op.
Proof.
  destruct op; try done; intros _ Hpre; cbn [pre] in Hpre.
  - destruct Hpre as (Hv&Hlen&f&old&x&Hi&Hk).
    destruct (set_property_spec s A T L g i x f old value HS Hev Hi Hk Hv Hlen)
      as (r&s'&A'&T'&L'&E&HS'&HQ).
    eapply stepped_intro; [done..|]. by exists f, old, x, r.
  - destruct Hpre as (f&value&x&Hi&Hk).
    destruct (free_property_spec s A T L g i x f value HS Hev Hi Hk Hlo) as (s'&A'&E&HS').
    eapply stepped_intro; [done..|]. split; [done|]. split; [done|]. by exists f, value, x.
  - destruct Hpre as (x&Hi&Hg).
    destruct (free_value_spec s A T L g i x HS Hev Hi Hg Hlo) as (s'&A'&E&HS').
    eapply stepped_intro; [done..|]. split; [done|]. by exists x.
Qed.
End cases.

Lemma step_spec s A T L g op :
  state_rep s A T L g → Z.even g = true → lost_ok T → pre T op → stepped s T L op.
Proof.
  intros HS Hev Hlo Hpre. destruct op; first [by eapply step_create|by eapply step_metric
    |by eapply step_slot|by eapply step_free].
Qed.

Lemma outcome_panics {C} (m : M Error State C) (f : C → option Z) s :
  fst (m s) = Panic → fst ((a <- m ;; ret (f a)) s) = Panic.
Proof. unfold bind. by destruct (m s) as [[]]. Qed.
Lemma step_overflows s A T L g op :
  state_rep s A T L g → Z.even g = true → overflows T op → fst (exec op s) = Panic.
Proof.
  intros HS Hev. destruct op; try done; cbn [overflows exec].
  - intros (v0&x&[Hi Hk]&Hf). apply outcome_panics.
    exact (update_metric_panics (metric_of n) (mk_of n) _ _ value_add s A T L g i x v v0 HS Hev Hi Hk Hf).
  - intros (v0&x&[Hi Hk]&Hf). apply outcome_panics.
    exact (update_metric_panics (metric_of n) (mk_of n) _ _ value_sub s A T L g i x v v0 HS Hev Hi Hk Hf).
  - intros (Hs&f&vals&x&v0&[Hi Hk]&Hv0&Hl&Hf). apply outcome_panics.
    exact (update_slot_panics (metric_of n) _ _ _ s A T L g i x f vals HS Hev Hi Hk value_add slot v0 v Hs Hl Hv0 Hf).
  - intros (Hs&f&vals&x&v0&[Hi Hk]&Hv0&Hl&Hf). apply outcome_panics.
    exact (update_slot_panics (metric_of n) _ _ _ s A T L g i x f vals HS Hev Hi Hk value_sub slot v0 v Hs Hl Hv0 Hf).
Qed.
End step.

(** * Clients

    A client chooses its next operation from the outcomes so far. *)
Section client.
Context {B : Bitfield} {BS : BitfieldSpec B} {og : Origin}.
Implicit Types (s : State) (T : tree) (L : gset Z) (hist : list (result Error (option Z))).

Definition client : Type := list (result Error (option Z)) → option state_op.

(** [None] when an operation panics or runs out of fuel. *)
Fixpoint run_client (n : nat) (cl : client) hist s : option (list (result Error (option Z)) * State) :=
  match n with
  | O => Some (hist, s)
  | S n =>
      match cl hist with
      | None => Some (hist, s)
      | Some op =>
          match exec op s with
          | (Ok a, s') => run_client n cl (hist ++ [Ok a]) s'
          | (Err e, s') => run_client n cl (hist ++ [Err e]) s'
          | _ => None
          end
      end
  end.

(** The specification's runs of a client: only forests. *)
Inductive spec_run (cl : client) : list (result Error (option Z)) → tree → gset Z → Prop :=
  | spec_new : spec_run cl [] ∅ ∅
  | spec_step hist T L op r T' L' :
      spec_run cl hist T L → cl hist = Some op → pre T op → post T L op r T' L' →
      spec_run cl (hist ++ [r]) T' L'.

(** A client keeps to the preconditions. *)
Definition disciplined (cl : client) : Prop :=
  ∀ hist T L op, spec_run cl hist T L → cl hist = Some op → pre T op.

Definition lost_le (n : Z) T : Prop := ∀ i o, T !! i = Some o → 0 ≤ o_lost o ≤ n.

Lemma lost_le_mono n n' T : n ≤ n' → lost_le n T → lost_le n' T.
Proof. intros Hn HT i o Hi. specialize (HT i o Hi). lia. Qed.
Lemma lost_le_insert n T i o : lost_le n T → 0 ≤ o_lost o ≤ n → lost_le n (<[i := o]> T).
Proof. intros HT Ho j x [[_ <-]|[_ Hj]]%lookup_insert_Some; [done|by eapply HT]. Qed.
Lemma lost_le_update n T i o o' :
  lost_le n T → T !! i = Some o → o_lost o' = o_lost o → lost_le n (<[i := o']> T).
Proof. intros HT Hi Ho. apply lost_le_insert; [done|]. rewrite Ho. by eapply HT. Qed.
Lemma lost_le_delete n T i : lost_le n T → lost_le n (delete i T).
Proof. intros HT j x [_ Hj]%lookup_delete_Some. by eapply HT. Qed.
Lemma lost_le_deleted n T i o : lost_le n T → T !! i = Some o → lost_le n (deleted T i o).
Proof.
  intros HT Hi. assert (lost_le n (uncounted (o_parent o) T)) as Hu.
  { unfold uncounted. destruct (T !! o_parent o); [|done]. case_decide; [by apply lost_le_delete|done]. }
  unfold deleted. case_match; [|by apply lost_le_delete].
  apply lost_le_insert; [done|]. by eapply (HT i o).
Qed.
Lemma lost_le_adj n T p : lost_le n T → lost_le (n + 1) (adj p 1 T).
Proof.
  intros HT i o Hi. rewrite adj_lookup in Hi. apply fmap_Some in Hi as (x & Hx & ->).
  specialize (HT i x Hx). case_decide; simpl; lia.
Qed.
Lemma lost_le_created n T name p size P r T' :
  0 ≤ n → lost_le n T → created T name p size P r T' → lost_le n T'.
Proof.
  intros Hn HT. destruct r as [b|e| |]; simpl; try done.
  - intros (_&_&kd&k&nb&_&->&_). by apply lost_le_insert.
  - by intros [-> _].
Qed.

Lemma post_lost n T L op r T' L' :
  0 ≤ n → lost_le n T → post T L op r T' L' → lost_le (n + 1) T'.
Proof.
  intros Hn HT. assert (lost_le (n + 1) T) as HT1 by (eapply lost_le_mono; [|done]; lia).
  destruct op; cbn [post].
  - intros (_&r0&_&Hc). eapply lost_le_created; [|done..]. lia.
  - intros (_&r0&_&Hc). eapply lost_le_created; [|done..]. lia.
  - intros (_&Hc). destruct (254 <? slots); [by destruct Hc as [_ ->]|]. destruct Hc as (r0&_&Hc).
    eapply lost_le_created; [|done..]. lia.
  - intros (r0&_&Hc). destruct r0 as [b|e| |]; try done; simpl in Hc.
    + destruct Hc as (_&_&_&nb&l&->). apply lost_le_insert; [done|]. simpl. lia.
    + destruct Hc as [[[-> _] _]|(_&_&->&_)]; [done|by apply lost_le_adj].
  - intros (_&_&v0&x&[Hi _]&->). by eapply lost_le_update.
  - intros (_&_&v0&v'&x&[Hi _]&_&->). by eapply lost_le_update.
  - intros (_&_&v0&v'&x&[Hi _]&_&->). by eapply lost_le_update.
  - by intros (_&->&_).
  - intros (_&f&vals&x&[Hi _]&Heq). destruct (room x <? slot); simplify_eq; [done|].
    by eapply lost_le_update.
  - intros (_&_&f&vals&x&v0&v'&[Hi _]&_&_&->). by eapply lost_le_update.
  - intros (_&_&f&vals&x&v0&v'&[Hi _]&_&_&->). by eapply lost_le_update.
  - intros (f&old&x&r0&[Hi _]&_&Hq). destruct r0 as [u|e| |]; simpl in Hq; try done.
    + destruct Hq as [_ [l ->]]. by eapply lost_le_update.
    + destruct Hq as (_&->&_). by eapply lost_le_update.
  - intros (_&_&f&value&x&[Hi _]&->). by apply lost_le_deleted.
  - intros (_&x&Hi&->&_). by apply lost_le_deleted.
Qed.

Lemma post_finished T L op r T' L' : post T L op r T' L' → finished r.
Proof.
  destruct op; cbn [post]; try (intros (->&_); done); try (intros (_&->&_); done).
  - intros (_&r0&->&Hc). by destruct r0.
  - intros (_&r0&->&Hc). by destruct r0.
  - intros (_&Hc). destruct (254 <? slots); [by destruct Hc as [-> _]|].
    destruct Hc as (r0&->&Hc). by destruct r0.
  - intros (r0&->&Hc). by destruct r0.
  - by intros (_&_&v&x&_&->).
  - intros (_&f&vals&x&_&Heq). by destruct (room x <? slot); simplify_eq.
  - intros (f&old&x&r0&_&->&Hq). by destruct r0.
Qed.

Lemma run_client_inv cl n s A T L g k hist :
  disciplined cl → spec_run cl hist T L → state_rep s A T L g → Z.even g = true →
  0 ≤ k → lost_le k T → k + Z.of_nat n ≤ 2 ^ 31 →
  ∃ hist' s' A' T' L' g', run_client n cl hist s = Some (hist', s') ∧
    spec_run cl hist' T' L' ∧ state_rep s' A' T' L' g' ∧ Z.even g' = true.
Proof.
  intros Hd. revert s A T L g k hist.
  induction n as [|n IH]; intros s A T L g k hist Hr HS Hev Hk Hlo Hn; simpl; [by eauto 10|].
  destruct (cl hist) as [op|] eqn:Hop; [|by eauto 10].
  assert (lost_ok T) as Hlo' by (intros i o Hi; specialize (Hlo i o Hi); lia).
  pose proof (Hd _ _ _ _ Hr Hop) as Hpre.
  destruct (step_spec s A T L g op HS Hev Hlo' Hpre) as (r&s'&A'&g'&T'&L'&E&HS'&Hev'&Hpost).
  rewrite E. pose proof (post_finished _ _ _ _ _ _ Hpost) as Hf.
  pose proof (spec_step cl hist T L op r T' L' Hr Hop Hpre Hpost) as Hr'.
  pose proof (post_lost _ _ _ _ _ _ _ Hk Hlo Hpost) as Hlo1.
  destruct r as [a|e| |]; try done; eapply (IH s' A' T' L' g' (k + 1)); done || lia.
Qed.
End client.

(** * The theorems *)
Section theorems.
Context {B : Bitfield} {BS : BitfieldSpec B} {og : Origin}.
Implicit Types (s : State) (A : blocks) (T : tree) (L : gset Z) (g : Z) (o : obj).

(** [State::create] on a new heap succeeds with the header block at index 0,
    unlocked, its magic number and version in place, and no values. *)
Theorem state_create_correct m h :
  map_ok m → (4096 | mapping_len m) → 4096 ≤ mapping_len m ≤ 2 ^ 32 → new_heap m = (Ok tt, h) →
  ∃ s A, create h = (Ok s, heap s) ∧ state_rep (og := m) s A ∅ ∅ 0.
Proof. apply create_spec. Qed.

(** C5: An operation of [State] whose precondition [pre] holds ends, without a panic, in a
    state that represents the forest its specification [post] prescribes, with the
    header unlocked.  The precondition asks for a parent that is known, a live value of the
    kind the operation is for (a property whose last [set_property] failed is not one), and a
    slot of the array: a slot to set is not the one at the capacity, which the code takes for
    a slot of the array.  Then created values appear under their parents, metrics, arrays
    and properties hold what was written, freed values disappear, nodes with
    children stay as tombstones until the last child is gone, and every other
    value keeps its name, its parent and its contents.  The failures are an exhausted heap, a
    parent that is not a node, an array of more than 254 slots, and a slot beyond the
    capacity; they leave the forest as it is, but for properties: one that cannot be created
    still counts as a child, and one that cannot be set is stale.  Additions and
    subtractions that overflow panic. *)
Theorem state_op_correct s A T L g op :
  state_rep s A T L g → Z.even g = true → lost_ok T →
  (pre T op →
    ∃ r s' A' g' T' L', exec op s = (r, s') ∧ state_rep s' A' T' L' g' ∧ Z.even g' = true ∧
      post T L op r T' L') ∧
  (overflows T op → fst (exec op s) = Panic).
Proof. intros HS Hev Hlo. split; [by eapply step_spec|by eapply step_overflows]. Qed.

(** A run of a client and the memory it leaves. *)
Lemma client_run_rep m cl n :
  map_ok m → (4096 | mapping_len m) → 4096 ≤ mapping_len m ≤ 2 ^ 32 →
  disciplined cl → Z.of_nat n ≤ 2 ^ 31 →
  ∃ s0 h0, create (snd (new_heap m)) = (Ok s0, h0) ∧
  ∃ hist s A T L g, run_client n cl [] s0 = Some (hist, s) ∧ spec_run cl hist T L ∧
    state_rep (og := m) s A T L g ∧ Z.even g = true.
Proof.
  intros Hm Hd Hl Hcl Hn. destruct (new_heap_inv m Hm Hd Hl) as (h & E & _).
  destruct (create_spec m h Hm Hd Hl E) as (s0 & A & E0 & HS). rewrite E.
  exists s0, (heap s0). split; [done|].
  destruct (run_client_inv (og := m) cl n s0 A ∅ ∅ 0 0 [] Hcl) as (hist&s&A'&T&L&g&?&?&?&?); try done.
  - constructor.
  - by exists hist, s, A', T, L, g.
Qed.

(** C6: A client that keeps to the preconditions, for as many operations as the
    child counts have room for, runs on a new state without a panic, and its
    outcomes and the final memory are those of a run of the specification; the slots the
    heap has not grown to are as they were. *)
Theorem state_client_refines m cl n :
  map_ok m → (4096 | mapping_len m) → 4096 ≤ mapping_len m ≤ 2 ^ 32 →
  disciplined cl → Z.of_nat n ≤ 2 ^ 31 →
  ∃ s0 h0, create (snd (new_heap m)) = (Ok s0, h0) ∧
  ∃ hist s A T L g, run_client n cl [] s0 = Some (hist, s) ∧ spec_run cl hist T L ∧
    state_rep (og := m) s A T L g ∧ Z.even g = true.
Proof. apply client_run_rep. Qed.

(** [free_value] of a live value removes it, frees its block and its name, and
    counts it out of its parent; a node with children becomes a tombstone, and
    a tombstone that loses its last child is freed too.  The extents of a
    property are not freed by it. *)
Theorem free_value_correct s A T L g i o :
  state_rep s A T L g → Z.even g = true → T !! i = Some o → is_gone (o_kind o) = false → lost_ok T →
  ∃ s' A', free_value i s = (Ok tt, s') ∧
    state_rep s' A' (deleted T i o) (L ∪ list_to_set (o_extents o)) (next2 g).
Proof. apply free_value_spec. Qed.

(** [create_property] stores any value under 4 GiB in a chain of extents; when
    the heap is exhausted in the middle, the new blocks are freed again, but the
    parent's child count keeps counting the property that was not created. *)
Theorem create_property_correct s A T L g name value f p :
  state_rep s A T L g → Z.even g = true → bytes_ok name → parent_known T p → lost_ok T →
  bytes_ok value → zlen value < 2 ^ 32 →
  ∃ r s' A' T' L', create_property name value f p s = (r, s') ∧ state_rep s' A' T' L' (next2 g) ∧
    property_created T L name value f p r T' L'.
Proof. apply create_property_spec. Qed.

(** [set_property] replaces the value; on exhaustion the property is left
    without its extents, although its payload still names the freed chain. *)
Theorem set_property_correct s A T L g i o f old value :
  state_rep s A T L g → Z.even g = true → T !! i = Some o → o_kind o = KProperty f old →
  bytes_ok value → zlen value < 2 ^ 32 →
  ∃ r s' A' T' L', set_property i value s = (r, s') ∧ state_rep s' A' T' L' (next2 g) ∧
    property_set T L i o f value r T' L'.
Proof. apply set_property_spec. Qed.

(** [free_property] removes a property and all of its extents. *)
Theorem free_property_correct s A T L g i o f value :
  state_rep s A T L g → Z.even g = true → T !! i = Some o → o_kind o = KProperty f value → lost_ok T →
  ∃ s' A', free_property i s = (Ok tt, s') ∧ state_rep s' A' (deleted T i o) L (next2 g).
Proof. apply free_property_spec. Qed.

(** [set_array_slot] writes the slot and nothing else; a slot the block has no
    room for is refused, but for the first of them. *)
Theorem set_array_slot_correct (M0 : Metric) t (ok : Z → Prop) (bits : Z → Z) s A T L g i o f vals slot v :
  SlotSpec M0 t ok bits → state_rep s A T L g → Z.even g = true →
  T !! i = Some o → o_kind o = KArray t f vals → ok v → 0 ≤ slot → slot ≠ room o →
  ∃ s' A', set_array_slot i slot v s
      = (if room o <? slot then Err (IndexOutOfBounds slot) else Ok tt, s') ∧
    state_rep s' A' (if room o <? slot then T else <[i := with_slot t f vals slot (bits v) o]> T)
      L (next2 g).
Proof. intros HSS. intros. by eapply set_array_slot_spec. Qed.
End theorems.

(** * A state on one page, for the witnesses *)
#[export] Instance page_origin : Origin := page.
Definition page_s : State :=
  match create page_heap with
  | (Ok s, _) => s
  | _ => {| heap := page_heap; header := 0 |}
  end.

Lemma page_new : new_heap page = (Ok tt, page_heap).
Proof. destruct page_ok as (H1&H2&H3). destruct (new_heap_inv page H1 H2 H3) as (h&E&_). unfold page_heap. by rewrite E. Qed.

Lemma page_s_rep : ∃ A, state_rep page_s A ∅ ∅ 0.
Proof.
  destruct page_ok as (H1&H2&H3).
  destruct (create_spec page page_heap H1 H2 H3 page_new) as (s&A&E&HS).
  exists A. unfold page_s. by rewrite E.
Qed.

Lemma lost_ok_empty : lost_ok ∅.
Proof. intros i o Hi. by rewrite lookup_empty in Hi. Qed.
Lemma lost_ok_one b kd k name n p : lost_ok (<[b := new_obj kd k name n p]> ∅).
Proof. intros i o [[_ <-]|[_ Hi]]%lookup_insert_Some; [done|by rewrite lookup_empty in Hi]. Qed.

(** One node, one property, one array of a slot. *)
Lemma page_node : ∃ A k n, state_rep (snd (create_node [97] 0 page_s)) A
  (<[1 := new_obj KNode k [97] n 0]> ∅) ∅ 2.
Proof.
  destruct page_s_rep as (A&HS).
  destruct (create_node_spec page_s A ∅ ∅ 0 [97] 0 HS eq_refl ltac:(by repeat constructor)
    ltac:(by left) lost_ok_empty) as (r&s'&A'&T'&E&HS'&HQ).
  assert (fst (create_node [97] 0 page_s) = Ok 1) as Hr by (vm_compute; reflexivity).
  rewrite E in Hr |- *. cbn [fst snd] in Hr |- *. subst r.
  destruct HQ as (_&_&kd&k&n&<-&->&_). exists A', k, n. exact HS'.
Qed.

Lemma page_property : ∃ A n l, state_rep (snd (create_property [97] [1; 2; 3] PropertyString 0 page_s)) A
  (<[1 := with_extents (KProperty PropertyString [1; 2; 3]) l
            (new_obj (KProperty PropertyString []) 0 [97] n 0)]> ∅) ∅ 2.
Proof.
  destruct page_s_rep as (A&HS).
  destruct (create_property_spec page_s A ∅ ∅ 0 [97] [1; 2; 3] PropertyString 0 HS eq_refl
    ltac:(by repeat constructor) ltac:(by left) lost_ok_empty ltac:(by repeat constructor) eq_refl)
    as (r&s'&A'&T'&L'&E&HS'&HQ).
  assert (fst (create_property [97] [1; 2; 3] PropertyString 0 page_s) = Ok 1) as Hr
    by (vm_compute; reflexivity).
  rewrite E in Hr |- *. cbn [fst snd] in Hr |- *. subst r.
  destruct HQ as (->&_&_&n&l&->). exists A', n, l. exact HS'.
Qed.

Lemma page_array : ∃ A k n v, k = 1 ∧
  state_rep (snd (create_array (T := int_metric) [97] 1 ArrayDefault 0 page_s)) A
    (<[2 := new_obj (KArray IntValue ArrayDefault [v]) k [97] n 0]> ∅) ∅ 2.
Proof.
  destruct page_s_rep as (A&HS).
  pose proof (create_array_rule page_s A ∅ ∅ 0 [97] 0 HS eq_refl ltac:(by repeat constructor)
    ltac:(by left) lost_ok_empty int_metric IntValue 1 ArrayDefault eq_refl eq_refl ltac:(lia)) as Hc.
  cbn [Z.ltb Z.compare] in Hc. destruct Hc as (r&s'&A'&T'&E&HS'&HQ).
  assert (fst (create_array (T := int_metric) [97] 1 ArrayDefault 0 page_s) = Ok 2) as Hr
    by (vm_compute; reflexivity).
  rewrite E in Hr |- *. cbn [fst snd] in Hr |- *. subst r.
  destruct HQ as (_&_&kd&k&n&(vals&->&Hv)&->&Hk&Hmin).
  destruct vals as [|v [|w vals]]; [discriminate Hv| |unfold zlen in Hv; simpl in Hv; lia].
  pose proof (sr_obj_block _ _ _ _ _ HS' 2 _ (lookup_insert_eq _ _ _)) as HA.
  destruct (inv_block _ _ (sr_heap _ _ _ _ _ HS') _ _ _ HA) as (_&Hk0&_). simpl in Hk0.
  exists A', k, n, v. split; [|exact HS'].
  destruct (decide (k = 0)) as [->|]; [lia|]. destruct (decide (k = 1)) as [|]; [done|].
  specialize (Hmin 1). lia.
Qed.

Lemma state_create_correct_witness : ∃ s A, create page_heap = (Ok s, heap s) ∧ state_rep s A ∅ ∅ 0.
Proof. destruct page_ok as (H1&H2&H3). exact (state_create_correct page page_heap H1 H2 H3 page_new). Defined.

Lemma state_op_correct_witness : ∃ r s', exec (ONode [97] 0) page_s = (r, s').
Proof.
  destruct page_s_rep as (A&HS).
  destruct (state_op_correct page_s A ∅ ∅ 0 (ONode [97] 0) HS eq_refl lost_ok_empty) as [Hop _].
  destruct Hop as (r&s'&_&_&_&_&E&_).
  - split; [by repeat constructor|by left].
  - exists r, s'. exact E.
Defined.

(** A client that creates a node and a metric in it. *)
Definition demo_client : client := λ hist,
  match hist with
  | [] => Some (ONode [97] 0)
  | [Ok (Some i)] => Some (OMetric NInt [98] 5 i)
  | _ => None
  end.

Lemma demo_disciplined : disciplined demo_client.
Proof.
  intros hist T L op Hr Hop. destruct hist as [|r0 hist]; simpl in Hop.
  - simplify_eq. split; [by repeat constructor|by left].
  - destruct r0 as [[i|]| | |]; try done. destruct hist; [|done]. simplify_eq.
    split; [by repeat constructor|]. split; [|done]. right.
    inversion Hr as [|hist T0 L0 op r T' L' Hr0 Hop0 Hpre Hpost Heq]. subst.
    assert (hist = []) as ->.
    { apply (f_equal length) in Heq. rewrite length_app in Heq. destruct hist; [done|]. simpl in Heq. lia. }
    simpl in Heq, Hop0. simplify_eq. destruct Hpost as (_&r0&Hr1&Hc). destruct r0; simplify_eq/=.
    destruct Hc as (_&_&kd&k&n&_&->&_). rewrite lookup_insert_eq. eauto.
Qed.

Lemma state_client_refines_witness : ∃ s0 h0, create (snd (new_heap page)) = (Ok s0, h0) ∧
  ∃ hist s, run_client 5 demo_client [] s0 = Some (hist, s).
Proof.
  destruct page_ok as (H1&H2&H3).
  destruct (state_client_refines page demo_client 5 H1 H2 H3 demo_disciplined ltac:(lia))
    as (s0&h0&E&hist&s&_&_&_&_&R&_).
  exists s0, h0. split; [exact E|]. exists hist, s. exact R.
Defined.

Lemma free_value_correct_witness : ∃ s', free_value 1 (snd (create_node [97] 0 page_s)) = (Ok tt, s').
Proof.
  destruct page_node as (A&k&n&HS).
  destruct (free_value_correct _ _ _ _ _ 1 _ HS eq_refl (lookup_insert_eq _ _ _) eq_refl
    (lost_ok_one _ _ _ _ _ _)) as (s'&A'&E&_).
  exists s'. exact E.
Defined.

Lemma create_property_correct_witness :
  ∃ r s', create_property [97] [1; 2; 3] PropertyString 0 page_s = (r, s').
Proof.
  destruct page_s_rep as (A&HS).
  destruct (create_property_correct page_s A ∅ ∅ 0 [97] [1; 2; 3] PropertyString 0 HS eq_refl
    ltac:(by repeat constructor) ltac:(by left) lost_ok_empty ltac:(by repeat constructor) eq_refl)
    as (r&s'&_&_&_&E&_).
  exists r, s'. exact E.
Defined.

Lemma set_property_correct_witness : ∃ r s',
  set_property 1 [9] (snd (create_property [97] [1; 2; 3] PropertyString 0 page_s)) = (r, s').
Proof.
  destruct page_property as (A&n&l&HS).
  destruct (set_property_correct _ _ _ _ _ 1 _ PropertyString [1; 2; 3] [9] HS eq_refl
    (lookup_insert_eq _ _ _) eq_refl ltac:(by repeat constructor) eq_refl) as (r&s'&_&_&_&E&_).
  exists r, s'. exact E.
Defined.

Lemma free_property_correct_witness : ∃ s',
  free_property 1 (snd (create_property [97] [1; 2; 3] PropertyString 0 page_s)) = (Ok tt, s').
Proof.
  destruct page_property as (A&n&l&HS).
  destruct (free_property_correct _ _ _ _ _ 1 _ PropertyString [1; 2; 3] HS eq_refl
    (lookup_insert_eq _ _ _) eq_refl) as (s'&_&E&_).
  - intros i o [[_ <-]|[_ Hi]]%lookup_insert_Some; [simpl; lia|by rewrite lookup_empty in Hi].
  - exists s'. exact E.
Defined.

Lemma set_array_slot_correct_witness : ∃ s', set_array_slot (T := int_metric) 2 0 (-7)
    (snd (create_array (T := int_metric) [97] 1 ArrayDefault 0 page_s)) = (Ok tt, s').
Proof.
  destruct page_array as (A&k&n&v&->&HS).
  destruct (set_array_slot_correct int_metric IntValue _ (to_unsigned 64) _ _ _ _ _ 2 _ ArrayDefault [v] 0 (-7)
    int_slot_spec HS eq_refl (lookup_insert_eq _ _ _) eq_refl eq_refl ltac:(lia) ltac:(done)) as (s'&_&E&_).
  exists s'. exact E.
Defined.

(** * What the slot check lets through

    The block of a one-slot array has room for two slots; slot 2 is accepted,
    and the write lands on the header of the next block, here a node's. *)
Example array_slot_overflow :
  run_state (a <- create_array (T := int_metric) [97] 1 ArrayDefault 0 ;;
             b <- create_node [98] 0 ;;
             t <- on_block (rd block_type b) ;;
             set_array_slot (T := int_metric) a 2 0 ;;;
             t' <- on_block (rd block_type b) ;;
             ret (a, b, t, t')) = Some (Ok (2, 4, NodeValue, Free)).
Proof. vm_compute. reflexivity. Qed.

(** * What a failed [set_property] leaves behind

    The old extents are freed first; when the new ones do not fit, the payload
    still names them.  A second property then receives the block, and freeing
    the first property frees the second one's value. *)
Example stale_extent_alias :
  run_state (q <- create_property [98] [] PropertyString 0 ;;
             p <- create_property [97] [1; 2; 3] PropertyString 0 ;;
             r <- try (set_property p (replicate 5000 7)) ;;
             set_property q [4; 5; 6] ;;;
             e <- on_block (rd property_extent_index p) ;;
             e' <- on_block (rd property_extent_index q) ;;
             free_property p ;;;
             t <- on_block (rd block_type e') ;;
             ret (r, e, e', t)) = Some (Ok (inr HeapAtMaximumSize, 5, 5, Free)).
Proof. vm_compute. reflexivity. Qed.

(** A [create_property] that fails leaves the parent's child count too high, so
    the freed parent stays as a tombstone for ever. *)
Example child_count_leak :
  run_state (n <- create_node [97] 0 ;;
             r <- try (create_property [98] (replicate 5000 7) PropertyString n) ;;
             c <- on_block (rd child_count n) ;;
             free_value n ;;;
             t <- on_block (rd block_type n) ;;
             ret (r, c, t)) = Some (Ok (inr HeapAtMaximumSize, 1, Tombstone)).
Proof. vm_compute. reflexivity. Qed.

(** [create_array] does not clear its slots: the array shows the bytes of the
    property that was freed before. *)
Example array_stale_slots :
  run_state (p <- create_property [97] (replicate 40 7) PropertyBytes 0 ;;
             free_property p ;;;
             a <- create_array (T := uint_metric) [98] 4 ArrayDefault 0 ;;
             on_block (rd (λ c i, array_get_uint_slot c i 1) a)) = Some (Ok 0x0707070707070707).
Proof. vm_compute. reflexivity. Qed.
