(* ===== verification/InspectReader.v ===== *)
(** The reader of an Inspect VMO: [reader/snapshot.rs] and [reader/mod.rs]. *)

From stdpp Require Import sorting.
From S2P Require Import Prelude SharedBuffer Float64 InspectFormat InspectBlock.

(** * Snapshots *)
Record Snapshot := { buffer : list Z }.
Definition container (s : Snapshot) : Slice := {| slice_bytes := buffer s |}.

Record BlockIterator := { offset : Z; it_container : Slice }.

Section snapshot.
Context {B : Bitfield}.

Definition next (it : BlockIterator) : result Error (option (Z * BlockIterator)) :=
  let len := zlen (slice_bytes (it_container it)) in
  if len <=? offset it then Ok None
  else
    index <-? index_for_offset (offset it) ;;
    k <-? order (it_container it) index ;;
    if len - offset it <? order_to_size k then Ok None
    else Ok (Some (index, {| offset := offset it + order_to_size k; it_container := it_container it |})).

(** [for block in iterator] and [iterator.find(p)]; a block takes 16 bytes or
    more, so the iterator ends before the fuel. *)
Fixpoint for_blocks {S : Type} (fuel : nat) (body : Z → M Error S unit) (it : BlockIterator)
    : M Error S unit :=
  match fuel with
  | O => λ s, (OutOfFuel, s)
  | Datatypes.S fuel =>
      n <- lift (next it) ;;
      match n with
      | None => ret tt
      | Some (block, it') => body block ;;; for_blocks fuel body it'
      end
  end.

Fixpoint find_block (fuel : nat) (p : Z → result Error bool) (it : BlockIterator)
    : result Error (option Z) :=
  match fuel with
  | O => OutOfFuel
  | S fuel =>
      n <-? next it ;;
      match n with
      | None => Ok None
      | Some (block, it') =>
          found <-? p block ;;
          if found : bool then Ok (Some block) else find_block fuel p it'
      end
  end.

Definition from_bytes (bytes : list Z) : BlockIterator :=
  {| offset := 0; it_container := {| slice_bytes := bytes |} |}.
Definition iter_fuel (bytes : list Z) : nat := S (length bytes).

Definition scan {S : Type} (self : Snapshot) (body : Z → M Error S unit) : M Error S unit :=
  for_blocks (iter_fuel (buffer self)) body (from_bytes (buffer self)).

Definition snapshot_get_block (self : Snapshot) (index : Z) : option Z :=
  if offset_for_index index <? zlen (buffer self) then Some index else None.

(** The closures of [header_generation_count] and [try_from_with_callback]; [&&]
    does not evaluate its right side after a false one. *)
Definition and_then (a : result Error bool) (b : result Error bool) : result Error bool :=
  x <-? a ;; if x : bool then b else Ok false.

Definition is_header (c : Slice) (block : Z) : result Error bool :=
  and_then (t <-? block_type c block ;; Ok (bool_decide (t = Header)))
    (and_then (magic <-? runwrap (header_magic c block) ;; Ok (magic =? HEADER_MAGIC_NUMBER))
       (version <-? runwrap (header_version c block) ;; Ok (version =? HEADER_VERSION_NUMBER))).

Definition unlocked_header (c : Slice) (block : Z) : result Error bool :=
  and_then (is_header c block)
    (locked <-? runwrap (header_is_locked c block) ;; Ok (negb locked)).

Definition header_of_generation (gen : Z) (c : Slice) (block : Z) : result Error bool :=
  and_then (is_header c block)
    (g <-? runwrap (InspectBlock.header_generation_count c block) ;; Ok (g =? gen)).

Definition bytes_generation_count (bytes : list Z) : result Error (option Z) :=
  if zlen bytes <? 16 then Ok None
  else
    let c := {| slice_bytes := bytes |} in
    found <-? find_block (iter_fuel bytes) (unlocked_header c) (from_bytes bytes) ;;
    match found with
    | None => Ok None
    | Some block =>
        match InspectBlock.header_generation_count c block with
        | Ok g => Ok (Some g)
        | Err _ => Ok None
        | Panic => Panic
        | OutOfFuel => OutOfFuel
        end
    end.

(** [&bytes[..16]] *)
Definition first16 (bytes : list Z) : result Error (list Z) :=
  if zlen bytes <? 16 then Panic else Ok (take 16 bytes).

(** [Snapshot::try_from] of a byte slice or vector. *)
Definition snapshot_of_bytes (bytes : list Z) : result Error Snapshot :=
  header_bytes <-? first16 bytes ;;
  gen <-? bytes_generation_count header_bytes ;;
  match gen with
  | Some _ => Ok {| buffer := bytes |}
  | None => Err CannotReadSnapshot
  end.
End snapshot.

(** ** From a VMO

    The VMO is shared with a writer: [vmo_read n len] is what the [n]-th system
    call of the reader, a read of [len] bytes at offset 0, returns. *)
Class Vmo := {
  vmo_read : nat → Z → result Error (list Z);
  vmo_get_size : nat → result Error Z
}.

Section vmo.
Context {B : Bitfield} {V : Vmo}.

(** One turn of the loop of [try_from_with_callback], whose callback is for
    tests; [None] is another try. *)
Definition snapshot_try (n : nat) : result Error (option Snapshot) :=
  header_bytes <-? vmo_read n 16 ;;
  generation <-? bytes_generation_count header_bytes ;;
  match generation with
  | None => Ok None
  | Some gen =>
      size <-? vmo_get_size (n + 1) ;;
      buffer <-? vmo_read (n + 2) size ;;
      head <-? first16 buffer ;;
      found <-? find_block (iter_fuel head) (header_of_generation gen {| slice_bytes := head |})
                  (from_bytes head) ;;
      match found with
      | Some _ => Ok (Some {| buffer := buffer |})
      | None => Ok None
      end
  end.

Definition SNAPSHOT_TRIES : nat := 1024.

Fixpoint snapshot_loop (tries n : nat) : result Error Snapshot :=
  match tries with
  | O => Err CannotReadSnapshot
  | S tries =>
      r <-? snapshot_try n ;;
      match r with
      | Some s => Ok s
      | None => snapshot_loop tries (n + 3)
      end
  end.

Definition snapshot_of_vmo : result Error Snapshot := snapshot_loop SNAPSHOT_TRIES 0.
End vmo.

(** * Hierarchies *)
Inductive Property :=
  | PString (name value : list Z)
  | PBytes (name value : list Z)
  | PInt (name : list Z) (value : Z)
  | PUint (name : list Z) (value : Z)
  | PDouble (name : list Z) (value : Z)
  | PDoubleArray (name : list Z) (values : list Z) (format : ArrayFormat)
  | PIntArray (name : list Z) (values : list Z) (format : ArrayFormat)
  | PUintArray (name : list Z) (values : list Z) (format : ArrayFormat).

Definition property_name (p : Property) : list Z :=
  match p with
  | PString name _ | PBytes name _ | PInt name _ | PIntArray name _ _ | PUint name _
  | PUintArray name _ _ | PDouble name _ | PDoubleArray name _ _ => name
  end.

Inductive NodeHierarchy := Hierarchy {
  h_name : list Z;
  h_properties : list Property;
  h_children : list NodeHierarchy
}.

Definition new_hierarchy : NodeHierarchy := Hierarchy [] [] [].

Record ScannedNode := {
  hierarchy : NodeHierarchy;
  child_nodes_count : Z;
  sn_parent_index : Z
}.

Definition new_scanned : ScannedNode :=
  {| hierarchy := new_hierarchy; child_nodes_count := 0; sn_parent_index := 0 |}.

Definition initialize (name : list Z) (parent_index : Z) (n : ScannedNode) : ScannedNode :=
  {| hierarchy := Hierarchy name (h_properties (hierarchy n)) (h_children (hierarchy n));
     child_nodes_count := child_nodes_count n; sn_parent_index := parent_index |}.

Definition is_complete (n : ScannedNode) : bool :=
  zlen (h_children (hierarchy n)) =? child_nodes_count n.

(** The mutations of an entry of [parsed_nodes]. *)
Definition push_property (p : Property) (n : ScannedNode) : ScannedNode :=
  {| hierarchy := Hierarchy (h_name (hierarchy n)) (h_properties (hierarchy n) ++ [p])
       (h_children (hierarchy n));
     child_nodes_count := child_nodes_count n; sn_parent_index := sn_parent_index n |}.
Definition push_child (c : NodeHierarchy) (n : ScannedNode) : ScannedNode :=
  {| hierarchy := Hierarchy (h_name (hierarchy n)) (h_properties (hierarchy n))
       (h_children (hierarchy n) ++ [c]);
     child_nodes_count := child_nodes_count n; sn_parent_index := sn_parent_index n |}.
Definition count_child_node (n : ScannedNode) : ScannedNode :=
  {| hierarchy := hierarchy n; child_nodes_count := child_nodes_count n + 1;
     sn_parent_index := sn_parent_index n |}.

(** A [BTreeMap<u32, ScannedNode>]; iteration is in the order of the keys. *)
Abbreviation nodes := (gmap Z ScannedNode).

Definition key_le (x y : Z * ScannedNode) : Prop := x.1 ≤ y.1.
#[export] Instance key_le_dec x y : Decision (key_le x y).
Proof. unfold key_le. apply _. Defined.

Definition in_order (m : nodes) : list (Z * ScannedNode) := merge_sort key_le (map_to_list m).

(** [get_or_create_scanned_node!], followed by a mutation of the entry. *)
Definition on_node (f : ScannedNode → ScannedNode) (index : Z) : M Error nodes unit := λ m,
  (Ok tt, <[index := f (default new_scanned (m !! index))]> m).

Section scan.
Context {B : Bitfield} (snapshot : Snapshot).

Definition get_name (index : Z) : result Error (option (list Z)) :=
  match snapshot_get_block snapshot index with
  | None => Ok None
  | Some block =>
      match name_contents (container snapshot) block with
      | Ok name => Ok (Some name)
      | Err _ => Ok None
      | Panic => Panic
      | OutOfFuel => OutOfFuel
      end
  end.

Definition block_name (block : Z) : result Error (list Z) :=
  index <-? name_index (container snapshot) block ;;
  name <-? get_name index ;;
  match name with
  | Some name => Ok name
  | None => Err FailedToParseName
  end.

Definition parse_node (block : Z) : M Error nodes unit :=
  name <- lift (block_name block) ;;
  parent <- lift (parent_index (container snapshot) block) ;;
  on_node (initialize name parent) block ;;;
  if negb (parent =? 0) && negb (parent =? block) then on_node count_child_node parent
  else ret tt.

Definition parse_numeric_property (block : Z) : M Error nodes unit :=
  name <- lift (block_name block) ;;
  parent <- lift (parent_index (container snapshot) block) ;;
  on_node id parent ;;;
  t <- lift (block_type (container snapshot) block) ;;
  match t with
  | IntValue =>
      value <- lift (int_value (container snapshot) block) ;;
      on_node (push_property (PInt name value)) parent
  | UintValue =>
      value <- lift (uint_value (container snapshot) block) ;;
      on_node (push_property (PUint name value)) parent
  | DoubleValue =>
      value <- lift (double_value (container snapshot) block) ;;
      on_node (push_property (PDouble name value)) parent
  | _ => ret tt
  end.

(** [value_indexes.map(|i| get(i).unwrap()).collect()] *)
Fixpoint collect_slots (get : Z → result Error Z) (n : nat) (i : Z) : result Error (list Z) :=
  match n with
  | O => Ok []
  | S n =>
      v <-? runwrap (get i) ;;
      vs <-? collect_slots get n (i + 1) ;;
      Ok (v :: vs)
  end.

Definition parse_array_property (block : Z) : M Error nodes unit :=
  let c := container snapshot in
  name <- lift (block_name block) ;;
  parent <- lift (parent_index c block) ;;
  on_node id parent ;;;
  slots <- lift (array_slots c block) ;;
  k <- lift (order c block) ;;
  if array_capacity k <? slots then fail TooManySlots
  else
    let push get mk :=
      values <- lift (collect_slots (get c block) (Z.to_nat slots) 0) ;;
      format <- lift (runwrap (array_format c block)) ;;
      on_node (push_property (mk name values format)) parent in
    t <- lift (array_entry_type c block) ;;
    match t with
    | IntValue => push array_get_int_slot PIntArray
    | UintValue => push array_get_uint_slot PUintArray
    | DoubleValue => push array_get_double_slot PDoubleArray
    | _ => fail UnexpectedArrayEntryType
    end.

(** The [while] loop of [parse_property]; a turn copies a byte or more. *)
Fixpoint extents_loop (fuel : nat) (total_length extent_index offset : Z) (buf : list Z)
    : result Error (list Z) :=
  match fuel with
  | O => OutOfFuel
  | S fuel =>
      if negb (extent_index =? 0) && (offset <? total_length) then
        match snapshot_get_block snapshot extent_index with
        | None => Err FailedToGetExtent
        | Some extent =>
            content <-? extent_contents (container snapshot) extent ;;
            let extent_length := Z.min (total_length - offset) (zlen content) in
            next <-? next_extent (container snapshot) extent ;;
            extents_loop fuel total_length next (offset + extent_length)
              (splice offset (take (Z.to_nat extent_length) content) buf)
        end
      else Ok buf
  end.

Definition parse_property (block : Z) : M Error nodes unit :=
  let c := container snapshot in
  name <- lift (block_name block) ;;
  parent <- lift (parent_index c block) ;;
  on_node id parent ;;;
  total_length <- lift (property_total_length c block) ;;
  extent_index <- lift (property_extent_index c block) ;;
  buf <- lift (extents_loop (S (Z.to_nat total_length)) total_length extent_index 0
                 (zeros total_length)) ;;
  format <- lift (property_format c block) ;;
  match format with
  | PropertyString => on_node (push_property (PString name (from_utf8_lossy buf))) parent
  | PropertyBytes => on_node (push_property (PBytes name buf)) parent
  end.

(** The body of the loop of [scan_blocks]. *)
Definition scan_block (block : Z) : M Error nodes unit :=
  t <- lift (block_type (container snapshot) block) ;;
  if (block =? 0) && negb (bool_decide (t = Header)) then fail ExpectedHeader
  else
    match t with
    | NodeValue => parse_node block
    | IntValue | UintValue | DoubleValue => parse_numeric_property block
    | ArrayValue => parse_array_property block
    | PropertyValue => parse_property block
    | _ => ret tt
    end.

Definition scan_blocks : result Error nodes :=
  let (r, m) := scan snapshot scan_block ∅ in
  r ;?; Ok m.
End scan.

(** ** [ScanResult::reduce] *)

(** The two [get] of the source find the entry [get_mut] found. *)
Fixpoint reduce_loop (fuel : nat) (complete_nodes : list ScannedNode) (pending_nodes : nodes)
    : result Error NodeHierarchy :=
  match fuel with
  | O => OutOfFuel
  | S fuel =>
      match complete_nodes with
      | [] => Err MalformedTree
      | scanned_node :: complete_nodes =>
          let parent := sn_parent_index scanned_node in
          if parent =? 0 then Ok (hierarchy scanned_node)
          else
            match pending_nodes !! parent with
            | None => Err (CannotFindIndex parent)
            | Some parent_node =>
                let parent_node := push_child (hierarchy scanned_node) parent_node in
                if is_complete parent_node
                then reduce_loop fuel (parent_node :: complete_nodes) (delete parent pending_nodes)
                else reduce_loop fuel complete_nodes (<[parent := parent_node]> pending_nodes)
            end
      end
  end.

(** The stack of complete nodes has its top, the last one pushed, first. *)
Definition reduce (parsed_nodes : nodes) : result Error NodeHierarchy :=
  let split := in_order parsed_nodes in
  reduce_loop (S (length split))
    (reverse (filter (λ x, is_complete x.2 = true) split).*2)
    (list_to_map (filter (λ x, is_complete x.2 = false) split)).

Definition read {B : Bitfield} (snapshot : Snapshot) : result Error NodeHierarchy :=
  result <-? scan_blocks snapshot ;; reduce result.
