(* ===== verification/ReaderReads.v ===== *)
(** What the reader's parsers read of a value: a snapshot of the memory of a
    [State] shows the names, parents and values of its forest. *)

From S2P Require Import Prelude SharedBuffer Float64 InspectFormat InspectBlock InspectHeap HeapInvariant HeapCorrect InspectOps InspectState StateInvariant StateSteps StateCorrect StateArray InspectReader.

(** * A snapshot reads like the mapping it is of *)
Section slice.
Context {B : Bitfield} {BS : BitfieldSpec B} {og : Origin}.
Context (m : Mapping) (Hm : map_ok m).

Definition snap : Snapshot := {| buffer := mapping_bytes m |}.
Abbreviation c := (container snap).

Lemma read_bytes_snap off bytes :
  0 ≤ off → off + zlen bytes ≤ zlen (mapping_bytes m) → read_bytes c off bytes = read_bytes m off bytes.
Proof.
  intros Ho Hl. rewrite read_bytes_ok by done. unfold read_bytes, slice_container. cbn [container snap slice_bytes buffer].
  pose proof (zlen_nonneg bytes). destruct (Z.leb_spec (zlen (mapping_bytes m)) off) as [Hle|Hlt].
  - destruct bytes as [|x bytes]; [|unfold zlen in *; simpl length in *; lia]. by unfold slice.
  - rewrite Z.min_r by lia. replace (zlen bytes + off - off) with (zlen bytes) by lia.
    rewrite drop_ge by (unfold zlen; lia). by rewrite app_nil_r.
Qed.
Lemma read_header_snap i : in_slots m i → read_header c i = Ok (hdr m i).
Proof.
  intros Hi. rewrite <- read_header_ok by done. destruct Hi as [??]. unfold read_header, header_offset.
  rewrite offset_for_index_eq, read_bytes_snap; [done|lia|]. rewrite zlen_zeros; lia.
Qed.
Lemma read_payload_snap i : in_slots m i → read_payload c i = Ok (pay m i).
Proof.
  intros Hi. rewrite <- read_payload_ok by done. destruct Hi as [??]. unfold read_payload, payload_offset.
  rewrite offset_for_index_eq. change HEADER_SIZE_BYTES with 8.
  rewrite read_bytes_snap; [done|lia|]. rewrite zlen_zeros; lia.
Qed.

Section block.
Context (i : Z) (Hi : in_slots m i) (t : BlockType) (Ht : btype m i = Some t).

Lemma block_type_snap : block_type c i = Ok t.
Proof. unfold block_type. rewrite read_header_snap by done. cbn [rbind]. unfold btype in Ht. by rewrite Ht. Qed.
Lemma check_type_snap : check_type c i t = Ok tt.
Proof. unfold check_type. rewrite block_type_snap. cbn [rbind]. by rewrite decide_True. Qed.
Lemma order_snap : order c i = Ok (bord m i).
Proof. unfold order. by rewrite read_header_snap. Qed.
Lemma name_index_snap : is_any_value t = true → name_index c i = Ok (hdr_value_name_index (hdr m i)).
Proof.
  intros Hv. unfold name_index, check_any_value. rewrite block_type_snap. cbn [rbind]. rewrite Hv. cbn [rbind].
  by rewrite read_header_snap.
Qed.
Lemma parent_index_snap : is_any_value t = true → parent_index c i = Ok (hdr_value_parent_index (hdr m i)).
Proof.
  intros Hv. unfold parent_index, check_any_value. rewrite block_type_snap. cbn [rbind]. rewrite Hv. cbn [rbind].
  by rewrite read_header_snap.
Qed.
End block.

(** Reads of a field of a block of one type. *)
Lemma typed_payload_snap {A : Type} i t (f : Z → result Error A) :
  in_slots m i → btype m i = Some t →
  (check_type c i t ;?; p <-? read_payload c i ;; f p) = f (pay m i).
Proof. intros Hi Ht. rewrite check_type_snap by done. cbn [rbind]. by rewrite read_payload_snap. Qed.
Lemma typed_header_snap {A : Type} i t (f : Z → result Error A) :
  in_slots m i → btype m i = Some t →
  (check_type c i t ;?; h <-? read_header c i ;; f h) = f (hdr m i).
Proof. intros Hi Ht. rewrite check_type_snap by done. cbn [rbind]. by rewrite read_header_snap. Qed.
Lemma numeric_snap i : in_slots m i → pl_numeric_value (pay m i) = pay m i.
Proof. intros Hi. apply bit_range_all. by apply pay_ok. Qed.
End slice.

(** * Values *)
Section values.
Context {B : Bitfield} {BS : BitfieldSpec B} {og : Origin}.
Context (s : State) (A : blocks) (T : tree) (L : gset Z) (g : Z) (HS : state_rep s A T L g).
Abbreviation m := (mem s).
Abbreviation sn := (snap (mem s)).
Abbreviation c := (container (snap (mem s))).

Lemma snapshot_block_ok i k t : A !! i = Some (k, t) → snapshot_get_block sn i = Some i.
Proof.
  intros Hi. destruct (inv_block _ _ (sr_heap _ _ _ _ _ HS) _ _ _ Hi) as (?&?&[??]&?&_).
  unfold snapshot_get_block, sn. cbn [buffer]. rewrite offset_for_index_eq. by_ltb. done.
Qed.

Section value.
Context (i : Z) (o : obj) (Hi : T !! i = Some o) (Hg : is_gone (o_kind o) = false).

Lemma obj_any_value : is_any_value (kind_type (o_kind o)) = true.
Proof. by destruct (o_kind o). Qed.

Lemma block_parent_snap : parent_index c i = Ok (o_parent o).
Proof.
  destruct (obj_slot _ _ _ _ _ HS i o Hi) as (Hm&Hs&Ht&_).
  rewrite (parent_index_snap m Hm i Hs _ Ht obj_any_value). f_equal.
  apply (or_parent _ _ _ _ (sr_obj _ _ _ _ _ HS i o Hi)).
Qed.
Lemma block_name_snap : utf8_valid (o_name o) = true → block_name sn i = Ok (o_name o).
Proof.
  intros Hu. destruct (obj_slot _ _ _ _ _ HS i o Hi) as (Hm&Hs&Ht&_).
  destruct (or_name _ _ _ _ (sr_obj _ _ _ _ _ HS i o Hi) Hg) as (Hni&k&Hk&Hlen&Hfit&Hsl).
  unfold block_name. rewrite (name_index_snap m Hm i Hs _ Ht obj_any_value), Hni. cbn [rbind].
  unfold get_name. rewrite (snapshot_block_ok _ _ _ Hk). set (n := o_name_block o) in *.
  destruct (inv_block _ _ (sr_heap _ _ _ _ _ HS) _ _ _ Hk) as (?&?&Hns&?&_&Hnt).
  unfold name_contents. rewrite (check_type_snap m Hm n Hns _ Hnt). cbn [rbind]. unfold name_length.
  rewrite (typed_header_snap m Hm n Name) by done. cbn [rbind]. rewrite Hlen.
  pose proof (zlen_nonneg (o_name o)). unfold payload_offset. rewrite offset_for_index_eq.
  change HEADER_SIZE_BYTES with 8.
  rewrite read_bytes_snap, read_bytes_ok by (rewrite ?zlen_zeros by lia; try done; lia).
  cbn [rbind fst]. rewrite zlen_zeros, Hsl by lia. by rewrite Hu.
Qed.
End value.

(** The words of an array. *)
Lemma collect_slots_ok (get : Z → result Error Z) (conv : Z → Z) (vals : list Z) (j : nat) :
  (∀ a v, vals !! a = Some v → get (Z.of_nat (j + a)) = Ok (conv v)) →
  collect_slots get (length vals) (Z.of_nat j) = Ok (map conv vals).
Proof.
  revert j. induction vals as [|v vals IH]; intros j Hget; [done|]. cbn [collect_slots length map].
  specialize (Hget 0%nat v eq_refl) as H0. rewrite Nat.add_0_r in H0. rewrite H0. cbn [runwrap rbind].
  replace (Z.of_nat j + 1) with (Z.of_nat (S j)) by lia. rewrite IH; [done|].
  intros a x Hx. rewrite <- (Hget (S a) x Hx). f_equal. lia.
Qed.
Lemma array_slot_snap i o t f vals a v :
  T !! i = Some o → o_kind o = KArray t f vals → vals !! a = Some v →
  array_get_slot t c i (Z.of_nat a) = Ok v.
Proof.
  intros Hi Hk Ha. destruct (array_facts _ _ _ _ _ _ _ _ _ _ HS Hi Hk) as (Hm&Hs&Ht&Ho&?&?&?&He&Hkr&Hr).
  unfold kind_repr in Hkr. rewrite Hk in Hkr. destruct Hkr as (_&_&_&_&_&?&Hok&Hsl).
  pose proof (lookup_lt_Some _ _ _ Ha) as Hlt. assert (Z.of_nat a < zlen vals) by (unfold zlen; lia).
  pose proof (proj1 (Forall_forall _ _) Hok v (list_elem_of_lookup_2 _ _ _ Ha)) as Hv.
  unfold array_get_slot, check_array_entry_type, array_entry_type.
  rewrite (typed_payload_snap m Hm i ArrayValue) by done. rewrite He. cbn [ounwrap rbind].
  rewrite decide_True by done. cbn [rbind]. rewrite (order_snap m Hm i Hs), Ho. cbn [rbind].
  rewrite array_capacity_eq by lia. unfold room in Hr. by_ltb. unfold slot_offset. rewrite uadd_ok by lia. cbn [rbind].
  rewrite offset_for_index_eq, read_bytes_snap, read_bytes_ok by (rewrite ?zlen_zeros by lia; try done; lia).
  cbn [rbind fst]. f_equal.
  pose proof (proj1 (array_words (16 * i + 16) (mapping_bytes m) vals ltac:(lia) ltac:(lia)) Hsl a v Ha) as Hw.
  rewrite zlen_zeros by lia.
  replace (16 * (i + 1) + Z.of_nat a * 8) with (16 * i + 16 + 8 * Z.of_nat a) by lia. rewrite Hw.
  apply from_to_le_bytes; [lia|]. exact Hv.
Qed.

(** Following the extents of a property. *)
Lemma clip_split k value : value = clip k value ++ drop (length (clip k value)) value.
Proof.
  unfold clip. rewrite length_take. rewrite <- (take_drop (Z.to_nat (16 * 2 ^ k - 8)) value) at 1. f_equal.
  destruct (decide (Z.to_nat (16 * 2 ^ k - 8) ≤ length value)%nat); [by rewrite Nat.min_l by lia|].
  by rewrite Nat.min_r, !drop_ge by lia.
Qed.
Lemma splice_fill (d x : list Z) n : 0 ≤ n → splice (zlen d) x (d ++ zeros (zlen x + n)) = (d ++ x) ++ zeros n.
Proof.
  intros Hn. unfold splice, zeros. rewrite Z2Nat.inj_add, replicate_add by (unfold zlen; lia).
  unfold zlen. rewrite !Nat2Z.id, take_app_length, <- app_assoc. f_equal. f_equal.
  rewrite <- drop_drop, drop_app_length. by rewrite drop_app_length' by (by rewrite length_replicate).
Qed.
Lemma extents_loop_ok l value fuel (done_ : list Z) total idx off :
  extents_repr m A l value → (length value < fuel)%nat →
  idx = default 0 (head l) → off = zlen done_ → total = zlen done_ + zlen value → (∀ b, b ∈ l → b ≠ 0) →
  extents_loop sn fuel total idx off (done_ ++ zeros (zlen value)) = Ok (done_ ++ value).
Proof.
  revert value fuel done_ idx off. induction l as [|b l IH]; intros value fuel done_ idx off Hr Hf -> -> -> Hne;
    (destruct fuel as [|fuel]; [lia|]); cbn [extents_loop].
  { cbn in Hr. subst value. change (zeros (zlen [])) with (@nil Z). by rewrite !app_nil_r. }
  destruct Hr as (Hv&k&Hk&Hn&Hs&Hr).
  destruct (inv_block _ _ (sr_heap _ _ _ _ _ HS) _ _ _ Hk) as (?&?&Hbs&?&Hbo&Hbt).
  pose proof (sr_map _ _ _ _ _ HS) as Hm.
  assert (b ≠ 0) as Hb0 by (apply Hne; by left).
  assert (0 < zlen value) as Hpos by (destruct value; [done|unfold zlen; simpl length; lia]).
  change (default 0 (head (b :: l))) with b. rewrite (proj2 (Z.eqb_neq b 0)) by done. cbn [negb andb]. by_ltb.
  rewrite (snapshot_block_ok _ _ _ Hk). unfold extent_contents.
  rewrite (check_type_snap m Hm b Hbs _ Hbt). cbn [rbind]. rewrite (order_snap m Hm b Hbs), Hbo. cbn [rbind].
  rewrite payload_size_eq by lia. pose proof (pow2_pos k ltac:(lia)).
  unfold payload_offset. rewrite offset_for_index_eq. change HEADER_SIZE_BYTES with 8.
  rewrite read_bytes_snap, read_bytes_ok by (rewrite ?zlen_zeros by lia; try done; lia).
  cbn [rbind fst]. rewrite !zlen_zeros by lia. unfold next_extent.
  rewrite (typed_header_snap m Hm b Extent) by done. cbn [rbind]. rewrite Hn.
  rewrite zlen_slice by lia. pose proof (zlen_clip k value ltac:(lia)) as Hclip.
  replace (Z.min (zlen done_ + zlen value - zlen done_) (16 * 2 ^ k - 8)) with (zlen (clip k value)) by lia.
  assert (take (Z.to_nat (zlen (clip k value))) (slice (16 * b + 8) (16 * 2 ^ k - 8) (mapping_bytes m)) = clip k value) as ->.
  { rewrite <- Hs at 2. unfold slice. rewrite take_take. f_equal. lia. }
  set (rest := drop (length (clip k value)) value) in *.
  pose proof (clip_split k value : value = clip k value ++ rest) as Hsplit.
  assert (zlen value = zlen (clip k value) + zlen rest) as Hlen by (rewrite Hsplit at 1; apply zlen_app).
  replace (zeros (zlen value)) with (zeros (zlen (clip k value) + zlen rest)) by (by rewrite Hlen).
  rewrite splice_fill by apply zlen_nonneg.
  rewrite IH with (done_ := done_ ++ clip k value); [|done|..].
  - by rewrite <- app_assoc, <- Hsplit.
  - assert (0 < length (clip k value))%nat by (unfold zlen in *; lia).
    assert (length value = length (clip k value) + length rest)%nat by (unfold zlen in *; lia). lia.
  - done.
  - rewrite zlen_app. lia.
  - rewrite zlen_app. lia.
  - intros x Hx. apply Hne. by right.
Qed.
End values.
