(* ===== verification/ReaderScan.v ===== *)
(** The scan of a snapshot: the blocks are visited in order, and each value is
    recorded under its parent. *)

From stdpp Require Import sorting.
From S2P Require Import Prelude SharedBuffer Float64 InspectFormat InspectBlock InspectHeap HeapInvariant HeapCorrect InspectOps InspectState StateInvariant StateSteps StateCorrect StateProperty StateArray InspectReader ReaderReads.

(** * What the scan records of a value *)
Definition prop_of (o : obj) : option Property :=
  match o_kind o with
  | KInt v => Some (PInt (o_name o) v)
  | KUint v => Some (PUint (o_name o) v)
  | KDouble v => Some (PDouble (o_name o) v)
  | KProperty PropertyString v => Some (PString (o_name o) (from_utf8_lossy v))
  | KProperty PropertyBytes v => Some (PBytes (o_name o) v)
  | KArray IntValue f vals => Some (PIntArray (o_name o) (map (to_signed 64) vals) f)
  | KArray UintValue f vals => Some (PUintArray (o_name o) vals f)
  | KArray _ f vals => Some (PDoubleArray (o_name o) vals f)
  | KNode | KTomb | KDying | KStale => None
  end.

Definition touch (f : ScannedNode → ScannedNode) (p : Z) (N : nodes) : nodes :=
  <[p := f (default new_scanned (N !! p))]> N.
Definition seen (o : obj) (i : Z) (N : nodes) : nodes :=
  match o_kind o, prop_of o with
  | KNode, _ =>
      let N := touch (initialize (o_name o) (o_parent o)) i N in
      if decide (o_parent o = 0) then N else touch count_child_node (o_parent o) N
  | _, Some p => touch (push_property p) (o_parent o) N
  | _, None => N
  end.

Lemma touch_twice f g p N : touch f p (touch g p N) = touch (λ n, f (g n)) p N.
Proof. unfold touch. rewrite lookup_insert_eq. cbn [default from_option id]. by rewrite insert_insert_eq. Qed.
Lemma bind_on_node {A : Type} f p (k : unit → M Error nodes A) N : bind (on_node f p) k N = k tt (touch f p N).
Proof. done. Qed.

Section scan.
Context {B : Bitfield} {BS : BitfieldSpec B} {og : Origin}.
Context (s : State) (A : blocks) (T : tree) (L : gset Z) (g : Z) (HS : state_rep s A T L g).
Abbreviation m := (mem s).
Abbreviation sn := (snap (mem s)).
Abbreviation c := (container (snap (mem s))).

(** Values a reader can make sense of. *)
Definition readable (o : obj) : Prop :=
  utf8_valid (o_name o) = true ∧ o_kind o ≠ KDying ∧ o_kind o ≠ KStale.

Section value.
Context (i : Z) (o : obj) (Hi : T !! i = Some o) (Hr : readable o) (Hg : is_gone (o_kind o) = false) (N : nodes).

(** The two reads every parser starts with. *)
Lemma parse_start {C : Type} (k : list Z → Z → M Error nodes C) :
  (name <- lift (block_name sn i) ;; parent <- lift (parent_index c i) ;; k name parent) N
  = k (o_name o) (o_parent o) N.
Proof.
  destruct Hr as (Hu&_). rewrite (bind_lift _ _ _ (o_name o)) by (by eapply block_name_snap).
  by rewrite (bind_lift _ _ _ (o_parent o)) by (by eapply block_parent_snap).
Qed.
Lemma value_slot : map_ok m ∧ in_slots m i ∧ btype m i = Some (kind_type (o_kind o)) ∧ kind_repr m A i o.
Proof.
  destruct (obj_slot _ _ _ _ _ HS i o Hi) as (?&?&?&_). split; [done|]. split; [done|]. split; [done|].
  apply (sr_obj _ _ _ _ _ HS i o Hi).
Qed.

Lemma parse_node_ok : o_kind o = KNode → parse_node sn i N = (Ok tt, seen o i N).
Proof.
  intros Hk. unfold parse_node. rewrite parse_start, bind_on_node. unfold seen. rewrite Hk.
  destruct (tree_parent _ _ (sr_tree _ _ _ _ _ HS) i o Hi Hg) as [Hne _].
  rewrite (proj2 (Z.eqb_neq (o_parent o) i)) by done. rewrite andb_true_r.
  destruct (Z.eqb_spec (o_parent o) 0) as [->|H0]; cbn [negb]; [by rewrite decide_True|by rewrite decide_False].
Qed.
Lemma parse_numeric_ok :
  match o_kind o with KInt _ | KUint _ | KDouble _ => True | _ => False end →
  parse_numeric_property sn i N = (Ok tt, seen o i N).
Proof.
  intros Hk. destruct value_slot as (Hm&Hs&Ht&Hkr). unfold parse_numeric_property. rewrite parse_start, bind_on_node.
  rewrite (bind_lift _ _ _ (kind_type (o_kind o))) by (by apply block_type_snap).
  unfold seen, prop_of, kind_repr in *.
  destruct (o_kind o) eqn:Ho; try done; cbn [kind_type] in *.
  - destruct Hkr as (_&Hv&Hp). rewrite (bind_lift _ _ _ v); [unfold on_node; f_equal; apply touch_twice|].
    unfold int_value. rewrite (typed_payload_snap m Hm i IntValue) by done. rewrite numeric_snap, Hp by done.
    f_equal. apply to_signed_unsigned; [lia|]. unfold signed_ok in Hv. to_props. lia.
  - destruct Hkr as (_&Hp). rewrite (bind_lift _ _ _ v); [unfold on_node; f_equal; apply touch_twice|].
    unfold uint_value. rewrite (typed_payload_snap m Hm i UintValue) by done. by rewrite numeric_snap, Hp.
  - destruct Hkr as (_&Hp). rewrite (bind_lift _ _ _ v); [unfold on_node; f_equal; apply touch_twice|].
    unfold double_value. rewrite (typed_payload_snap m Hm i DoubleValue) by done. by rewrite numeric_snap, Hp.
Qed.
Lemma parse_array_ok t f vals : o_kind o = KArray t f vals → parse_array_property sn i N = (Ok tt, seen o i N).
Proof.
  intros Hk. destruct (array_facts _ _ _ _ _ _ _ _ _ _ HS Hi Hk) as (Hm&Hs&Ht&Ho&?&?&?&He&Hkr&Hr').
  unfold kind_repr in Hkr. rewrite Hk in Hkr. destruct Hkr as (_&Hnum&Hcount&Hfmt&_&?&Hok&_).
  unfold room in Hr'. unfold parse_array_property. rewrite parse_start, bind_on_node.
  rewrite (bind_lift _ _ _ (zlen vals))
    by (unfold array_slots; rewrite (typed_payload_snap m Hm i ArrayValue) by done; by rewrite Hcount).
  rewrite (bind_lift _ _ _ (o_order o)) by (by rewrite (order_snap m Hm i Hs), Ho).
  rewrite array_capacity_eq by lia. by_ltb. cbv zeta.
  rewrite (bind_lift _ _ _ t)
    by (unfold array_entry_type; rewrite (typed_payload_snap m Hm i ArrayValue) by done; by rewrite He).
  assert (array_format c i = Ok f) as Hf
    by (unfold array_format; rewrite (typed_payload_snap m Hm i ArrayValue) by done; by rewrite Hfmt).
  unfold seen, prop_of. rewrite Hk. unfold zlen. rewrite Nat2Z.id.
  assert (∀ (get : Z → result Error Z) conv mk,
    (∀ a v, vals !! a = Some v → get (Z.of_nat (0 + a)) = Ok (conv v)) →
    (values <- lift (collect_slots get (length vals) 0) ;; format <- lift (runwrap (array_format c i)) ;;
     on_node (push_property (mk (o_name o) values format)) (o_parent o)) (touch id (o_parent o) N)
    = (Ok tt, touch (push_property (mk (o_name o) (map conv vals) f)) (o_parent o) N)) as Hpush.
  { intros get conv mk Hget. rewrite (bind_lift _ _ _ (map conv vals)) by (by apply (collect_slots_ok get conv vals 0)).
    rewrite (bind_lift _ _ _ f) by (by rewrite Hf). unfold on_node. f_equal. apply touch_twice. }
  assert (∀ a v, vals !! a = Some v → array_get_slot t c i (Z.of_nat (0 + a)) = Ok v) as Hslot
    by (intros a v Ha; by eapply array_slot_snap).
  destruct t; try done.
  - apply (Hpush (array_get_int_slot c i) (to_signed 64) PIntArray). intros a v Ha.
    unfold array_get_int_slot. by rewrite (Hslot a v Ha).
  - rewrite (Hpush (array_get_uint_slot c i) id PUintArray); [by rewrite list_fmap_id|done].
  - rewrite (Hpush (array_get_double_slot c i) id PDoubleArray); [by rewrite list_fmap_id|done].
Qed.
Lemma parse_property_ok f value : o_kind o = KProperty f value → parse_property sn i N = (Ok tt, seen o i N).
Proof.
  intros Hk. destruct value_slot as (Hm&Hs&Ht&Hkr). unfold kind_repr in Hkr. rewrite Hk in Ht, Hkr.
  destruct Hkr as (Hlen&Hidx&Hfmt&Hext). unfold parse_property. rewrite parse_start, bind_on_node.
  rewrite (bind_lift _ _ _ (zlen value))
    by (unfold property_total_length; rewrite (typed_payload_snap m Hm i PropertyValue) by done; by rewrite Hlen).
  rewrite (bind_lift _ _ _ (default 0 (head (o_extents o))))
    by (unfold property_extent_index; rewrite (typed_payload_snap m Hm i PropertyValue) by done; by rewrite Hidx).
  rewrite (bind_lift _ _ _ value).
  2: { apply (extents_loop_ok s A T L g HS (o_extents o) value (S (Z.to_nat (zlen value))) [] (zlen value)); try done.
       - unfold zlen. lia.
       - intros b Hb ->. apply (sr_owned_not_zero _ _ _ _ _ HS i o Hi). unfold owned. rewrite Hg. by right. }
  rewrite (bind_lift _ _ _ f)
    by (unfold property_format; rewrite (typed_payload_snap m Hm i PropertyValue) by done; by rewrite Hfmt).
  unfold seen, prop_of, on_node. rewrite Hk. destruct f; f_equal; apply touch_twice.
Qed.
End value.

(** Blocks that are not values, but may hold the parts of one. *)
Definition leaks_ok : Prop := ∀ b k t, b ∈ L → A !! b = Some (k, t) → t = Extent.
Lemma other_block i k t : leaks_ok → A !! i = Some (k, t) → T !! i = None →
  t = Free ∨ t = Name ∨ t = Extent ∨ (t = Header ∧ i = 0).
Proof.
  intros HL HA HT. destruct (decide (t = Free)) as [|Ht]; [by left|right].
  assert (used A i) as Hu by (by exists k, t). apply (sr_used _ _ _ _ _ HS) in Hu as [->|[[o Ho]|[(j&o&Hj&Hb)|Hb]]].
  - rewrite (sr_header_block _ _ _ _ _ HS) in HA. simplify_eq. auto.
  - congruence.
  - destruct (sr_owned _ _ _ _ _ HS j o i Hj Hb) as (k'&t'&Hk'&Ht'). rewrite Hk' in HA. simplify_eq.
    destruct Ht'; auto.
  - right. left. by eapply HL.
Qed.

Definition seen_block (i : Z) (N : nodes) : nodes := match T !! i with Some o => seen o i N | None => N end.
Lemma scan_block_ok i k t N :
  leaks_ok → (∀ i o, T !! i = Some o → readable o) → A !! i = Some (k, t) →
  scan_block sn i N = (Ok tt, seen_block i N).
Proof.
  intros HL Hr Hi. pose proof (sr_map _ _ _ _ _ HS) as Hm.
  destruct (inv_block _ _ (sr_heap _ _ _ _ _ HS) _ _ _ Hi) as (_&_&Hs&_&_&Ht).
  unfold scan_block, seen_block. rewrite (bind_lift _ _ _ t) by (by apply block_type_snap).
  destruct (T !! i) as [o|] eqn:HT.
  - assert (i ≠ 0) as Hi0 by (intros ->; rewrite (sr_zero _ _ _ _ _ HS) in HT; done).
    rewrite (proj2 (Z.eqb_neq i 0)) by done. cbn [andb]. pose proof (Hr i o HT) as Hro.
    rewrite (sr_obj_block _ _ _ _ _ HS i o HT) in Hi. injection Hi as <- <-.
    destruct (o_kind o) eqn:Hk; cbn [kind_type].
    + apply parse_node_ok; [done|done|by rewrite Hk|done].
    + unfold seen, prop_of. by rewrite Hk.
    + by destruct Hro as (_&?&_).
    + apply parse_numeric_ok; [done|done|by rewrite Hk|by rewrite Hk].
    + apply parse_numeric_ok; [done|done|by rewrite Hk|by rewrite Hk].
    + apply parse_numeric_ok; [done|done|by rewrite Hk|by rewrite Hk].
    + by eapply parse_property_ok; [done|done|rewrite Hk|].
    + by destruct Hro as (_&_&?).
    + by eapply parse_array_ok; [done|done|rewrite Hk|].
  - destruct (other_block i k t HL Hi HT) as [->|[->|[->|[-> ->]]]]; try done;
      (destruct (Z.eqb_spec i 0) as [->|]; [|done]); rewrite (sr_header_block _ _ _ _ _ HS) in Hi; done.
Qed.
End scan.

(** * The blocks in order *)
Inductive walk (A : blocks) (n : Z) : Z → list Z → Prop :=
  | walk_end : walk A n n []
  | walk_step x k t l : A !! x = Some (k, t) → walk A n (x + 2 ^ k) l → walk A n x (x :: l).

Section walk.
Context (A : blocks) (n : Z) (HA : tiled n A).

Lemma walk_next x k t : A !! x = Some (k, t) → x + 2 ^ k = n ∨ is_Some (A !! (x + 2 ^ k)).
Proof.
  intros Hx. pose proof (tiled_range _ _ HA _ _ _ Hx). pose proof (block_pos n A HA _ _ _ Hx).
  destruct (decide (x + 2 ^ k = n)) as [|Hne]; [by left|right].
  destruct (tiled_cover _ _ HA (x + 2 ^ k) ltac:(lia)) as (j&k'&t'&Hj&Hin).
  destruct (decide (j = x + 2 ^ k)) as [<-|Hjne]; [by eexists|exfalso].
  assert (j = x) as ->; [|rewrite Hx in Hj; simplify_eq; lia].
  destruct (decide (x ≤ j)).
  - apply (tiled_unique n A HA j j k' t' x k t); [done|done|lia..].
  - apply (tiled_unique n A HA x j k' t' x k t); [done|done|lia..].
Qed.
Lemma walk_exists x : 0 ≤ x ≤ n → x = n ∨ is_Some (A !! x) → ∃ l, walk A n x l.
Proof.
  intros Hx Hb. remember (Z.to_nat (n - x)) as d eqn:Hd. revert x Hx Hb Hd.
  induction d as [d IH] using lt_wf_ind. intros x Hx [->|[[k t] Hb]] Hd; [by eexists; constructor|].
  pose proof (tiled_range _ _ HA _ _ _ Hb). pose proof (block_pos n A HA _ _ _ Hb).
  destruct (IH (Z.to_nat (n - (x + 2 ^ k))) ltac:(lia) (x + 2 ^ k) ltac:(lia) (walk_next _ _ _ Hb) eq_refl) as [l Hl].
  exists (x :: l). by econstructor.
Qed.
Lemma walk_elem x l : walk A n x l → ∀ i, i ∈ l ↔ is_Some (A !! i) ∧ x ≤ i.
Proof.
  induction 1 as [|x k t l Hx Hw IH]; intros i.
  - split; [intros Hi; by apply not_elem_of_nil in Hi|]. intros [[[k t] Hi] Hle].
    pose proof (tiled_range _ _ HA _ _ _ Hi). pose proof (block_pos n A HA _ _ _ Hi). lia.
  - rewrite elem_of_cons, IH. pose proof (block_pos n A HA _ _ _ Hx). split.
    + intros [->|[Hi Hle]]; [split; [by eexists|lia]|split; [done|lia]].
    + intros [Hi Hle]. destruct (decide (i = x)) as [|Hne]; [by left|right]. split; [done|].
      destruct (decide (i < x + 2 ^ k)); [|lia]. destruct Hi as [? Hi].
      by rewrite (no_block_inside n A HA x k t i Hx) in Hi by lia.
Qed.
Lemma walk_sorted x l : walk A n x l → StronglySorted Z.lt l.
Proof.
  induction 1 as [|x k t l Hx Hw IH]; [constructor|]. constructor; [done|]. apply Forall_forall.
  intros i Hi. apply (walk_elem _ _ Hw) in Hi as [_ Hi]. pose proof (block_pos n A HA _ _ _ Hx). lia.
Qed.
End walk.

(** * Scanning *)
Section scan_all.
Context {B : Bitfield} {BS : BitfieldSpec B} {og : Origin}.
Context (s : State) (A : blocks) (T : tree) (L : gset Z) (g : Z) (HS : state_rep s A T L g).
Context (HL : leaks_ok A L) (Hread : ∀ i o, T !! i = Some o → readable o).
Abbreviation m := (mem s).
Abbreviation sn := (snap (mem s)).
Abbreviation c := (container (snap (mem s))).
Abbreviation at_slot := (λ x, {| offset := 16 * x; it_container := container (snap (mem s)) |}).

(** The slots the heap has not grown to have headers of zeroes. *)
Definition fresh_tail : Prop :=
  ∀ x, slots (heap s) ≤ x → 16 * x + 16 ≤ zlen (mapping_bytes m) → hdr m x = 0.

Lemma bit_range_zero msb lsb : 0 ≤ lsb ≤ msb → msb < 64 → bit_range 0 msb lsb = 0.
Proof.
  intros. apply Z.bits_inj_iff'. intros i Hi. rewrite bit_range_spec, !Z.bits_0 by (done || lia). apply andb_false_r.
Qed.

Lemma next_block x k : in_slots m x → x < 2 ^ 32 → bord m x = k → 0 ≤ k → 16 * x + 16 * 2 ^ k ≤ zlen (mapping_bytes m) →
  next (at_slot x) = Ok (Some (x, at_slot (x + 2 ^ k))).
Proof.
  intros Hs Hx Hk Hk0 Hfit. pose proof Hs as [??]. pose proof (pow2_pos k Hk0).
  unfold next. cbn [offset it_container container slice_bytes buffer snap]. by_ltb.
  rewrite index_for_offset_ok by lia. cbn [rbind].
  rewrite (order_snap m (sr_map _ _ _ _ _ HS) x Hs), Hk. cbn [rbind]. rewrite order_to_size_eq by done. by_ltb.
  do 4 f_equal. lia.
Qed.
Lemma next_end x : zlen (mapping_bytes m) ≤ 16 * x → next (at_slot x) = Ok None.
Proof. intros Hx. unfold next. cbn [offset it_container container slice_bytes buffer snap]. by_ltb. done. Qed.

Lemma scan_tail fuel x N : fresh_tail → 0 < x → slots (heap s) ≤ x → (16 | zlen (mapping_bytes m)) →
  zlen (mapping_bytes m) ≤ 2 ^ 32 → zlen (mapping_bytes m) - 16 * x < Z.of_nat fuel → (0 < fuel)%nat →
  for_blocks fuel (scan_block sn) (at_slot x) N = (Ok tt, N).
Proof.
  intros HF Hx0 Hx [q Hq] Hmax. revert x Hx0 Hx. induction fuel as [|fuel IH]; intros x Hx0 Hx Hfuel Hpos; [lia|].
  cbn [for_blocks]. destruct (decide (zlen (mapping_bytes m) ≤ 16 * x)) as [Hend|Hgo].
  { by rewrite (bind_lift _ _ _ None) by (by apply next_end). }
  assert (in_slots m x) as Hs by (split; lia). pose proof (HF x Hx ltac:(lia)) as H0.
  assert (bord m x = 0) as Hb by (unfold bord; rewrite H0; by apply bit_range_zero).
  assert (btype m x = Some Free) as Ht.
  { unfold btype. rewrite H0. unfold hdr_block_type. by rewrite bit_range_zero. }
  rewrite (bind_lift _ _ _ (Some (x, at_slot (x + 2 ^ 0)))) by (apply next_block; [done|lia|done|lia|lia]).
  rewrite (bind_ok _ _ _ N tt).
  - apply IH; lia.
  - unfold scan_block. rewrite (bind_lift _ _ _ Free) by (apply block_type_snap; [apply (sr_map _ _ _ _ _ HS)|done|done]).
    by rewrite (proj2 (Z.eqb_neq x 0)) by lia.
Qed.

Lemma scan_walk fuel x l N : fresh_tail → walk A (slots (heap s)) x l →
  zlen (mapping_bytes m) - 16 * x < Z.of_nat fuel → (0 < fuel)%nat →
  for_blocks fuel (scan_block sn) (at_slot x) N = (Ok tt, foldl (λ N i, seen_block T i N) N l).
Proof.
  intros HF Hw. pose proof (sr_heap _ _ _ _ _ HS) as (Hcur&_&F&HR). revert fuel N.
  induction Hw as [|x k t l Hx Hw IH]; intros fuel N Hfuel Hpos.
  - apply scan_tail; [done| |lia| | |done|done].
    + rewrite (rep_size _ _ _ _ HR) in Hcur. lia.
    + eapply Z.divide_trans; [|apply (rep_len _ _ _ _ HR)]. by exists 256.
    + apply (rep_max _ _ _ _ HR).
  - destruct (inv_block _ _ (sr_heap _ _ _ _ _ HS) _ _ _ Hx) as (?&?&Hs&?&Hb&_).
    pose proof (pow2_pos k ltac:(lia)). destruct fuel as [|fuel]; [lia|]. cbn [for_blocks foldl].
    rewrite (bind_lift _ _ _ (Some (x, at_slot (x + 2 ^ k)))) by (apply next_block; [done|lia|done|lia|lia]).
    rewrite (bind_ok _ _ _ (seen_block T x N) tt) by (by eapply scan_block_ok).
    apply IH; [lia|]. lia.
Qed.

Lemma scan_blocks_ok : fresh_tail →
  ∃ l, walk A (slots (heap s)) 0 l ∧ scan_blocks sn = Ok (foldl (λ N i, seen_block T i N) ∅ l).
Proof.
  intros HF. pose proof (sr_heap _ _ _ _ _ HS) as (Hcur&_&F&HR).
  destruct (walk_exists A (slots (heap s)) (rep_tiled _ _ _ _ HR) 0) as [l Hl].
  { pose proof (rep_nonneg _ _ _ _ HR). lia. }
  { right. rewrite (sr_header_block _ _ _ _ _ HS). by eexists. }
  exists l. split; [done|]. unfold scan_blocks, scan.
  pose proof (scan_walk (iter_fuel (buffer sn)) 0 l ∅ HF Hl) as Hscan.
  change (at_slot 0) with (from_bytes (buffer sn)) in Hscan. rewrite Hscan; [done| |].
  - unfold iter_fuel, snap, zlen. cbn [buffer]. lia.
  - unfold iter_fuel. lia.
Qed.
End scan_all.
