(* ===== verification/ReaderFold.v ===== *)
(** The nodes a scan has recorded after the blocks it has visited, and
    [ScanResult::reduce]: the scanned nodes of a tree are put together into the hierarchy
    of its root, whatever the order in which they complete. *)

From stdpp Require Import sorting.
From S2P Require Import Prelude InspectFormat InspectBlock StateInvariant InspectReader ReaderReads ReaderScan.

Section fold.
Context (T : tree).

Definition is_knode (p : Z) : bool := match T !! p with Some o => bool_decide (o_kind o = KNode) | None => false end.
Definition name_of (p : Z) : list Z := match T !! p with Some o => o_name o | None => [] end.
Definition par_of (p : Z) : Z := match T !! p with Some o => o_parent o | None => 0 end.
Definition value_prop (p i : Z) : option Property :=
  match T !! i with Some o => if decide (o_parent o = p) then prop_of o else None | None => None end.
Definition props_in (l : list Z) (p : Z) : list Property := omap (value_prop p) l.
Definition kids_in (l : list Z) (p : Z) : list Z := filter (λ i, is_knode i = true ∧ par_of i = p) l.

(** Every value is in a node, and so is every node but those at the top. *)
Definition well_placed : Prop :=
  ∀ i o, T !! i = Some o → o_kind o ≠ KTomb ∧ o_parent o ≠ i ∧
    (is_knode (o_parent o) = true ∨ o_kind o = KNode ∧ o_parent o = 0).

Definition node_at (N : nodes) (p : Z) : ScannedNode := default new_scanned (N !! p).
Definition scanned (l : list Z) (p : Z) : ScannedNode :=
  let here := bool_decide (p ∈ l) && is_knode p in
  {| hierarchy := Hierarchy (if here then name_of p else []) (props_in l p) [];
     child_nodes_count := if decide (p = 0) then 0 else zlen (kids_in l p);
     sn_parent_index := if here then par_of p else 0 |}.
Record recorded (l : list Z) (N : nodes) : Prop := {
  rc_node p : node_at N p = scanned l p;
  rc_only p : is_Some (N !! p) → is_knode p = true;
  rc_all p : p ∈ l → is_knode p = true → is_Some (N !! p)
}.

Lemma node_at_touch f q N p : node_at (touch f q N) p = if decide (p = q) then f (node_at N q) else node_at N p.
Proof.
  unfold node_at, touch. destruct (decide (p = q)) as [->|Hp]; [by rewrite lookup_insert_eq|].
  by rewrite lookup_insert_ne by (by apply not_eq_sym).
Qed.
Lemma touch_some f q N p : is_Some (touch f q N !! p) ↔ p = q ∨ is_Some (N !! p).
Proof. unfold touch. rewrite lookup_insert_is_Some. destruct (decide (p = q)) as [->|]; naive_solver. Qed.

(** One more block. *)
Lemma props_snoc l i p : props_in (l ++ [i]) p = props_in l p ++ match value_prop p i with Some x => [x] | None => [] end.
Proof. unfold props_in. rewrite omap_app. cbn. by destruct (value_prop p i). Qed.
Lemma kids_snoc l i p :
  kids_in (l ++ [i]) p = kids_in l p ++ if decide (is_knode i = true ∧ par_of i = p) then [i] else [].
Proof. unfold kids_in. by rewrite filter_app. Qed.
Lemma here_snoc l i p : is_knode i = false ∨ p ≠ i →
  bool_decide (p ∈ l ++ [i]) && is_knode p = bool_decide (p ∈ l) && is_knode p.
Proof.
  intros Hi. destruct (decide (p = i)) as [->|Hp].
  - destruct Hi as [->|]; [by rewrite !andb_false_r|done].
  - f_equal. apply bool_decide_ext. rewrite elem_of_app, list_elem_of_singleton. naive_solver.
Qed.

Context (HT : well_placed).

(** A block that is not a value, a value, and a node. *)
Lemma recorded_other l N i : T !! i = None → recorded l N → recorded (l ++ [i]) N.
Proof.
  intros Hi [R1 R2 R3]. assert (is_knode i = false) as Hk by (unfold is_knode; by rewrite Hi). split; [|done|].
  - intros p. rewrite R1. unfold scanned. rewrite here_snoc by (by left). rewrite props_snoc, kids_snoc.
    rewrite (decide_False (P := is_knode i = true ∧ _)) by (rewrite Hk; by intros [? _]). unfold value_prop. rewrite Hi. by rewrite !app_nil_r.
  - intros p [Hp|Hp]%elem_of_app; [by apply R3|]. apply list_elem_of_singleton in Hp as ->. congruence.
Qed.
Lemma recorded_value l N i o x : T !! i = Some o → o_kind o ≠ KNode → prop_of o = Some x →
  recorded l N → recorded (l ++ [i]) (touch (push_property x) (o_parent o) N).
Proof.
  intros Hi Hk Hx [R1 R2 R3]. destruct (HT i o Hi) as (_&_&[Hpar|[? _]]); [|done].
  assert (is_knode i = false) as Hki by (unfold is_knode; rewrite Hi; by apply bool_decide_eq_false). split.
  - intros p. rewrite node_at_touch, !R1. unfold scanned. rewrite here_snoc by (by left). rewrite props_snoc, kids_snoc.
    rewrite (decide_False (P := is_knode i = true ∧ _)) by (rewrite Hki; by intros [? _]). rewrite app_nil_r.
    unfold value_prop. rewrite Hi. destruct (decide (p = o_parent o)) as [->|Hp].
    + rewrite (decide_True (P := o_parent o = o_parent o)), Hx by done. done.
    + rewrite (decide_False (P := o_parent o = p)) by (by apply not_eq_sym). by rewrite app_nil_r.
  - intros p [->|Hp]%touch_some; [done|by apply R2].
  - intros p [Hp|Hp]%elem_of_app Hkp; apply touch_some; [right; by apply R3|].
    apply list_elem_of_singleton in Hp as ->. congruence.
Qed.
Lemma recorded_node l N i o : T !! i = Some o → o_kind o = KNode → i ∉ l → recorded l N →
  recorded (l ++ [i]) (seen o i N).
Proof.
  intros Hi Hk Hil [R1 R2 R3]. destruct (HT i o Hi) as (_&Hne&Hpar). unfold seen. rewrite Hk. cbv zeta.
  set (N1 := touch (initialize (o_name o) (o_parent o)) i N).
  assert (is_knode i = true) as Hki by (unfold is_knode; rewrite Hi; by apply bool_decide_eq_true).
  assert (∀ p, node_at N1 p = {| hierarchy := hierarchy (scanned (l ++ [i]) p);
    child_nodes_count := if decide (p = 0) then 0 else zlen (kids_in l p); sn_parent_index := sn_parent_index (scanned (l ++ [i]) p) |}) as HN1.
  { intros p. unfold N1. rewrite node_at_touch, !R1. unfold scanned, initialize. cbn [hierarchy h_properties h_children child_nodes_count sn_parent_index].
    rewrite props_snoc. unfold value_prop. rewrite Hi. unfold prop_of. rewrite Hk.
    replace (if decide (o_parent o = p) then None else None) with (@None Property) by (by case_decide).
    destruct (decide (p = i)) as [->|Hp].
    - rewrite (bool_decide_eq_true_2 (i ∈ l ++ [i])) by (rewrite elem_of_app, list_elem_of_singleton; by right).
      rewrite Hki. cbn [andb]. unfold name_of, par_of. rewrite Hi. case_decide; by rewrite app_nil_r.
    - rewrite here_snoc by (by right). by rewrite app_nil_r. }
  assert (par_of i = o_parent o) as Hpi by (unfold par_of; by rewrite Hi).
  split.
  - intros p. unfold scanned at 1. rewrite kids_snoc, Hpi, Hki.
    destruct (decide (o_parent o = 0)) as [H0|H0].
    + rewrite HN1. unfold scanned. cbn [hierarchy sn_parent_index]. f_equal.
      destruct (decide (p = 0)) as [|Hp]; [done|]. rewrite decide_False by (intros [_ ?]; congruence). by rewrite app_nil_r.
    + rewrite node_at_touch, !HN1. unfold count_child_node, scanned. cbn [hierarchy sn_parent_index child_nodes_count].
      destruct (decide (p = o_parent o)) as [->|Hp].
      * rewrite !(decide_False (P := o_parent o = 0)) by done. rewrite decide_True by done. f_equal. rewrite zlen_app. done.
      * f_equal. destruct (decide (p = 0)); [done|]. rewrite decide_False by (intros [_ ?]; congruence). by rewrite app_nil_r.
  - intros p Hp. destruct (decide (o_parent o = 0)) as [H0|H0].
    + apply touch_some in Hp as [->|Hp]; [done|by apply R2].
    + apply touch_some in Hp as [->|[->|Hp]%touch_some]; [|done|by apply R2]. by destruct Hpar as [|[_ ?]].
  - intros p Hp Hkp. assert (is_Some (N1 !! p)) as Hsome.
    { apply touch_some. apply elem_of_app in Hp as [Hp|Hp]; [right; by apply R3|left; by apply list_elem_of_singleton in Hp]. }
    destruct (decide (o_parent o = 0)); [done|]. apply touch_some. by right.
Qed.

Lemma recorded_fold l : NoDup l → (∀ i o, T !! i = Some o → readable o) →
  recorded l (foldl (λ N i, seen_block T i N) ∅ l).
Proof.
  intros Hnd Hread. induction l as [|i l IH] using rev_ind.
  { cbn [foldl]. split.
    - intros p. unfold node_at, scanned. rewrite lookup_empty. cbn. by destruct (decide (p = 0)).
    - intros p [? Hp]. by rewrite lookup_empty in Hp.
    - intros p Hp. by apply not_elem_of_nil in Hp. }
  apply NoDup_app in Hnd as (Hnd&Hdis&_). specialize (IH Hnd). rewrite foldl_snoc. unfold seen_block at 1.
  assert (i ∉ l) as Hil by (intros Hi; apply (Hdis i Hi); by apply list_elem_of_singleton).
  destruct (T !! i) as [o|] eqn:Hi; [|by apply recorded_other].
  destruct (decide (o_kind o = KNode)) as [Hk|Hk]; [by apply recorded_node|].
  destruct (Hread i o Hi) as (_&Hd&Hs). destruct (HT i o Hi) as (Ht&_).
  destruct (prop_of o) as [x|] eqn:Hx.
  - assert (seen o i (foldl (λ N i, seen_block T i N) ∅ l) = touch (push_property x) (o_parent o) (foldl (λ N i, seen_block T i N) ∅ l)) as ->.
    { unfold seen. rewrite Hx. by destruct (o_kind o). }
    by apply recorded_value.
  - exfalso. unfold prop_of in Hx. by destruct (o_kind o) as [| | | | | |[]| |[]].
Qed.
End fold.

Lemma filter_all {A : Type} (P : A → Prop) `{!∀ x, Decision (P x)} (l : list A) :
  (∀ x, x ∈ l → P x) → filter P l = l.
Proof.
  induction l as [|x l IH]; intros Hl; [done|]. rewrite filter_cons_True by (apply Hl; by left). f_equal.
  apply IH. intros y Hy. apply Hl. by right.
Qed.
Lemma filter_none {A : Type} (P : A → Prop) `{!∀ x, Decision (P x)} (l : list A) :
  (∀ x, x ∈ l → ¬ P x) → filter P l = [].
Proof.
  induction l as [|x l IH]; intros Hl; [done|]. rewrite filter_cons_False by (apply Hl; by left).
  apply IH. intros y Hy. apply Hl. by right.
Qed.

Section reduce.
Context (K : list Z) (name : Z → list Z) (props : Z → list Property) (par : Z → Z) (root : Z).

Definition kids (p : Z) : list Z := filter (λ i, par i = p) K.

(** A hierarchy put together from the nodes below [i], in some order. *)
Inductive built : Z → NodeHierarchy → Prop :=
  | built_node i ks hs : ks ≡ₚ kids i → Forall2 built ks hs → built i (Hierarchy (name i) (props i) hs).

Context (HK : NoDup K) (Hzero : 0 ∉ K) (Hroot : root ∈ K) (Hpar : par root = 0).
Context (Hup : ∀ i, i ∈ K → i ≠ root → par i ∈ K).
Context (depth : Z → nat) (Hdepth : ∀ i, i ∈ K → i ≠ root → (depth (par i) < depth i)%nat).

(** Part-way: [D] are attached to their parents, [S] are on the stack. *)
Record partial (D S : list Z) (stack : list ScannedNode) (P : nodes) : Prop := {
  pt_nodup : NoDup (D ++ S);
  pt_in i : i ∈ D ++ S → i ∈ K;
  pt_root : root ∉ D;
  pt_pending p : is_Some (P !! p) ↔ p ∈ K ∧ p ∉ D ++ S;
  pt_stack : Forall2 (λ i n, sn_parent_index n = par i ∧ built i (hierarchy n)) S stack;
  pt_node p n : P !! p = Some n →
    sn_parent_index n = par p ∧ child_nodes_count n = zlen (kids p) ∧ is_complete n = false ∧
    ∃ ks hs, hierarchy n = Hierarchy (name p) (props p) hs ∧ Forall2 built ks hs ∧
      ks ≡ₚ filter (λ i, i ∈ D) (kids p);
  pt_closed i j : i ∈ D ++ S → j ∈ kids i → j ∈ D
}.

Lemma kids_elem p i : i ∈ kids p ↔ i ∈ K ∧ par i = p.
Proof. unfold kids. rewrite list_elem_of_filter. tauto. Qed.
Lemma kids_nodup p : NoDup (kids p).
Proof. by apply NoDup_filter. Qed.

(** A pending node waits for another pending node below it. *)
Lemma pending_below D stack P p : partial D [] stack P → is_Some (P !! p) →
  ∃ q, is_Some (P !! q) ∧ (depth p < depth q)%nat.
Proof.
  intros HP [n Hn]. pose proof (proj1 (pt_pending _ _ _ _ HP p) (mk_is_Some _ _ Hn)) as [HpK _].
  destruct (pt_node _ _ _ _ HP p n Hn) as (_&Hc&Hinc&ks&hs&Hh&HF&Hks).
  destruct (decide (Exists (λ i, i ∉ D) (kids p))) as [Hex|Hall].
  - apply Exists_exists in Hex as (q&Hq&HqD). apply kids_elem in Hq as [HqK Hqp].
    exists q. split; [apply (pt_pending _ _ _ _ HP); by rewrite app_nil_r|].
    rewrite <- Hqp. apply Hdepth; [done|]. intros ->. rewrite Hpar in Hqp. by subst p.
  - exfalso. apply not_Exists_Forall in Hall; [|apply _].
    assert (filter (λ i, i ∈ D) (kids p) = kids p) as Hfil.
    { apply filter_all. intros i Hi. apply (proj1 (Forall_forall _ _) Hall) in Hi. by apply dec_stable. }
    rewrite Hfil in Hks. unfold is_complete in Hinc. rewrite Hh, Hc in Hinc. cbn [h_children] in Hinc.
    apply Z.eqb_neq in Hinc. apply Hinc. unfold zlen. rewrite <- (Forall2_length _ _ _ HF). by rewrite Hks.
Qed.
Lemma never_stuck D stack P : ¬ partial D [] stack P.
Proof.
  intros HP. assert (is_Some (P !! root)) as Hr.
  { apply (pt_pending _ _ _ _ HP). split; [done|]. rewrite app_nil_r. apply (pt_root _ _ _ _ HP). }
  assert (∃ M, ∀ p, is_Some (P !! p) → (depth p ≤ M)%nat) as [M HM].
  { exists (sum_list (depth <$> K)). intros p Hp. apply (pt_pending _ _ _ _ HP) in Hp as [Hp _].
    clear -Hp. induction Hp as [p l|p x l Hp IH]; cbn; lia. }
  assert (∀ d p, (M - depth p)%nat = d → is_Some (P !! p) → False) as Hno; [|by apply (Hno _ root eq_refl)].
  induction d as [d IH] using lt_wf_ind. intros p Hd Hp.
  destruct (pending_below D stack P p HP Hp) as (q&Hq&Hlt). pose proof (HM q Hq).
  apply (IH (M - depth q)%nat ltac:(lia) q eq_refl Hq).
Qed.

(** Attaching a node to its parent. *)
Lemma filter_attach (D : list Z) i p ks :
  i ∈ K → par i = p → i ∉ D → ks ≡ₚ filter (λ j, j ∈ D) (kids p) → ks ++ [i] ≡ₚ filter (λ j, j ∈ i :: D) (kids p).
Proof.
  intros HiK Hp HiD ->. apply NoDup_Permutation.
  - apply NoDup_app. split; [apply NoDup_filter, kids_nodup|]. split; [|apply NoDup_singleton].
    intros x Hx Hi. apply list_elem_of_singleton in Hi as ->. by apply list_elem_of_filter in Hx as [? _].
  - apply NoDup_filter, kids_nodup.
  - intros x. rewrite elem_of_app, !list_elem_of_filter, list_elem_of_singleton, elem_of_cons, kids_elem.
    split; [intros [[? [? ?]]| ->]; auto|]. intros [[->|?] ?]; auto.
Qed.
Lemma filter_elsewhere (D : list Z) i q :
  par i ≠ q → filter (λ j, j ∈ i :: D) (kids q) = filter (λ j, j ∈ D) (kids q).
Proof.
  intros Hq. unfold kids. rewrite !list_filter_filter. apply list_filter_iff. intros x. rewrite elem_of_cons.
  split; [intros [[->|?] ?]; [done|auto]|intros [? ?]; auto].
Qed.
Lemma attached_all (D : list Z) p ks : ks ≡ₚ filter (λ j, j ∈ D) (kids p) → length ks = length (kids p) → ks ≡ₚ kids p.
Proof.
  intros Hks Hlen. rewrite Hks. apply (Permutation_length) in Hks.
  rewrite filter_all; [done|]. intros x Hx. apply dec_stable. intros HxD.
  pose proof (length_filter_lt (λ j, j ∈ D) (kids p) x Hx HxD). lia.
Qed.

Section attach.
Context (D : list Z) (i : Z) (S : list Z) (n : ScannedNode) (stack : list ScannedNode) (P : nodes).
Context (HP : partial D (i :: S) (n :: stack) P) (Hp0 : par i ≠ 0).
Abbreviation p := (par i).

Lemma att_node : i ∈ K ∧ i ≠ root ∧ i ∉ D ∧ i ∉ S ∧ NoDup D ∧ NoDup S ∧ (∀ x, x ∈ D → x ∉ S).
Proof.
  destruct HP as [Hnd Hin _ _ _ _ _]. apply NoDup_app in Hnd as (HndD&Hdis&HndS).
  apply NoDup_cons in HndS as [HiS HndS]. split; [apply Hin, elem_of_app; right; by left|].
  split; [by intros ->|]. split; [intros HiD; apply (Hdis i HiD); by left|]. split_and!; [done..|].
  intros x HxD Hx. apply (Hdis x HxD). by right.
Qed.
Lemma att_parent : p ∈ K ∧ p ∉ D ∧ p ≠ i ∧ p ∉ S.
Proof.
  destruct att_node as (HiK&Hir&HiD&_). split; [by apply Hup|]. rewrite <- not_elem_of_cons, <- not_elem_of_app.
  intros HpDS. apply HiD, (pt_closed _ _ _ _ HP p i HpDS). by apply kids_elem.
Qed.
Lemma att_others q nq : P !! q = Some nq → q ≠ p →
  sn_parent_index nq = par q ∧ child_nodes_count nq = zlen (kids q) ∧ is_complete nq = false ∧
  ∃ ks hs, hierarchy nq = Hierarchy (name q) (props q) hs ∧ Forall2 built ks hs ∧ ks ≡ₚ filter (λ j, j ∈ i :: D) (kids q).
Proof. intros Hq Hqp. rewrite filter_elsewhere by (by intros <-). by apply (pt_node _ _ _ _ HP). Qed.
(** The parent with its new child. *)
Lemma att_child : ∃ pn ks hs, P !! p = Some pn ∧
  hierarchy (push_child (hierarchy n) pn) = Hierarchy (name p) (props p) hs ∧ Forall2 built ks hs ∧
  ks ≡ₚ filter (λ j, j ∈ i :: D) (kids p) ∧ sn_parent_index (push_child (hierarchy n) pn) = par p ∧
  child_nodes_count (push_child (hierarchy n) pn) = zlen (kids p).
Proof.
  destruct att_node as (HiK&_&HiD&_), att_parent as (HpK&HpD&Hpi&HpS).
  destruct (proj2 (pt_pending _ _ _ _ HP p)) as [pn Hpn].
  { split; [done|]. rewrite not_elem_of_app, not_elem_of_cons. auto. }
  destruct (pt_node _ _ _ _ HP p pn Hpn) as (Hpp&Hpc&_&ks&hs&Hh&HF&Hks).
  pose proof (pt_stack _ _ _ _ HP) as Hst. apply Forall2_cons in Hst as [[_ Hsb] _].
  exists pn, (ks ++ [i]), (hs ++ [hierarchy n]). split; [done|]. split; [unfold push_child; by rewrite Hh|].
  split; [apply Forall2_app; [done|by constructor]|]. split; [by apply filter_attach|done].
Qed.
Lemma att_stack : Forall2 (λ i n, sn_parent_index n = par i ∧ built i (hierarchy n)) S stack.
Proof. pose proof (pt_stack _ _ _ _ HP) as Hst. by apply Forall2_cons in Hst as [_ ?]. Qed.
Lemma att_root : root ∉ i :: D.
Proof.
  rewrite not_elem_of_cons. split; [|apply (pt_root _ _ _ _ HP)]. destruct att_node as (_&Hir&_). by apply not_eq_sym.
Qed.
Lemma att_closed a b : a ∈ D ++ i :: S → b ∈ kids a → b ∈ i :: D.
Proof. intros Ha Hb. right. by apply (pt_closed _ _ _ _ HP a b). Qed.

Lemma attach_complete pn : P !! p = Some pn → is_complete (push_child (hierarchy n) pn) = true →
  partial (i :: D) (p :: S) (push_child (hierarchy n) pn :: stack) (delete p P).
Proof.
  intros Hpn Hcomp. destruct att_node as (HiK&Hir&HiD&HiS&HndD&HndS&Hdis), att_parent as (HpK&HpD&Hpi&HpS).
  destruct att_child as (pn0&ks&hs&Hpn0&Hh&HF&Hks&Hpp&Hpc). rewrite Hpn in Hpn0. injection Hpn0 as <-.
  assert (ks ≡ₚ kids p) as Hall.
  { apply (attached_all (i :: D)); [done|]. unfold is_complete in Hcomp. rewrite Hh, Hpc in Hcomp.
    apply Z.eqb_eq in Hcomp. cbn [h_children] in Hcomp. unfold zlen in Hcomp. rewrite (Forall2_length _ _ _ HF). lia. }
  split.
  - cbn [app]. apply NoDup_cons. rewrite elem_of_app, elem_of_cons. split; [intros [?|[?|?]]; [done|congruence|done]|].
    apply NoDup_app. split; [done|]. split; [|by apply NoDup_cons].
    intros x HxD [->|Hx]%elem_of_cons; [done|]. by apply (Hdis x).
  - intros x Hx. cbn [app] in Hx. rewrite elem_of_cons, elem_of_app, elem_of_cons in Hx.
    destruct Hx as [->|[Hx|[->|Hx]]]; try done; apply (pt_in _ _ _ _ HP), elem_of_app; [by left|right; by right].
  - apply att_root.
  - intros q. rewrite lookup_delete_is_Some, (pt_pending _ _ _ _ HP). cbn [app].
    rewrite !not_elem_of_cons, !not_elem_of_app, !not_elem_of_cons. naive_solver.
  - constructor; [split; [done|]|apply att_stack]. rewrite Hh. by econstructor.
  - intros q nq Hq. apply lookup_delete_Some in Hq as [Hqp Hq]. apply att_others; [done|by apply not_eq_sym].
  - intros a b Ha Hb. cbn [app] in Ha. rewrite elem_of_cons, elem_of_app, elem_of_cons in Ha.
    destruct (decide (a = p)) as [->|Hap]; [rewrite <- Hall, Hks in Hb; by apply list_elem_of_filter in Hb as [? _]|].
    apply (att_closed a b); [|done]. rewrite elem_of_app, elem_of_cons. destruct Ha as [?|[?|[?|?]]]; tauto.
Qed.
Lemma attach_waiting pn : P !! p = Some pn → is_complete (push_child (hierarchy n) pn) = false →
  partial (i :: D) S stack (<[p := push_child (hierarchy n) pn]> P).
Proof.
  intros Hpn Hcomp. destruct att_node as (HiK&Hir&HiD&HiS&HndD&HndS&Hdis), att_parent as (HpK&HpD&Hpi&HpS).
  destruct att_child as (pn0&ks&hs&Hpn0&Hh&HF&Hks&Hpp&Hpc). rewrite Hpn in Hpn0. injection Hpn0 as <-.
  split.
  - cbn [app]. apply NoDup_cons. split; [rewrite elem_of_app; intros [?|?]; done|]. by apply NoDup_app.
  - intros x Hx. cbn [app] in Hx. rewrite elem_of_cons, elem_of_app in Hx.
    destruct Hx as [->|[Hx|Hx]]; try done; apply (pt_in _ _ _ _ HP), elem_of_app; [by left|right; by right].
  - apply att_root.
  - intros q. rewrite lookup_insert_is_Some, (pt_pending _ _ _ _ HP). cbn [app].
    rewrite !not_elem_of_cons, !not_elem_of_app, !not_elem_of_cons.
    destruct (decide (p = q)) as [<-|]; naive_solver.
  - apply att_stack.
  - intros q nq Hq. destruct (decide (q = p)) as [->|Hqp]; [|rewrite lookup_insert_ne in Hq by (by apply not_eq_sym); by apply att_others].
    rewrite lookup_insert_eq in Hq. injection Hq as <-. split; [done|]. split; [done|]. split; [done|]. by exists ks, hs.
  - intros a b Ha Hb. cbn [app] in Ha. rewrite elem_of_cons, elem_of_app in Ha.
    apply (att_closed a b); [|done]. rewrite elem_of_app, elem_of_cons. destruct Ha as [?|[?|?]]; auto.
Qed.
End attach.

Lemma reduce_loop_ok fuel D S stack P :
  partial D S stack P → (length K < fuel + length D)%nat →
  ∃ h, reduce_loop fuel stack P = Ok h ∧ built root h.
Proof.
  revert D S stack P. induction fuel as [|fuel IH]; intros D S stack P HP Hf.
  { exfalso. assert (length D ≤ length K)%nat; [|lia]. apply submseteq_length, NoDup_submseteq.
    - by pose proof (pt_nodup _ _ _ _ HP) as [? _]%NoDup_app.
    - intros x Hx. apply (pt_in _ _ _ _ HP), elem_of_app. by left. }
  pose proof (pt_stack _ _ _ _ HP) as Hst. destruct Hst as [|i n S stack [Hsp Hsb] Hst]; [by destruct (never_stuck D [] P HP)|].
  cbn [reduce_loop]. rewrite Hsp. destruct (Z.eqb_spec (par i) 0) as [H0|H0].
  { exists (hierarchy n). split; [done|]. assert (i = root) as <-; [|done]. apply dec_stable. intros Hir.
    apply Hzero. rewrite <- H0. apply Hup; [|done]. apply (pt_in _ _ _ _ HP), elem_of_app. right. by left. }
  destruct (att_child D i S n stack P HP H0) as (pn&_&_&Hpn&_). rewrite Hpn. cbv zeta.
  destruct (is_complete (push_child (hierarchy n) pn)) eqn:Hc.
  - eapply IH; [by apply attach_complete|]. cbn [length]. lia.
  - eapply IH; [by apply attach_waiting|]. cbn [length]. lia.
Qed.
End reduce.
