(* ===== verification/ReaderClaims.v ===== *)
(** What is written with a [State] is what a reader of its memory sees, and a memory that
    is being written is refused. *)

From stdpp Require Import sorting.
From S2P Require Import Prelude SharedBuffer Float64 InspectFormat InspectBlock InspectHeap HeapInvariant HeapCorrect HeapAllocate HeapTheorems InspectOps InspectState StateInvariant StateSteps StateCorrect StateOps StateTheorems InspectReader ReaderReads ReaderScan ReaderFold.

(** [h] is the hierarchy of the node [root] of the forest: names, the properties of
    each node in the order of their blocks, and its child nodes in some order. *)
Definition shows (T : tree) (root : Z) (h : NodeHierarchy) : Prop :=
  ∃ l, StronglySorted Z.lt l ∧ (∀ i, i ∈ l ↔ is_Some (T !! i)) ∧
    built (filter (λ i, is_knode T i = true) l) (name_of T) (props_in T l) (par_of T) root h.

(** Forests a reader can see the whole of: one node at the top, no tombstones, no
    property that lost its value, and names that are UTF-8. *)
Record publishable (T : tree) (root : Z) : Prop := {
  pb_root : is_knode T root = true ∧ par_of T root = 0;
  pb_readable i o : T !! i = Some o → readable o ∧ o_kind o ≠ KTomb;
  pb_parent i o : T !! i = Some o → i ≠ root → is_knode T (o_parent o) = true;
  pb_rooted : ∃ depth : Z → nat, ∀ i o, T !! i = Some o → i ≠ root → (depth (o_parent o) < depth i)%nat
}.

Section read.
Context {B : Bitfield} {BS : BitfieldSpec B} {og : Origin}.
Context (s : State) (A : blocks) (T : tree) (L : gset Z) (g : Z) (HS : state_rep s A T L g).
Context (root : Z) (HP : publishable T root) (HL : leaks_ok A L).

Lemma knode_lookup i : is_knode T i = true ↔ ∃ o, T !! i = Some o ∧ o_kind o = KNode.
Proof.
  unfold is_knode. destruct (T !! i) as [o|]; [rewrite bool_decide_eq_true|]; [|naive_solver].
  split; [by exists o|]. by intros (o'&[= <-]&?).
Qed.
Lemma zero_not_knode : is_knode T 0 = false.
Proof. unfold is_knode. by rewrite (sr_zero _ _ _ _ _ HS). Qed.
Lemma publishable_placed : well_placed T.
Proof.
  intros i o Hi. destruct (pb_readable _ _ HP i o Hi) as [(_&Hd&_) Ht]. split; [done|].
  assert (is_gone (o_kind o) = false) as Hg by (by destruct (o_kind o)).
  destruct (tree_parent _ _ (sr_tree _ _ _ _ _ HS) i o Hi Hg) as [Hne _]. split; [done|].
  destruct (decide (i = root)) as [->|Hr]; [right|left; by apply (pb_parent _ _ HP i)].
  destruct (pb_root _ _ HP) as [(o'&Ho'&Hk)%knode_lookup Hp]. rewrite Hi in Ho'. injection Ho' as <-.
  unfold par_of in Hp. rewrite Hi in Hp. done.
Qed.

(** The blocks of the forest among the blocks visited. *)
Section visited.
Context (w : list Z) (Hw : walk A (slots (heap s)) 0 w).
Definition values_of : list Z := filter (λ i, is_Some (T !! i)) w.

Lemma walk_all i o : T !! i = Some o → i ∈ w.
Proof.
  intros Hi. pose proof (sr_heap _ _ _ _ _ HS) as (_&_&F&HR).
  apply (walk_elem A _ (rep_tiled _ _ _ _ HR) _ _ Hw). pose proof (sr_obj_block _ _ _ _ _ HS i o Hi) as HA.
  destruct (inv_block _ _ (sr_heap _ _ _ _ _ HS) _ _ _ HA) as (?&_). split; [by eexists|lia].
Qed.
Lemma values_elem i : i ∈ values_of ↔ is_Some (T !! i).
Proof.
  unfold values_of. rewrite list_elem_of_filter. split; [by intros [? _]|]. intros [o Ho]. split; [by eexists|by eapply walk_all].
Qed.
Lemma walk_lt : StronglySorted Z.lt w.
Proof. pose proof (sr_heap _ _ _ _ _ HS) as (_&_&F&HR). by apply (walk_sorted A _ (rep_tiled _ _ _ _ HR) _ _ Hw). Qed.
Lemma sorted_filter (P : Z → Prop) `{!∀ x, Decision (P x)} (l : list Z) :
  StronglySorted Z.lt l → StronglySorted Z.lt (filter P l).
Proof.
  induction 1 as [|x l Hl IH Hx]; [constructor|]. rewrite filter_cons. case_decide; [|done]. constructor; [done|].
  apply Forall_forall. intros y Hy. apply list_elem_of_filter in Hy as [_ Hy].
  by apply (proj1 (Forall_forall _ _) Hx).
Qed.
Lemma sorted_nodup (l : list Z) : StronglySorted Z.lt l → NoDup l.
Proof.
  induction 1 as [|x l Hl IH Hx]; constructor; [|done]. intros Hin.
  apply (proj1 (Forall_forall _ _) Hx) in Hin. lia.
Qed.
Lemma props_values p : props_in T w p = props_in T values_of p.
Proof.
  unfold props_in, values_of. clear Hw. induction w as [|i l IH]; [done|]. cbn [omap list_omap]. rewrite filter_cons.
  destruct (decide (is_Some (T !! i))) as [Hi|Hi]; [cbn [omap list_omap]; by rewrite IH|].
  rewrite <- IH. unfold value_prop at 1. by destruct (T !! i); [destruct Hi; eexists|].
Qed.
Lemma knodes_values : filter (λ i, is_knode T i = true) w = filter (λ i, is_knode T i = true) values_of.
Proof.
  unfold values_of. rewrite list_filter_filter. apply list_filter_iff. intros i.
  split; [intros Hi; split; [done|]|by intros [? _]]. apply knode_lookup in Hi as (o&Ho&_). by eexists.
Qed.
End visited.

(** * Putting the scanned nodes together *)
Section assemble.
Context (w : list Z) (Hw : walk A (slots (heap s)) 0 w) (N : nodes) (HN : recorded T w N).
Abbreviation l := (values_of w).
Abbreviation K := (filter (λ i, is_knode T i = true) (values_of w)).

Lemma K_elem i : i ∈ K ↔ is_knode T i = true.
Proof.
  rewrite list_elem_of_filter, values_elem by done. split; [by intros [? _]|]. intros Hi. split; [done|].
  apply knode_lookup in Hi as (o&Ho&_). by eexists.
Qed.
Lemma kids_same p : kids K (par_of T) p = kids_in T w p.
Proof.
  unfold kids, kids_in. rewrite <- knodes_values, list_filter_filter. apply list_filter_iff. intros i. tauto.
Qed.
Lemma N_some p : is_Some (N !! p) ↔ p ∈ K.
Proof.
  rewrite K_elem. split; [apply (rc_only _ _ _ HN)|]. intros Hp. apply (rc_all _ _ _ HN); [|done].
  apply knode_lookup in Hp as (o&Ho&_). by eapply walk_all.
Qed.
Lemma N_node p n : N !! p = Some n →
  sn_parent_index n = par_of T p ∧ child_nodes_count n = zlen (kids K (par_of T) p) ∧
  hierarchy n = Hierarchy (name_of T p) (props_in T l p) [].
Proof.
  intros Hp. pose proof (rc_node _ _ _ HN p) as Hn. unfold node_at in Hn. rewrite Hp in Hn. cbn in Hn.
  pose proof (rc_only _ _ _ HN p (mk_is_Some _ _ Hp)) as Hk.
  assert (p ∈ w) as Hpw by (apply knode_lookup in Hk as (o&Ho&_); by eapply walk_all).
  assert (p ≠ 0) as H0 by (intros ->; by rewrite zero_not_knode in Hk).
  subst n. unfold scanned. rewrite Hk, bool_decide_eq_true_2 by done. cbn [andb sn_parent_index child_nodes_count hierarchy].
  rewrite decide_False by done. by rewrite kids_same, props_values.
Qed.

(** The two parts of the map. *)
Abbreviation part b := (filter (λ x : Z * ScannedNode, is_complete x.2 = b) (in_order N)).
Lemma in_order_perm : in_order N ≡ₚ map_to_list N.
Proof. apply merge_sort_Permutation. Qed.
Lemma part_elem b p n : (p, n) ∈ part b ↔ N !! p = Some n ∧ is_complete n = b.
Proof. rewrite list_elem_of_filter, in_order_perm, elem_of_map_to_list. cbn [snd]. tauto. Qed.
Lemma part_keys b : NoDup (part b).*1.
Proof.
  apply (sublist_NoDup _ (in_order N).*1); [rewrite in_order_perm; apply NoDup_fst_map_to_list|].
  apply (fmap_sublist fst), sublist_filter.
Qed.

Lemma partial_start : partial K (name_of T) (props_in T l) (par_of T) root []
  (reverse (part true).*1) (reverse (part true).*2) (list_to_map (part false)).
Proof.
  split; cbn [app].
  - rewrite reverse_Permutation. apply part_keys.
  - intros i Hi. rewrite elem_of_reverse in Hi. apply list_elem_of_fmap in Hi as ([p n]&->&Hi).
    apply part_elem in Hi as [Hi _]. apply N_some. by eexists.
  - apply not_elem_of_nil.
  - intros p. rewrite elem_of_reverse. split.
    + intros [n Hn]. apply elem_of_list_to_map_2, part_elem in Hn as [Hn Hc]. split; [apply N_some; by eexists|].
      intros Hin. apply list_elem_of_fmap in Hin as ([q n']&->&Hin). apply part_elem in Hin as [Hn' Hc'].
      cbn [fst] in Hn. congruence.
    + intros [HpK Hnot]. apply N_some in HpK as [n Hn]. exists n. apply elem_of_list_to_map_1; [apply part_keys|].
      apply part_elem. split; [done|]. destruct (is_complete n) eqn:Hc; [|done]. exfalso. apply Hnot.
      apply list_elem_of_fmap. exists (p, n). split; [done|]. by apply part_elem.
  - rewrite <- !fmap_reverse. apply Forall2_fmap, Forall_Forall2_diag, Forall_forall. intros [p n] Hp.
    rewrite elem_of_reverse in Hp. apply part_elem in Hp as [Hn Hc]. destruct (N_node p n Hn) as (Hpar&Hcount&Hh).
    cbn [fst snd]. split; [done|]. rewrite Hh. apply (built_node _ _ _ _ p []); [|constructor].
    unfold is_complete in Hc. rewrite Hh, Hcount in Hc. apply Z.eqb_eq in Hc.
    assert (kids K (par_of T) p = []) as ->; [|done]. apply length_zero_iff_nil. unfold zlen in Hc. simpl in Hc. lia.
  - intros p n Hn. apply elem_of_list_to_map_2, part_elem in Hn as [Hn Hc]. destruct (N_node p n Hn) as (Hpar&Hcount&Hh).
    split; [done|]. split; [done|]. split; [done|]. exists [], []. split; [done|]. split; [constructor|].
    rewrite filter_none; [done|]. intros i _. apply not_elem_of_nil.
  - intros i j Hi Hj. rewrite elem_of_reverse in Hi. apply list_elem_of_fmap in Hi as ([p n]&->&Hi).
    apply part_elem in Hi as [Hn Hc]. cbn [fst] in Hj. destruct (N_node p n Hn) as (_&Hcount&Hh).
    unfold is_complete in Hc. rewrite Hh, Hcount in Hc. apply Z.eqb_eq in Hc. exfalso.
    assert (kids K (par_of T) p = []) as Hnil by (apply length_zero_iff_nil; unfold zlen in Hc; simpl in Hc; lia).
    rewrite Hnil in Hj. by apply not_elem_of_nil in Hj.
Qed.

Lemma reduce_ok : ∃ h, reduce N = Ok h ∧ shows T root h.
Proof.
  destruct (pb_rooted _ _ HP) as [depth Hdepth]. destruct (pb_root _ _ HP) as [Hrk Hrp].
  assert (StronglySorted Z.lt l) as Hsl by (apply sorted_filter, walk_lt; done).
  assert (NoDup K) as HK by (by apply NoDup_filter, sorted_nodup).
  destruct (reduce_loop_ok K (name_of T) (props_in T l) (par_of T) root HK) with
    (depth := depth) (fuel := S (length (in_order N))) (D := @nil Z) (S := reverse (part true).*1)
    (stack := reverse (part true).*2) (P := list_to_map (part false) : nodes) as (h&Hh&Hb).
  - rewrite K_elem, zero_not_knode. done.
  - by apply K_elem.
  - done.
  - intros i Hi Hr. apply K_elem, knode_lookup in Hi as (o&Ho&_). apply K_elem. unfold par_of. rewrite Ho.
    by apply (pb_parent _ _ HP i).
  - intros i Hi Hr. apply K_elem, knode_lookup in Hi as (o&Ho&_). unfold par_of. rewrite Ho. by apply Hdepth.
  - apply partial_start.
  - assert (K ≡ₚ (in_order N).*1) as Hperm.
    { apply NoDup_Permutation; [done|rewrite in_order_perm; apply NoDup_fst_map_to_list|]. intros i.
      rewrite <- N_some, in_order_perm, list_elem_of_fmap. split.
      - intros [n Hn]. exists (i, n). split; [done|]. by apply elem_of_map_to_list.
      - intros ([p n]&->&Hn). apply elem_of_map_to_list in Hn. by eexists. }
    apply Permutation_length in Hperm. rewrite length_fmap in Hperm. cbn [length]. lia.
  - exists h. split; [exact Hh|]. exists l. split; [done|]. split; [by apply values_elem|done].
Qed.
End assemble.

Lemma read_ok : fresh_tail s → ∃ h, read (snap (mem s)) = Ok h ∧ shows T root h.
Proof.
  intros HF. destruct (scan_blocks_ok s A T L g HS HL (λ i o Hi, proj1 (pb_readable _ _ HP i o Hi)) HF) as (w&Hw&Hscan).
  destruct (reduce_ok w Hw _ (recorded_fold T publishable_placed w (sorted_nodup _ (walk_lt w Hw))
    (λ i o Hi, proj1 (pb_readable _ _ HP i o Hi)))) as (h&Hh&Hshows).
  exists h. split; [|done]. unfold read. by rewrite Hscan.
Qed.
End read.

Section snapshot.
Context {B : Bitfield} {BS : BitfieldSpec B} {og : Origin}.

(** The header block alone. *)
Definition head_of (m : Mapping) : Mapping := {| mapping_bytes := take 16 (mapping_bytes m) |}.
Lemma head_words m : map_ok m → 16 ≤ zlen (mapping_bytes m) →
  map_ok (head_of m) ∧ zlen (mapping_bytes (head_of m)) = 16 ∧ in_slots (head_of m) 0 ∧
  hdr (head_of m) 0 = hdr m 0 ∧ pay (head_of m) 0 = pay m 0.
Proof.
  intros [Hb Hl] Hlen.
  assert (zlen (mapping_bytes (head_of m)) = 16) as Hz by (unfold zlen, head_of in *; cbn; rewrite length_take; lia).
  split; [split; [by apply Forall_take|rewrite Hz; lia]|]. split; [done|]. split; [unfold in_slots; rewrite Hz; lia|].
  unfold hdr, pay, head_of, slice. cbn [mapping_bytes]. split; f_equal.
  - by rewrite !drop_0, take_take.
  - change (Z.to_nat (16 * 0 + 8)) with 8%nat. change (Z.to_nat 8) with 8%nat. change 16%nat with (8 + 8)%nat.
    by rewrite <- take_drop_commute, take_take.
Qed.

Lemma find_header m (p : Z → result Error bool) b :
  map_ok m → 16 ≤ zlen (mapping_bytes m) → hdr m 0 = header_word → p 0 = Ok b →
  find_block (iter_fuel (mapping_bytes (head_of m))) p (from_bytes (mapping_bytes (head_of m)))
  = Ok (if b then Some 0 else None).
Proof.
  intros Hm Hlen Hh Hp. destruct (head_words m Hm Hlen) as (Hm'&Hz&Hs&Hhdr&_).
  destruct header_word_fields as (_&Hord&_). unfold zlen in Hz. unfold iter_fuel.
  replace (length (mapping_bytes (head_of m))) with 16%nat by lia. cbn [find_block].
  assert (next (from_bytes (mapping_bytes (head_of m)))
    = Ok (Some (0, {| offset := 16; it_container := container (snap (head_of m)) |}))) as ->.
  { unfold next, from_bytes. cbn [offset it_container slice_bytes]. unfold zlen. rewrite Hz. cbn [Z.leb Z.compare].
    rewrite (index_for_offset_ok 0) by lia. cbn [rbind].
    change {| slice_bytes := mapping_bytes (head_of m) |} with (container (snap (head_of m))).
    rewrite (order_snap (head_of m) Hm' 0 Hs). unfold bord. by rewrite Hhdr, Hh, Hord. }
  cbn [rbind]. rewrite Hp. cbn [rbind]. destruct b; [done|].
  unfold next. cbn [offset it_container container slice_bytes buffer snap]. unfold zlen. by rewrite Hz.
Qed.

Lemma unlocked_header_ok m g : map_ok m → in_slots m 0 → hdr m 0 = header_word → pay m 0 = g →
  unlocked_header (container (snap m)) 0 = Ok (Z.even g) ∧
  InspectBlock.header_generation_count (container (snap m)) 0 = Ok g.
Proof.
  intros Hm Hs Hh Hp. destruct header_word_fields as (_&_&Ht&Hmagic&Hver).
  assert (btype m 0 = Some Header) as Hbt by (unfold btype; by rewrite Hh).
  assert (pl_header_generation_count (pay m 0) = g) as Hg by (rewrite <- Hp; apply bit_range_all; by apply pay_ok).
  split.
  - unfold unlocked_header, is_header, and_then, header_magic, header_version, header_is_locked.
    rewrite (block_type_snap m Hm 0 Hs Header Hbt). cbn [rbind]. rewrite bool_decide_eq_true_2 by done.
    rewrite !(typed_header_snap m Hm 0 Header) by done. rewrite Hh, Hmagic, Hver. cbn [runwrap rbind]. rewrite !Z.eqb_refl.
    rewrite (typed_payload_snap m Hm 0 Header) by done. rewrite Hg. cbn [runwrap rbind]. f_equal.
    change 1 with (Z.ones 1) at 1. rewrite Z.land_ones by lia. change (2 ^ 1) with 2.
    rewrite Zmod_odd, <- Z.negb_odd. by destruct (Z.odd g).
  - unfold InspectBlock.header_generation_count. rewrite (typed_payload_snap m Hm 0 Header) by done. by rewrite Hg.
Qed.

Lemma snapshot_ok s A T L g : state_rep s A T L g →
  snapshot_of_bytes (mapping_bytes (mem s)) = if Z.even g then Ok (snap (mem s)) else Err CannotReadSnapshot.
Proof.
  intros HS. pose proof (sr_map _ _ _ _ _ HS) as Hm. set (m := mem s) in *.
  destruct (inv_block _ _ (sr_heap _ _ _ _ _ HS) _ _ _ (sr_header_block _ _ _ _ _ HS)) as (_&_&[_ Hlen]&_).
  fold m in Hlen. replace (16 * 0 + 16) with 16 in Hlen by lia.
  destruct (head_words m Hm Hlen) as (Hm'&Hz&Hs&Hhdr&Hpay).
  destruct (unlocked_header_ok (head_of m) g Hm' Hs) as [Hun Hgen].
  { rewrite Hhdr. apply (sr_header_word _ _ _ _ _ HS). }
  { rewrite Hpay. apply (sr_gen _ _ _ _ _ HS). }
  unfold snapshot_of_bytes, first16. by_ltb. cbn [rbind]. change (take 16 (mapping_bytes m)) with (mapping_bytes (head_of m)).
  unfold bytes_generation_count. rewrite Hz. cbn [Z.ltb Z.compare Pos.compare Pos.compare_cont].
  change {| slice_bytes := mapping_bytes (head_of m) |} with (container (snap (head_of m))).
  rewrite (find_header m _ (Z.even g)); [|done|done|apply (sr_header_word _ _ _ _ _ HS)|exact Hun].
  cbn [rbind]. destruct (Z.even g); [|done]. rewrite Hgen. done.
Qed.
End snapshot.

Section claims.
Context {B : Bitfield} {BS : BitfieldSpec B} {og : Origin}.

(** C8: A snapshot of the memory of a [State] whose forest is [publishable] (one node at the
    top, every other value under a node and below the root, no tombstone, no property that
    lost its value, names in UTF-8) reads back as that forest: every name, metric, property
    and array, under its node.  The blocks leaked, if any, must be extents, and the
    slots the heap has not grown to must be zeroes, as they are in a new VMO.  Whatever the
    forest, a memory that is locked for writing is refused. *)
Theorem inspect_read_back (s : State) (A : blocks) (T : tree) (L : gset Z) (g root : Z) :
  state_rep s A T L g →
  (Z.even g = true → publishable T root → leaks_ok A L → fresh_tail s → ∃ snapshot h,
     snapshot_of_bytes (mapping_bytes (mapping (heap s))) = Ok snapshot ∧ read snapshot = Ok h ∧ shows T root h) ∧
  (Z.even g = false → snapshot_of_bytes (mapping_bytes (mapping (heap s))) = Err CannotReadSnapshot).
Proof.
  intros HS. pose proof (snapshot_ok s A T L g HS) as Hsnap. split; intros Hg; rewrite Hg in Hsnap; [|done].
  intros HP HL HF. destruct (read_ok s A T L g HS root HP HL HF) as (h&Hh&Hshows). by exists (snap (mem s)), h.
Qed.
End claims.

(** * Clients *)
Section clients.
Context {B : Bitfield} {BS : BitfieldSpec B}.

(** A new VMO. *)
Definition new_vmo (size : Z) : Mapping := {| mapping_bytes := zeros size |}.
Lemma new_vmo_ok size : 0 ≤ size ≤ 2 ^ 32 → map_ok (new_vmo size) ∧ mapping_len (new_vmo size) = size.
Proof.
  intros Hs. assert (zlen (zeros size) = size) as Hz by (unfold zlen, zeros; rewrite length_replicate; lia).
  split; [split; [by apply Forall_replicate|cbn [mapping_bytes new_vmo]; lia]|done].
Qed.
Lemma zeros_slice off len size : from_le_bytes (slice off len (zeros size)) = 0.
Proof.
  unfold slice, zeros. rewrite drop_replicate, take_replicate.
  generalize (Z.to_nat len `min` (Z.to_nat size - Z.to_nat off))%nat. intros n.
  induction n as [|n IH]; [done|]. unfold from_le_bytes in *. cbn [replicate little_endian_to_Z]. by rewrite IH.
Qed.
Lemma new_vmo_fresh s A T L g size : state_rep (og := new_vmo size) s A T L g → fresh_tail s.
Proof.
  intros HS x Hx _. unfold hdr. rewrite (sr_tail _ _ _ _ _ HS) by lia. apply zeros_slice.
Qed.

(** The client deletes properties with [free_property], which frees their extents too. *)
Definition tidy (cl : client) : Prop :=
  ∀ hist T L i o, spec_run cl hist T L → cl hist = Some (OFree i) → T !! i = Some o → o_extents o = [].

(** Then only a heap that is full makes operations leak. *)
Lemma post_no_leak T L op r T' L' : post T L op r T' L' → r ≠ Err HeapAtMaximumSize →
  (∀ i o, op = OFree i → T !! i = Some o → o_extents o = []) → L' = L.
Proof.
  intros Hp Hr Hf. destruct op; cbn [post] in Hp; try tauto.
  - destruct Hp as (r0&->&Hc). destruct r0 as [b|e| |]; simpl in Hc; try done; [by destruct Hc|].
    destruct Hc as [[_ ?]|[-> _]]; [done|]. by destruct Hr.
  - destruct Hp as (f&old&x&r0&_&->&Hq). destruct r0 as [u|e| |]; simpl in Hq; try done; [by destruct Hq|].
    destruct Hq as [-> _]. by destruct Hr.
  - destruct Hp as (_&x&Hx&_&->). rewrite (Hf i x eq_refl Hx). cbn. by rewrite union_empty_r_L.
Qed.
Lemma tidy_no_leak cl hist T L :
  tidy cl → spec_run cl hist T L → Err HeapAtMaximumSize ∉ hist → L = ∅.
Proof.
  intros Ht Hr. induction Hr as [|hist T L op r T' L' Hr IH Hop _ Hpost]; intros Hno; [done|].
  rewrite elem_of_app, list_elem_of_singleton in Hno. rewrite <- IH by tauto.
  eapply post_no_leak; [exact Hpost|intros ->; tauto|]. intros i o -> Hi. by eapply Ht.
Qed.

(** C7: End to end: what a client of [State] writes on a new VMO is what another process
    reads.  The client keeps to the preconditions of the operations and deletes properties with
    [free_property]; no operation reported a full heap; and the forest it ends with
    is [publishable]: one node at the top, every other value under a node and below the root, no
    tombstone, names in UTF-8.  Then a snapshot is taken and read, and shows that forest. *)
Theorem inspect_client_visible (size : Z) (cl : client) (n : nat) :
  (4096 | size) → 4096 ≤ size ≤ 2 ^ 32 → disciplined cl → Z.of_nat n ≤ 2 ^ 31 →
  ∃ s0 h0, create (snd (new_heap (new_vmo size))) = (Ok s0, h0) ∧
  ∃ hist s T L, run_client n cl [] s0 = Some (hist, s) ∧ spec_run cl hist T L ∧
    ∀ root, publishable T root → tidy cl → Err HeapAtMaximumSize ∉ hist → ∃ snapshot h,
      snapshot_of_bytes (mapping_bytes (mapping (heap s))) = Ok snapshot ∧ read snapshot = Ok h ∧ shows T root h.
Proof.
  intros Hd Hl Hcl Hn. destruct (new_vmo_ok size) as [Hm Hz]; [lia|]. rewrite <- Hz in Hd, Hl.
  destruct (client_run_rep _ cl n Hm Hd Hl Hcl Hn) as (s0&h0&E&hist&s&A&T&L&g&R&HR&HS&Hg).
  exists s0, h0. split; [done|]. exists hist, s, T, L. split; [done|]. split; [done|]. intros root HP Ht Hno.
  pose proof (tidy_no_leak cl hist T L Ht HR Hno) as ->.
  assert (leaks_ok A ∅) as HL by (intros b k t Hb; by apply not_elem_of_empty in Hb).
  destruct (read_ok s A T ∅ g HS root HP HL (new_vmo_fresh _ _ _ _ _ _ HS)) as (h&Hh&Hshows).
  pose proof (snapshot_ok s A T ∅ g HS) as Hsnap. rewrite Hg in Hsnap. by exists (snap (mem s)), h.
Qed.
End clients.

(** * Witnesses: a node with a number in it, on one page *)
Definition demo_state : State := snd (create_metric (T := int_metric) [98] 5 1 (snd (create_node [97] 0 page_s))).

Lemma demo_tree_ok kn nn km nm : publishable
  (<[3 := new_obj (KInt 5) km [98] nm 1]> (<[1 := new_obj KNode kn [97] nn 0]> ∅)) 1.
Proof.
  assert (∀ i o, <[3 := new_obj (KInt 5) km [98] nm 1]> (<[1 := new_obj KNode kn [97] nn 0]> ∅ : tree) !! i = Some o →
    i = 3 ∧ o = new_obj (KInt 5) km [98] nm 1 ∨ i = 1 ∧ o = new_obj KNode kn [97] nn 0) as Hcases.
  { intros i o. rewrite !lookup_insert_Some, lookup_empty. naive_solver. }
  split.
  - done.
  - intros i o [[-> ->]|[-> ->]]%Hcases; done.
  - intros i o [[-> ->]|[-> ->]]%Hcases; done.
  - exists Z.to_nat. intros i o [[-> ->]|[-> ->]]%Hcases Hne; [cbn; lia|done].
Qed.
Lemma demo_domain kn nn km nm (x : Z) :
  is_Some ((<[3 := new_obj (KInt 5) km [98] nm 1]> (<[1 := new_obj KNode kn [97] nn 0]> ∅) : tree) !! x) ↔ x = 1 ∨ x = 3.
Proof. rewrite !lookup_insert_is_Some', lookup_empty. split; [intros [->|[->|[? [=]]]]; auto|intros [->| ->]; auto]. Qed.
Lemma sorted_le (l : list Z) : StronglySorted Z.lt l → StronglySorted Z.le l.
Proof.
  induction 1 as [|x l Hl IH Hx]; constructor; [done|]. apply (Forall_impl _ _ _ Hx). intros y ?. by apply Z.lt_le_incl.
Qed.
Lemma demo_rep : ∃ A kn nn km nm, state_rep demo_state A
  (<[3 := new_obj (KInt 5) km [98] nm 1]> (<[1 := new_obj KNode kn [97] nn 0]> ∅)) ∅ 4.
Proof.
  destruct page_node as (A&kn&nn&HS).
  destruct (create_metric_spec NInt _ A _ ∅ 2 [98] 5 1 HS eq_refl ltac:(by repeat constructor)
    ltac:(right; by eexists) (lost_ok_one _ _ _ _ _ _) eq_refl) as (r&s'&A'&T'&E&HS'&HQ).
  assert (fst (create_metric (T := int_metric) [98] 5 1 (snd (create_node [97] 0 page_s))) = Ok 3) as Hr
    by (vm_compute; reflexivity).
  cbn [metric_of] in E. unfold demo_state. rewrite E in Hr |- *. cbn [fst snd] in Hr |- *. subst r.
  destruct HQ as (_&_&kd&km&nm&<-&->&_). exists A', kn, nn, km, nm. exact HS'.
Qed.
Lemma demo_fresh : fresh_tail demo_state.
Proof.
  intros x Hx Hlen. exfalso. assert (slots (heap demo_state) = 256) as Hs by (vm_compute; reflexivity).
  assert (zlen (mapping_bytes (mem demo_state)) = 4096) as Hz by (vm_compute; reflexivity). lia.
Qed.

Lemma demo_tidy : tidy demo_client.
Proof. intros hist T L i o _ Hop. by destruct hist as [|[[j|]| | |] [|]]. Qed.

Lemma spec_run_last (cl : client) (hist : list (result Error (option Z))) r T' L' : spec_run cl (hist ++ [r]) T' L' →
  ∃ T L op, spec_run cl hist T L ∧ cl hist = Some op ∧ post T L op r T' L'.
Proof.
  intros H. inversion H as [Heq|hist0 T L op r0 T1 L1 Hr Hop Hpre Hpost Heq]; [by destruct hist|].
  apply app_inj_tail in Heq as [-> ->]. by exists T, L, op.
Qed.
Lemma demo_forest T L : spec_run demo_client [Ok (Some 1); Ok (Some 3)] T L → L = ∅ ∧
  ∃ kn nn km nm, T = <[3 := new_obj (KInt 5) km [98] nm 1]> (<[1 := new_obj KNode kn [97] nn 0]> ∅).
Proof.
  intros (T1&L1&op1&(T0&L0&op0&H0&E0&P0)%(spec_run_last demo_client [])&E1&P1)%(spec_run_last demo_client [Ok (Some 1)]).
  inversion H0 as [HT HL|hist ? ? ? ? ? ? ? ? ? ? Heq]; [|by destruct hist]. subst T0 L0.
  cbn in E0, E1. simplify_eq. destruct P0 as (->&[i|e| |]&Hi&P0), P1 as (->&[j|e'| |]&Hj&P1); simplify_eq/=.
  destruct P0 as (_&_&?&kn&nn&<-&->&_), P1 as (_&_&?&km&nm&<-&->&_). split; [done|]. by exists kn, nn, km, nm.
Qed.

Lemma ok_inj {E A} (a b : A) : @Ok E A a = Ok b → a = b.
Proof. by intros [= ->]. Qed.
Lemma some_pair_inj {A B} (a a' : A) (b b' : B) : Some (a, b) = Some (a', b') → a = a' ∧ b = b'.
Proof. by intros [= -> ->]. Qed.
Lemma demo_shows kn nn km nm h :
  shows (<[3 := new_obj (KInt 5) km [98] nm 1]> (<[1 := new_obj KNode kn [97] nn 0]> ∅)) 1 h →
  h_name h = [97] ∧ h_properties h = [PInt [98] 5].
Proof.
  intros (l&Hsort&Hl&Hb).
  assert (l = [1; 3]) as ->.
  { apply (StronglySorted_unique Z.le).
    - by apply sorted_le.
    - by repeat constructor.
    - apply NoDup_Permutation; [by apply sorted_nodup|by apply (bool_decide_unpack _)|].
      intros x. rewrite Hl, demo_domain. clear. set_solver. }
  inversion Hb as [i ks hs _ _ Hi Hh]. split; vm_compute; reflexivity.
Qed.

Lemma inspect_read_back_witness : ∃ snapshot h,
  snapshot_of_bytes (mapping_bytes (mapping (heap demo_state))) = Ok snapshot ∧ read snapshot = Ok h ∧
  h_name h = [97] ∧ h_properties h = [PInt [98] 5].
Proof.
  destruct demo_rep as (A&kn&nn&km&nm&HS).
  destruct (proj1 (inspect_read_back demo_state A _ ∅ 4 1 HS) eq_refl (demo_tree_ok _ _ _ _)
    ltac:(intros b k t Hb; by apply not_elem_of_empty in Hb) demo_fresh) as (snapshot&h&Hs&Hr&Hshows).
  exists snapshot, h. split; [exact Hs|]. split; [exact Hr|].
  exact (demo_shows _ _ _ _ h Hshows).
Defined.

Lemma inspect_client_visible_witness : ∃ hist s snapshot h,
  run_client 5 demo_client [] page_s = Some (hist, s) ∧
  snapshot_of_bytes (mapping_bytes (mapping (heap s))) = Ok snapshot ∧ read snapshot = Ok h ∧ h_name h = [97].
Proof.
  destruct page_ok as (_&H2&H3).
  destruct (inspect_client_visible 4096 demo_client 5 H2 H3 demo_disciplined ltac:(lia))
    as (s0&h0&E&hist&s&T&L&R&HR&Hread).
  assert (fst (create (snd (new_heap page))) = Ok page_s) as Hs0 by (vm_compute; reflexivity).
  change (new_vmo 4096) with page in E. rewrite E in Hs0. apply ok_inj in Hs0. subst s0.
  assert (run_client 5 demo_client [] page_s = Some ([Ok (Some 1); Ok (Some 3)], demo_state)) as Hrun
    by (vm_compute; reflexivity).
  rewrite R in Hrun. apply some_pair_inj in Hrun as [Eh Es]. subst hist s.
  destruct (demo_forest T L HR) as [-> (kn&nn&km&nm&->)].
  destruct (Hread 1 (demo_tree_ok _ _ _ _) demo_tidy ltac:(clear; set_solver)) as (snapshot&h&Hs&Hr&Hshows).
  exists [Ok (Some 1); Ok (Some 3)], demo_state, snapshot, h. split; [exact R|]. split; [exact Hs|]. split; [exact Hr|].
  exact (proj1 (demo_shows _ _ _ _ h Hshows)).
Defined.

(** A node whose parent was deleted first: the reader gives the place of the deleted
    node as the top of the hierarchy, and the root and all it holds are missed. *)
Definition orphan_state : result Error State :=
  let '(r, s) := (root <- create_node [97] 0 ;; n <- create_node [98] root ;; create_node [99] n ;;; free_value n) page_s in
  r ;?; Ok s.

Example orphan_read :
  (s <-? orphan_state ;; snapshot <-? snapshot_of_bytes (mapping_bytes (mem s)) ;; read snapshot) =
    Ok (Hierarchy [] [] [Hierarchy [99] [] []]).
Proof. vm_compute. reflexivity. Qed.
