(* ===== verification/ReaderEnds.v ===== *)
(** Reading any bytes ends: [reader/mod.rs] and [reader/snapshot.rs] on memory that
    was not written by a [State]. *)

From stdpp Require Import sorting.
From S2P Require Import Prelude SharedBuffer Float64 InspectFormat InspectBlock InspectReader.

Definition ends {E A : Type} (r : result E A) : Prop := r ≠ OutOfFuel.

Create HintDb ends.

Section outcomes.
Context {E A B : Type}.
Lemma rbind_ends (r : result E A) (k : A → result E B) :
  ends r → (∀ x, r = Ok x → ends (k x)) → ends (x <-? r ;; k x).
Proof. unfold ends. destruct r as [x|e| |]; cbn; try done. intros _ Hk. by apply Hk. Qed.
Lemma runwrap_ends (r : result E A) : ends r → ends (runwrap r).
Proof. by destruct r. Qed.
Lemma ounwrap_ends (o : option A) : ends (@ounwrap E A o).
Proof. by destruct o. Qed.
Lemma if_ends (b : bool) (r r' : result E A) : ends r → ends r' → ends (if b then r else r').
Proof. by destruct b. Qed.
Lemma decide_ends (P : Prop) `{!Decision P} (r r' : result E A) : ends r → ends r' → ends (if decide P then r else r').
Proof. by destruct (decide P). Qed.
Lemma seq_ends {S} (m : M E S A) (k : A → M E S B) s :
  ends (fst (m s)) → (∀ x s', m s = (Ok x, s') → ends (fst (k x s'))) → ends (fst ((x <- m ;; k x) s)).
Proof. apply bind_ends. Qed.
Lemma lift_ends {S} (r : result E A) (s : S) : ends r → ends (fst (lift r s)).
Proof. done. Qed.
End outcomes.
Lemma uadd_ends {E} w a b : ends (@uadd E w a b).
Proof. unfold uadd. by apply if_ends. Qed.
Lemma ok_ends {E A} (x : A) : ends (@Ok E A x).
Proof. done. Qed.
Lemma err_ends {E A} (e : E) : ends (@Err E A e).
Proof. done. Qed.
#[export] Hint Resolve ok_ends err_ends runwrap_ends ounwrap_ends uadd_ends lift_ends if_ends decide_ends : ends.

(** Sequences end when their commands do. *)
Ltac ends := repeat first
  [ apply rbind_ends; [|intros ? ?] | progress intros | done | apply seq_ends; [|intros ? ? _]
  | solve [auto with ends] | apply runwrap_ends | apply lift_ends | apply if_ends | apply decide_ends ].

(** * Blocks *)
Section blocks.
Context {B : Bitfield} (c : Slice).

Lemma read_bytes_ends off bs : ends (read_bytes c off bs).
Proof. unfold read_bytes, slice_container. ends. Qed.
Hint Resolve read_bytes_ends : ends.
Lemma read_header_ends b : ends (read_header c b).
Proof. unfold read_header. ends. Qed.
Lemma read_payload_ends b : ends (read_payload c b).
Proof. unfold read_payload. ends. Qed.
Hint Resolve read_header_ends read_payload_ends : ends.
Lemma order_ends b : ends (order c b).
Proof. unfold order. ends. Qed.
Lemma block_type_ends b : ends (block_type c b).
Proof. unfold block_type. ends. Qed.
Hint Resolve order_ends block_type_ends : ends.
Lemma check_type_ends b t : ends (check_type c b t).
Proof. unfold check_type. ends. Qed.
Lemma check_any_value_ends b : ends (check_any_value c b).
Proof. unfold check_any_value. ends. Qed.
Hint Resolve check_type_ends check_any_value_ends : ends.
Lemma name_contents_ends b : ends (name_contents c b).
Proof. unfold name_contents, name_length. ends. Qed.
Lemma array_get_slot_ends t b i : ends (array_get_slot t c b i).
Proof. unfold array_get_slot, check_array_entry_type, array_entry_type, slot_offset. ends. Qed.
Lemma collect_slots_ends (get : Z → result Error Z) n i : (∀ j, ends (get j)) → ends (collect_slots get n i).
Proof. intros Hg. revert i. induction n as [|n IH]; intros i; cbn [collect_slots]; ends. Qed.
End blocks.
#[export] Hint Resolve read_bytes_ends read_header_ends read_payload_ends order_ends block_type_ends check_type_ends
  check_any_value_ends name_contents_ends array_get_slot_ends collect_slots_ends : ends.

(** * Blocks are at least sixteen bytes *)
Section sizes.
Context {B : Bitfield} {BS : BitfieldSpec B} (c : Slice) (Hc : bytes_ok (slice_bytes c)).

Lemma read_bytes_inv off bs r : 0 ≤ off → bytes_ok bs → read_bytes c off bs = Ok r →
  length (fst r) = length bs ∧ bytes_ok (fst r).
Proof.
  intros Ho Hb. unfold read_bytes, slice_container. destruct (Z.leb_spec (zlen (slice_bytes c)) off) as [|Hlt]; intros [= <-]; [done|].
  cbn [fst]. split.
  - unfold slice, zlen in *. rewrite length_app, length_take, !length_drop. lia.
  - apply Forall_app. split; [|by apply Forall_drop]. by apply Forall_take, Forall_drop.
Qed.
Lemma zero_bytes n : bytes_ok (zeros n).
Proof. apply Forall_replicate. done. Qed.
Lemma word_inv off r : 0 ≤ off → read_bytes c off (zeros 8) = Ok r → u64_ok (from_le_bytes (fst r)).
Proof.
  intros Ho [Hl Hb]%read_bytes_inv; [|done|apply zero_bytes]. pose proof (from_le_bytes_bound _ Hb) as H.
  unfold zlen in H. rewrite Hl in H. exact H.
Qed.
Lemma header_inv b h : 0 ≤ b → read_header c b = Ok h → u64_ok h.
Proof. intros Hb (r&Hr&[= <-])%rbind_ok_inv. apply word_inv in Hr; [done|]. unfold header_offset, offset_for_index. change MIN_ORDER_SIZE with 16. lia. Qed.
Lemma payload_inv b p : 0 ≤ b → read_payload c b = Ok p → u64_ok p.
Proof.
  intros Hb (r&Hr&[= <-])%rbind_ok_inv. apply word_inv in Hr; [done|].
  unfold payload_offset, offset_for_index. change MIN_ORDER_SIZE with 16. change HEADER_SIZE_BYTES with 8. lia.
Qed.
Lemma order_size b k : 0 ≤ b → order c b = Ok k → 16 ≤ order_to_size k.
Proof.
  intros Hb (h&Hh%header_inv&[= <-])%rbind_ok_inv; [|done]. pose proof (hdr_order_bound h Hh).
  rewrite order_to_size_eq by lia. pose proof (Z.pow_pos_nonneg 2 (hdr_order h)). lia.
Qed.
Lemma contents_inv b bs : 0 ≤ b → extent_contents c b = Ok bs → 8 ≤ zlen bs.
Proof.
  intros Hb (u&_&(k&Hk%order_size&(r&Hr&[= <-])%rbind_ok_inv)%rbind_ok_inv)%rbind_ok_inv; [|done].
  apply read_bytes_inv in Hr as [Hl _]; [| |apply zero_bytes].
  - unfold zlen, zeros, payload_size_for_order, HEADER_SIZE_BYTES in *. rewrite Hl, length_replicate. lia.
  - unfold payload_offset, offset_for_index. change MIN_ORDER_SIZE with 16. change HEADER_SIZE_BYTES with 8. lia.
Qed.
Lemma next_extent_inv b i : 0 ≤ b → next_extent c b = Ok i → 0 ≤ i.
Proof.
  intros Hb (u&_&(h&Hh%header_inv&[= <-])%rbind_ok_inv)%rbind_ok_inv; [|done]. by apply bit_range_nonneg.
Qed.
Lemma extent_index_inv b i : 0 ≤ b → property_extent_index c b = Ok i → 0 ≤ i.
Proof.
  intros Hb (u&_&(h&Hh%payload_inv&[= <-])%rbind_ok_inv)%rbind_ok_inv; [|done]. by apply bit_range_nonneg.
Qed.

(** * The iterator of blocks *)
Definition left_ (it : BlockIterator) : Z := zlen (slice_bytes (it_container it)) - offset it.

Lemma next_ends it : ends (next it).
Proof. unfold next, index_for_offset. ends. Qed.
Lemma next_inv it b it' : it_container it = c → 0 ≤ offset it → next it = Ok (Some (b, it')) →
  0 ≤ b ∧ it_container it' = c ∧ 0 ≤ offset it' ∧ left_ it' < left_ it ∧ 0 < left_ it.
Proof.
  intros Hit Ho. unfold next, left_. rewrite Hit. destruct (Z.leb_spec (zlen (slice_bytes c)) (offset it)); [done|].
  intros (i&Hi&(k&Hk&Hr)%rbind_ok_inv)%rbind_ok_inv.
  unfold index_for_offset in Hi. destruct (_ <? _); [|done]. injection Hi as <-.
  assert (0 ≤ offset it / MIN_ORDER_SIZE) as Hi by (apply Z.div_pos; [done|by change MIN_ORDER_SIZE with 16]).
  pose proof (order_size _ _ Hi Hk). destruct (_ <? _); [done|]. injection Hr as <- <-. cbn.
  split_and!; [done..|lia|lia|lia].
Qed.
Lemma for_blocks_ends {S} (body : Z → M Error S unit) fuel it s :
  it_container it = c → 0 ≤ offset it → left_ it < Z.of_nat fuel → (1 ≤ fuel)%nat →
  (∀ b s', 0 ≤ b → ends (fst (body b s'))) → ends (fst (for_blocks fuel body it s)).
Proof.
  intros Hit Ho Hf H1 Hb. revert it s Hit Ho Hf H1. induction fuel as [|fuel IH]; intros it s Hit Ho Hf H1; [lia|].
  cbn [for_blocks]. apply seq_ends; [apply next_ends|]. intros [[b it']|] s' E; [|done].
  injection E as E _. destruct (next_inv it b it' Hit Ho E) as (?&?&?&?&?).
  apply seq_ends; [by apply Hb|]. intros _ s2 _. apply IH; [done..|lia|lia].
Qed.
Lemma find_block_ends p fuel it :
  it_container it = c → 0 ≤ offset it → left_ it < Z.of_nat fuel → (1 ≤ fuel)%nat →
  (∀ b, ends (p b)) → ends (find_block fuel p it).
Proof.
  intros Hit Ho Hf H1 Hp. revert it Hit Ho Hf H1. induction fuel as [|fuel IH]; intros it Hit Ho Hf H1; [lia|].
  cbn [find_block]. apply rbind_ends; [apply next_ends|]. intros [[b it']|] E; [|done].
  destruct (next_inv it b it' Hit Ho E) as (?&?&?&?&?).
  apply rbind_ends; [by apply Hp|]. intros [] _; [done|]. apply IH; [done..|lia|lia].
Qed.
End sizes.

(** * Snapshots *)
Section snapshots.
Context {B : Bitfield} {BS : BitfieldSpec B}.

Lemma and_then_ends a b : ends a → ends b → ends (and_then a b).
Proof. intros. unfold and_then. apply rbind_ends; [done|]. by intros [] _. Qed.
Lemma is_header_ends c b : ends (is_header c b).
Proof. unfold is_header, header_magic, header_version. repeat apply and_then_ends; ends. Qed.
Hint Resolve and_then_ends is_header_ends : ends.

(** A search of a header in bytes read from the memory. *)
Lemma find_ends (p : Z → result Error bool) (bytes : list Z) :
  bytes_ok bytes → (∀ b, ends (p b)) → ends (find_block (iter_fuel bytes) p (from_bytes bytes)).
Proof.
  intros Hb Hp. apply (find_block_ends {| slice_bytes := bytes |}); try done; unfold iter_fuel, left_, zlen; cbn; lia.
Qed.
Lemma generation_ends bytes : bytes_ok bytes → ends (bytes_generation_count bytes).
Proof.
  intros Hb. unfold bytes_generation_count. apply if_ends; [done|]. apply rbind_ends.
  - apply find_ends; [done|]. intros b. unfold unlocked_header, header_is_locked. apply and_then_ends; ends.
  - intros [b|] _; [|done]. assert (ends (InspectBlock.header_generation_count {| slice_bytes := bytes |} b)) as H
      by (unfold InspectBlock.header_generation_count; ends).
    by destruct (InspectBlock.header_generation_count _ b).
Qed.
Lemma snapshot_ends bytes : bytes_ok bytes → ends (snapshot_of_bytes bytes).
Proof.
  intros Hb. unfold snapshot_of_bytes, first16. destruct (_ <? _); [done|]. cbn [rbind].
  apply rbind_ends; [by apply generation_ends, Forall_take|]. by intros [] _.
Qed.

Section scanning.
Context (s : Snapshot) (Hs : bytes_ok (buffer s)).

Lemma block_name_ends b : ends (block_name s b).
Proof.
  unfold block_name, name_index. apply rbind_ends; [ends|]. intros i _. apply rbind_ends; [|by intros [] _]. unfold get_name.
  destruct (snapshot_get_block s _) as [n|]; [|done]. pose proof (name_contents_ends (container s) n) as H.
  by destruct (name_contents _ n).
Qed.
Lemma parent_index_ends b : ends (parent_index (container s) b).
Proof. unfold parent_index. ends. Qed.
Lemma on_node_ends f i N : ends (fst (on_node f i N)).
Proof. done. Qed.
Hint Resolve block_name_ends parent_index_ends on_node_ends : ends.

Lemma extents_ends fuel total i off bs : 0 ≤ i → 0 ≤ off → total < off + Z.of_nat fuel → (1 ≤ fuel)%nat →
  ends (extents_loop s fuel total i off bs).
Proof.
  revert i off bs. induction fuel as [|fuel IH]; intros i off bs Hi Ho Hf H1; [lia|]. cbn [extents_loop].
  destruct (negb (i =? 0)); [|done]. destruct (Z.ltb_spec off total) as [Hlt|]; [|done]. cbn [andb].
  unfold snapshot_get_block. destruct (_ <? _); [|done].
  apply rbind_ends; [unfold extent_contents; ends|]. intros content Hc%contents_inv; [|done..].
  apply rbind_ends; [unfold next_extent; ends|]. intros n Hn%next_extent_inv; [|done..].
  apply IH; [done|lia|lia|lia].
Qed.
Lemma parse_property_ends b N : 0 ≤ b → ends (fst (parse_property s b N)).
Proof.
  intros Hb. unfold parse_property. do 3 (apply seq_ends; [auto with ends|intros ? ? _]).
  apply seq_ends; [unfold property_total_length, lift; cbn [fst]; ends|]. intros total N1 [= Ht _].
  apply seq_ends; [unfold property_extent_index, lift; cbn [fst]; ends|]. intros i N2 [= Hi _].
  apply seq_ends.
  { apply lift_ends, extents_ends; [by eapply (extent_index_inv (container s) Hs b)|lia|lia|lia]. }
  intros bs N3 _. apply seq_ends; [unfold property_format, lift; cbn [fst]; ends|]. by intros [] N4 _.
Qed.
Hint Resolve parse_property_ends : ends.
Lemma parse_node_ends b N : ends (fst (parse_node s b N)).
Proof.
  unfold parse_node. do 3 (apply seq_ends; [auto with ends|intros ? ? _]). by destruct (_ && _).
Qed.
Lemma parse_numeric_ends b N : ends (fst (parse_numeric_property s b N)).
Proof.
  unfold parse_numeric_property. do 4 (apply seq_ends; [auto with ends|intros ? ? _]).
  match goal with |- context [match ?t with _ => _ end] => destruct t end; try done.
  all: apply seq_ends; [unfold int_value, uint_value, double_value; ends|done].
Qed.
Lemma parse_array_ends b N : ends (fst (parse_array_property s b N)).
Proof.
  unfold parse_array_property. do 3 (apply seq_ends; [auto with ends|intros ? ? _]).
  apply seq_ends; [unfold array_slots; ends|intros n N1 _]. apply seq_ends; [auto with ends|intros k N2 _].
  destruct (_ <? _); [done|]. apply seq_ends; [unfold array_entry_type; ends|intros t N3 _].
  destruct t; try done.
  all: apply seq_ends; [apply lift_ends, collect_slots_ends; intros j;
    unfold array_get_int_slot, array_get_uint_slot, array_get_double_slot; ends|].
  all: intros vs N4 _; apply seq_ends; [unfold array_format; ends|done].
Qed.
Lemma scan_block_ends b N : 0 ≤ b → ends (fst (scan_block s b N)).
Proof.
  intros Hb. unfold scan_block. apply seq_ends; [auto with ends|]. intros t N1 _. destruct (_ && _); [done|].
  destruct t; first [done|apply parse_node_ends|apply parse_numeric_ends|apply parse_array_ends|by apply parse_property_ends].
Qed.
Lemma scan_blocks_ends : ends (scan_blocks s).
Proof.
  unfold scan_blocks. destruct (scan s (scan_block s) ∅) as [r N] eqn:E. apply rbind_ends; [|done].
  change r with (fst (r, N)). rewrite <- E. unfold scan.
  apply (for_blocks_ends (container s) Hs); try done; unfold iter_fuel, left_, zlen; cbn; [lia|lia|].
  intros b N' Hb. by apply scan_block_ends.
Qed.
End scanning.

(** Every turn takes a node off the stack, and a node on it leaves the map. *)
Lemma reduce_loop_ends fuel stack (P : nodes) : (length stack + size P < fuel)%nat → ends (reduce_loop fuel stack P).
Proof.
  revert stack P. induction fuel as [|fuel IH]; intros stack P Hf; [lia|]. cbn [reduce_loop].
  destruct stack as [|n stack]; [done|]. destruct (_ =? 0); [done|].
  destruct (P !! sn_parent_index n) as [p|] eqn:Hp; [|done]. cbn [length] in Hf.
  assert (size P ≠ 0%nat) as Hne by (apply map_size_ne_0_lookup; eauto).
  destruct (is_complete _); apply IH; cbn [length].
  - rewrite map_size_delete_Some by eauto. lia.
  - rewrite map_size_insert_Some by eauto. lia.
Qed.
Lemma reduce_ends N : ends (reduce N).
Proof.
  unfold reduce. apply reduce_loop_ends. rewrite length_reverse, length_fmap.
  set (l := in_order N). assert (∀ l' : list (Z * ScannedNode), (size (list_to_map l' : nodes) ≤ length l')%nat) as Hsize.
  { induction l' as [|[i n] l' IH]; [done|]. cbn. destruct ((list_to_map l' : nodes) !! i) eqn:E.
    - rewrite map_size_insert_Some by eauto. lia.
    - rewrite map_size_insert_None by done. lia. }
  pose proof (Hsize (filter (λ x, is_complete x.2 = false) l)) as H1.
  assert (length (filter (λ x, is_complete x.2 = true) l) + length (filter (λ x, is_complete x.2 = false) l) = length l)%nat as H2.
  { clear. induction l as [|x l IH]; [done|]. rewrite !filter_cons. destruct (is_complete x.2) eqn:E; repeat case_decide; cbn; try congruence; lia. }
  lia.
Qed.

(** C27: Taking a snapshot of any memory and reading it ends, whatever its blocks, links
    and lengths are. *)
Theorem inspect_read_ends (bytes : list Z) : bytes_ok bytes →
  snapshot_of_bytes bytes ≠ OutOfFuel ∧ read {| buffer := bytes |} ≠ OutOfFuel.
Proof.
  intros Hb. split; [by apply snapshot_ends|]. apply rbind_ends; [by apply scan_blocks_ends|]. intros N _. apply reduce_ends.
Qed.
End snapshots.

(** A memory with an extent that is its own successor, in a property of 20 bytes. *)
Definition block_bytes (header payload : Z) : list Z := to_le_bytes 8 header ++ to_le_bytes 8 payload.
Definition typed (t : BlockType) : Z := set_hdr_block_type 0 (to_u8 t).
Definition looping_extent : list Z :=
  block_bytes (set_hdr_header_version (set_hdr_header_magic (typed Header) HEADER_MAGIC_NUMBER) HEADER_VERSION_NUMBER) 0 ++
  block_bytes (set_hdr_value_name_index (typed PropertyValue) 2)
    (set_pl_property_flags (set_pl_property_extent_index (set_pl_property_total_length 0 20) 3) 1) ++
  block_bytes (set_hdr_name_length (typed Name) 1) 97 ++
  block_bytes (set_hdr_extent_next_index (typed Extent) 3) 0x0807060504030201.

Example looping_extent_read : snapshot_of_bytes looping_extent = Ok {| buffer := looping_extent |} ∧
  read {| buffer := looping_extent |} =
    Ok (Hierarchy [] [PBytes [97] [1; 2; 3; 4; 5; 6; 7; 8; 1; 2; 3; 4; 5; 6; 7; 8; 1; 2; 3; 4]] []).
Proof. split; vm_compute; reflexivity. Qed.

Lemma inspect_read_ends_witness :
  snapshot_of_bytes looping_extent ≠ OutOfFuel ∧ read {| buffer := looping_extent |} ≠ OutOfFuel.
Proof. apply (inspect_read_ends looping_extent). apply (bool_decide_unpack _). vm_compute. exact I. Defined.
