(* ===== verification/InspectApi.v ===== *)
(** The Inspect API ([fuchsia-inspect/src/lib.rs]): handles on the values of a
    state, properties, arrays and histograms, and the inspector; mappings of
    fresh VMOs ([mapped-vmo/src/lib.rs]). *)

From Stdlib Require Import SpecFloat.
From S2P Require Import Prelude SharedBuffer Float64 InspectFormat InspectBlock InspectHeap InspectState.

(** * Handles

    All handles of an inspector share its state, which the model threads; a
    handle without a block index is a no-op. *)
Record InspectType := { inner : option Z }.

Definition handle_new (block_index : Z) : InspectType := {| inner := Some block_index |}.
Definition new_no_op : InspectType := {| inner := None |}.
Definition is_valid (self : InspectType) : bool := bool_decide (is_Some (inner self)).

(** [.ok()] and [.unwrap_or_else(|e| fx_log_err!(..))] of a result. *)
Definition ok {A : Type} (m : M Error State A) : M Error State (option A) :=
  r <- try m ;; ret (match r with inl a => Some a | inr _ => None end).
Definition log_err (m : M Error State unit) : M Error State unit := ok m ;;; ret tt.

(** [self.inner.as_ref().and_then(|inner| ..).unwrap_or(new_no_op())] *)
Definition create_in (self : InspectType) (f : Z → M Error State Z) : M Error State InspectType :=
  match inner self with
  | None => ret new_no_op
  | Some block_index =>
      b <- ok (f block_index) ;;
      ret (match b with Some index => handle_new index | None => new_no_op end)
  end.

(** [if let Some(ref inner) = self.inner { .. }] *)
Definition update (self : InspectType) (f : Z → M Error State unit) : M Error State unit :=
  match inner self with
  | None => ret tt
  | Some block_index => log_err (f block_index)
  end.

(** [drop]: the result is [expect]ed. *)
Definition drop_with (self : InspectType) (f : Z → M Error State unit) : M Error State unit :=
  match inner self with
  | None => ret tt
  | Some block_index => unwrap (f block_index)
  end.

Section node.
Context {B : Bitfield}.

Definition allocate (name : list Z) (parent_index : Z) : M Error State InspectType :=
  b <- ok (create_node name parent_index) ;;
  ret (match b with Some index => handle_new index | None => new_no_op end).

Definition create_child (self : InspectType) (name : list Z) : M Error State InspectType :=
  create_in self (create_node name).

Definition create_string (self : InspectType) (name value : list Z) : M Error State InspectType :=
  create_in self (create_property name value PropertyString).

Definition create_bytes (self : InspectType) (name value : list Z) : M Error State InspectType :=
  create_in self (create_property name value PropertyBytes).

Definition drop_node (self : InspectType) : M Error State unit := drop_with self free_value.

(** [StringProperty] and [BytesProperty]. *)
Definition property_set_value (self : InspectType) (value : list Z) : M Error State unit :=
  update self (λ i, set_property i value).
Definition drop_property (self : InspectType) : M Error State unit := drop_with self free_property.
Definition drop_value (self : InspectType) : M Error State unit := drop_with self free_value.
End node.

(** * Numeric properties and arrays

    What the macros use of [i64], [u64] and [f64] besides the metric of the
    state. *)
Class Numeric {B : Bitfield} := {
  #[global] numeric_metric :: Metric;
  value_ge : Z → Z → bool;
  value_mul : Z → Z → result Error Z;
  of_usize : Z → Z
}.

(** [count as f64] *)
Definition f64_of_usize (n : Z) : Z := f64_to_bits (binary_normalize 53 1024 n 0 false).

Section numeric_types.
Context {B : Bitfield}.
Definition int_numeric : Numeric := {|
  numeric_metric := int_metric; value_ge := λ a b, b <=? a; value_mul := imul 64;
  of_usize := to_signed 64
|}.
Definition uint_numeric : Numeric := {|
  numeric_metric := uint_metric; value_ge := λ a b, b <=? a; value_mul := umul 64;
  of_usize := λ n, n
|}.
Definition double_numeric : Numeric := {|
  numeric_metric := double_metric; value_ge := λ a b, f64_leb b a;
  value_mul := λ a b, Ok (f64_mul a b); of_usize := f64_of_usize
|}.
End numeric_types.

Section properties.
Context {B : Bitfield} {N : Numeric}.

Definition create_numeric (self : InspectType) (name : list Z) (value : Z) : M Error State InspectType :=
  create_in self (create_metric name value).

Definition numeric_set (self : InspectType) (value : Z) : M Error State unit :=
  update self (λ i, set_metric i value).
Definition numeric_add (self : InspectType) (value : Z) : M Error State unit :=
  update self (λ i, add_metric i value).
Definition numeric_subtract (self : InspectType) (value : Z) : M Error State unit :=
  update self (λ i, subtract_metric i value).
Definition numeric_get (self : InspectType) : M Error State Z :=
  match inner self with
  | Some block_index => get_metric block_index
  | None => fail PropertyNoOp
  end.

Definition create_array_internal (self : InspectType) (name : list Z) (slots : Z) (format : ArrayFormat)
    : M Error State InspectType :=
  create_in self (create_array name slots format).
Definition create_array_property (self : InspectType) (name : list Z) (slots : Z)
    : M Error State InspectType :=
  create_array_internal self name slots ArrayDefault.

Definition array_set (self : InspectType) (index value : Z) : M Error State unit :=
  update self (λ i, set_array_slot i index value).
Definition array_add (self : InspectType) (index value : Z) : M Error State unit :=
  update self (λ i, add_array_slot i index value).
Definition array_subtract (self : InspectType) (index value : Z) : M Error State unit :=
  update self (λ i, subtract_array_slot i index value).

(** * Histograms *)
Record LinearHistogramParams := { lp_floor : Z; lp_step_size : Z; lp_buckets : Z }.
Record LinearHistogramProperty := {
  lh_array : InspectType; lh_floor : Z; lh_slots : Z; lh_step_size : Z
}.

Definition create_linear_histogram (self : InspectType) (name : list Z) (params : LinearHistogramParams)
    : M Error State LinearHistogramProperty :=
  slots <- lift (uadd 8 (lp_buckets params) LINEAR_HISTOGRAM_EXTRA_SLOTS) ;;
  array <- create_array_internal self name slots LinearHistogram ;;
  array_set array 0 (lp_floor params) ;;;
  array_set array 1 (lp_step_size params) ;;;
  ret {| lh_array := array; lh_floor := lp_floor params; lh_slots := slots;
         lh_step_size := lp_step_size params |}.

(** The [while] loop of [get_index]; [index] is a [u8]. *)
Fixpoint linear_index (fuel : nat) (value step_size slots current_floor index : Z) : result Error Z :=
  match fuel with
  | O => OutOfFuel
  | S fuel =>
      last <-? usub slots 1 ;;
      if value_ge value current_floor && (index <? last) then
        current_floor <-? value_add current_floor step_size ;;
        index <-? uadd 8 index 1 ;;
        linear_index fuel value step_size slots current_floor index
      else Ok index
  end.

Definition linear_get_index (self : LinearHistogramProperty) (value : Z) : result Error Z :=
  start <-? usub LINEAR_HISTOGRAM_EXTRA_SLOTS 2 ;;
  linear_index 256 value (lh_step_size self) (lh_slots self) (lh_floor self) start.

Definition linear_insert_multiple (self : LinearHistogramProperty) (value count : Z) : M Error State unit :=
  index <- lift (linear_get_index self value) ;;
  array_add (lh_array self) index (of_usize count).
Definition linear_insert (self : LinearHistogramProperty) (value : Z) : M Error State unit :=
  linear_insert_multiple self value 1.

Record ExponentialHistogramParams := {
  ep_floor : Z; ep_initial_step : Z; ep_step_multiplier : Z; ep_buckets : Z
}.
Record ExponentialHistogramProperty := {
  eh_array : InspectType; eh_floor : Z; eh_initial_step : Z; eh_step_multiplier : Z; eh_slots : Z
}.

Definition create_exponential_histogram (self : InspectType) (name : list Z)
    (params : ExponentialHistogramParams) : M Error State ExponentialHistogramProperty :=
  slots <- lift (uadd 8 (ep_buckets params) EXPONENTIAL_HISTOGRAM_EXTRA_SLOTS) ;;
  array <- create_array_internal self name slots ExponentialHistogram ;;
  array_set array 0 (ep_floor params) ;;;
  array_set array 1 (ep_initial_step params) ;;;
  array_set array 2 (ep_step_multiplier params) ;;;
  ret {| eh_array := array; eh_floor := ep_floor params; eh_initial_step := ep_initial_step params;
         eh_step_multiplier := ep_step_multiplier params; eh_slots := slots |}.

Fixpoint exponential_index (fuel : nat) (value step_multiplier slots current_floor current_step index : Z)
    : result Error Z :=
  match fuel with
  | O => OutOfFuel
  | S fuel =>
      last <-? usub slots 1 ;;
      if value_ge value current_floor && (index <? last) then
        current_floor <-? value_add current_floor current_step ;;
        current_step <-? value_mul current_step step_multiplier ;;
        index <-? uadd 8 index 1 ;;
        exponential_index fuel value step_multiplier slots current_floor current_step index
      else Ok index
  end.

Definition exponential_get_index (self : ExponentialHistogramProperty) (value : Z) : result Error Z :=
  start <-? usub EXPONENTIAL_HISTOGRAM_EXTRA_SLOTS 2 ;;
  exponential_index 256 value (eh_step_multiplier self) (eh_slots self) (eh_floor self)
    (eh_initial_step self) start.

Definition exponential_insert_multiple (self : ExponentialHistogramProperty) (value count : Z)
    : M Error State unit :=
  index <- lift (exponential_get_index self value) ;;
  array_add (eh_array self) index (of_usize count).
Definition exponential_insert (self : ExponentialHistogramProperty) (value : Z) : M Error State unit :=
  exponential_insert_multiple self value 1.
End properties.

(** * The inspector *)
Definition ROOT_NAME : list Z := [114; 111; 111; 116].

Record Inspector := { root_node : InspectType; vmo : option unit }.

Definition inspector_is_valid (self : Inspector) : bool :=
  bool_decide (is_Some (vmo self)) && is_valid (root_node self).
Definition inspector_no_op : Inspector := {| root_node := new_no_op; vmo := None |}.

Section inspector.
Context {B : Bitfield}.
(** Whether the kernel creates and maps a VMO of a size; its bytes are zero. *)
Context (zx_allocates : Z → bool).

Definition mapping_allocate (size : Z) : result Error Mapping :=
  if zx_allocates size then Ok {| mapping_bytes := zeros size |} else Err FailedToAllocateVmo.

Definition vmo_size (max_size : Z) : result Error Z :=
  let size := Z.max MINIMUM_VMO_SIZE_BYTES max_size in
  if negb (size mod MINIMUM_VMO_SIZE_BYTES =? 0)
  then umul 64 (1 + size / MINIMUM_VMO_SIZE_BYTES) MINIMUM_VMO_SIZE_BYTES
  else Ok size.

Definition new_root (max_size : Z) : result Error (State * InspectType) :=
  size <-? vmo_size max_size ;;
  mapping <-? mapping_allocate size ;;
  let (r, heap) := new_heap mapping in
  r ;?;
  state <-? fst (create heap) ;;
  let (root, state) := allocate ROOT_NAME ROOT_PARENT_INDEX state in
  root_node <-? root ;;
  Ok (state, root_node).

(** The state is the one the root node refers to. *)
Definition new_with_size (max_size : Z) : result Error (option State * Inspector) :=
  match new_root max_size with
  | Ok (state, root) => Ok (Some state, {| root_node := root; vmo := Some tt |})
  | Err _ => Ok (None, inspector_no_op)
  | Panic => Panic
  | OutOfFuel => OutOfFuel
  end.

Definition new_inspector : result Error (option State * Inspector) :=
  new_with_size DEFAULT_VMO_SIZE_BYTES.
End inspector.
