(* ===== verification/InspectContrib.v ===== *)
(** The health reporter ([fuchsia-inspect/src/health.rs]) and the nodes and log
    entries of [fuchsia-inspect-contrib]. *)

From stdpp Require Import pretty strings.
From S2P Require Import Prelude SharedBuffer Float64 InspectFormat InspectBlock InspectHeap InspectState InspectApi.

(** The bytes of a string, and [to_string] of an integer. *)
Definition bytes_of (s : string) : list Z :=
  map (λ a, Z.of_N (Ascii.N_of_ascii a)) (String.list_ascii_of_string s).
Definition int_to_string (n : Z) : list Z := bytes_of (pretty n).

(** * Health *)
Definition FUCHSIA_INSPECT_HEALTH : list Z := bytes_of "fuchsia.inspect.Health".
Definition STATUS_PROPERTY_KEY : list Z := bytes_of "status".
Definition MESSAGE_PROPERTY_KEY : list Z := bytes_of "message".

Inductive Status := StartingUp | Unhealthy | StatusOk.

Definition status_to_string (s : Status) : list Z :=
  match s with
  | StartingUp => bytes_of "STARTING_UP"
  | Unhealthy => bytes_of "UNHEALTHY"
  | StatusOk => bytes_of "OK"
  end.

Record HealthNode := {
  health_node : InspectType;
  health_status : InspectType;
  health_message : option InspectType
}.

Section health.
Context {B : Bitfield}.

Definition health_new (parent : InspectType) : M Error State HealthNode :=
  node <- create_child parent FUCHSIA_INSPECT_HEALTH ;;
  status <- create_string node STATUS_PROPERTY_KEY (status_to_string StartingUp) ;;
  ret {| health_node := node; health_status := status; health_message := None |}.

Definition with_message (self : HealthNode) (message : option InspectType) : HealthNode :=
  {| health_node := health_node self; health_status := health_status self; health_message := message |}.

(** Replacing the message drops the property it held. *)
Definition set_status (self : HealthNode) (status : list Z) (message : option (list Z))
    : M Error State HealthNode :=
  property_set_value (health_status self) status ;;;
  match health_message self, message with
  | None, None => ret self
  | Some m, None => drop_property m ;;; ret (with_message self None)
  | Some m, Some n => property_set_value m n ;;; ret self
  | None, Some n =>
      m <- create_string (health_node self) MESSAGE_PROPERTY_KEY n ;;
      ret (with_message self (Some m))
  end.

Definition set_status_enum (self : HealthNode) (status : Status) (message : option (list Z))
    : M Error State HealthNode :=
  match status, message with
  | Unhealthy, None => panic
  | _, _ => set_status self (status_to_string status) message
  end.

Definition set_starting_up (self : HealthNode) := set_status_enum self StartingUp None.
Definition set_ok (self : HealthNode) := set_status_enum self StatusOk None.
Definition set_unhealthy (self : HealthNode) (message : list Z) :=
  set_status_enum self Unhealthy (Some message).
End health.

(** * Managed nodes

    A node that owns the values created under it, and a writer on it; the
    writers of child nodes push to the same list. *)
Inductive NodeValue :=
  | NVNode (n : InspectType)
  | NVString (p : InspectType)
  | NVBytes (p : InspectType)
  | NVUint (p : InspectType)
  | NVInt (p : InspectType)
  | NVDouble (p : InspectType).

Record ManagedNode := { mn_node : InspectType; mn_items : list NodeValue }.

Definition managed_new (node : InspectType) : ManagedNode := {| mn_node := node; mn_items := [] |}.

Record NodeWriter := { nw_node : InspectType; nw_items : list NodeValue }.

Definition writer (self : ManagedNode) : NodeWriter :=
  {| nw_node := mn_node self; nw_items := mn_items self |}.
(** The borrow of the items ends. *)
Definition written (self : ManagedNode) (w : NodeWriter) : ManagedNode :=
  {| mn_node := mn_node self; mn_items := nw_items w |}.

(** [format!("{}.{}", seconds, millis)]; division truncates. *)
Definition format_time (nanos : Z) : list Z :=
  let seconds := Z.quot nanos 1000000000 in
  let millis := Z.quot (Z.rem nanos 1000000000) 1000000 in
  int_to_string seconds ++ bytes_of "." ++ int_to_string millis.

Section managed.
Context {B : Bitfield}.

Definition create_time_at (self : InspectType) (name : list Z) (timestamp : Z) : M Error State InspectType :=
  create_string self name (format_time timestamp).
Definition time_set_at (self : InspectType) (timestamp : Z) : M Error State unit :=
  property_set_value self (format_time timestamp).

Definition push_value (w : NodeWriter) (v : NodeValue) : NodeWriter :=
  {| nw_node := nw_node w; nw_items := nw_items w ++ [v] |}.

Definition writer_string (w : NodeWriter) (key value : list Z) : M Error State NodeWriter :=
  val <- create_string (nw_node w) key value ;; ret (push_value w (NVString val)).
(** [now] is the monotonic clock. *)
Definition writer_time (w : NodeWriter) (key : list Z) (now : Z) : M Error State NodeWriter :=
  val <- create_time_at (nw_node w) key now ;; ret (push_value w (NVString val)).
Definition writer_bytes (w : NodeWriter) (key value : list Z) : M Error State NodeWriter :=
  val <- create_bytes (nw_node w) key value ;; ret (push_value w (NVBytes val)).
Definition writer_uint (w : NodeWriter) (key : list Z) (value : Z) : M Error State NodeWriter :=
  val <- create_numeric (N := uint_numeric) (nw_node w) key value ;; ret (push_value w (NVUint val)).
Definition writer_int (w : NodeWriter) (key : list Z) (value : Z) : M Error State NodeWriter :=
  val <- create_numeric (N := int_numeric) (nw_node w) key value ;; ret (push_value w (NVInt val)).
Definition writer_double (w : NodeWriter) (key : list Z) (value : Z) : M Error State NodeWriter :=
  val <- create_numeric (N := double_numeric) (nw_node w) key value ;; ret (push_value w (NVDouble val)).
Definition writer_child (w : NodeWriter) (key : list Z) : M Error State NodeWriter :=
  child <- create_child (nw_node w) key ;;
  ret {| nw_node := child; nw_items := nw_items w ++ [NVNode child] |}.
(** The parent's writer after the child's one is dropped. *)
Definition back_to (w child : NodeWriter) : NodeWriter :=
  {| nw_node := nw_node w; nw_items := nw_items child |}.

Definition drop_node_value (v : NodeValue) : M Error State unit :=
  match v with
  | NVNode n => drop_node n
  | NVString p | NVBytes p => drop_property p
  | NVUint p | NVInt p | NVDouble p => drop_value p
  end.
Fixpoint drop_items (l : list NodeValue) : M Error State unit :=
  match l with
  | [] => ret tt
  | v :: l => drop_node_value v ;;; drop_items l
  end.
(** Fields are dropped in the order of their declaration. *)
Definition drop_managed (self : ManagedNode) : M Error State unit :=
  drop_node (mn_node self) ;;; drop_items (mn_items self).

(** * Bounded lists *)
Record BoundedListNode := {
  bl_node : InspectType; bl_index : Z; bl_capacity : Z; bl_items : list ManagedNode
}.

Definition bounded_new (node : InspectType) (capacity : Z) : BoundedListNode :=
  {| bl_node := node; bl_index := 0; bl_capacity := Z.max capacity 1; bl_items := [] |}.

(** The writer is the one of the last item. *)
Definition create_entry (self : BoundedListNode) : M Error State BoundedListNode :=
  items <- (if bl_capacity self <=? zlen (bl_items self)
            then match bl_items self with
                 | [] => ret []
                 | front :: items => drop_managed front ;;; ret items
                 end
            else ret (bl_items self)) ;;
  entry <- create_child (bl_node self) (int_to_string (bl_index self)) ;;
  index <- lift (uadd 64 (bl_index self) 1) ;;
  ret {| bl_node := bl_node self; bl_index := index; bl_capacity := bl_capacity self;
         bl_items := items ++ [managed_new entry] |}.
End managed.

(** * Log entries *)
Class WriteInspect {B : Bitfield} (A : Type) :=
  write_inspect : A → NodeWriter → list Z → M Error State NodeWriter.

(** The values with an implementation. *)
Inductive log_value :=
  | LStr (s : list Z)
  | LUint (v : Z)
  | LInt (v : Z)
  | LDouble (v : Z).
Record InspectBytes := { ib_bytes : list Z }.
Record InspectList (A : Type) := { il_items : list A }.
Arguments il_items {A}.
Record InspectListClosure {B : Bitfield} (A : Type) := {
  ic_items : list A;
  ic_closure : NodeWriter → list Z → A → M Error State NodeWriter
}.
Arguments ic_items {B A}.
Arguments ic_closure {B A}.

Section log.
Context {B : Bitfield}.

#[export] Instance write_value : WriteInspect log_value := λ v w key,
  match v with
  | LStr s => writer_string w key s
  | LUint v => writer_uint w key v
  | LInt v => writer_int w key v
  | LDouble v => writer_double w key v
  end.
#[export] Instance write_inspect_bytes : WriteInspect InspectBytes := λ v w key,
  writer_bytes w key (ib_bytes v).

(** [for (i, val) in list.iter().enumerate()] *)
Fixpoint for_each {A : Type} (body : NodeWriter → list Z → A → M Error State NodeWriter)
    (l : list A) (i : Z) (w : NodeWriter) : M Error State NodeWriter :=
  match l with
  | [] => ret w
  | x :: l => w <- body w (int_to_string i) x ;; for_each body l (i + 1) w
  end.

#[export] Instance write_list {A : Type} `{!WriteInspect A} : WriteInspect (InspectList A) := λ v w key,
  child <- writer_child w key ;;
  child <- for_each (λ w k x, write_inspect x w k) (il_items v) 0 child ;;
  ret (back_to w child).
#[export] Instance write_list_closure {A : Type} : WriteInspect (InspectListClosure A) := λ v w key,
  child <- writer_child w key ;;
  child <- for_each (ic_closure v) (ic_items v) 0 child ;;
  ret (back_to w child).

(** What [inspect_insert!] accepts: values, optional values and trees by key. *)
Inductive entry :=
  | Value (key : list Z) (v : log_value)
  | Optional (key : list Z) (v : option log_value)
  | Tree (key : list Z) (sub : list entry).

Fixpoint insert_entry (w : NodeWriter) (e : entry) {struct e} : M Error State NodeWriter :=
  match e with
  | Value key v => write_inspect v w key
  | Optional key (Some v) => write_inspect v w key
  | Optional key None => ret w
  | Tree key sub =>
      child <- writer_child w key ;;
      child <- (fix go (l : list entry) (w : NodeWriter) : M Error State NodeWriter :=
                  match l with
                  | [] => ret w
                  | e :: l => w <- insert_entry w e ;; go l w
                  end) sub child ;;
      ret (back_to w child)
  end.

Fixpoint inspect_insert (w : NodeWriter) (l : list entry) : M Error State NodeWriter :=
  match l with
  | [] => ret w
  | e :: l => w <- insert_entry w e ;; inspect_insert w l
  end.

(** [inspect_log!] writes to the entry the list has just created. *)
Definition inspect_log (list_node : BoundedListNode) (now : Z) (l : list entry)
    : M Error State BoundedListNode :=
  node <- create_entry list_node ;;
  match last (bl_items node) with
  | None => panic
  | Some item =>
      w <- writer_time (writer item) (bytes_of "@time") now ;;
      w <- inspect_insert w l ;;
      ret {| bl_node := bl_node node; bl_index := bl_index node; bl_capacity := bl_capacity node;
             bl_items := removelast (bl_items node) ++ [written item w] |}
  end.
End log.
