(* ===== verification/Merkle.v ===== *)
(** Merkle trees ([fuchsia-merkle/src]): the streaming builder, and the tree of
    hashes it is meant to build. *)

From S2P Require Import Prelude Std.

(** * The model *)
Definition BLOCK_SIZE : Z := 8192.
Definition HASH_SIZE : Z := 32.
Definition HASHES_PER_BLOCK : Z := BLOCK_SIZE / HASH_SIZE.

(** Hashes are lists of bytes. *)
Abbreviation Hash := (list Z).

Definition assert {E A : Type} (b : bool) (k : result E A) : result E A := if b then k else Panic.

Record MerkleTree := { tree_levels : list (list Hash) }.
Definition from_levels (levels : list (list Hash)) : MerkleTree := {| tree_levels := levels |}.
Definition root {E : Type} (self : MerkleTree) : result E Hash :=
  n <-? usub (zlen (tree_levels self)) 1 ;;
  level <-? ounwrap (tree_levels self !! Z.to_nat n) ;;
  ounwrap (level !! 0%nat).

(** The state of the builder. *)
Record MerkleTreeBuilder := { block : list Z; levels : list (list Hash) }.
Definition builder_new : MerkleTreeBuilder := {| block := []; levels := [[]] |}.

Section model.
(** SHA-256, of the bytes given to a hasher one after the other. *)
Context (sha256 : list Z → Hash) {E : Type}.

Definition make_identity (length level offset : Z) : list Z :=
  to_le_bytes 8 (Z.lor offset level) ++ to_le_bytes 4 (length mod 2 ^ 32).

Definition hash_block (block : list Z) (offset : Z) : result E Hash :=
  assert (zlen block <=? BLOCK_SIZE) (
  assert (offset mod BLOCK_SIZE =? 0) (
  let input := make_identity (zlen block) 0 offset ++ block in
  let fill := if negb (zlen block =? BLOCK_SIZE) && negb ((zlen block =? 0) && (offset =? 0))
              then zeros (BLOCK_SIZE - zlen block) else [] in
  Ok (sha256 (input ++ fill)))).

Definition hash_hashes (hashes : list Hash) (level offset : Z) : result E Hash :=
  assert (negb (zlen hashes =? 0)) (
  assert (zlen hashes <=? HASHES_PER_BLOCK) (
  assert (0 <? level) (
  assert (offset mod BLOCK_SIZE =? 0) (
  Ok (sha256 (make_identity BLOCK_SIZE level offset ++ concat hashes
              ++ concat (replicate (Z.to_nat (HASHES_PER_BLOCK - zlen hashes)) (zeros HASH_SIZE)))))))).

(** [self.levels[level]]; pushing to it. *)
Definition get_level (self : MerkleTreeBuilder) (level : Z) : result E (list Hash) :=
  ounwrap (levels self !! Z.to_nat level).
Definition push_hash (level : Z) (hash : Hash) (self : MerkleTreeBuilder) : MerkleTreeBuilder :=
  {| block := block self; levels := alter (λ l, l ++ [hash]) (Z.to_nat level) (levels self) |}.
Definition add_level (self : MerkleTreeBuilder) : MerkleTreeBuilder :=
  {| block := block self; levels := levels self ++ [[]] |}.
Definition extend_block (buf : list Z) (self : MerkleTreeBuilder) : MerkleTreeBuilder :=
  {| block := block self ++ buf; levels := levels self |}.
Definition clear_block (self : MerkleTreeBuilder) : MerkleTreeBuilder :=
  {| block := []; levels := levels self |}.

Definition builder_hash_block (self : MerkleTreeBuilder) (block : list Z) : result E Hash :=
  level0 <-? get_level self 0 ;;
  offset <-? umul 64 (zlen level0) BLOCK_SIZE ;;
  hash_block block offset.

(** The recursion goes to the next level; one level is added at most. *)
Fixpoint commit_tail_block (fuel : nat) (level : Z) (self : MerkleTreeBuilder) : result E MerkleTreeBuilder :=
  match fuel with
  | O => OutOfFuel
  | S fuel =>
      hashes <-? get_level self level ;;
      let len := zlen hashes in
      let next_level := level + 1 in
      let self := if zlen (levels self) <=? next_level then add_level self else self in
      first_hash <-? (if len mod HASHES_PER_BLOCK =? 0 then usub len HASHES_PER_BLOCK
                      else usub len (len mod HASHES_PER_BLOCK)) ;;
      next <-? get_level self next_level ;;
      offset <-? umul 64 (zlen next) BLOCK_SIZE ;;
      hash <-? hash_hashes (drop (Z.to_nat first_hash) hashes) next_level offset ;;
      let self := push_hash next_level hash self in
      next <-? get_level self next_level ;;
      if zlen next mod HASHES_PER_BLOCK =? 0 then commit_tail_block fuel next_level self
      else Ok self
  end.
Definition commit_tail (level : Z) (self : MerkleTreeBuilder) : result E MerkleTreeBuilder :=
  commit_tail_block (S (length (levels self))) level self.

Definition push_data_hash (hash : Hash) (self : MerkleTreeBuilder) : result E MerkleTreeBuilder :=
  let self := push_hash 0 hash (clear_block self) in
  level0 <-? get_level self 0 ;;
  if zlen level0 mod HASHES_PER_BLOCK =? 0 then commit_tail 0 self else Ok self.

(** [for block in buf.chunks(BLOCK_SIZE)] *)
Fixpoint write_chunks (fuel : nat) (buf : list Z) (self : MerkleTreeBuilder) : result E MerkleTreeBuilder :=
  match buf with
  | [] => Ok self
  | _ =>
      match fuel with
      | O => OutOfFuel
      | S fuel =>
          let chunk := take (Z.to_nat BLOCK_SIZE) buf in
          self <-? (if zlen chunk =? BLOCK_SIZE then
                      hash <-? builder_hash_block self chunk ;; push_data_hash hash self
                    else Ok (extend_block chunk self)) ;;
          write_chunks fuel (drop (Z.to_nat BLOCK_SIZE) buf) self
      end
  end.

Definition write (buf : list Z) (self : MerkleTreeBuilder) : result E MerkleTreeBuilder :=
  match block self with
  | [] => write_chunks (length buf) buf self
  | _ =>
      left <-? usub BLOCK_SIZE (zlen (block self)) ;;
      let prefix := Z.to_nat (Z.min (zlen buf) left) in
      let self := extend_block (take prefix buf) self in
      self <-? (if zlen (block self) =? BLOCK_SIZE then
                  hash <-? builder_hash_block self (block self) ;; push_data_hash hash self
                else Ok self) ;;
      write_chunks (length buf) (drop prefix buf) self
  end.

(** [for level in 0..], until the levels end. *)
Fixpoint finish_loop (fuel : nat) (level : Z) (self : MerkleTreeBuilder) : result E MerkleTreeBuilder :=
  match fuel with
  | O => OutOfFuel
  | S fuel =>
      if zlen (levels self) <=? level then Ok self
      else
        hashes <-? get_level self level ;;
        let len := zlen hashes in
        self <-? (if (1 <? len) && negb (len mod HASHES_PER_BLOCK =? 0) then commit_tail level self
                  else Ok self) ;;
        finish_loop fuel (level + 1) self
  end.

(** Every level is shorter than the one below it. *)
Definition finish (self : MerkleTreeBuilder) : result E MerkleTree :=
  level0 <-? get_level self 0 ;;
  self <-? (if negb (zlen (block self) =? 0) || (zlen level0 =? 0) then
              hash <-? builder_hash_block self (block self) ;; push_data_hash hash self
            else Ok self) ;;
  level0 <-? get_level self 0 ;;
  self <-? finish_loop (2 + length level0) 0 self ;;
  Ok (from_levels (levels self)).
End model.

(** [MerkleTree::from_reader]: [reads] are the results of the calls of
    [reader.read]; when they end, the reader is at its end. *)
Fixpoint from_reader_loop (sha256 : list Z → Hash) (reads : reads)
    (builder : MerkleTreeBuilder) : result io_error MerkleTree :=
  match reads with
  | [] | inr [] :: _ => finish sha256 builder
  | inl e :: _ => Err e
  | inr buf :: reads =>
      builder <-? write sha256 buf builder ;;
      from_reader_loop sha256 reads builder
  end.
Definition from_reader (sha256 : list Z → Hash) (reads : reads)
    : result io_error MerkleTree :=
  from_reader_loop sha256 reads builder_new.

(** * [MerkleTreeWriter] *)
Record MerkleTreeWriter (W : Type) := { writer_inner : W; writer_builder : MerkleTreeBuilder }.
Arguments writer_inner {W}.
Arguments writer_builder {W}.

Section writer.
Context (sha256 : list Z → Hash) {W : Type} `{!Write W}.

Definition writer_new (inner : W) : MerkleTreeWriter W :=
  {| writer_inner := inner; writer_builder := builder_new |}.
Definition writer_write (buf : list Z) : M io_error (MerkleTreeWriter W) Z := λ self,
  let (r, inner) := write_all buf (writer_inner self) in
  let self := {| writer_inner := inner; writer_builder := writer_builder self |} in
  match r with
  | inl e => (Err e, self)
  | inr _ =>
      match write sha256 buf (writer_builder self) with
      | Ok b => (Ok (zlen buf), {| writer_inner := inner; writer_builder := b |})
      | Err e => (Err e, self)
      | Panic => (Panic, self)
      | OutOfFuel => (OutOfFuel, self)
      end
  end.
Definition writer_flush : M io_error (MerkleTreeWriter W) unit := λ self,
  let (r, inner) := flush (writer_inner self) in
  (match r with inl e => Err e | inr _ => Ok tt end,
   {| writer_inner := inner; writer_builder := writer_builder self |}).
Definition writer_finish (self : MerkleTreeWriter W) : result io_error MerkleTree :=
  finish sha256 (writer_builder self).
End writer.
