(* ===== verification/MerkleTheorems.v ===== *)
(** The streaming builder of Merkle trees computes the tree of hashes of the
    whole data, however the data is split into writes. *)

From Equations Require Import Equations.
From S2P Require Import Prelude Std Merkle.

(** * The reference tree *)
Definition chunk {A : Type} (c j : nat) (l : list A) : list A := take c (drop (c * j) l).

Definition BS : nat := Z.to_nat BLOCK_SIZE.
Definition HP : nat := Z.to_nat HASHES_PER_BLOCK.
Lemma BS_eq : Z.of_nat BS = 8192.
Proof. done. Qed.
Lemma HP_eq : Z.of_nat HP = 256.
Proof. done. Qed.
#[global] Opaque BS HP.

Section reference.
Context (sha256 : list Z → Hash).

(** The bytes hashed for a data block and for a block of hashes, and their
    hashes, without the assertions. *)
Definition block_input (b : list Z) (offset : Z) : list Z :=
  make_identity (zlen b) 0 offset ++ b ++
  if negb (zlen b =? BLOCK_SIZE) && negb ((zlen b =? 0) && (offset =? 0))
  then zeros (BLOCK_SIZE - zlen b) else [].
Definition hashes_input (hs : list Hash) (level offset : Z) : list Z :=
  make_identity BLOCK_SIZE level offset ++ concat hs ++
  concat (replicate (Z.to_nat (HASHES_PER_BLOCK - zlen hs)) (zeros HASH_SIZE)).
Definition HB (b : list Z) (offset : Z) : Hash := sha256 (block_input b offset).
Definition HH (hs : list Hash) (level offset : Z) : Hash := sha256 (hashes_input hs level offset).

(** The first [n] blocks of data, and of the hashes of level [k]. *)
Definition data_hashes (D : list Z) (n : nat) : list Hash :=
  map (λ j, HB (chunk BS j D) (Z.of_nat j * BLOCK_SIZE)) (seq 0 n).
Definition groups (k : Z) (hs : list Hash) (n : nat) : list Hash :=
  map (λ j, HH (chunk HP j hs) (k + 1) (Z.of_nat j * BLOCK_SIZE)) (seq 0 n).

(** The level above [hs]: of its complete blocks, and of all of them. *)
Definition full (k : Z) (hs : list Hash) : list Hash := groups k hs (length hs / HP).
Definition parents (k : Z) (hs : list Hash) : list Hash := groups k hs ((length hs + (HP - 1)) / HP).

Lemma full_length k hs : length (full k hs) = (length hs / HP)%nat.
Proof. unfold full, groups. by rewrite length_map, length_seq. Qed.
Lemma parents_length k hs : length (parents k hs) = ((length hs + (HP - 1)) / HP)%nat.
Proof. unfold parents, groups. by rewrite length_map, length_seq. Qed.

Lemma full_shorter k hs : (HP ≤ length hs)%nat → (length (full k hs) < length hs)%nat.
Proof.
  intros Hl. pose proof HP_eq. rewrite full_length. apply Nat.div_lt; lia.
Qed.
Lemma parents_shorter k hs : (1 < length hs)%nat → (length (parents k hs) < length hs)%nat.
Proof.
  intros Hl. pose proof HP_eq. rewrite parents_length.
  apply Nat.Div0.div_lt_upper_bound. nia.
Qed.

(** What the builder holds for the hashes [hs] of level [k] and above, before
    the end of the data is known; and the finished levels. *)
Equations? partial (k : Z) (hs : list Hash) : list (list Hash) by wf (length hs) lt :=
  partial k hs with decide (HP ≤ length hs)%nat => {
    | left _ => hs :: partial (k + 1) (full k hs)
    | right _ => [hs]
  }.
Proof. by apply full_shorter. Qed.

Equations? tree (k : Z) (hs : list Hash) : list (list Hash) by wf (length hs) lt :=
  tree k hs with decide (1 < length hs)%nat => {
    | left _ => hs :: tree (k + 1) (parents k hs)
    | right _ => [hs]
  }.
Proof. by apply parents_shorter. Qed.

Lemma partial_eq k hs : partial k hs
  = if decide (HP ≤ length hs)%nat then hs :: partial (k + 1) (full k hs) else [hs].
Proof. rewrite partial_equation_1. by destruct (decide _). Qed.
Lemma tree_eq k hs : tree k hs
  = if decide (1 < length hs)%nat then hs :: tree (k + 1) (parents k hs) else [hs].
Proof. rewrite tree_equation_1. by destruct (decide _). Qed.

(** The hashes of all of the data; empty data is one empty block. *)
Definition leaves (D : list Z) : list Hash :=
  match D with
  | [] => [HB [] 0]
  | _ => data_hashes D ((length D + (BS - 1)) / BS)
  end.
Definition merkle_tree (D : list Z) : MerkleTree := from_levels (tree 0 (leaves D)).
End reference.

(** * Chunks and levels *)
Section levels.
Context (sha256 : list Z → Hash).
Implicit Types (hs g pre : list Hash) (D : list Z).

Lemma chunk_app {A : Type} (c j : nat) (l l' : list A) :
  (c * S j ≤ length l)%nat → chunk c j (l ++ l') = chunk c j l.
Proof.
  intros Hl. unfold chunk. rewrite drop_app_le by lia. rewrite take_app_le; [done|].
  rewrite length_drop. lia.
Qed.
Lemma chunk_tail {A : Type} (c j : nat) (l : list A) :
  (length l ≤ c * S j)%nat → chunk c j l = drop (c * j) l.
Proof. intros Hl. unfold chunk. apply take_ge. rewrite length_drop. lia. Qed.

Lemma groups_app k hs x n : (HP * n ≤ length hs)%nat → groups sha256 k (hs ++ x) n = groups sha256 k hs n.
Proof.
  intros Hn. apply map_ext_in. intros j Hj%in_seq. rewrite chunk_app; [done|]. nia.
Qed.
Lemma groups_S k hs n : groups sha256 k hs (S n)
  = groups sha256 k hs n ++ [HH sha256 (chunk HP n hs) (k + 1) (Z.of_nat n * BLOCK_SIZE)].
Proof. unfold groups. by rewrite seq_S, map_app. Qed.
Lemma groups_length k hs n : length (groups sha256 k hs n) = n.
Proof. unfold groups. by rewrite length_map, length_seq. Qed.
Lemma data_hashes_app D x n :
  (BS * n ≤ length D)%nat → data_hashes sha256 (D ++ x) n = data_hashes sha256 D n.
Proof.
  intros Hn. apply map_ext_in. intros j Hj%in_seq. rewrite chunk_app; [done|]. nia.
Qed.
Lemma data_hashes_S D n : data_hashes sha256 D (S n)
  = data_hashes sha256 D n ++ [HB sha256 (chunk BS n D) (Z.of_nat n * BLOCK_SIZE)].
Proof. unfold data_hashes. by rewrite seq_S, map_app. Qed.
Lemma data_hashes_length D n : length (data_hashes sha256 D n) = n.
Proof. unfold data_hashes. by rewrite length_map, length_seq. Qed.

(** The levels above, when there are hashes for them. *)
Definition above (k : Z) g : list (list Hash) :=
  match g with [] => [] | _ => partial sha256 k g end.

Lemma partial_above k hs : partial sha256 k hs = hs :: above (k + 1) (full sha256 k hs).
Proof.
  rewrite partial_eq. destruct (decide _) as [Hl|Hl]; unfold above.
  - pose proof HP_eq. pose proof (full_length sha256 k hs) as Hf.
    destruct (full sha256 k hs); [|done]. simpl in Hf.
    assert (1 ≤ length hs / HP)%nat by (apply Nat.div_le_lower_bound; lia). lia.
  - pose proof (full_length sha256 k hs) as Hf.
    rewrite Nat.div_small in Hf by lia. by destruct (full sha256 k hs).
Qed.
Lemma above_cons k g : g ≠ [] → above k g = partial sha256 k g.
Proof. by destruct g. Qed.

(** One more hash, when it completes no block of hashes; and when it does. *)
Lemma full_snoc k g (h : Hash) :
  ((length g + 1) mod HP ≠ 0)%nat → full sha256 k (g ++ [h]) = full sha256 k g.
Proof.
  intros Hm. pose proof HP_eq. unfold full. rewrite length_app. simpl.
  pose proof (Nat.div_mod_eq (length g) HP). pose proof (Nat.div_mod_eq (length g + 1) HP).
  pose proof (Nat.mod_upper_bound (length g) HP). pose proof (Nat.mod_upper_bound (length g + 1) HP).
  assert ((length g + 1) / HP = length g / HP)%nat as -> by nia.
  apply groups_app. nia.
Qed.
Lemma full_complete k hs n :
  length hs = (HP * S n)%nat → full sha256 k hs
  = groups sha256 k hs n ++ [HH sha256 (drop (HP * n) hs) (k + 1) (Z.of_nat n * BLOCK_SIZE)].
Proof.
  intros Hl. pose proof HP_eq. unfold full. rewrite Hl, Nat.mul_comm, Nat.div_mul by lia.
  rewrite groups_S, chunk_tail by lia. done.
Qed.
End levels.

(** * The builder *)
Section builder.
Context (sha256 : list Z → Hash) {E : Type}.
Implicit Types (hs g : list Hash) (pre : list (list Hash)) (D : list Z) (b : list Z).

Abbreviation build b l := {| block := b; levels := l |}.

Lemma hash_block_ok b offset :
  zlen b ≤ 8192 → (8192 | offset) → @hash_block sha256 E b offset = Ok (HB sha256 b offset).
Proof.
  intros Hb [q ->]. unfold hash_block, assert, HB. change BLOCK_SIZE with 8192.
  rewrite Z.mod_mul, Z.eqb_refl by lia. rewrite (proj2 (Z.leb_le _ _) Hb).
  by rewrite <- app_assoc.
Qed.
Lemma hash_hashes_ok hs level offset :
  0 < zlen hs ≤ 256 → 0 < level → (8192 | offset) →
  @hash_hashes sha256 E hs level offset = Ok (HH sha256 hs level offset).
Proof.
  intros Hh Hl [q ->]. unfold hash_hashes, assert, HH. change BLOCK_SIZE with 8192.
  change HASHES_PER_BLOCK with 256. rewrite Z.mod_mul by lia.
  rewrite (proj2 (Z.eqb_neq (zlen hs) 0)) by lia. rewrite (proj2 (Z.leb_le (zlen hs) 256)) by lia.
  by rewrite (proj2 (Z.ltb_lt 0 level)) by lia.
Qed.

Lemma get_level_ok b pre hs hi k :
  zlen pre = k → @get_level E (build b (pre ++ hs :: hi)) k = Ok hs.
Proof.
  intros <-. unfold get_level, zlen. rewrite Nat2Z.id. simpl. by rewrite list_lookup_middle.
Qed.
Lemma get_level_partial b pre g k :
  zlen pre = k → @get_level E (build b (pre ++ partial sha256 k g)) k = Ok g.
Proof. intros Hk. rewrite partial_above. by apply get_level_ok. Qed.
Lemma push_hash_ok b pre hs hi k h :
  zlen pre = k → push_hash k h (build b (pre ++ hs :: hi)) = build b (pre ++ (hs ++ [h]) :: hi).
Proof.
  intros <-. unfold push_hash, zlen. rewrite Nat2Z.id. simpl. f_equal.
  rewrite alter_app_r_alt by lia. rewrite Nat.sub_diag. done.
Qed.

Lemma full_nil k : full sha256 k [] = [].
Proof.
  pose proof (full_length sha256 k []) as Hl. rewrite Nat.Div0.div_0_l in Hl.
  by destruct (full sha256 k []).
Qed.

(** The first hash of the last block of a level. *)
Lemma first_hash_ok hs n :
  (length hs - HP * n ≤ HP)%nat → (HP * n < length hs)%nat →
  (if zlen hs mod HASHES_PER_BLOCK =? 0 then usub (zlen hs) HASHES_PER_BLOCK
   else usub (zlen hs) (zlen hs mod HASHES_PER_BLOCK)) = @Ok E Z (Z.of_nat (HP * n)).
Proof.
  intros H1 H2. pose proof HP_eq as HHP. change HASHES_PER_BLOCK with (Z.of_nat HP).
  unfold usub, zlen. rewrite HHP. destruct (decide (length hs - HP * n = HP)%nat) as [He|He].
  - assert (Z.of_nat (length hs) = (Z.of_nat n + 1) * 256) as -> by nia.
    rewrite Z.mod_mul, Z.eqb_refl by lia. rewrite (proj2 (Z.leb_le _ _)) by lia. f_equal. nia.
  - assert (Z.of_nat (length hs) mod 256 = Z.of_nat (length hs) - Z.of_nat n * 256) as ->.
    { symmetry. apply (Z.mod_unique_pos _ _ (Z.of_nat n)); nia. }
    rewrite (proj2 (Z.eqb_neq _ _)) by nia. rewrite (proj2 (Z.leb_le _ _)) by nia. f_equal. nia.
Qed.

(** The levels a commit and a push leave behind. *)
Definition commit_spec (fuel : nat) : Prop := ∀ b pre k hs n,
  zlen pre = k → (length hs - HP * n ≤ HP)%nat → (HP * n < length hs)%nat →
  zlen hs * 8192 < 2 ^ 64 → (length (above sha256 (k + 1) (groups sha256 k hs n)) < fuel)%nat →
  @commit_tail_block sha256 E fuel k (build b (pre ++ hs :: above sha256 (k + 1) (groups sha256 k hs n)))
  = Ok (build b (pre ++ hs :: partial sha256 (k + 1) (groups sha256 k hs n ++
      [HH sha256 (drop (HP * n) hs) (k + 1) (Z.of_nat n * BLOCK_SIZE)]))).

Lemma push_commit fuel b pre k g h :
  commit_spec fuel → zlen pre = k → (zlen g + 1) * 8192 < 2 ^ 64 →
  (g ≠ [] → length (above sha256 (k + 1) (full sha256 k g)) < fuel)%nat →
  (next <-? @get_level E (push_hash k h (build b (pre ++ partial sha256 k g))) k ;;
   if zlen next mod HASHES_PER_BLOCK =? 0
   then commit_tail_block sha256 fuel k (push_hash k h (build b (pre ++ partial sha256 k g)))
   else Ok (push_hash k h (build b (pre ++ partial sha256 k g))))
  = Ok (build b (pre ++ partial sha256 k (g ++ [h]))).
Proof.
  intros HC Hk Hb Hf. rewrite partial_above, push_hash_ok, get_level_ok by done. simpl rbind.
  rewrite (partial_above sha256 k (g ++ [h])). pose proof HP_eq as HHP.
  change HASHES_PER_BLOCK with (Z.of_nat HP). unfold zlen. rewrite length_app. simpl length.
  rewrite <- Nat2Z.inj_mod. destruct (decide ((length g + 1) mod HP = 0)%nat) as [Hm|Hm].
  - rewrite (proj2 (Z.eqb_eq _ _)) by lia.
    apply Nat.Div0.mod_divides in Hm as [n Hn]; destruct n as [|n]; [lia|].
    assert (length (g ++ [h]) = HP * S n)%nat as Hl by (rewrite length_app; simpl; lia).
    assert (full sha256 k g = groups sha256 k (g ++ [h]) n) as Hfull.
    { rewrite groups_app by lia. unfold full. f_equal.
      symmetry. apply (Nat.div_unique _ _ _ (HP - 1)); lia. }
    rewrite (full_complete sha256 k (g ++ [h]) n Hl).
    rewrite (above_cons _ _ (_ ++ _)) by (by intros [_ ?]%app_nil).
    rewrite Hfull in *. apply HC; try done; try lia.
    + unfold zlen in *. rewrite Hl. lia.
    + apply Hf. intros ->. simpl in Hn. nia.
  - rewrite (proj2 (Z.eqb_neq _ _)) by lia. by rewrite full_snoc.
Qed.

Lemma commit_ok fuel : commit_spec fuel.
Proof.
  induction fuel as [|fuel IH]; intros b pre k hs n Hk Hn1 Hn2 Hb Hf; [lia|].
  pose proof HP_eq as HHP. cbn [commit_tail_block]. rewrite get_level_ok by done. cbn [rbind].
  set (g := groups sha256 k hs n) in *.
  assert ((if zlen (levels (build b (pre ++ hs :: above sha256 (k + 1) g))) <=? k + 1
    then add_level (build b (pre ++ hs :: above sha256 (k + 1) g))
    else build b (pre ++ hs :: above sha256 (k + 1) g))
    = build b ((pre ++ [hs]) ++ partial sha256 (k + 1) g)) as ->.
  { rewrite (partial_above sha256 (k + 1) g). destruct g as [|x g'] eqn:Hg.
    - cbn [levels above]. rewrite (proj2 (Z.leb_le _ _)) by (unfold zlen in *; rewrite length_app; simpl; lia).
      unfold add_level. cbn [block levels]. by rewrite <- !app_assoc, full_nil.
    - cbn [levels above]. rewrite (partial_above sha256 (k + 1) (x :: g')).
      rewrite (proj2 (Z.leb_gt _ _)) by (unfold zlen in *; rewrite length_app; simpl; lia).
      f_equal. by rewrite <- app_assoc. }
  assert (length g = n) as Hg by apply groups_length.
  rewrite first_hash_ok with (n := n) by done. cbn [rbind].
  assert (zlen (pre ++ [hs]) = k + 1) as Hk' by (unfold zlen in *; rewrite length_app; simpl; lia).
  rewrite get_level_partial by done. cbn [rbind].
  assert (zlen g * 8192 < 2 ^ 64) as Hgb by (unfold zlen in *; nia).
  unfold umul. change BLOCK_SIZE with 8192. rewrite (proj2 (Z.ltb_lt _ _) Hgb). cbn [rbind].
  rewrite hash_hashes_ok; [|unfold zlen in *; rewrite Nat2Z.id, length_drop; lia
    |unfold zlen in *; lia|by exists (zlen g)].
  cbn [rbind]. rewrite Nat2Z.id. assert (zlen g = Z.of_nat n) as -> by (unfold zlen; lia).
  change 8192 with BLOCK_SIZE.
  rewrite push_commit; [by rewrite <- app_assoc|done|done|unfold zlen in *; nia|].
  intros Hne. rewrite above_cons, partial_above in Hf by done. simpl in Hf. lia.
Qed.

Lemma push_data_hash_ok b hs h :
  (zlen hs + 1) * 8192 < 2 ^ 64 →
  @push_data_hash sha256 E h (build b (partial sha256 0 hs)) = Ok (build [] (partial sha256 0 (hs ++ [h]))).
Proof.
  intros Hb. unfold push_data_hash, clear_block. cbn [levels]. rewrite <- (app_nil_l (partial _ _ hs)).
  unfold commit_tail. rewrite (push_commit _ [] [] 0 hs h (commit_ok _)); [done|done|done|].
  intros _. rewrite partial_above, push_hash_ok by done. cbn [levels]. simpl. lia.
Qed.

(** What the builder holds after [D] was written. *)
Definition built D : MerkleTreeBuilder :=
  build (drop (BS * (length D / BS)) D) (partial sha256 0 (data_hashes sha256 D (length D / BS))).

Lemma builder_new_built : builder_new = built [].
Proof.
  unfold built. rewrite Nat.Div0.div_0_l. cbn [data_hashes map seq].
  by rewrite partial_above, full_nil, drop_nil.
Qed.

Lemma builder_hash_ok b hs c :
  zlen hs * 8192 < 2 ^ 64 → zlen c ≤ 8192 →
  builder_hash_block sha256 (build b (partial sha256 0 hs)) c = @Ok E Hash (HB sha256 c (zlen hs * 8192)).
Proof.
  intros Hb Hc. unfold builder_hash_block.
  rewrite (get_level_partial b [] hs 0 eq_refl : get_level (build b (partial sha256 0 hs)) 0 = _). cbn [rbind].
  unfold umul. change BLOCK_SIZE with 8192. rewrite (proj2 (Z.ltb_lt _ _) Hb). cbn [rbind].
  apply hash_block_ok; [done|]. by exists (zlen hs).
Qed.

(** A complete block after whole blocks. *)
Lemma push_block D b c n :
  length D = (BS * n)%nat → length c = BS → zlen (D ++ c) < 2 ^ 64 →
  (hash <-? builder_hash_block sha256 (build b (partial sha256 0 (data_hashes sha256 D n))) c ;;
   @push_data_hash sha256 E hash (build b (partial sha256 0 (data_hashes sha256 D n)))) = Ok (built (D ++ c)).
Proof.
  intros HD Hc Hlen. pose proof BS_eq as HBS. unfold zlen in Hlen. rewrite length_app in Hlen.
  assert (zlen (data_hashes sha256 D n) = Z.of_nat n) as Hn by (unfold zlen; by rewrite data_hashes_length).
  rewrite builder_hash_ok by (unfold zlen in *; lia). cbn [rbind].
  rewrite push_data_hash_ok by lia. unfold built.
  assert (length (D ++ c) = S n * BS)%nat as HL by (rewrite length_app; lia).
  rewrite HL, Nat.div_mul by lia. rewrite drop_ge by lia.
  rewrite data_hashes_S, data_hashes_app by lia. do 4 f_equal. rewrite Hn. do 2 f_equal.
  unfold chunk. rewrite drop_app_le, drop_ge by lia. rewrite take_ge; [done|]. simpl. lia.
Qed.

Lemma write_chunks_nil fuel st : @write_chunks sha256 E fuel [] st = Ok st.
Proof. by destruct fuel. Qed.

Lemma write_chunks_ok fuel D buf :
  (BS * (length D / BS) = length D)%nat → (length buf ≤ fuel)%nat → zlen (D ++ buf) < 2 ^ 64 →
  @write_chunks sha256 E fuel buf (built D) = Ok (built (D ++ buf)).
Proof.
  revert D buf. pose proof BS_eq as HBS.
  induction fuel as [|fuel IH]; intros D buf HD Hf Hlen; cbn [write_chunks].
  { destruct buf; [by rewrite app_nil_r|simpl in Hf; lia]. }
  destruct buf as [|x buf0]; [by rewrite app_nil_r|]. set (buf := x :: buf0) in *.
  assert (0 < length buf)%nat as Hpos by (simpl; lia). clearbody buf. clear x buf0.
  change (Z.to_nat BLOCK_SIZE) with BS. change BLOCK_SIZE with 8192. cbv zeta.
  unfold built at 1. rewrite HD, drop_all.
  destruct (decide (BS ≤ length buf)%nat) as [Hfull|Hpart].
  - assert (length (take BS buf) = BS) as Hc by (rewrite length_take; lia).
    rewrite (proj2 (Z.eqb_eq (zlen (take BS buf)) 8192)) by (unfold zlen; lia).
    rewrite push_block; [|lia|done|].
    2: { unfold zlen in *. rewrite length_app in *. lia. }
    cbn [rbind]. rewrite IH.
    + by rewrite <- app_assoc, take_drop.
    + rewrite length_app, Hc. set (q := (length D / BS)%nat) in *.
      replace (length D + BS)%nat with (S q * BS)%nat by lia. rewrite Nat.div_mul; lia.
    + rewrite length_drop. lia.
    + by rewrite <- app_assoc, take_drop.
  - rewrite take_ge by lia. rewrite (proj2 (Z.eqb_neq (zlen buf) 8192)) by (unfold zlen; lia).
    cbn [rbind]. rewrite drop_ge by lia. unfold extend_block. cbn [block levels].
    assert (length (D ++ buf) / BS = length D / BS)%nat as Hdiv.
    { rewrite length_app. symmetry. apply (Nat.div_unique _ _ _ (length buf)); lia. }
    rewrite write_chunks_nil. unfold built. rewrite Hdiv, data_hashes_app by lia.
    by rewrite drop_app_le, HD, drop_all by lia.
Qed.

(** A write that first fills the partial block. *)
Lemma write_ok D buf :
  zlen (D ++ buf) < 2 ^ 64 → @write sha256 E buf (built D) = Ok (built (D ++ buf)).
Proof.
  intros Hlen. pose proof BS_eq as HBS. unfold write.
  pose proof (Nat.div_mod_eq (length D) BS) as HD. pose proof (Nat.mod_upper_bound (length D) BS).
  set (q := (length D / BS)%nat) in *.
  assert (length (drop (BS * q) D) = length D mod BS)%nat as Hr by (rewrite length_drop; lia).
  destruct (block (built D)) as [|x l] eqn:Hblock.
  { apply write_chunks_ok; [|lia|done]. fold q. change (drop (BS * q) D = []) in Hblock.
    rewrite Hblock in Hr. simpl in Hr. lia. }
  rewrite <- Hblock. clear x l Hblock.
  change (built D) with (build (drop (BS * q) D) (partial sha256 0 (data_hashes sha256 D q))).
  cbn [block levels].
  change BLOCK_SIZE with 8192. unfold usub, zlen. rewrite Hr.
  rewrite (proj2 (Z.leb_le _ _)) by lia. cbn [rbind]. cbv zeta.
  set (p := Z.to_nat _). unfold extend_block. cbn [block levels].
  rewrite length_app, Hr. assert (length (take p buf) = p) as Hp by (rewrite length_take; lia). rewrite Hp.
  destruct (decide (BS ≤ length D mod BS + length buf)%nat) as [Hfull|Hpart].
  - rewrite (proj2 (Z.eqb_eq _ _)) by lia.
    assert (D ++ take p buf = take (BS * q) D ++ (drop (BS * q) D ++ take p buf)) as HDp
      by (by rewrite app_assoc, take_drop).
    assert (data_hashes sha256 D q = data_hashes sha256 (take (BS * q) D) q) as ->.
    { rewrite <- (take_drop (BS * q) D) at 1. apply data_hashes_app. rewrite length_take. lia. }
    rewrite (push_block (take (BS * q) D) (drop (BS * q) D ++ take p buf) (drop (BS * q) D ++ take p buf) q);
      [|rewrite length_take; lia|rewrite length_app; lia|].
    2: { rewrite <- HDp. unfold zlen in *. rewrite length_app in *. lia. }
    cbn [rbind]. rewrite <- HDp. rewrite write_chunks_ok.
    + by rewrite <- app_assoc, take_drop.
    + rewrite length_app. replace (length D + length (take p buf))%nat with (S q * BS)%nat by lia.
      rewrite Nat.div_mul; lia.
    + rewrite length_drop. lia.
    + by rewrite <- app_assoc, take_drop.
  - rewrite (proj2 (Z.eqb_neq _ _)) by lia. cbn [rbind].
    rewrite (drop_ge buf p) by lia. rewrite (take_ge buf p) by lia.
    assert (length (D ++ buf) / BS = q)%nat as Hdiv.
    { rewrite length_app. symmetry. apply (Nat.div_unique _ _ _ (length D mod BS + length buf)); lia. }
    rewrite write_chunks_nil. unfold built. rewrite Hdiv, data_hashes_app by lia.
    by rewrite drop_app_le by lia.
Qed.

(** ** Finishing *)
Lemma parents_complete k hs : (length hs mod HP = 0)%nat → parents sha256 k hs = full sha256 k hs.
Proof.
  intros Hm. pose proof HP_eq. unfold parents, full. f_equal.
  pose proof (Nat.div_mod_eq (length hs) HP). symmetry.
  apply (Nat.div_unique _ _ _ (HP - 1)); lia.
Qed.
Lemma parents_tail k hs :
  (length hs mod HP ≠ 0)%nat → parents sha256 k hs = groups sha256 k hs (length hs / HP) ++
    [HH sha256 (drop (HP * (length hs / HP)) hs) (k + 1) (Z.of_nat (length hs / HP) * BLOCK_SIZE)].
Proof.
  intros Hm. pose proof HP_eq. pose proof (Nat.div_mod_eq (length hs) HP).
  pose proof (Nat.mod_upper_bound (length hs) HP). unfold parents.
  assert ((length hs + (HP - 1)) / HP = S (length hs / HP))%nat as ->.
  { symmetry. apply (Nat.div_unique _ _ _ (length hs mod HP - 1)); lia. }
  by rewrite groups_S, chunk_tail by lia.
Qed.

(** One turn of the loop: the level above [hs] is complete after it. *)
Lemma finish_level b pre k hs :
  zlen pre = k → (1 < length hs)%nat → zlen hs * 8192 < 2 ^ 64 →
  (if (1 <? zlen hs) && negb (zlen hs mod HASHES_PER_BLOCK =? 0)
   then commit_tail sha256 k (build b (pre ++ partial sha256 k hs))
   else Ok (build b (pre ++ partial sha256 k hs)))
  = @Ok E _ (build b ((pre ++ [hs]) ++ partial sha256 (k + 1) (parents sha256 k hs))).
Proof.
  intros Hk H1 Hb. pose proof HP_eq as HHP. rewrite <- app_assoc. simpl.
  assert (zlen hs mod HASHES_PER_BLOCK = Z.of_nat (length hs mod HP)) as ->.
  { change HASHES_PER_BLOCK with (Z.of_nat HP). unfold zlen. by rewrite Nat2Z.inj_mod. }
  rewrite (proj2 (Z.ltb_lt 1 (zlen hs))) by (unfold zlen; lia). cbn [andb].
  pose proof (Nat.div_mod_eq (length hs) HP). pose proof (Nat.mod_upper_bound (length hs) HP).
  rewrite (partial_above sha256 k hs). destruct (decide (length hs mod HP = 0)%nat) as [Hm|Hm].
  - rewrite Hm. cbn [Z.of_nat Z.eqb negb]. rewrite parents_complete by done.
    rewrite above_cons; [done|]. intros Hn%(f_equal length). rewrite full_length in Hn. simpl in Hn. nia.
  - rewrite (proj2 (Z.eqb_neq _ 0)) by lia. cbn [negb]. unfold commit_tail. cbn [levels].
    rewrite (commit_ok _ b pre k hs (length hs / HP)%nat); try done; try lia.
    + by rewrite parents_tail.
    + unfold full. rewrite length_app. simpl. lia.
Qed.

Lemma finish_loop_ok fuel b pre k hs :
  zlen pre = k → hs ≠ [] → zlen hs * 8192 < 2 ^ 64 → (length hs < fuel)%nat →
  @finish_loop sha256 E fuel k (build b (pre ++ partial sha256 k hs)) = Ok (build b (pre ++ tree sha256 k hs)).
Proof.
  revert pre k hs. induction fuel as [|fuel IH]; intros pre k hs Hk Hne Hb Hf; [lia|]. cbn [finish_loop].
  assert ((zlen (levels (build b (pre ++ partial sha256 k hs))) <=? k) = false) as ->.
  { rewrite partial_above. apply Z.leb_gt. cbn [levels]. unfold zlen in *. rewrite length_app. simpl. lia. }
  rewrite get_level_partial by done. cbn [rbind]. cbv zeta.
  assert (0 < length hs)%nat by (destruct hs; [done|simpl; lia]).
  rewrite tree_eq. destruct (decide (1 < length hs)%nat) as [H1|H1].
  - rewrite finish_level by done. pose proof (parents_shorter sha256 k hs H1).
    cbn [rbind]. rewrite IH; [by rewrite <- app_assoc|..|unfold zlen in *; lia|lia].
    + unfold zlen in *. rewrite length_app. simpl. lia.
    + pose proof HP_eq. intros Hn%(f_equal length). rewrite parents_length in Hn. simpl in Hn.
      apply Nat.div_small_iff in Hn; lia.
  - assert (length hs = 1%nat) as Hl by lia.
    assert (zlen hs = 1) as -> by (unfold zlen; lia). cbn [Z.ltb Z.compare Pos.compare Pos.compare_cont andb rbind].
    assert (partial sha256 k hs = [hs]) as -> by (pose proof HP_eq; rewrite partial_eq, decide_False by lia; done).
    destruct fuel; [lia|]. cbn [finish_loop]. cbn [levels].
    rewrite (proj2 (Z.leb_le _ _)); [done|]. unfold zlen in *. rewrite length_app. simpl. lia.
Qed.

(** The data hashes when the data ends. *)
Lemma leaves_tail D :
  (BS * (length D / BS) ≠ length D)%nat → leaves sha256 D = data_hashes sha256 D (length D / BS) ++
    [HB sha256 (drop (BS * (length D / BS)) D) (Z.of_nat (length D / BS) * BLOCK_SIZE)].
Proof.
  intros HD. pose proof BS_eq. pose proof (Nat.div_mod_eq (length D) BS).
  pose proof (Nat.mod_upper_bound (length D) BS).
  assert ((length D + (BS - 1)) / BS = S (length D / BS))%nat as Hd.
  { symmetry. apply (Nat.div_unique _ _ _ (length D mod BS - 1)); lia. }
  assert (leaves sha256 D = data_hashes sha256 D (S (length D / BS))) as ->.
  { unfold leaves. destruct D as [|x D0]; [|by rewrite Hd]. rewrite Nat.Div0.div_0_l in HD. simpl in HD. lia. }
  by rewrite data_hashes_S, chunk_tail by lia.
Qed.
Lemma leaves_complete D :
  (BS * (length D / BS) = length D)%nat → D ≠ [] → leaves sha256 D = data_hashes sha256 D (length D / BS).
Proof.
  intros HD Hne. pose proof BS_eq. unfold leaves. destruct D as [|x D0]; [exfalso; apply Hne; reflexivity|]. f_equal. symmetry.
  apply (Nat.div_unique _ _ _ (BS - 1)); lia.
Qed.

Lemma leaves_bound D : leaves sha256 D ≠ [] ∧ (length (leaves sha256 D) ≤ length D / BS + 1)%nat.
Proof.
  pose proof BS_eq. pose proof (Nat.div_mod_eq (length D) BS).
  destruct (decide (BS * (length D / BS) = length D)%nat) as [HD|HD].
  - destruct D as [|x D0] eqn:HeqD; [simpl; split; [done|lia]|]. rewrite <- HeqD in *.
    assert (0 < length D)%nat by (rewrite HeqD; simpl; lia).
    rewrite leaves_complete by (done || by rewrite HeqD). split; [|rewrite data_hashes_length; lia].
    intros Hn%(f_equal length). rewrite data_hashes_length in Hn. simpl in Hn. nia.
  - rewrite leaves_tail by done. rewrite length_app, data_hashes_length. simpl. split; [|lia].
    by intros [_ ?]%app_nil.
Qed.

(** The end of the data: a partial block, or the empty block of no data. *)
Lemma finish_data D :
  zlen D < 2 ^ 63 → let b := drop (BS * (length D / BS)) D in
  let hs := data_hashes sha256 D (length D / BS) in
  (if negb (zlen b =? 0) || (zlen hs =? 0)
   then hash <-? builder_hash_block sha256 (build b (partial sha256 0 hs)) b ;;
        push_data_hash sha256 hash (build b (partial sha256 0 hs))
   else Ok (build b (partial sha256 0 hs)))
  = @Ok E _ (build [] (partial sha256 0 (leaves sha256 D))).
Proof.
  intros Hlen. cbv zeta. pose proof BS_eq as HBS. pose proof (Nat.div_mod_eq (length D) BS) as HD.
  pose proof (Nat.mod_upper_bound (length D) BS). set (q := (length D / BS)%nat) in *.
  set (hs := data_hashes sha256 D q). set (b := drop (BS * q) D).
  assert (zlen hs = Z.of_nat q) as Hq by (unfold zlen, hs; by rewrite data_hashes_length).
  assert (length b = length D mod BS)%nat as Hb by (unfold b; rewrite length_drop; lia).
  assert ((hash <-? builder_hash_block sha256 (build b (partial sha256 0 hs)) b ;;
    push_data_hash sha256 hash (build b (partial sha256 0 hs)))
    = @Ok E _ (build [] (partial sha256 0 (hs ++ [HB sha256 b (zlen hs * 8192)])))) as Hpush.
  { rewrite builder_hash_ok by (unfold zlen in *; nia). cbn [rbind].
    rewrite push_data_hash_ok; [done|]. unfold zlen in *. nia. }
  destruct (decide (BS * q = length D)%nat) as [Hd|Hd].
  - assert (b = []) as Hb0 by (apply length_zero_iff_nil; lia). rewrite Hb0 in *.
    change (zlen [] =? 0) with true. cbn [negb orb].
    destruct (decide (D = [])) as [->|Hne].
    + assert (q = 0%nat) as Hq0 by (unfold q; by rewrite Nat.Div0.div_0_l).
      rewrite Hq, Hq0 in *. cbn [Z.of_nat Z.eqb]. rewrite Hpush. unfold hs. by rewrite Hq0.
    + rewrite (proj2 (Z.eqb_neq (zlen hs) 0)); [rewrite (leaves_complete D) by done; done|].
      clear Hpush. assert (0 < length D)%nat by (destruct D; [exfalso; apply Hne; reflexivity|simpl; lia]).
      rewrite Hq. nia.
  - rewrite (proj2 (Z.eqb_neq (zlen b) 0)) by (unfold zlen; lia). cbn [negb orb].
    rewrite Hpush, leaves_tail, Hq by done. change 8192 with BLOCK_SIZE. reflexivity.
Qed.

Lemma finish_ok D :
  zlen D < 2 ^ 63 → @finish sha256 E (built D) = Ok (merkle_tree sha256 D).
Proof.
  intros Hlen. unfold finish, built. cbn [block].
  rewrite (get_level_partial _ [] _ 0 eq_refl : get_level (build _ (partial sha256 0 _)) 0 = _). cbn [rbind].
  rewrite finish_data by done. cbn [rbind].
  rewrite (get_level_partial _ [] _ 0 eq_refl : get_level (build _ (partial sha256 0 _)) 0 = _). cbn [rbind].
  destruct (leaves_bound D) as [Hne Hl]. pose proof BS_eq. pose proof (Nat.div_mod_eq (length D) BS).
  pose proof (finish_loop_ok (2 + length (leaves sha256 D)) [] [] 0 (leaves sha256 D) eq_refl Hne) as Hf.
  cbn [app] in Hf. rewrite Hf; [done| |lia]. unfold zlen in *. nia.
Qed.
End builder.

(** * Streams *)
Fixpoint write_each {E : Type} (sha256 : list Z → Hash) (bufs : list (list Z)) (self : MerkleTreeBuilder)
    : result E MerkleTreeBuilder :=
  match bufs with
  | [] => Ok self
  | buf :: bufs => self <-? write sha256 buf self ;; write_each sha256 bufs self
  end.

Section streams.
Context (sha256 : list Z → Hash) {E : Type}.

Lemma write_each_ok D bufs :
  zlen (D ++ concat bufs) < 2 ^ 64 →
  @write_each E sha256 bufs (built sha256 D) = Ok (built sha256 (D ++ concat bufs)).
Proof.
  revert D. induction bufs as [|buf bufs IH]; intros D Hlen; cbn [write_each concat] in *.
  - by rewrite app_nil_r.
  - rewrite app_assoc in Hlen |- *. rewrite write_ok.
    + cbn [rbind]. by apply IH.
    + unfold zlen in *. rewrite length_app in Hlen. lia.
Qed.

Lemma stream_spec bufs :
  zlen (concat bufs) < 2 ^ 63 →
  (b <-? @write_each E sha256 bufs builder_new ;; finish sha256 b) = Ok (merkle_tree sha256 (concat bufs)).
Proof.
  intros Hlen. rewrite (builder_new_built sha256), write_each_ok by (simpl; lia).
  cbn [rbind app]. by apply finish_ok.
Qed.

Lemma from_reader_loop_ok D bufs (rest : list (io_error + list Z)) :
  Forall (λ b, b ≠ []) bufs → zlen (D ++ concat bufs) < 2 ^ 64 →
  from_reader_loop sha256 (map inr bufs ++ rest) (built sha256 D)
  = from_reader_loop sha256 rest (built sha256 (D ++ concat bufs)).
Proof.
  revert D. induction bufs as [|buf bufs IH]; intros D Hne Hlen; cbn [map concat] in *.
  - by rewrite app_nil_r.
  - apply Forall_cons in Hne as [Hb Hne]. rewrite app_assoc in Hlen |- *.
    cbn [app from_reader_loop]. destruct buf as [|x buf]; [done|].
    rewrite write_ok; [cbn [rbind]; by apply IH|].
    unfold zlen in *. rewrite length_app in Hlen. lia.
Qed.
End streams.

(** The shape [MerkleTree::from_levels] asks for. *)
Fixpoint levels_ok (l : list (list Hash)) : Prop :=
  match l with
  | [] => False
  | hs :: l =>
      match l with
      | [] => length hs = 1%nat
      | hs' :: _ => zlen hs' = (zlen hs + (HASHES_PER_BLOCK - 1)) / HASHES_PER_BLOCK ∧ levels_ok l
      end
  end.

Section shape.
Context (sha256 : list Z → Hash).

(** The last hash of the tree over [hs], and its number of levels. *)
Lemma tree_shape k hs : hs ≠ [] → levels_ok (tree sha256 k hs) ∧ ∃ l, tree sha256 k hs = hs :: l.
Proof.
  remember (length hs) as n eqn:Hn. revert k hs Hn.
  induction n as [n IH] using lt_wf_ind. intros k hs -> Hne. rewrite tree_eq.
  destruct (decide (1 < length hs)%nat) as [H1|H1].
  - pose proof (parents_shorter sha256 k hs H1) as Hlt. pose proof HP_eq.
    assert (parents sha256 k hs ≠ []) as Hp.
    { intros Hz%(f_equal length). rewrite parents_length in Hz. simpl in Hz.
      apply Nat.div_small_iff in Hz; lia. }
    destruct (IH _ Hlt (k + 1) (parents sha256 k hs) eq_refl Hp) as [Hok [l Hl]].
    split; [|by eexists]. rewrite Hl in *. cbn [levels_ok]. split; [|done].
    unfold zlen. rewrite parents_length. change HASHES_PER_BLOCK with (Z.of_nat HP).
    rewrite Nat2Z.inj_div, Nat2Z.inj_add. by rewrite Nat2Z.inj_sub by lia.
  - split; [|by eexists]. cbn [levels_ok]. destruct hs; [done|]. simpl in *. lia.
Qed.

Lemma levels_root {E : Type} (l : list (list Hash)) :
  levels_ok l → ∃ h, last l = Some [h] ∧ root (from_levels l) = @Ok E Hash h.
Proof.
  intros Hl. assert (∃ h, last l = Some [h]) as [h Hh].
  { induction l as [|hs l IH]; [done|]. destruct l as [|hs' l].
    - cbn [levels_ok] in Hl. destruct hs as [|h [|]]; simpl in Hl; try lia. by exists h.
    - destruct Hl as [_ Hl]. rewrite last_cons_cons. by apply IH. }
  exists h. split; [done|]. rewrite last_lookup in Hh. unfold root. cbn [tree_levels from_levels].
  destruct l as [|hs l]; [done|]. unfold usub. rewrite (proj2 (Z.leb_le _ _)) by (unfold zlen; simpl; lia).
  cbn [rbind]. replace (Z.to_nat (zlen (hs :: l) - 1)) with (pred (length (hs :: l))) by (unfold zlen; simpl; lia).
  by rewrite Hh.
Qed.
End shape.

(** * The claims *)
Section claims.
Context (sha256 : list Z → Hash).

(** C28: The builder computes the tree of the whole data, however it is split into
    writes; no write and no level overflows or runs out of fuel. *)
Theorem merkle_stream_correct (E : Type) (bufs : list (list Z)) :
  zlen (concat bufs) < 2 ^ 63 →
  (b <-? @write_each E sha256 bufs builder_new ;; finish sha256 b) = Ok (merkle_tree sha256 (concat bufs)).
Proof. apply stream_spec. Qed.

(** Reading from a reader: the tree of all the bytes up to the first empty read,
    or the first error. *)
Theorem merkle_from_reader_correct (bufs : list (list Z)) (rest : list (io_error + list Z)) :
  Forall (λ b, b ≠ []) bufs → zlen (concat bufs) < 2 ^ 63 →
  from_reader sha256 (map inr bufs) = Ok (merkle_tree sha256 (concat bufs)) ∧
  from_reader sha256 (map inr bufs ++ inr [] :: rest) = Ok (merkle_tree sha256 (concat bufs)) ∧
  (∀ e, from_reader sha256 (map inr bufs ++ inl e :: rest) = Err e).
Proof.
  intros Hne Hlen.
  assert (∀ more, from_reader sha256 (map inr bufs ++ more)
                  = from_reader_loop sha256 more (built sha256 (concat bufs))) as Hread.
  { intros more. unfold from_reader. rewrite (builder_new_built sha256).
    by rewrite from_reader_loop_ok by (simpl; done || lia). }
  split_and!; [rewrite <- (app_nil_r (map inr bufs))| |intros e]; rewrite Hread; cbn [from_reader_loop];
    try done; by apply finish_ok.
Qed.

(** The levels of a finished tree: each has one hash for every [HASHES_PER_BLOCK]
    of the one below it, rounded up, the lowest has one for every block of the
    data, and the last has the root only. *)
Theorem merkle_tree_shape (E : Type) (D : list Z) :
  levels_ok (tree_levels (merkle_tree sha256 D)) ∧
  (∃ l, tree_levels (merkle_tree sha256 D) = leaves sha256 D :: l) ∧
  ∃ h, last (tree_levels (merkle_tree sha256 D)) = Some [h] ∧ root (merkle_tree sha256 D) = @Ok E Hash h.
Proof.
  destruct (leaves_bound sha256 D) as [Hne _]. destruct (tree_shape sha256 0 _ Hne) as [Hok Hl].
  split; [done|]. split; [done|]. by apply levels_root.
Qed.

(** The writer passes each buffer to the wrapped writer before hashing it: a
    buffer the wrapped writer accepts is accepted and is part of the tree, and a
    buffer it refuses leaves the tree as it was. *)
Theorem merkle_writer_correct (W : Type) `{!Write W} (D buf : list Z) (inner : W) :
  zlen (D ++ buf) < 2 ^ 63 →
  let self := {| writer_inner := inner; writer_builder := built sha256 D |} in
  writer_write sha256 buf self =
    (let (r, inner') := write_all buf inner in
     match r with
     | inl e => (Err e, {| writer_inner := inner'; writer_builder := built sha256 D |})
     | inr _ => (Ok (zlen buf), {| writer_inner := inner'; writer_builder := built sha256 (D ++ buf) |})
     end) ∧
  writer_finish sha256 self = Ok (merkle_tree sha256 D) ∧
  writer_new inner = {| writer_inner := inner; writer_builder := built sha256 [] |}.
Proof.
  intros Hlen self. subst self. unfold writer_write, writer_finish. cbn [writer_inner writer_builder].
  pose proof (zlen_nonneg buf). split_and!.
  - destruct (write_all buf inner) as [[e|u] inner']; [done|]. rewrite write_ok; [done|].
    unfold zlen in *. rewrite ?length_app in *. lia.
  - apply finish_ok. unfold zlen in *. rewrite length_app in Hlen. lia.
  - unfold writer_new. by rewrite (builder_new_built sha256).
Qed.
End claims.

(** * Witnesses *)
Definition toy_hash (x : list Z) : Hash := replicate 32 (1 + zlen x).

Lemma merkle_stream_correct_witness :
  (b <-? @write_each io_error toy_hash [[1; 2]; [3]] builder_new ;; finish toy_hash b)
  = Ok (merkle_tree toy_hash [1; 2; 3]).
Proof. apply (merkle_stream_correct toy_hash io_error [[1; 2]; [3]]). vm_compute. reflexivity. Defined.

Lemma merkle_from_reader_correct_witness :
  from_reader toy_hash [inr [1]; inr [2; 3]] = Ok (merkle_tree toy_hash [1; 2; 3]).
Proof.
  apply (merkle_from_reader_correct toy_hash [[1]; [2; 3]] []).
  - repeat constructor; discriminate.
  - vm_compute. reflexivity.
Defined.

Lemma merkle_writer_correct_witness :
  writer_write toy_hash [3] {| writer_inner := [1; 2]; writer_builder := built toy_hash [1; 2] |}
  = (Ok 1, {| writer_inner := [1; 2; 3]; writer_builder := built toy_hash [1; 2; 3] |}).
Proof. refine (proj1 (merkle_writer_correct toy_hash (list Z) [1; 2] [3] [1; 2] _)). vm_compute. reflexivity. Defined.
