(* ===== verification/MerkleBinding.v ===== *)
(** The root of a Merkle tree commits to the data: where SHA-256 does not
    collide on the blocks hashed for two trees, equal roots mean equal data. *)

From S2P Require Import Prelude Std Merkle MerkleTheorems.

(** * Lists of blocks *)
Section lists.
Context {A : Type}.
Implicit Types (l : list A).

Lemma lookup_chunk (c j r : nat) l : (r < c)%nat → chunk c j l !! r = l !! (c * j + r)%nat.
Proof. intros Hr. unfold chunk. by rewrite lookup_take_lt, lookup_drop by done. Qed.

Lemma chunks_ext (c n : nat) l l' :
  (0 < c)%nat → (length l ≤ c * n)%nat → (length l' ≤ c * n)%nat →
  (∀ j, (j < n)%nat → chunk c j l = chunk c j l') → l = l'.
Proof.
  intros Hc Hl Hl' Heq. apply list_eq. intros i. destruct (decide (i < c * n)%nat) as [Hi|Hi].
  - pose proof (Nat.div_mod_eq i c). pose proof (Nat.mod_upper_bound i c).
    assert (i / c < n)%nat as Hj by (apply Nat.Div0.div_lt_upper_bound; lia).
    pose proof (f_equal (lookup (i mod c)%nat) (Heq _ Hj)) as Hk.
    rewrite !lookup_chunk in Hk by lia. by replace i with (c * (i / c) + i mod c)%nat by lia.
  - rewrite !lookup_ge_None_2 by lia. done.
Qed.

Lemma concat_inj (n : nat) (l l' : list (list A)) :
  (0 < n)%nat → Forall (λ x, length x = n) l → Forall (λ x, length x = n) l' →
  concat l = concat l' → l = l'.
Proof.
  intros Hn. revert l'. induction l as [|x l IH]; intros [|y l'] Hl Hl' Heq; try done.
  - apply Forall_cons in Hl' as [Hy _]. apply (f_equal length) in Heq. simpl in Heq.
    rewrite length_app in Heq. lia.
  - apply Forall_cons in Hl as [Hx _]. apply (f_equal length) in Heq. simpl in Heq.
    rewrite length_app in Heq. lia.
  - apply Forall_cons in Hl as [Hx Hl]. apply Forall_cons in Hl' as [Hy Hl']. simpl in Heq.
    apply app_inj_1 in Heq as [-> Heq]; [|lia]. f_equal. by apply IH.
Qed.

Lemma app_included l1 l2 l : l1 ++ l2 ⊆ l → l1 ⊆ l ∧ l2 ⊆ l.
Proof. intros H. split; intros x Hx; apply H, elem_of_app; auto. Qed.

(** Padding hides trailing zero hashes only. *)
Lemma padded_inj (z : A) l l' (n : nat) :
  l ++ replicate (n - length l) z = l' ++ replicate (n - length l') z →
  (length l ≤ n)%nat → (length l' ≤ n)%nat → l = l' ∨ z ∈ l ∨ z ∈ l'.
Proof.
  intros Heq Hl Hl'. destruct (Nat.lt_trichotomy (length l) (length l')) as [Hlt|[He|Hlt]].
  - right. right. apply list_elem_of_lookup. exists (length l).
    pose proof (f_equal (lookup (length l)) Heq) as Hk.
    rewrite lookup_app_r, lookup_app_l, Nat.sub_diag in Hk by lia.
    by rewrite <- Hk, lookup_replicate_2 by lia.
  - left. by apply app_inj_1 in Heq as [? _].
  - right. left. apply list_elem_of_lookup. exists (length l').
    pose proof (f_equal (lookup (length l')) Heq) as Hk.
    rewrite lookup_app_l, lookup_app_r, Nat.sub_diag in Hk by lia.
    by rewrite Hk, lookup_replicate_2 by lia.
Qed.
End lists.

(** * Binding *)
Section inputs.
Context (sha256 : list Z → Hash).

(** Everything hashed for the tree over the data [D]: its data blocks, and the
    blocks of hashes of each level. *)
Definition level_inputs (k : Z) (hs : list Hash) : list (list Z) :=
  map (λ j, hashes_input (chunk HP j hs) (k + 1) (Z.of_nat j * BLOCK_SIZE))
      (seq 0 ((length hs + (HP - 1)) / HP)).
Fixpoint levels_inputs (k : Z) (levels : list (list Hash)) : list (list Z) :=
  match levels with
  | [] | [_] => []
  | hs :: levels => level_inputs k hs ++ levels_inputs (k + 1) levels
  end.
Lemma levels_inputs_cons k hs l :
  l ≠ [] → levels_inputs k (hs :: l) = level_inputs k hs ++ levels_inputs (k + 1) l.
Proof. by destruct l. Qed.
Definition blocks_of (D : list Z) : nat :=
  if decide (D = []) then 1%nat else ((length D + (BS - 1)) / BS)%nat.
Definition data_inputs (D : list Z) : list (list Z) :=
  map (λ j, block_input (chunk BS j D) (Z.of_nat j * BLOCK_SIZE)) (seq 0 (blocks_of D)).
Definition inputs (D : list Z) : list (list Z) :=
  data_inputs D ++ levels_inputs 0 (tree_levels (merkle_tree sha256 D)).

(** No collision, and no zero hash, on the inputs [l]. *)
Definition collision_free (l : list (list Z)) : Prop :=
  (∀ x y, x ∈ l → y ∈ l → sha256 x = sha256 y → x = y) ∧
  (∀ x, x ∈ l → sha256 x ≠ zeros HASH_SIZE).

Lemma leaves_data D : leaves sha256 D = map sha256 (data_inputs D).
Proof.
  unfold data_inputs, blocks_of. rewrite map_map. destruct D as [|x D]; [|done].
  unfold leaves, chunk. simpl. by rewrite drop_nil, take_nil.
Qed.
Lemma parents_level k hs : parents sha256 k hs = map sha256 (level_inputs k hs).
Proof. unfold level_inputs, parents, groups. by rewrite map_map. Qed.
(** The top of a tree of more than one level is the hash of one block. *)
Lemma tree_top k hs :
  (1 < length hs)%nat → ∃ d hs2, length (tree sha256 k hs) = S (S d) ∧
    hashes_input hs2 (k + Z.of_nat (S d)) 0 ∈ levels_inputs k (tree sha256 k hs) ∧
    last (tree sha256 k hs) = Some [HH sha256 hs2 (k + Z.of_nat (S d)) 0].
Proof.
  remember (length hs) as n eqn:Hn. revert k hs Hn.
  induction n as [n IH] using lt_wf_ind. intros k hs -> H1. rewrite tree_eq, decide_True by done.
  pose proof (parents_shorter sha256 k hs H1) as Hlt.
  assert (∀ j l, tree sha256 j l ≠ []) as Htree by (intros j l; rewrite tree_eq; by destruct (decide _)).
  rewrite levels_inputs_cons by apply Htree.
  destruct (decide (1 < length (parents sha256 k hs))%nat) as [Hp|Hp].
  - destruct (IH _ Hlt (k + 1) _ eq_refl Hp) as (d&hs2&Hd&Hin&Hlast). exists (S d), hs2.
    replace (k + 1 + Z.of_nat (S d)) with (k + Z.of_nat (S (S d))) in Hin, Hlast by lia.
    cbn [length]. rewrite Hd. split; [done|]. split; [apply elem_of_app; by right|].
    destruct (tree sha256 (k + 1) (parents sha256 k hs)) as [|y l]; [done|].
    by rewrite last_cons_cons, Hlast.
  - rewrite tree_eq, decide_False by done. exists 0%nat, (chunk HP 0 hs).
    pose proof HP_eq. pose proof (parents_length sha256 k hs) as Hl.
    assert ((length hs + (HP - 1)) / HP = 1)%nat as H1n.
    { assert ((length hs + (HP - 1)) / HP ≠ 0)%nat; [|lia]. intros Hz.
      apply Nat.div_small_iff in Hz; lia. }
    unfold level_inputs, parents, groups. rewrite H1n. split; [done|].
    split; [apply elem_of_app; left; apply list_elem_of_here|done].
Qed.

Lemma tree_depth k hs : hs ≠ [] → 2 ^ (zlen (tree sha256 k hs) - 1) ≤ zlen hs.
Proof.
  remember (length hs) as n eqn:Hn. revert k hs Hn.
  induction n as [n IH] using lt_wf_ind. intros k hs -> Hne. rewrite tree_eq.
  assert (0 < length hs)%nat by (destruct hs; [done|simpl; lia]).
  destruct (decide (1 < length hs)%nat) as [H1|H1]; [|unfold zlen; simpl; lia].
  pose proof (parents_shorter sha256 k hs H1) as Hlt. pose proof HP_eq.
  pose proof (parents_length sha256 k hs) as Hl.
  pose proof (Nat.div_mod_eq (length hs + (HP - 1)) HP).
  pose proof (Nat.mod_upper_bound (length hs + (HP - 1)) HP).
  assert (0 < length (parents sha256 k hs))%nat as Hpos.
  { rewrite Hl. assert ((length hs + (HP - 1)) / HP ≠ 0)%nat; [|lia]. intros Hz.
    apply Nat.div_small_iff in Hz; lia. }
  assert (parents sha256 k hs ≠ []) as Hp by (intros Hz; rewrite Hz in Hpos; simpl in Hpos; lia).
  specialize (IH _ Hlt (k + 1) _ eq_refl Hp).
  unfold zlen in *. cbn [length]. set (t := length (tree _ _ _)) in *.
  assert (t ≠ 0)%nat by (unfold t; rewrite tree_eq; destruct (decide _); done).
  replace (Z.of_nat (S t) - 1) with (Z.succ (Z.of_nat t - 1)) by lia. rewrite Z.pow_succ_r by lia. nia.
Qed.
End inputs.

Section binding.
Context (sha256 : list Z → Hash) (U : list (list Z)).
Context (Hsha : ∀ x, length (sha256 x) = 32%nat) (HS : collision_free sha256 U).

Definition is_hash (h : Hash) : Prop := ∃ x, x ∈ U ∧ h = sha256 x.

Lemma sha_inj x y : x ∈ U → y ∈ U → sha256 x = sha256 y → x = y.
Proof. apply HS. Qed.
Lemma map_hashes l : l ⊆ U → Forall is_hash (map sha256 l).
Proof.
  intros Hl. apply Forall_forall. intros h Hh.
  apply list_elem_of_In, in_map_iff in Hh as (x&<-&Hx). exists x. split; [|done].
  by apply Hl, list_elem_of_In.
Qed.

Lemma le_bytes_inj n v v' :
  0 ≤ n → 0 ≤ v < 2 ^ (8 * n) → 0 ≤ v' < 2 ^ (8 * n) → to_le_bytes n v = to_le_bytes n v' → v = v'.
Proof. intros Hn Hv Hv' He. by rewrite <- (from_to_le_bytes n v), He, from_to_le_bytes. Qed.
Lemma le_bytes_length n v : 0 ≤ n → length (to_le_bytes n v) = Z.to_nat n.
Proof. intros. apply Nat2Z.inj. unfold to_le_bytes. rewrite length_Z_to_little_endian; lia. Qed.

(** The identity of a block and what follows it. *)
Lemma identity_inj len len' k k' o o' (r r' : list Z) :
  0 ≤ Z.lor o k < 2 ^ 64 → 0 ≤ Z.lor o' k' < 2 ^ 64 → 0 ≤ len < 2 ^ 32 → 0 ≤ len' < 2 ^ 32 →
  make_identity len k o ++ r = make_identity len' k' o' ++ r' →
  Z.lor o k = Z.lor o' k' ∧ len = len' ∧ r = r'.
Proof.
  intros H1 H2 H3 H4 He. unfold make_identity in He. rewrite !Z.mod_small in He by done.
  rewrite <- !app_assoc in He. apply app_inj_1 in He as [Ho He]; [|by rewrite !le_bytes_length].
  apply app_inj_1 in He as [Hl He]; [|by rewrite !le_bytes_length].
  split; [by apply le_bytes_inj in Ho|]. split; [by apply le_bytes_inj in Hl|done].
Qed.

Lemma block_input_inj b b' o o' :
  zlen b ≤ 8192 → zlen b' ≤ 8192 → 0 ≤ o < 2 ^ 64 → 0 ≤ o' < 2 ^ 64 →
  block_input b o = block_input b' o' → b = b' ∧ o = o'.
Proof.
  intros Hb Hb' Ho Ho' He. unfold block_input in He.
  pose proof (zlen_nonneg b). pose proof (zlen_nonneg b').
  apply identity_inj in He as (H1&H2&H3); rewrite ?Z.lor_0_r in *; try lia.
  split; [|done]. apply app_inj_1 in H3 as [? _]; [done|]. unfold zlen in H2. lia.
Qed.

(** Block offsets and levels do not overlap. *)
Lemma lor_level q k : 0 ≤ q → 0 ≤ k < 8192 → Z.lor (q * 8192) k = q * 8192 + k.
Proof.
  intros Hq Hk. rewrite <- Z.add_lor_land. replace (Z.land (q * 8192) k) with 0; [lia|]. symmetry.
  change 8192 with (2 ^ 13) in *. apply Z.bits_inj'. intros i Hi.
  rewrite Z.land_spec, Z.bits_0. destruct (decide (i < 13)).
  - by rewrite Z.mul_pow2_bits_low.
  - rewrite (Z.bits_above_log2 k i); [by rewrite andb_false_r|lia|].
    destruct (decide (k = 0)) as [->|]; [simpl; lia|].
    assert (Z.log2 k < 13) by (apply Z.log2_lt_pow2; lia). lia.
Qed.

(** The level of a block is part of what is hashed for it. *)
Lemma hashes_input_level hs hs' k k' :
  0 ≤ k < 8192 → 0 ≤ k' < 8192 → hashes_input hs k 0 = hashes_input hs' k' 0 → k = k'.
Proof.
  intros Hk Hk' He. unfold hashes_input in He.
  apply identity_inj in He as (H1&_&_); rewrite ?Z.lor_0_l in *; change BLOCK_SIZE with 8192; lia.
Qed.
Lemma block_not_hashes b hs k :
  zlen b ≤ 8192 → 0 < k < 8192 → block_input b 0 ≠ hashes_input hs k 0.
Proof.
  intros Hb Hk He. unfold block_input, hashes_input in He. pose proof (zlen_nonneg b).
  apply identity_inj in He as (H1&_&_); rewrite ?Z.lor_0_l in *; change BLOCK_SIZE with 8192; lia.
Qed.

(** Hash blocks of the same place. *)
Lemma hashes_input_inj hs hs' k q :
  Forall is_hash hs → Forall is_hash hs' → (length hs ≤ HP)%nat → (length hs' ≤ HP)%nat →
  0 ≤ k < 8192 → 0 ≤ q * 8192 < 2 ^ 63 →
  hashes_input hs k (q * 8192) = hashes_input hs' k (q * 8192) → hs = hs'.
Proof.
  intros Hh Hh' Hl Hl' Hk Hq He. unfold hashes_input in He.
  apply identity_inj in He as (_&_&He); rewrite ?lor_level by lia; try (change BLOCK_SIZE with 8192; lia).
  pose proof HP_eq as HHP. change HASHES_PER_BLOCK with 256 in He.
  rewrite <- !concat_app in He.
  assert (∀ l, Forall is_hash l → ∀ n, Forall (λ x, length x = 32%nat) (l ++ replicate n (zeros HASH_SIZE))) as H32.
  { intros l Hf n. apply Forall_app. split; [|by apply Forall_replicate].
    eapply Forall_impl; [exact Hf|]. intros h (x&_&->). apply Hsha. }
  apply (concat_inj 32) in He; [|lia|by apply H32..].
  replace (Z.to_nat (256 - zlen hs)) with (HP - length hs)%nat in He by (unfold zlen; lia).
  replace (Z.to_nat (256 - zlen hs')) with (HP - length hs')%nat in He by (unfold zlen; lia).
  apply padded_inj in He as [?|[Hz|Hz]]; [done|exfalso..|done|done].
  - by eapply (proj1 (Forall_forall is_hash hs)) in Hz as (x&Hx&Hz); [apply HS in Hx|].
  - by eapply (proj1 (Forall_forall is_hash hs')) in Hz as (x&Hx&Hz); [apply HS in Hx|].
Qed.

(** Equal lists of block hashes have equal blocks. *)
Lemma map_seq_inj (f g : nat → list Z) n n' :
  map f (seq 0 n) ⊆ U → map g (seq 0 n') ⊆ U →
  map sha256 (map f (seq 0 n)) = map sha256 (map g (seq 0 n')) →
  n = n' ∧ ∀ j, (j < n)%nat → f j = g j.
Proof.
  intros Hf Hg He. rewrite !map_map in He. assert (n = n') as <-.
  { apply (f_equal length) in He. by rewrite !length_map, !length_seq in He. }
  split; [done|]. intros j Hj. pose proof (f_equal (lookup j) He) as Hk.
  rewrite !list_lookup_fmap, !lookup_seq_lt in Hk by done. simpl in Hk. simplify_eq.
  assert (In j (seq 0 n)) by (apply in_seq; lia).
  apply sha_inj; [apply Hf|apply Hg|done]; by apply list_elem_of_In, in_map.
Qed.

Lemma ceil_le (c l : nat) : (0 < c)%nat → (l ≤ c * ((l + (c - 1)) / c))%nat ∧ (c * ((l + (c - 1)) / c) ≤ l + c)%nat.
Proof.
  intros Hc. pose proof (Nat.div_mod_eq (l + (c - 1)) c).
  pose proof (Nat.mod_upper_bound (l + (c - 1)) c). lia.
Qed.

Lemma parents_inj k hs hs' :
  Forall is_hash hs → Forall is_hash hs' → 0 ≤ k < 8191 → zlen hs * 8192 < 2 ^ 63 →
  level_inputs k hs ⊆ U → level_inputs k hs' ⊆ U →
  parents sha256 k hs = parents sha256 k hs' → hs = hs'.
Proof.
  intros Hh Hh' Hk Hb HP1 HP2 He. pose proof HP_eq as HHP. rewrite !parents_level in He.
  apply map_seq_inj in He as [Hn He]; [|done..].
  destruct (ceil_le HP (length hs)) as [Hc Hc2]; [lia|].
  destruct (ceil_le HP (length hs')) as [Hc' _]; [lia|]. rewrite <- Hn in Hc'.
  set (n := ((length hs + (HP - 1)) / HP)%nat) in *.
  apply (chunks_ext HP n); [lia|done..|]. intros j Hj. specialize (He j Hj).
  change BLOCK_SIZE with 8192 in He. apply hashes_input_inj in He; [done|..].
  1,2: by apply Forall_take, Forall_drop.
  1,2: unfold chunk; rewrite length_take; lia.
  - lia.
  - unfold zlen in Hb. assert (n ≤ length hs + 1)%nat by nia. lia.
Qed.

(** Trees of the same height with the same root. *)
Lemma tree_inj n k hs hs' :
  length (tree sha256 k hs) = n → length (tree sha256 k hs') = n →
  last (tree sha256 k hs) = last (tree sha256 k hs') →
  levels_inputs k (tree sha256 k hs) ⊆ U → levels_inputs k (tree sha256 k hs') ⊆ U →
  Forall is_hash hs → Forall is_hash hs' → 0 ≤ k → k + Z.of_nat n ≤ 8191 →
  zlen hs * 8192 < 2 ^ 63 → hs = hs'.
Proof.
  revert k hs hs'. induction n as [|n IH]; intros k hs hs' Hn Hn' Hl HI HI' Hh Hh' Hk Hkn Hb.
  { rewrite tree_eq in Hn. by destruct (decide _). }
  rewrite tree_eq in Hn, Hl, HI. rewrite (tree_eq sha256 k hs') in Hn', Hl, HI'.
  destruct (decide (1 < length hs)%nat) as [H1|H1], (decide (1 < length hs')%nat) as [H1'|H1'].
  - cbn [length] in Hn, Hn'. injection Hn as Hn. injection Hn' as Hn'.
    assert (∀ (x : list Hash) l, l ≠ [] → last (x :: l) = last l) as Hlast by (by intros x [|]).
    assert (∀ j l, tree sha256 j l ≠ []) as Htree by (intros j l; rewrite tree_eq; by destruct (decide _)).
    rewrite !Hlast in Hl by apply Htree. rewrite levels_inputs_cons in HI, HI' by apply Htree.
    pose proof (parents_shorter sha256 k hs H1).
    apply app_included in HI as [Hi HI], HI' as [Hi' HI'].
    apply (parents_inj k); try done; [lia|].
    apply (IH (k + 1)); try assumption; try lia.
    1,2: rewrite parents_level; by apply map_hashes.
    unfold zlen in *. lia.
  - simpl in Hn, Hn'. rewrite tree_eq in Hn. destruct (decide _) in Hn; simpl in *; lia.
  - simpl in Hn, Hn'. rewrite tree_eq in Hn'. destruct (decide _) in Hn'; simpl in *; lia.
  - simpl in Hl. by simplify_eq.
Qed.

Lemma leaves_inj D D' :
  zlen D < 2 ^ 62 → zlen D' < 2 ^ 62 → data_inputs D ⊆ U → data_inputs D' ⊆ U →
  leaves sha256 D = leaves sha256 D' → D = D'.
Proof.
  intros Hb Hb' HD HD' He. pose proof BS_eq as HBS. rewrite !leaves_data in He.
  apply map_seq_inj in He as [Hn He]; [|done..].
  assert (∀ X : list Z, (length X ≤ BS * blocks_of X)%nat ∧ (BS * blocks_of X ≤ length X + BS)%nat) as Hceil.
  { intros X. unfold blocks_of. destruct (decide (X = [])) as [->|]; [simpl; lia|]. apply ceil_le. lia. }
  destruct (Hceil D) as [H1 H2]. destruct (Hceil D') as [H1' _]. rewrite <- Hn in H1'.
  apply (chunks_ext BS (blocks_of D)); [lia|done..|]. intros j Hj. specialize (He j Hj).
  change BLOCK_SIZE with 8192 in He. unfold zlen in *.
  apply block_input_inj in He as [? _]; [done|..]; unfold zlen, chunk; rewrite ?length_take; nia.
Qed.
End binding.

(** * The theorem *)
Section commits.
Context (sha256 : list Z → Hash) (Hsha : ∀ x, length (sha256 x) = 32%nat).

Lemma leaves_zlen D : zlen D < 2 ^ 62 → leaves sha256 D ≠ [] ∧ zlen (leaves sha256 D) ≤ 2 ^ 49.
Proof.
  intros HD. destruct (leaves_bound sha256 D) as [Hne Hl]. split; [done|]. pose proof BS_eq.
  pose proof (Nat.div_mod_eq (length D) BS). unfold zlen in *. nia.
Qed.

Lemma depth_bound D : zlen D < 2 ^ 62 → zlen (tree sha256 0 (leaves sha256 D)) ≤ 50.
Proof.
  intros HD. destruct (leaves_zlen D HD) as [Hne Hl].
  pose proof (tree_depth sha256 0 _ Hne) as Hd. apply Znot_gt_le. intros Hgt.
  assert (2 ^ 50 ≤ 2 ^ (zlen (tree sha256 0 (leaves sha256 D)) - 1)) by (apply Z.pow_le_mono_r; lia). lia.
Qed.

(** The top block: of data, or of the hashes of some level. *)
Lemma top_block D : zlen D < 2 ^ 62 →
  (length (tree sha256 0 (leaves sha256 D)) = 1%nat ∧
   ∃ b, zlen b ≤ 8192 ∧ block_input b 0 ∈ inputs sha256 D ∧
        last (tree sha256 0 (leaves sha256 D)) = Some [sha256 (block_input b 0)]) ∨
  (∃ d hs, length (tree sha256 0 (leaves sha256 D)) = S (S d) ∧
           hashes_input hs (Z.of_nat (S d)) 0 ∈ inputs sha256 D ∧
           last (tree sha256 0 (leaves sha256 D)) = Some [sha256 (hashes_input hs (Z.of_nat (S d)) 0)]).
Proof.
  intros HD. destruct (leaves_zlen D HD) as [Hne Hl].
  destruct (decide (1 < length (leaves sha256 D))%nat) as [H1|H1].
  - right. destruct (tree_top sha256 0 _ H1) as (d&hs&Hd&Hin&Hlast). exists d, hs.
    rewrite Z.add_0_l in *. split; [done|]. split; [|done]. unfold inputs. apply elem_of_app. by right.
  - left. rewrite tree_eq, decide_False by done. split; [done|]. exists (chunk BS 0 D).
    pose proof BS_eq. split; [unfold zlen, chunk; rewrite length_take; lia|].
    rewrite leaves_data in *. unfold inputs, data_inputs in *. rewrite length_map, length_map, length_seq in H1.
    assert (blocks_of D = 1%nat) as HB1.
    { destruct (blocks_of D) as [|n] eqn:HBD; [done|]. lia. }
    rewrite HB1. split; [apply elem_of_app; left; apply list_elem_of_here|done].
Qed.

Lemma root_last {E : Type} D h :
  root (merkle_tree sha256 D) = @Ok E Hash h → last (tree sha256 0 (leaves sha256 D)) = Some [h].
Proof.
  destruct (leaves_bound sha256 D) as [Hne _]. destruct (tree_shape sha256 0 _ Hne) as [Hok _].
  destruct (@levels_root E _ Hok) as (h'&Hlast&Hr). unfold merkle_tree. rewrite Hr. intros [= ->]. done.
Qed.

Lemma commits_spec {E : Type} D D' h :
  zlen D < 2 ^ 62 → zlen D' < 2 ^ 62 →
  collision_free sha256 (inputs sha256 D ++ inputs sha256 D') →
  root (merkle_tree sha256 D) = @Ok E Hash h → root (merkle_tree sha256 D') = @Ok E Hash h → D = D'.
Proof.
  intros HD HD' HU Hr%root_last Hr'%root_last.
  assert (∀ x, x ∈ inputs sha256 D → x ∈ inputs sha256 D ++ inputs sha256 D') as Hin
    by (intros; apply elem_of_app; by left).
  assert (∀ x, x ∈ inputs sha256 D' → x ∈ inputs sha256 D ++ inputs sha256 D') as Hin'
    by (intros; apply elem_of_app; by right).
  assert (length (tree sha256 0 (leaves sha256 D)) = length (tree sha256 0 (leaves sha256 D'))) as Hlen.
  { pose proof (depth_bound D HD) as Hb. pose proof (depth_bound D' HD') as Hb'. unfold zlen in Hb, Hb'.
    destruct (top_block D HD) as [(E1&b&Hb1&I1&L1)|(d&hs&E1&I1&L1)],
             (top_block D' HD') as [(E2&b'&Hb2&I2&L2)|(d'&hs'&E2&I2&L2)];
      rewrite Hr in L1; rewrite Hr' in L2; rewrite L1 in L2; injection L2 as L2;
      apply (sha_inj sha256 _ HU) in L2; try (by apply Hin + by apply Hin').
    - by rewrite E1, E2.
    - apply block_not_hashes in L2; [done|done|]. rewrite E2 in Hb'. lia.
    - symmetry in L2. apply block_not_hashes in L2; [done|done|]. rewrite E1 in Hb. lia.
    - apply hashes_input_level in L2; [|lia..]. rewrite E1, E2. lia. }
  pose proof (leaves_zlen D HD) as [_ Hlz]. pose proof (depth_bound D HD) as Hb. unfold zlen in Hb.
  assert (∀ X, data_inputs X ⊆ inputs sha256 X) as Hd
    by (intros X x Hx; apply elem_of_app; by left).
  assert (∀ X, levels_inputs 0 (tree sha256 0 (leaves sha256 X)) ⊆ inputs sha256 X) as Hl
    by (intros X x Hx; apply elem_of_app; by right).
  apply (leaves_inj sha256 _ HU); try done; [by intros x Hx; apply Hin, Hd|by intros x Hx; apply Hin', Hd|].
  eapply (tree_inj sha256 _ Hsha HU _ 0); [reflexivity|done|by rewrite Hr, Hr'| | | | |lia|lia|lia].
  - intros x Hx. by apply Hin, Hl.
  - intros x Hx. by apply Hin', Hl.
  - rewrite leaves_data. apply map_hashes. intros x Hx. by apply Hin, Hd.
  - rewrite leaves_data. apply map_hashes. intros x Hx. by apply Hin', Hd.
Qed.
End commits.

(** * The claim *)

(** C29: The root that the builder computes commits to the data: when the data of two
    sequences of writes, each of less than 2^62 bytes, get the same root, they are the same data.  This
    is where SHA-256 gives 32 bytes, and neither collides nor gives a hash of zeroes on
    the blocks hashed for the two trees. *)
Theorem merkle_root_commits (E : Type) (sha256 : list Z → Hash) (bufs bufs' : list (list Z)) t t' h :
  (∀ x, length (sha256 x) = 32%nat) → zlen (concat bufs) < 2 ^ 62 → zlen (concat bufs') < 2 ^ 62 →
  collision_free sha256 (inputs sha256 (concat bufs) ++ inputs sha256 (concat bufs')) →
  (b <-? @write_each E sha256 bufs builder_new ;; finish sha256 b) = Ok t →
  (b <-? @write_each E sha256 bufs' builder_new ;; finish sha256 b) = Ok t' →
  @root E t = Ok h → @root E t' = Ok h → concat bufs = concat bufs'.
Proof.
  intros Hsha H1 H2 HU. rewrite !stream_spec by lia. intros [= <-] [= <-]. by apply commits_spec.
Qed.

(** A hash that tells the first bytes of blocks apart. *)
Definition prefix_hash (x : list Z) : Hash := 1 :: take 31 (x ++ zeros 31).
Lemma prefix_inputs v : inputs prefix_hash [v] = [block_input [v] 0].
Proof.
  unfold inputs, merkle_tree. cbn [tree_levels from_levels]. rewrite tree_eq, decide_False; [done|]. rewrite leaves_data.
  unfold data_inputs. rewrite !length_map, length_seq. change (blocks_of [v]) with 1%nat. lia.
Qed.
Lemma prefix_collision_free : collision_free prefix_hash ([block_input [7] 0] ++ [block_input [8] 0]).
Proof.
  split; [|done]. intros x y Hx Hy. cbn [app] in Hx, Hy. apply elem_of_cons in Hx as [->| ->%list_elem_of_singleton];
    apply elem_of_cons in Hy as [->| ->%list_elem_of_singleton]; try done; intros He%(f_equal (lookup 13%nat)); vm_compute in He; done.
Qed.
Lemma merkle_root_commits_witness : ∃ t t' h h',
  (b <-? @write_each io_error prefix_hash [[7]] builder_new ;; finish prefix_hash b) = Ok t ∧
  (b <-? @write_each io_error prefix_hash [[8]; []] builder_new ;; finish prefix_hash b) = Ok t' ∧
  @root io_error t = Ok h ∧ @root io_error t' = Ok h' ∧ h ≠ h'.
Proof.
  assert (∀ D, ∃ h, @root io_error (merkle_tree prefix_hash D) = Ok h) as Hroot.
  { intros D. destruct (leaves_bound prefix_hash D) as [Hne _]. destruct (tree_shape prefix_hash 0 _ Hne) as [Hok _].
    destruct (@levels_root io_error _ Hok) as (h&_&Hr). by exists h. }
  destruct (Hroot [7]) as [h Hr], (Hroot [8]) as [h' Hr'].
  exists (merkle_tree prefix_hash [7]), (merkle_tree prefix_hash [8]), h, h'.
  assert ((b <-? @write_each io_error prefix_hash [[7]] builder_new ;; finish prefix_hash b) = Ok (merkle_tree prefix_hash [7]))
    as E1 by (apply stream_spec; done).
  assert ((b <-? @write_each io_error prefix_hash [[8]; []] builder_new ;; finish prefix_hash b) = Ok (merkle_tree prefix_hash [8]))
    as E2 by (apply stream_spec; done).
  split_and!; [exact E1|exact E2|exact Hr|exact Hr'|]. intros <-.
  assert (concat [[7]] = concat [[8]; []]) as Heq; [|discriminate Heq].
  apply (merkle_root_commits io_error prefix_hash [[7]] [[8]; []] (merkle_tree prefix_hash [7]) (merkle_tree prefix_hash [8]) h); [|done|done| |exact E1|exact E2|exact Hr|exact Hr'].
  - intros x. unfold prefix_hash. cbn [length]. rewrite length_take, length_app. unfold zeros. rewrite length_replicate. lia.
  - cbn [concat app]. rewrite !prefix_inputs. apply prefix_collision_free.
Defined.
