(* ===== verification/Archive.v ===== *)
(** Fuchsia archives ([fuchsia-archive/src/lib.rs]): the writer of archives and
    the reader of their directories and files.

    The [bincode] encoding of the fixed-size records is a parameter, with its
    documented behaviour in the class [BincodeSpec]. *)

From S2P Require Import Prelude Std.

(** * Format *)
Definition MAGIC_INDEX_VALUE : list Z := [0xc8; 0xbf; 0x0b; 0x48; 0xad; 0xab; 0xc5; 0x11].
Definition DIR_HASH_CHUNK : Z := 0x2d48534148524944.
Definition DIR_CHUNK : Z := 0x2d2d2d2d2d524944.
Definition DIR_NAMES_CHUNK : Z := 0x53454d414e524944.

Record Index := { magic : list Z; index_length : Z }.
Definition INDEX_LEN : Z := 16.
Record IndexEntry := { chunk_type : Z; chunk_offset : Z; chunk_length : Z }.
Definition INDEX_ENTRY_LEN : Z := 24.
Record DirectoryEntry := {
  name_offset : Z; name_length : Z; reserved : Z;
  data_offset : Z; data_length : Z; reserved2 : Z
}.
Definition DIRECTORY_ENTRY_LEN : Z := 32.
Definition CONTENT_ALIGNMENT : Z := 4096.

(** The values of the records' fields. *)
Definition u_ok (w x : Z) : Prop := 0 ≤ x < 2 ^ w.
Class Fields (T : Type) := { size_of : Z; fields_ok : T → Prop }.
#[export] Instance index_fields : Fields Index :=
  {| size_of := INDEX_LEN; fields_ok i := zlen (magic i) = 8 ∧ bytes_ok (magic i) ∧ u_ok 64 (index_length i) |}.
#[export] Instance index_entry_fields : Fields IndexEntry :=
  {| size_of := INDEX_ENTRY_LEN;
     fields_ok e := u_ok 64 (chunk_type e) ∧ u_ok 64 (chunk_offset e) ∧ u_ok 64 (chunk_length e) |}.
#[export] Instance directory_entry_fields : Fields DirectoryEntry :=
  {| size_of := DIRECTORY_ENTRY_LEN;
     fields_ok e := u_ok 32 (name_offset e) ∧ u_ok 16 (name_length e) ∧ u_ok 16 (reserved e) ∧
       u_ok 64 (data_offset e) ∧ u_ok 64 (data_length e) ∧ u_ok 64 (reserved2 e) |}.

(** [bincode]: what [serialize_into] writes, and [deserialize_from]. *)
Class Bincode (T : Type) := {
  serialize : T → list Z;
  deserialize_from : Cursor → (io_error + T) * Cursor
}.
Class BincodeSpec (T : Type) `{!Fields T, !Bincode T} := {
  serialize_length x : fields_ok x → zlen (serialize x) = size_of;
  deserialize_serialize x a c : fields_ok x →
    deserialize_from {| cursor_bytes := a ++ serialize x ++ c; position := zlen a |}
    = (inr x, {| cursor_bytes := a ++ serialize x ++ c; position := zlen a + size_of |});
  deserialize_consumes c x c' : deserialize_from c = (inr x, c') →
    cursor_bytes c' = cursor_bytes c ∧ position c' = position c + size_of ∧
    position c' ≤ zlen (cursor_bytes c);
  deserialize_fields c x c' : bytes_ok (cursor_bytes c) → deserialize_from c = (inr x, c') → fields_ok x
}.

(** The errors, by their messages. *)
Inductive ArchiveError : Type :=
| NameTooLong
| SizeMismatch (path : list Z) (expected supplied : Z)
| MissingDirectory
| MissingDirectoryNames
| BadMagic
| BadIndexLength
| BadEntryOrder
| ShortOffset
| InvalidChunkType
| PathNotFound (path : list Z)
| OffsetExceedsLength
| InvalidUtf8
| Io (e : io_error).

(** [align] rounds up to a multiple. *)
Definition align (unrounded_value multiple : Z) : result ArchiveError Z :=
  if multiple =? 0 then Panic else
  let rem := unrounded_value mod multiple in
  if 0 <? rem then x <-? usub unrounded_value rem ;; uadd 64 x multiple
  else Ok unrounded_value.

(** * Writing *)
Section write.
Context `{!Bincode Index, !Bincode IndexEntry, !Bincode DirectoryEntry} {W : Type} `{!Write W}.

(** The archived files: path, declared size and contents, in the order of the
    paths. *)
Abbreviation path_map := (BTreeMap (Z * reads)).

Definition put (bs : list Z) : M ArchiveError W unit := λ w,
  match write_all bs w with
  | (inl e, w) => (Err (Io e), w)
  | (inr _, w) => (Ok tt, w)
  end.
Definition serialize_into {T : Type} `{!Bincode T} (x : T) : M ArchiveError W unit := put (serialize x).
Definition write_zeros (count : Z) : M ArchiveError W unit := put (zeros count).

(** The first loop: directory entries without offsets, and all the names. *)
Fixpoint directory_of (files : path_map) (directory_entries : list DirectoryEntry) (path_data : list Z)
    : result ArchiveError (list DirectoryEntry * list Z) :=
  match files with
  | [] => Ok (directory_entries, path_data)
  | (destination_name, (size, _)) :: files =>
      if 2 ^ 16 - 1 <? zlen destination_name then Err NameTooLong
      else
        directory_of files
          (directory_entries ++
           [{| name_offset := zlen path_data mod 2 ^ 32; name_length := zlen destination_name mod 2 ^ 16;
               reserved := 0; data_offset := 0; data_length := size; reserved2 := 0 |}])
          (path_data ++ destination_name)
  end.

Definition with_data_offset (offset : Z) (entry : DirectoryEntry) : DirectoryEntry :=
  {| name_offset := name_offset entry; name_length := name_length entry; reserved := reserved entry;
     data_offset := offset; data_length := data_length entry; reserved2 := reserved2 entry |}.

(** The second loop lays out the contents; the entries are changed in place. *)
Fixpoint write_entries (content_offset : Z) (directory_entries : list DirectoryEntry)
    : M ArchiveError W (list DirectoryEntry) :=
  match directory_entries with
  | [] => ret []
  | entry :: directory_entries =>
      let entry := with_data_offset content_offset entry in
      end_ <- lift (uadd 64 content_offset (data_length entry)) ;;
      content_offset <- lift (align end_ CONTENT_ALIGNMENT) ;;
      serialize_into entry ;;;
      entries <- write_entries content_offset directory_entries ;;
      ret (entry :: entries)
  end.

(** The third loop writes the contents. *)
Fixpoint write_contents (directory_entries : list DirectoryEntry) (entry_index : nat) (files : path_map)
    : M ArchiveError W unit :=
  match files with
  | [] => ret tt
  | (archive_path, (_, contents)) :: files =>
      bytes_read <- (λ w, match io_copy contents 0 w with
                          | (inl e, w) => (Err (Io e), w)
                          | (inr n, w) => (Ok n, w)
                          end) ;;
      entry <- lift (ounwrap (directory_entries !! entry_index)) ;;
      if negb (bytes_read =? data_length entry) then
        fail (SizeMismatch archive_path (data_length entry) bytes_read)
      else
        pos <- lift (uadd 64 (data_offset entry) (data_length entry)) ;;
        end_ <- lift (align pos CONTENT_ALIGNMENT) ;;
        padding_count <- lift (usub end_ pos) ;;
        write_zeros padding_count ;;;
        write_contents directory_entries (S entry_index) files
  end.

Definition write (path_content_map : path_map) : M ArchiveError W unit :=
  directory <- lift (directory_of path_content_map [] []) ;;
  let (directory_entries, path_data) := (directory : list DirectoryEntry * list Z) in
  let index := {| magic := MAGIC_INDEX_VALUE; index_length := 2 * INDEX_ENTRY_LEN |} in
  dir_length <- lift (umul 64 (zlen directory_entries) DIRECTORY_ENTRY_LEN) ;;
  let dir_index := {| chunk_type := DIR_CHUNK; chunk_offset := INDEX_LEN + INDEX_ENTRY_LEN * 2;
                      chunk_length := dir_length |} in
  name_offset <- lift (uadd 64 (chunk_offset dir_index) (chunk_length dir_index)) ;;
  name_length <- lift (align (zlen path_data) 8) ;;
  let name_index := {| chunk_type := DIR_NAMES_CHUNK; chunk_offset := name_offset;
                       chunk_length := name_length |} in
  serialize_into index ;;;
  serialize_into dir_index ;;;
  serialize_into name_index ;;;
  names_end <- lift (uadd 64 (chunk_offset name_index) (chunk_length name_index)) ;;
  content_offset <- lift (align names_end CONTENT_ALIGNMENT) ;;
  directory_entries <- write_entries content_offset directory_entries ;;
  put path_data ;;;
  rest <- lift (usub (chunk_length name_index) (zlen path_data)) ;;
  write_zeros rest ;;;
  pos <- lift (uadd 64 (chunk_offset name_index) (chunk_length name_index)) ;;
  end_ <- lift (align pos CONTENT_ALIGNMENT) ;;
  padding_count <- lift (usub end_ pos) ;;
  write_zeros padding_count ;;;
  write_contents directory_entries 0 path_content_map.
End write.

(** * Reading

    The source is a cursor over the bytes of the archive. *)
Record Reader := { source : Cursor; directory_entries : BTreeMap DirectoryEntry }.

Section read.
Context `{!Bincode Index, !Bincode IndexEntry, !Bincode DirectoryEntry}.

Definition io {A : Type} (f : Cursor → (io_error + A) * Cursor) : M ArchiveError Cursor A := λ c,
  match f c with
  | (inl e, c) => (Err (Io e), c)
  | (inr x, c) => (Ok x, c)
  end.
Definition seek (pos : Z) : M ArchiveError Cursor unit := λ c, (Ok tt, seek_start pos c).

(** [vec![0; n]] and [read_exact] into it: a vector has less than 2^63 bytes. *)
Definition read_vec (n : Z) : M ArchiveError Cursor (list Z) :=
  if n <? 2 ^ 63 then io (read_exact n) else panic.

Definition read_index : M ArchiveError Cursor Index :=
  decoded_index <- io deserialize_from ;;
  if negb (bool_decide (magic decoded_index = MAGIC_INDEX_VALUE)) then fail BadMagic
  else if negb (index_length decoded_index mod INDEX_ENTRY_LEN =? 0) then fail BadIndexLength
  else ret decoded_index.

(** Each iteration reads an entry, so there are no more than the source has bytes. *)
Fixpoint index_entries_loop (fuel : nat) (count : Z) (index : Index)
    (dir_index dir_name_index : option IndexEntry) (last_chunk_type : option Z)
    : M ArchiveError Cursor (option IndexEntry * option IndexEntry) :=
  if count <=? 0 then ret (dir_index, dir_name_index)
  else
    match fuel with
    | O => λ c, (OutOfFuel, c)
    | S fuel =>
        entry <- io deserialize_from ;;
        if match last_chunk_type with None => false | Some t => chunk_type entry <? t end
        then fail BadEntryOrder
        else if chunk_offset entry <? index_length index then fail ShortOffset
        else
          let loop := index_entries_loop fuel (count - 1) index in
          if chunk_type entry =? DIR_HASH_CHUNK then
            loop dir_index dir_name_index (Some (chunk_type entry))
          else if chunk_type entry =? DIR_NAMES_CHUNK then
            loop dir_index (Some entry) (Some (chunk_type entry))
          else if chunk_type entry =? DIR_CHUNK then
            loop (Some entry) dir_name_index (Some (chunk_type entry))
          else fail InvalidChunkType
    end.
Definition read_index_entries (count : Z) (index : Index)
    : M ArchiveError Cursor (option IndexEntry * option IndexEntry) := λ c,
  index_entries_loop (S (length (cursor_bytes c))) count index None None None c.

(** [&path_data[start..end]] *)
Definition index_range (start end_ : Z) (bs : list Z) : result ArchiveError (list Z) :=
  if (start <=? end_) && (end_ <=? zlen bs) then Ok (slice start (end_ - start) bs) else Panic.

Fixpoint entries_loop (fuel : nat) (count : Z) (path_data : list Z) (entries : BTreeMap DirectoryEntry)
    : M ArchiveError Cursor (BTreeMap DirectoryEntry) :=
  if count <=? 0 then ret entries
  else
    match fuel with
    | O => λ c, (OutOfFuel, c)
    | S fuel =>
        entry <- io deserialize_from ;;
        let name_start := name_offset entry in
        let after_name_end := name_start + name_length entry in
        file_name <- lift (index_range name_start after_name_end path_data) ;;
        if utf8_valid file_name then
          entries_loop fuel (count - 1) path_data (bt_insert file_name entry entries)
        else fail InvalidUtf8
    end.

Definition read_directory : M ArchiveError Cursor (BTreeMap DirectoryEntry) :=
  index <- read_index ;;
  indices <- read_index_entries (index_length index / INDEX_ENTRY_LEN) index ;;
  dir_index <- lift (match fst indices with Some e => Ok e | None => Err MissingDirectory end) ;;
  dir_name_index <- lift (match snd indices with Some e => Ok e | None => Err MissingDirectoryNames end) ;;
  seek (chunk_offset dir_name_index) ;;;
  path_data <- read_vec (chunk_length dir_name_index) ;;
  seek (chunk_offset dir_index) ;;;
  let dir_entry_count := chunk_length dir_index / DIRECTORY_ENTRY_LEN in
  λ c, entries_loop (S (length (cursor_bytes c))) dir_entry_count path_data [] c.

Definition reader_new (source : Cursor) : result ArchiveError Reader :=
  let (r, source) := read_directory source in
  entries <-? r ;;
  Ok {| source := source; directory_entries := entries |}.

Definition list_entries (self : Reader) : list (list Z) := bt_keys (directory_entries self).

Definition find_directory_entry (self : Reader) (archive_path : list Z) : result ArchiveError DirectoryEntry :=
  match bt_get archive_path (directory_entries self) with
  | Some entry => Ok entry
  | None => Err (PathNotFound archive_path)
  end.

(** An [EntryReader] borrows the source of its reader. *)
Record EntryReader := { entry_offset : Z; entry_length : Z }.
Definition open (self : Reader) (archive_path : list Z) : result ArchiveError EntryReader :=
  entry <-? find_directory_entry self archive_path ;;
  Ok {| entry_offset := data_offset entry; entry_length := data_length entry |}.

Definition read_at (self : EntryReader) (offset : Z) : M ArchiveError Cursor (list Z) :=
  if entry_length self <? offset then fail OffsetExceedsLength
  else
    start <- lift (uadd 64 (entry_offset self) offset) ;;
    seek start ;;;
    clamped_length <- lift (usub (entry_length self) offset) ;;
    read_vec clamped_length.

Definition open_at (archive_path : list Z) (offset : Z) : M ArchiveError Reader (list Z) := λ self,
  match open self archive_path with
  | Ok reader =>
      let (r, c) := read_at reader offset (source self) in
      (r, {| source := c; directory_entries := directory_entries self |})
  | Err e => (Err e, self)
  | Panic => (Panic, self)
  | OutOfFuel => (OutOfFuel, self)
  end.
Definition read_file (archive_path : list Z) : M ArchiveError Reader (list Z) := open_at archive_path 0.

Definition get_size (self : Reader) (archive_path : list Z) : result ArchiveError Z :=
  entry <-? find_directory_entry self archive_path ;;
  Ok (data_length entry).
End read.
