(* ===== verification/ArchiveTheorems.v ===== *)
(** What is written to an archive is what is read from it, in any order. *)

From S2P Require Import Prelude Std Archive.

(** * Layout *)
Definition up (a n : Z) : Z := (a + (n - 1)) / n * n.

Lemma up_bounds a n : 0 < n → a ≤ up a n < a + n.
Proof.
  intros Hn. unfold up. pose proof (Z.div_mod (a + (n - 1)) n). pose proof (Z.mod_pos_bound (a + (n - 1)) n). lia.
Qed.
Lemma up_add a b n : 0 < n → (n | a) → up (a + b) n = a + up b n.
Proof.
  intros Hn [q ->]. unfold up. replace (q * n + b + (n - 1)) with (b + (n - 1) + q * n) by lia.
  rewrite Z.div_add by lia. lia.
Qed.
Lemma up_divide a n : (n | up a n).
Proof. unfold up. apply Z.divide_factor_r. Qed.
Lemma up_of_divide a n : 0 < n → (n | a) → up a n = a.
Proof. intros Hn [q ->]. rewrite <- (Z.add_0_r (q * n)), up_add by (done || by exists q). unfold up.
  rewrite Z.div_small by lia. lia. Qed.

Lemma align_ok a n : 0 ≤ a → 0 < n → up a n < 2 ^ 64 → align a n = Ok (up a n).
Proof.
  intros Ha Hn Hup. unfold align. rewrite (proj2 (Z.eqb_neq n 0)) by lia.
  pose proof (Z.div_mod a n ltac:(lia)) as Hdm. pose proof (Z.mod_pos_bound a n Hn). pose proof (Z.mod_le a n Ha Hn).
  destruct (Z.ltb_spec 0 (a mod n)) as [Hr|Hr].
  - assert (up a n = a - a mod n + n) as Hu.
    { rewrite Hdm at 1. rewrite up_add by (lia || (exists (a / n); lia)).
      enough (up (a mod n) n = n) by lia. unfold up.
      replace (a mod n + (n - 1)) with (a mod n - 1 + 1 * n) by lia.
      rewrite Z.div_add, Z.div_small by lia. lia. }
    rewrite usub_ok by lia. cbn [rbind]. rewrite uadd_ok by lia. by rewrite Hu.
  - rewrite up_of_divide; [done|done|]. exists (a / n). lia.
Qed.

(** The directory of files with these names and sizes, from the offsets of the
    first name and of the first contents. *)
Fixpoint layout {R : Type} (noff doff : Z) (files : BTreeMap (Z * R)) : list DirectoryEntry :=
  match files with
  | [] => []
  | (name, (size, _)) :: files =>
      {| name_offset := noff; name_length := zlen name; reserved := 0;
         data_offset := doff; data_length := size; reserved2 := 0 |}
      :: layout (noff + zlen name) (up (doff + size) CONTENT_ALIGNMENT) files
  end.

(** Where the contents end. *)
Fixpoint layout_end {R : Type} (doff : Z) (files : BTreeMap (Z * R)) : Z :=
  match files with
  | [] => doff
  | (_, (size, _)) :: files => layout_end (up (doff + size) CONTENT_ALIGNMENT) files
  end.

Definition names_of {V : Type} (files : BTreeMap V) : list Z := concat (bt_keys files).
Definition names_start {V : Type} (files : BTreeMap V) : Z :=
  INDEX_LEN + INDEX_ENTRY_LEN * 2 + zlen files * DIRECTORY_ENTRY_LEN.
Definition names_end {V : Type} (files : BTreeMap V) : Z := names_start files + up (zlen (names_of files)) 8.
Definition contents_start {V : Type} (files : BTreeMap V) : Z := up (names_end files) CONTENT_ALIGNMENT.

Definition the_index : Index := {| magic := MAGIC_INDEX_VALUE; index_length := 2 * INDEX_ENTRY_LEN |}.
Definition the_dir_index {V : Type} (files : BTreeMap V) : IndexEntry :=
  {| chunk_type := DIR_CHUNK; chunk_offset := INDEX_LEN + INDEX_ENTRY_LEN * 2;
     chunk_length := zlen files * DIRECTORY_ENTRY_LEN |}.
Definition the_name_index {V : Type} (files : BTreeMap V) : IndexEntry :=
  {| chunk_type := DIR_NAMES_CHUNK; chunk_offset := names_start files;
     chunk_length := up (zlen (names_of files)) 8 |}.

(** Files that fit in an archive. *)
Definition files_ok {R : Type} (files : BTreeMap (Z * R)) : Prop :=
  Forall (λ f, zlen (fst f) < 2 ^ 16 ∧ 0 ≤ fst (snd f)) files ∧
  zlen (names_of files) < 2 ^ 32 ∧ layout_end (contents_start files) files < 2 ^ 63.

Section layout.
Context {R : Type}.
Implicit Types (files : BTreeMap (Z * R)).

Lemma names_of_cons name (v : Z * R) files : names_of ((name, v) :: files) = name ++ names_of files.
Proof. done. Qed.
Lemma layout_length noff doff files : length (layout noff doff files) = length files.
Proof. revert noff doff. induction files as [|[n [s r]] files IH]; intros; cbn [layout length]; auto. Qed.

Lemma layout_end_ge doff files : Forall (λ f, zlen (fst f) < 2 ^ 16 ∧ 0 ≤ fst (snd f)) files → doff ≤ layout_end doff files.
Proof.
  intros Hf. revert doff. induction Hf as [|[n [s r]] files [_ Hs] Hf IH]; intros doff; cbn [layout_end]; [lia|].
  specialize (IH (up (doff + s) CONTENT_ALIGNMENT)). cbn [fst snd] in Hs.
  pose proof (up_bounds (doff + s) CONTENT_ALIGNMENT). unfold CONTENT_ALIGNMENT in *. lia.
Qed.

Lemma starts files :
  64 ≤ names_start files ≤ names_end files ∧ names_end files ≤ contents_start files ∧
  zlen (names_of files) ≤ names_end files - names_start files < zlen (names_of files) + 8 ∧
  (CONTENT_ALIGNMENT | contents_start files).
Proof.
  pose proof (zlen_nonneg files). pose proof (zlen_nonneg (names_of files)).
  pose proof (up_bounds (zlen (names_of files)) 8). pose proof (up_bounds (names_end files) CONTENT_ALIGNMENT).
  split_and!; [..|apply up_divide]; unfold contents_start, names_end, names_start, CONTENT_ALIGNMENT,
    INDEX_LEN, INDEX_ENTRY_LEN, DIRECTORY_ENTRY_LEN in *; lia.
Qed.
End layout.

(** The contents with their padding, from an offset. *)
Fixpoint contents_bytes (doff : Z) (bss : list (list Z)) : list Z :=
  match bss with
  | [] => []
  | bs :: bss =>
      let stop := up (doff + zlen bs) CONTENT_ALIGNMENT in
      bs ++ zeros (stop - (doff + zlen bs)) ++ contents_bytes stop bss
  end.

(** The readers of the files give these bytes, of the declared sizes. *)
Definition supplied (files : BTreeMap (Z * reads)) (bss : list (list Z)) : Prop :=
  Forall2 (λ f bs, read_all (snd (snd f)) = Some bs ∧ zlen bs = fst (snd f)) files bss.

(** * Writing *)
Section writing.
Context `{!Bincode Index, !Bincode IndexEntry, !Bincode DirectoryEntry}.
Implicit Types (files : BTreeMap (Z * reads)) (w : list Z).

Definition header_bytes files : list Z :=
  serialize the_index ++ serialize (the_dir_index files) ++ serialize (the_name_index files)
  ++ concat (map serialize (layout 0 (contents_start files) files))
  ++ names_of files ++ zeros (names_end files - names_start files - zlen (names_of files))
  ++ zeros (contents_start files - names_end files).
Definition archive files (bss : list (list Z)) : list Z :=
  header_bytes files ++ contents_bytes (contents_start files) bss.

Lemma zeros_length n : 0 ≤ n → zlen (zeros n) = n.
Proof. intros. unfold zlen, zeros. rewrite length_replicate. lia. Qed.

Lemma contents_length doff files bss :
  Forall (λ f, zlen (fst f) < 2 ^ 16 ∧ 0 ≤ fst (snd f)) files → supplied files bss →
  zlen (contents_bytes doff bss) = layout_end doff files - doff.
Proof.
  intros Hf Hs. revert doff Hf. induction Hs as [|[n [s r]] bs files bss [Hr Hl] Hs IH]; intros doff Hf.
  - cbn. unfold zlen. simpl. lia.
  - apply Forall_cons in Hf as [_ Hf]. cbn [contents_bytes layout_end]. cbn [fst snd] in Hl. subst s.
    pose proof (up_bounds (doff + zlen bs) CONTENT_ALIGNMENT ltac:(done)).
    rewrite !zlen_app, IH, zeros_length by (done || lia). lia.
Qed.

Lemma put_vec bs w : put bs w = (Ok tt, w ++ bs).
Proof. done. Qed.
Lemma serialize_vec {T : Type} `{!Bincode T} (x : T) w : serialize_into x w = (Ok tt, w ++ serialize x).
Proof. done. Qed.
Lemma zeros_vec n w : write_zeros n w = (Ok tt, w ++ zeros n).
Proof. done. Qed.

Lemma directory_of_ok files acc path_data doff :
  Forall (λ f, zlen (fst f) < 2 ^ 16 ∧ 0 ≤ fst (snd f)) files →
  zlen (path_data ++ names_of files) < 2 ^ 32 →
  directory_of files acc path_data
  = Ok (acc ++ map (with_data_offset 0) (layout (zlen path_data) doff files), path_data ++ names_of files).
Proof.
  intros Hf. revert acc path_data doff.
  induction Hf as [|[n [s r]] files [Hn _] Hf IH]; intros acc path_data doff Hlen.
  - unfold names_of. cbn. by rewrite !app_nil_r.
  - cbn [fst] in Hn. rewrite names_of_cons in *. pose proof (zlen_nonneg n).
    pose proof (zlen_nonneg path_data). pose proof (zlen_nonneg (names_of files)). rewrite !zlen_app in Hlen.
    cbn [directory_of layout map]. rewrite (proj2 (Z.ltb_ge _ _)) by lia.
    rewrite (IH _ _ (up (doff + s) CONTENT_ALIGNMENT)) by (rewrite !zlen_app; lia).
    rewrite <- !app_assoc. cbn [app]. rewrite zlen_app. unfold with_data_offset at 2.
    cbn [name_offset name_length reserved data_length reserved2]. by rewrite !Z.mod_small by lia.
Qed.

Lemma write_entries_ok noff doff files w :
  Forall (λ f, zlen (fst f) < 2 ^ 16 ∧ 0 ≤ fst (snd f)) files → 0 ≤ doff → layout_end doff files < 2 ^ 63 →
  write_entries doff (map (with_data_offset 0) (layout noff doff files)) w
  = (Ok (layout noff doff files), w ++ concat (map serialize (layout noff doff files))).
Proof.
  intros Hf. revert noff doff w. induction Hf as [|[n [s r]] files [_ Hs] Hf IH]; intros noff doff w Hd He.
  - cbn. by rewrite app_nil_r.
  - cbn [fst snd] in Hs. cbn [layout_end] in He. pose proof (layout_end_ge _ _ Hf : up (doff + s) CONTENT_ALIGNMENT ≤ _).
    pose proof (up_bounds (doff + s) CONTENT_ALIGNMENT ltac:(done)).
    cbn [layout map write_entries]. unfold with_data_offset at 1 2 3 4.
    cbn [name_offset name_length reserved data_offset data_length reserved2].
    step (@uadd_ok ArchiveError 64 doff s ltac:(lia)).
    step (align_ok (doff + s) CONTENT_ALIGNMENT ltac:(lia) ltac:(done) ltac:(lia)).
    rewrite (bind_ok _ _ _ _ _ (serialize_vec _ w)).
    rewrite (bind_ok _ _ _ _ _ (IH (noff + zlen n) (up (doff + s) CONTENT_ALIGNMENT) _ ltac:(lia) He)). cbn [ret concat]. by rewrite <- app_assoc.
Qed.

(** The files of a prefix are written and padded one after the other. *)
Lemma write_contents_ok entries idx noff doff files bss rest w :
  Forall (λ f, zlen (fst f) < 2 ^ 16 ∧ 0 ≤ fst (snd f)) files → supplied files bss →
  0 ≤ doff → layout_end doff files < 2 ^ 63 →
  (∀ i e, layout noff doff files !! i = Some e → entries !! (idx + i)%nat = Some e) →
  write_contents entries idx (files ++ rest) w
  = write_contents entries (idx + length files) rest (w ++ contents_bytes doff bss).
Proof.
  intros Hf Hs. revert idx noff doff w Hf.
  induction Hs as [|[n [s r]] bs files bss [Hr Hl] Hs IH]; intros idx noff doff w Hf Hd He Hent.
  - cbn [app length contents_bytes]. by rewrite Nat.add_0_r, app_nil_r.
  - apply Forall_cons in Hf as [[_ H0] Hf]. cbn [fst snd] in Hr, Hl, H0. cbn [layout_end] in He.
    pose proof (layout_end_ge _ _ Hf : up (doff + s) CONTENT_ALIGNMENT ≤ _).
    pose proof (up_bounds (doff + s) CONTENT_ALIGNMENT ltac:(done)).
    cbn [app write_contents]. unfold bind at 1. rewrite (io_copy_vec r 0 w bs Hr). rewrite Z.add_0_l.
    assert (entries !! idx = Some {| name_offset := noff; name_length := zlen n; reserved := 0;
      data_offset := doff; data_length := s; reserved2 := 0 |}) as Hidx.
    { rewrite <- (Nat.add_0_r idx). by apply Hent. }
    rewrite Hidx. cbn [ounwrap lift bind data_length data_offset]. rewrite Hl, Z.eqb_refl. cbn [negb].
    step (@uadd_ok ArchiveError 64 doff s ltac:(lia)).
    step (align_ok (doff + s) CONTENT_ALIGNMENT ltac:(lia) ltac:(done) ltac:(lia)).
    step (@usub_ok ArchiveError (up (doff + s) CONTENT_ALIGNMENT) (doff + s) ltac:(lia)).
    rewrite (bind_ok _ _ _ _ _ (zeros_vec _ (w ++ bs))).
    rewrite (IH (S idx) (noff + zlen n) (up (doff + s) CONTENT_ALIGNMENT)); [|done|lia|done|].
    + cbn [length contents_bytes]. rewrite Hl, <- !app_assoc. by rewrite <- plus_n_Sm.
    + intros i e Hi. rewrite Nat.add_succ_comm. by apply Hent.
Qed.

(** Everything before the contents. *)
Lemma write_header files w :
  files_ok files →
  write files w = write_contents (layout 0 (contents_start files) files) 0 files (w ++ header_bytes files).
Proof.
  intros (Hf&Hn&He). destruct (starts files) as (Hs1&Hs2&Hs3&_).
  pose proof (layout_end_ge (contents_start files) _ Hf) as Hge.
  pose proof (zlen_nonneg (names_of files)). pose proof (zlen_nonneg files).
  unfold write. step (directory_of_ok files [] [] (contents_start files) Hf Hn). cbv beta iota.
  cbn [app].
  set (entries := map (with_data_offset 0) _).
  assert (zlen entries = zlen files) as Hlen.
  { unfold zlen, entries. by rewrite length_map, layout_length. }
  rewrite Hlen. clear Hlen.
  assert (zlen files * DIRECTORY_ENTRY_LEN < 2 ^ 64) as Hd by (unfold names_start, INDEX_LEN, INDEX_ENTRY_LEN in *; lia).
  step (umul_ok (E := ArchiveError) 64 _ _ Hd). cbn [chunk_offset chunk_length].
  assert (INDEX_LEN + INDEX_ENTRY_LEN * 2 + zlen files * DIRECTORY_ENTRY_LEN < 2 ^ 64) as Ho by (unfold names_start in *; lia).
  step (uadd_ok (E := ArchiveError) 64 _ _ Ho). change (_ + zlen files * DIRECTORY_ENTRY_LEN) with (names_start files).
  step (align_ok (zlen (names_of files)) 8 ltac:(lia) ltac:(done) ltac:(unfold names_end in *; lia)).
  rewrite (bind_ok _ _ _ _ _ (serialize_vec _ w)).
  rewrite (bind_ok _ _ _ _ _ (serialize_vec _ _)).
  rewrite (bind_ok _ _ _ _ _ (serialize_vec _ _)). cbn [chunk_offset chunk_length].
  assert (names_start files + up (zlen (names_of files)) 8 < 2 ^ 64) as Hu by (unfold names_end in *; lia).
  step (uadd_ok (E := ArchiveError) 64 _ _ Hu). change (_ + up _ 8) with (names_end files).
  assert (align (names_end files) CONTENT_ALIGNMENT = Ok (contents_start files)) as Ha.
  { apply align_ok; [lia|done|]. unfold contents_start in *. lia. }
  step Ha. subst entries.
  rewrite (bind_ok _ _ _ _ _ (write_entries_ok 0 (contents_start files) files _ Hf ltac:(lia) He)).
  rewrite (bind_ok _ _ _ _ _ (put_vec _ _)).
  assert (zlen (names_of files) ≤ up (zlen (names_of files)) 8) as Hp by (apply up_bounds; done).
  step (usub_ok (E := ArchiveError) _ _ Hp).
  rewrite (bind_ok _ _ _ _ _ (zeros_vec _ _)).
  step (uadd_ok (E := ArchiveError) 64 _ _ Hu). change (_ + up _ 8) with (names_end files).
  step Ha. step (usub_ok (E := ArchiveError) _ _ (proj2 (conj I Hs2))).
  rewrite (bind_ok _ _ _ _ _ (zeros_vec _ _)).
  unfold header_bytes, the_name_index, the_dir_index. rewrite <- !app_assoc.
  by replace (names_end files - names_start files) with (up (zlen (names_of files)) 8) by (unfold names_end; lia).
Qed.

Lemma archive_write_ok files bss w : files_ok files → supplied files bss → write files w = (Ok tt, w ++ archive files bss).
Proof.
  intros Hf Hs. rewrite write_header by done. destruct Hf as (Hf&_&He). destruct (starts files) as (?&?&_).
  pose proof (write_contents_ok (layout 0 (contents_start files) files) 0 0 (contents_start files) files bss []
    (w ++ header_bytes files) Hf Hs ltac:(lia) He ltac:(done)) as Hc.
  rewrite app_nil_r in Hc. rewrite Hc. unfold archive. by rewrite app_assoc.
Qed.
End writing.

(** Files that cannot be archived. *)
Section write_errors.
Context `{!Bincode Index, !Bincode IndexEntry, !Bincode DirectoryEntry}.
Implicit Types (files : BTreeMap (Z * reads)) (w : list Z).

Lemma directory_too_long files acc path_data :
  Exists (λ f, 2 ^ 16 ≤ zlen (fst f)) files → directory_of files acc path_data = Err NameTooLong.
Proof.
  revert acc path_data. induction files as [|[n [s r]] files IH]; intros acc path_data Hex.
  - by apply Exists_nil in Hex.
  - cbn [directory_of]. destruct (Z.ltb_spec (2 ^ 16 - 1) (zlen n)) as [?|Hlt]; [done|].
    apply Exists_cons in Hex as [Hn|Hex]; [cbn [fst] in Hn; lia|]. by apply IH.
Qed.

Lemma layout_app {R : Type} noff doff (a b : BTreeMap (Z * R)) :
  layout noff doff (a ++ b) = layout noff doff a ++ layout (noff + zlen (names_of a)) (layout_end doff a) b.
Proof.
  revert noff doff. induction a as [|[n [s r]] a IH]; intros noff doff.
  - cbn [app layout layout_end]. unfold names_of, zlen. simpl. by rewrite Z.add_0_r.
  - cbn [app layout layout_end]. rewrite IH, names_of_cons, zlen_app. f_equal. f_equal. f_equal. lia.
Qed.
Lemma layout_end_app {R : Type} doff (a b : BTreeMap (Z * R)) :
  layout_end doff (a ++ b) = layout_end (layout_end doff a) b.
Proof. revert doff. induction a as [|[n [s r]] a IH]; intros doff; cbn [app layout_end]; auto. Qed.

Lemma write_mismatch good name size r rest bss bs w :
  files_ok (good ++ (name, (size, r)) :: rest) → supplied good bss →
  read_all r = Some bs → zlen bs ≠ size →
  ∃ w', write (good ++ (name, (size, r)) :: rest) w = (Err (SizeMismatch name size (zlen bs)), w').
Proof.
  intros Hok Hs Hr Hne. rewrite write_header by done. set (files := good ++ _) in *.
  destruct Hok as (Hf&_&He). destruct (starts files) as (?&?&_).
  assert (layout 0 (contents_start files) files !! length good
    = Some {| name_offset := 0 + zlen (names_of good); name_length := zlen name; reserved := 0;
              data_offset := layout_end (contents_start files) good; data_length := size; reserved2 := 0 |}) as Hi.
  { unfold files at 2. rewrite layout_app, lookup_app_r by (rewrite layout_length; lia).
    by rewrite layout_length, Nat.sub_diag. }
  set (entries := layout 0 (contents_start files) files) in *.
  assert (Forall (λ f, zlen (fst f) < 2 ^ 16 ∧ 0 ≤ fst (snd f)) good) as Hg by by apply Forall_app in Hf as [? _].
  assert (layout_end (contents_start files) good ≤ layout_end (contents_start files) files) as Hle.
  { generalize (contents_start files). intros d. unfold files. rewrite layout_end_app. apply layout_end_ge.
    by apply Forall_app in Hf as [_ ?]. }
  unfold files at 1.
  rewrite (write_contents_ok entries 0 0 (contents_start files) good bss); [|done..|lia|lia|].
  - cbn [write_contents]. unfold bind at 1. rewrite (io_copy_vec r 0 _ bs Hr). rewrite Z.add_0_l, Nat.add_0_l, Hi.
    cbn [ounwrap lift bind data_length]. rewrite (proj2 (Z.eqb_neq _ _)) by done. by eexists.
  - intros i e. unfold entries. generalize (contents_start files). intros d Hie. unfold files.
    rewrite layout_app, lookup_app_l; [done|]. by eapply lookup_lt_Some.
Qed.
End write_errors.

(** * Reading *)
Definition directory {R : Type} (noff doff : Z) (files : BTreeMap (Z * R)) : BTreeMap DirectoryEntry :=
  zip (bt_keys files) (layout noff doff files).

Section reading.
Context `{!Bincode Index, !Bincode IndexEntry, !Bincode DirectoryEntry}.
Context `{!BincodeSpec Index, !BincodeSpec IndexEntry, !BincodeSpec DirectoryEntry}.

Lemma io_deserialize {T : Type} `{!Fields T, !Bincode T, !BincodeSpec T} (x : T) B a c pos :
  fields_ok x → B = a ++ serialize x ++ c → pos = zlen a →
  io deserialize_from {| cursor_bytes := B; position := pos |}
  = (Ok x, {| cursor_bytes := B; position := pos + size_of |}).
Proof. intros Hx -> ->. unfold io. by rewrite deserialize_serialize. Qed.

Lemma io_read_vec B a b c pos n :
  B = a ++ b ++ c → pos = zlen a → n = zlen b → n < 2 ^ 63 →
  read_vec n {| cursor_bytes := B; position := pos |}
  = (Ok b, {| cursor_bytes := B; position := pos + zlen b |}).
Proof.
  intros -> -> -> Hn. unfold read_vec. rewrite (proj2 (Z.ltb_lt _ _)) by done. unfold io.
  by rewrite read_exact_app.
Qed.

Lemma layout_fields {R : Type} noff doff (files : BTreeMap (Z * R)) :
  Forall (λ f, zlen (fst f) < 2 ^ 16 ∧ 0 ≤ fst (snd f)) files →
  0 ≤ noff → noff + zlen (names_of files) < 2 ^ 32 → 0 ≤ doff → layout_end doff files < 2 ^ 63 →
  Forall fields_ok (layout noff doff files).
Proof.
  intros Hf. revert noff doff. induction Hf as [|[n [s r]] files [Hn Hs] Hf IH]; intros noff doff H1 H2 H3 H4; [done|].
  cbn [fst snd] in Hn, Hs. rewrite names_of_cons, zlen_app in H2. cbn [layout_end] in H4.
  pose proof (layout_end_ge _ _ Hf : up (doff + s) CONTENT_ALIGNMENT ≤ _).
  pose proof (up_bounds (doff + s) CONTENT_ALIGNMENT ltac:(done)). pose proof (zlen_nonneg n).
  pose proof (zlen_nonneg (names_of files)).
  cbn [layout]. constructor.
  - unfold fields_ok, directory_entry_fields, u_ok.
    cbn [name_offset name_length reserved data_offset data_length reserved2]. lia.
  - apply IH; lia.
Qed.

Lemma entries_loop_ok {R : Type} fuel (files : BTreeMap (Z * R)) noff doff pre post n1 n2 acc B path_data pos :
  (length files ≤ fuel)%nat → Forall fields_ok (layout noff doff files) →
  Forall (λ f, utf8_valid (fst f) = true) files →
  B = pre ++ concat (map serialize (layout noff doff files)) ++ post → pos = zlen pre →
  path_data = n1 ++ names_of files ++ n2 → noff = zlen n1 →
  bt_sorted (acc ++ directory noff doff files) →
  entries_loop fuel (zlen files) path_data acc {| cursor_bytes := B; position := pos |}
  = (Ok (acc ++ directory noff doff files),
     {| cursor_bytes := B; position := pos + DIRECTORY_ENTRY_LEN * zlen files |}).
Proof.
  revert files noff doff pre n1 acc pos.
  induction fuel as [|fuel IH]; intros [|[n [s r]] files] noff doff pre n1 acc pos Hfuel Hok Hutf HB Hpos Hpd Hno Hs;
    try (simpl in Hfuel; lia).
  1,2: cbn [entries_loop directory bt_keys map zip_with]; rewrite app_nil_r; change (zlen []) with 0;
    cbn [Z.leb Z.compare]; unfold ret; by rewrite Z.mul_0_r, Z.add_0_r.
  assert (zlen ((n, (s, r)) :: files) = 1 + zlen files) as Hz by (unfold zlen; simpl; lia).
  pose proof (zlen_nonneg files). rewrite Hz. cbn [layout] in *. set (entry := {| name_offset := noff |}) in *.
  apply Forall_cons in Hok as [Hent Hok]. apply Forall_cons in Hutf as [Hu Hutf]. cbn [fst] in Hu.
  cbn [entries_loop]. rewrite (proj2 (Z.leb_gt _ _)) by lia. cbn [map concat] in HB.
  rewrite (bind_ok _ _ _ _ _ (io_deserialize entry B pre _ pos Hent (eq_trans HB (f_equal (app pre) (eq_sym (app_assoc _ _ _)))) Hpos)).
  cbn [name_offset name_length entry]. rewrite names_of_cons, <- app_assoc in Hpd.
  assert (index_range noff (noff + zlen n) path_data = Ok n) as Hrange.
  { unfold index_range. pose proof (zlen_nonneg n). pose proof (zlen_nonneg (names_of files)).
    pose proof (zlen_nonneg n2). subst path_data noff. rewrite !zlen_app. rewrite (proj2 (Z.leb_le _ _)), (proj2 (Z.leb_le _ _)) by lia. cbn [andb].
    replace (zlen n1 + zlen n - zlen n1) with (zlen n) by lia. by rewrite slice_app_mid. }
  step Hrange. rewrite Hu. replace (1 + zlen files - 1) with (zlen files) by lia.
  assert (directory noff doff ((n, (s, r)) :: files)
          = (n, entry) :: directory (noff + zlen n) (up (doff + s) CONTENT_ALIGNMENT) files) as Hdir by done.
  rewrite Hdir in *. rewrite bt_insert_last by by eapply bt_sorted_app.
  rewrite (IH files (noff + zlen n) (up (doff + s) CONTENT_ALIGNMENT) (pre ++ serialize entry) (n1 ++ n)).
  - rewrite <- app_assoc. cbn [app]. f_equal. f_equal. unfold size_of, directory_entry_fields, DIRECTORY_ENTRY_LEN. lia.
  - simpl in Hfuel. lia.
  - done.
  - done.
  - by rewrite HB, <- !app_assoc.
  - rewrite zlen_app, serialize_length by done. lia.
  - by rewrite Hpd, <- !app_assoc.
  - rewrite zlen_app. lia.
  - by rewrite <- app_assoc.
Qed.

Lemma directory_keys {R : Type} noff doff (files : BTreeMap (Z * R)) :
  bt_keys (directory noff doff files) = bt_keys files.
Proof.
  unfold directory, bt_keys. apply fst_zip. rewrite layout_length, length_map. done.
Qed.

Lemma entries_length {R : Type} noff doff (files : BTreeMap (Z * R)) :
  Forall fields_ok (layout noff doff files) →
  zlen (concat (map serialize (layout noff doff files))) = zlen files * DIRECTORY_ENTRY_LEN.
Proof.
  revert noff doff. induction files as [|[n [s r]] files IH]; intros noff doff Hf; [done|].
  cbn [layout map concat] in *. apply Forall_cons in Hf as [He Hf]. rewrite zlen_app, IH by done.
  rewrite serialize_length by done. unfold zlen. cbn [length].
  unfold size_of, directory_entry_fields, DIRECTORY_ENTRY_LEN. lia.
Qed.

Section archived.
Context (files : BTreeMap (Z * reads)) (bss : list (list Z)).
Context (Hok : files_ok files) (Hsup : supplied files bss) (Hsorted : bt_sorted files).
Context (Hutf : Forall (λ f, utf8_valid (fst f) = true) files).

Lemma file_fields : Forall fields_ok (layout 0 (contents_start files) files).
Proof.
  destruct Hok as (Hf&Hn&He). destruct (starts files) as (?&?&_). apply layout_fields; done || lia.
Qed.
Lemma index_ok : fields_ok the_index.
Proof.
  unfold fields_ok, index_fields, u_ok, the_index. cbn [magic index_length]. split; [done|].
  split; [|done]. unfold MAGIC_INDEX_VALUE, bytes_ok, is_byte. repeat (constructor; [lia|]). constructor.
Qed.
Lemma dir_index_ok : fields_ok (the_dir_index files).
Proof.
  destruct Hok as (Hf&_&He). destruct (starts files) as (?&?&_).
  pose proof (layout_end_ge (contents_start files) _ Hf). pose proof (zlen_nonneg files).
  unfold fields_ok, index_entry_fields, u_ok, the_dir_index. cbn [chunk_type chunk_offset chunk_length].
  unfold DIR_CHUNK, names_start, INDEX_LEN, INDEX_ENTRY_LEN, DIRECTORY_ENTRY_LEN in *. lia.
Qed.
Lemma names_index_ok : fields_ok (the_name_index files).
Proof.
  destruct Hok as (Hf&_&He). destruct (starts files) as (?&?&?&_).
  pose proof (layout_end_ge (contents_start files) _ Hf).
  unfold fields_ok, index_entry_fields, u_ok, the_name_index. cbn [chunk_type chunk_offset chunk_length].
  pose proof (up_bounds (zlen (names_of files)) 8 ltac:(done)). pose proof (zlen_nonneg (names_of files)).
  unfold names_end, DIR_NAMES_CHUNK in *. lia.
Qed.

(** The parts of the archive and where they start. *)
Lemma three_length : zlen (serialize the_index) = 16 ∧ zlen (serialize (the_dir_index files)) = 24 ∧
  zlen (serialize (the_name_index files)) = 24.
Proof.
  split_and!; rewrite serialize_length; done || apply index_ok || apply dir_index_ok || apply names_index_ok.
Qed.
Lemma header_length : zlen (header_bytes files) = contents_start files.
Proof.
  destruct three_length as (H1&H2&H3). destruct (starts files) as (?&?&?&_). unfold header_bytes.
  rewrite !zlen_app, H1, H2, H3, entries_length, !zeros_length by (apply file_fields || lia).
  unfold names_start, INDEX_LEN, INDEX_ENTRY_LEN in *. lia.
Qed.

Lemma index_entries_ok (fuel : nat) rest :
  (2 ≤ fuel)%nat →
  let B := serialize the_index ++ serialize (the_dir_index files) ++ serialize (the_name_index files) ++ rest in
  index_entries_loop fuel 2 the_index None None None {| cursor_bytes := B; position := 16 |}
  = (Ok (Some (the_dir_index files), Some (the_name_index files)), {| cursor_bytes := B; position := 64 |}).
Proof.
  intros Hfuel B. destruct three_length as (H1&H2&H3). destruct (starts files) as (Hs&_).
  destruct fuel as [|[|fuel]]; [lia..|]. cbn [index_entries_loop]. change (2 <=? 0) with false.
  cbv beta iota.
  rewrite (bind_ok _ _ _ _ _ (io_deserialize _ B (serialize the_index) _ 16 dir_index_ok eq_refl (eq_sym H1))).
  cbv beta iota. change (chunk_offset (the_dir_index files) <? index_length the_index) with false.
  change (chunk_type (the_dir_index files) =? DIR_HASH_CHUNK) with false.
  change (chunk_type (the_dir_index files) =? DIR_NAMES_CHUNK) with false.
  change (chunk_type (the_dir_index files) =? DIR_CHUNK) with true. cbv beta iota.
  change (2 - 1 <=? 0) with false. cbv beta iota.
  assert (B = (serialize the_index ++ serialize (the_dir_index files)) ++ serialize (the_name_index files) ++ rest) as HB
    by (by rewrite <- app_assoc).
  assert (16 + @size_of IndexEntry _ = zlen (serialize the_index ++ serialize (the_dir_index files))) as Hp
    by (rewrite zlen_app, H1, H2; done).
  rewrite (bind_ok _ _ _ _ _ (io_deserialize _ B _ _ _ names_index_ok HB Hp)).
  change (chunk_type (the_name_index files) <? chunk_type (the_dir_index files)) with false. cbv beta iota.
  change (chunk_offset (the_name_index files)) with (names_start files).
  change (index_length the_index) with 48. rewrite (proj2 (Z.ltb_ge _ _)) by lia.
  change (chunk_type (the_name_index files) =? DIR_HASH_CHUNK) with false.
  change (chunk_type (the_name_index files) =? DIR_NAMES_CHUNK) with true. cbv beta iota.
  destruct fuel; reflexivity.
Qed.

Lemma read_directory_ok :
  ∃ c, read_directory {| cursor_bytes := archive files bss; position := 0 |}
       = (Ok (directory 0 (contents_start files) files), c) ∧ cursor_bytes c = archive files bss.
Proof.
  destruct three_length as (H1&H2&H3). destruct (starts files) as (Hs1&Hs2&Hs3&_).
  pose proof (entries_length _ _ _ file_fields) as H4.
  set (B := archive files bss). set (E := concat (map serialize (layout 0 (contents_start files) files))) in *.
  set (names := names_of files ++ zeros (names_end files - names_start files - zlen (names_of files))).
  set (post := zeros (contents_start files - names_end files) ++ contents_bytes (contents_start files) bss).
  assert (B = serialize the_index ++ serialize (the_dir_index files) ++ serialize (the_name_index files) ++ E ++ names ++ post) as HB
    by (subst B names post E; unfold archive, header_bytes; by rewrite <- !app_assoc).
  assert (zlen names = up (zlen (names_of files)) 8) as Hnl.
  { subst names. rewrite zlen_app, zeros_length by lia. unfold names_end. lia. }
  unfold read_directory. clearbody B.
  assert (read_index {| cursor_bytes := B; position := 0 |}
    = (Ok the_index, {| cursor_bytes := B; position := 16 |})) as Hindex.
  { unfold read_index. by rewrite (bind_ok _ _ _ _ _ (io_deserialize _ B [] _ 0 index_ok HB eq_refl)). }
  rewrite (bind_ok _ _ _ _ _ Hindex). change (index_length the_index / INDEX_ENTRY_LEN) with 2.
  assert (2 ≤ S (length B))%nat as Hfuel by (rewrite HB, length_app; unfold zlen in H1; lia).
  pose proof (index_entries_ok (S (length B)) (E ++ names ++ post) Hfuel) as Hentries. cbv zeta in Hentries.
  rewrite <- HB in Hentries.
  rewrite (bind_ok (read_index_entries 2 the_index) _ {| cursor_bytes := B; position := 16 |} _ _ Hentries). cbn [fst snd].
  rewrite (bind_lift (Ok (the_dir_index files)) _ _ _ eq_refl), (bind_lift (Ok (the_name_index files)) _ _ _ eq_refl).
  unfold seek at 1. unfold bind at 1. unfold seek_start. cbn [cursor_bytes chunk_offset chunk_length the_name_index].
  assert (B = (serialize the_index ++ serialize (the_dir_index files) ++ serialize (the_name_index files) ++ E)
    ++ names ++ post) as HB2 by (rewrite HB; by rewrite <- !app_assoc).
  rewrite (bind_ok _ _ _ _ _ (io_read_vec B _ names post (names_start files) _ HB2
    ltac:(rewrite !zlen_app, H1, H2, H3, H4; unfold names_start, INDEX_LEN, INDEX_ENTRY_LEN; lia) (eq_sym Hnl)
    ltac:(destruct Hok as (Hf&_&He); pose proof (layout_end_ge (contents_start files) _ Hf); unfold names_end in *; lia))).
  unfold seek, bind, seek_start. cbn [cursor_bytes chunk_offset chunk_length the_dir_index].
  rewrite Z.div_mul by done.
  erewrite (entries_loop_ok _ files 0 (contents_start files)
    (serialize the_index ++ serialize (the_dir_index files) ++ serialize (the_name_index files)) (names ++ post) []
    (zeros (names_end files - names_start files - zlen (names_of files))) []); [by eexists|..]; try done.
  - apply Nat.le_le_succ_r. rewrite HB2, !length_app. unfold zlen, DIRECTORY_ENTRY_LEN in H4. lia.
  - apply file_fields.
  - by rewrite HB, <- !app_assoc.
  - rewrite !zlen_app, H1, H2, H3. done.
  - unfold bt_sorted. cbn [app]. by rewrite directory_keys.
Qed.

(** Finding a file. *)
Lemma get_file name fs cs noff doff :
  supplied fs cs →
  match bt_get name (zip (bt_keys fs) cs) with
  | None => bt_get name (directory noff doff fs) = None
  | Some bs => ∃ e a c, bt_get name (directory noff doff fs) = Some e ∧ data_length e = zlen bs ∧
                 contents_bytes doff cs = a ++ bs ++ c ∧ data_offset e = doff + zlen a
  end.
Proof.
  intros Hs. revert noff doff. induction Hs as [|[n [s r]] bs fs cs [_ Hl] Hs IH]; intros noff doff; [done|].
  cbn [fst snd] in Hl. unfold directory. cbn [bt_keys map fst layout zip_with zip bt_get].
  destruct (decide (name = n)) as [->|Hne].
  - eexists _, [], _. split; [reflexivity|]. cbn [data_length data_offset contents_bytes app].
    split; [done|]. split; [reflexivity|]. unfold zlen. simpl. lia.
  - specialize (IH (noff + zlen n) (up (doff + s) CONTENT_ALIGNMENT)).
    fold (bt_keys fs). fold (directory (noff + zlen n) (up (doff + s) CONTENT_ALIGNMENT) fs).
    destruct (bt_get name (zip (bt_keys fs) cs)) as [bs'|]; [|done].
    destruct IH as (e&a&c&He&Hle&Hc&Hd). subst s.
    pose proof (up_bounds (doff + zlen bs) CONTENT_ALIGNMENT ltac:(done)).
    exists e, (bs ++ zeros (up (doff + zlen bs) CONTENT_ALIGNMENT - (doff + zlen bs)) ++ a), c.
    split; [done|]. split; [done|]. cbn [contents_bytes]. rewrite Hc, <- !app_assoc. split; [done|].
    rewrite !zlen_app, zeros_length by lia. lia.
Qed.
End archived.
End reading.

(** * Clients of a reader *)

(** Reads of a path from an offset, one after the other. *)
Fixpoint run_reads (requests : list (list Z * Z)) (self : Reader) : list (result ArchiveError (list Z)) :=
  match requests with
  | [] => []
  | (path, offset) :: requests =>
      let (r, self) := open_at path offset self in
      r :: run_reads requests self
  end.
Definition spec_read (contents : BTreeMap (list Z)) (request : list Z * Z) : result ArchiveError (list Z) :=
  match bt_get (fst request) contents with
  | None => Err (PathNotFound (fst request))
  | Some bs => if zlen bs <? snd request then Err OffsetExceedsLength else Ok (drop (Z.to_nat (snd request)) bs)
  end.

Section clients.
Context `{!Bincode Index, !Bincode IndexEntry, !Bincode DirectoryEntry}.
Context `{!BincodeSpec Index, !BincodeSpec IndexEntry, !BincodeSpec DirectoryEntry}.
Context (files : BTreeMap (Z * reads)) (bss : list (list Z)).
Context (Hok : files_ok files) (Hsup : supplied files bss).

(** The reader of the archive, wherever its source is. *)
Definition reader_of (self : Reader) : Prop :=
  cursor_bytes (source self) = archive files bss ∧
  directory_entries self = directory 0 (contents_start files) files.

Lemma archive_length : zlen (archive files bss) = layout_end (contents_start files) files.
Proof.
  unfold archive. rewrite zlen_app, (header_length files Hok).
  destruct Hok as (Hf&_&_). rewrite (contents_length _ files) by done. lia.
Qed.

Lemma open_at_ok self path offset :
  reader_of self → 0 ≤ offset →
  ∃ self', open_at path offset self = (spec_read (zip (bt_keys files) bss) (path, offset), self') ∧ reader_of self'.
Proof.
  intros [HB Hdir] Ho. unfold open_at, open, find_directory_entry, spec_read. cbn [fst snd]. rewrite Hdir.
  pose proof (get_file path files bss 0 (contents_start files) Hsup) as Hget.
  destruct (bt_get path (zip (bt_keys files) bss)) as [bs|]; [|rewrite Hget; by exists self].
  destruct Hget as (e&a&c&->&Hl&Hc&Hd). cbn [rbind]. unfold read_at. cbn [entry_length entry_offset]. rewrite Hl.
  destruct (Z.ltb_spec (zlen bs) offset) as [Hlt|Hge]; [by eexists|].
  pose proof (header_length files Hok) as Hhead. pose proof archive_length as Hlen.
  assert (archive files bss = (header_bytes files ++ a ++ take (Z.to_nat offset) bs) ++ drop (Z.to_nat offset) bs ++ c) as Harch.
  { unfold archive. rewrite Hc, <- !app_assoc. do 2 f_equal. by rewrite (app_assoc (take _ bs)), take_drop. }
  assert (zlen (take (Z.to_nat offset) bs) = offset) as Htake by (unfold zlen in *; rewrite length_take; lia).
  assert (zlen (drop (Z.to_nat offset) bs) = zlen bs - offset) as Hdrop by (unfold zlen in *; rewrite length_drop; lia).
  assert (contents_start files + zlen a + zlen bs ≤ layout_end (contents_start files) files) as Hin.
  { rewrite <- Hlen, Harch, !zlen_app, Hhead, Htake, Hdrop. pose proof (zlen_nonneg c). lia. }
  destruct Hok as (_&_&He). pose proof (zlen_nonneg a). destruct (starts files) as (?&?&_).
  rewrite Hd. step (uadd_ok (E := ArchiveError) 64 (contents_start files + zlen a) offset ltac:(lia)).
  unfold seek, bind, seek_start. rewrite (usub_ok (zlen bs) offset) by lia. cbn [lift].
  rewrite HB. rewrite (io_read_vec _ _ _ _ _ _ Harch); [by eexists| | |lia].
  - rewrite !zlen_app, Hhead, Htake. lia.
  - by rewrite Hdrop.
Qed.

Lemma run_reads_ok requests self :
  reader_of self → Forall (λ q, 0 ≤ snd q) requests →
  run_reads requests self = map (spec_read (zip (bt_keys files) bss)) requests.
Proof.
  intros Hr Hq. revert self Hr. induction Hq as [|[path offset] requests Hq0 Hq IH]; intros self Hr; [done|].
  cbn [run_reads map]. destruct (open_at_ok self path offset Hr Hq0) as (self'&->&Hr'). by rewrite IH.
Qed.

Lemma get_size_ok self path bs :
  reader_of self → bt_get path (zip (bt_keys files) bss) = Some bs → get_size self path = Ok (zlen bs).
Proof.
  intros [_ Hdir] Hb. unfold get_size, find_directory_entry. rewrite Hdir.
  pose proof (get_file path files bss 0 (contents_start files) Hsup) as Hget. rewrite Hb in Hget.
  destruct Hget as (e&a&c&->&Hl&_). cbn [rbind]. by rewrite Hl.
Qed.
End clients.

(** * The reader ends *)
Section total.
Context `{!Bincode Index, !Bincode IndexEntry, !Bincode DirectoryEntry}.
Context `{!BincodeSpec Index, !BincodeSpec IndexEntry, !BincodeSpec DirectoryEntry}.

Lemma io_ends {A : Type} (f : Cursor → (io_error + A) * Cursor) c : fst (io f c) ≠ OutOfFuel.
Proof. unfold io. by destruct (f c) as [[|] ?]. Qed.
Lemma io_inv {A : Type} (f : Cursor → (io_error + A) * Cursor) c x c' : io f c = (Ok x, c') → f c = (inr x, c').
Proof. unfold io. destruct (f c) as [[|] ?]; by intros [= -> ->]. Qed.

(** Enough fuel to read records of [n] bytes to the end of the source. *)
Definition fuel_for (n : Z) (fuel : nat) (c : Cursor) : Prop :=
  (1 ≤ fuel)%nat ∧ zlen (cursor_bytes c) < position c + n * Z.of_nat fuel.

Lemma fuel_start n c : 1 ≤ n → 0 ≤ position c → fuel_for n (S (length (cursor_bytes c))) c.
Proof. intros Hn Hp. split; [lia|]. unfold zlen. nia. Qed.
Lemma fuel_step {T : Type} `{!Fields T, !Bincode T, !BincodeSpec T} fuel c (x : T) c' :
  fuel_for size_of (S fuel) c → deserialize_from c = (inr x, c') →
  fuel_for size_of fuel c' ∧ cursor_bytes c' = cursor_bytes c.
Proof.
  intros [_ Hf] (Hb&Hp&Hle)%deserialize_consumes. unfold fuel_for. rewrite Hb, Hp in *. split; [|done].
  split; [|nia]. destruct fuel; [nia|lia].
Qed.

Lemma index_entries_ends fuel count index d n l c :
  fuel_for INDEX_ENTRY_LEN fuel c → (∀ e, d = Some e → index_length index ≤ chunk_offset e) →
  let r := index_entries_loop fuel count index d n l c in
  fst r ≠ OutOfFuel ∧ (∀ x, fst r = Ok x → cursor_bytes (snd r) = cursor_bytes c ∧
                         ∀ e, fst x = Some e → index_length index ≤ chunk_offset e).
Proof.
  revert count d n l c. induction fuel as [|fuel IH]; intros count d n l c Hfuel Hd r; [by destruct Hfuel; lia|].
  subst r. cbn [index_entries_loop]. destruct (count <=? 0).
  { split; [done|]. intros x [= <-]. done. }
  unfold bind, io. destruct (deserialize_from c) as [[e|entry] c'] eqn:E; [by split|].
  destruct (@fuel_step IndexEntry index_entry_fields _ _ fuel c entry c' Hfuel E) as [Hf Hb]. rewrite <- Hb.
  destruct (match l with None => false | Some t => _ end); [by split|].
  destruct (Z.ltb_spec (chunk_offset entry) (index_length index)) as [|Hoff]; [by split|].
  destruct (_ =? _); [by apply IH|]. destruct (_ =? _); [by apply IH|]. destruct (_ =? _); [|by split].
  apply IH; [done|]. by intros e [= <-].
Qed.
Lemma entries_ends fuel count pd acc c :
  fuel_for DIRECTORY_ENTRY_LEN fuel c → fst (entries_loop fuel count pd acc c) ≠ OutOfFuel.
Proof.
  revert count acc c. induction fuel as [|fuel IH]; intros count acc c Hfuel; [by destruct Hfuel; lia|].
  cbn [entries_loop]. destruct (count <=? 0); [done|]. unfold bind, io.
  destruct (deserialize_from c) as [[e|entry] c'] eqn:E; [done|].
  destruct (@fuel_step DirectoryEntry directory_entry_fields _ _ fuel c entry c' Hfuel E) as [Hf _]. unfold lift, index_range.
  destruct (_ && _); [|done]. destruct (utf8_valid _); [|done]. by apply IH.
Qed.

Lemma read_directory_ends c :
  0 ≤ position c → bytes_ok (cursor_bytes c) → fst (read_directory c) ≠ OutOfFuel.
Proof.
  intros Hp Hb. unfold read_directory. apply bind_ends.
  { unfold read_index. apply bind_ends; [apply io_ends|]. intros index c1 _. by repeat destruct (negb _). }
  intros index c1 E1. unfold read_index in E1. apply bind_ok_inv in E1 as (index'&c1'&E1&E1').
  apply io_inv in E1. destruct (negb _); [done|]. destruct (negb _); [done|]. injection E1' as -> ->.
  assert (0 ≤ index_length index) as Hi by (apply deserialize_fields in E1 as (_&_&?&_); done).
  apply deserialize_consumes in E1 as (_&Hp1&_).
  destruct (index_entries_ends (S (length (cursor_bytes c1))) (index_length index / INDEX_ENTRY_LEN) index None None None c1)
    as [Hne Hok]; [|done|].
  { apply fuel_start; [done|]. rewrite Hp1. unfold size_of, index_fields, INDEX_LEN. lia. }
  apply bind_ends; [exact Hne|]. intros [d n] c2 E2. unfold read_index_entries in E2. rewrite E2 in Hok.
  destruct (Hok _ eq_refl) as [_ Hd]. cbn [fst snd] in *. clear Hok Hne E2.
  destruct d as [d|]; [|done]. destruct n as [n|]; [|done]. specialize (Hd d eq_refl).
  rewrite (bind_lift (Ok d) _ _ _ eq_refl), (bind_lift (Ok n) _ _ _ eq_refl).
  apply bind_ends; [done|]. intros _ c3 _. apply bind_ends.
  { unfold read_vec. destruct (_ <? _); [apply io_ends|done]. }
  intros pd c4 _. apply bind_ends; [done|]. intros u c5 E5. apply entries_ends, fuel_start; [done|].
  unfold seek in E5. injection E5 as _ <-. cbn [seek_start position]. lia.
Qed.
End total.
