(* ===== verification/ArchiveRoundTrip.v ===== *)
(** The claims about archives, and a [bincode] that encodes the records'
    integers in little-endian order, for the witnesses. *)

From stdpp Require Import sorting.
From S2P Require Import Prelude Std Archive ArchiveTheorems.

(** * Claims *)
Section claims.
Context `{!Bincode Index, !Bincode IndexEntry, !Bincode DirectoryEntry}.
Context `{!BincodeSpec Index, !BincodeSpec IndexEntry, !BincodeSpec DirectoryEntry}.

(** C30: An archive written from files whose readers supply the declared sizes is read
    back: the reader lists the paths, and every sequence of reads, of any paths
    from any offsets, gives what the files hold. *)
Theorem archive_roundtrip (files : BTreeMap (Z * reads)) (bss : list (list Z)) :
  files_ok files → supplied files bss → bt_sorted files → Forall (λ f, utf8_valid (fst f) = true) files →
  ∃ bytes self, write files [] = (Ok tt, bytes) ∧
    reader_new {| cursor_bytes := bytes; position := 0 |} = Ok self ∧
    list_entries self = bt_keys files ∧
    (∀ path bs, bt_get path (zip (bt_keys files) bss) = Some bs → get_size self path = Ok (zlen bs)) ∧
    (∀ requests, Forall (λ q, 0 ≤ snd q) requests →
       run_reads requests self = map (spec_read (zip (bt_keys files) bss)) requests).
Proof.
  intros Hok Hsup Hs Hu. destruct (read_directory_ok files bss Hok Hs Hu) as (c&Hdir&Hc).
  exists (archive files bss), {| source := c; directory_entries := directory 0 (contents_start files) files |}.
  split; [by apply (archive_write_ok files bss [])|].
  split; [unfold reader_new; by rewrite Hdir|]. split; [apply directory_keys|].
  split; intros; [by eapply get_size_ok|by apply run_reads_ok].
Qed.

(** A path that is too long is refused before anything is written; a reader that
    supplies another number of bytes than declared is refused by its path and
    the two sizes. *)
Theorem archive_write_errors (files : BTreeMap (Z * reads)) (target : list Z) :
  (Exists (λ f, 2 ^ 16 ≤ zlen (fst f)) files → write files target = (Err NameTooLong, target)) ∧
  (∀ good name size r rest bss bs, files = good ++ (name, (size, r)) :: rest → files_ok files →
     supplied good bss → read_all r = Some bs → zlen bs ≠ size →
     fst (write files target) = Err (SizeMismatch name size (zlen bs))).
Proof.
  split.
  - intros Hex. unfold write. rewrite (bind_err _ _ target target NameTooLong); [done|].
    unfold lift. by rewrite directory_too_long.
  - intros good name size r rest bss bs -> Hok Hs Hr Hne.
    by destruct (write_mismatch good name size r rest bss bs target Hok Hs Hr Hne) as [w' ->].
Qed.

(** Opening an archive ends, whatever bytes the source has. *)
Theorem archive_open_ends (bytes : list Z) (pos : Z) :
  0 ≤ pos → bytes_ok bytes → reader_new {| cursor_bytes := bytes; position := pos |} ≠ OutOfFuel.
Proof.
  intros Hp Hb. unfold reader_new. pose proof (read_directory_ends {| cursor_bytes := bytes; position := pos |} Hp Hb) as He.
  destruct (read_directory _) as [[x|e| |] c]; done.
Qed.
End claims.

(** * A little-endian encoding *)
Definition decode_fixed {T : Type} (n : Z) (parse : list Z → T) (c : Cursor) : (io_error + T) * Cursor :=
  let (r, c) := read_exact n c in
  (match r with inl e => inl e | inr bs => inr (parse bs) end, c).
Definition get_le (off n : Z) (bs : list Z) : Z := from_le_bytes (slice off n bs).

#[export] Instance le_index : Bincode Index := {|
  serialize i := magic i ++ to_le_bytes 8 (index_length i);
  deserialize_from := decode_fixed 16 (λ bs, {| magic := slice 0 8 bs; index_length := get_le 8 8 bs |})
|}.
#[export] Instance le_index_entry : Bincode IndexEntry := {|
  serialize e := to_le_bytes 8 (chunk_type e) ++ to_le_bytes 8 (chunk_offset e) ++ to_le_bytes 8 (chunk_length e);
  deserialize_from := decode_fixed 24 (λ bs,
    {| chunk_type := get_le 0 8 bs; chunk_offset := get_le 8 8 bs; chunk_length := get_le 16 8 bs |})
|}.
#[export] Instance le_directory_entry : Bincode DirectoryEntry := {|
  serialize e := to_le_bytes 4 (name_offset e) ++ to_le_bytes 2 (name_length e) ++ to_le_bytes 2 (reserved e)
    ++ to_le_bytes 8 (data_offset e) ++ to_le_bytes 8 (data_length e) ++ to_le_bytes 8 (reserved2 e);
  deserialize_from := decode_fixed 32 (λ bs,
    {| name_offset := get_le 0 4 bs; name_length := get_le 4 2 bs; reserved := get_le 6 2 bs;
       data_offset := get_le 8 8 bs; data_length := get_le 16 8 bs; reserved2 := get_le 24 8 bs |})
|}.

Section le.
Lemma decode_fixed_ok {T : Type} n (parse : list Z → T) a b c :
  zlen b = n →
  decode_fixed n parse {| cursor_bytes := a ++ b ++ c; position := zlen a |}
  = (inr (parse b), {| cursor_bytes := a ++ b ++ c; position := zlen a + n |}).
Proof. intros <-. unfold decode_fixed. by rewrite read_exact_app. Qed.

Lemma decode_fixed_inv {T : Type} n (parse : list Z → T) c x c' :
  0 < n → decode_fixed n parse c = (inr x, c') →
  cursor_bytes c' = cursor_bytes c ∧ position c' = position c + n ∧ position c' ≤ zlen (cursor_bytes c) ∧
  ∃ bs, x = parse bs ∧ zlen bs = n ∧ (bytes_ok (cursor_bytes c) → bytes_ok bs).
Proof.
  intros Hn. unfold decode_fixed, read_exact, cursor_read.
  destruct (Z.eqb_spec (zlen (slice (position c) n (cursor_bytes c))) n) as [He|]; [|done].
  intros [= <- <-]. cbn [cursor_bytes position]. rewrite He. split_and!; [done|done| |].
  - unfold slice, zlen in *. rewrite length_take, length_drop in He. lia.
  - eexists. split; [done|]. split; [done|]. apply bytes_ok_slice.
Qed.

Lemma get_le_app a v n r off : off = zlen a → 0 ≤ n → u_ok (8 * n) v → get_le off n (a ++ to_le_bytes n v ++ r) = v.
Proof.
  intros -> Hn Hv. unfold get_le. rewrite <- (zlen_to_le_bytes n v) at 1 by done. rewrite slice_app_mid.
  by apply from_to_le_bytes.
Qed.
Lemma get_le_at a bs v n r off :
  bs = a ++ to_le_bytes n v ++ r → off = zlen a → 0 ≤ n → u_ok (8 * n) v → get_le off n bs = v.
Proof. intros ->. apply get_le_app. Qed.
Lemma get_le_bound off n bs : 0 ≤ off → 0 ≤ n → off + n ≤ zlen bs → bytes_ok bs → u_ok (8 * n) (get_le off n bs).
Proof.
  intros Ho Hn Hl Hb. unfold get_le, u_ok. pose proof (from_le_bytes_bound (slice off n bs)) as Hf.
  rewrite zlen_slice in Hf by done. apply Hf. by apply bytes_ok_slice.
Qed.

#[export] Instance le_index_spec : BincodeSpec Index.
Proof.
  split.
  - intros [mg l] (H1&_). cbn in *. by rewrite zlen_app, zlen_to_le_bytes, H1.
  - intros [mg l] a c (H1&_&H2). cbn [magic index_length] in *. cbn [deserialize_from serialize le_index magic index_length].
    rewrite decode_fixed_ok by (by rewrite zlen_app, zlen_to_le_bytes, H1). do 3 f_equal.
    + pose proof (slice_app_mid [] mg (to_le_bytes 8 l)) as Hs. by rewrite H1 in Hs.
    + rewrite <- (app_nil_r (to_le_bytes 8 l)). by apply get_le_app.
  - intros c x c' H. apply decode_fixed_inv in H as (?&?&?&_); done.
  - intros c x c' Hb H. apply decode_fixed_inv in H as (_&_&_&bs&->&Hl&Hbs); [|done]. specialize (Hbs Hb).
    split; [by apply zlen_slice; lia|]. split; [by apply bytes_ok_slice|]. by apply (get_le_bound 8 8); [..|lia|].
Qed.
#[export] Instance le_index_entry_spec : BincodeSpec IndexEntry.
Proof.
  split.
  - intros x _. cbn [serialize le_index_entry]. by rewrite !zlen_app, !zlen_to_le_bytes.
  - intros [t o l] a c (H1&H2&H3). cbn [chunk_type chunk_offset chunk_length] in *.
    cbn [deserialize_from serialize le_index_entry chunk_type chunk_offset chunk_length].
    rewrite decode_fixed_ok by (by rewrite !zlen_app, !zlen_to_le_bytes). do 3 f_equal.
    + by apply (get_le_app [] t 8).
    + by apply get_le_app; [rewrite zlen_to_le_bytes|..].
    + rewrite app_assoc, <- (app_nil_r (to_le_bytes 8 l)).
      by apply get_le_app; [rewrite zlen_app, !zlen_to_le_bytes|..].
  - intros c x c' H. apply decode_fixed_inv in H as (?&?&?&_); done.
  - intros c x c' Hb H. apply decode_fixed_inv in H as (_&_&_&bs&->&Hl&Hbs); [|done]. specialize (Hbs Hb).
    split_and!; by apply get_le_bound; [..|lia|].
Qed.
#[export] Instance le_directory_entry_spec : BincodeSpec DirectoryEntry.
Proof.
  split.
  - intros x _. cbn [serialize le_directory_entry]. by rewrite !zlen_app, !zlen_to_le_bytes.
  - intros [n1 n2 r1 d1 d2 r2] a c (H1&H2&H3&H4&H5&H6).
    cbn [name_offset name_length reserved data_offset data_length reserved2] in *.
    cbn [deserialize_from serialize le_directory_entry name_offset name_length reserved data_offset data_length reserved2].
    rewrite decode_fixed_ok by (by rewrite !zlen_app, !zlen_to_le_bytes). do 3 f_equal.
    + by apply (get_le_app [] n1 4).
    + by apply get_le_app; [rewrite zlen_to_le_bytes|..].
    + apply (get_le_at (to_le_bytes 4 n1 ++ to_le_bytes 2 n2) _ r1 2
        (to_le_bytes 8 d1 ++ to_le_bytes 8 d2 ++ to_le_bytes 8 r2));
        [by rewrite <- !app_assoc|by rewrite !zlen_app, !zlen_to_le_bytes|done..].
    + apply (get_le_at (to_le_bytes 4 n1 ++ to_le_bytes 2 n2 ++ to_le_bytes 2 r1) _ d1 8
        (to_le_bytes 8 d2 ++ to_le_bytes 8 r2));
        [by rewrite <- !app_assoc|by rewrite !zlen_app, !zlen_to_le_bytes|done..].
    + apply (get_le_at (to_le_bytes 4 n1 ++ to_le_bytes 2 n2 ++ to_le_bytes 2 r1 ++ to_le_bytes 8 d1) _ d2 8
        (to_le_bytes 8 r2));
        [by rewrite <- !app_assoc|by rewrite !zlen_app, !zlen_to_le_bytes|done..].
    + apply (get_le_at (to_le_bytes 4 n1 ++ to_le_bytes 2 n2 ++ to_le_bytes 2 r1 ++ to_le_bytes 8 d1
        ++ to_le_bytes 8 d2) _ r2 8 []);
        [by rewrite <- !app_assoc, app_nil_r|by rewrite !zlen_app, !zlen_to_le_bytes|done..].
  - intros c x c' H. apply decode_fixed_inv in H as (?&?&?&_); done.
  - intros c x c' Hb H. apply decode_fixed_inv in H as (_&_&_&bs&->&Hl&Hbs); [|done]. specialize (Hbs Hb).
    split_and!; by apply get_le_bound; [..|lia|].
Qed.
End le.

(** * Witnesses *)

(** Files [a] and [b], the second read in two parts. *)
Definition two_files : BTreeMap (Z * reads) :=
  [([97], (2, [inr [1; 2]])); ([98], (3, [inr [3]; inr [4; 5]; inr []; inr [6]]))].

Lemma two_files_ok : files_ok two_files.
Proof. split_and!; [|done|done]. repeat constructor; done. Qed.
Lemma two_files_supplied : supplied two_files [[1; 2]; [3; 4; 5]].
Proof. repeat constructor. Qed.

Lemma archive_roundtrip_witness : ∃ bytes self,
  write two_files [] = (Ok tt, bytes) ∧ reader_new {| cursor_bytes := bytes; position := 0 |} = Ok self ∧
  run_reads [([98], 1); ([97], 0); ([99], 0); ([97], 3)] self
  = [Ok [4; 5]; Ok [1; 2]; Err (PathNotFound [99]); Err OffsetExceedsLength].
Proof.
  destruct (archive_roundtrip two_files [[1; 2]; [3; 4; 5]] two_files_ok two_files_supplied)
    as (bytes&self&Hw&Hr&_&_&Hreads).
  - repeat constructor.
  - repeat constructor.
  - exists bytes, self. split; [exact Hw|]. split; [exact Hr|].
    rewrite Hreads by (repeat constructor; done). reflexivity.
Defined.

Lemma archive_write_errors_witness :
  fst (write (two_files ++ [([99], (7, [inr [8]]))]) []) = Err (SizeMismatch [99] 7 1).
Proof.
  apply (proj2 (archive_write_errors (two_files ++ [([99], (7, [inr [8]]))]) []) two_files [99] 7 [inr [8]] []
    [[1; 2]; [3; 4; 5]] [8]).
  - reflexivity.
  - split_and!; [|done|done]. repeat constructor; done.
  - apply two_files_supplied.
  - reflexivity.
  - done.
Defined.

Lemma archive_open_ends_witness : reader_new {| cursor_bytes := [0xc8; 0xbf]; position := 0 |} ≠ OutOfFuel.
Proof. apply archive_open_ends; [lia|]. repeat constructor; done. Defined.
