(* ===== verification/CharCollection.v ===== *)
(** Sets of characters as sorted ranges
    ([intl/unicode_utils/char_collection/src]).

    The range type of the [unic-char-range] package is a parameter, with its
    documented behaviour in the class [CharRangesSpec]. *)

From stdpp Require Import sorting.
From S2P Require Import Prelude Std.

(** * Characters

    A [char] is a Unicode scalar value: surrogates are not characters. *)
Definition char_max : Z := 0x10FFFF.
Definition is_char (c : Z) : Prop := 0 ≤ c ≤ char_max ∧ ¬ (0xD800 ≤ c ≤ 0xDFFF).
Definition char_try_from (x : Z) : option Z :=
  if (0 <=? x) && (x <=? char_max) && negb ((0xD800 <=? x) && (x <=? 0xDFFF)) then Some x else None.

(** The next and the previous character. *)
Definition char_succ (c : Z) : Z := if c =? 0xD7FF then 0xE000 else c + 1.
Definition char_pred (c : Z) : Z := if c =? 0xE000 then 0xD7FF else c - 1.

(** * Ranges *)
Record CharRange := { low : Z; high : Z }.
Definition range_ok (r : CharRange) : Prop := is_char (low r) ∧ is_char (high r) ∧ low r ≤ high r.

Class CharRanges := {
  closed : Z → Z → CharRange;
  open_right : Z → Z → CharRange;
  open_left : Z → Z → CharRange;
  open : Z → Z → CharRange;
  all : CharRange;
  is_empty : CharRange → bool;
  cmp_char : CharRange → Z → comparison;
  range_eqb : CharRange → CharRange → bool;
  range_iter : CharRange → list Z
}.

(** What the package documents: ranges hold the characters between their ends;
    an empty range has no characters, and equal ranges have the same ones. *)
Class CharRangesSpec `{!CharRanges} := {
  closed_spec a b : closed a b = {| low := a; high := b |};
  open_right_spec a b : is_char a → is_char b →
    if decide (a < b) then open_right a b = {| low := a; high := char_pred b |} else is_empty (open_right a b) = true;
  open_left_spec a b : is_char a → is_char b →
    if decide (a < b) then open_left a b = {| low := char_succ a; high := b |} else is_empty (open_left a b) = true;
  open_spec a b : is_char a → is_char b → char_succ a < b →
    open a b = {| low := char_succ a; high := char_pred b |};
  all_spec : all = {| low := 0; high := char_max |};
  is_empty_spec r : is_char (low r) → is_char (high r) → is_empty r = (high r <? low r);
  cmp_char_spec r c : range_ok r → is_char c →
    cmp_char r c = if high r <? c then Lt else if c <? low r then Gt else Eq;
  range_eqb_spec r r' : range_ok r → range_ok r' → range_eqb r r' = bool_decide (low r = low r' ∧ high r = high r');
  range_iter_empty r : is_empty r = true → range_iter r = [];
  range_iter_sorted r : StronglySorted Z.lt (range_iter r);
  range_iter_elem r c : range_ok r → c ∈ range_iter r ↔ is_char c ∧ low r ≤ c ≤ high r
}.

(** * Collections *)
Record CharCollection := { ranges : list CharRange }.

(** Nothing here fails but by a panic. *)
Abbreviation R := (result unit).

(** [MultiCharRange]: one or more disjoint ranges in ascending order. *)
Class MultiCharRange (V : Type) := {
  iter_ranges : V → R (list CharRange);
  range_count : V → Z
}.

Section collection.
Context `{!CharRanges}.

#[export] Instance collection_multi : MultiCharRange CharCollection :=
  {| iter_ranges self := Ok (ranges self); range_count self := zlen (ranges self) |}.
#[export] Instance range_multi : MultiCharRange CharRange :=
  {| iter_ranges self := Ok [self]; range_count _ := 1 |}.
(** A [char], and inclusive ranges of characters and of integers. *)
#[export] Instance char_multi : MultiCharRange Z :=
  {| iter_ranges self := Ok [closed self self]; range_count _ := 1 |}.
Record RangeInclusive := { range_start : Z; range_end : Z }.
Record IntRangeInclusive := { int_start : Z; int_end : Z }.
#[export] Instance range_inclusive_multi : MultiCharRange RangeInclusive :=
  {| iter_ranges self := Ok [closed (range_start self) (range_end self)]; range_count _ := 1 |}.
Definition to_char_range (range : IntRangeInclusive) : R CharRange :=
  start <-? ounwrap (char_try_from (int_start range mod 2 ^ 32)) ;;
  stop <-? ounwrap (char_try_from (int_end range mod 2 ^ 32)) ;;
  Ok (closed start stop).
#[export] Instance int_range_multi : MultiCharRange IntRangeInclusive :=
  {| iter_ranges self := r <-? to_char_range self ;; Ok [r]; range_count _ := 1 |}.

Definition collection_new : CharCollection := {| ranges := [] |}.
Definition iter (self : CharCollection) : list Z := concat (map range_iter (ranges self)).

(** [Result<(usize, CharRange), usize>]; its errors are not failures. *)
Abbreviation found := (nat * CharRange + nat)%type.
Definition found_eqb (a b : found) : bool :=
  match a, b with
  | inl (i, r), inl (j, r') => (i =? j)%nat && range_eqb r r'
  | inr i, inr j => (i =? j)%nat
  | _, _ => false
  end.
Definition is_ok (a : found) : bool := match a with inl _ => true | inr _ => false end.

Definition find_containing_range (self : CharCollection) (query : Z) : R found :=
  match binary_search_by (λ range, cmp_char range query) (ranges self) with
  | Ok index => r <-? ounwrap (ranges self !! index) ;; Ok (inl (index, r))
  | Err index => Ok (inr index)
  | Panic => Panic
  | OutOfFuel => OutOfFuel
  end.

Definition contains (self : CharCollection) (ch : Z) : R bool :=
  r <-? find_containing_range self ch ;; Ok (is_ok r).

Definition contains_range (self : CharCollection) (range : CharRange) : R bool :=
  if is_empty range then Ok false
  else
    lower_existing_range <-? find_containing_range self (low range) ;;
    upper_existing_range <-? find_containing_range self (high range) ;;
    Ok (found_eqb lower_existing_range upper_existing_range && is_ok lower_existing_range).

Definition are_chars_adjacent (left right : Z) : bool :=
  match last (range_iter (open_right left right)) with
  | None => false
  | Some next_right => left =? next_right
  end.

(** [Vec::splice] *)
Definition vec_splice (start stop : nat) (replacement l : list CharRange) : R (list CharRange) :=
  if (start <=? stop)%nat && (stop <=? length l)%nat then Ok (take start l ++ replacement ++ drop stop l) else Panic.

Definition replace_ranges (char_range_to_insert : CharRange) (start stop : nat) (self : CharCollection)
    : R CharCollection :=
  left <-? (match start with
            | O => Ok (char_range_to_insert, start)
            | S prev =>
                prev_char_range <-? ounwrap (ranges self !! prev) ;;
                if are_chars_adjacent (high prev_char_range) (low char_range_to_insert)
                then Ok ({| low := low prev_char_range; high := high char_range_to_insert |}, prev)
                else Ok (char_range_to_insert, start)
            end) ;;
  let (char_range_to_insert, start) := (left : CharRange * nat) in
  right <-? (if (stop <? length (ranges self))%nat then
               next_char_range <-? ounwrap (ranges self !! stop) ;;
               if are_chars_adjacent (high char_range_to_insert) (low next_char_range)
               then Ok ({| low := low char_range_to_insert; high := high next_char_range |}, S stop)
               else Ok (char_range_to_insert, stop)
             else Ok (char_range_to_insert, stop)) ;;
  let (char_range_to_insert, stop) := (right : CharRange * nat) in
  l <-? vec_splice start stop [char_range_to_insert] (ranges self) ;;
  Ok {| ranges := l |}.

Definition insert_char_range (self : CharCollection) (new_range : CharRange) : R CharCollection :=
  if is_empty new_range then Ok self
  else
    lower_existing_range <-? find_containing_range self (low new_range) ;;
    upper_existing_range <-? find_containing_range self (high new_range) ;;
    if found_eqb lower_existing_range upper_existing_range && is_ok lower_existing_range then Ok self
    else
      let (new_low, remove_from_idx) :=
        match lower_existing_range with
        | inl (idx, lower_existing_range) => (low lower_existing_range, idx)
        | inr idx => (low new_range, idx)
        end in
      let (new_high, remove_to_idx) :=
        match upper_existing_range with
        | inl (idx, higher_existing_range) => (high higher_existing_range, S idx)
        | inr idx => (high new_range, idx)
        end in
      replace_ranges (closed new_low new_high) remove_from_idx remove_to_idx self.

Definition remove_char_range (self : CharCollection) (range_to_remove : CharRange) : R CharCollection :=
  if is_empty range_to_remove then Ok self
  else
    lower_existing_range <-? find_containing_range self (low range_to_remove) ;;
    upper_existing_range <-? find_containing_range self (high range_to_remove) ;;
    let (left, remove_from_idx) :=
      match lower_existing_range with
      | inl (idx, lower_existing_range) =>
          (if low lower_existing_range <? low range_to_remove
           then [open_right (low lower_existing_range) (low range_to_remove)] else [], idx)
      | inr idx => ([], idx)
      end in
    let (right, remove_to_idx) :=
      match upper_existing_range with
      | inl (idx, higher_existing_range) =>
          (if high range_to_remove <? high higher_existing_range
           then [open_left (high range_to_remove) (high higher_existing_range)] else [], S idx)
      | inr idx => ([], idx)
      end in
    l <-? vec_splice remove_from_idx remove_to_idx (left ++ right) (ranges self) ;;
    Ok {| ranges := l |}.

Fixpoint for_each (f : CharCollection → CharRange → R CharCollection) (l : list CharRange) (self : CharCollection)
    : R CharCollection :=
  match l with
  | [] => Ok self
  | range :: l => self <-? f self range ;; for_each f l self
  end.
Definition insert {V : Type} `{!MultiCharRange V} (self : CharCollection) (to_add : V) : R CharCollection :=
  l <-? iter_ranges to_add ;; for_each insert_char_range l self.
Definition remove {V : Type} `{!MultiCharRange V} (self : CharCollection) (to_remove : V) : R CharCollection :=
  l <-? iter_ranges to_remove ;; for_each remove_char_range l self.
Definition clear (self : CharCollection) : CharCollection := {| ranges := [] |}.

(** [From<&T> for CharCollection] *)
Definition from {V : Type} `{!MultiCharRange V} (source : V) : R CharCollection := insert collection_new source.

(** The ranges between the ranges, after one that ends at [prev_high]. *)
Fixpoint gaps (prev_high : Z) (l : list CharRange) : list CharRange * Z :=
  match l with
  | [] => ([], prev_high)
  | range :: l =>
      let (result_ranges, last_high) := gaps (high range) l in
      (open prev_high (low range) :: result_ranges, last_high)
  end.
Definition complement (self : CharCollection) : R CharCollection :=
  match ranges self with
  | [] => from all
  | first :: rest =>
      let before := if negb (low first =? 0) then [open_right 0 (low first)] else [] in
      let (between, prev_high) := gaps (high first) rest in
      let after := if negb (prev_high =? char_max) then [open_left prev_high char_max] else [] in
      Ok {| ranges := before ++ between ++ after |}
  end.

Definition union {V : Type} `{!MultiCharRange V} (self : CharCollection) (rhs : V) : R CharCollection :=
  if range_count rhs <? range_count self then insert self rhs
  else result <-? from rhs ;; insert result self.
Definition intersection {V : Type} `{!MultiCharRange V} (self : CharCollection) (rhs : V) : R CharCollection :=
  if range_count rhs <? range_count self then
    rhs <-? from rhs ;;
    c <-? complement rhs ;;
    remove self c
  else
    result <-? from rhs ;;
    c <-? complement self ;;
    remove result c.
Definition difference {V : Type} `{!MultiCharRange V} (self : CharCollection) (rhs : V) : R CharCollection :=
  remove self rhs.

(** The operators. *)
Definition bitor {V : Type} `{!MultiCharRange V} (self : CharCollection) (rhs : V) := union self rhs.
Definition add {V : Type} `{!MultiCharRange V} (self : CharCollection) (rhs : V) := union self rhs.
Definition bitor_assign {V : Type} `{!MultiCharRange V} (self : CharCollection) (rhs : V) := insert self rhs.
Definition add_assign {V : Type} `{!MultiCharRange V} (self : CharCollection) (rhs : V) := insert self rhs.
Definition sub {V : Type} `{!MultiCharRange V} (self : CharCollection) (rhs : V) := difference self rhs.
Definition sub_assign {V : Type} `{!MultiCharRange V} (self : CharCollection) (rhs : V) := remove self rhs.
Definition bitand {V : Type} `{!MultiCharRange V} (self : CharCollection) (rhs : V) := intersection self rhs.
Definition bitand_assign {V : Type} `{!MultiCharRange V} (self : CharCollection) (rhs : V) := intersection self rhs.
Definition not_ (self : CharCollection) := complement self.
End collection.
