(* ===== verification/CharTheorems.v ===== *)
(** Collections of characters are sets: a normal form of sorted, separated
    ranges that every operation keeps, and the set each operation gives. *)

From stdpp Require Import sorting.
From S2P Require Import Prelude Std CharCollection.

(** * Characters *)
Ltac chars := unfold is_char, char_max, char_succ, char_pred in *;
  repeat match goal with
  | |- context [?a =? ?b] => destruct (Z.eqb_spec a b)
  | H : context [?a =? ?b] |- _ => destruct (Z.eqb_spec a b)
  end; lia.

Lemma char_succ_ok c : is_char c → c < char_max → is_char (char_succ c).
Proof. intros. chars. Qed.
Lemma char_pred_ok c : is_char c → 0 < c → is_char (char_pred c).
Proof. intros. chars. Qed.
Lemma char_succ_le a b : is_char a → is_char b → char_succ a ≤ b ↔ a < b.
Proof. intros. chars. Qed.
Lemma char_pred_ge a b : is_char a → is_char b → a ≤ char_pred b ↔ a < b.
Proof. intros. chars. Qed.
Lemma is_char_0 : is_char 0.
Proof. chars. Qed.
Lemma is_char_max : is_char char_max.
Proof. chars. Qed.

(** * Normal form *)
Definition in_range (c : Z) (r : CharRange) : Prop := low r ≤ c ≤ high r.
Definition mem (c : Z) (l : list CharRange) : Prop := ∃ r, r ∈ l ∧ in_range c r.
(** There is a character between the two ranges. *)
Definition before (r r' : CharRange) : Prop := char_succ (high r) < low r'.
Record wf (l : list CharRange) : Prop := {
  wf_ranges : Forall range_ok l;
  wf_sorted : StronglySorted before l
}.

Section lists.
Implicit Types (l : list CharRange).

Lemma mem_app c l1 l2 : mem c (l1 ++ l2) ↔ mem c l1 ∨ mem c l2.
Proof. unfold mem. setoid_rewrite elem_of_app. naive_solver. Qed.
Lemma mem_cons c r l : mem c (r :: l) ↔ in_range c r ∨ mem c l.
Proof. unfold mem. setoid_rewrite elem_of_cons. naive_solver. Qed.
Lemma mem_nil c : mem c [] ↔ False.
Proof. unfold mem. split; [|done]. by intros (r&Hr%not_elem_of_nil&_). Qed.
#[export] Instance mem_dec c l : Decision (mem c l).
Proof.
  destruct (decide (Exists (in_range c) l)) as [H|H]; [left|right].
  - apply Exists_exists in H as (r&?&?). by exists r.
  - intros (r&?&?). apply H, Exists_exists. by exists r.
Defined.

Lemma before_lt r r' : before r r' → high r < low r'.
Proof. unfold before. chars. Qed.

Lemma wf_app l1 l2 : wf (l1 ++ l2) ↔ wf l1 ∧ wf l2 ∧ (∀ x y, x ∈ l1 → y ∈ l2 → before x y).
Proof.
  split.
  - intros [H1 H2]. apply Forall_app in H1 as [? ?]. apply StronglySorted_app in H2 as (?&?&?). done.
  - intros ([??]&[??]&?). split; [by apply Forall_app|by apply StronglySorted_app].
Qed.
Lemma wf_nil : wf [].
Proof. split; constructor. Qed.
Lemma wf_single r : wf [r] ↔ range_ok r.
Proof.
  split; [intros [H _]; exact (proj1 (Forall_singleton _ _) H)|].
  intros H. split; [exact (proj2 (Forall_singleton _ _) H)|repeat constructor].
Qed.
Lemma wf_cons r l : wf (r :: l) ↔ range_ok r ∧ wf l ∧ (∀ x, x ∈ l → before r x).
Proof.
  rewrite (wf_app [r] l), wf_single. split.
  - intros (?&?&H). split_and!; try done. intros x. apply H. by left.
  - intros (?&?&H). split_and!; try done. intros x y Hx%list_elem_of_singleton. subst. apply H.
Qed.
Lemma wf_lookup l (i j : nat) x y : wf l → (i < j)%nat → l !! i = Some x → l !! j = Some y → before x y.
Proof.
  intros Hl Hij Hi Hj. rewrite <- (take_drop j l) in Hl. apply wf_app in Hl as (_&_&H). apply H.
  - apply list_elem_of_lookup. exists i. by rewrite lookup_take_lt.
  - apply list_elem_of_lookup. exists 0%nat. by rewrite lookup_drop, Nat.add_0_r.
Qed.
Lemma wf_ok l r : wf l → r ∈ l → range_ok r.
Proof. intros [H _] Hr. by eapply Forall_forall in H. Qed.
Lemma wf_ok_lookup l (i : nat) r : wf l → l !! i = Some r → range_ok r.
Proof. intros Hl Hi. eapply wf_ok; [done|]. apply list_elem_of_lookup. by exists i. Qed.
Lemma wf_take l n : wf l → wf (take n l).
Proof. rewrite <- (take_drop n l) at 1. by intros (?&_)%wf_app. Qed.
Lemma wf_drop l n : wf l → wf (drop n l).
Proof. rewrite <- (take_drop n l) at 1. by intros (_&?&_)%wf_app. Qed.
End lists.

(** Two collections in normal form with the same characters are the same. *)
Lemma wf_mem_low l c : wf l → mem c l → ∃ r, head l = Some r ∧ low r ≤ c.
Proof.
  intros Hl (r&Hr&Hc). destruct l as [|r0 l]; [by apply not_elem_of_nil in Hr|]. exists r0. split; [done|].
  apply wf_cons in Hl as ((_&_&H0)&_&Hb). apply elem_of_cons in Hr as [->|Hr]; [apply Hc|].
  apply Hb, before_lt in Hr. unfold in_range in Hc. lia.
Qed.
Lemma wf_tail_above r l c : wf (r :: l) → mem c l → char_succ (high r) < c.
Proof.
  intros (_&_&Hb)%wf_cons (x&Hx&Hc). specialize (Hb x Hx). unfold before, in_range in *. lia.
Qed.

(** The first ranges of two collections with the same characters end together. *)
Lemma wf_high_le r l r' l' :
  wf (r :: l) → wf (r' :: l') → (∀ c, is_char c → mem c (r' :: l') → mem c (r :: l)) →
  low r = low r' → high r' ≤ high r.
Proof.
  intros Hl Hl' Hsub Hlow. destruct (decide (high r' ≤ high r)) as [|Hlt]; [done|]. exfalso.
  apply wf_cons in Hl' as ((Hlo'&Hhi'&Hr')&_&_). pose proof Hl as ((Hlo&Hhi&Hr)&_&_)%wf_cons.
  assert (is_char (char_succ (high r))) as Hc by (apply char_succ_ok; [done|chars]).
  specialize (Hsub _ Hc). rewrite !mem_cons in Hsub. destruct Hsub as [Hin|Hin].
  - left. unfold in_range. chars.
  - unfold in_range in Hin. chars.
  - apply (wf_tail_above r l _ Hl) in Hin. lia.
Qed.

Lemma wf_ext l l' : wf l → wf l' → (∀ c, is_char c → mem c l ↔ mem c l') → l = l'.
Proof.
  revert l'. induction l as [|r l IH]; intros [|r' l'] Hl Hl' Heq; try done.
  - apply wf_cons in Hl' as ((Hlo&_&Hr)&_&_). destruct (proj1 (mem_nil (low r'))). apply Heq; [done|].
    apply mem_cons. left. unfold in_range. lia.
  - apply wf_cons in Hl as ((Hlo&_&Hr)&_&_). destruct (proj1 (mem_nil (low r))). apply Heq; [done|].
    apply mem_cons. left. unfold in_range. lia.
  - pose proof Hl as ((Hlo&Hhi&Hr)&Ht&_)%wf_cons. pose proof Hl' as ((Hlo'&Hhi'&Hr')&Ht'&_)%wf_cons.
    assert (low r = low r') as Hlow.
    { destruct (wf_mem_low (r' :: l') (low r) Hl') as (x&[= <-]&?); [apply Heq; [done|]; apply mem_cons; left; unfold in_range; lia|].
      destruct (wf_mem_low (r :: l) (low r') Hl) as (x&[= <-]&?); [apply Heq; [done|]; apply mem_cons; left; unfold in_range; lia|]. lia. }
    assert (high r = high r') as Hhigh.
    { apply Z.le_antisymm; eapply wf_high_le; eauto; intros c Hc; by apply Heq. }
    assert (r = r') as <- by (destruct r, r'; simpl in *; congruence). f_equal. apply IH; [done..|].
    intros c Hc. specialize (Heq c Hc). rewrite !mem_cons in Heq.
    split; intros Hm; [pose proof (wf_tail_above r l c Hl Hm)|pose proof (wf_tail_above r l' c Hl' Hm)];
      (destruct Heq as [H1 H2]; [..]); unfold in_range in *.
    + destruct H1 as [?|?]; [by right|chars|done].
    + destruct H2 as [?|?]; [by right|chars|done].
Qed.

(** * Searching *)
Section search.
Context `{!CharRanges, !CharRangesSpec}.
Implicit Types (l : list CharRange).

Lemma find_spec l q : wf l → is_char q →
  (∃ (i : nat) r, find_containing_range {| ranges := l |} q = Ok (inl (i, r)) ∧ l !! i = Some r ∧ in_range q r) ∨
  (∃ i : nat, find_containing_range {| ranges := l |} q = Ok (inr i) ∧ (i ≤ length l)%nat ∧
     (∀ (j : nat) r, (j < i)%nat → l !! j = Some r → high r < q) ∧
     (∀ (j : nat) r, (i ≤ j)%nat → l !! j = Some r → q < low r)).
Proof.
  intros Hl Hq. unfold find_containing_range. cbn [ranges].
  assert (∀ (j : nat) r, l !! j = Some r →
    (cmp_char r q = Lt ↔ high r < q) ∧ (cmp_char r q = Gt ↔ q < low r) ∧ (cmp_char r q = Eq ↔ in_range q r)) as Hcmp.
  { intros j r Hj. pose proof (wf_ok_lookup _ _ _ Hl Hj) as Hr. rewrite cmp_char_spec by done. destruct Hr as (_&_&?).
    unfold in_range. destruct (Z.ltb_spec (high r) q); [|destruct (Z.ltb_spec q (low r))];
      split_and!; split; intros; done || lia. }
  destruct (binary_search_spec (λ r, cmp_char r q) l) as [(i&r&->&Hi&He)|(i&->&Hlen&Hlt&Hgt)].
  - intros i j x y Hij Hi Hj. pose proof (before_lt _ _ (wf_lookup l i j x y Hl Hij Hi Hj)).
    destruct (wf_ok_lookup _ _ _ Hl Hi) as (_&_&?). destruct (wf_ok_lookup _ _ _ Hl Hj) as (_&_&?).
    destruct (Hcmp i x Hi) as (Hx1&Hx2&_). destruct (Hcmp j y Hj) as (Hy1&Hy2&_).
    rewrite Hx1, Hx2, Hy1, Hy2. lia.
  - left. exists i, r. rewrite Hi. split; [done|]. split; [done|]. by apply (Hcmp i).
  - right. exists i. split; [done|]. split; [done|].
    split; intros j r Hj Hr; apply (Hcmp j r Hr); [by apply (Hlt j)|by apply (Hgt j)].
Qed.

(** The range that holds a character is the only one. *)
Lemma mem_lookup l (i : nat) r c : wf l → l !! i = Some r → in_range c r → mem c l.
Proof. intros _ Hi Hc. exists r. split; [|done]. apply list_elem_of_lookup. by exists i. Qed.
Lemma same_range l (i j : nat) r r' c :
  wf l → l !! i = Some r → l !! j = Some r' → in_range c r → in_range c r' → i = j.
Proof.
  intros Hl Hi Hj Hc Hc'. unfold in_range in *. destruct (Nat.lt_trichotomy i j) as [Hij|[|Hij]]; [|done|].
  - pose proof (before_lt _ _ (wf_lookup l i j r r' Hl Hij Hi Hj)). lia.
  - pose proof (before_lt _ _ (wf_lookup l j i r' r Hl Hij Hj Hi)). lia.
Qed.

Lemma contains_ok l c : wf l → is_char c → ∃ b, contains {| ranges := l |} c = Ok b ∧ (b = true ↔ mem c l).
Proof.
  intros Hl Hc. unfold contains.
  destruct (find_spec l c Hl Hc) as [(i&r&->&Hi&Hr)|(i&->&_&Hlt&Hgt)]; cbn [rbind is_ok]; eexists; (split; [done|]).
  - split; [|done]. intros _. by eapply mem_lookup.
  - split; [done|]. intros (r&Hr&Hin). apply list_elem_of_lookup in Hr as [j Hj]. unfold in_range in Hin.
    destruct (decide (j < i)%nat); [specialize (Hlt j r)|specialize (Hgt j r)]; naive_solver lia.
Qed.

(** What a search says about the ranges on both sides. *)
Definition idx_of (r : nat * CharRange + nat) : nat := match r with inl (i, _) => i | inr i => i end.
Definition to_of (r : nat * CharRange + nat) : nat := match r with inl (i, _) => S i | inr i => i end.
Record found_at l (q : Z) (r : nat * CharRange + nat) : Prop := {
  found_idx : (to_of r ≤ length l)%nat;
  found_below x : x ∈ take (idx_of r) l → high x < q;
  found_above x : x ∈ drop (to_of r) l → q < low x;
  found_in i x : r = inl (i, x) → l !! i = Some x ∧ in_range q x
}.

Lemma elem_take l (n : nat) x : x ∈ take n l ↔ ∃ j, (j < n)%nat ∧ l !! j = Some x.
Proof.
  rewrite list_elem_of_lookup. split; intros [j Hj].
  - apply lookup_take_Some in Hj as [? ?]. by exists j.
  - destruct Hj as [Hj Hx]. exists j. by rewrite lookup_take_lt.
Qed.
Lemma elem_drop l (n : nat) x : x ∈ drop n l ↔ ∃ j, (n ≤ j)%nat ∧ l !! j = Some x.
Proof.
  rewrite list_elem_of_lookup. split; intros [j Hj].
  - rewrite lookup_drop in Hj. exists (n + j)%nat. split; [lia|done].
  - destruct Hj as [Hj Hx]. exists (j - n)%nat. rewrite lookup_drop. by replace (n + (j - n))%nat with j by lia.
Qed.

Lemma find_ok l q : wf l → is_char q → ∃ r, find_containing_range {| ranges := l |} q = Ok r ∧ found_at l q r.
Proof.
  intros Hl Hq. destruct (find_spec l q Hl Hq) as [(i&r&->&Hi&Hr)|(i&->&Hlen&Hlt&Hgt)]; eexists; (split; [done|]).
  - split; cbn [to_of idx_of].
    + by apply lookup_lt_Some in Hi.
    + intros x (j&Hj&Hx)%elem_take. pose proof (before_lt _ _ (wf_lookup l j i x r Hl Hj Hx Hi)).
      unfold in_range in Hr. lia.
    + intros x (j&Hj&Hx)%elem_drop. pose proof (before_lt _ _ (wf_lookup l i j r x Hl Hj Hi Hx)).
      unfold in_range in Hr. lia.
    + by intros ? ? [= -> ->].
  - split; cbn [to_of idx_of]; [done| | |done].
    + intros x (j&Hj&Hx)%elem_take. by apply (Hlt j).
    + intros x (j&Hj&Hx)%elem_drop. by apply (Hgt j).
Qed.

Lemma range_iter_last r : range_ok r → last (range_iter r) = Some (high r).
Proof.
  intros Hr. pose proof Hr as (_&Hh&Hle). assert (high r ∈ range_iter r) as Hin by (apply range_iter_elem; [done|lia || done]).
  destruct (last (range_iter r)) as [c|] eqn:Hc; [|apply last_None in Hc; rewrite Hc in Hin; by apply not_elem_of_nil in Hin].
  apply last_Some in Hc as [l' Hc]. pose proof (range_iter_sorted r) as Hs. rewrite Hc in Hs, Hin. f_equal.
  assert (c ∈ range_iter r) as Hcr by (rewrite Hc; apply elem_of_app; right; by left).
  apply range_iter_elem in Hcr as [_ ?]; [|done].
  apply elem_of_app in Hin as [Hin|Hin]; [|by apply list_elem_of_singleton in Hin].
  clear Hc. induction l' as [|x l' IH]; [by apply not_elem_of_nil in Hin|]. cbn [app] in Hs.
  apply StronglySorted_inv in Hs as [Hs Hf]. apply elem_of_cons in Hin as [<-|Hin]; [|by apply IH].
  apply Forall_app in Hf as [_ Hf]. apply Forall_cons in Hf as [? _]. lia.
Qed.

(** * Inserting *)
Lemma adjacent_spec a b : is_char a → is_char b → are_chars_adjacent a b = bool_decide (a < b ∧ char_succ a = b).
Proof.
  intros Ha Hb. unfold are_chars_adjacent. pose proof (open_right_spec a b Ha Hb) as Ho.
  destruct (decide (a < b)) as [Hlt|Hlt].
  - rewrite Ho, range_iter_last; cbn [high].
    + destruct (Z.eqb_spec a (char_pred b)) as [He|He]; symmetry; [apply bool_decide_eq_true|apply bool_decide_eq_false];
        chars.
    + split; cbn [low high]; [done|]. split; [apply char_pred_ok; [done|]|apply char_pred_ge; [done..|lia]].
      unfold is_char in *. lia.
  - rewrite range_iter_empty by done. cbn [last]. symmetry. apply bool_decide_eq_false. lia.
Qed.

Lemma last_take l (n : nat) prev : l !! n = Some prev → take (S n) l = take n l ++ [prev].
Proof. apply take_S_r. Qed.

(** Joining with the range on the left, and on the right. *)
Lemma join_left l (start : nat) N :
  wf l → range_ok N → (start ≤ length l)%nat → (∀ x, x ∈ take start l → high x < low N) →
  ∃ N' start',
    (match start with
     | O => Ok (N, start)
     | S prev => p <-? ounwrap (l !! prev) ;;
                 if are_chars_adjacent (high p) (low N)
                 then Ok ({| low := low p; high := high N |}, prev) else Ok (N, start)
     end) = (Ok (N', start') : R _) ∧
    (start' ≤ start)%nat ∧ range_ok N' ∧ high N' = high N ∧ (∀ x, x ∈ take start' l → before x N') ∧
    (∀ c, is_char c → mem c (take start' l) ∨ in_range c N' ↔ mem c (take start l) ∨ in_range c N).
Proof.
  intros Hl HN Hs Hb. destruct start as [|prev].
  { exists N, 0%nat. split_and!; try done. by intros x Hx%not_elem_of_nil. }
  destruct (lookup_lt_is_Some_2 l prev Hs) as [p Hp]. rewrite Hp. cbn [ounwrap rbind].
  pose proof (wf_ok_lookup _ _ _ Hl Hp) as (Hpl&Hph&Hple). destruct HN as (HNl&HNh&HNle).
  assert (high p < low N) as Hlt by (apply Hb; rewrite (last_take _ _ _ Hp); apply elem_of_app; right; by left).
  assert (∀ x, x ∈ take prev l → before x p) as Hbp.
  { intros x (j&Hj&Hx)%elem_take. by apply (wf_lookup l j prev). }
  rewrite adjacent_spec by done. destruct (bool_decide_reflect (high p < low N ∧ char_succ (high p) = low N)) as [[_ Hadj]|Hna].
  - exists {| low := low p; high := high N |}, prev. split; [done|]. split; [lia|].
    split; [by split_and!; cbn [low high]; try done; lia|]. split; [done|]. split; [done|].
    intros c Hc. rewrite (last_take _ _ _ Hp), mem_app, mem_cons, mem_nil. unfold in_range. cbn [low high].
    assert (low p ≤ c ≤ high N ↔ low p ≤ c ≤ high p ∨ low N ≤ c ≤ high N) as ->; [|tauto]. chars.
  - exists N, (S prev). split_and!; try done. intros x Hx. rewrite (last_take _ _ _ Hp) in Hx.
    assert (before p N) as HpN by (unfold before; chars).
    apply elem_of_app in Hx as [Hx|Hx]; [|by apply list_elem_of_singleton in Hx as ->].
    apply Hbp in Hx. unfold before in *. chars.
Qed.

Lemma join_right l (stop : nat) N :
  wf l → range_ok N → (stop ≤ length l)%nat → (∀ x, x ∈ drop stop l → high N < low x) →
  ∃ N' stop',
    (if (stop <? length l)%nat then
       p <-? ounwrap (l !! stop) ;;
       if are_chars_adjacent (high N) (low p) then Ok ({| low := low N; high := high p |}, S stop) else Ok (N, stop)
     else Ok (N, stop)) = (Ok (N', stop') : R _) ∧
    (stop ≤ stop' ≤ length l)%nat ∧ range_ok N' ∧ low N' = low N ∧ (∀ x, x ∈ drop stop' l → before N' x) ∧
    (∀ c, is_char c → mem c (drop stop' l) ∨ in_range c N' ↔ mem c (drop stop l) ∨ in_range c N).
Proof.
  intros Hl HN Hs Hb. destruct (Nat.ltb_spec stop (length l)) as [Hlt|Hge].
  2: { exists N, stop. rewrite drop_ge by done. split_and!; try done. by intros x Hx%not_elem_of_nil. }
  destruct (lookup_lt_is_Some_2 l stop Hlt) as [p Hp]. rewrite Hp. cbn [ounwrap rbind].
  pose proof (wf_ok_lookup _ _ _ Hl Hp) as (Hpl&Hph&Hple). destruct HN as (HNl&HNh&HNle).
  pose proof (drop_S l p stop Hp) as Hdrop.
  assert (high N < low p) as Hltp by (apply Hb; rewrite Hdrop; by left).
  assert (∀ x, x ∈ drop (S stop) l → before p x) as Hbp.
  { intros x (j&Hj&Hx)%elem_drop. by apply (wf_lookup l stop j p x Hl); [lia|..]. }
  rewrite adjacent_spec by done. destruct (bool_decide_reflect (high N < low p ∧ char_succ (high N) = low p)) as [[_ Hadj]|Hna].
  - exists {| low := low N; high := high p |}, (S stop). split; [done|]. split; [lia|].
    split; [by split_and!; cbn [low high]; try done; lia|]. split; [done|]. split; [done|].
    intros c Hc. rewrite Hdrop, mem_cons. unfold in_range. cbn [low high].
    assert (low N ≤ c ≤ high p ↔ low N ≤ c ≤ high N ∨ low p ≤ c ≤ high p) as ->; [|tauto]. chars.
  - exists N, stop. split; [done|]. split; [lia|]. split_and!; try done. intros x Hx. rewrite Hdrop in Hx.
    assert (before N p) as HpN by (unfold before; chars).
    apply elem_of_cons in Hx as [->|Hx]; [done|]. apply Hbp in Hx. unfold before in *. chars.
Qed.

Lemma replace_ok l (start stop : nat) N :
  wf l → range_ok N → (start ≤ stop ≤ length l)%nat →
  (∀ x, x ∈ take start l → high x < low N) → (∀ x, x ∈ drop stop l → high N < low x) →
  ∃ l', replace_ranges N start stop {| ranges := l |} = Ok {| ranges := l' |} ∧ wf l' ∧
    ∀ c, is_char c → mem c l' ↔ mem c (take start l) ∨ in_range c N ∨ mem c (drop stop l).
Proof.
  intros Hl HN Hs Hb Ha.
  destruct (join_left l start N Hl HN ltac:(lia) Hb) as (N1&start'&E1&Hs1&HN1&Hh1&Hb1&Hm1).
  destruct (join_right l stop N1 Hl HN1 ltac:(lia) ltac:(by rewrite Hh1)) as (N2&stop'&E2&Hs2&HN2&Hl2&Ha2&Hm2).
  unfold replace_ranges. cbn [ranges]. rewrite E1. cbn [rbind]. rewrite E2. cbn [rbind]. unfold vec_splice.
  rewrite (proj2 (Nat.leb_le _ _)), (proj2 (Nat.leb_le _ _)) by lia. cbn [andb rbind].
  eexists. split; [reflexivity|]. split.
  - rewrite wf_app, (wf_app [N2]), wf_single. split_and!; [by apply wf_take|done|by apply wf_drop| |].
    + intros x y Hx%list_elem_of_singleton. subst x. apply Ha2.
    + intros x y Hx [Hy|Hy]%elem_of_app.
      * apply list_elem_of_singleton in Hy as ->. apply Hb1 in Hx. unfold before in *. lia.
      * apply Hb1 in Hx. apply Ha2 in Hy. destruct HN2 as (?&?&?). unfold before in *. chars.
  - intros c Hc. specialize (Hm1 c Hc). specialize (Hm2 c Hc). rewrite !mem_app, mem_cons, mem_nil. tauto.
Qed.

(** The ends of the ranges a search starts or stops in. *)
Definition low_of (q : Z) (r : nat * CharRange + nat) : Z := match r with inl (_, x) => low x | inr _ => q end.
Definition high_of (q : Z) (r : nat * CharRange + nat) : Z := match r with inl (_, x) => high x | inr _ => q end.

Lemma low_of_spec l q r : wf l → is_char q → found_at l q r →
  is_char (low_of q r) ∧ low_of q r ≤ q ∧ (∀ x, x ∈ take (idx_of r) l → high x < low_of q r) ∧
  (low_of q r < q → ∀ x, x ∈ take (idx_of r) l → char_succ (high x) < low_of q r) ∧
  (∀ x, x ∈ drop (idx_of r) l → low_of q r ≤ low x) ∧ (∀ c, low_of q r ≤ c < q → mem c l).
Proof.
  intros Hl Hq [Hi Hb Ha Hin]. destruct r as [[i x0]|i]; cbn [low_of idx_of to_of] in *.
  - destruct (Hin i x0 eq_refl) as [Hx0 Hr]. pose proof (wf_ok_lookup _ _ _ Hl Hx0) as (?&?&?). unfold in_range in Hr.
    assert (∀ x, x ∈ take i l → before x x0) as Hbx by (intros x (j&Hj&Hx)%elem_take; by apply (wf_lookup l j i)).
    split_and!; [done|lia| | | |].
    + intros x Hx%Hbx. by apply before_lt.
    + intros _ x Hx. by apply Hbx.
    + intros x (j&Hj&Hx)%elem_drop. destruct (decide (j = i)) as [->|]; [simplify_eq; lia|].
      pose proof (before_lt _ _ (wf_lookup l i j x0 x Hl ltac:(lia) Hx0 Hx)). lia.
    + intros c Hc. eapply mem_lookup; [done..|]. unfold in_range. lia.
  - split_and!; [done|lia|done|lia| |lia]. intros x Hx%Ha. lia.
Qed.

Lemma high_of_spec l q r : wf l → is_char q → found_at l q r →
  is_char (high_of q r) ∧ q ≤ high_of q r ∧ (∀ x, x ∈ drop (to_of r) l → high_of q r < low x) ∧
  (q < high_of q r → ∀ x, x ∈ drop (to_of r) l → char_succ (high_of q r) < low x) ∧
  (∀ x, x ∈ take (to_of r) l → high x ≤ high_of q r) ∧ (∀ c, q < c ≤ high_of q r → mem c l).
Proof.
  intros Hl Hq [Hi Hb Ha Hin]. destruct r as [[i x0]|i]; cbn [high_of idx_of to_of] in *.
  - destruct (Hin i x0 eq_refl) as [Hx0 Hr]. pose proof (wf_ok_lookup _ _ _ Hl Hx0) as (?&?&?). unfold in_range in Hr.
    assert (∀ x, x ∈ drop (S i) l → before x0 x) as Hbx
      by (intros x (j&Hj&Hx)%elem_drop; by apply (wf_lookup l i j x0 x Hl); [lia|..]).
    split_and!; [done|lia| | | |].
    + intros x Hx%Hbx. by apply before_lt.
    + intros _ x Hx. by apply Hbx.
    + intros x (j&Hj&Hx)%elem_take. destruct (decide (j = i)) as [->|]; [simplify_eq; lia|].
      pose proof (before_lt _ _ (wf_lookup l j i x x0 Hl ltac:(lia) Hx Hx0)). lia.
    + intros c Hc. eapply mem_lookup; [done..|]. unfold in_range. lia.
  - split_and!; [done|lia|done|lia| |lia]. intros x Hx%Hb. lia.
Qed.

(** A search for the low end of a range stops no later than one for the high end. *)
Lemma found_order l a b r r' : wf l → a ≤ b → found_at l a r → found_at l b r' → (idx_of r ≤ to_of r' ≤ length l)%nat.
Proof.
  intros Hl Hab [Hi Hb _ _] [Hi' _ Ha' _]. split; [|done].
  destruct (decide (idx_of r ≤ to_of r')%nat) as [|Hgt]; [done|exfalso].
  assert (to_of r' < length l)%nat as Hlt by (unfold to_of, idx_of in *; repeat case_match; lia).
  destruct (lookup_lt_is_Some_2 l _ Hlt) as [x Hx]. pose proof (wf_ok_lookup _ _ _ Hl Hx) as (_&_&?).
  assert (high x < a) by (apply Hb, elem_take; exists (to_of r'); split; [lia|done]).
  assert (b < low x) by (apply Ha', elem_drop; exists (to_of r'); split; [lia|done]). lia.
Qed.

Lemma mem_cut l (start stop : nat) c :
  mem c l → mem c (take start l) ∨ mem c (drop stop l) ∨
  ∃ x, x ∈ drop start l ∧ x ∈ take stop l ∧ in_range c x.
Proof.
  intros (x&Hx&Hc). apply list_elem_of_lookup in Hx as [j Hj].
  destruct (decide (j < start)%nat); [left; exists x; split; [apply elem_take; by exists j|done]|].
  destruct (decide (stop ≤ j)%nat); [right; left; exists x; split; [apply elem_drop; by exists j|done]|].
  right. right. exists x. split; [apply elem_drop; exists j; split; [lia|done]|].
  split; [apply elem_take; exists j; split; [lia|done]|done].
Qed.
Lemma mem_take l (n : nat) c : mem c (take n l) → mem c l.
Proof. intros (x&(j&_&Hx)%elem_take&Hc). exists x. split; [|done]. apply list_elem_of_lookup. by exists j. Qed.
Lemma mem_drop l (n : nat) c : mem c (drop n l) → mem c l.
Proof. intros (x&(j&_&Hx)%elem_drop&Hc). exists x. split; [|done]. apply list_elem_of_lookup. by exists j. Qed.

Lemma insert_range_ok l N :
  wf l → is_char (low N) → is_char (high N) →
  ∃ l', insert_char_range {| ranges := l |} N = Ok {| ranges := l' |} ∧ wf l' ∧
    ∀ c, is_char c → mem c l' ↔ mem c l ∨ in_range c N.
Proof.
  intros Hl HNl HNh. unfold insert_char_range. rewrite is_empty_spec by done.
  destruct (Z.ltb_spec (high N) (low N)) as [He|HN].
  { exists l. split; [done|]. split; [done|]. intros c _. unfold in_range. split; [by left|]. intros [|]; [done|lia]. }
  destruct (find_ok l (low N) Hl HNl) as (r&->&Hr). destruct (find_ok l (high N) Hl HNh) as (r'&->&Hr'). cbn [rbind].
  destruct (low_of_spec l _ r Hl HNl Hr) as (L1&L2&L3&_&L5&L6).
  destruct (high_of_spec l _ r' Hl HNh Hr') as (U1&U2&U3&_&U5&U6).
  destruct (found_eqb r r' && is_ok r) eqn:Heq.
  { exists l. split; [done|]. split; [done|]. intros c Hc. split; [by left|]. intros [|Hin]; [done|].
    destruct r as [[i x]|]; [|by rewrite andb_false_r in Heq]. destruct r' as [[j y]|]; [|done].
    cbn [found_eqb is_ok] in Heq. apply andb_true_iff in Heq as [Heq _]. apply andb_true_iff in Heq as [Hij%Nat.eqb_eq _].
    subst j. destruct (found_in _ _ _ Hr i x eq_refl) as [Hx Hxr]. destruct (found_in _ _ _ Hr' i y eq_refl) as [Hy Hyr].
    simplify_eq. eapply mem_lookup; [done..|]. unfold in_range in *. lia. }
  assert ((match r with inl (idx, x) => (low x, idx) | inr idx => (low N, idx) end) = (low_of (low N) r, idx_of r)) as ->
    by (by destruct r as [[]|]).
  assert ((match r' with inl (idx, x) => (high x, S idx) | inr idx => (high N, idx) end) = (high_of (high N) r', to_of r')) as ->
    by (by destruct r' as [[]|]).
  rewrite closed_spec.
  destruct (replace_ok l (idx_of r) (to_of r') {| low := low_of (low N) r; high := high_of (high N) r' |})
    as (l'&->&Hl'&Hm); cbn [low high]; try done.
  { split_and!; cbn [low high]; try done. lia. }
  { by apply (found_order l (low N) (high N)). }
  exists l'. split; [done|]. split; [done|]. intros c Hc. rewrite Hm by done. unfold in_range at 1. cbn [low high]. split.
  - intros [H1|[H1|H1]]; [left; by eapply mem_take| |left; by eapply mem_drop].
    destruct (decide (c < low N)); [left; apply L6; lia|]. destruct (decide (high N < c)); [left; apply U6; lia|].
    right. unfold in_range. lia.
  - intros [H1|H1]; [|right; left; unfold in_range in H1; lia].
    destruct (mem_cut l (idx_of r) (to_of r') c H1) as [|[|(x&Hx&Hx'&Hin)]]; [by left|by right; right|].
    right. left. specialize (L5 x Hx). specialize (U5 x Hx'). unfold in_range in Hin. lia.
Qed.

(** * Removing *)

(** What is kept of the ranges the removed range starts and stops in. *)
Lemma left_piece a q :
  is_char a → is_char q → a ≤ q →
  let p := if a <? q then [open_right a q] else [] in
  wf p ∧ (∀ c, is_char c → mem c p ↔ a ≤ c < q) ∧ (∀ x, x ∈ p → a < q ∧ low x = a ∧ char_succ (high x) = q).
Proof.
  intros Ha Hq Haq p. subst p. destruct (Z.ltb_spec a q) as [Hlt|Hge].
  - pose proof (open_right_spec a q Ha Hq) as Ho. rewrite decide_True in Ho by done. rewrite Ho. split_and!.
    + apply wf_single. split_and!; cbn [low high]; [done|apply char_pred_ok; [done|unfold is_char in *; lia]|chars].
    + intros c Hc. rewrite mem_cons, mem_nil. unfold in_range. cbn [low high]. chars.
    + intros x Hx%list_elem_of_singleton. subst x. cbn [low high]. chars.
  - split_and!; [apply wf_nil| |by intros x Hx%not_elem_of_nil]. intros c _. rewrite mem_nil. lia.
Qed.
Lemma right_piece q b :
  is_char q → is_char b → q ≤ b →
  let p := if q <? b then [open_left q b] else [] in
  wf p ∧ (∀ c, is_char c → mem c p ↔ q < c ≤ b) ∧ (∀ x, x ∈ p → q < b ∧ low x = char_succ q ∧ high x = b).
Proof.
  intros Hq Hb Hqb p. subst p. destruct (Z.ltb_spec q b) as [Hlt|Hge].
  - pose proof (open_left_spec q b Hq Hb) as Ho. rewrite decide_True in Ho by done. rewrite Ho. split_and!.
    + apply wf_single. split_and!; cbn [low high]; [apply char_succ_ok; [done|unfold is_char in *; lia]|done|chars].
    + intros c Hc. rewrite mem_cons, mem_nil. unfold in_range. cbn [low high]. chars.
    + intros x Hx%list_elem_of_singleton. by subst x.
  - split_and!; [apply wf_nil| |by intros x Hx%not_elem_of_nil]. intros c _. rewrite mem_nil. lia.
Qed.

Lemma remove_range_ok l N :
  wf l → is_char (low N) → is_char (high N) →
  ∃ l', remove_char_range {| ranges := l |} N = Ok {| ranges := l' |} ∧ wf l' ∧
    ∀ c, is_char c → mem c l' ↔ mem c l ∧ ¬ in_range c N.
Proof.
  intros Hl HNl HNh. unfold remove_char_range. rewrite is_empty_spec by done.
  destruct (Z.ltb_spec (high N) (low N)) as [He|HN].
  { exists l. split; [done|]. split; [done|]. intros c _. unfold in_range. split; [|tauto]. intros Hm. split; [done|lia]. }
  destruct (find_ok l (low N) Hl HNl) as (r&->&Hr). destruct (find_ok l (high N) Hl HNh) as (r'&->&Hr'). cbn [rbind].
  destruct (low_of_spec l _ r Hl HNl Hr) as (L1&L2&L3&L4&L5&L6).
  destruct (high_of_spec l _ r' Hl HNh Hr') as (U1&U2&U3&U4&U5&U6).
  destruct (left_piece (low_of (low N) r) (low N) L1 HNl L2) as (P1&P2&P3).
  destruct (right_piece (high N) (high_of (high N) r') HNh U1 U2) as (Q1&Q2&Q3).
  set (left := if low_of (low N) r <? low N then _ else _) in *.
  set (right := if high N <? high_of (high N) r' then _ else _) in *.
  assert ((match r with
           | inl (idx, x) => (if low x <? low N then [open_right (low x) (low N)] else [], idx)
           | inr idx => ([], idx) end) = (left, idx_of r)) as ->.
  { subst left. destruct r as [[]|]; cbn [low_of idx_of]; [done|]. by rewrite Z.ltb_irrefl. }
  assert ((match r' with
           | inl (idx, x) => (if high N <? high x then [open_left (high N) (high x)] else [], S idx)
           | inr idx => ([], idx) end) = (right, to_of r')) as ->.
  { subst right. destruct r' as [[]|]; cbn [high_of to_of]; [done|]. by rewrite Z.ltb_irrefl. }
  destruct (found_order l (low N) (high N) r r' Hl HN Hr Hr') as [Ho1 Ho2]. unfold vec_splice. cbn [ranges].
  rewrite (proj2 (Nat.leb_le _ _)), (proj2 (Nat.leb_le _ _)) by lia. cbn [andb rbind].
  eexists. split; [reflexivity|]. split.
  - rewrite !wf_app. split_and!; [by apply wf_take|done|done| |by apply wf_drop| |].
    + intros x y Hx%P3 Hy%Q3. unfold before. chars.
    + intros x y [Hx|Hx]%elem_of_app Hy.
      * apply P3 in Hx. specialize (U3 y Hy). unfold before. lia.
      * apply Q3 in Hx as (Hlt&_&Hh). specialize (U4 Hlt y Hy). unfold before. by rewrite Hh.
    + intros x y Hx [[Hy|Hy]%elem_of_app|Hy]%elem_of_app.
      * apply P3 in Hy as (Hlt&Hy&_). specialize (L4 Hlt x Hx). unfold before. by rewrite Hy.
      * apply Q3 in Hy as (_&Hy&_). specialize (L3 x Hx). unfold before. rewrite Hy.
        pose proof (wf_ok _ _ (wf_take _ _ Hl) Hx) as (_&?&_). chars.
      * apply elem_take in Hx as (i&Hi&Hx). apply elem_drop in Hy as (j&Hj&Hy). apply (wf_lookup l i j); [done|lia|done..].
  - intros c Hc. rewrite !mem_app, P2, Q2 by done. unfold in_range. split.
    + intros [H1|[[H1|H1]|H1]].
      * split; [by eapply mem_take|]. destruct H1 as (x&Hx&Hx'). specialize (L3 x Hx). unfold in_range in Hx'. lia.
      * split; [by apply L6|lia].
      * split; [by apply U6|lia].
      * split; [by eapply mem_drop|]. destruct H1 as (x&Hx&Hx'). specialize (U3 x Hx). unfold in_range in Hx'. lia.
    + intros [H1 H2]. destruct (mem_cut l (idx_of r) (to_of r') c H1) as [|[|(x&Hx&Hx'&Hin)]]; [by left|by right; right|].
      right. left. specialize (L5 x Hx). specialize (U5 x Hx'). unfold in_range in Hin. lia.
Qed.

(** * Sets of ranges *)
Definition ends_ok (r : CharRange) : Prop := is_char (low r) ∧ is_char (high r).

Lemma for_each_insert_ok ns l :
  wf l → Forall ends_ok ns →
  ∃ l', for_each insert_char_range ns {| ranges := l |} = Ok {| ranges := l' |} ∧ wf l' ∧
    ∀ c, is_char c → mem c l' ↔ mem c l ∨ mem c ns.
Proof.
  intros Hl Hn. revert l Hl. induction Hn as [|N ns [Ha Hb] Hn IH]; intros l Hl; cbn [for_each].
  - exists l. split_and!; [done|done|]. intros c _. rewrite mem_nil. tauto.
  - destruct (insert_range_ok l N Hl Ha Hb) as (l1&->&Hl1&Hm1). cbn [rbind].
    destruct (IH l1 Hl1) as (l2&->&Hl2&Hm2). exists l2. split_and!; [done|done|].
    intros c Hc. rewrite Hm2, Hm1, mem_cons by done. tauto.
Qed.
Lemma for_each_remove_ok ns l :
  wf l → Forall ends_ok ns →
  ∃ l', for_each remove_char_range ns {| ranges := l |} = Ok {| ranges := l' |} ∧ wf l' ∧
    ∀ c, is_char c → mem c l' ↔ mem c l ∧ ¬ mem c ns.
Proof.
  intros Hl Hn. revert l Hl. induction Hn as [|N ns [Ha Hb] Hn IH]; intros l Hl; cbn [for_each].
  - exists l. split_and!; [done|done|]. intros c _. rewrite mem_nil. tauto.
  - destruct (remove_range_ok l N Hl Ha Hb) as (l1&->&Hl1&Hm1). cbn [rbind].
    destruct (IH l1 Hl1) as (l2&->&Hl2&Hm2). exists l2. split_and!; [done|done|].
    intros c Hc. rewrite Hm2, Hm1, mem_cons by done. tauto.
Qed.
Lemma wf_ends l : wf l → Forall ends_ok l.
Proof. intros [Hr _]. eapply Forall_impl; [exact Hr|]. by intros r (?&?&_). Qed.

(** * Complement *)
Lemma gaps_ok h l g h' :
  is_char h → wf l → (∀ x, x ∈ l → char_succ h < low x) → gaps h l = (g, h') →
  is_char h' ∧ h ≤ h' ∧ wf g ∧ (∀ x, x ∈ g → h < low x ∧ char_succ (high x) ≤ h') ∧
  (∀ c, is_char c → h < c → mem c l ↔ c ≤ h' ∧ ¬ mem c g).
Proof.
  revert h g h'. induction l as [|r l IH]; intros h g h' Hh Hl Hb; cbn [gaps].
  - intros [= <- <-]. split_and!; [done|lia|apply wf_nil|by intros x Hx%not_elem_of_nil|].
    intros c _ Hc. rewrite !mem_nil. lia.
  - destruct (gaps (high r) l) as [g1 h1] eqn:E. intros [= <- <-].
    pose proof (Hb r ltac:(by left)) as Hbr. pose proof Hl as ((Hrl&Hrh&Hr)&Hl'&Hbl)%wf_cons.
    destruct (IH (high r) g1 h1 Hrh Hl') as (I1&I2&I3&I4&I5); [by intros x Hx%Hbl|done|].
    rewrite open_spec by done.
    assert (is_char (char_succ h)) as Hsh by (apply char_succ_ok; [done|chars]).
    assert (is_char (char_pred (low r))) as Hpl by (apply char_pred_ok; [done|unfold is_char in *; chars]).
    split_and!; [done|chars| | |].
    + apply wf_cons. split_and!; [split_and!; cbn [low high]; [done..|chars]|done|].
      intros x Hx%I4. unfold before. cbn [high]. chars.
    + intros x [->|Hx]%elem_of_cons; cbn [low high]; [chars|]. apply I4 in Hx. chars.
    + intros c Hc Hhc. rewrite !mem_cons. unfold in_range at 2. cbn [low high].
      destruct (decide (c ≤ high r)) as [Hle|Hgt].
      * assert (¬ mem c l) as Hnl by (intros Hm; pose proof (wf_tail_above r l c Hl Hm); chars).
        assert (¬ mem c g1) as Hng by (intros (x&Hx%I4&Hin); unfold in_range in Hin; lia).
        unfold in_range. split.
        -- intros [H1|]; [|done]. split; [lia|]. intros [H2|]; [chars|done].
        -- intros [_ H2]. left. destruct (decide (low r ≤ c)); [lia|]. destruct H2. left. chars.
      * rewrite I5 by (done || lia). unfold in_range. split.
        -- intros [|[H1 H2]]; [lia|]. split; [done|]. intros [|]; [chars|done].
        -- intros [H1 H2]. right. split; [done|]. intros Hg. apply H2. by right.
Qed.

Lemma complement_ok l :
  wf l → ∃ l', complement {| ranges := l |} = Ok {| ranges := l' |} ∧ wf l' ∧
    ∀ c, is_char c → mem c l' ↔ ¬ mem c l.
Proof.
  intros Hl. unfold complement. cbn [ranges]. destruct l as [|r l].
  - unfold from, insert, collection_new. cbn [iter_ranges range_multi rbind for_each]. rewrite all_spec.
    destruct (insert_range_ok [] {| low := 0; high := char_max |} wf_nil is_char_0 is_char_max) as (l'&->&Hl'&Hm).
    cbn [rbind]. exists l'. split_and!; [done|done|]. intros c Hc. rewrite Hm, mem_nil by done.
    unfold in_range. cbn [low high]. unfold is_char in Hc. split; [tauto|]. intros _. right. lia.
  - pose proof Hl as ((Hrl&Hrh&Hr)&Hl'&Hbl)%wf_cons. destruct (gaps (high r) l) as [g h] eqn:E.
    destruct (gaps_ok (high r) l g h Hrh Hl') as (I1&I2&I3&I4&I5); [by intros x Hx%Hbl|done|].
    destruct (left_piece 0 (low r) is_char_0 Hrl) as (P1&P2&P3); [unfold is_char in Hrl; lia|].
    destruct (right_piece h char_max I1 is_char_max) as (Q1&Q2&Q3); [unfold is_char in I1; lia|].
    assert ((if negb (low r =? 0) then [open_right 0 (low r)] else []) = (if 0 <? low r then [open_right 0 (low r)] else [])) as ->.
    { destruct (Z.eqb_spec (low r) 0), (Z.ltb_spec 0 (low r)); try done; unfold is_char in Hrl; lia. }
    assert ((if negb (h =? char_max) then [open_left h char_max] else []) = (if h <? char_max then [open_left h char_max] else [])) as ->.
    { destruct (Z.eqb_spec h char_max), (Z.ltb_spec h char_max); try done; unfold is_char in I1; lia. }
    set (left := if 0 <? low r then _ else _) in *. set (right := if h <? char_max then _ else _) in *.
    eexists. split; [reflexivity|]. split.
    + rewrite !wf_app. split_and!; [done|done|done| |].
      * intros x y Hx%I4 Hy%Q3. unfold before. destruct Hy as (_&->&_). chars.
      * intros x y Hx%P3 [Hy|Hy]%elem_of_app; unfold before; destruct Hx as (_&_&->).
        -- apply I4 in Hy. lia.
        -- apply Q3 in Hy as (_&->&_). chars.
    + intros c Hc. rewrite !mem_app, P2, Q2 by done. rewrite mem_cons. unfold in_range.
      destruct (decide (high r < c)) as [Hgt|Hle].
      * rewrite I5 by done. destruct (decide (c ≤ h)).
        -- destruct (decide (Exists (in_range c) g)) as [Hm|Hm].
           ++ apply Exists_exists in Hm as (x&Hx&Hin). assert (mem c g) by by exists x. split; [|tauto].
              intros _ [|[_ ?]]; [lia|done].
           ++ assert (¬ mem c g) as Hng by (intros (x&Hx&Hin); apply Hm, Exists_exists; by exists x).
              split; [intros [|[|]]; [lia|done|lia]|]. intros Hn. exfalso. apply Hn. by right.
        -- split; [intros _ [|[]]; lia|]. intros _. right. right. unfold is_char in Hc. lia.
      * assert (¬ mem c l) as Hnl by (intros Hm; pose proof (wf_tail_above r l c Hl Hm); chars).
        assert (¬ mem c g) as Hng by (intros (x&Hx%I4&Hin); unfold in_range in Hin; lia).
        split; [intros H1 [H2|]; [destruct H1 as [|[|]]; [lia|done|lia]|done]|].
        intros Hn. left. unfold is_char in Hc. destruct (decide (low r ≤ c)); [|lia].
        exfalso. apply Hn. left. lia.
Qed.

Lemma contains_range_ok l N :
  wf l → range_ok N →
  ∃ b, contains_range {| ranges := l |} N = Ok b ∧ (b = true ↔ ∀ c, is_char c → in_range c N → mem c l).
Proof.
  intros Hl (HNl&HNh&HN). unfold contains_range. rewrite is_empty_spec by done.
  rewrite (proj2 (Z.ltb_ge _ _)) by done.
  destruct (find_ok l (low N) Hl HNl) as (r&->&Hr). destruct (find_ok l (high N) Hl HNh) as (r'&->&Hr'). cbn [rbind].
  eexists. split; [reflexivity|]. split.
  - intros Heq. destruct r as [[i x]|]; [|by rewrite andb_false_r in Heq]. destruct r' as [[j y]|]; [|done].
    cbn [found_eqb is_ok] in Heq. apply andb_true_iff in Heq as [Heq _]. apply andb_true_iff in Heq as [Hij%Nat.eqb_eq _].
    subst j. destruct (found_in _ _ _ Hr i x eq_refl) as [Hx Hxr]. destruct (found_in _ _ _ Hr' i y eq_refl) as [Hy Hyr].
    simplify_eq. intros c _ Hc. eapply mem_lookup; [done..|]. unfold in_range in *. lia.
  - intros Hall. destruct (low_of_spec l _ r Hl HNl Hr) as (_&_&L3&_&L5&_).
    destruct (Hall (low N) HNl) as (x&Hx&Hxr); [unfold in_range; lia|]. apply list_elem_of_lookup in Hx as [i Hi].
    pose proof (wf_ok_lookup _ _ _ Hl Hi) as (Hxl&Hxh&Hxle).
    assert (high N ≤ high x) as Hhigh.
    { destruct (decide (high N ≤ high x)) as [|Hgt]; [done|exfalso].
      assert (is_char (char_succ (high x))) as Hsc by (apply char_succ_ok; [done|unfold is_char in *; lia]).
      destruct (Hall (char_succ (high x)) Hsc) as (y&Hy&Hyr); [unfold in_range in *; chars|].
      apply list_elem_of_lookup in Hy as [j Hj]. unfold in_range in Hxr, Hyr.
      destruct (Nat.lt_trichotomy i j) as [Hij|[->|Hij]].
      - pose proof (wf_lookup l i j x y Hl Hij Hi Hj). unfold before in *. lia.
      - simplify_eq. chars.
      - pose proof (before_lt _ _ (wf_lookup l j i y x Hl Hij Hj Hi)). chars. }
    assert (∀ q s, found_at l q s → in_range q x → s = inl (i, x)) as Huniq.
    { intros q s Hs Hq. destruct s as [[j y]|j].
      - destruct (found_in _ _ _ Hs j y eq_refl) as [Hj Hyq]. pose proof (same_range l i j x y q Hl Hi Hj Hq Hyq). by simplify_eq.
      - exfalso. destruct Hs as [_ Hs1 Hs2 _]. cbn [idx_of to_of] in *. unfold in_range in Hq. destruct (decide (i < j)%nat).
        + specialize (Hs1 x ltac:(apply elem_take; by exists i)). lia.
        + specialize (Hs2 x ltac:(apply elem_drop; exists i; split; [lia|done])). lia. }
    rewrite (Huniq _ _ Hr Hxr). rewrite (Huniq _ _ Hr') by (unfold in_range in *; lia). cbn [found_eqb is_ok].
    rewrite Nat.eqb_refl, range_eqb_spec by done. by rewrite bool_decide_true.
Qed.
End search.
