(* ===== verification/CharClaims.v ===== *)
(** The claims about collections of characters, and an implementation of the
    ranges for the witnesses. *)

From stdpp Require Import sorting.
From S2P Require Import Prelude Std CharCollection CharTheorems.

(** A collection in normal form that holds the characters of [P]. *)
Definition denotes (self : CharCollection) (P : Z → Prop) : Prop :=
  wf (ranges self) ∧ ∀ c, is_char c → mem c (ranges self) ↔ P c.

Section claims.
Context `{!CharRanges, !CharRangesSpec}.

(** A value whose ranges hold the characters of [Q]. *)
Definition multi {V : Type} `{!MultiCharRange V} (v : V) (Q : Z → Prop) : Prop :=
  ∃ ns, iter_ranges v = Ok ns ∧ Forall ends_ok ns ∧ ∀ c, is_char c → mem c ns ↔ Q c.

Lemma collection_multi_ok self P : denotes self P → multi self P.
Proof. intros [Hw Hp]. exists (ranges self). split; [done|]. split; [by apply wf_ends|done]. Qed.
Lemma range_multi_ok r : ends_ok r → multi r (λ c, in_range c r).
Proof.
  intros Hr. exists [r]. split; [done|]. split; [by apply Forall_singleton|].
  intros c _. rewrite mem_cons, mem_nil. tauto.
Qed.
Lemma char_multi_ok ch : is_char ch → multi ch (λ c, c = ch).
Proof.
  intros Hc. exists [closed ch ch]. split; [done|]. rewrite closed_spec. split; [by apply Forall_singleton|].
  intros c _. rewrite mem_cons, mem_nil. unfold in_range. cbn [low high]. lia.
Qed.

Lemma insert_ok {V : Type} `{!MultiCharRange V} self (v : V) P Q :
  denotes self P → multi v Q → ∃ s, insert self v = Ok s ∧ denotes s (λ c, P c ∨ Q c).
Proof.
  intros [Hw Hp] (ns&Hi&Hn&Hq). destruct self as [l]. cbn [ranges] in *. unfold insert. rewrite Hi. cbn [rbind].
  destruct (for_each_insert_ok ns l Hw Hn) as (l'&->&Hw'&Hm). eexists. split; [reflexivity|]. split; [done|].
  intros c Hc. cbn [ranges]. by rewrite Hm, Hp, Hq.
Qed.
Lemma remove_ok {V : Type} `{!MultiCharRange V} self (v : V) P Q :
  denotes self P → multi v Q → ∃ s, remove self v = Ok s ∧ denotes s (λ c, P c ∧ ¬ Q c).
Proof.
  intros [Hw Hp] (ns&Hi&Hn&Hq). destruct self as [l]. cbn [ranges] in *. unfold remove. rewrite Hi. cbn [rbind].
  destruct (for_each_remove_ok ns l Hw Hn) as (l'&->&Hw'&Hm). eexists. split; [reflexivity|]. split; [done|].
  intros c Hc. cbn [ranges]. by rewrite Hm, Hp, Hq.
Qed.
Lemma new_denotes : denotes collection_new (λ _, False).
Proof. split; [apply wf_nil|]. intros c _. apply mem_nil. Qed.
Lemma from_ok {V : Type} `{!MultiCharRange V} (v : V) Q : multi v Q → ∃ s, from v = Ok s ∧ denotes s Q.
Proof.
  intros Hq. destruct (insert_ok _ v _ _ new_denotes Hq) as (s&Hs&Hw&Hm). exists s. split; [done|]. split; [done|].
  intros c Hc. rewrite Hm by done. tauto.
Qed.
Lemma complement_denotes self P : denotes self P → ∃ s, complement self = Ok s ∧ denotes s (λ c, ¬ P c).
Proof.
  intros [Hw Hp]. destruct self as [l]. destruct (complement_ok l Hw) as (l'&->&Hw'&Hm).
  eexists. split; [reflexivity|]. split; [done|]. intros c Hc. cbn [ranges] in *. by rewrite Hm, Hp.
Qed.
Lemma denotes_stable self P c : denotes self P → is_char c → ¬ ¬ P c → P c.
Proof. intros [_ Hp] Hc. rewrite <- Hp by done. apply dec_stable. Qed.
Lemma denotes_proper s P Q : (∀ c, is_char c → P c ↔ Q c) → denotes s P → denotes s Q.
Proof. intros Hpq [Hw Hp]. split; [done|]. intros c Hc. by rewrite Hp, Hpq. Qed.

(** C39: The operations of a collection are the operations of sets, on any kind of
    ranges, and they keep the normal form: sorted, non-empty ranges with a
    character between any two of them. *)
Theorem char_set_operations (V : Type) `{!MultiCharRange V} (self : CharCollection) (rhs : V) (P Q : Z → Prop) :
  denotes self P → multi rhs Q →
  (∃ s, insert self rhs = Ok s ∧ denotes s (λ c, P c ∨ Q c)) ∧
  (∃ s, remove self rhs = Ok s ∧ denotes s (λ c, P c ∧ ¬ Q c)) ∧
  (∃ s, union self rhs = Ok s ∧ denotes s (λ c, P c ∨ Q c)) ∧
  (∃ s, intersection self rhs = Ok s ∧ denotes s (λ c, P c ∧ Q c)) ∧
  (∃ s, difference self rhs = Ok s ∧ denotes s (λ c, P c ∧ ¬ Q c)) ∧
  (∃ s, complement self = Ok s ∧ denotes s (λ c, ¬ P c)).
Proof.
  intros HP HQ. pose proof (insert_ok self rhs P Q HP HQ) as Hins. pose proof (remove_ok self rhs P Q HP HQ) as Hrem.
  destruct (from_ok rhs Q HQ) as (f&Hf&HfQ). split; [done|]. split; [done|]. split; [|split; [|split; [done|by apply complement_denotes]]].
  - unfold union. destruct (_ <? _); [done|]. rewrite Hf. cbn [rbind].
    destruct (insert_ok f self Q P HfQ (collection_multi_ok _ _ HP)) as (s&Hs&Hd). exists s. split; [done|].
    eapply denotes_proper; [|done]. tauto.
  - unfold intersection. destruct (_ <? _); rewrite Hf; cbn [rbind].
    + destruct (complement_denotes f Q HfQ) as (k&->&Hk). cbn [rbind].
      destruct (remove_ok self k _ _ HP (collection_multi_ok _ _ Hk)) as (s&Hs&Hd). exists s. split; [done|].
      eapply denotes_proper; [|done]. intros c Hc. pose proof (denotes_stable _ _ c HfQ Hc). tauto.
    + destruct (complement_denotes self P HP) as (k&->&Hk). cbn [rbind].
      destruct (remove_ok f k _ _ HfQ (collection_multi_ok _ _ Hk)) as (s&Hs&Hd). exists s. split; [done|].
      eapply denotes_proper; [|done]. intros c Hc. pose proof (denotes_stable _ _ c HP Hc). tauto.
Qed.

(** Membership: of a character, by binary search, and of all the characters of a
    range; and iteration gives the characters in ascending order. *)
Theorem char_membership (self : CharCollection) (P : Z → Prop) :
  denotes self P →
  (∀ c, is_char c → ∃ b, contains self c = Ok b ∧ (b = true ↔ P c)) ∧
  (∀ r, range_ok r → ∃ b, contains_range self r = Ok b ∧ (b = true ↔ ∀ c, is_char c → in_range c r → P c)) ∧
  StronglySorted Z.lt (iter self) ∧ (∀ c, c ∈ iter self ↔ is_char c ∧ P c).
Proof.
  intros [Hw Hp]. destruct self as [l]. cbn [ranges] in *. split_and!.
  - intros c Hc. destruct (contains_ok l c Hw Hc) as (b&->&Hb). exists b. by rewrite Hb, Hp.
  - intros r Hr. destruct (contains_range_ok l r Hw Hr) as (b&->&Hb). exists b. split; [done|]. rewrite Hb.
    split; intros Hall c Hc Hin; [rewrite <- Hp by done|rewrite Hp by done]; by apply Hall.
  - unfold iter. cbn [ranges]. clear Hp P. induction l as [|r l IH]; cbn [map concat]; [constructor|].
    pose proof Hw as (Hr&Hl&Hb)%wf_cons. apply StronglySorted_app_2; [|apply range_iter_sorted|by apply IH].
    intros x y Hx Hy. apply range_iter_elem in Hx; [|done].
    apply list_elem_of_In, in_concat in Hy as (k&Hk&Hy). apply in_map_iff in Hk as (r'&<-&Hr').
    apply list_elem_of_In in Hr', Hy. apply range_iter_elem in Hy; [|by eapply wf_ok].
    pose proof (before_lt _ _ (Hb r' Hr')). lia.
  - intros c. unfold iter. cbn [ranges]. rewrite list_elem_of_In, in_concat. split.
    + intros (k&Hk&Hc). apply in_map_iff in Hk as (r&<-&Hr). apply list_elem_of_In in Hr, Hc.
      apply range_iter_elem in Hc as [Hc Hin]; [|by eapply wf_ok]. split; [done|]. apply Hp; [done|]. by exists r.
    + intros [Hc HP]. apply Hp in HP as (r&Hr&Hin); [|done]. exists (range_iter r).
      split; [apply in_map; by apply list_elem_of_In|]. apply list_elem_of_In, range_iter_elem; [by eapply wf_ok|done].
Qed.
End claims.

(** The derived equality of collections is equality of sets: there is one normal
    form for each set of characters. *)
Theorem char_canonical (s s' : CharCollection) (P P' : Z → Prop) :
  denotes s P → denotes s' P' → (s = s' ↔ ∀ c, is_char c → P c ↔ P' c).
Proof.
  intros [Hw Hp] [Hw' Hp']. split.
  - intros <- c Hc. by rewrite <- Hp, <- Hp'.
  - intros Heq. destruct s as [l], s' as [l']. cbn [ranges] in *. f_equal. apply wf_ext; [done..|].
    intros c Hc. by rewrite Hp, Hp', Heq.
Qed.

(** * Ranges between two characters *)
#[export] Instance is_char_dec c : Decision (is_char c).
Proof. unfold is_char. apply _. Defined.

Definition empty_range : CharRange := {| low := 1; high := 0 |}.
#[local] Instance plain_ranges : CharRanges := {|
  closed a b := {| low := a; high := b |};
  open_right a b := if decide (a < b) then {| low := a; high := char_pred b |} else empty_range;
  open_left a b := if decide (a < b) then {| low := char_succ a; high := b |} else empty_range;
  open a b := if decide (char_succ a < b) then {| low := char_succ a; high := char_pred b |} else empty_range;
  all := {| low := 0; high := char_max |};
  is_empty r := high r <? low r;
  cmp_char r c := if high r <? c then Lt else if c <? low r then Gt else Eq;
  range_eqb r r' := (high r <? low r) && (high r' <? low r') || bool_decide (low r = low r' ∧ high r = high r');
  range_iter r := filter is_char (seqZ (low r) (high r - low r + 1))
|}.

Lemma sorted_lookup (l : list Z) :
  (∀ (i j : nat) x y, (i < j)%nat → l !! i = Some x → l !! j = Some y → x < y) → StronglySorted Z.lt l.
Proof.
  induction l as [|x l IH]; intros Hl; constructor.
  - apply IH. intros i j a b Hij Ha Hb. by apply (Hl (S i) (S j)); [lia|..].
  - apply Forall_lookup. intros i y Hy. by apply (Hl 0%nat (S i)); [lia|..].
Qed.
Lemma seqZ_sorted m n : StronglySorted Z.lt (seqZ m n).
Proof. apply sorted_lookup. intros i j x y Hij Hx Hy. apply lookup_seqZ in Hx as [-> _], Hy as [-> _]. lia. Qed.
Lemma filter_sorted (l : list Z) : StronglySorted Z.lt l → StronglySorted Z.lt (filter is_char l).
Proof.
  induction 1 as [|x l Hs IH Hf]; [constructor|]. rewrite filter_cons. destruct (decide (is_char x)); [|done].
  constructor; [done|]. apply Forall_forall. intros y [_ Hy]%list_elem_of_filter. by eapply Forall_forall in Hf.
Qed.

#[local] Instance plain_ranges_spec : CharRangesSpec.
Proof.
  split; cbn [closed open_right open_left open all is_empty cmp_char range_eqb range_iter plain_ranges]; try done.
  - intros a b _ _. by destruct (decide (a < b)).
  - intros a b _ _. by destruct (decide (a < b)).
  - intros a b _ _ Hlt. by rewrite decide_True.
  - intros r r' (_&_&Hr) (_&_&Hr'). by rewrite (proj2 (Z.ltb_ge _ _)) by done.
  - intros r Hr%Z.ltb_lt. by rewrite seqZ_nil by lia.
  - intros r. apply filter_sorted, seqZ_sorted.
  - intros r c _. rewrite list_elem_of_filter, elem_of_seqZ. unfold is_char. lia.
Qed.

(** * Witnesses *)
Definition letters : CharCollection := {| ranges := [{| low := 97; high := 100 |}] |}.
Lemma letters_denotes : denotes letters (λ c, 97 ≤ c ≤ 100).
Proof.
  split; [apply wf_single; split_and!; cbn; chars|]. intros c _. cbn [ranges letters].
  rewrite mem_cons, mem_nil. unfold in_range. cbn [low high]. tauto.
Qed.

Lemma char_set_operations_witness :
  ∃ s, insert letters 101 = Ok s ∧ denotes s (λ c, 97 ≤ c ≤ 100 ∨ c = 101).
Proof.
  apply (char_set_operations Z letters 101 (λ c, 97 ≤ c ≤ 100) (λ c, c = 101)).
  - apply letters_denotes.
  - apply char_multi_ok. chars.
Defined.

Lemma char_membership_witness : ∃ b, contains letters 98 = Ok b ∧ (b = true ↔ 97 ≤ 98 ≤ 100).
Proof. apply (char_membership letters _ letters_denotes). chars. Defined.

Lemma char_canonical_witness : letters = letters.
Proof. apply (char_canonical letters letters _ _ letters_denotes letters_denotes). done. Defined.
