(* ===== verification/Stash.v ===== *)
(** The stash key-value service ([bin/stash/src]): the store and its file format
    ([store.rs]), transactional accessors ([accessor.rs]) and instances
    ([instance.rs]).

    System calls may fail: the state holds the outcomes of the calls to come. *)

From S2P Require Import Prelude Std.

(** * Values *)
Abbreviation Key := (list Z).
Abbreviation ClientName := (list Z).

(** A buffer is the bytes of its memory object up to its size, and a
    floating-point number is its bits.  The store keeps the memory object itself: that
    someone else with a handle to it changes the bytes later is not modelled. *)
Inductive Value : Type :=
| Intval (x : Z)
| Floatval (bits : Z)
| Boolval (b : bool)
| Stringval (s : list Z)
| Bytesval (buffer : list Z).
#[export] Instance Value_eq_dec : EqDecision Value.
Proof. solve_decision. Defined.

Inductive ValueType : Type := IntVal | FloatVal | BoolVal | StringVal | BytesVal.
Definition value_to_type (v : Value) : ValueType :=
  match v with
  | Intval _ => IntVal
  | Floatval _ => FloatVal
  | Boolval _ => BoolVal
  | Stringval _ => StringVal
  | Bytesval _ => BytesVal
  end.

Inductive StashError : Type :=
| BytesDisabled
| ReadOnly
| UnknownBool (b : Z)
| UnknownType (t : Z)
| FromUtf8
| IdentifiedTwice (name : list Z)
| NotIdentified
| Sys (e : io_error).

(** [Store]: the values of each client. *)
Abbreviation Store := (gmap ClientName (gmap Key Value)).

(** * The state: a store manager, its backing file and the temporary file next to
    it, and the outcomes of the system calls to come.  A failed write leaves a
    prefix of what it was to write. *)
Record State := {
  store : Store;
  temp_file : option (list Z);
  backing_file : option (list Z);
  faults : list (option (io_error * nat))
}.
Abbreviation SM := (M StashError State).

Definition with_faults (f : list (option (io_error * nat))) (s : State) : State :=
  {| store := store s; temp_file := temp_file s; backing_file := backing_file s; faults := f |}.
Definition with_store (st : Store) (s : State) : State :=
  {| store := st; temp_file := temp_file s; backing_file := backing_file s; faults := faults s |}.
Definition with_files (t b : option (list Z)) (s : State) : State :=
  {| store := store s; temp_file := t; backing_file := b; faults := faults s |}.

(** A system call: its effect when it succeeds, and when it fails. *)
Definition syscall (effect : State → State) (failed : nat → State → State) : SM unit := λ s,
  match faults s with
  | [] => (Ok tt, effect s)
  | None :: f => (Ok tt, effect (with_faults f s))
  | Some (e, n) :: f => (Err (Sys e), failed n (with_faults f s))
  end.
Definition pure_call : SM unit := syscall id (λ _, id).

(** [clone_value] and [clone_buffer]: a buffer is cloned by the kernel. *)
Definition clone_buffer (b : list Z) : SM (list Z) := pure_call ;;; ret b.
Definition clone_value (v : Value) : SM Value :=
  match v with
  | Bytesval x => x <- clone_buffer x ;; ret (Bytesval x)
  | _ => ret v
  end.

(** The order in which a [HashMap] is iterated. *)
Class HashOrder := hash_order : ∀ {V : Type}, gmap (list Z) V → list (list Z * V).
Class HashOrderSpec `{!HashOrder} :=
  hash_order_spec : ∀ {V : Type} (m : gmap (list Z) V), hash_order m ≡ₚ map_to_list m.

Section stash.
Context `{!ByteOrder, !HashOrder}.

(** * The file format *)
Definition value_type_as_bytes (v : Value) : list Z :=
  match v with
  | Intval _ => [0x00]
  | Floatval _ => [0x01]
  | Boolval _ => [0x02]
  | Stringval _ => [0x03]
  | Bytesval _ => [0x04]
  end.

Definition value_into_bytes (v : Value) : SM (list Z) :=
  match v with
  | Intval i => ret (write_int 8 (to_unsigned 64 i))
  | Floatval f => ret (write_int 8 f)
  | Boolval false => ret [0x00]
  | Boolval true => ret [0x01]
  | Stringval s => ret s
  | Bytesval b => pure_call ;;; ret b
  end.

Definition read_int_of (n : Z) (bytes : list Z) : result StashError Z :=
  if n <=? zlen bytes then Ok (read_int (take (Z.to_nat n) bytes)) else Err (Sys unexpected_eof).
Definition value_from_bytes (typ : Z) (bytes : list Z) : SM Value :=
  if typ =? 0x00 then x <- lift (read_int_of 8 bytes) ;; ret (Intval (to_signed 64 x))
  else if typ =? 0x01 then x <- lift (read_int_of 8 bytes) ;; ret (Floatval x)
  else if typ =? 0x02 then
    match bytes with
    | [] => fail (Sys unexpected_eof)
    | b :: _ => if b =? 0x00 then ret (Boolval false) else if b =? 0x01 then ret (Boolval true)
                else fail (UnknownBool b)
    end
  else if typ =? 0x03 then if utf8_valid bytes then ret (Stringval bytes) else fail FromUtf8
  else if typ =? 0x04 then pure_call ;;; pure_call ;;; ret (Bytesval bytes)
  else fail (UnknownType typ).

Fixpoint serialize_entries (entries : list (Key * Value)) : SM (list Z) :=
  match entries with
  | [] => ret []
  | (key, val) :: entries =>
      val_bytes <- value_into_bytes val ;;
      rest <- serialize_entries entries ;;
      ret (write_int 8 (zlen key) ++ key ++ value_type_as_bytes val
           ++ write_int 8 (zlen val_bytes) ++ val_bytes ++ rest)
  end.
Fixpoint serialize_clients (clients : list (ClientName * gmap Key Value)) : SM (list Z) :=
  match clients with
  | [] => ret []
  | (client_name, client_data) :: clients =>
      entries <- serialize_entries (hash_order client_data) ;;
      rest <- serialize_clients clients ;;
      ret (write_int 8 (zlen client_name) ++ client_name
           ++ write_int 8 (Z.of_nat (size client_data)) ++ entries ++ rest)
  end.
Definition serialize (self : Store) : SM (list Z) := serialize_clients (hash_order self).

(** Reading with a cursor.  [cursor.read] fills what it can of a zeroed buffer. *)
Definition cur_int (n : Z) (c : Cursor) : result StashError (Z * Cursor) :=
  let (r, c) := read_exact n c in
  match r with inl e => Err (Sys e) | inr bs => Ok (read_int bs, c) end.
Definition cur_buf (n : Z) (c : Cursor) : result StashError (list Z * Cursor) :=
  if n <? 2 ^ 63 then
    let (bs, c) := cursor_read n c in
    Ok (bs ++ zeros (n - zlen bs), c)
  else Panic.

(** Each entry and each client takes at least one integer from the cursor. *)
Fixpoint entries_loop (fuel : nat) (count : Z) (client_data : gmap Key Value) (c : Cursor)
    : SM (gmap Key Value * Cursor) :=
  if count <=? 0 then ret (client_data, c)
  else
    match fuel with
    | O => λ s, (OutOfFuel, s)
    | S fuel =>
        key_length <- lift (cur_int 8 c) ;;
        let (key_length, c) := (key_length : Z * Cursor) in
        key_bytes <- lift (cur_buf key_length c) ;;
        let (key_bytes, c) := (key_bytes : list Z * Cursor) in
        val_type <- lift (cur_buf 1 c) ;;
        let (val_type, c) := (val_type : list Z * Cursor) in
        val_type <- lift (ounwrap (head val_type)) ;;
        val_length <- lift (cur_int 8 c) ;;
        let (val_length, c) := (val_length : Z * Cursor) in
        val_bytes <- lift (cur_buf val_length c) ;;
        let (val_bytes, c) := (val_bytes : list Z * Cursor) in
        if utf8_valid key_bytes then
          value <- value_from_bytes val_type val_bytes ;;
          entries_loop fuel (count - 1) (<[key_bytes := value]> client_data) c
        else fail FromUtf8
    end.
Fixpoint clients_loop (fuel : nat) (res : Store) (c : Cursor) : SM Store :=
  if zlen (cursor_bytes c) <=? position c then ret res
  else
    match fuel with
    | O => λ s, (OutOfFuel, s)
    | S fuel =>
        name_length <- lift (cur_int 8 c) ;;
        let (name_length, c) := (name_length : Z * Cursor) in
        client_name <- lift (cur_buf name_length c) ;;
        let (client_name, c) := (client_name : list Z * Cursor) in
        client_entries <- lift (cur_int 8 c) ;;
        let (client_entries, c) := (client_entries : Z * Cursor) in
        data <- entries_loop (length (cursor_bytes c)) client_entries ∅ c ;;
        let (client_data, c) := (data : gmap Key Value * Cursor) in
        if utf8_valid client_name then clients_loop fuel (<[client_name := client_data]> res) c
        else fail FromUtf8
    end.
Definition deserialize (bytes : list Z) : SM Store :=
  clients_loop (S (length bytes)) ∅ {| cursor_bytes := bytes; position := 0 |}.

(** * [StoreManager] *)
Definition store_manager_new : SM unit :=
  pure_call ;;;
  s <- get_store ;;
  match backing_file s with
  | Some buf => st <- deserialize buf ;; (λ s, (Ok tt, with_store st s))
  | None => λ s, (Ok tt, with_store ∅ s)
  end.

Definition open_temp : SM unit := syscall (λ s, with_files (Some []) (backing_file s) s) (λ _, id).
Definition write_temp (bs : list Z) : SM unit :=
  syscall (λ s, with_files (Some bs) (backing_file s) s) (λ n s, with_files (Some (take n bs)) (backing_file s) s).
Definition rename_temp : SM unit := syscall (λ s, with_files None (temp_file s) s) (λ _, id).
Definition save_store : SM unit :=
  s <- get_store ;;
  store_contents <- serialize (store s) ;;
  open_temp ;;;
  write_temp store_contents ;;;
  rename_temp.

(** The fields of a client; [entry(..).or_insert(HashMap::new())] makes them. *)
Definition client_fields (client_name : ClientName) (st : Store) : gmap Key Value := default ∅ (st !! client_name).

Definition get_value (client_name : ClientName) (key : Key) (s : State) : option Value :=
  client_fields ← store s !! client_name; client_fields !! key.
Definition set_value (client_name : ClientName) (key : Key) (field : Value) : SM unit :=
  (λ s, (Ok tt, with_store (<[client_name := <[key := field]> (client_fields client_name (store s))]> (store s)) s)) ;;;
  save_store.
Definition delete_value (client_name : ClientName) (key : Key) : SM unit :=
  (λ s, (Ok tt, with_store (<[client_name := delete key (client_fields client_name (store s))]> (store s)) s)) ;;;
  save_store.

Definition starts_with (prefix k : Key) : bool := bool_decide (prefix `prefix_of` k).
Definition list_prefix (client_name : ClientName) (prefix : Key) (s : State) : list (Key * ValueType) :=
  match store s !! client_name with
  | None => []
  | Some client_fields =>
      map (λ kv, (kv.1, value_to_type kv.2)) (filter (λ kv, starts_with prefix kv.1 = true) (hash_order client_fields))
  end.
Fixpoint clone_all (l : list (Key * Value)) : SM (list (Key * Value)) :=
  match l with
  | [] => ret []
  | (k, v) :: l => v <- clone_value v ;; l <- clone_all l ;; ret ((k, v) :: l)
  end.
Definition get_prefix (client_name : ClientName) (prefix : Key) : SM (list (Key * Value)) :=
  s <- get_store ;;
  match store s !! client_name with
  | None => ret []
  | Some client_fields => clone_all (filter (λ kv, starts_with prefix kv.1 = true) (hash_order client_fields))
  end.
End stash.
