(* ===== verification/StashAccessor.v ===== *)
(** Accessors of the stash ([bin/stash/src/accessor.rs]) and the requests they
    serve ([instance.rs]): pending updates over the shared store, committed
    together. *)

From S2P Require Import Prelude Std Stash.

Record Accessor := {
  client_name : ClientName;
  enable_bytes : bool;
  read_only : bool;
  fields_updated : gmap Key (option Value)
}.
(** An accessor with the store manager it shares. *)
Record Session := { accessor : Accessor; manager : State }.
Abbreviation AM := (M StashError Session).

Definition accessor_new (enable_bytes read_only : bool) (client_name : ClientName) : Accessor :=
  {| client_name := client_name; enable_bytes := enable_bytes; read_only := read_only; fields_updated := ∅ |}.

Definition on_manager {A : Type} (m : SM A) : AM A := λ s,
  let (r, st) := m (manager s) in (r, {| accessor := accessor s; manager := st |}).
Definition set_updated (f : gmap Key (option Value)) : AM unit := λ s,
  (Ok tt, {| accessor := {| client_name := client_name (accessor s); enable_bytes := enable_bytes (accessor s);
                            read_only := read_only (accessor s); fields_updated := f |};
             manager := manager s |}).

(** [StoreAccessorRequest], and what is sent back. *)
Inductive StoreAccessorRequest : Type :=
| GetValue (key : Key)
| SetValue (key : Key) (val : Value)
| DeleteValue (key : Key)
| ListPrefix (prefix : Key)
| GetPrefix (prefix : Key)
| DeletePrefix (prefix : Key)
| Commit.
Inductive Reply : Type :=
| RUnit
| RValue (o : option Value)
| RTypes (l : list (Key * ValueType))
| RValues (l : list (Key * Value)).

Section accessor.
Context `{!ByteOrder, !HashOrder}.

Definition acc_get_value (key : Key) : AM (option Value) :=
  s <- get_store ;;
  let self := accessor s in
  match fields_updated self !! key with
  | Some o_val =>
      match enable_bytes self, o_val with
      | false, Some (Bytesval _) => fail BytesDisabled
      | _, Some val => v <- on_manager (clone_value val) ;; ret (Some v)
      | _, None => ret None
      end
  | None =>
      match get_value (client_name self) key (manager s) with
      | None => ret None
      | Some (Bytesval b) =>
          if negb (enable_bytes self) then fail BytesDisabled
          else v <- on_manager (clone_value (Bytesval b)) ;; ret (Some v)
      | Some val => v <- on_manager (clone_value val) ;; ret (Some v)
      end
  end.

Definition is_bytes (v : Value) : bool := match v with Bytesval _ => true | _ => false end.
Definition acc_set_value (key : Key) (val : Value) : AM unit :=
  s <- get_store ;;
  let self := accessor s in
  if read_only self then fail ReadOnly
  else if negb (enable_bytes self) && is_bytes val then fail BytesDisabled
  else set_updated (<[key := Some val]> (fields_updated self)).

Definition acc_delete_value (key : Key) : AM unit :=
  s <- get_store ;;
  let self := accessor s in
  if read_only self then fail ReadOnly
  else set_updated (<[key := None]> (fields_updated self)).

(** Keeping what has not been deleted. *)
Definition field_has_been_deleted {T : Type} (f : option (option T)) : bool :=
  match f with
  | None => true
  | Some None => false
  | Some (Some _) => true
  end.

(** Merging the pending updates into a listing; [T] is a type or a value. *)
Definition merge_update {T : Type} (of_value : Value → T) (key : Key) (v : Value) (l : list (Key * T))
    : list (Key * T) :=
  if existsb (λ li, bool_decide (li.1 = key)) l
  then map (λ li, if bool_decide (li.1 = key) then (li.1, of_value v) else li) l
  else l ++ [(key, of_value v)].
Fixpoint merge_updates {T : Type} (of_value : Value → T) (updates : list (Key * option Value)) (l : list (Key * T))
    : list (Key * T) :=
  match updates with
  | [] => l
  | (key, Some v) :: updates => merge_updates of_value updates (merge_update of_value key v l)
  | (_, None) :: updates => merge_updates of_value updates l
  end.

(** What the iterator that [list_prefix] serves will return. *)
Definition acc_list_prefix (prefix : Key) : AM (list (Key * ValueType)) :=
  s <- get_store ;;
  let self := accessor s in
  let list_results := list_prefix (client_name self) prefix (manager s) in
  if bool_decide (fields_updated self = ∅) then ret list_results
  else
    let kept := filter (λ li, field_has_been_deleted (fields_updated self !! li.1) = true) list_results in
    ret (merge_updates value_to_type (hash_order (fields_updated self)) kept).

(** Each update that sets a value clones it, once or for the entry it replaces. *)
Fixpoint clone_updates (updates : list (Key * option Value)) : SM unit :=
  match updates with
  | [] => ret tt
  | (_, Some v) :: updates => clone_value v ;;; clone_updates updates
  | (_, None) :: updates => clone_updates updates
  end.
Definition acc_get_prefix (prefix : Key) : AM (list (Key * Value)) :=
  s <- get_store ;;
  let self := accessor s in
  get_results <- on_manager (get_prefix (client_name self) prefix) ;;
  if bool_decide (fields_updated self = ∅) then ret get_results
  else
    let kept := filter (λ kv, field_has_been_deleted (fields_updated self !! kv.1) = true) get_results in
    on_manager (clone_updates (hash_order (fields_updated self))) ;;;
    ret (merge_updates id (hash_order (fields_updated self)) kept).

(** The iterators send what is left in parts, from its end. *)
Definition get_next {T : Type} (chunk_size : nat) (results : list T) : list T * list T :=
  let split_at := (length results - Nat.min chunk_size (length results))%nat in
  (drop split_at results, take split_at results).
Definition get_next_value (bytes_enabled : bool) (chunk_size : nat) (results : list (Key * Value))
    : result StashError (list (Key * Value) * list (Key * Value)) :=
  let (chunk, results) := get_next chunk_size results in
  if negb bytes_enabled && existsb (λ kv, is_bytes kv.2) chunk then Err BytesDisabled
  else Ok (chunk, results).

Definition acc_delete_prefix (prefix : Key) : AM unit :=
  s <- get_store ;;
  let self := accessor s in
  if read_only self then fail ReadOnly
  else
    let list_results := list_prefix (client_name self) prefix (manager s) in
    let marked := map_imap (λ key o_val, Some (if starts_with prefix key then None else o_val)) (fields_updated self) in
    set_updated (foldl (λ f li, <[li.1 := None]> f) marked list_results).

(** The closure of [commit]: the old values it recorded are kept on failure. *)
Fixpoint commit_loop (client : ClientName) (updates : list (Key * option Value)) (old_values : gmap Key (option Value))
    : State → result StashError unit * gmap Key (option Value) * State :=
  match updates with
  | [] => λ s, (Ok tt, old_values, s)
  | (key, o_val) :: updates => λ s,
      let (r, s) :=
        match get_value client key s with
        | Some val_ref => (v <- clone_value val_ref ;; ret (Some v)) s
        | None => (Ok None, s)
        end in
      match r with
      | Ok old_value =>
          let old_values := <[key := old_value]> old_values in
          let (r, s) :=
            match o_val with
            | Some val => (v <- clone_value val ;; set_value client key v) s
            | None => delete_value client key s
            end in
          match r with
          | Ok _ => commit_loop client updates old_values s
          | Err e => (Err e, old_values, s)
          | Panic => (Panic, old_values, s)
          | OutOfFuel => (OutOfFuel, old_values, s)
          end
      | Err e => (Err e, old_values, s)
      | Panic => (Panic, old_values, s)
      | OutOfFuel => (OutOfFuel, old_values, s)
      end
  end.
Fixpoint revert_loop (client : ClientName) (old_values : list (Key * option Value)) : SM unit :=
  match old_values with
  | [] => ret tt
  | (key, o_val) :: old_values =>
      match o_val with
      | Some val => v <- clone_value val ;; set_value client key v
      | None => delete_value client key
      end ;;;
      revert_loop client old_values
  end.

Definition commit : AM unit :=
  s <- get_store ;;
  let self := accessor s in
  if read_only self then fail ReadOnly
  else
    λ s,
    let '(commit_result, old_values, st) :=
      commit_loop (client_name self) (hash_order (fields_updated self)) ∅ (manager s) in
    match commit_result with
    | Panic => (Panic, {| accessor := self; manager := st |})
    | OutOfFuel => (OutOfFuel, {| accessor := self; manager := st |})
    | Ok _ => set_updated ∅ {| accessor := self; manager := st |}
    | Err e =>
        (set_updated ∅ ;;; on_manager (revert_loop (client_name self) (hash_order old_values)) ;;; fail e)
          {| accessor := self; manager := st |}
    end.

(** * Requests *)
Definition reply {A : Type} (f : A → Reply) (m : AM A) : AM Reply := a <- m ;; ret (f a).
Definition run_op (req : StoreAccessorRequest) : AM Reply :=
  match req with
  | GetValue key => reply RValue (acc_get_value key)
  | SetValue key val => reply (λ _, RUnit) (acc_set_value key val)
  | DeleteValue key => reply (λ _, RUnit) (acc_delete_value key)
  | ListPrefix prefix => reply RTypes (acc_list_prefix prefix)
  | GetPrefix prefix => reply RValues (acc_get_prefix prefix)
  | DeletePrefix prefix => reply (λ _, RUnit) (acc_delete_prefix prefix)
  | Commit => reply (λ _, RUnit) commit
  end.
(** The requests of one channel, up to the first that fails. *)
Fixpoint run (reqs : list StoreAccessorRequest) (s : Session) : list (result StashError Reply) * Session :=
  match reqs with
  | [] => ([], s)
  | req :: reqs =>
      match run_op req s with
      | (Ok r, s) => let (rs, s) := run reqs s in (Ok r :: rs, s)
      | (r, s) => ([r], s)
      end
  end.
End accessor.
