(* ===== verification/StashService.v ===== *)
(** The stash service ([bin/stash/src/main.rs], [instance.rs]): its settings, its
    connections, and the accessors that share one store manager.

    Requests of different channels interleave; each holds the lock of the store
    manager while it runs. *)

From Stdlib Require Import String.
From S2P Require Import Prelude Std Stash StashAccessor.

(** * Settings *)
Record StashSettings := { setting_backing_file : string; secure_mode : bool }.
Definition default_settings : StashSettings :=
  {| setting_backing_file := "/data/stash.store"; secure_mode := false |}.
Fixpoint settings_loop (args : list string) (res : StashSettings) : option StashSettings :=
  match args with
  | [] => Some res
  | flag :: args =>
      if String.eqb flag "--backing_file" then
        match args with
        | f :: args => settings_loop args {| setting_backing_file := f; secure_mode := secure_mode res |}
        | [] => None
        end
      else if String.eqb flag "--secure" then
        settings_loop args {| setting_backing_file := setting_backing_file res; secure_mode := true |}
      else None
  end.
Definition settings_try_from (args : list string) : option StashSettings :=
  match args with
  | [] => Some default_settings
  | _ :: args => settings_loop args default_settings
  end.

(** * Instances *)
Record Instance_ := { inst_client_name : option ClientName; inst_enable_bytes : bool }.
Definition identify (name : ClientName) : M StashError Instance_ unit := λ self,
  match inst_client_name self with
  | Some name => (Err (IdentifiedTwice name), self)
  | None => (Ok tt, {| inst_client_name := Some name; inst_enable_bytes := inst_enable_bytes self |})
  end.
Definition create_accessor (read_only : bool) (self : Instance_) : result StashError Accessor :=
  match inst_client_name self with
  | None => Err NotIdentified
  | Some name => Ok (accessor_new (inst_enable_bytes self) read_only name)
  end.

(** * The service *)

(** A channel that has been shut down is [None]. *)
Record Service := {
  service_bytes : bool;
  connections : list (option Instance_);
  accessors : list (option Accessor);
  service_manager : State
}.
Inductive StoreRequest : Type :=
| Identify (name : ClientName)
| CreateAccessor (read_only : bool).
Inductive Event : Type :=
| Connect
| OnConnection (i : nat) (req : StoreRequest)
| OnAccessor (i : nat) (req : StoreAccessorRequest).

Definition with_connections (cs : list (option Instance_)) (svc : Service) : Service :=
  {| service_bytes := service_bytes svc; connections := cs; accessors := accessors svc;
     service_manager := service_manager svc |}.
Definition with_accessors (accs : list (option Accessor)) (svc : Service) : Service :=
  {| service_bytes := service_bytes svc; connections := connections svc; accessors := accs;
     service_manager := service_manager svc |}.
Definition with_manager (st : State) (svc : Service) : Service :=
  {| service_bytes := service_bytes svc; connections := connections svc; accessors := accessors svc;
     service_manager := st |}.

Section service.
Context `{!ByteOrder, !HashOrder}.

Definition start (opts : StashSettings) (s : State) : result StashError Service :=
  match store_manager_new s with
  | (Ok _, s) => Ok {| service_bytes := negb (secure_mode opts); connections := []; accessors := []; service_manager := s |}
  | (Err e, _) => Err e
  | (Panic, _) => Panic
  | (OutOfFuel, _) => OutOfFuel
  end.

(** The body of the loop of [stash_server]. *)
Definition serve_connection (i : nat) (req : StoreRequest) (svc : Service) : Service :=
  match connections svc !! i with
  | Some (Some state) =>
      match req with
      | Identify name =>
          match identify name state with
          | (Ok _, state) => with_connections (<[i := Some state]> (connections svc)) svc
          | _ => with_connections (<[i := None]> (connections svc)) svc
          end
      | CreateAccessor read_only =>
          match create_accessor read_only state with
          | Ok acc => with_accessors (accessors svc ++ [Some acc]) svc
          | _ => with_connections (<[i := None]> (connections svc)) svc
          end
      end
  | _ => svc
  end.
(** The body of the loop of an accessor, which ends at an error. *)
Definition serve_accessor (i : nat) (req : StoreAccessorRequest) (svc : Service) : Service :=
  match accessors svc !! i with
  | Some (Some acc) =>
      let (r, s) := run_op req {| accessor := acc; manager := service_manager svc |} in
      with_manager (manager s)
        (with_accessors (<[i := match r with Ok _ => Some (accessor s) | _ => None end]> (accessors svc)) svc)
  | _ => svc
  end.
Definition serve (e : Event) (svc : Service) : Service :=
  match e with
  | Connect =>
      with_connections (connections svc ++ [Some {| inst_client_name := None; inst_enable_bytes := service_bytes svc |}]) svc
  | OnConnection i req => serve_connection i req svc
  | OnAccessor i req => serve_accessor i req svc
  end.
End service.
