(* ===== verification/StashCommit.v ===== *)
(** The file format of the stash and its system calls: what is written can be read back, and
    the backing file is replaced as a whole or not at all.  Accessors are overlays of pending
    updates; a commit makes them the values of the store or takes them all back. *)

From S2P Require Import Prelude Std Stash StashAccessor.

(** * Computations that only make system calls *)

(** The calls to come that fail. *)
Fixpoint failures (l : list (option (io_error * nat))) : nat :=
  match l with
  | [] => 0
  | None :: l => failures l
  | Some _ :: l => S (failures l)
  end.
Definition calm (s : State) : Prop := failures (faults s) = 0%nat.

(** A call gives [ok] and uses up calls that do not fail, or fails and uses up a
    call that does. *)
Definition outcome {A : Type} (m : SM A) (s : State) (ok : State → State) (a : A) (failed : State → Prop) : Prop :=
  (∃ f, m s = (Ok a, ok (with_faults f s)) ∧ (failures f ≤ failures (faults s))%nat) ∨
  (∃ e s', m s = (Err (Sys e), s') ∧ failed s' ∧ (failures (faults s') < failures (faults s))%nat).

(** [m] gives [a] or fails with a system call, and changes nothing else. *)
Definition yields {A : Type} (m : SM A) (a : A) : Prop := ∀ s,
  outcome m s id a (λ s', s' = with_faults (faults s') s).

Section yields.
Lemma with_faults_same s : with_faults (faults s) s = s.
Proof. by destruct s. Qed.

Lemma syscall_outcome effect failed s :
  (∀ n s', faults (failed n s') = faults s') →
  outcome (syscall effect failed) s effect tt (λ s', ∃ n, s' = failed n (with_faults (faults s') s)).
Proof.
  intros Hf. unfold outcome, syscall. destruct (faults s) as [|[[e n]|] f] eqn:Hs.
  - left. exists []. split; [|done]. rewrite <- Hs. by rewrite with_faults_same.
  - right. exists e, (failed n (with_faults f s)). rewrite Hf. split; [done|]. split; [by exists n|]. cbn. lia.
  - left. exists f. split; [done|]. cbn. lia.
Qed.

(** One call after another; [commutes] holds of changes that leave the calls alone. *)
Definition commutes (ok : State → State) : Prop := ∀ f s, with_faults f (ok s) = ok (with_faults f s).
Lemma commutes_faults ok s : commutes ok → faults (ok s) = faults s.
Proof. intros Hc. rewrite <- (with_faults_same s) at 1. by rewrite <- Hc. Qed.
Lemma outcome_bind {A B : Type} (m : SM A) (k : A → SM B) s ok1 ok2 a b (P : State → Prop) :
  commutes ok1 → outcome m s ok1 a P → (∀ f, outcome (k a) (ok1 (with_faults f s)) ok2 b P) →
  outcome (bind m k) s (λ s, ok2 (ok1 s)) b P.
Proof.
  intros Hc Hm Hk. unfold outcome, bind. destruct Hm as [(f&->&Hf)|(e&s'&->&Hs&Hf)]; [|right; by exists e, s'].
  destruct (Hk f) as [(f'&->&Hf')|(e&s'&->&Hs&Hf')]; rewrite (commutes_faults _ _ Hc) in Hf'; cbn [faults with_faults] in Hf'.
  - left. exists f'. split; [by rewrite Hc|lia].
  - right. exists e, s'. split; [done|]. split; [done|lia].
Qed.
Lemma outcome_ext {A : Type} (m m' : SM A) s ok ok' a P :
  m s = m' s → (∀ f, ok (with_faults f s) = ok' (with_faults f s)) → outcome m s ok a P → outcome m' s ok' a P.
Proof. intros Hm Hok. unfold outcome. rewrite Hm. intros [(f&?&?)|]; [left|by right]. exists f. by rewrite <- Hok. Qed.
Lemma outcome_impl {A : Type} (m : SM A) s ok a (P Q : State → Prop) :
  outcome m s ok a P → (∀ s', P s' → Q s') → outcome m s ok a Q.
Proof. intros [|(e&s'&?&?&?)] HPQ; [by left|right]. exists e, s'. split; [done|]. split; [by apply HPQ|done]. Qed.

Lemma yields_ret {A : Type} (a : A) : yields (ret a) a.
Proof. intros s. left. exists (faults s). split; [|done]. unfold ret, id. by rewrite with_faults_same. Qed.
Lemma yields_bind {A B : Type} (m : SM A) (k : A → SM B) a b :
  yields m a → yields (k a) b → yields (bind m k) b.
Proof.
  intros Hm Hk s. unfold outcome, bind. destruct (Hm s) as [(f&->&Hf)|(e&s'&->&Hs&Hf)].
  - change (id (with_faults f s)) with (with_faults f s). destruct (Hk (with_faults f s)) as [(f'&->&Hf')|(e&s'&->&Hs&Hf')]; cbn [faults with_faults] in *.
    + left. exists f'. split; [done|]. lia.
    + right. exists e, s'. split; [done|]. split; [exact Hs|]. lia.
  - right. by exists e, s'.
Qed.
Lemma yields_lift {A : Type} (r : result StashError A) a : r = Ok a → yields (lift r) a.
Proof. intros ->. apply yields_ret. Qed.
Lemma yields_pure_call : yields pure_call tt.
Proof.
  intros s. destruct (syscall_outcome id (λ _, id) s) as [?|(e&s'&?&[n Hn]&?)]; [done|by left|]. right. by exists e, s'.
Qed.
Lemma yields_clone v : yields (clone_value v) v.
Proof.
  destruct v; try apply yields_ret. apply (yields_bind _ _ buffer); [|apply yields_ret].
  apply (yields_bind _ _ tt); [apply yields_pure_call|apply yields_ret].
Qed.
Lemma yields_calm {A : Type} (m : SM A) a s :
  yields m a → calm s → ∃ f, m s = (Ok a, with_faults f s) ∧ calm (with_faults f s).
Proof.
  intros Hm Hs. unfold calm in *. destruct (Hm s) as [(f&->&Hf)|(e&s'&_&_&Hf)]; [|lia].
  exists f. split; [done|]. cbn [faults with_faults]. lia.
Qed.
End yields.

(** * The bytes of a store *)
Section format.
Context `{!ByteOrder, !HashOrder}.

Definition value_bytes (v : Value) : list Z :=
  match v with
  | Intval i => write_int 8 (to_unsigned 64 i)
  | Floatval f => write_int 8 f
  | Boolval b => [if b then 1 else 0]
  | Stringval s => s
  | Bytesval b => b
  end.
Definition entry_bytes (kv : Key * Value) : list Z :=
  write_int 8 (zlen kv.1) ++ kv.1 ++ value_type_as_bytes kv.2 ++ write_int 8 (zlen (value_bytes kv.2)) ++ value_bytes kv.2.
Definition client_bytes (c : ClientName * gmap Key Value) : list Z :=
  write_int 8 (zlen c.1) ++ c.1 ++ write_int 8 (Z.of_nat (size c.2)) ++ concat (map entry_bytes (hash_order c.2)).
Definition bytes_of (st : Store) : list Z := concat (map client_bytes (hash_order st)).

(** Strings the file can hold, and stores of such strings. *)
Definition str_ok (s : list Z) : Prop := utf8_valid s = true ∧ zlen s < 2 ^ 63.
Definition value_ok (v : Value) : Prop :=
  match v with
  | Intval i => - 2 ^ 63 ≤ i < 2 ^ 63
  | Floatval f => 0 ≤ f < 2 ^ 64
  | Boolval _ => True
  | Stringval s => str_ok s
  | Bytesval b => zlen b < 2 ^ 63
  end.
Definition fields_wf (m : gmap Key Value) : Prop := ∀ k v, m !! k = Some v → str_ok k ∧ value_ok v.
Definition store_wf (st : Store) : Prop := ∀ n m, st !! n = Some m → str_ok n ∧ fields_wf m.
(** A count of fields is a 64-bit integer. *)
Definition fields_ok (m : gmap Key Value) : Prop := Z.of_nat (size m) < 2 ^ 64 ∧ fields_wf m.
Definition store_ok (st : Store) : Prop := ∀ n m, st !! n = Some m → str_ok n ∧ fields_ok m.

Lemma entry_bytes_app k v r : entry_bytes (k, v) ++ r
  = write_int 8 (zlen k) ++ k ++ value_type_as_bytes v ++ write_int 8 (zlen (value_bytes v)) ++ value_bytes v ++ r.
Proof. unfold entry_bytes. cbn [fst snd]. by rewrite <- !app_assoc. Qed.
Lemma client_bytes_app n m r : client_bytes (n, m) ++ r
  = write_int 8 (zlen n) ++ n ++ write_int 8 (Z.of_nat (size m)) ++ concat (map entry_bytes (hash_order m)) ++ r.
Proof. unfold client_bytes. cbn [fst snd]. by rewrite <- !app_assoc. Qed.

Lemma yields_value_bytes v : yields (value_into_bytes v) (value_bytes v).
Proof.
  destruct v as [| |[]| |]; try apply yields_ret.
  apply (yields_bind _ _ tt); [apply yields_pure_call|apply yields_ret].
Qed.
Lemma yields_entries l : yields (serialize_entries l) (concat (map entry_bytes l)).
Proof.
  induction l as [|[k v] l IH]; [apply yields_ret|]. cbn [serialize_entries map concat].
  apply (yields_bind _ _ (value_bytes v)); [apply yields_value_bytes|].
  apply (yields_bind _ _ (concat (map entry_bytes l))); [done|].
  rewrite entry_bytes_app. apply yields_ret.
Qed.
Lemma yields_serialize st : yields (serialize st) (bytes_of st).
Proof.
  unfold serialize, bytes_of. induction (hash_order st) as [|[n m] l IH]; [apply yields_ret|].
  cbn [serialize_clients map concat].
  apply (yields_bind _ _ (concat (map entry_bytes (hash_order m)))); [apply yields_entries|].
  apply (yields_bind _ _ (concat (map client_bytes l))); [done|].
  rewrite client_bytes_app. apply yields_ret.
Qed.
End format.

(** * Reading it back *)
Section reading.
Context `{!ByteOrder, !HashOrder, !ByteOrderSpec, !HashOrderSpec}.

Lemma cur_int_ok B a c pos n v :
  B = a ++ write_int n v ++ c → pos = zlen a → 0 ≤ n → 0 ≤ v < 2 ^ (8 * n) →
  cur_int n {| cursor_bytes := B; position := pos |} = Ok (v, {| cursor_bytes := B; position := pos + n |}).
Proof.
  intros -> -> Hn Hv. unfold cur_int. rewrite <- (write_int_length n v) at 1 by done.
  rewrite read_exact_app, write_int_length by done. by rewrite read_write_int.
Qed.
Lemma cur_buf_ok B a b c pos n :
  B = a ++ b ++ c → pos = zlen a → n = zlen b → n < 2 ^ 63 →
  cur_buf n {| cursor_bytes := B; position := pos |} = Ok (b, {| cursor_bytes := B; position := pos + n |}).
Proof.
  intros -> -> -> Hn. unfold cur_buf, cursor_read. rewrite (proj2 (Z.ltb_lt _ _)) by done.
  cbn [cursor_bytes position]. rewrite slice_app_mid, Z.sub_diag. change (zeros 0) with ([] : list Z). by rewrite app_nil_r.
Qed.

Lemma value_roundtrip v : value_ok v →
  yields (value_from_bytes (hd 0 (value_type_as_bytes v)) (value_bytes v)) v.
Proof.
  intros Hv. destruct v as [i|f|b|s|b]; cbn [value_type_as_bytes hd value_bytes value_ok] in *; unfold value_from_bytes.
  - change (0x00 =? 0x00) with true. cbv beta iota. apply (yields_bind _ _ (to_unsigned 64 i)).
    + apply yields_lift. unfold read_int_of. rewrite write_int_length by done. change (8 <=? 8) with true.
      rewrite take_ge by (pose proof (write_int_length 8 (to_unsigned 64 i) ltac:(done)) as Hl; unfold zlen in Hl; lia).
      rewrite read_write_int; [done|done|]. unfold to_unsigned. apply Z.mod_pos_bound. done.
    + pose proof (to_signed_unsigned 64 i ltac:(done) Hv) as Hs. rewrite <- Hs at 2. apply yields_ret.
  - change (0x01 =? 0x00) with false. change (0x01 =? 0x01) with true. cbv beta iota. apply (yields_bind _ _ f); [|apply yields_ret].
    apply yields_lift. unfold read_int_of. rewrite write_int_length by done. change (8 <=? 8) with true.
    rewrite take_ge by (pose proof (write_int_length 8 f ltac:(done)) as Hl; unfold zlen in Hl; lia).
    by rewrite read_write_int.
  - destruct b; apply yields_ret.
  - change (0x03 =? 0x00) with false. change (0x03 =? 0x01) with false. change (0x03 =? 0x02) with false.
    change (0x03 =? 0x03) with true. cbv beta iota. destruct Hv as [-> _]. apply yields_ret.
  - apply (yields_bind _ _ tt); [apply yields_pure_call|]. apply (yields_bind _ _ tt); [apply yields_pure_call|]. apply yields_ret.
Qed.
Lemma value_type_single v : value_type_as_bytes v = [hd 0 (value_type_as_bytes v)].
Proof. by destruct v. Qed.

Lemma stash_entries_ok fuel l B a c pos acc :
  (length l ≤ fuel)%nat → Forall (λ kv, str_ok kv.1 ∧ value_ok kv.2 ∧ zlen (value_bytes kv.2) < 2 ^ 63) l →
  B = a ++ concat (map entry_bytes l) ++ c → pos = zlen a →
  yields (entries_loop fuel (zlen l) acc {| cursor_bytes := B; position := pos |})
    (foldl (λ m kv, <[kv.1 := kv.2]> m) acc l,
     {| cursor_bytes := B; position := pos + zlen (concat (map entry_bytes l)) |}).
Proof.
  revert l a pos acc. induction fuel as [|fuel IH]; intros [|[k v] l] a pos acc Hf Hl HB Hpos; try (simpl in Hf; lia).
  1,2: cbn [entries_loop foldl map concat]; change (zlen []) with 0; change (zlen (A := Z) []) with 0;
    rewrite Z.add_0_r; apply yields_ret.
  apply Forall_cons in Hl as [([Hku Hkl]&Hv&Hvl) Hl]. cbn [fst snd] in *.
  assert (zlen ((k, v) :: l) = 1 + zlen l) as Hz by (unfold zlen; simpl; lia). pose proof (zlen_nonneg l).
  rewrite Hz. cbn [entries_loop]. rewrite (proj2 (Z.leb_gt _ _)) by lia.
  pose proof (zlen_nonneg k). pose proof (zlen_nonneg (value_bytes v)).
  cbn [map concat] in HB. rewrite <- app_assoc, entry_bytes_app in HB.
  rewrite value_type_single in HB.
  set (rest := concat (map entry_bytes l) ++ c) in *.
  apply (yields_bind _ _ (zlen k, {| cursor_bytes := B; position := pos + 8 |})).
  { apply yields_lift. by eapply cur_int_ok; [exact HB| | |lia]. }
  cbv beta iota.
  apply (yields_bind _ _ (k, {| cursor_bytes := B; position := pos + 8 + zlen k |})).
  { apply yields_lift. eapply (cur_buf_ok B (a ++ write_int 8 (zlen k))); [by rewrite HB, <- !app_assoc| |done|done].
    rewrite zlen_app, write_int_length by done. lia. }
  cbv beta iota.
  apply (yields_bind _ _ ([hd 0 (value_type_as_bytes v)], {| cursor_bytes := B; position := pos + 8 + zlen k + 1 |})).
  { apply yields_lift. eapply (cur_buf_ok B (a ++ write_int 8 (zlen k) ++ k)); [by rewrite HB, <- !app_assoc| |done|done].
    rewrite !zlen_app, write_int_length by done. lia. }
  cbv beta iota. apply (yields_bind _ _ (hd 0 (value_type_as_bytes v))); [by apply yields_lift|].
  apply (yields_bind _ _ (zlen (value_bytes v), {| cursor_bytes := B; position := pos + 8 + zlen k + 1 + 8 |})).
  { apply yields_lift. eapply (cur_int_ok B (a ++ write_int 8 (zlen k) ++ k ++ [_])); [by rewrite HB, <- !app_assoc| |done|lia].
    rewrite !zlen_app, write_int_length by done. change (zlen [_]) with 1. lia. }
  cbv beta iota.
  apply (yields_bind _ _ (value_bytes v, {| cursor_bytes := B; position := pos + 8 + zlen k + 1 + 8 + zlen (value_bytes v) |})).
  { apply yields_lift. eapply (cur_buf_ok B (a ++ write_int 8 (zlen k) ++ k ++ [_] ++ write_int 8 _));
      [by rewrite HB, <- !app_assoc| |done|done].
    rewrite !zlen_app, !write_int_length by done. change (zlen [_]) with 1. lia. }
  cbv beta iota. rewrite Hku. apply (yields_bind _ _ v); [by apply value_roundtrip|].
  replace (1 + zlen l - 1) with (zlen l) by lia. cbn [foldl fst snd].
  assert (pos + zlen (concat (map entry_bytes ((k, v) :: l)))
          = pos + 8 + zlen k + 1 + 8 + zlen (value_bytes v) + zlen (concat (map entry_bytes l))) as ->.
  { cbn [map concat]. unfold entry_bytes at 1. cbn [fst snd].
    rewrite value_type_single, !zlen_app, !write_int_length by done. change (zlen [_]) with 1. lia. }
  apply (IH l (a ++ entry_bytes (k, v))); [simpl in Hf; lia|done| |].
  - rewrite HB. unfold entry_bytes, rest. cbn [fst snd]. rewrite value_type_single. by rewrite <- !app_assoc.
  - unfold entry_bytes. cbn [fst snd]. rewrite value_type_single, !zlen_app, !write_int_length by done.
    change (zlen [_]) with 1. lia.
Qed.

(** Entries inserted in any order make the map. *)
Lemma foldl_insert {V : Type} (l : list (list Z * V)) (acc : gmap (list Z) V) :
  NoDup l.*1 → foldl (λ m kv, <[kv.1 := kv.2]> m) acc l = list_to_map l ∪ acc.
Proof.
  revert acc. induction l as [|[k v] l IH]; intros acc Hnd; cbn [foldl list_to_map foldr fst snd].
  - change (list_to_map []) with (∅ : gmap (list Z) V). by rewrite (left_id_L ∅ (∪)).
  - apply NoDup_cons in Hnd as [Hk Hnd]. rewrite IH by done. cbn [list_to_map foldr uncurry].
    change (foldr (λ p : list Z * V, <[p.1:=p.2]>) ∅ l) with (list_to_map l : gmap (list Z) V).
    rewrite <- insert_union_r by (by apply not_elem_of_list_to_map_1). by rewrite insert_union_l.
Qed.
Lemma hash_keys {V : Type} (m : gmap (list Z) V) : NoDup (hash_order m).*1.
Proof. rewrite hash_order_spec. apply NoDup_fst_map_to_list. Qed.
Lemma foldl_hash {V : Type} (m : gmap (list Z) V) : foldl (λ m kv, <[kv.1 := kv.2]> m) ∅ (hash_order m) = m.
Proof.
  rewrite foldl_insert by apply hash_keys. rewrite (right_id_L ∅ (∪)).
  rewrite <- (list_to_map_to_list m) at 2. apply list_to_map_proper; [apply hash_keys|apply hash_order_spec].
Qed.
Lemma hash_elem {V : Type} (m : gmap (list Z) V) k v : (k, v) ∈ hash_order m ↔ m !! k = Some v.
Proof. rewrite hash_order_spec. apply elem_of_map_to_list. Qed.
Lemma hash_length {V : Type} (m : gmap (list Z) V) : length (hash_order m) = size m.
Proof. rewrite hash_order_spec. apply length_map_to_list. Qed.

Lemma value_bytes_length v : value_ok v → zlen (value_bytes v) < 2 ^ 63.
Proof.
  destruct v; cbn [value_ok value_bytes]; intros Hv; rewrite ?write_int_length by done; try done. apply Hv.
Qed.
Lemma fields_entries m : fields_ok m →
  Forall (λ kv, str_ok kv.1 ∧ value_ok kv.2 ∧ zlen (value_bytes kv.2) < 2 ^ 63) (hash_order m).
Proof.
  intros [_ Hm]. apply Forall_forall. intros [k v] Hkv%hash_elem. apply Hm in Hkv as [Hk Hv].
  split; [done|]. split; [done|]. by apply value_bytes_length.
Qed.

Lemma client_length c : 16 ≤ zlen (client_bytes c).
Proof.
  unfold client_bytes. rewrite !zlen_app, !write_int_length by done.
  pose proof (zlen_nonneg c.1). pose proof (zlen_nonneg (concat (map entry_bytes (hash_order c.2)))). lia.
Qed.
Lemma entries_bytes_length l : (length l ≤ length (concat (map entry_bytes l)))%nat.
Proof.
  induction l as [|[k v] l IH]; [done|]. cbn [map concat length]. rewrite length_app.
  assert (1 ≤ zlen (entry_bytes (k, v))) as Hk; [|unfold zlen in Hk; lia].
  unfold entry_bytes. rewrite !zlen_app, !write_int_length by done. cbn [fst snd].
  pose proof (zlen_nonneg k). pose proof (zlen_nonneg (value_type_as_bytes v)). pose proof (zlen_nonneg (value_bytes v)). lia.
Qed.

Lemma clients_loop_ok fuel l B a pos acc :
  (length l < fuel)%nat → Forall (λ c, str_ok c.1 ∧ fields_ok c.2) l →
  B = a ++ concat (map client_bytes l) → pos = zlen a →
  yields (clients_loop fuel acc {| cursor_bytes := B; position := pos |}) (foldl (λ m kv, <[kv.1 := kv.2]> m) acc l).
Proof.
  revert l a pos acc. induction fuel as [|fuel IH]; intros [|[n m] l] a pos acc Hf Hl HB Hpos; try (simpl in Hf; lia).
  { cbn [clients_loop cursor_bytes position map concat] in *. rewrite app_nil_r in HB. subst.
    rewrite (proj2 (Z.leb_le _ _)) by lia. apply yields_ret. }
  apply Forall_cons in Hl as [[[Hnu Hnl] Hm] Hl]. cbn [fst snd] in *. pose proof (client_length (n, m)).
  pose proof (zlen_nonneg (concat (map client_bytes l))). pose proof (zlen_nonneg n).
  cbn [clients_loop cursor_bytes position]. cbn [map concat] in HB.
  rewrite (proj2 (Z.leb_gt _ _)) by (rewrite HB, !zlen_app; lia).
  rewrite client_bytes_app in HB. set (rest := concat (map client_bytes l)) in *.
  set (E := concat (map entry_bytes (hash_order m))) in *.
  apply (yields_bind _ _ (zlen n, {| cursor_bytes := B; position := pos + 8 |})).
  { apply yields_lift. by eapply cur_int_ok; [exact HB| | |lia]. }
  cbv beta iota. apply (yields_bind _ _ (n, {| cursor_bytes := B; position := pos + 8 + zlen n |})).
  { apply yields_lift. eapply (cur_buf_ok B (a ++ write_int 8 (zlen n))); [by rewrite HB, <- !app_assoc| |done|done].
    rewrite zlen_app, write_int_length by done. lia. }
  cbv beta iota.
  apply (yields_bind _ _ (Z.of_nat (size m), {| cursor_bytes := B; position := pos + 8 + zlen n + 8 |})).
  { apply yields_lift. eapply (cur_int_ok B (a ++ write_int 8 (zlen n) ++ n)); [by rewrite HB, <- !app_assoc| |done|].
    - rewrite !zlen_app, write_int_length by done. lia.
    - destruct Hm as [Hs _]. lia. }
  cbv beta iota.
  apply (yields_bind _ _ (m, {| cursor_bytes := B; position := pos + 8 + zlen n + 8 + zlen E |})).
  { rewrite <- (foldl_hash m) at 2. rewrite <- hash_length.
    apply (stash_entries_ok _ (hash_order m) B (a ++ write_int 8 (zlen n) ++ n ++ write_int 8 (Z.of_nat (size m))) rest).
    - cbn [cursor_bytes]. rewrite HB, !length_app. pose proof (entries_bytes_length (hash_order m)) as HE. fold E in HE. lia.
    - by apply fields_entries.
    - by rewrite HB, <- !app_assoc.
    - rewrite !zlen_app, !write_int_length by done. lia. }
  cbv beta iota. rewrite Hnu. cbn [foldl fst snd]. apply (IH l (a ++ client_bytes (n, m))).
  - simpl in Hf. lia.
  - done.
  - rewrite <- app_assoc, client_bytes_app. done.
  - unfold client_bytes. cbn [fst snd]. fold E. rewrite !zlen_app, !write_int_length by done. lia.
Qed.

Lemma deserialize_ok st : store_ok st → yields (deserialize (bytes_of st)) st.
Proof.
  intros Hst. unfold deserialize.
  assert (length (hash_order st) < S (length (bytes_of st)))%nat as Hfuel.
  { unfold bytes_of. induction (hash_order st) as [|c l IH]; cbn [map concat length] in *; [lia|].
    rewrite length_app. pose proof (client_length c) as Hc. unfold zlen in Hc. lia. }
  pose proof (clients_loop_ok _ (hash_order st) (bytes_of st) [] 0 ∅ Hfuel) as Hloop.
  assert (foldl (λ (m : Store) kv, <[kv.1 := kv.2]> m) ∅ (hash_order st) = st) as Hst' by apply foldl_hash.
  rewrite Hst' in Hloop. apply Hloop; [|done|done].
  apply Forall_forall. intros [n m] Hnm%hash_elem. by apply Hst.
Qed.
End reading.

Section commit.
Context `{!ByteOrder, !HashOrder, !ByteOrderSpec, !HashOrderSpec}.

(** * Saving and writing a field *)
Definition saved (s : State) : State :=
  {| store := store s; temp_file := None; backing_file := Some (bytes_of (store s)); faults := faults s |}.

Lemma save_outcome s :
  outcome save_store s saved tt (λ s', store s' = store s ∧ backing_file s' = backing_file s).
Proof.
  set (bs := bytes_of (store s)).
  apply (outcome_ext (bind (serialize (store s)) (λ c, open_temp ;;; write_temp c ;;; rename_temp)) _ _
    (λ x, with_files None (Some bs) x)); [done|done|].
  apply (outcome_bind _ _ _ id (λ x, with_files None (Some bs) x) bs); [done|..].
  { eapply outcome_impl; [apply yields_serialize|]. intros s' Hs'. by rewrite Hs'. }
  intros f1. apply (outcome_bind _ _ _ (λ x, with_files (Some []) (backing_file x) x) (λ x, with_files None (Some bs) x) tt); [done|..].
  { eapply outcome_impl; [by apply syscall_outcome|]. intros s' [n Hs']. by rewrite Hs'. }
  intros f2. apply (outcome_bind _ _ _ (λ x, with_files (Some bs) (backing_file x) x) (λ x, with_files None (temp_file x) x) tt); [done|..].
  { eapply outcome_impl; [by apply syscall_outcome|]. intros s' [n Hs']. by rewrite Hs'. }
  intros f3. eapply outcome_impl; [by apply syscall_outcome|]. intros s' [n Hs']. by rewrite Hs'.
Qed.

(** The store with one field of a client set or deleted. *)
Definition put_field (c : ClientName) (k : Key) (o : option Value) (st : Store) : Store :=
  <[c := match o with Some v => <[k := v]> (client_fields c st) | None => delete k (client_fields c st) end]> st.
(** The write of one update. *)
Definition write_field (c : ClientName) (k : Key) (o : option Value) : SM unit :=
  match o with
  | Some val => v <- clone_value val ;; set_value c k v
  | None => delete_value c k
  end.
Definition lookup_field (c : ClientName) (k : Key) (st : Store) : option Value := m ← st !! c; m !! k.

Lemma lookup_put_field c k o c' k' st :
  lookup_field c' k' (put_field c k o st) = if decide (c' = c ∧ k' = k) then o else lookup_field c' k' st.
Proof.
  unfold lookup_field, put_field, client_fields. destruct (decide (c' = c)) as [->|Hc].
  - rewrite lookup_insert_eq. cbn [mbind option_bind]. destruct (decide (k' = k)) as [->|Hk].
    + rewrite decide_True by done. destruct o; [apply lookup_insert_eq|apply lookup_delete_eq].
    + rewrite decide_False by naive_solver.
      destruct o; [rewrite lookup_insert_ne by done|rewrite lookup_delete_ne by done]; by destruct (st !! c).
  - rewrite decide_False by naive_solver. by rewrite lookup_insert_ne by done.
Qed.

Lemma write_field_outcome c k o s :
  outcome (write_field c k o) s (λ x, saved (with_store (put_field c k o (store x)) x)) tt
    (λ s', (store s' = store s ∨ store s' = put_field c k o (store s)) ∧ backing_file s' = backing_file s).
Proof.
  assert (∀ s, outcome (bind (λ s, (Ok tt, with_store (put_field c k o (store s)) s)) (λ _, save_store)) s
    (λ x, saved (with_store (put_field c k o (store x)) x)) tt
    (λ s', (store s' = store s ∨ store s' = put_field c k o (store s)) ∧ backing_file s' = backing_file s)) as Hput.
  { intros s0. apply (outcome_bind _ _ _ (λ x, with_store (put_field c k o (store x)) x) saved tt); [done|..].
    - left. exists (faults s0). by rewrite with_faults_same.
    - intros f. eapply outcome_impl; [apply save_outcome|]. intros s' [-> ->]. split; [by right|done]. }
  destruct o as [v|]; [|exact (Hput s)].
  apply (outcome_bind _ _ _ id (λ x, saved (with_store (put_field c k (Some v) (store x)) x)) v); [done|..].
  - eapply outcome_impl; [apply yields_clone|]. intros s' Hs'. rewrite Hs'. split; [by left|done].
  - intros f. exact (Hput (with_faults f s)).
Qed.

(** * The commit loop *)

(** The old value of a field, cloned. *)
Definition old_value (c : ClientName) (k : Key) : SM (option Value) := λ s,
  match get_value c k s with
  | Some val_ref => (v <- clone_value val_ref ;; ret (Some v)) s
  | None => (Ok None, s)
  end.
Lemma old_value_outcome c k s :
  outcome (old_value c k) s id (lookup_field c k (store s)) (λ s', store s' = store s ∧ backing_file s' = backing_file s).
Proof.
  unfold old_value. change (get_value c k) with (λ s, lookup_field c k (store s)).
  destruct (lookup_field c k (store s)) as [v|] eqn:Hv.
  - apply (outcome_ext (v <- clone_value v ;; ret (Some v)) _ _ id); [cbv beta; by rewrite Hv|done|].
    eapply outcome_impl; [apply (yields_bind _ _ v); [apply yields_clone|apply yields_ret]|].
    intros s' Hs'. by rewrite Hs'.
  - left. exists (faults s). rewrite Hv, with_faults_same. done.
Qed.

(** What the loop has done when it stops: [old'] holds the values of the fields
    it may have changed. *)
Record committed (c : ClientName) (updates : list (Key * option Value)) (old old' : gmap Key (option Value))
    (s s' : State) : Prop := {
  cm_failures : (failures (faults s') ≤ failures (faults s))%nat;
  cm_old k : is_Some (old !! k) → old' !! k = old !! k;
  cm_new k x : old' !! k = Some x → old !! k = Some x ∨ k ∈ updates.*1 ∧ x = lookup_field c k (store s);
  cm_other c' k : c' ≠ c ∨ old' !! k = None ∨ is_Some (old !! k) →
    lookup_field c' k (store s') = lookup_field c' k (store s)
}.
Record completed (c : ClientName) (updates : list (Key * option Value)) (s s' : State) : Prop := {
  cp_updated k o : (k, o) ∈ updates → lookup_field c k (store s') = o;
  cp_same k : k ∉ updates.*1 → lookup_field c k (store s') = lookup_field c k (store s);
  cp_saved : updates ≠ [] → backing_file s' = Some (bytes_of (store s'));
  cp_files : updates = [] → s' = s
}.

(** The update that failed, and an update followed by the others. *)
Lemma committed_first c key o updates old s s' :
  old !! key = None → (failures (faults s') ≤ failures (faults s))%nat →
  (store s' = store s ∨ store s' = put_field c key o (store s)) →
  committed c ((key, o) :: updates) old (<[key := lookup_field c key (store s)]> old) s s'.
Proof.
  intros Hkey Hf Hs'. split; [done| | |].
  - intros k [y Hy]. rewrite lookup_insert_ne; [done|]. intros ->. congruence.
  - intros k y. destruct (decide (k = key)) as [->|Hk]; [rewrite lookup_insert_eq; intros [= <-]; right; by split; [left|]|].
    rewrite lookup_insert_ne by done. by left.
  - intros c' k Hck. destruct Hs' as [-> | ->]; [done|]. rewrite lookup_put_field, decide_False; [done|].
    intros [-> ->]. destruct Hck as [|[Hck|[y Hy]]]; [done|by rewrite lookup_insert_eq in Hck|congruence].
Qed.
Lemma put_field_ne c key o k s s1 :
  store s1 = put_field c key o (store s) → k ≠ key → lookup_field c k (store s1) = lookup_field c k (store s).
Proof. intros Hs1 Hk. rewrite Hs1, lookup_put_field, decide_False; [done|]. by intros [_ ?]. Qed.
Lemma committed_step c key o updates old old' s s1 s' :
  key ∉ updates.*1 → old !! key = None → store s1 = put_field c key o (store s) →
  (failures (faults s1) ≤ failures (faults s))%nat →
  committed c updates (<[key := lookup_field c key (store s)]> old) old' s1 s' →
  committed c ((key, o) :: updates) old old' s s'.
Proof.
  intros Hkey Hold Hs1 Hf [C1 C2 C3 C4]. pose proof (λ k, put_field_ne c key o k s s1 Hs1) as Hput. split.
  - lia.
  - intros k Hk. destruct (decide (k = key)) as [->|Hne]; [by destruct Hk as [y Hy]; congruence|].
    rewrite C2; rewrite lookup_insert_ne by done; done.
  - intros k y Hy. apply C3 in Hy as [Hy|[Hin Hy]].
    + destruct (decide (k = key)) as [->|Hne]; [rewrite lookup_insert_eq in Hy; injection Hy as <-; right; by split; [left|]|].
      rewrite lookup_insert_ne in Hy by done. by left.
    + right. split; [by right|]. rewrite Hy. apply Hput. by intros ->.
  - intros c' k Hck. destruct (decide (c' = c)) as [->|Hc].
    + destruct (decide (k = key)) as [->|Hk].
      * exfalso. destruct Hck as [|[Hck|[y Hy]]]; [done| |congruence].
        rewrite C2 in Hck by (rewrite lookup_insert_eq; eauto). by rewrite lookup_insert_eq in Hck.
      * rewrite C4; [by apply Hput|]. right. rewrite lookup_insert_ne by done. by destruct Hck as [|Hck].
    + rewrite C4 by (by left). rewrite Hs1, lookup_put_field, decide_False; [done|]. by intros [? _].
Qed.
Lemma completed_step c key o updates s s1 s' :
  key ∉ updates.*1 → store s1 = put_field c key o (store s) → backing_file s1 = Some (bytes_of (store s1)) →
  completed c updates s1 s' → completed c ((key, o) :: updates) s s'.
Proof.
  intros Hkey Hs1 Hb [P1 P2 P3 P4]. split; [| | |done].
  - intros k o' [Heq|Hin]%elem_of_cons; [|by apply P1]. injection Heq as -> ->. rewrite P2 by done.
    rewrite Hs1, lookup_put_field. by rewrite decide_True.
  - intros k Hk. cbn [fmap list_fmap] in Hk. apply not_elem_of_cons in Hk as [Hne Hk]. rewrite P2 by done.
    by apply (put_field_ne c key o).
  - intros _. destruct updates as [|u updates]; [|by apply P3]. by rewrite P4.
Qed.

Lemma commit_loop_spec c updates old s :
  NoDup updates.*1 → (∀ k, k ∈ updates.*1 → old !! k = None) →
  ∃ r old' s', commit_loop c updates old s = (r, old', s') ∧ committed c updates old old' s s' ∧
    (r = Ok tt ∧ completed c updates s s' ∨
     ∃ e, r = Err (Sys e) ∧ (failures (faults s') < failures (faults s))%nat).
Proof.
  revert old s. induction updates as [|[key o] updates IH]; intros old s Hnd Hold.
  { exists (Ok tt), old, s. split; [done|]. split; [split; auto|]. left. split; [done|].
    split; try done. intros k o Ho. by apply not_elem_of_nil in Ho. }
  cbn [fmap list_fmap] in Hnd, Hold. apply NoDup_cons in Hnd as [Hkey Hnd]. cbn [fst] in *.
  cbn [commit_loop].
  change (match get_value c key s with Some val_ref => _ | None => _ end) with (old_value c key s).
  destruct (old_value_outcome c key s) as [(f1&->&F1)|(e&s'&->&[Hs' Hb']&F1)].
  2: { exists (Err (Sys e)), old, s'. split; [done|]. split; [|right; by exists e].
       split; [lia|done|auto|]. intros c' k _. by rewrite Hs'. }
  change (id (with_faults f1 s)) with (with_faults f1 s).
  pose proof (Hold key ltac:(by left)) as Hkold.
  replace (match o with Some val => (v <- clone_value val ;; set_value c key v) (with_faults f1 s)
           | None => delete_value c key (with_faults f1 s) end)
    with (write_field c key o (with_faults f1 s)) by (by destruct o).
  destruct (write_field_outcome c key o (with_faults f1 s)) as [(f2&->&F2)|(e&s'&->&[Hs' Hb']&F2)]; cbn [faults with_faults store] in *.
  2: { exists (Err (Sys e)), (<[key := lookup_field c key (store s)]> old), s'. split; [done|].
       split; [|right; exists e; split; [done|lia]]. apply committed_first; [done|lia|done]. }
  set (s1 := saved _). assert (failures (faults s1) ≤ failures (faults s))%nat as Hf by (cbn; lia).
  destruct (IH (<[key := lookup_field c key (store s)]> old) s1 Hnd) as (r&old'&s'&->&HC&Hr).
  { intros k Hk. rewrite lookup_insert_ne by (by intros ->). apply Hold. by right. }
  exists r, old', s'. split; [done|]. split; [by apply (committed_step c key o updates old old' s s1)|].
  destruct Hr as [[-> HP]|(e&->&Hlt)].
  - left. split; [done|]. by apply (completed_step c key o updates s s1).
  - right. exists e. split; [done|]. lia.
Qed.

(** Writing the recorded values back. *)
Lemma revert_loop_spec c olds s :
  NoDup olds.*1 →
  ∃ r s', revert_loop c olds s = (r, s') ∧ (failures (faults s') ≤ failures (faults s))%nat ∧
    (r = Ok tt ∧ completed c olds s s' ∧
       (∀ c' k, c' ≠ c → lookup_field c' k (store s') = lookup_field c' k (store s)) ∨
     ∃ e, r = Err (Sys e) ∧ (failures (faults s') < failures (faults s))%nat).
Proof.
  revert s. induction olds as [|[key o] olds IH]; intros s Hnd.
  { exists (Ok tt), s. split; [done|]. split; [done|]. left. split; [done|]. split; [|done].
    split; try done. intros k o Ho. by apply not_elem_of_nil in Ho. }
  cbn [fmap list_fmap] in Hnd. apply NoDup_cons in Hnd as [Hkey Hnd]. cbn [fst revert_loop] in *.
  change (match o with Some val => v <- clone_value val ;; set_value c key v | None => delete_value c key end)
    with (write_field c key o).
  destruct (write_field_outcome c key o s) as [(f&Hw&F)|(e&s'&Hw&_&F)].
  2: { exists (Err (Sys e)), s'. unfold bind. rewrite Hw. split; [done|]. split; [lia|]. right. by exists e. }
  rewrite (bind_ok _ _ _ _ _ Hw). set (s1 := saved _).
  assert (faults s1 = f) as Hf1 by done. destruct (IH s1 Hnd) as (r&s'&->&F'&Hr). rewrite Hf1 in *.
  exists r, s'. split; [done|]. split; [lia|]. destruct Hr as [(->&HP&Ho)|(e&->&Hlt)]; [left|right; exists e; split; [done|lia]].
  split; [done|]. split; [by apply (completed_step c key o olds s s1)|].
  intros c' k Hc. rewrite Ho by done. cbn [s1 saved store with_store with_faults].
  rewrite lookup_put_field, decide_False; [done|]. by intros [? _].
Qed.

(** * Commit *)

(** The pending updates of an accessor over the fields of its client. *)
Definition overlay (u : gmap Key (option Value)) (k : Key) (o : option Value) : option Value :=
  match u !! k with Some o' => o' | None => o end.
Definition reset (s : Session) (st : State) : Session :=
  {| accessor := {| client_name := client_name (accessor s); enable_bytes := enable_bytes (accessor s);
                    read_only := read_only (accessor s); fields_updated := ∅ |};
     manager := st |}.

Lemma committed_hash (c : ClientName) u old' (s s' : State) :
  committed c (hash_order u) ∅ old' s s' →
  (∀ k x, old' !! k = Some x → x = lookup_field c k (store s)) ∧
  (∀ c' k, c' ≠ c ∨ old' !! k = None → lookup_field c' k (store s') = lookup_field c' k (store s)).
Proof.
  intros [_ _ C3 C4]. split.
  - intros k x Hx. apply C3 in Hx as [Hx|[_ Hx]]; [by rewrite lookup_empty in Hx|done].
  - intros c' k Hck. apply C4. destruct Hck; auto.
Qed.
Lemma completed_hash (c : ClientName) (u : gmap Key (option Value)) (s s' : State) :
  completed c (hash_order u) s s' →
  (∀ k, lookup_field c k (store s') = overlay u k (lookup_field c k (store s))) ∧
  (u ≠ ∅ → backing_file s' = Some (bytes_of (store s'))).
Proof.
  intros [P1 P2 P3 _]. split.
  - intros k. unfold overlay. destruct (u !! k) as [o|] eqn:Hu; [by apply P1, hash_elem|].
    apply P2. intros ([k' o]&->&Hin)%list_elem_of_fmap. apply hash_elem in Hin. cbn [fst] in Hu. congruence.
  - intros Hu. apply P3. intros Hnil. apply Hu, map_size_empty_iff. by rewrite <- hash_length, Hnil.
Qed.
(** Undoing a commit that failed. *)
Lemma reverted_hash (c : ClientName) old' (s s1 s2 : State) :
  (∀ k x, old' !! k = Some x → x = lookup_field c k (store s)) →
  (∀ c' k, c' ≠ c ∨ old' !! k = None → lookup_field c' k (store s1) = lookup_field c' k (store s)) →
  completed c (hash_order old') s1 s2 →
  (∀ c' k, c' ≠ c → lookup_field c' k (store s2) = lookup_field c' k (store s1)) →
  ∀ c' k, lookup_field c' k (store s2) = lookup_field c' k (store s).
Proof.
  intros Hold Hsame HP Ho c' k. destruct (decide (c' = c)) as [->|Hc]; [|rewrite Ho by done; by apply Hsame; left].
  rewrite (proj1 (completed_hash _ _ _ _ HP)). unfold overlay.
  destruct (old' !! k) as [x|] eqn:Hx; [by apply Hold|by apply Hsame; right].
Qed.

Lemma commit_spec s :
  read_only (accessor s) = false →
  ∃ r st', commit s = (r, reset s st') ∧
    let c := client_name (accessor s) in
    let u := fields_updated (accessor s) in
    (failures (faults st') ≤ failures (faults (manager s)))%nat ∧
    (r = Ok tt ∧
       (∀ c' k, lookup_field c' k (store st')
                = if decide (c' = c) then overlay u k (lookup_field c k (store (manager s)))
                  else lookup_field c' k (store (manager s))) ∧
       (u ≠ ∅ → backing_file st' = Some (bytes_of (store st')))
     ∨ (∃ e, r = Err (Sys e)) ∧ (failures (faults st') < failures (faults (manager s)))%nat ∧
       (failures (faults (manager s)) = 1%nat →
        ∀ c' k, lookup_field c' k (store st') = lookup_field c' k (store (manager s)))).
Proof.
  intros Hro. cbv zeta. unfold commit. rewrite bind_get_store, Hro.
  set (c := client_name (accessor s)). set (u := fields_updated (accessor s)).
  destruct (commit_loop_spec c (hash_order u) ∅ (manager s) (hash_keys u)) as (r&old'&s1&->&HC&Hr);
    [intros; apply lookup_empty|].
  pose proof (cm_failures _ _ _ _ _ _ HC) as F1. destruct (committed_hash _ _ _ _ _ HC) as [Hold Hsame].
  destruct Hr as [[-> HP]|(e&->&Hlt)].
  { exists (Ok tt), s1. split; [done|]. split; [done|]. left. split; [done|].
    destruct (completed_hash _ _ _ _ HP) as [Hk Hb]. split; [|done].
    intros c' k. destruct (decide (c' = c)) as [->|Hc]; [apply Hk|]. apply Hsame. by left. }
  destruct (revert_loop_spec c (hash_order old') s1 (hash_keys old')) as (r&s2&Hrev&F2&Hr).
  assert ((set_updated ∅ ;;; on_manager (revert_loop c (hash_order old')) ;;; fail (A := unit) (Sys e))
            {| accessor := accessor s; manager := s1 |}
          = (match r with Ok _ => Err (Sys e) | Err e => Err e | Panic => Panic | OutOfFuel => OutOfFuel end, reset s s2)) as ->.
  { unfold bind, set_updated, on_manager. cbn [manager accessor]. rewrite Hrev. by destruct r. }
  destruct Hr as [(->&HP&Ho)|(e'&->&Hlt')].
  - exists (Err (Sys e)), s2. split; [done|]. split; [lia|]. right. split; [by exists e|]. split; [lia|].
    intros _. by apply (reverted_hash c old' (manager s) s1).
  - exists (Err (Sys e')), s2. split; [done|]. split; [lia|]. right. split; [by exists e'|]. split; [lia|]. lia.
Qed.
End commit.
