(* ===== verification/StashSession.v ===== *)
(** Sessions of the stash: what the requests of an accessor keep of the store and
    its file, whatever calls fail; and what the service keeps, however the requests of
    its channels interleave. *)

From S2P Require Import Prelude Std Stash StashAccessor StashService StashCommit.

(** * What every operation keeps *)
Section safety.
Context `{!ByteOrder, !HashOrder, !ByteOrderSpec, !HashOrderSpec}.
(** The store before. *)
Context (base : Store).

Definition update_ok (k : Key) (o : option Value) : Prop := str_ok k ∧ ∀ v, o = Some v → value_ok v.
Definition updates_wf (u : gmap Key (option Value)) : Prop := ∀ k o, u !! k = Some o → update_ok k o.
(** The store is well formed and so is the one the backing file holds; and the
    fields of the clients other than [c] are what they were. *)
Definition intact (s : State) : Prop :=
  store_wf (store s) ∧ ∀ bs, backing_file s = Some bs → ∃ st, store_wf st ∧ bs = bytes_of st.
Definition kept (c : ClientName) (s : State) : Prop :=
  ∀ c' k, c' ≠ c → lookup_field c' k (store s) = lookup_field c' k base.
Definition safe (c : ClientName) (s : State) : Prop := intact s ∧ kept c s.
Record session_wf (s : Session) : Prop := {
  wf_client : str_ok (client_name (accessor s));
  wf_updates : updates_wf (fields_updated (accessor s));
  wf_manager : safe (client_name (accessor s)) (manager s)
}.
Definition op_ok (op : StoreAccessorRequest) : Prop :=
  match op with
  | SetValue k v => str_ok k ∧ value_ok v
  | GetValue k | DeleteValue k => str_ok k
  | _ => True
  end.

Lemma lookup_field_wf c k v st : store_wf st → lookup_field c k st = Some v → str_ok c ∧ str_ok k ∧ value_ok v.
Proof.
  unfold lookup_field. intros Hst Hk. destruct (st !! c) as [m|] eqn:Hm; [|done]. apply Hst in Hm as [Hc Hm].
  by apply Hm in Hk as [??].
Qed.
Lemma put_field_wf c k o st : str_ok c → update_ok k o → store_wf st → store_wf (put_field c k o st).
Proof.
  intros Hc [Hk Ho] Hst n m Hm. unfold put_field in Hm. destruct (decide (n = c)) as [->|Hn].
  2: { rewrite lookup_insert_ne in Hm by done. by apply Hst. }
  rewrite lookup_insert_eq in Hm. injection Hm as <-. split; [done|].
  assert (fields_wf (client_fields c st)) as Hf.
  { unfold client_fields. destruct (st !! c) as [m|] eqn:Hm; [by apply Hst in Hm as [_ ?]|].
    intros k' v Hv. change (default ∅ None) with (∅ : gmap Key Value) in Hv; by rewrite lookup_empty in Hv. }
  intros k' v Hv. destruct o as [v0|].
  - destruct (decide (k' = k)) as [->|Hk']; [rewrite lookup_insert_eq in Hv; injection Hv as <-; by auto|].
    rewrite lookup_insert_ne in Hv by done. by apply Hf.
  - apply lookup_delete_Some in Hv as [_ Hv]. by apply Hf.
Qed.

Lemma outcome_safe {A : Type} c (m : SM A) s ok a P :
  outcome m s ok a P → (∀ f, safe c (ok (with_faults f s))) → (∀ s', P s' → safe c s') → safe c (m s).2.
Proof. intros [(f&->&_)|(e&s'&->&HP&_)] Hok Hfail; [apply Hok|by apply Hfail]. Qed.
Lemma safe_same c s s' : store s' = store s → backing_file s' = backing_file s → safe c s → safe c s'.
Proof. unfold safe, intact, kept. by intros -> ->. Qed.
Lemma yields_safe {A : Type} c (m : SM A) a s : yields m a → safe c s → safe c (m s).2.
Proof.
  intros Hm Hs. apply (outcome_safe _ _ _ _ _ _ (Hm s)).
  - intros f. by apply (safe_same _ s).
  - intros s' Hs'. apply (safe_same _ s); [by rewrite Hs'..|done].
Qed.
Lemma write_field_safe c k o s : str_ok c → update_ok k o → safe c s → safe c (write_field c k o s).2.
Proof.
  intros Hc Ho [[Hst Hb] Hk].
  pose proof (put_field_wf c k o (store s) Hc Ho Hst) as Hput.
  assert (∀ c' k', c' ≠ c → lookup_field c' k' (put_field c k o (store s)) = lookup_field c' k' (store s)) as Hother.
  { intros c' k' Hc'. rewrite lookup_put_field, decide_False; [done|]. by intros [? _]. }
  apply (outcome_safe _ _ _ _ _ _ (write_field_outcome c k o s)).
  - intros f. split; [split; [done|]; intros bs [= <-]; by exists (put_field c k o (store s))|].
    intros c' k' Hc'. by rewrite <- Hk, Hother.
  - intros s' [Hs' Hb']. split; [split; [by destruct Hs' as [-> | ->]|]; by rewrite Hb'|].
    intros c' k' Hc'. rewrite <- Hk by done. destruct Hs' as [-> | ->]; [done|by apply Hother].
Qed.

Lemma commit_loop_safe c updates old s :
  str_ok c → Forall (λ u, update_ok u.1 u.2) updates → safe c s → safe c (commit_loop c updates old s).2.
Proof.
  intros Hc. revert old s. induction updates as [|[key o] updates IH]; intros old s Hu Hs; [done|].
  apply Forall_cons in Hu as [Ho Hu]. cbn [fst snd commit_loop] in *.
  pose proof (old_value_outcome c key s) as Hov.
  assert (safe c (old_value c key s).2) as Hs1.
  { apply (outcome_safe _ _ _ _ _ _ Hov); [intros f; by apply (safe_same _ s)|]. intros s' [??]. by apply (safe_same _ s). }
  change (match get_value c key s with Some val_ref => _ | None => _ end) with (old_value c key s).
  destruct (old_value c key s) as [[old_value| | |] s1]; try exact Hs1.
  pose proof (write_field_safe c key o s1 Hc Ho Hs1) as Hs2. cbn [snd] in *.
  replace (match o with Some val => (v <- clone_value val ;; set_value c key v) s1 | None => delete_value c key s1 end)
    with (write_field c key o s1) by (by destruct o).
  destruct (write_field c key o s1) as [[[]| | |] s2]; try exact Hs2. by apply IH.
Qed.
Lemma revert_loop_safe c olds s :
  str_ok c → Forall (λ u, update_ok u.1 u.2) olds → safe c s → safe c (revert_loop c olds s).2.
Proof.
  intros Hc. revert s. induction olds as [|[key o] olds IH]; intros s Hu Hs; [done|].
  apply Forall_cons in Hu as [Ho Hu]. cbn [fst snd revert_loop] in *.
  pose proof (write_field_safe c key o s Hc Ho Hs) as Hs2.
  change (match o with Some val => v <- clone_value val ;; set_value c key v | None => delete_value c key end)
    with (write_field c key o).
  unfold bind. destruct (write_field c key o s) as [[[]| | |] s2]; try exact Hs2. by apply IH.
Qed.
Lemma hash_updates u : updates_wf u → Forall (λ x, update_ok x.1 x.2) (hash_order u).
Proof. intros Hu. apply Forall_forall. intros [k o] Hin%hash_elem. by apply Hu. Qed.

Lemma commit_wf s : session_wf s → session_wf (commit s).2.
Proof.
  intros [Hc Hu Hs]. unfold commit. rewrite bind_get_store.
  destruct (read_only (accessor s)); [done|].
  set (c := client_name (accessor s)) in *. set (u := fields_updated (accessor s)) in *.
  pose proof (commit_loop_safe c (hash_order u) ∅ (manager s) Hc (hash_updates _ Hu) Hs) as Hs1.
  destruct (commit_loop_spec c (hash_order u) ∅ (manager s) (hash_keys u)) as (r&old'&s1&Heq&HC&Hr);
    [intros; apply lookup_empty|].
  rewrite Heq in *. cbn [snd] in Hs1. destruct (committed_hash _ _ _ _ _ HC) as [Hold _].
  assert (updates_wf ∅) as He by (intros k o Ho; by rewrite lookup_empty in Ho).
  destruct Hr as [[-> _]|(e&->&_)]; [by split|].
  assert (updates_wf old') as Hold'.
  { intros k x Hx. pose proof Hx as Hin. apply (cm_new _ _ _ _ _ _ HC) in Hin as [Hin|[Hin _]]; [by rewrite lookup_empty in Hin|].
    split; [|intros v ->; apply Hold in Hx; symmetry in Hx; by apply (lookup_field_wf c k v (store (manager s)) (proj1 (proj1 Hs)))].
    apply list_elem_of_fmap in Hin as ([k' o]&->&Hin). apply hash_elem in Hin. by apply (Hu _ o). }
  pose proof (revert_loop_safe c (hash_order old') s1 Hc (hash_updates _ Hold') Hs1) as Hs2.
  unfold bind, set_updated, on_manager. cbn [manager accessor].
  by destruct (revert_loop c (hash_order old') s1) as [[[]| | |] s2]; split.
Qed.

Lemma bind_ret_state {S A B : Type} (m : M StashError S A) (f : A → B) s : (bind m (λ a, ret (f a)) s).2 = (m s).2.
Proof. unfold bind, ret. by destruct (m s) as [[]?]. Qed.
Lemma yields_clone_all l : yields (clone_all l) l.
Proof.
  induction l as [|[k v] l IH]; [apply yields_ret|]. apply (yields_bind _ _ v); [apply yields_clone|].
  apply (yields_bind _ _ l); [done|apply yields_ret].
Qed.
Lemma yields_clone_updates l : yields (clone_updates l) tt.
Proof.
  induction l as [|[k [v|]] l IH]; [apply yields_ret| |done]. apply (yields_bind _ _ v); [apply yields_clone|done].
Qed.

(** The stored fields of a client under a prefix. *)
Definition under_prefix (c : ClientName) (p : Key) (st : Store) : list (Key * Value) :=
  filter (λ kv, starts_with p kv.1 = true) (hash_order (client_fields c st)).
Lemma under_prefix_elem c p st k v :
  (k, v) ∈ under_prefix c p st ↔ starts_with p k = true ∧ lookup_field c k st = Some v.
Proof.
  unfold under_prefix, lookup_field, client_fields. rewrite list_elem_of_filter, hash_elem. cbn [fst].
  destruct (st !! c); [done|]. change (default ∅ None) with (∅ : gmap Key Value). by rewrite lookup_empty.
Qed.
Lemma hash_order_empty {V : Type} : hash_order (∅ : gmap Key V) = [].
Proof. apply length_zero_iff_nil. by rewrite hash_length, map_size_empty. Qed.
Lemma list_prefix_under c p s : list_prefix c p s = map (λ kv, (kv.1, value_to_type kv.2)) (under_prefix c p (store s)).
Proof.
  unfold list_prefix, under_prefix, client_fields. destruct (store s !! c); [done|].
  change (default ∅ None) with (∅ : gmap Key Value). by rewrite hash_order_empty.
Qed.
Lemma get_prefix_under c p s : get_prefix c p s = clone_all (under_prefix c p (store s)) s.
Proof.
  unfold get_prefix, under_prefix, client_fields. rewrite bind_get_store. destruct (store s !! c); [done|].
  change (default ∅ None) with (∅ : gmap Key Value). by rewrite hash_order_empty.
Qed.

(** Deleting the keys of a listing. *)
Lemma foldl_delete {T : Type} (l : list (Key * T)) (u : gmap Key (option Value)) k :
  foldl (λ f li, <[li.1 := None]> f) u l !! k = if decide (k ∈ l.*1) then Some None else u !! k.
Proof.
  revert u. induction l as [|[k' x] l IH]; intros u; cbn [foldl fmap list_fmap fst].
  - rewrite decide_False; [done|]. apply not_elem_of_nil.
  - rewrite IH. destruct (decide (k ∈ l.*1)) as [Hin|Hin]; [rewrite decide_True by (by right); done|].
    destruct (decide (k = k')) as [->|Hk]; [rewrite lookup_insert_eq, decide_True by (by left); done|].
    rewrite lookup_insert_ne, decide_False; [done| |done]. by intros [?|?]%elem_of_cons.
Qed.

Lemma set_updated_wf u s : updates_wf u → session_wf s → session_wf (set_updated u s).2.
Proof. intros Hu [Hc _ Hs]. by split. Qed.
Lemma on_manager_wf {A : Type} (m : SM A) a s : yields m a → session_wf s → session_wf (on_manager m s).2.
Proof.
  intros Hm [Hc Hu Hs]. pose proof (yields_safe _ _ _ _ Hm Hs) as Hs'. unfold on_manager.
  destruct (m (manager s)) as [r st]. by split.
Qed.
Lemma insert_updates_wf k o u : update_ok k o → updates_wf u → updates_wf (<[k := o]> u).
Proof.
  intros Ho Hu k' o' Hk. destruct (decide (k' = k)) as [->|Hne]; [rewrite lookup_insert_eq in Hk; injection Hk as <-; done|].
  rewrite lookup_insert_ne in Hk by done. by apply Hu.
Qed.

Lemma get_value_wf k s : session_wf s → session_wf (acc_get_value k s).2.
Proof.
  intros Hs. unfold acc_get_value. rewrite bind_get_store.
  assert (∀ v, session_wf ((v <- on_manager (clone_value v) ;; ret (Some v)) s).2) as Hclone.
  { intros v. rewrite (bind_ret_state (on_manager (clone_value v)) Some).
    apply (on_manager_wf _ v); [apply yields_clone|done]. }
  repeat case_match; try exact Hs; apply Hclone.
Qed.
Lemma get_prefix_wf p s : session_wf s → session_wf (acc_get_prefix p s).2.
Proof.
  intros Hs. unfold acc_get_prefix. rewrite bind_get_store.
  set (c := client_name (accessor s)). set (u := fields_updated (accessor s)).
  assert (session_wf (on_manager (get_prefix c p) s).2) as Hs1.
  { pose proof (on_manager_wf _ _ s (yields_clone_all (under_prefix c p (store (manager s)))) Hs) as Hw.
    unfold on_manager in *. by rewrite get_prefix_under. }
  unfold bind at 1. destruct (on_manager (get_prefix c p) s) as [[l| | |] s1]; try exact Hs1.
  destruct (bool_decide _); [exact Hs1|]. rewrite (bind_ret_state (on_manager (clone_updates (hash_order u))) (λ _, _)).
  apply (on_manager_wf _ tt); [apply yields_clone_updates|done].
Qed.
Lemma delete_prefix_wf p s : session_wf s → session_wf (acc_delete_prefix p s).2.
Proof.
  intros Hs. unfold acc_delete_prefix. rewrite bind_get_store. destruct (read_only (accessor s)); [done|].
  apply set_updated_wf; [|done]. intros k o. rewrite foldl_delete. case_decide as Hin.
  - intros [= <-]. split; [|done]. rewrite list_prefix_under in Hin.
    apply list_elem_of_fmap in Hin as ([k' ty]&->&Hin). apply list_elem_of_fmap in Hin as ([k v]&[= -> ->]&Hin).
    apply under_prefix_elem in Hin as [_ Hin]. destruct Hs as [_ _ [[Hs _] _]].
    by apply (lookup_field_wf _ _ _ _ Hs) in Hin as (_&?&_).
  - rewrite map_lookup_imap. destruct (fields_updated (accessor s) !! k) as [o'|] eqn:Ho; [|done].
    intros [= <-]. apply (wf_updates _ Hs) in Ho as [Hk Hv]. split; [done|]. by destruct (starts_with p k).
Qed.

Lemma run_op_wf op s : op_ok op → session_wf s → session_wf (run_op op s).2.
Proof.
  intros Hop Hs. destruct op; cbn [run_op op_ok] in *; unfold reply; rewrite bind_ret_state.
  - by apply get_value_wf.
  - unfold acc_set_value. rewrite bind_get_store. destruct (read_only _); [done|]. destruct (negb _ && _); [done|].
    apply set_updated_wf; [|done]. apply insert_updates_wf; [|apply Hs]. destruct Hop. split; [done|]. by intros v [= <-].
  - unfold acc_delete_value. rewrite bind_get_store. destruct (read_only _); [done|].
    apply set_updated_wf; [|done]. by apply insert_updates_wf; [|apply Hs].
  - unfold acc_list_prefix. rewrite bind_get_store. by destruct (bool_decide _).
  - by apply get_prefix_wf.
  - by apply delete_prefix_wf.
  - by apply commit_wf.
Qed.
Lemma run_wf ops s : Forall op_ok ops → session_wf s → session_wf (run ops s).2.
Proof.
  revert s. induction ops as [|op ops IH]; intros s Hops Hs; [done|]. apply Forall_cons in Hops as [Hop Hops].
  cbn [run]. pose proof (run_op_wf op s Hop Hs) as Hs1. destruct (run_op op s) as [[r| | |] s1]; try exact Hs1.
  specialize (IH s1 Hops Hs1). by destruct (run ops s1).
Qed.

(** A file no longer than a 64-bit count allows is read back. *)
Lemma concat_length_le {A B : Type} (f : A → list B) l x : x ∈ l → (length (f x) ≤ length (concat (map f l)))%nat.
Proof.
  induction 1 as [x l|x y l _ IH]; cbn [map concat]; rewrite length_app; lia.
Qed.
Lemma store_wf_ok st : store_wf st → zlen (bytes_of st) < 2 ^ 64 → store_ok st.
Proof.
  intros Hst Hlen n m Hm. destruct (Hst n m Hm) as [Hn Hf]. split; [done|]. split; [|done].
  apply hash_elem in Hm. pose proof (concat_length_le client_bytes _ _ Hm) as Hc.
  unfold client_bytes in Hc at 1. rewrite !length_app in Hc. cbn [fst snd] in Hc.
  pose proof (entries_bytes_length (hash_order m)) as He. rewrite hash_length in He.
  unfold zlen, bytes_of in Hlen. lia.
Qed.
End safety.

Section serving.
Context `{!ByteOrder, !HashOrder, !ByteOrderSpec, !HashOrderSpec}.

Definition connection_ok (c : option Instance_) : Prop :=
  ∀ inst name, c = Some inst → inst_client_name inst = Some name → str_ok name.
Definition accessor_ok (a : option Accessor) : Prop :=
  ∀ acc, a = Some acc → str_ok (client_name acc) ∧ updates_wf (fields_updated acc).
Record service_wf (svc : Service) : Prop := {
  sw_manager : intact (service_manager svc);
  sw_connections : Forall connection_ok (connections svc);
  sw_accessors : Forall accessor_ok (accessors svc)
}.
Definition event_ok (e : Event) : Prop :=
  match e with
  | OnConnection _ (Identify name) => str_ok name
  | OnAccessor _ req => op_ok req
  | _ => True
  end.

Lemma serve_connection_wf i req svc :
  event_ok (OnConnection i req) → service_wf svc → service_wf (serve_connection i req svc).
Proof.
  intros He [Hm Hc Ha]. unfold serve_connection. destruct (connections svc !! i) as [[state|]|] eqn:Hi; [|done..].
  assert (connection_ok None) as Hnone by done.
  pose proof (Forall_lookup_1 _ _ _ _ Hc Hi state) as Hst.
  destruct req as [name|ro]; cbn [event_ok] in He.
  - unfold identify. destruct (inst_client_name state); split; try done; cbn [connections with_connections].
    + by apply Forall_insert.
    + apply Forall_insert; [done|]. by intros inst n [= <-] [= <-].
  - unfold create_accessor. destruct (inst_client_name state) as [name|] eqn:Hn; split; try done; cbn [connections accessors with_connections with_accessors].
    + apply Forall_app. split; [done|]. apply Forall_singleton. intros acc [= <-]. split; [by apply Hst|].
      intros k o Ho. cbn in Ho. by rewrite lookup_empty in Ho.
    + by apply Forall_insert.
Qed.

(** One request of an accessor, and what it may change. *)
Lemma accessor_session acc st :
  accessor_ok (Some acc) → intact st → session_wf (store st) {| accessor := acc; manager := st |}.
Proof. intros Ha Hm. destruct (Ha acc eq_refl) as [Hc Hu]. by split. Qed.
Lemma serve_accessor_wf i req svc : op_ok req → service_wf svc → service_wf (serve_accessor i req svc).
Proof.
  intros Hop [Hm Hc Ha]. unfold serve_accessor. destruct (accessors svc !! i) as [[acc|]|] eqn:Hi; [|done..].
  pose proof (Forall_lookup_1 _ _ _ _ Ha Hi) as Hacc.
  pose proof (run_op_wf _ req _ Hop (accessor_session acc _ Hacc Hm)) as [Hc' Hu' [Hm' _]].
  destruct (run_op req _) as [r s]. cbn [snd] in *. split; [done|done|]. cbn [accessors with_manager with_accessors].
  apply Forall_insert; [done|]. destruct r; try done. intros acc' [= <-]. done.
Qed.
Lemma serve_wf e svc : event_ok e → service_wf svc → service_wf (serve e svc).
Proof.
  intros He Hs. destruct e as [|i req|i req]; cbn [serve].
  - destruct Hs as [Hm Hc Ha]. split; try done. apply Forall_app. split; [done|]. apply Forall_singleton.
    by intros inst name [= <-].
  - by apply serve_connection_wf.
  - by apply serve_accessor_wf.
Qed.
Lemma foldl_serve_wf evs svc : Forall event_ok evs → service_wf svc → service_wf (foldl (flip serve) svc evs).
Proof.
  revert svc. induction evs as [|e evs IH]; intros svc Hev Hs; [done|]. apply Forall_cons in Hev as [He Hev].
  by apply IH, serve_wf.
Qed.

(** The file the service starts from: none, or a store. *)
Definition file_ok (s : State) : Prop :=
  ∀ bs, backing_file s = Some bs → zlen bs < 2 ^ 64 ∧ ∃ st, store_wf st ∧ bs = bytes_of st.
Lemma yields_ok {A : Type} (m : SM A) a s b s' : yields m a → m s = (Ok b, s') → b = a ∧ s' = with_faults (faults s') s.
Proof.
  intros Hm Hok. destruct (Hm s) as [(f&Hf&_)|(e&s1&He&_)]; [|congruence]. rewrite Hf in Hok. by injection Hok as <- <-.
Qed.
Lemma start_wf opts s svc : file_ok s → start opts s = Ok svc → service_wf svc.
Proof.
  unfold start. intros Hfile. destruct (store_manager_new s) as [[[]| | |] s'] eqn:Hnew; try done. intros [= <-].
  split; [|done|done]. cbn [service_manager]. unfold store_manager_new in Hnew.
  apply bind_ok_inv in Hnew as ([]&s1&Hcall&Hnew). apply (yields_ok _ tt) in Hcall as [_ Hs1]; [|apply yields_pure_call].
  rewrite bind_get_store in Hnew. assert (backing_file s1 = backing_file s) as Hb by (by rewrite Hs1). rewrite Hb in Hnew.
  destruct (backing_file s) as [bs|] eqn:Hbs.
  - destruct (Hfile bs Hbs) as [Hlen (st&Hst&->)].
    apply bind_ok_inv in Hnew as (st'&s2&Hd&Hnew). injection Hnew as <-.
    apply (yields_ok _ st) in Hd as [-> Hs2]; [|by apply deserialize_ok, store_wf_ok].
    split; [done|]. intros bs'. cbn [backing_file with_store]. rewrite Hs2. cbn [backing_file with_faults]. rewrite Hb.
    intros Hbs'. apply (inj Some) in Hbs'. by exists st.
  - injection Hnew as <-. split; [intros n m Hnm; cbn in Hnm; by rewrite lookup_empty in Hnm|].
    intros bs'. cbn [backing_file with_store]. by rewrite Hb.
Qed.

(** * Requests that change the store *)
Definition unchanged (s s' : Session) : Prop :=
  client_name (accessor s') = client_name (accessor s) ∧ store (manager s') = store (manager s).
Lemma on_manager_unchanged {A : Type} (m : SM A) a s : yields m a → unchanged s (on_manager m s).2.
Proof.
  intros Hm. unfold on_manager. destruct (Hm (manager s)) as [(f&->&_)|(e&s'&->&Hs'&_)]; [done|].
  split; [done|]. cbn [snd manager]. by rewrite Hs'.
Qed.
Lemma unchanged_trans s1 s2 s3 : unchanged s1 s2 → unchanged s2 s3 → unchanged s1 s3.
Proof. unfold unchanged. intros [-> ->] [-> ->]. done. Qed.
Lemma run_op_unchanged req s : req ≠ Commit ∨ read_only (accessor s) = true → unchanged s (run_op req s).2.
Proof.
  intros Hreq. destruct req as [?|? ?|?|?|p|?|]; cbn [run_op]; unfold reply; rewrite bind_ret_state.
  - assert (∀ v, unchanged s ((v <- on_manager (clone_value v) ;; ret (Some v)) s).2) as Hclone.
    { intros v. rewrite (bind_ret_state (on_manager (clone_value v)) Some). apply (on_manager_unchanged _ v), yields_clone. }
    unfold acc_get_value. rewrite bind_get_store. repeat case_match; try done; apply Hclone.
  - unfold acc_set_value. rewrite bind_get_store. by repeat case_match.
  - unfold acc_delete_value. rewrite bind_get_store. by repeat case_match.
  - unfold acc_list_prefix. rewrite bind_get_store. by repeat case_match.
  - unfold acc_get_prefix. rewrite bind_get_store. set (c := client_name (accessor s)).
    assert (unchanged s (on_manager (get_prefix c p) s).2) as Hs1.
    { pose proof (on_manager_unchanged _ _ s (yields_clone_all (under_prefix c p (store (manager s))))) as Hf.
      unfold on_manager in *. by rewrite get_prefix_under. }
    unfold bind at 1. destruct (on_manager (get_prefix c p) s) as [[l| | |] s1]; try exact Hs1.
    destruct (bool_decide _); [exact Hs1|].
    rewrite (bind_ret_state (on_manager (clone_updates _)) (λ _, _)). apply (unchanged_trans _ s1); [exact Hs1|].
    apply (on_manager_unchanged _ tt), yields_clone_updates.
  - unfold acc_delete_prefix. rewrite bind_get_store. by repeat case_match.
  - destruct Hreq as [|Hro]; [done|]. unfold commit. by rewrite bind_get_store, Hro.
Qed.
Lemma run_op_client req s : client_name (accessor (run_op req s).2) = client_name (accessor s).
Proof.
  destruct (read_only (accessor s)) eqn:Hro; [by apply run_op_unchanged; right|].
  destruct req; try (by apply run_op_unchanged; left). cbn [run_op]. unfold reply. rewrite bind_ret_state.
  by destruct (commit_spec s Hro) as (r&st'&->&_).
Qed.

Lemma serve_change e svc c k :
  service_wf svc → event_ok e →
  get_value c k (service_manager (serve e svc)) ≠ get_value c k (service_manager svc) →
  ∃ i acc, e = OnAccessor i Commit ∧ accessors svc !! i = Some (Some acc) ∧ client_name acc = c ∧ read_only acc = false.
Proof.
  intros [Hm Hc Ha] He Hne. destruct e as [|i req|i req]; cbn [serve] in Hne.
  - done.
  - exfalso. revert Hne. unfold serve_connection. repeat case_match; done.
  - unfold serve_accessor in Hne. destruct (accessors svc !! i) as [[acc|]|] eqn:Hi; [|done..].
    set (s := {| accessor := acc; manager := service_manager svc |}) in Hne.
    pose proof (run_op_unchanged req s) as Hstore.
    pose proof (Forall_lookup_1 _ _ _ _ Ha Hi) as Hacc.
    pose proof (run_op_wf _ req s He (accessor_session acc _ Hacc Hm)) as [_ _ [_ Hkept]].
    assert (client_name (accessor (run_op req s).2) = client_name acc) as Hname by apply run_op_client.
    rewrite Hname in Hkept. destruct (run_op req s) as [r s']. cbn [snd service_manager with_manager manager] in *.
    assert (req ≠ Commit ∨ read_only acc = true → get_value c k (manager s') = get_value c k (service_manager svc)) as Hsame.
    { intros Hr. unfold get_value. by rewrite (proj2 (Hstore Hr)). }
    exists i, acc. destruct (decide (client_name acc = c)) as [Hcl|Hcl]; [|exfalso; apply Hne, Hkept; by intros ->].
    destruct (read_only acc) eqn:Hro; [by exfalso; apply Hne, Hsame; right|].
    destruct req; try done; exfalso; apply Hne, Hsame; by left.
Qed.

(** * Where accessors come from

    The names with which a connection identified itself, once it was made. *)
Fixpoint identifications (j made : nat) (evs : list Event) : list ClientName :=
  match evs with
  | [] => []
  | Connect :: evs => identifications j (S made) evs
  | OnConnection j' (Identify name) :: evs =>
      if decide (j' = j ∧ (j < made)%nat) then name :: identifications j made evs else identifications j made evs
  | _ :: evs => identifications j made evs
  end.
Fixpoint connects (evs : list Event) : nat :=
  match evs with [] => O | Connect :: evs => S (connects evs) | _ :: evs => connects evs end.
Lemma identifications_app j made evs evs' :
  identifications j made (evs ++ evs') = identifications j made evs ++ identifications j (made + connects evs) evs'.
Proof.
  revert made. induction evs as [|e evs IH]; intros made; [by rewrite Nat.add_0_r|].
  destruct e as [|j' [name|ro]|i req]; cbn [app identifications connects]; rewrite ?IH; [|by case_decide|done|done].
  by rewrite Nat.add_succ_r.
Qed.
Lemma connects_app evs evs' : connects (evs ++ evs') = (connects evs + connects evs')%nat.
Proof. induction evs as [|[|? ?|? ?] evs IH]; cbn [app connects]; lia. Qed.

Lemma run_op_read_only req s : read_only (accessor (run_op req s).2) = read_only (accessor s).
Proof.
  assert (∀ (A : Type) (m : SM A), accessor (on_manager m s).2 = accessor s) as Hon by (intros A m; unfold on_manager; by destruct (m _)).
  assert (∀ v, accessor ((v <- on_manager (clone_value v) ;; ret (Some v)) s).2 = accessor s) as Hclone.
  { intros v. by rewrite (bind_ret_state (on_manager (clone_value v)) Some). }
  destruct req as [?|? ?|?|?|p|?|]; cbn [run_op]; unfold reply; rewrite bind_ret_state.
  - unfold acc_get_value. rewrite bind_get_store. repeat case_match; rewrite ?Hclone; done.
  - unfold acc_set_value. rewrite bind_get_store. by repeat case_match.
  - unfold acc_delete_value. rewrite bind_get_store. by repeat case_match.
  - unfold acc_list_prefix. rewrite bind_get_store. by repeat case_match.
  - unfold acc_get_prefix. rewrite bind_get_store. unfold bind at 1. pose proof (Hon _ (get_prefix (client_name (accessor s)) p)) as Hacc.
    destruct (on_manager _ s) as [[l| | |] s1]; cbn [snd] in Hacc |- *; [|by rewrite Hacc..]. destruct (bool_decide _); [by rewrite <- Hacc|].
    rewrite (bind_ret_state (on_manager (clone_updates _)) (λ _, _)). unfold on_manager. rewrite <- Hacc. by destruct (clone_updates _ _).
  - unfold acc_delete_prefix. rewrite bind_get_store. by repeat case_match.
  - destruct (read_only (accessor s)) eqn:Hro; [unfold commit; by rewrite bind_get_store, Hro|].
    by destruct (commit_spec s Hro) as (r&st'&->&_).
Qed.

(** An accessor was created by a connection that had identified itself once, as its client. *)
Definition created_by (svc : Service) (evs : list Event) (i : nat) (acc : Accessor) : Prop :=
  ∃ j evs1 evs2, evs = evs1 ++ OnConnection j (CreateAccessor (read_only acc)) :: evs2 ∧
    length (accessors (foldl (flip serve) svc evs1)) = i ∧ identifications j 0 evs1 = [client_name acc].
Lemma created_by_snoc svc evs i acc e : created_by svc evs i acc → created_by svc (evs ++ [e]) i acc.
Proof. intros (j&evs1&evs2&->&?&?). exists j, evs1, (evs2 ++ [e]). by rewrite <- app_assoc. Qed.
Lemma created_by_same svc evs i acc acc' :
  client_name acc' = client_name acc → read_only acc' = read_only acc → created_by svc evs i acc → created_by svc evs i acc'.
Proof. unfold created_by. by intros -> ->. Qed.
Record traced (svc : Service) (evs : list Event) (svc' : Service) : Prop := {
  tr_connects : length (connections svc') = connects evs;
  tr_names j inst : connections svc' !! j = Some (Some inst) → identifications j 0 evs = option_list (inst_client_name inst);
  tr_accessors i acc : accessors svc' !! i = Some (Some acc) → created_by svc evs i acc
}.
Lemma traced_connect svc evs svc' : traced svc evs svc' → traced svc (evs ++ [Connect]) (serve Connect svc').
Proof.
  intros [Hc Hn Ha]. split; cbn [serve connections accessors with_connections].
  - by rewrite length_app, connects_app, Hc.
  - intros j inst. rewrite identifications_app. cbn [identifications]. rewrite app_nil_r.
    intros [Hj|[Hlen Hj]]%lookup_app_Some; [by apply Hn|].
    apply list_lookup_singleton_Some in Hj as [Hj [= <-]]. cbn [inst_client_name option_list].
    assert (∀ made l, (made + connects l ≤ j)%nat → identifications j made l = []) as Hnone; [|apply Hnone; cbn; lia].
    intros made l. revert made. induction l as [|[|j' [name|ro]|i' req] l IH]; intros made Hl; cbn [identifications connects] in *; try done;
      try (apply IH; lia). case_decide; [lia|]. apply IH. lia.
  - intros i acc Hi. by apply created_by_snoc, Ha.
Qed.
(** A request that ends a connection, and does not make an accessor. *)
Lemma traced_shut svc evs svc' j req :
  traced svc evs svc' → is_Some (connections svc' !! j) →
  traced svc (evs ++ [OnConnection j req]) (with_connections (<[j := None]> (connections svc')) svc').
Proof.
  intros [Hc Hn Ha] [x Hj]. split; cbn [connections accessors with_connections].
  - rewrite length_insert, connects_app, Hc. cbn. lia.
  - intros j' inst Hj'. destruct (decide (j = j')) as [<-|Hne];
      [by rewrite list_lookup_insert_eq in Hj' by (by eapply lookup_lt_Some)|].
    rewrite list_lookup_insert_ne in Hj' by done. rewrite identifications_app, (Hn _ _ Hj').
    destruct req; cbn [identifications]; [rewrite decide_False by naive_solver|]; apply app_nil_r.
  - intros i acc Hi. by apply created_by_snoc, Ha.
Qed.
Lemma traced_connection svc evs svc' j req :
  svc' = foldl (flip serve) svc evs → traced svc evs svc' →
  traced svc (evs ++ [OnConnection j req]) (serve (OnConnection j req) svc').
Proof.
  intros Heq HT. pose proof HT as [Hc Hn Ha]. cbn [serve]. unfold serve_connection.
  destruct (connections svc' !! j) as [[state|]|] eqn:Hj.
  - pose proof (lookup_lt_Some _ _ _ Hj) as Hlt. specialize (Hn j state Hj) as Hst. destruct req as [name|ro].
    + unfold identify. destruct (inst_client_name state) as [n0|] eqn:En; [apply traced_shut; eauto|].
      split; cbn [connections accessors with_connections].
      * rewrite length_insert, connects_app, Hc. cbn. lia.
      * intros j' inst Hj'. rewrite identifications_app. cbn [identifications]. destruct (decide (j = j')) as [<-|Hne].
        -- rewrite list_lookup_insert_eq in Hj' by done. injection Hj' as <-. rewrite Hst, decide_True by (split; [done|cbn; lia]). done.
        -- rewrite list_lookup_insert_ne in Hj' by done. rewrite decide_False by naive_solver. rewrite app_nil_r. by apply Hn.
      * intros i acc Hi. by apply created_by_snoc, Ha.
    + unfold create_accessor. destruct (inst_client_name state) as [n0|] eqn:En; [|apply traced_shut; eauto].
      split; cbn [connections accessors with_accessors].
      * rewrite connects_app, Hc. cbn. lia.
      * intros j' inst Hj'. rewrite identifications_app. cbn [identifications]. rewrite app_nil_r. by apply Hn.
      * intros i acc [Hi|[Hlen Hi]]%lookup_app_Some; [by apply created_by_snoc, Ha|].
        apply list_lookup_singleton_Some in Hi as [Hi [= <-]]. exists j, evs, []. cbn [read_only accessor_new client_name].
        split; [done|]. split; [rewrite <- Heq; lia|by rewrite Hst].
  - split; [by rewrite connects_app, Hc; cbn; lia| |intros i acc Hi; by apply created_by_snoc, Ha].
    intros j' inst Hj'. rewrite identifications_app, (Hn _ _ Hj'). destruct req; cbn [identifications]; [|apply app_nil_r].
    rewrite decide_False, app_nil_r; [done|]. intros [<- _]. congruence.
  - split; [by rewrite connects_app, Hc; cbn; lia| |intros i acc Hi; by apply created_by_snoc, Ha].
    intros j' inst Hj'. rewrite identifications_app, (Hn _ _ Hj'). destruct req; cbn [identifications]; [|apply app_nil_r].
    rewrite decide_False, app_nil_r; [done|]. intros [<- _]. congruence.
Qed.
Lemma traced_accessor svc evs svc' i req :
  traced svc evs svc' → traced svc (evs ++ [OnAccessor i req]) (serve (OnAccessor i req) svc').
Proof.
  intros [Hc Hn Ha]. cbn [serve].
  assert (connections (serve_accessor i req svc') = connections svc') as Hconn
    by (unfold serve_accessor; repeat case_match; done).
  split; rewrite ?Hconn.
  - rewrite connects_app, Hc. cbn. lia.
  - intros j inst Hj. rewrite identifications_app, (Hn _ _ Hj). apply app_nil_r.
  - intros i' acc. unfold serve_accessor. destruct (accessors svc' !! i) as [[acc0|]|] eqn:Hi;
      try (intros Hi'; by apply created_by_snoc, Ha).
    set (s := {| accessor := acc0; manager := service_manager svc' |}).
    pose proof (run_op_client req s) as Hcl. pose proof (run_op_read_only req s) as Hro.
    destruct (run_op req s) as [r s1]. cbn [snd] in *. cbn [accessors with_manager with_accessors].
    destruct (decide (i = i')) as [<-|Hne]; [|rewrite list_lookup_insert_ne by done; intros Hi'; by apply created_by_snoc, Ha].
    rewrite list_lookup_insert_eq by (by eapply lookup_lt_Some). intros [= Hr]. destruct r; [|done..]. injection Hr as <-.
    apply created_by_snoc. eapply created_by_same; [exact Hcl|exact Hro|]. by apply Ha.
Qed.
Lemma traced_run svc evs :
  connections svc = [] → accessors svc = [] → traced svc evs (foldl (flip serve) svc evs).
Proof.
  intros Hc Ha. induction evs as [|e evs IH] using rev_ind.
  - split; cbn [foldl]; [by rewrite Hc|by rewrite Hc|by rewrite Ha].
  - rewrite foldl_app. cbn [foldl flip]. destruct e as [|j req|i req];
      [by apply traced_connect|by apply traced_connection|by apply traced_accessor].
Qed.
End serving.
