(* ===== verification/StashListing.v ===== *)
(** Accessors refine a machine of two maps, what is committed and what the client of the
    accessor sees; listings of the stash, the iterators that send them in parts, and reading
    a file of any bytes. *)

From S2P Require Import Prelude Std Stash StashAccessor StashCommit StashSession.

(** * The machine an accessor refines: what is committed, what its client sees, and which
    keys have an update pending *)
Record AbsState := {
  a_committed : ClientName → Key → option Value;
  a_view : Key → option Value;
  a_pending : Key → bool
}.
(** Listings are maps from keys: their order is not specified. *)
Inductive AbsReply : Type :=
| AUnit
| AValue (o : option Value)
| ATypes (m : Key → option ValueType)
| AValues (m : Key → option Value).

(** What a listing shows: what the client sees under the prefix, and under any key with an
    update pending. *)
Definition a_listed (a : AbsState) (p k : Key) : option Value :=
  if starts_with p k || a_pending a k then a_view a k else None.
Definition a_update (a : AbsState) (view : Key → option Value) (pending : Key → bool) : AbsState :=
  {| a_committed := a_committed a; a_view := view; a_pending := pending |}.
Definition abs_op (c : ClientName) (bytes ro : bool) (op : StoreAccessorRequest) (a : AbsState) : result StashError AbsReply * AbsState :=
  match op with
  | GetValue k =>
      match a_view a k with
      | Some (Bytesval b) => (if bytes then Ok (AValue (Some (Bytesval b))) else Err BytesDisabled, a)
      | o => (Ok (AValue o), a)
      end
  | SetValue k v =>
      if ro then (Err ReadOnly, a)
      else if negb bytes && is_bytes v then (Err BytesDisabled, a)
      else (Ok AUnit, a_update a (λ k', if decide (k' = k) then Some v else a_view a k')
                        (λ k', bool_decide (k' = k) || a_pending a k'))
  | DeleteValue k =>
      if ro then (Err ReadOnly, a)
      else (Ok AUnit, a_update a (λ k', if decide (k' = k) then None else a_view a k')
                        (λ k', bool_decide (k' = k) || a_pending a k'))
  | DeletePrefix p =>
      if ro then (Err ReadOnly, a)
      else (Ok AUnit, a_update a (λ k, if starts_with p k then None else a_view a k)
                        (λ k, starts_with p k && bool_decide (is_Some (a_committed a c k)) || a_pending a k))
  | Commit =>
      if ro then (Err ReadOnly, a)
      else (Ok AUnit, {| a_committed := λ c' k, if decide (c' = c) then a_view a k else a_committed a c' k;
                         a_view := a_view a; a_pending := λ _, false |})
  | ListPrefix p => (Ok (ATypes (λ k, value_to_type <$> a_listed a p k)), a)
  | GetPrefix p => (Ok (AValues (a_listed a p)), a)
  end.
Fixpoint abs_run (c : ClientName) (bytes ro : bool) (ops : list StoreAccessorRequest) (a : AbsState)
    : list (result StashError AbsReply) * AbsState :=
  match ops with
  | [] => ([], a)
  | op :: ops =>
      match abs_op c bytes ro op a with
      | (Ok r, a) => let (rs, a) := abs_run c bytes ro ops a in (Ok r :: rs, a)
      | (r, a) => ([r], a)
      end
  end.
(** A reply and the machine's reply: a listing has each key of the map once. *)
Definition lists {T : Type} (l : list (Key * T)) (m : Key → option T) : Prop :=
  NoDup l.*1 ∧ ∀ k t, (k, t) ∈ l ↔ m k = Some t.
Definition answers (r : result StashError Reply) (r' : result StashError AbsReply) : Prop :=
  match r, r' with
  | Ok RUnit, Ok AUnit => True
  | Ok (RValue o), Ok (AValue o') => o = o'
  | Ok (RTypes l), Ok (ATypes m) => lists l m
  | Ok (RValues l), Ok (AValues m) => lists l m
  | Err e, Err e' => e = e'
  | _, _ => False
  end.

Section refinement.
Context `{!ByteOrder, !HashOrder, !ByteOrderSpec, !HashOrderSpec}.

(** What the client of an accessor sees under a key. *)
Definition view (s : Session) (k : Key) : option Value :=
  overlay (fields_updated (accessor s)) k (lookup_field (client_name (accessor s)) k (store (manager s))).
Record represents (c : ClientName) (bytes ro : bool) (s : Session) (a : AbsState) : Prop := {
  rp_client : client_name (accessor s) = c;
  rp_bytes : enable_bytes (accessor s) = bytes;
  rp_read_only : read_only (accessor s) = ro;
  rp_calm : calm (manager s);
  rp_committed c' k : lookup_field c' k (store (manager s)) = a_committed a c' k;
  rp_view k : view s k = a_view a k;
  rp_pending k : bool_decide (is_Some (fields_updated (accessor s) !! k)) = a_pending a k
}.

Lemma calm_clone v s : calm (manager s) →
  ∃ f, (v <- on_manager (clone_value v) ;; ret (Some v)) s
       = (Ok (Some v), {| accessor := accessor s; manager := with_faults f (manager s) |}) ∧ failures f = 0%nat.
Proof.
  intros Hs. destruct (yields_calm _ _ _ (yields_clone v) Hs) as (f&Hf&Hc). exists f. split; [|done].
  unfold bind, on_manager. by rewrite Hf.
Qed.
Lemma get_value_view k s : calm (manager s) →
  ∃ f, failures f = 0%nat ∧
    acc_get_value k s
    = match view s k with
      | Some (Bytesval b) =>
          if enable_bytes (accessor s)
          then (Ok (Some (Bytesval b)), {| accessor := accessor s; manager := with_faults f (manager s) |})
          else (Err BytesDisabled, s)
      | o => (Ok o, {| accessor := accessor s; manager := with_faults f (manager s) |})
      end.
Proof.
  intros Hs. unfold acc_get_value, view, overlay. rewrite bind_get_store.
  change (get_value (client_name (accessor s)) k (manager s))
    with (lookup_field (client_name (accessor s)) k (store (manager s))).
  assert (s = {| accessor := accessor s; manager := with_faults (faults (manager s)) (manager s) |}) as Hsame
    by (destruct s as [a [????]]; done).
  destruct (fields_updated (accessor s) !! k) as [[v|]|].
  - destruct (calm_clone v s Hs) as (f&Hf&Hc). exists f. split; [done|].
    destruct (enable_bytes (accessor s)), v; try exact Hf; done.
  - exists (faults (manager s)). split; [done|]. rewrite <- Hsame. by destruct (enable_bytes (accessor s)).
  - destruct (lookup_field _ _ _) as [v|]; [|exists (faults (manager s)); split; [done|]; by rewrite <- Hsame].
    destruct (calm_clone v s Hs) as (f&Hf&Hc). exists f. split; [done|].
    destruct v; try exact Hf. destruct (enable_bytes (accessor s)); [exact Hf|done].
Qed.
Lemma delete_prefix_view p s k :
  read_only (accessor s) = false →
  view (acc_delete_prefix p s).2 k = if starts_with p k then None else view s k.
Proof.
  intros Hro. unfold acc_delete_prefix. rewrite bind_get_store, Hro. unfold view, overlay, set_updated.
  cbn [snd accessor manager fields_updated client_name]. rewrite foldl_delete, map_lookup_imap.
  set (c := client_name (accessor s)). case_decide as Hin.
  - rewrite list_prefix_under in Hin. apply list_elem_of_fmap in Hin as ([k' ty]&->&Hin).
    apply list_elem_of_fmap in Hin as ([k v]&[= -> ->]&Hin). apply under_prefix_elem in Hin as [Hp _].
    cbn [fst]. by rewrite Hp.
  - destruct (fields_updated (accessor s) !! k) as [o|]; cbn [mbind option_bind]; [by destruct (starts_with p k)|].
    destruct (starts_with p k) eqn:Hp; [|done]. destruct (lookup_field c k (store (manager s))) as [v|] eqn:Hv; [|done].
    exfalso. apply Hin. rewrite list_prefix_under. apply list_elem_of_fmap. exists (k, value_to_type v). split; [done|].
    apply list_elem_of_fmap. exists (k, v). split; [done|]. by apply under_prefix_elem.
Qed.

Lemma represents_faults c bytes ro s a f :
  represents c bytes ro s a → failures f = 0%nat →
  represents c bytes ro {| accessor := accessor s; manager := with_faults f (manager s) |} a.
Proof. intros [H1' H2' H3' H4' H5' H6' H7'] Hf. by split. Qed.
Lemma represents_updated c bytes ro s a u (vw : Key → option Value) (pd : Key → bool) :
  represents c bytes ro s a → (∀ k, overlay u k (lookup_field c k (store (manager s))) = vw k) →
  (∀ k, bool_decide (is_Some (u !! k)) = pd k) →
  represents c bytes ro (set_updated u s).2 (a_update a vw pd).
Proof. intros [<- ? ? ? ? _ _] Hu Hp. by split. Qed.
Lemma pending_insert (u : gmap Key (option Value)) k o k' :
  bool_decide (is_Some (<[k := o]> u !! k')) = bool_decide (k' = k) || bool_decide (is_Some (u !! k')).
Proof.
  destruct (decide (k' = k)) as [->|Hk]; [by rewrite lookup_insert_eq, !bool_decide_eq_true_2 by eauto|].
  by rewrite lookup_insert_ne, (bool_decide_eq_false_2 (k' = k)) by done.
Qed.
Lemma overlay_insert u k o k' x : overlay (<[k := o]> u) k' x = if decide (k' = k) then o else overlay u k' x.
Proof.
  unfold overlay. destruct (decide (k' = k)) as [->|Hk]; [by rewrite lookup_insert_eq|]. by rewrite lookup_insert_ne.
Qed.
Lemma view_represents c bytes ro s a k :
  represents c bytes ro s a → overlay (fields_updated (accessor s)) k (lookup_field c k (store (manager s))) = a_view a k.
Proof. intros [<- ? ? ? ? Hv _]. apply Hv. Qed.

Lemma commit_refines c bytes s a :
  represents c bytes false s a →
  ∃ s', commit s = (Ok tt, s') ∧
    represents c bytes false s' {| a_committed := λ c' k, if decide (c' = c) then a_view a k else a_committed a c' k;
                                   a_view := a_view a; a_pending := λ _, false |}.
Proof.
  intros Hrep. destruct (commit_spec s (rp_read_only _ _ _ _ _ Hrep)) as (r&st'&Hc&F&Hr).
  pose proof (rp_calm _ _ _ _ _ Hrep) as Hcalm. unfold calm in Hcalm.
  destruct Hr as [(->&Hk&_)|(_&Hlt&_)]; [|lia]. rewrite (rp_client _ _ _ _ _ Hrep) in Hk.
  assert (∀ c' k, lookup_field c' k (store st') = if decide (c' = c) then a_view a k else a_committed a c' k) as Hst'.
  { intros c' k. rewrite Hk. destruct (decide (c' = c)) as [->|_]; [by apply view_represents with bytes false|apply Hrep]. }
  exists (reset s st'). split; [done|]. destruct Hrep as [Hcl Hb Hro _ _ _ _]. split; try done.
  - unfold calm. cbn [manager reset]. lia.
  - intros k. unfold view, overlay. cbn [accessor reset fields_updated manager client_name]. rewrite lookup_empty.
    rewrite Hst', Hcl. by rewrite decide_True.
Qed.

Lemma reply_ok {A : Type} (f : A → Reply) (m : AM A) s a s' : m s = (Ok a, s') → reply f m s = (Ok (f a), s').
Proof. intros Hm. unfold reply, bind. by rewrite Hm. Qed.
Lemma reply_err {A : Type} (f : A → Reply) (m : AM A) s e s' : m s = (Err e, s') → reply f m s = (Err e, s').
Proof. intros Hm. unfold reply, bind. by rewrite Hm. Qed.
(** What is pending after [delete_prefix]. *)
Lemma delete_prefix_pending p s k :
  read_only (accessor s) = false →
  bool_decide (is_Some (fields_updated (accessor (acc_delete_prefix p s).2) !! k)) =
  starts_with p k && bool_decide (is_Some (lookup_field (client_name (accessor s)) k (store (manager s))))
  || bool_decide (is_Some (fields_updated (accessor s) !! k)).
Proof.
  intros Hro. unfold acc_delete_prefix. rewrite bind_get_store, Hro. unfold set_updated.
  cbn [snd accessor manager fields_updated client_name]. rewrite foldl_delete, map_lookup_imap.
  set (c := client_name (accessor s)). rewrite list_prefix_under. case_decide as Hin.
  - apply list_elem_of_fmap in Hin as ([k' ty]&->&Hin). apply list_elem_of_fmap in Hin as ([k v]&[= -> ->]&Hin).
    apply under_prefix_elem in Hin as [Hp Hv]. cbn [fst]. rewrite Hp, Hv. done.
  - replace (starts_with p k && bool_decide (is_Some (lookup_field c k (store (manager s))))) with false.
    + by destruct (fields_updated (accessor s) !! k).
    + destruct (starts_with p k) eqn:Hp; [|done]. symmetry. apply bool_decide_eq_false_2. intros [v Hv]. apply Hin.
      apply list_elem_of_fmap. exists (k, value_to_type v). split; [done|].
      apply list_elem_of_fmap. exists (k, v). split; [done|]. by apply under_prefix_elem.
Qed.
End refinement.

(** * Merging pending updates *)
Section merge.
Context {T : Type} (f : Value → T).

Lemma existsb_key (l : list (Key * T)) key :
  existsb (λ li, bool_decide (li.1 = key)) l = bool_decide (key ∈ l.*1).
Proof.
  induction l as [|[k t] l IH]; [done|]. cbn [existsb fst]. rewrite IH.
  apply Bool.eq_true_iff_eq. rewrite orb_true_iff, !bool_decide_eq_true. cbn [fmap list_fmap fst].
  rewrite elem_of_cons. split; intros [?|?]; auto.
Qed.
Lemma merge_update_keys key v (l : list (Key * T)) :
  NoDup l.*1 → NoDup (merge_update f key v l).*1.
Proof.
  intros Hl. unfold merge_update. rewrite existsb_key. case_bool_decide as Hk.
  - replace (map (λ li : Key * T, if bool_decide (li.1 = key) then (li.1, f v) else li) l).*1 with l.*1; [done|].
    clear Hl Hk. induction l as [|[k t] l IH]; [done|].
    cbn [map fmap list_fmap fst]. f_equal; [by case_bool_decide|exact IH].
  - rewrite fmap_app. apply NoDup_app. split; [done|]. split; [|apply NoDup_singleton].
    intros k Hin Hk'. apply list_elem_of_singleton in Hk'. cbn in Hk'. by subst.
Qed.
Lemma merge_update_elem key v (l : list (Key * T)) k t :
  (k, t) ∈ merge_update f key v l ↔ if decide (k = key) then t = f v else (k, t) ∈ l.
Proof.
  unfold merge_update. rewrite existsb_key. case_bool_decide as Hk.
  - rewrite list_elem_of_fmap. split.
    + intros ([k' t']&Heq&Hin). cbn [fst] in Heq. case_bool_decide as Hk'.
      * injection Heq as -> ->. by rewrite decide_True.
      * injection Heq as -> ->. by rewrite decide_False.
    + case_decide as Hkk.
      * intros ->. subst k. apply list_elem_of_fmap in Hk as ([k' t']&->&Hin). exists (k', t'). cbn [fst].
        by rewrite bool_decide_eq_true_2.
      * intros Hin. exists (k, t). cbn [fst]. by rewrite bool_decide_eq_false_2.
  - rewrite elem_of_app, list_elem_of_singleton. case_decide as Hkk.
    + subst k. split; [intros [Hin|Heq]; [|congruence]|intros ->; by right].
      exfalso. apply Hk. apply list_elem_of_fmap. by exists (key, t).
    + split; [intros [Hin|Heq]; [done|congruence]|by left].
Qed.
Lemma merge_updates_keys updates (l : list (Key * T)) : NoDup l.*1 → NoDup (merge_updates f updates l).*1.
Proof.
  revert l. induction updates as [|[key [v|]] updates IH]; intros l Hl; cbn [merge_updates]; [done| |by apply IH].
  by apply IH, merge_update_keys.
Qed.
Lemma merge_updates_elem updates (l : list (Key * T)) k t :
  NoDup updates.*1 →
  (k, t) ∈ merge_updates f updates l ↔
  (∃ v, (k, Some v) ∈ updates ∧ t = f v) ∨ ((∀ v, (k, Some v) ∉ updates) ∧ (k, t) ∈ l).
Proof.
  revert l. induction updates as [|[key o] updates IH]; intros l Hnd.
  { cbn [merge_updates]. split.
    - intros Hin. right. split; [intros v; apply not_elem_of_nil|done].
    - intros [(v&Hin&_)|[_ Hin]]; [by apply not_elem_of_nil in Hin|done]. }
  cbn [fmap list_fmap] in Hnd. apply NoDup_cons in Hnd as [Hkey Hnd]. cbn [fst] in Hkey.
  assert (∀ v, (key, Some v) ∉ updates) as Hfresh.
  { intros v Hin. apply Hkey, list_elem_of_fmap. by exists (key, Some v). }
  destruct o as [v0|]; cbn [merge_updates]; rewrite IH by done; setoid_rewrite elem_of_cons.
  - rewrite merge_update_elem. case_decide as Hk; [subst k|].
    + split; [intros [(v&Hin&->)|[_ ->]]; [by left; exists v; auto|left; exists v0; auto]|].
      intros [(v&[Heq|Hin]&->)|[Hno _]]; [injection Heq as ->; by right|by left; exists v|].
      exfalso. apply (Hno v0). by left.
    + split.
      * intros [(v&Hin&->)|[Hno Hin]]; [by left; exists v; auto|right]. split; [|done]. intros v [Heq|Hin']; [congruence|by apply (Hno v)].
      * intros [(v&[Heq|Hin]&->)|[Hno Hin]]; [congruence|by left; exists v|right]. split; [|done]. intros v Hin'. apply (Hno v). by right.
  - split.
    + intros [(v&Hin&->)|[Hno Hin]]; [by left; exists v; auto|right]. split; [|done]. intros v [Heq|Hin']; [congruence|by apply (Hno v)].
    + intros [(v&[Heq|Hin]&->)|[Hno Hin]]; [congruence|by left; exists v|right]. split; [|done]. intros v Hin'. apply (Hno v). by right.
Qed.
End merge.

(** * Listings *)
Section listing.
Context `{!ByteOrder, !HashOrder, !ByteOrderSpec, !HashOrderSpec}.

(** A listing holds what the client sees under the prefix, and what is pending
    under any key. *)
Definition listed (s : Session) (p k : Key) (v : Value) : Prop :=
  view s k = Some v ∧ (starts_with p k = true ∨ is_Some (fields_updated (accessor s) !! k)).

Definition listing {T : Type} (f : Value → T) (u : gmap Key (option Value)) (base : list (Key * T)) : list (Key * T) :=
  if bool_decide (u = ∅) then base
  else merge_updates f (hash_order u) (filter (λ li, field_has_been_deleted (u !! li.1) = true) base).

Lemma stored_keys {T : Type} (f : Value → T) c p st :
  NoDup (map (λ kv, (kv.1, f kv.2)) (under_prefix c p st)).*1.
Proof.
  assert (∀ l, (map (λ kv : Key * Value, (kv.1, f kv.2)) l).*1 = l.*1) as Hmap.
  { induction l as [|x l IH]; [done|]. cbn [map fmap list_fmap fst]. f_equal. exact IH. }
  rewrite Hmap. unfold under_prefix. apply (sublist_NoDup _ (hash_order (client_fields c st)).*1); [apply hash_keys|].
  apply (fmap_sublist fst). apply sublist_filter.
Qed.
Lemma listing_keys {T : Type} (f : Value → T) u base : NoDup base.*1 → NoDup (listing f u base).*1.
Proof.
  intros Hb. unfold listing. destruct (bool_decide _); [done|]. apply merge_updates_keys.
  eapply sublist_NoDup; [exact Hb|]. apply (fmap_sublist fst). apply sublist_filter.
Qed.
Lemma listing_elem {T : Type} (f : Value → T) s p k t :
  (k, t) ∈ listing f (fields_updated (accessor s))
             (map (λ kv, (kv.1, f kv.2)) (under_prefix (client_name (accessor s)) p (store (manager s)))) ↔
  ∃ v, t = f v ∧ listed s p k v.
Proof.
  set (u := fields_updated (accessor s)). set (c := client_name (accessor s)). set (st := store (manager s)).
  assert (∀ k t, (k, t) ∈ map (λ kv, (kv.1, f kv.2)) (under_prefix c p st) ↔
    ∃ v, t = f v ∧ starts_with p k = true ∧ lookup_field c k st = Some v) as Hbase.
  { intros k' t'. rewrite list_elem_of_fmap. split.
    - intros ([k1 v]&[= -> ->]&Hin). apply under_prefix_elem in Hin. by exists v.
    - intros (v&->&Hin). exists (k', v). split; [done|]. by apply under_prefix_elem. }
  unfold listed, view, overlay. fold u c st. unfold listing. case_bool_decide as Hu.
  - rewrite Hbase, Hu. setoid_rewrite lookup_empty. split; intros (v&->&Hv); exists v; split; try done.
    + destruct Hv as [Hp Hv]. split; [done|by left].
    + destruct Hv as [Hv [Hp|[? Hx]]]; [done|done].
  - rewrite merge_updates_elem by apply hash_keys. setoid_rewrite hash_elem. rewrite list_elem_of_filter, Hbase. cbn [fst].
    destruct (u !! k) as [[v0|]|] eqn:Huk; cbn [field_has_been_deleted].
    + split; [intros [(v&[= ->]&->)|[Hno _]]; [exists v; by eauto|by destruct (Hno v0)]|].
      intros (v&->&[= ->]&_). left. by exists v.
    + split; [intros [(v&?&_)|[_ [? _]]]; done|]. intros (v&_&?&_). done.
    + split.
      * intros [(v&?&_)|[_ [_ (v&->&Hp&Hv)]]]; [done|]. exists v. by eauto.
      * intros (v&->&Hv&[Hp|[? ?]]); [|done]. right. split; [done|]. split; [done|]. by exists v.
Qed.

Lemma acc_list_prefix_eq p s :
  acc_list_prefix p s
  = (Ok (listing value_to_type (fields_updated (accessor s))
           (map (λ kv, (kv.1, value_to_type kv.2)) (under_prefix (client_name (accessor s)) p (store (manager s))))), s).
Proof.
  unfold acc_list_prefix, listing. rewrite bind_get_store, list_prefix_under. by destruct (bool_decide _).
Qed.
Lemma acc_get_prefix_eq p s : calm (manager s) →
  ∃ f, failures f = 0%nat ∧
    acc_get_prefix p s
    = (Ok (listing id (fields_updated (accessor s))
             (map (λ kv, (kv.1, id kv.2)) (under_prefix (client_name (accessor s)) p (store (manager s))))),
       {| accessor := accessor s; manager := with_faults f (manager s) |}).
Proof.
  intros Hs. set (c := client_name (accessor s)). set (u := fields_updated (accessor s)).
  set (l := under_prefix c p (store (manager s))).
  assert (map (λ kv, (kv.1, id kv.2)) l = l) as ->.
  { induction l as [|[k v] l IH]; [done|]. cbn [map fst snd]. by rewrite IH. }
  destruct (yields_calm _ _ _ (yields_clone_all l) Hs) as (f1&Hf1&Hc1).
  set (s1 := {| accessor := accessor s; manager := with_faults f1 (manager s) |}).
  assert (on_manager (get_prefix c p) s = (Ok l, s1)) as Hget.
  { unfold on_manager. rewrite get_prefix_under. fold l. by rewrite Hf1. }
  unfold acc_get_prefix, listing. rewrite bind_get_store. fold c u. rewrite (bind_ok _ _ _ _ _ Hget).
  destruct (bool_decide _); [by exists f1|].
  destruct (yields_calm _ _ _ (yields_clone_updates (hash_order u)) Hc1) as (f2&Hf2&Hc2).
  exists f2. split; [done|]. unfold bind, on_manager, s1. cbn [manager accessor]. by rewrite Hf2.
Qed.

(** * Requests *)
Lemma listed_abs c bytes ro s a p k v :
  represents c bytes ro s a → listed s p k v ↔ a_listed a p k = Some v.
Proof.
  intros Hrep. unfold listed, a_listed. rewrite (rp_view _ _ _ _ _ Hrep), <- (rp_pending _ _ _ _ _ Hrep).
  destruct (starts_with p k); cbn [orb]; [naive_solver|]. case_bool_decide; naive_solver.
Qed.
Lemma listing_lists {T : Type} (f : Value → T) c bytes ro s a p :
  represents c bytes ro s a →
  lists (listing f (fields_updated (accessor s))
          (map (λ kv, (kv.1, f kv.2)) (under_prefix (client_name (accessor s)) p (store (manager s)))))
        (λ k, f <$> a_listed a p k).
Proof.
  intros Hrep. split; [apply listing_keys, stored_keys|]. intros k t. rewrite listing_elem.
  setoid_rewrite (listed_abs _ _ _ _ _ p k _ Hrep). rewrite fmap_Some. naive_solver.
Qed.
Lemma op_refines c bytes ro op s a :
  represents c bytes ro s a →
  ∃ r s', run_op op s = (r, s') ∧ answers r (abs_op c bytes ro op a).1 ∧ represents c bytes ro s' (abs_op c bytes ro op a).2.
Proof.
  intros Hrep. pose proof (rp_read_only _ _ _ _ _ Hrep) as Hro. pose proof (rp_bytes _ _ _ _ _ Hrep) as Hby.
  pose proof (λ k, view_represents _ _ _ _ _ k Hrep) as Hview.
  destruct op as [key|key val|key|prefix|prefix|prefix|]; cbn [run_op abs_op].
  - destruct (get_value_view key s (rp_calm _ _ _ _ _ Hrep)) as (f&Hf&Hget).
    rewrite (rp_view _ _ _ _ _ Hrep), Hby in Hget. destruct (a_view a key) as [[]|];
      try (eexists _, _; split_and!; [by apply reply_ok|done|by apply represents_faults]).
    destruct bytes; eexists _, _; split_and!; [by apply reply_ok|done|by apply represents_faults|by apply reply_err|done|done].
  - destruct ro; [eexists _, s; split_and!; [apply reply_err; unfold acc_set_value; by rewrite bind_get_store, Hro|done|done]|].
    destruct (negb bytes && is_bytes val) eqn:Hb.
    { exists (Err BytesDisabled), s. split_and!; [|done|done]. apply reply_err. unfold acc_set_value. by rewrite bind_get_store, Hro, Hby, Hb. }
    eexists _, _. split_and!; [apply (reply_ok (λ _, RUnit) _ _ tt); unfold acc_set_value; by rewrite bind_get_store, Hro, Hby, Hb|done|].
    apply represents_updated; [done| |].
    + intros k. rewrite overlay_insert. case_decide; [done|]. apply Hview.
    + intros k. rewrite pending_insert. by rewrite (rp_pending _ _ _ _ _ Hrep).
  - destruct ro; [eexists _, s; split_and!; [apply reply_err; unfold acc_delete_value; by rewrite bind_get_store, Hro|done|done]|].
    eexists _, _. split_and!; [apply (reply_ok (λ _, RUnit) _ _ tt); unfold acc_delete_value; by rewrite bind_get_store, Hro|done|].
    apply represents_updated; [done| |].
    + intros k. rewrite overlay_insert. case_decide; [done|]. apply Hview.
    + intros k. rewrite pending_insert. by rewrite (rp_pending _ _ _ _ _ Hrep).
  - eexists _, s. split_and!; [apply reply_ok, acc_list_prefix_eq| |done]. by eapply listing_lists.
  - destruct (acc_get_prefix_eq prefix s (rp_calm _ _ _ _ _ Hrep)) as (f&Hf&Hget).
    eexists _, _. split_and!; [by apply reply_ok| |by apply represents_faults].
    cbn [answers fst]. destruct (listing_lists id c bytes ro s a prefix Hrep) as [Hnd Hl]. split; [done|].
    intros k v. rewrite Hl. by rewrite option_fmap_id.
  - destruct ro; [eexists _, s; split_and!; [apply reply_err; unfold acc_delete_prefix; by rewrite bind_get_store, Hro|done|done]|].
    pose proof (λ k, delete_prefix_view prefix s k Hro) as Hdel. pose proof (λ k, delete_prefix_pending prefix s k Hro) as Hpend.
    eexists _, _. split_and!; [apply (reply_ok (λ _, RUnit) _ _ tt); unfold acc_delete_prefix; by rewrite bind_get_store, Hro|done|].
    apply represents_updated; [done| |].
    + intros k. rewrite <- (rp_view _ _ _ _ _ Hrep), <- Hdel.
      unfold acc_delete_prefix. by rewrite bind_get_store, Hro, <- (rp_client _ _ _ _ _ Hrep).
    + intros k. rewrite <- (rp_pending _ _ _ _ _ Hrep), <- (rp_committed _ _ _ _ _ Hrep), <- (rp_client _ _ _ _ _ Hrep).
      rewrite <- Hpend. unfold acc_delete_prefix. by rewrite bind_get_store, Hro.
  - destruct ro; [eexists _, s; split_and!; [apply reply_err; unfold commit; by rewrite bind_get_store, Hro|done|done]|].
    destruct (commit_refines c bytes s a Hrep) as (s'&Hc&Hrep'). eexists _, s'.
    split_and!; [by apply (reply_ok (λ _, RUnit) _ _ tt)|done|done].
Qed.
Lemma run_refines c bytes ro ops s a :
  represents c bytes ro s a →
  ∃ rs s', run ops s = (rs, s') ∧ Forall2 answers rs (abs_run c bytes ro ops a).1 ∧
    represents c bytes ro s' (abs_run c bytes ro ops a).2.
Proof.
  revert s a. induction ops as [|op ops IH]; intros s a Hrep; [by exists [], s|].
  destruct (op_refines c bytes ro op s a Hrep) as (r&s1&Hr&Hans&Hrep1).
  cbn [run abs_run]. rewrite Hr. destruct (abs_op c bytes ro op a) as [r' a1]. cbn [fst snd] in Hans, Hrep1.
  destruct r as [r|e| |], r' as [r'|e'| |]; try (by destruct r); try done.
  - destruct (IH s1 a1 Hrep1) as (rs&s2&Hrs&Hans2&Hrep2). rewrite Hrs.
    destruct (abs_run c bytes ro ops a1) as [rs' a2]. exists (Ok r :: rs), s2. split_and!; [done|by constructor|done].
  - eexists _, s1. split_and!; [done|by repeat constructor|done].
Qed.
End listing.

(** * Iterators *)

(** The parts a client gets until it gets an empty one. *)
Fixpoint drain {T : Type} (fuel : nat) (chunk_size : nat) (results : list T) : list (list T) :=
  match fuel with
  | O => []
  | S fuel =>
      match get_next chunk_size results with
      | ([], _) => []
      | (chunk, results) => chunk :: drain fuel chunk_size results
      end
  end.
Lemma drain_spec {T : Type} n fuel (l : list T) :
  (0 < n)%nat → (length l ≤ fuel)%nat →
  concat (rev (drain fuel n l)) = l ∧ Forall (λ chunk, (0 < length chunk ≤ n)%nat) (drain fuel n l) ∧
  (length (drain fuel n l) ≤ length l)%nat.
Proof.
  intros Hn. revert l. induction fuel as [|fuel IH]; intros l Hl.
  { destruct l; [done|simpl in Hl; lia]. }
  cbn [drain]. unfold get_next. set (k := (length l - Nat.min n (length l))%nat).
  assert (length (drop k l) = Nat.min n (length l)) as Hd by (rewrite length_drop; lia).
  destruct (drop k l) as [|x chunk] eqn:Hdrop.
  { simpl in Hd. destruct l; [done|simpl in Hd; lia]. }
  destruct (IH (take k l)) as (Hc&Hf&Hlen); [rewrite length_take; simpl in Hd; lia|]. cbn [rev length].
  rewrite concat_app, Hc. cbn [concat]. rewrite app_nil_r, <- Hdrop, take_drop. split; [done|]. split.
  - apply Forall_cons. split; [rewrite Hdrop, Hd; simpl in Hd; lia|done].
  - rewrite length_take in Hlen. simpl in Hd. lia.
Qed.

(** * Reading a file of any bytes *)
Section reading_ends.
Context `{!ByteOrder, !HashOrder}.

(** The cursor is inside its bytes, and [fuel] is more than what is left. *)
Definition inside (c : Cursor) : Prop := 0 ≤ position c ≤ zlen (cursor_bytes c).
Definition left_in (c : Cursor) : Z := zlen (cursor_bytes c) - position c.
Definition moves (c c' : Cursor) : Prop :=
  cursor_bytes c' = cursor_bytes c ∧ inside c' ∧ position c ≤ position c'.

Lemma cursor_read_moves n c bs c' : inside c → cursor_read n c = (bs, c') → moves c c' ∧ position c' = position c + zlen bs.
Proof.
  intros Hc [= <- <-]. unfold moves, inside in *. cbn [position cursor_bytes].
  pose proof (zlen_nonneg (slice (position c) n (cursor_bytes c))).
  enough (zlen (slice (position c) n (cursor_bytes c)) ≤ zlen (cursor_bytes c) - position c) by (repeat split; lia).
  unfold slice, zlen in *. rewrite length_take, length_drop. lia.
Qed.
Lemma cur_int_moves n c v c' : inside c → cur_int n c = Ok (v, c') → moves c c' ∧ position c' = position c + n.
Proof.
  intros Hc. unfold cur_int, read_exact. destruct (cursor_read n c) as [bs c1] eqn:E.
  destruct (Z.eqb_spec (zlen bs) n) as [Hn|]; [|done]. intros [= _ <-].
  apply cursor_read_moves in E as [Hm Hp]; [|done]. split; [done|lia].
Qed.
Lemma cur_buf_moves n c v c' : inside c → cur_buf n c = Ok (v, c') → moves c c'.
Proof.
  intros Hc. unfold cur_buf. destruct (_ <? _); [|done]. destruct (cursor_read n c) as [bs c1] eqn:E.
  intros [= _ <-]. by apply cursor_read_moves in E as [Hm _].
Qed.
Lemma moves_trans c1 c2 c3 : moves c1 c2 → moves c2 c3 → moves c1 c3.
Proof. intros (H1'&_&H2') (H3'&Hi&H4'). split; [congruence|]. split; [done|lia]. Qed.

Lemma cur_int_ends n c : cur_int n c ≠ OutOfFuel.
Proof. unfold cur_int. by destruct (read_exact n c) as [[] ?]. Qed.
Lemma cur_buf_ends n c : cur_buf n c ≠ OutOfFuel.
Proof. unfold cur_buf. destruct (_ <? _); [|done]. by destruct (cursor_read n c). Qed.
Lemma pure_call_ends s : fst (pure_call s) ≠ OutOfFuel.
Proof. unfold pure_call, syscall. by destruct (faults s) as [|[[]|]]. Qed.
Lemma value_from_bytes_ends typ bytes s : fst (value_from_bytes typ bytes s) ≠ OutOfFuel.
Proof.
  unfold value_from_bytes, read_int_of. repeat (case_match; try done).
  all: try (apply bind_ends; [done|]; intros; done).
  apply bind_ends; [apply pure_call_ends|]. intros. apply bind_ends; [apply pure_call_ends|]. done.
Qed.

Lemma entries_loop_ends fuel count data c s :
  inside c → left_in c < Z.of_nat fuel →
  fst (entries_loop fuel count data c s) ≠ OutOfFuel ∧
  ∀ d c' s', entries_loop fuel count data c s = (Ok (d, c'), s') → moves c c'.
Proof.
  revert count data c s. induction fuel as [|fuel IH]; intros count data c s Hc Hf; [unfold left_in, inside in *; lia|].
  cbn [entries_loop]. destruct (count <=? 0).
  { split; [done|]. intros d c' s' [= _ <- _]. by split; [|split]. }
  unfold bind, lift.
  destruct (cur_int 8 c) as [[kl c1]| | |] eqn:E1; [|done|done|by apply cur_int_ends in E1].
  apply cur_int_moves in E1 as [M1 P1]; [|done].
  destruct (cur_buf kl c1) as [[kb c2]| | |] eqn:E2; [|done|done|by apply cur_buf_ends in E2].
  apply cur_buf_moves in E2; [|apply M1].
  destruct (cur_buf 1 c2) as [[vt c3]| | |] eqn:E3; [|done|done|by apply cur_buf_ends in E3].
  apply cur_buf_moves in E3; [|apply E2].
  destruct (head vt); [|done]. cbn [ounwrap].
  destruct (cur_int 8 c3) as [[vl c4]| | |] eqn:E4; [|done|done|by apply cur_int_ends in E4].
  apply cur_int_moves in E4 as [M4 _]; [|apply E3].
  destruct (cur_buf vl c4) as [[vb c5]| | |] eqn:E5; [|done|done|by apply cur_buf_ends in E5].
  apply cur_buf_moves in E5; [|apply M4].
  destruct (utf8_valid kb); [|done]. pose proof (value_from_bytes_ends z vb s) as Hv.
  destruct (value_from_bytes z vb s) as [[v| | |] s1]; try done.
  pose proof (moves_trans _ _ _ E2 (moves_trans _ _ _ E3 (moves_trans _ _ _ M4 E5))) as M15.
  pose proof (moves_trans _ _ _ M1 M15) as (Hb&Hi&_). destruct M15 as (_&_&Hle).
  destruct (IH (count - 1) (<[kb := v]> data) c5 s1 Hi) as [Hends Hmoves].
  { unfold left_in in *. rewrite Hb. lia. }
  split; [exact Hends|]. intros d c' s' Hok. apply Hmoves in Hok.
  apply (moves_trans _ c5); [|done]. split; [done|]. split; [done|]. lia.
Qed.
Lemma clients_loop_ends fuel res c s :
  inside c → left_in c < Z.of_nat fuel → fst (clients_loop fuel res c s) ≠ OutOfFuel.
Proof.
  revert res c s. induction fuel as [|fuel IH]; intros res c s Hc Hf; [unfold left_in, inside in *; lia|].
  cbn [clients_loop]. destruct (_ <=? _); [done|]. unfold bind, lift.
  destruct (cur_int 8 c) as [[nl c1]| | |] eqn:E1; [|done|done|by apply cur_int_ends in E1].
  apply cur_int_moves in E1 as [M1 P1]; [|done].
  destruct (cur_buf nl c1) as [[nb c2]| | |] eqn:E2; [|done|done|by apply cur_buf_ends in E2].
  apply cur_buf_moves in E2; [|apply M1].
  destruct (cur_int 8 c2) as [[ce c3]| | |] eqn:E3; [|done|done|by apply cur_int_ends in E3].
  apply cur_int_moves in E3 as [M3 _]; [|apply E2].
  pose proof (moves_trans _ _ _ M1 (moves_trans _ _ _ E2 M3)) as (Hb&Hi&_).
  assert (position c + 8 ≤ position c3) as Hle by (destruct E2 as (_&_&?), M3 as (_&_&?); lia).
  destruct (entries_loop_ends (length (cursor_bytes c3)) ce ∅ c3 s Hi) as [Hends Hmoves].
  { unfold left_in, zlen. unfold inside in Hc. lia. }
  destruct (entries_loop (length (cursor_bytes c3)) ce ∅ c3 s) as [[[d c4]| | |] s1]; try done.
  destruct (Hmoves _ _ _ eq_refl) as (Hb4&Hi4&Hle4). destruct (utf8_valid nb); [|done].
  apply IH; [done|]. unfold left_in in *. rewrite Hb4, Hb. lia.
Qed.
End reading_ends.
