(* ===== verification/StashClaims.v ===== *)
(** What the stash promises: stores survive a restart, commits are all or nothing,
    the backing file is never half written, accessors refine a machine of two maps,
    listings and iterators return what that machine holds, and reading any file
    ends. *)

From S2P Require Import Prelude Std Stash StashAccessor StashService StashCommit StashSession StashListing.

Section claims.
Context `{!ByteOrder, !HashOrder, !ByteOrderSpec, !HashOrderSpec}.

(** Opening a file that holds a store. *)
Lemma store_manager_new_ok st s :
  store_ok st → calm s → backing_file s = Some (bytes_of st) →
  ∃ f, store_manager_new s = (Ok tt, with_store st (with_faults f s)).
Proof.
  intros Hst Hs Hb. unfold store_manager_new. destruct (yields_calm _ _ _ yields_pure_call Hs) as (f1&Hf1&Hc1).
  rewrite (bind_ok _ _ _ _ _ Hf1), bind_get_store. cbn [backing_file with_faults]. rewrite Hb.
  destruct (yields_calm _ _ _ (deserialize_ok st Hst) Hc1) as (f2&Hf2&_).
  rewrite (bind_ok _ _ _ _ _ Hf2). by exists f2.
Qed.

(** C36: A store that is saved is the store that is read when the service starts again,
    in whatever order the hash maps are iterated. *)
Theorem stash_roundtrip (s s2 : State) :
  store_ok (store s) → calm s → calm s2 →
  ∃ s', save_store s = (Ok tt, s') ∧
    (backing_file s2 = backing_file s' → ∃ s2', store_manager_new s2 = (Ok tt, s2') ∧ store s2' = store s).
Proof.
  intros Hst Hs Hs2. destruct (save_outcome s) as [(f&Hsave&_)|(e&s'&_&_&Hlt)]; [|unfold calm in Hs; lia].
  eexists. split; [exact Hsave|]. intros Hb. cbn [backing_file saved store with_faults] in Hb.
  destruct (store_manager_new_ok _ s2 Hst Hs2 Hb) as (f2&Hnew). eexists. split; [exact Hnew|done].
Qed.

(** C33: A commit applies all the pending updates of its accessor, to its client only,
    and writes the resulting store to the backing file; it always does when no
    system call fails.  When it fails and no second call fails while it takes the
    updates back, every value is what it was.  Either way nothing is left pending. *)
Theorem stash_commit_correct (s : Session) :
  read_only (accessor s) = false →
  let c := client_name (accessor s) in
  let before c' k := get_value c' k (manager s) in
  ∃ r s', commit s = (r, s') ∧ fields_updated (accessor s') = ∅ ∧
    let after c' k := get_value c' k (manager s') in
    (r = Ok tt →
       (∀ k, after c k = match fields_updated (accessor s) !! k with Some o => o | None => before c k end) ∧
       (∀ c' k, c' ≠ c → after c' k = before c' k) ∧
       (fields_updated (accessor s) ≠ ∅ → backing_file (manager s') = Some (bytes_of (store (manager s'))))) ∧
    (r ≠ Ok tt → failures (faults (manager s)) = 1%nat → ∀ c' k, after c' k = before c' k) ∧
    (calm (manager s) → r = Ok tt) ∧
    (r = Ok tt ∨ ∃ e, r = Err (Sys e)).
Proof.
  intros Hro. cbv zeta. destruct (commit_spec s Hro) as (r&st'&Hc&_&Hr). exists r, (reset s st').
  split; [done|]. split; [done|]. cbn [manager reset]. unfold calm.
  destruct Hr as [(->&Hk&Hb)|((e&->)&Hlt&Hrev)].
  - split_and!; [|done|done|by left]. intros _. split; [|split; [|done]].
    + intros k. specialize (Hk (client_name (accessor s)) k). by rewrite decide_True in Hk.
    + intros c' k Hne. specialize (Hk c' k). by rewrite decide_False in Hk.
  - split_and!; [done|by intros _; apply Hrev|lia|right; by exists e].
Qed.

(** C34: However the requests of connections and accessors interleave and whatever
    system calls fail, partial writes included, the backing file of a service that
    started from a good file holds a whole store, which the service reads when it
    starts again. *)
Theorem stash_backing_intact (opts : StashSettings) (s s2 : State) (svc : Service) (evs : list Event) (bs : list Z) :
  file_ok s → start opts s = Ok svc → Forall event_ok evs →
  backing_file (service_manager (foldl (flip serve) svc evs)) = Some bs → zlen bs < 2 ^ 64 →
  calm s2 → backing_file s2 = Some bs →
  ∃ svc2, start opts s2 = Ok svc2 ∧ store_wf (store (service_manager svc2)) ∧
    bs = bytes_of (store (service_manager svc2)).
Proof.
  intros Hs Hstart Hev Hb Hlen Hs2 Hb2. pose proof (start_wf _ _ _ Hs Hstart) as Hwf.
  destruct (sw_manager _ (foldl_serve_wf evs svc Hev Hwf)) as [_ Hsafe].
  destruct (Hsafe bs Hb) as (st&Hst&->). pose proof (store_wf_ok st Hst Hlen) as Hok.
  destruct (store_manager_new_ok st s2 Hok Hs2 Hb2) as (f&Hnew). unfold start. rewrite Hnew.
  eexists. split; [reflexivity|]. done.
Qed.

(** C37: A value of a client changes only by a commit of an accessor that can write, which was
    created by a connection that had identified itself as that client, and as no other, before. *)
Theorem stash_isolation (opts : StashSettings) (s : State) (svc : Service) (evs : list Event) (e : Event) (c : ClientName) (k : Key) :
  file_ok s → start opts s = Ok svc → Forall event_ok evs → event_ok e →
  let svc' := foldl (flip serve) svc evs in
  get_value c k (service_manager (serve e svc')) ≠ get_value c k (service_manager svc') →
  ∃ i j evs1 evs2, e = OnAccessor i Commit ∧ evs = evs1 ++ OnConnection j (CreateAccessor false) :: evs2 ∧
    length (accessors (foldl (flip serve) svc evs1)) = i ∧ identifications j 0 evs1 = [c].
Proof.
  intros Hs Hstart Hev He svc' Hne. pose proof (start_wf _ _ _ Hs Hstart) as Hwf.
  destruct (serve_change e svc' c k (foldl_serve_wf evs svc Hev Hwf) He Hne) as (i&acc&->&Hi&<-&Hro).
  assert (connections svc = [] ∧ accessors svc = []) as [Hc0 Ha0].
  { unfold start in Hstart. destruct (store_manager_new s) as [[]]; try done. by injection Hstart as <-. }
  destruct (tr_accessors _ _ _ (traced_run svc evs Hc0 Ha0) i acc Hi) as (j&evs1&evs2&Hevs&Hlen&Hid).
  rewrite Hro in Hevs. by exists i, j, evs1, evs2.
Qed.

(** C35: While no system call fails, an accessor refines a machine of two maps: reads see the
    pending updates over the committed values, listings show what the client sees under the
    prefix and under the keys with an update pending, each key once, a read-only accessor changes
    nothing, byte buffers are refused where they are not enabled, and a commit makes the client's
    view the committed values.  The replies to a sequence of requests, up to the
    first that fails, are the machine's. *)
Theorem stash_session_refines (c : ClientName) (bytes ro : bool) (ops : list StoreAccessorRequest) (st : State) :
  calm st →
  let a := {| a_committed := λ c' k, get_value c' k st; a_view := λ k, get_value c k st; a_pending := λ _, false |} in
  let s := {| accessor := accessor_new bytes ro c; manager := st |} in
  Forall2 answers (run ops s).1 (abs_run c bytes ro ops a).1 ∧
  (∀ c' k, get_value c' k (manager (run ops s).2) = a_committed (abs_run c bytes ro ops a).2 c' k).
Proof.
  intros Hst a s.
  assert (represents c bytes ro s a) as Hrep by (split; try done; intros k; cbn; by rewrite lookup_empty).
  destruct (run_refines c bytes ro ops s a Hrep) as (rs&s'&->&Hans&Hrep'). split; [done|].
  intros c' k. apply (rp_committed _ _ _ _ _ Hrep').
Qed.

(** C40: The listings of an accessor: each key once, with the value its client sees, for
    the stored keys under the prefix and for every key with a pending value. *)
Theorem stash_listings (s : Session) (p : Key) :
  calm (manager s) →
  (∃ l, acc_list_prefix p s = (Ok l, s) ∧ NoDup l.*1 ∧
     ∀ k ty, (k, ty) ∈ l ↔ ∃ v, ty = value_to_type v ∧ listed s p k v) ∧
  (∃ l s', acc_get_prefix p s = (Ok l, s') ∧ store (manager s') = store (manager s) ∧ NoDup l.*1 ∧
     ∀ k v, (k, v) ∈ l ↔ listed s p k v).
Proof.
  intros Hs. split.
  - eexists. split; [apply acc_list_prefix_eq|]. split; [apply listing_keys, stored_keys|]. intros k ty. apply listing_elem.
  - destruct (acc_get_prefix_eq p s Hs) as (f&_&Hget). eexists _, _. split; [exact Hget|]. split; [done|].
    split; [apply listing_keys, stored_keys|]. intros k v. rewrite (listing_elem id). unfold id. split; [|by exists v].
    by intros (v'&->&Hv).
Qed.
End claims.

(** A client that asks an iterator for parts gets all the results, in parts that
    are neither empty nor too long, and then an empty part. *)
Theorem stash_iterator_drains (T : Type) (chunk_size : nat) (results : list T) :
  (0 < chunk_size)%nat →
  concat (rev (drain (length results) chunk_size results)) = results ∧
  Forall (λ chunk, (0 < length chunk ≤ chunk_size)%nat) (drain (length results) chunk_size results) ∧
  get_next chunk_size ([] : list T) = ([], []).
Proof.
  intros Hn. destruct (drain_spec chunk_size (length results) results Hn (Nat.le_refl _)) as (Hc&Hf&_).
  split; [done|]. split; [done|]. unfold get_next. cbn [length]. by destruct (_ - _)%nat.
Qed.

(** Reading a backing file ends, whatever bytes it holds: with a store, an error or
    a panic. *)
Theorem stash_deserialize_ends `{!ByteOrder} (bytes : list Z) (s : State) :
  fst (deserialize bytes s) ≠ OutOfFuel.
Proof.
  apply clients_loop_ends; unfold inside, left_in; cbn [position cursor_bytes].
  - pose proof (zlen_nonneg bytes). lia.
  - unfold zlen. lia.
Qed.

(** * Witnesses *)
#[local] Existing Instances le_order le_order_spec.
#[export] Instance map_order : HashOrder := λ V m, map_to_list m.
#[export] Instance map_order_spec : HashOrderSpec.
Proof. intros V m. reflexivity. Qed.

(** Client [c] with a number under [a] and a buffer under [ab]. *)
Definition small_store : Store :=
  {[ [99] := <[ [97] := Intval (-5) ]> {[ [97; 98] := Bytesval [1; 2; 3] ]} ]}.
Definition small_state (f : list (option (io_error * nat))) : State :=
  {| store := small_store; temp_file := None; backing_file := Some (bytes_of small_store); faults := f |}.
(** An accessor of [c] that sets [b] and deletes [a]. *)
Definition small_session (f : list (option (io_error * nat))) : Session :=
  {| accessor := {| client_name := [99]; enable_bytes := true; read_only := false;
                    fields_updated := <[ [98] := Some (Boolval true) ]> {[ [97] := None ]} |};
     manager := small_state f |}.

Lemma small_fields c m : small_store !! c = Some m →
  c = [99] ∧ m = <[ [97] := Intval (-5) ]> {[ [97; 98] := Bytesval [1; 2; 3] ]}.
Proof. unfold small_store. intros [<- <-]%lookup_singleton_Some. done. Qed.
Lemma small_wf : store_wf small_store.
Proof.
  intros c m [-> ->]%small_fields. split; [done|]. intros k v.
  rewrite lookup_insert_Some, lookup_singleton_Some. intros [[<- <-]|[_ [<- <-]]]; done.
Qed.
Lemma small_ok : store_ok small_store.
Proof.
  intros c m Hm. destruct (small_wf c m Hm) as [Hc Hf]. split; [done|]. split; [|done].
  apply small_fields in Hm as [_ ->]. reflexivity.
Qed.
Lemma small_file f : file_ok (small_state f).
Proof.
  intros bs Hbs. change (Some (bytes_of small_store) = Some bs) in Hbs. apply (inj Some) in Hbs. rewrite <- Hbs.
  split; [vm_compute; reflexivity|]. exists small_store. split; [apply small_wf|done].
Qed.

Lemma stash_roundtrip_witness : ∃ s', save_store (small_state []) = (Ok tt, s') ∧
  ∃ s2', store_manager_new {| store := ∅; temp_file := None; backing_file := backing_file s'; faults := [] |} = (Ok tt, s2') ∧
    store s2' = small_store.
Proof.
  destruct (stash_roundtrip (small_state [])
    {| store := ∅; temp_file := None; backing_file := Some (bytes_of small_store); faults := [] |}
    small_ok eq_refl eq_refl) as (s'&Hs'&Hnew).
  exists s'. split; [exact Hs'|]. assert (backing_file s' = Some (bytes_of small_store)) as Hb.
  { vm_compute in Hs'. injection Hs' as <-. vm_compute. reflexivity. }
  rewrite Hb. apply Hnew. by rewrite Hb.
Defined.

(** The second save of this commit fails, and the updates are taken back. *)
Lemma stash_commit_correct_witness :
  let s := small_session (replicate 6 None ++ [Some (unexpected_eof, 2%nat)]) in
  ∃ r s', commit s = (r, s') ∧ r ≠ Ok tt ∧ (∀ c k, get_value c k (manager s') = get_value c k (manager s)).
Proof.
  cbv zeta. destruct (stash_commit_correct (small_session (replicate 6 None ++ [Some (unexpected_eof, 2%nat)])) eq_refl)
    as (r&s'&Hc&_&_&Hrev&_&_).
  exists r, s'. split; [exact Hc|]. assert (r ≠ Ok tt) as Hr.
  { change r with (fst (r, s')). rewrite <- Hc. vm_compute. discriminate. }
  split; [exact Hr|]. apply Hrev; [exact Hr|]. reflexivity.
Defined.

(** The calls after the first seven fail, in the middle of a commit. *)
Definition busy_service : result StashError Service :=
  start default_settings (small_state (replicate 7 None ++ replicate 8 (Some (unexpected_eof, 3%nat)))).
Definition busy_events : list Event :=
  [Connect; OnConnection 0 (Identify [99]); OnConnection 0 (CreateAccessor false);
   OnAccessor 0 (SetValue [97; 99] (Intval 7)); OnAccessor 0 (DeleteValue [97]); OnAccessor 0 Commit].
Lemma busy_events_ok : Forall event_ok busy_events.
Proof. repeat constructor; done. Qed.
Lemma stash_backing_intact_witness : ∃ svc bs svc2, busy_service = Ok svc ∧
  backing_file (service_manager (foldl (flip serve) svc busy_events)) = Some bs ∧
  start default_settings {| store := ∅; temp_file := None; faults := []; backing_file := Some bs |} = Ok svc2 ∧
  bs = bytes_of (store (service_manager svc2)).
Proof.
  destruct busy_service as [svc| | |] eqn:Hsvc; try (exfalso; vm_compute in Hsvc; discriminate).
  destruct (backing_file (service_manager (foldl (flip serve) svc busy_events))) as [bs|] eqn:Hb.
  2: { exfalso. vm_compute in Hsvc. injection Hsvc as <-. vm_compute in Hb. discriminate. }
  assert (zlen bs < 2 ^ 64) as Hlen.
  { vm_compute in Hsvc. injection Hsvc as <-. vm_compute in Hb. injection Hb as <-. reflexivity. }
  destruct (stash_backing_intact default_settings _ {| store := ∅; temp_file := None; faults := []; backing_file := Some bs |}
    svc busy_events bs (small_file _) Hsvc busy_events_ok Hb Hlen eq_refl eq_refl) as (svc2&Hstart&_&Hbs).
  exists svc, bs, svc2. exact (conj eq_refl (conj Hb (conj Hstart Hbs))).
Defined.

(** Two connections; the second one's accessor commits. *)
Definition quiet_service : result StashError Service := start default_settings (small_state []).
Definition quiet_events : list Event :=
  [Connect; Connect; OnConnection 0 (Identify [100]); OnConnection 1 (Identify [99]); OnConnection 0 (CreateAccessor false);
   OnConnection 1 (CreateAccessor false); OnAccessor 1 (DeleteValue [97])].
Lemma quiet_events_ok : Forall event_ok quiet_events.
Proof. repeat constructor; done. Qed.
Lemma stash_isolation_witness : ∃ i j evs1 evs2, OnAccessor 1 Commit = OnAccessor i Commit ∧
  quiet_events = evs1 ++ OnConnection j (CreateAccessor false) :: evs2 ∧ identifications j 0 evs1 = [[99]].
Proof.
  destruct quiet_service as [svc| | |] eqn:Hsvc; try (exfalso; vm_compute in Hsvc; discriminate).
  destruct (stash_isolation default_settings (small_state []) svc quiet_events (OnAccessor 1 Commit) [99] [97]
    (small_file _) Hsvc quiet_events_ok I) as (i&j&evs1&evs2&He&Hevs&_&Hid).
  - vm_compute in Hsvc. injection Hsvc as <-. vm_compute. discriminate.
  - exists i, j, evs1, evs2. exact (conj He (conj Hevs Hid)).
Defined.

Definition small_ops : list StoreAccessorRequest :=
  [GetValue [97]; SetValue [98] (Boolval true); ListPrefix [97]; DeletePrefix [97]; GetValue [97; 98]; Commit; GetValue [98]].
Definition small_replies : list (result StashError AbsReply) :=
  (abs_run [99] false false small_ops
     {| a_committed := λ c k, get_value c k (small_state []); a_view := λ k, get_value [99] k (small_state []); a_pending := λ _, false |}).1.
Lemma stash_session_refines_witness :
  Forall2 answers (run small_ops {| accessor := accessor_new false false [99]; manager := small_state [] |}).1 small_replies ∧
  small_replies !! 0%nat = Some (Ok (AValue (Some (Intval (-5))))) ∧
  match small_replies !! 2%nat with Some (Ok (ATypes m)) => (m [97; 98], m [98], m [99]) | _ => (None, None, None) end
  = (Some BytesVal, Some BoolVal, None) ∧
  small_replies !! 4%nat = Some (Ok (AValue None)) ∧ small_replies !! 6%nat = Some (Ok (AValue (Some (Boolval true)))).
Proof.
  split; [exact (proj1 (stash_session_refines [99] false false small_ops (small_state []) eq_refl))|].
  split_and!; vm_compute; reflexivity.
Defined.

(** The key [b] is pending, and is listed under the prefix [a]. *)
Lemma stash_listings_witness : ∃ l, acc_list_prefix [97] (small_session []) = (Ok l, small_session []) ∧
  NoDup l.*1 ∧ ([97; 98], BytesVal) ∈ l ∧ ([98], BoolVal) ∈ l.
Proof.
  destruct (proj1 (stash_listings (small_session []) [97] eq_refl)) as (l&Hl&Hnd&Hin).
  exists l. split; [exact Hl|]. split; [exact Hnd|]. split; apply Hin.
  - exists (Bytesval [1; 2; 3]). split; [reflexivity|]. split; [vm_compute; reflexivity|]. left. reflexivity.
  - exists (Boolval true). split; [reflexivity|]. split; [vm_compute; reflexivity|]. right. by eexists.
Defined.

Lemma stash_iterator_drains_witness : concat (rev (drain 5 2 [1; 2; 3; 4; 5])) = [1; 2; 3; 4; 5] ∧
  drain 5 2 [1; 2; 3; 4; 5] = [[4; 5]; [2; 3]; [1]].
Proof. split; [apply (stash_iterator_drains Z 2 [1; 2; 3; 4; 5]); lia|reflexivity]. Defined.

(** * What the source's comments do not say *)

(** "written to disk atomically": when the calls of the second update fail, and
    those that would take the first one back, the file holds half of the commit. *)
Example commit_half_written :
  let s' := (commit (small_session (replicate 4 None ++ replicate 9 (Some (unexpected_eof, 0%nat))))).2 in
  ∃ st, backing_file (manager s') = Some (bytes_of st) ∧
    ¬ (lookup_field [99] [97] st = None ↔ lookup_field [99] [98] st = Some (Boolval true)).
Proof.
  cbv zeta. exists (put_field [99] [98] (Some (Boolval true)) small_store).
  split; [vm_compute; reflexivity|]. vm_compute. intros [_ H]. specialize (H eq_refl). discriminate.
Qed.

(** A file cut short is read with zeroes in place of what is missing. *)
Example truncated_file :
  store_manager_new {| store := ∅; temp_file := None; faults := [];
    backing_file := Some (to_le_bytes 8 1 ++ [99] ++ to_le_bytes 8 1
      ++ to_le_bytes 8 1 ++ [97] ++ [0x03] ++ to_le_bytes 8 4 ++ [100]) |}
  = (Ok tt, {| store := {[ [99] := {[ [97] := Stringval [100; 0; 0; 0] ]} ]}; temp_file := None; faults := [];
      backing_file := Some (to_le_bytes 8 1 ++ [99] ++ to_le_bytes 8 1
      ++ to_le_bytes 8 1 ++ [97] ++ [0x03] ++ to_le_bytes 8 4 ++ [100]) |}).
Proof. vm_compute. reflexivity. Qed.
