(* ===== verification/Wayland.v ===== *)
(** The Wayland wire format: [bin/wayland/core/src/message.rs], [fixed.rs] and the
    message types of [lib.rs].  Handles are represented by their numbers. *)

From S2P Require Import Prelude Std.

(** * [fixed.rs]: a 24.8 fixed point number is its 32 bits *)
Record Fixed := { bits : Z }.
Definition from_bits (v : Z) : Fixed := {| bits := v |}.

(** * Messages *)
Inductive ArgKind :=
| KindInt | KindUint | KindFixed | KindString | KindObject | KindNewId | KindArray | KindHandle.
#[export] Instance ArgKind_eq_dec : EqDecision ArgKind.
Proof. solve_decision. Defined.

Record Message := { byte_buf : Cursor; handle_buf : list Z }.
Record Array := { array_message : Message }.

Inductive Arg :=
| ArgInt (i : Z)
| ArgUint (i : Z)
| ArgFixed (f : Fixed)
| ArgString (s : list Z)
| ArgObject (i : Z)
| ArgNewId (i : Z)
| ArgArray (a : Array)
| ArgHandle (h : Z).

Definition arg_kind (self : Arg) : ArgKind :=
  match self with
  | ArgInt _ => KindInt
  | ArgUint _ => KindUint
  | ArgFixed _ => KindFixed
  | ArgString _ => KindString
  | ArgObject _ => KindObject
  | ArgNewId _ => KindNewId
  | ArgArray _ => KindArray
  | ArgHandle _ => KindHandle
  end.

(** The accessors [as_int], [as_uint] and so on, made by one macro, and [unwrap_int]
    and so on, made by another: [proj] is the pattern of the accessor. *)
Record MismatchedArgKind := { expected : ArgKind; found : ArgKind }.
Definition as_arg {T : Type} (kind : ArgKind) (proj : Arg → option T) (self : Arg) : result MismatchedArgKind T :=
  match proj self with
  | Some x => Ok x
  | None => Err {| expected := kind; found := arg_kind self |}
  end.
Definition unwrap_arg {E T : Type} (proj : Arg → option T) (self : Arg) : result E T :=
  match proj self with
  | Some x => Ok x
  | None => Panic
  end.
Definition int_of (a : Arg) : option Z := match a with ArgInt x => Some x | _ => None end.
Definition uint_of (a : Arg) : option Z := match a with ArgUint x => Some x | _ => None end.
Definition fixed_of (a : Arg) : option Fixed := match a with ArgFixed x => Some x | _ => None end.
Definition object_of (a : Arg) : option Z := match a with ArgObject x => Some x | _ => None end.
Definition new_id_of (a : Arg) : option Z := match a with ArgNewId x => Some x | _ => None end.
Definition string_of (a : Arg) : option (list Z) := match a with ArgString x => Some x | _ => None end.
Definition array_of (a : Arg) : option Array := match a with ArgArray x => Some x | _ => None end.
Definition handle_of (a : Arg) : option Z := match a with ArgHandle x => Some x | _ => None end.

Record MessageHeader := { sender : Z; opcode : Z; length_ : Z }.

(** The errors of [std::io] the code raises or passes on. *)
Inductive IoError := UnexpectedEof | InvalidData | InvalidInput.

(** [-(size as i64) & 3] *)
Definition compute_padding (size : Z) : Z := Z.land (- to_signed 64 size) 3.

Definition new_message : Message :=
  {| byte_buf := {| cursor_bytes := []; position := 0 |}; handle_buf := [] |}.
Definition from_parts (bytes handles : list Z) : Message :=
  {| byte_buf := {| cursor_bytes := bytes; position := 0 |}; handle_buf := handles |}.
Definition is_empty (self : Message) : bool :=
  (zlen (cursor_bytes (byte_buf self)) =? position (byte_buf self))
  && match handle_buf self with [] => true | _ => false end.
Definition clear (self : Message) : Message :=
  {| byte_buf := {| cursor_bytes := []; position := 0 |}; handle_buf := [] |}.
Definition rewind (self : Message) : Message :=
  {| byte_buf := seek_start 0 (byte_buf self); handle_buf := handle_buf self |}.
Definition message_bytes (self : Message) : list Z := cursor_bytes (byte_buf self).
Definition take_parts (self : Message) : list Z * list Z := (cursor_bytes (byte_buf self), handle_buf self).

(** * Arrays *)
Definition new_array : Array := {| array_message := new_message |}.
Definition from_vec (v : list Z) : Array := {| array_message := from_parts v [] |}.
Definition as_slice (self : Array) : list Z := message_bytes (array_message self).
Definition into_vec (self : Array) : list Z := fst (take_parts (array_message self)).
Definition array_len (self : Array) : Z := zlen (message_bytes (array_message self)).

Section message.
Context `{!ByteOrder}.

(** Reads and writes of the cursor; all writes to a vector succeed. *)
Definition set_cursor (c : Cursor) (self : Message) : Message :=
  {| byte_buf := c; handle_buf := handle_buf self |}.
Definition get_position : M IoError Message Z := λ self, (Ok (position (byte_buf self)), self).
Definition set_position (pos : Z) : M IoError Message unit := λ self,
  (Ok tt, set_cursor (seek_start pos (byte_buf self)) self).
Definition put_bytes (bs : list Z) : M IoError Message unit := λ self,
  (Ok tt, set_cursor (cursor_write bs (byte_buf self)) self).
Definition get_bytes (n : Z) : M IoError Message (list Z) := λ self,
  let (r, c) := read_exact n (byte_buf self) in
  (match r with inr bs => Ok bs | inl _ => Err UnexpectedEof end, set_cursor c self).

Definition write_u32 (v : Z) : M IoError Message unit := put_bytes (write_int 4 v).
Definition write_i32 (v : Z) : M IoError Message unit := put_bytes (write_int 4 (to_unsigned 32 v)).
Definition write_uint (v n : Z) : M IoError Message unit := put_bytes (write_int n v).
Definition read_u32 : M IoError Message Z := bs <- get_bytes 4 ;; ret (read_int bs).
Definition read_i32 : M IoError Message Z := bs <- get_bytes 4 ;; ret (to_signed 32 (read_int bs)).
Definition read_uint (n : Z) : M IoError Message Z := bs <- get_bytes n ;; ret (read_int bs).

(** [assert!(position % 4 == 0)] *)
Definition assert_aligned : M IoError Message unit :=
  pos <- get_position ;; if pos mod 4 =? 0 then ret tt else panic.

(** The padding after what was written or read since [pos]. *)
Definition padding_from (pos : Z) : M IoError Message Z :=
  now <- get_position ;; n <- lift (usub now pos) ;; ret (compute_padding n).

Definition write_slice (s : list Z) (null_term : bool) : M IoError Message unit :=
  pos <- get_position ;;
  let len := zlen s mod 2 ^ 32 in
  len <- lift (if null_term then uadd 32 len 1 else Ok len) ;;
  write_u32 len ;;;
  put_bytes s ;;;
  (if null_term then put_bytes [0] else ret tt) ;;;
  pad <- padding_from pos ;;
  (if 0 <? pad then write_uint 0 pad else ret tt) ;;;
  assert_aligned.

(** [vec.pop()] of the terminator; the vector is not empty here. *)
Definition pop_null (vec : list Z) : M IoError Message (list Z) :=
  match last vec with
  | Some term => if negb (term =? 0) then fail InvalidData else ret (removelast vec)
  | None => fail UnexpectedEof
  end.

(** The source allocates [len] bytes before it reads them; that the allocation of a length
    up to 2^32 the message does not hold can fail is not modelled. *)
Definition read_slice (null_term : bool) : M IoError Message (list Z) :=
  pos <- get_position ;;
  len <- read_u32 ;;
  if len =? 0 then ret []
  else
    vec <- get_bytes len ;;
    vec <- (if null_term then pop_null vec else ret vec) ;;
    pad <- padding_from pos ;;
    (if 0 <? pad then read_uint pad ;;; ret tt else ret tt) ;;;
    assert_aligned ;;;
    ret vec.

Definition write_arg (arg : Arg) : M IoError Message unit :=
  match arg with
  | ArgInt i => write_i32 i
  | ArgUint i => write_u32 i
  | ArgFixed i => write_i32 (bits i)
  | ArgObject i => write_u32 i
  | ArgNewId i => write_u32 i
  | ArgString s => write_slice s true
  | ArgArray a => write_slice (as_slice a) false
  | ArgHandle h => λ self, (Ok tt, {| byte_buf := byte_buf self; handle_buf := handle_buf self ++ [h] |})
  end.

Definition read_arg (arg : ArgKind) : M IoError Message Arg :=
  match arg with
  | KindInt => i <- read_i32 ;; ret (ArgInt i)
  | KindUint => i <- read_u32 ;; ret (ArgUint i)
  | KindFixed => i <- read_i32 ;; ret (ArgFixed (from_bits i))
  | KindObject => i <- read_u32 ;; ret (ArgObject i)
  | KindNewId => i <- read_u32 ;; ret (ArgNewId i)
  | KindString => vec <- read_slice true ;; ret (ArgString (from_utf8_lossy vec))
  | KindArray => v <- read_slice false ;; ret (ArgArray (from_vec v))
  | KindHandle => λ self,
      match handle_buf self with
      | h :: handles => (Ok (ArgHandle h), {| byte_buf := byte_buf self; handle_buf := handles |})
      | [] => (Err UnexpectedEof, self)
      end
  end.

(** [collect] and [try_for_each] stop at the first error. *)
Fixpoint read_args (args : list ArgKind) : M IoError Message (list Arg) :=
  match args with
  | [] => ret []
  | arg :: args => a <- read_arg arg ;; rest <- read_args args ;; ret (a :: rest)
  end.
Fixpoint write_args (args : list Arg) : M IoError Message unit :=
  match args with
  | [] => ret tt
  | arg :: args => write_arg arg ;;; write_args args
  end.

(** [word as u16] keeps the low half. *)
Definition read_header : M IoError Message MessageHeader :=
  s <- read_u32 ;;
  word <- read_u32 ;;
  ret {| sender := s; length_ := Z.shiftr word 16 mod 2 ^ 16; opcode := word mod 2 ^ 16 |}.
Definition peek_header : M IoError Message MessageHeader :=
  pos <- get_position ;;
  header <- try read_header ;;
  set_position pos ;;;
  match header with inl h => ret h | inr e => fail e end.
Definition write_header (header : MessageHeader) : M IoError Message unit :=
  write_u32 (sender header) ;;;
  write_u32 (Z.lor (Z.shiftl (length_ header) 16) (opcode header)).

(** ** [Array::push] and [Array::read_arg] *)
Definition on_array {A : Type} (m : M IoError Message A) : M IoError Array A := λ self,
  let (r, msg) := m (array_message self) in (r, {| array_message := msg |}).
Definition array_push (arg : Arg) : M IoError Array unit :=
  match arg with
  | ArgHandle _ => fail InvalidInput
  | _ => on_array (write_arg arg)
  end.
Definition array_read_arg (kind : ArgKind) : M IoError Array Arg :=
  if decide (kind = KindHandle) then fail InvalidInput else on_array (read_arg kind).
End message.
