(* ===== verification/WaylandClaims.v ===== *)
(** What the Wayland wire format promises to both ends of a connection: what is written to a
    message is read back; reading a message another process made up panics for no bytes and no
    handles, and returns the kinds that were asked for. *)

From S2P Require Import Prelude Std Wayland.

(** * Padding and words *)
Lemma padding_spec n : 0 ≤ n < 2 ^ 63 → 0 ≤ compute_padding n < 4 ∧ (n + compute_padding n) mod 4 = 0.
Proof.
  intros Hn. unfold compute_padding, to_signed. change (64 - 1) with 63. rewrite (proj2 (Z.ltb_lt _ _)) by lia.
  change 3 with (Z.ones 2). rewrite Z.land_ones by lia. change (2 ^ 2) with 4.
  pose proof (Z.mod_pos_bound (- n) 4). split; [lia|].
  rewrite Zplus_mod_idemp_r. by replace (n + - n) with 0 by lia.
Qed.
Lemma header_word l o : 0 ≤ l < 2 ^ 16 → 0 ≤ o < 2 ^ 16 → let w := Z.lor (Z.shiftl l 16) o in
  0 ≤ w < 2 ^ 32 ∧ Z.shiftr w 16 mod 2 ^ 16 = l ∧ w mod 2 ^ 16 = o.
Proof.
  intros Hl Ho w. assert (w = l * 2 ^ 16 + o) as ->.
  { subst w. rewrite Z.shiftl_mul_pow2 by lia. pose proof (Z.add_lor_land (l * 2 ^ 16) o) as H.
    assert (Z.land (l * 2 ^ 16) o = 0) as Hz; [|lia]. apply Z.bits_inj'. intros i Hi.
    rewrite Z.land_spec, Z.bits_0. destruct (decide (i < 16)).
    - by rewrite Z.mul_pow2_bits_low.
    - rewrite <- (Z.mod_small o (2 ^ 16)) by lia. rewrite (Z.mod_pow2_bits_high o) by lia. by rewrite andb_false_r. }
  rewrite Z.shiftr_div_pow2, Z.div_add_l, Z.div_small by lia.
  rewrite Z.add_0_r, (Z.mod_small l) by lia. rewrite Z.add_comm, Z_mod_plus_full, Z.mod_small by lia. lia.
Qed.

(** * The wire format *)
Section wire.
Context `{!ByteOrder, !ByteOrderSpec}.

Definition wire_slice (s : list Z) (null_term : bool) : list Z :=
  let body := s ++ (if null_term then [0] else []) in
  let pad := compute_padding (4 + zlen body) in
  write_int 4 (zlen body) ++ body ++ (if 0 <? pad then write_int pad 0 else []).
Definition wire (a : Arg) : list Z :=
  match a with
  | ArgInt i => write_int 4 (to_unsigned 32 i)
  | ArgFixed f => write_int 4 (to_unsigned 32 (bits f))
  | ArgUint i | ArgObject i | ArgNewId i => write_int 4 i
  | ArgString s => wire_slice s true
  | ArgArray a => wire_slice (as_slice a) false
  | ArgHandle _ => []
  end.
Definition wire_handles (a : Arg) : list Z := match a with ArgHandle h => [h] | _ => [] end.

(** Values of their types; strings and arrays whose length fits in 32 bits. *)
Definition arg_ok (a : Arg) : Prop :=
  match a with
  | ArgInt i => - 2 ^ 31 ≤ i < 2 ^ 31
  | ArgFixed f => - 2 ^ 31 ≤ bits f < 2 ^ 31
  | ArgUint i | ArgObject i | ArgNewId i => 0 ≤ i < 2 ^ 32
  | ArgString s => utf8_valid s = true ∧ zlen s + 1 < 2 ^ 32
  | ArgArray a => zlen (as_slice a) < 2 ^ 32
  | ArgHandle _ => True
  end.
(** An array comes back as its bytes, with the cursor at their start. *)
Definition received (a : Arg) : Arg :=
  match a with ArgArray a => ArgArray (from_vec (as_slice a)) | _ => a end.

(** A message being written, and one being read after [pre] and before [post]. *)
Definition writing (bs hs : list Z) : Message :=
  {| byte_buf := {| cursor_bytes := bs; position := zlen bs |}; handle_buf := hs |}.
Definition reading_at (pre rest hs : list Z) : Message :=
  {| byte_buf := {| cursor_bytes := pre ++ rest; position := zlen pre |}; handle_buf := hs |}.

Lemma get_position_ok m : get_position m = (Ok (position (byte_buf m)), m).
Proof. done. Qed.
Lemma put_message_bytes_ok bs hs new : put_bytes new (writing bs hs) = (Ok tt, writing (bs ++ new) hs).
Proof. unfold put_bytes, writing, set_cursor. cbn. by rewrite cursor_write_end, zlen_app. Qed.
Lemma get_bytes_ok pre bs rest hs n : zlen bs = n →
  get_bytes n (reading_at pre (bs ++ rest) hs) = (Ok bs, reading_at (pre ++ bs) rest hs).
Proof.
  intros <-. unfold get_bytes, reading_at, set_cursor. cbn [byte_buf handle_buf].
  rewrite read_exact_app, zlen_app. by rewrite app_assoc.
Qed.

Lemma write_u32_ok v bs hs : write_u32 v (writing bs hs) = (Ok tt, writing (bs ++ write_int 4 v) hs).
Proof. apply put_message_bytes_ok. Qed.
Lemma write_i32_ok v bs hs : write_i32 v (writing bs hs) = (Ok tt, writing (bs ++ write_int 4 (to_unsigned 32 v)) hs).
Proof. apply put_message_bytes_ok. Qed.
Lemma read_u32_ok pre rest hs v : 0 ≤ v < 2 ^ 32 →
  read_u32 (reading_at pre (write_int 4 v ++ rest) hs) = (Ok v, reading_at (pre ++ write_int 4 v) rest hs).
Proof.
  intros Hv. unfold read_u32. step (get_bytes_ok pre (write_int 4 v) rest hs 4 ltac:(by apply write_int_length)).
  unfold ret. by rewrite read_write_int.
Qed.
Lemma read_i32_ok pre rest hs v : - 2 ^ 31 ≤ v < 2 ^ 31 →
  read_i32 (reading_at pre (write_int 4 (to_unsigned 32 v) ++ rest) hs)
  = (Ok v, reading_at (pre ++ write_int 4 (to_unsigned 32 v)) rest hs).
Proof.
  intros Hv. unfold read_i32.
  step (get_bytes_ok pre (write_int 4 (to_unsigned 32 v)) rest hs 4 ltac:(by apply write_int_length)).
  unfold ret. rewrite read_write_int; [|lia|by apply Z.mod_pos_bound]. by rewrite to_signed_unsigned by lia.
Qed.

Lemma wire_slice_length s nt : zlen (s ++ if nt : bool then [0] else []) < 2 ^ 32 → zlen (wire_slice s nt) mod 4 = 0.
Proof.
  unfold wire_slice. set (body := s ++ _). intros Hl.
  destruct (padding_spec (4 + zlen body)) as [Hp Hm]; [unfold zlen in *; lia|].
  rewrite !zlen_app, write_int_length by lia. destruct (Z.ltb_spec 0 (compute_padding (4 + zlen body))).
  - rewrite write_int_length by lia. by rewrite Z.add_assoc.
  - unfold zlen at 2. cbn [length]. replace (compute_padding _) with 0 in Hm by lia. by rewrite !Z.add_0_r in *.
Qed.
Lemma padding_from_ok n bs new hs : zlen new = n →
  padding_from (zlen bs) (writing (bs ++ new) hs) = (Ok (compute_padding n), writing (bs ++ new) hs).
Proof.
  intros <-. unfold padding_from, get_position, bind, lift, ret. cbn. rewrite zlen_app, usub_ok by (unfold zlen; lia).
  do 3 f_equal. lia.
Qed.
Lemma write_slice_ok s (nt : bool) bs hs : zlen bs mod 4 = 0 → zlen (s ++ if nt then [0] else []) < 2 ^ 32 →
  write_slice s nt (writing bs hs) = (Ok tt, writing (bs ++ wire_slice s nt) hs).
Proof.
  intros Hb Hl. pose proof (wire_slice_length s nt Hl) as Hw. revert Hw Hl. unfold wire_slice. set (body := s ++ _). intros Hw Hl.
  assert ((if nt then uadd 32 (zlen s mod 2 ^ 32) 1 else Ok (zlen s mod 2 ^ 32)) = @Ok IoError Z (zlen body)) as Hlen.
  { subst body. rewrite zlen_app in *. unfold zlen in *. destruct nt; cbn [length] in *; rewrite Z.mod_small by lia;
      [by apply uadd_ok; lia|f_equal; lia]. }
  unfold write_slice. step (get_position_ok (writing bs hs)). cbn [writing byte_buf position].
  step Hlen. step (write_u32_ok (zlen body) bs hs). step (put_message_bytes_ok (bs ++ write_int 4 (zlen body)) hs s).
  assert ((if nt then put_bytes [0] else ret tt) (writing ((bs ++ write_int 4 (zlen body)) ++ s) hs)
    = (Ok tt, writing (bs ++ write_int 4 (zlen body) ++ body) hs)) as Hterm.
  { subst body. destruct nt; [rewrite put_message_bytes_ok|unfold ret; rewrite app_nil_r]; by rewrite <- !app_assoc. }
  step Hterm. step (padding_from_ok (4 + zlen body) bs (write_int 4 (zlen body) ++ body) hs
    ltac:(by rewrite zlen_app, write_int_length)).
  set (pad := compute_padding _) in *.
  assert ((if 0 <? pad then write_uint 0 pad else ret tt) (writing (bs ++ write_int 4 (zlen body) ++ body) hs)
    = (Ok tt, writing (bs ++ write_int 4 (zlen body) ++ body ++ if 0 <? pad then write_int pad 0 else []) hs)) as Hpad.
  { destruct (0 <? pad); [unfold write_uint; rewrite put_message_bytes_ok; by rewrite <- !app_assoc|unfold ret; by rewrite app_nil_r]. }
  step Hpad. unfold assert_aligned. rewrite (bind_ok _ _ _ _ _ (get_position_ok _)). cbn [writing byte_buf position].
  rewrite zlen_app, Z.add_mod, Hb, Hw by lia. done.
Qed.

Lemma reading_skip pre bs rest hs : byte_buf (reading_at (pre ++ bs) rest hs) =
  {| cursor_bytes := pre ++ bs ++ rest; position := zlen pre + zlen bs |}.
Proof. unfold reading_at. cbn. by rewrite zlen_app, <- app_assoc. Qed.
Lemma aligned_ok m : position (byte_buf m) mod 4 = 0 → assert_aligned m = (Ok tt, m).
Proof. intros Hm. unfold assert_aligned. rewrite (bind_ok _ _ _ _ _ (get_position_ok m)), Hm. done. Qed.
Lemma read_slice_nil pre rest hs :
  read_slice false (reading_at pre (wire_slice [] false ++ rest) hs) = (Ok [], reading_at (pre ++ wire_slice [] false) rest hs).
Proof.
  change (wire_slice [] false) with (write_int 4 0 ++ [] ++ []). rewrite !app_nil_r.
  unfold read_slice. rewrite (bind_ok _ _ _ _ _ (get_position_ok _)). by step (read_u32_ok pre rest hs 0 ltac:(lia)).
Qed.
(** What follows the length of a slice: the bytes, then the padding. *)
Lemma read_body_ok body pad pre rest hs : 0 ≤ pad → 
  let tail := if 0 <? pad then write_int pad 0 else [] in
  (if 0 <? pad then read_uint pad ;;; ret tt else ret tt) (reading_at (pre ++ body) (tail ++ rest) hs)
  = (Ok tt, reading_at (pre ++ body ++ tail) rest hs).
Proof.
  intros Hp tail. subst tail. destruct (0 <? pad); [|unfold ret; by rewrite app_nil_r].
  unfold read_uint. unfold bind at 1. rewrite (bind_ok _ _ _ _ _ (get_bytes_ok (pre ++ body) (write_int pad 0) rest hs pad
    ltac:(by apply write_int_length))). unfold ret. by rewrite <- app_assoc.
Qed.
Lemma read_slice_ok s (nt : bool) pre rest hs : zlen pre mod 4 = 0 → zlen (s ++ if nt then [0] else []) < 2 ^ 32 →
  read_slice nt (reading_at pre (wire_slice s nt ++ rest) hs) = (Ok s, reading_at (pre ++ wire_slice s nt) rest hs).
Proof.
  intros Hb Hl. destruct (decide (s = [] ∧ nt = false)) as [[-> ->]|Hne]; [apply read_slice_nil|].
  pose proof (wire_slice_length s nt Hl) as Hw. revert Hw Hl. unfold wire_slice. set (body := s ++ _). intros Hw Hl.
  destruct (padding_spec (4 + zlen body)) as [Hpad _]; [unfold zlen in *; lia|].
  set (pad := compute_padding (4 + zlen body)) in *. rewrite <- !app_assoc. unfold read_slice.
  rewrite (bind_ok _ _ _ _ _ (get_position_ok _)). cbn [reading_at byte_buf position].
  rewrite (bind_ok _ _ _ _ _ (read_u32_ok pre _ hs (zlen body) ltac:(unfold zlen in *; lia))).
  destruct (Z.eqb_spec (zlen body) 0) as [Hz|_].
  { exfalso. subst body. apply Hne. destruct s, nt; try done. }
  rewrite (bind_ok _ _ _ _ _ (get_bytes_ok (pre ++ write_int 4 (zlen body)) body _ hs (zlen body) eq_refl)).
  assert (∀ m, (if nt then pop_null body else ret body) m = (Ok s, m)) as Hpop.
  { intros m. subst body. destruct nt; [|by rewrite app_nil_r]. unfold pop_null. rewrite last_snoc. cbn [negb Z.eqb].
    by rewrite removelast_last. }
  rewrite (bind_ok _ _ _ _ _ (Hpop _)). rewrite <- app_assoc.
  assert (∀ m, position (byte_buf m) = zlen pre + (4 + zlen body) → padding_from (zlen pre) m = (Ok pad, m)) as Hfrom.
  { intros m Hm. unfold padding_from. rewrite (bind_ok _ _ _ _ _ (get_position_ok m)), Hm.
    step (@usub_ok IoError (zlen pre + (4 + zlen body)) (zlen pre) ltac:(unfold zlen; lia)). unfold ret, pad. do 3 f_equal. lia. }
  erewrite (bind_ok (padding_from _)); [|apply Hfrom; cbn [reading_at byte_buf position]; rewrite !zlen_app, write_int_length; lia].
  rewrite (bind_ok _ _ _ _ _ (read_body_ok (write_int 4 (zlen body) ++ body) pad pre rest hs ltac:(lia))). rewrite <- !app_assoc.
  erewrite (bind_ok assert_aligned); [done|]. apply aligned_ok. cbn [reading_at byte_buf position].
  by rewrite zlen_app, Z.add_mod, Hb, Hw by lia.
Qed.

(** * Arguments *)
Lemma wire_aligned a : arg_ok a → zlen (wire a) mod 4 = 0.
Proof.
  destruct a; cbn [arg_ok wire]; intros Ha; try (by rewrite write_int_length).
  - destruct Ha as [_ Ha]. apply wire_slice_length. by rewrite zlen_app.
  - apply wire_slice_length. by rewrite app_nil_r.
  - done.
Qed.
Lemma wire_args_aligned args : Forall arg_ok args → zlen (concat (map wire args)) mod 4 = 0.
Proof.
  induction 1 as [|a args Ha _ IH]; [done|]. cbn [map concat]. by rewrite zlen_app, Z.add_mod, IH, (wire_aligned a Ha) by lia.
Qed.
Lemma write_arg_ok a bs hs : arg_ok a → zlen bs mod 4 = 0 →
  write_arg a (writing bs hs) = (Ok tt, writing (bs ++ wire a) (hs ++ wire_handles a)).
Proof.
  intros Ha Hb. destruct a; cbn [arg_ok wire wire_handles write_arg] in *; rewrite ?app_nil_r;
    first [apply write_i32_ok|apply write_u32_ok|done|apply write_slice_ok; [done|]].
  - rewrite zlen_app. by destruct Ha.
  - by rewrite app_nil_r.
Qed.
Lemma read_arg_ok a pre rest hs : arg_ok a → zlen pre mod 4 = 0 →
  read_arg (arg_kind a) (reading_at pre (wire a ++ rest) (wire_handles a ++ hs))
  = (Ok (received a), reading_at (pre ++ wire a) rest hs).
Proof.
  intros Ha Hb. destruct a; cbn [arg_ok wire wire_handles read_arg arg_kind app] in *.
  1: by step (read_i32_ok pre rest hs i Ha).
  1,4,5: by step (read_u32_ok pre rest hs i Ha).
  1: step (read_i32_ok pre rest hs (bits f) Ha); by destruct f.
  - destruct Ha as [Hu Hl]. step (read_slice_ok s true pre rest hs Hb ltac:(by rewrite zlen_app)).
    unfold ret. by rewrite from_utf8_lossy_valid.
  - by step (read_slice_ok (as_slice a) false pre rest hs Hb ltac:(by rewrite app_nil_r)).
  - unfold reading_at. cbn. by rewrite app_nil_r.
Qed.

Lemma write_args_ok args bs hs : Forall arg_ok args → zlen bs mod 4 = 0 →
  write_args args (writing bs hs) = (Ok tt, writing (bs ++ concat (map wire args)) (hs ++ concat (map wire_handles args))).
Proof.
  intros Hargs. revert bs hs. induction Hargs as [|a args Ha Hargs IH]; intros bs hs Hb; cbn [write_args map concat].
  { by rewrite !app_nil_r. }
  step (write_arg_ok a bs hs Ha Hb). rewrite IH, <- !app_assoc; [done|].
  by rewrite zlen_app, Z.add_mod, Hb, (wire_aligned a Ha) by lia.
Qed.
Lemma read_args_ok args pre hs rest : Forall arg_ok args → zlen pre mod 4 = 0 →
  read_args (map arg_kind args) (reading_at pre (concat (map wire args) ++ rest) (concat (map wire_handles args) ++ hs))
  = (Ok (map received args), reading_at (pre ++ concat (map wire args)) rest hs).
Proof.
  intros Hargs. revert pre. induction Hargs as [|a args Ha Hargs IH]; intros pre Hb; cbn [read_args map concat].
  { by rewrite app_nil_r. }
  rewrite <- !app_assoc. step (read_arg_ok a pre (concat (map wire args) ++ rest) (concat (map wire_handles args) ++ hs) Ha Hb).
  step (IH (pre ++ wire a) ltac:(by rewrite zlen_app, Z.add_mod, Hb, (wire_aligned a Ha) by lia)). by rewrite app_assoc.
Qed.

(** * Headers *)
Definition header_ok (h : MessageHeader) : Prop :=
  0 ≤ sender h < 2 ^ 32 ∧ 0 ≤ opcode h < 2 ^ 16 ∧ 0 ≤ length_ h < 2 ^ 16.
Definition wire_header (h : MessageHeader) : list Z :=
  write_int 4 (sender h) ++ write_int 4 (Z.lor (Z.shiftl (length_ h) 16) (opcode h)).

Lemma wire_header_length h : zlen (wire_header h) = 8.
Proof. unfold wire_header. by rewrite zlen_app, !write_int_length. Qed.
Lemma write_message_header_ok h bs hs : write_header h (writing bs hs) = (Ok tt, writing (bs ++ wire_header h) hs).
Proof.
  unfold write_header, wire_header. step (write_u32_ok (sender h) bs hs). rewrite write_u32_ok. by rewrite <- app_assoc.
Qed.
Lemma read_message_header_ok h pre rest hs : header_ok h →
  read_header (reading_at pre (wire_header h ++ rest) hs) = (Ok h, reading_at (pre ++ wire_header h) rest hs).
Proof.
  intros (Hs&Ho&Hl). destruct (header_word (length_ h) (opcode h) Hl Ho) as (Hw&Hhigh&Hlow). unfold read_header, wire_header.
  rewrite <- !app_assoc. rewrite (bind_ok _ _ _ _ _ (read_u32_ok pre _ hs (sender h) Hs)).
  rewrite (bind_ok _ _ _ _ _ (read_u32_ok _ rest hs _ Hw)). unfold ret. rewrite Hhigh, Hlow, <- app_assoc. by destruct h.
Qed.
Lemma peek_header_ok h pre rest hs : header_ok h →
  peek_header (reading_at pre (wire_header h ++ rest) hs) = (Ok h, reading_at pre (wire_header h ++ rest) hs).
Proof.
  intros Hh. unfold peek_header. rewrite (bind_ok _ _ _ _ _ (get_position_ok _)).
  rewrite (bind_ok _ _ _ _ _ (try_ok _ _ _ _ (read_message_header_ok h pre rest hs Hh))).
  unfold set_position, set_cursor, seek_start, reading_at, bind, ret. cbn. by rewrite <- app_assoc.
Qed.
End wire.

Section safety.
Context `{!ByteOrder, !ByteOrderSpec} (bytes : list Z) (Hbytes : bytes_ok bytes) (Hsize : zlen bytes < 2 ^ 63).

(** The cursor is inside the bytes. *)
Definition inside (m : Message) : Prop := message_bytes m = bytes ∧ 0 ≤ position (byte_buf m) ≤ zlen bytes.
(** ... and on a word. *)
Definition at_word (m : Message) : Prop := inside m ∧ position (byte_buf m) mod 4 = 0.

(** A computation from [m]: an error, or a result with [Q]; never a panic. *)
Definition safely {A : Type} (Q : A → Message → Prop) (r : result IoError A * Message) : Prop :=
  match r with
  | (Ok a, m') => Q a m'
  | (Err _, m') => message_bytes m' = bytes
  | _ => False
  end.

Lemma safely_bind {A B} (c : M IoError Message A) (k : A → M IoError Message B) m Q R :
  safely Q (c m) → (∀ a m', Q a m' → safely R (k a m')) → safely R (bind c k m).
Proof. unfold bind. destruct (c m) as [[a|e| |] m']; cbn; intros Hc Hk; try done. by apply Hk. Qed.
Lemma safely_weaken {A} (Q R : A → Message → Prop) r : safely Q r → (∀ a m', Q a m' → R a m') → safely R r.
Proof. destruct r as [[a|e| |] m']; cbn; intros; try done. auto. Qed.

(** [n] more bytes were read, and the handles are the same. *)
Definition moved (n : Z) (m m' : Message) : Prop :=
  inside m' ∧ position (byte_buf m') = position (byte_buf m) + n ∧ handle_buf m' = handle_buf m.

Lemma get_bytes_safe n m : 0 ≤ n → inside m → safely (λ bs m', zlen bs = n ∧ bytes_ok bs ∧ moved n m m') (get_bytes n m).
Proof.
  intros Hn [Hb Hp]. unfold get_bytes, read_exact, cursor_read. unfold message_bytes in Hb. rewrite Hb.
  set (bs := slice _ _ _). destruct (Z.eqb_spec (zlen bs) n) as [Hl|]; cbn; [|exact Hb].
  split; [done|]. split; [by apply Forall_take, Forall_drop|]. unfold moved, inside, message_bytes. cbn.
  split; [|split; [lia|done]]. split; [done|]. split; [lia|].
  subst bs. unfold zlen, slice in *. rewrite length_take, length_drop in *. lia.
Qed.
Lemma read_u32_safe m : inside m → safely (λ v m', 0 ≤ v < 2 ^ 32 ∧ moved 4 m m') (read_u32 m).
Proof.
  intros Hm. apply (safely_bind _ _ _ _ _ (get_bytes_safe 4 m ltac:(lia) Hm)). intros bs m' (Hl&Hb&Hmv). cbn.
  pose proof (read_int_bound bs Hb) as Hr. rewrite Hl in Hr. done.
Qed.
Lemma read_i32_safe m : inside m → safely (λ v m', - 2 ^ 31 ≤ v < 2 ^ 31 ∧ moved 4 m m') (read_i32 m).
Proof.
  intros Hm. apply (safely_bind _ _ _ _ _ (get_bytes_safe 4 m ltac:(lia) Hm)). intros bs m' (Hl&Hb&Hmv). cbn.
  pose proof (read_int_bound bs Hb) as Hr. rewrite Hl in Hr. split; [|done]. unfold to_signed.
  destruct (Z.ltb_spec (read_int bs) (2 ^ (32 - 1))); lia.
Qed.
Lemma word_moved m m' : at_word m → moved 4 m m' → at_word m'.
Proof.
  intros [_ Hw] (Hi&Hp&_). split; [done|]. rewrite Hp, Z.add_mod, Hw by lia. done.
Qed.

Lemma pop_null_safe vec m m0 n : moved n m0 m → safely (λ _ m', moved n m0 m') (pop_null vec m).
Proof.
  intros Hm. pose proof Hm as [[Hb _] _]. unfold pop_null. destruct (last vec) as [x|]; [|done]. by destruct (negb _).
Qed.
Lemma read_padding_safe {A} n m0 m (k : M IoError Message A) (R : A → Message → Prop) :
  at_word m0 → 4 ≤ n → moved n m0 m → (∀ m', at_word m' → handle_buf m' = handle_buf m0 → safely R (k m')) →
  safely R ((pad <- padding_from (position (byte_buf m0)) ;;
    (if 0 <? pad then read_uint pad ;;; ret tt else ret tt) ;;; assert_aligned ;;; k) m).
Proof.
  intros [[_ Hp0] Hw] Hn (Hi&Hp&Hh) Hk. destruct (padding_spec n) as [Hpad Hsum]; [destruct Hi; lia|].
  assert (padding_from (position (byte_buf m0)) m = (Ok (compute_padding n), m)) as Hfrom.
  { unfold padding_from. rewrite (bind_ok _ _ _ _ _ (get_position_ok m)), Hp.
    step (@usub_ok IoError (position (byte_buf m0) + n) (position (byte_buf m0)) ltac:(lia)). unfold ret. do 3 f_equal. lia. }
  step Hfrom. apply (safely_bind _ _ _ (λ _ m', moved (compute_padding n) m m')).
  - destruct (Z.ltb_spec 0 (compute_padding n)) as [Hlt|Hge].
    + apply (safely_bind _ _ _ (λ _ m', moved (compute_padding n) m m')); [|done]. unfold read_uint.
      apply (safely_bind _ _ _ _ _ (get_bytes_safe (compute_padding n) m ltac:(lia) Hi)).
      by intros bs m' (_&_&?).
    + cbn. unfold moved. replace (compute_padding n) with 0 by lia. by rewrite Z.add_0_r.
  - intros _ m' (Hi'&Hp'&Hh'). assert (position (byte_buf m') mod 4 = 0) as Hw'.
    { rewrite Hp', Hp, <- Z.add_assoc, Z.add_mod, Hw, Hsum by lia. done. }
    step (aligned_ok m' Hw'). apply Hk; [done|congruence].
Qed.
Lemma read_slice_safe nt m : at_word m → safely (λ _ m', at_word m' ∧ handle_buf m' = handle_buf m) (read_slice nt m).
Proof.
  intros Hm. pose proof Hm as [Hi _]. unfold read_slice. rewrite (bind_ok _ _ _ _ _ (get_position_ok m)).
  apply (safely_bind _ _ _ _ _ (read_u32_safe m Hi)). intros len m1 [Hl Hm1]. destruct (Z.eqb_spec len 0) as [_|Hne].
  { cbn. split; [by eapply word_moved|by destruct Hm1 as (_&_&?)]. }
  pose proof Hm1 as (Hi1&Hp1&Hh1). apply (safely_bind _ _ _ _ _ (get_bytes_safe len m1 ltac:(lia) Hi1)).
  intros vec m2 (_&_&Hi2&Hp2&Hh2). assert (moved (4 + len) m m2) as Hm2 by (split; [done|]; split; [lia|congruence]).
  apply (safely_bind _ _ _ (λ _ m', moved (4 + len) m m')); [destruct nt; [by apply pop_null_safe|done]|].
  intros vec' m3 Hm3. apply (read_padding_safe (4 + len) m m3); [done|lia|done|]. by intros m' Hm' Hh'.
Qed.

(** The arguments have the kinds asked for, integers in range, and take their
    handles from the front. *)
Definition typed (a : Arg) : Prop :=
  match a with
  | ArgInt i | ArgFixed {| bits := i |} => - 2 ^ 31 ≤ i < 2 ^ 31
  | ArgUint i | ArgObject i | ArgNewId i => 0 ≤ i < 2 ^ 32
  | _ => True
  end.

Lemma read_arg_safe k m : at_word m →
  safely (λ a m', at_word m' ∧ arg_kind a = k ∧ typed a ∧ handle_buf m = wire_handles a ++ handle_buf m') (read_arg k m).
Proof.
  intros Hm. pose proof Hm as [Hi _].
  assert (∀ m', moved 4 m m' → at_word m' ∧ handle_buf m = handle_buf m') as H4.
  { intros m' Hm'. split; [by eapply word_moved|by destruct Hm' as (_&_&->)]. }
  destruct k; cbn [read_arg].
  1,3: apply (safely_bind _ _ _ _ _ (read_i32_safe m Hi)); intros v m' [Hv [? ?]%H4]; done.
  1,3,4: apply (safely_bind _ _ _ _ _ (read_u32_safe m Hi)); intros v m' [Hv [? ?]%H4]; done.
  1: apply (safely_bind _ _ _ _ _ (read_slice_safe true m Hm)); intros v m' [? ?]; done.
  1: apply (safely_bind _ _ _ _ _ (read_slice_safe false m Hm)); intros v m' [? ?]; done.
  destruct (handle_buf m) as [|h hs] eqn:Hh; cbn; [by destruct Hi|]. split; [|done]. exact Hm.
Qed.
Lemma read_args_safe ks m : at_word m →
  safely (λ args m', at_word m' ∧ map arg_kind args = ks ∧ Forall typed args ∧
    handle_buf m = concat (map wire_handles args) ++ handle_buf m') (read_args ks m).
Proof.
  revert m. induction ks as [|k ks IH]; intros m Hm; cbn [read_args]; [done|].
  apply (safely_bind _ _ _ _ _ (read_arg_safe k m Hm)). intros a m1 (Hm1&Hk&Ht&Hh).
  apply (safely_bind _ _ _ _ _ (IH m1 Hm1)). intros args m2 (Hm2&Hks&Hts&Hhs). cbn.
  rewrite Hk, Hks, Hh, Hhs, app_assoc. by split_and!; [..|constructor|].
Qed.
Lemma read_header_safe m : at_word m →
  safely (λ h m', at_word m' ∧ header_ok h ∧ handle_buf m' = handle_buf m) (read_header m).
Proof.
  intros Hm. pose proof Hm as [Hi _]. apply (safely_bind _ _ _ _ _ (read_u32_safe m Hi)). intros s m1 [Hs Hm1].
  pose proof Hm1 as [Hi1 _]. apply (safely_bind _ _ _ _ _ (read_u32_safe m1 Hi1)). intros w m2 [Hw Hm2]. cbn.
  split; [by eapply word_moved; [eapply word_moved|]|]. destruct Hm1 as (_&_&H1), Hm2 as (_&_&H2).
  split; [|congruence]. split; [done|]. split; by apply Z.mod_pos_bound.
Qed.
End safety.

Section claims.
Context `{!ByteOrder, !ByteOrderSpec}.

(** A message is a header and its arguments. *)
Definition write_message (h : MessageHeader) (args : list Arg) : M IoError Message unit :=
  write_header h ;;; write_args args.
Definition read_message (kinds : list ArgKind) : M IoError Message (MessageHeader * list Arg) :=
  h <- read_header ;; args <- read_args kinds ;; ret (h, args).

(** C31: Any header and any arguments are written, and the bytes and handles sent give
    the same header and arguments to a reader that expects their kinds, who has then
    read all of the message.  A look at the header first changes nothing. *)
Theorem wayland_roundtrip (h : MessageHeader) (args : list Arg) : header_ok h → Forall arg_ok args →
  ∃ m m', write_message h args new_message = (Ok tt, m) ∧ zlen (message_bytes m) mod 4 = 0 ∧
    let sent := from_parts (fst (take_parts m)) (snd (take_parts m)) in
    peek_header sent = (Ok h, sent) ∧
    read_message (map arg_kind args) sent = (Ok (h, map received args), m') ∧ is_empty m' = true.
Proof.
  intros Hh Hargs. pose proof (wire_header_length h) as Hl.
  assert (zlen (wire_header h) mod 4 = 0) as Hw by (by rewrite Hl).
  set (bs := concat (map wire args)). set (hs := concat (map wire_handles args)).
  assert (zlen bs mod 4 = 0) as Hbs by (by apply wire_args_aligned).
  exists (writing (wire_header h ++ bs) hs), (reading_at (wire_header h ++ bs) [] []). cbv zeta. split_and!.
  - unfold write_message. change new_message with (writing [] []). step (write_message_header_ok h [] []).
    exact (write_args_ok args (wire_header h) [] Hargs Hw).
  - cbn [writing message_bytes byte_buf cursor_bytes]. by rewrite zlen_app, Z.add_mod, Hw, Hbs by lia.
  - exact (peek_header_ok h [] bs hs Hh).
  - unfold read_message. change (from_parts _ _) with (reading_at [] (wire_header h ++ bs) hs).
    step (read_message_header_ok h [] bs hs Hh). cbn [app]. pose proof (read_args_ok args (wire_header h) [] [] Hargs Hw) as Hread.
    rewrite !app_nil_r in Hread. by step Hread.
  - unfold is_empty, reading_at. cbn [byte_buf cursor_bytes position handle_buf]. by rewrite app_nil_r, Z.eqb_refl.
Qed.

(** C38: Whatever bytes and handles arrive, and whatever kinds are expected, reading ends
    in an error or in a header and arguments of those kinds, with integers in range;
    the cursor stays inside the bytes, on a word, and the handles are taken from the
    front.  It does not panic. *)
Theorem wayland_read_safe (bytes handles : list Z) (kinds : list ArgKind) : bytes_ok bytes → zlen bytes < 2 ^ 63 →
  match read_message kinds (from_parts bytes handles) with
  | (Ok (h, args), m) => header_ok h ∧ map arg_kind args = kinds ∧ Forall typed args ∧ message_bytes m = bytes ∧
      0 ≤ position (byte_buf m) ≤ zlen bytes ∧ position (byte_buf m) mod 4 = 0 ∧
      handles = concat (map wire_handles args) ++ handle_buf m
  | (Err _, m) => message_bytes m = bytes
  | (_, _) => False
  end.
Proof.
  intros Hb Hs. assert (at_word bytes (from_parts bytes handles)) as Hm.
  { split; [|done]. split; [done|]. cbn. unfold zlen. lia. }
  assert (safely bytes (λ ha m', at_word bytes m' ∧ header_ok (fst ha) ∧ map arg_kind (snd ha) = kinds ∧ Forall typed (snd ha) ∧
    handles = concat (map wire_handles (snd ha)) ++ handle_buf m') (read_message kinds (from_parts bytes handles))) as H1.
  { apply (safely_bind bytes _ _ _ _ _ (read_header_safe bytes Hb _ Hm)). intros h m1 (Hm1&Hh&Hh1).
    apply (safely_bind bytes _ _ _ _ _ (read_args_safe bytes Hb Hs kinds m1 Hm1)).
    intros args m2 (Hm2&Hk&Ht&Hhs). cbn. rewrite <- Hhs, Hh1. done. }
  destruct (read_message kinds (from_parts bytes handles)) as [[[h args]|e| |] m]; cbn in H1; try done.
  destruct H1 as ([[? ?] ?]&?&?&?&?). done.
Qed.
End claims.

(** * Witnesses *)
#[local] Existing Instances le_order le_order_spec.

Definition demo_args : list Arg :=
  [ArgInt (-5); ArgString [104; 105]; ArgHandle 7; ArgArray (from_vec [1; 2; 3; 4; 5]); ArgFixed (from_bits 256); ArgHandle 8].

Lemma wayland_roundtrip_witness : ∃ m m', write_message {| sender := 3; opcode := 2; length_ := 44 |} demo_args new_message = (Ok tt, m) ∧
  read_message (map arg_kind demo_args) (from_parts (fst (take_parts m)) (snd (take_parts m)))
    = (Ok ({| sender := 3; opcode := 2; length_ := 44 |}, demo_args), m').
Proof.
  destruct (wayland_roundtrip {| sender := 3; opcode := 2; length_ := 44 |} demo_args) as (m&m'&Hw&_&_&Hr&_).
  - unfold header_ok. cbn. lia.
  - unfold demo_args. repeat apply Forall_cons_2; try apply Forall_nil_2; cbn; try lia; try (split; [reflexivity|]); done.
  - exists m, m'. split; [exact Hw|exact Hr].
Defined.

(** A string with no terminator. *)
Lemma wayland_read_safe_witness : message_bytes (snd (read_message [KindString]
  (from_parts [1; 0; 0; 0; 2; 0; 16; 0; 1; 0; 0; 0; 65; 0; 0; 0] []))) = [1; 0; 0; 0; 2; 0; 16; 0; 1; 0; 0; 0; 65; 0; 0; 0].
Proof.
  pose proof (wayland_read_safe [1; 0; 0; 0; 2; 0; 16; 0; 1; 0; 0; 0; 65; 0; 0; 0] [] [KindString]
    ltac:(apply (bool_decide_unpack _); exact I) ltac:(done)) as H.
  assert (fst (read_message [KindString] (from_parts [1; 0; 0; 0; 2; 0; 16; 0; 1; 0; 0; 0; 65; 0; 0; 0] [])) = Err InvalidData) as E
    by (vm_compute; reflexivity).
  destruct (read_message _ _) as [r m]. cbn [fst] in E. subst r. exact H.
Defined.

(** [Array::push] after [from_vec] writes over the start of the array. *)
Example array_push_overwrites :
  as_slice (snd (array_push (ArgUint 7) (from_vec [1; 1; 1; 1; 2; 2; 2; 2]))) = [7; 0; 0; 0; 2; 2; 2; 2].
Proof. vm_compute. reflexivity. Qed.
