(* ===== verification/Packet.v ===== *)
(** Packet buffers: [public/rust/packet/src/lib.rs] and [Buf] and [Either] of
    [serialize.rs].

    A buffer has a prefix, a body and a suffix; the traits of the source are
    classes, and their default methods are definitions over the class.  A method
    that changes a buffer returns the changed buffer.  A mutable borrow of the body
    is the function that is applied to it.  Views of buffers and parsing are
    [BufferView], [BufView], [BufViewMut] and [parse_with] of the same files. *)

From S2P Require Import Prelude.

(** [never::Never]: code that only panics has no errors. *)
Inductive Never : Type := .
Definition infallible {E A : Type} (r : result Never A) : result E A :=
  match r with
  | Ok a => Ok a
  | Err e => match e with end
  | Panic => Panic
  | OutOfFuel => OutOfFuel
  end.

(** [assert!] and [debug_assert!] *)
Definition assert (b : bool) : result Never unit := if b then Ok tt else Panic.

(** * Ranges *)
Inductive Bound := Included (x : Z) | Excluded (x : Z) | Unbounded.
Record Range := { start : Z; end_ : Z }.

Definition canonicalize_lower_bound (bound : Bound) : result Never Z :=
  match bound with
  | Included x => Ok x
  | Excluded x => uadd 64 x 1
  | Unbounded => Ok 0
  end.
Definition canonicalize_upper_bound (len : Z) (bound : Bound) : result Never (option Z) :=
  bound <-? match bound with
            | Included x => uadd 64 x 1
            | Excluded x => Ok x
            | Unbounded => Ok len
            end ;;
  Ok (if len <? bound then None else Some bound).
Definition canonicalize_range (len : Z) (lo hi : Bound) : result Never Range :=
  lower <-? canonicalize_lower_bound lo ;;
  upper <-? canonicalize_upper_bound len hi ;;
  upper <-? ounwrap upper ;;
  assert (lower <=? upper) ;?;
  Ok {| start := lower; end_ := upper |}.

(** * The traits of buffers *)
Class ParseBuffer (T : Type) := {
  as_ref : T → result Never (list Z);
  buf_len : T → result Never Z;
  shrink_front : Z → T → result Never T;
  shrink_back : Z → T → result Never T;
  shrink : Bound → Bound → T → result Never T
}.
Class ParseBufferMut (T : Type) := {
  as_mut : (list Z → result Never (list Z)) → T → result Never T
}.
Class Buffer (T : Type) := {
  capacity : T → result Never Z;
  prefix_len : T → result Never Z;
  suffix_len : T → result Never Z;
  grow_front : Z → T → result Never T;
  grow_back : Z → T → result Never T;
  reset : T → result Never T
}.

Record ParseMetadata := { meta_header_len : Z; meta_body_len : Z; meta_footer_len : Z }.
Definition from_packet (header_len body_len footer_len : Z) : ParseMetadata :=
  {| meta_header_len := header_len; meta_body_len := body_len; meta_footer_len := footer_len |}.
Definition from_inner_packet (len : Z) : ParseMetadata :=
  {| meta_header_len := len; meta_body_len := 0; meta_footer_len := 0 |}.

(** The buffer a builder writes to: [body] is a range of [buf]. *)
Record SerializeBuffer := { sb_buf : list Z; sb_body : Range }.
Definition serialize_buffer_new (buf : list Z) (lo hi : Bound) : result Never SerializeBuffer :=
  body <-? canonicalize_range (zlen buf) lo hi ;; Ok {| sb_buf := buf; sb_body := body |}.
Definition sb_header (self : SerializeBuffer) : list Z := take (Z.to_nat (start (sb_body self))) (sb_buf self).
Definition sb_body_bytes (self : SerializeBuffer) : list Z :=
  slice (start (sb_body self)) (end_ (sb_body self) - start (sb_body self)) (sb_buf self).
Definition sb_footer (self : SerializeBuffer) : list Z := drop (Z.to_nat (end_ (sb_body self))) (sb_buf self).

(** [PacketBuilder]: [pb_serialize] returns the bytes of the whole buffer after it
    was written to. *)
Class PacketBuilder (B : Type) := {
  header_len : B → Z;
  min_body_len : B → Z;
  max_body_len : B → Z;
  footer_len : B → Z;
  pb_serialize : B → SerializeBuffer → result Never (list Z)
}.

Class BufferMut (T : Type) := {
  reset_zero : T → result Never T;
  buf_serialize : ∀ {B : Type} `{!PacketBuilder B}, B → T → result Never T
}.

(** ** Default methods *)
Section parse_buffer.
Context {T : Type} `{!ParseBuffer T}.

Definition buf_is_empty (self : T) : result Never bool := n <-? buf_len self ;; Ok (n =? 0).
Definition shrink_front_to (len : Z) (self : T) : result Never T :=
  old_len <-? buf_len self ;;
  let new_len := Z.min old_len len in
  n <-? usub old_len new_len ;;
  shrink_front n self.
Definition shrink_back_to (len : Z) (self : T) : result Never T :=
  old_len <-? buf_len self ;;
  let new_len := Z.min old_len len in
  n <-? usub old_len new_len ;;
  shrink_back n self.
Definition default_shrink (lo hi : Bound) (self : T) : result Never T :=
  len <-? buf_len self ;;
  range <-? canonicalize_range len lo hi ;;
  self <-? shrink_front (start range) self ;;
  n <-? usub len (end_ range) ;;
  shrink_back n self.
End parse_buffer.

Section buffer.
Context {T : Type} `{!ParseBuffer T, !ParseBufferMut T, !Buffer T}.

Definition default_capacity (self : T) : result Never Z :=
  p <-? prefix_len self ;; n <-? buf_len self ;; s <-? suffix_len self ;;
  r <-? uadd 64 p n ;; uadd 64 r s.
Definition default_reset (self : T) : result Never T :=
  p <-? prefix_len self ;;
  self <-? grow_front p self ;;
  s <-? suffix_len self ;;
  grow_back s self.
Definition undo_parse (meta : ParseMetadata) (self : T) : result Never T :=
  len <-? buf_len self ;;
  self <-? (if len <? meta_body_len meta
            then n <-? usub (meta_body_len meta) len ;; grow_back n self
            else Ok self) ;;
  self <-? grow_front (meta_header_len meta) self ;;
  grow_back (meta_footer_len meta) self.

(** [zero(&mut bytes[lo..])], [zero(&mut bytes[..n])] *)
Definition zero_front (n : Z) (bytes : list Z) : result Never (list Z) :=
  if n <=? zlen bytes then Ok (zeros n ++ drop (Z.to_nat n) bytes) else Panic.
Definition zero_from (n : Z) (bytes : list Z) : result Never (list Z) :=
  if n <=? zlen bytes then Ok (take (Z.to_nat n) bytes ++ zeros (zlen bytes - n)) else Panic.

Definition grow_front_zero (n : Z) (self : T) : result Never T :=
  self <-? grow_front n self ;; as_mut (zero_front n) self.
Definition grow_back_zero (n : Z) (self : T) : result Never T :=
  old_len <-? buf_len self ;;
  self <-? grow_back n self ;;
  as_mut (zero_from old_len) self.
Definition default_reset_zero (self : T) : result Never T :=
  p <-? prefix_len self ;;
  self <-? grow_front_zero p self ;;
  s <-? suffix_len self ;;
  grow_back_zero s self.

Definition default_serialize {B : Type} `{!PacketBuilder B} (builder : B) (self : T) : result Never T :=
  len <-? buf_len self ;;
  self <-? (if len <? min_body_len builder
            then n <-? usub (min_body_len builder) len ;; grow_back_zero n self
            else Ok self) ;;
  body_len <-? buf_len self ;;
  p <-? prefix_len self ;;
  assert (header_len builder <=? p) ;?;
  s <-? suffix_len self ;;
  assert (footer_len builder <=? s) ;?;
  self <-? grow_front_zero (header_len builder) self ;;
  self <-? grow_back_zero (footer_len builder) self ;;
  e <-? uadd 64 (header_len builder) body_len ;;
  as_mut (λ buf, pb_serialize builder
    {| sb_buf := buf; sb_body := {| start := header_len builder; end_ := e |} |}) self.
End buffer.

(** * Byte slices *)
Definition take_front (n : Z) (bytes : list Z) : result Never (list Z * list Z) :=
  if n <=? zlen bytes then Ok (take (Z.to_nat n) bytes, drop (Z.to_nat n) bytes) else Panic.
Definition take_back (n : Z) (bytes : list Z) : result Never (list Z * list Z) :=
  split <-? usub (zlen bytes) n ;;
  if split <=? zlen bytes then Ok (drop (Z.to_nat split) bytes, take (Z.to_nat split) bytes) else Panic.

(** The default [shrink], over the other methods of the slice. *)
Definition slice_shrink (lo hi : Bound) (self : list Z) : result Never (list Z) :=
  range <-? canonicalize_range (zlen self) lo hi ;;
  r <-? take_front (start range) self ;;
  n <-? usub (zlen self) (end_ range) ;;
  r <-? take_back n (snd r) ;;
  Ok (snd r).
#[export] Instance slice_buffer : ParseBuffer (list Z) := {|
  as_ref self := Ok self;
  buf_len self := Ok (zlen self);
  shrink_front n self := r <-? take_front n self ;; Ok (snd r);
  shrink_back n self := r <-? take_back n self ;; Ok (snd r);
  shrink := slice_shrink
|}.

(** * [Buf]: bytes and the range of the body in them *)
Record Buf := { buf : list Z; range : Range }.

Definition buf_new (bytes : list Z) (lo hi : Bound) : result Never Buf :=
  r <-? canonicalize_range (zlen bytes) lo hi ;; Ok {| buf := bytes; range := r |}.
Definition set_range (s e : Z) (self : Buf) : Buf := {| buf := buf self; range := {| start := s; end_ := e |} |}.

(** [self.buf[self.range]] *)
Definition index (r : Range) (bytes : list Z) : result Never (list Z) :=
  if (start r <=? end_ r) && (end_ r <=? zlen bytes) then Ok (slice (start r) (end_ r - start r) bytes) else Panic.
Definition Buf_as_ref (self : Buf) : result Never (list Z) := index (range self) (buf self).
Definition Buf_len (self : Buf) : result Never Z := usub (end_ (range self)) (start (range self)).
Definition Buf_shrink (lo hi : Bound) (self : Buf) : result Never Buf :=
  len <-? Buf_len self ;;
  r <-? canonicalize_range len lo hi ;;
  s <-? uadd 64 (start r) (start (range self)) ;;
  e <-? uadd 64 (end_ r) (start (range self)) ;;
  Ok (set_range s e self).
Definition Buf_shrink_front (n : Z) (self : Buf) : result Never Buf :=
  len <-? Buf_len self ;;
  assert (n <=? len) ;?;
  s <-? uadd 64 (start (range self)) n ;;
  Ok (set_range s (end_ (range self)) self).
Definition Buf_shrink_back (n : Z) (self : Buf) : result Never Buf :=
  len <-? Buf_len self ;;
  assert (n <=? len) ;?;
  e <-? usub (end_ (range self)) n ;;
  Ok (set_range (start (range self)) e self).
Definition Buf_suffix_len (self : Buf) : result Never Z := usub (zlen (buf self)) (end_ (range self)).
Definition Buf_grow_front (n : Z) (self : Buf) : result Never Buf :=
  assert (n <=? start (range self)) ;?;
  s <-? usub (start (range self)) n ;;
  Ok (set_range s (end_ (range self)) self).
Definition Buf_grow_back (n : Z) (self : Buf) : result Never Buf :=
  s <-? Buf_suffix_len self ;;
  assert (n <=? s) ;?;
  e <-? uadd 64 (end_ (range self)) n ;;
  Ok (set_range (start (range self)) e self).
Definition Buf_as_mut (f : list Z → result Never (list Z)) (self : Buf) : result Never Buf :=
  body <-? index (range self) (buf self) ;;
  body <-? f body ;;
  Ok {| buf := splice (start (range self)) body (buf self); range := range self |}.

#[export] Instance Buf_ParseBuffer : ParseBuffer Buf := {|
  as_ref := Buf_as_ref;
  buf_len := Buf_len;
  shrink_front := Buf_shrink_front;
  shrink_back := Buf_shrink_back;
  shrink := Buf_shrink
|}.
#[export] Instance Buf_ParseBufferMut : ParseBufferMut Buf := {| as_mut := Buf_as_mut |}.

(** The two required methods and [grow_front] and [grow_back] are enough for the
    default [reset]. *)
Definition Buf_reset (self : Buf) : result Never Buf :=
  self <-? Buf_grow_front (start (range self)) self ;;
  s <-? Buf_suffix_len self ;;
  Buf_grow_back s self.
#[export] Instance Buf_Buffer : Buffer Buf := {|
  capacity self := Ok (zlen (buf self));
  prefix_len self := Ok (start (range self));
  suffix_len := Buf_suffix_len;
  grow_front := Buf_grow_front;
  grow_back := Buf_grow_back;
  reset := Buf_reset
|}.
#[export] Instance Buf_BufferMut : BufferMut Buf := {|
  reset_zero := default_reset_zero;
  buf_serialize B _ builder := default_serialize builder
|}.

(** * [Either]: every method is the one of the buffer inside *)
Inductive Either (A B : Type) := EitherA (a : A) | EitherB (b : B).
Arguments EitherA {A B} a.
Arguments EitherB {A B} b.

Definition into_inner {A : Type} (self : Either A A) : A := match self with EitherA x | EitherB x => x end.

Section either.
Context {A B : Type} `{!ParseBuffer A, !ParseBufferMut A, !Buffer A, !BufferMut A}.
Context `{!ParseBuffer B, !ParseBufferMut B, !Buffer B, !BufferMut B}.

(** [call_method_on_either!], for reads and for changes. *)
Definition ask {R : Type} (f : A → R) (g : B → R) (self : Either A B) : R :=
  match self with EitherA a => f a | EitherB b => g b end.
Definition change (f : A → result Never A) (g : B → result Never B) (self : Either A B) : result Never (Either A B) :=
  match self with
  | EitherA a => a <-? f a ;; Ok (EitherA a)
  | EitherB b => b <-? g b ;; Ok (EitherB b)
  end.

#[export] Instance Either_ParseBuffer : ParseBuffer (Either A B) := {|
  as_ref := ask as_ref as_ref;
  buf_len := ask buf_len buf_len;
  shrink_front n := change (shrink_front n) (shrink_front n);
  shrink_back n := change (shrink_back n) (shrink_back n);
  shrink lo hi := change (shrink lo hi) (shrink lo hi)
|}.
#[export] Instance Either_ParseBufferMut : ParseBufferMut (Either A B) := {|
  as_mut f := change (as_mut f) (as_mut f)
|}.
#[export] Instance Either_Buffer : Buffer (Either A B) := {|
  capacity := ask capacity capacity;
  prefix_len := ask prefix_len prefix_len;
  suffix_len := ask suffix_len suffix_len;
  grow_front n := change (grow_front n) (grow_front n);
  grow_back n := change (grow_back n) (grow_back n);
  reset := change reset reset
|}.
#[export] Instance Either_BufferMut : BufferMut (Either A B) := {|
  reset_zero := change reset_zero reset_zero;
  buf_serialize C _ builder := change (buf_serialize builder) (buf_serialize builder)
|}.
End either.

(** * The trait: a view hands out the bytes at its ends *)
Class BufferView (V : Type) := {
  view_bytes : V → list Z;
  view_take_front : Z → V → result Never (option (list Z) * V);
  view_take_back : Z → V → result Never (option (list Z) * V)
}.

Section view.
Context {V : Type} `{!BufferView V}.
Definition view_len (self : V) : Z := zlen (view_bytes self).
Definition view_is_empty (self : V) : bool := view_len self =? 0.
Definition into_rest (self : V) : list Z := view_bytes self.

(** [unwrap] of an [Option] beside a view. *)
Definition unwrap_taken (r : result Never (option (list Z) * V)) : result Never (list Z * V) :=
  x <-? r ;; b <-? ounwrap (fst x) ;; Ok (b, snd x).
Definition take_rest_front (self : V) : result Never (list Z * V) := unwrap_taken (view_take_front (view_len self) self).
Definition take_rest_back (self : V) : result Never (list Z * V) := unwrap_taken (view_take_back (view_len self) self).

(** [map(|x| x[0])] *)
Definition first_byte (r : result Never (option (list Z) * V)) : result Never (option Z * V) :=
  x <-? r ;;
  match fst x with
  | None => Ok (None, snd x)
  | Some bytes => b <-? ounwrap (head bytes) ;; Ok (Some b, snd x)
  end.
Definition take_byte_front (self : V) : result Never (option Z * V) := first_byte (view_take_front 1 self).
Definition take_byte_back (self : V) : result Never (option Z * V) := first_byte (view_take_back 1 self).
End view.

(** * Views of slices *)
Definition slice_take (taker : Z → list Z → result Never (list Z * list Z)) (n : Z) (self : list Z)
    : result Never (option (list Z) * list Z) :=
  if zlen self <? n then Ok (None, self)
  else r <-? taker n self ;; Ok (Some (fst r), snd r).
#[export] Instance slice_view : BufferView (list Z) := {|
  view_bytes self := self;
  view_take_front := slice_take take_front;
  view_take_back := slice_take take_back
|}.

(** * Views of [Buf]: the bytes left, and the range of the buffer *)
Record BufView := { bv_buf : list Z; bv_range : Range }.

Definition bv_take_front (n : Z) (self : BufView) : result Never (option (list Z) * BufView) :=
  if zlen (bv_buf self) <? n then Ok (None, self)
  else
    s <-? uadd 64 (start (bv_range self)) n ;;
    r <-? take_front n (bv_buf self) ;;
    Ok (Some (fst r), {| bv_buf := snd r; bv_range := {| start := s; end_ := end_ (bv_range self) |} |}).
Definition bv_take_back (n : Z) (self : BufView) : result Never (option (list Z) * BufView) :=
  if zlen (bv_buf self) <? n then Ok (None, self)
  else
    e <-? usub (end_ (bv_range self)) n ;;
    r <-? take_back n (bv_buf self) ;;
    Ok (Some (fst r), {| bv_buf := snd r; bv_range := {| start := start (bv_range self); end_ := e |} |}).
#[export] Instance BufView_view : BufferView BufView := {|
  view_bytes := bv_buf;
  view_take_front := bv_take_front;
  view_take_back := bv_take_back
|}.

Definition buffer_view (self : Buf) : result Never BufView :=
  bytes <-? index (range self) (buf self) ;; Ok {| bv_buf := bytes; bv_range := range self |}.

(** [parse_with]: the view shares the range of the buffer, so what the parser takes is
    no longer in the body. *)
Definition parse_with {R : Type} (parse : BufView → result Never (R * BufView)) (self : Buf) : result Never (R * Buf) :=
  v <-? buffer_view self ;;
  r <-? parse v ;;
  Ok (fst r, {| buf := buf self; range := bv_range (snd r) |}).

(** * Mutable views: what is taken can be written, here only zeroed

    [vm_buf] is the memory of the buffer, [vm_lo] and [vm_hi] the ends of the bytes left
    in it. *)
Record BufViewMut := { vm_buf : list Z; vm_lo : Z; vm_hi : Z; vm_range : Range }.
Definition buffer_view_mut (self : Buf) : BufViewMut :=
  {| vm_buf := buf self; vm_lo := start (range self); vm_hi := end_ (range self); vm_range := range self |}.

(** The bytes taken, as an offset and a length. *)
Definition vm_take_front (n : Z) (self : BufViewMut) : result Never (option (Z * Z) * BufViewMut) :=
  if vm_hi self - vm_lo self <? n then Ok (None, self)
  else
    s <-? uadd 64 (start (vm_range self)) n ;;
    Ok (Some (vm_lo self, n),
        {| vm_buf := vm_buf self; vm_lo := vm_lo self + n; vm_hi := vm_hi self;
           vm_range := {| start := s; end_ := end_ (vm_range self) |} |}).
Definition vm_take_back (n : Z) (self : BufViewMut) : result Never (option (Z * Z) * BufViewMut) :=
  if vm_hi self - vm_lo self <? n then Ok (None, self)
  else
    e <-? usub (end_ (vm_range self)) n ;;
    Ok (Some (vm_hi self - n, n),
        {| vm_buf := vm_buf self; vm_lo := vm_lo self; vm_hi := vm_hi self - n;
           vm_range := {| start := start (vm_range self); end_ := e |} |}).
Definition vm_zero (region : Z * Z) (self : BufViewMut) : BufViewMut :=
  {| vm_buf := splice (fst region) (zeros (snd region)) (vm_buf self); vm_lo := vm_lo self; vm_hi := vm_hi self;
     vm_range := vm_range self |}.
Definition zero_taken (r : result Never (option (Z * Z) * BufViewMut)) : result Never (option (Z * Z) * BufViewMut) :=
  x <-? r ;;
  match fst x with
  | None => Ok x
  | Some region => Ok (Some region, vm_zero region (snd x))
  end.
Definition take_front_zero (n : Z) (self : BufViewMut) : result Never (option (Z * Z) * BufViewMut) :=
  zero_taken (vm_take_front n self).
Definition take_back_zero (n : Z) (self : BufViewMut) : result Never (option (Z * Z) * BufViewMut) :=
  zero_taken (vm_take_back n self).
Definition unwrap_region (r : result Never (option (Z * Z) * BufViewMut)) : result Never (Z * Z * BufViewMut) :=
  x <-? r ;; region <-? ounwrap (fst x) ;; Ok (region, snd x).
Definition take_rest_front_zero (self : BufViewMut) : result Never (Z * Z * BufViewMut) :=
  unwrap_region (take_front_zero (vm_hi self - vm_lo self) self).

(** The source calls [take_front_zero] here too. *)
Definition take_rest_back_zero (self : BufViewMut) : result Never (Z * Z * BufViewMut) :=
  unwrap_region (take_front_zero (vm_hi self - vm_lo self) self).

(** [parse_with_mut]: the memory and the range are those of the buffer. *)
Definition parse_with_mut {R : Type} (parse : BufViewMut → result Never (R * BufViewMut)) (self : Buf) : result Never (R * Buf) :=
  index (range self) (buf self) ;?;
  r <-? parse (buffer_view_mut self) ;;
  Ok (fst r, {| buf := vm_buf (snd r); range := vm_range (snd r) |}).
