(* ===== verification/PacketSerialize.v ===== *)
(** Serializers: [public/rust/packet/src/serialize.rs].

    A [Serializer] is consumed by [serialize] and [serialize_mtu]; an error gives it
    back.  The functions [get_buf] that make buffers are parameters of the
    serializers that hold them. *)

From S2P Require Import Prelude Packet.

(** * Builders of innermost packets: [ipb_serialize] returns the bytes of the buffer
    after it was written to. *)
Class InnerPacketBuilder (B : Type) := {
  bytes_len : B → Z;
  ipb_serialize : B → list Z → result Never (list Z)
}.

(** [buffer.copy_from_slice(self)] panics when the lengths differ. *)
Definition copy_from_slice (src dst : list Z) : result Never (list Z) :=
  if zlen dst =? zlen src then Ok src else Panic.
#[export] Instance slice_builder : InnerPacketBuilder (list Z) := {|
  bytes_len self := zlen self;
  ipb_serialize := copy_from_slice
|}.

(** * Errors and constraints *)
Inductive MtuError (E : Type) := MtuErr (e : E) | Mtu.
Arguments MtuErr {E} e.
Arguments Mtu {E}.
Definition is_mtu {E : Type} (self : MtuError E) : bool := match self with Mtu => true | _ => false end.

Record SerializeConstraints := { c_prefix_len : Z; c_min_body_len : Z; c_suffix_len : Z }.
Definition no_constraints : SerializeConstraints := {| c_prefix_len := 0; c_min_body_len := 0; c_suffix_len := 0 |}.
Definition usize_max : Z := 2 ^ 64 - 1.

Class Serializer (S : Type) := {
  ser_buffer : Type;
  ser_parse :: ParseBuffer ser_buffer;
  ser_parse_mut :: ParseBufferMut ser_buffer;
  ser_buf :: Buffer ser_buffer;
  ser_buf_mut :: BufferMut ser_buffer;
  ser_error : Type;
  ser_inner_error : Type;
  serialize : S → SerializeConstraints → result (ser_error * S) ser_buffer;
  serialize_mtu : S → Z → SerializeConstraints → result (MtuError ser_inner_error * S) ser_buffer
}.

Section default.
Context {S : Type} `{!Serializer S}.
Definition serialize_outer (self : S) : result (ser_error * S) ser_buffer := serialize self no_constraints.
Definition serialize_mtu_outer (self : S) (mtu : Z) : result (MtuError ser_inner_error * S) ser_buffer :=
  serialize_mtu self mtu no_constraints.
End default.

(** [c.prefix_len + body_len + c.suffix_len] *)
Definition total_length {E : Type} (c : SerializeConstraints) (body_len : Z) : result E Z :=
  n <-? uadd 64 (c_prefix_len c) body_len ;; uadd 64 n (c_suffix_len c).
(** A vector has less than 2^63 bytes. *)
Definition new_vec {E : Type} (n : Z) : result E (list Z) := if n <? 2 ^ 63 then Ok (zeros n) else Panic.

(** * A builder as a serializer, into a new vector *)
Section inner_builder.
Context {B : Type} `{!InnerPacketBuilder B}.

Definition total_len_body_len_body_range (builder : B) (c : SerializeConstraints) : result Never (Z * Z * Range) :=
  let body_len := Z.max (c_min_body_len c) (bytes_len builder) in
  total_len <-? total_length c body_len ;;
  e <-? uadd 64 (c_prefix_len c) (bytes_len builder) ;;
  Ok (total_len, body_len, {| start := c_prefix_len c; end_ := e |}).

(** [vec![0; n]] with the builder written to [buf[body_range]]. *)
Definition in_new_vec (builder : B) (total_len : Z) (r : Range) : result Never Buf :=
  bytes <-? new_vec total_len ;;
  body <-? index r bytes ;;
  body <-? ipb_serialize builder body ;;
  buf_new (splice (start r) body bytes) (Included (start r)) (Excluded (end_ r)).

Definition builder_serialize_mtu (self : B) (mtu : Z) (c : SerializeConstraints)
    : result (MtuError Never * B) Buf :=
  lens <-? infallible (total_len_body_len_body_range self c) ;;
  let '(total_len, body_len, body_range) := lens in
  if body_len <=? mtu then infallible (in_new_vec self total_len body_range)
  else Err (Mtu, self).
Definition builder_serialize (self : B) (c : SerializeConstraints) : result (Never * B) Buf :=
  lens <-? infallible (total_len_body_len_body_range self c) ;;
  let '(total_len, _, body_range) := lens in
  infallible (in_new_vec self total_len body_range).

#[export] Instance builder_serializer : Serializer B := {|
  ser_error := Never;
  ser_inner_error := Never;
  serialize := builder_serialize;
  serialize_mtu := builder_serialize_mtu
|}.
End inner_builder.

(** The body of a buffer is the range, and the builder is written to it. *)
Definition fill_body {T B : Type} `{!ParseBuffer T, !ParseBufferMut T, !InnerPacketBuilder B}
    (builder : B) (prefix_len : Z) (b : T) : result Never T :=
  e <-? uadd 64 prefix_len (bytes_len builder) ;;
  b <-? shrink (Included prefix_len) (Excluded e) b ;;
  as_mut (ipb_serialize builder) b.

(** * [InnerSerializer] *)
Record InnerSerializer (B T O : Type) := { is_builder : B; is_buf : T; is_get_buf : Z → result Never O }.
Arguments is_builder {B T O} _.
Arguments is_buf {B T O} _.
Arguments is_get_buf {B T O} _ _.

Section inner.
Context {B T O : Type} `{!InnerPacketBuilder B}.
Context `{!ParseBuffer T, !ParseBufferMut T, !Buffer T, !BufferMut T}.
Context `{!ParseBuffer O, !ParseBufferMut O, !Buffer O, !BufferMut O}.

Definition inner_serialize_inner (self : InnerSerializer B T O) (prefix_len total_len : Z)
    : result Never (Either T O) :=
  cap <-? capacity (is_buf self) ;;
  b <-? (if total_len <=? cap
         then b <-? reset (is_buf self) ;; Ok (EitherA b)
         else b <-? is_get_buf self total_len ;; Ok (EitherB b)) ;;
  fill_body (is_builder self) prefix_len b.
Definition inner_serialize_mtu (self : InnerSerializer B T O) (mtu : Z) (c : SerializeConstraints)
    : result (MtuError Never * InnerSerializer B T O) (Either T O) :=
  let body_len := Z.max (c_min_body_len c) (bytes_len (is_builder self)) in
  total_len <-? total_length c body_len ;;
  if body_len <=? mtu then infallible (inner_serialize_inner self (c_prefix_len c) total_len)
  else Err (Mtu, self).
Definition inner_serialize (self : InnerSerializer B T O) (c : SerializeConstraints)
    : result (Never * InnerSerializer B T O) (Either T O) :=
  total_len <-? total_length c (Z.max (c_min_body_len c) (bytes_len (is_builder self))) ;;
  infallible (inner_serialize_inner self (c_prefix_len c) total_len).
#[export] Instance inner_serializer : Serializer (InnerSerializer B T O) := {|
  ser_buffer := Either T O;
  ser_error := Never;
  ser_inner_error := Never;
  serialize := inner_serialize;
  serialize_mtu := inner_serialize_mtu
|}.
End inner.

(** * [FnSerializer] *)
Record FnSerializer (B O : Type) := { fs_builder : B; fs_get_buf : Z → result Never O }.
Arguments fs_builder {B O} _.
Arguments fs_get_buf {B O} _ _.

Section fn.
Context {B O : Type} `{!InnerPacketBuilder B} `{!ParseBuffer O, !ParseBufferMut O, !Buffer O, !BufferMut O}.

Definition fn_serialize_inner (self : FnSerializer B O) (prefix_len total_len : Z) : result Never O :=
  b <-? fs_get_buf self total_len ;; fill_body (fs_builder self) prefix_len b.
Definition fn_serialize_mtu (self : FnSerializer B O) (mtu : Z) (c : SerializeConstraints)
    : result (MtuError Never * FnSerializer B O) O :=
  let body_len := Z.max (c_min_body_len c) (bytes_len (fs_builder self)) in
  total_len <-? total_length c body_len ;;
  if body_len <=? mtu then infallible (fn_serialize_inner self (c_prefix_len c) total_len)
  else Err (Mtu, self).
Definition fn_serialize (self : FnSerializer B O) (c : SerializeConstraints) : result (Never * FnSerializer B O) O :=
  total_len <-? total_length c (Z.max (c_min_body_len c) (bytes_len (fs_builder self))) ;;
  infallible (fn_serialize_inner self (c_prefix_len c) total_len).
#[export] Instance fn_serializer : Serializer (FnSerializer B O) := {|
  ser_buffer := O;
  ser_error := Never;
  ser_inner_error := Never;
  serialize := fn_serialize;
  serialize_mtu := fn_serialize_mtu
|}.
End fn.

(** The [get_buf] of the constructors named [new_vec]. *)
Definition vec_get_buf (n : Z) : result Never Buf := bytes <-? new_vec n ;; buf_new bytes Unbounded Unbounded.

(** * [BufferSerializer] *)
Inductive TruncateDirection := DiscardFront | DiscardBack | NoTruncating.
Record BufferSerializer (T O : Type) := {
  bs_buf : T;
  bs_get_buf : Z → result Never O;
  bs_direction : TruncateDirection
}.
Arguments bs_buf {T O} _.
Arguments bs_get_buf {T O} _ _.
Arguments bs_direction {T O} _.

Section buffer.
Context {T O : Type} `{!ParseBuffer T, !ParseBufferMut T, !Buffer T, !BufferMut T}.
Context `{!ParseBuffer O, !ParseBufferMut O, !Buffer O, !BufferMut O}.

(** [a && b] evaluates [b] when [a] is true. *)
Definition satisfies (b : T) (c : SerializeConstraints) (body_and_padding : Z) : result Never bool :=
  p <-? prefix_len b ;;
  if c_prefix_len c <=? p then
    n <-? buf_len b ;;
    s <-? suffix_len b ;;
    have <-? uadd 64 n s ;;
    need <-? uadd 64 body_and_padding (c_suffix_len c) ;;
    Ok (need <=? have)
  else Ok false.
Definition buffer_serialize_inner (b : T) (get_buf : Z → result Never O) (c : SerializeConstraints)
    (body_and_padding total_len : Z) : result Never (Either T O) :=
  fits <-? satisfies b c body_and_padding ;;
  if fits : bool then Ok (EitherA b)
  else
    new_buf <-? get_buf total_len ;;
    n <-? buf_len b ;;
    e <-? uadd 64 (c_prefix_len c) n ;;
    new_buf <-? shrink (Included (c_prefix_len c)) (Excluded e) new_buf ;;
    body <-? as_ref b ;;
    new_buf <-? as_mut (copy_from_slice body) new_buf ;;
    Ok (EitherB new_buf).

(** [None] is the error of a buffer that does not fit and is not truncated. *)
Definition truncate (direction : TruncateDirection) (mtu : Z) (b : T) : result Never (option T) :=
  n <-? buf_len b ;;
  let excess_bytes := n - mtu in
  if 0 <? excess_bytes then
    match direction with
    | NoTruncating => Ok None
    | DiscardFront => b <-? shrink_front excess_bytes b ;; Ok (Some b)
    | DiscardBack => b <-? shrink_back excess_bytes b ;; Ok (Some b)
    end
  else Ok (Some b).
Definition buffer_serialize_mtu (self : BufferSerializer T O) (mtu : Z) (c : SerializeConstraints)
    : result (MtuError Never * BufferSerializer T O) (Either T O) :=
  if mtu <? c_min_body_len c then Err (Mtu, self)
  else
    truncated <-? infallible (truncate (bs_direction self) mtu (bs_buf self)) ;;
    match truncated with
    | None => Err (Mtu, self)
    | Some b =>
        n <-? infallible (buf_len b) ;;
        let body_and_padding := Z.max (c_min_body_len c) n in
        infallible (assert (body_and_padding <=? mtu)) ;?;
        total_len <-? total_length c body_and_padding ;;
        infallible (buffer_serialize_inner b (bs_get_buf self) c body_and_padding total_len)
    end.
Definition buffer_serialize (self : BufferSerializer T O) (c : SerializeConstraints)
    : result (Never * BufferSerializer T O) (Either T O) :=
  n <-? infallible (buf_len (bs_buf self)) ;;
  let body_and_padding := Z.max (c_min_body_len c) n in
  total_len <-? total_length c body_and_padding ;;
  infallible (buffer_serialize_inner (bs_buf self) (bs_get_buf self) c body_and_padding total_len).
#[export] Instance buffer_serializer : Serializer (BufferSerializer T O) := {|
  ser_buffer := Either T O;
  ser_error := Never;
  ser_inner_error := Never;
  serialize := buffer_serialize;
  serialize_mtu := buffer_serialize_mtu
|}.
End buffer.

(** [map_err] of an error that carries the serializer. *)
Definition map_err {E S S' A : Type} (f : S → S') (r : result (E * S) A) : result (E * S') A :=
  match r with
  | Ok a => Ok a
  | Err (e, s) => Err (e, f s)
  | Panic => Panic
  | OutOfFuel => OutOfFuel
  end.

(** * [MtuSerializer] *)
Record MtuSerializer (S : Type) := { ms_mtu : Z; ms_inner : S }.
Arguments ms_mtu {S} _.
Arguments ms_inner {S} _.
Definition with_mtu {S : Type} (self : S) (mtu : Z) : MtuSerializer S := {| ms_mtu := mtu; ms_inner := self |}.

Section mtu.
Context {S : Type} `{!Serializer S}.
Definition mtu_serialize_mtu (self : MtuSerializer S) (mtu : Z) (c : SerializeConstraints)
    : result (MtuError ser_inner_error * MtuSerializer S) ser_buffer :=
  map_err (λ inner, {| ms_mtu := ms_mtu self; ms_inner := inner |})
    (serialize_mtu (ms_inner self) (Z.min mtu (ms_mtu self)) c).
#[export] Instance mtu_serializer : Serializer (MtuSerializer S) := {|
  ser_error := MtuError ser_inner_error;
  serialize self c := mtu_serialize_mtu self usize_max c;
  serialize_mtu := mtu_serialize_mtu
|}.
End mtu.

(** * [EncapsulatingSerializer] *)
Record EncapsulatingSerializer (B S : Type) := { es_builder : B; es_inner : S }.
Arguments es_builder {B S} _.
Arguments es_inner {B S} _.
Definition encapsulate {B S : Type} (self : S) (builder : B) : EncapsulatingSerializer B S :=
  {| es_builder := builder; es_inner := self |}.

Section encapsulating.
Context {B S : Type} `{!PacketBuilder B, !Serializer S}.

Definition min_body_mtu (self : EncapsulatingSerializer B S) (min_body mtu : Z) : result Never (option (Z * Z)) :=
  let builder := es_builder self in
  header_footer_total <-? uadd 64 (header_len builder) (footer_len builder) ;;
  let this_min_body := min_body_len builder in
  let next_min_body := Z.max 0 (min_body - header_footer_total) in
  let min_body := Z.max this_min_body next_min_body in
  let this_mtu := max_body_len builder in
  if mtu <? header_footer_total then Ok None
  else let next_mtu := mtu - header_footer_total in
       Ok (Some (min_body, Z.min next_mtu this_mtu)).

Definition encap_serialize_mtu (self : EncapsulatingSerializer B S) (mtu : Z) (c : SerializeConstraints)
    : result (MtuError ser_inner_error * EncapsulatingSerializer B S) ser_buffer :=
  let builder := es_builder self in
  prefix_len <-? uadd 64 (c_prefix_len c) (header_len builder) ;;
  suffix_len <-? uadd 64 (c_suffix_len c) (footer_len builder) ;;
  mb <-? infallible (min_body_mtu self (c_min_body_len c) mtu) ;;
  match mb with
  | None => Err (Mtu, self)
  | Some (min_body_len, mtu) =>
      let c := {| c_prefix_len := prefix_len; c_min_body_len := min_body_len; c_suffix_len := suffix_len |} in
      buffer <-? map_err (λ inner, {| es_builder := builder; es_inner := inner |})
                   (serialize_mtu (es_inner self) mtu c) ;;
      infallible (buf_serialize builder buffer)
  end.
#[export] Instance encapsulating_serializer : Serializer (EncapsulatingSerializer B S) := {|
  ser_error := MtuError ser_inner_error;
  serialize self c := encap_serialize_mtu self usize_max c;
  serialize_mtu := encap_serialize_mtu
|}.
End encapsulating.
