(* ===== verification/PacketBuffers.v ===== *)
(** Buffers, specified: a buffer is its prefix, body and suffix, and every implementation of
    the traits of [packet] simulates that; parsing consumes the ends of the body, and
    [undo_parse] gives them back. *)

From S2P Require Import Prelude Packet.

(** * The reference buffer *)
Record Parts := { pre : list Z; body : list Z; suf : list Z }.
Definition mk (p b s : list Z) : Parts := {| pre := p; body := b; suf := s |}.
Definition all_bytes (p : Parts) : list Z := pre p ++ body p ++ suf p.

Definition Parts_shrink_front (n : Z) (p : Parts) : result Never Parts :=
  if n <=? zlen (body p)
  then Ok (mk (pre p ++ take (Z.to_nat n) (body p)) (drop (Z.to_nat n) (body p)) (suf p)) else Panic.
Definition Parts_shrink_back (n : Z) (p : Parts) : result Never Parts :=
  if n <=? zlen (body p)
  then let k := Z.to_nat (zlen (body p) - n) in Ok (mk (pre p) (take k (body p)) (drop k (body p) ++ suf p)) else Panic.
Definition Parts_shrink (lo hi : Bound) (p : Parts) : result Never Parts :=
  r <-? canonicalize_range (zlen (body p)) lo hi ;;
  Ok (mk (pre p ++ take (Z.to_nat (start r)) (body p)) (slice (start r) (end_ r - start r) (body p))
    (drop (Z.to_nat (end_ r)) (body p) ++ suf p)).
Definition Parts_grow_front (n : Z) (p : Parts) : result Never Parts :=
  if n <=? zlen (pre p)
  then let k := Z.to_nat (zlen (pre p) - n) in Ok (mk (take k (pre p)) (drop k (pre p) ++ body p) (suf p)) else Panic.
Definition Parts_grow_back (n : Z) (p : Parts) : result Never Parts :=
  if n <=? zlen (suf p)
  then Ok (mk (pre p) (body p ++ take (Z.to_nat n) (suf p)) (drop (Z.to_nat n) (suf p))) else Panic.
Definition Parts_as_mut (f : list Z → result Never (list Z)) (p : Parts) : result Never Parts :=
  b <-? f (body p) ;; Ok (mk (pre p) b (suf p)).

#[export] Instance Parts_ParseBuffer : ParseBuffer Parts := {|
  as_ref p := Ok (body p);
  buf_len p := Ok (zlen (body p));
  shrink_front := Parts_shrink_front;
  shrink_back := Parts_shrink_back;
  shrink := Parts_shrink
|}.
#[export] Instance Parts_ParseBufferMut : ParseBufferMut Parts := {| as_mut := Parts_as_mut |}.
#[export] Instance Parts_Buffer : Buffer Parts := {|
  capacity p := Ok (zlen (all_bytes p));
  prefix_len p := Ok (zlen (pre p));
  suffix_len p := Ok (zlen (suf p));
  grow_front := Parts_grow_front;
  grow_back := Parts_grow_back;
  reset p := Ok (mk [] (all_bytes p) [])
|}.

(** * Simulation *)
Definition keeps_length (f : list Z → result Never (list Z)) : Prop := ∀ bs bs', f bs = Ok bs' → zlen bs' = zlen bs.
Definition bound_ok (b : Bound) : Prop := match b with Included x | Excluded x => 0 ≤ x | Unbounded => True end.

Definition simulates {T : Type} (ok : T → Prop) (parts : T → Parts) (r : result Never T) (q : result Never Parts) : Prop :=
  match r, q with
  | Ok t, Ok p => ok t ∧ parts t = p
  | Panic, Panic | OutOfFuel, OutOfFuel => True
  | _, _ => False
  end.

(** What builders of packets promise: their lengths are sizes, and they write every
    byte of the header and footer, as a function of the body. *)
Class PacketBuilderSpec (B : Type) `{!PacketBuilder B} := {
  builder_ok : B → Prop;
  packet_bytes : B → list Z → list Z;
  builder_lens b : builder_ok b → 0 ≤ header_len b ∧ 0 ≤ footer_len b ∧ header_len b + footer_len b < 2 ^ 64 ∧
    0 ≤ min_body_len b ≤ max_body_len b;
  packet_bytes_length b bd : builder_ok b → zlen (packet_bytes b bd) = header_len b + zlen bd + footer_len b;
  pb_serialize_spec b hd bd ft : builder_ok b → zlen hd = header_len b → zlen ft = footer_len b →
    min_body_len b ≤ zlen bd ≤ max_body_len b →
    pb_serialize b {| sb_buf := hd ++ bd ++ ft; sb_body := {| start := header_len b; end_ := header_len b + zlen bd |} |}
    = Ok (packet_bytes b bd);
  pb_serialize_length b sb bs : pb_serialize b sb = Ok bs → zlen bs = zlen (sb_buf sb)
}.

Class BufferSpec (T : Type) `{!ParseBuffer T, !ParseBufferMut T, !Buffer T, !BufferMut T} := {
  buf_ok : T → Prop;
  parts : T → Parts;
  buf_ok_size t : buf_ok t → zlen (all_bytes (parts t)) < 2 ^ 63;
  as_ref_spec t : buf_ok t → as_ref t = Ok (body (parts t));
  len_spec t : buf_ok t → buf_len t = Ok (zlen (body (parts t)));
  prefix_spec t : buf_ok t → prefix_len t = Ok (zlen (pre (parts t)));
  suffix_spec t : buf_ok t → suffix_len t = Ok (zlen (suf (parts t)));
  capacity_spec t : buf_ok t → capacity t = Ok (zlen (all_bytes (parts t)));
  shrink_front_spec n t : buf_ok t → 0 ≤ n → simulates buf_ok parts (shrink_front n t) (shrink_front n (parts t));
  shrink_back_spec n t : buf_ok t → 0 ≤ n → simulates buf_ok parts (shrink_back n t) (shrink_back n (parts t));
  shrink_spec lo hi t : buf_ok t → bound_ok lo → bound_ok hi → simulates buf_ok parts (shrink lo hi t) (shrink lo hi (parts t));
  grow_front_spec n t : buf_ok t → 0 ≤ n → simulates buf_ok parts (grow_front n t) (grow_front n (parts t));
  grow_back_spec n t : buf_ok t → 0 ≤ n → simulates buf_ok parts (grow_back n t) (grow_back n (parts t));
  reset_spec t : buf_ok t → simulates buf_ok parts (reset t) (reset (parts t));
  as_mut_spec f t : buf_ok t → keeps_length f → simulates buf_ok parts (as_mut f t) (as_mut f (parts t));
  buf_serialize_spec {B} `{!PacketBuilder B, !PacketBuilderSpec B} (b : B) t : buf_ok t → builder_ok b →
    simulates buf_ok parts (buf_serialize b t) (default_serialize b (parts t))
}.

(** ** Sequences of simulated operations *)
Section sim.
Context {T : Type} (ok : T → Prop) (vw : T → Parts).

Lemma sim_bind r q (k : T → result Never T) (k' : Parts → result Never Parts) :
  simulates ok vw r q → (∀ t, ok t → simulates ok vw (k t) (k' (vw t))) → simulates ok vw (rbind r k) (rbind q k').
Proof. destruct r as [t|[]| |], q as [p|[]| |]; cbn; try done. intros [Ht <-] Hk. by apply Hk. Qed.
Lemma sim_value {A} (r : result Never A) (k : A → result Never T) (k' : A → result Never Parts) :
  (∀ a, r = Ok a → simulates ok vw (k a) (k' a)) → simulates ok vw (rbind r k) (rbind r k').
Proof. destruct r as [a|[]| |]; cbn; try done. intros Hk. by apply Hk. Qed.
Lemma sim_ok t : ok t → simulates ok vw (Ok t) (Ok (vw t)).
Proof. done. Qed.
Lemma sim_inv r q : simulates ok vw r q → ∀ p, q = Ok p → ∃ t, r = Ok t ∧ ok t ∧ vw t = p.
Proof. destruct r as [t|[]| |], q as [p'|[]| |]; cbn; try done. intros [Ht <-] p [= <-]. by exists t. Qed.
End sim.

Lemma zero_front_length n : 0 ≤ n → keeps_length (zero_front n).
Proof.
  intros Hn bs bs'. unfold zero_front. destruct (Z.leb_spec n (zlen bs)) as [Hle|]; [|done]. intros [= <-].
  rewrite zlen_app. unfold zlen, zeros in *. rewrite length_replicate, length_drop. lia.
Qed.
Lemma zero_from_length n : 0 ≤ n → keeps_length (zero_from n).
Proof.
  intros Hn bs bs'. unfold zero_from. destruct (Z.leb_spec n (zlen bs)) as [Hle|]; [|done]. intros [= <-].
  rewrite zlen_app. unfold zlen, zeros in *. rewrite length_replicate, length_take. lia.
Qed.

(** The default methods of a buffer that simulates its parts simulate them too. *)
Section defaults.
Context {T : Type} `{!ParseBuffer T, !ParseBufferMut T, !Buffer T} (ok : T → Prop) (vw : T → Parts).
Context (Hlen : ∀ t, ok t → buf_len t = Ok (zlen (body (vw t)))).
Context (Hprefix : ∀ t, ok t → prefix_len t = Ok (zlen (pre (vw t)))).
Context (Hsuffix : ∀ t, ok t → suffix_len t = Ok (zlen (suf (vw t)))).
Context (Hgf : ∀ n t, ok t → 0 ≤ n → simulates ok vw (grow_front n t) (grow_front n (vw t))).
Context (Hgb : ∀ n t, ok t → 0 ≤ n → simulates ok vw (grow_back n t) (grow_back n (vw t))).
Context (Hmut : ∀ f t, ok t → keeps_length f → simulates ok vw (as_mut f t) (as_mut f (vw t))).

Lemma grow_front_zero_sim n t : ok t → 0 ≤ n → simulates ok vw (grow_front_zero n t) (grow_front_zero n (vw t)).
Proof. intros Ht Hn. apply sim_bind; [by apply Hgf|]. intros t' Ht'. by apply Hmut, zero_front_length. Qed.
Lemma grow_back_zero_sim n t : ok t → 0 ≤ n → simulates ok vw (grow_back_zero n t) (grow_back_zero n (vw t)).
Proof.
  intros Ht Hn. unfold grow_back_zero. rewrite (Hlen t Ht). cbn [rbind buf_len Parts_ParseBuffer].
  apply sim_bind; [by apply Hgb|]. intros t' Ht'. apply Hmut, zero_from_length; [done|unfold zlen; lia].
Qed.
Lemma default_serialize_sim {B} `{!PacketBuilder B, !PacketBuilderSpec B} (b : B) t : ok t → builder_ok b →
  simulates ok vw (default_serialize b t) (default_serialize b (vw t)).
Proof.
  intros Ht Hb. destruct (builder_lens b Hb) as (Hh&Hf&_). unfold default_serialize.
  rewrite (Hlen t Ht). cbn [rbind buf_len Parts_ParseBuffer].
  apply sim_bind.
  { destruct (_ <? _); [|by apply sim_ok]. apply sim_value. intros n Hn. apply grow_back_zero_sim; [done|].
    unfold usub in Hn. destruct (Z.leb_spec (zlen (body (vw t))) (min_body_len b)); [|done]. injection Hn as <-. lia. }
  intros t1 H1. rewrite (Hlen t1 H1), (Hprefix t1 H1), (Hsuffix t1 H1).
  cbn [rbind buf_len prefix_len suffix_len Parts_ParseBuffer Parts_Buffer].
  apply sim_value. intros _ _. apply sim_value. intros _ _. apply sim_bind; [by apply grow_front_zero_sim|].
  intros t2 H2. apply sim_bind; [by apply grow_back_zero_sim|]. intros t3 H3. apply sim_value. intros e _.
  apply Hmut; [done|]. intros bs bs' Hs. by apply pb_serialize_length in Hs.
Qed.
End defaults.

(** * [Buf] *)
Definition Buf_ok (t : Buf) : Prop :=
  0 ≤ start (range t) ≤ end_ (range t) ∧ end_ (range t) ≤ zlen (buf t) ∧ zlen (buf t) < 2 ^ 63.
Definition Buf_parts (t : Buf) : Parts :=
  mk (take (Z.to_nat (start (range t))) (buf t)) (slice (start (range t)) (end_ (range t) - start (range t)) (buf t))
    (drop (Z.to_nat (end_ (range t))) (buf t)).

Section Buf_facts.
Context (t : Buf) (Ht : Buf_ok t).

Lemma Buf_pre_len : zlen (pre (Buf_parts t)) = start (range t).
Proof. destruct Ht as (?&?&?). cbn. unfold zlen in *. rewrite length_take. lia. Qed.
Lemma Buf_body_len : zlen (body (Buf_parts t)) = end_ (range t) - start (range t).
Proof. destruct Ht as (?&?&?). cbn. unfold zlen, slice in *. rewrite length_take, length_drop. lia. Qed.
Lemma Buf_suf_len : zlen (suf (Buf_parts t)) = zlen (buf t) - end_ (range t).
Proof. destruct Ht as (?&?&?). cbn. unfold zlen in *. rewrite length_drop. lia. Qed.
Lemma Buf_all : all_bytes (Buf_parts t) = buf t.
Proof.
  destruct Ht as (?&?&?). unfold all_bytes. cbn. unfold slice.
  replace (Z.to_nat (end_ (range t))) with (Z.to_nat (start (range t)) + Z.to_nat (end_ (range t) - start (range t)))%nat by lia.
  rewrite <- drop_drop, take_drop. by rewrite take_drop.
Qed.
(** A new range of the same bytes. *)
Lemma Buf_parts_unique s e p b x : buf t = p ++ b ++ x → zlen p = s → zlen b = e - s →
  Buf_ok (set_range s e t) ∧ Buf_parts (set_range s e t) = mk p b x.
Proof.
  intros Hb Hp Hbl. destruct Ht as (_&_&Hs). rewrite Hb in Hs. unfold Buf_ok, Buf_parts, set_range. cbn. rewrite Hb.
  rewrite !zlen_app in *. unfold zlen in *. split; [lia|]. unfold mk, slice. f_equal.
  - by rewrite take_app_length' by lia.
  - rewrite drop_app_length' by lia. by rewrite take_app_length' by lia.
  - rewrite app_assoc. by rewrite drop_app_length' by (rewrite length_app; lia).
Qed.
End Buf_facts.

Section Buf_sim.
Context (t : Buf) (Ht : Buf_ok t).
Abbreviation sim := (simulates Buf_ok Buf_parts).

Lemma Buf_split : buf t = pre (Buf_parts t) ++ body (Buf_parts t) ++ suf (Buf_parts t).
Proof. symmetry. by apply Buf_all. Qed.
Lemma Buf_len_ok : Buf_len t = Ok (zlen (body (Buf_parts t))).
Proof. rewrite Buf_body_len by done. apply usub_ok. destruct Ht. lia. Qed.
Lemma Buf_index_ok : index (range t) (buf t) = Ok (body (Buf_parts t)).
Proof. destruct Ht as (H1&H2&H3). unfold index. by rewrite (proj2 (Z.leb_le _ _)), (proj2 (Z.leb_le _ _)) by lia. Qed.
Lemma Buf_suffix_ok : Buf_suffix_len t = Ok (zlen (suf (Buf_parts t))).
Proof. rewrite Buf_suf_len by done. apply usub_ok. destruct Ht. lia. Qed.

Lemma Buf_shrink_front_sim n : 0 ≤ n → sim (Buf_shrink_front n t) (Parts_shrink_front n (Buf_parts t)).
Proof.
  intros Hn. unfold Buf_shrink_front, Parts_shrink_front. rewrite Buf_len_ok. cbn [rbind].
  destruct (Z.leb_spec n (zlen (body (Buf_parts t)))) as [Hle|]; [|done]. cbn [assert rbind].
  pose proof (Buf_body_len t Ht) as Hb. pose proof (Buf_pre_len t Ht) as Hp. pose proof Ht as (H1&H2&H3).
  rewrite uadd_ok by lia. cbn [rbind]. apply (Buf_parts_unique t Ht).
  - by rewrite <- app_assoc, (app_assoc (take _ _)), take_drop, <- Buf_split.
  - rewrite zlen_app, Hp. unfold zlen in *. rewrite length_take. lia.
  - unfold zlen in *. rewrite length_drop. lia.
Qed.
Lemma Buf_shrink_back_sim n : 0 ≤ n → sim (Buf_shrink_back n t) (Parts_shrink_back n (Buf_parts t)).
Proof.
  intros Hn. unfold Buf_shrink_back, Parts_shrink_back. rewrite Buf_len_ok. cbn [rbind].
  destruct (Z.leb_spec n (zlen (body (Buf_parts t)))) as [Hle|]; [|done]. cbn [assert rbind].
  pose proof (Buf_body_len t Ht) as Hb. pose proof (Buf_pre_len t Ht) as Hp. pose proof Ht as (H1&H2&H3).
  rewrite usub_ok by lia. cbn [rbind]. apply (Buf_parts_unique t Ht).
  - by rewrite (app_assoc (take _ _)), take_drop, <- Buf_split.
  - done.
  - unfold zlen in *. rewrite length_take. lia.
Qed.
Lemma canonical_bounds len lo hi r : 0 ≤ len → bound_ok lo → bound_ok hi → canonicalize_range len lo hi = Ok r →
  0 ≤ start r ≤ end_ r ∧ end_ r ≤ len.
Proof.
  intros Hl Hlo Hhi (l&El&(u&(u0&_&[= <-])%rbind_ok_inv&(u'&Eu&([]&Ea&[= <-])%rbind_ok_inv)%rbind_ok_inv)%rbind_ok_inv)%rbind_ok_inv.
  cbn. destruct (Z.ltb_spec len u0); [done|]. injection Eu as <-. unfold assert in Ea. destruct (Z.leb_spec l u0); [|done].
  assert (0 ≤ l); [|lia]. destruct lo; cbn in *; unfold uadd in *; simplify_eq/=; try lia. destruct (_ <? _); simplify_eq. lia.
Qed.
Lemma Buf_shrink_sim lo hi : bound_ok lo → bound_ok hi → sim (Buf_shrink lo hi t) (Parts_shrink lo hi (Buf_parts t)).
Proof.
  intros Hlo Hhi. unfold Buf_shrink, Parts_shrink. rewrite Buf_len_ok. cbn [rbind]. apply sim_value. intros r Hr.
  apply canonical_bounds in Hr as [H1 H2]; [|unfold zlen; lia|done..].
  pose proof (Buf_body_len t Ht) as Hb. pose proof (Buf_pre_len t Ht) as Hp. pose proof Ht as (H3&H4&H5).
  rewrite !uadd_ok by lia. cbn [rbind]. apply (Buf_parts_unique t Ht).
  - rewrite <- app_assoc, (app_assoc (take _ _)), (app_assoc _ _ (suf _)). rewrite Buf_split at 1. f_equal. f_equal. unfold slice.
    replace (Z.to_nat (end_ r)) with (Z.to_nat (start r) + Z.to_nat (end_ r - start r))%nat by lia.
    by rewrite <- drop_drop, <- app_assoc, take_drop, take_drop.
  - rewrite zlen_app, Hp. unfold zlen in *. rewrite length_take. lia.
  - unfold zlen, slice in *. rewrite length_take, length_drop. lia.
Qed.
Lemma Buf_grow_front_sim n : 0 ≤ n → sim (Buf_grow_front n t) (Parts_grow_front n (Buf_parts t)).
Proof.
  intros Hn. unfold Buf_grow_front, Parts_grow_front. rewrite (Buf_pre_len t Ht).
  destruct (Z.leb_spec n (start (range t))) as [Hle|]; [|done]. cbn [assert rbind].
  pose proof (Buf_body_len t Ht) as Hb. pose proof (Buf_pre_len t Ht) as Hp. pose proof Ht as (H1&H2&H3).
  rewrite usub_ok by lia. cbn [rbind]. apply (Buf_parts_unique t Ht).
  - by rewrite <- app_assoc, (app_assoc (take _ _)), take_drop, <- Buf_split.
  - unfold zlen in *. rewrite length_take. lia.
  - rewrite zlen_app, Hb. unfold zlen in *. rewrite length_drop. lia.
Qed.
Lemma Buf_grow_back_sim n : 0 ≤ n → sim (Buf_grow_back n t) (Parts_grow_back n (Buf_parts t)).
Proof.
  intros Hn. unfold Buf_grow_back, Parts_grow_back. rewrite Buf_suffix_ok. cbn [rbind].
  destruct (Z.leb_spec n (zlen (suf (Buf_parts t)))) as [Hle|]; [|done]. cbn [assert rbind].
  pose proof (Buf_body_len t Ht) as Hb. pose proof (Buf_pre_len t Ht) as Hp. pose proof (Buf_suf_len t Ht) as Hs.
  pose proof Ht as (H1&H2&H3). rewrite uadd_ok by lia. cbn [rbind]. apply (Buf_parts_unique t Ht).
  - by rewrite <- app_assoc, take_drop, <- Buf_split.
  - done.
  - rewrite zlen_app, Hb. unfold zlen in *. rewrite length_take. lia.
Qed.
Lemma Buf_as_mut_sim f : keeps_length f → sim (Buf_as_mut f t) (Parts_as_mut f (Buf_parts t)).
Proof.
  intros Hf. pose proof (Buf_body_len t Ht) as Hb. pose proof (Buf_pre_len t Ht) as Hp. pose proof Ht as (H1&H2&H3).
  unfold Buf_as_mut, Parts_as_mut. rewrite Buf_index_ok. cbn [rbind]. apply sim_value. intros b Hfb. apply Hf in Hfb.
  set (t' := {| buf := _; range := _ |}). replace t' with (set_range (start (range t)) (end_ (range t)) t') by (by destruct t as [? []]).
  assert (buf t' = pre (Buf_parts t) ++ b ++ suf (Buf_parts t)) as Hbuf.
  { subst t'. cbn [buf]. unfold splice. f_equal. f_equal. cbn. f_equal. unfold zlen in *. lia. }
  apply Buf_parts_unique; [|done|done|lia]. unfold Buf_ok. rewrite Hbuf, !zlen_app, Hp, Hfb, Hb, (Buf_suf_len t Ht).
  subst t'. cbn. lia.
Qed.
End Buf_sim.

Lemma Buf_reset_sim t : Buf_ok t → simulates Buf_ok Buf_parts (Buf_reset t) (reset (Buf_parts t)).
Proof.
  intros Ht. pose proof Ht as (H1&H2&H3). unfold Buf_reset, Buf_grow_front. rewrite Z.leb_refl. cbn [assert rbind].
  rewrite usub_ok, Z.sub_diag by lia. cbn [rbind]. unfold Buf_suffix_len at 1. cbn [range buf set_range end_].
  rewrite usub_ok by lia. cbn [rbind]. unfold Buf_grow_back, Buf_suffix_len. cbn [range buf set_range end_ start].
  rewrite usub_ok by lia. cbn [rbind]. rewrite Z.leb_refl. cbn [assert rbind]. rewrite uadd_ok by lia. cbn [rbind].
  change (set_range _ _ (set_range _ _ t)) with (set_range 0 (end_ (range t) + (zlen (buf t) - end_ (range t))) t).
  apply (Buf_parts_unique t Ht); [|done|].
  - by rewrite Buf_all, app_nil_r.
  - rewrite Buf_all by done. lia.
Qed.

#[export] Instance Buf_spec : BufferSpec Buf.
Proof.
  unshelve econstructor; [exact Buf_ok|exact Buf_parts|..].
  - intros t Ht. rewrite Buf_all by done. by destruct Ht as (_&_&?).
  - apply Buf_index_ok.
  - apply Buf_len_ok.
  - intros t Ht. cbn [prefix_len Buf_Buffer]. by rewrite Buf_pre_len.
  - apply Buf_suffix_ok.
  - intros t Ht. cbn [capacity Buf_Buffer]. by rewrite Buf_all.
  - intros n t Ht. by apply Buf_shrink_front_sim.
  - intros n t Ht. by apply Buf_shrink_back_sim.
  - intros lo hi t Ht. by apply Buf_shrink_sim.
  - intros n t Ht. by apply Buf_grow_front_sim.
  - intros n t Ht. by apply Buf_grow_back_sim.
  - intros t Ht. by apply Buf_reset_sim.
  - intros f t Ht. by apply Buf_as_mut_sim.
  - intros B ? ? b t Ht Hb. eapply default_serialize_sim; [..|done|exact Hb].
    + apply Buf_len_ok.
    + intros t' Ht'. cbn [prefix_len Buf_Buffer]. by rewrite Buf_pre_len.
    + apply Buf_suffix_ok.
    + intros n t' Ht'. by apply Buf_grow_front_sim.
    + intros n t' Ht'. by apply Buf_grow_back_sim.
    + intros f t' Ht'. by apply Buf_as_mut_sim.
Defined.

(** * [Either] *)
Section either_spec.
Context {A B : Type} `{BufferSpec A, BufferSpec B}.

Definition Either_ok (t : Either A B) : Prop := ask buf_ok buf_ok t.
Definition Either_parts (t : Either A B) : Parts := ask parts parts t.

(** A change of the buffer inside simulates when both changes do. *)
Lemma change_sim (f : A → result Never A) (g : B → result Never B) (q : Parts → result Never Parts) t :
  Either_ok t → (∀ a, buf_ok a → simulates buf_ok parts (f a) (q (parts a))) →
  (∀ b, buf_ok b → simulates buf_ok parts (g b) (q (parts b))) →
  simulates Either_ok Either_parts (change f g t) (q (Either_parts t)).
Proof.
  intros Ht Hf Hg. destruct t as [a|b]; cbn in *.
  - specialize (Hf a Ht). by destruct (f a) as [a'|[]| |], (q (parts a)) as [p|[]| |].
  - specialize (Hg b Ht). by destruct (g b) as [b'|[]| |], (q (parts b)) as [p|[]| |].
Qed.

#[export] Instance Either_spec : BufferSpec (Either A B).
Proof.
  unshelve econstructor; [exact Either_ok|exact Either_parts|..].
  - intros [a|b] Ht; [exact (buf_ok_size a Ht)|exact (buf_ok_size b Ht)].
  - intros [a|b] Ht; [exact (as_ref_spec a Ht)|exact (as_ref_spec b Ht)].
  - intros [a|b] Ht; [exact (len_spec a Ht)|exact (len_spec b Ht)].
  - intros [a|b] Ht; [exact (prefix_spec a Ht)|exact (prefix_spec b Ht)].
  - intros [a|b] Ht; [exact (suffix_spec a Ht)|exact (suffix_spec b Ht)].
  - intros [a|b] Ht; [exact (capacity_spec a Ht)|exact (capacity_spec b Ht)].
  - intros n t Ht Hn. apply (change_sim _ _ (shrink_front n)); [done|intros; by apply shrink_front_spec..].
  - intros n t Ht Hn. apply (change_sim _ _ (shrink_back n)); [done|intros; by apply shrink_back_spec..].
  - intros lo hi t Ht Hl Hh. apply (change_sim _ _ (shrink lo hi)); [done|intros; by apply shrink_spec..].
  - intros n t Ht Hn. apply (change_sim _ _ (grow_front n)); [done|intros; by apply grow_front_spec..].
  - intros n t Ht Hn. apply (change_sim _ _ (grow_back n)); [done|intros; by apply grow_back_spec..].
  - intros t Ht. apply (change_sim _ _ reset); [done|intros; by apply reset_spec..].
  - intros f t Ht Hf. apply (change_sim _ _ (as_mut f)); [done|intros; by apply as_mut_spec..].
  - intros C ? ? b t Ht Hb. apply (change_sim _ _ (default_serialize b)); [done|intros; by eapply buf_serialize_spec..].
Defined.
End either_spec.

(** A parser, as the bytes it takes from its view one after another; it stops at a
    take that fails. *)
Inductive Take := Front (n : Z) | Back (n : Z).
Fixpoint consume {V : Type} `{!BufferView V} (ops : list Take) (v : V) : result Never (bool * V) :=
  match ops with
  | [] => Ok (true, v)
  | op :: ops =>
      r <-? match op with Front n => view_take_front n v | Back n => view_take_back n v end ;;
      match fst r with
      | None => Ok (false, snd r)
      | Some _ => consume ops (snd r)
      end
  end.

Definition take_ok (op : Take) : Prop := match op with Front n | Back n => 0 ≤ n end.
Fixpoint fronts (ops : list Take) : Z :=
  match ops with [] => 0 | Front n :: ops => n + fronts ops | Back _ :: ops => fronts ops end.
Fixpoint backs (ops : list Take) : Z :=
  match ops with [] => 0 | Back n :: ops => n + backs ops | Front _ :: ops => backs ops end.

(** A packet, as it is parsed: the last [p_pad] bytes it takes from the back are padding
    after the packet. *)
Record Parsed := { p_ops : list Take; p_pad : Z }.
Definition parsed_ok (p : Parsed) : Prop := Forall take_ok (p_ops p) ∧ 0 ≤ p_pad p ≤ backs (p_ops p).
Definition parse_packet (p : Parsed) (t : Buf) : result Never (option ParseMetadata * Buf) :=
  r <-? parse_with (consume (p_ops p)) t ;;
  n <-? buf_len (snd r) ;;
  Ok (if fst r : bool then Some (from_packet (fronts (p_ops p)) n (backs (p_ops p) - p_pad p)) else None, snd r).

(** Packets in packets, from the outermost inwards; and their undoing, from the
    innermost outwards. *)
Fixpoint parse_all (ps : list Parsed) (t : Buf) : result Never (option (list ParseMetadata) * Buf) :=
  match ps with
  | [] => Ok (Some [], t)
  | p :: ps =>
      r <-? parse_packet p t ;;
      match fst r with
      | None => Ok (None, snd r)
      | Some meta => rest <-? parse_all ps (snd r) ;; Ok (cons meta <$> fst rest, snd rest)
      end
  end.
Fixpoint undo_all (metas : list ParseMetadata) (t : Buf) : result Never Buf :=
  match metas with
  | [] => Ok t
  | meta :: metas => t <-? undo_parse meta t ;; undo_all metas t
  end.

(** The padding after the outermost packet. *)
Definition outer_pad (ps : list Parsed) : Z := match ps with [] => 0 | p :: _ => p_pad p end.

Lemma fronts_nonneg ops : Forall take_ok ops → 0 ≤ fronts ops.
Proof. induction 1 as [|[n|n] ops Hn _ IH]; cbn in *; lia. Qed.
Lemma backs_nonneg ops : Forall take_ok ops → 0 ≤ backs ops.
Proof. induction 1 as [|[n|n] ops Hn _ IH]; cbn in *; lia. Qed.

Section parse.
Context (t : Buf) (Ht : Buf_ok t).

(** A view of [t] after some bytes were taken. *)
Definition at_range (s e : Z) (v : BufView) : Prop :=
  bv_range v = {| start := s; end_ := e |} ∧ zlen (bv_buf v) = e - s ∧ start (range t) ≤ s ≤ e ∧ e ≤ end_ (range t).

Lemma at_start : at_range (start (range t)) (end_ (range t)) {| bv_buf := body (Buf_parts t); bv_range := range t |}.
Proof.
  pose proof Ht as (H1&_). unfold at_range. cbn [bv_range bv_buf]. rewrite (Buf_body_len t Ht). destruct (range t). cbn in *.
  split; [done|lia].
Qed.
Lemma take_step op s e v r : at_range s e v → take_ok op →
  match op with Front n => bv_take_front n v | Back n => bv_take_back n v end = Ok r → ∀ bs, fst r = Some bs →
  at_range (s + fronts [op]) (e - backs [op]) (snd r).
Proof.
  intros (Hr&Hl&Hs&He) Hop Hv bs Hbs. pose proof Ht as (H1&H2&H3). destruct op as [n|n]; cbn [fronts backs take_ok] in *.
  - unfold bv_take_front in Hv. destruct (Z.ltb_spec (zlen (bv_buf v)) n); [injection Hv as <-; done|].
    rewrite Hr in Hv. cbn [start end_] in Hv. rewrite uadd_ok in Hv by lia. cbn [rbind] in Hv.
    unfold take_front in Hv. rewrite (proj2 (Z.leb_le _ _)) in Hv by lia. cbn [rbind fst snd] in Hv. injection Hv as <-.
    cbn [snd]. unfold at_range. cbn [bv_range bv_buf]. unfold zlen in *. rewrite length_drop. split; [f_equal; lia|lia].
  - unfold bv_take_back in Hv. destruct (Z.ltb_spec (zlen (bv_buf v)) n); [injection Hv as <-; done|].
    rewrite Hr in Hv. cbn [start end_] in Hv. rewrite usub_ok in Hv by lia. cbn [rbind] in Hv.
    unfold take_back in Hv. rewrite usub_ok in Hv by lia. cbn [rbind] in Hv.
    rewrite (proj2 (Z.leb_le _ _)) in Hv by lia. cbn [rbind fst snd] in Hv. injection Hv as <-.
    cbn [snd]. unfold at_range. cbn [bv_range bv_buf]. unfold zlen in *. rewrite length_take. split; [f_equal; lia|lia].
Qed.
Lemma consume_range ops s e v v' : at_range s e v → Forall take_ok ops → consume ops v = Ok (true, v') →
  at_range (s + fronts ops) (e - backs ops) v'.
Proof.
  intros Hv Hops. revert s e v Hv. induction Hops as [|op ops Hop Hops IH]; intros s e v Hv; cbn [consume].
  { intros [= <-]. cbn [fronts backs]. by rewrite Z.add_0_r, Z.sub_0_r. }
  intros (r&Hr&Hk)%rbind_ok_inv. destruct (fst r) as [bs|] eqn:Hbs; [|done].
  pose proof (take_step op s e v r Hv Hop Hr bs Hbs) as Hv'. apply (IH _ _ _ Hv') in Hk.
  destruct op; cbn [fronts backs] in *; by rewrite ?Z.add_0_r, ?Z.sub_0_r, ?Z.add_assoc, ?Z.sub_add_distr in *.
Qed.
(** Bytes taken from the front and from the back leave the rest as the body. *)
Lemma parse_packet_range p m t' : parsed_ok p → parse_packet p t = Ok (Some m, t') →
  let s := start (range t) + fronts (p_ops p) in let e := end_ (range t) - backs (p_ops p) in
  start (range t) ≤ s ≤ e ∧ e ≤ end_ (range t) ∧ t' = set_range s e t ∧ m = from_packet (fronts (p_ops p)) (e - s) (backs (p_ops p) - p_pad p).
Proof.
  intros [Hops Hpad] (r&Hr&(n&Hn&[= Hm <-])%rbind_ok_inv)%rbind_ok_inv. destruct (fst r) eqn:Hgood; [|done].
  unfold parse_with, buffer_view in Hr. rewrite Buf_index_ok in Hr by done. cbn [rbind] in Hr.
  apply rbind_ok_inv in Hr as ([b v]&Hv&[= <-]). cbn [fst snd] in *. subst b.
  apply (consume_range _ (start (range t)) (end_ (range t))) in Hv as (Hrange&Hl&Hs&He); [|exact at_start|done].
  rewrite Hrange in *. cbn [snd range start end_] in *. cbn in Hn. unfold Buf_len in Hn. cbn in Hn.
  rewrite usub_ok in Hn by lia. injection Hn as <-. injection Hm as <-. done.
Qed.

(** Undoing a parse, on ranges: the padding taken after the body comes back with it. *)
Lemma undo_parse_range s e m : start (range t) ≤ s ≤ e → e ≤ end_ (range t) →
  let e' := e + Z.max 0 (meta_body_len m - (e - s)) + meta_footer_len m in
  0 ≤ meta_header_len m ≤ s → 0 ≤ meta_footer_len m → e' ≤ zlen (buf t) →
  undo_parse m (set_range s e t) = Ok (set_range (s - meta_header_len m) e' t).
Proof.
  intros Hs He e' Hh Hf He'. pose proof Ht as (H1&H2&H3). subst e'. unfold undo_parse.
  cbn [buf_len Buf_ParseBuffer grow_back grow_front Buf_Buffer]. unfold Buf_len. cbn [range set_range start end_].
  rewrite usub_ok by lia. cbn [rbind].
  assert ((if e - s <? meta_body_len m then n <-? usub (meta_body_len m) (e - s) ;; Buf_grow_back n (set_range s e t)
    else Ok (set_range s e t)) = Ok (set_range s (e + Z.max 0 (meta_body_len m - (e - s))) t)) as ->.
  { destruct (Z.ltb_spec (e - s) (meta_body_len m)) as [Hlt|Hge].
    - rewrite usub_ok by lia. cbn [rbind]. unfold Buf_grow_back, Buf_suffix_len. cbn [range set_range start end_ buf].
      rewrite usub_ok by lia. cbn [rbind]. rewrite (proj2 (Z.leb_le _ _)) by lia. cbn [assert rbind].
      rewrite uadd_ok by lia. cbn [rbind]. unfold set_range. cbn. do 3 f_equal. lia.
    - replace (Z.max 0 (meta_body_len m - (e - s))) with 0 by lia. by rewrite Z.add_0_r. }
  cbn [rbind]. unfold Buf_grow_front, Buf_grow_back, Buf_suffix_len. cbn [range set_range start end_ buf].
  rewrite (proj2 (Z.leb_le _ _)) by lia. cbn [assert rbind]. rewrite usub_ok by lia. cbn [rbind range set_range start end_ buf].
  rewrite usub_ok by lia. cbn [rbind]. rewrite (proj2 (Z.leb_le _ _)) by lia. cbn [assert rbind]. by rewrite uadd_ok by lia.
Qed.
End parse.

Lemma set_range_range t : set_range (start (range t)) (end_ (range t)) t = t.
Proof. by destruct t as [? []]. Qed.
Lemma undo_all_app ms ms' t : undo_all (ms ++ ms') t = (t <-? undo_all ms t ;; undo_all ms' t).
Proof. revert t. induction ms as [|m ms IH]; intros t; cbn [undo_all app]; [done|]. destruct (undo_parse m t); cbn; [apply IH|done..]. Qed.

(** Undoing all the packets, from the innermost, leaves the body as it was before the
    first, without the padding after it. *)
Lemma undo_all_range ps t t' metas : Buf_ok t → Forall parsed_ok ps → parse_all ps t = Ok (Some metas, t') →
  undo_all (reverse metas) t' = Ok (set_range (start (range t)) (end_ (range t) - outer_pad ps) t) ∧
  0 ≤ outer_pad ps ≤ end_ (range t) - start (range t).
Proof.
  intros Ht Hps. revert t metas Ht. induction Hps as [|p ps Hp Hps IH]; intros t metas Ht; cbn [parse_all].
  { intros [= <- <-]. cbn. rewrite Z.sub_0_r, set_range_range. destruct Ht. split; [done|lia]. }
  intros ([[m|] t1]&Hparse&Hr)%rbind_ok_inv; [|done]. cbn [fst snd] in Hr.
  apply rbind_ok_inv in Hr as ([[ms|] t2]&Hall&[= <- <-]).
  destruct (parse_packet_range t Ht p m t1 Hp Hparse) as (Hs&He&->&->).
  set (s := start (range t) + fronts (p_ops p)) in *. set (e := end_ (range t) - backs (p_ops p)) in *.
  pose proof Ht as (H1&H2&H3). destruct (IH (set_range s e t) ms) as [Hundo Hin]; [unfold Buf_ok; cbn; lia|done|].
  cbn [range set_range start end_] in Hundo, Hin. change (set_range s (e - outer_pad ps) (set_range s e t)) with (set_range s (e - outer_pad ps) t) in Hundo.
  destruct Hp as [Hops Hpad]. pose proof (fronts_nonneg _ Hops). pose proof (backs_nonneg _ Hops).
  rewrite reverse_cons, undo_all_app, Hundo. cbn [rbind undo_all].
  rewrite (undo_parse_range t Ht); cbn [from_packet meta_header_len meta_body_len meta_footer_len]; [|lia..].
  cbn [rbind outer_pad]. split; [|lia]. f_equal. f_equal; lia.
Qed.

(** C32: However packets were nested in the body of a buffer, and with or without padding
    between them, undoing their parsing in reverse order gives back the bytes of the
    outermost packet as the body, and leaves the rest of the buffer alone. *)
Theorem packet_undo_parse (ps : list Parsed) (t t' : Buf) (metas : list ParseMetadata) :
  Buf_ok t → Forall parsed_ok ps → parse_all ps t = Ok (Some metas, t') →
  ∃ t'', undo_all (reverse metas) t' = Ok t'' ∧ Buf_ok t'' ∧
    let n := Z.to_nat (zlen (body (Buf_parts t)) - outer_pad ps) in
    Buf_parts t'' = mk (pre (Buf_parts t)) (take n (body (Buf_parts t))) (drop n (body (Buf_parts t)) ++ suf (Buf_parts t)).
Proof.
  intros Ht Hps Hparse. destruct (undo_all_range ps t t' metas Ht Hps Hparse) as [Hundo Hpad].
  eexists. split; [exact Hundo|]. cbv zeta. pose proof (Buf_body_len t Ht) as Hl.
  apply (Buf_parts_unique t Ht).
  - by rewrite (app_assoc (take _ _)), take_drop, <- Buf_split.
  - by apply Buf_pre_len.
  - unfold zlen in *. rewrite length_take. lia.
Qed.

(** A packet of 2 + 3 + 1 bytes with 2 bytes of padding inside another of 1 + 8 + 1. *)
Definition nested : Buf := {| buf := [100; 1; 10; 11; 20; 21; 22; 30; 0; 0; 2; 200]; range := {| start := 1; end_ := 11 |} |}.
Definition nested_packets : list Parsed :=
  [{| p_ops := [Front 1; Back 1]; p_pad := 0 |}; {| p_ops := [Front 2; Back 2; Back 1]; p_pad := 2 |}].
Lemma packet_undo_parse_witness : ∃ metas t' t'', parse_all nested_packets nested = Ok (Some metas, t') ∧
  body (Buf_parts t') = [20; 21; 22] ∧ undo_all (reverse metas) t' = Ok t'' ∧ body (Buf_parts t'') = [1; 10; 11; 20; 21; 22; 30; 0; 0; 2].
Proof.
  assert (Buf_ok nested) as Hok by (unfold Buf_ok, zlen; cbn; lia).
  assert (Forall parsed_ok nested_packets) as Hps.
  { repeat apply Forall_cons_2; [..|apply Forall_nil_2]; (split; [repeat apply Forall_cons_2; cbn; try lia; apply Forall_nil_2|cbn; lia]). }
  destruct (packet_undo_parse nested_packets nested {| buf := buf nested; range := {| start := 4; end_ := 7 |} |}
    [from_packet 1 8 1; from_packet 2 3 1] Hok Hps eq_refl) as (t''&Hu&_&Hp).
  exists [from_packet 1 8 1; from_packet 2 3 1], {| buf := buf nested; range := {| start := 4; end_ := 7 |} |}, t''.
  split_and!; [reflexivity|reflexivity|exact Hu|]. rewrite Hp. reflexivity.
Defined.

(** [take_rest_back_zero] is documented to take from the back; it moves the start of
    the body, not its end. *)
Example take_rest_back_zero_front :
  snd <$> (match take_rest_back_zero (buffer_view_mut nested) with Ok r => Some r | _ => None end) =
    Some {| vm_buf := [100; 0; 0; 0; 0; 0; 0; 0; 0; 0; 0; 200]; vm_lo := 11; vm_hi := 11; vm_range := {| start := 11; end_ := 11 |} |}.
Proof. reflexivity. Qed.
