(* ===== verification/PacketCorrect.v ===== *)
(** Serializers produce the packets they describe. *)

From S2P Require Import Prelude Packet PacketSerialize PacketBuffers.

(** * One layer *)
Definition padding (n : Z) (bd : list Z) : list Z := zeros (n - zlen bd).

Section layer.
Context {B : Type} `{!PacketBuilder B, !PacketBuilderSpec B} (b : B) (Hb : builder_ok b).

Lemma Parts_grow_back_zero n p : 0 ≤ n ≤ zlen (suf p) →
  grow_back_zero n p = Ok (mk (pre p) (body p ++ zeros n) (drop (Z.to_nat n) (suf p))).
Proof.
  intros Hn. unfold grow_back_zero. cbn [buf_len Parts_ParseBuffer rbind grow_back Parts_Buffer as_mut Parts_ParseBufferMut].
  unfold Parts_grow_back. rewrite (proj2 (Z.leb_le _ _)) by lia. cbn [rbind]. unfold Parts_as_mut, zero_from. cbn [body pre suf mk].
  rewrite zlen_app, zlen_take by lia. rewrite (proj2 (Z.leb_le _ _)) by lia. cbn [rbind].
  replace (zlen (body p) + n - zlen (body p)) with n by lia.
  rewrite take_app_length' by (unfold zlen; lia). done.
Qed.
Lemma Parts_grow_front_zero n p : 0 ≤ n ≤ zlen (pre p) →
  grow_front_zero n p = Ok (mk (take (Z.to_nat (zlen (pre p) - n)) (pre p)) (zeros n ++ body p) (suf p)).
Proof.
  intros Hn. unfold grow_front_zero. cbn [grow_front Parts_Buffer as_mut Parts_ParseBufferMut].
  unfold Parts_grow_front. rewrite (proj2 (Z.leb_le _ _)) by lia. cbn [rbind]. unfold Parts_as_mut, zero_front. cbn [body pre suf mk].
  assert (zlen (drop (Z.to_nat (zlen (pre p) - n)) (pre p)) = n) as Hl by (rewrite zlen_drop; lia).
  rewrite zlen_app, Hl. rewrite (proj2 (Z.leb_le _ _)) by (unfold zlen; lia). cbn [rbind].
  rewrite drop_app_length' by (unfold zlen in *; lia). done.
Qed.

(** The body is padded with zeroes, and the header and footer go around it. *)
Lemma Parts_serialize p : let pad := padding (min_body_len b) (body p) in
  header_len b ≤ zlen (pre p) → zlen pad + footer_len b ≤ zlen (suf p) → zlen (body p) ≤ max_body_len b →
  zlen (all_bytes p) < 2 ^ 63 →
  default_serialize b p = Ok (mk (take (Z.to_nat (zlen (pre p) - header_len b)) (pre p)) (packet_bytes b (body p ++ pad))
    (drop (Z.to_nat (zlen pad + footer_len b)) (suf p))).
Proof.
  intros pad Hh Hf Hmax Hall. destruct (builder_lens b Hb) as (H1&H2&H3&H4).
  unfold default_serialize. cbn [buf_len Parts_ParseBuffer rbind].
  assert ((if zlen (body p) <? min_body_len b
           then n <-? usub (min_body_len b) (zlen (body p)) ;; grow_back_zero n p else Ok p)
    = Ok (mk (pre p) (body p ++ pad) (drop (Z.to_nat (zlen pad)) (suf p)))) as ->.
  { subst pad. unfold padding in *. destruct (Z.ltb_spec (zlen (body p)) (min_body_len b)).
    - rewrite usub_ok by lia. cbn [rbind]. rewrite zlen_zeros in * by lia. by rewrite Parts_grow_back_zero by lia.
    - replace (zeros (min_body_len b - zlen (body p))) with (@nil Z)
        by (unfold zeros; by replace (Z.to_nat _) with 0%nat by lia). rewrite app_nil_r. by destruct p. }
  assert (zlen (body p ++ pad) = Z.max (zlen (body p)) (min_body_len b)) as Hbl.
  { rewrite zlen_app. subst pad. unfold padding, zeros, zlen in *. rewrite length_replicate. lia. }
  assert (0 ≤ zlen pad) by (unfold zlen; lia).
  cbn [rbind buf_len prefix_len suffix_len Parts_ParseBuffer Parts_Buffer body pre suf mk].
  rewrite (proj2 (Z.leb_le _ _)) by lia. cbn [assert rbind]. rewrite zlen_drop by lia.
  rewrite (proj2 (Z.leb_le _ _)) by lia. cbn [assert rbind].
  rewrite Parts_grow_front_zero by (cbn; lia). cbn [rbind]. rewrite Parts_grow_back_zero by (cbn; rewrite zlen_drop; lia).
  cbn [rbind body pre suf mk]. assert (zlen (all_bytes p) = zlen (pre p) + zlen (body p) + zlen (suf p)) as Hsum
    by (unfold all_bytes; rewrite !zlen_app; lia).
  rewrite uadd_ok by (rewrite zlen_app; unfold zlen in *; lia). cbn [rbind as_mut Parts_ParseBufferMut]. unfold Parts_as_mut. cbn [body pre suf mk].
  rewrite <- app_assoc, pb_serialize_spec; [|done|apply zlen_zeros; lia|apply zlen_zeros; lia|lia].
  cbn [rbind]. do 2 f_equal. rewrite drop_drop. f_equal. unfold zlen in *. lia.
Qed.
End layer.

(** * What a serializer promises *)
Class InnerPacketBuilderSpec (B : Type) `{!InnerPacketBuilder B} := {
  inner_ok : B → Prop;
  inner_bytes : B → list Z;
  inner_bytes_length b : inner_ok b → zlen (inner_bytes b) = bytes_len b;
  ipb_serialize_spec b bs : inner_ok b → zlen bs = bytes_len b → ipb_serialize b bs = Ok (inner_bytes b);
  ipb_serialize_length b : keeps_length (ipb_serialize b)
}.

Definition constraints_ok (c : SerializeConstraints) : Prop :=
  0 ≤ c_prefix_len c ∧ 0 ≤ c_min_body_len c ∧ 0 ≤ c_suffix_len c.

(** The buffer has the packet as its body, room for what goes around it, and room for
    the padding; the padded packet is within the maximum. *)
Definition holds {T : Type} `{BufferSpec T} (bytes : list Z) (mtu : Z) (c : SerializeConstraints) (t : T) : Prop :=
  buf_ok t ∧ body (parts t) = bytes ∧ c_prefix_len c ≤ zlen (pre (parts t)) ∧
  Z.max (c_min_body_len c) (zlen bytes) + c_suffix_len c ≤ zlen bytes + zlen (suf (parts t)) ∧
  Z.max (c_min_body_len c) (zlen bytes) ≤ mtu.

(** [packet s mtu min_body] is the packet, if it fits in the MTU; [room s c] says that
    the sizes stay in range and that the parts of [s] are well-formed. *)
Class SerializerSpec (S : Type) `{!Serializer S} := {
  ser_spec :: BufferSpec ser_buffer;
  packet : S → Z → Z → option (list Z);
  room : S → SerializeConstraints → Prop;
  serialize_mtu_spec s mtu c : constraints_ok c → 0 ≤ mtu → room s c →
    match packet s mtu (c_min_body_len c) with
    | Some bytes => ∃ t, serialize_mtu s mtu c = Ok t ∧ holds bytes mtu c t
    | None => serialize_mtu s mtu c = Err (Mtu, s)
    end;
  serialize_spec s c : constraints_ok c → room s c →
    match packet s usize_max (c_min_body_len c) with
    | Some bytes => ∃ t, serialize s c = Ok t ∧ holds bytes usize_max c t
    | None => ∃ e, serialize s c = Err (e, s)
    end
}.

(** ** Filling a buffer *)
Definition total (c : SerializeConstraints) (n : Z) : Z := c_prefix_len c + Z.max (c_min_body_len c) n + c_suffix_len c.

Lemma total_length_ok {E} c n : constraints_ok c → 0 ≤ n → total c n < 2 ^ 63 →
  @total_length E c (Z.max (c_min_body_len c) n) = Ok (total c n).
Proof.
  intros (?&?&?) Hn Ht. unfold total_length, total in *. rewrite uadd_ok by lia. cbn [rbind]. by rewrite uadd_ok by lia.
Qed.
Lemma range_ok len lo hi : 0 ≤ lo ≤ hi → hi ≤ len →
  canonicalize_range len (Included lo) (Excluded hi) = Ok {| start := lo; end_ := hi |}.
Proof.
  intros. unfold canonicalize_range. cbn [canonicalize_lower_bound canonicalize_upper_bound rbind].
  rewrite (proj2 (Z.ltb_ge _ _)) by lia. cbn [ounwrap rbind]. by rewrite (proj2 (Z.leb_le _ _)) by lia.
Qed.

Section fill.
Context {T : Type} `{BufferSpec T}.

(** The body of [t] narrowed to a range and overwritten. *)
Lemma narrow_ok (t : T) (lo n : Z) f bytes : buf_ok t → 0 ≤ lo → 0 ≤ n → lo + n ≤ zlen (body (parts t)) →
  keeps_length f → (∀ bs, zlen bs = n → f bs = Ok bytes) → zlen bytes = n →
  ∃ t', (b <-? shrink (Included lo) (Excluded (lo + n)) t ;; as_mut f b) = Ok t' ∧ buf_ok t' ∧
    parts t' = mk (pre (parts t) ++ take (Z.to_nat lo) (body (parts t))) bytes
      (drop (Z.to_nat (lo + n)) (body (parts t)) ++ suf (parts t)).
Proof.
  intros Ht Hlo Hn Hle Hk Hf Hb.
  assert (0 ≤ lo + n) as Hhi by lia.
  destruct (sim_inv buf_ok parts _ _ (shrink_spec (Included lo) (Excluded (lo + n)) t Ht Hlo Hhi) _
    ltac:(cbn [shrink Parts_ParseBuffer]; unfold Parts_shrink; rewrite range_ok by lia; reflexivity)) as (t1&->&H1&P1).
  cbn [rbind]. cbn [start end_] in P1.
  destruct (sim_inv buf_ok parts _ _ (as_mut_spec f t1 H1 Hk) (mk (pre (parts t1)) bytes (suf (parts t1)))) as (t2&->&H2&P2).
  { cbn [as_mut Parts_ParseBufferMut]. unfold Parts_as_mut. rewrite Hf; [done|]. rewrite P1. cbn [body mk].
    unfold slice. replace (lo + n - lo) with n by lia. unfold zlen in *. rewrite length_take, length_drop. lia. }
  exists t2. rewrite P2, P1. done.
Qed.

(** ... is a buffer that meets the constraints when there was room for all. *)
Lemma narrow_holds (t t' : T) (mtu : Z) c bytes : constraints_ok c → buf_ok t' →
  total c (zlen bytes) ≤ zlen (body (parts t)) → Z.max (c_min_body_len c) (zlen bytes) ≤ mtu →
  parts t' = mk (pre (parts t) ++ take (Z.to_nat (c_prefix_len c)) (body (parts t))) bytes
    (drop (Z.to_nat (c_prefix_len c + zlen bytes)) (body (parts t)) ++ suf (parts t)) → holds bytes mtu c t'.
Proof.
  intros (H1&H2&H3) Ht' Htot Hm Hp. unfold total in Htot. assert (0 ≤ zlen bytes) by (unfold zlen; lia).
  unfold holds. rewrite Hp. cbn [pre body suf mk]. rewrite !zlen_app, zlen_take, zlen_drop by lia.
  assert (0 ≤ zlen (pre (parts t)) ∧ 0 ≤ zlen (suf (parts t))) by (unfold zlen; lia). split_and!; [done|done|lia..].
Qed.

Lemma fill_body_ok {B} `{!InnerPacketBuilder B, !InnerPacketBuilderSpec B} (b : B) (t : T) (mtu : Z) c :
  inner_ok b → constraints_ok c → buf_ok t → total c (bytes_len b) ≤ zlen (body (parts t)) →
  Z.max (c_min_body_len c) (bytes_len b) ≤ mtu →
  ∃ t', fill_body b (c_prefix_len c) t = Ok t' ∧ holds (inner_bytes b) mtu c t'.
Proof.
  intros Hb Hc Ht Htot Hm. pose proof (inner_bytes_length b Hb) as Hl. assert (0 ≤ bytes_len b) by (rewrite <- Hl; unfold zlen; lia).
  pose proof (buf_ok_size t Ht) as Hsize. unfold all_bytes in Hsize. rewrite !zlen_app in Hsize.
  destruct Hc as (H1&H2&H3). unfold total in Htot. unfold fill_body. rewrite uadd_ok by (unfold zlen in *; lia). cbn [rbind].
  destruct (narrow_ok t (c_prefix_len c) (bytes_len b) (ipb_serialize b) (inner_bytes b)) as (t'&E&Ht'&Hp);
    [done|lia|lia|lia|apply ipb_serialize_length|intros; by apply ipb_serialize_spec|done|].
  exists t'. split; [exact E|]. apply (narrow_holds t); [done|done|by rewrite Hl|by rewrite Hl|by rewrite Hl].
Qed.
End fill.

#[export] Instance slice_builder_spec : InnerPacketBuilderSpec (list Z).
Proof.
  refine {| inner_ok _ := True; inner_bytes b := b |}.
  - done.
  - intros b bs _ Hl. cbn in *. unfold copy_from_slice. by rewrite Hl, Z.eqb_refl.
  - intros b bs bs'. cbn. unfold copy_from_slice. destruct (Z.eqb_spec (zlen bs) (zlen b)); [|done]. by intros [= <-].
Defined.

(** The packet of a builder, whatever buffer it is put in. *)
Definition builder_packet {B} `{!InnerPacketBuilder B, !InnerPacketBuilderSpec B} (b : B) (mtu min_body : Z) : option (list Z) :=
  if Z.max min_body (bytes_len b) <=? mtu then Some (inner_bytes b) else None.
Definition builder_room {B} `{!InnerPacketBuilder B, !InnerPacketBuilderSpec B} (b : B) (c : SerializeConstraints) : Prop :=
  inner_ok b ∧ total c (bytes_len b) < 2 ^ 63.

Lemma builder_packet_max {B} `{!InnerPacketBuilder B, !InnerPacketBuilderSpec B} (b : B) c :
  constraints_ok c → builder_room b c → Z.max (c_min_body_len c) (bytes_len b) ≤ usize_max.
Proof. intros (?&?&?) [_ Ht]. unfold total, usize_max in *. lia. Qed.

(** [serialize_mtu] and [serialize] of a serializer whose body is [fill]. *)
Lemma builder_mtu_shape {B S T} `{!InnerPacketBuilder B, !InnerPacketBuilderSpec B, BufferSpec T} (b : B) (s : S) (fill : Z → result Never T) mtu c :
  constraints_ok c → builder_room b c →
  (∀ m, Z.max (c_min_body_len c) (bytes_len b) ≤ m → ∃ t, fill (total c (bytes_len b)) = Ok t ∧ holds (inner_bytes b) m c t) →
  match builder_packet b mtu (c_min_body_len c) with
  | Some bytes => ∃ t, (n <-? @total_length (MtuError Never * S) c (Z.max (c_min_body_len c) (bytes_len b)) ;;
      if Z.max (c_min_body_len c) (bytes_len b) <=? mtu then infallible (fill n) else Err (Mtu, s)) = Ok t ∧ holds bytes mtu c t
  | None => (n <-? @total_length (MtuError Never * S) c (Z.max (c_min_body_len c) (bytes_len b)) ;;
      if Z.max (c_min_body_len c) (bytes_len b) <=? mtu then infallible (fill n) else Err (Mtu, s)) = Err (Mtu, s)
  end.
Proof.
  intros Hc [Hb Ht] Hfill. rewrite total_length_ok; [|done|rewrite <- inner_bytes_length by done; unfold zlen; lia|done].
  unfold builder_packet. cbn [rbind]. destruct (Z.leb_spec (Z.max (c_min_body_len c) (bytes_len b)) mtu) as [Hm|]; [|done].
  destruct (Hfill mtu Hm) as (t&->&Hh). by exists t.
Qed.
Lemma builder_shape {B S T} `{!InnerPacketBuilder B, !InnerPacketBuilderSpec B, BufferSpec T} (b : B) (fill : Z → result Never T) c :
  constraints_ok c → builder_room b c →
  (∀ m, Z.max (c_min_body_len c) (bytes_len b) ≤ m → ∃ t, fill (total c (bytes_len b)) = Ok t ∧ holds (inner_bytes b) m c t) →
  match builder_packet b usize_max (c_min_body_len c) with
  | Some bytes => ∃ t, (n <-? @total_length (Never * S) c (Z.max (c_min_body_len c) (bytes_len b)) ;; infallible (fill n)) = Ok t ∧
      holds bytes usize_max c t
  | None => ∃ e, (n <-? @total_length (Never * S) c (Z.max (c_min_body_len c) (bytes_len b)) ;; infallible (fill n)) = Err e
  end.
Proof.
  intros Hc HR Hfill. pose proof (builder_packet_max b c Hc HR) as Hm. destruct HR as [Hb Ht].
  rewrite total_length_ok; [|done|rewrite <- inner_bytes_length by done; unfold zlen; lia|done].
  unfold builder_packet. rewrite (proj2 (Z.leb_le _ _) Hm). cbn [rbind].
  destruct (Hfill usize_max Hm) as (t&->&Hh). by exists t.
Qed.

(** What [get_buf] is documented to do: a buffer of the length asked for. *)
Definition makes_buffers {O} `{BufferSpec O} (get_buf : Z → result Never O) : Prop :=
  ∀ n, 0 ≤ n < 2 ^ 63 → ∃ t, get_buf n = Ok t ∧ buf_ok t ∧ n ≤ zlen (body (parts t)).

Lemma vec_makes_buffers : makes_buffers vec_get_buf.
Proof.
  intros n Hn. unfold vec_get_buf, new_vec. rewrite (proj2 (Z.ltb_lt _ _)) by lia. cbn [rbind].
  unfold buf_new, canonicalize_range. cbn [canonicalize_lower_bound canonicalize_upper_bound rbind].
  rewrite (proj2 (Z.ltb_ge _ _)) by lia. cbn [ounwrap rbind]. rewrite (proj2 (Z.leb_le _ _)) by (unfold zlen; lia). cbn [assert rbind].
  eexists. split; [reflexivity|]. assert (Buf_ok {| buf := zeros n; range := {| start := 0; end_ := zlen (zeros n) |} |}) as Hok.
  { unfold Buf_ok. cbn. rewrite zlen_zeros; lia. }
  split; [exact Hok|]. change (parts _) with (Buf_parts {| buf := zeros n; range := {| start := 0; end_ := zlen (zeros n) |} |}).
  rewrite (Buf_body_len _ Hok). cbn. rewrite zlen_zeros; lia.
Qed.

(** ** The serializers of builders *)
Section builders.
Context {B : Type} `{!InnerPacketBuilder B, !InnerPacketBuilderSpec B}.

Lemma in_new_vec_ok (b : B) m c : constraints_ok c → builder_room b c → Z.max (c_min_body_len c) (bytes_len b) ≤ m →
  ∃ t, in_new_vec b (total c (bytes_len b)) {| start := c_prefix_len c; end_ := c_prefix_len c + bytes_len b |} = Ok t ∧
    holds (inner_bytes b) m c t.
Proof.
  intros Hc [Hb Ht] Hm. pose proof (inner_bytes_length b Hb) as Hl. assert (0 ≤ bytes_len b) by (rewrite <- Hl; unfold zlen; lia).
  pose proof Hc as (H1&H2&H3). unfold total in Ht. set (n := total c (bytes_len b)) in *.
  assert (0 ≤ n ∧ c_prefix_len c + bytes_len b ≤ n ∧ n < 2 ^ 63) as (Hn0&Hn1&Hn2) by (unfold n, total; lia).
  unfold in_new_vec, new_vec. rewrite (proj2 (Z.ltb_lt n _)) by done. cbn [rbind]. unfold index. cbn [start end_].
  rewrite zlen_zeros by done. rewrite (proj2 (Z.leb_le _ _)), (proj2 (Z.leb_le _ n)) by lia. cbn [andb rbind].
  rewrite ipb_serialize_spec; [|done|]; cycle 1.
  { replace (c_prefix_len c + bytes_len b - c_prefix_len c) with (bytes_len b) by lia. unfold slice, zlen, zeros in *.
    rewrite length_take, length_drop, length_replicate. lia. }
  cbn [rbind]. set (p := take (Z.to_nat (c_prefix_len c)) (zeros n)).
  set (x := drop (Z.to_nat (c_prefix_len c + bytes_len b)) (zeros n)).
  assert (splice (c_prefix_len c) (inner_bytes b) (zeros n) = p ++ inner_bytes b ++ x) as ->.
  { unfold splice, p, x. do 3 f_equal. unfold zlen in Hl. lia. }
  assert (zlen p = c_prefix_len c) as Hp by (unfold p; rewrite zlen_take; rewrite ?zlen_zeros; lia).
  assert (zlen x = n - (c_prefix_len c + bytes_len b)) as Hx by (unfold x; rewrite zlen_drop; rewrite ?zlen_zeros; lia).
  unfold buf_new. rewrite range_ok by (rewrite ?zlen_app, ?Hp, ?Hx, ?Hl; lia). cbn [rbind].
  set (t0 := {| buf := p ++ inner_bytes b ++ x; range := {| start := 0; end_ := 0 |} |}).
  assert (Buf_ok t0) as Hok0 by (unfold Buf_ok, t0; cbn; rewrite !zlen_app, Hp, Hx, Hl; lia).
  assert (zlen (inner_bytes b) = c_prefix_len c + bytes_len b - c_prefix_len c) as Hib by lia.
  destruct (Buf_parts_unique t0 Hok0 (c_prefix_len c) (c_prefix_len c + bytes_len b) p (inner_bytes b) x eq_refl Hp Hib) as [Hok Hparts].
  exists (set_range (c_prefix_len c) (c_prefix_len c + bytes_len b) t0). split; [done|]. unfold holds.
  change (parts (set_range (c_prefix_len c) (c_prefix_len c + bytes_len b) t0))
    with (Buf_parts (set_range (c_prefix_len c) (c_prefix_len c + bytes_len b) t0)). rewrite Hparts. cbn [pre body suf mk].
  rewrite Hp, Hx, Hl. unfold n, total. split_and!; [exact Hok|done|lia..].
Qed.
Lemma lens_ok (b : B) c : constraints_ok c → builder_room b c → total_len_body_len_body_range b c =
  Ok (total c (bytes_len b), Z.max (c_min_body_len c) (bytes_len b), {| start := c_prefix_len c; end_ := c_prefix_len c + bytes_len b |}).
Proof.
  intros Hc [Hb Ht]. pose proof (inner_bytes_length b Hb) as Hl. assert (0 ≤ bytes_len b) by (rewrite <- Hl; unfold zlen; lia).
  unfold total_len_body_len_body_range. rewrite total_length_ok by done. cbn [rbind]. destruct Hc as (?&?&?). unfold total in Ht.
  by rewrite uadd_ok by lia.
Qed.

#[export] Instance builder_serializer_spec : SerializerSpec B.
Proof.
  refine {| packet := builder_packet; room := builder_room |}.
  - intros b mtu c Hc _ HR. cbn [serialize_mtu builder_serializer]. unfold builder_serialize_mtu. rewrite lens_ok by done. cbn [infallible rbind].
    unfold builder_packet. destruct (Z.leb_spec (Z.max (c_min_body_len c) (bytes_len b)) mtu) as [Hm|]; [|done].
    destruct (in_new_vec_ok b mtu c Hc HR Hm) as (t&E&Hh). exists t. by rewrite E.
  - intros b c Hc HR. cbn [serialize builder_serializer]. unfold builder_serialize. rewrite lens_ok by done. cbn [infallible rbind].
    pose proof (builder_packet_max b c Hc HR) as Hm. unfold builder_packet. rewrite (proj2 (Z.leb_le _ _) Hm).
    destruct (in_new_vec_ok b usize_max c Hc HR Hm) as (t&E&Hh). exists t. by rewrite E.
Defined.

Section fn.
Context {O : Type} `{BufferSpec O}.

Definition fn_room (s : FnSerializer B O) (c : SerializeConstraints) : Prop :=
  builder_room (fs_builder s) c ∧ makes_buffers (fs_get_buf s).
Lemma fn_fill_ok (s : FnSerializer B O) c m : constraints_ok c → fn_room s c →
  Z.max (c_min_body_len c) (bytes_len (fs_builder s)) ≤ m →
  ∃ t, fn_serialize_inner s (c_prefix_len c) (total c (bytes_len (fs_builder s))) = Ok t ∧ holds (inner_bytes (fs_builder s)) m c t.
Proof.
  intros Hc [[Hb Ht] Hget] Hm. pose proof (inner_bytes_length _ Hb) as Hl. pose proof Hc as (H1&H2&H3).
  destruct (Hget (total c (bytes_len (fs_builder s)))) as (t&E&Hok&Hlen).
  { unfold total in *. rewrite <- Hl in *. unfold zlen in *. lia. }
  unfold fn_serialize_inner. rewrite E. cbn [rbind]. by apply fill_body_ok.
Qed.
#[export] Instance fn_serializer_spec : SerializerSpec (FnSerializer B O).
Proof.
  refine {| packet s := builder_packet (fs_builder s); room := fn_room |}.
  - intros s mtu c Hc _ HR. pose proof HR as [Hroom _].
    apply (builder_mtu_shape (fs_builder s) s (fn_serialize_inner s (c_prefix_len c))); [done|done|]. intros m. by apply fn_fill_ok.
  - intros s c Hc HR. pose proof HR as [Hroom _].
    pose proof (builder_shape (S := FnSerializer B O) (fs_builder s) (fn_serialize_inner s (c_prefix_len c)) c Hc Hroom (λ m, fn_fill_ok s c m Hc HR)) as Hs.
    cbn [serialize fn_serializer]. unfold fn_serialize. destruct (builder_packet _ _ _); [done|]. destruct Hs as [[e ?] _]. destruct e.
Defined.
End fn.

Section inner.
Context {T O : Type} `{BufferSpec T, BufferSpec O}.

Definition inner_room (s : InnerSerializer B T O) (c : SerializeConstraints) : Prop :=
  builder_room (is_builder s) c ∧ buf_ok (is_buf s) ∧ makes_buffers (is_get_buf s).
Lemma inner_fill_ok (s : InnerSerializer B T O) c m : constraints_ok c → inner_room s c →
  Z.max (c_min_body_len c) (bytes_len (is_builder s)) ≤ m →
  ∃ t, inner_serialize_inner s (c_prefix_len c) (total c (bytes_len (is_builder s))) = Ok t ∧ holds (inner_bytes (is_builder s)) m c t.
Proof.
  intros Hc ([Hb Ht]&Hbuf&Hget) Hm. pose proof (inner_bytes_length _ Hb) as Hl. pose proof Hc as (H1&H2&H3).
  unfold inner_serialize_inner. rewrite (capacity_spec _ Hbuf). cbn [rbind].
  destruct (Z.leb_spec (total c (bytes_len (is_builder s))) (zlen (all_bytes (parts (is_buf s))))) as [Hfit|_].
  - destruct (sim_inv _ _ _ _ (reset_spec _ Hbuf) _ eq_refl) as (t&->&Hok&Hp). cbn [rbind].
    apply fill_body_ok; [done|done|exact Hok| |done]. change (parts (EitherA t)) with (parts t). by rewrite Hp.
  - destruct (Hget (total c (bytes_len (is_builder s)))) as (t&->&Hok&Hlen).
    { unfold total in *. rewrite <- Hl in *. unfold zlen in *. lia. }
    cbn [rbind]. by apply fill_body_ok.
Qed.
#[export] Instance inner_serializer_spec : SerializerSpec (InnerSerializer B T O).
Proof.
  refine {| packet s := builder_packet (is_builder s); room := inner_room |}.
  - intros s mtu c Hc _ HR. pose proof HR as [Hroom _].
    apply (builder_mtu_shape (is_builder s) s (inner_serialize_inner s (c_prefix_len c))); [done|done|]. intros m. by apply inner_fill_ok.
  - intros s c Hc HR. pose proof HR as [Hroom _].
    pose proof (builder_shape (S := InnerSerializer B T O) (is_builder s) (inner_serialize_inner s (c_prefix_len c)) c Hc Hroom (λ m, inner_fill_ok s c m Hc HR)) as Hs.
    cbn [serialize inner_serializer]. unfold inner_serialize. destruct (builder_packet _ _ _); [done|]. destruct Hs as [[e ?] _]. destruct e.
Defined.
End inner.
End builders.
