(* ===== verification/PacketClaims.v ===== *)
(** Serializers of buffers, of limits and of layers, and stacks of layers: a serializer
    for the innermost packet, encapsulated any number of times and limited to any sizes,
    produces the packet it describes. *)

From S2P Require Import Prelude Std Packet PacketSerialize PacketBuffers PacketCorrect.

(** * [BufferSerializer] *)
Definition truncated (d : TruncateDirection) (mtu : Z) (bytes : list Z) : option (list Z) :=
  if zlen bytes <=? mtu then Some bytes
  else match d with
       | NoTruncating => None
       | DiscardFront => Some (drop (Z.to_nat (zlen bytes - mtu)) bytes)
       | DiscardBack => Some (take (Z.to_nat mtu) bytes)
       end.

Section buffer.
Context {T O : Type} `{BufferSpec T, BufferSpec O}.

Definition buffer_packet (s : BufferSerializer T O) (mtu min_body : Z) : option (list Z) :=
  if mtu <? min_body then None else truncated (bs_direction s) mtu (body (parts (bs_buf s))).
Definition buffer_room (s : BufferSerializer T O) (c : SerializeConstraints) : Prop :=
  buf_ok (bs_buf s) ∧ makes_buffers (bs_get_buf s) ∧ total c (zlen (body (parts (bs_buf s)))) < 2 ^ 63.

Lemma copy_ok (b : T) (get_buf : Z → result Never O) c m : let n := zlen (body (parts b)) in
  constraints_ok c → buf_ok b → makes_buffers get_buf → total c n < 2 ^ 63 → Z.max (c_min_body_len c) n ≤ m →
  ∃ t, (new_buf <-? get_buf (total c n) ;;
        n <-? buf_len b ;;
        e <-? uadd 64 (c_prefix_len c) n ;;
        new_buf <-? shrink (Included (c_prefix_len c)) (Excluded e) new_buf ;;
        bd <-? as_ref b ;;
        new_buf <-? as_mut (copy_from_slice bd) new_buf ;;
        Ok (@EitherB T O new_buf)) = Ok t ∧ holds (body (parts b)) m c t.
Proof.
  intros n Hc Hb Hget Htot Hm. pose proof Hc as (H1'&H2'&H3'). assert (0 ≤ n) by (unfold n, zlen; lia).
  destruct (Hget (total c n)) as (t&->&Ht&Hl); [unfold total in *; lia|]. cbn [rbind]. rewrite (len_spec b Hb). cbn [rbind]. fold n.
  unfold total in Htot, Hl. rewrite uadd_ok by lia. cbn [rbind].
  destruct (narrow_ok t (c_prefix_len c) n (copy_from_slice (body (parts b))) (body (parts b))) as (t'&E&Ht'&Hp);
    [done|lia|lia|lia| | |done|].
  { intros bs bs'. unfold copy_from_slice. destruct (Z.eqb_spec (zlen bs) (zlen (body (parts b)))); [|done]. by intros [= <-]. }
  { intros bs Hbs. unfold copy_from_slice. fold n. by rewrite Hbs, Z.eqb_refl. }
  apply rbind_ok_inv in E as (t1&->&E). cbn [rbind]. rewrite (as_ref_spec b Hb). cbn [rbind]. rewrite E. cbn [rbind].
  exists (EitherB t'). split; [done|]. exact (narrow_holds t t' m c (body (parts b)) Hc Ht' Hl Hm Hp).
Qed.
(** The buffer itself, or a copy of its body in a new one. *)
Lemma buffer_inner_ok (b : T) (get_buf : Z → result Never O) c m : let n := zlen (body (parts b)) in
  constraints_ok c → buf_ok b → makes_buffers get_buf → total c n < 2 ^ 63 → Z.max (c_min_body_len c) n ≤ m →
  ∃ t, buffer_serialize_inner b get_buf c (Z.max (c_min_body_len c) n) (total c n) = Ok t ∧ holds (body (parts b)) m c t.
Proof.
  intros n Hc Hb Hget Htot Hm. pose proof Hc as (H1'&H2'&H3'). assert (0 ≤ n) by (unfold n, zlen; lia).
  pose proof (buf_ok_size b Hb) as Hsize. unfold all_bytes in Hsize. rewrite !zlen_app in Hsize. fold n in Hsize.
  assert (0 ≤ zlen (pre (parts b)) ∧ 0 ≤ zlen (suf (parts b))) as [? ?] by (unfold zlen; lia).
  unfold buffer_serialize_inner, satisfies. rewrite (prefix_spec b Hb). cbn [rbind].
  destruct (Z.leb_spec (c_prefix_len c) (zlen (pre (parts b)))) as [Hp|Hp]; cbn [rbind]; [|by apply copy_ok].
  rewrite (len_spec b Hb), (suffix_spec b Hb). cbn [rbind]. fold n. unfold total in Htot. rewrite !uadd_ok by lia. cbn [rbind].
  destruct (Z.leb_spec (Z.max (c_min_body_len c) n + c_suffix_len c) (n + zlen (suf (parts b)))) as [Hs|Hs].
  - exists (EitherA b). split; [done|]. unfold holds. change (parts (EitherA b)) with (parts b). fold n. split_and!; [exact Hb|done|lia..].
  - pose proof (copy_ok b get_buf c m Hc Hb Hget Htot Hm) as Hcopy. fold n in Hcopy.
    rewrite (len_spec b Hb) in Hcopy. cbn [rbind] in Hcopy. fold n in Hcopy. rewrite uadd_ok in Hcopy by lia. exact Hcopy.
Qed.

(** Truncation drops what does not fit from one end. *)
Lemma truncate_ok d mtu (b : T) : buf_ok b → 0 ≤ mtu →
  match truncated d mtu (body (parts b)) with
  | Some bytes => ∃ b', truncate d mtu b = Ok (Some b') ∧ buf_ok b' ∧ body (parts b') = bytes ∧
      zlen bytes ≤ mtu ∧ zlen bytes ≤ zlen (body (parts b))
  | None => truncate d mtu b = Ok None
  end.
Proof.
  intros Hb Hm. unfold truncated, truncate. rewrite (len_spec b Hb). cbn [rbind]. set (n := zlen (body (parts b))).
  destruct (Z.leb_spec n mtu) as [Hle|Hgt].
  { rewrite (proj2 (Z.ltb_ge _ _)) by lia. by exists b. }
  rewrite (proj2 (Z.ltb_lt _ _)) by lia. destruct d; [| |done].
  - destruct (sim_inv buf_ok parts _ _ (shrink_front_spec (n - mtu) b Hb ltac:(lia)) (mk (pre (parts b) ++ take (Z.to_nat (n - mtu)) (body (parts b)))
      (drop (Z.to_nat (n - mtu)) (body (parts b))) (suf (parts b)))) as (b'&->&Hb'&Hp).
    { cbn [shrink_front Parts_ParseBuffer]. unfold Parts_shrink_front. fold n. by rewrite (proj2 (Z.leb_le _ _)) by lia. }
    cbn [rbind]. exists b'. rewrite Hp. cbn [body mk]. rewrite zlen_drop by lia. fold n. split_and!; [done..|lia|lia].
  - destruct (sim_inv buf_ok parts _ _ (shrink_back_spec (n - mtu) b Hb ltac:(lia)) (mk (pre (parts b)) (take (Z.to_nat mtu) (body (parts b)))
      (drop (Z.to_nat mtu) (body (parts b)) ++ suf (parts b)))) as (b'&->&Hb'&Hp).
    { cbn [shrink_back Parts_ParseBuffer]. unfold Parts_shrink_back. fold n. rewrite (proj2 (Z.leb_le _ _)) by lia.
      by replace (n - (n - mtu)) with mtu by lia. }
    cbn [rbind]. exists b'. rewrite Hp. cbn [body mk]. rewrite zlen_take by lia. split_and!; [done..|lia|lia].
Qed.

#[export] Instance buffer_serializer_spec : SerializerSpec (BufferSerializer T O).
Proof.
  refine {| packet := buffer_packet; room := buffer_room |}.
  - intros s mtu c Hc Hm (Hb&Hget&Ht). cbn [serialize_mtu buffer_serializer]. unfold buffer_serialize_mtu, buffer_packet.
    destruct (Z.ltb_spec mtu (c_min_body_len c)) as [|Hmin]; [done|]. pose proof (truncate_ok (bs_direction s) mtu (bs_buf s) Hb Hm) as Htr.
    destruct (truncated _ _ _) as [bytes|]; [|by rewrite Htr]. destruct Htr as (b&->&Hb'&<-&Hle&Hle'). cbn [infallible rbind].
    rewrite (len_spec b Hb'). cbn [infallible rbind]. rewrite (proj2 (Z.leb_le _ mtu)) by lia. cbn [assert infallible rbind].
    assert (total c (zlen (body (parts b))) < 2 ^ 63) as Ht' by (unfold total in *; lia).
    rewrite total_length_ok by (done || unfold zlen; lia). cbn [rbind].
    destruct (buffer_inner_ok b (bs_get_buf s) c mtu Hc Hb' Hget Ht' ltac:(lia)) as (t&->&Hh). by exists t.
  - intros s c Hc (Hb&Hget&Ht). cbn [serialize buffer_serializer]. unfold buffer_serialize, buffer_packet, truncated.
    pose proof Hc as (?&?&?). assert (0 ≤ zlen (body (parts (bs_buf s)))) by (unfold zlen; lia). unfold total in Ht.
    rewrite (proj2 (Z.ltb_ge _ _)), (proj2 (Z.leb_le _ _)) by (unfold usize_max; lia).
    rewrite (len_spec _ Hb). cbn [infallible rbind]. rewrite total_length_ok by done. cbn [rbind].
    destruct (buffer_inner_ok (bs_buf s) (bs_get_buf s) c usize_max Hc Hb Hget Ht ltac:(unfold usize_max; lia)) as (t&->&Hh). by exists t.
Defined.
End buffer.

(** * [MtuSerializer] *)
Section mtu.
Context {S : Type} `{SerializerSpec S}.

Lemma map_err_ok {E S1 S2 A} (f : S1 → S2) (a : A) : @map_err E S1 S2 A f (Ok a) = Ok a.
Proof. done. Qed.
Lemma mtu_serialize_mtu_ok (s : MtuSerializer S) mtu c : constraints_ok c → 0 ≤ mtu → 0 ≤ ms_mtu s → room (ms_inner s) c →
  match packet (ms_inner s) (Z.min mtu (ms_mtu s)) (c_min_body_len c) with
  | Some bytes => ∃ t, mtu_serialize_mtu s mtu c = Ok t ∧ holds bytes mtu c t
  | None => mtu_serialize_mtu s mtu c = Err (Mtu, s)
  end.
Proof.
  intros Hc Hm Hs HR. pose proof (serialize_mtu_spec (ms_inner s) (Z.min mtu (ms_mtu s)) c Hc ltac:(lia) HR) as Hi.
  unfold mtu_serialize_mtu. destruct (packet _ _ _) as [bytes|]; [|by rewrite Hi; destruct s].
  destruct Hi as (t&->&?&?&?&?&?). exists t. split; [done|]. unfold holds. split_and!; try done. lia.
Qed.
#[export] Instance mtu_serializer_spec : SerializerSpec (MtuSerializer S).
Proof.
  refine {| packet s mtu min_body := packet (ms_inner s) (Z.min mtu (ms_mtu s)) min_body;
            room s c := 0 ≤ ms_mtu s ∧ room (ms_inner s) c |}.
  - intros s mtu c Hc Hm [Hs HR]. by apply mtu_serialize_mtu_ok.
  - intros s c Hc [Hs HR]. pose proof (mtu_serialize_mtu_ok s usize_max c Hc ltac:(by unfold usize_max) Hs HR) as Hi.
    cbn [serialize mtu_serializer]. destruct (packet _ _ _); [done|]. by exists Mtu.
Defined.
End mtu.

(** * [EncapsulatingSerializer] *)
Section encapsulating.
Context {B S : Type} `{!PacketBuilder B, !PacketBuilderSpec B, SerializerSpec S}.

Definition around (b : B) : Z := header_len b + footer_len b.
Definition inner_min_body (b : B) (min_body : Z) : Z := Z.max (min_body_len b) (Z.max 0 (min_body - around b)).
(** A layer: the packet inside, padded, between a header and a footer. *)
Definition layer_packet (b : B) (inner : Z → Z → option (list Z)) (mtu min_body : Z) : option (list Z) :=
  if mtu <? around b then None
  else (λ bd, packet_bytes b (bd ++ padding (min_body_len b) bd)) <$>
         inner (Z.min (mtu - around b) (max_body_len b)) (inner_min_body b min_body).
Definition layer_constraints (b : B) (c : SerializeConstraints) : SerializeConstraints :=
  {| c_prefix_len := c_prefix_len c + header_len b; c_min_body_len := inner_min_body b (c_min_body_len c);
     c_suffix_len := c_suffix_len c + footer_len b |}.
Definition layer_room (s : EncapsulatingSerializer B S) (c : SerializeConstraints) : Prop :=
  builder_ok (es_builder s) ∧ c_prefix_len c + header_len (es_builder s) < 2 ^ 64 ∧
  c_suffix_len c + footer_len (es_builder s) < 2 ^ 64 ∧ room (es_inner s) (layer_constraints (es_builder s) c).

(** A buffer that holds the inner packet holds the layer after it is serialized. *)
Lemma layer_holds (b : B) {T} `{BufferSpec T} (t : T) bytes mtu c : builder_ok b → constraints_ok c → around b ≤ mtu →
  holds bytes (Z.min (mtu - around b) (max_body_len b)) (layer_constraints b c) t →
  ∃ t', buf_serialize b t = Ok t' ∧ holds (packet_bytes b (bytes ++ padding (min_body_len b) bytes)) mtu c t'.
Proof.
  intros Hb (Hc1&Hc2&Hc3) Hmtu (Ht&Hbody&Hpre&Hsuf&Hmax). destruct (builder_lens b Hb) as (H1'&H2'&H3'&H4').
  cbn [layer_constraints c_prefix_len c_min_body_len c_suffix_len] in *. unfold inner_min_body in *.
  set (pad := padding (min_body_len b) bytes). assert (0 ≤ zlen bytes) by (unfold zlen; lia).
  assert (zlen pad = Z.max 0 (min_body_len b - zlen bytes)) as Hpad.
  { unfold pad, padding. unfold zlen at 1, zeros. rewrite length_replicate. lia. }
  assert (header_len b ≤ zlen (pre (parts t))) as Hroom by lia.
  destruct (sim_inv buf_ok parts _ _ (buf_serialize_spec b t Ht Hb) _ (Parts_serialize b Hb (parts t) Hroom
    ltac:(rewrite Hbody; fold pad; lia) ltac:(rewrite Hbody; lia) (buf_ok_size t Ht)))
    as (t'&E&Ht'&Hp). rewrite Hbody in Hp. fold pad in Hp.
  exists t'. split; [done|]. unfold holds. rewrite Hp. cbn [pre body suf mk].
  assert (zlen (packet_bytes b (bytes ++ pad)) = around b + Z.max (zlen bytes) (min_body_len b)) as ->.
  { rewrite packet_bytes_length, zlen_app by done. unfold around. lia. }
  unfold around in *. rewrite zlen_take, zlen_drop by lia. split_and!; [done|done|lia..].
Qed.
Lemma encap_serialize_mtu_ok (s : EncapsulatingSerializer B S) mtu c : constraints_ok c → 0 ≤ mtu → layer_room s c →
  match layer_packet (es_builder s) (packet (es_inner s)) mtu (c_min_body_len c) with
  | Some bytes => ∃ t, encap_serialize_mtu s mtu c = Ok t ∧ holds bytes mtu c t
  | None => encap_serialize_mtu s mtu c = Err (Mtu, s)
  end.
Proof.
  intros Hc Hm (Hb&Hp&Hs&HR). destruct (builder_lens _ Hb) as (H1'&H2'&H3'&H4'). pose proof Hc as (?&?&?).
  unfold encap_serialize_mtu, min_body_mtu, layer_packet. rewrite !uadd_ok by lia. cbn [rbind]. fold (around (es_builder s)).
  destruct (Z.ltb_spec mtu (around (es_builder s))) as [|Hle]; cbn [infallible rbind]; [done|].
  fold (inner_min_body (es_builder s) (c_min_body_len c)). fold (layer_constraints (es_builder s) c).
  assert (constraints_ok (layer_constraints (es_builder s) c)) as Hc'.
  { unfold constraints_ok, layer_constraints, inner_min_body. cbn. lia. }
  assert (0 ≤ Z.min (mtu - around (es_builder s)) (max_body_len (es_builder s))) as Hm' by lia.
  pose proof (serialize_mtu_spec (es_inner s) _ _ Hc' Hm' HR) as Hi.
  cbn [layer_constraints c_min_body_len] in Hi. destruct (packet _ _ _) as [bytes|]; cbn [fmap option_fmap option_map].
  - destruct Hi as (t&E&Hh). rewrite E. cbn [map_err rbind].
    destruct (layer_holds (es_builder s) t bytes mtu c Hb Hc Hle Hh) as (t'&->&Hh'). by exists t'.
  - rewrite Hi. by destruct s.
Qed.
#[export] Instance encapsulating_serializer_spec : SerializerSpec (EncapsulatingSerializer B S).
Proof.
  refine {| packet s := layer_packet (es_builder s) (packet (es_inner s)); room := layer_room |}.
  - intros s mtu c Hc Hm HR. by apply encap_serialize_mtu_ok.
  - intros s c Hc HR. pose proof (encap_serialize_mtu_ok s usize_max c Hc ltac:(by unfold usize_max) HR) as Hi.
    cbn [serialize encapsulating_serializer]. destruct (layer_packet _ _ _ _); [done|]. by exists Mtu.
Defined.
End encapsulating.

(** The calls of [encapsulate] and [with_mtu] on a serializer, the last one first. *)
Inductive Layer (B : Type) := Encapsulate (builder : B) | WithMtu (mtu : Z).
Arguments Encapsulate {B} builder.
Arguments WithMtu {B} mtu.

Section stack.
Context {B S : Type} `{!PacketBuilder B, !PacketBuilderSpec B, SerializerSpec S}.

Fixpoint stack_type (l : list (Layer B)) : Type :=
  match l with
  | [] => S
  | Encapsulate _ :: l => EncapsulatingSerializer B (stack_type l)
  | WithMtu _ :: l => MtuSerializer (stack_type l)
  end.
Fixpoint stack (l : list (Layer B)) (s : S) : stack_type l :=
  match l with
  | [] => s
  | Encapsulate b :: l => encapsulate (stack l s) b
  | WithMtu mtu :: l => with_mtu (stack l s) mtu
  end.
#[export] Instance stack_serializer l : Serializer (stack_type l).
Proof. induction l as [|[b|mtu] l IH]; [exact Serializer0|exact encapsulating_serializer|exact mtu_serializer]. Defined.
#[export] Instance stack_spec l : SerializerSpec (stack_type l).
Proof. induction l as [|[b|mtu] l IH]; [exact H|exact encapsulating_serializer_spec|exact mtu_serializer_spec]. Defined.

(** The packet of a stack, and what it needs: every layer adds its header and footer
    to the constraints of the next. *)
Fixpoint stack_packet (l : list (Layer B)) (s : S) (mtu min_body : Z) : option (list Z) :=
  match l with
  | [] => packet s mtu min_body
  | Encapsulate b :: l => layer_packet b (stack_packet l s) mtu min_body
  | WithMtu n :: l => stack_packet l s (Z.min mtu n) min_body
  end.
Fixpoint stack_room (l : list (Layer B)) (s : S) (c : SerializeConstraints) : Prop :=
  match l with
  | [] => room s c
  | Encapsulate b :: l => builder_ok b ∧ c_prefix_len c + header_len b < 2 ^ 64 ∧ c_suffix_len c + footer_len b < 2 ^ 64 ∧
      stack_room l s (layer_constraints b c)
  | WithMtu n :: l => 0 ≤ n ∧ stack_room l s c
  end.

Lemma layer_packet_ext b f g mtu min_body : (∀ m n, f m n = g m n) → layer_packet b f mtu min_body = layer_packet b g mtu min_body.
Proof. intros Hfg. unfold layer_packet. by rewrite Hfg. Qed.
Lemma stack_packet_eq l s mtu min_body : packet (stack l s) mtu min_body = stack_packet l s mtu min_body.
Proof.
  revert mtu min_body. induction l as [|[b|n] l IH]; intros mtu min_body; cbn [stack_packet]; [done| |].
  - exact (layer_packet_ext b _ _ mtu min_body IH).
  - exact (IH _ _).
Qed.
Lemma stack_room_eq l s c : stack_room l s c → room (stack l s) c.
Proof.
  revert c. induction l as [|[b|n] l IH]; intros c; cbn [stack_room]; [done| |].
  - intros (?&?&?&?). split_and!; [done..|]. by apply IH.
  - intros [? ?]. split; [done|]. by apply IH.
Qed.

(** C11: [serialize_mtu] of a stack gives a buffer whose body is the packet of the stack: the
    innermost bytes, each layer between its header and footer and padded with zeroes to
    its minimum, whatever was in the buffers before.  The buffer has the prefix, suffix
    and padding asked for, and the packet is within the limit.  A packet over the limit
    is the error [Mtu], with the serializer given back. *)
Theorem packet_serialize_correct (l : list (Layer B)) (s : S) (mtu : Z) (c : SerializeConstraints) :
  constraints_ok c → 0 ≤ mtu → stack_room l s c →
  match stack_packet l s mtu (c_min_body_len c) with
  | Some bytes => ∃ t, serialize_mtu (stack l s) mtu c = Ok t ∧ buf_ok t ∧ as_ref t = Ok bytes ∧
      c_prefix_len c ≤ zlen (pre (parts t)) ∧ Z.max (c_min_body_len c) (zlen bytes) ≤ mtu ∧
      Z.max (c_min_body_len c) (zlen bytes) + c_suffix_len c ≤ zlen bytes + zlen (suf (parts t))
  | None => serialize_mtu (stack l s) mtu c = Err (Mtu, stack l s)
  end.
Proof.
  intros Hc Hm HR. pose proof (serialize_mtu_spec (stack l s) mtu c Hc Hm (stack_room_eq l s c HR)) as Hs.
  rewrite stack_packet_eq in Hs. destruct (stack_packet l s mtu (c_min_body_len c)) as [bytes|]; [|done].
  destruct Hs as (t&E&Ht&Hbody&?&?&?). exists t. rewrite (as_ref_spec t Ht), Hbody. done.
Qed.
End stack.

(** * A witness: a packet in a frame in a buffer *)
Record Frame := { f_header : list Z; f_footer : list Z; f_min : Z; f_max : Z }.
#[export] Instance frame_builder : PacketBuilder Frame := {|
  header_len f := zlen (f_header f);
  min_body_len := f_min;
  max_body_len := f_max;
  footer_len f := zlen (f_footer f);
  pb_serialize f sb := copy_from_slice (f_header f ++ sb_body_bytes sb ++ f_footer f) (sb_buf sb)
|}.
#[export] Instance frame_spec : PacketBuilderSpec Frame.
Proof.
  refine {| builder_ok f := zlen (f_header f) + zlen (f_footer f) < 2 ^ 64 ∧ 0 ≤ f_min f ≤ f_max f;
            packet_bytes f bd := f_header f ++ bd ++ f_footer f |}.
  - intros f [? ?]. cbn. unfold zlen in *. lia.
  - intros f bd _. cbn. rewrite !zlen_app. lia.
  - intros f hd bd ft _ Hh Hf _. cbn in *. unfold sb_body_bytes. cbn.
    replace (zlen (f_header f) + zlen bd - zlen (f_header f)) with (zlen bd) by lia. rewrite <- Hh, slice_app_mid.
    unfold copy_from_slice. rewrite !zlen_app, Hh, Hf, Z.eqb_refl. done.
  - intros f sb bs. cbn. unfold copy_from_slice. destruct (_ =? _) eqn:E; [|done]. apply Z.eqb_eq in E. by intros [= <-].
Defined.

Definition old_packet : Buf := {| buf := replicate 40 255; range := {| start := 10; end_ := 12 |} |}.
Definition frames : list (Layer Frame) :=
  [Encapsulate {| f_header := [1; 2; 3]; f_footer := [9]; f_min := 8; f_max := 100 |}; WithMtu 50;
   Encapsulate {| f_header := [4]; f_footer := [5]; f_min := 0; f_max := 60 |}].
Definition payload : InnerSerializer (list Z) Buf Buf :=
  {| is_builder := [7; 7]; is_buf := old_packet; is_get_buf := vec_get_buf |}.

Lemma packet_serialize_correct_witness : ∃ t, serialize_mtu (stack frames payload) 1500 no_constraints = Ok t ∧
  as_ref t = Ok [1; 2; 3; 4; 7; 7; 5; 0; 0; 0; 0; 9].
Proof.
  pose proof (packet_serialize_correct frames payload 1500 no_constraints) as Hs.
  change (stack_packet frames payload 1500 (c_min_body_len no_constraints)) with (Some [1; 2; 3; 4; 7; 7; 5; 0; 0; 0; 0; 9]) in Hs.
  destruct Hs as (t&E&_&Hr&_).
  - unfold constraints_ok. cbn. lia.
  - lia.
  - cbn [stack_room frames]. unfold zlen. cbn. repeat split; try lia; try done. apply vec_makes_buffers.
  - exists t. split; [exact E|exact Hr].
Defined.

(** The padding of a minimum body is left in the suffix. *)
Example min_body_in_suffix :
  match serialize (S := list Z) [7; 7] {| c_prefix_len := 0; c_min_body_len := 5; c_suffix_len := 0 |} with
  | Ok t => Some (Buf_parts t)
  | _ => None
  end = Some (mk [] [7; 7] [0; 0; 0]).
Proof. reflexivity. Qed.

(** The MTU is a limit on the body, not on the buffer around it. *)
Example mtu_of_body :
  match serialize_mtu (S := list Z) [7; 7] 2 {| c_prefix_len := 2; c_min_body_len := 0; c_suffix_len := 1 |} with
  | Ok t => Some (buf t)
  | _ => None
  end = Some [0; 0; 7; 7; 0].
Proof. reflexivity. Qed.
