(* ===== verification/FidlCore.v ===== *)
(** The encoder and the decoder of FIDL messages: the first part of
    [public/lib/fidl/rust/fidl/src/encoding.rs] (buffers, positions, out-of-line
    data, recursion limit, padding) and the errors of [error.rs].  A Zircon
    handle is represented by its number; zero is the invalid handle. *)

From S2P Require Import Prelude Std.

(** * [error.rs] *)
Inductive Error :=
| UnexpectedSyncResponse
| InvalidHeader
| Invalid
| OutOfRange
| ExtraBytes
| ExtraHandles
| NonZeroPadding (padding_start non_zero_pos : Z)
| MaxRecursionDepth
| NotNullable
| Utf8Error
| UnknownOrdinal (ordinal : Z) (service_name : list Z)
| UnknownUnionTag
| UnknownTableField
| PollAfterCompletion
| InvalidResponseTxid
| ServerResponseWrite (status : Z)
| ServerRequestRead (status : Z)
| ClientRead (status : Z)
| ClientWrite (status : Z)
| ChannelPairCreate (status : Z)
| AsyncChannel (e : io_error).

(** * Helpers *)

(** [round_up] is the value; [round_up_to_align] computes it in [usize]. *)
Definition round_up (x align : Z) : Z :=
  if align =? 0 then x else (x + align - 1) / align * align.
Definition round_up_to_align (x align : Z) : result Error Z :=
  if align =? 0 then Ok x
  else
    a <-? uadd 64 x align ;;
    b <-? usub a 1 ;;
    umul 64 (b / align) align.

Definition split_off_front {T : Type} (n : Z) (s : list T) : result Error (list T * list T) :=
  if zlen s <? n then Err OutOfRange
  else Ok (take (Z.to_nat n) s, drop (Z.to_nat n) s).
Definition split_off_first {T : Type} (s : list T) : result Error (T * list T) :=
  p <-? split_off_front 1 s ;;
  let '(res, tail) := p in
  match res with
  | x :: _ => Ok (x, tail)
  | [] => Panic
  end.

(** The handle is moved out and an invalid one takes its place. *)
Definition invalid_handle : Z := 0.
Definition take_handle (handle : Z) : Z * Z := (handle, invalid_handle).

(** [Vec::resize] with zeros. *)
Definition vec_resize (n : Z) (buf : list Z) : list Z :=
  take (Z.to_nat n) buf ++ zeros (n - zlen buf).

Definition MAX_RECURSION : nat := 32.
Definition ALLOC_PRESENT_U64 : Z := 2 ^ 64 - 1.
Definition ALLOC_PRESENT_U32 : Z := 2 ^ 32 - 1.
Definition ALLOC_ABSENT_U64 : Z := 0.
Definition ALLOC_ABSENT_U32 : Z := 0.

(** * [Encoder] *)
Record Encoder := {
  e_offset : Z;
  e_remaining_depth : nat;
  e_buf : list Z;
  e_handles : list Z
}.

Definition set_offset (off : Z) : M Error Encoder unit := λ e,
  (Ok tt, {| e_offset := off; e_remaining_depth := e_remaining_depth e;
             e_buf := e_buf e; e_handles := e_handles e |}).
Definition set_enc_depth (n : nat) : M Error Encoder unit := λ e,
  (Ok tt, {| e_offset := e_offset e; e_remaining_depth := n;
             e_buf := e_buf e; e_handles := e_handles e |}).
Definition set_enc_buf (buf : list Z) : M Error Encoder unit := λ e,
  (Ok tt, {| e_offset := e_offset e; e_remaining_depth := e_remaining_depth e;
             e_buf := buf; e_handles := e_handles e |}).
Definition set_enc_handles (handles : list Z) : M Error Encoder unit := λ e,
  (Ok tt, {| e_offset := e_offset e; e_remaining_depth := e_remaining_depth e;
             e_buf := e_buf e; e_handles := handles |}).

Definition prepare_for_encoding (buf handles : list Z) (ty_inline_size : Z) : result Error Encoder :=
  inline_size <-? round_up_to_align ty_inline_size 8 ;;
  Ok {| e_offset := 0; e_remaining_depth := MAX_RECURSION;
        e_buf := vec_resize inline_size (take 0 buf); e_handles := take 0 handles |}.

(** The depth stays decreased when the closure fails. *)
Definition enc_recurse {R : Type} (f : M Error Encoder R) : M Error Encoder R :=
  e <- get_store ;;
  match e_remaining_depth e with
  | O => fail MaxRecursionDepth
  | S n =>
      set_enc_depth n ;;;
      res <- f ;;
      e <- get_store ;;
      set_enc_depth (S (e_remaining_depth e)) ;;;
      ret res
  end.

(** The slice is given by its position in the buffer; [fill_slot] writes it. *)
Definition enc_next_slice (len : Z) : M Error Encoder Z :=
  e <- get_store ;;
  end_ <- lift (uadd 64 (e_offset e) len) ;;
  if end_ <=? zlen (e_buf e) then set_offset end_ ;;; ret (e_offset e) else fail OutOfRange.
Definition fill_slot (slot : Z) (bs : list Z) : M Error Encoder unit :=
  e <- get_store ;; set_enc_buf (splice slot bs (e_buf e)).

Definition enc_padding (len : Z) : M Error Encoder unit :=
  e <- get_store ;;
  end_ <- lift (uadd 64 (e_offset e) len) ;;
  if zlen (e_buf e) <? end_ then fail OutOfRange else set_offset end_.

Definition tail_padding_inner (target_inline_size start_pos : Z) : M Error Encoder unit :=
  e <- get_store ;;
  (if start_pos <=? e_offset e then ret tt else panic) ;;;
  done_ <- lift (usub (e_offset e) start_pos) ;;
  n <- lift (usub target_inline_size done_) ;;
  enc_padding n.

Definition reserve_out_of_line (len : Z) : M Error Encoder unit :=
  e <- get_store ;;
  n <- lift (round_up_to_align len 8) ;;
  end_ <- lift (uadd 64 (e_offset e) n) ;;
  set_enc_buf (vec_resize end_ (e_buf e)).

Definition write_out_of_line {R : Type} (len : Z) (f : M Error Encoder R) : M Error Encoder R :=
  e <- get_store ;;
  let old_offset := e_offset e in
  set_offset (zlen (e_buf e)) ;;;
  reserve_out_of_line len ;;;
  r <- f ;;
  set_offset old_offset ;;;
  ret r.

Definition append_bytes (bytes : list Z) : M Error Encoder unit :=
  e <- get_store ;;
  new_len <- lift (round_up_to_align (zlen (e_buf e)) 8) ;;
  set_enc_buf (vec_resize new_len (e_buf e) ++ bytes).

(** The handles of the slice, after they were taken. *)
Fixpoint append_handles (handles : list Z) : M Error Encoder (list Z) :=
  match handles with
  | [] => ret []
  | handle :: handles =>
      let '(taken, left_) := take_handle handle in
      e <- get_store ;;
      set_enc_handles (e_handles e ++ [taken]) ;;;
      rest <- append_handles handles ;;
      ret (left_ :: rest)
  end.

(** * [Decoder] *)
Record Decoder := {
  d_remaining_depth : nat;
  d_buf : list Z;
  d_initial_buf_len : Z;
  d_out_of_line_buf : list Z;
  d_initial_out_of_line_buf_len : Z;
  d_handles : list Z
}.

Definition set_dec_depth (n : nat) : M Error Decoder unit := λ d,
  (Ok tt, {| d_remaining_depth := n; d_buf := d_buf d; d_initial_buf_len := d_initial_buf_len d;
             d_out_of_line_buf := d_out_of_line_buf d;
             d_initial_out_of_line_buf_len := d_initial_out_of_line_buf_len d;
             d_handles := d_handles d |}).
Definition with_buf (buf : list Z) (initial : Z) (d : Decoder) : Decoder :=
  {| d_remaining_depth := d_remaining_depth d; d_buf := buf; d_initial_buf_len := initial;
     d_out_of_line_buf := d_out_of_line_buf d;
     d_initial_out_of_line_buf_len := d_initial_out_of_line_buf_len d; d_handles := d_handles d |}.
Definition set_dec_buf (buf : list Z) : M Error Decoder unit := λ d,
  (Ok tt, with_buf buf (d_initial_buf_len d) d).
Definition set_out_of_line_buf (buf : list Z) : M Error Decoder unit := λ d,
  (Ok tt, {| d_remaining_depth := d_remaining_depth d; d_buf := d_buf d;
             d_initial_buf_len := d_initial_buf_len d; d_out_of_line_buf := buf;
             d_initial_out_of_line_buf_len := d_initial_out_of_line_buf_len d;
             d_handles := d_handles d |}).
Definition set_dec_handles (handles : list Z) : M Error Decoder unit := λ d,
  (Ok tt, {| d_remaining_depth := d_remaining_depth d; d_buf := d_buf d;
             d_initial_buf_len := d_initial_buf_len d; d_out_of_line_buf := d_out_of_line_buf d;
             d_initial_out_of_line_buf_len := d_initial_out_of_line_buf_len d;
             d_handles := handles |}).

Definition dec_recurse {R : Type} (f : M Error Decoder R) : M Error Decoder R :=
  d <- get_store ;;
  match d_remaining_depth d with
  | O => fail MaxRecursionDepth
  | S n =>
      set_dec_depth n ;;;
      res <- f ;;
      d <- get_store ;;
      set_dec_depth (S (d_remaining_depth d)) ;;;
      ret res
  end.

Definition split_out_of_line (n : Z) : M Error Decoder (list Z) :=
  d <- get_store ;;
  p <- lift (split_off_front n (d_out_of_line_buf d)) ;;
  let '(head, tail) := p in
  set_out_of_line_buf tail ;;;
  ret head.

(** Returns the old inline buffer and its old initial length. *)
Definition before_read_out_of_line (len : Z) : M Error Decoder (list Z * Z) :=
  new_buf <- split_out_of_line len ;;
  d <- get_store ;;
  sum <- lift (uadd 64 (d_initial_buf_len d) (d_initial_out_of_line_buf_len d)) ;;
  new_initial_buf_len <- lift (usub sum (zlen (d_out_of_line_buf d))) ;;
  (if len mod 8 =? 0 then ret tt
   else split_out_of_line (8 - len mod 8) ;;; ret tt) ;;;
  d <- get_store ;;
  put_store (with_buf new_buf new_initial_buf_len d) ;;;
  ret (d_buf d, d_initial_buf_len d).

(** The inline buffer is put back also when the closure fails. *)
Definition read_out_of_line {R : Type} (len : Z) (f : M Error Decoder R) : M Error Decoder R :=
  p <- before_read_out_of_line len ;;
  let '(old_buf, old_initial_buf_len) := p in
  λ d, let (res, d) := f d in (res, with_buf old_buf old_initial_buf_len d).

Definition is_empty : M Error Decoder bool :=
  d <- get_store ;; ret (match d_buf d with [] => true | _ => false end).
Definition inline_pos : M Error Decoder Z :=
  d <- get_store ;; lift (usub (d_initial_buf_len d) (zlen (d_buf d))).
Definition out_of_line_pos : M Error Decoder Z :=
  d <- get_store ;; lift (usub (d_initial_out_of_line_buf_len d) (zlen (d_out_of_line_buf d))).
Definition remaining_out_of_line : M Error Decoder Z :=
  d <- get_store ;; ret (zlen (d_out_of_line_buf d)).
Definition remaining_handles : M Error Decoder Z :=
  d <- get_store ;; ret (zlen (d_handles d)).

Definition dec_next_slice (len : Z) : M Error Decoder (list Z) :=
  d <- get_store ;;
  p <- lift (split_off_front len (d_buf d)) ;;
  let '(head, tail) := p in
  set_dec_buf tail ;;;
  ret head.
Definition dec_next_byte : M Error Decoder Z :=
  d <- get_store ;;
  p <- lift (split_off_first (d_buf d)) ;;
  let '(x, tail) := p in
  set_dec_buf tail ;;;
  ret x.

(** A buffer that is too short aborts the process. *)
Definition peek_slice (len : Z) : M Error Decoder (list Z) :=
  d <- get_store ;;
  if len <=? zlen (d_buf d) then ret (take (Z.to_nat len) (d_buf d)) else panic.

Definition dec_take_handle : M Error Decoder Z :=
  d <- get_store ;;
  p <- lift (split_off_first (d_handles d)) ;;
  let '(handle, tail) := p in
  set_dec_handles tail ;;;
  ret (fst (take_handle handle)).

(** The position of the first byte that is not zero. *)
Fixpoint first_non_zero (i : Z) (padding : list Z) : option Z :=
  match padding with
  | [] => None
  | b :: padding => if negb (b =? 0) then Some i else first_non_zero (i + 1) padding
  end.
Definition skip_padding (len : Z) : M Error Decoder unit :=
  padding_start <- inline_pos ;;
  padding <- dec_next_slice len ;;
  match first_non_zero 0 padding with
  | Some i => pos <- lift (uadd 64 padding_start i) ;; fail (NonZeroPadding padding_start pos)
  | None => ret tt
  end.
Definition skip_tail_padding (target_inline_size start_pos : Z) : M Error Decoder unit :=
  pos <- inline_pos ;;
  (if start_pos <=? pos then ret tt else panic) ;;;
  done_ <- lift (usub pos start_pos) ;;
  n <- lift (usub target_inline_size done_) ;;
  skip_padding n.

(** * The traits

    [encode] takes the value by mutable reference: it returns what is left of it,
    with invalid handles in the place of those it sent.  [decode] overwrites a
    value.  The sizes and alignments of [Decodable] belong to the type. *)
Record Encodable (A : Type) := {
  inline_align : A → Z;
  inline_size : A → Z;
  encode : A → M Error Encoder A
}.
Arguments inline_align {A}.
Arguments inline_size {A}.
Arguments encode {A}.
Record Decodable (A : Type) := {
  type_align : Z;
  type_size : Z;
  new_empty : result Error A;
  decode : A → M Error Decoder A
}.
Arguments type_align {A}.
Arguments type_size {A}.
Arguments new_empty {A}.
Arguments decode {A}.

(** [Encoder::encode]: the bytes and the handles are left in the buffers. *)
Definition encoder_encode {A : Type} (E : Encodable A) (buf handles : list Z) (x : A)
    : result Error A * (list Z * list Z) :=
  match prepare_for_encoding buf handles (inline_size E x) with
  | Ok encoder => let (r, e) := encode E x encoder in (r, (e_buf e, e_handles e))
  | Err e => (Err e, (buf, handles))
  | Panic => (Panic, (buf, handles))
  | OutOfFuel => (OutOfFuel, (buf, handles))
  end.

Definition decode_into {A : Type} (D : Decodable A) (buf handles : list Z) (value : A) : result Error A :=
  out_of_line_offset <-? round_up_to_align (type_size D) 8 ;;
  if zlen buf <? out_of_line_offset then Err OutOfRange
  else
    let inline_buf := take (Z.to_nat out_of_line_offset) buf in
    let out_of_line_buf := drop (Z.to_nat out_of_line_offset) buf in
    let (r, decoder) := decode D value
      {| d_remaining_depth := MAX_RECURSION; d_buf := inline_buf;
         d_initial_buf_len := zlen inline_buf; d_out_of_line_buf := out_of_line_buf;
         d_initial_out_of_line_buf_len := zlen out_of_line_buf; d_handles := handles |} in
    value <-? r ;;
    if negb (zlen (d_out_of_line_buf decoder) =? 0) then Err ExtraBytes
    else if negb (zlen (d_handles decoder) =? 0) then Err ExtraHandles
    else Ok value.

(** * Thread-local buffers

    The borrow of the [RefCell] panics when the function is called recursively;
    the buffers are cleared after the closure, unless it panics. *)
Record CodingBuf := { coding_bytes : list Z; coding_handles : list Z; borrowed : bool }.
Definition with_tls_coding_bufs {E R : Type}
    (f : list Z → list Z → result E R * (list Z * list Z)) : M E CodingBuf R := λ buf,
  if borrowed buf then (Panic, buf)
  else
    match f (coding_bytes buf) (coding_handles buf) with
    | (Panic, (bytes, handles)) =>
        (Panic, {| coding_bytes := bytes; coding_handles := handles; borrowed := false |})
    | (OutOfFuel, (bytes, handles)) =>
        (OutOfFuel, {| coding_bytes := bytes; coding_handles := handles; borrowed := false |})
    | (res, _) => (res, {| coding_bytes := []; coding_handles := []; borrowed := false |})
    end.

(** [from] is the conversion of the error; the closure has the encoded buffers. *)
Definition with_tls_encoded {A T E : Type} (from : Error → E) (X : Encodable A) (val : A)
    (f : list Z → list Z → result E T * (list Z * list Z)) : M E CodingBuf T :=
  with_tls_coding_bufs (λ bytes handles,
    match encoder_encode X bytes handles val with
    | (Ok _, (bytes, handles)) => f bytes handles
    | (Err e, bufs) => (Err (from e), bufs)
    | (Panic, bufs) => (Panic, bufs)
    | (OutOfFuel, bufs) => (OutOfFuel, bufs)
    end).
