(* ===== verification/FidlTypes.v ===== *)
(** The types that FIDL encodes: the implementations of [Encodable] and [Decodable]
    in [public/lib/fidl/rust/fidl/src/encoding.rs], and those its macros make
    for the declarations of a protocol.  The integers are those of the
    [byteorder] package, a parameter; a floating point number is represented by its
    bits, a string by its UTF-8 bytes, an enum of the bindings by its discriminant. *)

From stdpp Require Import vector.
From S2P Require Import Prelude Std FidlCore.

(** A type with both traits. *)
Record Codable := {
  car : Type;
  enc : Encodable car;
  dec : Decodable car
}.

Section types.
Context `{!ByteOrder}.

(** * Numbers *)
(** [impl_codable_num!] for an integer of [n] bytes; [f32] and [f64] are the bits. *)
Definition num_encodable (n : Z) (signed : bool) : Encodable Z := {|
  inline_align _ := n;
  inline_size _ := n;
  encode self :=
    slot <- enc_next_slice n ;;
    fill_slot slot (write_int n (if signed then to_unsigned (8 * n) self else self)) ;;;
    ret self
|}.
Definition num_decodable (n : Z) (signed : bool) : Decodable Z := {|
  type_align := n;
  type_size := n;
  new_empty := Ok 0;
  decode _ :=
    range <- dec_next_slice n ;;
    ret (if signed then to_signed (8 * n) (read_int range) else read_int range)
|}.
Definition num_codable (n : Z) (signed : bool) : Codable :=
  {| enc := num_encodable n signed; dec := num_decodable n signed |}.

Definition encode_u32 (x : Z) : M Error Encoder unit := encode (num_encodable 4 false) x ;;; ret tt.
Definition encode_u64 (x : Z) : M Error Encoder unit := encode (num_encodable 8 false) x ;;; ret tt.
Definition decode_u32 : M Error Decoder Z := decode (num_decodable 4 false) 0.
Definition decode_u64 : M Error Decoder Z := decode (num_decodable 8 false) 0.

Definition bool_encodable : Encodable bool := {|
  inline_align _ := 1;
  inline_size _ := 1;
  encode (self : bool) :=
    slot <- enc_next_slice 1 ;;
    fill_slot slot [if self then 1 else 0] ;;;
    ret self
|}.
Definition bool_decodable : Decodable bool := {|
  type_align := 1;
  type_size := 1;
  new_empty := Ok false;
  decode _ :=
    num <- dec_next_byte ;;
    if num =? 0 then ret false
    else if num =? 1 then ret true
    else fail Invalid
|}.
Definition bool_codable : Codable := {| enc := bool_encodable; dec := bool_decodable |}.

(** [u8] and [i8]. *)
Definition byte_encodable (signed : bool) : Encodable Z := {|
  inline_align _ := 1;
  inline_size _ := 1;
  encode self :=
    slot <- enc_next_slice 1 ;;
    fill_slot slot [if signed then to_unsigned 8 self else self] ;;;
    ret self
|}.
Definition byte_decodable (signed : bool) : Decodable Z := {|
  type_align := 1;
  type_size := 1;
  new_empty := Ok 0;
  decode _ :=
    b <- dec_next_byte ;;
    ret (if signed then to_signed 8 b else b)
|}.
Definition byte_codable (signed : bool) : Codable :=
  {| enc := byte_encodable signed; dec := byte_decodable signed |}.

(** * Arrays and vectors *)
Section items.
Context {A : Type}.

Fixpoint encode_items (E : Encodable A) (items : list A) : M Error Encoder (list A) :=
  match items with
  | [] => ret []
  | item :: items =>
      item <- encode E item ;;
      items <- encode_items E items ;;
      ret (item :: items)
  end.
Fixpoint encode_elements (E : Encodable A) {n : nat} (slice : vec A n) : M Error Encoder (vec A n) :=
  match slice with
  | [#] => ret [#]
  | item ::: slice =>
      item <- encode E item ;;
      slice <- encode_elements E slice ;;
      ret (item ::: slice)
  end.
Definition encode_array (E : Encodable A) {n : nat} (slice : vec A n) : M Error Encoder (vec A n) :=
  enc_recurse (encode_elements E slice).

Fixpoint decode_elements (D : Decodable A) {n : nat} (slice : vec A n) : M Error Decoder (vec A n) :=
  match slice with
  | [#] => ret [#]
  | item ::: slice =>
      item <- decode D item ;;
      slice <- decode_elements D slice ;;
      ret (item ::: slice)
  end.
Definition decode_array (D : Decodable A) {n : nat} (slice : vec A n) : M Error Decoder (vec A n) :=
  dec_recurse (decode_elements D slice).

(** [impl_codable_for_fixed_array!] *)
Definition array_first {n : nat} (f : A → Z) (self : vec A n) : Z :=
  match self with
  | [#] => 0
  | x ::: _ => f x
  end.
Fixpoint array_new_empty (D : Decodable A) (n : nat) : result Error (vec A n) :=
  match n with
  | O => Ok [#]
  | S n => x <-? new_empty D ;; arr <-? array_new_empty D n ;; Ok (x ::: arr)
  end.
Definition array_encodable (E : Encodable A) (n : nat) : Encodable (vec A n) := {|
  inline_align self := array_first (inline_align E) self;
  inline_size self := array_first (inline_size E) self * Z.of_nat n;
  encode self := encode_array E self
|}.
Definition array_decodable (D : Decodable A) (n : nat) : Decodable (vec A n) := {|
  type_align := type_align D;
  type_size := type_size D * Z.of_nat n;
  new_empty := array_new_empty D n;
  decode self := decode_array D self
|}.

Definition encode_absent_vector : M Error Encoder unit :=
  encode_u64 0 ;;; encode_u64 ALLOC_ABSENT_U64.

(** The items of the iterator after they were encoded. *)
Definition encode_encodable_iter (E : Encodable A) (iter_opt : option (list A))
    : M Error Encoder (option (list A)) :=
  match iter_opt with
  | None => encode_absent_vector ;;; ret None
  | Some iter =>
      encode_u64 (zlen iter) ;;;
      encode_u64 ALLOC_PRESENT_U64 ;;;
      match iter with
      | [] => ret (Some [])
      | first :: iter =>
          n <- lift (uadd 64 (zlen iter) 1) ;;
          bytes_len <- lift (umul 64 n (inline_size E first)) ;;
          write_out_of_line bytes_len (enc_recurse (
            first <- encode E first ;;
            iter <- encode_items E iter ;;
            ret (Some (first :: iter))))
      end
  end.

(** [for _ in 0..len]: a new element is pushed and decoded in place. *)
Fixpoint decode_pushed (D : Decodable A) (len : nat) (vec : list A) : M Error Decoder (list A) :=
  match len with
  | O => ret vec
  | S len =>
      x <- lift (new_empty D) ;;
      x <- decode D x ;;
      decode_pushed D len (vec ++ [x])
  end.

(** The presence indicator of a vector-like value. *)
Definition decode_presence : M Error Decoder bool :=
  present <- decode_u64 ;;
  if present =? ALLOC_ABSENT_U64 then ret false
  else if present =? ALLOC_PRESENT_U64 then ret true
  else fail Invalid.

(** [None] when no vector was present: the [bool] of the source with the vector. *)
Definition decode_vec (D : Decodable A) : M Error Decoder (option (list A)) :=
  len <- decode_u64 ;;
  present <- decode_presence ;;
  if negb present then ret None
  else
    bytes_len <- lift (umul 64 len (type_size D)) ;;
    read_out_of_line bytes_len (dec_recurse (
      vec <- decode_pushed D (Z.to_nat len) [] ;;
      ret (Some vec))).

Definition vec_encodable (E : Encodable A) : Encodable (list A) := {|
  inline_align _ := 8;
  inline_size _ := 16;
  encode self :=
    r <- encode_encodable_iter E (Some self) ;;
    ret (default [] r)
|}.
Definition vec_decodable (D : Decodable A) : Decodable (list A) := {|
  type_align := 8;
  type_size := 16;
  new_empty := Ok [];
  decode _ :=
    r <- decode_vec D ;;
    match r with Some vec => ret vec | None => fail NotNullable end
|}.
Definition opt_vec_encodable (E : Encodable A) : Encodable (option (list A)) := {|
  inline_align _ := 8;
  inline_size _ := 16;
  encode self := encode_encodable_iter E self
|}.
Definition opt_vec_decodable (D : Decodable A) : Decodable (option (list A)) := {|
  type_align := 8;
  type_size := 16;
  new_empty := Ok None;
  decode _ := decode_vec D
|}.
End items.

Definition array_codable (c : Codable) (n : nat) : Codable :=
  {| enc := array_encodable (enc c) n; dec := array_decodable (dec c) n |}.
Definition vec_codable (c : Codable) : Codable :=
  {| enc := vec_encodable (enc c); dec := vec_decodable (dec c) |}.
Definition opt_vec_codable (c : Codable) : Codable :=
  {| enc := opt_vec_encodable (enc c); dec := opt_vec_decodable (dec c) |}.

(** * Strings *)
Definition encode_byte_slice (slice_opt : option (list Z)) : M Error Encoder unit :=
  match slice_opt with
  | None => encode_absent_vector
  | Some slice =>
      encode_u64 (zlen slice) ;;;
      encode_u64 ALLOC_PRESENT_U64 ;;;
      write_out_of_line (zlen slice) (
        slot <- enc_next_slice (zlen slice) ;;
        fill_slot slot slice)
  end.

(** All of the inline buffer is the string. *)
Definition decode_string : M Error Decoder (option (list Z)) :=
  len <- decode_u64 ;;
  present <- decode_presence ;;
  if negb present then ret None
  else
    read_out_of_line len (
      d <- get_store ;;
      if utf8_valid (d_buf d) then ret (Some (d_buf d)) else fail Utf8Error).

Definition string_encodable : Encodable (list Z) := {|
  inline_align _ := 8;
  inline_size _ := 16;
  encode self := encode_byte_slice (Some self) ;;; ret self
|}.
Definition string_decodable : Decodable (list Z) := {|
  type_align := 8;
  type_size := 16;
  new_empty := Ok [];
  decode _ :=
    r <- decode_string ;;
    match r with Some string => ret string | None => fail NotNullable end
|}.
Definition string_codable : Codable := {| enc := string_encodable; dec := string_decodable |}.
Definition opt_string_encodable : Encodable (option (list Z)) := {|
  inline_align _ := 8;
  inline_size _ := 16;
  encode self := encode_byte_slice self ;;; ret self
|}.
Definition opt_string_decodable : Decodable (option (list Z)) := {|
  type_align := 8;
  type_size := 16;
  new_empty := Ok None;
  decode _ := decode_string
|}.
Definition opt_string_codable : Codable :=
  {| enc := opt_string_encodable; dec := opt_string_decodable |}.

(** * Bits and enums

    [prim] is the primitive type; of the [bitflags] package, [from_bits] and the
    bits of the empty value. *)
Definition bits_encodable (prim : Encodable Z) (prim_d : Decodable Z) : Encodable Z := {|
  inline_align _ := type_align prim_d;
  inline_size _ := type_size prim_d;
  encode self := encode prim self
|}.
Definition bits_decodable (prim : Decodable Z) (from_bits : Z → option Z) (empty_bits : Z) : Decodable Z := {|
  type_align := type_align prim;
  type_size := type_size prim;
  new_empty := Ok empty_bits;
  decode _ :=
    x <- lift (new_empty prim) ;;
    x <- decode prim x ;;
    match from_bits x with Some bits => ret bits | None => fail Invalid end
|}.

Fixpoint from_primitive (values : list Z) (prim : Z) : option Z :=
  match values with
  | [] => None
  | value :: values => if prim =? value then Some value else from_primitive values prim
  end.
Definition enum_encodable (prim : Encodable Z) (prim_d : Decodable Z) : Encodable Z := {|
  inline_align _ := type_align prim_d;
  inline_size _ := type_size prim_d;
  encode self := encode prim self ;;; ret self
|}.
Definition enum_decodable (prim : Decodable Z) (values : list Z) : Decodable Z := {|
  type_align := type_align prim;
  type_size := type_size prim;
  new_empty := match values with value :: _ => Ok value | [] => Panic end;
  decode _ :=
    x <- lift (new_empty prim) ;;
    x <- decode prim x ;;
    match from_primitive values x with Some e => ret e | None => fail Invalid end
|}.

(** * Handles *)
Definition handle_encodable : Encodable Z := {|
  inline_align _ := 4;
  inline_size _ := 4;
  encode self :=
    encode_u32 ALLOC_PRESENT_U32 ;;;
    let '(handle, self) := take_handle self in
    e <- get_store ;;
    set_enc_handles (e_handles e ++ [handle]) ;;;
    ret self
|}.
Definition handle_decodable : Decodable Z := {|
  type_align := 4;
  type_size := 4;
  new_empty := Ok invalid_handle;
  decode _ :=
    present <- decode_u32 ;;
    if present =? ALLOC_ABSENT_U32 then fail NotNullable
    else if present =? ALLOC_PRESENT_U32 then dec_take_handle
    else fail Invalid
|}.
Definition handle_codable : Codable := {| enc := handle_encodable; dec := handle_decodable |}.

Definition opt_handle_encodable : Encodable (option Z) := {|
  inline_align _ := 4;
  inline_size _ := 4;
  encode (self : option Z) :=
    match self with
    | Some handle => handle <- encode handle_encodable handle ;; ret (Some handle)
    | None => encode_u32 ALLOC_ABSENT_U32 ;;; ret None
    end
|}.
Definition opt_handle_decodable : Decodable (option Z) := {|
  type_align := 4;
  type_size := 4;
  new_empty := Ok None;
  decode _ :=
    present <- decode_u32 ;;
    if present =? ALLOC_ABSENT_U32 then ret None
    else if present =? ALLOC_PRESENT_U32 then handle <- dec_take_handle ;; ret (Some handle)
    else fail Invalid
|}.
Definition opt_handle_codable : Codable :=
  {| enc := opt_handle_encodable; dec := opt_handle_decodable |}.

(** [handle_based_codable!]: a typed handle converts to a handle and back without
    change, and takes the same values. *)
Definition handle_based_encodable : Encodable Z := {|
  inline_align _ := 4;
  inline_size _ := 4;
  encode self :=
    let '(handle, self) := take_handle self in
    encode handle_encodable handle ;;;
    ret self
|}.
Definition handle_based_decodable : Decodable Z := {|
  type_align := 4;
  type_size := 4;
  new_empty := Ok invalid_handle;
  decode _ := decode handle_decodable invalid_handle
|}.
Definition handle_based_codable : Codable :=
  {| enc := handle_based_encodable; dec := handle_based_decodable |}.
Definition opt_handle_based_encodable : Encodable (option Z) := {|
  inline_align _ := 4;
  inline_size _ := 4;
  encode (self : option Z) :=
    match self with
    | Some handle => handle <- encode handle_based_encodable handle ;; ret (Some handle)
    | None => encode_u32 ALLOC_ABSENT_U32 ;;; ret None
    end
|}.
Definition opt_handle_based_decodable : Decodable (option Z) := {|
  type_align := 4;
  type_size := 4;
  new_empty := Ok None;
  decode _ := decode opt_handle_decodable None
|}.
Definition opt_handle_based_codable : Codable :=
  {| enc := opt_handle_based_encodable; dec := opt_handle_based_decodable |}.

(** * Empty structs and the unit type *)
Definition empty_struct_encodable : Encodable unit := {|
  inline_align _ := 1;
  inline_size _ := 1;
  encode self := encode (byte_encodable false) 0 ;;; ret self
|}.
Definition empty_struct_decodable : Decodable unit := {|
  type_align := 1;
  type_size := 1;
  new_empty := Ok tt;
  decode self :=
    x <- decode (byte_decodable false) 0 ;;
    if x =? 0 then ret self else fail Invalid
|}.
Definition empty_struct_codable : Codable :=
  {| enc := empty_struct_encodable; dec := empty_struct_decodable |}.

Definition unit_encodable : Encodable unit :=
  {| inline_align _ := 0; inline_size _ := 0; encode self := ret self |}.
Definition unit_decodable : Decodable unit :=
  {| type_align := 0; type_size := 0; new_empty := Ok tt; decode self := ret self |}.
Definition unit_codable : Codable := {| enc := unit_encodable; dec := unit_decodable |}.

(** * Boxes and optional containers *)
Definition box_encodable {A : Type} (E : Encodable A) : Encodable A := {|
  inline_align _ := 8;
  inline_size _ := 8;
  encode self :=
    encode_u64 ALLOC_PRESENT_U64 ;;;
    write_out_of_line (inline_size E self) (encode E self)
|}.
Definition box_decodable {A : Type} (D : Decodable A) : Decodable A := {|
  type_align := 8;
  type_size := 8;
  new_empty := new_empty D;
  decode self :=
    present <- decode_u64 ;;
    if negb (present =? ALLOC_PRESENT_U64) then fail NotNullable
    else read_out_of_line (type_size D) (decode D self)
|}.
Definition box_codable (c : Codable) : Codable :=
  {| enc := box_encodable (enc c); dec := box_decodable (dec c) |}.

(** [Option<T>] where [T] is an [AutonullContainer] of size [size]: a box, a table
    or an extensible union. *)
Definition option_encodable {A : Type} (E : Encodable A) (align size : Z) : Encodable (option A) := {|
  inline_align _ := align;
  inline_size _ := size;
  encode (self : option A) :=
    match self with
    | Some x => x <- encode E x ;; ret (Some x)
    | None =>
        slot <- enc_next_slice size ;;
        fill_slot slot (zeros size) ;;;
        ret None
    end
|}.
Definition check_for_presence (size : Z) : M Error Decoder bool :=
  bytes <- peek_slice size ;;
  ret (existsb (λ byte, negb (byte =? 0)) bytes).
Definition option_decodable {A : Type} (D : Decodable A) : Decodable (option A) := {|
  type_align := type_align D;
  type_size := type_size D;
  new_empty := Ok None;
  decode self :=
    present <- check_for_presence (type_size D) ;;
    if present then
      x <- (match self with Some x => ret x | None => lift (new_empty D) end) ;;
      x <- decode D x ;;
      ret (Some x)
    else
      dec_next_slice (type_size D) ;;;
      ret None
|}.
Definition option_codable (c : Codable) : Codable :=
  {| enc := option_encodable (enc c) (type_align (dec c)) (type_size (dec c));
     dec := option_decodable (dec c) |}.

End types.
