(* ===== verification/FidlAggregates.v ===== *)
(** The aggregate types of FIDL: the expansions of [fidl_struct!], [fidl_table!],
    [fidl_union!], [fidl_xunion!] and of the tuples, results, and the
    transaction messages of [public/lib/fidl/rust/fidl/src/encoding.rs].  A macro
    is a definition over the list of its members. *)

From S2P Require Import Prelude Std FidlCore FidlTypes.

(** A member: its offset, its ordinal or its index, and its type. *)
Definition Member : Type := Z * Codable.

(** The fields of a struct or a tuple. *)
Fixpoint fields (cs : list Codable) : Type :=
  match cs with
  | [] => unit
  | c :: cs => car c * fields cs
  end.
(** The fields of a table, all optional. *)
Fixpoint table_fields (ms : list Member) : Type :=
  match ms with
  | [] => unit
  | (_, c) :: ms => option (car c) * table_fields ms
  end.
(** The variants of a union. *)
Fixpoint variants (ms : list Member) : Type :=
  match ms with
  | [] => Empty_set
  | (_, c) :: ms => car c + variants ms
  end.
Definition types (ms : list Member) : list Codable := map snd ms.

Fixpoint fields_new_empty (cs : list Codable) : result Error (fields cs) :=
  match cs with
  | [] => Ok tt
  | c :: cs => x <-? new_empty (dec c) ;; xs <-? fields_new_empty cs ;; Ok (x, xs)
  end.

(** * [fidl_struct!] *)
Fixpoint encode_members (ms : list Member) (cur_offset : Z)
    : fields (types ms) → M Error Encoder (fields (types ms) * Z) :=
  match ms with
  | [] => λ self, ret (self, cur_offset)
  | (member_offset, c) :: ms => λ self,
      n <- lift (usub member_offset cur_offset) ;;
      enc_padding n ;;;
      x <- encode (enc c) (fst self) ;;
      cur_offset <- lift (uadd 64 member_offset (type_size (dec c))) ;;
      p <- encode_members ms cur_offset (snd self) ;;
      ret ((x, fst p), snd p)
  end.
Fixpoint decode_members (ms : list Member) (cur_offset : Z)
    : fields (types ms) → M Error Decoder (fields (types ms) * Z) :=
  match ms with
  | [] => λ self, ret (self, cur_offset)
  | (member_offset, c) :: ms => λ self,
      n <- lift (usub member_offset cur_offset) ;;
      dec_next_slice n ;;;
      x <- decode (dec c) (fst self) ;;
      cur_offset <- lift (uadd 64 member_offset (type_size (dec c))) ;;
      p <- decode_members ms cur_offset (snd self) ;;
      ret ((x, fst p), snd p)
  end.
Definition struct_encodable (ms : list Member) (size align : Z) : Encodable (fields (types ms)) := {|
  inline_align _ := align;
  inline_size _ := size;
  encode self := enc_recurse (
    p <- encode_members ms 0 self ;;
    n <- lift (usub size (snd p)) ;;
    enc_padding n ;;;
    ret (fst p))
|}.
Definition struct_decodable (ms : list Member) (size align : Z) : Decodable (fields (types ms)) := {|
  type_align := align;
  type_size := size;
  new_empty := fields_new_empty (types ms);
  decode self := dec_recurse (
    p <- decode_members ms 0 self ;;
    n <- lift (usub size (snd p)) ;;
    dec_next_slice n ;;;
    ret (fst p))
|}.
Definition struct_codable (ms : list Member) (size align : Z) : Codable :=
  {| enc := struct_encodable ms size align; dec := struct_decodable ms size align |}.

(** * Tuples, [tuple_impls!]: the first type, and the others with their indices *)
Fixpoint values_align (ms : list Member) (max : Z) : fields (types ms) → Z :=
  match ms with
  | [] => λ _, max
  | (_, c) :: ms => λ self,
      let a := inline_align (enc c) (fst self) in
      values_align ms (if max <? a then a else max) (snd self)
  end.
Fixpoint values_size (ms : list Member) (offset : Z) : fields (types ms) → Z :=
  match ms with
  | [] => λ _, offset
  | (_, c) :: ms => λ self,
      values_size ms
        (round_up offset (inline_align (enc c) (fst self)) + inline_size (enc c) (fst self)) (snd self)
  end.
Fixpoint types_align (ms : list Member) (max : Z) : Z :=
  match ms with
  | [] => max
  | (_, c) :: ms => types_align ms (if max <? type_align (dec c) then type_align (dec c) else max)
  end.
Fixpoint types_size (ms : list Member) (offset : Z) : Z :=
  match ms with
  | [] => offset
  | (_, c) :: ms => types_size ms (round_up offset (type_align (dec c)) + type_size (dec c))
  end.

Fixpoint encode_values (ms : list Member) (cur_offset : Z)
    : fields (types ms) → M Error Encoder (fields (types ms) * Z) :=
  match ms with
  | [] => λ self, ret (self, cur_offset)
  | (_, c) :: ms => λ self,
      member_offset <- lift (round_up_to_align cur_offset (inline_align (enc c) (fst self))) ;;
      n <- lift (usub member_offset cur_offset) ;;
      enc_padding n ;;;
      x <- encode (enc c) (fst self) ;;
      cur_offset <- lift (uadd 64 member_offset (inline_size (enc c) (fst self))) ;;
      p <- encode_values ms cur_offset (snd self) ;;
      ret ((x, fst p), snd p)
  end.
Fixpoint decode_values (ms : list Member) (cur_offset : Z)
    : fields (types ms) → M Error Decoder (fields (types ms) * Z) :=
  match ms with
  | [] => λ self, ret (self, cur_offset)
  | (_, c) :: ms => λ self,
      member_offset <- lift (round_up_to_align cur_offset (type_align (dec c))) ;;
      n <- lift (usub member_offset cur_offset) ;;
      dec_next_slice n ;;;
      x <- decode (dec c) (fst self) ;;
      cur_offset <- lift (uadd 64 member_offset (type_size (dec c))) ;;
      p <- decode_values ms cur_offset (snd self) ;;
      ret ((x, fst p), snd p)
  end.
Definition tuple_size (c : Codable) (ms : list Member) : Z := types_size ms (type_size (dec c)).
Definition tuple_encodable (c : Codable) (ms : list Member) : Encodable (car c * fields (types ms)) := {|
  inline_align self :=
    let a := inline_align (enc c) (fst self) in
    values_align ms (if 0 <? a then a else 0) (snd self);
  inline_size self := values_size ms (inline_size (enc c) (fst self)) (snd self);
  encode self := enc_recurse (
    x <- encode (enc c) (fst self) ;;
    p <- encode_values ms (inline_size (enc c) (fst self)) (snd self) ;;
    n <- lift (usub (values_size ms (inline_size (enc c) (fst self)) (snd self)) (snd p)) ;;
    enc_padding n ;;;
    ret (x, fst p))
|}.
Definition tuple_decodable (c : Codable) (ms : list Member) : Decodable (car c * fields (types ms)) := {|
  type_align := types_align ms (if 0 <? type_align (dec c) then type_align (dec c) else 0);
  type_size := tuple_size c ms;
  new_empty := x <-? new_empty (dec c) ;; xs <-? fields_new_empty (types ms) ;; Ok (x, xs);
  decode self := dec_recurse (
    x <- decode (dec c) (fst self) ;;
    p <- decode_values ms (type_size (dec c)) (snd self) ;;
    n <- lift (usub (tuple_size c ms) (snd p)) ;;
    dec_next_slice n ;;;
    ret (x, fst p))
|}.
Definition tuple_codable (c : Codable) (ms : list Member) : Codable :=
  {| enc := tuple_encodable c ms; dec := tuple_decodable c ms |}.

Section aggregates.
Context `{!ByteOrder}.

(** * [Result<O, E>], with [inl] for [Ok] and [inr] for [Err] *)
Definition result_align (o : Codable) : Z := Z.max (type_align (dec o)) 4.
Definition result_size (o e : Codable) : Z :=
  round_up (Z.max (type_size (dec o)) (type_size (dec e)) + 4) (result_align o).
Definition encode_tagged {A : Type} (o e : Codable) (tag : Z) (X : Encodable A) (val : A)
    : M Error Encoder A :=
  encoder <- get_store ;;
  let start_pos := e_offset encoder in
  encode (num_encodable 4 true) tag ;;;
  n <- lift (usub (result_align o) 4) ;;
  enc_next_slice n ;;;
  val <- encode X val ;;
  tail_padding_inner (result_size o e) start_pos ;;;
  ret val.
Definition decode_tagged {A : Type} (o e : Codable) (start_pos : Z) (D : Decodable A) (val : A)
    : M Error Decoder A :=
  val <- decode D val ;;
  skip_tail_padding (result_size o e) start_pos ;;;
  ret val.
Definition result_encodable (o e : Codable) : Encodable (car o + car e) := {|
  inline_align _ := result_align o;
  inline_size _ := result_size o e;
  encode (self : car o + car e) :=
    match self with
    | inl val => val <- encode_tagged o e 0 (enc o) val ;; ret (inl val)
    | inr val => val <- encode_tagged o e 1 (enc e) val ;; ret (inr val)
    end
|}.
Definition result_decodable (o e : Codable) : Decodable (car o + car e) := {|
  type_align := result_align o;
  type_size := result_size o e;
  new_empty := x <-? new_empty (dec o) ;; Ok (inl x);
  decode (self : car o + car e) :=
    start_pos <- inline_pos ;;
    tag <- decode_u32 ;;
    n <- lift (usub (result_align o) 4) ;;
    dec_next_slice n ;;;
    if tag =? 0 then
      val <- (match self with inl val => ret val | inr _ => lift (new_empty (dec o)) end) ;;
      val <- decode_tagged o e start_pos (dec o) val ;;
      ret (inl val)
    else if tag =? 1 then
      val <- (match self with inr val => ret val | inl _ => lift (new_empty (dec e)) end) ;;
      val <- decode_tagged o e start_pos (dec e) val ;;
      ret (inr val)
    else fail UnknownUnionTag
|}.
Definition result_codable (o e : Codable) : Codable :=
  {| enc := result_encodable o e; dec := result_decodable o e |}.

(** * Envelopes *)
Definition encode_in_envelope {A : Type} (E : Encodable A) (val : option A)
    : M Error Encoder (option A) :=
  e <- get_store ;;
  let envelope_offset := e_offset e in
  encode_u32 0 ;;;
  encode_u32 0 ;;;
  match val with
  | Some x =>
      encode_u64 ALLOC_PRESENT_U64 ;;;
      e <- get_store ;;
      let bytes_before := zlen (e_buf e) in
      let handles_before := zlen (e_handles e) in
      x <- write_out_of_line (inline_size E x) (encode E x) ;;
      e <- get_store ;;
      bytes_written <- lift (usub (zlen (e_buf e)) bytes_before) ;;
      handles_written <- lift (usub (zlen (e_handles e)) handles_before) ;;
      let after_offset := e_offset e in
      set_offset envelope_offset ;;;
      encode_u32 (bytes_written mod 2 ^ 32) ;;;
      encode_u32 (handles_written mod 2 ^ 32) ;;;
      set_offset after_offset ;;;
      ret (Some x)
  | None => encode_u64 ALLOC_ABSENT_U64 ;;; ret None
  end.

Definition decode_envelope {A : Type} (D : Decodable A) (self : option A)
    : M Error Decoder (option A) :=
  num_bytes <- decode_u32 ;;
  num_handles <- decode_u32 ;;
  present <- decode_u64 ;;
  bytes_before <- remaining_out_of_line ;;
  handles_before <- remaining_handles ;;
  self <-
    (if present =? ALLOC_PRESENT_U64 then
       read_out_of_line (type_size D) (
         val_ref <- (match self with Some x => ret x | None => lift (new_empty D) end) ;;
         val_ref <- decode D val_ref ;;
         ret (Some val_ref))
     else if present =? ALLOC_ABSENT_U64 then ret None
     else fail Invalid) ;;
  bytes_after <- remaining_out_of_line ;;
  bytes <- lift (uadd 64 bytes_after num_bytes) ;;
  handles_after <- remaining_handles ;;
  handles <- lift (uadd 64 handles_after num_handles) ;;
  if negb (bytes_before =? bytes) then fail Invalid
  else if negb (handles_before =? handles) then fail Invalid
  else ret self.

(** * [fidl_table!] *)
Fixpoint table_empty (ms : list Member) : table_fields ms :=
  match ms with
  | [] => tt
  | (_, _) :: ms => (None, table_empty ms)
  end.

(** [members.iter().rposition(|x| x.1.is_some())] *)
Fixpoint last_some_index (ms : list Member) : table_fields ms → option nat :=
  match ms with
  | [] => λ _, None
  | (_, _) :: ms => λ self,
      match last_some_index ms (snd self) with
      | Some i => Some (S i)
      | None => match fst self with Some _ => Some O | None => None end
      end
  end.
Definition members_len (ms : list Member) (self : table_fields ms) : nat :=
  match last_some_index ms self with Some i => S i | None => O end.
Definition max_ordinal (ms : list Member) (self : table_fields ms) : Z :=
  default 0 (last (take (members_len ms self) (map fst ms))).

(** Envelopes for missing ordinals. *)
Fixpoint fill_envelopes (n : nat) : M Error Encoder unit :=
  match n with
  | O => ret tt
  | S n => encode_in_envelope unit_encodable None ;;; fill_envelopes n
  end.

(** The first [len] members, from the ordinal [next]. *)
Fixpoint encode_table_members (ms : list Member) (len : nat) (next max : Z)
    : table_fields ms → M Error Encoder (table_fields ms) :=
  match ms with
  | [] => λ self, ret self
  | (ordinal, c) :: ms => λ self,
      match len with
      | O => ret self
      | S len =>
          if (ordinal <? next) || (max <? ordinal) then panic
          else
            fill_envelopes (Z.to_nat (ordinal - next)) ;;;
            x <- encode_in_envelope (enc c) (fst self) ;;
            next <- lift (uadd 64 ordinal 1) ;;
            xs <- encode_table_members ms len next max (snd self) ;;
            ret (x, xs)
      end
  end.
Definition table_encodable (ms : list Member) : Encodable (table_fields ms) := {|
  inline_align _ := 8;
  inline_size _ := 16;
  encode self :=
    let max := max_ordinal ms self in
    encode_u64 max ;;;
    encode_u64 ALLOC_PRESENT_U64 ;;;
    bytes_len <- lift (umul 64 max 16) ;;
    write_out_of_line bytes_len (enc_recurse (
      encode_table_members ms (members_len ms self) 1 max self))
|}.

Fixpoint decode_table_members (ms : list Member) : table_fields ms → M Error Decoder (table_fields ms) :=
  match ms with
  | [] => λ self, ret self
  | (_, c) :: ms => λ self,
      empty <- is_empty ;;
      x <- (if empty then ret None else decode_envelope (dec c) (fst self)) ;;
      xs <- decode_table_members ms (snd self) ;;
      ret (x, xs)
  end.

(** The envelopes of unknown ordinals; each takes bytes of the buffer. *)
Fixpoint decode_unknown_envelopes (fuel : nat) : M Error Decoder unit :=
  match fuel with
  | O => λ d, (OutOfFuel, d)
  | S fuel =>
      empty <- is_empty ;;
      if empty then ret tt
      else
        num_bytes <- decode_u32 ;;
        num_handles <- decode_u32 ;;
        present <- decode_u64 ;;
        if negb (num_bytes =? 0) || negb (num_handles =? 0) || negb (present =? ALLOC_ABSENT_U64)
        then fail UnknownTableField
        else decode_unknown_envelopes fuel
  end.
Definition table_decodable (ms : list Member) : Decodable (table_fields ms) := {|
  type_align := 8;
  type_size := 16;
  new_empty := Ok (table_empty ms);
  decode self :=
    len <- decode_u64 ;;
    present <- decode_u64 ;;
    if negb (present =? ALLOC_PRESENT_U64) then fail Invalid
    else
      bytes_len <- lift (umul 64 len 16) ;;
      read_out_of_line bytes_len (
        self <- decode_table_members ms self ;;
        d <- get_store ;;
        decode_unknown_envelopes (S (length (d_buf d))) ;;;
        ret self)
|}.
Definition table_codable (ms : list Member) : Codable :=
  {| enc := table_encodable ms; dec := table_decodable ms |}.

(** * [fidl_union!] *)
Fixpoint member_index (ms : list Member) (index : Z) : variants ms → Z :=
  match ms with
  | [] => λ self, match self with end
  | (_, _) :: ms => λ self,
      match self with
      | inl _ => index
      | inr self => member_index ms (index + 1) self
      end
  end.
Fixpoint encode_variant (ms : list Member) (size : Z) : variants ms → M Error Encoder (variants ms) :=
  match ms with
  | [] => λ self, match self with end
  | (member_offset, c) :: ms => λ self,
      match self with
      | inl val =>
          n <- lift (usub member_offset 4) ;;
          enc_padding n ;;;
          val <- encode (enc c) val ;;
          end_ <- lift (uadd 64 (type_size (dec c)) member_offset) ;;
          n <- lift (usub size end_) ;;
          enc_padding n ;;;
          ret (inl val)
      | inr self => self <- encode_variant ms size self ;; ret (inr self)
      end
  end.
Definition union_encodable (ms : list Member) (size align : Z) : Encodable (variants ms) := {|
  inline_align _ := align;
  inline_size _ := size;
  encode self :=
    encode_u32 (member_index ms 0 self) ;;;
    enc_recurse (encode_variant ms size self)
|}.

(** The value of the current variant is decoded into when it is the right one; the
    members before it were not the tag's. *)
Fixpoint decode_variant (ms : list Member) (size index tag : Z)
    : option (variants ms) → M Error Decoder (variants ms) :=
  match ms with
  | [] => λ _, fail UnknownUnionTag
  | (member_offset, c) :: ms => λ self,
      if index =? tag then
        n <- lift (usub member_offset 4) ;;
        dec_next_slice n ;;;
        val <- (match self with Some (inl val) => ret val | _ => lift (new_empty (dec c)) end) ;;
        val <- decode (dec c) val ;;
        end_ <- lift (uadd 64 (type_size (dec c)) member_offset) ;;
        n <- lift (usub size end_) ;;
        dec_next_slice n ;;;
        ret (inl val)
      else
        self <- decode_variant ms size (index + 1) tag
          (match self with Some (inr self) => Some self | _ => None end) ;;
        ret (inr self)
  end.
Definition union_new_empty (ms : list Member) : result Error (variants ms) :=
  match ms with
  | [] => Panic
  | (_, c) :: ms => x <-? new_empty (dec c) ;; Ok (inl x)
  end.
Definition union_decodable (ms : list Member) (size align : Z) : Decodable (variants ms) := {|
  type_align := align;
  type_size := size;
  new_empty := union_new_empty ms;
  decode self :=
    tag <- decode_u32 ;;
    dec_recurse (decode_variant ms size 0 tag (Some self))
|}.
Definition union_codable (ms : list Member) (size align : Z) : Codable :=
  {| enc := union_encodable ms size align; dec := union_decodable ms size align |}.

(** * [fidl_xunion!] *)
Record UnknownVariant := { u_ordinal : Z; u_bytes : list Z; u_handles : list Z }.
Definition xvariants (ms : list Member) : Type := variants ms + UnknownVariant.

Fixpoint variant_ordinal (ms : list Member) : variants ms → Z :=
  match ms with
  | [] => λ self, match self with end
  | (ordinal, _) :: ms => λ self,
      match self with
      | inl _ => ordinal
      | inr self => variant_ordinal ms self
      end
  end.
Definition ordinal (ms : list Member) (self : xvariants ms) : Z :=
  match self with
  | inl self => variant_ordinal ms self
  | inr u => u_ordinal u
  end.
Fixpoint encode_xvariant (ms : list Member) : variants ms → M Error Encoder (variants ms) :=
  match ms with
  | [] => λ self, match self with end
  | (_, c) :: ms => λ self,
      match self with
      | inl val =>
          r <- encode_in_envelope (enc c) (Some val) ;;
          ret (inl (default val r))
      | inr self => self <- encode_xvariant ms self ;; ret (inr self)
      end
  end.
Definition encode_unknown (u : UnknownVariant) : M Error Encoder UnknownVariant :=
  encode_u32 (zlen (u_bytes u) mod 2 ^ 32) ;;;
  encode_u32 (zlen (u_handles u) mod 2 ^ 32) ;;;
  encode_u64 ALLOC_PRESENT_U64 ;;;
  append_bytes (u_bytes u) ;;;
  handles <- append_handles (u_handles u) ;;
  ret {| u_ordinal := u_ordinal u; u_bytes := u_bytes u; u_handles := handles |}.
Definition xunion_encodable (ms : list Member) : Encodable (xvariants ms) := {|
  inline_align _ := 8;
  inline_size _ := 24;
  encode (self : xvariants ms) :=
    encode_u32 (ordinal ms self) ;;;
    encode_u32 0 ;;;
    enc_recurse (
      match self with
      | inl v => v <- encode_xvariant ms v ;; ret (inl v)
      | inr u => u <- encode_unknown u ;; ret (inr u)
      end)
|}.

(** [match ordinal] of the macro: the size of the member, or that of the unknown
    payload. *)
Fixpoint member_inline_size (ms : list Member) (ord num_bytes : Z) : Z :=
  match ms with
  | [] => num_bytes
  | (ordinal, c) :: ms => if ord =? ordinal then type_size (dec c) else member_inline_size ms ord num_bytes
  end.
Fixpoint take_handles (n : nat) : M Error Decoder (list Z) :=
  match n with
  | O => ret []
  | S n => handle <- dec_take_handle ;; handles <- take_handles n ;; ret (handle :: handles)
  end.
Definition decode_unknown (ord num_bytes num_handles : Z) : M Error Decoder UnknownVariant :=
  bytes <- dec_next_slice num_bytes ;;
  handles <- take_handles (Z.to_nat num_handles) ;;
  ret {| u_ordinal := ord; u_bytes := bytes; u_handles := handles |}.
Fixpoint decode_xvariant (ms : list Member) (ord num_bytes num_handles : Z)
    : option (variants ms) → M Error Decoder (xvariants ms) :=
  match ms with
  | [] => λ _, u <- decode_unknown ord num_bytes num_handles ;; ret (inr u)
  | (ordinal, c) :: ms => λ self,
      if ord =? ordinal then
        val <- (match self with Some (inl val) => ret val | _ => lift (new_empty (dec c)) end) ;;
        val <- decode (dec c) val ;;
        ret (inl (inl val))
      else
        r <- decode_xvariant ms ord num_bytes num_handles
          (match self with Some (inr self) => Some self | _ => None end) ;;
        ret (match r with inl v => inl (inr v) | inr u => inr u end)
  end.
Definition xunion_new_empty (ms : list Member) : result Error (xvariants ms) :=
  match ms with
  | [] => Ok (inr {| u_ordinal := 0; u_bytes := []; u_handles := [] |})
  | (_, c) :: ms => x <-? new_empty (dec c) ;; Ok (inl (inl x))
  end.
Definition xunion_decodable (ms : list Member) : Decodable (xvariants ms) := {|
  type_align := 8;
  type_size := 24;
  new_empty := xunion_new_empty ms;
  decode (self : xvariants ms) :=
    ord <- decode_u32 ;;
    _reserved <- decode_u32 ;;
    num_bytes <- decode_u32 ;;
    num_handles <- decode_u32 ;;
    present <- decode_u64 ;;
    if negb (present =? ALLOC_PRESENT_U64) then fail Invalid
    else
      read_out_of_line (member_inline_size ms ord num_bytes) (dec_recurse (
        decode_xvariant ms ord num_bytes num_handles
          (match self with inl v => Some v | inr _ => None end)))
|}.
Definition xunion_codable (ms : list Member) : Codable :=
  {| enc := xunion_encodable ms; dec := xunion_decodable ms |}.

(** * Transaction messages *)
Definition header_members : list Member :=
  [(0, num_codable 4 false); (8, num_codable 4 false); (12, num_codable 4 false)].
Definition TransactionHeader : Type := fields (types header_members).
Definition transaction_header (tx_id flags ordinal : Z) : TransactionHeader :=
  (tx_id, (flags, (ordinal, tt))).
Definition header_codable : Codable := struct_codable header_members 16 0.

Definition message_encodable (c : Codable) : Encodable (TransactionHeader * car c) := {|
  inline_align _ := 0;
  inline_size self := inline_size (enc header_codable) (fst self) + inline_size (enc c) (snd self);
  encode self :=
    header <- encode (enc header_codable) (fst self) ;;
    body <- encode (enc c) (snd self) ;;
    ret (header, body)
|}.
Definition message_decodable (c : Codable) : Decodable (TransactionHeader * car c) := {|
  type_align := 0;
  type_size := type_size (dec header_codable) + type_size (dec c);
  new_empty := Panic;
  decode self :=
    header <- decode (dec header_codable) (fst self) ;;
    body <- decode (dec c) (snd self) ;;
    ret (header, body)
|}.

Definition decode_transaction_header (bytes : list Z) : result Error (TransactionHeader * list Z) :=
  header <-? new_empty (dec header_codable) ;;
  let header_len := type_size (dec header_codable) in
  if zlen bytes <? header_len then Err OutOfRange
  else
    let header_bytes := take (Z.to_nat header_len) bytes in
    let body_bytes := drop (Z.to_nat header_len) bytes in
    header <-? decode_into (dec header_codable) header_bytes [] header ;;
    Ok (header, body_bytes).

End aggregates.
