(* ===== verification/FidlLogic.v ===== *)
(** Reasoning about the encoder and the decoder of FIDL messages: what a piece of
    encoding code adds to the message ([writes]), what a piece of decoding code
    takes from it ([reads]), and how deep each recurses.  The rules follow the
    operations of [encoding.rs]; the formats of the types are stated with them. *)

From S2P Require Import Prelude Std FidlCore FidlTypes.

(** * Outcomes under the recursion limit

    With enough remaining depth the computation gives [a] and the store [s']; with
    less it fails with [MaxRecursionDepth], and in no other way. *)
Class HasDepth (S : Type) := depth_of : S → nat.
#[export] Instance encoder_depth : HasDepth Encoder := e_remaining_depth.
#[export] Instance decoder_depth : HasDepth Decoder := d_remaining_depth.

Definition yields {S A : Type} `{!HasDepth S} (m : M Error S A) (s : S) (need : nat) (a : A) (s' : S)
    : Prop :=
  if decide (need ≤ depth_of s)%nat then m s = (Ok a, s')
  else ∃ s'', m s = (Err MaxRecursionDepth, s'').

Section yields.
Context {S A B : Type} `{!HasDepth S}.
Implicit Types (m : M Error S A) (k : A → M Error S B) (s : S).

Lemma yields_done m s a s' : m s = (Ok a, s') → yields m s 0 a s'.
Proof. intros H. unfold yields. by rewrite decide_True by lia. Qed.
Lemma yields_run m s need a s' :
  yields m s need a s' → (need ≤ depth_of s)%nat → m s = (Ok a, s').
Proof. unfold yields. intros H Hn. by rewrite decide_True in H. Qed.
Lemma yields_then m k s n1 n2 a b s1 s2 :
  yields m s n1 a s1 → depth_of s1 = depth_of s → yields (k a) s1 n2 b s2 →
  yields (bind m k) s (n1 `max` n2) b s2.
Proof.
  unfold yields. intros Hm Hd Hk. rewrite Hd in Hk.
  destruct (decide (n1 ≤ depth_of s)%nat) as [H1|H1].
  - rewrite (bind_ok _ _ _ _ _ Hm). destruct (decide (n2 ≤ depth_of s)%nat) as [H2|H2].
    + by rewrite decide_True by lia.
    + rewrite decide_False by lia. done.
  - rewrite decide_False by lia. destruct Hm as [s'' Hm]. exists s''. by apply bind_err.
Qed.
(** A step that always succeeds. *)
Lemma yields_step m k s n a b s1 s2 :
  m s = (Ok a, s1) → yields (k a) s1 n b s2 → depth_of s1 = depth_of s →
  yields (bind m k) s n b s2.
Proof. intros Hm Hk Hd. apply (yields_then m k s 0 n a b s1 s2); [by apply yields_done|done|done]. Qed.
Lemma yields_need m s n n' a s' : yields m s n a s' → n = n' → yields m s n' a s'.
Proof. by intros H <-. Qed.
End yields.

Lemma bind_assoc {E S A B C : Type} (m : M E S A) (k1 : A → M E S B) (k2 : B → M E S C) s :
  bind (bind m k1) k2 s = bind m (λ x, bind (k1 x) k2) s.
Proof. unfold bind. by destruct (m s) as [[] ?]. Qed.

(** * Lists of zeros *)
Lemma zeros_app a b : 0 ≤ a → 0 ≤ b → zeros (a + b) = zeros a ++ zeros b.
Proof. intros. unfold zeros. by rewrite Z2Nat.inj_add, replicate_add. Qed.
Lemma zeros_0 : zeros 0 = [].
Proof. done. Qed.
Lemma zlen_nil {A} : zlen (@nil A) = 0.
Proof. done. Qed.
Lemma zlen_cons {A} (x : A) l : zlen (x :: l) = 1 + zlen l.
Proof. unfold zlen. cbn [length]. lia. Qed.
Lemma splice_app_mid {A} (pre mid post bs : list A) :
  zlen mid = zlen bs → splice (zlen pre) bs (pre ++ mid ++ post) = pre ++ bs ++ post.
Proof.
  unfold splice, zlen. intros H. rewrite Nat2Z.id, take_app_length. f_equal. f_equal.
  rewrite <- drop_drop, drop_app_length. replace (length bs) with (length mid) by lia.
  apply drop_app_length.
Qed.
Lemma take_zlen_app {A} n (a b : list A) : zlen a = n → take (Z.to_nat n) (a ++ b) = a.
Proof. intros <-. unfold zlen. rewrite Nat2Z.id. apply take_app_length. Qed.
Lemma drop_zlen_app {A} n (a b : list A) : zlen a = n → drop (Z.to_nat n) (a ++ b) = b.
Proof. intros <-. unfold zlen. rewrite Nat2Z.id. apply drop_app_length. Qed.
Lemma split_off_front_app {T} n (a b : list T) : zlen a = n → split_off_front n (a ++ b) = Ok (a, b).
Proof.
  intros H. unfold split_off_front. rewrite take_zlen_app, drop_zlen_app by done.
  pose proof (zlen_nonneg b). rewrite zlen_app. by by_ltb.
Qed.

(** * Rounding *)
Lemma round_up_spec x align : 0 < align → 0 ≤ x →
  x ≤ round_up x align < x + align ∧ (align | round_up x align).
Proof.
  intros Ha Hx. unfold round_up. rewrite (proj2 (Z.eqb_neq _ _)) by lia.
  pose proof (Z.div_mod (x + align - 1) align). pose proof (Z.mod_pos_bound (x + align - 1) align).
  split; [nia|]. apply Z.divide_factor_r.
Qed.
Lemma round_up_bounds x align : 0 ≤ align → 0 ≤ x → x ≤ round_up x align ≤ x + align.
Proof.
  intros Ha Hx. destruct (decide (align = 0)) as [->|].
  - unfold round_up. cbn. lia.
  - destruct (round_up_spec x align); lia.
Qed.
Lemma round_up_divide x align : 0 < align → (align | x) → round_up x align = x.
Proof.
  intros Ha [q ->]. unfold round_up. rewrite (proj2 (Z.eqb_neq _ _)) by lia.
  replace (q * align + align - 1) with (q * align + (align - 1)) by lia.
  rewrite Z.div_add_l, (Z.div_small (align - 1)) by lia. lia.
Qed.
Lemma round_up_to_align_ok x align : 0 ≤ align → 0 ≤ x → x + align < 2 ^ 64 →
  round_up_to_align x align = Ok (round_up x align).
Proof.
  intros Ha Hx Hb. unfold round_up_to_align. pose proof (round_up_bounds x align Ha Hx) as Hr.
  unfold round_up in *. destruct (Z.eqb_spec align 0) as [|Hn]; [done|].
  rewrite uadd_ok by lia. cbn [rbind]. rewrite usub_ok by lia. cbn [rbind].
  apply umul_ok. lia.
Qed.

(** The bytes after a chunk of out-of-line data, up to the next multiple of eight. *)
Definition pad8 (n : Z) : list Z := zeros (round_up n 8 - n).
Lemma zlen_pad8 n : 0 ≤ n → zlen (pad8 n) = round_up n 8 - n.
Proof. intros. apply zlen_zeros. destruct (round_up_spec n 8); lia. Qed.
Lemma pad8_aligned n : 0 ≤ n → (8 | n + zlen (pad8 n)).
Proof.
  intros. rewrite zlen_pad8 by done. replace (n + (round_up n 8 - n)) with (round_up n 8) by lia.
  apply round_up_spec; lia.
Qed.

(** * What encoding writes

    [pre] is before the position, [mid] at it, [post] after it. *)
Definition est (d : nat) (pre mid post hs : list Z) : Encoder :=
  {| e_offset := zlen pre; e_remaining_depth := d; e_buf := pre ++ mid ++ post; e_handles := hs |}.

(** The code writes the bytes [i] at the position, where there were zeros, adds
    [o] at the end of the buffer and the handles [h], and gives [a].  Messages
    are shorter than 4 GiB. *)
Definition writes {A : Type} (m : M Error Encoder A) (need : nat) (a : A) (i o h : list Z) : Prop :=
  ∀ d pre post hs,
    (8 | zlen pre + zlen i + zlen post) →
    zlen pre + zlen i + zlen post + zlen o < 2 ^ 32 →
    zlen hs + zlen h < 2 ^ 32 →
    yields m (est d pre (zeros (zlen i)) post hs) need a (est d (pre ++ i) [] (post ++ o) (hs ++ h)).

(** The same from a position. *)
Definition writes_at {A : Type} (p : Z) (m : M Error Encoder A) (need : nat) (a : A) (i o h : list Z)
    : Prop :=
  ∀ d pre post hs,
    zlen pre = p →
    (8 | zlen pre + zlen i + zlen post) →
    zlen pre + zlen i + zlen post + zlen o < 2 ^ 32 →
    zlen hs + zlen h < 2 ^ 32 →
    yields m (est d pre (zeros (zlen i)) post hs) need a (est d (pre ++ i) [] (post ++ o) (hs ++ h)).
Lemma writes_at_any {A} p (m : M Error Encoder A) n a i o h : writes m n a i o h → writes_at p m n a i o h.
Proof. intros H d pre post hs _. apply H. Qed.
Lemma writes_everywhere {A} (m : M Error Encoder A) n a i o h :
  (∀ p, 0 ≤ p → writes_at p m n a i o h) → writes m n a i o h.
Proof. intros H d pre post hs. apply (H (zlen pre)); [apply zlen_nonneg|done]. Qed.

Section writes.
Context {A B : Type}.
Implicit Types (m : M Error Encoder A) (k : A → M Error Encoder B).

Lemma writes_ret (a : A) : writes (ret a) 0 a [] [] [].
Proof. intros d pre post hs _ _ _. apply yields_done. unfold ret, est. by rewrite !app_nil_r. Qed.

Lemma writes_at_bind p m k n1 n2 a b i1 i2 o1 o2 h1 h2 :
  (8 | zlen o1) → writes_at p m n1 a i1 o1 h1 → writes_at (p + zlen i1) (k a) n2 b i2 o2 h2 →
  writes_at p (bind m k) (n1 `max` n2) b (i1 ++ i2) (o1 ++ o2) (h1 ++ h2).
Proof.
  intros Ho Hm Hk d pre post hs Hp H8 Hb Hh. rewrite !zlen_app in *.
  pose proof (zlen_nonneg i1). pose proof (zlen_nonneg i2). pose proof (zlen_nonneg o1).
  pose proof (zlen_nonneg o2). pose proof (zlen_nonneg h2).
  assert (zlen (zeros (zlen i2)) = zlen i2) as Hz by by rewrite zlen_zeros.
  specialize (Hm d pre (zeros (zlen i2) ++ post) hs Hp). specialize (Hk d (pre ++ i1) (post ++ o1) (hs ++ h1)).
  rewrite !zlen_app, Hz in Hm. rewrite !zlen_app in Hk.
  eapply yields_then.
  - unfold est in *. rewrite zeros_app, <- app_assoc by done. apply Hm; [|lia|lia].
    by replace (zlen pre + zlen i1 + (zlen i2 + zlen post)) with (zlen pre + (zlen i1 + zlen i2) + zlen post) by lia.
  - done.
  - unfold est in *. cbn [app] in *. rewrite <- !app_assoc in *. apply Hk; [lia| |lia|lia].
    replace (zlen pre + zlen i1 + zlen i2 + (zlen post + zlen o1))
      with (zlen pre + (zlen i1 + zlen i2) + zlen post + zlen o1) by lia.
    by apply Z.divide_add_r.
Qed.
Lemma writes_bind m k n1 n2 a b i1 i2 o1 o2 h1 h2 :
  (8 | zlen o1) → writes m n1 a i1 o1 h1 → writes (k a) n2 b i2 o2 h2 →
  writes (bind m k) (n1 `max` n2) b (i1 ++ i2) (o1 ++ o2) (h1 ++ h2).
Proof.
  intros Ho Hm Hk. apply writes_everywhere. intros p _.
  eapply writes_at_bind; [done|by apply writes_at_any|by apply writes_at_any].
Qed.

(** The position can be asked for. *)
Lemma writes_at_offset p (k : Encoder → M Error Encoder B) n b i o h :
  (∀ e, e_offset e = p → writes_at p (k e) n b i o h) → writes_at p (bind get_store k) n b i o h.
Proof. intros H d pre post hs Hp ???. eapply yields_step; [done|by apply H|done]. Qed.

(** [writes] up to the equality of its indices. *)
Lemma writes_eq m n n' a a' i i' o o' h h' :
  writes m n a i o h → n = n' → a = a' → i = i' → o = o' → h = h' → writes m n' a' i' o' h'.
Proof. by intros H <- <- <- <- <-. Qed.

Lemma writes_lift {R} (r : result Error R) (k : R → M Error Encoder B) x n b i o h :
  r = Ok x → writes (k x) n b i o h → writes (bind (lift r) k) n b i o h.
Proof. intros Hr H d pre post hs H8 Hb Hh. eapply yields_step; [by rewrite Hr|by apply H|done]. Qed.

Lemma writes_recurse m n a i o h : writes m n a i o h → writes (enc_recurse m) (S n) a i o h.
Proof.
  intros H d pre post hs H8 Hb Hh. unfold enc_recurse, yields. change (depth_of _) with d.
  rewrite bind_get_store. cbn [est e_remaining_depth]. destruct d as [|d].
  - rewrite decide_False by lia. by eexists.
  - specialize (H d pre post hs H8 Hb Hh). unfold yields in H. change (depth_of _) with d in H.
    erewrite (bind_ok (set_enc_depth d)) by done. destruct (decide (n ≤ d)%nat) as [Hn|Hn].
    + rewrite decide_True by lia. erewrite (bind_ok m) by exact H. done.
    + rewrite decide_False by lia. destruct H as [s'' H]. eexists. eapply bind_err. exact H.
Qed.
End writes.

Lemma est_next_slice d pre mid post hs :
  zlen pre + zlen mid < 2 ^ 64 →
  enc_next_slice (zlen mid) (est d pre mid post hs) = (Ok (zlen pre),
    {| e_offset := zlen pre + zlen mid; e_remaining_depth := d; e_buf := pre ++ mid ++ post; e_handles := hs |}).
Proof.
  intros Hb. unfold enc_next_slice. rewrite bind_get_store. cbn [e_offset e_buf est].
  erewrite bind_lift by by apply uadd_ok. pose proof (zlen_nonneg post). rewrite !zlen_app.
  by by_ltb.
Qed.

(** A slot that is filled. *)
Lemma writes_slot bs n : zlen bs = n → writes (slot <- enc_next_slice n ;; fill_slot slot bs) 0 tt bs [] [].
Proof.
  intros <- d pre post hs _ Hb _. apply yields_done. pose proof (zlen_nonneg post). pose proof (zlen_nonneg bs).
  rewrite zlen_nil in Hb.
  assert (zlen (zeros (zlen bs)) = zlen bs) as Hz by by rewrite zlen_zeros.
  rewrite <- Hz at 1. erewrite bind_ok by (apply est_next_slice; rewrite Hz; lia).
  unfold fill_slot. rewrite bind_get_store. cbn [e_buf]. rewrite splice_app_mid by done.
  unfold set_enc_buf, est. cbn [e_offset e_remaining_depth e_handles]. rewrite Hz, zlen_app, !app_nil_r.
  cbn [app]. by rewrite <- app_assoc.
Qed.
Lemma writes_assoc {A B C} (m : M Error Encoder A) (k1 : A → M Error Encoder B) (k2 : B → M Error Encoder C)
    n c i o h :
  writes (bind (bind m k1) k2) n c i o h → writes (bind m (λ x, bind (k1 x) k2)) n c i o h.
Proof.
  intros H d pre post hs H8 Hb Hh. specialize (H d pre post hs H8 Hb Hh). unfold yields in *.
  by rewrite bind_assoc in H.
Qed.
(** A flat write before a computation, and after it. *)
Lemma writes_then {A B} (m : M Error Encoder A) (k : A → M Error Encoder B) n a b i1 i2 o h :
  writes m 0 a i1 [] [] → writes (k a) n b i2 o h → writes (bind m k) n b (i1 ++ i2) o h.
Proof. intros Hm Hk. eapply (writes_bind m k 0 n a b i1 i2 [] o [] h); [by exists 0|done|done]. Qed.
Lemma writes_done {A B} (m : M Error Encoder A) (k : A → M Error Encoder B) n a b i o h :
  (8 | zlen o) → writes m n a i o h → writes (k a) 0 b [] [] [] → writes (bind m k) n b i o h.
Proof.
  intros H8 Hm Hk. eapply writes_eq; [by eapply writes_bind|apply Nat.max_0_r|done|apply app_nil_r..].
Qed.

(** A slot that is left as it is. *)
Lemma writes_at_slice p n : 0 ≤ n → writes_at p (enc_next_slice n) 0 p (zeros n) [] [].
Proof.
  intros Hn d pre post hs <- _ Hb _. apply yields_done. rewrite zlen_nil, zlen_zeros in * by done.
  pose proof (zlen_nonneg post). rewrite <- (zlen_zeros n Hn) at 1.
  rewrite est_next_slice by (rewrite zlen_zeros; lia).
  unfold est. rewrite zlen_app, !app_nil_r. cbn [app]. by rewrite <- app_assoc.
Qed.
Lemma writes_at_then {A B} p (m : M Error Encoder A) (k : A → M Error Encoder B) n a b i1 i2 o h :
  writes_at p m 0 a i1 [] [] → writes_at (p + zlen i1) (k a) n b i2 o h →
  writes_at p (bind m k) n b (i1 ++ i2) o h.
Proof. intros Hm Hk. eapply (writes_at_bind p m k 0 n a b i1 i2 [] o [] h); [by exists 0|done|done]. Qed.
Lemma writes_at_lift {R B} p (r : result Error R) (k : R → M Error Encoder B) x n b i o h :
  r = Ok x → writes_at p (k x) n b i o h → writes_at p (bind (lift r) k) n b i o h.
Proof. intros Hr H d pre post hs Hp H8 Hb Hh. eapply yields_step; [by rewrite Hr|by apply H|done]. Qed.
(** A flat write after a computation. *)
Lemma writes_at_last {A B} p (m : M Error Encoder A) (k : A → M Error Encoder B) n a b i1 i2 o h :
  (8 | zlen o) → writes_at p m n a i1 o h → writes_at (p + zlen i1) (k a) 0 b i2 [] [] →
  writes_at p (bind m k) n b (i1 ++ i2) o h.
Proof.
  intros H8 Hm Hk. pose proof (writes_at_bind p m k n 0 a b i1 i2 o [] h [] H8 Hm Hk) as H.
  by rewrite Nat.max_0_r, !app_nil_r in H.
Qed.
Lemma writes_padding n : 0 ≤ n → writes (enc_padding n) 0 tt (zeros n) [] [].
Proof.
  intros Hn d pre post hs _ Hb _. apply yields_done. rewrite zlen_nil, zlen_zeros in * by done.
  unfold enc_padding. rewrite bind_get_store. cbn [e_offset e_buf est]. pose proof (zlen_nonneg post).
  erewrite bind_lift by (apply uadd_ok; lia). rewrite !zlen_app, zlen_zeros by done. by_ltb.
  unfold set_offset, est. cbn [e_remaining_depth e_buf e_handles]. rewrite zlen_app, zlen_zeros, !app_nil_r by done.
  cbn [app]. by rewrite <- app_assoc.
Qed.

Lemma pad8_mod n : 0 ≤ n → zlen (pad8 n) = if n mod 8 =? 0 then 0 else 8 - n mod 8.
Proof.
  intros. rewrite zlen_pad8 by done. unfold round_up. cbn [Z.eqb].
  destruct (Z.eqb_spec (n mod 8) 0); Z.to_euclidean_division_equations; lia.
Qed.

Lemma vec_resize_more n buf : 0 ≤ n → vec_resize (zlen buf + n) buf = buf ++ zeros n.
Proof.
  intros. unfold vec_resize. rewrite take_ge by (unfold zlen; lia). do 2 f_equal. lia.
Qed.

Lemma writes_ool {A} (m : M Error Encoder A) len n a i o h :
  zlen i = len → writes m n a i o h →
  writes (write_out_of_line len m) n a [] (i ++ pad8 len ++ o) h.
Proof.
  intros <- Hm d pre post hs H8 Hb Hh. unfold write_out_of_line.
  pose proof (zlen_nonneg i) as Hi. pose proof (zlen_nonneg pre). pose proof (zlen_nonneg post).
  pose proof (zlen_nonneg o). pose proof (round_up_spec (zlen i) 8) as [Hr _]; [lia..|].
  rewrite zlen_nil, Z.add_0_r in H8, Hb. rewrite !zlen_app, zlen_pad8 in Hb by done. change (zeros (zlen [])) with (@nil Z).
  eapply yields_step; [done| |done]. eapply yields_step; [done| |done].
  cbn [est e_offset e_buf app]. eapply yields_step.
  { unfold reserve_out_of_line. rewrite bind_get_store.
    erewrite bind_lift by (apply round_up_to_align_ok; lia). cbn [e_offset e_buf].
    erewrite bind_lift by (apply uadd_ok; rewrite zlen_app; lia). rewrite vec_resize_more by lia.
    unfold set_enc_buf. cbn [e_offset e_remaining_depth e_handles]. reflexivity. }
  2: done.
  eapply yields_need; [eapply yields_then|apply Nat.max_0_r].
  - replace (zeros (round_up (zlen i) 8)) with (zeros (zlen i) ++ pad8 (zlen i)).
    + apply (Hm d (pre ++ post) (pad8 (zlen i)) hs); rewrite ?zlen_app, ?zlen_pad8; [|lia..].
      apply Z.divide_add_r with (m := zlen pre + zlen post) (p := round_up (zlen i) 8) in H8;
        [|apply round_up_spec; lia].
      by replace (zlen pre + zlen post + zlen i + (round_up (zlen i) 8 - zlen i))
        with (zlen pre + zlen post + round_up (zlen i) 8) by lia.
    + unfold pad8. rewrite <- zeros_app by lia. f_equal. lia.
  - done.
  - apply yields_done. unfold set_offset, bind, ret, est. cbn [e_remaining_depth e_buf e_handles].
    by rewrite !app_nil_r, <- !app_assoc.
Qed.

Lemma writes_push handle :
  writes (e <- get_store ;; set_enc_handles (e_handles e ++ [handle])) 0 tt [] [] [handle].
Proof.
  intros d pre post hs _ _ _. apply yields_done. rewrite bind_get_store. unfold set_enc_handles, est.
  cbn [e_offset e_remaining_depth e_buf e_handles]. by rewrite !app_nil_r.
Qed.

(** * What decoding reads *)
Definition dst (d : nat) (b : list Z) (ib : Z) (o : list Z) (io : Z) (h : list Z) : Decoder :=
  {| d_remaining_depth := d; d_buf := b; d_initial_buf_len := ib; d_out_of_line_buf := o;
     d_initial_out_of_line_buf_len := io; d_handles := h |}.

(** The code takes the bytes [i] of the inline buffer, the bytes [o] of the
    out-of-line buffer and the handles [h], and gives [a].  It nests at most [nest]
    pieces of out-of-line data in each other: each adds the length of the whole
    out-of-line data to the initial length of the inline buffer. *)
Definition reads {A : Type} (m : M Error Decoder A) (need nest : nat) (a : A) (i o h : list Z) : Prop :=
  ∀ d b ib ob io hb,
    zlen i + zlen b ≤ ib → zlen o + zlen ob ≤ io → io < 2 ^ 32 →
    zlen h + zlen hb < 2 ^ 32 → ib + Z.of_nat nest * io < 2 ^ 64 →
    yields m (dst d (i ++ b) ib (o ++ ob) io (h ++ hb)) need a (dst d b ib ob io hb).

(** The same from a position in the inline buffer. *)
Definition reads_at {A : Type} (p : Z) (m : M Error Decoder A) (need nest : nat) (a : A) (i o h : list Z)
    : Prop :=
  ∀ d b ib ob io hb,
    ib - (zlen i + zlen b) = p →
    zlen i + zlen b ≤ ib → zlen o + zlen ob ≤ io → io < 2 ^ 32 →
    zlen h + zlen hb < 2 ^ 32 → ib + Z.of_nat nest * io < 2 ^ 64 →
    yields m (dst d (i ++ b) ib (o ++ ob) io (h ++ hb)) need a (dst d b ib ob io hb).
Lemma reads_at_any {A} p (m : M Error Decoder A) n nest a i o h :
  reads m n nest a i o h → reads_at p m n nest a i o h.
Proof. intros H d b ib ob io hb _. apply H. Qed.
Lemma reads_everywhere {A} (m : M Error Decoder A) n nest a i o h :
  (∀ p, 0 ≤ p → reads_at p m n nest a i o h) → reads m n nest a i o h.
Proof. intros H d b ib ob io hb Hi. apply (H (ib - (zlen i + zlen b))); [lia|done|done]. Qed.

Section reads.
Context {A B : Type}.
Implicit Types (m : M Error Decoder A) (k : A → M Error Decoder B).

Lemma reads_ret nest (a : A) : reads (ret a) 0 nest a [] [] [].
Proof. intros d b ib ob io hb _ _ _ _ _. by apply yields_done. Qed.
Lemma reads_at_bind p m k n1 n2 nest a b i1 i2 o1 o2 h1 h2 :
  reads_at p m n1 nest a i1 o1 h1 → reads_at (p + zlen i1) (k a) n2 nest b i2 o2 h2 →
  reads_at p (bind m k) (n1 `max` n2) nest b (i1 ++ i2) (o1 ++ o2) (h1 ++ h2).
Proof.
  intros Hm Hk d b' ib ob io hb Hp Hi Ho Hio Hh Hn. rewrite !zlen_app in *.
  pose proof (zlen_nonneg i1). pose proof (zlen_nonneg o1). pose proof (zlen_nonneg h1).
  rewrite <- !app_assoc. eapply yields_then; [apply Hm; rewrite ?zlen_app; lia|done|apply Hk; lia].
Qed.
Lemma reads_bind m k n1 n2 nest a b i1 i2 o1 o2 h1 h2 :
  reads m n1 nest a i1 o1 h1 → reads (k a) n2 nest b i2 o2 h2 →
  reads (bind m k) (n1 `max` n2) nest b (i1 ++ i2) (o1 ++ o2) (h1 ++ h2).
Proof.
  intros Hm Hk. apply reads_everywhere. intros p _.
  eapply reads_at_bind; by apply reads_at_any.
Qed.
Lemma reads_at_pos p nest : reads_at p inline_pos 0 nest p [] [] [].
Proof.
  intros d b ib ob io hb Hp Hi _ _ _ _. apply yields_done. unfold inline_pos. rewrite bind_get_store.
  cbn [d_initial_buf_len d_buf dst app]. rewrite zlen_nil in *. unfold lift. rewrite usub_ok by lia.
  by rewrite <- Hp.
Qed.
Lemma reads_eq m n n' nest a a' i i' o o' h h' :
  reads m n nest a i o h → n = n' → a = a' → i = i' → o = o' → h = h' → reads m n' nest a' i' o' h'.
Proof. by intros H <- <- <- <- <-. Qed.
Lemma reads_lift {R} (r : result Error R) (k : R → M Error Decoder B) x n nest b i o h :
  r = Ok x → reads (k x) n nest b i o h → reads (bind (lift r) k) n nest b i o h.
Proof. intros Hr H d b' ib ob io hb ?????. eapply yields_step; [by rewrite Hr|by apply H|done]. Qed.
Lemma reads_recurse m n nest a i o h : reads m n nest a i o h → reads (dec_recurse m) (S n) nest a i o h.
Proof.
  intros H d b ib ob io hb Hi Ho Hio Hh Hn. unfold dec_recurse, yields. change (depth_of _) with d.
  rewrite bind_get_store. cbn [dst d_remaining_depth]. destruct d as [|d].
  - rewrite decide_False by lia. by eexists.
  - specialize (H d b ib ob io hb Hi Ho Hio Hh Hn). unfold yields in H. change (depth_of _) with d in H.
    erewrite (bind_ok (set_dec_depth d)) by done. destruct (decide (n ≤ d)%nat) as [Hd|Hd].
    + rewrite decide_True by lia. erewrite (bind_ok m) by exact H. done.
    + rewrite decide_False by lia. destruct H as [s'' H]. eexists. eapply bind_err. exact H.
Qed.
End reads.

Lemma reads_then {A B} (m : M Error Decoder A) (k : A → M Error Decoder B) n nest a b i1 i2 o h :
  reads m 0 nest a i1 [] [] → reads (k a) n nest b i2 o h → reads (bind m k) n nest b (i1 ++ i2) o h.
Proof. intros Hm Hk. by eapply (reads_bind m k 0 n nest a b i1 i2 [] o [] h). Qed.
Lemma reads_done {A B} (m : M Error Decoder A) (k : A → M Error Decoder B) n nest a b i o h :
  reads m n nest a i o h → reads (k a) 0 nest b [] [] [] → reads (bind m k) n nest b i o h.
Proof.
  intros Hm Hk. eapply reads_eq; [by eapply reads_bind|apply Nat.max_0_r|done|apply app_nil_r..].
Qed.

Lemma dst_next_slice d bs b ib o io h n : zlen bs = n →
  dec_next_slice n (dst d (bs ++ b) ib o io h) = (Ok bs, dst d b ib o io h).
Proof.
  intros H. unfold dec_next_slice. rewrite bind_get_store. cbn [d_buf dst].
  by erewrite bind_lift by by apply split_off_front_app.
Qed.
Lemma reads_slice nest bs n : zlen bs = n → reads (dec_next_slice n) 0 nest bs bs [] [].
Proof. intros H d b ib ob io hb _ _ _ _ _. by apply yields_done, dst_next_slice. Qed.
Lemma reads_byte nest b : reads dec_next_byte 0 nest b [b] [] [].
Proof.
  intros d b' ib ob io hb _ _ _ _ _. apply yields_done. unfold dec_next_byte. rewrite bind_get_store.
  cbn [d_buf dst]. unfold split_off_first. by rewrite split_off_front_app.
Qed.
Lemma reads_handle nest h : reads dec_take_handle 0 nest h [] [] [h].
Proof.
  intros d b' ib ob io hb _ _ _ _ _. apply yields_done. unfold dec_take_handle. rewrite bind_get_store.
  cbn [d_handles dst]. unfold split_off_first. by rewrite split_off_front_app.
Qed.

Lemma before_read_ok d b ib i o io h :
  0 ≤ ib → zlen i + zlen (pad8 (zlen i)) + zlen o ≤ io → ib + io < 2 ^ 64 →
  ∃ ib', ib + zlen i ≤ ib' ≤ ib + io ∧
    before_read_out_of_line (zlen i) (dst d b ib (i ++ pad8 (zlen i) ++ o) io h)
    = (Ok (b, ib), dst d i ib' o io h).
Proof.
  intros Hib Ho Hb. pose proof (zlen_nonneg i). pose proof (zlen_nonneg o). pose proof (zlen_nonneg (pad8 (zlen i))).
  exists (ib + io - zlen (pad8 (zlen i) ++ o)). split; [rewrite zlen_app; lia|].
  unfold before_read_out_of_line, split_out_of_line.
  erewrite bind_ok.
  2:{ rewrite bind_get_store. cbn [d_out_of_line_buf dst].
      by erewrite bind_lift by by apply split_off_front_app. }
  rewrite bind_get_store. cbn [set_out_of_line_buf d_initial_buf_len d_initial_out_of_line_buf_len d_out_of_line_buf dst].
  erewrite bind_lift by (apply uadd_ok; lia). erewrite bind_lift by (apply usub_ok; rewrite zlen_app; lia).
  pose proof (pad8_mod (zlen i) ltac:(lia)) as Hp. destruct (zlen i mod 8 =? 0).
  - rewrite bind_ok with (a := tt) (s' := dst d b ib o io h); [done|].
    assert (pad8 (zlen i) = []) as ->; [|done].
    apply length_zero_iff_nil. unfold zlen in Hp at 1. lia.
  - rewrite bind_ok with (a := tt) (s' := dst d b ib o io h); [done|].
    erewrite bind_ok; [done|]. rewrite bind_get_store. cbn [d_out_of_line_buf].
    erewrite bind_lift by (apply split_off_front_app; lia). done.
Qed.

(** What is left of the inline buffer of out-of-line data is dropped. *)
Lemma reads_ool_any {A} (f : M Error Decoder A) len n nest a i o h :
  zlen i = len →
  (∀ d ib ob io hb, zlen i ≤ ib → zlen o + zlen ob ≤ io → io < 2 ^ 32 →
    zlen h + zlen hb < 2 ^ 32 → ib + Z.of_nat nest * io < 2 ^ 64 →
     ∃ b', yields f (dst d i ib (o ++ ob) io (h ++ hb)) n a (dst d b' ib ob io hb)) →
  reads (read_out_of_line len f) n (S nest) a [] (i ++ pad8 len ++ o) h.
Proof.
  intros <- Hf d b ib ob io hb Hi Ho Hio Hh Hn. rewrite zlen_nil in Hi. rewrite !zlen_app in Ho.
  pose proof (zlen_nonneg b). pose proof (zlen_nonneg i). pose proof (zlen_nonneg o). pose proof (zlen_nonneg ob).
  pose proof (zlen_nonneg (pad8 (zlen i))). rewrite Nat2Z.inj_succ, Z.mul_succ_l in Hn.
  assert (0 ≤ Z.of_nat nest * io) by (apply Z.mul_nonneg_nonneg; lia).
  destruct (before_read_ok d b ib i (o ++ ob) io (h ++ hb)) as (ib'&Hib&Hbefore); [lia|rewrite zlen_app; lia|lia|].
  destruct (Hf d ib' ob io hb) as [b' Hy]; [lia..|]. unfold read_out_of_line.
  eapply yields_step; [rewrite <- !app_assoc; exact Hbefore| |done]. cbn [app].
  unfold yields in *. change (depth_of _) with d. change (depth_of _) with d in Hy. destruct (decide _).
  - by rewrite Hy.
  - destruct Hy as [s'' ->]. by eexists.
Qed.
Lemma reads_ool {A} (f : M Error Decoder A) len n nest a i o h :
  zlen i = len → reads f n nest a i o h →
  reads (read_out_of_line len f) n (S nest) a [] (i ++ pad8 len ++ o) h.
Proof.
  intros Hl Hf. apply reads_ool_any; [done|]. intros d ib ob io hb Hi Ho Hio Hh Hn. exists [].
  specialize (Hf d [] ib ob io hb). rewrite app_nil_r, zlen_nil in Hf. apply Hf; lia.
Qed.

Lemma writes_at_tail_padding p size start : start ≤ p → p - start ≤ size → 0 ≤ start →
  writes_at p (tail_padding_inner size start) 0 tt (zeros (size - (p - start))) [] [].
Proof.
  intros Hp Hs H0. unfold tail_padding_inner. apply writes_at_offset. intros e He. rewrite He.
  apply writes_at_any. by_ltb. apply (writes_then _ _ 0 tt tt [] _); [apply writes_ret|].
  eapply writes_lift; [by apply usub_ok|]. eapply writes_lift; [apply usub_ok; lia|].
  apply writes_padding. lia.
Qed.

Lemma first_non_zero_zeros i n : first_non_zero i (zeros n) = None.
Proof. unfold zeros. revert i. induction (Z.to_nat n); intros; cbn; auto. Qed.
Lemma reads_at_step {A B} p (m : M Error Decoder A) (k : A → M Error Decoder B) n nest a b i o h :
  reads_at p m 0 nest a [] [] [] → reads_at p (k a) n nest b i o h → reads_at p (bind m k) n nest b i o h.
Proof.
  intros Hm Hk. apply (reads_at_bind p m k 0 n nest a b [] i [] o [] h); [done|].
  by rewrite zlen_nil, Z.add_0_r.
Qed.
Lemma reads_at_last {A B} p (m : M Error Decoder A) (k : A → M Error Decoder B) n nest a b i1 i2 o h :
  reads_at p m n nest a i1 o h → reads_at (p + zlen i1) (k a) 0 nest b i2 [] [] →
  reads_at p (bind m k) n nest b (i1 ++ i2) o h.
Proof.
  intros Hm Hk. pose proof (reads_at_bind p m k n 0 nest a b i1 i2 o [] h [] Hm Hk) as H.
  by rewrite Nat.max_0_r, !app_nil_r in H.
Qed.
Lemma reads_at_then {A B} p (m : M Error Decoder A) (k : A → M Error Decoder B) n nest a b i1 i2 o h :
  reads m 0 nest a i1 [] [] → reads_at (p + zlen i1) (k a) n nest b i2 o h →
  reads_at p (bind m k) n nest b (i1 ++ i2) o h.
Proof.
  intros Hm Hk. eapply (reads_at_bind p m k 0 n nest a b i1 i2 [] o [] h); [by apply reads_at_any|done].
Qed.
Lemma reads_at_lift {R A} p (r : result Error R) (k : R → M Error Decoder A) x n nest b i o h :
  r = Ok x → reads_at p (k x) n nest b i o h → reads_at p (bind (lift r) k) n nest b i o h.
Proof. intros ->. apply reads_at_step, reads_at_any, reads_ret. Qed.
Lemma reads_padding n nest : 0 ≤ n → reads (skip_padding n) 0 nest tt (zeros n) [] [].
Proof.
  intros Hn. apply reads_everywhere. intros p _. unfold skip_padding.
  eapply reads_at_step; [apply reads_at_pos|]. apply reads_at_any.
  eapply reads_done; [by apply reads_slice, zlen_zeros|]. rewrite first_non_zero_zeros. apply reads_ret.
Qed.
Lemma reads_at_tail_padding p size start nest : start ≤ p → p - start ≤ size →
  reads_at p (skip_tail_padding size start) 0 nest tt (zeros (size - (p - start))) [] [].
Proof.
  intros Hp Hs. unfold skip_tail_padding. eapply reads_at_step; [apply reads_at_pos|]. by_ltb.
  eapply reads_at_step; [apply reads_at_any, reads_ret|]. eapply reads_at_lift; [by apply usub_ok|].
  eapply reads_at_lift; [apply usub_ok; lia|]. apply reads_at_any, reads_padding. lia.
Qed.
