(* ===== verification/FidlFormat.v ===== *)
(** The wire format of the FIDL types of [encoding.rs], as a specification: the
    bytes a value has inline, the bytes it has out of line and its handles, whatever
    the position in the message.  [lawful] says that the code of a type writes
    and reads its format; it is proved here for the types of [FidlTypes]. *)

From stdpp Require Import vector.
From S2P Require Import Prelude Std FidlCore FidlTypes FidlLogic.

(** The values that the type has ([valid]), what is on the wire, the value that is
    left once the handles were sent, the recursion of encoding and of decoding,
    and how deep out-of-line data is nested. *)
Record Format (A : Type) := {
  valid : A → Prop;
  wire_inline : A → list Z;
  wire_ool : A → list Z;
  wire_handles : A → list Z;
  spent : A → A;
  edepth : A → nat;
  ddepth : A → nat;
  nest : nat
}.
Arguments valid {A}.
Arguments wire_inline {A}.
Arguments wire_ool {A}.
Arguments wire_handles {A}.
Arguments spent {A}.
Arguments edepth {A}.
Arguments ddepth {A}.
Arguments nest {A}.

(** The code of a type with its format. *)
Record Typed := { code : Codable; fmt : Format (car code) }.
Definition ty_size (t : Typed) : Z := type_size (dec (code t)).
Definition ty_align (t : Typed) : Z := type_align (dec (code t)).

Record lawful (t : Typed) : Prop := {
  law_size : 0 ≤ ty_size t < 2 ^ 32;
  law_align : 0 ≤ ty_align t < 2 ^ 32;
  law_empty : ∃ x, new_empty (dec (code t)) = Ok x;
  law_inline_size v : valid (fmt t) v → inline_size (enc (code t)) v = ty_size t;
  law_inline_align v : valid (fmt t) v → inline_align (enc (code t)) v = ty_align t;
  law_length v : valid (fmt t) v → zlen (wire_inline (fmt t) v) = ty_size t;
  law_ool v : valid (fmt t) v → (8 | zlen (wire_ool (fmt t) v));
  law_encode v : valid (fmt t) v →
    writes (encode (enc (code t)) v) (edepth (fmt t) v) (spent (fmt t) v)
      (wire_inline (fmt t) v) (wire_ool (fmt t) v) (wire_handles (fmt t) v);
  law_decode v v0 N : valid (fmt t) v → (nest (fmt t) ≤ N)%nat →
    reads (decode (dec (code t)) v0) (ddepth (fmt t) v) N v
      (wire_inline (fmt t) v) (wire_ool (fmt t) v) (wire_handles (fmt t) v)
}.

(** What the code relies on besides [ByteOrderSpec]: zero is written as zeros. *)
Class ZeroBytes `{!ByteOrder} := write_int_zero n : 0 ≤ n → write_int n 0 = zeros n.
Lemma le_order_zero : @ZeroBytes le_order.
Proof.
  intros n Hn. cbn [write_int le_order]. unfold to_le_bytes, zeros.
  revert n Hn. apply natlike_ind; [done|]. intros n Hn IH.
  rewrite Z_to_little_endian_succ, Z2Nat.inj_succ by lia. cbn [replicate].
  rewrite Z.shiftr_0_l, Z.land_0_l. by rewrite IH.
Qed.

(** * The formats *)
Section formats.
Context `{!ByteOrder}.

(** A type that is inline, without handles. *)
Definition flat_format {A : Type} (ok : A → Prop) (inline : A → list Z) : Format A := {|
  valid := ok; wire_inline := inline; wire_ool _ := []; wire_handles _ := [];
  spent v := v; edepth _ := O; ddepth _ := O; nest := O
|}.

Definition num_valid (n : Z) (signed : bool) (v : Z) : Prop :=
  if signed then - 2 ^ (8 * n - 1) ≤ v < 2 ^ (8 * n - 1) else 0 ≤ v < 2 ^ (8 * n).
Definition num_bits (n : Z) (signed : bool) (v : Z) : Z :=
  if signed then to_unsigned (8 * n) v else v.
Definition bool_typed : Typed := {|
  code := bool_codable;
  fmt := flat_format (λ _, True) (λ v : bool, [if v then 1 else 0])
|}.
Definition empty_struct_typed : Typed := {|
  code := empty_struct_codable;
  fmt := flat_format (λ _, True) (λ _ : unit, [0])
|}.
Definition unit_typed : Typed := {|
  code := unit_codable;
  fmt := flat_format (λ _, True) (λ _ : unit, [])
|}.

(** Bits and enums over a primitive type: the values that are read back. *)
Inductive Prim := PByte (signed : bool) | PNum (n : Z) (signed : bool).
Definition prim_enc (p : Prim) : Encodable Z :=
  match p with PByte signed => byte_encodable signed | PNum n signed => num_encodable n signed end.
Definition prim_dec (p : Prim) : Decodable Z :=
  match p with PByte signed => byte_decodable signed | PNum n signed => num_decodable n signed end.
Definition prim_valid (p : Prim) : Z → Prop :=
  match p with PByte signed => num_valid 1 signed | PNum n signed => num_valid n signed end.
Definition prim_inline (p : Prim) (v : Z) : list Z :=
  match p with
  | PByte signed => [num_bits 1 signed v]
  | PNum n signed => write_int n (num_bits n signed v)
  end.
Definition prim_typed (p : Prim) : Typed := {|
  code := {| enc := prim_enc p; dec := prim_dec p |};
  fmt := flat_format (prim_valid p) (prim_inline p)
|}.
Definition enum_typed (p : Prim) (values : list Z) : Typed := {|
  code := {| enc := enum_encodable (prim_enc p) (prim_dec p); dec := enum_decodable (prim_dec p) values |};
  fmt := flat_format (λ v, v ∈ values ∧ prim_valid p v) (prim_inline p)
|}.
Definition bits_typed (p : Prim) (from_bits : Z → option Z) (empty_bits : Z) : Typed := {|
  code := {| enc := bits_encodable (prim_enc p) (prim_dec p);
             dec := bits_decodable (prim_dec p) from_bits empty_bits |};
  fmt := flat_format (λ v, from_bits v = Some v ∧ prim_valid p v) (prim_inline p)
|}.

Definition handle_format : Format Z := {|
  valid _ := True; wire_inline _ := write_int 4 ALLOC_PRESENT_U32; wire_ool _ := [];
  wire_handles h := [h]; spent _ := invalid_handle; edepth _ := O; ddepth _ := O; nest := O
|}.
Definition opt_handle_format : Format (option Z) := {|
  valid _ := True;
  wire_inline v := write_int 4 (match v with Some _ => ALLOC_PRESENT_U32 | None => ALLOC_ABSENT_U32 end);
  wire_ool _ := [];
  wire_handles v := match v with Some h => [h] | None => [] end;
  spent v := match v with Some _ => Some invalid_handle | None => None end;
  edepth _ := O; ddepth _ := O; nest := O
|}.
Definition handle_typed : Typed := {| code := handle_codable; fmt := handle_format |}.
Definition opt_handle_typed : Typed := {| code := opt_handle_codable; fmt := opt_handle_format |}.
Definition handle_based_typed : Typed := {| code := handle_based_codable; fmt := handle_format |}.
Definition opt_handle_based_typed : Typed :=
  {| code := opt_handle_based_codable; fmt := opt_handle_format |}.

(** The two words of a vector or a string, and its chunk of out-of-line data. *)
Definition vector_header (len : Z) : list Z := write_int 8 len ++ write_int 8 ALLOC_PRESENT_U64.
Definition absent_header : list Z := write_int 8 0 ++ write_int 8 ALLOC_ABSENT_U64.
Definition chunk (bs : list Z) : list Z := bs ++ pad8 (zlen bs).

Definition string_valid (s : list Z) : Prop := utf8_valid s = true ∧ zlen s < 2 ^ 32.
Definition string_format : Format (list Z) := {|
  valid := string_valid;
  wire_inline s := vector_header (zlen s);
  wire_ool s := chunk s;
  wire_handles _ := []; spent s := s; edepth _ := O; ddepth _ := O; nest := 1%nat
|}.

Section vec.
Context {A : Type} (f : Format A).
Definition items_inline (l : list A) : list Z := concat (map (wire_inline f) l).
Definition items_ool (l : list A) : list Z := concat (map (wire_ool f) l).
Definition items_handles (l : list A) : list Z := concat (map (wire_handles f) l).
Definition vec_format : Format (list A) := {|
  valid l := Forall (valid f) l ∧ zlen l < 2 ^ 32;
  wire_inline l := vector_header (zlen l);
  wire_ool l := chunk (items_inline l) ++ items_ool l;
  wire_handles l := items_handles l;
  spent l := map (spent f) l;
  edepth l := match l with [] => O | _ => S (max_list (map (edepth f) l)) end;
  ddepth l := S (max_list (map (ddepth f) l));
  nest := S (nest f)
|}.
Definition array_format (n : nat) : Format (vec A n) := {|
  valid v := Forall (valid f) (vec_to_list v);
  wire_inline v := items_inline (vec_to_list v);
  wire_ool v := items_ool (vec_to_list v);
  wire_handles v := items_handles (vec_to_list v);
  spent v := vmap (spent f) v;
  edepth v := S (max_list (map (edepth f) (vec_to_list v)));
  ddepth v := S (max_list (map (ddepth f) (vec_to_list v)));
  nest := nest f
|}.
(** A string or a vector that may be absent. *)
Definition nullable_format : Format (option A) := {|
  valid v := match v with Some x => valid f x | None => True end;
  wire_inline v := match v with Some x => wire_inline f x | None => absent_header end;
  wire_ool v := match v with Some x => wire_ool f x | None => [] end;
  wire_handles v := match v with Some x => wire_handles f x | None => [] end;
  spent v := spent f <$> v;
  edepth v := match v with Some x => edepth f x | None => O end;
  ddepth v := match v with Some x => ddepth f x | None => O end;
  nest := nest f
|}.
Definition box_format : Format A := {|
  valid := valid f;
  wire_inline _ := write_int 8 ALLOC_PRESENT_U64;
  wire_ool v := chunk (wire_inline f v) ++ wire_ool f v;
  wire_handles := wire_handles f; spent := spent f; edepth := edepth f; ddepth := ddepth f;
  nest := S (nest f)
|}.
(** An optional container of size [size]. *)
Definition option_format (size : Z) : Format (option A) := {|
  valid v := match v with Some x => valid f x | None => True end;
  wire_inline v := match v with Some x => wire_inline f x | None => zeros size end;
  wire_ool v := match v with Some x => wire_ool f x | None => [] end;
  wire_handles v := match v with Some x => wire_handles f x | None => [] end;
  spent v := spent f <$> v;
  edepth v := match v with Some x => edepth f x | None => O end;
  ddepth v := match v with Some x => ddepth f x | None => O end;
  nest := nest f
|}.
End vec.

Definition string_typed : Typed := {| code := string_codable; fmt := string_format |}.
Definition opt_string_typed : Typed :=
  {| code := opt_string_codable; fmt := nullable_format string_format |}.
Definition vec_typed (t : Typed) : Typed :=
  {| code := vec_codable (code t); fmt := vec_format (fmt t) |}.
Definition opt_vec_typed (t : Typed) : Typed :=
  {| code := opt_vec_codable (code t); fmt := nullable_format (vec_format (fmt t)) |}.
Definition array_typed (t : Typed) (n : nat) : Typed :=
  {| code := array_codable (code t) n; fmt := array_format (fmt t) n |}.
Definition box_typed (t : Typed) : Typed :=
  {| code := box_codable (code t); fmt := box_format (fmt t) |}.
Definition option_typed (t : Typed) : Typed :=
  {| code := option_codable (code t); fmt := option_format (fmt t) (ty_size t) |}.
End formats.
