(* ===== verification/FidlLaws.v ===== *)
(** The types of [FidlTypes] are lawful: each writes and reads its format. *)

From stdpp Require Import vector.
From S2P Require Import Prelude Std FidlCore FidlTypes FidlLogic FidlFormat.

Section laws.
Context `{BO : !ByteOrder, BOS : !ByteOrderSpec}.

(** * Numbers *)
Lemma num_bits_bound n signed v : 0 < n → num_valid n signed v → 0 ≤ num_bits n signed v < 2 ^ (8 * n).
Proof.
  intros Hn. unfold num_valid, num_bits, to_unsigned. destruct signed; [|done].
  intros _. apply Z.mod_pos_bound. apply pow2_pos. lia.
Qed.
Lemma num_bits_back n signed v : 0 < n → num_valid n signed v →
  (if signed then to_signed (8 * n) (num_bits n signed v) else num_bits n signed v) = v.
Proof.
  intros Hn. unfold num_valid, num_bits. destruct signed; [|done].
  intros Hv. apply to_signed_unsigned; lia.
Qed.

Lemma writes_num n signed v : 0 ≤ n →
  writes (encode (num_encodable n signed) v) 0 v (write_int n (num_bits n signed v)) [] [].
Proof.
  intros Hn. cbn [encode num_encodable]. apply writes_assoc.
  eapply writes_done; [by exists 0|by apply writes_slot, write_int_length|apply writes_ret].
Qed.
Lemma reads_num n signed v v0 N : 0 < n → num_valid n signed v →
  reads (decode (num_decodable n signed) v0) 0 N v (write_int n (num_bits n signed v)) [] [].
Proof.
  intros Hn Hv. cbn [decode num_decodable]. eapply reads_done; [by apply reads_slice, write_int_length; lia|].
  cbn beta. pose proof (num_bits_bound n signed v Hn Hv).
  rewrite read_write_int by lia. rewrite num_bits_back by done. apply reads_ret.
Qed.
Lemma writes_u32 x : writes (encode_u32 x) 0 tt (write_int 4 x) [] [].
Proof. eapply writes_done; [by exists 0|by apply (writes_num 4 false)|apply writes_ret]. Qed.
Lemma writes_u64 x : writes (encode_u64 x) 0 tt (write_int 8 x) [] [].
Proof. eapply writes_done; [by exists 0|by apply (writes_num 8 false)|apply writes_ret]. Qed.
Lemma reads_u32 x N : 0 ≤ x < 2 ^ 32 → reads decode_u32 0 N x (write_int 4 x) [] [].
Proof. intros H. by apply (reads_num 4 false). Qed.
Lemma reads_u64 x N : 0 ≤ x < 2 ^ 64 → reads decode_u64 0 N x (write_int 8 x) [] [].
Proof. intros H. by apply (reads_num 8 false). Qed.

Lemma writes_byte signed v :
  writes (encode (byte_encodable signed) v) 0 v [num_bits 1 signed v] [] [].
Proof.
  cbn [encode byte_encodable]. apply writes_assoc.
  eapply writes_done; [by exists 0|by apply writes_slot|apply writes_ret].
Qed.
Lemma reads_byte_num signed v v0 N : num_valid 1 signed v →
  reads (decode (byte_decodable signed) v0) 0 N v [num_bits 1 signed v] [] [].
Proof.
  intros Hv. cbn [decode byte_decodable]. eapply reads_done; [apply reads_byte|].
  cbn beta. pose proof (num_bits_back 1 signed v ltac:(lia) Hv) as Hb.
  change (8 * 1) with 8 in Hb. destruct signed; rewrite Hb; apply reads_ret.
Qed.

(** A primitive type of one to eight bytes. *)
Definition prim_ok (p : Prim) : Prop := match p with PByte _ => True | PNum n _ => 1 < n ≤ 8 end.
Lemma prim_size p : prim_ok p →
  1 ≤ type_size (prim_dec p) ≤ 8 ∧ type_align (prim_dec p) = type_size (prim_dec p).
Proof. destruct p; cbn; lia. Qed.
Lemma prim_length p v : prim_ok p → zlen (prim_inline p v) = type_size (prim_dec p).
Proof. destruct p as [s|n s]; [done|]. cbn. intros. apply write_int_length. lia. Qed.
Lemma writes_prim p v : prim_ok p → writes (encode (prim_enc p) v) 0 v (prim_inline p v) [] [].
Proof. destruct p as [s|n s]; [intros _; apply writes_byte|]. cbn. intros. apply writes_num. lia. Qed.
Lemma reads_prim p v v0 N : prim_ok p → prim_valid p v →
  reads (decode (prim_dec p) v0) 0 N v (prim_inline p v) [] [].
Proof.
  destruct p as [s|n s]; [intros _; apply (reads_byte_num s v v0)|].
  cbn [prim_ok prim_valid]. intros. apply (reads_num n s v v0); [lia|done].
Qed.

(** Flat types of constant size and alignment. *)
Lemma flat_lawful (c : Codable) ok inline :
  0 ≤ type_size (dec c) < 2 ^ 32 → 0 ≤ type_align (dec c) < 2 ^ 32 →
  (∃ x, new_empty (dec c) = Ok x) →
  (∀ v, inline_size (enc c) v = type_size (dec c)) → (∀ v, inline_align (enc c) v = type_align (dec c)) →
  (∀ v, ok v → zlen (inline v) = type_size (dec c)) →
  (∀ v, ok v → writes (encode (enc c) v) 0 v (inline v) [] []) →
  (∀ v v0 N, ok v → reads (decode (dec c) v0) 0 N v (inline v) [] []) →
  lawful {| code := c; fmt := flat_format ok inline |}.
Proof. intros ???????? . split; try done; intros; try done; [by exists 0|auto]. Qed.

Lemma prim_lawful p : prim_ok p → lawful (prim_typed p).
Proof.
  intros Hp. pose proof (prim_size p Hp). apply flat_lawful; cbn [car enc dec]; try lia.
  - destruct p; by eexists.
  - by destruct p.
  - by destruct p.
  - intros. by apply prim_length.
  - intros. by apply writes_prim.
  - intros. by apply reads_prim.
Qed.
Lemma bool_lawful : lawful bool_typed.
Proof.
  apply flat_lawful; cbn; try done.
  - by eexists.
  - intros v _. apply writes_assoc. eapply writes_done; [by exists 0|by apply writes_slot|apply writes_ret].
  - intros v v0 N _. eapply reads_done; [apply reads_byte|]. destruct v; apply reads_ret.
Qed.
Lemma empty_struct_lawful : lawful empty_struct_typed.
Proof.
  apply flat_lawful; cbn; try done.
  - by eexists.
  - intros [] _. eapply writes_done; [by exists 0|apply (writes_byte false 0)|apply writes_ret].
  - intros [] [] N _. eapply reads_done; [by apply (reads_byte_num false 0 0)|apply reads_ret].
Qed.
Lemma unit_lawful : lawful unit_typed.
Proof.
  apply flat_lawful; cbn; try done.
  - by eexists.
  - intros [] _. apply writes_ret.
  - intros [] [] N _. apply reads_ret.
Qed.

Lemma from_primitive_in values v : v ∈ values → from_primitive values v = Some v.
Proof.
  induction values as [|x values IH]; [by intros ?%not_elem_of_nil|]. cbn [from_primitive].
  intros [->|H]%elem_of_cons; [by rewrite Z.eqb_refl|]. destruct (Z.eqb_spec v x) as [->|]; auto.
Qed.
Lemma enum_lawful p values : prim_ok p → values ≠ [] → lawful (enum_typed p values).
Proof.
  intros Hp Hv. pose proof (prim_size p Hp). apply flat_lawful; cbn [car enc dec enum_encodable enum_decodable
    type_size type_align new_empty inline_size inline_align encode decode]; try done; try lia.
  - destruct values; [done|by eexists].
  - intros. by apply prim_length.
  - intros v _. eapply writes_done; [by exists 0|by apply writes_prim|apply writes_ret].
  - intros v v0 N [Hin Hok].
    apply (reads_lift _ _ 0); [by destruct p|]. eapply reads_done; [by apply reads_prim|].
    cbn beta. rewrite from_primitive_in by done. apply reads_ret.
Qed.
Lemma bits_lawful p from_bits empty_bits : prim_ok p → lawful (bits_typed p from_bits empty_bits).
Proof.
  intros Hp. pose proof (prim_size p Hp). apply flat_lawful; cbn [car enc dec bits_encodable bits_decodable
    type_size type_align new_empty inline_size inline_align encode decode]; try done; try lia.
  - by eexists.
  - intros. by apply prim_length.
  - intros v _. by apply writes_prim.
  - intros v v0 N [Hb Hok].
    apply (reads_lift _ _ 0); [by destruct p|]. eapply reads_done; [by apply reads_prim|].
    cbn beta. rewrite Hb. apply reads_ret.
Qed.

(** * Handles *)
Lemma writes_handle h : writes (encode handle_encodable h) 0 invalid_handle
  (write_int 4 ALLOC_PRESENT_U32) [] [h].
Proof.
  cbn [encode handle_encodable take_handle]. eapply writes_eq; [|done|done|apply app_nil_r|done|done].
  eapply writes_then; [apply writes_u32|]. cbn beta. apply writes_assoc.
  eapply writes_done; [by exists 0|apply writes_push|apply writes_ret].
Qed.
Lemma reads_present_handle h v0 N :
  reads (decode handle_decodable v0) 0 N h (write_int 4 ALLOC_PRESENT_U32) [] [h].
Proof.
  cbn [decode handle_decodable]. eapply reads_eq; [|done|done|apply app_nil_r|done|done].
  eapply reads_then; [by apply reads_u32|]. apply reads_handle.
Qed.
Lemma reads_opt_handle v v0 N :
  reads (decode opt_handle_decodable v0) 0 N v (wire_inline opt_handle_format v) [] (wire_handles opt_handle_format v).
Proof.
  cbn [decode opt_handle_decodable]. eapply reads_eq; [|done|done|apply app_nil_r|done|done].
  destruct v as [h|]; cbn [wire_inline wire_handles opt_handle_format];
    (eapply reads_then; [by apply reads_u32|]); cbn beta.
  - eapply reads_done; [apply reads_handle|apply reads_ret].
  - apply reads_ret.
Qed.

(** A type of constant size and alignment. *)
Lemma handle_type_lawful (c : Codable) (f : Format (car c)) :
  type_size (dec c) = 4 → type_align (dec c) = 4 → (∃ x, new_empty (dec c) = Ok x) →
  (∀ v, inline_size (enc c) v = 4) → (∀ v, inline_align (enc c) v = 4) →
  (∀ v, zlen (wire_inline f v) = 4) → (∀ v, wire_ool f v = []) →
  (∀ v, writes (encode (enc c) v) (edepth f v) (spent f v) (wire_inline f v) (wire_ool f v) (wire_handles f v)) →
  (∀ v v0 N, reads (decode (dec c) v0) (ddepth f v) N v (wire_inline f v) (wire_ool f v) (wire_handles f v)) →
  lawful {| code := c; fmt := f |}.
Proof.
  intros Hs Ha He Hes Hea Hl Ho Hw Hr. split; unfold ty_size, ty_align; cbn [code fmt]; rewrite ?Hs, ?Ha; auto; try lia.
  intros v _. rewrite Ho. by exists 0.
Qed.
Lemma handle_lawful : lawful handle_typed.
Proof.
  apply handle_type_lawful; try done; [by eexists|intros; by apply write_int_length|apply writes_handle|].
  intros. apply (reads_present_handle v v0).
Qed.
Lemma handle_based_lawful : lawful handle_based_typed.
Proof.
  apply handle_type_lawful; try done; [by eexists|intros; by apply write_int_length| |].
  - intros h. cbn. eapply writes_done; [by exists 0|apply writes_handle|apply writes_ret].
  - intros. apply (reads_present_handle v invalid_handle).
Qed.
Lemma opt_handle_lawful : lawful opt_handle_typed.
Proof.
  apply handle_type_lawful; try done; [by eexists|intros; by apply write_int_length| |].
  - intros [h|]; cbn.
    + eapply writes_done; [by exists 0|apply writes_handle|apply writes_ret].
    + eapply writes_done; [by exists 0|apply writes_u32|apply writes_ret].
  - intros. apply (reads_opt_handle v v0).
Qed.
Lemma opt_handle_based_lawful : lawful opt_handle_based_typed.
Proof.
  apply handle_type_lawful; try done; [by eexists|intros; by apply write_int_length| |].
  - intros [h|]; cbn.
    + eapply writes_done; [by exists 0| |apply writes_ret].
      eapply writes_done; [by exists 0|apply writes_handle|apply writes_ret].
    + eapply writes_done; [by exists 0|apply writes_u32|apply writes_ret].
  - intros. apply (reads_opt_handle v None).
Qed.

(** * Headers of vectors *)
Lemma zlen_vector_header n : zlen (vector_header n) = 16.
Proof. unfold vector_header. by rewrite zlen_app, !write_int_length. Qed.
Lemma zlen_absent_header : zlen absent_header = 16.
Proof. unfold absent_header. by rewrite zlen_app, !write_int_length. Qed.
Lemma chunk_aligned bs : (8 | zlen (chunk bs)).
Proof. unfold chunk. rewrite zlen_app. apply pad8_aligned, zlen_nonneg. Qed.

Lemma writes_absent {A} (k : M Error Encoder A) n a i o h :
  writes k n a i o h → writes (encode_absent_vector ;;; k) n a (absent_header ++ i) o h.
Proof.
  intros Hk. eapply writes_then; [|exact Hk]. eapply writes_then; [apply writes_u64|apply writes_u64].
Qed.
Lemma writes_present {A} (k : M Error Encoder A) len n a i o h :
  writes k n a i o h →
  writes (encode_u64 len ;;; encode_u64 ALLOC_PRESENT_U64 ;;; k) n a (vector_header len ++ i) o h.
Proof.
  intros Hk. unfold vector_header. rewrite <- app_assoc.
  eapply writes_then; [apply writes_u64|]. eapply writes_then; [apply writes_u64|done].
Qed.
Lemma reads_presence (b : bool) N :
  reads decode_presence 0 N b (write_int 8 (if b then ALLOC_PRESENT_U64 else ALLOC_ABSENT_U64)) [] [].
Proof.
  unfold decode_presence. eapply reads_done; [apply reads_u64; by destruct b|].
  destruct b; apply reads_ret.
Qed.
Lemma reads_present {A} (k : Z → bool → M Error Decoder A) len n N a i o h :
  0 ≤ len < 2 ^ 64 → reads (k len true) n N a i o h →
  reads (l <- decode_u64 ;; present <- decode_presence ;; k l present) n N a (vector_header len ++ i) o h.
Proof.
  intros Hl Hk. unfold vector_header. rewrite <- app_assoc.
  eapply reads_then; [by apply reads_u64|]. eapply reads_then; [apply (reads_presence true)|done].
Qed.
Lemma reads_absent {A} (k : Z → bool → M Error Decoder A) n N a i o h :
  reads (k 0 false) n N a i o h →
  reads (l <- decode_u64 ;; present <- decode_presence ;; k l present) n N a (absent_header ++ i) o h.
Proof.
  intros Hk. unfold absent_header. rewrite <- app_assoc.
  eapply reads_then; [by apply reads_u64|]. eapply reads_then; [apply (reads_presence false)|done].
Qed.

(** * Strings *)
Lemma writes_byte_slice s :
  writes (encode_byte_slice (Some s)) 0 tt (vector_header (zlen s)) (chunk s) [].
Proof.
  cbn [encode_byte_slice]. eapply writes_eq; [eapply writes_present, writes_ool; [done|by apply writes_slot]|..];
    try done; [apply app_nil_r|]. unfold chunk. by rewrite app_nil_r.
Qed.
Lemma writes_byte_slice_none : writes (encode_byte_slice None) 0 tt absent_header [] [].
Proof. eapply writes_then; [apply writes_u64|apply writes_u64]. Qed.
Lemma reads_string s N : string_valid s → (1 ≤ N)%nat →
  reads decode_string 0 N (Some s) (vector_header (zlen s)) (chunk s) [].
Proof.
  intros [Hu Hl] HN. pose proof (zlen_nonneg s). destruct N as [|N]; [lia|]. unfold decode_string.
  eapply reads_eq; [eapply (reads_present _ (zlen s)); [lia|]; eapply (reads_ool_any _ _ _ _ (Some s) s [] []); [done|]|..];
    try done; [|apply app_nil_r|unfold chunk; by rewrite app_nil_r].
  intros d ib ob io hb _ _ _ _ _. exists s. apply yields_done. rewrite bind_get_store. cbn [d_buf dst].
  by rewrite Hu.
Qed.
Lemma reads_string_none N : reads decode_string 0 N None absent_header [] [].
Proof.
  unfold decode_string. eapply reads_eq; [eapply reads_absent; apply reads_ret|..]; try done. apply app_nil_r.
Qed.
Lemma string_lawful : lawful string_typed.
Proof.
  split; try done; cbn.
  - by eexists.
  - intros v _. apply zlen_vector_header.
  - intros v _. apply chunk_aligned.
  - intros v _. eapply writes_done; [apply chunk_aligned|apply writes_byte_slice|apply writes_ret].
  - intros v v0 N Hv HN. eapply reads_done; [by apply reads_string|apply reads_ret].
Qed.
Lemma opt_string_lawful : lawful opt_string_typed.
Proof.
  split; try done; cbn.
  - by eexists.
  - intros [v|] _; [apply zlen_vector_header|apply zlen_absent_header].
  - intros [v|] _; [apply chunk_aligned|by exists 0].
  - intros [v|] _.
    + eapply writes_done; [apply chunk_aligned|apply writes_byte_slice|apply writes_ret].
    + eapply writes_done; [by exists 0|apply writes_byte_slice_none|apply writes_ret].
  - intros [v|] v0 N Hv HN; [by apply reads_string|apply reads_string_none].
Qed.

(** * Vectors, arrays and boxes of a lawful type *)
Section items.
Context (t : Typed) (L : lawful t).
Abbreviation f := (fmt t).
Abbreviation E := (enc (code t)).
Abbreviation D := (dec (code t)).

Lemma zlen_items_inline l : Forall (valid f) l → zlen (items_inline f l) = zlen l * ty_size t.
Proof.
  unfold items_inline. induction 1 as [|x l Hx Hl IH]; [done|].
  cbn [map concat]. rewrite zlen_app, zlen_cons, IH, (law_length t L) by done. lia.
Qed.
Lemma items_ool_aligned l : Forall (valid f) l → (8 | zlen (items_ool f l)).
Proof.
  unfold items_ool. induction 1 as [|x l Hx Hl IH]; [by exists 0|].
  cbn [map concat]. rewrite zlen_app. apply Z.divide_add_r; [by apply (law_ool t L)|done].
Qed.

Lemma writes_items l : Forall (valid f) l →
  writes (encode_items E l) (max_list (map (edepth f) l)) (map (spent f) l)
    (items_inline f l) (items_ool f l) (items_handles f l).
Proof.
  induction 1 as [|x l Hx Hl IH]; [apply writes_ret|]. cbn [encode_items map].
  eapply writes_bind; [by apply (law_ool t L)|by apply (law_encode t L)|].
  eapply writes_done; [by apply items_ool_aligned|exact IH|apply writes_ret].
Qed.
Lemma writes_elements {n} (v : vec (car (code t)) n) : Forall (valid f) (vec_to_list v) →
  writes (encode_elements E v) (max_list (map (edepth f) (vec_to_list v))) (vmap (spent f) v)
    (items_inline f (vec_to_list v)) (items_ool f (vec_to_list v)) (items_handles f (vec_to_list v)).
Proof.
  induction v as [|x n v IH]; cbn [vec_to_list]; [intros _; apply writes_ret|].
  intros [Hx Hv]%Forall_cons. cbn [encode_elements vmap map].
  eapply writes_bind; [by apply (law_ool t L)|by apply (law_encode t L)|].
  eapply writes_done; [by apply items_ool_aligned|by apply IH|apply writes_ret].
Qed.
Lemma reads_elements {n} (v v0 : vec (car (code t)) n) N :
  Forall (valid f) (vec_to_list v) → (nest f ≤ N)%nat →
  reads (decode_elements D v0) (max_list (map (ddepth f) (vec_to_list v))) N v
    (items_inline f (vec_to_list v)) (items_ool f (vec_to_list v)) (items_handles f (vec_to_list v)).
Proof.
  intros Hv HN. induction v as [|x n v IH]; inv_vec v0; [apply reads_ret|].
  intros x0 v0. cbn [vec_to_list] in *. apply Forall_cons in Hv as [Hx Hv]. cbn [decode_elements map].
  eapply reads_bind; [by apply (law_decode t L)|].
  eapply reads_done; [by apply IH|apply reads_ret].
Qed.
Lemma reads_pushed l acc N : Forall (valid f) l → (nest f ≤ N)%nat →
  reads (decode_pushed D (length l) acc) (max_list (map (ddepth f) l)) N (acc ++ l)
    (items_inline f l) (items_ool f l) (items_handles f l).
Proof.
  intros Hl HN. destruct (law_empty t L) as [e He]. revert acc. induction Hl as [|x l Hx Hl IH]; intros acc.
  - cbn [length decode_pushed]. rewrite app_nil_r. apply reads_ret.
  - cbn [length decode_pushed map]. eapply reads_lift; [exact He|].
    eapply reads_bind; [by apply (law_decode t L)|]. cbn beta.
    replace (acc ++ x :: l) with ((acc ++ [x]) ++ l) by by rewrite <- app_assoc. apply IH.
Qed.

Lemma writes_iter l : valid (vec_format f) l →
  writes (encode_encodable_iter E (Some l)) (edepth (vec_format f) l) (Some (map (spent f) l))
    (vector_header (zlen l)) (wire_ool (vec_format f) l) (items_handles f l).
Proof.
  intros [Hl Hn]. cbn [encode_encodable_iter]. eapply writes_eq; [|done|done|apply app_nil_r|done|done].
  eapply writes_present. destruct l as [|x l]; [apply writes_ret|].
  pose proof (law_size t L). pose proof (zlen_nonneg l). rewrite zlen_cons in Hn.
  apply Forall_cons in Hl as [Hx Hl]. eapply writes_lift; [apply uadd_ok; lia|].
  eapply writes_lift; [apply umul_ok; rewrite (law_inline_size t L) by done; nia|].
  eapply writes_eq; [eapply (writes_ool _ _ _ _ (items_inline f (x :: l)))|..]; [| |done|done|done| |done].
  - rewrite zlen_items_inline, zlen_cons, (law_inline_size t L) by by repeat constructor. lia.
  - apply writes_recurse. cbn [map]. eapply writes_bind; [by apply (law_ool t L)|by apply (law_encode t L)|].
    eapply writes_done; [by apply items_ool_aligned|by apply writes_items|apply writes_ret].
  - cbn [wire_ool vec_format]. unfold chunk. rewrite <- app_assoc. do 2 f_equal.
    rewrite zlen_items_inline, zlen_cons, (law_inline_size t L) by by repeat constructor.
    rewrite (Z.add_comm (zlen l)). reflexivity.
Qed.
Lemma reads_vec l N : valid (vec_format f) l → (S (nest f) ≤ N)%nat →
  reads (decode_vec D) (ddepth (vec_format f) l) N (Some l)
    (vector_header (zlen l)) (wire_ool (vec_format f) l) (items_handles f l).
Proof.
  intros [Hl Hn] HN. pose proof (zlen_nonneg l). pose proof (law_size t L).
  destruct N as [|N]; [lia|]. unfold decode_vec.
  eapply reads_eq; [eapply (reads_present _ (zlen l)); [lia|]|done|done|apply app_nil_r|done|done].
  cbn [negb]. eapply reads_lift; [apply umul_ok; unfold ty_size in *; nia|].
  cbn [wire_ool vec_format]. unfold chunk. rewrite <- app_assoc.
  assert (zlen (items_inline f l) = zlen l * ty_size t) as Hz by by apply zlen_items_inline.
  rewrite Hz. apply reads_ool; [done|]. apply reads_recurse.
  replace (Z.to_nat (zlen l)) with (length l) by (unfold zlen; lia).
  eapply reads_done; [apply (reads_pushed l []); [done|lia]|apply reads_ret].
Qed.

Lemma vec_ool_aligned l : valid (vec_format f) l → (8 | zlen (wire_ool (vec_format f) l)).
Proof.
  intros [Hl _]. cbn [wire_ool vec_format]. rewrite zlen_app.
  apply Z.divide_add_r; [apply chunk_aligned|by apply items_ool_aligned].
Qed.
Lemma vec_lawful : lawful (vec_typed t).
Proof.
  split; try done.
  - by eexists.
  - intros v _. apply zlen_vector_header.
  - apply vec_ool_aligned.
  - intros v Hv. cbn [encode vec_encodable enc code vec_codable vec_typed].
    eapply writes_done; [by apply vec_ool_aligned|by apply writes_iter|apply writes_ret].
  - intros v v0 N Hv HN. eapply reads_done; [by apply reads_vec|apply reads_ret].
Qed.
Lemma opt_vec_lawful : lawful (opt_vec_typed t).
Proof.
  split; try done.
  - by eexists.
  - intros [v|] _; [apply zlen_vector_header|apply zlen_absent_header].
  - intros [v|] Hv; [by apply vec_ool_aligned|by exists 0].
  - intros [v|] Hv; [by apply writes_iter|].
    eapply writes_eq; [eapply writes_absent, writes_ret|..]; try done. apply app_nil_r.
  - intros [v|] v0 N Hv HN; [by apply reads_vec|].
    cbn [decode opt_vec_decodable dec code opt_vec_codable opt_vec_typed]. unfold decode_vec.
    eapply reads_eq; [eapply reads_absent; apply reads_ret|..]; try done. apply app_nil_r.
Qed.

Lemma array_new_empty_ok n : ∃ x, array_new_empty D n = Ok x.
Proof.
  destruct (law_empty t L) as [e He]. induction n as [|n [x IH]]; [by eexists|].
  cbn [array_new_empty]. rewrite He. cbn [rbind]. rewrite IH. by eexists.
Qed.
Lemma array_lawful n : (0 < n)%nat → ty_size t * Z.of_nat n < 2 ^ 32 → lawful (array_typed t n).
Proof.
  intros Hn Hs. pose proof (law_size t L) as Ht.
  assert (∀ v : vec (car (code t)) n, zlen (vec_to_list v) = Z.of_nat n) as Hl
    by (intros; unfold zlen; by rewrite length_vec_to_list).
  split.
  - unfold ty_size in *. cbn [type_size dec code array_typed array_codable array_decodable]. nia.
  - apply (law_align t L).
  - apply array_new_empty_ok.
  - intros v Hv. cbn. destruct v as [|x n v]; [lia|].
    cbn in Hv. apply Forall_cons in Hv as [Hx _]. cbn [array_first]. by rewrite (law_inline_size t L).
  - intros v Hv. cbn. destruct v as [|x n v]; [lia|].
    cbn in Hv. apply Forall_cons in Hv as [Hx _]. cbn [array_first]. by rewrite (law_inline_align t L).
  - intros v Hv. cbn [wire_inline fmt array_typed array_format]. rewrite zlen_items_inline, Hl by done.
    apply Z.mul_comm.
  - intros v Hv. by apply items_ool_aligned.
  - intros v Hv. by apply writes_recurse, writes_elements.
  - intros v v0 N Hv HN. by apply reads_recurse, reads_elements.
Qed.

(** A value out of line. *)
Definition boxed_ool (v : car (code t)) : list Z := chunk (wire_inline f v) ++ wire_ool f v.
Lemma boxed_aligned v : valid f v → (8 | zlen (boxed_ool v)).
Proof.
  intros Hv. unfold boxed_ool. rewrite zlen_app.
  apply Z.divide_add_r; [apply chunk_aligned|by apply (law_ool t L)].
Qed.
Lemma writes_boxed v : valid f v →
  writes (write_out_of_line (inline_size E v) (encode E v)) (edepth f v) (spent f v)
    [] (boxed_ool v) (wire_handles f v).
Proof.
  intros Hv. unfold boxed_ool, chunk. rewrite <- app_assoc, (law_length t L), (law_inline_size t L) by done.
  apply writes_ool; [by apply (law_length t L)|by apply (law_encode t L)].
Qed.
Lemma reads_boxed v v0 N : valid f v → (nest f ≤ N)%nat →
  reads (read_out_of_line (type_size D) (decode D v0)) (ddepth f v) (S N) v
    [] (boxed_ool v) (wire_handles f v).
Proof.
  intros Hv HN. unfold boxed_ool, chunk. rewrite <- app_assoc, (law_length t L) by done.
  apply reads_ool; [by apply (law_length t L)|by apply (law_decode t L)].
Qed.
Lemma box_lawful : lawful (box_typed t).
Proof.
  destruct (law_empty t L) as [e He]. split; try done.
  - by exists e.
  - intros v _. by apply write_int_length.
  - apply boxed_aligned.
  - intros v Hv. eapply writes_eq; [|done|done|apply app_nil_r|done|done].
    eapply writes_then; [apply writes_u64|by apply writes_boxed].
  - intros v v0 N Hv HN. cbn in HN. destruct N as [|N]; [lia|].
    eapply reads_eq; [|done|done|apply app_nil_r|done|done].
    eapply reads_then; [by apply reads_u64|]. apply reads_boxed; [done|lia].
Qed.

(** The inline part of a container has a byte that is not zero. *)
Definition container : Prop := ∀ v, valid f v →
  existsb (λ byte, negb (byte =? 0)) (wire_inline f v) = true.
Lemma zeros_absent n : existsb (λ byte, negb (byte =? 0)) (zeros n) = false.
Proof. unfold zeros. induction (Z.to_nat n); cbn; auto. Qed.

(** Presence is looked at without reading it. *)
Lemma reads_check (b : bool) n N {A} (a : A) (k : bool → M Error Decoder A) i o h :
  zlen i = ty_size t → existsb (λ byte, negb (byte =? 0)) i = b → reads (k b) n N a i o h →
  reads (bind (check_for_presence (ty_size t)) k) n N a i o h.
Proof.
  intros Hi Hb Hk d b' ib ob io hb H1 H2 H3 H4 H5. eapply yields_step; [|by apply Hk|done].
  unfold check_for_presence, peek_slice. rewrite bind_ok with (a := i) (s' := dst d (i ++ b') ib (o ++ ob) io (h ++ hb)).
  { by rewrite Hb. }
  rewrite bind_get_store. cbn [d_buf dst]. rewrite zlen_app. pose proof (zlen_nonneg b'). by_ltb.
  by rewrite take_zlen_app.
Qed.
Lemma option_lawful : container → lawful (option_typed t).
Proof.
  intros Hc. pose proof (law_size t L) as Hs. destruct (law_empty t L) as [e He].
  assert (zlen (zeros (ty_size t)) = ty_size t) as Hz by (apply zlen_zeros; lia). split; try done.
  - apply (law_align t L).
  - by eexists.
  - intros [v|] Hv; [by apply (law_length t L)|exact Hz].
  - intros [v|] Hv; [by apply (law_ool t L)|by exists 0].
  - intros [v|] Hv.
    + eapply writes_done; [by apply (law_ool t L)|by apply (law_encode t L)|apply writes_ret].
    + cbn [encode enc code option_typed option_codable option_encodable]. apply writes_assoc.
      eapply writes_done; [by exists 0|by apply writes_slot|apply writes_ret].
  - intros v v0 N Hv HN. cbn [decode dec code option_typed option_codable option_decodable].
    destruct v as [v|].
    + eapply (reads_check true); [by apply (law_length t L)|by apply Hc|]. cbn beta iota.
      destruct v0 as [v0|]; (eapply reads_then with (i1 := []); [|cbn beta; eapply reads_done;
        [by apply (law_decode t L)|apply reads_ret]]).
      * apply reads_ret.
      * rewrite He. apply reads_ret.
    + eapply (reads_check false); [exact Hz|apply zeros_absent|]. cbn beta iota.
      eapply reads_done; [by apply reads_slice|apply reads_ret].
Qed.
End items.
End laws.
