(* ===== verification/FidlStruct.v ===== *)
(** Structs, tuples and results of FIDL write and read their formats: the members at
    their offsets with zeros between them ([fidl_struct!], [tuple_impls!] and
    [Result] of [encoding.rs]). *)

From S2P Require Import Prelude Std FidlCore FidlTypes FidlAggregates FidlLogic FidlFormat FidlLaws.

(** * Formats *)
Definition TMember : Type := Z * Typed.
Definition codes (ms : list TMember) : list Member := map (λ m, (fst m, code (snd m))) ms.
Abbreviation tfields ms := (fields (types (codes ms))).

(** The offset of a member after the offset reached: given, or rounded up. *)
Definition struct_offset (_ : Z) (m : TMember) : Z := fst m.
Definition tuple_offset (cur : Z) (m : TMember) : Z := round_up cur (ty_align (snd m)).

Section fields.
Context (off : Z → TMember → Z).
Fixpoint fields_inline (ms : list TMember) (cur : Z) : tfields ms → list Z :=
  match ms with
  | [] => λ _, []
  | m :: ms => λ v,
      zeros (off cur m - cur) ++ wire_inline (fmt (snd m)) (fst v)
      ++ fields_inline ms (off cur m + ty_size (snd m)) (snd v)
  end.
Fixpoint fields_end (ms : list TMember) (cur : Z) : Z :=
  match ms with
  | [] => cur
  | m :: ms => fields_end ms (off cur m + ty_size (snd m))
  end.
(** Members follow each other, and messages are shorter than 4 GiB. *)
Fixpoint layout_ok (ms : list TMember) (cur : Z) : Prop :=
  match ms with
  | [] => True
  | m :: ms => cur ≤ off cur m < 2 ^ 32 ∧ layout_ok ms (off cur m + ty_size (snd m))
  end.
End fields.

Fixpoint fields_valid (ms : list TMember) : tfields ms → Prop :=
  match ms with
  | [] => λ _, True
  | m :: ms => λ v, valid (fmt (snd m)) (fst v) ∧ fields_valid ms (snd v)
  end.
Fixpoint fields_ool (ms : list TMember) : tfields ms → list Z :=
  match ms with
  | [] => λ _, []
  | m :: ms => λ v, wire_ool (fmt (snd m)) (fst v) ++ fields_ool ms (snd v)
  end.
Fixpoint fields_handles (ms : list TMember) : tfields ms → list Z :=
  match ms with
  | [] => λ _, []
  | m :: ms => λ v, wire_handles (fmt (snd m)) (fst v) ++ fields_handles ms (snd v)
  end.
Fixpoint fields_spent (ms : list TMember) : tfields ms → tfields ms :=
  match ms with
  | [] => λ v, v
  | m :: ms => λ v, (spent (fmt (snd m)) (fst v), fields_spent ms (snd v))
  end.
Fixpoint fields_edepth (ms : list TMember) : tfields ms → nat :=
  match ms with
  | [] => λ _, O
  | m :: ms => λ v, edepth (fmt (snd m)) (fst v) `max` fields_edepth ms (snd v)
  end%nat.
Fixpoint fields_ddepth (ms : list TMember) : tfields ms → nat :=
  match ms with
  | [] => λ _, O
  | m :: ms => λ v, ddepth (fmt (snd m)) (fst v) `max` fields_ddepth ms (snd v)
  end%nat.
Definition members_nest (ms : list TMember) : nat := max_list (map (λ m, nest (fmt (snd m))) ms).

Definition struct_typed (ms : list TMember) (size align : Z) : Typed := {|
  code := struct_codable (codes ms) size align;
  fmt := {|
    valid := fields_valid ms;
    wire_inline v :=
      fields_inline struct_offset ms 0 v ++ zeros (size - fields_end struct_offset ms 0);
    wire_ool := fields_ool ms;
    wire_handles := fields_handles ms;
    spent := fields_spent ms;
    edepth v := S (fields_edepth ms v);
    ddepth v := S (fields_ddepth ms v);
    nest := members_nest ms
  |}
|}.
Definition tuple_typed (t : Typed) (ms : list TMember) : Typed := {|
  code := tuple_codable (code t) (codes ms);
  fmt := {|
    valid v := valid (fmt t) (fst v) ∧ fields_valid ms (snd v);
    wire_inline v := wire_inline (fmt t) (fst v) ++ fields_inline tuple_offset ms (ty_size t) (snd v);
    wire_ool v := wire_ool (fmt t) (fst v) ++ fields_ool ms (snd v);
    wire_handles v := wire_handles (fmt t) (fst v) ++ fields_handles ms (snd v);
    spent v := (spent (fmt t) (fst v), fields_spent ms (snd v));
    edepth v := S (edepth (fmt t) (fst v) `max` fields_edepth ms (snd v));
    ddepth v := S (ddepth (fmt t) (fst v) `max` fields_ddepth ms (snd v));
    nest := nest (fmt t) `max` members_nest ms
  |}
|}.

(** * Members *)
Abbreviation lawful_members ms := (Forall (λ m : TMember, lawful (snd m)) ms).

Section members.
Implicit Types (ms : list TMember) (cur : Z).

Lemma fields_end_ge off ms cur : lawful_members ms → layout_ok off ms cur → cur ≤ fields_end off ms cur.
Proof.
  intros Hl. revert cur. induction Hl as [|m ms Lm Hl IH]; intros cur; cbn [fields_end layout_ok]; [lia|].
  intros [Hm Hok]. specialize (IH _ Hok). pose proof (law_size _ Lm). lia.
Qed.
Lemma zlen_fields_inline off ms cur v : lawful_members ms → layout_ok off ms cur → fields_valid ms v →
  zlen (fields_inline off ms cur v) = fields_end off ms cur - cur.
Proof.
  intros Hl. revert cur v. induction Hl as [|m ms Lm Hl IH]; intros cur v; cbn [fields_end layout_ok fields_inline];
    [rewrite zlen_nil; lia|].
  intros [Hm Hok] [Hx Hv]. rewrite !zlen_app, zlen_zeros, (law_length _ Lm), IH by (done || lia). lia.
Qed.
Lemma fields_ool_aligned ms v : lawful_members ms → fields_valid ms v → (8 | zlen (fields_ool ms v)).
Proof.
  intros Hl. revert v. induction Hl as [|m ms Lm Hl IH]; intros v; cbn [fields_ool fields_valid]; [by exists 0|].
  intros [Hx Hv]. rewrite zlen_app. apply Z.divide_add_r; [by apply (law_ool _ Lm)|by apply IH].
Qed.
Lemma fields_new_empty_ok ms : lawful_members ms → ∃ x, fields_new_empty (types (codes ms)) = Ok x.
Proof.
  induction 1 as [|m ms Lm Hl [xs IH]]; [by eexists|]. destruct (law_empty _ Lm) as [x Hx].
  cbn. rewrite Hx. cbn [rbind]. unfold types, codes in IH. rewrite IH. by eexists.
Qed.
Lemma members_nest_le ms N m : (members_nest ms ≤ N)%nat → m ∈ ms → (nest (fmt (snd m)) ≤ N)%nat.
Proof.
  intros HN Hm. etrans; [|exact HN]. apply max_list_elem_of_le, list_elem_of_fmap. by exists m.
Qed.

Lemma writes_members ms cur v : lawful_members ms → layout_ok struct_offset ms cur → fields_valid ms v →
  writes (encode_members (codes ms) cur v) (fields_edepth ms v)
    (fields_spent ms v, fields_end struct_offset ms cur)
    (fields_inline struct_offset ms cur v) (fields_ool ms v) (fields_handles ms v).
Proof.
  intros Hl. revert cur v. induction Hl as [|[o t] ms Lm Hl IH]; intros cur v Hok Hv; [apply writes_ret|].
  cbn [layout_ok struct_offset fst snd] in Hok. destruct Hok as [Ho Hok]. destruct Hv as [Hx Hv].
  cbn [fst snd] in *. pose proof (law_size _ Lm) as Hs.
  change (codes ((o, t) :: ms)) with ((o, code t) :: codes ms). cbn [encode_members].
  eapply writes_lift; [apply usub_ok; lia|]. eapply writes_then; [apply writes_padding; cbn; lia|].
  eapply writes_bind; [by apply (law_ool _ Lm)|by apply (law_encode _ Lm)|].
  eapply writes_lift; [apply uadd_ok; unfold ty_size in *; lia|].
  eapply writes_done; [by apply fields_ool_aligned|by apply IH|apply writes_ret].
Qed.
Lemma reads_members ms cur v v0 N : lawful_members ms → layout_ok struct_offset ms cur → fields_valid ms v →
  Forall (λ m : TMember, nest (fmt (snd m)) ≤ N)%nat ms →
  reads (decode_members (codes ms) cur v0) (fields_ddepth ms v) N
    (v, fields_end struct_offset ms cur)
    (fields_inline struct_offset ms cur v) (fields_ool ms v) (fields_handles ms v).
Proof.
  intros Hl. revert cur v v0. induction Hl as [|[o t] ms Lm Hl IH]; intros cur v v0 Hok Hv HN.
  { destruct v, v0. apply reads_ret. }
  cbn [layout_ok struct_offset fst snd] in Hok. destruct Hok as [Ho Hok]. destruct Hv as [Hx Hv].
  apply Forall_cons in HN as [Hn HN]. cbn [fst snd] in *. pose proof (law_size _ Lm) as Hs.
  change (codes ((o, t) :: ms)) with ((o, code t) :: codes ms). cbn [decode_members].
  eapply reads_lift; [apply usub_ok; lia|]. eapply reads_then; [apply (reads_slice _ (zeros (o - cur))), zlen_zeros; cbn; lia|].
  eapply reads_bind; [by apply (law_decode _ Lm)|].
  eapply reads_lift; [apply uadd_ok; unfold ty_size in *; lia|].
  eapply reads_done; [by apply IH|]. destruct v. apply reads_ret.
Qed.

Lemma struct_lawful ms size align : lawful_members ms → layout_ok struct_offset ms 0 →
  fields_end struct_offset ms 0 ≤ size < 2 ^ 32 → 0 ≤ align < 2 ^ 32 →
  lawful (struct_typed ms size align).
Proof.
  intros Hl Hok Hs Ha. pose proof (fields_end_ge _ ms 0 Hl Hok).
  split; try done; cbn [fmt struct_typed wire_inline wire_ool wire_handles].
  - unfold ty_size. cbn. lia.
  - by apply fields_new_empty_ok.
  - intros v Hv. rewrite zlen_app, zlen_fields_inline, zlen_zeros by (done || lia). unfold ty_size. cbn. lia.
  - intros v Hv. by apply fields_ool_aligned.
  - intros v Hv. apply writes_recurse. eapply writes_eq;
      [eapply writes_bind; [by apply fields_ool_aligned|by apply writes_members|]|apply Nat.max_0_r|done|done|apply app_nil_r|apply app_nil_r].
    cbn [fst snd]. eapply writes_lift; [apply usub_ok; lia|].
    eapply writes_done; [by exists 0|apply writes_padding; lia|apply writes_ret].
  - intros v v0 N Hv HN. apply reads_recurse. eapply reads_eq;
      [eapply reads_bind; [apply reads_members; try done|]|apply Nat.max_0_r|done|done|apply app_nil_r|apply app_nil_r].
    + apply Forall_forall. intros m Hm. by eapply members_nest_le.
    + cbn [fst snd]. eapply reads_lift; [apply usub_ok; lia|].
      eapply reads_done; [|apply reads_ret].
      apply (reads_slice _ (zeros (size - fields_end struct_offset ms 0))), zlen_zeros. lia.
Qed.
End members.

(** * Tuples *)
Section tuples.
Implicit Types (ms : list TMember) (cur : Z).

Lemma types_size_end ms cur : types_size (codes ms) cur = fields_end tuple_offset ms cur.
Proof. revert cur. induction ms as [|[x t] ms IH]; intros cur; [done|]. apply IH. Qed.
Lemma values_size_end ms cur v : lawful_members ms → fields_valid ms v →
  values_size (codes ms) cur v = fields_end tuple_offset ms cur.
Proof.
  intros Hl. revert cur v. induction Hl as [|[x t] ms Lm Hl IH]; intros cur v; [done|].
  intros [Hx Hv]. change (codes ((x, t) :: ms)) with ((x, code t) :: codes ms). cbn [values_size fst snd] in *.
  rewrite (law_inline_size _ Lm), (law_inline_align _ Lm) by done. by apply IH.
Qed.
Lemma values_align_types ms max v : lawful_members ms → fields_valid ms v →
  values_align (codes ms) max v = types_align (codes ms) max.
Proof.
  intros Hl. revert max v. induction Hl as [|[x t] ms Lm Hl IH]; intros max v; [done|].
  intros [Hx Hv]. change (codes ((x, t) :: ms)) with ((x, code t) :: codes ms).
  cbn [values_align types_align fst snd] in *. rewrite (law_inline_align _ Lm) by done. by apply IH.
Qed.
Lemma types_align_bound ms max : lawful_members ms → 0 ≤ max < 2 ^ 32 →
  0 ≤ types_align (codes ms) max < 2 ^ 32.
Proof.
  intros Hl. revert max. induction Hl as [|[x t] ms Lm Hl IH]; intros max Hm; [done|].
  change (codes ((x, t) :: ms)) with ((x, code t) :: codes ms). cbn [types_align]. apply IH.
  pose proof (law_align _ Lm) as Ha. unfold ty_align in Ha. cbn [snd] in Ha. by destruct (_ <? _).
Qed.

Lemma writes_values ms cur v : lawful_members ms → 0 ≤ cur → layout_ok tuple_offset ms cur →
  fields_end tuple_offset ms cur < 2 ^ 32 → fields_valid ms v →
  writes (encode_values (codes ms) cur v) (fields_edepth ms v)
    (fields_spent ms v, fields_end tuple_offset ms cur)
    (fields_inline tuple_offset ms cur v) (fields_ool ms v) (fields_handles ms v).
Proof.
  intros Hl. revert cur v. induction Hl as [|[x t] ms Lm Hl IH]; intros cur v Hc Hok He Hv; [apply writes_ret|].
  destruct Hok as [Ho Hok]. destruct Hv as [Hx Hv]. cbn [fields_end fst snd] in *.
  pose proof (law_size _ Lm) as Hs. pose proof (law_align _ Lm) as Ha.
  change (codes ((x, t) :: ms)) with ((x, code t) :: codes ms). cbn [encode_values fields_inline fields_end fst snd] in *.
  rewrite (law_inline_size _ Lm), (law_inline_align _ Lm) by done.
  change (tuple_offset cur (x, t)) with (round_up cur (ty_align t)) in *.
  eapply writes_lift; [apply round_up_to_align_ok; lia|].
  eapply writes_lift; [apply usub_ok; lia|]. eapply writes_then; [apply writes_padding; lia|].
  eapply writes_bind; [by apply (law_ool _ Lm)|by apply (law_encode _ Lm)|].
  eapply writes_lift; [apply uadd_ok; lia|].
  eapply writes_done; [by apply fields_ool_aligned|apply IH; [lia|done..]|apply writes_ret].
Qed.
Lemma reads_values ms cur v v0 N : lawful_members ms → 0 ≤ cur → layout_ok tuple_offset ms cur →
  fields_end tuple_offset ms cur < 2 ^ 32 → fields_valid ms v →
  Forall (λ m : TMember, nest (fmt (snd m)) ≤ N)%nat ms →
  reads (decode_values (codes ms) cur v0) (fields_ddepth ms v) N
    (v, fields_end tuple_offset ms cur)
    (fields_inline tuple_offset ms cur v) (fields_ool ms v) (fields_handles ms v).
Proof.
  intros Hl. revert cur v v0. induction Hl as [|[x t] ms Lm Hl IH]; intros cur v v0 Hc Hok He Hv HN.
  { destruct v, v0. apply reads_ret. }
  destruct Hok as [Ho Hok]. destruct Hv as [Hx Hv]. apply Forall_cons in HN as [Hn HN].
  pose proof (law_size _ Lm) as Hs. pose proof (law_align _ Lm) as Ha.
  change (codes ((x, t) :: ms)) with ((x, code t) :: codes ms). cbn [decode_values fields_inline fields_end fst snd] in *.
  change (tuple_offset cur (x, t)) with (round_up cur (ty_align t)) in *. unfold ty_align, ty_size in *.
  eapply reads_lift; [apply round_up_to_align_ok; lia|].
  eapply reads_lift; [apply usub_ok; lia|].
  eapply reads_then; [apply reads_slice, zlen_zeros; lia|].
  eapply reads_bind; [by apply (law_decode _ Lm)|].
  eapply reads_lift; [apply uadd_ok; lia|].
  eapply reads_done; [apply IH; [lia|done..]|]. destruct v. apply reads_ret.
Qed.

Lemma tuple_lawful t ms : lawful t → lawful_members ms → layout_ok tuple_offset ms (ty_size t) →
  fields_end tuple_offset ms (ty_size t) < 2 ^ 32 → lawful (tuple_typed t ms).
Proof.
  intros L Hl Hok He. pose proof (law_size t L) as Hs. pose proof (law_align t L) as Ha.
  pose proof (fields_end_ge _ _ _ Hl Hok) as Hge. destruct (law_empty t L) as [e Hem].
  assert (tuple_size (code t) (codes ms) = fields_end tuple_offset ms (ty_size t)) as Hts by apply types_size_end.
  assert (ty_size (tuple_typed t ms) = fields_end tuple_offset ms (ty_size t)) as Hsz by apply Hts.
  split; rewrite ?Hsz; cbn [fmt tuple_typed valid wire_inline wire_ool wire_handles].
  - lia.
  - apply types_align_bound; [done|]. unfold ty_align in Ha. by destruct (0 <? _).
  - destruct (fields_new_empty_ok ms Hl) as [x Hx]. exists (e, x). cbn. by rewrite Hem, Hx.
  - intros v [Hx Hv]. cbn. by rewrite (law_inline_size t L), values_size_end.
  - intros v [Hx Hv]. cbn. rewrite (law_inline_align t L), values_align_types by done. done.
  - intros v [Hx Hv]. rewrite zlen_app, (law_length t L), zlen_fields_inline by done. lia.
  - intros v [Hx Hv]. rewrite zlen_app. apply Z.divide_add_r; [by apply (law_ool t L)|by apply fields_ool_aligned].
  - intros v [Hx Hv]. apply writes_recurse.
    eapply writes_bind; [by apply (law_ool t L)|by apply (law_encode t L)|]. cbn beta.
    rewrite (law_inline_size t L), values_size_end by done.
    eapply writes_done; [by apply fields_ool_aligned|apply writes_values; done || lia|].
    cbn [fst snd]. eapply writes_lift; [by apply usub_ok|]. rewrite Z.sub_diag.
    eapply writes_done; [by exists 0|by apply (writes_padding 0)|apply writes_ret].
  - intros v v0 N [Hx Hv] HN. cbn [nest fmt] in HN. apply reads_recurse.
    eapply reads_bind; [apply (law_decode t L); [done|lia]|]. cbn beta.
    eapply reads_done; [apply reads_values; try done; [apply Hs|]|].
    + apply Forall_forall. intros m Hm. eapply members_nest_le; [|done]. lia.
    + cbn [fst snd]. rewrite Hts. eapply reads_lift; [by apply usub_ok|]. rewrite Z.sub_diag.
      eapply reads_done; [by apply (reads_slice _ [])|]. destruct v. apply reads_ret.
Qed.
End tuples.

(** * Results *)
Section results.
Context `{BO : !ByteOrder, BOS : !ByteOrderSpec}.

(** The alternative of tag [tag]: its value, then zeros up to the size. *)
Definition tagged_inline (o e t : Typed) (tag : Z) (v : car (code t)) : list Z :=
  write_int 4 tag ++ zeros (result_align (code o) - 4) ++ wire_inline (fmt t) v
  ++ zeros (result_size (code o) (code e) - (result_align (code o) + ty_size t)).
Definition result_typed (o e : Typed) : Typed := {|
  code := result_codable (code o) (code e);
  fmt := {|
    valid v := match v with inl x => valid (fmt o) x | inr x => valid (fmt e) x end;
    wire_inline v :=
      match v with inl x => tagged_inline o e o 0 x | inr x => tagged_inline o e e 1 x end;
    wire_ool v := match v with inl x => wire_ool (fmt o) x | inr x => wire_ool (fmt e) x end;
    wire_handles v := match v with inl x => wire_handles (fmt o) x | inr x => wire_handles (fmt e) x end;
    spent v := match v with inl x => inl (spent (fmt o) x) | inr x => inr (spent (fmt e) x) end;
    edepth v := match v with inl x => edepth (fmt o) x | inr x => edepth (fmt e) x end;
    ddepth v := match v with inl x => ddepth (fmt o) x | inr x => ddepth (fmt e) x end;
    nest := nest (fmt o) `max` nest (fmt e)
  |}
|}.

(** The size computed for the result has room for both alternatives. *)
Definition result_fits (o e : Typed) : Prop :=
  result_align (code o) + Z.max (ty_size o) (ty_size e) ≤ result_size (code o) (code e) < 2 ^ 32.

Section tagged.
Context (o e t : Typed) (Lo : lawful o) (L : lawful t).
Context (Hfit : result_align (code o) + ty_size t ≤ result_size (code o) (code e)).
Abbreviation a := (result_align (code o)).
Abbreviation size := (result_size (code o) (code e)).

Lemma result_align_bound : 4 ≤ a < 2 ^ 32.
Proof. pose proof (law_align o Lo). unfold result_align, ty_align in *. lia. Qed.
Lemma zlen_tagged tag v : valid (fmt t) v → zlen (tagged_inline o e t tag v) = size.
Proof.
  intros Hv. pose proof result_align_bound. unfold tagged_inline.
  rewrite !zlen_app, write_int_length, !zlen_zeros, (law_length t L) by (done || lia). lia.
Qed.
Lemma writes_tagged tag v : 0 ≤ tag < 2 → valid (fmt t) v →
  writes (encode_tagged (code o) (code e) tag (enc (code t)) v) (edepth (fmt t) v) (spent (fmt t) v)
    (tagged_inline o e t tag v) (wire_ool (fmt t) v) (wire_handles (fmt t) v).
Proof.
  intros Htag Hv. pose proof (law_size t L). pose proof result_align_bound.
  apply writes_everywhere. intros p Hp. unfold encode_tagged, tagged_inline.
  apply writes_at_offset. intros s ->. eapply writes_at_then.
  { apply writes_at_any. eapply writes_eq; [by apply (writes_num 4 true tag)|done|done| |done|done].
    unfold num_bits, to_unsigned. by rewrite Z.mod_small by lia. }
  rewrite write_int_length by lia. eapply writes_at_lift; [apply usub_ok; lia|].
  eapply writes_at_then; [apply writes_at_slice; lia|]. rewrite zlen_zeros by lia.
  eapply writes_at_last; [by apply (law_ool t L)|apply writes_at_any; by apply (law_encode t L)|].
  rewrite (law_length t L) by done. replace (p + 4 + (a - 4) + ty_size t) with (p + (a + ty_size t)) by lia.
  rewrite <- (app_nil_r (zeros _)). eapply writes_at_then; [|apply writes_at_any, writes_ret].
  replace (size - (a + ty_size t)) with (size - (p + (a + ty_size t) - p)) by lia.
  apply writes_at_tail_padding; lia.
Qed.
Lemma reads_at_tagged p v v0 N : valid (fmt t) v → (nest (fmt t) ≤ N)%nat →
  reads_at (p + a) (decode_tagged (code o) (code e) p (dec (code t)) v0) (ddepth (fmt t) v) N v
    (wire_inline (fmt t) v ++ zeros (size - (a + ty_size t))) (wire_ool (fmt t) v) (wire_handles (fmt t) v).
Proof.
  intros Hv HN. pose proof (law_size t L). pose proof result_align_bound. unfold decode_tagged.
  eapply reads_at_last; [apply reads_at_any; by apply (law_decode t L)|].
  rewrite (law_length t L) by done. replace (p + a + ty_size t) with (p + (a + ty_size t)) by lia.
  rewrite <- (app_nil_r (zeros _)). eapply reads_at_last; [|apply reads_at_any, reads_ret].
  replace (size - (a + ty_size t)) with (size - (p + (a + ty_size t) - p)) by lia.
  apply reads_at_tail_padding; lia.
Qed.
End tagged.

Lemma reads_result o e v v0 N : lawful o → lawful e → result_fits o e → valid (fmt (result_typed o e)) v →
  (nest (fmt (result_typed o e)) ≤ N)%nat →
  reads (decode (dec (code (result_typed o e))) v0) (ddepth (fmt (result_typed o e)) v) N v
    (wire_inline (fmt (result_typed o e)) v) (wire_ool (fmt (result_typed o e)) v)
    (wire_handles (fmt (result_typed o e)) v).
Proof.
  intros Lo Le [Hf _] Hv HN. pose proof (result_align_bound o Lo).
  destruct (law_empty o Lo) as [xo Ho]. destruct (law_empty e Le) as [xe He].
  apply reads_everywhere. intros p Hp. cbn [decode dec code result_typed result_codable result_decodable].
  cbn [nest fmt result_typed] in HN.
  eapply reads_at_step; [apply reads_at_pos|]. cbn beta.
  destruct v as [v|v]; cbn [fmt result_typed wire_inline wire_ool wire_handles ddepth valid] in *;
    unfold tagged_inline; (eapply reads_at_then; [by apply reads_u32|]); rewrite write_int_length by lia;
    (eapply reads_at_lift; [apply usub_ok; lia|]);
    (eapply reads_at_then; [apply reads_slice, zlen_zeros; lia|]); rewrite zlen_zeros by lia; cbn beta;
    cbn [Z.eqb];
    replace (p + 4 + (result_align (code o) - 4)) with (p + result_align (code o)) by lia.
  - eapply reads_at_step with (a := match v0 with inl v0 => v0 | inr _ => xo end).
    + apply reads_at_any. destruct v0; [apply reads_ret|]. rewrite Ho. apply reads_ret.
    + rewrite <- (app_nil_r (_ ++ zeros _)). eapply reads_at_last; [|apply reads_at_any, reads_ret].
      apply reads_at_tagged; [done|done|lia|done|lia].
  - eapply reads_at_step with (a := match v0 with inr v0 => v0 | inl _ => xe end).
    + apply reads_at_any. destruct v0; [|apply reads_ret]. rewrite He. apply reads_ret.
    + rewrite <- (app_nil_r (_ ++ zeros _)). eapply reads_at_last; [|apply reads_at_any, reads_ret].
      apply reads_at_tagged; [done|done|lia|done|lia].
Qed.
Lemma result_lawful o e : lawful o → lawful e → result_fits o e → lawful (result_typed o e).
Proof.
  intros Lo Le Hf. pose proof Hf as [Hf1 Hf2]. pose proof (law_size o Lo). pose proof (result_align_bound o Lo).
  split; try done.
  - unfold ty_size. cbn [type_size dec code result_typed result_codable result_decodable]. lia.
  - unfold ty_align. cbn [type_align dec code result_typed result_codable result_decodable]. lia.
  - destruct (law_empty o Lo) as [x Hx]. cbn. rewrite Hx. by eexists.
  - intros [v|v] Hv; [apply (zlen_tagged o e o); done || lia|apply (zlen_tagged o e e); done || lia].
  - intros [v|v] Hv; [exact (law_ool o Lo v Hv)|exact (law_ool e Le v Hv)].
  - intros [v|v] Hv.
    + eapply writes_done; [exact (law_ool o Lo v Hv)|apply (writes_tagged o e o); done || lia|apply writes_ret].
    + eapply writes_done; [exact (law_ool e Le v Hv)|apply (writes_tagged o e e); done || lia|apply writes_ret].
  - intros v v0 N Hv HN. by apply reads_result.
Qed.
End results.
