(* ===== verification/FidlTable.v ===== *)
(** Envelopes and tables of FIDL write and read their formats ([encode_in_envelope] and
    [fidl_table!] of [encoding.rs]).  The members of the tables have the ordinals 1, 2, 3
    and so on: decoding does not look at the ordinals. *)

From S2P Require Import Prelude Std FidlCore FidlTypes FidlAggregates FidlLogic FidlFormat FidlLaws FidlStruct.

(** * Flat reads and writes as steps *)
Lemma writes_run {A} (m : M Error Encoder A) a i d pre mid post hs :
  writes m 0 a i [] [] → (8 | zlen pre + zlen i + zlen mid + zlen post) →
  zlen pre + zlen i + zlen mid + zlen post < 2 ^ 32 → zlen hs < 2 ^ 32 →
  m (est d pre (zeros (zlen i) ++ mid) post hs) = (Ok a, est d (pre ++ i) mid post hs).
Proof.
  intros Hm H8 Hb Hh. specialize (Hm d pre (mid ++ post) hs). rewrite zlen_app, !zlen_nil in Hm.
  unfold yields, est in *. rewrite decide_True in Hm by lia. rewrite <- app_assoc.
  rewrite Hm by (rewrite ?Z.add_0_r, ?Z.add_assoc in *; done).
  by rewrite !app_nil_r, <- !app_assoc.
Qed.
Lemma yields_writes {A B} w (m : M Error Encoder A) (k : A → M Error Encoder B) n a b i d pre mid post hs s2 :
  writes m 0 a i [] [] → zlen i = w → (8 | zlen pre + w + zlen mid + zlen post) →
  zlen pre + w + zlen mid + zlen post < 2 ^ 32 → zlen hs < 2 ^ 32 →
  yields (k a) (est d (pre ++ i) mid post hs) n b s2 →
  yields (bind m k) (est d pre (zeros w ++ mid) post hs) n b s2.
Proof. intros Hm <- H8 Hb Hh Hk. eapply yields_step; [by apply writes_run|exact Hk|done]. Qed.
Lemma reads_run {A} (m : M Error Decoder A) a i d b ib o io h :
  reads m 0 0 a i [] [] → zlen i + zlen b ≤ ib < 2 ^ 64 → zlen o ≤ io < 2 ^ 32 → zlen h < 2 ^ 32 →
  m (dst d (i ++ b) ib o io h) = (Ok a, dst d b ib o io h).
Proof. intros Hm Hi Ho Hh. apply (yields_run m _ 0 a); [|lia]. apply Hm; rewrite ?zlen_nil; lia. Qed.

(** * Envelopes *)
Section envelopes.
Context `{BO : !ByteOrder}.

Definition env_header (num_bytes num_handles present : Z) : list Z :=
  write_int 4 num_bytes ++ write_int 4 num_handles ++ write_int 8 present.
Definition env_ool (t : Typed) (v : option (car (code t))) : list Z :=
  match v with
  | Some x => boxed_ool t x
  | None => []
  end.
Definition env_handles (t : Typed) (v : option (car (code t))) : list Z :=
  match v with Some x => wire_handles (fmt t) x | None => [] end.
Definition env_inline (t : Typed) (v : option (car (code t))) : list Z :=
  env_header (zlen (env_ool t v)) (zlen (env_handles t v))
    (match v with Some _ => ALLOC_PRESENT_U64 | None => ALLOC_ABSENT_U64 end).
Definition env_valid (t : Typed) (v : option (car (code t))) : Prop :=
  match v with Some x => valid (fmt t) x | None => True end.
Definition env_edepth (t : Typed) (v : option (car (code t))) : nat :=
  match v with Some x => edepth (fmt t) x | None => O end.
Definition env_ddepth (t : Typed) (v : option (car (code t))) : nat :=
  match v with Some x => ddepth (fmt t) x | None => O end.

Context `{BOS : !ByteOrderSpec, BOZ : !ZeroBytes}.

Lemma zlen_env_header a b c : zlen (env_header a b c) = 16.
Proof. unfold env_header. by rewrite !zlen_app, !write_int_length. Qed.
Lemma env_ool_aligned t v : lawful t → env_valid t v → (8 | zlen (env_ool t v)).
Proof. intros L. destruct v as [x|]; cbn; [by apply boxed_aligned|by exists 0]. Qed.
Lemma zlen_u32 n : zlen (write_int 4 n) = 4.
Proof. by apply write_int_length. Qed.
Lemma zlen_u64 n : zlen (write_int 8 n) = 8.
Proof. by apply write_int_length. Qed.
(** The lengths of the parts of an envelope. *)
Ltac env_lengths := rewrite ?zlen_app, ?zlen_u32, ?zlen_u64, ?zlen_zeros, ?zlen_nil in * by done.
Ltac env_aligned H8 :=
  env_lengths; match type of H8 with (_ | ?n) => match goal with |- (_ | ?n') => by replace n' with n by lia end end.

(** Back at the envelope, its counts are written over the zeros. *)
Lemma envelope_counts {A} (r : A) nb nh d pre post hs :
  (8 | zlen pre + 16 + zlen post) → zlen pre + 16 + zlen post < 2 ^ 32 → zlen hs < 2 ^ 32 →
  (set_offset (zlen pre) ;;; encode_u32 nb ;;; encode_u32 nh ;;; set_offset (zlen pre + 16) ;;; ret r)
    (est d (pre ++ env_header 0 0 ALLOC_PRESENT_U64) [] post hs)
  = (Ok r, est d (pre ++ env_header nb nh ALLOC_PRESENT_U64) [] post hs).
Proof.
  intros H8 Hb Hh. apply (yields_run _ _ 0); [|lia]. unfold env_header. rewrite !write_int_zero by done.
  eapply yields_step with (s1 := est d pre (zeros 4 ++ zeros 4 ++ write_int 8 ALLOC_PRESENT_U64) post hs); [| |done].
  { unfold set_offset, est. cbn [e_remaining_depth e_buf e_handles app]. by rewrite <- !app_assoc. }
  apply yields_writes with (a := tt) (i := write_int 4 nb);
    [apply writes_u32|apply zlen_u32|env_aligned H8|env_lengths; lia|done|].
  apply yields_writes with (a := tt) (i := write_int 4 nh);
    [apply writes_u32|apply zlen_u32|env_aligned H8|env_lengths; lia|done|].
  apply yields_done. unfold set_offset, bind, ret, est. cbn [e_remaining_depth e_buf e_handles app].
  rewrite <- !app_assoc. env_lengths. do 3 f_equal; lia.
Qed.
(** The counts are zero until the value was written. *)
Lemma envelope_start {A} (k : M Error Encoder A) n r d pre post hs s2 :
  (8 | zlen pre + 16 + zlen post) → zlen pre + 16 + zlen post < 2 ^ 32 → zlen hs < 2 ^ 32 →
  yields k (est d (pre ++ env_header 0 0 ALLOC_PRESENT_U64) [] post hs) n r s2 →
  yields (encode_u32 0 ;;; encode_u32 0 ;;; encode_u64 ALLOC_PRESENT_U64 ;;; k)
    (est d pre (zeros 16) post hs) n r s2.
Proof.
  intros H8 Hb Hh Hk. change (zeros 16) with (zeros 4 ++ zeros 4 ++ zeros 8 ++ []).
  apply yields_writes with (a := tt) (i := write_int 4 0);
    [apply writes_u32|apply zlen_u32|env_aligned H8|env_lengths; lia|done|].
  apply yields_writes with (a := tt) (i := write_int 4 0);
    [apply writes_u32|apply zlen_u32|env_aligned H8|env_lengths; lia|done|].
  apply yields_writes with (a := tt) (i := write_int 8 ALLOC_PRESENT_U64);
    [apply writes_u64|apply zlen_u64|env_aligned H8|env_lengths; lia|done|].
  by rewrite <- !app_assoc.
Qed.

Lemma writes_envelope t v : lawful t → env_valid t v →
  writes (encode_in_envelope (enc (code t)) v) (env_edepth t v) (spent (fmt t) <$> v)
    (env_inline t v) (env_ool t v) (env_handles t v).
Proof.
  intros L Hv. unfold env_inline. destruct v as [x|]; cbn [env_valid env_edepth] in *.
  2:{ apply writes_everywhere. intros p _. apply writes_at_offset. intros e _. apply writes_at_any.
      eapply writes_then; [apply writes_u32|]. eapply writes_then; [apply writes_u32|].
      eapply writes_done; [by exists 0|apply writes_u64|apply writes_ret]. }
  intros d pre post hs H8 Hb Hh. rewrite zlen_env_header in *.
  pose proof (zlen_nonneg (env_ool t (Some x))). pose proof (zlen_nonneg (env_handles t (Some x))).
  pose proof (zlen_nonneg hs). pose proof (zlen_nonneg pre). pose proof (zlen_nonneg post).
  pose proof (env_ool_aligned t (Some x) L Hv) as H8o.
  unfold encode_in_envelope. eapply yields_step; [done| |done]. cbn beta zeta.
  apply envelope_start; [done|lia|lia|]. eapply yields_step; [done| |done]. cbn beta zeta.
  eapply yields_need; [eapply yields_then with (n2 := O)|apply Nat.max_0_r].
  - apply (writes_boxed t L x Hv); rewrite ?zlen_app, ?zlen_env_header, ?zlen_nil, ?Z.add_0_r;
      done || cbn [env_ool env_handles] in *; lia.
  - done.
  - eapply yields_step; [done| |done]. cbn [est e_buf e_handles e_offset]. cbn beta zeta.
    cbn [env_ool env_handles app] in *. rewrite !app_nil_r, !zlen_app, zlen_env_header.
    eapply yields_step; [unfold lift; rewrite usub_ok by lia; reflexivity| |done].
    eapply yields_step; [unfold lift; rewrite usub_ok by lia; reflexivity| |done].
    apply yields_done. cbn beta.
    replace (zlen pre + 16 + (zlen post + zlen (boxed_ool t x)) - (zlen pre + 16 + zlen post))
      with (zlen (boxed_ool t x)) by lia.
    replace (zlen hs + zlen (wire_handles (fmt t) x) - zlen hs) with (zlen (wire_handles (fmt t) x)) by lia.
    rewrite !Z.mod_small by lia. apply envelope_counts; rewrite ?zlen_app, ?Z.add_assoc; [by apply Z.divide_add_r|lia|lia].
Qed.

Lemma yields_reads {A B} (m : M Error Decoder A) (k : A → M Error Decoder B) n a r i d b ib o io h s2 :
  reads m 0 0 a i [] [] → zlen i + zlen b ≤ ib < 2 ^ 64 → zlen o ≤ io < 2 ^ 32 → zlen h < 2 ^ 32 →
  yields (k a) (dst d b ib o io h) n r s2 → yields (bind m k) (dst d (i ++ b) ib o io h) n r s2.
Proof. intros Hm Hi Ho Hh Hk. eapply yields_step; [by apply reads_run|exact Hk|done]. Qed.

(** The checks after the value of an envelope. *)
Lemma reads_envelope_value t v v0 N : lawful t → env_valid t v → (S (nest (fmt t)) ≤ N)%nat →
  reads (if (match v with Some _ => ALLOC_PRESENT_U64 | None => ALLOC_ABSENT_U64 end) =? ALLOC_PRESENT_U64 then
           read_out_of_line (type_size (dec (code t))) (
             val_ref <- (match v0 with Some x => ret x | None => lift (new_empty (dec (code t))) end) ;;
             val_ref <- decode (dec (code t)) val_ref ;;
             ret (Some val_ref))
         else if (match v with Some _ => ALLOC_PRESENT_U64 | None => ALLOC_ABSENT_U64 end) =? ALLOC_ABSENT_U64
         then ret None else fail Invalid) (env_ddepth t v) N v [] (env_ool t v) (env_handles t v).
Proof.
  intros L Hv HN. destruct v as [x|]; [|apply reads_ret]. destruct (law_empty t L) as [e He].
  destruct N as [|N]; [lia|]. cbn [Z.eqb env_ool boxed_ool]. unfold boxed_ool, chunk.
  rewrite <- app_assoc, (law_length t L) by done. apply reads_ool; [by apply (law_length t L)|].
  destruct v0 as [x0|].
  - eapply reads_then with (i1 := []); [apply reads_ret|].
    eapply reads_done; [apply (law_decode t L); [done|lia]|apply reads_ret].
  - eapply reads_lift; [exact He|].
    eapply reads_done; [apply (law_decode t L); [done|lia]|apply reads_ret].
Qed.
Lemma reads_envelope t v v0 N : lawful t → env_valid t v → (S (nest (fmt t)) ≤ N)%nat →
  reads (decode_envelope (dec (code t)) v0) (env_ddepth t v) N v
    (env_inline t v) (env_ool t v) (env_handles t v).
Proof.
  intros L Hv HN d b ib ob io hb Hi Ho Hio Hh Hn. unfold env_inline, env_header in *.
  pose proof (zlen_nonneg (env_ool t v)). pose proof (zlen_nonneg (env_handles t v)). pose proof (zlen_nonneg ob).
  pose proof (zlen_nonneg hb). pose proof (zlen_nonneg b).
  assert (ib < 2 ^ 64) by (assert (0 ≤ Z.of_nat N * io) by (apply Z.mul_nonneg_nonneg; lia); lia).
  env_lengths. rewrite <- !app_assoc. unfold decode_envelope.
  apply yields_reads with (a := zlen (env_ool t v)); [apply reads_u32; lia|env_lengths; lia|env_lengths; lia|env_lengths; lia|].
  apply yields_reads with (a := zlen (env_handles t v)); [apply reads_u32; lia|env_lengths; lia|env_lengths; lia|env_lengths; lia|].
  eapply yields_reads; [apply reads_u64; by destruct v|env_lengths; lia|env_lengths; lia|env_lengths; lia|].
  eapply yields_step; [done| |done]. eapply yields_step; [done| |done]. cbn beta.
  eapply yields_need; [eapply yields_then with (n2 := O)|apply Nat.max_0_r].
  - apply (reads_envelope_value t v v0 N L Hv HN d b ib ob io hb); rewrite ?zlen_nil; lia.
  - done.
  - eapply yields_step; [done| |done]. cbn [d_out_of_line_buf d_handles dst]. rewrite !zlen_app.
    eapply yields_step; [unfold lift; rewrite uadd_ok by lia; reflexivity| |done].
    eapply yields_step; [done| |done]. cbn [d_handles dst].
    eapply yields_step; [unfold lift; rewrite uadd_ok by lia; reflexivity| |done].
    apply yields_done. do 2 (by_ltb; cbn [negb]). done.
Qed.
End envelopes.

(** * Tables *)
Abbreviation vfields ms := (table_fields (codes ms)).

Section tables.
Context `{BO : !ByteOrder}.

(** The envelopes of the first [k] members. *)
Fixpoint table_inline (ms : list TMember) (k : nat) : vfields ms → list Z :=
  match ms with
  | [] => λ _, []
  | m :: ms => λ v,
      match k with
      | O => []
      | S k => env_inline (snd m) (fst v) ++ table_inline ms k (snd v)
      end
  end.
Fixpoint table_ool (ms : list TMember) : vfields ms → list Z :=
  match ms with
  | [] => λ _, []
  | m :: ms => λ v, env_ool (snd m) (fst v) ++ table_ool ms (snd v)
  end.
Fixpoint table_handles (ms : list TMember) : vfields ms → list Z :=
  match ms with
  | [] => λ _, []
  | m :: ms => λ v, env_handles (snd m) (fst v) ++ table_handles ms (snd v)
  end.
Fixpoint table_valid (ms : list TMember) : vfields ms → Prop :=
  match ms with
  | [] => λ _, True
  | m :: ms => λ v, env_valid (snd m) (fst v) ∧ table_valid ms (snd v)
  end.
Fixpoint table_spent (ms : list TMember) : vfields ms → vfields ms :=
  match ms with
  | [] => λ v, v
  | m :: ms => λ v, (spent (fmt (snd m)) <$> fst v, table_spent ms (snd v))
  end.
Fixpoint table_edepth (ms : list TMember) : vfields ms → nat :=
  match ms with
  | [] => λ _, O
  | m :: ms => λ v, env_edepth (snd m) (fst v) `max` table_edepth ms (snd v)
  end%nat.
Fixpoint table_ddepth (ms : list TMember) : vfields ms → nat :=
  match ms with
  | [] => λ _, O
  | m :: ms => λ v, env_ddepth (snd m) (fst v) `max` table_ddepth ms (snd v)
  end%nat.
(** The ordinals are [next], [next + 1] and so on. *)
Fixpoint consecutive (next : Z) (ms : list TMember) : Prop :=
  match ms with
  | [] => True
  | m :: ms => fst m = next ∧ consecutive (next + 1) ms
  end.

Definition table_typed (ms : list TMember) : Typed := {|
  code := table_codable (codes ms);
  fmt := {|
    valid := table_valid ms;
    wire_inline v := vector_header (Z.of_nat (members_len (codes ms) v));
    wire_ool v := chunk (table_inline ms (members_len (codes ms) v) v) ++ table_ool ms v;
    wire_handles := table_handles ms;
    spent := table_spent ms;
    edepth v := S (table_edepth ms v);
    ddepth := table_ddepth ms;
    nest := S (S (members_nest ms))
  |}
|}.

(** The number of members up to the last that is present, one member at a time. *)
Lemma members_len_cons (m : TMember) ms (v : vfields (m :: ms)) :
  members_len (codes (m :: ms)) v =
  match members_len (codes ms) (snd v) with
  | S k => S (S k)
  | O => match fst v with Some _ => 1%nat | None => O end
  end.
Proof.
  destruct v as [x v]. unfold members_len. cbn [codes map last_some_index fst snd].
  fold (codes ms). destruct (last_some_index (codes ms) v); [done|]. by destruct x.
Qed.
Lemma members_len_le ms v : (members_len (codes ms) v ≤ length ms)%nat.
Proof.
  induction ms as [|m ms IH]; [done|]. rewrite members_len_cons. specialize (IH (snd v)). cbn [length].
  destruct (members_len _ _); [destruct (fst v)|]; lia.
Qed.
(** Without present members there is nothing on the wire. *)
Lemma members_none ms v : members_len (codes ms) v = O →
  table_ool ms v = [] ∧ table_handles ms v = [] ∧ table_spent ms v = v ∧
  table_edepth ms v = O ∧ table_ddepth ms v = O.
Proof.
  induction ms as [|m ms IH]; [done|]. rewrite members_len_cons. destruct v as [[x|] v]; cbn [fst snd].
  - by destruct (members_len _ _).
  - destruct (members_len (codes ms) v) eqn:E; [|done]. intros _.
    destruct (IH v E) as (H1&H2&H3&H4&H5). cbn. by rewrite H1, H2, H3, H4, H5.
Qed.
Lemma members_len_tail (m : TMember) ms (v : vfields (m :: ms)) k :
  members_len (codes (m :: ms)) v = S k → members_len (codes ms) (snd v) = k.
Proof. rewrite members_len_cons. destruct (members_len _ _); [destruct (fst v)|]; congruence. Qed.
Lemma members_len_zero (m : TMember) ms (v : vfields (m :: ms)) :
  members_len (codes (m :: ms)) v = O → fst v = None ∧ members_len (codes ms) (snd v) = O.
Proof. rewrite members_len_cons. destruct (members_len _ _); [destruct (fst v)|]; done. Qed.
Lemma max_ordinal_len ms v : consecutive 1 ms →
  max_ordinal (codes ms) v = Z.of_nat (members_len (codes ms) v).
Proof.
  intros Hc. unfold max_ordinal. pose proof (members_len_le ms v) as Hle. revert Hle.
  generalize (members_len (codes ms) v) as k. intros k Hle. clear v.
  assert (∀ next k, consecutive next ms → (k < length ms)%nat →
    last (take (S k) (map fst (codes ms))) = Some (next + Z.of_nat k)) as Hlast.
  { clear. induction ms as [|m ms IH]; intros next k Hc Hk; cbn [length] in Hk; [lia|].
    destruct Hc as [Hm Hc].
    cbn [codes map fst]. destruct k as [|k]; [by rewrite Z.add_0_r, <- Hm|].
    cbn [take]. rewrite last_cons, (IH (next + 1)) by (done || lia). f_equal. lia. }
  destruct k as [|k]; [done|]. rewrite (Hlast 1) by (done || lia). cbn. lia.
Qed.

Context `{BOS : !ByteOrderSpec, BOZ : !ZeroBytes}.

Lemma zlen_table_inline ms v : 
  zlen (table_inline ms (members_len (codes ms) v) v) = Z.of_nat (members_len (codes ms) v) * 16.
Proof.
  induction ms as [|m ms IH]; [done|]. destruct (members_len _ v) as [|k] eqn:E; [done|].
  apply members_len_tail in E. cbn [table_inline]. rewrite zlen_app. rewrite <- E, IH.
  unfold env_inline. rewrite zlen_env_header. lia.
Qed.
Lemma table_ool_aligned ms v : lawful_members ms → table_valid ms v → (8 | zlen (table_ool ms v)).
Proof.
  intros Hl. revert v. induction Hl as [|m ms Lm Hl IH]; intros v; [by exists 0|].
  intros [Hx Hv]. cbn [table_ool]. rewrite zlen_app.
  apply Z.divide_add_r; [by apply env_ool_aligned|by apply IH].
Qed.

Lemma writes_table_members ms v next max k : lawful_members ms → table_valid ms v → consecutive next ms →
  members_len (codes ms) v = k → 0 ≤ next → next + Z.of_nat k - 1 ≤ max < 2 ^ 63 →
  writes (encode_table_members (codes ms) k next max v)
    (table_edepth ms v) (table_spent ms v) (table_inline ms k v) (table_ool ms v) (table_handles ms v).
Proof.
  intros Hl. revert v next k. induction Hl as [|[o t] ms Lm Hl IH]; intros v next k Hv Hc E Hn Hm; [apply writes_ret|].
  destruct k as [|k].
  { destruct (members_none _ v E) as (->&->&->&->&_). apply writes_ret. }
  apply members_len_tail in E. destruct Hv as [Hx Hv]. destruct Hc as [Ho Hc]. cbn [fst snd] in *. subst o.
  change (codes ((next, t) :: ms)) with ((next, code t) :: codes ms). cbn [encode_table_members table_inline].
  rewrite Z.ltb_irrefl, Z.sub_diag. by_ltb. cbn [orb Z.to_nat fill_envelopes].
  eapply writes_then with (i1 := []); [apply writes_ret|].
  eapply writes_bind; [by apply env_ool_aligned|by apply writes_envelope|].
  eapply writes_lift; [apply uadd_ok; lia|].
  eapply writes_done; [by apply table_ool_aligned|apply IH; done || lia|apply writes_ret].
Qed.

Lemma table_inline_0 ms v : table_inline ms 0 v = [].
Proof. by destruct ms. Qed.
Lemma is_empty_run d b ib o io h : is_empty (dst d b ib o io h) =
  (Ok (match b with [] => true | _ => false end), dst d b ib o io h).
Proof. done. Qed.
Lemma reads_table_members ms v v0 k d ib ob io hb N : lawful_members ms → table_valid ms v →
  members_len (codes ms) v = k → Forall (λ m : TMember, S (nest (fmt (snd m))) ≤ N)%nat ms →
  zlen (table_inline ms k v) ≤ ib → zlen (table_ool ms v) + zlen ob ≤ io →
  io < 2 ^ 32 → zlen (table_handles ms v) + zlen hb < 2 ^ 32 → ib + Z.of_nat N * io < 2 ^ 64 →
  yields (decode_table_members (codes ms) v0)
    (dst d (table_inline ms k v) ib (table_ool ms v ++ ob) io (table_handles ms v ++ hb))
    (table_ddepth ms v) v (dst d [] ib ob io hb).
Proof.
  intros Hl. revert v v0 k. induction Hl as [|[o t] ms Lm Hl IH]; intros v v0 k Hv E HN Hi Ho Hio Hh Hb.
  { destruct v, v0. by apply yields_done. }
  destruct Hv as [Hx Hv]. apply Forall_cons in HN as [Hn HN].
  change (codes ((o, t) :: ms)) with ((o, code t) :: codes ms). cbn [decode_table_members].
  rewrite <- (Nat.max_0_l (table_ddepth _ v)). eapply yields_then; [apply yields_done; exact (is_empty_run _ _ _ _ _ _)|done|].
  destruct k as [|k]; cbn [table_inline table_ool table_handles table_ddepth] in *.
  - apply members_len_zero in E as [Hnone E]. destruct v as [x v]. cbn [fst snd] in *. subst x.
    cbn [env_ool env_handles env_ddepth app] in *. eapply yields_step; [done| |done].
    rewrite <- (Nat.max_0_r (0 `max` _)). eapply yields_then.
    + specialize (IH v (snd v0) O). rewrite table_inline_0, zlen_nil in IH. by apply IH.
    + done.
    + by apply yields_done.
  - apply members_len_tail in E. destruct v as [x v]. cbn [fst snd] in *. rewrite !zlen_app in Hi, Ho, Hh.
    pose proof (zlen_nonneg (table_ool ms v)). pose proof (zlen_nonneg (table_inline ms k v)).
    assert (zlen (env_inline t x) = 16) as H16 by apply zlen_env_header.
    replace (match env_inline t x ++ table_inline ms k v with [] => true | _ => false end) with false
      by (destruct (env_inline t x); [rewrite zlen_nil in H16; lia|done]).
    rewrite <- !app_assoc. pose proof (zlen_nonneg ob). pose proof (zlen_nonneg hb).
    pose proof (zlen_nonneg (env_ool t x)). pose proof (zlen_nonneg (env_handles t x)).
    eapply yields_then; [apply reads_envelope with (N := N); rewrite ?zlen_app; done || lia|done|].
    eapply yields_need; [eapply yields_then with (n2 := O)|apply Nat.max_0_r].
    + apply (IH v (snd v0) k); done || lia.
    + done.
    + by apply yields_done.
Qed.

Lemma table_lawful ms : lawful_members ms → consecutive 1 ms → zlen ms < 2 ^ 32 → lawful (table_typed ms).
Proof.
  intros Hl Hc Hn.
  assert (∀ v, 0 ≤ Z.of_nat (members_len (codes ms) v) < 2 ^ 32) as Hlen.
  { intros v. pose proof (members_len_le ms v). unfold zlen in Hn. lia. }
  assert (∀ v, table_valid ms v → (8 | zlen (wire_ool (fmt (table_typed ms)) v))) as Hool.
  { intros v Hv. cbn [wire_ool fmt table_typed]. rewrite zlen_app.
    apply Z.divide_add_r; [apply chunk_aligned|by apply table_ool_aligned]. }
  split; try done.
  - by eexists.
  - intros v _. apply zlen_vector_header.
  - intros v Hv. specialize (Hlen v). eapply writes_eq; [|done|done|apply app_nil_r|done|done].
    cbn [encode enc code table_typed table_codable table_encodable]. rewrite max_ordinal_len by done.
    eapply writes_present. eapply writes_lift; [apply umul_ok; lia|].
    cbn [wire_ool fmt table_typed]. unfold chunk. rewrite <- app_assoc, zlen_table_inline.
    apply writes_ool; [apply zlen_table_inline|]. apply writes_recurse, writes_table_members; done || lia.
  - intros v v0 N Hv HN. specialize (Hlen v). cbn [nest fmt table_typed] in HN. destruct N as [|N]; [lia|].
    eapply reads_eq; [|done|done|apply app_nil_r|done|done].
    cbn [wire_inline fmt table_typed]. unfold vector_header. rewrite <- app_assoc.
    eapply reads_then; [apply reads_u64; lia|]. eapply reads_then; [by apply reads_u64|]. cbn [negb Z.eqb].
    eapply reads_lift; [apply umul_ok; lia|].
    cbn [wire_ool fmt table_typed]. unfold chunk. rewrite <- app_assoc, zlen_table_inline.
    apply reads_ool_any; [apply zlen_table_inline|]. intros d ib ob io hb Hi Ho Hio Hh Hb. exists [].
    eapply yields_need; [eapply yields_then with (n2 := O)|apply Nat.max_0_r].
    + apply (reads_table_members ms v v0 _ _ _ _ _ _ N); try done.
      apply Forall_forall. intros m Hm. pose proof (members_nest_le ms (members_nest ms) m ltac:(lia) Hm). lia.
    + done.
    + by apply yields_done.
Qed.
End tables.
