(* ===== verification/FidlUnion.v ===== *)
(** Unions and extensible unions of FIDL write and read their formats ([fidl_union!] and
    [fidl_xunion!] of [encoding.rs]), the payload of an unknown variant included. *)

From S2P Require Import Prelude Std FidlCore FidlTypes FidlAggregates FidlLogic FidlFormat FidlLaws FidlStruct FidlTable.

(** * The variants *)
Abbreviation tvariants ms := (variants (codes ms)).

Fixpoint variant_valid (ms : list TMember) : tvariants ms → Prop :=
  match ms with
  | [] => λ _, False
  | m :: ms => λ v, match v with inl x => valid (fmt (snd m)) x | inr v => variant_valid ms v end
  end.
Fixpoint variant_inline (ms : list TMember) : tvariants ms → list Z :=
  match ms with
  | [] => λ _, []
  | m :: ms => λ v, match v with inl x => wire_inline (fmt (snd m)) x | inr v => variant_inline ms v end
  end.
Fixpoint variant_ool (ms : list TMember) : tvariants ms → list Z :=
  match ms with
  | [] => λ _, []
  | m :: ms => λ v, match v with inl x => wire_ool (fmt (snd m)) x | inr v => variant_ool ms v end
  end.
Fixpoint variant_handles (ms : list TMember) : tvariants ms → list Z :=
  match ms with
  | [] => λ _, []
  | m :: ms => λ v, match v with inl x => wire_handles (fmt (snd m)) x | inr v => variant_handles ms v end
  end.
Fixpoint variant_spent (ms : list TMember) : tvariants ms → tvariants ms :=
  match ms with
  | [] => λ v, v
  | m :: ms => λ v,
      match v with inl x => inl (spent (fmt (snd m)) x) | inr v => inr (variant_spent ms v) end
  end.
Fixpoint variant_edepth (ms : list TMember) : tvariants ms → nat :=
  match ms with
  | [] => λ _, O
  | m :: ms => λ v, match v with inl x => edepth (fmt (snd m)) x | inr v => variant_edepth ms v end
  end.
Fixpoint variant_ddepth (ms : list TMember) : tvariants ms → nat :=
  match ms with
  | [] => λ _, O
  | m :: ms => λ v, match v with inl x => ddepth (fmt (snd m)) x | inr v => variant_ddepth ms v end
  end.
(** The offset and the size of the variant. *)
Fixpoint variant_offset (ms : list TMember) : tvariants ms → Z :=
  match ms with
  | [] => λ _, 0
  | m :: ms => λ v, match v with inl _ => fst m | inr v => variant_offset ms v end
  end.
Fixpoint variant_size (ms : list TMember) : tvariants ms → Z :=
  match ms with
  | [] => λ _, 0
  | m :: ms => λ v, match v with inl _ => ty_size (snd m) | inr v => variant_size ms v end
  end.

Lemma variant_ool_aligned ms v : lawful_members ms → variant_valid ms v → (8 | zlen (variant_ool ms v)).
Proof.
  intros Hl. revert v. induction Hl as [|m ms Lm Hl IH]; intros v; [done|].
  destruct v as [x|v]; cbn [variant_ool variant_valid]; [apply (law_ool _ Lm)|apply IH].
Qed.
Lemma zlen_variant_inline ms v : lawful_members ms → variant_valid ms v →
  zlen (variant_inline ms v) = variant_size ms v.
Proof.
  intros Hl. revert v. induction Hl as [|m ms Lm Hl IH]; intros v; [done|].
  destruct v as [x|v]; cbn [variant_inline variant_valid variant_size]; [apply (law_length _ Lm)|apply IH].
Qed.

(** * Unions *)
Section unions.
Context `{BO : !ByteOrder}.

Definition union_body (ms : list TMember) (size : Z) (v : tvariants ms) : list Z :=
  zeros (variant_offset ms v - 4) ++ variant_inline ms v
  ++ zeros (size - (variant_size ms v + variant_offset ms v)).
Definition union_typed (ms : list TMember) (size align : Z) : Typed := {|
  code := union_codable (codes ms) size align;
  fmt := {|
    valid := variant_valid ms;
    wire_inline v := write_int 4 (member_index (codes ms) 0 v) ++ union_body ms size v;
    wire_ool := variant_ool ms;
    wire_handles := variant_handles ms;
    spent := variant_spent ms;
    edepth v := S (variant_edepth ms v);
    ddepth v := S (variant_ddepth ms v);
    nest := members_nest ms
  |}
|}.

(** Every variant is after the tag and within the size. *)
Definition union_layout (ms : list TMember) (size : Z) : Prop :=
  Forall (λ m : TMember, 4 ≤ fst m ∧ ty_size (snd m) + fst m ≤ size) ms.

Lemma member_index_bound ms index v :
  index ≤ member_index (codes ms) index v < index + zlen ms.
Proof.
  revert index. induction ms as [|m ms IH]; intros index; [done|].
  rewrite zlen_cons. pose proof (zlen_nonneg ms). destruct v as [x|v]; cbn [codes map member_index]; [lia|].
  specialize (IH v (index + 1)). unfold codes in IH. lia.
Qed.
Lemma variant_layout ms size v : lawful_members ms → union_layout ms size → variant_valid ms v →
  4 ≤ variant_offset ms v ∧ 0 ≤ variant_size ms v ∧ variant_size ms v + variant_offset ms v ≤ size.
Proof.
  intros Hl. revert v. induction Hl as [|m ms Lm Hl IH]; intros v Hu; [done|].
  apply Forall_cons in Hu as [Hm Hu]. pose proof (law_size _ Lm).
  destruct v as [x|v]; cbn [variant_offset variant_size variant_valid]; [lia|by apply IH].
Qed.

Context `{BOS : !ByteOrderSpec, BOZ : !ZeroBytes}.

Lemma writes_variant ms size v : lawful_members ms → union_layout ms size → size < 2 ^ 32 → variant_valid ms v →
  writes (encode_variant (codes ms) size v) (variant_edepth ms v) (variant_spent ms v)
    (union_body ms size v) (variant_ool ms v) (variant_handles ms v).
Proof.
  intros Hl Hu Hs. revert v. induction Hl as [|[o t] ms Lm Hl IH]; intros v Hv; [done|].
  change (codes ((o, t) :: ms)) with ((o, code t) :: codes ms). cbn [encode_variant].
  destruct v as [x|v].
  - apply Forall_cons in Hu as [[Ho Hfit] _]. cbn [fst snd variant_valid] in *. pose proof (law_size _ Lm).
    unfold union_body. cbn [variant_offset variant_inline variant_size fst snd]. unfold ty_size in *. cbn [snd] in *.
    eapply writes_lift; [by apply usub_ok|]. eapply writes_then; [apply writes_padding; lia|].
    eapply writes_eq; [eapply writes_bind; [by apply (law_ool _ Lm)|by apply (law_encode _ Lm)|]|
      apply Nat.max_0_r|done|done|apply app_nil_r|apply app_nil_r].
    eapply writes_lift; [apply uadd_ok; lia|]. eapply writes_lift; [by apply usub_ok|].
    eapply writes_done; [by exists 0|apply writes_padding; lia|apply writes_ret].
  - apply Forall_cons in Hu as [_ Hu]. eapply writes_done; [by apply (variant_ool_aligned ms v)|by apply IH|apply writes_ret].
Qed.
Lemma reads_variant ms size index v self N : lawful_members ms → union_layout ms size → size < 2 ^ 32 →
  variant_valid ms v → (members_nest ms ≤ N)%nat →
  reads (decode_variant (codes ms) size index (member_index (codes ms) index v) self) (variant_ddepth ms v) N v
    (union_body ms size v) (variant_ool ms v) (variant_handles ms v).
Proof.
  intros Hl Hu Hs. revert index v self. induction Hl as [|[o t] ms Lm Hl IH]; intros index v self Hv HN; [done|].
  apply Forall_cons in Hu as [[Ho Hfit] Hu]. cbn [fst snd] in *.
  assert (members_nest ms ≤ N)%nat as HN' by (unfold members_nest in *; cbn in HN; lia).
  assert (nest (fmt t) ≤ N)%nat as Hn by (unfold members_nest in *; cbn in HN; lia).
  change (codes ((o, t) :: ms)) with ((o, code t) :: codes ms). cbn [decode_variant member_index].
  destruct v as [x|v].
  - rewrite Z.eqb_refl. pose proof (law_size _ Lm). destruct (law_empty _ Lm) as [e He]. cbn [snd] in *.
    unfold union_body. cbn [variant_offset variant_inline variant_size fst snd]. unfold ty_size in *.
    eapply reads_lift; [by apply usub_ok|]. eapply reads_then; [apply reads_slice, zlen_zeros; lia|].
    eapply reads_then with (i1 := []) (a := match self with Some (inl val) => val | _ => e end).
    { destruct self as [[?|?]|]; try (rewrite He); apply reads_ret. }
    eapply reads_eq; [eapply reads_bind; [by apply (law_decode _ Lm)|]|
      apply Nat.max_0_r|done|done|apply app_nil_r|apply app_nil_r].
    eapply reads_lift; [apply uadd_ok; lia|]. eapply reads_lift; [by apply usub_ok|].
    eapply reads_done; [apply reads_slice, zlen_zeros; lia|apply reads_ret].
  - pose proof (member_index_bound ms (index + 1) v). rewrite (proj2 (Z.eqb_neq index _)) by lia.
    eapply reads_done; [by apply IH|apply reads_ret].
Qed.

Lemma union_lawful ms size align : lawful_members ms → ms ≠ [] → zlen ms < 2 ^ 32 → union_layout ms size →
  0 ≤ size < 2 ^ 32 → 0 ≤ align < 2 ^ 32 → lawful (union_typed ms size align).
Proof.
  intros Hl Hne Hn Hu Hs Ha. split; try done.
  - destruct ms as [|[o t] ms]; [done|]. apply Forall_cons in Hl as [Lm _].
    destruct (law_empty _ Lm) as [x Hx]. cbn [snd] in Hx. cbn. rewrite Hx. by eexists.
  - intros v Hv. cbn [fmt union_typed wire_inline]. unfold union_body.
    destruct (variant_layout ms size v) as (H1&H2&H3); [done..|].
    rewrite !zlen_app, write_int_length, !zlen_zeros, zlen_variant_inline by (done || lia). unfold ty_size. cbn. lia.
  - intros v Hv. by apply variant_ool_aligned.
  - intros v Hv. eapply writes_then; [apply writes_u32|]. apply writes_recurse. apply writes_variant; done || lia.
  - intros v v0 N Hv HN. pose proof (member_index_bound ms 0 v).
    eapply reads_then; [apply reads_u32; lia|]. apply reads_recurse. apply reads_variant; done || lia.
Qed.
End unions.

(** * Extensible unions *)
Lemma reads_bounded {A} (m : M Error Decoder A) n nest a i o h :
  (zlen o < 2 ^ 32 → zlen h < 2 ^ 32 → reads m n nest a i o h) → reads m n nest a i o h.
Proof.
  intros H d b ib ob io hb Hi Ho Hio Hh Hn. pose proof (zlen_nonneg ob). pose proof (zlen_nonneg hb).
  apply H; lia.
Qed.

Lemma writes_bounded {A} (m : M Error Encoder A) n a i o h :
  (zlen o < 2 ^ 32 → zlen h < 2 ^ 32 → writes m n a i o h) → writes m n a i o h.
Proof.
  intros H d pre post hs H8 Hb Hh. pose proof (zlen_nonneg pre). pose proof (zlen_nonneg post).
  pose proof (zlen_nonneg i). pose proof (zlen_nonneg hs). apply H; lia || done.
Qed.

Section xunions.
Context `{BO : !ByteOrder}.

(** An unknown variant as it is received: of another ordinal, its bytes padded. *)
Definition unknown_valid (ms : list TMember) (u : UnknownVariant) : Prop :=
  (u_ordinal u ∉ map fst ms) ∧ 0 ≤ u_ordinal u < 2 ^ 32 ∧ (8 | zlen (u_bytes u)).
Definition xunion_ool (ms : list TMember) (v : xvariants (codes ms)) : list Z :=
  match v with
  | inl v => chunk (variant_inline ms v) ++ variant_ool ms v
  | inr u => u_bytes u
  end.
Definition xunion_handles (ms : list TMember) (v : xvariants (codes ms)) : list Z :=
  match v with inl v => variant_handles ms v | inr u => u_handles u end.
Definition xunion_typed (ms : list TMember) : Typed := {|
  code := xunion_codable (codes ms);
  fmt := {|
    valid v := match v with inl v => variant_valid ms v | inr u => unknown_valid ms u end;
    wire_inline v := write_int 4 (ordinal (codes ms) v) ++ write_int 4 0
      ++ env_header (zlen (xunion_ool ms v)) (zlen (xunion_handles ms v)) ALLOC_PRESENT_U64;
    wire_ool := xunion_ool ms;
    wire_handles := xunion_handles ms;
    spent v :=
      match v with
      | inl v => inl (variant_spent ms v)
      | inr u => inr {| u_ordinal := u_ordinal u; u_bytes := u_bytes u;
                        u_handles := map (λ _, invalid_handle) (u_handles u) |}
      end;
    edepth v := S (match v with inl v => variant_edepth ms v | inr _ => O end);
    ddepth v := S (match v with inl v => variant_ddepth ms v | inr _ => O end);
    nest := S (members_nest ms)
  |}
|}.

(** The ordinals are distinct 32-bit numbers. *)
Definition xunion_ordinals (ms : list TMember) : Prop :=
  NoDup (map fst ms) ∧ Forall (λ m : TMember, 0 ≤ fst m < 2 ^ 32) ms.

Lemma variant_ordinal_in ms v : variant_ordinal (codes ms) v ∈ map fst ms.
Proof.
  induction ms as [|m ms IH]; [done|]. cbn [map]. destruct v as [x|v]; [left|right; apply IH].
Qed.
Lemma xunion_ool_aligned ms v : lawful_members ms → valid (fmt (xunion_typed ms)) v →
  (8 | zlen (xunion_ool ms v)).
Proof.
  intros Hl. destruct v as [v|u]; cbn [valid fmt xunion_typed xunion_ool]; [|by intros (_&_&?)].
  intros Hv. rewrite zlen_app. apply Z.divide_add_r; [apply chunk_aligned|by apply variant_ool_aligned].
Qed.
(** The ordinal on the wire chooses the variant. *)
Lemma member_inline_size_known ms v nb : NoDup (map fst ms) →
  member_inline_size (codes ms) (variant_ordinal (codes ms) v) nb = variant_size ms v.
Proof.
  induction ms as [|[o t] ms IH]; [done|]. cbn [map fst]. intros [Hni Hnd]%NoDup_cons.
  change (codes ((o, t) :: ms)) with ((o, code t) :: codes ms). cbn [member_inline_size variant_ordinal].
  destruct v as [x|v]; [by rewrite Z.eqb_refl|].
  rewrite (proj2 (Z.eqb_neq _ _)); [by apply IH|]. intros Heq. apply Hni. rewrite <- Heq. apply variant_ordinal_in.
Qed.
Lemma member_inline_size_unknown ms ord nb : ord ∉ map fst ms → member_inline_size (codes ms) ord nb = nb.
Proof.
  induction ms as [|[o t] ms IH]; [done|]. cbn [map fst]. intros [Hne Hni]%not_elem_of_cons.
  change (codes ((o, t) :: ms)) with ((o, code t) :: codes ms). cbn [member_inline_size].
  rewrite (proj2 (Z.eqb_neq _ _)) by done. by apply IH.
Qed.

Context `{BOS : !ByteOrderSpec, BOZ : !ZeroBytes}.

Lemma writes_xvariant ms v : lawful_members ms → variant_valid ms v →
  writes (encode_xvariant (codes ms) v) (variant_edepth ms v) (variant_spent ms v)
    (env_header (zlen (xunion_ool ms (inl v))) (zlen (variant_handles ms v)) ALLOC_PRESENT_U64)
    (xunion_ool ms (inl v)) (variant_handles ms v).
Proof.
  intros Hl. revert v. induction Hl as [|[o t] ms Lm Hl IH]; intros v Hv; [done|].
  change (codes ((o, t) :: ms)) with ((o, code t) :: codes ms). cbn [encode_xvariant].
  destruct v as [x|v].
  - eapply writes_done; [exact (env_ool_aligned t (Some x) Lm Hv)|exact (writes_envelope t (Some x) Lm Hv)|apply writes_ret].
  - eapply writes_done; [by apply (xunion_ool_aligned ms (inl v))|by apply IH|apply writes_ret].
Qed.
Lemma writes_append_bytes bs : writes (append_bytes bs) 0 tt [] bs [].
Proof.
  intros d pre post hs H8 Hb _. apply yields_done. rewrite zlen_nil, Z.add_0_r in *.
  pose proof (zlen_nonneg bs). pose proof (zlen_nonneg pre). pose proof (zlen_nonneg post).
  unfold append_bytes. rewrite bind_get_store. cbn [est e_buf app].
  change (zeros 0) with (@nil Z). cbn [app]. rewrite zlen_app.
  erewrite bind_lift by (apply round_up_to_align_ok; lia). rewrite round_up_divide by (done || lia).
  rewrite <- zlen_app, <- (Z.add_0_r (zlen (pre ++ post))), vec_resize_more by lia.
  unfold set_enc_buf, est. cbn [e_offset e_remaining_depth e_handles]. by rewrite !app_nil_r, <- app_assoc.
Qed.
Lemma writes_append_handles hs : writes (append_handles hs) 0 (map (λ _, invalid_handle) hs) [] [] hs.
Proof.
  induction hs as [|h hs IH]; [apply writes_ret|]. cbn [append_handles take_handle map]. apply writes_assoc.
  eapply (writes_bind _ _ 0 0 tt _ [] [] [] [] [h] hs); [by exists 0|apply writes_push|].
  eapply writes_done; [by exists 0|exact IH|apply writes_ret].
Qed.
Lemma writes_unknown ms u : unknown_valid ms u → zlen (u_bytes u) < 2 ^ 32 → zlen (u_handles u) < 2 ^ 32 →
  writes (encode_unknown u) 0 {| u_ordinal := u_ordinal u; u_bytes := u_bytes u;
                                 u_handles := map (λ _, invalid_handle) (u_handles u) |}
    (env_header (zlen (u_bytes u)) (zlen (u_handles u)) ALLOC_PRESENT_U64) (u_bytes u) (u_handles u).
Proof.
  intros (_&_&H8) Hb Hh. pose proof (zlen_nonneg (u_bytes u)). pose proof (zlen_nonneg (u_handles u)).
  unfold encode_unknown, env_header. rewrite !Z.mod_small by lia.
  eapply writes_then; [apply writes_u32|]. eapply writes_then; [apply writes_u32|].
  eapply writes_eq; [eapply writes_then; [apply writes_u64|]|done|done|apply app_nil_r|done|done].
  eapply writes_eq; [eapply (writes_bind _ _ 0 0 tt _ [] [] _ [] [] _); [exact H8|apply writes_append_bytes|]|
    done|done|done|apply app_nil_r|done].
  eapply writes_done; [by exists 0|apply writes_append_handles|apply writes_ret].
Qed.

Lemma reads_take_handles hs N : reads (take_handles (length hs)) 0 N hs [] [] hs.
Proof.
  induction hs as [|h hs IH]; [apply reads_ret|]. cbn [length take_handles].
  eapply (reads_bind _ _ 0 0 N h _ [] [] [] [] [h] hs); [apply reads_handle|].
  eapply reads_done; [exact IH|apply reads_ret].
Qed.
Lemma reads_xvariant ms v nb nh self N : lawful_members ms → NoDup (map fst ms) → variant_valid ms v →
  (members_nest ms ≤ N)%nat →
  reads (decode_xvariant (codes ms) (variant_ordinal (codes ms) v) nb nh self) (variant_ddepth ms v) N (inl v)
    (variant_inline ms v) (variant_ool ms v) (variant_handles ms v).
Proof.
  intros Hl. revert v self. induction Hl as [|[o t] ms Lm Hl IH]; intros v self Hnd Hv HN; [done|].
  apply NoDup_cons in Hnd as [Hni Hnd]. cbn [fst] in Hni.
  assert (members_nest ms ≤ N)%nat as HN' by (unfold members_nest in *; cbn in HN; lia).
  assert (nest (fmt t) ≤ N)%nat as Hn by (unfold members_nest in *; cbn in HN; lia).
  change (codes ((o, t) :: ms)) with ((o, code t) :: codes ms). cbn [decode_xvariant variant_ordinal].
  destruct v as [x|v].
  - rewrite Z.eqb_refl. destruct (law_empty _ Lm) as [e He]. cbn [snd] in *.
    eapply reads_then with (i1 := []) (a := match self with Some (inl val) => val | _ => e end).
    { destruct self as [[?|?]|]; try (rewrite He); apply reads_ret. }
    eapply reads_done; [by apply (law_decode _ Lm)|apply reads_ret].
  - rewrite (proj2 (Z.eqb_neq _ _)) by (intros Heq; apply Hni; rewrite <- Heq; apply variant_ordinal_in).
    eapply reads_done; [by apply IH|apply reads_ret].
Qed.
Lemma reads_unknown ms u self N : u_ordinal u ∉ map fst ms →
  reads (decode_xvariant (codes ms) (u_ordinal u) (zlen (u_bytes u)) (zlen (u_handles u)) self) 0 N (inr u)
    (u_bytes u) [] (u_handles u).
Proof.
  revert self. induction ms as [|[o t] ms IH]; intros self Hni.
  - cbn [codes map decode_xvariant]. unfold decode_unknown. destruct u as [ord bs hs]. cbn [u_bytes u_handles u_ordinal].
    eapply reads_done; [|apply reads_ret]. eapply reads_eq; [eapply (reads_bind _ _ 0 0 N bs _ bs [] [] [] [] hs);
      [by apply reads_slice|]|done|done|apply app_nil_r|done|done].
    replace (Z.to_nat (zlen hs)) with (length hs) by (unfold zlen; lia).
    eapply reads_done; [apply reads_take_handles|apply reads_ret].
  - cbn [map fst] in Hni. apply not_elem_of_cons in Hni as [Hne Hni].
    change (codes ((o, t) :: ms)) with ((o, code t) :: codes ms). cbn [decode_xvariant].
    rewrite (proj2 (Z.eqb_neq _ _)) by done. eapply reads_done; [by apply IH|apply reads_ret].
Qed.

Lemma ordinal_bound ms v : xunion_ordinals ms → valid (fmt (xunion_typed ms)) v →
  0 ≤ ordinal (codes ms) v < 2 ^ 32.
Proof.
  intros [_ Hf]. destruct v as [v|u]; [|by intros (_&?&_)]. intros _. cbn [ordinal].
  pose proof (variant_ordinal_in ms v) as Hin. apply list_elem_of_In, in_map_iff in Hin as (m&<-&Hin).
  rewrite Forall_forall in Hf. by apply Hf, list_elem_of_In.
Qed.
(** The payload: out of line, one level deeper. *)
Lemma reads_payload ms v self N : lawful_members ms → xunion_ordinals ms → valid (fmt (xunion_typed ms)) v →
  (members_nest ms ≤ N)%nat →
  reads (read_out_of_line (member_inline_size (codes ms) (ordinal (codes ms) v) (zlen (xunion_ool ms v)))
      (dec_recurse (decode_xvariant (codes ms) (ordinal (codes ms) v)
        (zlen (xunion_ool ms v)) (zlen (xunion_handles ms v)) self)))
    (ddepth (fmt (xunion_typed ms)) v) (S N) v [] (xunion_ool ms v) (xunion_handles ms v).
Proof.
  intros Hl [Hnd _] Hv HN. destruct v as [v|u]; cbn [ordinal valid fmt xunion_typed ddepth xunion_handles] in *.
  - rewrite member_inline_size_known by done. cbn [xunion_ool]. unfold chunk at 2.
    rewrite <- app_assoc, zlen_variant_inline by done. apply reads_ool; [by apply zlen_variant_inline|].
    apply reads_recurse. by apply reads_xvariant.
  - destruct Hv as (Hni&Ho&H8). rewrite member_inline_size_unknown by done. cbn [xunion_ool].
    eapply reads_eq; [apply (reads_ool _ _ _ _ (inr u) (u_bytes u) [] (u_handles u)); [done|]|..]; try done.
    + apply reads_recurse. by apply reads_unknown.
    + unfold pad8. rewrite round_up_divide, Z.sub_diag by (done || apply zlen_nonneg). apply app_nil_r.
Qed.
Lemma xunion_lawful ms : lawful_members ms → xunion_ordinals ms → lawful (xunion_typed ms).
Proof.
  intros Hl Hord. split; try done.
  - destruct ms as [|[o t] ms]; [by eexists|]. apply Forall_cons in Hl as [Lm _].
    destruct (law_empty _ Lm) as [x Hx]. cbn [snd] in Hx. cbn. rewrite Hx. by eexists.
  - intros v Hv. cbn [wire_inline fmt xunion_typed]. by rewrite !zlen_app, zlen_env_header, !write_int_length.
  - intros v Hv. by apply xunion_ool_aligned.
  - intros v Hv. apply writes_bounded. intros Hb Hh.
    eapply writes_then; [apply writes_u32|]. eapply writes_then; [apply writes_u32|]. apply writes_recurse.
    destruct v as [v|u].
    + eapply writes_done; [by apply (xunion_ool_aligned ms (inl v))|by apply writes_xvariant|apply writes_ret].
    + eapply writes_done; [by apply (xunion_ool_aligned ms (inr u))|by apply (writes_unknown ms)|apply writes_ret].
  - intros v v0 N Hv HN. apply reads_bounded. intros Hb Hh. cbn [nest fmt xunion_typed] in HN.
    destruct N as [|N]; [lia|]. cbn [wire_ool wire_handles fmt xunion_typed] in *.
    pose proof (ordinal_bound ms v Hord Hv). pose proof (zlen_nonneg (xunion_ool ms v)).
    pose proof (zlen_nonneg (xunion_handles ms v)). cbn [wire_inline]. unfold env_header.
    eapply reads_then; [by apply reads_u32|]. eapply reads_then; [by apply reads_u32|].
    eapply reads_then; [apply reads_u32; lia|]. eapply reads_then; [apply reads_u32; lia|].
    rewrite <- (app_nil_r (write_int 8 _)). eapply reads_then; [by apply reads_u64|].
    cbn [negb Z.eqb]. apply reads_payload; done || lia.
Qed.
End xunions.
