(* ===== verification/FidlUniverse.v ===== *)
(** All the types FIDL encodes, as one data type: the types the bindings of a protocol
    are made of.  [denote] gives the code of a type with its format; every
    well-formed type is lawful. *)

From stdpp Require Import vector.
From S2P Require Import Prelude Std FidlCore FidlTypes FidlAggregates FidlLogic FidlFormat FidlLaws FidlStruct FidlTable FidlUnion.

Unset Elimination Schemes.
Inductive ftype :=
| TPrim (p : Prim)
| TBool
| TString
| TOptString
| THandle
| TOptHandle
| TTypedHandle
| TOptTypedHandle
| TEnum (p : Prim) (values : list Z)
| TBits (p : Prim) (from_bits : Z → option Z) (empty_bits : Z)
| TEmptyStruct
| TUnit
| TVec (t : ftype)
| TOptVec (t : ftype)
| TArray (t : ftype) (n : nat)
| TBox (t : ftype)
| TOption (t : ftype)
| TResult (o e : ftype)
| TStruct (ms : list (Z * ftype)) (size align : Z)
| TTuple (t : ftype) (ms : list (Z * ftype))
| TTable (ms : list (Z * ftype))
| TUnion (ms : list (Z * ftype)) (size align : Z)
| TXUnion (ms : list (Z * ftype)).
Set Elimination Schemes.

Section induction.
Context (P : ftype → Prop).
Context (Hprim : ∀ p, P (TPrim p)) (Hbool : P TBool) (Hstring : P TString) (Hostring : P TOptString)
  (Hhandle : P THandle) (Hohandle : P TOptHandle) (Hthandle : P TTypedHandle) (Hothandle : P TOptTypedHandle)
  (Henum : ∀ p values, P (TEnum p values)) (Hbits : ∀ p f e, P (TBits p f e))
  (Hestruct : P TEmptyStruct) (Hunit : P TUnit)
  (Hvec : ∀ t, P t → P (TVec t)) (Hovec : ∀ t, P t → P (TOptVec t)) (Harray : ∀ t n, P t → P (TArray t n))
  (Hbox : ∀ t, P t → P (TBox t)) (Hoption : ∀ t, P t → P (TOption t))
  (Hresult : ∀ o e, P o → P e → P (TResult o e))
  (Hstruct : ∀ ms size align, Forall (λ m, P (snd m)) ms → P (TStruct ms size align))
  (Htuple : ∀ t ms, P t → Forall (λ m, P (snd m)) ms → P (TTuple t ms))
  (Htable : ∀ ms, Forall (λ m, P (snd m)) ms → P (TTable ms))
  (Hunion : ∀ ms size align, Forall (λ m, P (snd m)) ms → P (TUnion ms size align))
  (Hxunion : ∀ ms, Forall (λ m, P (snd m)) ms → P (TXUnion ms)).

Fixpoint ftype_members_ind (t : ftype) : P t :=
  let members := fix members (ms : list (Z * ftype)) : Forall (λ m, P (snd m)) ms :=
    match ms with
    | [] => Forall_nil_2 _
    | m :: ms => Forall_cons_2 _ m ms (ftype_members_ind (snd m)) (members ms)
    end in
  match t with
  | TPrim p => Hprim p
  | TBool => Hbool
  | TString => Hstring
  | TOptString => Hostring
  | THandle => Hhandle
  | TOptHandle => Hohandle
  | TTypedHandle => Hthandle
  | TOptTypedHandle => Hothandle
  | TEnum p values => Henum p values
  | TBits p f e => Hbits p f e
  | TEmptyStruct => Hestruct
  | TUnit => Hunit
  | TVec t => Hvec t (ftype_members_ind t)
  | TOptVec t => Hovec t (ftype_members_ind t)
  | TArray t n => Harray t n (ftype_members_ind t)
  | TBox t => Hbox t (ftype_members_ind t)
  | TOption t => Hoption t (ftype_members_ind t)
  | TResult o e => Hresult o e (ftype_members_ind o) (ftype_members_ind e)
  | TStruct ms size align => Hstruct ms size align (members ms)
  | TTuple t ms => Htuple t ms (ftype_members_ind t) (members ms)
  | TTable ms => Htable ms (members ms)
  | TUnion ms size align => Hunion ms size align (members ms)
  | TXUnion ms => Hxunion ms (members ms)
  end.
End induction.

Section universe.
Context `{BO : !ByteOrder}.

Fixpoint denote (t : ftype) : Typed :=
  let members := map (λ m : Z * ftype, (fst m, denote (snd m))) in
  match t with
  | TPrim p => prim_typed p
  | TBool => bool_typed
  | TString => string_typed
  | TOptString => opt_string_typed
  | THandle => handle_typed
  | TOptHandle => opt_handle_typed
  | TTypedHandle => handle_based_typed
  | TOptTypedHandle => opt_handle_based_typed
  | TEnum p values => enum_typed p values
  | TBits p f e => bits_typed p f e
  | TEmptyStruct => empty_struct_typed
  | TUnit => unit_typed
  | TVec t => vec_typed (denote t)
  | TOptVec t => opt_vec_typed (denote t)
  | TArray t n => array_typed (denote t) n
  | TBox t => box_typed (denote t)
  | TOption t => option_typed (denote t)
  | TResult o e => result_typed (denote o) (denote e)
  | TStruct ms size align => struct_typed (members ms) size align
  | TTuple t ms => tuple_typed (denote t) (members ms)
  | TTable ms => table_typed (members ms)
  | TUnion ms size align => union_typed (members ms) size align
  | TXUnion ms => xunion_typed (members ms)
  end.
Definition denote_members (ms : list (Z * ftype)) : list TMember :=
  map (λ m, (fst m, denote (snd m))) ms.

(** The containers, of which [Option] marks absence by zeros. *)
Definition is_container (t : ftype) : bool :=
  match t with TBox _ | TTable _ | TXUnion _ => true | _ => false end.

(** The types the theorems are about: primitives of at most eight bytes, members that
    follow each other within the size, variants after the tag, ordinals of an extensible
    union that are distinct, and sizes that fit in a message.  Two conditions exclude types
    that the bindings have and that the code does not handle: the ordinals of a table are 1, 2, 3
    and so on without a gap ([FidlClaims.table_gap_rejected]), and the size of a [Result]
    has room for its values, which it lacks when the size of a value is not a multiple of
    its alignment ([FidlClaims.tuple_result_rejected]). *)
Fixpoint well_formed (t : ftype) : Prop :=
  let all := foldr (λ (m : Z * ftype) P, well_formed (snd m) ∧ P) True in
  match t with
  | TPrim p | TBits p _ _ => prim_ok p
  | TEnum p values => prim_ok p ∧ values ≠ []
  | TBool | TString | TOptString | THandle | TOptHandle | TTypedHandle | TOptTypedHandle
  | TEmptyStruct | TUnit => True
  | TVec t | TOptVec t | TBox t => well_formed t
  | TArray t n => well_formed t ∧ (0 < n)%nat ∧ ty_size (denote t) * Z.of_nat n < 2 ^ 32
  | TOption t => well_formed t ∧ is_container t = true
  | TResult o e => well_formed o ∧ well_formed e ∧ result_fits (denote o) (denote e)
  | TStruct ms size align =>
      all ms ∧ layout_ok struct_offset (denote_members ms) 0
      ∧ fields_end struct_offset (denote_members ms) 0 ≤ size < 2 ^ 32 ∧ 0 ≤ align < 2 ^ 32
  | TTuple t ms =>
      well_formed t ∧ all ms ∧ layout_ok tuple_offset (denote_members ms) (ty_size (denote t))
      ∧ fields_end tuple_offset (denote_members ms) (ty_size (denote t)) < 2 ^ 32
  | TTable ms => all ms ∧ consecutive 1 (denote_members ms) ∧ zlen ms < 2 ^ 32
  | TUnion ms size align =>
      all ms ∧ ms ≠ [] ∧ zlen ms < 2 ^ 32 ∧ union_layout (denote_members ms) size
      ∧ 0 ≤ size < 2 ^ 32 ∧ 0 ≤ align < 2 ^ 32
  | TXUnion ms => all ms ∧ xunion_ordinals (denote_members ms)
  end.

(** A test that finds a type well-formed. *)
Definition in_range (x : Z) : bool := (0 <=? x) && (x <? 2 ^ 32).
Definition prim_test (p : Prim) : bool := match p with PByte _ => true | PNum n _ => (1 <? n) && (n <=? 8) end.
Fixpoint layout_test (off : Z → TMember → Z) (ms : list TMember) (cur : Z) : bool :=
  match ms with
  | [] => true
  | m :: ms => (cur <=? off cur m) && (off cur m <? 2 ^ 32) && layout_test off ms (off cur m + ty_size (snd m))
  end.
Fixpoint consecutive_test (next : Z) (ms : list (Z * ftype)) : bool :=
  match ms with
  | [] => true
  | m :: ms => (fst m =? next) && consecutive_test (next + 1) ms
  end.
Fixpoint type_test (t : ftype) : bool :=
  let all := forallb (λ m : Z * ftype, type_test (snd m)) in
  match t with
  | TPrim p | TBits p _ _ => prim_test p
  | TEnum p values => prim_test p && negb (length values =? 0)%nat
  | TBool | TString | TOptString | THandle | TOptHandle | TTypedHandle | TOptTypedHandle
  | TEmptyStruct | TUnit => true
  | TVec t | TOptVec t | TBox t => type_test t
  | TArray t n => type_test t && (0 <? n)%nat && (ty_size (denote t) * Z.of_nat n <? 2 ^ 32)
  | TOption t => type_test t && is_container t
  | TResult o e =>
      type_test o && type_test e
      && (result_align (code (denote o)) + Z.max (ty_size (denote o)) (ty_size (denote e))
          <=? result_size (code (denote o)) (code (denote e)))
      && (result_size (code (denote o)) (code (denote e)) <? 2 ^ 32)
  | TStruct ms size align =>
      all ms && layout_test struct_offset (denote_members ms) 0
      && (fields_end struct_offset (denote_members ms) 0 <=? size) && (size <? 2 ^ 32) && in_range align
  | TTuple t ms =>
      type_test t && all ms && layout_test tuple_offset (denote_members ms) (ty_size (denote t))
      && (fields_end tuple_offset (denote_members ms) (ty_size (denote t)) <? 2 ^ 32)
  | TTable ms => all ms && consecutive_test 1 ms && (zlen ms <? 2 ^ 32)
  | TUnion ms size align =>
      all ms && negb (length ms =? 0)%nat && (zlen ms <? 2 ^ 32)
      && forallb (λ m : Z * ftype, (4 <=? fst m) && (ty_size (denote (snd m)) + fst m <=? size)) ms
      && in_range size && in_range align
  | TXUnion ms => all ms && bool_decide (NoDup (map fst ms)) && forallb (λ m : Z * ftype, in_range (fst m)) ms
  end.

Lemma in_range_ok x : in_range x = true → 0 ≤ x < 2 ^ 32.
Proof. unfold in_range. intros H. to_props. lia. Qed.
Lemma prim_test_ok p : prim_test p = true → prim_ok p.
Proof. destruct p; cbn [prim_test prim_ok]; [done|]. intros H. to_props. lia. Qed.
Lemma layout_test_ok off ms cur : layout_test off ms cur = true → layout_ok off ms cur.
Proof.
  revert cur. induction ms as [|m ms IH]; intros cur; cbn [layout_test layout_ok]; [done|].
  intros H. to_props. split; [lia|by apply IH].
Qed.
Lemma consecutive_test_ok next ms : consecutive_test next ms = true → consecutive next (denote_members ms).
Proof.
  revert next. induction ms as [|m ms IH]; intros next; cbn [consecutive_test denote_members map consecutive]; [done|].
  intros H. to_props. split; [done|by apply IH].
Qed.
Lemma members_test_ok ms : Forall (λ m : Z * ftype, type_test (snd m) = true → well_formed (snd m)) ms →
  forallb (λ m : Z * ftype, type_test (snd m)) ms = true →
  foldr (λ (m : Z * ftype) P, well_formed (snd m) ∧ P) True ms.
Proof.
  induction 1 as [|m ms Hm Hms IH]; cbn [forallb foldr]; [done|]. intros H. to_props. split; auto.
Qed.
Lemma forallb_members (ms : list (Z * ftype)) (f : Z * ftype → bool) (P : TMember → Prop) :
  (∀ m, f m = true → P (fst m, denote (snd m))) → forallb f ms = true → Forall P (denote_members ms).
Proof.
  intros HP. induction ms as [|m ms IH]; cbn [forallb denote_members map]; [by constructor|].
  intros H. to_props. constructor; [by apply HP|by apply IH].
Qed.
Lemma map_fst_denote ms : map fst (denote_members ms) = map fst ms.
Proof. unfold denote_members. by rewrite map_map. Qed.

Lemma type_test_ok t : type_test t = true → well_formed t.
Proof.
  induction t as [p| | | | | | | |p values|p f e| | |t IH|t IH|t n IH|t IH|t IH|o e IHo IHe
    |ms size align IH|t ms IH IHms|ms IH|ms size align IH|ms IH] using ftype_members_ind;
    cbn [well_formed type_test]; intros H; to_props; try done; try (by apply prim_test_ok); auto.
  - split; [by apply prim_test_ok|]. by destruct values.
  - match goal with H : (_ <? _)%nat = true |- _ => apply Nat.ltb_lt in H end. auto.
  - split_and!; auto. split; lia.
  - split_and!; try lia; [by apply members_test_ok|by apply layout_test_ok|by apply in_range_ok..].
  - split_and!; try lia; [auto|by apply members_test_ok|by apply layout_test_ok].
  - split_and!; [by apply members_test_ok|by apply consecutive_test_ok|done].
  - split_and!; [by apply members_test_ok|by destruct ms|done| |by apply in_range_ok..].
    eapply forallb_members; [|done]. intros m Hm. cbn beta in Hm. to_props. cbn [fst snd]. lia.
  - split; [by apply members_test_ok|]. split; [rewrite map_fst_denote; by eapply bool_decide_eq_true_1|].
    eapply forallb_members; [|done]. intros m Hm. by apply in_range_ok.
Qed.

Context `{BOS : !ByteOrderSpec, BOZ : !ZeroBytes}.

(** * Containers have a byte that is not zero *)
Abbreviation nonzero bs := (existsb (λ byte : Z, negb (byte =? 0)) bs = true).
Lemma present_nonzero : nonzero (write_int 8 ALLOC_PRESENT_U64).
Proof.
  destruct (existsb _ _) eqn:E; [done|exfalso].
  assert (write_int 8 ALLOC_PRESENT_U64 = write_int 8 0) as Heq.
  { rewrite write_int_zero by done. apply list_eq. intros i.
    pose proof (write_int_length 8 ALLOC_PRESENT_U64 ltac:(lia)) as Hl. unfold zlen in Hl. unfold zeros.
    destruct (write_int 8 ALLOC_PRESENT_U64 !! i) as [b|] eqn:Hb.
    - rewrite lookup_replicate_2 by (apply lookup_lt_Some in Hb; lia). f_equal.
      destruct (Z.eqb_spec b 0) as [|Hne]; [done|]. exfalso.
      assert (existsb (λ byte : Z, negb (byte =? 0)) (write_int 8 ALLOC_PRESENT_U64) = true) as Ht; [|congruence].
      apply existsb_exists. exists b. split; [by eapply list_elem_of_In, list_elem_of_lookup_2|].
      by rewrite (proj2 (Z.eqb_neq _ _)).
    - symmetry. apply lookup_replicate_None. apply lookup_ge_None in Hb. lia. }
  apply (f_equal read_int) in Heq. rewrite !read_write_int in Heq by done. done.
Qed.
Lemma nonzero_app a b : nonzero a ∨ nonzero b → nonzero (a ++ b).
Proof. rewrite existsb_app. intros [->| ->]; [done|by rewrite orb_comm]. Qed.
Lemma container_nonzero t : is_container t = true → container (denote t).
Proof.
  destruct t; try done; intros _ v _; cbn [denote fmt wire_inline box_typed box_format table_typed xunion_typed].
  - apply present_nonzero.
  - unfold vector_header. apply nonzero_app. right. apply present_nonzero.
  - unfold env_header. repeat (apply nonzero_app; right). apply present_nonzero.
Qed.

Lemma denote_members_lawful ms :
  Forall (λ m : Z * ftype, well_formed (snd m) → lawful (denote (snd m))) ms →
  foldr (λ (m : Z * ftype) P, well_formed (snd m) ∧ P) True ms → lawful_members (denote_members ms).
Proof.
  induction 1 as [|m ms Hm Hms IH]; [constructor|]. intros [Hw Hws]. constructor; [by apply Hm|by apply IH].
Qed.
Lemma zlen_denote_members ms : zlen (denote_members ms) = zlen ms.
Proof. unfold zlen, denote_members. by rewrite length_map. Qed.

Lemma denote_lawful t : well_formed t → lawful (denote t).
Proof.
  induction t as [p| | | | | | | |p values|p f e| | |t IH|t IH|t n IH|t IH|t IH|o e IHo IHe
    |ms size align IH|t ms IH IHms|ms IH|ms size align IH|ms IH] using ftype_members_ind;
    cbn [well_formed denote]; try change (map _ ms) with (denote_members ms).
  - apply prim_lawful.
  - intros _. apply bool_lawful.
  - intros _. apply string_lawful.
  - intros _. apply opt_string_lawful.
  - intros _. apply handle_lawful.
  - intros _. apply opt_handle_lawful.
  - intros _. apply handle_based_lawful.
  - intros _. apply opt_handle_based_lawful.
  - intros [??]. by apply enum_lawful.
  - apply bits_lawful.
  - intros _. apply empty_struct_lawful.
  - intros _. apply unit_lawful.
  - intros Ht. by apply vec_lawful, IH.
  - intros Ht. by apply opt_vec_lawful, IH.
  - intros (?&?&?). by apply array_lawful; [apply IH|..].
  - intros Ht. by apply box_lawful, IH.
  - intros [? ?]. by apply option_lawful; [apply IH|apply container_nonzero].
  - intros (?&?&?). by apply result_lawful; [apply IHo|apply IHe|].
  - intros (?&?&?&?). by apply struct_lawful; [apply denote_members_lawful|..].
  - intros (?&?&?&?). by apply tuple_lawful; [apply IH|apply denote_members_lawful|..].
  - intros (?&?&?). by apply table_lawful; [apply denote_members_lawful|..|rewrite zlen_denote_members].
  - intros (?&?&?&?&?&?). apply union_lawful; try done; [by apply denote_members_lawful| |by rewrite zlen_denote_members].
    by destruct ms.
  - intros [? ?]. by apply xunion_lawful; [apply denote_members_lawful|].
Qed.
End universe.
