(* ===== verification/FidlSafety.v ===== *)
(** Decoding of bytes that nobody encoded: a decoder of [encoding.rs] returns a value
    or an error on every message, without a panic, as long as no length in the
    message overflows when it is multiplied by the size of the elements. *)

From stdpp Require Import vector.
From S2P Require Import Prelude Std FidlCore FidlTypes FidlAggregates FidlLogic FidlFormat FidlLaws FidlStruct FidlTable FidlUnion FidlUniverse.

Section safety.
Context `{BO : !ByteOrder, BOS : !ByteOrderSpec}.
(** The size of the largest element of a vector. *)
Context (K : Z).

(** * Lengths that do not overflow

    [word] is the integer at the start of the bytes.  No two words in a row are a
    length that overflows and the presence indicator. *)
Definition word (bs : list Z) : Z := read_int (take 8 bs).
Definition head_tame (bs : list Z) : bool :=
  (zlen bs <? 16) || negb (word (drop 8 bs) =? ALLOC_PRESENT_U64) || (word bs * K <? 2 ^ 64).
Fixpoint tame (bs : list Z) : bool :=
  match bs with
  | [] => true
  | _ :: rest => head_tame bs && tame rest
  end.

Lemma tame_suffix a b : tame (a ++ b) = true → tame b = true.
Proof. induction a as [|x a IH]; cbn [app tame]; [done|]. intros H. to_props. auto. Qed.
Lemma head_tame_app a b : head_tame (a ++ b) = true → head_tame a = true.
Proof.
  unfold head_tame, word. destruct (Z.ltb_spec (zlen a) 16) as [|Hl]; [done|].
  pose proof (zlen_nonneg b). rewrite zlen_app. rewrite (proj2 (Z.ltb_ge _ _)) by lia. unfold zlen in Hl.
  rewrite drop_app_le, !take_app_le by (rewrite ?length_drop; lia). done.
Qed.
Lemma tame_prefix a b : tame (a ++ b) = true → tame a = true.
Proof.
  induction a as [|x a IH]; [done|]. intros H. change ((x :: a) ++ b) with (x :: (a ++ b)) in H.
  cbn [tame] in *. to_props. apply andb_true_iff. split; [by apply (head_tame_app (x :: a) b)|auto].
Qed.
Lemma tame_take n bs : tame bs = true → tame (take n bs) = true.
Proof. intros H. apply (tame_prefix _ (drop n bs)). by rewrite take_drop. Qed.
Lemma tame_drop n bs : tame bs = true → tame (drop n bs) = true.
Proof. intros H. apply (tame_suffix (take n bs)). by rewrite take_drop. Qed.

(** * Decoders that are never stuck *)
Record dec_ok (N : nat) (d : Decoder) : Prop := {
  ok_buf : bytes_ok (d_buf d);
  ok_ool : bytes_ok (d_out_of_line_buf d);
  ok_tame_buf : tame (d_buf d) = true;
  ok_tame_ool : tame (d_out_of_line_buf d) = true;
  ok_len : zlen (d_buf d) ≤ d_initial_buf_len d;
  ok_ool_len : zlen (d_out_of_line_buf d) ≤ d_initial_out_of_line_buf_len d;
  ok_ool_max : d_initial_out_of_line_buf_len d < 2 ^ 32;
  ok_handles : zlen (d_handles d) < 2 ^ 32;
  ok_nest : d_initial_buf_len d + Z.of_nat N * d_initial_out_of_line_buf_len d < 2 ^ 64
}.

(** What a decoder has taken: [n] bytes of the inline buffer, and some of the rest. *)
Record took (n : Z) (d d' : Decoder) : Prop := {
  took_buf : d_buf d' = drop (Z.to_nat n) (d_buf d);
  took_ool : ∃ k, d_out_of_line_buf d' = drop k (d_out_of_line_buf d);
  took_handles : zlen (d_handles d') ≤ zlen (d_handles d);
  took_initial : d_initial_buf_len d' = d_initial_buf_len d;
  took_initial_ool : d_initial_out_of_line_buf_len d' = d_initial_out_of_line_buf_len d
}.

(** From the position [p], with [n] bytes in the inline buffer, the code returns an error,
    or it takes the [n] bytes and gives a value for which [Q] holds. *)
Definition safe_at {A : Type} (p : Z) (N : nat) (n : Z) (m : M Error Decoder A) (Q : A → Prop) : Prop :=
  ∀ d, dec_ok N d → d_initial_buf_len d - zlen (d_buf d) = p → n ≤ zlen (d_buf d) →
    match m d with
    | (Ok a, d') => took n d d' ∧ Q a
    | (Err _, _) => True
    | _ => False
    end.
Abbreviation anything := (λ _, True).

Lemma took_refl d : took 0 d d.
Proof. split; try done. by exists 0%nat. Qed.
Lemma took_trans n1 n2 d1 d2 d3 : 0 ≤ n1 → 0 ≤ n2 → took n1 d1 d2 → took n2 d2 d3 → took (n1 + n2) d1 d3.
Proof.
  intros H1 H2 [Ha [k1 Hb] Hc Hd He] [Ha' [k2 Hb'] Hc' Hd' He']. split.
  - by rewrite Ha', Ha, drop_drop, Z2Nat.inj_add.
  - exists (k1 + k2)%nat. by rewrite Hb', Hb, drop_drop.
  - lia.
  - congruence.
  - congruence.
Qed.
Lemma zlen_drop_le {A} k (l : list A) : zlen (drop k l) ≤ zlen l.
Proof. unfold zlen. rewrite length_drop. lia. Qed.
Lemma dec_ok_took N n d d' : 0 ≤ n ≤ zlen (d_buf d) → dec_ok N d → took n d d' →
  dec_ok N d' ∧ d_initial_buf_len d' - zlen (d_buf d') = d_initial_buf_len d - zlen (d_buf d) + n ∧
  zlen (d_buf d') = zlen (d_buf d) - n.
Proof.
  intros Hn [] [Hb [k Ho] Hh Hi Hio]. rewrite Hb, Hi, zlen_drop by lia. split; [|lia].
  split; rewrite ?Hb, ?Ho, ?Hi, ?Hio; try done; try lia.
  - by apply Forall_drop.
  - by apply Forall_drop.
  - by apply tame_drop.
  - by apply tame_drop.
  - rewrite zlen_drop; lia.
  - pose proof (zlen_drop_le k (d_out_of_line_buf d)). lia.
Qed.

Lemma safe_bind {A B} p N n1 n2 (m : M Error Decoder A) (k : A → M Error Decoder B) Q R :
  0 ≤ n1 → 0 ≤ n2 → safe_at p N n1 m Q → (∀ a, Q a → safe_at (p + n1) N n2 (k a) R) →
  safe_at p N (n1 + n2) (bind m k) R.
Proof.
  intros H1 H2 Hm Hk d Hd Hp Hn. specialize (Hm d Hd Hp ltac:(lia)). unfold bind.
  destruct (m d) as [[a|e| |] d']; try done. destruct Hm as [Ht Hq].
  destruct (dec_ok_took N n1 d d') as (Hd'&Hp'&Hl); [lia|done|done|].
  specialize (Hk a Hq d' Hd' ltac:(lia) ltac:(lia)).
  destruct (k a d') as [[b|e| |] d'']; try done. destruct Hk as [Ht' Hr].
  split; [by eapply took_trans|done].
Qed.
Lemma safe_weaken {A} p N n (m : M Error Decoder A) (Q R : A → Prop) :
  safe_at p N n m Q → (∀ a, Q a → R a) → safe_at p N n m R.
Proof.
  intros Hm HQ d Hd Hp Hn. specialize (Hm d Hd Hp Hn). destruct (m d) as [[a|e| |] d']; try done.
  destruct Hm as [Ht Hq]. auto.
Qed.
Lemma safe_size {A} p N n n' (m : M Error Decoder A) Q : n = n' → safe_at p N n m Q → safe_at p N n' m Q.
Proof. by intros ->. Qed.
Lemma safe_ret {A} p N (a : A) (Q : A → Prop) : Q a → safe_at p N 0 (ret a) Q.
Proof. intros Hq d Hd Hp Hn. split; [apply took_refl|done]. Qed.
Lemma safe_fail {A} p N n e (Q : A → Prop) : safe_at p N n (fail e) Q.
Proof. done. Qed.
Lemma safe_lift {R B} p N n (r : result Error R) (k : R → M Error Decoder B) x Q :
  r = Ok x → safe_at p N n (k x) Q → safe_at p N n (bind (lift r) k) Q.
Proof. intros ->. done. Qed.
Lemma safe_step {A B} p N n (m : M Error Decoder A) (k : A → M Error Decoder B) Q R :
  0 ≤ n → safe_at p N 0 m Q → (∀ a, Q a → safe_at p N n (k a) R) → safe_at p N n (bind m k) R.
Proof.
  intros Hn Hm Hk. apply (safe_size _ _ (0 + n)); [lia|]. eapply safe_bind; [lia|done|exact Hm|].
  intros a Ha. rewrite Z.add_0_r. by apply Hk.
Qed.
Lemma safe_last {A B} p N n (m : M Error Decoder A) (k : A → M Error Decoder B) Q R :
  0 ≤ n → safe_at p N n m Q → (∀ a, Q a → safe_at (p + n) N 0 (k a) R) → safe_at p N n (bind m k) R.
Proof.
  intros Hn Hm Hk. apply (safe_size _ _ (n + 0)); [lia|]. by eapply safe_bind.
Qed.
Lemma safe_recurse {A} p N n (m : M Error Decoder A) Q : safe_at p N n m Q → safe_at p N n (dec_recurse m) Q.
Proof.
  intros Hm d Hd Hp Hn. unfold dec_recurse. rewrite bind_get_store.
  destruct (d_remaining_depth d) as [|r]; [done|]. unfold bind at 1. cbn [set_dec_depth]. set (d1 := Build_Decoder _ _ _ _ _ _).
  assert (dec_ok N d1) as Hd1 by by destruct Hd. specialize (Hm d1 Hd1 Hp Hn). unfold bind.
  destruct (m d1) as [[a|e| |] d']; try done. destruct Hm as [[] Hq]. split; [|done]. by split.
Qed.

(** * The operations *)
Lemma safe_slice p N n : 0 ≤ n → safe_at p N n (dec_next_slice n) (λ bs, zlen bs = n ∧ bytes_ok bs).
Proof.
  intros H0 d Hd Hp Hn. unfold dec_next_slice. rewrite bind_get_store. unfold split_off_front, lift, bind.
  rewrite (proj2 (Z.ltb_ge _ _)) by lia. cbn [set_dec_buf]. split.
  - split; try done. by exists 0%nat.
  - split; [by apply zlen_take|]. by apply Forall_take, (ok_buf N).
Qed.
Lemma safe_byte p N : safe_at p N 1 dec_next_byte is_byte.
Proof.
  intros d Hd Hp Hn. unfold dec_next_byte. rewrite bind_get_store. unfold split_off_first, split_off_front, lift, bind.
  rewrite (proj2 (Z.ltb_ge _ _)) by lia. pose proof (ok_buf N d Hd) as Hb.
  destruct (d_buf d) as [|b bs] eqn:E; [rewrite zlen_nil in Hn; lia|]. cbn. split.
  - split; cbn; rewrite ?E; try done. by exists 0%nat.
  - by apply Forall_cons in Hb as [? _].
Qed.
Lemma safe_take_handle p N : safe_at p N 0 dec_take_handle anything.
Proof.
  intros d Hd Hp Hn. unfold dec_take_handle. rewrite bind_get_store. unfold split_off_first, split_off_front, lift, bind.
  destruct (Z.ltb_spec (zlen (d_handles d)) 1) as [|Hl]; [done|].
  destruct (d_handles d) as [|h hs] eqn:E; [rewrite zlen_nil in Hl; lia|].
  change (Z.to_nat 1) with 1%nat. cbn [take drop rbind set_dec_handles]. split; [|done].
  split; cbn [d_out_of_line_buf d_handles]; try done; [by exists 0%nat|]. rewrite E, zlen_cons, drop_0. lia.
Qed.
Lemma safe_pos p N : safe_at p N 0 inline_pos (λ x, x = p).
Proof.
  intros d Hd Hp Hn. unfold inline_pos. rewrite bind_get_store. unfold lift.
  rewrite usub_ok by apply (ok_len N d Hd). split; [apply took_refl|done].
Qed.
Lemma first_non_zero_bound i bs j : first_non_zero i bs = Some j → i ≤ j < i + zlen bs.
Proof.
  revert i. induction bs as [|b bs IH]; intros i; cbn [first_non_zero]; [done|]. rewrite zlen_cons.
  pose proof (zlen_nonneg bs). destruct (negb (b =? 0)); [intros [= <-]; lia|]. intros Hj%IH. lia.
Qed.
Lemma safe_padding p N n : 0 ≤ p → 0 ≤ n → safe_at p N n (skip_padding n) anything.
Proof.
  intros Hp0 Hn0 d Hd Hp Hn. pose proof (ok_len N d Hd). pose proof (ok_nest N d Hd).
  pose proof (ok_ool_len N d Hd). pose proof (zlen_nonneg (d_out_of_line_buf d)).
  assert (0 ≤ Z.of_nat N * d_initial_out_of_line_buf_len d) by (apply Z.mul_nonneg_nonneg; lia).
  pose proof (safe_pos p N d Hd Hp ltac:(lia)) as Ht1. unfold skip_padding, bind at 1.
  destruct (inline_pos d) as [[x|e| |] d1]; try done. destruct Ht1 as [Ht1 ->].
  destruct (dec_ok_took N 0 d d1) as (Hd1&Hp1&Hl1); [lia|done|done|].
  pose proof (safe_slice p N n Hn0 d1 Hd1 ltac:(lia) ltac:(lia)) as Ht2. unfold bind.
  destruct (dec_next_slice n d1) as [[bs|e| |] d2]; try done. destruct Ht2 as [Ht2 [Hbs _]].
  destruct (first_non_zero 0 bs) as [j|] eqn:E.
  - apply first_non_zero_bound in E. unfold lift. rewrite uadd_ok by lia. done.
  - split; [|done]. apply (took_trans 0 n d d1 d2); done || lia.
Qed.
Lemma safe_tail_padding p N start size : 0 ≤ start ≤ p → p - start ≤ size →
  safe_at p N (size - (p - start)) (skip_tail_padding size start) anything.
Proof.
  intros Hs Hp. unfold skip_tail_padding. eapply safe_step; [lia|apply safe_pos|]. intros x ->.
  rewrite (proj2 (Z.leb_le _ _)) by lia. eapply safe_step; [lia|by apply safe_ret with (Q := anything)|]. intros _ _.
  eapply safe_lift; [apply usub_ok; lia|]. eapply safe_lift; [apply usub_ok; lia|]. apply safe_padding; lia.
Qed.

Lemma split_ool_ok n d : 0 ≤ n → n ≤ zlen (d_out_of_line_buf d) →
  split_out_of_line n d = (Ok (take (Z.to_nat n) (d_out_of_line_buf d)),
    {| d_remaining_depth := d_remaining_depth d; d_buf := d_buf d; d_initial_buf_len := d_initial_buf_len d;
       d_out_of_line_buf := drop (Z.to_nat n) (d_out_of_line_buf d);
       d_initial_out_of_line_buf_len := d_initial_out_of_line_buf_len d; d_handles := d_handles d |}).
Proof.
  intros H0 Hn. unfold split_out_of_line. rewrite bind_get_store. unfold split_off_front, lift, bind.
  by rewrite (proj2 (Z.ltb_ge _ _)) by lia.
Qed.
Lemma split_ool_short n d : zlen (d_out_of_line_buf d) < n → split_out_of_line n d = (Err OutOfRange, d).
Proof.
  intros Hn. unfold split_out_of_line. rewrite bind_get_store. unfold split_off_front, lift, bind.
  by rewrite (proj2 (Z.ltb_lt _ _)) by lia.
Qed.
(** Either the out-of-line data is too short, or the closure gets a buffer of [len]
    bytes. *)
Lemma before_read_cases len d N : 0 ≤ len → dec_ok (S N) d →
  (∃ d', before_read_out_of_line len d = (Err OutOfRange, d')) ∨
  (∃ d' k, before_read_out_of_line len d = (Ok (d_buf d, d_initial_buf_len d), d') ∧ dec_ok N d' ∧
     zlen (d_buf d') = len ∧ d_out_of_line_buf d' = drop k (d_out_of_line_buf d) ∧ d_handles d' = d_handles d ∧
     d_initial_out_of_line_buf_len d' = d_initial_out_of_line_buf_len d).
Proof.
  intros H0 [Hb Ho Htb Hto Hl Hol Hom Hh Hn]. rewrite Nat2Z.inj_succ, Z.mul_succ_l in Hn.
  unfold before_read_out_of_line. destruct (decide (len ≤ zlen (d_out_of_line_buf d))) as [Hlen|Hlen].
  2:{ left. eexists. eapply bind_err. apply split_ool_short. lia. }
  erewrite bind_ok by by apply split_ool_ok. rewrite bind_get_store.
  cbn [d_initial_buf_len d_initial_out_of_line_buf_len d_out_of_line_buf].
  pose proof (zlen_nonneg (d_buf d)). pose proof (zlen_nonneg (d_out_of_line_buf d)).
  assert (0 ≤ Z.of_nat N * d_initial_out_of_line_buf_len d) by (apply Z.mul_nonneg_nonneg; lia).
  assert (zlen (drop (Z.to_nat len) (d_out_of_line_buf d)) = zlen (d_out_of_line_buf d) - len) as Hz by (apply zlen_drop; lia).
  erewrite bind_lift by (apply uadd_ok; lia). erewrite bind_lift by (apply usub_ok; lia).
  assert (zlen (take (Z.to_nat len) (d_out_of_line_buf d)) = len) as Hzt by (apply zlen_take; lia).
  destruct (len mod 8 =? 0).
  - right. eexists _, (Z.to_nat len). split; [reflexivity|]. cbn [with_buf d_buf d_out_of_line_buf d_handles
      d_initial_out_of_line_buf_len]. split; [|done].
    split; cbn; rewrite ?Hz, ?Hzt; try done; try lia; try (by apply Forall_take); try (by apply Forall_drop);
      [by apply tame_take|by apply tame_drop].
  - pose proof (Z.mod_pos_bound len 8 ltac:(lia)).
    destruct (decide (8 - len mod 8 ≤ zlen (d_out_of_line_buf d) - len)) as [Ht|Ht].
    + right. erewrite bind_ok by (erewrite bind_ok by (apply split_ool_ok; cbn; lia); reflexivity).
      eexists _, (Z.to_nat len + Z.to_nat (8 - len mod 8))%nat. split; [reflexivity|].
      cbn [with_buf d_buf d_out_of_line_buf d_handles d_initial_out_of_line_buf_len].
      rewrite drop_drop. split; [|done].
      assert (zlen (drop (Z.to_nat len + Z.to_nat (8 - len mod 8)) (d_out_of_line_buf d)) ≤ zlen (d_out_of_line_buf d))
        by apply zlen_drop_le.
      split; cbn; rewrite ?drop_drop, ?Hz, ?Hzt; try done; try lia; try (by apply Forall_take); try (by apply Forall_drop);
        [by apply tame_take|by apply tame_drop].
    + left. eexists. eapply bind_err, bind_err. apply split_ool_short. cbn. lia.
Qed.

(** A closure over a piece of out-of-line data of [len] bytes; what it leaves of it is
    dropped. *)
Definition calm {A : Type} (N : nat) (len : Z) (f : M Error Decoder A) (Q : A → Prop) : Prop :=
  ∀ d, dec_ok N d → zlen (d_buf d) = len →
    match f d with
    | (Ok a, d') =>
        (∃ k, d_out_of_line_buf d' = drop k (d_out_of_line_buf d)) ∧ zlen (d_handles d') ≤ zlen (d_handles d) ∧
        d_initial_out_of_line_buf_len d' = d_initial_out_of_line_buf_len d ∧ Q a
    | (Err _, _) => True
    | _ => False
    end.
Lemma safe_calm {A} N n len (f : M Error Decoder A) Q :
  n ≤ len → (∀ p, 0 ≤ p → safe_at p N n f Q) → calm N len f Q.
Proof.
  intros Hn Hf d Hd Hl. pose proof (ok_len N d Hd).
  specialize (Hf (d_initial_buf_len d - zlen (d_buf d)) ltac:(lia) d Hd eq_refl ltac:(lia)).
  destruct (f d) as [[a|e| |] d']; try done. by destruct Hf as [[] ?].
Qed.
Lemma safe_ool {A} p N len (f : M Error Decoder A) Q : 0 ≤ len → calm N len f Q →
  safe_at p (S N) 0 (read_out_of_line len f) Q.
Proof.
  intros H0 Hf d Hd Hp _. unfold read_out_of_line.
  destruct (before_read_cases len d N H0 Hd) as [[d' He]|(d'&k&He&Hd'&Hl&Ho&Hh&Hio)].
  - by erewrite bind_err by exact He.
  - erewrite bind_ok by exact He. cbn beta iota. specialize (Hf d' Hd' Hl). destruct (f d') as [[a|e| |] d'']; try done.
    destruct Hf as ([k' Hk]&Hh'&Hio'&Hq). split; [|done]. split; cbn; try done; [|by rewrite <- Hh|congruence].
    exists (k + k')%nat. by rewrite Hk, Ho, drop_drop.
Qed.

(** * Numbers *)
Lemma safe_num p N n signed v0 : 0 ≤ n → safe_at p N n (decode (num_decodable n signed) v0)
  (λ x, signed = false → 0 ≤ x < 2 ^ (8 * n)).
Proof.
  intros Hn. cbn [decode num_decodable]. eapply safe_last; [done|by apply safe_slice|].
  intros bs [Hl Hb]. apply safe_ret. intros ->. rewrite <- Hl. by apply read_int_bound.
Qed.
Lemma safe_u32 p N : safe_at p N 4 decode_u32 (λ x, 0 ≤ x < 2 ^ 32).
Proof. eapply safe_weaken; [by apply safe_num|]. intros x Hx. by apply Hx. Qed.
Lemma safe_u64 p N : safe_at p N 8 decode_u64 (λ x, 0 ≤ x < 2 ^ 64).
Proof. eapply safe_weaken; [by apply safe_num|]. intros x Hx. by apply Hx. Qed.
Lemma decode_u64_run d : 8 ≤ zlen (d_buf d) →
  decode_u64 d = (Ok (word (d_buf d)), with_buf (drop 8 (d_buf d)) (d_initial_buf_len d) d).
Proof.
  intros Hl. unfold decode_u64. cbn [decode num_decodable]. unfold dec_next_slice, bind, get_store, lift, split_off_front.
  by rewrite (proj2 (Z.ltb_ge _ _)) by lia.
Qed.

(** The two words of a vector. *)
Lemma safe_header {A} p N n (k : Z → Z → M Error Decoder A) Q : 0 ≤ n →
  (∀ len present, 0 ≤ len < 2 ^ 64 → 0 ≤ present < 2 ^ 64 →
     (present = ALLOC_PRESENT_U64 → len * K < 2 ^ 64) → safe_at (p + 16) N n (k len present) Q) →
  safe_at p N (16 + n) (len <- decode_u64 ;; present <- decode_u64 ;; k len present) Q.
Proof.
  intros H0 Hk d Hd Hp Hn.
  assert (tame (d_buf d) = true) as Ht by apply (ok_tame_buf N d Hd).
  assert (head_tame (d_buf d) = true) as Hh.
  { destruct (d_buf d) as [|b bs] eqn:E; [done|]. cbn [tame] in Ht. by to_props. }
  unfold head_tame in Hh. rewrite (proj2 (Z.ltb_ge _ 16)) in Hh by lia. cbn [orb] in Hh.
  assert (∀ bs, bytes_ok bs → 8 ≤ zlen bs → 0 ≤ word bs < 2 ^ 64) as Hw.
  { intros bs Hb Hl. unfold word. pose proof (read_int_bound (take 8 bs) (Forall_take _ _ _ Hb)) as Hr.
    change 8%nat with (Z.to_nat 8) in Hr. rewrite zlen_take in Hr by lia. exact Hr. }
  pose proof (ok_buf N d Hd) as Hb. assert (zlen (drop 8 (d_buf d)) = zlen (d_buf d) - 8) as Hl8
    by (change 8%nat with (Z.to_nat 8); apply zlen_drop; lia).
  erewrite bind_ok by (apply decode_u64_run; lia).
  erewrite bind_ok by (apply decode_u64_run; cbn; lia). cbn [d_buf with_buf d_initial_buf_len]. rewrite drop_drop.
  set (d2 := with_buf _ _ _).
  assert (took 16 d d2) as Ht2 by (split; try done; by exists 0%nat).
  destruct (dec_ok_took N 16 d d2) as (Hd2&Hp2&Hl2); [lia|done|done|].
  specialize (Hk (word (d_buf d)) (word (drop 8 (d_buf d))) ltac:(apply Hw; [done|lia])
    ltac:(apply Hw; [by apply Forall_drop|lia])).
  assert (word (drop 8 (d_buf d)) = ALLOC_PRESENT_U64 → word (d_buf d) * K < 2 ^ 64) as Hov.
  { intros Heq. rewrite Heq, Z.eqb_refl in Hh. by apply Z.ltb_lt. }
  specialize (Hk Hov d2 Hd2 ltac:(lia) ltac:(lia)).
  destruct (k _ _ d2) as [[a|e| |] d']; try done. destruct Hk as [Ht' Hq]. split; [|done].
  by apply (took_trans 16 n d d2 d').
Qed.
Lemma safe_ext {A} p N n (m m' : M Error Decoder A) Q :
  (∀ d, m d = m' d) → safe_at p N n m' Q → safe_at p N n m Q.
Proof. intros He Hm d. rewrite He. apply Hm. Qed.
Lemma safe_presence_header {A} p N n (k : Z → bool → M Error Decoder A) Q : 0 ≤ n →
  (∀ len (present : bool), 0 ≤ len < 2 ^ 64 → (present = true → len * K < 2 ^ 64) →
     safe_at (p + 16) N n (k len present) Q) →
  safe_at p N (16 + n) (len <- decode_u64 ;; present <- decode_presence ;; k len present) Q.
Proof.
  intros H0 Hk. eapply safe_ext; [|apply (safe_header p N n (λ len present, b <-
    (if present =? ALLOC_ABSENT_U64 then ret false
     else if present =? ALLOC_PRESENT_U64 then ret true else fail Invalid) ;; k len b) Q H0)].
  - intros d. unfold bind at 1 3. destruct (decode_u64 d) as [[len|e| |] d']; try done. apply bind_assoc.
  - intros len present Hlen _ Hov. destruct (present =? ALLOC_ABSENT_U64) eqn:E1.
    + by apply (Hk len false).
    + destruct (Z.eqb_spec present ALLOC_PRESENT_U64) as [->|]; [|done]. apply (Hk len true); auto.
Qed.

(** * The types *)
Definition safe_type (t : Typed) : Prop := ∀ v0 p N, 0 ≤ p → (nest (fmt t) ≤ N)%nat →
  safe_at p N (ty_size t) (decode (dec (code t)) v0) anything.

Lemma prim_safe p : prim_ok p → safe_type (prim_typed p).
Proof.
  intros Hp v0 q N _ _. destruct p as [s|n s].
  - eapply safe_last; [done|apply safe_byte|]. intros b _. by apply safe_ret.
  - eapply safe_weaken; [apply (safe_num q N n s v0); cbn in Hp; lia|done].
Qed.
Lemma bool_safe : safe_type bool_typed.
Proof.
  intros v0 p N _ _. eapply safe_last; [done|apply safe_byte|]. intros b _.
  destruct (b =? 0); [by apply safe_ret|]. destruct (b =? 1); [by apply safe_ret|done].
Qed.
Lemma empty_struct_safe : safe_type empty_struct_typed.
Proof.
  intros v0 p N _ _. eapply safe_last; [done| |].
  - eapply (safe_last _ _ 1 dec_next_byte); [done|apply safe_byte|]. intros b _. by apply (safe_ret _ _ b anything).
  - intros b _. destruct (b =? 0); [by apply safe_ret|done].
Qed.
Lemma unit_safe : safe_type unit_typed.
Proof. intros v0 p N _ _. by apply safe_ret. Qed.
Lemma prim_decode_safe pr p N v0 : prim_ok pr → 0 ≤ p →
  safe_at p N (type_size (prim_dec pr)) (decode (prim_dec pr) v0) anything.
Proof. intros Hp H0. by apply (prim_safe pr Hp v0 p N H0), Nat.le_0_l. Qed.
Lemma enum_safe pr values : prim_ok pr → safe_type (enum_typed pr values).
Proof.
  intros Hp v0 p N H0 _. pose proof (prim_size pr Hp). eapply safe_lift; [by destruct pr|].
  eapply safe_last; [cbn; lia|by apply prim_decode_safe|]. intros x _.
  destruct (from_primitive values x); [by apply safe_ret|done].
Qed.
Lemma bits_safe pr f e : prim_ok pr → safe_type (bits_typed pr f e).
Proof.
  intros Hp v0 p N H0 _. pose proof (prim_size pr Hp). eapply safe_lift; [by destruct pr|].
  eapply safe_last; [cbn; lia|by apply prim_decode_safe|]. intros x _. cbn beta.
  destruct (f x); [by apply safe_ret|done].
Qed.
Lemma handle_decode_safe p N v0 : safe_at p N 4 (decode handle_decodable v0) anything.
Proof.
  eapply safe_last; [done|apply safe_u32|]. intros x _. destruct (x =? _); [done|].
  destruct (x =? _); [apply safe_take_handle|done].
Qed.
Lemma opt_handle_decode_safe p N v0 : safe_at p N 4 (decode opt_handle_decodable v0) anything.
Proof.
  eapply safe_last; [done|apply safe_u32|]. intros x _. destruct (x =? _); [by apply safe_ret|].
  destruct (x =? _); [|done]. eapply safe_last; [done|apply safe_take_handle|]. intros h _. by apply safe_ret.
Qed.

Lemma decode_string_safe p N : (1 ≤ N)%nat → safe_at p N 16 decode_string anything.
Proof.
  intros HN. destruct N as [|N]; [lia|]. apply (safe_presence_header p (S N) 0); [done|].
  intros len [] Hlen Hov; cbn [negb]; [|by apply safe_ret]. apply safe_ool; [lia|].
  eapply (safe_calm _ 0); [lia|]. intros q _ d Hd Hq Hn. rewrite bind_get_store.
  destruct (utf8_valid _); [|done]. split; [apply took_refl|done].
Qed.
Lemma string_safe : safe_type string_typed.
Proof.
  intros v0 p N _ HN. eapply safe_last; [done|by apply decode_string_safe|].
  intros [s|] _; [by apply safe_ret|done].
Qed.
Lemma opt_string_safe : safe_type opt_string_typed.
Proof. intros v0 p N _ HN. by apply decode_string_safe. Qed.

(** * Vectors, arrays and boxes *)
Section items.
Context (t : Typed) (L : lawful t) (St : safe_type t).

Lemma pushed_safe len acc p N : 0 ≤ p → (nest (fmt t) ≤ N)%nat →
  safe_at p N (Z.of_nat len * ty_size t) (decode_pushed (dec (code t)) len acc) anything.
Proof.
  intros H0 HN. pose proof (law_size t L). destruct (law_empty t L) as [e He]. revert acc p H0.
  induction len as [|len IH]; intros acc p H0; [by apply safe_ret|]. cbn [decode_pushed].
  eapply safe_lift; [exact He|]. apply (safe_size _ _ (ty_size t + Z.of_nat len * ty_size t)); [lia|].
  eapply safe_bind; [lia|nia|by apply St|]. intros x _. apply IH. lia.
Qed.
Lemma decode_vec_safe p N : 0 ≤ p → ty_size t ≤ K → (S (nest (fmt t)) ≤ N)%nat →
  safe_at p N 16 (decode_vec (dec (code t))) anything.
Proof.
  intros H0 HK HN. pose proof (law_size t L). destruct N as [|N]; [lia|].
  apply (safe_presence_header p (S N) 0); [done|]. intros len [] Hlen Hov; cbn [negb]; [|by apply safe_ret].
  specialize (Hov eq_refl). fold (ty_size t).
  eapply safe_lift; [apply umul_ok; nia|]. apply safe_ool; [nia|].
  eapply (safe_calm _ (Z.of_nat (Z.to_nat len) * ty_size t)); [rewrite Z2Nat.id by lia; lia|]. intros q Hq. apply safe_recurse.
  eapply safe_last; [nia|apply pushed_safe; [done|lia]|]. intros l _. by apply safe_ret.
Qed.
Lemma vec_safe : ty_size t ≤ K → safe_type (vec_typed t).
Proof.
  intros HK v0 p N H0 HN. eapply safe_last; [done|by apply decode_vec_safe|].
  intros [l|] _; [by apply safe_ret|done].
Qed.
Lemma opt_vec_safe : ty_size t ≤ K → safe_type (opt_vec_typed t).
Proof. intros HK v0 p N H0 HN. by apply decode_vec_safe. Qed.

Lemma elements_safe {n} (v : vec (car (code t)) n) p N : 0 ≤ p → (nest (fmt t) ≤ N)%nat →
  safe_at p N (ty_size t * Z.of_nat n) (decode_elements (dec (code t)) v) anything.
Proof.
  intros H0 HN. pose proof (law_size t L). revert p H0.
  induction v as [|x n v IH]; intros p H0; cbn [decode_elements].
  { rewrite Z.mul_0_r. by apply safe_ret. }
  apply (safe_size _ _ (ty_size t + ty_size t * Z.of_nat n)); [lia|].
  eapply safe_bind; [lia|nia|by apply St|]. intros y _.
  eapply safe_last; [nia|apply IH; lia|]. intros ys _. by apply safe_ret.
Qed.
Lemma array_safe n : safe_type (array_typed t n).
Proof. intros v0 p N H0 HN. apply safe_recurse. by apply elements_safe. Qed.

Lemma boxed_safe v0 p N : (nest (fmt t) ≤ N)%nat →
  safe_at p (S N) 0 (read_out_of_line (type_size (dec (code t))) (decode (dec (code t)) v0)) anything.
Proof.
  intros HN. pose proof (law_size t L). apply safe_ool; [unfold ty_size in *; lia|].
  eapply (safe_calm _ (ty_size t)); [done|]. intros q Hq. by apply St.
Qed.
Lemma box_safe : safe_type (box_typed t).
Proof.
  intros v0 p N H0 HN. cbn in HN. destruct N as [|N]; [lia|].
  eapply safe_last; [done|apply safe_u64|]. intros x _. destruct (negb _); [done|]. apply boxed_safe. lia.
Qed.
(** The presence of the container is looked at in its own bytes. *)
Lemma option_safe : safe_type (option_typed t).
Proof.
  intros v0 p N H0 HN d Hd Hp Hn. pose proof (law_size t L) as Hs. destruct (law_empty t L) as [e He].
  change (ty_size (option_typed t)) with (ty_size t) in *.
  cbn [decode dec code option_typed option_codable option_decodable].
  assert (∃ b, check_for_presence (type_size (dec (code t))) d = (Ok b, d)) as [b Hb].
  { unfold check_for_presence, peek_slice, bind, get_store, ret. fold (ty_size t).
    rewrite (proj2 (Z.leb_le _ _)) by lia. by eexists. }
  erewrite bind_ok by exact Hb. destruct b.
  - assert (∃ x, (match v0 with Some x => ret x | None => lift (new_empty (dec (code t))) end : M Error Decoder _) d
      = (Ok x, d)) as [x Hx] by (destruct v0; [by eexists|unfold lift; rewrite He; by eexists]).
    erewrite bind_ok by exact Hx. revert d Hd Hp Hn Hb Hx.
    assert (safe_at p N (ty_size t) (x <- decode (dec (code t)) x ;; ret (Some x)) anything) as Hsafe.
    { eapply safe_last; [lia|by apply St|]. intros y _. by apply safe_ret. }
    intros d Hd Hp Hn _ _. by apply Hsafe.
  - revert d Hd Hp Hn Hb.
    assert (safe_at p N (ty_size t) (dec_next_slice (type_size (dec (code t))) ;;; ret (@None (car (code t)))) anything) as Hsafe.
    { eapply safe_last; [lia|apply safe_slice; apply Hs|]. intros y _. by apply safe_ret. }
    intros d Hd Hp Hn _. by apply Hsafe.
Qed.
End items.

(** * Structs, tuples and results *)
Abbreviation safe_members ms := (Forall (λ m : TMember, lawful (snd m) ∧ safe_type (snd m)) ms).
Lemma safe_members_lawful ms : safe_members ms → lawful_members ms.
Proof. intros Hm. eapply Forall_impl; [exact Hm|]. by intros m [? _]. Qed.

Lemma members_safe ms cur v0 p N : safe_members ms → layout_ok struct_offset ms cur → 0 ≤ p →
  Forall (λ m : TMember, nest (fmt (snd m)) ≤ N)%nat ms →
  safe_at p N (fields_end struct_offset ms cur - cur) (decode_members (codes ms) cur v0)
    (λ r, snd r = fields_end struct_offset ms cur).
Proof.
  intros Hl. revert cur v0 p. induction Hl as [|[o t] ms [Lm Sm] Hl IH]; intros cur v0 p Hok H0 HN.
  { cbn [fields_end]. rewrite Z.sub_diag. by apply safe_ret. }
  destruct Hok as [Ho Hok]. cbn [struct_offset fst snd] in *. apply Forall_cons in HN as [Hn HN]. cbn [snd] in Hn.
  pose proof (law_size _ Lm) as Hs. pose proof (fields_end_ge _ _ _ (safe_members_lawful _ Hl) Hok) as Hge.
  change (codes ((o, t) :: ms)) with ((o, code t) :: codes ms). cbn [decode_members fields_end struct_offset fst snd].
  eapply safe_lift; [apply usub_ok; lia|].
  apply (safe_size _ _ (o - cur + (ty_size t + (fields_end struct_offset ms (o + ty_size t) - (o + ty_size t))))); [lia|].
  eapply safe_bind; [lia|lia|apply safe_slice; lia|]. intros _ _.
  eapply safe_bind; [lia|lia|apply Sm; [lia|done]|]. intros x _.
  eapply safe_lift; [apply uadd_ok; unfold ty_size in *; lia|].
  eapply safe_last; [lia|apply IH; [done|lia|done]|]. intros r Hr. by apply safe_ret.
Qed.
Lemma struct_safe ms size align : safe_members ms → layout_ok struct_offset ms 0 →
  fields_end struct_offset ms 0 ≤ size < 2 ^ 32 → safe_type (struct_typed ms size align).
Proof.
  intros Hl Hok Hs v0 p N H0 HN. pose proof (fields_end_ge _ _ _ (safe_members_lawful _ Hl) Hok) as Hge.
  apply safe_recurse. change (ty_size _) with size.
  apply (safe_size _ _ (fields_end struct_offset ms 0 - 0 + (size - fields_end struct_offset ms 0))); [lia|].
  eapply safe_bind; [lia|lia|apply members_safe; try done|].
  - apply Forall_forall. intros m Hm. exact (members_nest_le ms N m HN Hm).
  - intros r ->. eapply safe_lift; [apply usub_ok; lia|].
    eapply safe_last; [lia|apply safe_slice; lia|]. intros _ _. by apply safe_ret.
Qed.

Lemma values_safe ms cur v0 p N : safe_members ms → 0 ≤ cur → layout_ok tuple_offset ms cur →
  fields_end tuple_offset ms cur < 2 ^ 32 → 0 ≤ p → Forall (λ m : TMember, nest (fmt (snd m)) ≤ N)%nat ms →
  safe_at p N (fields_end tuple_offset ms cur - cur) (decode_values (codes ms) cur v0)
    (λ r, snd r = fields_end tuple_offset ms cur).
Proof.
  intros Hl. revert cur v0 p. induction Hl as [|[x t] ms [Lm Sm] Hl IH]; intros cur v0 p Hc Hok He H0 HN.
  { cbn [fields_end]. rewrite Z.sub_diag. by apply safe_ret. }
  destruct Hok as [Ho Hok]. apply Forall_cons in HN as [Hn HN]. cbn [fields_end fst snd] in *.
  pose proof (law_size _ Lm) as Hs. pose proof (law_align _ Lm) as Ha.
  pose proof (fields_end_ge _ _ _ (safe_members_lawful _ Hl) Hok) as Hge.
  change (codes ((x, t) :: ms)) with ((x, code t) :: codes ms). cbn [decode_values fields_end fst snd] in *.
  change (tuple_offset cur (x, t)) with (round_up cur (ty_align t)) in *. set (o := round_up cur (ty_align t)) in *.
  eapply safe_lift; [apply round_up_to_align_ok; unfold ty_align in *; lia|]. fold (ty_align t). fold o.
  eapply safe_lift; [apply usub_ok; lia|].
  apply (safe_size _ _ (o - cur + (ty_size t + (fields_end tuple_offset ms (o + ty_size t) - (o + ty_size t))))); [lia|].
  eapply safe_bind; [lia|lia|apply safe_slice; lia|]. intros _ _.
  eapply safe_bind; [lia|lia|apply Sm; [lia|done]|]. intros y _.
  eapply safe_lift; [apply uadd_ok; unfold ty_size in *; lia|].
  eapply safe_last; [lia|apply IH; done || (unfold ty_size in *; lia)|]. intros r Hr. by apply safe_ret.
Qed.
Lemma tuple_safe t ms : lawful t → safe_type t → safe_members ms → layout_ok tuple_offset ms (ty_size t) →
  fields_end tuple_offset ms (ty_size t) < 2 ^ 32 → safe_type (tuple_typed t ms).
Proof.
  intros L St Hl Hok He v0 p N H0 HN. pose proof (law_size t L) as Hs.
  pose proof (fields_end_ge _ _ _ (safe_members_lawful _ Hl) Hok) as Hge. cbn [nest fmt tuple_typed] in HN.
  assert (tuple_size (code t) (codes ms) = fields_end tuple_offset ms (ty_size t)) as Hts by apply types_size_end.
  apply safe_recurse. change (ty_size (tuple_typed t ms)) with (tuple_size (code t) (codes ms)). rewrite Hts.
  apply (safe_size _ _ (ty_size t + (fields_end tuple_offset ms (ty_size t) - ty_size t))); [lia|].
  eapply safe_bind; [lia|lia|apply St; [done|lia]|]. intros x _.
  eapply safe_last; [lia|apply values_safe; try done; [unfold ty_size in *; lia|lia|]|].
  - apply Forall_forall. intros m Hm. eapply members_nest_le; [|done]. lia.
  - intros r ->. cbn beta. eapply safe_lift; [by apply usub_ok|]. rewrite Z.sub_diag.
    eapply safe_last; [done|by apply safe_slice|]. intros _ _. by apply safe_ret.
Qed.
End safety.
