(* ===== verification/FidlSafetyUnions.v ===== *)
(** Decoding of arbitrary bytes, continued: results, envelopes, tables and unions, then
    every well-formed type. *)

From stdpp Require Import vector.
From S2P Require Import Prelude Std FidlCore FidlTypes FidlAggregates FidlLogic FidlFormat FidlLaws FidlStruct FidlTable FidlUnion FidlUniverse FidlSafety.

Section safety.
Context `{BO : !ByteOrder, BOS : !ByteOrderSpec, BOZ : !ZeroBytes}.
Context (K : Z).
Abbreviation anything := (λ _, True).
Abbreviation safe_members ms := (Forall (λ m : TMember, lawful (snd m) ∧ safe_type K (snd m)) ms).

(** A value to decode into: the one there is, or an empty one. *)
Lemma slot_safe {A} (D : Decodable A) p N (o : option A) : (∃ x, new_empty D = Ok x) →
  safe_at K p N 0 (match o with Some x => ret x | None => lift (new_empty D) end) anything.
Proof. intros [e He]. destruct o; [by apply safe_ret|]. rewrite He. by apply (safe_ret K p N e). Qed.

Lemma variant_slot_safe {A B} (D : Decodable A) p N (self : option (A + B)) : (∃ x, new_empty D = Ok x) →
  safe_at K p N 0 (match self with Some (inl x) => ret x | _ => lift (new_empty D) end) anything.
Proof.
  intros He. destruct self as [[x|y]|]; [by apply (slot_safe D p N (Some x))|by apply (slot_safe D p N None)..].
Qed.

(** * Results *)
Lemma tagged_safe o e t start p v0 N : lawful o → lawful t → safe_type K t →
  result_align (code o) + ty_size t ≤ result_size (code o) (code e) →
  0 ≤ start → p = start + result_align (code o) → (nest (fmt t) ≤ N)%nat →
  safe_at K p N (result_size (code o) (code e) - result_align (code o))
    (decode_tagged (code o) (code e) start (dec (code t)) v0) anything.
Proof.
  intros Lo L St Hf H0 -> HN. pose proof (law_size t L). pose proof (result_align_bound o Lo).
  unfold decode_tagged. set (a := result_align (code o)) in *. set (size := result_size (code o) (code e)) in *.
  apply (safe_size K _ _ (ty_size t + (size - (start + a + ty_size t - start)))); [lia|].
  eapply safe_bind; [lia|lia|apply St; [lia|done]|]. intros x _.
  eapply safe_last; [lia|apply safe_tail_padding; lia|]. intros _ _. by apply safe_ret.
Qed.
Lemma result_safe o e : lawful o → lawful e → safe_type K o → safe_type K e → result_fits o e →
  safe_type K (result_typed o e).
Proof.
  intros Lo Le So Se [Hf _] v0 p N H0 HN. pose proof (result_align_bound o Lo). pose proof (law_size o Lo).
  pose proof (law_size e Le). cbn [nest fmt result_typed] in HN.
  change (ty_size _) with (result_size (code o) (code e)).
  eapply safe_step; [lia|apply safe_pos|]. intros start ->.
  apply (safe_size K _ _ (4 + (result_align (code o) - 4 + (result_size (code o) (code e) - result_align (code o))))); [lia|].
  eapply safe_bind; [lia|lia|apply safe_u32|]. intros tag _. eapply safe_lift; [apply usub_ok; lia|].
  eapply safe_bind; [lia|lia|apply safe_slice; lia|]. intros _ _.
  destruct (tag =? 0); [|destruct (tag =? 1); [|done]].
  - eapply safe_step; [lia|..].
    { eapply safe_weaken; [|intros a; exact (λ _, I)]. instantiate (1 := anything).
      destruct v0 as [x|x]; [apply (slot_safe (dec (code o)) _ _ (Some x))|apply (slot_safe (dec (code o)) _ _ None)];
        apply (law_empty o Lo). }
    intros x _. eapply safe_last; [lia|apply (tagged_safe o e o p); done || lia|]. intros y _. by apply safe_ret.
  - eapply safe_step; [lia|..].
    { instantiate (1 := anything).
      destruct v0 as [x|x]; [apply (slot_safe (dec (code e)) _ _ None)|apply (slot_safe (dec (code e)) _ _ (Some x))];
        apply (law_empty e Le). }
    intros x _. eapply safe_last; [lia|apply (tagged_safe o e e p); done || lia|]. intros y _. by apply safe_ret.
Qed.

(** * Envelopes and tables *)
Lemma safe_remaining p N : safe_at K p N 0 remaining_out_of_line (λ x, 0 ≤ x < 2 ^ 32).
Proof.
  intros d Hd Hp Hn. unfold remaining_out_of_line. rewrite bind_get_store. split; [apply took_refl|].
  pose proof (ok_ool_len K N d Hd). pose proof (ok_ool_max K N d Hd). pose proof (zlen_nonneg (d_out_of_line_buf d)). lia.
Qed.
Lemma safe_remaining_handles p N : safe_at K p N 0 remaining_handles (λ x, 0 ≤ x < 2 ^ 32).
Proof.
  intros d Hd Hp Hn. unfold remaining_handles. rewrite bind_get_store. split; [apply took_refl|].
  pose proof (ok_handles K N d Hd). pose proof (zlen_nonneg (d_handles d)). lia.
Qed.
Lemma envelope_safe t v0 p N : lawful t → safe_type K t → (S (nest (fmt t)) ≤ N)%nat →
  safe_at K p N 16 (decode_envelope (dec (code t)) v0) anything.
Proof.
  intros L St HN. destruct N as [|N]; [lia|]. pose proof (law_size t L) as Hs. unfold decode_envelope.
  eapply (safe_bind K p (S N) 4 12); [lia|lia|apply safe_u32|]. intros num_bytes Hnb.
  eapply (safe_bind K _ (S N) 4 8); [lia|lia|apply safe_u32|]. intros num_handles Hnh.
  eapply (safe_last K _ (S N) 8); [lia|apply safe_u64|]. intros present _.
  eapply safe_step; [lia|apply safe_remaining|]. intros before _.
  eapply safe_step; [lia|apply safe_remaining_handles|]. intros handles_before _.
  eapply safe_step with (Q := anything); [lia| |].
  { destruct (present =? ALLOC_PRESENT_U64); [|destruct (present =? ALLOC_ABSENT_U64); [by apply safe_ret|done]].
    apply safe_ool; [apply Hs|]. eapply (safe_calm K _ (ty_size t)); [done|]. intros q Hq.
    eapply safe_step; [apply Hs|apply (slot_safe (dec (code t)) q N v0 (law_empty t L))|]. intros x _.
    eapply safe_last; [apply Hs|apply St; [done|lia]|]. intros y _. by apply safe_ret. }
  intros self _. eapply safe_step; [lia|apply safe_remaining|]. intros after Ha. cbn beta in *.
  eapply safe_lift; [apply uadd_ok; lia|]. eapply safe_step; [lia|apply safe_remaining_handles|]. intros handles_after Hh. cbn beta in *.
  eapply safe_lift; [apply uadd_ok; lia|]. destruct (negb _); [done|]. destruct (negb _); [done|]. by apply safe_ret.
Qed.

(** Envelopes are read one after the other, as long as there are any. *)
Definition reads_envelopes {A : Type} (N : nat) (m : M Error Decoder A) : Prop :=
  ∀ d, dec_ok K N d → (16 | zlen (d_buf d)) →
    match m d with
    | (Ok _, d') => ∃ j, 0 ≤ j * 16 ≤ zlen (d_buf d) ∧ took (j * 16) d d'
    | (Err _, _) => True
    | _ => False
    end.
Lemma reads_envelopes_bind {A B} N (m : M Error Decoder A) (k : A → M Error Decoder B) :
  reads_envelopes N m → (∀ a, reads_envelopes N (k a)) → reads_envelopes N (bind m k).
Proof.
  intros Hm Hk d Hd H16. specialize (Hm d Hd H16). unfold bind. destruct (m d) as [[a|e| |] d']; try done.
  destruct Hm as (j&Hj&Ht). destruct (dec_ok_took K N (j * 16) d d') as (Hd'&_&Hl); [lia|done|done|].
  assert (16 | zlen (d_buf d')) as H16' by (rewrite Hl; apply Z.divide_sub_r; [done|apply Z.divide_factor_r]).
  specialize (Hk a d' Hd' H16'). destruct (k a d') as [[b|e| |] d'']; try done.
  destruct Hk as (j'&Hj'&Ht'). exists (j + j'). rewrite Z.mul_add_distr_r.
  split; [lia|]. eapply took_trans; done || lia.
Qed.
Lemma reads_envelopes_ret {A} N (a : A) : reads_envelopes N (ret a).
Proof. intros d Hd _. exists 0. pose proof (zlen_nonneg (d_buf d)). split; [lia|apply took_refl]. Qed.
Lemma reads_envelopes_one {A} N (k : M Error Decoder A) (r : A) :
  (∀ p, safe_at K p N 16 k anything) → reads_envelopes N (e <- is_empty ;; if e then ret r else k).
Proof.
  intros Hk d Hd H16. unfold is_empty, bind, get_store, ret. destruct (d_buf d) as [|b bs] eqn:E.
  - exists 0. split; [pose proof (zlen_nonneg (d_buf d)); rewrite ?E in *; lia|apply took_refl].
  - assert (16 ≤ zlen (d_buf d)) as Hl.
    { destruct H16 as [q Hq]. rewrite E. rewrite zlen_cons in *. pose proof (zlen_nonneg bs). lia. }
    specialize (Hk _ d Hd eq_refl Hl). destruct (k d) as [[a|e| |] d']; try done.
    exists 1. rewrite <- E. split; [lia|apply Hk].
Qed.
Lemma table_members_safe ms v0 N : safe_members ms → Forall (λ m : TMember, S (nest (fmt (snd m))) ≤ N)%nat ms →
  reads_envelopes N (decode_table_members (codes ms) v0).
Proof.
  intros Hl. revert v0. induction Hl as [|[o t] ms [Lm Sm] Hl IH]; intros v0 HN; [apply reads_envelopes_ret|].
  apply Forall_cons in HN as [Hn HN]. change (codes ((o, t) :: ms)) with ((o, code t) :: codes ms).
  cbn [decode_table_members]. intros d. rewrite <- bind_assoc. revert d. apply reads_envelopes_bind.
  - apply reads_envelopes_one. intros p. by apply envelope_safe.
  - intros x. apply reads_envelopes_bind; [by apply IH|]. intros xs. apply reads_envelopes_ret.
Qed.
Definition unknown_header : M Error Decoder bool :=
  num_bytes <- decode_u32 ;; num_handles <- decode_u32 ;; present <- decode_u64 ;;
  ret (negb (num_bytes =? 0) || negb (num_handles =? 0) || negb (present =? ALLOC_ABSENT_U64)).
Lemma unknown_header_safe p N : safe_at K p N 16 unknown_header anything.
Proof.
  eapply (safe_bind K p N 4 12); [lia|lia|apply safe_u32|]. intros x _.
  eapply (safe_bind K _ N 4 8); [lia|lia|apply safe_u32|]. intros y _.
  eapply (safe_last K _ N 8); [lia|apply safe_u64|]. intros z _. by apply safe_ret.
Qed.
Lemma unknown_header_run {A} (k : M Error Decoder A) d :
  (num_bytes <- decode_u32 ;; num_handles <- decode_u32 ;; present <- decode_u64 ;;
    if negb (num_bytes =? 0) || negb (num_handles =? 0) || negb (present =? ALLOC_ABSENT_U64)
    then fail UnknownTableField else k) d
  = (bad <- unknown_header ;; if bad then fail UnknownTableField else k) d.
Proof.
  unfold unknown_header, bind. destruct (decode_u32 d) as [[x|e| |] d1]; try done.
  destruct (decode_u32 d1) as [[y|e| |] d2]; try done. by destruct (decode_u64 d2) as [[z|e| |] d3].
Qed.
(** The fuel covers the buffer: each turn takes sixteen bytes. *)
Lemma unknown_envelopes_safe fuel N d : dec_ok K N d → (16 | zlen (d_buf d)) → (length (d_buf d) < fuel)%nat →
  match decode_unknown_envelopes fuel d with
  | (Ok _, d') => ∃ j, 0 ≤ j * 16 ≤ zlen (d_buf d) ∧ took (j * 16) d d'
  | (Err _, _) => True
  | _ => False
  end.
Proof.
  revert d. induction fuel as [|fuel IH]; intros d Hd H16 Hf; [lia|]. cbn [decode_unknown_envelopes].
  unfold is_empty. rewrite bind_assoc, bind_get_store. unfold bind at 1. cbn [ret].
  destruct (match d_buf d with [] => true | _ => false end) eqn:E.
  - exists 0. split; [pose proof (zlen_nonneg (d_buf d)); lia|apply took_refl].
  - assert (16 ≤ zlen (d_buf d)) as Hl.
    { destruct (d_buf d) as [|b bs]; [done|]. destruct H16 as [q Hq]. rewrite zlen_cons in *. pose proof (zlen_nonneg bs). lia. }
    rewrite unknown_header_run. pose proof (unknown_header_safe _ N d Hd eq_refl Hl) as Hh. unfold bind.
    destruct (unknown_header d) as [[[]|e| |] d1]; try done. destruct Hh as [Ht _].
    destruct (dec_ok_took K N 16 d d1) as (Hd1&_&Hl1); [lia|done|done|].
    assert (16 | zlen (d_buf d1)) as H16' by (rewrite Hl1; apply Z.divide_sub_r; [done|by exists 1]).
    specialize (IH d1 Hd1 H16' ltac:(unfold zlen in *; lia)).
    destruct (decode_unknown_envelopes fuel d1) as [[[]|e| |] d2]; try done. destruct IH as (j&Hj&Ht').
    exists (1 + j). rewrite Z.mul_add_distr_r. split; [lia|]. eapply took_trans; done || lia.
Qed.
Lemma table_safe ms : safe_members ms → 16 ≤ K → safe_type K (table_typed ms).
Proof.
  intros Hl HK v0 p N H0 HN. cbn [nest fmt table_typed] in HN. destruct N as [|N]; [lia|].
  apply (safe_header K p (S N) 0); [done|]. intros len present Hlen _ Hov.
  destruct (Z.eqb_spec present ALLOC_PRESENT_U64) as [Hp|]; [|done]. cbn [negb]. specialize (Hov Hp).
  eapply safe_lift; [apply umul_ok; nia|]. apply safe_ool; [lia|]. intros d Hd Hbuf.
  assert (16 | zlen (d_buf d)) as H16 by (rewrite Hbuf; apply Z.divide_factor_r).
  assert (reads_envelopes N (decode_table_members (codes ms) v0)) as Hm.
  { apply table_members_safe; [done|]. apply Forall_forall. intros m Hin.
    pose proof (members_nest_le ms (members_nest ms) m ltac:(lia) Hin). lia. }
  specialize (Hm d Hd H16). unfold bind at 1. destruct (decode_table_members (codes ms) v0 d) as [[v|e| |] d1]; try done.
  destruct Hm as (j&Hj&Ht). destruct (dec_ok_took K N (j * 16) d d1) as (Hd1&_&Hl1); [lia|done|done|].
  assert (16 | zlen (d_buf d1)) as H16' by (rewrite Hl1; apply Z.divide_sub_r; [done|apply Z.divide_factor_r]).
  rewrite bind_get_store. pose proof (unknown_envelopes_safe (S (length (d_buf d1))) N d1 Hd1 H16' ltac:(lia)) as Hu.
  unfold bind. destruct (decode_unknown_envelopes _ d1) as [[[]|e| |] d2]; try done. destruct Hu as (j'&Hj'&Ht').
  pose proof (took_trans (j * 16) (j' * 16) d d1 d2 ltac:(lia) ltac:(lia) Ht Ht') as []. by split_and!.
Qed.

(** * Unions *)
Lemma variant_safe ms size index tag self p N : safe_members ms → union_layout ms size → size < 2 ^ 32 → 0 ≤ p →
  (members_nest ms ≤ N)%nat →
  safe_at K p N (size - 4) (decode_variant (codes ms) size index tag self) anything.
Proof.
  intros Hl Hu Hs H0. revert index self.
  induction Hl as [|[o t] ms [Lm Sm] Hl IH]; intros index self HN; [done|].
  apply Forall_cons in Hu as [[Ho Hfit] Hu]. cbn [fst snd] in *. pose proof (law_size _ Lm) as Ht. cbn [snd] in Ht.
  assert (members_nest ms ≤ N)%nat as HN' by (unfold members_nest in *; cbn in HN; lia).
  assert (nest (fmt t) ≤ N)%nat as Hn by (unfold members_nest in *; cbn in HN; lia).
  change (codes ((o, t) :: ms)) with ((o, code t) :: codes ms). cbn [decode_variant]. destruct (index =? tag).
  - eapply safe_lift; [by apply usub_ok|].
    apply (safe_size K _ _ (o - 4 + (ty_size t + (size - (ty_size t + o))))); [lia|].
    eapply safe_bind; [lia|lia|apply safe_slice; lia|]. intros _ _.
    eapply safe_step; [lia|apply (variant_slot_safe (dec (code t)) _ _ self (law_empty _ Lm))|]. intros x _.
    eapply safe_bind; [lia|lia|apply Sm; [lia|done]|]. intros y _.
    eapply safe_lift; [apply uadd_ok; unfold ty_size in *; lia|]. eapply safe_lift; [by apply usub_ok|].
    eapply safe_last; [lia|apply safe_slice; unfold ty_size in *; lia|]. intros _ _. by apply safe_ret.
  - destruct (decide (size - 4 < 0)) as [Hneg|]; [lia|].
    eapply safe_last; [lia|by apply IH|]. intros y _. by apply safe_ret.
Qed.
Lemma union_safe ms size align : safe_members ms → union_layout ms size → 4 ≤ size < 2 ^ 32 →
  safe_type K (union_typed ms size align).
Proof.
  intros Hl Hu Hs v0 p N H0 HN. change (ty_size _) with size. cbn [nest fmt union_typed] in HN.
  apply (safe_size K _ _ (4 + (size - 4))); [lia|].
  eapply safe_bind; [lia|lia|apply safe_u32|]. intros tag _. apply safe_recurse. apply variant_safe; done || lia.
Qed.

Lemma take_handles_safe n p N : safe_at K p N 0 (take_handles n) anything.
Proof.
  induction n as [|n IH]; [by apply safe_ret|]. cbn [take_handles].
  eapply safe_step; [done|apply safe_take_handle|]. intros h _.
  eapply safe_step; [done|exact IH|]. intros hs _. by apply safe_ret.
Qed.
Lemma xvariant_safe ms ord nb nh self p N : safe_members ms → 0 ≤ nb → 0 ≤ p → (members_nest ms ≤ N)%nat →
  0 ≤ member_inline_size (codes ms) ord nb ∧
  safe_at K p N (member_inline_size (codes ms) ord nb) (decode_xvariant (codes ms) ord nb nh self) anything.
Proof.
  intros Hl Hnb H0. revert self. induction Hl as [|[o t] ms [Lm Sm] Hl IH]; intros self HN.
  { split; [done|]. cbn [codes map decode_xvariant member_inline_size].
    eapply safe_last; [done| |intros u _; by apply safe_ret]. unfold decode_unknown.
    eapply safe_last; [done|by apply safe_slice|]. intros bs _. eapply safe_step; [done|apply take_handles_safe|].
    intros hs _. by apply (safe_ret K _ N _ anything). }
  assert (members_nest ms ≤ N)%nat as HN' by (unfold members_nest in *; cbn in HN; lia).
  assert (nest (fmt t) ≤ N)%nat as Hn by (unfold members_nest in *; cbn in HN; lia).
  pose proof (law_size _ Lm) as Ht. cbn [snd] in Ht.
  change (codes ((o, t) :: ms)) with ((o, code t) :: codes ms). cbn [decode_xvariant member_inline_size].
  destruct (ord =? o).
  - split; [apply Ht|]. eapply safe_step; [apply Ht|apply (variant_slot_safe (dec (code t)) _ _ self (law_empty _ Lm))|].
    intros x _. eapply safe_last; [apply Ht|by apply Sm|]. intros y _. by apply safe_ret.
  - destruct (IH (match self with Some (inr self) => Some self | _ => None end) HN') as [Hsz Hs]. split; [done|].
    eapply safe_last; [done|exact Hs|]. intros r _. by apply safe_ret.
Qed.
Lemma xunion_safe ms : safe_members ms → safe_type K (xunion_typed ms).
Proof.
  intros Hl v0 p N H0 HN. cbn [nest fmt xunion_typed] in HN. destruct N as [|N]; [lia|].
  eapply (safe_bind K p (S N) 4 20); [lia|lia|apply safe_u32|]. intros ord _.
  eapply (safe_bind K _ (S N) 4 16); [lia|lia|apply safe_u32|]. intros reserved _.
  eapply (safe_bind K _ (S N) 4 12); [lia|lia|apply safe_u32|]. intros nb Hnb.
  eapply (safe_bind K _ (S N) 4 8); [lia|lia|apply safe_u32|]. intros nh _.
  eapply (safe_last K _ (S N) 8); [lia|apply safe_u64|]. intros present _. cbn beta in *.
  destruct (negb _); [done|].
  assert (0 ≤ member_inline_size (codes ms) ord nb) as Hsz.
  { by destruct (xvariant_safe ms ord nb nh None 0 N Hl ltac:(lia) ltac:(lia) ltac:(lia)). }
  apply safe_ool; [done|].
  apply (safe_calm K N (member_inline_size (codes ms) ord nb)); [lia|]. intros q Hq. apply safe_recurse.
  apply (xvariant_safe ms ord nb nh); done || lia.
Qed.

(** * Every type *)

(** The size of the largest element of a vector or a table within a type. *)
Fixpoint elem_size (t : ftype) : Z :=
  let all := foldr (λ (m : Z * ftype) s, Z.max (elem_size (snd m)) s) 0 in
  match t with
  | TVec t | TOptVec t => Z.max (ty_size (denote t)) (elem_size t)
  | TArray t _ | TBox t | TOption t => elem_size t
  | TResult o e => Z.max (elem_size o) (elem_size e)
  | TStruct ms _ _ | TUnion ms _ _ | TXUnion ms => all ms
  | TTuple t ms => Z.max (elem_size t) (all ms)
  | TTable ms => Z.max 16 (all ms)
  | _ => 0
  end.

Lemma denote_members_safe ms :
  Forall (λ m : Z * ftype, well_formed (snd m) → elem_size (snd m) ≤ K → safe_type K (denote (snd m))) ms →
  foldr (λ (m : Z * ftype) P, well_formed (snd m) ∧ P) True ms →
  foldr (λ (m : Z * ftype) s, Z.max (elem_size (snd m)) s) 0 ms ≤ K → safe_members (denote_members ms).
Proof.
  induction 1 as [|m ms Hm Hms IH]; [constructor|]. cbn [foldr]. intros [Hw Hws] HK. constructor.
  - split; [by apply denote_lawful|]. apply Hm; [done|lia].
  - apply IH; [done|lia].
Qed.
Lemma denote_safe t : well_formed t → elem_size t ≤ K → safe_type K (denote t).
Proof.
  induction t as [p| | | | | | | |p values|p f e| | |t IH|t IH|t n IH|t IH|t IH|o e IHo IHe
    |ms size align IH|t ms IH IHms|ms IH|ms size align IH|ms IH] using ftype_members_ind;
    cbn [well_formed denote elem_size]; try change (map _ ms) with (denote_members ms).
  - intros Hp _. by apply prim_safe.
  - intros _ _. apply bool_safe.
  - intros _ _. apply string_safe.
  - intros _ _. apply opt_string_safe.
  - intros _ _ v0 p N _ _. apply handle_decode_safe.
  - intros _ _ v0 p N _ _. apply opt_handle_decode_safe.
  - intros _ _ v0 p N _ _. apply (handle_decode_safe K p N invalid_handle).
  - intros _ _ v0 p N _ _. apply (opt_handle_decode_safe K p N None).
  - intros [Hp _] _. by apply enum_safe.
  - intros Hp _. by apply bits_safe.
  - intros _ _. apply empty_struct_safe.
  - intros _ _. apply unit_safe.
  - intros Hw HK. apply vec_safe; [by apply denote_lawful|apply IH; [done|lia]|lia].
  - intros Hw HK. apply opt_vec_safe; [by apply denote_lawful|apply IH; [done|lia]|lia].
  - intros (Hw&_&_) HK. apply array_safe; [by apply denote_lawful|by apply IH].
  - intros Hw HK. apply box_safe; [by apply denote_lawful|by apply IH].
  - intros [Hw _] HK. apply option_safe; [by apply denote_lawful|by apply IH].
  - intros (Ho&He&Hf) HK. apply result_safe; [by apply denote_lawful..|apply IHo; [done|lia]|apply IHe; [done|lia]|done].
  - intros (Hw&?&?&?) HK. by apply struct_safe; [apply denote_members_safe|..].
  - intros (Ht&Hw&?&?) HK. apply tuple_safe; [by apply denote_lawful|apply IH; [done|lia]| |done|done].
    apply denote_members_safe; [done|done|lia].
  - intros (Hw&_&_) HK. apply table_safe; [|lia]. apply denote_members_safe; [done|done|lia].
  - intros (Hw&Hne&_&Hu&Hs&_) HK. pose proof (denote_members_safe ms IH Hw HK) as Hms.
    apply union_safe; [done|done|]. destruct ms as [|m ms]; [done|]. cbn [denote_members map] in *.
    apply Forall_cons in Hu as [[H4 Hsz] _]. apply Forall_cons in Hms as [[Lm _] _]. pose proof (law_size _ Lm).
    cbn [fst snd] in *. lia.
  - intros [Hw _] HK. apply xunion_safe. by apply denote_members_safe.
Qed.
End safety.
