(* ===== verification/FidlClaims.v ===== *)
(** What the FIDL encoding promises: a value of any type of the bindings is encoded as
    its wire format and decoded back to itself, alone or as the body of a
    transaction message, or the recursion limit is reported; and the values and
    messages for which the code does not do so. *)

From stdpp Require Import vector.
From S2P Require Import Prelude Std FidlCore FidlTypes FidlAggregates FidlLogic FidlFormat FidlLaws FidlStruct FidlTable FidlUnion FidlUniverse FidlSafety FidlSafetyUnions.

Section claims.
Context `{BO : !ByteOrder, BOS : !ByteOrderSpec, BOZ : !ZeroBytes}.

Abbreviation value t := (car (code (denote t))).

(** The message: the inline part padded to eight bytes, then the out-of-line parts. *)
Definition message (t : ftype) (v : value t) : list Z := boxed_ool (denote t) v.
Definition message_handles (t : ftype) (v : value t) : list Z := wire_handles (fmt (denote t)) v.

(** A value of the type whose message is shorter than 4 GiB. *)
Definition sendable (t : ftype) (v : value t) : Prop :=
  valid (fmt (denote t)) v ∧ zlen (message t v) < 2 ^ 32 ∧ zlen (message_handles t v) < 2 ^ 32.

Lemma message_length t v : well_formed t → valid (fmt (denote t)) v →
  zlen (message t v) = round_up (ty_size (denote t)) 8 + zlen (wire_ool (fmt (denote t)) v).
Proof.
  intros Hw Hv. pose proof (denote_lawful t Hw) as L. pose proof (law_size _ L).
  unfold message, boxed_ool, chunk. rewrite !zlen_app, (law_length _ L), zlen_pad8 by (done || lia). lia.
Qed.

Lemma prepare_ok buf handles size : 0 ≤ size < 2 ^ 32 →
  prepare_for_encoding buf handles size = Ok (est MAX_RECURSION [] (zeros size) (pad8 size) []).
Proof.
  intros Hs. pose proof (round_up_spec size 8) as [Hr _]; [lia..|]. unfold prepare_for_encoding.
  rewrite round_up_to_align_ok by lia. cbn [rbind]. unfold est. do 2 f_equal.
  change (take 0 buf) with (@nil Z). rewrite <- (Z.add_0_l (round_up size 8)).
  change 0 with (zlen (@nil Z)) at 1. rewrite vec_resize_more by lia. cbn [app].
  unfold pad8. rewrite <- zeros_app by lia. f_equal. lia.
Qed.
(** A computation that writes a whole message. *)
Lemma writes_message {A} (m : M Error Encoder A) size n a i o h :
  writes m n a i o h → zlen i = size → 0 ≤ size < 2 ^ 32 →
  zlen (chunk i ++ o) < 2 ^ 32 → zlen h < 2 ^ 32 →
  yields m (est MAX_RECURSION [] (zeros size) (pad8 size) []) n a
    (est MAX_RECURSION i [] (pad8 size ++ o) h).
Proof.
  intros Hm <- Hs Hb Hh. unfold chunk in Hb. rewrite !zlen_app in Hb.
  apply (Hm MAX_RECURSION [] (pad8 (zlen i)) []); rewrite ?zlen_nil; [|lia|lia].
  rewrite Z.add_0_l. apply pad8_aligned, zlen_nonneg.
Qed.

Lemma encode_denoted t v buf handles : well_formed t → sendable t v →
  if decide (edepth (fmt (denote t)) v ≤ MAX_RECURSION)%nat
  then encoder_encode (enc (code (denote t))) buf handles v
       = (Ok (spent (fmt (denote t)) v), (message t v, message_handles t v))
  else fst (encoder_encode (enc (code (denote t))) buf handles v) = Err MaxRecursionDepth.
Proof.
  intros Hw (Hv&Hb&Hh). pose proof (denote_lawful t Hw) as L. unfold encoder_encode.
  pose proof (law_size _ L) as Hs. rewrite (law_inline_size _ L), prepare_ok by done.
  pose proof (writes_message _ _ _ _ _ _ _ (law_encode _ L v Hv) (law_length _ L v Hv) Hs Hb Hh) as Hy.
  unfold yields in Hy. change (depth_of _) with MAX_RECURSION in Hy. destruct (decide _).
  - rewrite Hy. unfold est. cbn [e_buf e_handles app]. unfold message, boxed_ool, chunk.
    by rewrite (law_length _ L), <- !app_assoc by done.
  - destruct Hy as [s ->]. done.
Qed.
Lemma decode_denoted t v v0 : well_formed t → sendable t v → Z.of_nat (nest (fmt (denote t))) < 2 ^ 31 →
  decode_into (dec (code (denote t))) (message t v) (message_handles t v) v0
  = if decide (ddepth (fmt (denote t)) v ≤ MAX_RECURSION)%nat then Ok v else Err MaxRecursionDepth.
Proof.
  intros Hw (Hv&Hb&Hh) Hn. pose proof (denote_lawful t Hw) as L. pose proof (law_size _ L) as Hs.
  pose proof (message_length t v Hw Hv) as Hl. set (o := wire_ool (fmt (denote t)) v) in *.
  pose proof (zlen_nonneg o). pose proof (round_up_spec (ty_size (denote t)) 8) as [Hr _]; [lia..|].
  unfold decode_into. fold (ty_size (denote t)). rewrite round_up_to_align_ok by lia. cbn [rbind].
  rewrite (proj2 (Z.ltb_ge _ _)) by lia.
  assert (zlen (chunk (wire_inline (fmt (denote t)) v)) = round_up (ty_size (denote t)) 8) as Hc.
  { unfold chunk. rewrite zlen_app, (law_length _ L), zlen_pad8 by (done || lia). lia. }
  unfold message, boxed_ool. rewrite take_zlen_app, drop_zlen_app, Hc by done. fold o.
  pose proof (law_decode _ L v v0 _ Hv (Nat.le_refl _) MAX_RECURSION (pad8 (ty_size (denote t)))
    (round_up (ty_size (denote t)) 8) [] (zlen o) []) as Hy.
  rewrite !app_nil_r, !zlen_nil, (law_length _ L), zlen_pad8 in Hy by (done || lia).
  specialize (Hy ltac:(lia) ltac:(fold o; lia) ltac:(lia) ltac:(fold (message_handles t v); lia) ltac:(nia)).
  unfold yields in Hy. change (depth_of _) with MAX_RECURSION in Hy.
  unfold chunk, message_handles. rewrite (law_length _ L) by done. fold o in Hy. unfold dst in Hy.
  destruct (decide _); [by rewrite Hy|]. destruct Hy as [s ->]. done.
Qed.

(** C10: [Encoder::encode] of a value of a well-formed type leaves in the buffers the
    message of its wire format and its handles, whatever was in them, and invalid
    handles in the value; it fails only when the value is nested deeper than the
    recursion limit, with [MaxRecursionDepth].  Tables with a gap in their ordinals, and
    results without the room for their values, are not well formed. *)
Theorem fidl_encode_correct t v buf handles : well_formed t → sendable t v →
  if decide (edepth (fmt (denote t)) v ≤ MAX_RECURSION)%nat
  then encoder_encode (enc (code (denote t))) buf handles v
       = (Ok (spent (fmt (denote t)) v), (message t v, message_handles t v))
  else fst (encoder_encode (enc (code (denote t))) buf handles v) = Err MaxRecursionDepth.
Proof. apply encode_denoted. Qed.

(** C9: Encoding a value that is not nested too deeply succeeds, and [Decoder::decode_into] reads
    what it wrote back as the same value with its handles, into any value of the
    type: no byte and no handle is left over.  Decoding fails only when it nests
    deeper than the recursion limit.  The type is [well_formed]: its tables have no gap in
    their ordinals, and its results have room for their values. *)
Theorem fidl_roundtrip t v v0 buf handles :
  well_formed t → sendable t v → Z.of_nat (nest (fmt (denote t))) < 2 ^ 31 →
  (edepth (fmt (denote t)) v ≤ MAX_RECURSION)%nat →
  ∃ r bytes hs,
    encoder_encode (enc (code (denote t))) buf handles v = (Ok r, (bytes, hs)) ∧
    decode_into (dec (code (denote t))) bytes hs v0
    = if decide (ddepth (fmt (denote t)) v ≤ MAX_RECURSION)%nat then Ok v else Err MaxRecursionDepth.
Proof.
  intros Hw Hs Hn He. pose proof (encode_denoted t v buf handles Hw Hs) as H. rewrite decide_True in H by done.
  eexists _, _, _. split; [exact H|]. by apply decode_denoted.
Qed.


(** [with_tls_encoded] gives the message to its closure and leaves the buffers of the
    thread empty and free for the next message. *)
Lemma with_tls_encoded_message {T E} t v (from : Error → E) f buf (r : T) bufs :
  well_formed t → sendable t v → (edepth (fmt (denote t)) v ≤ MAX_RECURSION)%nat → borrowed buf = false →
  f (message t v) (message_handles t v) = (Ok r, bufs) →
  with_tls_encoded from (enc (code (denote t))) v f buf
  = (Ok r, {| coding_bytes := []; coding_handles := []; borrowed := false |}).
Proof.
  intros Hw Hs He Hb Hf. pose proof (encode_denoted t v (coding_bytes buf) (coding_handles buf) Hw Hs) as H.
  rewrite decide_True in H by done. unfold with_tls_encoded, with_tls_coding_bufs. by rewrite Hb, H, Hf.
Qed.

(** * Transaction messages *)
Definition header_type : ftype :=
  TStruct [(0, TPrim (PNum 4 false)); (8, TPrim (PNum 4 false)); (12, TPrim (PNum 4 false))] 16 0.
Lemma header_well_formed : well_formed header_type.
Proof. vm_compute. repeat split; discriminate. Qed.
Definition header_ok (tx_id flags ordinal : Z) : Prop :=
  0 ≤ tx_id < 2 ^ 32 ∧ 0 ≤ flags < 2 ^ 32 ∧ 0 ≤ ordinal < 2 ^ 32.

Lemma pad8_header size : pad8 (16 + size) = pad8 size.
Proof.
  unfold pad8, round_up. cbn [Z.eqb]. replace (16 + size + 8 - 1) with (2 * 8 + (size + 8 - 1)) by lia.
  rewrite Z.div_add_l by lia. f_equal. lia.
Qed.
(** The message of a header and a body: the body's message after the header. *)
Lemma encode_transaction t v tx_id flags ordinal buf handles :
  well_formed t → sendable t v → header_ok tx_id flags ordinal → zlen (message t v) + 16 < 2 ^ 32 →
  (edepth (fmt (denote t)) v ≤ MAX_RECURSION)%nat →
  encoder_encode (message_encodable (code (denote t))) buf handles (transaction_header tx_id flags ordinal, v)
  = (Ok (transaction_header tx_id flags ordinal, spent (fmt (denote t)) v),
     (message header_type (transaction_header tx_id flags ordinal) ++ message t v, message_handles t v)).
Proof.
  intros Hw (Hv&Hb&Hh) Hok Hb' Hd. pose proof (denote_lawful t Hw) as L. pose proof (law_size _ L) as Hs.
  pose proof (denote_lawful _ header_well_formed) as Lh. set (hdr := transaction_header tx_id flags ordinal).
  assert (valid (fmt (denote header_type)) hdr) as Hvh by (destruct Hok as (?&?&?); done).
  assert (zlen (wire_inline (fmt (denote header_type)) hdr) = 16) as Hlh by apply (law_length _ Lh hdr Hvh).
  assert (writes (encode (message_encodable (code (denote t))) (hdr, v)) (1 `max` edepth (fmt (denote t)) v)
    (hdr, spent (fmt (denote t)) v) (wire_inline (fmt (denote header_type)) hdr ++ wire_inline (fmt (denote t)) v)
    (wire_ool (fmt (denote t)) v) (message_handles t v)) as Hm.
  { eapply (writes_bind _ _ 1 _ hdr _ _ _ [] _ []); [by exists 0|exact (law_encode _ Lh hdr Hvh)|].
    eapply writes_done; [by apply (law_ool _ L)|by apply (law_encode _ L)|apply writes_ret]. }
  assert (message header_type hdr = wire_inline (fmt (denote header_type)) hdr) as Hmh.
  { unfold message, boxed_ool, chunk. rewrite Hlh. change (wire_ool _ hdr) with (@nil Z). by rewrite !app_nil_r. }
  pose proof (message_length t v Hw Hv) as Hl. pose proof (round_up_spec (ty_size (denote t)) 8) as [Hr _]; [lia..|].
  pose proof (zlen_nonneg (wire_ool (fmt (denote t)) v)).
  unfold encoder_encode. cbn [inline_size message_encodable fst snd].
  change (inline_size (enc header_codable) hdr) with 16. rewrite (law_inline_size _ L), prepare_ok by (done || lia).
  assert (zlen (wire_inline (fmt (denote header_type)) hdr ++ wire_inline (fmt (denote t)) v) = 16 + ty_size (denote t)) as Hli
    by by rewrite zlen_app, Hlh, (law_length _ L).
  pose proof (writes_message _ (16 + ty_size (denote t)) _ _ _ _ _ Hm Hli) as Hy.
  unfold chunk in Hy. rewrite zlen_app, (zlen_app _ (pad8 _)), Hli, pad8_header, zlen_pad8 in Hy by lia.
  apply yields_run in Hy; [|lia|lia|done|change (depth_of _) with MAX_RECURSION; unfold MAX_RECURSION in *; lia].
  rewrite pad8_header, Hy, Hmh. unfold est. cbn [e_buf e_handles app]. unfold message, boxed_ool, chunk.
  by rewrite (law_length _ L), <- !app_assoc by done.
Qed.

Lemma header_message_length tx_id flags ordinal :
  header_ok tx_id flags ordinal → zlen (message header_type (transaction_header tx_id flags ordinal)) = 16.
Proof. intros (?&?&?). by rewrite (message_length header_type) by (done || apply header_well_formed). Qed.
(** The header of a message is read from it, and what follows is left. *)
Lemma decode_header tx_id flags ordinal body :
  header_ok tx_id flags ordinal →
  decode_transaction_header (message header_type (transaction_header tx_id flags ordinal) ++ body)
  = Ok (transaction_header tx_id flags ordinal, body).
Proof.
  intros Hok. set (hdr := transaction_header tx_id flags ordinal).
  pose proof (header_message_length tx_id flags ordinal Hok) as Hl. fold hdr in Hl.
  assert (sendable header_type hdr) as Hsh by (destruct Hok as (?&?&?); split; [done|by rewrite Hl]).
  pose proof (decode_denoted header_type hdr (transaction_header 0 0 0) header_well_formed Hsh ltac:(done)) as Hdec.
  rewrite decide_True in Hdec by (unfold MAX_RECURSION; cbn; lia).
  unfold decode_transaction_header. cbn [rbind new_empty dec header_codable struct_codable struct_decodable].
  change (fields_new_empty _) with (Ok (E := Error) (transaction_header 0 0 0)). cbn [rbind].
  change (type_size _) with 16.
  rewrite zlen_app, Hl. pose proof (zlen_nonneg body). by_ltb.
  rewrite take_zlen_app, drop_zlen_app by done.
  change (decode_into _ (message header_type hdr) [] _) with
    (decode_into (dec (code (denote header_type))) (message header_type hdr) (message_handles header_type hdr) (transaction_header 0 0 0)).
  by rewrite Hdec.
Qed.

(** C12: A transaction message is encoded and taken apart again: the header is read
    from it, and the bytes after it are decoded as the body, with the handles.  The type is
    [well_formed] (no gap in the ordinals of its tables, room in its results), the message has
    less than 2^32 bytes, and the value is within the recursion limit of encoding and of decoding. *)
Theorem fidl_transaction_roundtrip t v v0 tx_id flags ordinal buf handles :
  well_formed t → sendable t v → header_ok tx_id flags ordinal → zlen (message t v) + 16 < 2 ^ 32 →
  Z.of_nat (nest (fmt (denote t))) < 2 ^ 31 →
  (edepth (fmt (denote t)) v ≤ MAX_RECURSION)%nat → (ddepth (fmt (denote t)) v ≤ MAX_RECURSION)%nat →
  ∃ r bytes hs body,
    encoder_encode (message_encodable (code (denote t))) buf handles (transaction_header tx_id flags ordinal, v)
    = (Ok r, (bytes, hs)) ∧
    decode_transaction_header bytes = Ok (transaction_header tx_id flags ordinal, body) ∧
    decode_into (dec (code (denote t))) body hs v0 = Ok v.
Proof.
  intros Hw Hs Hok Hb Hn He Hd. eexists _, _, _, _. split_and!; [by apply encode_transaction|by apply decode_header|].
  rewrite decode_denoted by done. by rewrite decide_True.
Qed.
End claims.

(** * A type and a value for which the hypotheses hold *)
#[local] Existing Instances le_order le_order_spec le_order_zero.

Definition demo_type : ftype :=
  TStruct
    [(0, TPrim (PByte false));
     (8, TString);
     (24, TOption (TTable [(1, TPrim (PNum 4 true)); (2, THandle); (3, TBool)]));
     (40, TVec (TUnion [(8, TPrim (PNum 8 false)); (8, TString)] 24 8));
     (56, TResult TEmptyStruct (TPrim (PNum 4 true)));
     (64, TXUnion [(7, TPrim (PNum 8 true))])] 88 8.
Definition demo_value : car (code (denote demo_type)) :=
  (5, ([104; 105], (Some (Some (-3), (Some 77, (None, tt))),
    ([inl 12; inr (inl [111; 107])], (inr (-1),
    (inr {| u_ordinal := 9; u_bytes := [1; 2; 3; 4; 5; 6; 7; 8]; u_handles := [88] |}, tt)))))).
Lemma demo_well_formed : well_formed demo_type.
Proof. apply type_test_ok. vm_compute. reflexivity. Qed.
Lemma demo_sendable : sendable demo_type demo_value.
Proof.
  split_and!; [|vm_compute; done|vm_compute; done].
  refine (conj _ (conj _ (conj _ (conj _ (conj _ (conj _ I)))))).
  - split; by vm_compute.
  - split; by vm_compute.
  - refine (conj _ (conj I (conj I I))). split; by vm_compute.
  - split; [|done]. apply Forall_cons. split; [split; by vm_compute|]. apply Forall_singleton. split; by vm_compute.
  - split; by vm_compute.
  - split; [set_solver|]. split; [split; by vm_compute|by exists 1].
Qed.

Lemma fidl_encode_correct_witness :
  well_formed demo_type ∧ sendable demo_type demo_value ∧
  if decide (edepth (fmt (denote demo_type)) demo_value ≤ MAX_RECURSION)%nat
  then encoder_encode (enc (code (denote demo_type))) [1; 2; 3] [4] demo_value
       = (Ok (spent (fmt (denote demo_type)) demo_value), (message demo_type demo_value, message_handles demo_type demo_value))
  else fst (encoder_encode (enc (code (denote demo_type))) [1; 2; 3] [4] demo_value) = Err MaxRecursionDepth.
Proof.
  split; [apply demo_well_formed|split; [apply demo_sendable|]].
  apply (fidl_encode_correct demo_type demo_value [1; 2; 3] [4]); [apply demo_well_formed|apply demo_sendable].
Defined.

Lemma fidl_roundtrip_witness :
  ∃ r bytes hs,
    encoder_encode (enc (code (denote demo_type))) [] [] demo_value = (Ok r, (bytes, hs)) ∧
    decode_into (dec (code (denote demo_type))) bytes hs demo_value
    = if decide (ddepth (fmt (denote demo_type)) demo_value ≤ MAX_RECURSION)%nat
      then Ok demo_value else Err MaxRecursionDepth.
Proof.
  apply (fidl_roundtrip demo_type demo_value demo_value [] []);
    [apply demo_well_formed|apply demo_sendable|reflexivity|apply Nat.leb_le; reflexivity].
Defined.

Lemma fidl_transaction_roundtrip_witness :
  ∃ r bytes hs body,
    encoder_encode (message_encodable (code (denote demo_type))) [] [] (transaction_header 1 0 42, demo_value)
    = (Ok r, (bytes, hs)) ∧
    decode_transaction_header bytes = Ok (transaction_header 1 0 42, body) ∧
    decode_into (dec (code (denote demo_type))) body hs demo_value = Ok demo_value.
Proof.
  apply (fidl_transaction_roundtrip demo_type demo_value demo_value 1 0 42 [] []);
    [apply demo_well_formed|apply demo_sendable|repeat split; lia|reflexivity|reflexivity
    |apply Nat.leb_le; reflexivity|apply Nat.leb_le; reflexivity].
Defined.


(** * What the code does otherwise *)
Abbreviation u64 := (TPrim (PNum 8 false)).

Definition gap_table : ftype := TTable [(1, TPrim (PNum 8 true)); (5, TPrim (PNum 8 true))].
(** The ordinals of a table are honoured when it is encoded and not when it is decoded: a
    table with members of ordinals 1 and 5 is not read back. *)
Example table_gap_rejected :
  let '(r, (bytes, hs)) := encoder_encode (enc (code (denote gap_table))) [] [] (None, (Some 67, tt)) in
  r = Ok (None, (Some 67, tt)) ∧
  decode_into (dec (code (denote gap_table))) bytes hs (None, (None, tt)) = Err UnknownTableField.
Proof. vm_compute. split; reflexivity. Qed.

(** The length of a vector is multiplied without a check: sixteen bytes from the other side
    of a channel make the decoder of [Vec<u64>] panic. *)
Example vector_length_panics :
  decode_into (dec (code (denote (TVec u64)))) (to_le_bytes 8 (2 ^ 61) ++ to_le_bytes 8 ALLOC_PRESENT_U64) [] []
  = Panic.
Proof. vm_compute. reflexivity. Qed.

Definition tuple_result : ftype := TResult (TTuple u64 [(1, TPrim (PNum 4 false))]) (TPrim (PNum 4 true)).
(** The size of a tuple is not rounded up to its alignment, and the size of a result does
    not have room for it: [Ok((1u64, 2u32))] cannot be encoded. *)
Example tuple_result_rejected :
  fst (encoder_encode (enc (code (denote tuple_result))) [] [] (inl (1, (2, tt)))) = Err OutOfRange.
Proof. vm_compute. reflexivity. Qed.

Definition nested_results : ftype := TVec (TVec (TResult (TPrim (PByte false)) (TPrim (PNum 4 false)))).
(** The position of a padding byte that is not zero is wrong two levels out of line: the
    byte 38 of the message is reported as the byte 54. *)
Example nested_padding_position :
  decode_into (dec (code (denote nested_results))) (<[38%nat := 1]> (message nested_results [[inl 7]])) [] []
  = Err (NonZeroPadding 53 54).
Proof. vm_compute. reflexivity. Qed.

Fixpoint deep_type (n : nat) : ftype :=
  match n with O => TVec u64 | S n => TArray (deep_type n) 1 end.
Fixpoint deep_value (n : nat) : car (code (denote (deep_type n))) :=
  match n with O => [] | S n => [# deep_value n] end.
(** An empty vector inside thirty-two arrays is encoded, and decoding it exceeds the
    recursion limit. *)
Example empty_vector_too_deep :
  let '(r, (bytes, hs)) := encoder_encode (enc (code (denote (deep_type 32)))) [] [] (deep_value 32) in
  r = Ok (deep_value 32) ∧
  decode_into (dec (code (denote (deep_type 32)))) bytes hs (deep_value 32) = Err MaxRecursionDepth.
Proof. vm_compute. split; reflexivity. Qed.
