(* ===== verification/Threads.v ===== *)
(** Programs of several threads: a thread is a program of atomic steps on the state it
    shares with the others, and a machine interleaves the steps of any number of
    threads with those of an environment.  A lock that is held only for the
    duration of a block of code makes the block one atomic step. *)

From S2P Require Import Prelude.

(** [Abort] is a panic.  [Iter] is a loop: the body returns what to go on with, or
    what the loop returns. *)
Inductive prog (S A : Type) : Type :=
| Return (a : A)
| Abort
| Atomic {X : Type} (f : S → X * S) (k : X → prog S A)
| Iter {B C : Type} (body : B → prog S (B + C)) (b : B) (k : C → prog S A).
Arguments Return {S A} a.
Arguments Abort {S A}.
Arguments Atomic {S A X} f k.
Arguments Iter {S A B C} body b k.

Fixpoint pbind {S A B : Type} (p : prog S A) (g : A → prog S B) : prog S B :=
  match p with
  | Return a => g a
  | Abort => Abort
  | Atomic f k => Atomic f (λ x, pbind (k x) g)
  | Iter body b k => Iter body b (λ c, pbind (k c) g)
  end.

Declare Scope prog_scope.
Delimit Scope prog_scope with prog.
Notation "x <- p ;; k" := (pbind p (λ x, k))
  (at level 100, p at next level, right associativity) : prog_scope.
Notation "p ;;; k" := (pbind p (λ _, k))
  (at level 100, right associativity) : prog_scope.

Definition atomically {S X : Type} (f : S → X * S) : prog S X := Atomic f Return.
Definition iterate {S B C : Type} (body : B → prog S (B + C)) (b : B) : prog S C := Iter body b Return.

(** [std::task::Poll]. *)
Inductive Poll (A : Type) : Type :=
| Ready (a : A)
| Pending.
Arguments Ready {A} a.
Arguments Pending {A}.

(** A step of a program; none when it has returned or panicked. *)
Definition next {S A : Type} (p : prog S A) (s : S) : option (prog S A * S) :=
  match p with
  | Return _ | Abort => None
  | Atomic f k => Some (k (fst (f s)), snd (f s))
  | Iter body b k =>
      Some (pbind (body b) (λ r, match r with inl b => Iter body b k | inr c => k c end), s)
  end.

(** A program that runs alone, for at most [fuel] steps. *)
Fixpoint run_alone {S A E : Type} (fuel : nat) (p : prog S A) (s : S) : result E A * S :=
  match p with
  | Return a => (Ok a, s)
  | Abort => (Panic, s)
  | _ =>
      match fuel, next p s with
      | Datatypes.S fuel, Some (p, s) => run_alone fuel p s
      | _, _ => (OutOfFuel, s)
      end
  end.

(** A program that runs alone to its end. *)
Inductive runs {S : Type} : ∀ {A : Type}, prog S A → S → A → S → Prop :=
| runs_return A (a : A) s : runs (Return a) s a s
| runs_atomic A X (f : S → X * S) (k : X → prog S A) s a s' :
    runs (k (fst (f s))) (snd (f s)) a s' → runs (Atomic f k) s a s'
| runs_iter A B C (body : B → prog S (B + C)) b (k : C → prog S A) s r s1 a s' :
    runs (body b) s r s1 → runs (match r with inl b => Iter body b k | inr c => k c end) s1 a s' →
    runs (Iter body b k) s a s'.

Fixpoint exec {S : Type} (fuel : nat) {A : Type} (p : prog S A) (s : S) : option (A * S) :=
  match fuel with
  | O => None
  | Datatypes.S fuel =>
      match p with
      | Return a => Some (a, s)
      | Abort => None
      | Atomic f k => exec fuel (k (fst (f s))) (snd (f s))
      | Iter body b k =>
          match exec fuel (body b) s with
          | Some (r, s) => exec fuel (match r with inl b => Iter body b k | inr c => k c end) s
          | None => None
          end
      end
  end.
Lemma exec_runs {S A} fuel (p : prog S A) s a s' : exec fuel p s = Some (a, s') → runs p s a s'.
Proof.
  revert A p s a s'. induction fuel as [|fuel IH]; [done|]. intros A p s a s' H.
  destruct p as [b| |X f k|B C body b k]; cbn in H; [|done|constructor; by apply IH|].
  - injection H as <- <-. constructor.
  - destruct (exec fuel (body b) s) as [[r s1]|] eqn:E; [|done]. econstructor; [by apply IH|by apply IH].
Qed.

(** [ends p s Q]: run alone from [s], the program returns, as [Q] says. *)
Definition ends {S A : Type} (p : prog S A) (s : S) (Q : A → S → Prop) : Prop := ∃ a s', runs p s a s' ∧ Q a s'.
Lemma ends_return {S A} (a : A) (s : S) (Q : A → S → Prop) : Q a s → ends (Return a) s Q.
Proof. intros H. exists a, s. split; [constructor|done]. Qed.
Lemma ends_atomically {S X} (f : S → X * S) s (Q : X → S → Prop) :
  Q (fst (f s)) (snd (f s)) → ends (atomically f) s Q.
Proof. intros H. eexists _, _. split; [constructor; constructor|done]. Qed.
Lemma runs_bind {S A B} (p : prog S A) (g : A → prog S B) s a s1 b s' :
  runs p s a s1 → runs (g a) s1 b s' → runs (pbind p g) s b s'.
Proof.
  intros Hp. revert g. induction Hp as [A a s|A X f k s a s1 _ IH|A B' C body b' k s r s2 a s1 Hb _ _ IH];
    intros g Hg; cbn; [done|constructor; by apply IH|]. econstructor; [done|]. destruct r; [by apply IH|by apply IH].
Qed.
Lemma ends_bind {S A B} (p : prog S A) (g : A → prog S B) s (Q : B → S → Prop) :
  ends p s (λ a s1, ends (g a) s1 Q) → ends (pbind p g) s Q.
Proof. intros (a&s1&Hp&b&s'&Hg&HQ). exists b, s'. split; [by eapply runs_bind|done]. Qed.
Lemma ends_mono {S A} (p : prog S A) s (Q Q' : A → S → Prop) :
  (∀ a s', Q a s' → Q' a s') → ends p s Q → ends p s Q'.
Proof. intros HQ (a&s'&Hr&H). exists a, s'. auto. Qed.
(** A loop whose body makes [m] smaller. *)
Lemma ends_iterate {S B C} (body : B → prog S (B + C)) (m : S → nat) (L : B → S → Prop) b s (Q : C → S → Prop) :
  L b s →
  (∀ b s, L b s → ends (body b) s (λ r s', match r with inl b' => L b' s' ∧ (m s' < m s)%nat | inr c => Q c s' end)) →
  ends (iterate body b) s Q.
Proof.
  intros HL Hb. remember (m s) as n eqn:Hn. revert b s HL Hn. induction (lt_wf n) as [n _ IH]. intros b s HL ->.
  destruct (Hb b s HL) as (r&s1&Hr&HQ). destruct r as [b'|c].
  - destruct HQ as [HL' Hm]. destruct (IH (m s1) Hm b' s1 HL' eq_refl) as (c&s'&Hc&HQ). exists c, s'.
    split; [by econstructor|done].
  - exists c, s1. split; [econstructor; [done|constructor]|done].
Qed.
Lemma runs_inv {S A} (p : prog S A) s a s' :
  runs p s a s' →
  match p with
  | Return b => a = b ∧ s' = s
  | Abort => False
  | Atomic f k => runs (k (fst (f s))) (snd (f s)) a s'
  | Iter body b k =>
      ∃ r s1, runs (body b) s r s1 ∧ runs (match r with inl b => Iter body b k | inr c => k c end) s1 a s'
  end.
Proof. destruct 1; eauto. Qed.
Lemma runs_det {S A} (p : prog S A) s a s1 b s2 : runs p s a s1 → runs p s b s2 → a = b ∧ s1 = s2.
Proof.
  intros Hp. revert b s2.
  induction Hp as [A a s|A X f k s a s1 _ IH|A B C body x k s r s3 a s1 _ IHb _ IHk]; intros b s2 H.
  - apply runs_inv in H as [-> ->]. done.
  - apply runs_inv in H. by apply IH.
  - apply runs_inv in H as (r'&s4&Hr&Hk). destruct (IHb _ _ Hr) as [<- <-]. by apply IHk.
Qed.
(** What [ends] says of one run, it says of the run there is. *)
Lemma ends_runs {S A} (p : prog S A) s a s' Q : ends p s Q → runs p s a s' → Q a s'.
Proof. intros (b&s2&Hb&HQ) Ha. by destruct (runs_det _ _ _ _ _ _ Ha Hb) as [-> ->]. Qed.

Lemma ends_and {S A} (p : prog S A) s (Q Q' : A → S → Prop) :
  ends p s Q → ends p s Q' → ends p s (λ a s', Q a s' ∧ Q' a s').
Proof. intros (a&s'&Hr&HQ) HQ'. exists a, s'. split_and!; [done|done|]. by eapply ends_runs. Qed.

Section machine.
Context {S A : Type}.
(** The calls threads make, and what the environment does to the state. *)
Context (calls : prog S A → Prop) (env : S → S → Prop).

(** The threads in the order of their calls; one that has returned stays. *)
Record config := Config { shared : S; pool : list (prog S A) }.

Inductive cstep : config → config → Prop :=
| step_thread s pool i p p' s' :
    pool !! i = Some p → next p s = Some (p', s') →
    cstep (Config s pool) (Config s' (<[i := p']> pool))
| step_call s pool p : calls p → cstep (Config s pool) (Config s (pool ++ [p]))
| step_env s s' pool : env s s' → cstep (Config s pool) (Config s' pool).

Definition reachable (s : S) (c : config) : Prop := rtc cstep (Config s []) c.

(** The threads of a schedule take one step each. *)
Fixpoint run_schedule (sch : list nat) (c : config) : config :=
  match sch with
  | [] => c
  | i :: sch =>
      match pool c !! i with
      | Some p =>
          match next p (shared c) with
          | Some (p, s) => run_schedule sch (Config s (<[i := p]> (pool c)))
          | None => c
          end
      | None => c
      end
  end.
Lemma run_schedule_steps sch c : rtc cstep c (run_schedule sch c).
Proof.
  revert c. induction sch as [|i sch IH]; intros c; cbn; [done|].
  destruct (pool c !! i) as [p|] eqn:Hi; [|done]. destruct (next p (shared c)) as [[q s]|] eqn:Hn; [|done].
  eapply rtc_l; [|apply IH]. destruct c. by eapply step_thread.
Qed.

(** Invariants of machines: [code] names the points of the programs, and the invariant
    is about the shared state and the point of each thread. *)
Section points.
Context {P : Type} (code : P → prog S A) (J : S → list P → Prop).

Definition at_points (c : config) : Prop := ∃ pts, pool c = code <$> pts ∧ J (shared c) pts.

Context (J_thread : ∀ s pts i p q s', J s pts → pts !! i = Some p →
  next (code p) s = Some (q, s') → ∃ p', q = code p' ∧ J s' (<[i := p']> pts)).
Context (J_call : ∀ s pts q, J s pts → calls q → ∃ p, q = code p ∧ J s (pts ++ [p])).
Context (J_env : ∀ s s' pts, J s pts → env s s' → J s' pts).

Lemma at_points_step c c' : at_points c → cstep c c' → at_points c'.
Proof using J_call J_env J_thread.
  intros (pts&Hp&HJ) Hs. destruct Hs as [s pl i p p' s' Hi Hn|s pl p Hc|s s' pl He]; cbn in Hp, HJ; subst pl.
  - rewrite list_lookup_fmap in Hi. destruct (pts !! i) as [pt|] eqn:Hpt; [|done]. injection Hi as <-.
    destruct (J_thread _ _ _ _ _ _ HJ Hpt Hn) as (p''&->&HJ'). exists (<[i := p'']> pts).
    by rewrite list_fmap_insert.
  - destruct (J_call _ _ _ HJ Hc) as (pt&->&HJ'). exists (pts ++ [pt]). by rewrite fmap_app.
  - exists pts. split; [done|]. by eapply J_env.
Qed.

Lemma at_points_reachable s c : J s [] → reachable s c → at_points c.
Proof using J_call J_env J_thread.
  intros H0 Hr. unfold reachable in Hr. remember (Config s []) as c0 eqn:E.
  assert (at_points c0) as H by (subst; by exists []). clear E H0.
  induction Hr; [done|]. eauto using at_points_step.
Qed.
End points.
End machine.
Arguments Config {S A} shared pool.
Arguments config : clear implicits.

(** * A logic for threads

    Every thread has a local ghost state, and [J] relates the shared state to the local
    states of all threads.  [wp k p Q]: run by a thread with local state [k], whatever
    the others do, [p] does not panic, keeps [J], and returns only what [Q] allows. *)
Section logic.
Context {S K : Type} (J : S → list K → Prop).

Fixpoint wp {A : Type} (k : K) (p : prog S A) (Q : K → A → Prop) : Prop :=
  match p with
  | Return a => Q k a
  | Abort => False
  | Atomic f g =>
      ∀ s ks i, J s ks → ks !! i = Some k →
      ∃ k', J (snd (f s)) (<[i := k']> ks) ∧ wp k' (g (fst (f s))) Q
  | @Iter _ _ B C body b g =>
      ∃ L : K → B → Prop, L k b ∧
      ∀ k b, L k b → wp k (body b) (λ k r, match r with inl b => L k b | inr c => wp k (g c) Q end)
  end.

Lemma wp_mono {A} k (p : prog S A) (Q Q' : K → A → Prop) :
  (∀ k a, Q k a → Q' k a) → wp k p Q → wp k p Q'.
Proof.
  revert k Q Q'. induction p as [A a|A|A X f g IH|A B C body IHb b g IHg]; intros k Q Q' HQ; cbn; [auto|done| |].
  - intros H s ks i HJ Hi. destruct (H s ks i HJ Hi) as (k'&HJ'&Hw). eauto.
  - intros (L&Hb&H). exists L. split; [done|]. intros k' b' HL. eapply IHb; [|by apply H].
    intros k'' [b''|c]; [done|]. by apply IHg.
Qed.
Lemma wp_bind {A B} k (p : prog S A) (g : A → prog S B) Q :
  wp k p (λ k a, wp k (g a) Q) → wp k (pbind p g) Q.
Proof.
  revert k. induction p as [A a|A|A X f h IH|A B' C body IHb b h IHh]; intros k; cbn; [done|done| |].
  - intros H s ks i HJ Hi. destruct (H s ks i HJ Hi) as (k'&HJ'&Hw). eauto.
  - intros (L&Hb&H). exists L. split; [done|]. intros k' b' HL. eapply wp_mono; [|by apply H].
    intros k'' [b''|c]; [done|]. apply IHh.
Qed.
Lemma wp_atomically {X} (f : S → X * S) k (Q : K → X → Prop) :
  (∀ s ks i, J s ks → ks !! i = Some k → ∃ k', J (snd (f s)) (<[i := k']> ks) ∧ Q k' (fst (f s))) →
  wp k (atomically f) Q.
Proof. done. Qed.
Lemma wp_iterate {B C} (body : B → prog S (B + C)) (L : K → B → Prop) k b Q :
  L k b → (∀ k b, L k b → wp k (body b) (λ k r, match r with inl b => L k b | inr c => Q k c end)) →
  wp k (iterate body b) Q.
Proof. intros. by exists L. Qed.
Lemma wp_step {A} k (p p' : prog S A) s s' ks i Q :
  wp k p Q → next p s = Some (p', s') → J s ks → ks !! i = Some k →
  ∃ k', J s' (<[i := k']> ks) ∧ wp k' p' Q.
Proof.
  destruct p as [a| |X f g|B C body b g]; cbn; intros Hw [= <- <-] HJ Hi; [by apply Hw|].
  destruct Hw as (L&Hb&H). exists k. rewrite list_insert_id by done. split; [done|]. apply wp_bind.
  eapply wp_mono; [|by apply H]. intros k' [b'|c]; [|done]. intros HL. by exists L.
Qed.

Section adequacy.
(** At most [limit] calls. *)
Context {A : Type} (calls : prog S A → Prop) (env : S → S → Prop) (Q : K → A → Prop) (limit : Z).
Definition verified (c : config S A) : Prop :=
  ∃ ks, J (shared c) ks ∧ Forall2 (λ k p, wp k p Q) ks (pool c).
Context (call_ok : ∀ s ks p, J s ks → zlen ks < limit → calls p → ∃ k, J s (ks ++ [k]) ∧ wp k p Q).
Context (env_ok : ∀ s s' ks, J s ks → env s s' → J s' ks).

Lemma verified_step c c' : verified c → zlen (pool c') ≤ limit → cstep calls env c c' → verified c'.
Proof using call_ok env_ok.
  intros (ks&HJ&Hp) Hl Hs. destruct Hs as [s pl i p p' s' Hi Hn|s pl p Hc|s s' pl He]; cbn in *.
  - destruct (Forall2_lookup_r _ _ _ _ _ Hp Hi) as (k&Hk&Hw).
    destruct (wp_step _ _ _ _ _ _ _ _ Hw Hn HJ Hk) as (k'&HJ'&Hw'). exists (<[i := k']> ks).
    split; [done|]. by apply Forall2_insert.
  - rewrite zlen_app in Hl. change (zlen [p]) with 1 in Hl. pose proof (Forall2_length _ _ _ Hp) as Hlen.
    destruct (call_ok s ks p HJ) as (k&HJ'&Hw); [unfold zlen in *; lia|done|].
    exists (ks ++ [k]). split; [done|]. apply Forall2_app; [done|]. by apply Forall2_cons.
  - exists ks. split; [by eapply env_ok|done].
Qed.
Lemma cstep_pool c c' : cstep calls env c c' → zlen (pool c) ≤ zlen (pool c').
Proof.
  intros [? ? ? ? ? ? ? ?|? ? ? ?|? ? ? ?]; cbn; unfold zlen; [rewrite length_insert|rewrite length_app|]; lia.
Qed.
Lemma csteps_pool c c' : rtc (cstep calls env) c c' → zlen (pool c) ≤ zlen (pool c').
Proof. induction 1 as [|? ? ? Hs _ ?]; [lia|]. apply cstep_pool in Hs. lia. Qed.
Lemma verified_steps c c' :
  verified c → rtc (cstep calls env) c c' → zlen (pool c') ≤ limit → verified c'.
Proof using call_ok env_ok.
  intros Hv Hr Hl. induction Hr as [|c c1 c2 Hs Hr IH]; [done|]. apply IH; [|done].
  eapply verified_step; [done| |done]. apply csteps_pool in Hr. lia.
Qed.
End adequacy.
End logic.
