(* ===== verification/AtomicFuture.v ===== *)
(** The futures an executor runs on several threads
    ([public/rust/fuchsia-async/src/atomic_future.rs]): any number of calls of
    [try_poll] at the same time.  The atomic operations are those of a sequentially
    consistent memory. *)

From S2P Require Import Prelude Threads.
Open Scope prog_scope.

Definition INACTIVE : Z := 0.
Definition ACTIVE : Z := 1.
Definition NOTIFIED : Z := 2.
Definition DONE : Z := 3.

Inductive AttemptPollResult := Busy | PollPending | IFinished | SomeoneElseFinished.

Section future.
Context {F : Type} (poll_unpin : F → Poll unit * F).

(** The cell of the future is borrowed while a thread has a reference into it;
    [polls] counts the polls that have begun. *)
Record AtomicFuture := { state : Z; future : option F; borrowed : bool; polls : nat }.

Definition new (f : F) : AtomicFuture :=
  {| state := INACTIVE; future := Some f; borrowed := false; polls := 0 |}.

Definition set_state (x : Z) (s : AtomicFuture) : AtomicFuture :=
  {| state := x; future := future s; borrowed := borrowed s; polls := polls s |}.
Definition compare_and_swap (current new : Z) : prog AtomicFuture Z :=
  atomically (λ s, (state s, if state s =? current then set_state new s else s)).
Definition store (x : Z) : prog AtomicFuture unit := atomically (λ s, (tt, set_state x s)).

(** [future.poll_unpin(cx)] through the reference into the cell, which another
    reference would alias: its beginning and its end. *)
Definition begin_poll : prog AtomicFuture unit :=
  ok <- atomically (λ s,
    if borrowed s then (false, s)
    else match future s with
         | Some _ => (true, {| state := state s; future := future s; borrowed := true; polls := S (polls s) |})
         | None => (false, s)
         end) ;;
  if ok : bool then Return tt else Abort.
Definition end_poll : prog AtomicFuture (Poll unit) :=
  res <- atomically (λ s,
    match future s with
    | Some f =>
        let (res, f) := poll_unpin f in
        (Some res, {| state := state s; future := Some f; borrowed := false; polls := polls s |})
    | None => (None, s)
    end) ;;
  match res with Some res => Return res | None => Abort end.
(** [future_opt.take()], which drops the future. *)
Definition take_future : prog AtomicFuture unit :=
  ok <- atomically (λ s,
    if borrowed s then (false, s)
    else (true, {| state := state s; future := None; borrowed := false; polls := polls s |})) ;;
  if ok : bool then Return tt else Abort.

(** The loop of the thread that has the future. *)
Definition worker_body (_ : unit) : prog AtomicFuture (unit + AttemptPollResult) :=
  begin_poll ;;;
  poll_res <- end_poll ;;
  match poll_res with
  | Ready _ => take_future ;;; store DONE ;;; Return (inr IFinished)
  | Pending =>
      old <- compare_and_swap ACTIVE INACTIVE ;;
      if old =? ACTIVE then Return (inr PollPending)
      else if old =? NOTIFIED then store ACTIVE ;;; Return (inl tt)
      else Abort
  end.
Definition try_poll_body (_ : unit) : prog AtomicFuture (unit + AttemptPollResult) :=
  old <- compare_and_swap INACTIVE ACTIVE ;;
  if old =? INACTIVE then
    res <- iterate worker_body tt ;; Return (inr res)
  else if old =? ACTIVE then
    old <- compare_and_swap ACTIVE NOTIFIED ;;
    if old =? INACTIVE then Return (inl tt)
    else if (old =? ACTIVE) || (old =? NOTIFIED) then Return (inr Busy)
    else if old =? DONE then Return (inr SomeoneElseFinished)
    else Abort
  else if old =? NOTIFIED then Return (inr Busy)
  else if old =? DONE then Return (inr SomeoneElseFinished)
  else Abort.
Definition try_poll : prog AtomicFuture AttemptPollResult := iterate try_poll_body tt.

(** A thread that has something to tell the future: it notes how many polls have begun,
    and calls [try_poll]. *)
Definition notify : prog AtomicFuture (nat * AttemptPollResult) :=
  n <- atomically (λ s, (polls s, s)) ;; res <- try_poll ;; Return (n, res).

(** Meanwhile what the future shares with others changes as they like. *)
Inductive event : AtomicFuture → AtomicFuture → Prop :=
| future_changes s f f' :
    future s = Some f →
    event s {| state := state s; future := Some f'; borrowed := borrowed s; polls := polls s |}.

Definition executor : config AtomicFuture (nat * AttemptPollResult) → config AtomicFuture (nat * AttemptPollResult) → Prop :=
  cstep (.= notify) event.

(** * The points of [notify] *)
Inductive point :=
| PStart
| PLoop (n : nat) | PTry (n : nat) | PNotify (n : nat)
| PWork (n : nat) | PBegin (n : nat) | PPolling (n : nat)
| PTake (n : nat) | PFinish (n : nat) | PRelease (n : nat) | PRestart (n : nat)
| PReturn (n : nat) (res : AttemptPollResult).

Definition leave (n : nat) (res : AttemptPollResult) : prog AtomicFuture (nat * AttemptPollResult) := Return (n, res).
Definition again (n : nat) (r : unit + AttemptPollResult) : prog AtomicFuture (nat * AttemptPollResult) :=
  match r with inl b => Iter try_poll_body b (leave n) | inr res => leave n res end.
Definition work_again (n : nat) (r : unit + AttemptPollResult) : prog AtomicFuture (nat * AttemptPollResult) :=
  match r with inl b => Iter worker_body b (leave n) | inr res => leave n res end.
Definition code (p : point) : prog AtomicFuture (nat * AttemptPollResult) :=
  match p with
  | PStart => notify
  | PLoop n => Iter try_poll_body tt (leave n)
  | PTry n => pbind (try_poll_body tt) (again n)
  | PNotify n =>
      old <- compare_and_swap ACTIVE NOTIFIED ;;
      pbind (if old =? INACTIVE then Return (inl tt)
             else if (old =? ACTIVE) || (old =? NOTIFIED) then Return (inr Busy)
             else if old =? DONE then Return (inr SomeoneElseFinished)
             else Abort) (again n)
  | PWork n => Iter worker_body tt (leave n)
  | PBegin n => pbind (worker_body tt) (work_again n)
  | PPolling n =>
      pbind (poll_res <- end_poll ;;
      match poll_res with
      | Ready _ => take_future ;;; store DONE ;;; Return (inr IFinished)
      | Pending =>
          old <- compare_and_swap ACTIVE INACTIVE ;;
          if old =? ACTIVE then Return (inr PollPending)
          else if old =? NOTIFIED then store ACTIVE ;;; Return (inl tt)
          else Abort
      end) (work_again n)
  | PTake n => pbind (take_future ;;; store DONE ;;; Return (inr IFinished)) (work_again n)
  | PFinish n => store DONE ;;; leave n IFinished
  | PRelease n =>
      old <- compare_and_swap ACTIVE INACTIVE ;;
      pbind (if old =? ACTIVE then Return (inr PollPending)
             else if old =? NOTIFIED then store ACTIVE ;;; Return (inl tt)
             else Abort) (work_again n)
  | PRestart n => store ACTIVE ;;; Iter worker_body tt (leave n)
  | PReturn n res => leave n res
  end.

(** * The invariant *)
Definition about_to_poll (p : point) : bool :=
  match p with PWork _ | PBegin _ => true | _ => false end.
Definition is_worker (p : point) : bool :=
  match p with
  | PWork _ | PBegin _ | PPolling _ | PTake _ | PFinish _ | PRelease _ | PRestart _ => true
  | _ => false
  end.
(** Some thread will begin a poll, unless the future is finished. *)
Definition will_poll (s : AtomicFuture) (pts : list point) : Prop :=
  state s = NOTIFIED ∨ ∃ i p, pts !! i = Some p ∧ about_to_poll p = true.
Definition held (s : AtomicFuture) : Prop := state s = ACTIVE ∨ state s = NOTIFIED.
Definition worker_ok (s : AtomicFuture) (p : point) : Prop :=
  held s ∧
  match p with
  | PWork _ | PBegin _ | PTake _ | PRelease _ => borrowed s = false ∧ is_Some (future s)
  | PPolling _ => borrowed s = true ∧ is_Some (future s)
  | PRestart _ => borrowed s = false ∧ is_Some (future s) ∧ state s = NOTIFIED
  | _ => borrowed s = false
  end.
Definition call_ok (s : AtomicFuture) (pts : list point) (p : point) : Prop :=
  match p with
  | PStart => True
  | PLoop n | PTry n | PNotify n | PWork n | PBegin n => (n ≤ polls s)%nat
  | PPolling n | PTake n | PFinish n | PRelease n | PRestart n | PReturn n PollPending => (n < polls s)%nat
  | PReturn n Busy =>
      (n ≤ polls s)%nat ∧ ((n < polls s)%nat ∨ state s = DONE ∨ will_poll s pts)
  | PReturn n _ => state s = DONE
  end.
(** [o] is the thread that has the future. *)
Definition owned (s : AtomicFuture) (pts : list point) (o : option nat) : Prop :=
  (∀ i p, pts !! i = Some p → is_worker p = true ↔ o = Some i) ∧
  match o with
  | None => borrowed s = false ∧ (state s = INACTIVE ∧ is_Some (future s) ∨ state s = DONE)
  | Some i => ∃ p, pts !! i = Some p ∧ worker_ok s p
  end.
Definition invariant (s : AtomicFuture) (pts : list point) : Prop :=
  (∃ o, owned s pts o) ∧ ∀ i p, pts !! i = Some p → call_ok s pts p.

Lemma owned_worker s pts o i p :
  owned s pts o → pts !! i = Some p → is_worker p = true → o = Some i ∧ worker_ok s p.
Proof.
  intros [Hw Ho] Hi Hp. apply (Hw i p Hi) in Hp as ->. destruct Ho as (q&Hq&Hok). by simplify_eq.
Qed.
(** A thread that does not have the future does not get it. *)
Lemma owned_other s s' pts o i p p' :
  owned s pts o → pts !! i = Some p → is_worker p = false → is_worker p' = false →
  s' = s ∨ state s = ACTIVE ∧ s' = set_state NOTIFIED s → owned s' (<[i := p']> pts) o.
Proof.
  intros [Hw Ho] Hi Hp Hp' Hs. split.
  - intros j q [(<-&->&_)|[Hne Hj]]%list_lookup_insert_Some; [|by apply Hw].
    rewrite Hp', <- (Hw _ _ Hi), Hp. done.
  - destruct o as [j|].
    + destruct Ho as (q&Hq&Hok). exists q. assert (i ≠ j) by (intros ->; pose proof (Hw _ _ Hi) as H; rewrite Hp in H; naive_solver).
      rewrite list_lookup_insert_ne by done. split; [done|]. destruct Hs as [->|[Ha ->]]; [done|].
      destruct Hok as [Hh Hok]. split; [by right|]. destruct q; try done. naive_solver.
    + destruct Hs as [->|[Ha ->]]; [done|]. rewrite Ha in Ho. naive_solver.
Qed.
Lemma owned_enter s s' pts o i p p' :
  owned s pts o → pts !! i = Some p → is_worker p = false → is_worker p' = true → state s = INACTIVE →
  worker_ok s' p' → owned s' (<[i := p']> pts) (Some i).
Proof.
  intros [Hw Ho] Hi Hp Hp' Hs Hok. destruct o as [j|].
  { destruct Ho as (q&_&[Hh|Hh]&_); by rewrite Hs in Hh. }
  split; [|exists p'; by rewrite list_lookup_insert_eq by (by eapply lookup_lt_Some)].
  intros j q [(<-&->&_)|[Hne Hj]]%list_lookup_insert_Some; [done|]. rewrite (Hw j q Hj). naive_solver.
Qed.
(** The thread that has the future goes on, or gives it up. *)
Lemma owned_work s s' pts o i p p' :
  owned s pts o → pts !! i = Some p → is_worker p = true → is_worker p' = true →
  worker_ok s' p' → owned s' (<[i := p']> pts) (Some i).
Proof.
  intros [Hw Ho] Hi Hp Hp' Hok. pose proof (proj1 (Hw i p Hi) Hp) as ->.
  split; [|exists p'; by rewrite list_lookup_insert_eq by (by eapply lookup_lt_Some)].
  intros j q [(<-&->&_)|[Hne Hj]]%list_lookup_insert_Some; [done|]. by rewrite (Hw j q Hj).
Qed.
Lemma owned_leave s s' pts o i p p' :
  owned s pts o → pts !! i = Some p → is_worker p = true → is_worker p' = false →
  borrowed s' = false ∧ (state s' = INACTIVE ∧ is_Some (future s') ∨ state s' = DONE) →
  owned s' (<[i := p']> pts) None.
Proof.
  intros [Hw Ho] Hi Hp Hp' Hok. pose proof (proj1 (Hw i p Hi) Hp) as ->. split; [|done].
  intros j q [(<-&->&_)|[Hne Hj]]%list_lookup_insert_Some; [by rewrite Hp'|]. rewrite (Hw j q Hj). naive_solver.
Qed.

(** What the threads rely on survives a step of one of them. *)
Lemma calls_step s s' pts i p' :
  (∀ j q, pts !! j = Some q → call_ok s pts q) →
  (polls s ≤ polls s')%nat → (state s = DONE → state s' = DONE) →
  (will_poll s pts → (polls s < polls s')%nat ∨ state s' = DONE ∨ will_poll s' (<[i := p']> pts)) →
  call_ok s' (<[i := p']> pts) p' →
  ∀ j q, <[i := p']> pts !! j = Some q → call_ok s' (<[i := p']> pts) q.
Proof.
  intros Hc Hn Hd Hw Hp' j q [(_&->&_)|[_ Hj]]%list_lookup_insert_Some; [done|].
  specialize (Hc j q Hj). destruct q as [| | | | | | | | | | |n []]; cbn in *; try lia; try done; auto.
  destruct Hc as [Hle [?|[?|?]]]; (split; [lia|]); [left; lia|auto|].
  destruct (Hw H) as [?|[?|?]]; [left; lia|auto|auto].
Qed.
Lemma will_poll_keep s s' pts i p p' :
  pts !! i = Some p → (state s = NOTIFIED → state s' = NOTIFIED) →
  (about_to_poll p = true → about_to_poll p' = true) →
  will_poll s pts → will_poll s' (<[i := p']> pts).
Proof.
  intros Hi Hs Hp [H|(j&q&Hj&Hq)]; [left; auto|right]. destruct (decide (i = j)) as [->|Hne].
  - exists j, p'. rewrite list_lookup_insert_eq by (by eapply lookup_lt_Some). simplify_eq. auto.
  - exists j, q. by rewrite list_lookup_insert_ne.
Qed.
Lemma about_will_poll s pts i p p' :
  pts !! i = Some p → about_to_poll p' = true → will_poll s (<[i := p']> pts).
Proof.
  intros Hi Hp. right. exists i, p'. by rewrite list_lookup_insert_eq by (by eapply lookup_lt_Some).
Qed.

Lemma owned_states s pts o : owned s pts o →
  state s = INACTIVE ∨ state s = ACTIVE ∨ state s = NOTIFIED ∨ state s = DONE.
Proof. intros [_ Ho]. destruct o; [destruct Ho as (p&_&[?|?]&_)|]; naive_solver. Qed.

(** A step of a thread that does not have the future and does not get it. *)
Lemma caller_stays s s' pts i p p' :
  invariant s pts → pts !! i = Some p → is_worker p = false → is_worker p' = false →
  s' = s ∨ state s = ACTIVE ∧ s' = set_state NOTIFIED s →
  call_ok s' (<[i := p']> pts) p' → invariant s' (<[i := p']> pts).
Proof.
  intros [[o Ho] Hc] Hi Hp Hp' Hs Hok. split; [exists o; eapply owned_other; eauto|].
  apply (calls_step s); [done|destruct Hs as [->|[_ ->]]; cbn; lia| |intros Hw; right; right|done].
  - destruct Hs as [->|[Ha ->]]; [done|]. by rewrite Ha.
  - eapply will_poll_keep; [done| |by destruct p|done]. by destruct Hs as [->|[_ ->]].
Qed.
(** The steps of a thread that does not have the future. *)
Lemma caller_step s pts i p q s' :
  invariant s pts → pts !! i = Some p → is_worker p = false → next (code p) s = Some (q, s') →
  ∃ p', q = code p' ∧ invariant s' (<[i := p']> pts).
Proof.
  intros Hinv Hi Hp Hn. pose proof Hinv as [[o Ho] Hc]. pose proof (Hc i p Hi) as Hcp.
  pose proof (owned_states _ _ _ Ho) as Hst.
  assert (∀ p', q = code p' → is_worker p' = false → s' = s → call_ok s (<[i := p']> pts) p' →
    ∃ p', q = code p' ∧ invariant s' (<[i := p']> pts)) as Hsame.
  { intros p' -> Hp' -> Hok. exists p'. split; [done|]. eapply caller_stays; eauto. }
  destruct p as [|n|n|n|n|n|n|n|n|n|n|n res]; try done; cbn in Hcp.
  - cbn in Hn. injection Hn as <- <-. apply (Hsame (PLoop (polls s))); [done..|cbn; lia].
  - cbn in Hn. injection Hn as <- <-. by apply (Hsame (PTry n)).
  - cbn in Hn. destruct Hst as [Hs|[Hs|[Hs|Hs]]]; rewrite Hs in Hn; cbn in Hn; injection Hn as <- <-.
    + exists (PWork n). split; [done|]. split.
      * eexists. eapply owned_enter; eauto. destruct Ho as [_ Ho]. destruct o.
        { destruct Ho as (?&_&[Hx|Hx]&_); by rewrite Hs in Hx. }
        destruct Ho as [Hb [[_ Hf]|Hx]]; [|by rewrite Hs in Hx]. split; [by left|]. by split.
      * apply (calls_step s); [done|done|by rewrite Hs| |done]. intros _. right. right. by eapply about_will_poll.
    + by apply (Hsame (PNotify n)).
    + apply (Hsame (PReturn n Busy)); [done..|]. split; [done|]. right. right. by left.
    + by apply (Hsame (PReturn n SomeoneElseFinished)).
  - cbn in Hn. destruct Hst as [Hs|[Hs|[Hs|Hs]]]; rewrite Hs in Hn; cbn in Hn; injection Hn as <- <-.
    + by apply (Hsame (PLoop n)).
    + exists (PReturn n Busy). split; [done|]. eapply caller_stays; eauto. cbn. split; [done|]. right. right. by left.
    + apply (Hsame (PReturn n Busy)); [done..|]. split; [done|]. right. right. by left.
    + by apply (Hsame (PReturn n SomeoneElseFinished)).
Qed.

(** The thread that has the future keeps it. *)
Lemma worker_stays s s' pts i p p' :
  invariant s pts → pts !! i = Some p → is_worker p = true → is_worker p' = true → worker_ok s' p' →
  polls s' = polls s ∨ polls s' = S (polls s) →
  polls s' = S (polls s) ∨ will_poll s' (<[i := p']> pts) ∨
    (state s' = state s ∧ about_to_poll p = false) →
  call_ok s' (<[i := p']> pts) p' → invariant s' (<[i := p']> pts).
Proof.
  intros [[o Ho] Hc] Hi Hp Hp' Hok Hn Hw Hcp. split; [eexists; by eapply owned_work|].
  apply (calls_step s); [done|lia| | |done].
  - intros Hd. by destruct (owned_worker _ _ _ _ _ Ho Hi Hp) as [_ [[?|?] _]]; rewrite Hd in *.
  - intros Hwill. destruct Hw as [?|[?|[Hs Ha]]]; [left; lia|auto|]. right. right.
    apply (will_poll_keep s s' pts i p p'); [done|by rewrite Hs|by rewrite Ha|done].
Qed.
(** The steps of the thread that has the future. *)
Lemma worker_step s pts i p q s' :
  invariant s pts → pts !! i = Some p → is_worker p = true → next (code p) s = Some (q, s') →
  ∃ p', q = code p' ∧ invariant s' (<[i := p']> pts).
Proof.
  intros Hinv Hi Hp Hn. pose proof Hinv as [[o Ho] Hc]. pose proof (Hc i p Hi) as Hcp.
  destruct (owned_worker _ _ _ _ _ Ho Hi Hp) as [-> [Hh Hok]].
  destruct p as [|n|n|n|n|n|n|n|n|n|n|n res]; try done; cbn in Hcp.
  - cbn in Hn. injection Hn as <- <-. exists (PBegin n). split; [done|]. eapply worker_stays; eauto; [by split|].
    right. left. by eapply about_will_poll.
  - destruct Hok as [Hb [f Hf]]. cbn in Hn. rewrite Hb, Hf in Hn. injection Hn as <- <-. exists (PPolling n).
    split; [done|]. eapply worker_stays; eauto; cbn; [|lia]. split; [done|]. by split; [|exists f].
  - destruct Hok as [Hb [f Hf]]. cbn in Hn. rewrite Hf in Hn. destruct (poll_unpin f) as [[[]|] f']; injection Hn as <- <-.
    + exists (PTake n). split; [done|]. by eapply worker_stays; eauto; (split; [done|]); split.
    + exists (PRelease n). split; [done|]. by eapply worker_stays; eauto; (split; [done|]); split.
  - destruct Hok as [Hb [f Hf]]. cbn in Hn. rewrite Hb in Hn. injection Hn as <- <-. exists (PFinish n).
    split; [done|]. by eapply worker_stays; eauto; split.
  - cbn in Hn. injection Hn as <- <-. exists (PReturn n IFinished). split; [done|]. split.
    + eexists. eapply owned_leave; eauto.
    + apply (calls_step s); [done|done|done|by right; left|done].
  - destruct Hok as [Hb Hf]. cbn in Hn. destruct Hh as [Hs|Hs]; rewrite Hs in Hn; cbn in Hn; injection Hn as <- <-.
    + exists (PReturn n PollPending). split; [done|]. split.
      * eexists. eapply owned_leave; eauto.
      * apply (calls_step s); [done|done|by rewrite Hs| |done]. intros [Hx|(j&p&Hj&Hp')]; [by rewrite Hs in Hx|].
        assert (is_worker p = true) as Hpw by by destruct p. apply (proj1 Ho j p Hj) in Hpw. simplify_eq.
    + exists (PRestart n). split; [done|]. eapply worker_stays; eauto. by split; [right|].
  - destruct Hok as (Hb&Hf&Hs). cbn in Hn. injection Hn as <- <-. exists (PWork n). split; [done|].
    eapply worker_stays; eauto; [split; [by left|done]|right; left; by eapply about_will_poll|cbn; lia].
Qed.

(** At most one call finishes the future. *)
Definition finished_once (pts : list point) : Prop :=
  ∀ i j n m, pts !! i = Some (PReturn n IFinished) → pts !! j = Some (PReturn m IFinished) → i = j.

Lemma caller_not_finished p s n s' :
  is_worker p = false → next (code p) s ≠ Some (Return (n, IFinished), s').
Proof. intros Hp. destruct p; try done; cbn; repeat case_match; naive_solver. Qed.
Lemma finished_once_step s pts i p p' s' :
  invariant s pts → finished_once pts → pts !! i = Some p → next (code p) s = Some (code p', s') →
  finished_once (<[i := p']> pts).
Proof.
  intros [[o Ho] Hc] Hf Hi Hn.
  assert (∀ n j m, p' = PReturn n IFinished → pts !! j ≠ Some (PReturn m IFinished)) as Hnone.
  { intros n j m -> Hj. destruct (is_worker p) eqn:Hp; [|by eapply caller_not_finished].
    destruct (owned_worker _ _ _ _ _ Ho Hi Hp) as [_ [[Hs|Hs] _]]; pose proof (Hc _ _ Hj) as Hd; cbn in Hd; by rewrite Hs in Hd. }
  intros j k n m [(<-&Hj&_)|[Hne Hj]]%list_lookup_insert_Some [(<-&Hk&_)|[Hne' Hk]]%list_lookup_insert_Some;
    naive_solver.
Qed.

Definition invariant_once (s : AtomicFuture) (pts : list point) : Prop := invariant s pts ∧ finished_once pts.

Lemma invariant_call s pts : invariant_once s pts → invariant_once s (pts ++ [PStart]).
Proof.
  intros [[[o Ho] Hc] Hf]. split; [split|].
  - exists o. destruct Ho as [Hw Ho]. split.
    + intros i p [Hi|[Hlen Hi]]%lookup_app_Some; [by apply Hw|]. apply list_lookup_singleton_Some in Hi as [Hi <-].
      split; [done|]. intros ->. destruct Ho as (q&Hq&_). apply lookup_lt_Some in Hq. lia.
    + destruct o; [|done]. destruct Ho as (q&Hq&Hok). exists q. split; [by apply lookup_app_l_Some|done].
  - intros i p [Hi|[_ Hi]]%lookup_app_Some; [|by apply list_lookup_singleton_Some in Hi as [_ <-]].
    specialize (Hc i p Hi). destruct p as [| | | | | | | | | | |n []]; try done. cbn in *.
    destruct Hc as [Hle [?|[?|[?|(j&q&Hj&Hq)]]]]; (split; [lia|]); [auto|auto|right; right; by left|].
    right. right. right. exists j, q. split; [by apply lookup_app_l_Some|done].
  - intros i j n m [Hi|[_ Hi]]%lookup_app_Some [Hj|[_ Hj]]%lookup_app_Some;
      [by eapply Hf|by apply list_lookup_singleton_Some in Hj as [_ ?]|by apply list_lookup_singleton_Some in Hi as [_ ?]..].
Qed.
Lemma invariant_reachable f c : reachable (.= notify) event (new f) c → at_points code invariant_once c.
Proof.
  intros Hr. eapply at_points_reachable; [..|exact Hr].
  - intros s pts i p q s' [Hinv Hf] Hi Hn.
    assert (∃ p', q = code p' ∧ invariant s' (<[i := p']> pts)) as (p'&->&Hinv')
      by (destruct (is_worker p) eqn:Hp; eauto using caller_step, worker_step).
    exists p'. split; [done|]. split; [done|]. by eapply finished_once_step.
  - intros s pts q Hinv ->. exists PStart. split; [done|]. by apply invariant_call.
  - intros s s' pts [[[o Ho] Hc] Hf] He. destruct He as [s g g' Hg]. split; [split|done].
    + exists o. destruct Ho as [Hw Ho]. split; [done|]. destruct o; [|naive_solver].
      destruct Ho as (p&Hp&Hh&Hok). exists p. split; [done|]. split; [done|]. destruct p; naive_solver.
    + intros i p Hi. exact (Hc i p Hi).
  - split; [split|]; [|done|done]. exists None. split; [done|]. cbn. eauto.
Qed.
Lemma code_return p r : code p = Return r → ∃ n res, p = PReturn n res ∧ r = (n, res).
Proof. destruct p; try done. intros [= <-]. eauto. Qed.
Lemma code_abort p : code p ≠ Abort.
Proof. by destruct p. Qed.

(** C17: Whatever calls of [try_poll] run at the same time, none of them panics or has a
    reference to the future at the same time as another one, and at most one is told
    that it finished the future. *)
Theorem atomic_future_exclusive f c :
  reachable (.= notify) event (new f) c →
  (∀ i, pool c !! i ≠ Some Abort) ∧
  (∀ i j n m, pool c !! i = Some (Return (n, IFinished)) → pool c !! j = Some (Return (m, IFinished)) → i = j).
Proof.
  intros (pts&Hp&Hinv&Hf)%invariant_reachable. rewrite Hp. split.
  - intros i Hi. rewrite list_lookup_fmap in Hi. destruct (pts !! i) as [p|]; [|done]. injection Hi. apply code_abort.
  - intros i j n m Hi Hj. rewrite list_lookup_fmap in Hi, Hj.
    destruct (pts !! i) as [p|] eqn:Hpi; [|done]. destruct (pts !! j) as [q|] eqn:Hpj; [|done].
    injection Hi as (n'&res&->&[= <- <-])%code_return. injection Hj as (m'&res'&->&[= <- <-])%code_return. eauto.
Qed.

(** C18: No notification is lost: when all the calls have returned, then for each of them the
    future is finished or a poll of it began after the call.  The answers say which: a
    call that is told that it polled the future did so, and one that is told that the
    future is finished finds it finished. *)
Theorem atomic_future_notified f c :
  reachable (.= notify) event (new f) c →
  (∀ i p, pool c !! i = Some p → ∃ r, p = Return r) →
  ∀ i n res, pool c !! i = Some (Return (n, res)) →
  match res with
  | PollPending => (n < polls (shared c))%nat
  | Busy => state (shared c) = DONE ∨ (n < polls (shared c))%nat
  | IFinished | SomeoneElseFinished => state (shared c) = DONE
  end.
Proof.
  intros (pts&Hp&Hinv&Hf)%invariant_reachable Hall i n res Hi. rewrite Hp in *.
  assert (∀ j p, pts !! j = Some p → ∃ m res, p = PReturn m res) as Hret.
  { intros j p Hj. destruct (Hall j (code p)) as [r Hr]; [by rewrite list_lookup_fmap, Hj|].
    apply code_return in Hr as (?&?&->&_). eauto. }
  rewrite list_lookup_fmap in Hi. destruct (pts !! i) as [p|] eqn:Hpi; [|done].
  injection Hi as (n'&res'&->&[= <- <-])%code_return.
  destruct Hinv as [[o Ho] Hc]. specialize (Hc i _ Hpi). destruct res; try done. cbn in Hc.
  destruct Hc as [_ [?|[?|[Hs|(j&p&Hj&Hpj)]]]]; [by right|by left| |].
  - destruct Ho as [Hw Ho]. destruct o as [j|]; [|rewrite Hs in Ho; naive_solver].
    destruct Ho as (p&Hj&_). destruct (Hret j p Hj) as (m&res&->). by apply Hw in Hj as [_ Hj]; specialize (Hj eq_refl).
  - destruct (Hret j p Hj) as (m&res&->). done.
Qed.

(** The transitions of the state that the comment lists. *)
Definition valid_transitions : list (Z * Z) :=
  [(INACTIVE, ACTIVE); (ACTIVE, INACTIVE); (ACTIVE, NOTIFIED); (ACTIVE, DONE); (NOTIFIED, ACTIVE); (NOTIFIED, DONE)].
Lemma step_transition s pts i p q s' :
  invariant s pts → pts !! i = Some p → next (code p) s = Some (q, s') →
  state s = state s' ∨ (state s, state s') ∈ valid_transitions.
Proof.
  intros [[o Ho] _] Hi Hn. pose proof (owned_states _ _ _ Ho) as Hst.
  assert (is_worker p = true → worker_ok s p) as Hw by (intros Hp; by destruct (owned_worker _ _ _ _ _ Ho Hi Hp)).
  assert (∀ x y, existsb (λ t, (t.1 =? x) && (t.2 =? y)) valid_transitions = true → (x, y) ∈ valid_transitions) as Hv.
  { intros x y ([u v]&Hin&[Hu%Z.eqb_eq Hy%Z.eqb_eq]%andb_prop)%existsb_exists. cbn in *. subst. by apply list_elem_of_In. }
  destruct p; cbn in Hn; try (by injection Hn as <- <-; left);
    try (destruct (borrowed s), (future s); by injection Hn as <- <-; left).
  - destruct Hst as [Hs|[Hs|[Hs|Hs]]]; rewrite Hs in *; injection Hn as <- <-; cbn; rewrite ?Hs; first [by left|right; by apply Hv].
  - destruct Hst as [Hs|[Hs|[Hs|Hs]]]; rewrite Hs in *; injection Hn as <- <-; cbn; rewrite ?Hs; first [by left|right; by apply Hv].
  - destruct (future s); [destruct (poll_unpin _)|]; injection Hn as <- <-; by left.
  - destruct (Hw eq_refl) as [[Hs|Hs] _]; rewrite Hs in *; injection Hn as <- <-; cbn; rewrite ?Hs; first [by left|right; by apply Hv].
  - destruct (Hw eq_refl) as [[Hs|Hs] _]; rewrite Hs in *; injection Hn as <- <-; cbn; rewrite ?Hs; first [by left|right; by apply Hv].
  - destruct (Hw eq_refl) as [[Hs|Hs] _]; rewrite Hs in *; injection Hn as <- <-; cbn; rewrite ?Hs; first [by left|right; by apply Hv].
  - done.
Qed.
(** Every step of every thread changes the state by a transition the comment lists, or
    not at all. *)
Theorem atomic_future_transitions f c c' :
  reachable (.= notify) event (new f) c → executor c c' →
  state (shared c) = state (shared c') ∨ (state (shared c), state (shared c')) ∈ valid_transitions.
Proof.
  intros (pts&Hp&Hinv&Hf)%invariant_reachable Hs.
  destruct Hs as [s pl i p p' s' Hi Hn|s pl p Hc|s s' pl He]; cbn in *; [|by left|by destruct He; left].
  subst pl. rewrite list_lookup_fmap in Hi. destruct (pts !! i) as [pt|] eqn:Hpt; [|done]. injection Hi as <-.
  by eapply step_transition.
Qed.
End future.

(** * A run: a thread polls the future, and another one calls while it does. *)
Definition demo_poll (f : nat) : Poll unit * nat := match f with O => (Ready tt, O) | S f => (Pending, f) end.

Definition demo_end : config (@AtomicFuture nat) (nat * AttemptPollResult) :=
  run_schedule [0; 0; 0; 0; 0; 1; 1; 1; 1; 0; 0; 0; 0; 0; 0; 0; 0; 0; 0]%nat
    (Config (new 1%nat) [notify demo_poll; notify demo_poll]).
Lemma demo_reachable : reachable (.= notify demo_poll) event (new 1%nat) demo_end.
Proof.
  eapply rtc_l; [by apply step_call|]. eapply rtc_l; [by apply step_call|]. apply run_schedule_steps.
Qed.

Lemma demo_pool : pool demo_end = [Return (0%nat, IFinished); Return (1%nat, Busy)].
Proof. vm_compute. reflexivity. Qed.

Lemma atomic_future_exclusive_witness :
  (∀ i, pool demo_end !! i ≠ Some Abort) ∧
  (∀ i j n m, pool demo_end !! i = Some (Return (n, IFinished)) →
    pool demo_end !! j = Some (Return (m, IFinished)) → i = j).
Proof. apply (atomic_future_exclusive demo_poll 1%nat demo_end), demo_reachable. Defined.

Lemma atomic_future_notified_witness : state (shared demo_end) = DONE ∨ (1 < polls (shared demo_end))%nat.
Proof.
  apply (atomic_future_notified demo_poll 1%nat demo_end demo_reachable) with (i := 1%nat) (res := Busy).
  - rewrite demo_pool. intros i p. destruct i as [|[|i]]; [intros [= <-]; eauto..|done].
  - rewrite demo_pool. reflexivity.
Defined.

Lemma atomic_future_transitions_witness :
  let c := run_schedule [0; 0]%nat (Config (new 1%nat) [notify demo_poll]) in
  let c' := run_schedule [0]%nat c in
  state (shared c) = state (shared c') ∨ (state (shared c), state (shared c')) ∈ valid_transitions.
Proof.
  intros c c'. apply (atomic_future_transitions demo_poll 1%nat c c').
  - eapply rtc_l; [by apply step_call|]. apply run_schedule_steps.
  - by eapply (step_thread _ _ _ _ 0%nat).
Defined.
