(* ===== verification/AsyncHandle.v ===== *)
(** Handles of an asynchronous executor ([public/rust/fuchsia-async/src/rwhandle.rs],
    [channel.rs], [need_signal] of [executor.rs]): a task that reads from a channel with
    no message is woken when there is one, or when the other end closes. *)

From S2P Require Import Prelude Threads.
Open Scope prog_scope.

(** * Signals

    The flags of [zx::Signals] the code uses. *)
Record Signals := { readable : bool; writable : bool; peer_closed : bool }.
Definition sig_empty : Signals := {| readable := false; writable := false; peer_closed := false |}.
Definition OBJECT_READABLE : Signals := {| readable := true; writable := false; peer_closed := false |}.
Definition OBJECT_WRITABLE : Signals := {| readable := false; writable := true; peer_closed := false |}.
Definition OBJECT_PEER_CLOSED : Signals := {| readable := false; writable := false; peer_closed := true |}.
Definition sig_union (a b : Signals) : Signals :=
  {| readable := readable a || readable b; writable := writable a || writable b;
     peer_closed := peer_closed a || peer_closed b |}.
Definition sig_minus (a b : Signals) : Signals :=
  {| readable := readable a && negb (readable b); writable := writable a && negb (writable b);
     peer_closed := peer_closed a && negb (peer_closed b) |}.
Definition sig_contains (a b : Signals) : bool :=
  (readable a || negb (readable b)) && (writable a || negb (writable b)) &&
  (peer_closed a || negb (peer_closed b)).
Definition sig_intersects (a b : Signals) : bool :=
  readable a && readable b || writable a && writable b || peer_closed a && peer_closed b.

Inductive Packet := SignalOne (observed : Signals) | OtherPacket.
Inductive Status := PEER_CLOSED | SHOULD_WAIT | OtherStatus (code : Z).
#[global] Instance Status_eq_dec : EqDecision Status.
Proof. solve_decision. Defined.

(** * The kernel

    The channel end with its messages, the waits on it that are not yet satisfied, and
    the packets at the port.  [waits_fail] makes [wait_async_handle] fail. *)
Section channel.
Context {Message : Type}.
Abbreviation waker := nat.

Record Kernel := {
  inbound : list Message; closed : bool;
  waits : list Signals; packets : list Packet; waits_fail : option Z }.

Definition asserted (k : Kernel) : Signals :=
  {| readable := match inbound k with [] => false | _ => true end;
     writable := negb (closed k); peer_closed := closed k |}.
(** A wait for once is satisfied by any of its signals, and its packet tells all the
    signals of the object. *)
Definition settle (k : Kernel) : Kernel :=
  let fires w := sig_intersects w (asserted k) in
  {| inbound := inbound k; closed := closed k;
     waits := filter (λ w, negb (fires w) = true) (waits k);
     packets := packets k ++ ((λ _, SignalOne (asserted k)) <$> filter (λ w, fires w = true) (waits k));
     waits_fail := waits_fail k |}.
Definition deliver (m : Message) (k : Kernel) : Kernel :=
  settle {| inbound := inbound k ++ [m]; closed := closed k; waits := waits k; packets := packets k;
            waits_fail := waits_fail k |}.
Definition close_peer (k : Kernel) : Kernel :=
  settle {| inbound := inbound k; closed := true; waits := waits k; packets := packets k;
            waits_fail := waits_fail k |}.
Definition channel_read (k : Kernel) : (Message + Status) * Kernel :=
  match inbound k with
  | m :: ms =>
      (inl m, {| inbound := ms; closed := closed k; waits := waits k; packets := packets k;
                 waits_fail := waits_fail k |})
  | [] => (inr (if closed k then PEER_CLOSED else SHOULD_WAIT), k)
  end.
Definition wait_async_handle (signals : Signals) (k : Kernel) : option Status * Kernel :=
  match waits_fail k with
  | Some e => (Some (OtherStatus e), k)
  | None =>
      (None, settle {| inbound := inbound k; closed := closed k; waits := waits k ++ [signals];
                       packets := packets k; waits_fail := None |})
  end.

(** * [RWHandle]

    [woken] is the tasks that were woken and have not polled since. *)
Record RWHandle := {
  handle : Kernel; signals : Signals;
  read_task : option waker; write_task : option waker; woken : gset nat }.
Inductive Task := ReadTask | WriteTask.

Definition with_handle (k : Kernel) (s : RWHandle) : RWHandle :=
  {| handle := k; signals := signals s; read_task := read_task s; write_task := write_task s; woken := woken s |}.
Definition with_signals (x : Signals) (s : RWHandle) : RWHandle :=
  {| handle := handle s; signals := x; read_task := read_task s; write_task := write_task s; woken := woken s |}.

Definition schedule_packet (x : Signals) : prog RWHandle (option Status) :=
  atomically (λ s, let (r, k) := wait_async_handle x (handle s) in (r, with_handle k s)).
Definition load : prog RWHandle Signals := atomically (λ s, (signals s, s)).
Definition fetch_or (x : Signals) : prog RWHandle Signals :=
  atomically (λ s, (signals s, with_signals (sig_union (signals s) x) s)).
Definition fetch_clear (x : Signals) : prog RWHandle Signals :=
  atomically (λ s, (signals s, with_signals (sig_minus (signals s) x) s)).

(** [AtomicWaker::register] and [AtomicWaker::wake]. *)
Definition with_task (task : Task) (w : waker) (s : RWHandle) : RWHandle :=
  {| handle := handle s; signals := signals s;
     read_task := match task with ReadTask => Some w | WriteTask => read_task s end;
     write_task := match task with WriteTask => Some w | ReadTask => write_task s end;
     woken := woken s ∖ {[w]} |}.
Definition register (task : Task) (w : waker) : prog RWHandle unit :=
  atomically (λ s, (tt, with_task task w s)).
Definition wake_waker (w : waker) (s : RWHandle) : RWHandle :=
  {| handle := handle s; signals := signals s; read_task := read_task s; write_task := write_task s;
     woken := {[w]} ∪ woken s |}.
Definition wake_task (task : Task) (s : RWHandle) : RWHandle :=
  match task with
  | ReadTask =>
      {| handle := handle s; signals := signals s; read_task := None; write_task := write_task s;
         woken := list_to_set (option_list (read_task s)) ∪ woken s |}
  | WriteTask =>
      {| handle := handle s; signals := signals s; read_task := read_task s; write_task := None;
         woken := list_to_set (option_list (write_task s)) ∪ woken s |}
  end.
Definition wake (task : Task) : prog RWHandle unit := atomically (λ s, (tt, wake_task task s)).

(** [RWHandle::new]: handles are taken to be readable and writable at first. *)
Definition rwhandle_new (k : Kernel) : option RWHandle :=
  match wait_async_handle OBJECT_PEER_CLOSED k with
  | (None, k) =>
      Some {| handle := k; signals := sig_union OBJECT_READABLE OBJECT_WRITABLE;
              read_task := None; write_task := None; woken := ∅ |}
  | (Some _, _) => None
  end.

(** [RWPacketReceiver::receive_packet]. *)
Definition receive_packet (packet : Packet) : prog RWHandle unit :=
  match packet with
  | SignalOne new =>
      old <- fetch_or new ;;
      let became_readable := readable new && negb (readable old) in
      let became_writable := writable new && negb (writable old) in
      let became_closed := peer_closed new && negb (peer_closed old) in
      (if became_readable || became_closed then wake ReadTask else Return tt) ;;;
      (if became_writable || became_closed then wake WriteTask else Return tt)
  | OtherPacket => Return tt
  end.

(** [executor::need_signal]: the error is the status. *)
Definition need_signal (w : waker) (task : Task) (signal : Signals) (clear_closed : bool)
    : prog RWHandle (option Status) :=
  register task w ;;;
  let clear_signals := if clear_closed then sig_union signal OBJECT_PEER_CLOSED else signal in
  old <- fetch_clear clear_signals ;;
  let was_signal := sig_contains old signal in
  let was_closed := sig_contains old OBJECT_PEER_CLOSED in
  let missed : prog RWHandle (option Status) :=
    if was_closed && negb clear_closed
    then atomically (λ s, (None, wake_waker w s))
    else Return None in
  if was_closed || was_signal then
    let signals_to_schedule :=
      sig_union (if was_signal then signal else sig_empty)
        (if clear_closed && was_closed then OBJECT_PEER_CLOSED else sig_empty) in
    r <- schedule_packet signals_to_schedule ;;
    match r with Some e => Return (Some e) | None => missed end
  else missed.

Definition poll_signal_or_closed (w : waker) (task : Task) (signal : Signals)
    : prog RWHandle (Poll (bool + Status)) :=
  s <- load ;;
  let was_closed := sig_contains s OBJECT_PEER_CLOSED in
  let was_signal := sig_contains s signal in
  if was_closed || was_signal then Return (Ready (inl was_closed))
  else
    r <- need_signal w task signal was_closed ;;
    Return (match r with Some e => Ready (inr e) | None => Pending end).
Definition poll_read (w : waker) := poll_signal_or_closed w ReadTask OBJECT_READABLE.
Definition poll_write (w : waker) := poll_signal_or_closed w WriteTask OBJECT_WRITABLE.
Definition need_read (w : waker) (clear_closed : bool) := need_signal w ReadTask OBJECT_READABLE clear_closed.

(** [Channel::read], and [recv_from] by it. *)
Definition read (w : waker) : prog RWHandle (Poll (Message + Status)) :=
  p <- poll_read w ;;
  match p with
  | Pending => Return Pending
  | Ready (inr e) => Return (Ready (inr e))
  | Ready (inl clear_closed) =>
      res <- atomically (λ s, let (r, k) := channel_read (handle s) in (r, with_handle k s)) ;;
      match res with
      | inr SHOULD_WAIT =>
          r <- need_read w clear_closed ;;
          Return (match r with Some e => Ready (inr e) | None => Pending end)
      | _ => Return (Ready res)
      end
  end.

(** A thread of the executor takes a packet from the port. *)
Definition take_packet : prog RWHandle unit :=
  p <- atomically (λ s,
    match packets (handle s) with
    | p :: ps =>
        (Some p, with_handle {| inbound := inbound (handle s); closed := closed (handle s);
                                waits := waits (handle s); packets := ps;
                                waits_fail := waits_fail (handle s) |} s)
    | [] => (None, s)
    end) ;;
  match p with Some p => receive_packet p | None => Return tt end.

(** * The machine

    Tasks read, threads of the executor take packets, the other end of the channel sends
    messages and closes, and packets may come that were meant for an earlier receiver
    with the same key. *)
Definition read_call (w : waker) : prog RWHandle (option (Poll (Message + Status))) :=
  r <- read w ;; Return (Some r).
Definition packet_call : prog RWHandle (option (Poll (Message + Status))) :=
  take_packet ;;; Return None.
Inductive call : prog RWHandle (option (Poll (Message + Status))) → Prop :=
| call_read w : call (read_call w)
| call_packet : call packet_call.
Inductive event : RWHandle → RWHandle → Prop :=
| event_deliver m s : closed (handle s) = false → event s (with_handle (deliver m (handle s)) s)
| event_close s : event s (with_handle (close_peer (handle s)) s)
| event_packet p s :
    event s (with_handle {| inbound := inbound (handle s); closed := closed (handle s);
                            waits := waits (handle s); packets := packets (handle s) ++ [p];
                            waits_fail := waits_fail (handle s) |} s).

(** * The points of the calls

    [polled] tells whether [need_signal] is called before the kernel's read. *)
Inductive point :=
| RStart (w : waker)
| RRegister (polled : bool) (w : waker) (clear_closed : bool)
| RClear (polled : bool) (w : waker) (clear_closed : bool)
| RSchedule (polled : bool) (w : waker) (x : Signals) (missed : bool)
| RMissed (polled : bool) (w : waker)
| RKernel (w : waker) (clear_closed : bool)
| DStart | DFetch (new : Signals) | DWakeRead (also_write : bool) | DWakeWrite
| Returned (r : option (Poll (Message + Status))).

Definition missed_close (w : waker) (missed : bool) : prog RWHandle (option Status) :=
  if missed then atomically (λ s, (None, wake_waker w s)) else Return None.
(** What follows [need_signal]. *)
Definition in_read (polled : bool) (w : waker) (p : prog RWHandle (option Status))
    : prog RWHandle (option (Poll (Message + Status))) :=
  if polled then
    pbind (pbind (r <- p ;; Return (match r with Some e => Ready (inr e) | None => Pending end))
      (λ p, match p with
            | Pending => Return Pending
            | Ready (inr e) => Return (Ready (inr e))
            | Ready (inl clear_closed) =>
                res <- atomically (λ s, let (r, k) := channel_read (handle s) in (r, with_handle k s)) ;;
                match res with
                | inr SHOULD_WAIT =>
                    r <- need_read w clear_closed ;;
                    Return (match r with Some e => Ready (inr e) | None => Pending end)
                | _ => Return (Ready res)
                end
            end)) (λ r, Return (Some r))
  else
    pbind (r <- p ;; Return (match r with Some e => Ready (inr e) | None => Pending end)) (λ r, Return (Some r)).
Definition code (p : point) : prog RWHandle (option (Poll (Message + Status))) :=
  match p with
  | RStart w => read_call w
  | RRegister polled w c => in_read polled w (need_signal w ReadTask OBJECT_READABLE c)
  | RClear polled w c =>
      in_read polled w (
        old <- fetch_clear (if c then sig_union OBJECT_READABLE OBJECT_PEER_CLOSED else OBJECT_READABLE) ;;
        if sig_contains old OBJECT_PEER_CLOSED || sig_contains old OBJECT_READABLE then
          r <- schedule_packet (sig_union (if sig_contains old OBJECT_READABLE then OBJECT_READABLE else sig_empty)
                 (if c && sig_contains old OBJECT_PEER_CLOSED then OBJECT_PEER_CLOSED else sig_empty)) ;;
          match r with
          | Some e => Return (Some e)
          | None => missed_close w (sig_contains old OBJECT_PEER_CLOSED && negb c)
          end
        else missed_close w (sig_contains old OBJECT_PEER_CLOSED && negb c))
  | RSchedule polled w x missed =>
      in_read polled w (
        r <- schedule_packet x ;;
        match r with Some e => Return (Some e) | None => missed_close w missed end)
  | RMissed polled w => in_read polled w (missed_close w true)
  | RKernel w c =>
      pbind (res <- atomically (λ s, let (r, k) := channel_read (handle s) in (r, with_handle k s)) ;;
        match res with
        | inr SHOULD_WAIT =>
            r <- need_read w c ;;
            Return (match r with Some e => Ready (inr e) | None => Pending end)
        | _ => Return (Ready res)
        end) (λ r, Return (Some r))
  | DStart => packet_call
  | DFetch new => pbind (receive_packet (SignalOne new)) (λ _, Return None)
  | DWakeRead also => (wake ReadTask ;;; (if also then wake WriteTask else Return tt)) ;;; Return None
  | DWakeWrite => wake WriteTask ;;; Return None
  | Returned r => Return r
  end.

(** * The invariant *)
Definition packet_readable (p : Packet) : Prop :=
  match p with SignalOne x => readable x = true | OtherPacket => False end.
Definition packet_closed (p : Packet) : Prop :=
  match p with SignalOne x => peer_closed x = true | OtherPacket => False end.
(** A thread that will set the flag, or schedule a wait for it. *)
Definition will_read (p : point) : Prop :=
  match p with DFetch x | RSchedule _ _ x _ => readable x = true | _ => False end.
Definition will_close (p : point) : Prop :=
  match p with DFetch x | RSchedule _ _ x _ => peer_closed x = true | _ => False end.
(** A thread that will wake the reader [w], or clear the flags. *)
Definition will_wake (w : waker) (p : point) : Prop :=
  match p with
  | DWakeRead _ => True
  | RClear _ w' _ | RSchedule _ w' _ true | RMissed _ w' => w' = w
  | _ => False
  end.
Definition point_ok (p : point) : Prop :=
  match p with RSchedule _ _ x _ => writable x = false | _ => True end.

Record invariant (s : RWHandle) (pts : list point) : Prop := {
  inv_waits_ok : waits_fail (handle s) = None;
  inv_settled : Forall (λ x, sig_intersects x (asserted (handle s)) = false) (waits (handle s));
  inv_no_write : Forall (λ x, writable x = false) (waits (handle s));
  inv_close_wait : closed (handle s) = false → OBJECT_PEER_CLOSED ∈ waits (handle s);
  inv_readable : readable (signals s) = false →
    closed (handle s) = true ∨ Exists (λ x, readable x = true) (waits (handle s)) ∨
    Exists packet_readable (packets (handle s)) ∨ Exists will_read pts;
  inv_closed : closed (handle s) = true →
    peer_closed (signals s) = true ∨ Exists packet_closed (packets (handle s)) ∨ Exists will_close pts;
  inv_task : ∀ w, read_task s = Some w → readable (signals s) || peer_closed (signals s) = true →
    w ∈ woken s ∨ Exists (will_wake w) pts;
  inv_points : Forall point_ok pts }.

(** * The kernel keeps its part *)
Lemma settle_settled k : Forall (λ x, sig_intersects x (asserted (settle k)) = false) (waits (settle k)).
Proof. apply Forall_forall. intros x [Hx _]%list_elem_of_filter. by apply negb_true_iff in Hx. Qed.
Lemma settle_no_write k :
  Forall (λ x, writable x = false) (waits k) → Forall (λ x, writable x = false) (waits (settle k)).
Proof. rewrite !Forall_forall. intros H x [_ Hx]%list_elem_of_filter. auto. Qed.
Lemma settle_close_wait k :
  closed k = false → OBJECT_PEER_CLOSED ∈ waits k → OBJECT_PEER_CLOSED ∈ waits (settle k).
Proof. intros Hc Hin. apply list_elem_of_filter. split; [|done]. unfold sig_intersects. cbn. by rewrite Hc. Qed.
(** A wait that is not satisfied any more has left a packet. *)
Lemma settle_fired P Q k :
  Exists P (waits k) → (∀ x, P x → sig_intersects x (asserted k) = true → Q (SignalOne (asserted k))) →
  Exists P (waits (settle k)) ∨ Exists Q (packets (settle k)).
Proof.
  intros (x&Hx&HP)%Exists_exists HQ. destruct (sig_intersects x (asserted k)) eqn:Hi.
  - right. apply Exists_app. right. apply Exists_exists. exists (SignalOne (asserted k)). split; [|by eapply HQ].
    apply list_elem_of_fmap. exists x. split; [done|]. by apply list_elem_of_filter.
  - left. apply Exists_exists. exists x. split; [|done]. apply list_elem_of_filter. by rewrite Hi.
Qed.
Lemma settle_readable k :
  Forall (λ x, writable x = false) (waits k) → Exists (λ x, readable x = true) (waits k) →
  closed k = true ∨ Exists (λ x, readable x = true) (waits (settle k)) ∨
  Exists packet_readable (packets (settle k)).
Proof.
  intros Hw He. destruct (closed k) eqn:Hc; [by left|right].
  assert (Exists (λ x, readable x = true ∧ writable x = false) (waits k)) as He'.
  { apply Exists_exists in He as (x&Hx&Hr). apply Exists_exists. exists x. rewrite Forall_forall in Hw. auto. }
  destruct (settle_fired _ packet_readable k He') as [H|H]; [|left; eapply Exists_impl; [done|naive_solver]|by right].
  intros x [Hr Hx]. unfold sig_intersects. rewrite Hr, Hx. cbn. rewrite Hc, andb_false_r, !orb_false_r. done.
Qed.
Lemma settle_closed k :
  closed k = true → Exists (λ x, peer_closed x = true) (waits k) → Exists packet_closed (packets (settle k)).
Proof.
  intros Hc He. destruct (settle_fired _ packet_closed k He) as [H|H]; [|exfalso|done].
  - intros x Hx _. exact Hc.
  - apply Exists_exists in H as (x&[Hx _]%list_elem_of_filter&Hp). unfold sig_intersects in Hx. cbn in Hx.
    by rewrite Hc, Hp, orb_true_r in Hx.
Qed.
Lemma settle_packets P k : Exists P (packets k) → Exists P (packets (settle k)).
Proof. intros H. apply Exists_app. by left. Qed.

(** * Points that change *)
Lemma Exists_keep {X} (P : X → Prop) l i x y :
  l !! i = Some x → (P x → P y) → Exists P l → Exists P (<[i := y]> l).
Proof.
  intros Hi HP (z&[j Hj]%list_elem_of_lookup&Hz)%Exists_exists. apply Exists_exists. destruct (decide (i = j)) as [->|Hne].
  - exists y. simplify_eq. split; [|auto]. apply list_elem_of_lookup. exists j. apply list_lookup_insert_eq. by eapply lookup_lt_Some.
  - exists z. split; [|done]. apply list_elem_of_lookup. exists j. by rewrite list_lookup_insert_ne.
Qed.
Lemma Exists_new {X} (P : X → Prop) l i x y : l !! i = Some x → P y → Exists P (<[i := y]> l).
Proof.
  intros Hi HP. apply Exists_exists. exists y. split; [|done]. apply list_elem_of_lookup. exists i.
  apply list_lookup_insert_eq. by eapply lookup_lt_Some.
Qed.

Lemma Exists_split {X} (P : X → Prop) l i x :
  l !! i = Some x → Exists P l → P x ∨ ∀ y, Exists P (<[i := y]> l).
Proof.
  intros Hi (z&[j Hj]%list_elem_of_lookup&Hz)%Exists_exists. destruct (decide (i = j)) as [->|Hne].
  - left. by simplify_eq.
  - right. intros y. apply Exists_exists. exists z. split; [|done]. apply list_elem_of_lookup. exists j.
    by rewrite list_lookup_insert_ne.
Qed.
Lemma contains_readable x : sig_contains x OBJECT_READABLE = readable x.
Proof. destruct x as [[] [] []]; done. Qed.
Lemma contains_closed x : sig_contains x OBJECT_PEER_CLOSED = peer_closed x.
Proof. destruct x as [[] [] []]; done. Qed.

(** A step that changes only the point, to one that promises as much. *)
Lemma inv_moves s pts i p p' :
  invariant s pts → pts !! i = Some p → point_ok p' → (will_read p → will_read p') →
  (will_close p → will_close p') → (∀ w, will_wake w p → will_wake w p') → invariant s (<[i := p']> pts).
Proof.
  intros [? ? ? ? Hr Hc Ht Hp] Hi Hok H1 H2 H3. split; try done.
  - intros Hs. destruct (Hr Hs) as [?|[?|[?|?]]]; eauto 6 using Exists_keep.
  - intros Hs. destruct (Hc Hs) as [?|[?|?]]; eauto 6 using Exists_keep.
  - intros w Hw Hs. destruct (Ht w Hw Hs); eauto using Exists_keep.
  - by apply Forall_insert.
Qed.

Lemma inv_register s pts i polled w c :
  invariant s pts → pts !! i = Some (RRegister polled w c) →
  invariant (with_task ReadTask w s) (<[i := RClear polled w c]> pts).
Proof.
  intros [? ? ? ? Hr Hc Ht Hp] Hi. split; cbn; try done.
  - intros Hs. destruct (Hr Hs) as [?|[?|[?|?]]]; by eauto 6 using Exists_keep.
  - intros Hs. destruct (Hc Hs) as [?|[?|?]]; by eauto 6 using Exists_keep.
  - intros w' [= <-] _. right. by eapply Exists_new.
  - by apply Forall_insert.
Qed.
Lemma inv_clear s pts i polled w (c r wr pc : bool) :
  invariant s pts → pts !! i = Some (RClear polled w c) →
  signals s = {| readable := r; writable := wr; peer_closed := pc |} →
  invariant (with_signals {| readable := false; writable := wr; peer_closed := pc && negb c |} s)
    (<[i := if pc || r then RSchedule polled w {| readable := r; writable := false; peer_closed := c && pc |} (pc && negb c)
            else Returned (Some Pending)]> pts).
Proof.
  intros [? ? ? ? Hr Hc Ht Hp] Hi Hs. rewrite Hs in *. cbn in *. set (p' := if pc || r then _ else _).
  split; cbn; try done.
  - intros _. destruct r.
    + do 3 right. eapply Exists_new; [done|]. unfold p'. by rewrite orb_true_r.
    + destruct (Hr eq_refl) as [?|[?|[?|?]]]; [by auto..|]. do 3 right. by eapply Exists_keep.
  - intros Hk. destruct (Hc Hk) as [->|[?|?]]; [|by eauto|right; right; by eapply Exists_keep].
    destruct c; [|by left]. right. right. by eapply Exists_new.
  - intros w' Hw [-> ->%negb_true_iff]%andb_prop.
    destruct (Ht w' Hw) as [?|He]; [by rewrite orb_true_r|by left|]. right. eapply Exists_keep; [done| |done]. exact id.
  - apply Forall_insert; [done|]. unfold p'. by destruct (pc || r); cbn.
Qed.
Lemma inv_schedule s pts i polled w x m :
  invariant s pts → pts !! i = Some (RSchedule polled w x m) →
  invariant (with_handle (settle {| inbound := inbound (handle s); closed := closed (handle s);
      waits := waits (handle s) ++ [x]; packets := packets (handle s); waits_fail := None |}) s)
    (<[i := if m then RMissed polled w else Returned (Some Pending)]> pts).
Proof.
  intros [Hf Hst Hnw Hcw Hr Hc Ht Hp] Hi. set (p' := if m then _ else _). set (k := Build_Kernel _ _ _ _ _).
  assert (Forall (λ x, writable x = false) (waits k)) as Hnw'.
  { apply Forall_app. split; [done|]. apply Forall_singleton. exact (proj1 (Forall_lookup _ _) Hp i _ Hi). }
  split; cbn [handle signals read_task woken with_handle].
  - done.
  - apply settle_settled.
  - by apply settle_no_write.
  - intros Hk. apply settle_close_wait; [done|]. apply elem_of_app. left. by apply Hcw.
  - intros Hs. assert (Exists (λ x, readable x = true) (waits k) → closed (settle k) = true ∨
      Exists (λ x, readable x = true) (waits (settle k)) ∨ Exists packet_readable (packets (settle k)) ∨
      Exists will_read (<[i:=p']> pts)) as Hw.
    { intros Hw. destruct (settle_readable k Hnw' Hw) as [?|[?|?]]; auto. }
    destruct (Hr Hs) as [?|[?|[?|He]]]; [by left|apply Hw, Exists_app; by left|do 2 right; left; by apply settle_packets|].
    destruct (Exists_split _ _ _ _ Hi He) as [Hx|Hx]; [|by auto]. apply Hw, Exists_app. right. by apply Exists_cons_hd.
  - intros Hk. destruct (Hc Hk) as [?|[?|He]]; [by left|right; left; by apply settle_packets|].
    destruct (Exists_split _ _ _ _ Hi He) as [Hx|Hx]; [|by auto]. right. left. apply settle_closed; [done|].
    apply Exists_app. right. by apply Exists_cons_hd.
  - intros w' Hw Hs. destruct (Ht w' Hw Hs) as [?|He]; [by left|right]. eapply Exists_keep; [done| |done]. by destruct m.
  - apply Forall_insert; [done|]. by destruct m.
Qed.
(** A step that wakes tasks and changes nothing else that the invariant is about. *)
Lemma inv_wakes s s' pts i p p' :
  invariant s pts → pts !! i = Some p → point_ok p' → handle s' = handle s → signals s' = signals s →
  (will_read p → will_read p') → (will_close p → will_close p') →
  (∀ w, read_task s' = Some w → read_task s = Some w ∧ (w ∈ woken s → w ∈ woken s') ∧
    (will_wake w p → w ∈ woken s' ∨ will_wake w p')) →
  invariant s' (<[i := p']> pts).
Proof.
  intros Hinv Hi Hok Hh Hs H1 H2 Hw. destruct (Hinv) as [? ? ? ? Hr Hc Ht Hp]. split; rewrite ?Hh, ?Hs; try done.
  - intros Hb. destruct (Hr Hb) as [?|[?|[?|?]]]; eauto 6 using Exists_keep.
  - intros Hb. destruct (Hc Hb) as [?|[?|?]]; eauto 6 using Exists_keep.
  - intros w Ht' Hb. destruct (Hw w Ht') as (Ht0&Hin&Hself). destruct (Ht w Ht0 Hb) as [?|He]; [by auto|].
    destruct (Exists_split _ _ _ _ Hi He) as [Hx|Hx]; [|by auto]. destruct (Hself Hx); [by left|right].
    by eapply Exists_new.
  - by apply Forall_insert.
Qed.
(** Reading a message does not satisfy a wait. *)
Lemma inv_read s pts i w c p' :
  invariant s pts → pts !! i = Some (RKernel w c) → point_ok p' →
  invariant (with_handle (snd (channel_read (handle s))) s) (<[i := p']> pts).
Proof.
  intros Hinv Hi Hok. pose proof (inv_moves s pts i _ p' Hinv Hi Hok) as Hm. cbn in Hm. specialize (Hm ltac:(done) ltac:(done) ltac:(done)).
  revert Hm. generalize (<[i := p']> pts). clear. intros pts [? Hst ? ? ? ? ? ?]. destruct s as [k ? ? ? ?]. cbn in *. unfold channel_read.
  destruct (inbound k) as [|m ms] eqn:Hin; [by split|]. split; cbn in *; try done.
  eapply Forall_impl; [exact Hst|]. intros x. unfold sig_intersects, asserted. cbn. rewrite Hin.
  rewrite andb_true_r, !orb_false_iff. intros [[-> ->] ->]. by destruct ms.
Qed.
Lemma inv_packet s pts i p ps p' :
  invariant s pts → pts !! i = Some DStart → packets (handle s) = p :: ps → point_ok p' →
  (packet_readable p → will_read p') → (packet_closed p → will_close p') →
  invariant (with_handle {| inbound := inbound (handle s); closed := closed (handle s);
      waits := waits (handle s); packets := ps; waits_fail := waits_fail (handle s) |} s) (<[i := p']> pts).
Proof.
  intros [? ? ? ? Hr Hc Ht Hp] Hi Hps Hok H1 H2. rewrite Hps in *. split; cbn; try done.
  - intros Hs. destruct (Hr Hs) as [?|[?|[[?|?]%Exists_cons|?]]]; eauto 6 using Exists_new, Exists_keep.
    do 3 right. by eapply Exists_keep.
  - intros Hk. destruct (Hc Hk) as [?|[[?|?]%Exists_cons|?]]; eauto 6 using Exists_new.
    do 2 right. by eapply Exists_keep.
  - intros w Hw Hs. destruct (Ht w Hw Hs); [by left|right]. by eapply Exists_keep.
  - by apply Forall_insert.
Qed.
Lemma inv_fetch s pts i new p' :
  invariant s pts → pts !! i = Some (DFetch new) → point_ok p' →
  (readable new && negb (readable (signals s)) || peer_closed new && negb (peer_closed (signals s)) = true →
     ∀ w, will_wake w p') →
  invariant (with_signals (sig_union (signals s) new) s) (<[i := p']> pts).
Proof.
  intros [? ? ? ? Hr Hc Ht Hp] Hi Hok Hw. split; cbn; try done.
  - intros [Hs Hn]%orb_false_iff. destruct (Hr Hs) as [?|[?|[?|He]]]; [by auto..|].
    destruct (Exists_split _ _ _ _ Hi He) as [Hx|Hx]; [|by auto]. cbn in Hx. by rewrite Hn in Hx.
  - intros Hk. destruct (peer_closed new) eqn:Hn; [left; by rewrite orb_true_r|]. rewrite orb_false_r.
    destruct (Hc Hk) as [?|[?|He]]; [by auto..|].
    destruct (Exists_split _ _ _ _ Hi He) as [Hx|Hx]; [|by auto]. cbn in Hx. by rewrite Hn in Hx.
  - intros w Ht' Hs. destruct (readable (signals s) || peer_closed (signals s)) eqn:Hold.
    + destruct (Ht w Ht' eq_refl) as [?|He]; [by left|right]. by eapply Exists_keep.
    + apply orb_false_iff in Hold as [Hr0 Hc0]. rewrite Hr0, Hc0 in *. right. eapply Exists_new; [done|]. apply Hw.
      by rewrite !andb_true_r.
  - by apply Forall_insert.
Qed.

Lemma reader_step s pts i p q s' :
  invariant s pts → pts !! i = Some p → next (code p) s = Some (q, s') →
  match p with DStart | DFetch _ | DWakeRead _ | DWakeWrite => False | _ => True end →
  ∃ p', q = code p' ∧ invariant s' (<[i := p']> pts).
Proof.
  intros Hinv Hi Hn Hp. destruct p as [w|polled w c|polled w c|polled w x m|polled w|w c| | | | |r]; try done.
  - cbn in Hn. injection Hn as <- <-. rewrite contains_closed, contains_readable.
    destruct (peer_closed (signals s) || readable (signals s)) eqn:Hor.
    + exists (RKernel w (peer_closed (signals s))). split; [done|]. by eapply inv_moves.
    + apply orb_false_iff in Hor as [-> _]. exists (RRegister true w false). split; [done|]. by eapply inv_moves.
  - exists (RClear polled w c). destruct polled; cbn in Hn; injection Hn as <- <-; (split; [done|]); by apply inv_register.
  - destruct (signals s) as [r wr pc] eqn:Hs.
    exists (if pc || r then RSchedule polled w {| readable := r; writable := false; peer_closed := c && pc |} (pc && negb c)
            else Returned (Some Pending)).
    pose proof (inv_clear _ _ _ _ _ _ _ _ _ Hinv Hi Hs) as Hclear.
    destruct polled; cbn in Hn; injection Hn as <- <-; rewrite Hs; (split; [by destruct c, pc, r, wr|]);
      (replace (sig_minus _ _) with {| readable := false; writable := wr; peer_closed := pc && negb c |};
       [done|by destruct c, pc, r, wr]).
  - exists (if m then RMissed polled w else Returned (Some Pending)).
    pose proof (inv_schedule _ _ _ _ _ _ _ Hinv Hi) as Hs.
    destruct polled; cbn in Hn; unfold wait_async_handle in Hn; rewrite (inv_waits_ok _ _ Hinv) in Hn;
      injection Hn as <- <-; (split; [by destruct m|done]).
  - exists (Returned (Some Pending)).
    destruct polled; cbn in Hn; injection Hn as <- <-; (split; [done|]);
      (eapply inv_wakes; [done..|]); intros w' Hw'; cbn; (split; [done|]); set_solver.
  - cbn in Hn. pose proof (inv_read s pts i w c) as Hr. destruct (channel_read (handle s)) as [[m|[]] k] eqn:Hk;
      injection Hn as <- <-.
    + exists (Returned (Some (Ready (inl m)))). split; [done|]. by apply Hr.
    + exists (Returned (Some (Ready (inr PEER_CLOSED)))). split; [done|]. by apply Hr.
    + exists (RRegister false w c). split; [done|]. by apply Hr.
    + exists (Returned (Some (Ready (inr (OtherStatus code0))))). split; [done|]. by apply Hr.
Qed.
Lemma packet_step s pts i p q s' :
  invariant s pts → pts !! i = Some p → next (code p) s = Some (q, s') →
  match p with DStart | DFetch _ | DWakeRead _ | DWakeWrite => True | _ => False end →
  ∃ p', q = code p' ∧ invariant s' (<[i := p']> pts).
Proof.
  intros Hinv Hi Hn Hp. destruct p as [| | | | | | |new|also| |]; try done; cbn in Hn.
  - destruct (packets (handle s)) as [|[new|] ps] eqn:Hps; injection Hn as <- <-.
    + exists (Returned None). split; [done|]. by eapply inv_moves.
    + exists (DFetch new). split; [done|]. by eapply inv_packet.
    + exists (Returned None). split; [done|]. by eapply inv_packet.
  - injection Hn as <- <-. set (br := _ && _). set (bc := peer_closed new && _). set (bw := writable new && _).
    exists (if br || bc then DWakeRead (bw || bc) else if bw || bc then DWakeWrite else Returned None).
    split; [by destruct br, bc, bw|]. apply (inv_fetch _ _ _ _ _ Hinv Hi); [by destruct br, bc, bw|].
    fold br bc. by intros ->.
  - injection Hn as <- <-. exists (if also then DWakeWrite else Returned None). split; [by destruct also|].
    eapply inv_wakes; [done|done|by destruct also|done..].
  - injection Hn as <- <-. exists (Returned None). split; [done|]. eapply inv_wakes; [done..|].
    intros w Hw. cbn. split; [done|]. set_solver.
Qed.

Lemma inv_kernel_event s pts k :
  invariant s pts → waits k = waits (handle s) → packets k = packets (handle s) →
  waits_fail k = waits_fail (handle s) → (closed (handle s) = true → closed k = true) →
  invariant (with_handle (settle k) s) pts.
Proof.
  intros [Hf Hst Hnw Hcw Hr Hc Ht Hp] Hw Hpk Hfk Hck. split; cbn [handle signals read_task woken with_handle]; try done.
  - by rewrite <- Hf.
  - apply settle_settled.
  - apply settle_no_write. by rewrite Hw.
  - intros Hk. change (closed k = false) in Hk. apply settle_close_wait; [done|]. rewrite Hw. apply Hcw.
    destruct (closed (handle s)); [|done]. by rewrite Hck in Hk.
  - intros Hs. destruct (Hr Hs) as [?|[He|[He|?]]]; [left; by apply Hck| | |by auto].
    + rewrite <- Hw in He, Hnw. destruct (settle_readable k Hnw He) as [?|[?|?]]; auto.
    + do 2 right. left. apply settle_packets. by rewrite Hpk.
  - intros Hk. change (closed k = true) in Hk. destruct (closed (handle s)) eqn:Hks.
    + destruct (Hc eq_refl) as [?|[He|?]]; [by auto| |by auto]. right. left. apply settle_packets. by rewrite Hpk.
    + right. left. apply settle_closed; [done|]. apply Exists_exists. exists OBJECT_PEER_CLOSED. rewrite Hw. auto.
Qed.
Lemma inv_event s s' pts : invariant s pts → event s s' → invariant s' pts.
Proof.
  intros Hinv He. destruct He as [m s Hc|s|p s].
  - by apply inv_kernel_event.
  - by apply inv_kernel_event.
  - destruct Hinv as [? ? ? ? Hr Hc Ht Hp]. split; cbn; try done.
    + intros Hs. destruct (Hr Hs) as [?|[?|[?|?]]]; auto. do 2 right. left. apply Exists_app. by left.
    + intros Hk. destruct (Hc Hk) as [?|[?|?]]; auto. right. left. apply Exists_app. by left.
Qed.
Lemma inv_call s pts p :
  invariant s pts → point_ok p → invariant s (pts ++ [p]).
Proof.
  intros [? ? ? ? Hr Hc Ht Hp] Hok. split; try done.
  - intros Hs. destruct (Hr Hs) as [?|[?|[?|?]]]; auto. do 3 right. apply Exists_app. by left.
  - intros Hk. destruct (Hc Hk) as [?|[?|?]]; auto. do 2 right. apply Exists_app. by left.
  - intros w Hw Hs. destruct (Ht w Hw Hs); [by left|right]. apply Exists_app. by left.
  - apply Forall_app. split; [done|]. by apply Forall_singleton.
Qed.

(** A channel as the kernel makes it. *)
Definition fresh_kernel : Kernel :=
  {| inbound := []; closed := false; waits := []; packets := []; waits_fail := None |}.
Definition fresh_handle : RWHandle :=
  {| handle := {| inbound := []; closed := false; waits := [OBJECT_PEER_CLOSED]; packets := []; waits_fail := None |};
     signals := sig_union OBJECT_READABLE OBJECT_WRITABLE; read_task := None; write_task := None; woken := ∅ |}.
Lemma rwhandle_new_fresh : rwhandle_new fresh_kernel = Some fresh_handle.
Proof. done. Qed.

Lemma invariant_reachable_handle c : reachable call event fresh_handle c → at_points code invariant c.
Proof.
  intros Hr. eapply at_points_reachable; [..|exact Hr].
  - intros s pts i p q s' Hinv Hi Hn. destruct p; first [by eapply reader_step|by eapply packet_step].
  - intros s pts q Hinv Hq. destruct Hq as [w|]; [exists (RStart w)|exists DStart]; (split; [done|]); by apply inv_call.
  - intros s s' pts. apply inv_event.
  - split; try done; [by repeat constructor..|]. intros _. by left.
Qed.


Lemma code_returned p r : code p = Return r → p = Returned r.
Proof. destruct p; [|destruct polled..| | | | | |]; cbn; congruence. Qed.

(** No readiness is lost: whatever reads run at the same time, and whatever packets come
    that were meant for others, once the reads have returned and the packets have been
    taken, the task that waits for the channel has been woken if there is a message or
    the other end has closed. *)
Theorem async_read_wakes c w :
  reachable call event fresh_handle c →
  (∀ i p, pool c !! i = Some p → ∃ r, p = Return r) → packets (handle (shared c)) = [] →
  read_task (shared c) = Some w → inbound (handle (shared c)) ≠ [] ∨ closed (handle (shared c)) = true →
  w ∈ woken (shared c).
Proof.
  intros (pts&Hp&Hinv)%invariant_reachable_handle Hall Hpk Ht Hk. destruct c as [s pl]. cbn in *. subst pl.
  assert (∀ P : point → Prop, (∀ r, ¬ P (Returned r)) → ¬ Exists P pts) as Hnone.
  { intros P HP (p&[j Hj]%list_elem_of_lookup&HPp)%Exists_exists.
    destruct (Hall j (code p)) as [r Hr]; [by rewrite list_lookup_fmap, Hj|].
    apply code_returned in Hr as ->. by eapply HP. }
  destruct Hinv as [_ Hst _ _ Hr Hc Htask _]. rewrite Hpk in *.
  destruct (readable (signals s) || peer_closed (signals s)) eqn:Hb.
  { destruct (Htask w Ht eq_refl) as [?|He]; [done|]. exfalso. revert He. apply Hnone. intros r []. }
  apply orb_false_iff in Hb as [Hbr Hbc]. exfalso.
  destruct (closed (handle s)) eqn:Hcl.
  { destruct (Hc eq_refl) as [?|[He%Exists_nil|He]]; [by rewrite Hbc in *|done|]. revert He. apply Hnone. intros r []. }
  destruct Hk as [Hin|?]; [|done].
  destruct (Hr Hbr) as [?|[He|[He%Exists_nil|He]]]; [done| |done|revert He; apply Hnone; intros r []].
  apply Exists_exists in He as (x&Hx&Hxr). rewrite Forall_forall in Hst. specialize (Hst x Hx).
  unfold sig_intersects, asserted in Hst. cbn in Hst. rewrite Hxr in Hst. by destruct (inbound (handle s)).
Qed.

(** A read that runs alone: it returns, a message that it returns is the first one, and
    when it says to wait it has registered its task. *)
Lemma read_alone w s :
  ∃ r s', run_alone (E := unit) 8 (read w) s = (Ok r, s') ∧
  closed (handle s') = closed (handle s) ∧
  match r with
  | Pending => read_task s' = Some w ∧ inbound (handle s') = inbound (handle s)
  | Ready (inl m) => read_task s' = read_task s ∧ woken s' = woken s ∧ inbound (handle s) = m :: inbound (handle s')
  | Ready (inr e) =>
      inbound (handle s') = inbound (handle s) ∧
      (e = PEER_CLOSED → inbound (handle s) = [] ∧ closed (handle s) = true)
  end.
Proof.
  destruct s as [[[|m ms] cl ws ps [e|]] [rd wr pc] rt wt wk]; destruct pc, rd, wr, cl; cbn;
    eexists _, _; (split; [reflexivity|]); cbn; naive_solver.
Qed.
(** When the kernel does not fail, a read fails only when the other end has closed, and leaves the tasks as they are. *)
Lemma read_alone_waits w s :
  waits_fail (handle s) = None →
  ∃ r s', run_alone (E := unit) 8 (read w) s = (Ok r, s') ∧ waits_fail (handle s') = None ∧
  match r with
  | Pending => read_task s' = Some w ∧ inbound (handle s') = inbound (handle s)
  | Ready (inl m) => read_task s' = read_task s ∧ woken s' = woken s ∧ inbound (handle s) = m :: inbound (handle s')
  | Ready (inr e) =>
      e = PEER_CLOSED ∧ inbound (handle s') = inbound (handle s) ∧ read_task s' = read_task s ∧ woken s' = woken s
  end.
Proof.
  destruct s as [[[|m ms] cl ws ps wf] [rd wr pc] rt wt wk]; cbn; intros ->; destruct pc, rd, wr, cl; cbn;
    eexists _, _; (split; [reflexivity|]); cbn; naive_solver.
Qed.
(** A handle that is taken to be readable is read. *)
Definition flagged (s : RWHandle) : Prop := readable (signals s) || peer_closed (signals s) = true.
Lemma read_alone_flagged w s m ms :
  flagged s → inbound (handle s) = m :: ms →
  ∃ s', run_alone (E := unit) 8 (read w) s = (Ok (Ready (inl m)), s') ∧
  inbound (handle s') = ms ∧ signals s' = signals s.
Proof.
  destruct s as [[ib cl ws ps wf] [rd wr pc] rt wt wk]. unfold flagged. cbn. intros Hf ->.
  destruct pc, rd; try done; destruct wr; cbn; eexists; (split; [reflexivity|done]).
Qed.
(** One that is not is waited for. *)
Lemma read_alone_unflagged w s :
  ¬ flagged s → waits_fail (handle s) = None → ∃ s', run_alone (E := unit) 8 (read w) s = (Ok Pending, s').
Proof.
  destruct s as [[ib cl ws ps wf] [rd wr pc] rt wt wk]. unfold flagged. cbn. intros Hf ->.
  destruct pc, rd; try (by destruct Hf). destruct ib, cl, wr; cbn; eexists; reflexivity.
Qed.
End channel.

(** * A run in which the channel closes while a task begins to wait *)
Definition closing : config RWHandle (option (Poll (nat + Status))) :=
  let c := run_schedule [0; 0]%nat (Config fresh_handle [read_call 7%nat; packet_call]) in
  run_schedule [1; 1; 1; 1; 0; 0; 0; 0]%nat (Config (with_handle (close_peer (handle (shared c))) (shared c)) (pool c)).
Lemma closing_reachable : reachable call event fresh_handle closing.
Proof.
  eapply rtc_l; [apply step_call, (call_read 7%nat)|]. eapply rtc_l; [apply step_call, call_packet|].
  etrans; [apply (run_schedule_steps _ _ [0; 0]%nat)|].
  eapply rtc_l; [|apply run_schedule_steps]. apply (step_env _ _ _ _ _ (event_close _)).
Qed.
Lemma closing_pool : pool closing = [Return (Some Pending); Return None].
Proof. vm_compute. reflexivity. Qed.

Lemma async_read_wakes_witness : 7%nat ∈ woken (shared closing).
Proof.
  apply (async_read_wakes closing 7%nat closing_reachable).
  - rewrite closing_pool. intros [|[|i]] p; [intros [= <-]; eauto..|done].
  - vm_compute. reflexivity.
  - vm_compute. reflexivity.
  - right. vm_compute. reflexivity.
Defined.

(** When the wait for a signal cannot be scheduled, the flag says that it was: the next
    read says to wait, and a message then comes without a packet. *)
Definition with_waits_fail (e : option Z) (s : @RWHandle nat) : RWHandle :=
  with_handle {| inbound := inbound (handle s); closed := closed (handle s); waits := waits (handle s);
                 packets := packets (handle s); waits_fail := e |} s.
Example failed_wait_is_forgotten :
  let (r1, s1) := run_alone (E := unit) 8 (read 1%nat) (with_waits_fail (Some 5) fresh_handle) in
  let (r2, s2) := run_alone (E := unit) 8 (read 1%nat) (with_waits_fail None s1) in
  r1 = Ok (Ready (inr (OtherStatus 5))) ∧ r2 = Ok Pending ∧ packets (deliver 9%nat (handle s2)) = [].
Proof. vm_compute. done. Qed.
