(* ===== verification/FidlClient.v ===== *)
(** Asynchronous FIDL clients ([public/lib/fidl/rust/fidl/src/client.rs]): queries and
    their responses, events, and the tasks that wait for them.  A block of code that
    holds a lock is one step; so is a read of the channel, whose own steps are those of
    [AsyncHandle]. *)

From S2P Require Import Prelude Std Threads AsyncHandle FidlCore FidlTypes FidlAggregates.

(** * The [slab] package

    Values stored in the slots of a vector, by key; a slot is used again when its
    value is removed. *)
Class Slab := {
  slab : Type → Type;
  slab_new : ∀ {V}, slab V;
  slab_insert : ∀ {V}, V → slab V → nat * slab V;
  slab_get : ∀ {V}, nat → slab V → option V;
  slab_set : ∀ {V}, nat → V → slab V → slab V;
  slab_remove : ∀ {V}, nat → slab V → slab V;
  slab_entries : ∀ {V}, slab V → list (nat * V);
  slab_slots : ∀ {V}, slab V → nat }.
Class SlabSpec `{!Slab} := {
  slab_get_new V k : slab_get k (slab_new (V := V)) = None;
  slab_insert_vacant V (v : V) m : slab_get (slab_insert v m).1 m = None;
  slab_get_insert V (v : V) m j :
    slab_get j (slab_insert v m).2 = if decide (j = (slab_insert v m).1) then Some v else slab_get j m;
  slab_get_set V k (v v' : V) m j :
    slab_get k m = Some v' → slab_get j (slab_set k v m) = if decide (j = k) then Some v else slab_get j m;
  slab_get_remove V k (v : V) m j :
    slab_get k m = Some v → slab_get j (slab_remove k m) = if decide (j = k) then None else slab_get j m;
  slab_entries_get V (m : slab V) k v : (k, v) ∈ slab_entries m ↔ slab_get k m = Some v;
  slab_slots_new V : slab_slots (slab_new (V := V)) = 0%nat;
  slab_slots_insert V (v : V) m :
    ((slab_insert v m).1 < slab_slots (slab_insert v m).2 ∧
     slab_slots m ≤ slab_slots (slab_insert v m).2 ≤ S (slab_slots m))%nat;
  slab_slots_set V k (v : V) m : slab_slots (slab_set k v m) = slab_slots m;
  slab_slots_remove V k (m : slab V) : slab_slots (slab_remove k m) = slab_slots m }.

(** * Data *)
Record MessageBuf := { mb_bytes : list Z; mb_handles : list Z }.
#[global] Instance MessageBuf_eq_dec : EqDecision MessageBuf.
Proof. solve_decision. Defined.

Definition status_code (e : Status) : Z :=
  match e with PEER_CLOSED => -24 | SHOULD_WAIT => -22 | OtherStatus code => code end.

Abbreviation waker := nat.
Inductive MessageInterest :=
| WillPoll
| Waiting (w : waker)
| Received (buf : MessageBuf)
| Discard.
Definition is_received (x : MessageInterest) : bool := match x with Received _ => true | _ => false end.

Inductive EventListener := NoListener | ListenerWillPoll | Listening (w : waker).

Section client.
Context `{!ByteOrder, !Slab}.

(** [written] is what the other end of the channel has not read yet; [write_fails] is an
    error of the kernel. *)
Record ClientInner := {
  channel : @RWHandle MessageBuf; written : list MessageBuf; write_fails : option Z;
  message_interests : slab MessageInterest;
  listener : EventListener; queue : list MessageBuf }.
Definition with_channel (ch : RWHandle) (s : ClientInner) : ClientInner :=
  {| channel := ch; written := written s; write_fails := write_fails s;
     message_interests := message_interests s; listener := listener s; queue := queue s |}.
Definition with_written (x : list MessageBuf) (s : ClientInner) : ClientInner :=
  {| channel := channel s; written := x; write_fails := write_fails s;
     message_interests := message_interests s; listener := listener s; queue := queue s |}.
Definition with_interests (m : slab MessageInterest) (s : ClientInner) : ClientInner :=
  {| channel := channel s; written := written s; write_fails := write_fails s;
     message_interests := m; listener := listener s; queue := queue s |}.
Definition with_events (l : EventListener) (q : list MessageBuf) (s : ClientInner) : ClientInner :=
  {| channel := channel s; written := written s; write_fails := write_fails s;
     message_interests := message_interests s; listener := l; queue := q |}.

Definition wake_now (w : waker) (s : ClientInner) : ClientInner := with_channel (wake_waker w (channel s)) s.
(** The task [w] runs. *)
Definition running (w : waker) (s : ClientInner) : ClientInner :=
  with_channel {| handle := handle (channel s); signals := signals (channel s);
                  read_task := read_task (channel s); write_task := write_task (channel s);
                  woken := woken (channel s) ∖ {[w]} |} s.

Definition client_new (ch : RWHandle) : ClientInner :=
  {| channel := ch; written := []; write_fails := None; message_interests := slab_new;
     listener := NoListener; queue := [] |}.

(** [InterestId::from_txid] and [Txid::from_interest_id]. *)
Definition from_txid (txid : Z) : option nat := if txid =? 0 then None else Some (Z.to_nat (txid - 1)).
Definition from_interest_id (id : nat) : Z := (Z.of_nat id + 1) mod 2 ^ 32.

Open Scope prog_scope.

Definition register_msg_interest : prog ClientInner nat :=
  atomically (λ s, let (id, m) := slab_insert WillPoll (message_interests s) in (id, with_interests m s)).

Definition deregister_msg_interest (id : nat) : prog ClientInner unit :=
  ok <- atomically (λ s,
    match slab_get id (message_interests s) with
    | Some x =>
        (true, with_interests (if is_received x then slab_remove id (message_interests s)
                               else slab_set id Discard (message_interests s)) s)
    | None => (false, s)
    end) ;;
  if ok : bool then Return tt else Abort.

Fixpoint first_waiting (l : list (nat * MessageInterest)) : option waker :=
  match l with
  | [] => None
  | (_, Waiting w) :: _ => Some w
  | _ :: l => first_waiting l
  end.
Definition get_pending_waker : prog ClientInner (option waker) :=
  w <- atomically (λ s, (first_waiting (slab_entries (message_interests s)), s)) ;;
  match w with
  | Some w => Return (Some w)
  | None => atomically (λ s, (match listener s with Listening w => Some w | _ => None end, s))
  end.
Definition wake_any : prog ClientInner unit :=
  w <- get_pending_waker ;;
  match w with
  | Some w => atomically (λ s, (tt, wake_now w s))
  | None => Return tt
  end.

(** [self.channel.recv_from(cx, &mut buf)]. *)
Definition recv_from (w : waker) : prog ClientInner (Poll (MessageBuf + Status)) :=
  r <- atomically (λ s, let (r, ch) := run_alone (E := unit) 8 (read w) (channel s) in (r, with_channel ch s)) ;;
  match r with Ok r => Return r | _ => Abort end.

Definition push_event (buf : MessageBuf) : prog ClientInner unit :=
  atomically (λ s,
    (tt, match listener s with
         | Listening w => wake_now w (with_events ListenerWillPoll (queue s ++ [buf]) s)
         | l => with_events l (queue s ++ [buf]) s
         end)).
Definition store_response (id : nat) (buf : MessageBuf) : prog ClientInner unit :=
  atomically (λ s,
    (tt, match slab_get id (message_interests s) with
         | Some Discard => with_interests (slab_remove id (message_interests s)) s
         | Some (Waiting w) => wake_now w (with_interests (slab_set id (Received buf) (message_interests s)) s)
         | Some _ => with_interests (slab_set id (Received buf) (message_interests s)) s
         | None => s
         end)).
(** A message that was read: it is an event or a response. *)
Definition dispatch (buf : MessageBuf) : prog ClientInner (unit + (bool + Error)) :=
  match decode_transaction_header (mb_bytes buf) with
  | Ok (header, _) =>
      let tx_id := fst header in
      if tx_id =? 0 then push_event buf ;;; Return (inl tt)
      else
        match from_txid tx_id with
        | Some id => store_response id buf ;;; Return (inl tt)
        | None => Abort
        end
  | Err _ => Return (inr (inr InvalidHeader))
  | _ => Abort
  end.
Definition recv_all : prog ClientInner (bool + Error) :=
  iterate (λ _ : unit,
    waker <- get_pending_waker ;;
    match waker with
    | None => Return (inr (inl false))
    | Some w =>
        r <- recv_from w ;;
        match r with
        | Ready (inl buf) => dispatch buf
        | Ready (inr PEER_CLOSED) => Return (inr (inl true))
        | Ready (inr e) => Return (inr (inr (ClientRead (status_code e))))
        | Pending => Return (inr (inl false))
        end
    end) tt.

Definition poll_recv_event (w : waker) : prog ClientInner (Poll (MessageBuf + Error)) :=
  atomically (λ s, (tt, running w (with_events (Listening w) (queue s) s))) ;;;
  r <- recv_all ;;
  match r with
  | inr e => Return (Ready (inr e))
  | inl is_closed =>
      msg <- atomically (λ s,
        match queue s with
        | msg_buf :: q => (Some msg_buf, with_events (listener s) q s)
        | [] => (None, s)
        end) ;;
      Return (match msg with
              | Some msg_buf => Ready (inl msg_buf)
              | None => if is_closed then Ready (inr (ClientRead (status_code PEER_CLOSED))) else Pending
              end)
  end.

Definition poll_recv_msg_response (txid : Z) (w : waker) : prog ClientInner (Poll (MessageBuf + Error)) :=
  match from_txid txid with
  | None => Abort
  | Some id =>
      ok <- atomically (λ s,
        match slab_get id (message_interests s) with
        | Some x =>
            (true, running w (if is_received x then s
                              else with_interests (slab_set id (Waiting w) (message_interests s)) s))
        | None => (false, s)
        end) ;;
      if negb ok then Abort else
      r <- recv_all ;;
      match r with
      | inr e => Return (Ready (inr e))
      | inl is_closed =>
          x <- atomically (λ s,
            match slab_get id (message_interests s) with
            | Some (Received buf) =>
                (Some (Some buf), with_interests (slab_remove id (message_interests s)) s)
            | Some _ => (Some None, s)
            | None => (None, s)
            end) ;;
          match x with
          | None => Abort
          | Some (Some buf) => Return (Ready (inl buf))
          | Some None =>
              Return (if is_closed then Ready (inr (ClientRead (status_code PEER_CLOSED))) else Pending)
          end
      end
  end.

(** * Futures and streams *)
Record MessageResponse := { mr_id : Z; mr_client : bool }.
Definition poll_response (this : MessageResponse) (w : waker)
    : prog ClientInner (Poll (MessageBuf + Error) * MessageResponse) :=
  if mr_client this then
    res <- poll_recv_msg_response (mr_id this) w ;;
    match res with
    | Ready (inl _) => wake_any ;;; Return (res, {| mr_id := mr_id this; mr_client := false |})
    | _ => Return (res, this)
    end
  else Return (Ready (inr PollAfterCompletion), this).
Definition drop_response (this : MessageResponse) : prog ClientInner unit :=
  if mr_client this then
    match from_txid (mr_id this) with
    | Some id => deregister_msg_interest id ;;; wake_any
    | None => Abort
    end
  else Return tt.

(** The stream is over when [EventReceiver::inner] is [None]. *)
Definition take_event_receiver : prog ClientInner unit :=
  ok <- atomically (λ s,
    match listener s with
    | NoListener => (true, with_events ListenerWillPoll (queue s) s)
    | _ => (false, s)
    end) ;;
  if ok : bool then Return tt else Abort.
Definition poll_next (inner : bool) (w : waker) : prog ClientInner (Poll (option (MessageBuf + Error)) * bool) :=
  if negb inner then Abort else
  r <- poll_recv_event w ;;
  Return (match r with
          | Pending => (Pending, inner)
          | Ready (inl x) => (Ready (Some (inl x)), inner)
          | Ready (inr e) =>
              match e with
              | ClientRead code =>
                  if code =? status_code PEER_CLOSED then (Ready None, false) else (Ready (Some (inr e)), inner)
              | _ => (Ready (Some (inr e)), inner)
              end
          end).
Definition drop_receiver (inner : bool) : prog ClientInner unit :=
  if inner then atomically (λ s, (tt, with_events NoListener (queue s) s)) ;;; wake_any
  else Return tt.

(** * Sending

    [Channel::write]: handles are consumed in any case. *)
Definition channel_write (buf : MessageBuf) : prog ClientInner (option Status) :=
  atomically (λ s,
    match write_fails s with
    | Some e => (Some (OtherStatus e), s)
    | None =>
        if closed (handle (channel s)) then (Some PEER_CLOSED, s)
        else (None, with_written (written s ++ [buf]) s)
    end).
Definition send_raw_msg (buf : MessageBuf) : prog ClientInner (option Error) :=
  r <- channel_write buf ;;
  Return (match r with Some e => Some (ClientWrite (status_code e)) | None => None end).
(** A query that is sent, or the future of an error. *)
Definition send_raw_query (msg_from_id : Z → list Z → list Z → result Error unit * (list Z * list Z))
    : prog ClientInner (MessageResponse + Error) :=
  id <- register_msg_interest ;;
  match msg_from_id (from_interest_id id) [] [] with
  | (Ok _, (bytes, handles)) =>
      r <- channel_write {| mb_bytes := bytes; mb_handles := handles |} ;;
      Return (match r with
              | Some e => inr (ClientWrite (status_code e))
              | None => inl {| mr_id := from_interest_id id; mr_client := true |}
              end)
  | (Err e, _) => Return (inr e)
  | _ => Abort
  end.

(** A typed message: [Encoder::encode] into the buffers of the thread. *)
Definition message_from_id (c : Codable) (body : car c) (ordinal : Z) (txid : Z) (bytes handles : list Z)
    : result Error unit * (list Z * list Z) :=
  let (r, bufs) := encoder_encode (message_encodable c) bytes handles (transaction_header txid 0 ordinal, body) in
  (rbind r (λ _, Ok tt), bufs).
Definition send (c : Codable) (body : car c) (ordinal : Z) : prog ClientInner (option Error) :=
  match message_from_id c body ordinal 0 [] [] with
  | (Ok _, (bytes, handles)) => send_raw_msg {| mb_bytes := bytes; mb_handles := handles |}
  | (Err e, _) => Return (Some e)
  | _ => Abort
  end.
Definition send_query (c : Codable) (body : car c) (ordinal : Z) : prog ClientInner (MessageResponse + Error) :=
  send_raw_query (message_from_id c body ordinal).
Definition decode_transaction_body {D : Type} (dec : Decodable D) (buf : MessageBuf) : result Error D :=
  let header_len := type_size (FidlTypes.dec header_codable) in
  if zlen (mb_bytes buf) <? header_len then Err OutOfRange
  else
    rbind (new_empty dec) (λ output,
      decode_into dec (drop (Z.to_nat header_len) (mb_bytes buf)) (mb_handles buf) output).

(** * The synchronous client

    [meanwhile] is what the other end does while the client waits. *)
Record SyncClient := { sync_channel : @Kernel MessageBuf; sync_written : list MessageBuf; sync_write_fails : option Z }.
Definition QUERY_TX_ID : Z := 42.
Definition TIMED_OUT : Status := OtherStatus (-21).
Definition sync_write (buf : MessageBuf) (s : SyncClient) : option Status * SyncClient :=
  match sync_write_fails s with
  | Some e => (Some (OtherStatus e), s)
  | None =>
      if closed (sync_channel s) then (Some PEER_CLOSED, s)
      else (None, {| sync_channel := sync_channel s; sync_written := sync_written s ++ [buf]; sync_write_fails := None |})
  end.
Definition sync_read (s : SyncClient) : (MessageBuf + Status) * SyncClient :=
  let (r, k) := channel_read (sync_channel s) in
  (r, {| sync_channel := k; sync_written := sync_written s; sync_write_fails := sync_write_fails s |}).
Definition wait_handle (x : Signals) (s : SyncClient) : Signals + Status :=
  if sig_intersects x (asserted (sync_channel s)) then inl (asserted (sync_channel s)) else inr TIMED_OUT.

Definition sync_send (c : Codable) (body : car c) (ordinal : Z) (s : SyncClient) : result Error unit * SyncClient :=
  match message_from_id c body ordinal 0 [] [] with
  | (Ok _, (bytes, handles)) =>
      match sync_write {| mb_bytes := bytes; mb_handles := handles |} s with
      | (Some e, s) => (Err (ClientWrite (status_code e)), s)
      | (None, s) => (Ok tt, s)
      end
  | (r, _) => (r, s)
  end.
Definition sync_recv (meanwhile : SyncClient → SyncClient) (s : SyncClient) : (MessageBuf + Error) * SyncClient :=
  match sync_read s with
  | (inl buf, s) => (inl buf, s)
  | (inr SHOULD_WAIT, s) =>
      let s := meanwhile s in
      match wait_handle (sig_union OBJECT_READABLE OBJECT_PEER_CLOSED) s with
      | inr e => (inr (ClientRead (status_code e)), s)
      | inl signals =>
          if negb (sig_contains signals OBJECT_READABLE) then (inr (ClientRead (status_code PEER_CLOSED)), s)
          else
            match sync_read s with
            | (inl buf, s) => (inl buf, s)
            | (inr e, s) => (inr (ClientRead (status_code e)), s)
            end
      end
  | (inr e, s) => (inr (ClientRead (status_code e)), s)
  end.
Definition sync_response {D : Type} (dec : Decodable D) (ordinal : Z) (buf : MessageBuf) : result Error D :=
  rbind (decode_transaction_header (mb_bytes buf)) (λ '((tx_id, (_, (ordinal', _))), body_bytes),
    if negb (tx_id =? QUERY_TX_ID) || negb (ordinal' =? ordinal) then Err UnexpectedSyncResponse
    else rbind (new_empty dec) (λ output, decode_into dec body_bytes (mb_handles buf) output)).
Definition sync_send_query {D : Type} (c : Codable) (dec : Decodable D) (body : car c) (ordinal : Z)
    (meanwhile : SyncClient → SyncClient) (s : SyncClient) : result Error D * SyncClient :=
  match message_from_id c body ordinal QUERY_TX_ID [] [] with
  | (Ok _, (bytes, handles)) =>
      match sync_write {| mb_bytes := bytes; mb_handles := handles |} s with
      | (Some e, s) => (Err (ClientWrite (status_code e)), s)
      | (None, s) =>
          match sync_recv meanwhile s with
          | (inl buf, s) => (sync_response dec ordinal buf, s)
          | (inr e, s) => (Err e, s)
          end
      end
  | (Err e, _) => (Err e, s)
  | (Panic, _) => (Panic, s)
  | (OutOfFuel, _) => (OutOfFuel, s)
  end.

End client.
