(* ===== verification/FidlClientSafety.v ===== *)
(** What holds of a FIDL client whatever its threads do at the same time: no message makes
    it panic, and a query is answered by the answer to it. *)

From S2P Require Import Prelude Std Threads AsyncHandle FidlCore FidlTypes FidlAggregates FidlClient.
Open Scope prog_scope.

Section safety.
Context `{BO : !ByteOrder, BOS : !ByteOrderSpec, SL : !Slab, SLS : !SlabSpec}.

(** The transaction id of a message. *)
Definition tx_of (m : MessageBuf) : option Z :=
  match decode_transaction_header (mb_bytes m) with Ok (header, _) => Some (fst header) | _ => None end.
Definition header_total (m : MessageBuf) : Prop :=
  match decode_transaction_header (mb_bytes m) with
  | Ok (header, _) => 0 ≤ fst header
  | Err _ => True
  | _ => False
  end.

(** Any bytes have a header, or are too short. *)
Lemma decode_header_bytes b0 b1 b2 b3 b4 b5 b6 b7 b8 b9 b10 b11 b12 b13 b14 b15 rest :
  decode_transaction_header (b0 :: b1 :: b2 :: b3 :: b4 :: b5 :: b6 :: b7 :: b8 :: b9 :: b10 :: b11 :: b12 :: b13 :: b14 :: b15 :: rest)
  = Ok (transaction_header (read_int [b0; b1; b2; b3]) (read_int [b8; b9; b10; b11]) (read_int [b12; b13; b14; b15]), rest).
Proof.
  unfold decode_transaction_header. cbn [rbind new_empty dec header_codable struct_codable struct_decodable].
  change (fields_new_empty _) with (Ok (E := Error) (transaction_header 0 0 0)). cbn [rbind].
  change (type_size _) with 16.
  match goal with |- context [zlen ?l <? 16] => assert (16 ≤ zlen l) by (unfold zlen; cbn [length]; lia) end.
  rewrite (proj2 (Z.ltb_ge _ _)) by done.
  change (take (Z.to_nat 16) _) with [b0; b1; b2; b3; b4; b5; b6; b7; b8; b9; b10; b11; b12; b13; b14; b15].
  change (drop (Z.to_nat 16) _) with rest. vm_compute. reflexivity.
Qed.
Lemma header_total_bytes m : bytes_ok (mb_bytes m) → header_total m.
Proof.
  intros Hb. unfold header_total. destruct (Z.ltb_spec (zlen (mb_bytes m)) 16) as [Hs|Hs].
  { unfold decode_transaction_header. cbn [rbind new_empty dec header_codable struct_codable struct_decodable].
    change (fields_new_empty _) with (Ok (E := Error) (transaction_header 0 0 0)). cbn [rbind].
    change (type_size _) with 16. by rewrite (proj2 (Z.ltb_lt _ _) Hs). }
  destruct (mb_bytes m) as [|b0 [|b1 [|b2 [|b3 [|b4 [|b5 [|b6 [|b7 [|b8 [|b9 [|b10 [|b11 [|b12 [|b13 [|b14 [|b15 rest]]]]]]]]]]]]]]]];
    try (unfold zlen in Hs; cbn in Hs; lia).
  rewrite decode_header_bytes. cbn [fst transaction_header]. apply read_int_bound.
  unfold bytes_ok in *. change (Forall is_byte (take 4 (b0 :: b1 :: b2 :: b3 :: b4 :: b5 :: b6 :: b7 :: b8 :: b9 :: b10 :: b11 :: b12 :: b13 :: b14 :: b15 :: rest))).
  by apply Forall_take.
Qed.

Lemma header_total_tx m t : tx_of m = Some t → 0 ≤ t → header_total m.
Proof. unfold tx_of, header_total. destruct (decode_transaction_header _) as [[header ?]| | |]; naive_solver. Qed.

(** * The threads

    The request that the query with the label [l] makes of a transaction id; and the
    answer of the server to a request. *)
Context {label : Type} (request : label → Z → list Z → list Z → result Error unit * (list Z * list Z)).
Context (answer : MessageBuf → option MessageBuf).

Inductive outcome :=
| Got (l : label) (m : MessageBuf)
| Failed (l : label) (e : Error)
| Dropped (l : label)
| Sent (r : option Error)
| Events (items : list (MessageBuf + Error)).

(** A query that is polled with the wakers [ws] until it completes, and is then dropped. *)
Fixpoint poll_until (l : label) (this : MessageResponse) (ws : list waker) : prog ClientInner outcome :=
  match ws with
  | [] => drop_response this ;;; Return (Dropped l)
  | w :: ws =>
      p <- poll_response this w ;;
      let (res, this) := p : Poll (MessageBuf + Error) * MessageResponse in
      match res with
      | Ready (inl m) => drop_response this ;;; Return (Got l m)
      | Ready (inr e) => drop_response this ;;; Return (Failed l e)
      | Pending => poll_until l this ws
      end
  end.
Definition query_user (l : label) (ws : list waker) : prog ClientInner outcome :=
  fut <- send_raw_query (request l) ;;
  match fut with
  | inl this => poll_until l this ws
  | inr e => Return (Failed l e)
  end.
Fixpoint poll_events (items : list (MessageBuf + Error)) (ws : list waker) : prog ClientInner outcome :=
  match ws with
  | [] => drop_receiver true ;;; Return (Events items)
  | w :: ws =>
      p <- poll_next true w ;;
      let (res, inner) := p : Poll (option (MessageBuf + Error)) * bool in
      match res with
      | Ready None => drop_receiver inner ;;; Return (Events items)
      | Ready (Some x) => poll_events (items ++ [x]) ws
      | Pending => poll_events items ws
      end
  end.
Definition event_user (ws : list waker) : prog ClientInner outcome :=
  take_event_receiver ;;; poll_events [] ws.
Definition send_user (m : MessageBuf) : prog ClientInner outcome :=
  r <- send_raw_msg m ;; Return (Sent r).

Inductive user : prog ClientInner outcome → Prop :=
| user_query l ws : user (query_user l ws)
| user_send m : tx_of m = Some 0 → user (send_user m).

(** A server to be trusted answers requests, in any order and each at most once, and sends
    events; one that is not sends anything.  The executor wakes tasks, and system calls fail. *)
Inductive world (trust : bool) : ClientInner → ClientInner → Prop :=
| world_answer s i r txid m :
    trust = true → written s !! i = Some r → answer r = Some m → tx_of r = Some txid → 0 ≤ txid < 2 ^ 32 →
    closed (handle (channel s)) = false →
    world trust s (with_channel (with_handle (deliver m (handle (channel s))) (channel s))
      (with_written (delete i (written s)) s))
| world_read s i : world trust s (with_written (delete i (written s)) s)
| world_send s m :
    bytes_ok (mb_bytes m) → (trust = true → tx_of m = Some 0) →
    world trust s (with_channel (with_handle (deliver m (handle (channel s))) (channel s)) s)
| world_channel s ch :
    inbound (handle ch) = inbound (handle (channel s)) → world trust s (with_channel ch s)
| world_write s e :
    world trust s {| channel := channel s; written := written s; write_fails := e;
                     message_interests := message_interests s; listener := listener s; queue := queue s |}.

Definition request_of (l : label) (id : nat) : MessageBuf :=
  let '(_, (bytes, handles)) := request l (Z.of_nat id + 1) [] [] in
  {| mb_bytes := bytes; mb_handles := handles |}.
Context (request_ok : ∀ l txid, 0 < txid < 2 ^ 32 →
  match request l txid [] [] with
  | (Ok _, (bytes, handles)) => tx_of {| mb_bytes := bytes; mb_handles := handles |} = Some txid
  | (Err _, _) => True
  | _ => False
  end).
Context (trust : bool).
Context (answer_ok : trust = true → ∀ r m txid, tx_of r = Some txid → 0 ≤ txid < 2 ^ 32 →
  answer r = Some m → tx_of m = Some txid).

(** * The invariant *)
Inductive role := RNew | RReg (id : nat) | RAsk (id : nat) (l : label) | RGone | EvNew | EvTaken.
Record local := Local { role_of : role; hold : option MessageBuf }.
Definition key (r : role) : option nat := match r with RReg id | RAsk id _ => Some id | _ => None end.
Definition is_new (k : local) : bool := match role_of k with RNew => true | _ => false end.
Definition events_role (r : role) : bool := match r with EvNew | EvTaken => true | _ => false end.

(** The messages on their way that are requests or responses. *)
Definition tx_nz (m : MessageBuf) : option Z :=
  match tx_of m with Some t => if t =? 0 then None else Some t | None => None end.
Definition under_way (s : ClientInner) (ks : list local) : list MessageBuf :=
  written s ++ inbound (handle (channel s)) ++ omap hold ks.

Record matched (s : ClientInner) (ks : list local) : Prop := {
  m_once : NoDup (omap tx_nz (under_way s ks));
  m_slot : ∀ t, t ∈ omap tx_nz (under_way s ks) →
    ∃ id x, t = Z.of_nat id + 1 ∧ slab_get id (message_interests s) = Some x ∧ is_received x = false ∧
      ∀ i h, ks !! i ≠ Some (Local (RReg id) h);
  m_reg : ∀ i id h, ks !! i = Some (Local (RReg id) h) → slab_get id (message_interests s) = Some WillPoll;
  m_request : ∀ i id l h m, ks !! i = Some (Local (RAsk id l) h) → m ∈ written s →
    tx_of m = Some (Z.of_nat id + 1) → m = request_of l id;
  m_answer : ∀ i id l h m, ks !! i = Some (Local (RAsk id l) h) →
    m ∈ inbound (handle (channel s)) ++ omap hold ks →
    tx_of m = Some (Z.of_nat id + 1) → answer (request_of l id) = Some m;
  m_received : ∀ i id l h m, ks !! i = Some (Local (RAsk id l) h) →
    slab_get id (message_interests s) = Some (Received m) → answer (request_of l id) = Some m }.

(** Each query has its slot, and only one thread takes the events. *)
Record roles_ok (s : ClientInner) (ks : list local) : Prop := {
  i_keys : ∀ i j k k' id, ks !! i = Some k → ks !! j = Some k' →
    key (role_of k) = Some id → key (role_of k') = Some id → i = j;
  i_slots : (slab_slots (message_interests s) + length (filter (λ k, is_new k = true) ks) ≤ length ks)%nat;
  i_limit : zlen ks < 2 ^ 32 - 1;
  i_slot : ∀ i k id, ks !! i = Some k → key (role_of k) = Some id →
    (id < slab_slots (message_interests s))%nat ∧
    ∃ x, slab_get id (message_interests s) = Some x ∧ x ≠ Discard;
  i_events : ∀ i j k k', ks !! i = Some k → ks !! j = Some k' →
    events_role (role_of k) = true → events_role (role_of k') = true → i = j;
  i_untaken : ∀ i k, ks !! i = Some k → role_of k = EvNew → listener s = NoListener }.
Record client_inv (s : ClientInner) (ks : list local) : Prop := {
  i_roles : roles_ok s ks;
  i_headers : Forall header_total (inbound (handle (channel s)) ++ omap hold ks);
  i_matched : trust = true → matched s ks }.

(** * Local states *)
Lemma holds_changed (ks : list local) i k k' :
  ks !! i = Some k →
  ∃ rest, omap hold ks ≡ₚ option_list (hold k) ++ rest ∧
          omap hold (<[i := k']> ks) ≡ₚ option_list (hold k') ++ rest.
Proof.
  intros Hi. exists (omap hold (take i ks) ++ omap hold (drop (S i) ks)).
  rewrite insert_take_drop by (by eapply lookup_lt_Some). rewrite <- (take_drop_middle ks i k Hi) at 1.
  rewrite !omap_app. cbn. destruct (hold k), (hold k'); cbn; rewrite <- ?Permutation_middle; done.
Qed.
Lemma new_changed (ks : list local) i k k' :
  ks !! i = Some k → (is_new k' = true → is_new k = true) →
  (length (filter (λ k, is_new k = true) (<[i := k']> ks)) + (if is_new k then if is_new k' then 0 else 1 else 0)
   = length (filter (λ k, is_new k = true) ks))%nat.
Proof.
  intros Hi Hn. rewrite insert_take_drop by (by eapply lookup_lt_Some).
  rewrite <- (take_drop_middle ks i k Hi) at 3. rewrite !filter_app, !length_app, !filter_cons.
  destruct (is_new k) eqn:Hk, (is_new k') eqn:Hk'; try (specialize (Hn eq_refl); done); repeat case_decide; try done; cbn; lia.
Qed.
Lemma omap_submseteq {X Y} (f : X → option Y) (l l' : list X) : l ⊆+ l' → omap f l ⊆+ omap f l'.
Proof.
  induction 1 as [|x l l' _ IH|x y l|x l l' _ IH|l1 l2 l3 _ IH1 _ IH2]; cbn; [done| | | |by etrans].
  - destruct (f x); [by apply submseteq_skip|done].
  - destruct (f x), (f y); [apply submseteq_swap|done..].
  - destruct (f x); [by apply submseteq_cons|done].
Qed.
Lemma NoDup_smaller {X} (l l' : list X) : l ⊆+ l' → NoDup l' → NoDup l.
Proof. intros [r Hr]%submseteq_Permutation H. rewrite Hr in H. by apply NoDup_app in H as [? _]. Qed.

(** Threads go from [ks] to [ks'], forgetting what they asked for or not. *)
Definition turns (r r' : role) : Prop := r' = RGone ∨ r = r' ∨ r = EvNew ∧ r' = EvTaken.
Definition forgets (ks ks' : list local) : Prop :=
  ∀ j x, ks' !! j = Some x → ∃ x0, ks !! j = Some x0 ∧ turns (role_of x0) (role_of x).
Lemma turns_same r : turns r r.
Proof. by right; left. Qed.
Lemma forgets_insert (ks : list local) i k k' :
  ks !! i = Some k → turns (role_of k) (role_of k') → forgets ks (<[i := k']> ks).
Proof. intros Hi Hr j x [(<-&<-&_)|[? ?]]%list_lookup_insert_Some; eauto using turns_same. Qed.
Lemma forgets_refl ks : forgets ks ks.
Proof. intros j x Hj. eauto using turns_same. Qed.
Lemma forgets_ask ks ks' j id l h :
  forgets ks ks' → ks' !! j = Some (Local (RAsk id l) h) → ∃ h0, ks !! j = Some (Local (RAsk id l) h0).
Proof. intros Hf Hj. destruct (Hf _ _ Hj) as ([r h0]&Hx&[?|[Hr|[_ ?]]]); [done| |done]. cbn in Hr. subst r. eauto. Qed.
Lemma forgets_reg ks ks' j id h :
  forgets ks ks' → ks' !! j = Some (Local (RReg id) h) → ∃ h0, ks !! j = Some (Local (RReg id) h0).
Proof. intros Hf Hj. destruct (Hf _ _ Hj) as ([r h0]&Hx&[?|[Hr|[_ ?]]]); [done| |done]. cbn in Hr. subst r. eauto. Qed.

(** * Changes of the shared state *)
Lemma tx_nz_pos m t : tx_of m = Some t → 0 < t → tx_nz m = Some t.
Proof. intros Hm Ht. unfold tx_nz. rewrite Hm. destruct (Z.eqb_spec t 0); [lia|done]. Qed.
Lemma tx_nz_zero m : tx_of m = Some 0 → tx_nz m = None.
Proof. intros Hm. unfold tx_nz. by rewrite Hm. Qed.

(** Threads that keep their roles in essence keep their slots. *)
Definition inherits (ks ks' : list local) : Prop :=
  ∀ j x, ks' !! j = Some x → ∃ x0, ks !! j = Some x0 ∧
    (∀ id, key (role_of x) = Some id → key (role_of x0) = Some id) ∧
    (events_role (role_of x) = true → events_role (role_of x0) = true) ∧
    (role_of x = EvNew → role_of x0 = EvNew).
Lemma forgets_inherits ks ks' : forgets ks ks' → inherits ks ks'.
Proof.
  intros Hf j x Hj. destruct (Hf j x Hj) as (x0&Hx&Hr). exists x0. split; [done|].
  destruct Hr as [Hr|[Hr|[Hr Hr']]]; rewrite ?Hr, ?Hr'; done.
Qed.
Lemma roles_inherit s s' ks ks' :
  roles_ok s ks → inherits ks ks' → length ks' = length ks →
  (length (filter (λ k, is_new k = true) ks') ≤ length (filter (λ k, is_new k = true) ks))%nat →
  message_interests s' = message_interests s → (listener s = NoListener → listener s' = NoListener) →
  roles_ok s' ks'.
Proof.
  intros [Hk Hsl Hl Hst He Hu] Hin Hlen Hnew Hmi Hli. split; rewrite ?Hmi.
  - intros i j k k' id Hi Hj Hki Hkj. destruct (Hin _ _ Hi) as (x&Hx&Ex&_), (Hin _ _ Hj) as (y&Hy&Ey&_). eauto.
  - lia.
  - unfold zlen in *. by rewrite Hlen.
  - intros i k id Hi Hki. destruct (Hin _ _ Hi) as (x&Hx&Ex&_). eauto.
  - intros i j k k' Hi Hj Hki Hkj. destruct (Hin _ _ Hi) as (x&Hx&_&Ex&_), (Hin _ _ Hj) as (y&Hy&_&Ey&_). eauto.
  - intros i k Hi Hki. destruct (Hin _ _ Hi) as (x&Hx&_&_&Ex). eauto.
Qed.

(** Messages move along: those that are written may be answered, those that have come
    may be read, and those that are read may be dropped. *)
Lemma matched_moves s s' ks ks' :
  trust = true → matched s ks → message_interests s' = message_interests s → forgets ks ks' →
  omap tx_nz (under_way s' ks') ⊆+ omap tx_nz (under_way s ks) →
  (∀ m, m ∈ written s' → tx_nz m = None ∨ m ∈ written s) →
  (∀ m, m ∈ inbound (handle (channel s')) ++ omap hold ks' →
     tx_nz m = None ∨ m ∈ inbound (handle (channel s)) ++ omap hold ks ∨ ∃ r, r ∈ written s ∧ answer r = Some m ∧ tx_of m = tx_of r) →
  matched s' ks'.
Proof.
  intros Htr [Ho Hs Hr Hq Ha Hv] Hmi Hf Htx Hw Hin. split; rewrite ?Hmi.
  - by eapply NoDup_smaller.
  - intros t Ht. destruct (Hs t) as (id&x&?&?&?&Hn); [by eapply elem_of_submseteq|]. exists id, x. split_and!; [done..|].
    intros i h Hi. destruct (forgets_reg _ _ _ _ _ Hf Hi) as [h0 Hi0]. by eapply Hn.
  - intros i id h Hi. destruct (forgets_reg _ _ _ _ _ Hf Hi) as [h0 Hi0]. eauto.
  - intros i id l h m Hi Hm Ht. destruct (forgets_ask _ _ _ _ _ _ Hf Hi) as [h0 Hi0].
    destruct (Hw m Hm) as [Hz|?]; [|by eauto]. rewrite (tx_nz_pos m _ Ht) in Hz by lia. done.
  - intros i id l h m Hi Hm Ht. destruct (forgets_ask _ _ _ _ _ _ Hf Hi) as [h0 Hi0].
    destruct (Hin m Hm) as [Hz|[?|(r&Hr'&Hans&Hsame)]]; [|by eauto|].
    + rewrite (tx_nz_pos m _ Ht) in Hz by lia. done.
    + rewrite Hsame in Ht. by rewrite <- (Hq i id l h0 r Hi0 Hr' Ht).
  - intros i id l h m Hi. destruct (forgets_ask _ _ _ _ _ _ Hf Hi) as [h0 Hi0]. eauto.
Qed.
Lemma client_inv_moves s s' ks ks' :
  client_inv s ks → message_interests s' = message_interests s → (listener s = NoListener → listener s' = NoListener) →
  length ks' = length ks → forgets ks ks' →
  (length (filter (λ k, is_new k = true) ks') ≤ length (filter (λ k, is_new k = true) ks))%nat →
  Forall header_total (inbound (handle (channel s')) ++ omap hold ks') →
  (trust = true → omap tx_nz (under_way s' ks') ⊆+ omap tx_nz (under_way s ks)) →
  (∀ m, m ∈ written s' → tx_nz m = None ∨ m ∈ written s) →
  (∀ m, trust = true → m ∈ inbound (handle (channel s')) ++ omap hold ks' →
     tx_nz m = None ∨ m ∈ inbound (handle (channel s)) ++ omap hold ks ∨ ∃ r, r ∈ written s ∧ answer r = Some m ∧ tx_of m = tx_of r) →
  client_inv s' ks'.
Proof.
  intros [Hr Hh Hm] Hmi Hli Hlen Hf Hnew Hh' Htx Hw Hin. split; [|done|].
  - eapply roles_inherit; eauto using forgets_inherits.
  - intros Ht. eapply matched_moves; eauto.
Qed.

(** One thread forgets. *)
Lemma inv_thread_forgets s ks i k k' :
  client_inv s ks → ks !! i = Some k → turns (role_of k) (role_of k') →
  hold k' = hold k ∨ hold k' = None → client_inv s (<[i := k']> ks).
Proof.
  intros Hinv Hi Hr Hh. destruct (holds_changed ks i k k' Hi) as (rest&H1&H2).
  assert (omap hold (<[i := k']> ks) ⊆+ omap hold ks) as Hsub.
  { rewrite H1, H2. destruct Hh as [->| ->]; [done|]. by apply submseteq_inserts_l. }
  assert (∀ m, m ∈ omap hold (<[i := k']> ks) → m ∈ omap hold ks) as Hin
    by (intros m Hm; by eapply elem_of_submseteq).
  eapply client_inv_moves; [done|done|done|apply length_insert|by eapply forgets_insert| | | |by auto|].
  - pose proof (new_changed ks i k k' Hi) as Hn. unfold is_new in *.
    destruct Hr as [Hr|[Hr|[Hr Hr']]]; rewrite ?Hr, ?Hr' in *; rewrite <- Hn by done; lia.
  - pose proof (i_headers _ _ Hinv) as Hh'. rewrite Forall_app in *. destruct Hh' as [? Hh']. split; [done|].
    rewrite Forall_forall in *. auto.
  - intros _. apply omap_submseteq. by do 2 apply submseteq_skips_l.
  - intros m _. rewrite !elem_of_app. naive_solver.
Qed.
(** What the invariant reads of the channel is its messages. *)
Lemma inv_frame s s' ks :
  client_inv s ks → inbound (handle (channel s')) = inbound (handle (channel s)) → written s' = written s →
  message_interests s' = message_interests s → (listener s = NoListener → listener s' = NoListener) →
  client_inv s' ks.
Proof.
  intros Hinv Hin Hw Hi Hlis. eapply client_inv_moves; [done..| | | | | |]; unfold under_way; rewrite ?Hin, ?Hw; try done.
  - apply forgets_refl.
  - apply Hinv.
  - auto.
  - auto.
Qed.

(** A slot gets a value, or becomes vacant. *)
Lemma inv_slot s ks id y m :
  client_inv s ks →
  (∀ j, slab_get j m = if decide (j = id) then y else slab_get j (message_interests s)) →
  slab_slots m = slab_slots (message_interests s) →
  (∀ j k, ks !! j = Some k → key (role_of k) = Some id → ∃ y', y = Some y' ∧ y' ≠ Discard) →
  (trust = true →
    (Z.of_nat id + 1 ∈ omap tx_nz (under_way s ks) → ∃ y', y = Some y' ∧ is_received y' = false) ∧
    (∀ j h, ks !! j ≠ Some (Local (RReg id) h)) ∧
    (∀ j l h b, ks !! j = Some (Local (RAsk id l) h) → y = Some (Received b) → answer (request_of l id) = Some b)) →
  client_inv (with_interests m s) ks.
Proof.
  intros [[Hk Hsl Hl Hst He Hu] Hh Hm] Hget Hslots Hown Htr. split; [split; cbn; rewrite ?Hslots; eauto|done|].
  - intros i k id' Hi Hki. destruct (Hst i k id' Hi Hki) as [Hlt Hx]. split; [done|]. rewrite Hget.
    destruct (decide (id' = id)) as [->|]; [|done]. eauto.
  - intros Ht. destruct (Hm Ht) as [Ho Hs Hr Hq Ha Hv]. destruct (Htr Ht) as (H1&H2&H3). split; cbn; eauto.
    + intros t Hin. destruct (Hs t Hin) as (id'&x&->&Hx&Hrx&Hn). exists id'. setoid_rewrite Hget.
      destruct (decide (id' = id)) as [->|]; [|eauto]. destruct (H1 Hin) as (y'&->&?). eauto.
    + intros i id' h Hi. rewrite Hget. destruct (decide (id' = id)) as [->|]; [|by eauto]. by destruct (H2 i h).
    + intros i id' l h b Hi. rewrite Hget. destruct (decide (id' = id)) as [->|]; [|by eauto]. eauto.
Qed.

(** A query takes a vacant slot. *)
Section register.
Context (s : ClientInner) (ks : list local) (i id : nat) (h : option MessageBuf) (m : slab MessageInterest).
Context (Hins : slab_insert WillPoll (message_interests s) = (id, m)) (Hi : ks !! i = Some (Local RNew h)).
Let ks' : list local := <[i := Local (RReg id) h]> ks.

Lemma register_lookup j x : ks' !! j = Some x → j = i ∧ x = Local (RReg id) h ∨ ks !! j = Some x.
Proof. intros [(<-&<-&_)|[? ?]]%list_lookup_insert_Some; auto. Qed.
Lemma register_vacant : slab_get id (message_interests s) = None.
Proof. pose proof (slab_insert_vacant _ WillPoll (message_interests s)) as H. by rewrite Hins in H. Qed.
Lemma register_get j : slab_get j m = if decide (j = id) then Some WillPoll else slab_get j (message_interests s).
Proof. pose proof (slab_get_insert _ WillPoll (message_interests s) j) as H. by rewrite Hins in H. Qed.
Lemma register_key j k id' : roles_ok s ks → ks !! j = Some k → key (role_of k) = Some id' → id' ≠ id.
Proof.
  intros Hr Hj Hk ->. destruct (i_slot _ _ Hr j k id Hj Hk) as [_ (x&Hx&_)]. by rewrite register_vacant in Hx.
Qed.
Lemma roles_register : roles_ok s ks → roles_ok (with_interests m s) ks'.
Proof.
  intros Hr. pose proof Hr as [Hk Hsl Hl Hst He Hu].
  pose proof (slab_slots_insert _ WillPoll (message_interests s)) as (Hlt&Hge&Hle). rewrite Hins in *. cbn in *.
  pose proof (new_changed ks i _ (Local (RReg id) h) Hi ltac:(done)) as Hnew. fold ks' in Hnew. cbn in Hnew. split; cbn.
  - intros a b k k' id' Ha Hb Hka Hkb. pose proof (register_key a k id' Hr). pose proof (register_key b k' id' Hr).
    destruct (register_lookup _ _ Ha) as [[-> ->]|Ha'], (register_lookup _ _ Hb) as [[-> ->]|Hb']; cbn in *; naive_solver.
  - unfold ks' at 2. rewrite length_insert. lia.
  - unfold zlen, ks'. by rewrite length_insert.
  - intros j k id' Hj Hkj. rewrite register_get. destruct (register_lookup _ _ Hj) as [[-> ->]|Hj']; cbn in *.
    + simplify_eq. rewrite decide_True by done. eauto.
    + rewrite decide_False by (by eapply register_key). destruct (Hst j k id' Hj' Hkj). split; [lia|done].
  - intros a b k k' Ha Hb Hka Hkb.
    destruct (register_lookup _ _ Ha) as [[-> ->]|Ha'], (register_lookup _ _ Hb) as [[-> ->]|Hb']; try done. eauto.
  - intros a k Ha Hka. destruct (register_lookup _ _ Ha) as [[-> ->]|Ha']; [done|]. eauto.
Qed.
Lemma register_under_way : omap hold ks' ≡ₚ omap hold ks.
Proof. destruct (holds_changed ks i _ (Local (RReg id) h) Hi) as (rest&H1&H2). by rewrite H1. Qed.
Lemma matched_register : roles_ok s ks → matched s ks → matched (with_interests m s) ks'.
Proof.
  intros Hro [Ho Hs Hr Hq Ha Hv].
  assert (under_way (with_interests m s) ks' ≡ₚ under_way s ks) as Hund by (unfold under_way; by rewrite register_under_way).
  assert (∀ t, t ∈ omap tx_nz (under_way s ks) → t ≠ Z.of_nat id + 1) as Hnot.
  { intros t Hin Ht'. destruct (Hs t Hin) as (id'&x&->&Hx&_). assert (id' = id) as -> by lia. by rewrite register_vacant in Hx. }
  assert (∀ j id' l h', ks' !! j = Some (Local (RAsk id' l) h') → ks !! j = Some (Local (RAsk id' l) h') ∧ id' ≠ id) as Hask.
  { intros j id' l h' Hj. destruct (register_lookup _ _ Hj) as [[_ ?]|Hj']; [done|]. split; [done|]. by eapply register_key. }
  split; cbn.
  - by rewrite Hund.
  - intros t Hin. rewrite Hund in Hin. destruct (Hs t Hin) as (id'&x&->&Hx&Hrx&Hn). exists id', x.
    rewrite register_get, decide_False by (intros ->; by eapply Hnot). split_and!; [done..|].
    intros j h' Hj. destruct (register_lookup _ _ Hj) as [[-> Heq]|Hj']; [injection Heq as -> _|by eapply Hn].
    by eapply Hnot.
  - intros j id' h' Hj. rewrite register_get. destruct (register_lookup _ _ Hj) as [[-> Heq]|Hj'].
    + injection Heq as -> _. by rewrite decide_True.
    + rewrite decide_False by (by eapply (register_key _ _ _ Hro Hj')). eauto.
  - intros j id' l h' b [Hj ?]%Hask. eauto.
  - intros j id' l h' b [Hj ?]%Hask Hb. rewrite register_under_way in Hb. eauto.
  - intros j id' l h' b [Hj ?]%Hask. rewrite register_get, decide_False by done. eauto.
Qed.
Lemma client_inv_register : client_inv s ks → client_inv (with_interests m s) ks'.
Proof.
  intros [Hr Hh Hm]. split; [by apply roles_register|cbn; by rewrite register_under_way|].
  intros Ht. apply matched_register; auto.
Qed.
End register.

(** The request is written. *)
Section write.
Context (s : ClientInner) (ks : list local) (i id : nat) (l : label) (h : option MessageBuf).
Context (Hi : ks !! i = Some (Local (RReg id) h)) (Htx : tx_of (request_of l id) = Some (Z.of_nat id + 1)).
Let ks' : list local := <[i := Local (RAsk id l) h]> ks.
Let s' : ClientInner := with_written (written s ++ [request_of l id]) s.

Lemma write_inherits : inherits ks ks'.
Proof. intros j x [(<-&<-&_)|[? ?]]%list_lookup_insert_Some; [|by eauto 6]. by eexists. Qed.
Lemma write_holds : omap hold ks' ≡ₚ omap hold ks.
Proof. destruct (holds_changed ks i _ (Local (RAsk id l) h) Hi) as (rest&H1&H2). by rewrite H1. Qed.
Lemma roles_write : roles_ok s ks → roles_ok s' ks'.
Proof.
  intros Hr. eapply roles_inherit; [done|apply write_inherits|apply length_insert| |done|done].
  pose proof (new_changed ks i _ (Local (RAsk id l) h) Hi ltac:(done)) as Hnew. fold ks' in Hnew. lia.
Qed.
(** The other queries have other slots. *)
Lemma write_others j id' l' h' :
  roles_ok s ks → ks' !! j = Some (Local (RAsk id' l') h') →
  j = i ∧ id' = id ∧ l' = l ∨ ks !! j = Some (Local (RAsk id' l') h') ∧ id' ≠ id.
Proof.
  intros Hr [(<-&[= <- <- <-]&_)|[Hne Hj]]%list_lookup_insert_Some; [by left|right]. split; [done|]. intros ->.
  apply Hne. by eapply (i_keys _ _ Hr).
Qed.
Lemma matched_write : roles_ok s ks → matched s ks → matched s' ks'.
Proof.
  intros Hro [Ho Hs Hr Hq Ha Hv].
  assert (∀ m, tx_of m = Some (Z.of_nat id + 1) → m ∉ under_way s ks) as Hnot.
  { intros m Hm Hin. destruct (Hs (Z.of_nat id + 1)) as (id'&x&Heq&_&_&Hn).
    - apply list_elem_of_omap. exists m. split; [done|]. apply tx_nz_pos; [done|lia].
    - assert (id' = id) as -> by lia. by eapply Hn. }
  assert (omap tx_nz (under_way s' ks') ≡ₚ (Z.of_nat id + 1) :: omap tx_nz (under_way s ks)) as Hund.
  { unfold under_way, s'. cbn. rewrite write_holds, <- app_assoc, !omap_app. cbn. rewrite (tx_nz_pos _ _ Htx) by lia.
    cbn. by rewrite <- Permutation_middle. }
  split.
  - rewrite Hund. constructor; [|done]. intros (m&Hm&Hz)%list_elem_of_omap. apply (Hnot m); [|done].
    unfold tx_nz in Hz. destruct (tx_of m) as [t|]; [|done]. destruct (t =? 0); [done|]. by injection Hz as ->.
  - intros t Hin. rewrite Hund, elem_of_cons in Hin. destruct Hin as [->|Hin].
    + exists id, WillPoll. split_and!; [done|by eapply Hr|done|].
      intros j h' [(<-&?&_)|[Hne Hj]]%list_lookup_insert_Some; [done|]. apply Hne. by eapply (i_keys _ _ Hro).
    + destruct (Hs t Hin) as (id'&x&->&Hx&Hrx&Hn). exists id', x. split_and!; [done..|].
      intros j h' [(<-&?&_)|[Hne Hj]]%list_lookup_insert_Some; [done|]. by eapply Hn.
  - intros j id' h' [(<-&?&_)|[Hne Hj]]%list_lookup_insert_Some; [done|]. eauto.
  - intros j id' l' h' b Hj [Hb|Hb%list_elem_of_singleton]%elem_of_app Htb;
      destruct (write_others _ _ _ _ Hro Hj) as [(->&->&->)|[Hj' Hne]].
    + destruct (Hnot b Htb). by apply elem_of_app; left.
    + eauto.
    + done.
    + subst b. rewrite Htx in Htb. injection Htb. lia.
  - intros j id' l' h' b Hj Hb Htb. rewrite write_holds in Hb.
    destruct (write_others _ _ _ _ Hro Hj) as [(->&->&->)|[Hj' Hne]]; [|by eauto].
    destruct (Hnot b Htb). by apply elem_of_app; right.
  - intros j id' l' h' b Hj Hb. destruct (write_others _ _ _ _ Hro Hj) as [(->&->&->)|[Hj' Hne]]; [|by eauto].
    cbn in Hb. by rewrite (Hr _ _ _ Hi) in Hb.
Qed.
Lemma inv_write : client_inv s ks → client_inv s' ks'.
Proof.
  intros [Hr Hh Hm]. split; [by apply roles_write|cbn; by rewrite write_holds|].
  intros Ht. apply matched_write; auto.
Qed.
End write.

(** A message is read from the channel. *)
Lemma inv_recv s ks i r m ch :
  client_inv s ks → ks !! i = Some (Local r None) →
  inbound (handle (channel s)) = m :: inbound (handle ch) →
  client_inv (with_channel ch s) (<[i := Local r (Some m)]> ks).
Proof.
  intros Hinv Hi Hin. destruct (holds_changed ks i _ (Local r (Some m)) Hi) as (rest&H1&H2). cbn in H1, H2.
  assert (inbound (handle ch) ++ omap hold (<[i := Local r (Some m)]> ks) ≡ₚ inbound (handle (channel s)) ++ omap hold ks) as Hp.
  { rewrite H1, H2, Hin. cbn. by rewrite <- Permutation_middle. }
  eapply client_inv_moves; [done|done|done|apply length_insert|eapply forgets_insert; [done|apply turns_same]| | | |by auto|]; cbn.
  - pose proof (new_changed ks i _ (Local r (Some m)) Hi ltac:(done)) as Hn. lia.
  - rewrite Hp. apply Hinv.
  - intros _. apply omap_submseteq. unfold under_way. cbn. by rewrite Hp.
  - intros b _ Hb. rewrite Hp in Hb. auto.
Qed.
(** A message that is not a query is written. *)
Lemma inv_send s ks m :
  client_inv s ks → tx_of m = Some 0 → client_inv (with_written (written s ++ [m]) s) ks.
Proof.
  intros Hinv Hm. eapply client_inv_moves; [done|done|done|done|apply forgets_refl|done|apply Hinv| | |by auto].
  - intros _. unfold under_way. cbn. rewrite <- app_assoc, !omap_app. cbn. by rewrite (tx_nz_zero m Hm).
  - cbn. intros b [Hb|Hb%list_elem_of_singleton]%elem_of_app; [by right|left]. subst b. by apply tx_nz_zero.
Qed.
(** The world. *)
Lemma inv_world s s' ks : client_inv s ks → world trust s s' → client_inv s' ks.
Proof.
  intros Hinv Hw. pose proof (i_headers _ _ Hinv) as Hh.
  destruct Hw as [s i r txid a Htr Hi Ha Htx Hb Hc|s i|s m Hm Ht|s ch Hin|s e]; [| | |by eapply inv_frame..].
  - pose proof (answer_ok Htr r a txid Htx Hb Ha) as Hsame.
    assert (written s ≡ₚ r :: delete i (written s)) as Hp by by apply delete_Permutation.
    revert Hp. generalize (delete i (written s)) as ws. intros ws Hp.
    eapply client_inv_moves; [done|done|done|done|apply forgets_refl|done| | | |]; cbn.
    + rewrite <- app_assoc. cbn. rewrite Forall_app in *. rewrite Forall_cons.
      destruct Hh. split_and!; [done| |done]. eapply header_total_tx; [done|lia].
    + intros _. unfold under_way. cbn. rewrite Hp, <- app_assoc. cbn. rewrite !omap_app. cbn.
      assert (tx_nz a = tx_nz r) as -> by (unfold tx_nz; by rewrite Hsame, Htx).
      destruct (tx_nz r); [|done]. by rewrite <- !Permutation_middle.
    + intros m Hm. right. rewrite Hp. by apply elem_of_cons; right.
    + intros m _ Hm. right. rewrite <- app_assoc, !elem_of_app, list_elem_of_singleton in Hm. rewrite elem_of_app.
      destruct Hm as [?|[->|?]]; [by auto|right|by auto]. exists r. split_and!; [by eapply list_elem_of_lookup_2|done|congruence].
  - eapply client_inv_moves; [done|done|done|done|apply forgets_refl|done|done| | |by auto]; cbn.
    + intros _. apply omap_submseteq. unfold under_way. cbn. apply submseteq_skips_r. apply sublist_submseteq, sublist_delete.
    + intros m Hm. right. by eapply elem_of_submseteq; [|apply sublist_submseteq, sublist_delete].
  - eapply client_inv_moves; [done|done|done|done|apply forgets_refl|done| | |by auto|]; cbn.
    + rewrite <- app_assoc. cbn. rewrite Forall_app in *. rewrite Forall_cons.
      destruct Hh. split_and!; [done| |done]. by apply header_total_bytes.
    + intros Htr. unfold under_way. cbn. rewrite <- app_assoc, !omap_app. cbn. by rewrite (tx_nz_zero m (Ht Htr)).
    + intros b Htr Hb. rewrite <- app_assoc, !elem_of_app, list_elem_of_singleton in Hb. rewrite elem_of_app.
      destruct Hb as [?|[->|?]]; [by auto|left|by auto]. apply tx_nz_zero; auto.
Qed.

(** * The operations *)
Abbreviation triple := (wp client_inv).

(** A step that looks, or changes what the invariant does not depend on. *)
Lemma triple_frame {X} (f : ClientInner → X * ClientInner) k (Q : local → X → Prop) :
  (∀ s ks, client_inv s ks → client_inv (snd (f s)) ks) → (∀ x, Q k x) → triple k (atomically f) Q.
Proof. intros Hf HQ s ks i HJ Hi. exists k. rewrite list_insert_id by done. split; [by apply Hf|apply HQ]. Qed.
Lemma inv_wake w s ks : client_inv s ks → client_inv (wake_now w s) ks.
Proof. intros Hinv. by eapply inv_frame. Qed.
Lemma inv_running w s ks : client_inv s ks → client_inv (running w s) ks.
Proof. intros Hinv. by eapply inv_frame. Qed.

Lemma get_pending_waker_ok k : triple k get_pending_waker (λ k' _, k' = k).
Proof.
  apply wp_bind, triple_frame; [by auto|]. intros [w|]; [done|]. by apply triple_frame.
Qed.
Lemma wake_any_ok k : triple k wake_any (λ k' _, k' = k).
Proof.
  apply wp_bind. eapply wp_mono; [|apply get_pending_waker_ok]. intros k' w ->. destruct w as [w|]; [|done].
  apply triple_frame; [|done]. intros s ks. apply inv_wake.
Qed.
Lemma recv_from_ok w k :
  triple k (recv_from w) (λ k' r, role_of k' = role_of k ∧
    match r with Ready (inl m) => hold k' = Some m ∧ header_total m | _ => True end).
Proof.
  apply wp_bind. intros s ks i HJ Hi. destruct (read_alone w (channel s)) as (r&ch&Hr&_&Hpost). rewrite Hr. cbn.
  destruct r as [[m|e]|].
  - destruct Hpost as (_&_&Hin). exists (Local (role_of k) (Some m)). split; [|split; [done|split; [done|]]].
    + rewrite <- (list_insert_insert_eq ks i _ (Local (role_of k) None)). eapply inv_recv; [|apply list_lookup_insert_eq; by eapply lookup_lt_Some|done].
      eapply inv_thread_forgets; [done|done|apply turns_same|by right].
    + pose proof (i_headers _ _ HJ) as Hh. rewrite Hin in Hh. by inversion Hh.
  - exists k. rewrite list_insert_id by done. split; [|done]. destruct Hpost as [Hin _]. by eapply inv_frame.
  - exists k. rewrite list_insert_id by done. split; [|done]. destruct Hpost as [_ Hin]. by eapply inv_frame.
Qed.

(** A response that was read is not under way any more. *)
Lemma held_once s ks i r m t :
  matched s ks → ks !! i = Some (Local r (Some m)) → tx_nz m = Some t →
  t ∉ omap tx_nz (under_way s (<[i := Local r None]> ks)).
Proof.
  intros Hm Hi Ht. destruct (holds_changed ks i _ (Local r None) Hi) as (rest&H1&H2). cbn in H1, H2.
  pose proof (m_once _ _ Hm) as Ho. unfold under_way in *. rewrite H2. rewrite H1 in Ho.
  rewrite <- !Permutation_middle in Ho. cbn in Ho. rewrite Ht in Ho. by inversion Ho.
Qed.
Lemma store_response_ok id m k :
  hold k = Some m → tx_of m = Some (Z.of_nat id + 1) →
  triple k (store_response id m) (λ k' _, role_of k' = role_of k).
Proof.
  intros Hk Htx s ks i HJ Hi. destruct k as [r h]. cbn in Hk. subst h. exists (Local r None). split; [|done].
  pose proof (tx_nz_pos _ _ Htx ltac:(lia)) as Hnz.
  assert (client_inv s (<[i := Local r None]> ks)) as HJ' by (eapply inv_thread_forgets; [done|done|by (left + apply turns_same)|by (left + right)]).
  assert (trust = true → (Z.of_nat id + 1 ∉ omap tx_nz (under_way s (<[i := Local r None]> ks))) ∧
    (∀ j h, <[i := Local r None]> ks !! j ≠ Some (Local (RReg id) h)) ∧
    (∀ j l h, <[i := Local r None]> ks !! j = Some (Local (RAsk id l) h) → answer (request_of l id) = Some m)) as Htr.
  { intros Ht. pose proof (i_matched _ _ HJ Ht) as Hm. split; [by eapply held_once|].
    assert (m ∈ omap hold ks) as Hin by (apply list_elem_of_omap; exists (Local r (Some m)); split; [by eapply list_elem_of_lookup_2|done]).
    assert (forgets ks (<[i := Local r None]> ks)) as Hf by (eapply forgets_insert; [done|apply turns_same]). split.
    - intros j h Hj. destruct (forgets_reg _ _ _ _ _ Hf Hj) as [h0 Hj0].
      destruct (m_slot _ _ Hm (Z.of_nat id + 1)) as (id'&x&Heq&_&_&Hn).
      + apply list_elem_of_omap. exists m. split; [|done]. unfold under_way. rewrite !elem_of_app. auto.
      + assert (id' = id) as -> by lia. by eapply Hn.
    - intros j l h Hj. destruct (forgets_ask _ _ _ _ _ _ Hf Hj) as [h0 Hj0]. eapply (m_answer _ _ Hm); [done| |done].
      rewrite elem_of_app. by right. }
  cbn. destruct (slab_get id (message_interests s)) as [x|] eqn:Hx; [|done].
  assert (x ≠ Discard → client_inv (with_interests (slab_set id (Received m) (message_interests s)) s) (<[i := Local r None]> ks)) as Hset.
  { intros Hd. eapply (inv_slot _ _ id (Some (Received m))); [done|intros j; by eapply slab_get_set|apply slab_slots_set|eauto|].
    intros Ht. destruct (Htr Ht) as (H1&H2&H3). split_and!; [done|done|]. intros j l h b Hj [= <-]. eauto. }
  destruct x as [|w|b|]; [by apply Hset|by apply inv_wake, Hset|by apply Hset|].
  eapply (inv_slot _ _ id None); [done|intros j; by eapply slab_get_remove|apply slab_slots_remove| |].
  - intros j k Hj Hkj. destruct (i_slot _ _ (i_roles _ _ HJ') j k id Hj Hkj) as [_ (x&Hx'&?)]. by simplify_eq.
  - intros Ht. destruct (Htr Ht) as (H1&H2&H3). by split_and!.
Qed.
Lemma push_event_ok m k : triple k (push_event m) (λ k' _, role_of k' = role_of k).
Proof.
  apply triple_frame; [|done]. intros s ks Hinv. cbn. destruct (listener s) eqn:Hl.
  - eapply inv_frame; [done..|]. by rewrite Hl.
  - eapply inv_frame; [done..|]. by rewrite Hl.
  - apply inv_wake. eapply inv_frame; [done..|]. by rewrite Hl.
Qed.
Lemma dispatch_ok m k :
  hold k = Some m → header_total m → triple k (dispatch m) (λ k' _, role_of k' = role_of k).
Proof.
  intros Hk Hh. unfold dispatch. unfold header_total in Hh.
  destruct (decode_transaction_header (mb_bytes m)) as [[header body]|e| |] eqn:Hd; try done.
  destruct (Z.eqb_spec (fst header) 0) as [_|Hz].
  - apply wp_bind. eapply wp_mono; [|apply push_event_ok]. done.
  - unfold from_txid. rewrite (proj2 (Z.eqb_neq _ _) Hz). apply wp_bind. eapply wp_mono; [|apply store_response_ok]; [done|done|].
    unfold tx_of. rewrite Hd. f_equal. lia.
Qed.
Lemma recv_all_ok k : triple k recv_all (λ k' _, role_of k' = role_of k).
Proof.
  apply (wp_iterate _ _ (λ k' _, role_of k' = role_of k)); [done|]. intros k1 [] Hk1.
  apply wp_bind. eapply wp_mono; [|apply get_pending_waker_ok]. intros k2 w ->. destruct w as [w|]; [|done].
  apply wp_bind. eapply wp_mono; [|apply recv_from_ok]. intros k3 r [Hk3 Hr]. destruct r as [[m|e]|].
  - destruct Hr as [Hh Ht]. eapply wp_mono; [|by apply dispatch_ok]. intros k4 x Hk4. destruct x as [[]|]; congruence.
  - destruct e; cbn; congruence.
  - cbn. congruence.
Qed.

Lemma from_interest_id_ok id : Z.of_nat id + 1 < 2 ^ 32 → from_interest_id id = Z.of_nat id + 1.
Proof. intros H. unfold from_interest_id. rewrite Z.mod_small; lia. Qed.
Lemma from_txid_ok id : from_txid (Z.of_nat id + 1) = Some id.
Proof. unfold from_txid. destruct (Z.eqb_spec (Z.of_nat id + 1) 0); [lia|]. f_equal. lia. Qed.

Lemma register_ok k :
  role_of k = RNew → triple k register_msg_interest (λ k' id, role_of k' = RReg id ∧ Z.of_nat id + 1 < 2 ^ 32).
Proof.
  intros Hk s ks i HJ Hi. destruct k as [r h]. cbn in Hk. subst r. cbn.
  destruct (slab_insert WillPoll (message_interests s)) as [id m] eqn:Hins. exists (Local (RReg id) h).
  pose proof (client_inv_register _ _ _ _ _ _ Hins Hi HJ) as HJ'. split; [exact HJ'|]. split; [done|].
  pose proof (i_roles _ _ HJ') as Hr. pose proof (i_limit _ _ Hr) as Hl. pose proof (i_slots _ _ Hr) as Hs.
  destruct (i_slot _ _ Hr i (Local (RReg id) h) id) as [Hlt _]; [|done|unfold zlen in Hl; cbn in *; lia].
  apply list_lookup_insert_eq. by eapply lookup_lt_Some.
Qed.
Lemma write_request_ok id l k bytes handles :
  role_of k = RReg id → Z.of_nat id + 1 < 2 ^ 32 → request l (Z.of_nat id + 1) [] [] = (Ok tt, (bytes, handles)) →
  triple k (channel_write {| mb_bytes := bytes; mb_handles := handles |})
    (λ k' r, match r with None => role_of k' = RAsk id l | Some _ => True end).
Proof.
  intros Hk Hid Hreq s ks i HJ Hi. destruct k as [r h]. cbn in Hk. subst r. cbn.
  assert ({| mb_bytes := bytes; mb_handles := handles |} = request_of l id) as -> by (unfold request_of; by rewrite Hreq).
  pose proof (request_ok l (Z.of_nat id + 1) ltac:(lia)) as Hok. rewrite Hreq in Hok.
  destruct (write_fails s); [exists (Local (RReg id) h); by rewrite list_insert_id|].
  destruct (closed _); [exists (Local (RReg id) h); by rewrite list_insert_id|].
  exists (Local (RAsk id l) h). split; [|done]. eapply inv_write; [done| |done].
  unfold request_of. by rewrite Hreq.
Qed.
Lemma send_raw_query_ok l k :
  role_of k = RNew → triple k (send_raw_query (request l)) (λ k' fut,
    match fut with
    | inl this => ∃ id, role_of k' = RAsk id l ∧ Z.of_nat id + 1 < 2 ^ 32 ∧
                        this = {| mr_id := Z.of_nat id + 1; mr_client := true |}
    | inr _ => True
    end).
Proof.
  intros Hk. apply wp_bind. eapply wp_mono; [|by apply register_ok]. intros k1 id [Hk1 Hid].
  rewrite from_interest_id_ok by done. pose proof (request_ok l (Z.of_nat id + 1) ltac:(lia)) as Hok.
  destruct (request l (Z.of_nat id + 1) [] []) as [[[]|e| |] [bytes handles]] eqn:Hreq; try done.
  apply wp_bind. eapply wp_mono; [|by eapply write_request_ok]. intros k2 [e|] Hk2; [done|]. by exists id.
Qed.

(** No other thread has the slot of a query. *)
Lemma slot_owner s ks i id l h :
  client_inv s ks → ks !! i = Some (Local (RAsk id l) h) →
  (∀ j h', ks !! j ≠ Some (Local (RReg id) h')) ∧
  ∀ j k, <[i := Local RGone h]> ks !! j = Some k → key (role_of k) ≠ Some id.
Proof.
  intros Hinv Hi. pose proof (i_keys _ _ (i_roles _ _ Hinv)) as Hk. split.
  - intros j h' Hj. assert (i = j) as <- by by eapply Hk. congruence.
  - intros j k [(<-&<-&_)|[Hne Hj]]%list_lookup_insert_Some Hkj; [done|]. apply Hne. by eapply Hk.
Qed.
Lemma set_waiting_ok s ks i id l h x w :
  client_inv s ks → ks !! i = Some (Local (RAsk id l) h) → slab_get id (message_interests s) = Some x →
  is_received x = false → client_inv (with_interests (slab_set id (Waiting w) (message_interests s)) s) ks.
Proof.
  intros HJ Hi Hx Hr. destruct (slot_owner _ _ _ _ _ _ HJ Hi) as [Hreg _].
  eapply (inv_slot _ _ id (Some (Waiting w))); [done|intros j; by eapply slab_get_set|apply slab_slots_set|eauto|].
  intros Ht. split_and!; eauto. intros j l' h' b _ ?. done.
Qed.
(** The owner takes the response, or gives the slot up. *)
Lemma take_slot_ok s ks i id l h b :
  client_inv s ks → ks !! i = Some (Local (RAsk id l) h) → slab_get id (message_interests s) = Some (Received b) →
  client_inv (with_interests (slab_remove id (message_interests s)) s) (<[i := Local RGone h]> ks).
Proof.
  intros HJ Hi Hx. destruct (slot_owner _ _ _ _ _ _ HJ Hi) as [Hreg Hno].
  assert (client_inv s (<[i := Local RGone h]> ks)) as HJ' by (eapply inv_thread_forgets; [done|done|by (left + apply turns_same)|by (left + right)]).
  eapply (inv_slot _ _ id None); [done|intros j; by eapply slab_get_remove|apply slab_slots_remove| |].
  - intros j k Hj Hkj. by destruct (Hno j k Hj).
  - intros Ht. pose proof (i_matched _ _ HJ' Ht) as Hm. split_and!.
    + intros Hin. destruct (m_slot _ _ Hm _ Hin) as (id'&x&Heq&Hx'&Hr&_). assert (id' = id) as -> by lia.
      rewrite Hx in Hx'. by injection Hx' as <-.
    + intros j h' Hj. by destruct (Hno _ _ Hj).
    + done.
Qed.
Lemma discard_slot_ok s ks i id l h x :
  client_inv s ks → ks !! i = Some (Local (RAsk id l) h) → slab_get id (message_interests s) = Some x →
  client_inv (with_interests (slab_set id Discard (message_interests s)) s) (<[i := Local RGone h]> ks).
Proof.
  intros HJ Hi Hx. destruct (slot_owner _ _ _ _ _ _ HJ Hi) as [Hreg Hno].
  assert (client_inv s (<[i := Local RGone h]> ks)) as HJ' by (eapply inv_thread_forgets; [done|done|by (left + apply turns_same)|by (left + right)]).
  eapply (inv_slot _ _ id (Some Discard)); [done|intros j; by eapply slab_get_set|apply slab_slots_set| |].
  - intros j k Hj Hkj. by destruct (Hno j k Hj).
  - intros Ht. split_and!; [by eauto| |].
    + intros j h' Hj. by destruct (Hno _ _ Hj).
    + done.
Qed.

Definition response_post (id : nat) (l : label) (k : local) (res : Poll (MessageBuf + Error)) : Prop :=
  match res with
  | Ready (inl m) => role_of k = RGone ∧ (trust = true → answer (request_of l id) = Some m)
  | _ => role_of k = RAsk id l
  end.
Lemma poll_recv_msg_response_ok id l w k :
  role_of k = RAsk id l →
  triple k (poll_recv_msg_response (Z.of_nat id + 1) w) (response_post id l).
Proof.
  intros Hk. unfold poll_recv_msg_response. rewrite from_txid_ok. apply wp_bind, wp_atomically.
  intros s ks i HJ Hi. exists k. rewrite list_insert_id by done.
  destruct (i_slot _ _ (i_roles _ _ HJ) i k id) as [_ (x&Hx&_)]; [done|by rewrite Hk|]. rewrite Hx. cbn [fst snd negb].
  destruct k as [r h]. cbn in Hk. subst r. split.
  { apply inv_running. destruct (is_received x) eqn:Hr; [done|]. by eapply set_waiting_ok. }
  apply wp_bind. eapply wp_mono; [|apply recv_all_ok]. intros k1 r Hk1. cbn in Hk1. destruct r as [is_closed|e]; [|done].
  apply wp_bind, wp_atomically. clear s ks i HJ Hi x Hx. intros s ks i HJ Hi.
  destruct (i_slot _ _ (i_roles _ _ HJ) i k1 id) as [_ (x&Hx&Hd)]; [done|by rewrite Hk1|]. rewrite Hx.
  destruct k1 as [r1 h1]. cbn in Hk1. subst r1.
  destruct x as [|w'|b|]; [exists (Local (RAsk id l) h1); rewrite list_insert_id by done; split; [done|by destruct is_closed]..| |done].
  exists (Local RGone h1). split; [by eapply take_slot_ok|]. split; [done|]. intros Ht.
  by eapply (m_received _ _ (i_matched _ _ HJ Ht)).
Qed.
Lemma deregister_ok id l k :
  role_of k = RAsk id l → triple k (deregister_msg_interest id) (λ k' _, role_of k' = RGone).
Proof.
  intros Hk. apply wp_bind, wp_atomically. intros s ks i HJ Hi.
  destruct (i_slot _ _ (i_roles _ _ HJ) i k id) as [_ (x&Hx&_)]; [done|by rewrite Hk|]. rewrite Hx.
  destruct k as [r h]. cbn in Hk. subst r. exists (Local RGone h). split; [|done].
  destruct x; [by eapply discard_slot_ok|by eapply discard_slot_ok|by eapply take_slot_ok|by eapply discard_slot_ok].
Qed.
Lemma poll_response_ok id l w k :
  role_of k = RAsk id l →
  triple k (poll_response {| mr_id := Z.of_nat id + 1; mr_client := true |} w) (λ k' p,
    response_post id l k' (fst p) ∧
    snd p = {| mr_id := Z.of_nat id + 1; mr_client := match fst p with Ready (inl _) => false | _ => true end |}).
Proof.
  intros Hk. apply wp_bind. eapply wp_mono; [|by apply poll_recv_msg_response_ok]. intros k1 res Hres.
  destruct res as [[m|e]|]; [|done..]. apply wp_bind. eapply wp_mono; [|apply wake_any_ok]. by intros k2 _ ->.
Qed.
Lemma drop_response_ok id l k :
  role_of k = RAsk id l → triple k (drop_response {| mr_id := Z.of_nat id + 1; mr_client := true |}) (λ _ _, True).
Proof.
  intros Hk. unfold drop_response. cbn [mr_client mr_id]. rewrite from_txid_ok.
  apply wp_bind. eapply wp_mono; [|by eapply deregister_ok]. intros k1 _ _. eapply wp_mono; [|apply wake_any_ok]. done.
Qed.

(** * The threads *)
Definition outcome_ok (_ : local) (o : outcome) : Prop :=
  match o with
  | Got l m => trust = true → ∃ id, Z.of_nat id + 1 < 2 ^ 32 ∧ answer (request_of l id) = Some m
  | _ => True
  end.
Lemma poll_until_ok id l ws k :
  role_of k = RAsk id l → Z.of_nat id + 1 < 2 ^ 32 → triple k (poll_until l {| mr_id := Z.of_nat id + 1; mr_client := true |} ws) outcome_ok.
Proof.
  intros Hk Hid. revert k Hk. induction ws as [|w ws IH]; intros k Hk; cbn [poll_until]; apply wp_bind.
  - eapply wp_mono; [|by eapply drop_response_ok]. done.
  - eapply wp_mono; [|by apply poll_response_ok]. intros k1 [res this] [Hres Hthis]. cbn [fst snd] in *. subst this.
    destruct res as [[m|e]|]; cbn in Hres.
    + destruct Hres as [Hr Hm]. intros Ht. exists id. auto.
    + apply wp_bind. eapply wp_mono; [|by eapply drop_response_ok]. done.
    + by apply IH.
Qed.
Lemma query_user_ok l ws k : role_of k = RNew → triple k (query_user l ws) outcome_ok.
Proof.
  intros Hk. apply wp_bind. eapply wp_mono; [|by apply send_raw_query_ok]. intros k1 [this|e]; [|done].
  intros (id&Hk1&?&->). by apply poll_until_ok.
Qed.
Lemma send_user_ok m k : tx_of m = Some 0 → triple k (send_user m) outcome_ok.
Proof.
  intros Hm. apply wp_bind, wp_bind. apply triple_frame; [|done]. intros s ks HJ. cbn.
  destruct (write_fails s); [done|]. destruct (closed _); [done|]. by apply inv_send.
Qed.

(** The thread that takes the events. *)
Lemma set_listener_ok lis s ks i k :
  client_inv s ks → ks !! i = Some k → role_of k = EvTaken → client_inv (with_events lis (queue s) s) ks.
Proof.
  intros HJ Hi Hk. destruct HJ as [Hr Hh Hm]. pose proof Hr as [? ? ? ? He Hu]. split; [|done|].
  - split; try done. intros j k' Hj Hk'. assert (i = j) as <- by (eapply He; [done|done|by rewrite Hk|by rewrite Hk']). congruence.
  - intros Ht. destruct (Hm Ht) as [? ? ? ? ? ?]. by split.
Qed.
Lemma drop_receiver_ok inner k : role_of k = EvTaken → triple k (drop_receiver inner) (λ _ _, True).
Proof.
  intros Hk. destruct inner; [|done]. apply wp_bind, wp_atomically. intros s ks i HJ Hi. exists k. rewrite list_insert_id by done.
  split; [by eapply set_listener_ok|]. eapply wp_mono; [|apply wake_any_ok]. done.
Qed.
Lemma poll_next_ok w k : role_of k = EvTaken → triple k (poll_next true w) (λ k' _, role_of k' = EvTaken).
Proof.
  intros Hk. apply wp_bind, wp_bind, wp_atomically. intros s ks i HJ Hi. exists k. rewrite list_insert_id by done.
  split; [apply inv_running; by eapply set_listener_ok|].
  apply wp_bind. eapply wp_mono; [|apply recv_all_ok]. intros k1 r Hk1. destruct r as [is_closed|e]; [|cbn; congruence].
  apply wp_bind, triple_frame; [|intros [m|]; cbn; congruence]. intros s' ks' HJ'. cbn. destruct (queue s'); [done|].
  by eapply inv_frame.
Qed.
Lemma poll_events_ok items ws k : role_of k = EvTaken → triple k (poll_events items ws) outcome_ok.
Proof.
  revert items k. induction ws as [|w ws IH]; intros items k Hk; cbn [poll_events]; apply wp_bind.
  - eapply wp_mono; [|by apply drop_receiver_ok]. done.
  - eapply wp_mono; [|by apply poll_next_ok]. intros k1 [res inner] Hk1. destruct res as [[x|]|]; [by apply IH| |by apply IH].
    apply wp_bind. eapply wp_mono; [|by apply drop_receiver_ok]. done.
Qed.
Lemma event_user_ok ws k : role_of k = EvNew → triple k (event_user ws) outcome_ok.
Proof.
  intros Hk. apply wp_bind, wp_bind, wp_atomically. intros s ks i HJ Hi. destruct k as [r h]. cbn in Hk. subst r.
  pose proof (i_untaken _ _ (i_roles _ _ HJ) i _ Hi eq_refl) as Hl. rewrite Hl. exists (Local EvTaken h). split; [|by apply poll_events_ok].
  eapply set_listener_ok; [|apply list_lookup_insert_eq; by eapply lookup_lt_Some|done].
  eapply inv_thread_forgets; [done|done|by do 2 right|by left].
Qed.

(** A new thread. *)
Lemma client_inv_call s ks r :
  client_inv s ks → zlen ks < 2 ^ 32 - 2 → r = RNew ∨ r = RGone → client_inv s (ks ++ [Local r None]).
Proof.
  intros [[Hk Hsl Hl Hst He Hu] Hh Hm] Hlim Hr.
  assert (∀ j x, (ks ++ [Local r None]) !! j = Some x → ks !! j = Some x ∨ x = Local r None) as Hlk.
  { intros j x [?|[_ ?]]%lookup_app_Some; [by left|right]. by apply list_lookup_singleton_Some in H as [_ <-]. }
  assert (omap hold (ks ++ [Local r None]) = omap hold ks) as Hhold by (rewrite omap_app; cbn; by rewrite app_nil_r).
  assert (key r = None ∧ events_role r = false ∧ r ≠ EvNew) as (Hkey&Hev&Hne) by by destruct Hr as [->| ->].
  split; [split|by rewrite Hhold|].
  - intros i j k k' id Hi Hj Hki Hkj. destruct (Hlk _ _ Hi) as [?| ->], (Hlk _ _ Hj) as [?| ->]; cbn in *; [by eauto|congruence..].
  - rewrite filter_app, !length_app. assert (length (filter (λ k, is_new k = true) [Local r None]) ≤ 1)%nat.
    { rewrite length_filter. done. }
    cbn [length]. lia.
  - rewrite zlen_app. change (zlen [_]) with 1. lia.
  - intros i k id Hi Hki. destruct (Hlk _ _ Hi) as [?| ->]; cbn in *; [by eauto|congruence].
  - intros i j k k' Hi Hj Hki Hkj. destruct (Hlk _ _ Hi) as [?| ->], (Hlk _ _ Hj) as [?| ->]; cbn in *; [by eauto|congruence..].
  - intros i k Hi Hki. destruct (Hlk _ _ Hi) as [?| ->]; cbn in *; [by eauto|congruence].
  - intros Ht. destruct (Hm Ht) as [? Hs ? ? ? ?]. unfold under_way in *. split; unfold under_way; rewrite ?Hhold; try done.
    + intros t Hin. destruct (Hs t Hin) as (id&x&?&?&?&Hn). exists id, x. split_and!; [done..|].
      intros i h Hi. destruct (Hlk _ _ Hi) as [?|[= <- _]]; [by eapply Hn|done].
    + intros i id h Hi. destruct (Hlk _ _ Hi) as [?|[= <- _]]; [by eauto|done].
    + intros i id l h m Hi. destruct (Hlk _ _ Hi) as [?|[= <- _]]; [by eauto|done].
    + intros i id l h m Hi. destruct (Hlk _ _ Hi) as [?|[= <- _]]; [by eauto|done].
    + intros i id l h m Hi. destruct (Hlk _ _ Hi) as [?|[= <- _]]; [by eauto|done].
Qed.
Lemma inv_init : client_inv (client_new fresh_handle) [Local EvNew None].
Proof.
  assert (∀ j x, [Local EvNew None] !! j = Some x → j = 0%nat ∧ x = Local EvNew None) as Hlk
    by (intros j x [-> <-]%list_lookup_singleton_Some; done).
  split; [split|done|].
  - intros i j k k' id Hi Hj Hki. by apply Hlk in Hi as [-> ->].
  - cbn [message_interests client_new]. rewrite slab_slots_new. by apply Nat.leb_le.
  - done.
  - intros i k id Hi Hki. by apply Hlk in Hi as [-> ->].
  - intros i j k k' Hi Hj _ _. apply Hlk in Hi as [-> _]. by apply Hlk in Hj as [-> _].
  - done.
  - intros _. split; cbn; try (constructor || set_solver).
    all: intros i id *; try (intros [_ ?]%Hlk; done).
Qed.

Definition client_reachable (ws : list waker) : config ClientInner outcome → Prop :=
  rtc (cstep user (world trust)) (Config (client_new fresh_handle) [event_user ws]).
Lemma client_verified ws c :
  client_reachable ws c → zlen (pool c) ≤ 2 ^ 32 - 2 → verified client_inv outcome_ok c.
Proof.
  intros Hr Hl. eapply verified_steps; [..|exact Hr|exact Hl].
  - intros s ks p HJ Hlim Hu. destruct Hu as [l ws'|m Hm].
    + exists (Local RNew None). split; [apply client_inv_call; auto|]. by apply query_user_ok.
    + exists (Local RGone None). split; [apply client_inv_call; auto|]. by apply send_user_ok.
  - intros s s' ks. apply inv_world.
  - exists [Local EvNew None]. split; [apply inv_init|]. apply Forall2_cons. split; [|done]. by apply event_user_ok.
Qed.

End safety.
