(* ===== verification/FidlClientWakes.v ===== *)
(** The tasks of an asynchronous FIDL client on an executor of one thread, where the calls do not
    overlap: whenever a query waits for its response, some task of the client will run when
    there is something to read from the channel. *)

From S2P Require Import Prelude Std Threads AsyncHandle FidlCore FidlTypes FidlAggregates FidlClient FidlClientSafety.
Open Scope prog_scope.

Section wakes.
Context `{BO : !ByteOrder, BOS : !ByteOrderSpec, SL : !Slab, SLS : !SlabSpec}.

(** The client, the futures of its queries that are alive, by key, and its event receiver, each
    with the waker it was last polled with. *)
Record system := System {
  client : ClientInner; futures : gmap nat (option waker); receiver : option (option waker) }.
Definition put (s : ClientInner) (y : system) : system := System s (futures y) (receiver y).
Definition forget (id : nat) (y : system) : system := System (client y) (delete id (futures y)) (receiver y).
Definition slot (s : ClientInner) (id : nat) : option MessageInterest := slab_get id (message_interests s).

(** The task of the future [id] will run: the channel is to wake it, or it has been woken. *)
Definition stirred (y : system) (id : nat) : Prop :=
  ∃ w, futures y !! id = Some (Some w) ∧
    (slot (client y) id = Some (Waiting w) ∧ (read_task (channel (client y)) = Some w ∨ w ∈ woken (channel (client y))) ∨
     (∃ buf, slot (client y) id = Some (Received buf)) ∧ w ∈ woken (channel (client y))).
Definition queries_covered (y : system) : Prop :=
  ∀ id w, slot (client y) id = Some (Waiting w) → ∃ id', stirred y id'.
Record covered (y : system) : Prop := {
  c_queries : queries_covered y;
  c_events : ∀ w, receiver y = Some (Some w) → listener (client y) = Listening w →
    (∃ id, stirred y id) ∨ read_task (channel (client y)) = Some w ∨ w ∈ woken (channel (client y)) }.

Record owned (y : system) : Prop := {
  o_waits : waits_fail (handle (channel (client y))) = None;
  o_headers : Forall header_total (inbound (handle (channel (client y))));
  o_waiting : ∀ id w, slot (client y) id = Some (Waiting w) → futures y !! id = Some (Some w);
  o_alive : ∀ id o, futures y !! id = Some o →
    Z.of_nat id + 1 < 2 ^ 32 ∧ ∃ x, slot (client y) id = Some x ∧ x ≠ Discard;
  o_listening : ∀ w w', listener (client y) = Listening w → receiver y = Some (Some w') → w' = w }.

(** * Steps that keep the owners *)
Lemma put_client y : put (client y) y = y.
Proof. by destruct y. Qed.
Lemma owned_channel ch y :
  owned y → waits_fail (handle ch) = None → Forall header_total (inbound (handle ch)) →
  owned (put (with_channel ch (client y)) y).
Proof. intros [? ? ? ? ?] ? ?. by split. Qed.
Lemma owned_wake w y : owned y → owned (put (wake_now w (client y)) y).
Proof. intros Ho. apply owned_channel; [done|apply Ho..]. Qed.
Lemma owned_running w y : owned y → owned (put (running w (client y)) y).
Proof. intros Ho. apply owned_channel; [done|apply Ho..]. Qed.

(** * Waking a task *)
Lemma first_waiting_some (m : slab MessageInterest) w :
  first_waiting (slab_entries m) = Some w → ∃ id, slab_get id m = Some (Waiting w).
Proof.
  intros H. cut (∃ id, (id, Waiting w) ∈ slab_entries m); [intros [id Hid]; exists id; by apply slab_entries_get|].
  induction (slab_entries m) as [|[id x] l IH]; [done|]. cbn in H. destruct x; simplify_eq.
  2: { exists id. left. }
  all: destruct (IH H) as [id' ?]; exists id'; by right.
Qed.
Lemma first_waiting_none (m : slab MessageInterest) id w :
  first_waiting (slab_entries m) = None → slab_get id m ≠ Some (Waiting w).
Proof.
  intros H Hg%slab_entries_get. induction (slab_entries m) as [|[j x] l IH]; [by apply elem_of_nil in Hg|].
  cbn in H. apply elem_of_cons in Hg as [[= -> <-]|Hg]; [done|]. destruct x; try done; by apply IH.
Qed.

Definition first_pending (s : ClientInner) : option waker :=
  match first_waiting (slab_entries (message_interests s)) with
  | Some w => Some w
  | None => match listener s with Listening w => Some w | _ => None end
  end.
Lemma get_pending_waker_ends s (Q : option waker → ClientInner → Prop) :
  Q (first_pending s) s → ends get_pending_waker s Q.
Proof.
  intros HQ. apply ends_bind, ends_atomically. cbn [fst snd]. unfold first_pending in HQ.
  destruct (first_waiting _) as [w|]; [by apply ends_return|by apply ends_atomically].
Qed.
(** The first task that waits is enough. *)
Lemma covered_first y :
  owned y →
  (∀ w, first_pending (client y) = Some w → read_task (channel (client y)) = Some w ∨ w ∈ woken (channel (client y))) →
  covered y.
Proof.
  intros [? ? Hw ? Hl] Hf. unfold first_pending in Hf.
  destruct (first_waiting _) as [w|] eqn:E.
  - destruct (first_waiting_some _ _ E) as [id Hid].
    assert (stirred y id) as Hs by (exists w; split; [by apply Hw|left; split; [done|by apply Hf]]).
    split; [intros ? ? _; by eauto|]. intros ? _ _. left. by eauto.
  - split; [intros id w Hid; by apply (first_waiting_none _ id w) in E|].
    intros w Hr Hli. right. rewrite Hli in Hf. by apply Hf.
Qed.
Lemma wake_any_returns s : ends wake_any s (λ _ _, True).
Proof.
  apply ends_bind, get_pending_waker_ends. by destruct (first_pending s); [apply ends_atomically|apply ends_return].
Qed.
Lemma wake_any_ends y :
  owned y → ends wake_any (client y) (λ _ s', owned (put s' y) ∧ covered (put s' y)).
Proof.
  intros Ho. apply ends_bind, get_pending_waker_ends. destruct (first_pending (client y)) as [w|] eqn:E.
  - apply ends_atomically. cbn [fst snd]. assert (owned (put (wake_now w (client y)) y)) as Ho' by by apply owned_wake.
    split; [done|]. apply covered_first; [done|]. change (first_pending _) with (first_pending (client y)).
    intros w' [= ->]%(eq_trans (eq_sym E)). right. cbn. set_solver.
  - apply ends_return. rewrite put_client. split; [done|].
    apply covered_first; [done|]. by rewrite E.
Qed.

(** * Messages *)
Definition answered (s s' : ClientInner) (id : nat) : Prop :=
  match slot s id with
  | Some (Waiting w) =>
      slot s' id = Some (Waiting w) ∨ (∃ buf, slot s' id = Some (Received buf)) ∧ w ∈ woken (channel s')
  | Some (Received _) => ∃ buf, slot s' id = Some (Received buf)
  | _ => ∀ w, slot s' id ≠ Some (Waiting w)
  end.
Lemma covered_answered y s' :
  read_task (channel s') = read_task (channel (client y)) → woken (channel (client y)) ⊆ woken (channel s') →
  (∀ id, answered (client y) s' id) → queries_covered y → queries_covered (put s' y).
Proof.
  intros Hr Hw Ha Hq id w Hs.
  assert (slot (client y) id = Some (Waiting w)) as Hback.
  { cbn in Hs. specialize (Ha id). unfold answered in Ha. destruct (slot (client y) id) as [[|w'| |]|] eqn:E; naive_solver. }
  destruct (Hq id w Hback) as (id'&w'&Hf&H). exists id', w'. split; [done|].
  specialize (Ha id'). unfold answered in Ha. cbn [client put].
  destruct H as [[Hs' H]|[[buf Hs'] H]]; rewrite Hs' in Ha; [|right; set_solver].
  destruct Ha as [Ha|[Ha ?]]; [left; split; [done|rewrite Hr; set_solver]|by right].
Qed.
Lemma answered_same s s' : message_interests s' = message_interests s → ∀ id, answered s s' id.
Proof. intros H id. unfold answered, slot. rewrite H. destruct (slab_get _ _) as [[]|]; naive_solver. Qed.

Definition keeps (y : system) (s' : ClientInner) : Prop := owned (put s' y) ∧ (queries_covered y → queries_covered (put s' y)).
Lemma keeps_refl y : owned y → keeps y (client y).
Proof. intros Ho. split; by rewrite put_client. Qed.
Abbreviation unread s := (inbound (handle (channel s))).
Lemma push_event_ends buf y :
  owned y → ends (push_event buf) (client y) (λ _ s', keeps y s' ∧ unread s' = unread (client y)).
Proof.
  intros [? ? Hw ? Hl]. apply ends_atomically. cbn [fst snd]. split; [|by destruct (listener _)]. split.
  - destruct (listener (client y)) as [| |w] eqn:E; split; cbn; try done.
  - apply covered_answered; destruct (listener (client y)) as [| |w]; cbn; try done; try set_solver; by apply answered_same.
Qed.

(** The slot of a future changes, and with it who owns it. *)
Lemma owned_slot m id x f y :
  owned y → (∀ j, slab_get j m = if decide (j = id) then x else slot (client y) j) →
  (∀ j, j ≠ id → f !! j = futures y !! j) →
  (∀ w, x = Some (Waiting w) → f !! id = Some (Some w)) →
  (∀ o, f !! id = Some o → Z.of_nat id + 1 < 2 ^ 32 ∧ ∃ x', x = Some x' ∧ x' ≠ Discard) →
  owned (System (with_interests m (client y)) f (receiver y)).
Proof.
  intros [? ? Hw Ha ?] Hm Hf Hx Hx'. split; cbn; try done.
  - intros j w. unfold slot. cbn. rewrite Hm. destruct (decide (j = id)) as [->|]; [apply Hx|]. rewrite Hf by done. apply Hw.
  - intros j o Hj. unfold slot. cbn. rewrite Hm. destruct (decide (j = id)) as [->|]; [by eapply Hx'|].
    rewrite Hf in Hj by done. by eapply Ha.
Qed.
Lemma answered_slot s s' id x :
  (∀ j, slot s' j = if decide (j = id) then x else slot s j) →
  match slot s id with
  | Some (Waiting w) => (∃ buf, x = Some (Received buf)) ∧ w ∈ woken (channel s')
  | Some (Received _) => ∃ buf, x = Some (Received buf)
  | _ => ∀ w, x ≠ Some (Waiting w)
  end →
  ∀ j, answered s s' j.
Proof.
  intros Hs Hx j. unfold answered. rewrite Hs. destruct (decide (j = id)) as [->|].
  - destruct (slot s id) as [[]|]; naive_solver.
  - destruct (slot s j) as [[]|]; naive_solver.
Qed.
Lemma store_response_ends id buf y :
  owned y → ends (store_response id buf) (client y) (λ _ s', keeps y s' ∧ unread s' = unread (client y)).
Proof.
  intros Ho. apply ends_atomically. cbn [fst snd].
  destruct (slab_get id (message_interests (client y))) as [x|] eqn:E.
  2: { split; [by apply keeps_refl|done]. }
  pose proof (λ v j, slab_get_set _ _ v _ _ j E) as Hset. pose proof (λ j, slab_get_remove _ _ _ _ j E) as Hrem.
  assert (∀ o, futures y !! id = Some o → Z.of_nat id + 1 < 2 ^ 32 ∧ x ≠ Discard) as Hal.
  { intros o (?&?&Hx&?)%(o_alive _ Ho). unfold slot in Hx. naive_solver. }
  assert (x ≠ Discard → owned (put (with_interests (slab_set id (Received buf) (message_interests (client y))) (client y)) y)) as Hor.
  { intros Hd. eapply owned_slot; [done|apply Hset|done..|]. intros o Ho'. split; [by eapply Hal|]. eauto. }
  destruct x as [|w|b|]; (split; [|done]); split.
  1, 5: by apply Hor.
  2: { apply (owned_wake w (put _ y)). by apply Hor. }
  2: { apply covered_answered; cbn; [done|set_solver|]. eapply answered_slot; [apply Hset|]. unfold slot. rewrite E.
       split; [by eexists|cbn; set_solver]. }
  3: { eapply owned_slot; [done|apply Hrem|done..|]. intros o Ho'. by destruct (Hal o Ho'). }
  all: apply covered_answered; try done; eapply answered_slot; [first [apply Hset|apply Hrem]|]; unfold slot; rewrite E; naive_solver.
Qed.
Lemma dispatch_ends buf y :
  owned y → header_total buf →
  ends (dispatch buf) (client y) (λ r s', keeps y s' ∧ unread s' = unread (client y) ∧ r ≠ inr (inl false)).
Proof.
  intros Ho Hh. unfold dispatch, header_total in *.
  pose proof (keeps_refl y Ho) as Hk.
  destruct (decode_transaction_header _) as [[header ?]|?| |]; try done; [|by apply ends_return].
  destruct (Z.eqb_spec (fst header) 0) as [|Hn].
  - apply ends_bind. eapply ends_mono; [|by apply push_event_ends]. intros [] s' [??]. by apply ends_return.
  - unfold from_txid. destruct (Z.eqb_spec (fst header) 0); [done|].
    apply ends_bind. eapply ends_mono; [|by apply store_response_ends]. intros [] s' [??]. by apply ends_return.
Qed.

(** * Reading *)
Lemma recv_from_ends w y :
  owned y →
  ends (recv_from w) (client y) (λ r s', owned (put s' y) ∧ message_interests s' = message_interests (client y) ∧
    listener s' = listener (client y) ∧
    match r with
    | Pending => read_task (channel s') = Some w ∧ unread s' = unread (client y)
    | Ready (inl m) => header_total m ∧ unread (client y) = m :: unread s' ∧ (queries_covered y → queries_covered (put s' y))
    | Ready (inr e) => e = PEER_CLOSED ∧ unread s' = unread (client y) ∧ (queries_covered y → queries_covered (put s' y))
    end).
Proof.
  intros Ho. destruct (read_alone_waits w (channel (client y)) (o_waits _ Ho)) as (r&ch&Hr&Hw&Hspec).
  apply ends_bind, ends_atomically. rewrite Hr. cbn [fst snd]. apply ends_return.
  assert (Forall header_total (inbound (handle ch)) ∧
          match r with Ready (inl m) => header_total m | _ => True end) as [Hin Hm].
  { pose proof (o_headers _ Ho) as H. destruct r as [[m|e]|].
    - destruct Hspec as (_&_&Hi). rewrite Hi in H. by inversion H.
    - destruct Hspec as (_&->&_). done.
    - destruct Hspec as (_&->). done. }
  split_and!; [by apply owned_channel|done|done|].
  assert (read_task ch = read_task (channel (client y)) → woken ch = woken (channel (client y)) →
    queries_covered y → queries_covered (put (with_channel ch (client y)) y)) as Hcov.
  { intros Ht Hk. apply covered_answered; cbn; [done|by rewrite Hk|by apply answered_same]. }
  destruct r as [[m|e]|]; [destruct Hspec as (?&?&?)|destruct Hspec as (?&?&?&?)|destruct Hspec as (?&?)]; auto.
Qed.
Lemma recv_all_ends y :
  owned y → ends recv_all (client y) (λ r s', keeps y s' ∧ (r = inl false → covered (put s' y))).
Proof.
  intros Ho.
  apply (ends_iterate _ (λ s, length (unread s)) (λ _ s, keeps y s)).
  { by apply keeps_refl. }
  intros _ s [Hos Hcs]. apply ends_bind, get_pending_waker_ends. destruct (first_pending s) as [w|] eqn:E.
  2: { apply ends_return. split; [done|]. intros _. apply covered_first; [done|]. cbn. by rewrite E. }
  apply ends_bind. eapply ends_mono; [|apply (recv_from_ends w (put s y) Hos)]. intros r s1 (Ho1&Hi1&Hl1&Hr1).
  destruct r as [[m|e]|].
  - destruct Hr1 as (Hm&Hu&Hc1). eapply ends_mono; [|apply (dispatch_ends m (put s1 y) Ho1 Hm)].
    intros r s2 ([Ho2 Hc2]&Hu2&Hr). cbn in Hu, Hu2, Ho2, Hc2. destruct r as [[]|c].
    + split; [split; [done|]|rewrite Hu2, Hu; cbn; lia]. intros Hc. apply Hc2, Hc1, Hcs, Hc.
    + split; [split; [done|]|congruence]. intros Hc. apply Hc2, Hc1, Hcs, Hc.
  - destruct Hr1 as (->&_&Hc1). apply ends_return. split; [split; [done|]|done]. intros Hc. apply Hc1, Hcs, Hc.
  - destruct Hr1 as [Hr1 _]. apply ends_return.
    assert (covered (put s1 y)) as Hc; [|split; [split; [done|]|]; [intros _; apply Hc|done]]. apply covered_first; [done|].
    intros w' Hw'. left. change (read_task (channel s1) = Some w'). rewrite Hr1. rewrite <- E, <- Hw'. cbn.
    unfold first_pending. by rewrite Hi1, Hl1.
Qed.

(** * Futures *)
Definition response (id : nat) : MessageResponse := {| mr_id := from_interest_id id; mr_client := true |}.
Definition polled (id : nat) (w : waker) (s : ClientInner) (y : system) : system :=
  System s (<[id := Some w]> (futures y)) (receiver y).
Lemma start_poll id w o x y :
  owned y → futures y !! id = Some o → slot (client y) id = Some x →
  owned (polled id w (running w (if is_received x then client y
    else with_interests (slab_set id (Waiting w) (message_interests (client y))) (client y))) y).
Proof.
  intros Ho Hf Hs. destruct (o_alive _ Ho id o Hf) as [Hid (x'&Hx'&Hd)]. assert (x' = x) as -> by congruence.
  assert (∀ j, j ≠ id → <[id := Some w]> (futures y) !! j = futures y !! j) as Hne
    by (intros j Hj; by rewrite lookup_insert_ne).
  cut (owned (polled id w (if is_received x then client y
    else with_interests (slab_set id (Waiting w) (message_interests (client y))) (client y)) y)); [exact (owned_running w _)|].
  destruct (is_received x) eqn:E.
  - replace (client y) with (with_interests (message_interests (client y)) (client y)) by by destruct (client y).
    eapply (owned_slot _ id (Some x)); [done| |done| |].
    + intros j. destruct (decide (j = id)) as [->|]; done.
    + intros w' [= ->]. done.
    + intros ? _. split; [done|]. eauto.
  - eapply owned_slot; [done|intros j; by apply (slab_get_set _ _ _ x)|done| |].
    + intros w' [= <-]. apply lookup_insert_eq.
    + intros ? _. split; [done|]. by eexists.
Qed.
Lemma forget_slot id m x y :
  owned y → (∀ j, slab_get j m = if decide (j = id) then x else slot (client y) j) → (∀ w, x ≠ Some (Waiting w)) →
  owned (forget id (put (with_interests m (client y)) y)).
Proof.
  intros Ho Hm Hx. apply (owned_slot m id x (delete id (futures y)) y); [done|done| | |].
  - intros j Hj. by rewrite lookup_delete_ne.
  - intros w Hw. by apply Hx in Hw.
  - intros o. by rewrite lookup_delete_eq.
Qed.

Lemma poll_recv_msg_response_ends id w o y :
  owned y → futures y !! id = Some o →
  ends (poll_recv_msg_response (from_interest_id id) w) (client y) (λ r s',
    match r with
    | Pending => owned (polled id w s' y) ∧ covered (polled id w s' y)
    | Ready (inl _) => owned (forget id (put s' y))
    | Ready (inr _) => owned (polled id w s' y)
    end).
Proof.
  intros Ho Hf. destruct (o_alive _ Ho id o Hf) as [Hid (x&Hx&_)]. unfold poll_recv_msg_response.
  rewrite from_interest_id_ok, from_txid_ok by done. apply ends_bind, ends_atomically.
  pose proof (start_poll id w o x y Ho Hf Hx) as H1. unfold slot in Hx. rewrite Hx. cbn [fst snd negb].
  match type of H1 with owned ?z => set (y1 := z) in H1 end. apply ends_bind. eapply ends_mono; [|apply (recv_all_ends y1 H1)].
  intros r s2 [[Ho2 _] Hc2]. destruct r as [is_closed|e]; [|by apply ends_return].
  destruct (o_alive _ Ho2 id (Some w)) as [_ (x2&Hx2&_)]; [apply lookup_insert_eq|]. unfold slot in Hx2. cbn [client put] in Hx2.
  assert (∀ m, owned (forget id (put (with_interests m s2) y1)) → owned (forget id (put (with_interests m s2) y))) as Hfor.
  { unfold forget, put. cbn. by rewrite delete_insert_eq. }
  apply ends_bind, ends_atomically. rewrite Hx2.
  destruct x2 as [|w2|buf|]; cbn [fst snd]; apply ends_return; [destruct is_closed; by auto..| |destruct is_closed; by auto].
  apply Hfor. apply (forget_slot id _ None (put s2 y1)); [done| |done]. intros j. by apply (slab_get_remove _ _ (Received buf)).
Qed.
Lemma drop_response_ends id o y :
  owned y → futures y !! id = Some o →
  ends (drop_response (response id)) (client y) (λ _ s', owned (forget id (put s' y)) ∧ covered (forget id (put s' y))).
Proof.
  intros Ho Hf. destruct (o_alive _ Ho id o Hf) as [Hid (x&Hx&_)]. unfold drop_response. cbn [mr_client mr_id response].
  rewrite from_interest_id_ok, from_txid_ok by done. unfold slot in Hx.
  apply ends_bind, ends_bind, ends_atomically. rewrite Hx. cbn [fst snd]. apply ends_return.
  match goal with |- ends wake_any ?s _ => apply (wake_any_ends (forget id (put s y))) end.
  destruct (is_received x); (eapply forget_slot; [done| |]).
  1: intros j; by eapply slab_get_remove. 2: intros j; by eapply slab_get_set. all: done.
Qed.
Lemma poll_response_ends id w o y :
  owned y → futures y !! id = Some o →
  ends (poll_response (response id) w) (client y) (λ p s',
    match fst p with
    | Pending => owned (polled id w s' y) ∧ covered (polled id w s' y)
    | Ready (inl _) => owned (forget id (put s' y)) ∧ covered (forget id (put s' y))
    | Ready (inr _) => snd p = response id ∧ owned (polled id w s' y)
    end).
Proof.
  intros Ho Hf. apply ends_bind. eapply ends_mono; [|by apply (poll_recv_msg_response_ends id w o)].
  intros r s' Hr. destruct r as [[m|e]|]; [|by apply ends_return..].
  apply ends_bind. eapply ends_mono; [|apply (wake_any_ends (forget id (put s' y)) Hr)]. intros [] s2 H2. by apply ends_return.
Qed.

(** * Events *)
Definition listens (o : option (option waker)) (s : ClientInner) (y : system) : system := System s (futures y) o.
Lemma owned_listens lis q o y :
  owned y → (∀ w w', lis = Listening w → o = Some (Some w') → w' = w) →
  owned (listens o (with_events lis q (client y)) y).
Proof. intros [? ? ? ? ?] H. by split. Qed.
Lemma queries_listens lis q o y : queries_covered y → queries_covered (listens o (with_events lis q (client y)) y).
Proof. done. Qed.
Lemma queries_running w y :
  (∀ id, futures y !! id ≠ Some (Some w)) → queries_covered y → queries_covered (put (running w (client y)) y).
Proof.
  intros Hw Hq id v Hs. destruct (Hq id v Hs) as (id'&w'&Hf&H). exists id', w'. split; [done|].
  assert (w' ≠ w) as Hn by (intros ->; by apply Hw in Hf). cbn. set_solver.
Qed.
(** A receiver that was not asked since its last item. *)
Lemma covered_idle o y :
  owned y → queries_covered y → (∀ w, o ≠ Some (Some w)) → owned (listens o (client y) y) ∧ covered (listens o (client y) y).
Proof.
  intros [? ? ? ? ?] Hq Ho. split; split; try done.
  - intros w w' _ Hr. by apply Ho in Hr.
  - intros w Hr. by apply Ho in Hr.
Qed.

Definition after_item (inner : bool) : option (option waker) := if inner then Some None else None.
Lemma poll_next_ends w y :
  owned y → queries_covered y → (∀ id, futures y !! id ≠ Some (Some w)) →
  ends (poll_next true w) (client y) (λ p s',
    match p with
    | (Pending, _) => owned (listens (Some (Some w)) s' y) ∧ covered (listens (Some (Some w)) s' y)
    | (Ready _, inner) => owned (listens (after_item inner) s' y) ∧ covered (listens (after_item inner) s' y)
    end).
Proof.
  intros Ho Hq Hw. apply ends_bind, ends_bind, ends_atomically. cbn [fst snd].
  pose proof (owned_listens (Listening w) (queue (client y)) (Some (Some w)) y Ho ltac:(naive_solver)) as Ho1.
  apply (owned_running w) in Ho1. pose proof (queries_running w _ Hw (queries_listens (Listening w) (queue (client y)) (Some (Some w)) y Hq)) as Hq1.
  match type of Ho1 with owned ?z => set (y1 := z) in * end. apply ends_bind. eapply ends_mono; [|apply (recv_all_ends y1 Ho1)].
  intros r s2 [[Ho2 Hq2] Hc2]. specialize (Hq2 Hq1).
  assert (∀ inner, owned (listens (after_item inner) s2 y) ∧ covered (listens (after_item inner) s2 y)) as Hidle.
  { intros inner. apply (covered_idle _ (put s2 y1)); [done|done|by destruct inner]. }
  destruct r as [is_closed|e].
  - apply ends_bind, ends_atomically. destruct (queue s2) as [|m q] eqn:Eq; cbn [fst snd]; apply ends_return.
    + apply ends_return. destruct is_closed; [apply (Hidle false)|]. split; [done|by apply Hc2].
    + apply ends_return. destruct (Hidle true) as [[? ? ? ? ?] Hc]. split; [by split|]. destruct Hc as [? ?]. by split.
  - apply ends_return, ends_return. destruct e; try apply (Hidle true). destruct (_ =? _); [apply (Hidle false)|apply (Hidle true)].
Qed.
Lemma drop_receiver_ends y :
  owned y → ends (drop_receiver true) (client y) (λ _ s', owned (listens None s' y) ∧ covered (listens None s' y)).
Proof.
  intros Ho. apply ends_bind, ends_atomically. cbn [fst snd].
  apply (wake_any_ends (listens None (with_events NoListener (queue (client y)) (client y)) y)). by apply owned_listens.
Qed.

(** * The executor and the other end of the channel *)
Inductive handle_step : RWHandle → RWHandle → Prop :=
| handle_deliver m ch : bytes_ok (mb_bytes m) → handle_step ch (with_handle (deliver m (handle ch)) ch)
| handle_close ch : handle_step ch (with_handle (close_peer (handle ch)) ch)
| handle_packet ch ch' : runs take_packet ch tt ch' → handle_step ch ch'
| handle_wake w ch : handle_step ch (wake_waker w ch).

(** What was to be woken is woken or is still to be. *)
Definition hands_on (ch ch' : @RWHandle MessageBuf) : Prop :=
  woken ch ⊆ woken ch' ∧ ∀ w, read_task ch = Some w → read_task ch' = Some w ∨ w ∈ woken ch'.
Lemma hands_on_wake task ch : hands_on ch (wake_task task ch).
Proof. destruct task; split; cbn; [set_solver|intros w ->; set_solver|set_solver|auto]. Qed.
Lemma hands_on_trans ch1 ch2 ch3 : hands_on ch1 ch2 → hands_on ch2 ch3 → hands_on ch1 ch3.
Proof. intros [H1 H1'] [H2 H2']. split; [set_solver|]. intros w [Hw|Hw]%H1'; [auto|set_solver]. Qed.
Lemma hands_on_same (ch ch' : RWHandle) : read_task ch' = read_task ch → woken ch' = woken ch → hands_on ch ch'.
Proof. intros Hr Hw. split; [by rewrite Hw|]. rewrite Hr. auto. Qed.
Abbreviation same_messages ch ch' :=
  (waits_fail (handle ch') = waits_fail (handle ch) ∧ inbound (handle ch') = inbound (handle ch)).
Lemma take_packet_ends (ch : @RWHandle MessageBuf) : ends take_packet ch (λ _ ch', hands_on ch ch' ∧ same_messages ch ch').
Proof.
  assert (∀ (b : bool) task ch1, hands_on ch ch1 ∧ same_messages ch ch1 →
    ends (if b then wake task else Return tt) ch1 (λ _ ch', hands_on ch ch' ∧ same_messages ch ch')) as Hwake.
  { intros b task ch1 [H1 H2]. destruct b; [|by apply ends_return]. apply ends_atomically.
    split; [eapply hands_on_trans; [done|apply hands_on_wake]|by destruct task]. }
  apply ends_bind, ends_atomically. destruct (packets (handle ch)) as [|[new|] ps]; cbn [fst snd].
  - apply ends_return. split; [by apply hands_on_same|done].
  - apply ends_bind, ends_atomically. cbn [fst snd]. apply ends_bind.
    eapply ends_mono; [|apply Hwake; split; [by apply hands_on_same|done]]. intros [] ch2 H2. by apply Hwake.
  - apply ends_return. split; [by apply hands_on_same|done].
Qed.
Lemma handle_step_ok ch ch' :
  handle_step ch ch' → hands_on ch ch' ∧ waits_fail (handle ch') = waits_fail (handle ch) ∧
  (Forall header_total (inbound (handle ch)) → Forall header_total (inbound (handle ch'))).
Proof.
  destruct 1 as [m ch Hm|ch|ch ch' Hr|w ch].
  - split_and!; [by apply hands_on_same|done|]. intros H. cbn. apply Forall_app. split; [done|]. repeat constructor. by apply header_total_bytes.
  - split_and!; [by apply hands_on_same|done|done].
  - destruct (ends_runs _ _ _ _ _ (take_packet_ends ch) Hr) as [? [? ->]]. done.
  - split_and!; [|done|done]. split; [cbn; set_solver|auto].
Qed.
Lemma covered_hands_on ch y : hands_on (channel (client y)) ch → covered y → covered (put (with_channel ch (client y)) y).
Proof.
  intros [Hw Hr] [Hq He].
  assert (∀ id, stirred y id → stirred (put (with_channel ch (client y)) y) id) as Hs.
  { intros id (w&Hf&H). exists w. split; [done|]. destruct H as [[? [H%Hr|H]]|[? H]]; [left|left|right]; (split; [done|]); cbn; set_solver. }
  split.
  - intros id w H. destruct (Hq id w H) as [id' ?]. eauto.
  - intros w H1 H2. destruct (He w H1 H2) as [[id ?]|[H%Hr|H]]; [left; by eauto|by right|right; right; by apply Hw].
Qed.

(** * Queries *)
Definition asked (r : MessageResponse + Error) (s : ClientInner) (y : system) : system :=
  match r with
  | inl this => match from_txid (mr_id this) with
                | Some id => System s (<[id := None]> (futures y)) (receiver y)
                | None => put s y
                end
  | inr _ => put s y
  end.
Lemma covered_asked id m y :
  owned y → covered y → slot (client y) id = None →
  (∀ j, slab_get j m = if decide (j = id) then Some WillPoll else slot (client y) j) → Z.of_nat id + 1 < 2 ^ 32 →
  let s' := with_interests m (client y) in
  (owned (System s' (<[id := None]> (futures y)) (receiver y)) ∧ covered (System s' (<[id := None]> (futures y)) (receiver y))) ∧
  owned (put s' y) ∧ covered (put s' y).
Proof.
  intros Ho Hc Hv Hm Hid s'.
  assert (futures y !! id = None) as Hf.
  { destruct (futures y !! id) as [o|] eqn:E; [|done]. destruct (o_alive _ Ho _ _ E) as [_ (?&?&?)]. congruence. }
  assert (∀ f, (∀ j, j ≠ id → f !! j = futures y !! j) → covered (System s' f (receiver y))) as Hcov.
  { intros f Hne. destruct Hc as [Hq He].
    assert (∀ j, stirred y j → stirred (System s' f (receiver y)) j) as Hs.
    { intros j (w&Hj&H). assert (j ≠ id) as Hn by congruence. exists w. cbn. rewrite Hne by done. split; [done|].
      unfold slot in *. cbn. rewrite Hm, decide_False by done. done. }
    split; cbn.
    - intros j w. unfold slot. cbn. rewrite Hm. destruct (decide (j = id)); [done|]. intros [j' ?]%Hq. eauto.
    - intros w H1 H2. destruct (He w H1 H2) as [[j ?]|?]; [left; by eauto|by right]. }
  assert (∀ j, j ≠ id → <[id := None]> (futures y) !! j = futures y !! j) as Hne by (intros j Hj; by rewrite lookup_insert_ne).
  split; (split; [|by apply Hcov]).
  - eapply owned_slot; [done|done|done|done|]. intros o _. split; [done|]. by eexists.
  - eapply (owned_slot m id _ (futures y)); [done|done|done|done|]. intros o Ho'. congruence.
Qed.
Lemma covered_written x y : owned y ∧ covered y → owned (put (with_written x (client y)) y) ∧ covered (put (with_written x (client y)) y).
Proof. intros [[? ? ? ? ?] [? ?]]. split; by split. Qed.
Lemma send_raw_query_runs msg r s' y :
  owned y → covered y → Z.of_nat (slab_slots (message_interests (client y))) < 2 ^ 32 - 1 →
  runs (send_raw_query msg) (client y) r s' → owned (asked r s' y) ∧ covered (asked r s' y).
Proof.
  intros Ho Hc Hb H. apply runs_inv in H. cbn in H.
  pose proof (slab_insert_vacant _ WillPoll (message_interests (client y))) as Hv.
  pose proof (slab_get_insert _ WillPoll (message_interests (client y))) as Hm.
  pose proof (slab_slots_insert _ WillPoll (message_interests (client y))) as Hsl.
  destruct (slab_insert WillPoll (message_interests (client y))) as [id m]. cbn in H, Hv, Hm, Hsl.
  assert (Z.of_nat id + 1 < 2 ^ 32) as Hid by lia.
  destruct (covered_asked id m y Ho Hc Hv Hm Hid) as [Hf Hp]. cbn zeta in Hf, Hp.
  rewrite from_interest_id_ok in H by done.
  destruct (msg _ [] []) as [[u|e| |] [bytes handles]]; apply runs_inv in H; try done; [|by destruct H as [-> ->]].
  cbn in H. destruct (write_fails (client y)); [|destruct (closed _)]; apply runs_inv in H as [-> ->]; try done.
  unfold asked. cbn [fst snd mr_id]. rewrite from_txid_ok. by apply (covered_written _ (System (with_interests m (client y)) _ _)).
Qed.

(** * Steps

    Calls run one after the other, as on an executor of one thread.  Two things are left
    out: a task that polls the event stream and also a query (the stream is polled with a
    waker that no future has), and a kernel that refuses to wait on the channel. *)
Inductive client_step : system → system → Prop :=
| step_query msg r s' y :
    Z.of_nat (slab_slots (message_interests (client y))) < 2 ^ 32 - 1 →
    runs (send_raw_query msg) (client y) r s' → client_step y (asked r s' y)
| step_pending id o w this s' y :
    futures y !! id = Some o → runs (poll_response (response id) w) (client y) (Pending, this) s' →
    client_step y (polled id w s' y)
| step_done id o w m this s' y :
    futures y !! id = Some o → runs (poll_response (response id) w) (client y) (Ready (inl m), this) s' →
    client_step y (forget id (put s' y))
| step_failed id o w e this s1 s2 y :
    futures y !! id = Some o → runs (poll_response (response id) w) (client y) (Ready (inr e), this) s1 →
    runs (drop_response this) s1 tt s2 → client_step y (forget id (put s2 y))
| step_drop id o s' y :
    futures y !! id = Some o → runs (drop_response (response id)) (client y) tt s' →
    client_step y (forget id (put s' y))
| step_take s' y : runs take_event_receiver (client y) tt s' → client_step y (listens (Some None) s' y)
| step_next w res inner s' o y :
    receiver y = Some o → (∀ id, futures y !! id ≠ Some (Some w)) →
    runs (poll_next true w) (client y) (res, inner) s' →
    client_step y (listens (match res with Pending => Some (Some w) | Ready _ => after_item inner end) s' y)
| step_drop_receiver o s' y :
    receiver y = Some o → runs (drop_receiver true) (client y) tt s' → client_step y (listens None s' y)
| step_send buf r s' y : runs (send_raw_msg buf) (client y) r s' → client_step y (put s' y)
| step_handle ch y : handle_step (channel (client y)) ch → client_step y (put (with_channel ch (client y)) y)
| step_peer x y : client_step y (put (with_written x (client y)) y).

Definition system_new : system := System (client_new fresh_handle) ∅ None.
Definition client_runs : system → Prop := rtc client_step system_new.

Lemma step_ok y y' : owned y ∧ covered y → client_step y y' → owned y' ∧ covered y'.
Proof.
  intros [Ho Hc] Hs. destruct Hs as [msg r s' y Hb Hr|id o w this s' y Hf Hr|id o w m this s' y Hf Hr|id o w e this s1 s2 y Hf Hr Hd
    |id o s' y Hf Hr|s' y Hr|w res inner s' o y Hrc Hw Hr|o s' y Hrc Hr|buf r s' y Hr|ch y Hch|x y].
  - by eapply send_raw_query_runs.
  - exact (ends_runs _ _ _ _ _ (poll_response_ends id w o y Ho Hf) Hr).
  - exact (ends_runs _ _ _ _ _ (poll_response_ends id w o y Ho Hf) Hr).
  - destruct (ends_runs _ _ _ _ _ (poll_response_ends id w o y Ho Hf) Hr) as [Ht Ho1]. cbn in Ht. subst this.
    assert (futures (polled id w s1 y) !! id = Some (Some w)) as Hf1 by apply lookup_insert_eq.
    pose proof (ends_runs _ _ _ _ _ (drop_response_ends id (Some w) (polled id w s1 y) Ho1 Hf1) Hd) as H. revert H.
    unfold forget, put, polled. cbn. by rewrite delete_insert_eq.
  - exact (ends_runs _ _ _ _ _ (drop_response_ends id o y Ho Hf) Hr).
  - apply runs_inv in Hr. cbn in Hr. destruct (listener (client y)); cbn in Hr; apply runs_inv in Hr; [|done..].
    destruct Hr as [_ ->].
    apply (covered_idle _ (listens (Some None) (with_events ListenerWillPoll (queue (client y)) (client y)) y)); [by apply owned_listens|apply Hc|done].
  - pose proof (ends_runs _ _ _ _ _ (poll_next_ends w y Ho (c_queries _ Hc) Hw) Hr) as H. by destruct res.
  - exact (ends_runs _ _ _ _ _ (drop_receiver_ends y Ho) Hr).
  - apply runs_inv in Hr. cbn in Hr. destruct (write_fails (client y)); [|destruct (closed _)]; apply runs_inv in Hr as [_ ->]; cbn [fst snd]; rewrite ?put_client; try done.
    by apply covered_written.
  - destruct (handle_step_ok _ _ Hch) as (Hh&Hwf&Hin). split; [|by apply covered_hands_on].
    apply owned_channel; [done|rewrite Hwf; apply Ho|apply Hin, Ho].
  - by apply covered_written.
Qed.
Lemma client_runs_ok y : client_runs y → owned y ∧ covered y.
Proof.
  intros H. apply (rtc_ind_r (R := client_step) (λ y, owned y ∧ covered y) system_new); [|intros; by eapply step_ok|exact H].
  assert (∀ id, slot (client_new fresh_handle) id = None) as Hs by apply slab_get_new.
  split; split; try done.
  - intros id w H1. by rewrite Hs in H1.
  - intros id w H1. by rewrite Hs in H1.
Qed.

(** * A response that has come

    A message that is not the response to the query [id], and has a header. *)
Definition other_message (id : nat) (x : MessageBuf) : Prop := ∃ t, tx_of x = Some t ∧ t ≠ Z.of_nat id + 1.
Definition coming (id : nat) (w : waker) (m : MessageBuf) (s : ClientInner) : Prop :=
  slot s id = Some (Waiting w) ∧ flagged (channel s) ∧ tx_of m = Some (Z.of_nat id + 1) ∧
  ∃ before after, unread s = before ++ m :: after ∧ Forall (other_message id) (before ++ after).
Definition arrived (id : nat) (m : MessageBuf) (s : ClientInner) : Prop :=
  slot s id = Some (Received m) ∧ Forall (other_message id) (unread s).

Lemma header_of x t : tx_of x = Some t → ∃ header rest, decode_transaction_header (mb_bytes x) = Ok (header, rest) ∧ fst header = t.
Proof. unfold tx_of. destruct (decode_transaction_header _) as [[header rest]| | |]; naive_solver. Qed.
Lemma dispatch_other id x s :
  header_total x → other_message id x →
  ends (dispatch x) s (λ r s', r = inl tt ∧ handle (channel s') = handle (channel s) ∧
    signals (channel s') = signals (channel s) ∧ slot s' id = slot s id).
Proof.
  intros Hh (t&Ht&Hne). destruct (header_of x t Ht) as ([t' fs]&rest&Hd&Hf). unfold header_total, dispatch in *. rewrite Hd in *.
  cbn [fst] in *. subst t'. destruct (Z.eqb_spec t 0) as [|Hz].
  - apply ends_bind, ends_atomically, ends_return. cbn. by destruct (listener s).
  - unfold from_txid. rewrite (proj2 (Z.eqb_neq _ _) Hz). apply ends_bind, ends_atomically, ends_return. cbn [fst snd].
    assert (id ≠ Z.to_nat (t - 1)) as Hi by lia.
    destruct (slab_get (Z.to_nat (t - 1)) (message_interests s)) as [y|] eqn:E; [|done]. unfold slot.
    destruct y; cbn; (split_and!; [done..|]); (rewrite (slab_get_set _ _ _ _ _ _ E) || rewrite (slab_get_remove _ _ _ _ _ E));
      by rewrite decide_False by done.
Qed.
Lemma dispatch_own id w m s :
  tx_of m = Some (Z.of_nat id + 1) → slot s id = Some (Waiting w) →
  ends (dispatch m) s (λ r s', r = inl tt ∧ handle (channel s') = handle (channel s) ∧ slot s' id = Some (Received m)).
Proof.
  intros Ht Hs. destruct (header_of m _ Ht) as ([t' fs]&rest&Hd&Hf). unfold dispatch. rewrite Hd. cbn [fst] in *. subst t'.
  rewrite (proj2 (Z.eqb_neq _ _)), from_txid_ok by lia. unfold slot in Hs.
  apply ends_bind, ends_atomically, ends_return. rewrite Hs. cbn. split_and!; [done..|]. unfold slot. cbn.
  by rewrite (slab_get_set _ _ _ _ _ _ Hs), decide_True.
Qed.

Lemma recv_from_flagged w s x xs :
  flagged (channel s) → unread s = x :: xs →
  ends (recv_from w) s (λ r s', r = Ready (inl x) ∧ unread s' = xs ∧ signals (channel s') = signals (channel s)).
Proof.
  intros Hf Hu. destruct (read_alone_flagged w (channel s) x xs Hf Hu) as (ch&Hr&?&?).
  apply ends_bind, ends_atomically. rewrite Hr. by apply ends_return.
Qed.
Definition expects (id : nat) (w : waker) (m : MessageBuf) (y : system) (s : ClientInner) : Prop :=
  owned (put s y) ∧ (coming id w m s ∨ arrived id m s).
(** A message that was read is the response, or is not. *)
Lemma dispatch_expects id w m x y s :
  owned (put s y) → header_total x →
  (x = m ∧ tx_of m = Some (Z.of_nat id + 1) ∧ slot s id = Some (Waiting w) ∧ Forall (other_message id) (unread s)) ∨
  (other_message id x ∧ (coming id w m s ∨ arrived id m s)) →
  ends (dispatch x) s (λ r s', r = inl tt ∧ expects id w m y s' ∧ unread s' = unread s).
Proof.
  intros Ho Hh [(->&Ht&Hs&Hu)|[Hx Hc]];
    [eapply ends_mono; [|apply (ends_and _ _ _ _ (dispatch_ends _ (put s y) Ho Hh) (dispatch_own id w m s Ht Hs))]
    |eapply ends_mono; [|apply (ends_and _ _ _ _ (dispatch_ends _ (put s y) Ho Hh) (dispatch_other id x s Hh Hx))]].
  - intros r s' [([Ho' _]&_&_) (->&Hch&Hs')]. split_and!; [done| |by rewrite Hch]. split; [done|]. right. split; [done|by rewrite Hch].
  - intros r s' [([Ho' _]&_&_) (->&Hch&Hsg&Hs')]. split_and!; [done| |by rewrite Hch]. split; [done|].
    unfold coming, arrived, flagged in *. by rewrite Hch, Hsg, Hs'.
Qed.
Lemma coming_pending id w m s : coming id w m s → ∃ w', first_pending s = Some w'.
Proof.
  intros [Hs _]. unfold first_pending. destruct (first_waiting _) as [w'|] eqn:E; [by exists w'|].
  by apply (first_waiting_none _ id w) in E.
Qed.
Lemma recv_all_expects id w m y s :
  expects id w m y s → ends recv_all s (λ r s', (∃ is_closed, r = inl is_closed) ∧ owned (put s' y) ∧ arrived id m s').
Proof.
  intros He. apply (ends_iterate _ (λ s, length (unread s)) (λ _ s, expects id w m y s)); [done|]. clear s He.
  intros _ s [Ho Hc]. apply ends_bind, get_pending_waker_ends. destruct Hc as [Hc|Ha].
  - destruct (coming_pending _ _ _ _ Hc) as [w' ->]. destruct Hc as (Hs&Hf&Ht&before&after&Hu&Hoth). apply ends_bind.
    destruct (before ++ m :: after) as [|x xs] eqn:Hb; [by destruct before|].
    eapply ends_mono; [|apply (ends_and _ _ _ _ (recv_from_ends w' (put s y) Ho) (recv_from_flagged w' s x xs Hf Hu))].
    intros r s1 [(Ho1&Hi1&_&Hr) (->&Hu1&Hsg)]. destruct Hr as (Hx&_&_).
    assert (slot s1 id = Some (Waiting w)) as Hs1 by (unfold slot in *; by rewrite Hi1).
    eapply ends_mono; [|eapply (dispatch_expects id w m x y); [done|done|]].
    + intros r s2 (->&He&Hu2). split; [done|]. rewrite Hu2, Hu1, Hu. cbn. lia.
    + destruct before as [|x' before]; cbn in Hb; injection Hb as <- <-.
      * left. rewrite Hu1. done.
      * right. cbn in Hoth. apply Forall_cons in Hoth as [? Hoth]. split; [done|]. left.
        split_and!; [done|by unfold flagged; rewrite Hsg|done|]. eauto.
  - destruct (first_pending s) as [w'|]; [|apply ends_return; eauto]. apply ends_bind. destruct Ha as [Hs Hu].
    eapply ends_mono; [|apply (recv_from_ends w' (put s y) Ho)]. intros r s1 (Ho1&Hi1&_&Hr). cbn in Hr, Hi1.
    assert (slot s1 id = Some (Received m)) as Hs1 by (unfold slot in *; by rewrite Hi1).
    destruct r as [[x|e]|].
    + destruct Hr as (Hx&Hu1&_). rewrite Hu1 in Hu. apply Forall_cons in Hu as [Hox Hu].
      eapply ends_mono; [|eapply (dispatch_expects id w m x y); [done|done|right; split; [done|by right]]].
      intros r s2 (->&He&Hu2). split; [done|]. rewrite Hu2, Hu1. cbn. lia.
    + destruct Hr as (->&Hu1&_). apply ends_return. rewrite <- Hu1 in Hu. split_and!; [by eexists|done|by split].
    + destruct Hr as (_&Hu1). apply ends_return. rewrite <- Hu1 in Hu. split_and!; [by eexists|done|by split].
Qed.
(** A message without a header ends the reading. *)
Definition malformed (x : MessageBuf) : Prop := ∃ e, decode_transaction_header (mb_bytes x) = Err e.
Lemma recv_all_malformed id w x y s :
  owned (put s y) → slot s id = Some (Waiting w) → flagged (channel s) → malformed x →
  (∃ before after, unread s = before ++ x :: after ∧ Forall (other_message id) before) →
  ends recv_all s (λ r _, r = inr InvalidHeader).
Proof.
  intros Ho Hs Hf [e Hx] Hu.
  apply (ends_iterate _ (λ s, length (unread s)) (λ _ s, owned (put s y) ∧ slot s id = Some (Waiting w) ∧ flagged (channel s) ∧
    ∃ before after, unread s = before ++ x :: after ∧ Forall (other_message id) before)); [done|]. clear s Ho Hs Hf Hu.
  intros _ s (Ho&Hs&Hf&before&after&Hu&Hoth). apply ends_bind, get_pending_waker_ends. unfold first_pending.
  destruct (first_waiting _) as [w'|] eqn:E; [|by apply (first_waiting_none _ id w) in E]. apply ends_bind.
  destruct (before ++ x :: after) as [|x' xs] eqn:Hb; [by destruct before|].
  eapply ends_mono; [|apply (ends_and _ _ _ _ (recv_from_ends w' (put s y) Ho) (recv_from_flagged w' s x' xs Hf Hu))].
  intros r s1 [(Ho1&Hi1&_&Hr) (->&Hu1&Hsg)]. destruct Hr as (Hx'&_&_).
  assert (slot s1 id = Some (Waiting w)) as Hs1 by (unfold slot in *; by rewrite Hi1).
  destruct before as [|x0 before]; cbn in Hb; injection Hb as <- <-.
  - unfold dispatch. rewrite Hx. by apply ends_return.
  - apply Forall_cons in Hoth as [Hx0 Hoth].
    eapply ends_mono; [|apply (ends_and _ _ _ _ (dispatch_ends _ (put s1 y) Ho1 Hx') (dispatch_other id x0 s1 Hx' Hx0))].
    intros r s2 [([Ho2 _]&_&_) (->&Hch&Hsg2&Hs2)]. rewrite Hch, Hu1, Hu. cbn. split; [|lia].
    split_and!; [done|by rewrite Hs2|by unfold flagged; rewrite Hsg2, Hsg|eauto].
Qed.
(** A channel that is not taken to be readable is not read. *)
Lemma recv_all_waits id w y s :
  owned (put s y) → slot s id = Some (Waiting w) → ¬ flagged (channel s) →
  ends recv_all s (λ r s', r = inl false ∧ slot s' id = Some (Waiting w)).
Proof.
  intros Ho Hs Hf. destruct (first_waiting (slab_entries (message_interests s))) as [w'|] eqn:E;
    [|by apply (first_waiting_none _ id w) in E].
  apply (ends_iterate _ (λ _, 0%nat) (λ _ s', s' = s)); [done|]. intros _ s' ->.
  apply ends_bind, get_pending_waker_ends. unfold first_pending. rewrite E. apply ends_bind.
  destruct (read_alone_unflagged w' (channel s) Hf (o_waits _ Ho)) as [ch Hr].
  apply ends_bind, ends_atomically. rewrite Hr. cbn [fst snd]. apply ends_return, ends_return. done.
Qed.

(** A poll of a query whose response has not been read is a round of reading. *)
Lemma poll_response_round id o w y (Q : Poll (MessageBuf + Error) → Prop) :
  owned y → futures y !! id = Some o → (∀ buf, slot (client y) id ≠ Some (Received buf)) →
  (∀ s1, owned (polled id w s1 y) → slot s1 id = Some (Waiting w) → signals (channel s1) = signals (channel (client y)) →
    unread s1 = unread (client y) →
    ends recv_all s1 (λ r s2,
      match r with
      | inr e => Q (Ready (inr e))
      | inl is_closed =>
          match slot s2 id with
          | Some (Received m) => Q (Ready (inl m))
          | Some _ => is_closed = false ∧ Q Pending
          | None => False
          end
      end)) →
  ends (poll_response (response id) w) (client y) (λ p _, Q (fst p)).
Proof.
  intros Ho Hf Hnr Hround. destruct (o_alive _ Ho id o Hf) as [Hid (x&Hx&_)]. unfold poll_response. cbn [mr_client response mr_id].
  unfold poll_recv_msg_response. rewrite from_interest_id_ok, from_txid_ok by done. apply ends_bind, ends_bind, ends_atomically.
  pose proof (start_poll id w o x y Ho Hf Hx) as H1. pose proof Hx as Hx0. unfold slot in Hx. rewrite Hx. cbn [fst snd negb].
  assert (is_received x = false) as Hrx by (destruct x; try done; by apply Hnr in Hx0). rewrite Hrx in *.
  match type of H1 with owned (polled _ _ ?z _) => set (s1 := z) in * end.
  assert (slot s1 id = Some (Waiting w)) as Hs1 by (unfold slot, s1; cbn; by rewrite (slab_get_set _ _ _ _ _ _ Hx), decide_True).
  apply ends_bind. eapply ends_mono; [|exact (Hround s1 H1 Hs1 eq_refl eq_refl)].
  intros [is_closed|e] s2 Hr; [|by apply ends_return, ends_return].
  apply ends_bind, ends_atomically. unfold slot in Hr.
  destruct (slab_get id (message_interests s2)) as [[|w2|buf|]|]; cbn [fst snd]; try done;
    try (destruct Hr as [-> ?]; by apply ends_return, ends_return).
  apply ends_return, ends_bind. eapply ends_mono; [|apply wake_any_returns]. intros [] s3 _. by apply ends_return.
Qed.
(** A poll takes a response that has come. *)
Lemma poll_response_arrives id o w m y before after :
  owned y → futures y !! id = Some o → flagged (channel (client y)) →
  (∀ buf, slot (client y) id ≠ Some (Received buf)) →
  unread (client y) = before ++ m :: after → Forall (other_message id) (before ++ after) →
  tx_of m = Some (Z.of_nat id + 1) →
  ends (poll_response (response id) w) (client y) (λ p _, fst p = Ready (inl m)).
Proof.
  intros Ho Hf Hfl Hnr Hu Hoth Ht. apply (poll_response_round id o w y (λ p, p = Ready (inl m))); [done..|].
  intros s1 H1 Hs1 Hsg Hu1.
  assert (coming id w m s1) as Hc by (split_and!; [done|by unfold flagged; rewrite Hsg|done|rewrite Hu1; eauto]).
  eapply ends_mono; [|apply (recv_all_expects id w m (polled id w s1 y) s1 (conj H1 (or_introl Hc)))].
  intros r s2 ([is_closed ->]&_&Hs2&_). by rewrite Hs2.
Qed.
Lemma poll_response_malformed id o w x y before after :
  owned y → futures y !! id = Some o → flagged (channel (client y)) →
  (∀ buf, slot (client y) id ≠ Some (Received buf)) →
  unread (client y) = before ++ x :: after → Forall (other_message id) before → malformed x →
  ends (poll_response (response id) w) (client y) (λ p _, fst p = Ready (inr InvalidHeader)).
Proof.
  intros Ho Hf Hfl Hnr Hu Hoth Hx. apply (poll_response_round id o w y (λ p, p = Ready (inr InvalidHeader))); [done..|].
  intros s1 H1 Hs1 Hsg Hu1. eapply ends_mono; [|apply (recv_all_malformed id w x (polled id w s1 y) s1); try done].
  - by intros r s2 ->.
  - by unfold flagged; rewrite Hsg.
  - rewrite Hu1. eauto.
Qed.
Lemma poll_response_waits id o w y :
  owned y → futures y !! id = Some o → ¬ flagged (channel (client y)) →
  (∀ buf, slot (client y) id ≠ Some (Received buf)) →
  ends (poll_response (response id) w) (client y) (λ p _, fst p = Pending).
Proof.
  intros Ho Hf Hfl Hnr. apply (poll_response_round id o w y (λ p, p = Pending)); [done..|].
  intros s1 H1 Hs1 Hsg Hu1. eapply ends_mono; [|apply (recv_all_waits id w (polled id w s1 y) s1); try done].
  - intros r s2 [-> ->]. done.
  - by unfold flagged; rewrite Hsg.
Qed.

End wakes.
