(* ===== verification/FidlClientClaims.v ===== *)
(** What an asynchronous FIDL client promises: it never panics, whatever the server sends and
    however its threads interleave; a query gets the decoded answer to it; calls return; on an
    executor of one thread no wakeup is lost; and runs of several threads in which one is. *)

From stdpp Require Import vector.
From S2P Require Import Prelude Std Threads AsyncHandle FidlCore FidlTypes FidlAggregates FidlLogic FidlFormat FidlLaws FidlStruct FidlTable FidlUnion FidlUniverse FidlClaims FidlClient FidlClientSafety FidlClientWakes.

Section promises.
Context `{BO : !ByteOrder, BOS : !ByteOrderSpec, BOZ : !ZeroBytes, SL : !Slab, SLS : !SlabSpec}.

Lemma verified_pool {S K A : Type} (J : S → list K → Prop) (Q : K → A → Prop) c i p :
  verified J Q c → pool c !! i = Some p → ∃ k, wp J k p Q.
Proof. intros (ks&_&Hp) Hi. destruct (Forall2_lookup_r _ _ _ _ _ Hp Hi) as (k&_&?). eauto. Qed.

(** C14: However the threads of a client interleave, and whatever the server sends, no thread
    panics. *)
Theorem fidl_client_safe {label} (request : label → Z → list Z → list Z → result Error unit * (list Z * list Z))
    answer ws c i :
  (∀ l txid, 0 < txid < 2 ^ 32 →
    match request l txid [] [] with
    | (Ok _, (bytes, handles)) => tx_of {| mb_bytes := bytes; mb_handles := handles |} = Some txid
    | (Err _, _) => True
    | _ => False
    end) →
  client_reachable request answer false ws c → zlen (pool c) ≤ 2 ^ 32 - 2 → pool c !! i ≠ Some Abort.
Proof.
  intros Hreq Hr Hl Hi. pose proof (client_verified request answer Hreq false ltac:(done) ws c Hr Hl) as Hv.
  destruct (verified_pool _ _ _ _ _ Hv Hi) as [k Hk]. exact Hk.
Qed.

(** * Typed queries *)
Section typed.
Context (t u : ftype) (Ht : well_formed t) (Hu : well_formed u).
Context (Hnt : Z.of_nat (nest (fmt (denote t))) < 2 ^ 31) (Hnu : Z.of_nat (nest (fmt (denote u))) < 2 ^ 31).
Abbreviation value t := (car (code (denote t))).

(** A value that can be the body of a message, within the recursion limit. *)
Definition body_ok (t : ftype) (v : value t) : Prop :=
  sendable t v ∧ zlen (message t v) + 16 < 2 ^ 32 ∧
  (edepth (fmt (denote t)) v ≤ MAX_RECURSION)%nat ∧ (ddepth (fmt (denote t)) v ≤ MAX_RECURSION)%nat.
Record query := Query { q_ordinal : Z; q_body : value t; q_ordinal_ok : 0 ≤ q_ordinal < 2 ^ 32; q_body_ok : body_ok t q_body }.
Definition request (q : query) : Z → list Z → list Z → result Error unit * (list Z * list Z) :=
  message_from_id (code (denote t)) (q_body q) (q_ordinal q).

(** The server decodes a request and answers with what the method returns. *)
Context (methods : Z → option (value t → value u)).
Definition serve (r : MessageBuf) : option MessageBuf :=
  match decode_transaction_header (mb_bytes r) with
  | Ok ((txid, (_, (ordinal, _))), _) =>
      match methods ordinal, decode_transaction_body (dec (code (denote t))) r with
      | Some f, Ok v =>
          match message_from_id (code (denote u)) (f v) ordinal txid [] [] with
          | (Ok _, (bytes, handles)) => Some {| mb_bytes := bytes; mb_handles := handles |}
          | _ => None
          end
      | _, _ => None
      end
  | _ => None
  end.
Context (methods_ok : ∀ ordinal f, methods ordinal = Some f → 0 ≤ ordinal < 2 ^ 32 ∧ ∀ v, body_ok u (f v)).

Definition typed_message (t : ftype) (v : value t) (ordinal txid : Z) : MessageBuf :=
  {| mb_bytes := message header_type (transaction_header txid 0 ordinal) ++ message t v; mb_handles := message_handles t v |}.
Lemma message_from_id_ok t' v ordinal txid :
  well_formed t' → body_ok t' v → 0 ≤ ordinal < 2 ^ 32 → 0 ≤ txid < 2 ^ 32 →
  message_from_id (code (denote t')) v ordinal txid [] [] =
  (Ok tt, (mb_bytes (typed_message t' v ordinal txid), mb_handles (typed_message t' v ordinal txid))).
Proof. intros Hw (Hs&Hl&He&_) Ho Hx. unfold message_from_id. by rewrite encode_transaction. Qed.
Lemma typed_header t' v ordinal txid :
  0 ≤ ordinal < 2 ^ 32 → 0 ≤ txid < 2 ^ 32 →
  decode_transaction_header (mb_bytes (typed_message t' v ordinal txid)) = Ok (transaction_header txid 0 ordinal, message t' v).
Proof. intros Ho Hx. by apply decode_header. Qed.
Lemma typed_tx t' v ordinal txid :
  0 ≤ ordinal < 2 ^ 32 → 0 ≤ txid < 2 ^ 32 → tx_of (typed_message t' v ordinal txid) = Some txid.
Proof. intros Ho Hx. unfold tx_of. by rewrite typed_header. Qed.
Lemma typed_body t' v ordinal txid :
  well_formed t' → body_ok t' v → Z.of_nat (nest (fmt (denote t'))) < 2 ^ 31 → 0 ≤ ordinal < 2 ^ 32 → 0 ≤ txid < 2 ^ 32 →
  decode_transaction_body (dec (code (denote t'))) (typed_message t' v ordinal txid) = Ok v.
Proof.
  intros Hw (Hs&Hl&_&Hd) Hn Ho Hx. unfold decode_transaction_body, typed_message. cbn [mb_bytes mb_handles].
  change (type_size (dec header_codable)) with 16. pose proof (zlen_nonneg (message t' v)).
  rewrite zlen_app, header_message_length by done. rewrite (proj2 (Z.ltb_ge _ _)) by lia.
  rewrite drop_zlen_app by by apply header_message_length.
  destruct (law_empty _ (denote_lawful t' Hw)) as [v0 ->]. cbn [rbind]. rewrite decode_denoted by done. by rewrite decide_True.
Qed.

Lemma request_message q txid :
  0 < txid < 2 ^ 32 →
  request q txid [] [] = (Ok tt, (mb_bytes (typed_message t (q_body q) (q_ordinal q) txid), mb_handles (typed_message t (q_body q) (q_ordinal q) txid))).
Proof. intros Hx. apply message_from_id_ok; [done|apply q_body_ok|apply q_ordinal_ok|lia]. Qed.

(** * The synchronous client *)
Lemma serve_typed v ordinal txid f :
  body_ok t v → 0 ≤ ordinal < 2 ^ 32 → 0 ≤ txid < 2 ^ 32 → methods ordinal = Some f →
  serve (typed_message t v ordinal txid) = Some (typed_message u (f v) ordinal txid).
Proof.
  intros Hv Ho Hx Hf. destruct (methods_ok _ _ Hf) as [_ Hb]. unfold serve. rewrite typed_header by done. cbn [transaction_header].
  by rewrite Hf, typed_body, message_from_id_ok by done.
Qed.
Lemma sync_response_typed v ordinal :
  body_ok u v → 0 ≤ ordinal < 2 ^ 32 →
  sync_response (dec (code (denote u))) ordinal (typed_message u v ordinal QUERY_TX_ID) = Ok v.
Proof.
  intros Hv Ho. unfold sync_response. rewrite typed_header by done. cbn [rbind transaction_header].
  rewrite !Z.eqb_refl. cbn [negb orb]. destruct (law_empty _ (denote_lawful u Hu)) as [v0 ->]. cbn [rbind typed_message mb_handles].
  destruct Hv as (Hs&Hl&_&Hd). rewrite decode_denoted by done. by rewrite decide_True.
Qed.
Lemma sync_recv_waits meanwhile s :
  inbound (sync_channel s) = [] → closed (sync_channel s) = false →
  fst (sync_recv meanwhile s) =
  match inbound (sync_channel (meanwhile s)) with
  | [] => inr (ClientRead (status_code (if closed (sync_channel (meanwhile s)) then PEER_CLOSED else TIMED_OUT)))
  | m :: _ => inl m
  end.
Proof.
  destruct s as [[ib cl ws ps wf] wr wrf]. cbn. intros -> ->. unfold sync_recv, sync_read, channel_read, wait_handle, asserted. cbn.
  match goal with |- context [meanwhile ?s] => destruct (meanwhile s) as [[[|m ms] [] ws' ps' wf'] wr' wrf'] end; done.
Qed.
(** A synchronous query on a channel with nothing to read returns what the method returns for
    its body, when the server answers before the deadline; and it returns an error when the
    server closes the channel or the deadline passes. *)
Theorem fidl_sync_query v ordinal f meanwhile s :
  body_ok t v → 0 ≤ ordinal < 2 ^ 32 → methods ordinal = Some f →
  inbound (sync_channel s) = [] → closed (sync_channel s) = false → sync_write_fails s = None →
  (∀ s1, inbound (sync_channel (meanwhile s1)) = [] ∨
    ∃ r, last (sync_written s1) = Some r ∧ inbound (sync_channel (meanwhile s1)) = option_list (serve r)) →
  fst (sync_send_query (code (denote t)) (dec (code (denote u))) v ordinal meanwhile s) =
  let s1 := {| sync_channel := sync_channel s; sync_written := sync_written s ++ [typed_message t v ordinal QUERY_TX_ID];
               sync_write_fails := None |} in
  match inbound (sync_channel (meanwhile s1)) with
  | [] => Err (ClientRead (status_code (if closed (sync_channel (meanwhile s1)) then PEER_CLOSED else TIMED_OUT)))
  | _ => Ok (f v)
  end.
Proof.
  intros Hv Ho Hf Hin Hcl Hwf Hmean. unfold sync_send_query. rewrite message_from_id_ok by (done || (unfold QUERY_TX_ID; lia)).
  unfold sync_write. rewrite Hwf, Hcl.
  set (s1 := {| sync_channel := sync_channel s; sync_written := sync_written s ++ [typed_message t v ordinal QUERY_TX_ID];
                sync_write_fails := None |}).
  cbn zeta. change (sync_recv meanwhile _) with (sync_recv meanwhile s1).
  pose proof (sync_recv_waits meanwhile s1 Hin Hcl) as Hrecv. destruct (sync_recv meanwhile s1) as [r s2]. cbn in Hrecv. subst r.
  destruct (Hmean s1) as [->|(r&Hr&Hi)]; [done|]. rewrite Hi. cbn in Hr. rewrite last_snoc in Hr. injection Hr as <-.
  rewrite (serve_typed v ordinal QUERY_TX_ID f) by done. cbn. apply sync_response_typed; [|done]. by apply methods_ok in Hf as [_ Hb].
Qed.
End typed.

(** C15: On an executor of one thread, in every state between two calls: when a query waits, or
    the event stream was polled and waits, there is a task that will run and read the channel.
    It is the task of a future that has not been dropped, or of the event stream; it is the
    task the channel is to wake, or it has been woken.  The event stream is polled by a task of its own,
    and the kernel does not refuse to wait on the channel. *)
Theorem fidl_client_wakes y :
  client_runs y →
  (∀ id w, slot (client y) id = Some (Waiting w) → ∃ id', stirred y id') ∧
  (∀ w, receiver y = Some (Some w) → listener (client y) = Listening w →
    (∃ id, stirred y id) ∨ read_task (channel (client y)) = Some w ∨ w ∈ woken (channel (client y))).
Proof. intros [_ [Hq He]]%client_runs_ok. done. Qed.

(** C16: Calls return, whatever the server has sent: a future can be dropped, and a poll of a
    query reads the messages there are and ends.  What the poll of a query whose response has not been
    read yields: it waits when the channel is not flagged as readable; else it completes when the response
    is among the messages queued and all the others have a header; and it fails with
    [InvalidHeader] when a message without a header is queued before the response. *)
Theorem fidl_client_completes y id o w :
  client_runs y → futures y !! id = Some o →
  ends (drop_response (response id)) (client y) (λ _ _, True) ∧
  ends (poll_response (response id) w) (client y) (λ p _,
    (∀ buf, slot (client y) id ≠ Some (Received buf)) →
    (¬ flagged (channel (client y)) → fst p = Pending) ∧
    ∀ before m after, flagged (channel (client y)) → inbound (handle (channel (client y))) = before ++ m :: after →
      Forall (other_message id) before →
      (Forall (other_message id) after → tx_of m = Some (Z.of_nat id + 1) → fst p = Ready (inl m)) ∧
      (malformed m → fst p = Ready (inr InvalidHeader))).
Proof.
  intros [Ho _]%client_runs_ok Hf. split; [eapply ends_mono; [|by eapply drop_response_ends]; done|].
  destruct (poll_response_ends id w o y Ho Hf) as (p&s'&Hr&_). exists p, s'. split; [done|]. intros Hnr. split.
  - intros Hfl. exact (ends_runs _ _ _ _ (λ p _, fst p = Pending) (poll_response_waits id o w y Ho Hf Hfl Hnr) Hr).
  - intros before m after Hfl Hu Hb. split; [intros Ha Htx|intros Hx].
    + exact (ends_runs _ _ _ _ (λ p _, fst p = Ready (inl m))
        (poll_response_arrives id o w m y before after Ho Hf Hfl Hnr Hu (proj2 (Forall_app _ _ _) (conj Hb Ha)) Htx) Hr).
    + exact (ends_runs _ _ _ _ (λ p _, fst p = Ready (inr InvalidHeader))
        (poll_response_malformed id o w m y before after Ho Hf Hfl Hnr Hu Hb Hx) Hr).
Qed.
End promises.

(** * A slab *)
Fixpoint first_vacant {V : Type} (m : list (option V)) : nat :=
  match m with Some _ :: m => S (first_vacant m) | _ => 0 end.
Fixpoint vec_insert {V : Type} (v : V) (m : list (option V)) : list (option V) :=
  match m with
  | Some x :: m => Some x :: vec_insert v m
  | None :: m => Some v :: m
  | [] => [Some v]
  end.
Fixpoint vec_entries {V : Type} (k : nat) (m : list (option V)) : list (nat * V) :=
  match m with
  | Some v :: m => (k, v) :: vec_entries (S k) m
  | None :: m => vec_entries (S k) m
  | [] => []
  end.
#[local] Instance vec_slab : Slab := {|
  slab := λ V, list (option V);
  slab_new := λ V, [];
  slab_insert := λ V v m, (first_vacant m, vec_insert v m);
  slab_get := λ V k m, mjoin (m !! k);
  slab_set := λ V k v m, <[k := Some v]> m;
  slab_remove := λ V k m, <[k := None]> m;
  slab_entries := λ V m, vec_entries 0 m;
  slab_slots := λ V m, length m |}.
Lemma first_vacant_get {V} (m : list (option V)) : mjoin (m !! first_vacant m) = None.
Proof. by induction m as [|[v|] m IH]. Qed.
Lemma vec_insert_get {V} (v : V) m j :
  mjoin (vec_insert v m !! j) = if decide (j = first_vacant m) then Some v else mjoin (m !! j).
Proof.
  revert j. induction m as [|[x|] m IH]; intros [|j]; cbn; try done. rewrite IH. repeat case_decide; (done || lia).
Qed.
Lemma vec_insert_length {V} (v : V) m :
  (first_vacant m < length (vec_insert v m) ∧ length m ≤ length (vec_insert v m) ≤ S (length m))%nat.
Proof. induction m as [|[x|] m IH]; cbn; lia. Qed.
Lemma vec_entries_get {V} (m : list (option V)) k j v :
  (j, v) ∈ vec_entries k m ↔ ∃ i, j = (k + i)%nat ∧ m !! i = Some (Some v).
Proof.
  revert k. induction m as [|x m IH]; intros k; cbn.
  { rewrite elem_of_nil. split; [done|]. by intros (i&_&?). }
  transitivity ((j = k ∧ x = Some v) ∨ ∃ i, j = (S k + i)%nat ∧ m !! i = Some (Some v)).
  - rewrite <- IH. destruct x as [x|]; [rewrite elem_of_cons|]; naive_solver.
  - split.
    + intros [[-> ->]|(i&->&Hi)]; [exists 0%nat|exists (S i)]; (split; [lia|done]).
    + intros ([|i]&->&Hi); cbn in Hi; [left; split; [lia|congruence]|right; exists i; split; [lia|done]].
Qed.
#[local] Instance vec_slab_spec : SlabSpec.
Proof.
  assert (∀ V (m : list (option V)) k v, mjoin (m !! k) = Some v → (k < length m)%nat) as Hlt.
  { intros V m k v H. destruct (m !! k) eqn:E; [by eapply lookup_lt_Some|done]. }
  split; cbn; intros V.
  - done.
  - intros v m. apply first_vacant_get.
  - intros v m j. apply vec_insert_get.
  - intros k v v' m j Hk%Hlt. case_decide as E; [subst; by rewrite list_lookup_insert_eq|by rewrite list_lookup_insert_ne].
  - intros k v m j Hk%Hlt. case_decide as E; [subst; by rewrite list_lookup_insert_eq|by rewrite list_lookup_insert_ne].
  - intros m k v. rewrite vec_entries_get. split.
    + intros (i&->&Hi). cbn. by rewrite Hi.
    + intros H. exists k. split; [done|]. destruct (m !! k) as [[x|]|]; cbn in H; congruence.
  - done.
  - intros v m. apply vec_insert_length.
  - intros k v m. apply length_insert.
  - intros k m. apply length_insert.
Qed.

(** * Two queries at once, answered in the other order *)
#[local] Existing Instances le_order le_order_spec le_order_zero.

Definition number_type : ftype := TPrim (PNum 4 false).
Definition even_methods (ordinal : Z) : option (Z → bool) := if ordinal =? 5 then Some Z.even else None.
Lemma number_well_formed : well_formed number_type.
Proof. apply type_test_ok. vm_compute. reflexivity. Qed.
Lemma bool_well_formed : well_formed TBool.
Proof. apply type_test_ok. vm_compute. reflexivity. Qed.
Lemma number_body_ok v : 0 ≤ v < 2 ^ 32 → body_ok number_type v.
Proof.
  intros Hv. assert (valid (fmt (denote number_type)) v) as Hval by done.
  pose proof (message_length number_type v number_well_formed Hval) as Hl.
  split_and!; [split_and!; [done|by rewrite Hl|done]|by rewrite Hl|by apply Nat.leb_le|by apply Nat.leb_le].
Qed.
Lemma even_methods_ok ordinal f :
  even_methods ordinal = Some f → 0 ≤ ordinal < 2 ^ 32 ∧ ∀ v, body_ok TBool (f v).
Proof.
  unfold even_methods. destruct (Z.eqb_spec ordinal 5) as [->|]; [|done]. intros [= <-]. split; [lia|]. intros v.
  destruct (Z.even v); (split_and!; [split_and!; by vm_compute|by vm_compute|by apply Nat.leb_le|by apply Nat.leb_le]).
Qed.
Lemma in_u32 v : (0 <=? v) && (v <? 2 ^ 32) = true → 0 ≤ v < 2 ^ 32.
Proof. lia. Qed.
Definition ask (v : Z) (Hv : 0 ≤ v < 2 ^ 32) : query number_type :=
  Query number_type 5 v (in_u32 5 eq_refl) (number_body_ok v Hv).
Definition ask_7 : query number_type := ask 7 (in_u32 7 eq_refl).
Definition ask_8 : query number_type := ask 8 (in_u32 8 eq_refl).

(** The server answers the message [i], and the executor takes the packets. *)
Definition server := serve number_type TBool even_methods.
Definition answer_message (i : nat) (s : ClientInner) : ClientInner :=
  match written s !! i with
  | Some r =>
      match server r with
      | Some m => with_channel (with_handle (deliver m (handle (channel s))) (channel s)) (with_written (delete i (written s)) s)
      | None => s
      end
  | None => s
  end.
Definition take_packets (s : ClientInner) : ClientInner :=
  with_channel (snd (run_alone (E := unit) 8 take_packet (channel s))) s.
Definition after_env {A} (f : ClientInner → ClientInner) (c : config ClientInner A) : config ClientInner A :=
  Config (f (shared c)) (pool c).

Definition both_asked : config ClientInner (outcome (label := query number_type)) :=
  Config (client_new fresh_handle)
    [event_user []; query_user (request number_type) ask_7 [11; 11]%nat; query_user (request number_type) ask_8 [12; 12]%nat].
Definition both_wait : config ClientInner (outcome (label := query number_type)) :=
  run_schedule (repeat 1 7 ++ repeat 2 7)%nat both_asked.
Definition both_done : config ClientInner (outcome (label := query number_type)) :=
  run_schedule (repeat 1 20 ++ repeat 2 20)%nat
    (after_env take_packets (after_env (answer_message 0) (after_env (answer_message 1) both_wait))).
Definition got (i : nat) {A} (c : config ClientInner (outcome (label := A))) : MessageBuf :=
  match pool c !! i with Some (Return (Got _ m)) => m | _ => {| mb_bytes := []; mb_handles := [] |} end.
Lemma env_step {A} (calls : prog ClientInner A → Prop) env f c :
  env (shared c) (f (shared c)) → cstep calls env c (after_env f c).
Proof. destruct c. apply step_env. Qed.


(** * A query that waits, and its answer *)
Definition run_to {S A} (p : prog S A) (s : S) : S := match exec 40 p s with Some (_, s) => s | None => s end.
Definition one_asked : system :=
  asked (inl (response 0)) (run_to (send_raw_query (request number_type ask_7)) (client system_new)) system_new.
Definition one_waits : system := polled 0 11 (run_to (poll_response (response 0) 11) (client one_asked)) one_asked.
Definition one_sent : system :=
  put (with_channel (with_handle (deliver (got 1 both_done) (handle (channel (client one_waits)))) (channel (client one_waits)))
    (client one_waits)) one_waits.
Definition one_answered : system :=
  put (with_channel (run_to take_packet (channel (client one_sent))) (client one_sent)) one_sent.
Lemma one_waits_runs : client_runs one_waits.
Proof.
  eapply rtc_l; [|apply rtc_once].
  - apply (step_query (request number_type ask_7) (inl (response 0))); [vm_compute; reflexivity|].
    apply (exec_runs 40). vm_compute. reflexivity.
  - apply (step_pending 0 None 11 (response 0)); [vm_compute; reflexivity|]. apply (exec_runs 40). vm_compute. reflexivity.
Qed.
Lemma one_answered_runs : client_runs one_answered.
Proof.
  apply (rtc_r _ one_sent); [apply (rtc_r _ one_waits); [apply one_waits_runs|]|].
  - apply step_handle, (handle_deliver (got 1 both_done)). vm_compute. repeat (apply Forall_cons_2; [split; [discriminate|reflexivity]|]). apply Forall_nil_2.
  - apply step_handle, handle_packet. apply (exec_runs 40). vm_compute. reflexivity.
Qed.
Lemma fidl_client_wakes_witness : ∃ id, stirred one_waits id.
Proof. apply (proj1 (fidl_client_wakes one_waits one_waits_runs) 0%nat 11%nat). vm_compute. reflexivity. Defined.
Lemma fidl_client_completes_witness :
  ends (poll_response (response 0) 11) (client one_answered) (λ p _, fst p = Ready (inl (got 1 both_done))).
Proof.
  eapply ends_mono; [|apply (fidl_client_completes one_answered 0 (Some 11%nat) 11%nat one_answered_runs); vm_compute; reflexivity].
  intros p s H. destruct H as [_ H]; [intros buf; vm_compute; discriminate|].
  apply (H [] (got 1 both_done) []); [vm_compute; reflexivity|vm_compute; reflexivity|constructor|constructor|vm_compute; reflexivity].
Defined.

(** * A server that sends three bytes *)
Definition send_bytes (bytes : list Z) (s : ClientInner) : ClientInner :=
  with_channel (with_handle (deliver {| mb_bytes := bytes; mb_handles := [] |} (handle (channel s))) (channel s)) s.
Definition garbled : config ClientInner (outcome (label := query number_type)) :=
  run_schedule (repeat 1 20)%nat (after_env (send_bytes [1; 2; 3]) both_asked).
Lemma garbled_reachable : client_reachable (request number_type) server false [] garbled.
Proof.
  unfold client_reachable. transitivity both_asked.
  { eapply rtc_l; [apply step_call, (user_query _ ask_7 [11; 11]%nat)|].
    apply rtc_once, (step_call _ _ _ [event_user []; query_user (request number_type) ask_7 [11; 11]%nat]), user_query. }
  eapply rtc_l; [apply (env_step _ _ (send_bytes [1; 2; 3])), world_send; [|done]|apply run_schedule_steps].
  repeat (apply Forall_cons_2; [split; [discriminate|reflexivity]|]). apply Forall_nil_2.
Qed.
Lemma fidl_client_safe_witness :
  pool garbled !! 1%nat = Some (Return (Failed ask_7 InvalidHeader)) ∧ pool garbled !! 2%nat ≠ Some Abort.
Proof.
  split; [vm_compute; reflexivity|].
  apply (fidl_client_safe (request number_type) server [] garbled 2);
    [|apply garbled_reachable|vm_compute; discriminate].
  intros l txid Hx. rewrite (request_message number_type TBool number_well_formed l txid Hx). apply typed_tx; [apply q_ordinal_ok|lia].
Defined.

(** * What several threads do otherwise

    Three queries wait on three threads.  The thread of the third is about to read with the
    waker of the first; the first query is dropped and wakes the second, which reads and waits;
    then the third thread reads, and leaves the waker of the first with the channel.  The
    answer to the second query wakes no task that is left. *)
Definition three_asked : config ClientInner (outcome (label := query number_type)) :=
  Config (client_new fresh_handle)
    [query_user (request number_type) ask_7 [11]%nat; query_user (request number_type) ask_8 [12; 12; 12]%nat;
     query_user (request number_type) ask_7 [13; 13]%nat].
Definition wakeup_lost : config ClientInner (outcome (label := query number_type)) :=
  after_env take_packets (after_env (answer_message 1)
    (run_schedule (repeat 0 7 ++ repeat 1 7 ++ repeat 2 5 ++ repeat 0 3 ++ repeat 1 5 ++ repeat 2 2)%nat three_asked)).
Example client_wakeup_lost :
  let s := shared wakeup_lost in
  slot s 1 = Some (Waiting 12%nat) ∧ slot s 2 = Some (Waiting 13%nat) ∧
  pool wakeup_lost !! 0%nat = Some (Return (Dropped ask_7)) ∧
  tx_of <$> inbound (handle (channel s)) = [Some 2] ∧ packets (handle (channel s)) = [] ∧
  read_task (channel s) = None ∧ woken (channel s) = {[11%nat]}.
Proof. vm_compute. repeat split. Qed.

(** A thread that has read an event is overtaken by another before it puts it in the queue. *)
Definition event_of (ordinal : Z) : list Z := zeros 12 ++ [ordinal; 0; 0; 0].
Definition events_overtaken : config ClientInner (outcome (label := query number_type)) :=
  run_schedule (repeat 1 6 ++ repeat 0 10 ++ repeat 1 1 ++ repeat 0 8)%nat
    (after_env (send_bytes (event_of 2)) (after_env (send_bytes (event_of 1))
      (Config (client_new fresh_handle) [event_user [21; 21]%nat; query_user (request number_type) ask_7 [11; 11]%nat]))).
Example client_events_overtaken :
  pool events_overtaken !! 0%nat =
  Some (Return (Events [inl {| mb_bytes := event_of 2; mb_handles := [] |}; inl {| mb_bytes := event_of 1; mb_handles := [] |}])).
Proof. vm_compute. reflexivity. Qed.

(** * The synchronous client *)
Definition sync_new : SyncClient := {| sync_channel := fresh_kernel; sync_written := []; sync_write_fails := None |}.
Definition sync_deliver (m : option MessageBuf) (s : SyncClient) : SyncClient :=
  match m with
  | Some m => {| sync_channel := deliver m (sync_channel s); sync_written := sync_written s; sync_write_fails := sync_write_fails s |}
  | None => s
  end.
(** The server answers what was written last. *)
Definition sync_serve (s : SyncClient) : SyncClient :=
  {| sync_channel :=
       {| inbound := option_list (match last (sync_written s) with Some r => server r | None => None end);
          closed := false; waits := []; packets := []; waits_fail := None |};
     sync_written := sync_written s; sync_write_fails := None |}.
Definition sync_ask (v : Z) := sync_send_query (code (denote number_type)) (dec (code (denote TBool))) v 5.
Lemma fidl_sync_query_witness : fst (sync_ask 8 sync_serve sync_new) = Ok true.
Proof.
  etransitivity.
  - apply (fidl_sync_query number_type TBool number_well_formed bool_well_formed ltac:(reflexivity) ltac:(reflexivity)
      even_methods even_methods_ok 8 5 Z.even sync_serve sync_new);
      [apply number_body_ok, in_u32; reflexivity|apply in_u32; reflexivity|reflexivity|reflexivity|reflexivity|reflexivity|].
    intros s1. cbn. destruct (last (sync_written s1)) as [r|]; [right; by exists r|by left].
  - vm_compute. reflexivity.
Defined.
(** A query that timed out is answered late; the next query with its ordinal returns that answer. *)
Example sync_stale_answer :
  let '(r1, s1) := sync_ask 7 (λ s, s) sync_new in
  let '(r2, _) := sync_ask 8 (λ s, s) (sync_deliver (mbind server (last (sync_written s1))) s1) in
  r1 = Err (ClientRead (status_code TIMED_OUT)) ∧ r2 = Ok (Z.even 7) ∧ Z.even 7 ≠ Z.even 8.
Proof. vm_compute. repeat split. discriminate. Qed.

(** A query that cannot be written keeps its slot. *)
Definition cannot_write : ClientInner :=
  {| channel := fresh_handle; written := []; write_fails := Some (-1); message_interests := slab_new;
     listener := NoListener; queue := [] |}.
Example failed_query_keeps_slot :
  match exec 9 (send_raw_query (request number_type ask_7)) cannot_write with
  | Some (r, s) => r = inr (ClientWrite (-1)) ∧ slot s 0 = Some WillPoll
  | None => False
  end.
Proof. vm_compute. split; reflexivity. Qed.
