(* ===== verification/CmValidator.v ===== *)
(** Component declarations and their validation
    ([lib/rust/cm_fidl_validator/src/lib.rs]).  The types of the declarations are those the
    FIDL bindings of [fuchsia.sys2] give: every field of a table may be absent, and a union may
    have a variant that is not known.  The [regex] package is a parameter. *)

From S2P Require Import Prelude.
Open Scope rust_scope.

(** A [String] is the list of its UTF-8 bytes. *)
Abbreviation str := (list Z).

(** * Declarations *)
Inductive StartupMode := Lazy | Eager.
Inductive Durability := Persistent | Transient.
Inductive StorageType := SData | SCache | SMeta.
#[global] Instance StorageType_eq_dec : EqDecision StorageType.
Proof. solve_decision. Defined.

Record ChildRef := { cr_name : option str; cr_collection : option str }.
Record CollectionRef := { colr_name : option str }.
Record StorageRef := { sr_name : option str }.
Inductive Ref :=
| RealmRef | SelfRef
| RefChild (c : ChildRef)
| RefCollection (c : CollectionRef)
| RefStorage (s : StorageRef)
| FrameworkRef
| UnknownRef (ordinal : Z).

Record UseFields := { u_source : option Ref; u_source_path : option str; u_target_path : option str }.
Record UseStorageFields := { us_type : option StorageType; us_target_path : option str }.
Inductive UseDecl :=
| UseService (u : UseFields) | UseDirectory (u : UseFields) | UseStorage (u : UseStorageFields)
| UnknownUse (ordinal : Z).

Record ExposeFields := { e_source : option Ref; e_source_path : option str; e_target_path : option str }.
Inductive ExposeDecl := ExposeService (e : ExposeFields) | ExposeDirectory (e : ExposeFields) | UnknownExpose (ordinal : Z).

Record OfferFields := {
  o_source : option Ref; o_source_path : option str; o_target : option Ref; o_target_path : option str }.
Record OfferStorageFields := { os_type : option StorageType; os_source : option Ref; os_target : option Ref }.
Inductive OfferDecl :=
| OfferService (o : OfferFields) | OfferDirectory (o : OfferFields) | OfferStorage (o : OfferStorageFields)
| UnknownOffer (ordinal : Z).

Record ChildDecl := { child_name : option str; child_url : option str; child_startup : option StartupMode }.
Record CollectionDecl := { collection_name : option str; collection_durability : option Durability }.
Record StorageDecl := { storage_name : option str; storage_source_path : option str; storage_source : option Ref }.

(** [program] and [facets] are dictionaries, which are not looked into. *)
Record ComponentDecl {Dictionary : Type} := {
  program : option Dictionary;
  uses : option (list UseDecl); exposes : option (list ExposeDecl); offers : option (list OfferDecl);
  children : option (list ChildDecl); collections : option (list CollectionDecl);
  storage : option (list StorageDecl); facets : option Dictionary }.
Arguments ComponentDecl Dictionary : clear implicits.

(** * Errors *)
Inductive Error :=
| MissingField (decl_type keyword : string)
| EmptyField (decl_type keyword : string)
| ExtraneousField (decl_type keyword : string)
| DuplicateField (decl_type keyword : string) (value : str)
| InvalidField (decl_type keyword : string)
| FieldTooLong (decl_type keyword : string)
| OfferTargetEqualsSource (decl : string) (target : str)
| InvalidChild (decl_type keyword : string) (child : str)
| InvalidCollection (decl_type keyword : string) (collection : str)
| InvalidStorage (decl_type keyword : string) (storage : str).

(** * Identifiers

    [is_match re s] is [Regex::new(re).unwrap().is_match(s)]. *)
Class Regex := is_match : string → str → bool.
Definition PATH_RE : string := "^(/[^/]+)+$".
Definition NAME_RE : string := "^[0-9a-z_\-\.]+$".
Definition URL_RE : string := "^[0-9a-z\+\-\.]+://.+$".

Definition slash : Z := 47.
Definition is_path (s : str) : Prop :=
  ∃ parts, parts ≠ [] ∧ Forall (λ p, p ≠ [] ∧ slash ∉ p) parts ∧ s = concat (cons slash <$> parts).
Definition in_class (lo hi c : Z) : bool := (lo <=? c) && (c <=? hi).
Definition name_char (c : Z) : bool :=
  in_class 48 57 c || in_class 97 122 c || (c =? 95) || (c =? 45) || (c =? 46).
Definition scheme_char (c : Z) : bool :=
  in_class 48 57 c || in_class 97 122 c || (c =? 43) || (c =? 45) || (c =? 46).
Definition is_name (s : str) : Prop := s ≠ [] ∧ Forall (λ c, name_char c = true) s.
Definition is_url (s : str) : Prop :=
  ∃ scheme rest, scheme ≠ [] ∧ Forall (λ c, scheme_char c = true) scheme ∧
    rest ≠ [] ∧ Forall (λ c, c ≠ 10) rest ∧ s = scheme ++ [58; 47; 47] ++ rest.
(** What the three expressions match. *)
Class RegexSpec `{!Regex} := {
  match_path s : is_match PATH_RE s = true ↔ is_path s;
  match_name s : is_match NAME_RE s = true ↔ is_name s;
  match_url s : is_match URL_RE s = true ↔ is_url s }.

Section validator.
Context `{!Regex}.

Record Identifier := { re : string; max_len : Z }.
Definition PATH : Identifier := {| re := PATH_RE; max_len := 1024 |}.
Definition NAME : Identifier := {| re := NAME_RE; max_len := 100 |}.
Definition URL : Identifier := {| re := URL_RE; max_len := 4096 |}.
Definition check (self : Identifier) (prop : option str) (decl_type keyword : string) (errors : list Error)
    : bool * list Error :=
  match prop with
  | None => (false, errors ++ [MissingField decl_type keyword])
  | Some prop =>
      let '(valid, errors) :=
        if negb (is_match (re self) prop) then (false, errors ++ [InvalidField decl_type keyword]) else (true, errors) in
      if max_len self <? zlen prop then (false, errors ++ [FieldTooLong decl_type keyword]) else (valid, errors)
  end.

(** [validate_child]: the list of errors, empty for [Ok]. *)
Definition validate_child (child : ChildDecl) : list Error :=
  let (_, errors) := check NAME (child_name child) "ChildDecl" "name" [] in
  let (_, errors) := check URL (child_url child) "ChildDecl" "url" errors in
  match child_startup child with
  | None => errors ++ [MissingField "ChildDecl" "startup"]
  | Some _ => errors
  end.

(** * The context of a validation *)
Record ValidationContext := {
  all_children : gset str; all_collections : gset str;
  all_storage_and_sources : gmap str (option str);
  child_target_paths : gmap str (gset str); collection_target_paths : gmap str (gset str);
  errors : list Error }.
Definition with_errors (x : list Error) (s : ValidationContext) : ValidationContext :=
  {| all_children := all_children s; all_collections := all_collections s;
     all_storage_and_sources := all_storage_and_sources s; child_target_paths := child_target_paths s;
     collection_target_paths := collection_target_paths s; errors := x |}.
Definition with_children (x : gset str) (s : ValidationContext) : ValidationContext :=
  {| all_children := x; all_collections := all_collections s;
     all_storage_and_sources := all_storage_and_sources s; child_target_paths := child_target_paths s;
     collection_target_paths := collection_target_paths s; errors := errors s |}.
Definition with_collections (x : gset str) (s : ValidationContext) : ValidationContext :=
  {| all_children := all_children s; all_collections := x;
     all_storage_and_sources := all_storage_and_sources s; child_target_paths := child_target_paths s;
     collection_target_paths := collection_target_paths s; errors := errors s |}.
Definition with_storage (x : gmap str (option str)) (s : ValidationContext) : ValidationContext :=
  {| all_children := all_children s; all_collections := all_collections s;
     all_storage_and_sources := x; child_target_paths := child_target_paths s;
     collection_target_paths := collection_target_paths s; errors := errors s |}.
Definition with_child_paths (x : gmap str (gset str)) (s : ValidationContext) : ValidationContext :=
  {| all_children := all_children s; all_collections := all_collections s;
     all_storage_and_sources := all_storage_and_sources s; child_target_paths := x;
     collection_target_paths := collection_target_paths s; errors := errors s |}.
Definition with_collection_paths (x : gmap str (gset str)) (s : ValidationContext) : ValidationContext :=
  {| all_children := all_children s; all_collections := all_collections s;
     all_storage_and_sources := all_storage_and_sources s; child_target_paths := child_target_paths s;
     collection_target_paths := x; errors := errors s |}.

(** The validators only panic or go on. *)
Abbreviation V := (M Empty_set ValidationContext).
Definition push (e : Error) : V unit := λ s, (Ok tt, with_errors (errors s ++ [e]) s).
Definition check_field (self : Identifier) (prop : option str) (decl_type keyword : string) : V bool :=
  λ s, let (valid, es) := check self prop decl_type keyword (errors s) in (Ok valid, with_errors es s).
(** [HashSet::insert]: whether the value is new. *)
Definition insert_child (x : str) : V bool :=
  λ s, (Ok (negb (bool_decide (x ∈ all_children s))), with_children ({[x]} ∪ all_children s) s).
Definition insert_collection (x : str) : V bool :=
  λ s, (Ok (negb (bool_decide (x ∈ all_collections s))), with_collections ({[x]} ∪ all_collections s) s).
Definition insert_storage (x : str) (source : option str) : V bool :=
  λ s, (Ok (negb (bool_decide (is_Some (all_storage_and_sources s !! x)))),
        with_storage (<[x := source]> (all_storage_and_sources s)) s).
Definition insert_path (m : gmap str (gset str)) (target path : str) : bool * gmap str (gset str) :=
  let paths := default ∅ (m !! target) in
  (negb (bool_decide (path ∈ paths)), <[target := {[path]} ∪ paths]> m).
Definition insert_child_path (target path : str) : V bool :=
  λ s, let (new, m) := insert_path (child_target_paths s) target path in (Ok new, with_child_paths m s).
Definition insert_collection_path (target path : str) : V bool :=
  λ s, let (new, m) := insert_path (collection_target_paths s) target path in (Ok new, with_collection_paths m s).
Definition has_child (x : str) : V bool := reading (λ s, Ok (bool_decide (x ∈ all_children s))).
Definition has_collection (x : str) : V bool := reading (λ s, Ok (bool_decide (x ∈ all_collections s))).
Definition storage_source_of (x : str) : V (option (option str)) := reading (λ s, Ok (all_storage_and_sources s !! x)).

(** * The validators *)
Definition validate_use_fields (decl : string) (source : option Ref) (source_path target_path : option str) : V unit :=
  match source with
  | Some RealmRef => ret tt
  | Some FrameworkRef => ret tt
  | Some _ => push (InvalidField decl "source")
  | None => push (MissingField decl "source")
  end ;;;
  check_field PATH source_path decl "source_path" ;;;
  check_field PATH target_path decl "target_path" ;;;
  ret tt.
Definition validate_use_decl (use_ : UseDecl) : V unit :=
  match use_ with
  | UseService u => validate_use_fields "UseServiceDecl" (u_source u) (u_source_path u) (u_target_path u)
  | UseDirectory u => validate_use_fields "UseDirectoryDecl" (u_source u) (u_source_path u) (u_target_path u)
  | UseStorage u =>
      match us_type u with
      | None => push (MissingField "UseStorageDecl" "type")
      | Some SMeta =>
          match us_target_path u with Some _ => push (InvalidField "UseStorageDecl" "target_path") | None => ret tt end
      | Some _ => check_field PATH (us_target_path u) "UseStorageDecl" "target_path" ;;; ret tt
      end
  | UnknownUse _ => push (InvalidField "ComponentDecl" "use")
  end.

Definition validate_child_decl (child : ChildDecl) : V unit :=
  (λ s, (Ok tt, with_errors (errors s ++ validate_child child) s)) ;;;
  match child_name child with
  | Some name =>
      new <- insert_child name ;;
      if new : bool then ret tt else push (DuplicateField "ChildDecl" "name" name)
  | None => ret tt
  end.
Definition validate_collection_decl (collection : CollectionDecl) : V unit :=
  let name := collection_name collection in
  valid <- check_field NAME name "CollectionDecl" "name" ;;
  (if valid : bool then
     name <- lift (ounwrap name) ;;
     new <- insert_collection name ;;
     if new : bool then ret tt else push (DuplicateField "CollectionDecl" "name" name)
   else ret tt) ;;;
  match collection_durability collection with
  | None => push (MissingField "CollectionDecl" "durability")
  | Some _ => ret tt
  end.

Definition validate_source_child (child : ChildRef) (decl_type : string) : V unit :=
  valid1 <- check_field NAME (cr_name child) decl_type "source.child.name" ;;
  valid2 <- (match cr_collection child with
             | Some _ => push (ExtraneousField decl_type "source.child.collection") ;;; ret false
             | None => ret true
             end) ;;
  if negb (valid1 && valid2) then ret tt
  else
    match cr_name child with
    | Some child_name =>
        known <- has_child child_name ;;
        if known : bool then ret tt else push (InvalidChild decl_type "source" child_name)
    | None => push (MissingField decl_type "source.child.name")
    end.
Definition validate_storage_source (source : StorageRef) (decl_type : string) : V unit :=
  valid <- check_field NAME (sr_name source) decl_type "source.storage.name" ;;
  if valid : bool then
    match sr_name source with
    | Some storage_name =>
        known <- storage_source_of storage_name ;;
        match known with Some _ => ret tt | None => push (InvalidStorage decl_type "source" storage_name) end
    | None => push (MissingField decl_type "source.storage.name")
    end
  else ret tt.
Definition validate_storage_decl (storage : StorageDecl) : V unit :=
  check_field PATH (storage_source_path storage) "StorageDecl" "source_path" ;;;
  source_child_name <- (match storage_source storage with
    | Some RealmRef => ret None
    | Some SelfRef => ret None
    | Some (RefChild child) => validate_source_child child "StorageDecl" ;;; ret (cr_name child)
    | Some _ => push (InvalidField "StorageDecl" "source") ;;; ret None
    | None => push (MissingField "StorageDecl" "source") ;;; ret None
    end) ;;
  valid <- check_field NAME (storage_name storage) "StorageDecl" "name" ;;
  if valid : bool then
    name <- lift (ounwrap (storage_name storage)) ;;
    new <- insert_storage name source_child_name ;;
    if new : bool then ret tt else push (DuplicateField "StorageDecl" "name" name)
  else ret tt.

(** [prev_target_paths] is threaded: the set is returned. *)
Definition validate_expose_fields (decl : string) (source : option Ref) (source_path target_path : option str)
    (prev_target_paths : gset str) : V (gset str) :=
  match source with
  | Some r =>
      match r with
      | SelfRef => ret tt
      | RefChild child => validate_source_child child decl
      | _ => push (InvalidField decl "source")
      end
  | None => push (MissingField decl "source")
  end ;;;
  check_field PATH source_path decl "source_path" ;;;
  valid <- check_field PATH target_path decl "target_path" ;;
  if valid : bool then
    target_path <- lift (ounwrap target_path) ;;
    (if bool_decide (target_path ∈ prev_target_paths) then push (DuplicateField decl "target_path" target_path)
     else ret tt) ;;;
    ret ({[target_path]} ∪ prev_target_paths)
  else ret prev_target_paths.
Definition validate_expose_decl (expose : ExposeDecl) (prev_target_paths : gset str) : V (gset str) :=
  match expose with
  | ExposeService e =>
      validate_expose_fields "ExposeServiceDecl" (e_source e) (e_source_path e) (e_target_path e) prev_target_paths
  | ExposeDirectory e =>
      validate_expose_fields "ExposeDirectoryDecl" (e_source e) (e_source_path e) (e_target_path e) prev_target_paths
  | UnknownExpose _ => push (InvalidField "ComponentDecl" "expose") ;;; ret prev_target_paths
  end.

Definition validate_target_child (decl : string) (child : ChildRef) (source : option Ref) (target_path : option str) : V unit :=
  valid1 <- check_field NAME (cr_name child) decl "target.child.name" ;;
  valid2 <- (match cr_collection child with
             | Some _ => push (ExtraneousField decl "target.child.collection") ;;; ret false
             | None => ret true
             end) ;;
  if negb (valid1 && valid2) then ret tt
  else
    match target_path with
    | Some target_path =>
        child_name <- lift (ounwrap (cr_name child)) ;;
        known <- has_child child_name ;;
        (if known : bool then ret tt else push (InvalidChild decl "target" child_name)) ;;;
        new <- insert_child_path child_name target_path ;;
        (if new : bool then ret tt else push (DuplicateField decl "target_path" target_path)) ;;;
        match source with
        | Some (RefChild source_child) =>
            match cr_name source_child with
            | Some source_child_name =>
                if bool_decide (source_child_name = child_name)
                then push (OfferTargetEqualsSource decl source_child_name) else ret tt
            | None => ret tt
            end
        | _ => ret tt
        end
    | None => ret tt
    end.
Definition validate_target_collection (decl : string) (collection : CollectionRef) (target_path : option str) : V unit :=
  valid <- check_field NAME (colr_name collection) decl "target.collection.name" ;;
  if negb valid then ret tt
  else
    match target_path with
    | Some target_path =>
        collection_name <- lift (ounwrap (colr_name collection)) ;;
        known <- has_collection collection_name ;;
        (if known : bool then ret tt else push (InvalidCollection decl "target" collection_name)) ;;;
        new <- insert_collection_path collection_name target_path ;;
        if new : bool then ret tt else push (DuplicateField decl "target_path" target_path)
    | None => ret tt
    end.
Definition validate_offers_fields (decl : string) (source : option Ref) (source_path : option str)
    (target : option Ref) (target_path : option str) : V unit :=
  match source with
  | Some RealmRef => ret tt
  | Some SelfRef => ret tt
  | Some (RefChild child) => validate_source_child child decl
  | Some _ => push (InvalidField decl "source")
  | None => push (MissingField decl "source")
  end ;;;
  check_field PATH source_path decl "source_path" ;;;
  match target with
  | Some (RefChild c) => validate_target_child decl c source target_path
  | Some (RefCollection c) => validate_target_collection decl c target_path
  | Some _ => push (InvalidField decl "target")
  | None => push (MissingField decl "target")
  end ;;;
  check_field PATH target_path decl "target_path" ;;;
  ret tt.

Definition validate_storage_target (decl : string) (storage_source_name : option str) (target : option Ref) : V unit :=
  match target with
  | Some (RefChild c) =>
      valid <- check_field NAME (cr_name c) decl "target.child.name" ;;
      if negb valid then ret tt
      else
        match cr_collection c with
        | Some _ => push (ExtraneousField decl "target.child.collection")
        | None =>
            name <- lift (ounwrap (cr_name c)) ;;
            known <- has_child name ;;
            (if known : bool then ret tt else push (InvalidChild decl "target" name)) ;;;
            match storage_source_name with
            | Some source_name =>
                source <- storage_source_of source_name ;;
                if bool_decide (source = Some (Some name)) then push (OfferTargetEqualsSource decl name) else ret tt
            | None => ret tt
            end
        end
  | Some (RefCollection c) =>
      valid <- check_field NAME (colr_name c) decl "target.collection.name" ;;
      if negb valid then ret tt
      else
        name <- lift (ounwrap (colr_name c)) ;;
        known <- has_collection name ;;
        if known : bool then ret tt else push (InvalidCollection decl "target" name)
  | Some _ => push (InvalidField decl "target")
  | None => push (MissingField decl "target")
  end.
Definition validate_storage_offer_fields (decl : string) (type_ : option StorageType) (source target : option Ref) : V unit :=
  match type_ with None => push (MissingField decl "type") | Some _ => ret tt end ;;;
  storage_source_name <- (match source with
    | Some RealmRef => ret None
    | Some (RefStorage s) => validate_storage_source s decl ;;; ret (sr_name s)
    | Some _ => push (InvalidField decl "source") ;;; ret None
    | None => push (MissingField decl "source") ;;; ret None
    end) ;;
  validate_storage_target decl storage_source_name target.
Definition validate_offers_decl (offer : OfferDecl) : V unit :=
  match offer with
  | OfferService o =>
      validate_offers_fields "OfferServiceDecl" (o_source o) (o_source_path o) (o_target o) (o_target_path o)
  | OfferDirectory o =>
      validate_offers_fields "OfferDirectoryDecl" (o_source o) (o_source_path o) (o_target o) (o_target_path o)
  | OfferStorage o => validate_storage_offer_fields "OfferStorageDecl" (os_type o) (os_source o) (os_target o)
  | UnknownOffer _ => push (InvalidField "ComponentDecl" "offer")
  end.

Fixpoint for_each {A : Type} (f : A → V unit) (l : list A) : V unit :=
  match l with [] => ret tt | x :: l => f x ;;; for_each f l end.
Fixpoint for_exposes (l : list ExposeDecl) (target_paths : gset str) : V unit :=
  match l with
  | [] => ret tt
  | expose :: l => target_paths <- validate_expose_decl expose target_paths ;; for_exposes l target_paths
  end.
Definition in_some {A : Type} (f : list A → V unit) (l : option (list A)) : V unit :=
  match l with Some l => f l | None => ret tt end.
Definition validate_all {D : Type} (decl : ComponentDecl D) : V unit :=
  in_some (for_each validate_child_decl) (children decl) ;;;
  in_some (for_each validate_collection_decl) (collections decl) ;;;
  in_some (for_each validate_storage_decl) (storage decl) ;;;
  in_some (for_each validate_use_decl) (uses decl) ;;;
  in_some (λ l, for_exposes l ∅) (exposes decl) ;;;
  in_some (for_each validate_offers_decl) (offers decl).

Definition context_new : ValidationContext :=
  {| all_children := ∅; all_collections := ∅; all_storage_and_sources := ∅; child_target_paths := ∅;
     collection_target_paths := ∅; errors := [] |}.
Definition validate {D : Type} (decl : ComponentDecl D) : result (list Error) unit :=
  match validate_all decl context_new with
  | (Ok _, s) => match errors s with [] => Ok tt | errs => Err errs end
  | (Err e, _) => match e with end
  | (Panic, _) => Panic
  | (OutOfFuel, _) => OutOfFuel
  end.

End validator.
