(* ===== verification/CmValid.v ===== *)
(** The validator of component declarations accepts exactly the declarations whose fields are
    present and well formed, whose names and target paths are unique, and whose references are
    to what is declared; and it panics for none. *)

From S2P Require Import Prelude CmValidator.
Open Scope rust_scope.

(** * Well-formed declarations *)
Definition ok_path (x : str) : Prop := is_path x ∧ zlen x ≤ 1024.
Definition ok_name (x : str) : Prop := is_name x ∧ zlen x ≤ 100.
Definition ok_url (x : str) : Prop := is_url x ∧ zlen x ≤ 4096.
Definition has {A : Type} (P : A → Prop) (o : option A) : Prop := ∃ x, o = Some x ∧ P x.

Definition child_ok (c : ChildDecl) : Prop :=
  has ok_name (child_name c) ∧ has ok_url (child_url c) ∧ child_startup c ≠ None.
Definition collection_ok (c : CollectionDecl) : Prop :=
  has ok_name (collection_name c) ∧ collection_durability c ≠ None.

(** A reference to one of the children [ch], not to an instance in a collection. *)
Definition refers (ch : list str) (c : ChildRef) : Prop :=
  has (λ n, ok_name n ∧ n ∈ ch) (cr_name c) ∧ cr_collection c = None.
Definition storage_ok (ch : list str) (st : StorageDecl) : Prop :=
  has ok_path (storage_source_path st) ∧
  has (λ r, match r with RealmRef | SelfRef => True | RefChild c => refers ch c | _ => False end) (storage_source st) ∧
  has ok_name (storage_name st).
(** The child whose directory a storage capability is in. *)
Definition source_child (st : StorageDecl) : option str :=
  match storage_source st with Some (RefChild c) => cr_name c | _ => None end.

Definition use_fields_ok (u : UseFields) : Prop :=
  has (λ r, match r with RealmRef | FrameworkRef => True | _ => False end) (u_source u) ∧
  has ok_path (u_source_path u) ∧ has ok_path (u_target_path u).
Definition use_ok (u : UseDecl) : Prop :=
  match u with
  | UseService u | UseDirectory u => use_fields_ok u
  | UseStorage u =>
      has (λ t, match t with SMeta => us_target_path u = None | _ => has ok_path (us_target_path u) end) (us_type u)
  | UnknownUse _ => False
  end.

Definition expose_fields_ok (ch : list str) (e : ExposeFields) : Prop :=
  has (λ r, match r with SelfRef => True | RefChild c => refers ch c | _ => False end) (e_source e) ∧
  has ok_path (e_source_path e) ∧ has ok_path (e_target_path e).
Definition expose_ok (ch : list str) (e : ExposeDecl) : Prop :=
  match e with
  | ExposeService e | ExposeDirectory e => expose_fields_ok ch e
  | UnknownExpose _ => False
  end.
Definition expose_path (e : ExposeDecl) : option str :=
  match e with ExposeService e | ExposeDirectory e => e_target_path e | UnknownExpose _ => None end.

(** A source that is a child is not the target. *)
Definition not_source (n : str) (source : option Ref) : Prop :=
  ∀ c, source = Some (RefChild c) → cr_name c ≠ Some n.
Definition offer_fields_ok (ch cols : list str) (o : OfferFields) : Prop :=
  has (λ r, match r with RealmRef | SelfRef => True | RefChild c => refers ch c | _ => False end) (o_source o) ∧
  has ok_path (o_source_path o) ∧
  has (λ r, match r with
            | RefChild c => refers ch c ∧ ∀ n, cr_name c = Some n → not_source n (o_source o)
            | RefCollection c => has (λ n, ok_name n ∧ n ∈ cols) (colr_name c)
            | _ => False
            end) (o_target o) ∧
  has ok_path (o_target_path o).
(** A storage capability is not offered to the child its directory is in. *)
Definition offered_storage (source : option Ref) : option str :=
  match source with Some (RefStorage s) => sr_name s | _ => None end.
Definition storage_target_ok (ch cols : list str) (sts : list StorageDecl) (source : option str) (r : Ref) : Prop :=
  match r with
  | RefChild c =>
      refers ch c ∧
      ∀ n sn st, cr_name c = Some n → source = Some sn → st ∈ sts → storage_name st = Some sn → source_child st ≠ Some n
  | RefCollection c => has (λ n, ok_name n ∧ n ∈ cols) (colr_name c)
  | _ => False
  end.
Definition offer_storage_ok (ch cols : list str) (sts : list StorageDecl) (o : OfferStorageFields) : Prop :=
  os_type o ≠ None ∧
  has (λ r, match r with
            | RealmRef => True
            | RefStorage s => has (λ n, ok_name n ∧ n ∈ omap storage_name sts) (sr_name s)
            | _ => False
            end) (os_source o) ∧
  has (storage_target_ok ch cols sts (offered_storage (os_source o))) (os_target o).
Definition offer_ok (ch cols : list str) (sts : list StorageDecl) (o : OfferDecl) : Prop :=
  match o with
  | OfferService o | OfferDirectory o => offer_fields_ok ch cols o
  | OfferStorage o => offer_storage_ok ch cols sts o
  | UnknownOffer _ => False
  end.
(** The target of a service or directory, a child or a collection, and its path there. *)
Definition offer_fields (o : OfferDecl) : option OfferFields :=
  match o with OfferService o | OfferDirectory o => Some o | _ => None end.
Definition to_child (o : OfferFields) : option (str * str) :=
  match o_target o, o_target_path o with
  | Some (RefChild c), Some p => match cr_name c with Some n => Some (n, p) | None => None end
  | _, _ => None
  end.
Definition to_collection (o : OfferFields) : option (str * str) :=
  match o_target o, o_target_path o with
  | Some (RefCollection c), Some p => match colr_name c with Some n => Some (n, p) | None => None end
  | _, _ => None
  end.
Definition child_target (o : OfferDecl) : option (str * str) :=
  match offer_fields o with Some o => to_child o | None => None end.
Definition collection_target (o : OfferDecl) : option (str * str) :=
  match offer_fields o with Some o => to_collection o | None => None end.

Abbreviation items l := (default [] l).
Record decl_ok {D : Type} (d : ComponentDecl D) : Prop := {
  d_children : Forall child_ok (items (children d));
  d_children_once : NoDup (omap child_name (items (children d)));
  d_collections : Forall collection_ok (items (collections d));
  d_collections_once : NoDup (omap collection_name (items (collections d)));
  d_storage : Forall (storage_ok (omap child_name (items (children d)))) (items (storage d));
  d_storage_once : NoDup (omap storage_name (items (storage d)));
  d_uses : Forall use_ok (items (uses d));
  d_exposes : Forall (expose_ok (omap child_name (items (children d)))) (items (exposes d));
  d_exposes_once : NoDup (omap expose_path (items (exposes d)));
  d_offers : Forall (offer_ok (omap child_name (items (children d))) (omap collection_name (items (collections d)))
    (items (storage d))) (items (offers d));
  d_child_targets_once : NoDup (omap child_target (items (offers d)));
  d_collection_targets_once : NoDup (omap collection_target (items (offers d))) }.

(** * Validators only add errors *)
Definition grows {A : Type} (m : M Empty_set ValidationContext A) : Prop :=
  ∀ s, errors s `prefix_of` errors (snd (m s)).
Create HintDb grows.
Lemma grows_reading {A} (f : ValidationContext → result Empty_set A) : grows (reading f).
Proof. intros s. reflexivity. Qed.
Lemma grows_ret {A} (a : A) : grows (ret a).
Proof. intros s. reflexivity. Qed.
Lemma grows_lift {A} (r : result Empty_set A) : grows (lift r).
Proof. intros s. reflexivity. Qed.
Lemma grows_bind {A B} (m : M Empty_set ValidationContext A) (k : A → M Empty_set ValidationContext B) :
  grows m → (∀ a, grows (k a)) → grows (m' <- m ;; k m').
Proof.
  intros Hm Hk s. specialize (Hm s). unfold bind. destruct (m s) as [[a|e| |] s'] eqn:E; try done.
  etrans; [done|apply Hk].
Qed.
Lemma grows_push e : grows (push e).
Proof. intros s. cbn. by apply prefix_app_r. Qed.
#[export] Hint Resolve grows_reading grows_ret grows_lift grows_bind grows_push : grows.

(** [m] runs from [s] without an error, as [Q] says. *)
Definition quiet {A : Type} (m : M Empty_set ValidationContext A) (s : ValidationContext) (Q : A → ValidationContext → Prop) : Prop :=
  ∃ a s', m s = (Ok a, s') ∧ errors s' = errors s ∧ Q a s'.
Lemma quiet_ret {A} (a : A) s Q : quiet (ret a) s Q ↔ Q a s.
Proof. split; [by intros (?&?&[= <- <-]&_&?)|]. intros. by exists a, s. Qed.
Lemma quiet_push e s Q : quiet (push e) s Q ↔ False.
Proof.
  split; [|done]. intros (?&?&[= <- <-]&H&_). cbn in H. apply (f_equal length) in H. rewrite length_app in H. cbn in H. lia.
Qed.
Lemma quiet_bind {A B} (m : M Empty_set ValidationContext A) (k : A → M Empty_set ValidationContext B) s Q :
  grows m → (∀ a, grows (k a)) → quiet (m' <- m ;; k m') s Q ↔ quiet m s (λ a s', quiet (k a) s' Q).
Proof.
  intros Hm Hk. unfold quiet, bind. split.
  - intros (b&s2&H&He&HQ). pose proof (Hm s) as Hg. destruct (m s) as [[a|e| |] s1] eqn:E; try done. cbn in Hg.
    pose proof (Hk a s1) as Hg'. rewrite H in Hg'. cbn in Hg'.
    assert (errors s1 = errors s) as He1 by (symmetry; apply prefix_length_eq; [done|rewrite <- He; by apply prefix_length]).
    exists a, s1. split_and!; [done..|]. exists b, s2. split_and!; [done|congruence|done].
  - intros (a&s1&H1&He1&b&s2&H2&He2&HQ). exists b, s2. rewrite H1. split_and!; [done|congruence|done].
Qed.
Lemma quiet_iff {A} (m : M Empty_set ValidationContext A) s Q Q' :
  (∀ a s', Q a s' ↔ Q' a s') → quiet m s Q ↔ quiet m s Q'.
Proof. intros H. unfold quiet. by setoid_rewrite H. Qed.

Section valid.
Context `{RX : !Regex, RS : !RegexSpec}.

Definition ok_field (id : Identifier) (x : str) : Prop := is_match (re id) x = true ∧ zlen x ≤ max_len id.
Lemma ok_PATH x : ok_field PATH x ↔ ok_path x.
Proof. unfold ok_field. cbn. by rewrite match_path. Qed.
Lemma ok_NAME x : ok_field NAME x ↔ ok_name x.
Proof. unfold ok_field. cbn. by rewrite match_name. Qed.
Lemma ok_URL x : ok_field URL x ↔ ok_url x.
Proof. unfold ok_field. cbn. by rewrite match_url. Qed.
Lemma has_iff {A} (P Q : A → Prop) o : (∀ x, P x ↔ Q x) → has P o ↔ has Q o.
Proof. intros H. unfold has. by setoid_rewrite H. Qed.
Lemma has_some {A} (P : A → Prop) x : has P (Some x) ↔ P x.
Proof. unfold has. naive_solver. Qed.
Lemma has_none {A} (P : A → Prop) : has P None ↔ False.
Proof. unfold has. naive_solver. Qed.

(** A check says whether the field is there and well formed, and adds errors when it is not. *)
Lemma check_spec id prop d k es :
  ∃ new, check id prop d k es = (match new with [] => true | _ => false end, es ++ new) ∧ (new = [] ↔ has (ok_field id) prop).
Proof.
  unfold check, ok_field. destruct prop as [x|]; [|exists [MissingField d k]; rewrite has_none; split; [done|split; done]].
  destruct (is_match (re id) x) eqn:Em, (Z.ltb_spec (max_len id) (zlen x)) as [Hl|Hl]; cbn.
  - exists [FieldTooLong d k]. rewrite has_some. split; [done|]. split; [done|]. intros [_ ?]. lia.
  - exists []. rewrite app_nil_r, has_some. done.
  - exists [InvalidField d k; FieldTooLong d k]. rewrite <- app_assoc, has_some. split; [done|]. split; [done|]. intros [? _]. congruence.
  - exists [InvalidField d k]. rewrite has_some. split; [done|]. split; [done|]. intros [? _]. congruence.
Qed.
Lemma grows_check id prop d k : grows (check_field id prop d k).
Proof.
  intros s. unfold check_field. destruct (check_spec id prop d k (errors s)) as (new&->&_). by apply prefix_app_r.
Qed.
Lemma quiet_check id prop d k s (Q : bool → ValidationContext → Prop) :
  quiet (check_field id prop d k) s Q ↔ has (ok_field id) prop ∧ Q true s.
Proof.
  unfold quiet, check_field. destruct (check_spec id prop d k (errors s)) as (new&->&Hnew). split.
  - intros (a&s'&[= <- <-]&He&HQ). cbn in He. rewrite <- (app_nil_r (errors s)) in He at 2. apply app_inv_head in He. subst new.
    split; [by apply Hnew|]. rewrite app_nil_r in HQ. by destruct s.
  - intros [Hh HQ]. apply Hnew in Hh. subst new. eexists _, _. split; [done|]. cbn. rewrite app_nil_r. by destruct s.
Qed.

(** The other steps do not change the errors. *)
Lemma quiet_step {A} (f : ValidationContext → A) (g : ValidationContext → ValidationContext) s (Q : A → ValidationContext → Prop) :
  errors (g s) = errors s → quiet (λ s, (Ok (f s), g s)) s Q ↔ Q (f s) (g s).
Proof. intros He. split; [by intros (?&?&[= <- <-]&_&?)|]. intros. by eexists _, _. Qed.
Lemma grows_step {A} (f : ValidationContext → A) (g : ValidationContext → ValidationContext) :
  (∀ s, errors (g s) = errors s) → grows (λ s, (Ok (f s), g s)).
Proof. intros H s. cbn. by rewrite H. Qed.
Lemma grows_insert_child x : grows (insert_child x).
Proof. by apply grows_step. Qed.
Lemma grows_insert_collection x : grows (insert_collection x).
Proof. by apply grows_step. Qed.
Lemma grows_insert_storage x o : grows (insert_storage x o).
Proof. by apply grows_step. Qed.
Lemma grows_insert_child_path t p : grows (insert_child_path t p).
Proof. by apply grows_step. Qed.
Lemma grows_insert_collection_path t p : grows (insert_collection_path t p).
Proof. by apply grows_step. Qed.
End valid.
#[export] Hint Resolve grows_check grows_insert_child grows_insert_collection grows_insert_storage grows_insert_child_path grows_insert_collection_path : grows.

(** Goals [grows m] by the shape of [m]. *)
Ltac grow :=
  repeat first
    [ progress intros
    | solve [eauto 2 with grows nocore]
    | apply grows_bind
    | match goal with |- grows (match ?x with _ => _ end) => destruct x end
    | match goal with |- grows (?f _) => unfold f | |- grows (?f _ _) => unfold f | |- grows (?f _ _ _) => unfold f
      | |- grows (?f _ _ _ _) => unfold f | |- grows (?f _ _ _ _ _) => unfold f end ].
(** One step of [quiet] into a sequence. *)
Ltac qbind := rewrite quiet_bind by grow; cbn beta.
Ltac qcheck := qbind; rewrite quiet_check; cbn beta.

Section fields.
Context `{RX : !Regex, RS : !RegexSpec}.
Lemma quiet_lift {A} (x : A) (s' : ValidationContext) (Q : A → ValidationContext → Prop) : quiet (lift (Ok x)) s' Q ↔ Q x s'.
Proof. apply quiet_ret. Qed.
Lemma quiet_unless (b : bool) e (s' : ValidationContext) (Q : unit → ValidationContext → Prop) :
  quiet (if b then ret tt else push e) s' Q ↔ b = true ∧ Q tt s'.
Proof. destruct b; [rewrite quiet_ret|rewrite quiet_push]; naive_solver. Qed.
Lemma quiet_new (b : bool) e (s' : ValidationContext) (P : Prop) `{!Decision P} (Q : unit → ValidationContext → Prop) :
  b = negb (bool_decide P) → quiet (if b then ret tt else push e) s' Q ↔ ¬ P ∧ Q tt s'.
Proof. intros ->. rewrite quiet_unless, negb_true_iff, bool_decide_eq_false. done. Qed.
Lemma quiet_false {A} (m : M Empty_set ValidationContext A) (s' : ValidationContext) Q :
  (∀ a s', ¬ Q a s') → quiet m s' Q ↔ False.
Proof. intros H. split; [|done]. intros (?&?&_&_&HQ). by apply H in HQ. Qed.
Lemma quiet_path (prop : option str) d k (s' : ValidationContext) (Q : bool → ValidationContext → Prop) :
  quiet (check_field PATH prop d k) s' Q ↔ has ok_path prop ∧ Q true s'.
Proof. rewrite quiet_check. by rewrite (has_iff _ _ prop ok_PATH). Qed.
Lemma quiet_name (prop : option str) d k (s' : ValidationContext) (Q : bool → ValidationContext → Prop) :
  quiet (check_field NAME prop d k) s' Q ↔ has ok_name prop ∧ Q true s'.
Proof. rewrite quiet_check. by rewrite (has_iff _ _ prop ok_NAME). Qed.
Lemma quiet_use_fields d u (s' : ValidationContext) (Q : unit → ValidationContext → Prop) :
  quiet (validate_use_fields d (u_source u) (u_source_path u) (u_target_path u)) s' Q ↔ use_fields_ok u ∧ Q tt s'.
Proof.
  unfold validate_use_fields, use_fields_ok. qbind.
  destruct (u_source u) as [[]|]; rewrite ?quiet_ret, ?quiet_push, ?has_some, ?has_none; try naive_solver.
  all: qbind; rewrite quiet_path; cbn beta; qbind; rewrite quiet_path; cbn beta; rewrite quiet_ret; naive_solver.
Qed.
Lemma quiet_use u (s' : ValidationContext) (Q : unit → ValidationContext → Prop) :
  quiet (validate_use_decl u) s' Q ↔ use_ok u ∧ Q tt s'.
Proof.
  destruct u as [u|u|u|]; cbn; [apply quiet_use_fields|apply quiet_use_fields| |rewrite quiet_push; naive_solver].
  destruct (us_type u) as [[]|]; rewrite ?has_some, ?has_none, ?quiet_push; try naive_solver.
  - qbind. rewrite quiet_path. cbn beta. by rewrite quiet_ret.
  - qbind. rewrite quiet_path. cbn beta. by rewrite quiet_ret.
  - destruct (us_target_path u); rewrite ?quiet_push, ?quiet_ret; naive_solver.
Qed.
End fields.

(** What the path maps hold, and what a target adds. *)
Definition offered (m : gmap str (gset str)) (t : str * str) : Prop := t.2 ∈ (default ∅ (m !! t.1) : gset str).
#[export] Instance offered_dec m t : Decision (offered m t).
Proof. unfold offered. apply _. Defined.
Definition add_child (t : option (str * str)) (s : ValidationContext) : ValidationContext :=
  match t with Some t => with_child_paths (insert_path (child_target_paths s) t.1 t.2).2 s | None => s end.
Definition add_collection (t : option (str * str)) (s : ValidationContext) : ValidationContext :=
  match t with Some t => with_collection_paths (insert_path (collection_target_paths s) t.1 t.2).2 s | None => s end.
Definition fresh (m : gmap str (gset str)) (t : option (str * str)) : Prop := ∀ x, t = Some x → ¬ offered m x.
Lemma offered_insert m t x : offered (insert_path m t.1 t.2).2 x ↔ x = t ∨ offered m x.
Proof.
  unfold offered. destruct t as [n p], x as [n' p']. cbn. destruct (decide (n = n')) as [<-|Hn].
  - rewrite lookup_insert_eq. cbn. set_solver.
  - rewrite lookup_insert_ne by done. set_solver.
Qed.

Section steps.
Context `{RX : !Regex, RS : !RegexSpec}.
Context (s : ValidationContext) (ch cols : list str).
Context (Hch : ∀ n, n ∈ all_children s ↔ n ∈ ch) (Hcols : ∀ n, n ∈ all_collections s ↔ n ∈ cols).

Lemma quiet_has_child n (Q : bool → ValidationContext → Prop) : quiet (has_child n) s Q ↔ Q (bool_decide (n ∈ ch)) s.
Proof.
  clear Hcols.
  unfold has_child, reading. rewrite (quiet_step (λ s, bool_decide (n ∈ all_children s)) (λ s, s)) by done.
  by rewrite (bool_decide_ext _ _ (Hch n)).
Qed.
Lemma quiet_has_collection n (Q : bool → ValidationContext → Prop) : quiet (has_collection n) s Q ↔ Q (bool_decide (n ∈ cols)) s.
Proof.
  clear Hch.
  unfold has_collection, reading. rewrite (quiet_step (λ s, bool_decide (n ∈ all_collections s)) (λ s, s)) by done.
  by rewrite (bool_decide_ext _ _ (Hcols n)).
Qed.

Lemma quiet_source_child c d (Q : unit → ValidationContext → Prop) :
  quiet (validate_source_child c d) s Q ↔ refers ch c ∧ Q tt s.
Proof.
  clear Hcols.
  unfold validate_source_child, refers. qcheck. qbind.
  destruct (cr_collection c); [qbind; rewrite quiet_push; naive_solver|]. rewrite quiet_ret. cbn [andb negb].
  destruct (cr_name c) as [n|]; [|rewrite !has_none; naive_solver].
  rewrite !has_some, ok_NAME. qbind. rewrite quiet_has_child, quiet_unless. rewrite bool_decide_eq_true. naive_solver.
Qed.


Lemma quiet_expose_fields (d : string) (e : ExposeFields) (paths : gset str) (Q : gset str → ValidationContext → Prop) :
  quiet (validate_expose_fields d (e_source e) (e_source_path e) (e_target_path e) paths) s Q ↔
  expose_fields_ok ch e ∧ (∃ p, e_target_path e = Some p ∧ (p ∉ paths) ∧ Q ({[p]} ∪ paths) s).
Proof.
  clear Hcols.
  unfold validate_expose_fields, expose_fields_ok.
  match goal with |- quiet (bind ?m ?k) s Q ↔ _ =>
    assert (quiet (bind m k) s Q ↔
      has (λ r, match r with SelfRef => True | RefChild c => refers ch c | _ => False end) (e_source e) ∧ quiet (k tt) s Q) as ->
  end.
  { qbind. destruct (e_source e) as [[]|]; rewrite ?quiet_ret, ?quiet_push, ?has_some, ?has_none, ?quiet_source_child; naive_solver. }
  cbn beta. qbind. rewrite quiet_path. cbn beta. qbind. rewrite quiet_path. cbn beta.
  destruct (e_target_path e) as [p|]; [|rewrite has_none; naive_solver]. rewrite has_some. cbn [ounwrap]. qbind. rewrite quiet_lift.
  qbind. case_bool_decide as Hp; [rewrite quiet_push; naive_solver|]. rewrite !quiet_ret. naive_solver.
Qed.
Lemma quiet_expose (e : ExposeDecl) (paths : gset str) (Q : gset str → ValidationContext → Prop) :
  quiet (validate_expose_decl e paths) s Q ↔
  expose_ok ch e ∧ (∃ p, expose_path e = Some p ∧ (p ∉ paths) ∧ Q ({[p]} ∪ paths) s).
Proof.
  clear Hcols.
  destruct e as [e|e|]; cbn; [apply quiet_expose_fields|apply quiet_expose_fields|]. qbind. rewrite quiet_push. naive_solver.
Qed.
Lemma quiet_exposes (l : list ExposeDecl) (paths : gset str) (Q : unit → ValidationContext → Prop) :
  quiet (for_exposes l paths) s Q ↔
  Forall (expose_ok ch) l ∧ NoDup (omap expose_path l) ∧ (∀ p, p ∈ omap expose_path l → p ∉ paths) ∧ Q tt s.
Proof.
  clear Hcols.
  revert paths. induction l as [|e l IH]; intros paths; cbn [for_exposes].
  { rewrite quiet_ret. cbn. split; [|naive_solver]. intros ?. split_and!; [constructor|constructor|set_solver|done]. }
  rewrite quiet_bind; [|grow|]. 2: { intros a. clear. revert a. induction l as [|e' l IH]; intros a; cbn; grow. }
  rewrite quiet_expose, Forall_cons. cbn. split.
  - intros [He (p&Hp&Hn&H)]. apply IH in H as (Hl&Hd&Hx&HQ). rewrite Hp. split_and!; [done|done|constructor; [|done]|set_solver|done].
    intros Hin. apply (Hx p Hin). set_solver.
  - intros ([He Hl]&Hd&Hx&HQ). split; [done|].
    assert (∃ p, expose_path e = Some p) as [p Hp].
    { destruct e as [e|e|]; cbn in He; [destruct He as (_&_&(p&?&_)); eauto..|done]. }
    rewrite Hp in Hd, Hx. apply NoDup_cons in Hd as [Hd1 Hd2]. exists p. split_and!; [done|apply Hx; set_solver|].
    apply IH. split_and!; [done|done| |done]. intros q Hq [->%elem_of_singleton|?]%elem_of_union; [done|]. by apply (Hx q); [right|].
Qed.

(** * Storage and offers *)
Lemma quiet_storage_source (sts : list StorageDecl) src d (Q : unit → ValidationContext → Prop) :
  (∀ n, is_Some (all_storage_and_sources s !! n) ↔ n ∈ omap storage_name sts) →
  quiet (validate_storage_source src d) s Q ↔ has (λ n, ok_name n ∧ n ∈ omap storage_name sts) (sr_name src) ∧ Q tt s.
Proof.
  intros Hst. unfold validate_storage_source. qbind. rewrite quiet_name. cbn beta.
  destruct (sr_name src) as [n|]; [|rewrite !has_none; naive_solver]. rewrite !has_some, <- Hst. qbind.
  unfold storage_source_of, reading. rewrite (quiet_step (λ s, all_storage_and_sources s !! n) (λ s, s)) by done. cbn beta.
  destruct (all_storage_and_sources s !! n); rewrite ?quiet_ret, ?quiet_push; [naive_solver|].
  split; [by intros [_ ?]|]. by intros [[_ [? ?]] _].
Qed.
Lemma quiet_storage_target (sts : list StorageDecl) d source target (Q : unit → ValidationContext → Prop) :
  (∀ n x, all_storage_and_sources s !! n = Some x ↔ ∃ st, st ∈ sts ∧ storage_name st = Some n ∧ source_child st = x) →
  quiet (validate_storage_target d source target) s Q ↔
  has (storage_target_ok ch cols sts source) target ∧ Q tt s.
Proof.
  intros Hst. unfold validate_storage_target, storage_target_ok.
  destruct target as [[| |c|c| | |]|]; rewrite ?has_some, ?has_none, ?quiet_push; try tauto.
  - qbind. rewrite quiet_name. cbn [negb]. unfold refers.
    destruct (cr_name c) as [n|]; [|rewrite !has_none; tauto]. rewrite !has_some.
    destruct (cr_collection c); [rewrite quiet_push; intuition congruence|]. cbn [ounwrap]. qbind. rewrite quiet_lift. qbind.
    rewrite quiet_has_child. qbind. rewrite quiet_unless, bool_decide_eq_true.
    destruct source as [sn|]; [|rewrite quiet_ret; split; [intros (?&?&?); split_and!; [tauto..|done|done]|tauto]]. qbind.
    unfold storage_source_of, reading. rewrite (quiet_step (λ s, all_storage_and_sources s !! sn) (λ s, s)) by done. cbn beta.
    case_bool_decide as Hs; rewrite ?quiet_push, ?quiet_ret.
    + apply Hst in Hs as (st&?&?&?). split; [tauto|]. intros ((_&Hno)&_). by destruct (Hno n sn st).
    + split; [|tauto]. intros (?&?&?). split_and!; [tauto..| |done]. intros n' sn' st [= <-] [= <-] ? ? He.
      apply Hs, Hst. eauto.
  - qbind. rewrite quiet_name. cbn [negb]. destruct (colr_name c) as [n|]; [|rewrite !has_none; tauto]. rewrite !has_some.
    cbn [ounwrap]. qbind. rewrite quiet_lift. qbind. rewrite quiet_has_collection, quiet_unless, bool_decide_eq_true. tauto.
Qed.
Lemma quiet_storage_offer (sts : list StorageDecl) d o (Q : unit → ValidationContext → Prop) :
  (∀ n x, all_storage_and_sources s !! n = Some x ↔ ∃ st, st ∈ sts ∧ storage_name st = Some n ∧ source_child st = x) →
  quiet (validate_storage_offer_fields d (os_type o) (os_source o) (os_target o)) s Q ↔ offer_storage_ok ch cols sts o ∧ Q tt s.
Proof.
  intros Hst. unfold validate_storage_offer_fields, offer_storage_ok. qbind.
  destruct (os_type o); [rewrite quiet_ret|rewrite quiet_push; tauto]. qbind.
  destruct (os_source o) as [[| | | |src| |]|]; rewrite ?has_some, ?has_none; try (qbind; rewrite quiet_push; tauto).
  - rewrite quiet_ret, (quiet_storage_target sts) by done. cbn [offered_storage]. intuition done.
  - qbind. rewrite (quiet_storage_source sts), quiet_ret, (quiet_storage_target sts); [cbn [offered_storage]; intuition done|done|].
    intros n. split.
    + intros [x (st&?&?&_)%Hst]. apply list_elem_of_omap. eauto.
    + intros (st&?&?)%list_elem_of_omap. exists (source_child st). apply Hst. eauto.
Qed.

Lemma quiet_insert_child_path n p (Q : bool → ValidationContext → Prop) :
  quiet (insert_child_path n p) s Q ↔ Q (negb (bool_decide (offered (child_target_paths s) (n, p)))) (add_child (Some (n, p)) s).
Proof. by apply (quiet_step (λ s, negb (bool_decide (offered (child_target_paths s) (n, p)))) (add_child (Some (n, p)))). Qed.
Lemma quiet_insert_collection_path n p (Q : bool → ValidationContext → Prop) :
  quiet (insert_collection_path n p) s Q ↔
  Q (negb (bool_decide (offered (collection_target_paths s) (n, p)))) (add_collection (Some (n, p)) s).
Proof.
  by apply (quiet_step (λ s, negb (bool_decide (offered (collection_target_paths s) (n, p)))) (add_collection (Some (n, p)))).
Qed.

Lemma quiet_target_child d c src p (Q : unit → ValidationContext → Prop) :
  quiet (validate_target_child d c src (Some p)) s Q ↔
  (refers ch c ∧ ∀ n, cr_name c = Some n → not_source n src) ∧
  ∃ n, cr_name c = Some n ∧ ¬ offered (child_target_paths s) (n, p) ∧ Q tt (add_child (Some (n, p)) s).
Proof.
  unfold validate_target_child, refers. qbind. rewrite quiet_name. qbind.
  destruct (cr_collection c); [qbind; rewrite quiet_push; intuition congruence|]. rewrite quiet_ret. cbn [andb negb].
  destruct (cr_name c) as [n|]; [|rewrite !has_none; tauto]. rewrite !has_some. cbn [ounwrap]. qbind. rewrite quiet_lift.
  qbind. rewrite quiet_has_child. qbind. rewrite quiet_unless, bool_decide_eq_true. qbind. rewrite quiet_insert_child_path. qbind.
  rewrite (quiet_new _ _ _ (offered (child_target_paths s) (n, p))) by done.
  match goal with |- context [quiet ?m ?s' Q] =>
    assert (quiet m s' Q ↔ not_source n src ∧ Q tt s') as ->
  end.
  { unfold not_source. destruct src as [[| |c'| | | |]|]; rewrite ?quiet_ret; try naive_solver.
    destruct (cr_name c') as [n'|] eqn:En; [case_bool_decide; rewrite ?quiet_push|]; rewrite ?quiet_ret; naive_solver. }
  split; [intros (?&?&?&?&?); split_and!; [tauto..|by intros ? [= <-]|eauto]|].
  intros [[[? _] Hn] (n'&[= <-]&?&?)]. specialize (Hn n eq_refl). tauto.
Qed.
Lemma quiet_target_collection d c p (Q : unit → ValidationContext → Prop) :
  quiet (validate_target_collection d c (Some p)) s Q ↔
  has (λ n, ok_name n ∧ n ∈ cols) (colr_name c) ∧
  ∃ n, colr_name c = Some n ∧ ¬ offered (collection_target_paths s) (n, p) ∧ Q tt (add_collection (Some (n, p)) s).
Proof.
  unfold validate_target_collection. qbind. rewrite quiet_name. cbn [negb].
  destruct (colr_name c) as [n|]; [|rewrite !has_none; tauto]. rewrite !has_some. cbn [ounwrap]. qbind. rewrite quiet_lift.
  qbind. rewrite quiet_has_collection. qbind. rewrite quiet_unless, bool_decide_eq_true. qbind. rewrite quiet_insert_collection_path.
  rewrite (quiet_new _ _ _ (offered (collection_target_paths s) (n, p))) by done.
  split; [intros (?&?&?&?); split_and!; [tauto..|eauto]|]. intros [[? ?] (n'&[= <-]&?&?)]. tauto.
Qed.

Lemma quiet_offer_fields d o (Q : unit → ValidationContext → Prop) :
  quiet (validate_offers_fields d (o_source o) (o_source_path o) (o_target o) (o_target_path o)) s Q ↔
  offer_fields_ok ch cols o ∧ fresh (child_target_paths s) (to_child o) ∧ fresh (collection_target_paths s) (to_collection o) ∧
  Q tt (add_collection (to_collection o) (add_child (to_child o) s)).
Proof.
  unfold validate_offers_fields, offer_fields_ok, to_child, to_collection, fresh.
  match goal with |- quiet (bind ?m ?k) s Q ↔ _ =>
    assert (quiet (bind m k) s Q ↔
      has (λ r, match r with RealmRef | SelfRef => True | RefChild c => refers ch c | _ => False end) (o_source o) ∧ quiet (k tt) s Q) as ->
  end.
  { qbind. destruct (o_source o) as [[]|]; rewrite ?quiet_ret, ?quiet_push, ?has_some, ?has_none, ?quiet_source_child; tauto. }
  cbn beta. qbind. rewrite quiet_path. cbn beta. qbind.
  destruct (o_target_path o) as [p|].
  2: { rewrite quiet_false; [rewrite !has_none; tauto|]. intros a s'. qbind. rewrite quiet_path, has_none. tauto. }
  rewrite (quiet_iff _ _ _ (λ _ s', ok_path p ∧ Q tt s')) by (intros; qbind; rewrite quiet_path, quiet_ret, has_some; done).
  destruct (o_target o) as [[| |c|c| | |]|]; rewrite ?quiet_push, ?has_none, ?has_some; try tauto.
  - rewrite quiet_target_child. split.
    + intros (?&?&[? ?]&n&En&?&?&?). rewrite En in *. split_and!; [tauto..|by intros ? [= <-]|done|done].
    + intros ((?&?&?&?)&Hf&_&HQ). split_and!; [tauto..|]. assert (∃ n, cr_name c = Some n) as [n En].
      { destruct_and!. unfold refers, has in *. naive_solver. }
      rewrite En in *. exists n. split_and!; [done|by apply Hf|done|done].
  - rewrite quiet_target_collection. split.
    + intros (?&?&?&n&En&?&?&?). rewrite En in *. split_and!; [tauto..|done|by intros ? [= <-]|done].
    + intros ((?&?&Hc&?)&_&Hf&HQ). split_and!; [tauto..|]. destruct Hc as (n&En&_).
      rewrite En in *. exists n. split_and!; [done|by apply Hf|done|done].
Qed.
Lemma quiet_offer (sts : list StorageDecl) o (Q : unit → ValidationContext → Prop) :
  (∀ n x, all_storage_and_sources s !! n = Some x ↔ ∃ st, st ∈ sts ∧ storage_name st = Some n ∧ source_child st = x) →
  quiet (validate_offers_decl o) s Q ↔
  offer_ok ch cols sts o ∧ fresh (child_target_paths s) (child_target o) ∧
  fresh (collection_target_paths s) (collection_target o) ∧ Q tt (add_collection (collection_target o) (add_child (child_target o) s)).
Proof.
  intros Hst. unfold child_target, collection_target.
  destruct o as [o|o|o|]; cbn [validate_offers_decl offer_ok offer_fields]; [apply quiet_offer_fields..| |rewrite quiet_push; tauto].
  rewrite (quiet_storage_offer sts) by done. unfold fresh. cbn. intuition done.
Qed.
End steps.

(** * The lists of a declaration *)
Lemma grows_for_each {A} (f : A → M Empty_set ValidationContext unit) l : (∀ x, grows (f x)) → grows (for_each f l).
Proof. intros Hf. induction l; cbn; [apply grows_ret|]. by apply grows_bind. Qed.
(** Targets are offered once: what is new to the map, and what is new in the rest of the list. *)
Lemma fresh_cons (m m' : gmap str (gset str)) (t : option (str * str)) (ts : list (str * str)) :
  m' = match t with Some t => (insert_path m t.1 t.2).2 | None => m end →
  fresh m t ∧ NoDup ts ∧ (∀ x, x ∈ ts → ¬ offered m' x) ↔
  NoDup (match t with Some t => t :: ts | None => ts end) ∧
  (∀ x, x ∈ match t with Some t => t :: ts | None => ts end → ¬ offered m x).
Proof.
  intros ->. unfold fresh. destruct t as [t|]; [|naive_solver]. rewrite NoDup_cons.
  pose proof (offered_insert m t) as Hi. set (m' := (insert_path m t.1 t.2).2) in *. clearbody m'. split.
  - intros (Hf&Hd&Hn). split_and!; [|done|].
    + intros Hin. apply (Hn t Hin), Hi. by left.
    + intros x [->|Hx]%elem_of_cons; [by apply Hf|]. intros ?. apply (Hn x Hx), Hi. by right.
  - intros ([Ht Hd]&Hn). split_and!; [intros ? [= <-]; apply Hn; left|done|].
    intros x Hx [->|?]%Hi; [done|]. apply (Hn x); [by right|done].
Qed.

Section lists.
Context `{RX : !Regex, RS : !RegexSpec}.
Lemma quiet_offers (ch cols : list str) (sts : list StorageDecl) (l : list OfferDecl) (s : ValidationContext) :
  (∀ n, n ∈ all_children s ↔ n ∈ ch) → (∀ n, n ∈ all_collections s ↔ n ∈ cols) →
  (∀ n x, all_storage_and_sources s !! n = Some x ↔ ∃ st, st ∈ sts ∧ storage_name st = Some n ∧ source_child st = x) →
  quiet (for_each validate_offers_decl l) s (λ _ _, True) ↔
  Forall (offer_ok ch cols sts) l ∧
  (NoDup (omap child_target l) ∧ ∀ x, x ∈ omap child_target l → ¬ offered (child_target_paths s) x) ∧
  (NoDup (omap collection_target l) ∧ ∀ x, x ∈ omap collection_target l → ¬ offered (collection_target_paths s) x).
Proof.
  revert s. induction l as [|o l IH]; intros s Hch Hcols Hst; cbn [for_each].
  { rewrite quiet_ret. cbn. split; [|done]. intros _. split_and!; try constructor; intros x Hx; by apply not_elem_of_nil in Hx. }
  rewrite quiet_bind; [|grow|intros; apply grows_for_each; grow].
  rewrite (quiet_offer s ch cols Hch Hcols sts) by done. cbn beta.
  set (s' := add_collection _ _).
  assert (child_target_paths s' = match child_target o with Some t => (insert_path (child_target_paths s) t.1 t.2).2
    | None => child_target_paths s end) as E1 by (by subst s'; destruct (child_target o), (collection_target o)).
  assert (collection_target_paths s' = match collection_target o with Some t => (insert_path (collection_target_paths s) t.1 t.2).2
    | None => collection_target_paths s end) as E2 by (by subst s'; destruct (child_target o), (collection_target o)).
  rewrite IH; [|by subst s'; destruct (child_target o), (collection_target o)..].
  rewrite Forall_cons. cbn [omap list_omap]. rewrite <- (fresh_cons _ _ _ _ E1), <- (fresh_cons _ _ _ _ E2). tauto.
Qed.
(** The names of a list are new, one after the other. *)
Lemma names_cons (A : Type) (f : A → option str) (x : A) (l : list A) n (known : str → Prop) :
  f x = Some n →
  NoDup (omap f (x :: l)) ∧ (∀ m, m ∈ omap f (x :: l) → ¬ known m) ↔
  ¬ known n ∧ NoDup (omap f l) ∧ (∀ m, m ∈ omap f l → ¬ (m = n ∨ known m)).
Proof. intros E. cbn. rewrite E, NoDup_cons. setoid_rewrite elem_of_cons. naive_solver. Qed.

Lemma validate_child_ok c : validate_child c = [] ↔ child_ok c.
Proof.
  unfold validate_child, child_ok.
  destruct (check_spec NAME (child_name c) "ChildDecl" "name" []) as (e1&->&H1). cbn [app].
  destruct (check_spec URL (child_url c) "ChildDecl" "url" e1) as (e2&->&H2).
  rewrite (has_iff _ _ _ ok_NAME) in H1. rewrite (has_iff _ _ _ ok_URL) in H2. rewrite <- H1, <- H2.
  destruct (child_startup c); [rewrite app_nil; intuition done|]. split; [by intros [_ ?]%app_eq_nil|intuition done].
Qed.
Lemma quiet_child c (s : ValidationContext) (Q : unit → ValidationContext → Prop) :
  quiet (validate_child_decl c) s Q ↔
  child_ok c ∧ ∃ n, child_name c = Some n ∧ (n ∉ all_children s) ∧ Q tt (with_children ({[n]} ∪ all_children s) s).
Proof.
  unfold validate_child_decl. rewrite quiet_bind; [|intros s'; cbn; by apply prefix_app_r|grow].
  match goal with |- quiet _ _ ?K ↔ _ => assert (∀ s', quiet (λ s, (Ok tt, with_errors (errors s ++ validate_child c) s)) s' K ↔
    child_ok c ∧ K tt s') as -> end.
  { intros s'. rewrite <- validate_child_ok. split.
    - intros (?&?&[= <- <-]&He&HQ). cbn in He. rewrite <- (app_nil_r (errors s')) in He at 2. apply app_inv_head in He.
      split; [done|]. rewrite He, app_nil_r in HQ. by destruct s'.
    - intros [He HQ]. eexists _, _. split; [done|]. cbn. rewrite He, app_nil_r. by destruct s'. }
  destruct (child_name c) as [n|] eqn:En; [|unfold child_ok; rewrite En, has_none; naive_solver].
  qbind. unfold insert_child. rewrite quiet_step by done.
  rewrite (quiet_new _ _ _ (n ∈ all_children s)) by done. naive_solver.
Qed.
Lemma quiet_collection c (s : ValidationContext) (Q : unit → ValidationContext → Prop) :
  quiet (validate_collection_decl c) s Q ↔
  collection_ok c ∧ ∃ n, collection_name c = Some n ∧ (n ∉ all_collections s) ∧
    Q tt (with_collections ({[n]} ∪ all_collections s) s).
Proof.
  unfold validate_collection_decl, collection_ok. qbind. rewrite quiet_name. cbn beta. qbind.
  destruct (collection_name c) as [n|]; [|rewrite has_none; naive_solver]. rewrite has_some. cbn [ounwrap]. qbind. rewrite quiet_lift.
  qbind. unfold insert_collection. rewrite quiet_step by done. rewrite (quiet_new _ _ _ (n ∈ all_collections s)) by done.
  destruct (collection_durability c); rewrite ?quiet_push, ?quiet_ret; naive_solver.
Qed.
Lemma quiet_storage (ch : list str) st (s : ValidationContext) (Q : unit → ValidationContext → Prop) :
  (∀ n, n ∈ all_children s ↔ n ∈ ch) →
  quiet (validate_storage_decl st) s Q ↔
  storage_ok ch st ∧ ∃ n, storage_name st = Some n ∧ ¬ is_Some (all_storage_and_sources s !! n) ∧
    Q tt (with_storage (<[n := source_child st]> (all_storage_and_sources s)) s).
Proof.
  intros Hch. unfold validate_storage_decl, storage_ok, source_child. qbind. rewrite quiet_path. cbn beta.
  match goal with |- _ ∧ quiet (bind ?m ?k) s Q ↔ _ =>
    assert (quiet (bind m k) s Q ↔
      has (λ r, match r with RealmRef | SelfRef => True | RefChild c => refers ch c | _ => False end) (storage_source st) ∧
      quiet (k (source_child st)) s Q) as ->
  end.
  { qbind. unfold source_child. destruct (storage_source st) as [[]|]; rewrite ?quiet_ret, ?has_some, ?has_none; try tauto.
    all: try (qbind; rewrite quiet_push; tauto). qbind. rewrite (quiet_source_child s ch) by done. by rewrite quiet_ret. }
  cbn beta. fold (source_child st). qbind. rewrite quiet_name. cbn beta.
  destruct (storage_name st) as [n|]; [|rewrite has_none; naive_solver]. rewrite has_some. cbn [ounwrap]. qbind. rewrite quiet_lift.
  qbind. unfold insert_storage. rewrite quiet_step by done.
  rewrite (quiet_new _ _ _ (is_Some (all_storage_and_sources s !! n))) by done. naive_solver.
Qed.

(** A list whose items each add a new name. *)
Section named.
Context {A : Type} (f : A → M Empty_set ValidationContext unit) (ok : A → Prop) (name : A → option str).
Context (inv : ValidationContext → Prop) (known : ValidationContext → str → Prop) (next : A → str → ValidationContext → ValidationContext).
Context (Hgrows : ∀ x, grows (f x)) (Hname : ∀ x, ok x → is_Some (name x)).
Context (Hquiet : ∀ x s Q, inv s → quiet (f x) s Q ↔ ok x ∧ ∃ n, name x = Some n ∧ ¬ known s n ∧ Q tt (next x n s)).
Context (Hinv : ∀ x n s, inv s → inv (next x n s)) (Hnext : ∀ x n s m, known (next x n s) m ↔ m = n ∨ known s m).
Definition after (l : list A) (s : ValidationContext) : ValidationContext :=
  foldl (λ s x, match name x with Some n => next x n s | None => s end) s l.
Lemma quiet_named (l : list A) s (Q : unit → ValidationContext → Prop) :
  inv s →
  quiet (for_each f l) s Q ↔
  Forall ok l ∧ (NoDup (omap name l) ∧ ∀ n, n ∈ omap name l → ¬ known s n) ∧ Q tt (after l s).
Proof.
  revert s. induction l as [|x l IH]; intros s Hs; cbn [for_each].
  { rewrite quiet_ret. cbn. split; [|naive_solver]. intros. split_and!; [done|constructor|set_solver|done]. }
  rewrite quiet_bind; [|done|intros; by apply grows_for_each]. rewrite Hquiet, Forall_cons by done. cbn [after foldl].
  destruct (name x) as [n|] eqn:En.
  2: { split; [naive_solver|]. intros ([Hx%Hname _]&_). rewrite En in Hx. by destruct Hx. }
  rewrite (names_cons _ name x l n (known s)) by done.
  assert (∀ P : str → Prop, (∃ n', Some n = Some n' ∧ P n') ↔ P n) as -> by naive_solver. rewrite IH by auto.
  setoid_rewrite Hnext. unfold after. tauto.
Qed.
End named.
Lemma known_after {A : Type} (name : A → option str) (known : ValidationContext → str → Prop) next :
  (∀ x n s m, known (next x n s) m ↔ m = n ∨ known s m) →
  ∀ (l : list A) s m, known (after name next l s) m ↔ m ∈ omap name l ∨ known s m.
Proof.
  intros Hnext l. induction l as [|x l IH]; intros s m; [cbn; set_solver|]. cbn. unfold after in IH. rewrite IH.
  destruct (name x); rewrite ?Hnext, ?elem_of_cons; tauto.
Qed.
Lemma after_keeps {A X : Type} (name : A → option str) next (F : ValidationContext → X) :
  (∀ x n s, F (next x n s) = F s) → ∀ l s, F (after name next l s) = F s.
Proof.
  intros H l. induction l as [|x l IH]; intros s; [done|]. cbn. unfold after in IH. rewrite IH. destruct (name x); auto.
Qed.

Definition next_child (_ : ChildDecl) (n : str) (s : ValidationContext) : ValidationContext :=
  with_children ({[n]} ∪ all_children s) s.
Definition next_collection (_ : CollectionDecl) (n : str) (s : ValidationContext) : ValidationContext :=
  with_collections ({[n]} ∪ all_collections s) s.
Definition next_storage (st : StorageDecl) (n : str) (s : ValidationContext) : ValidationContext :=
  with_storage (<[n := source_child st]> (all_storage_and_sources s)) s.
Lemma quiet_children (l : list ChildDecl) (s : ValidationContext) (Q : unit → ValidationContext → Prop) :
  quiet (for_each validate_child_decl l) s Q ↔
  Forall child_ok l ∧ (NoDup (omap child_name l) ∧ ∀ n, n ∈ omap child_name l → ¬ n ∈ all_children s) ∧
  Q tt (after child_name next_child l s).
Proof.
  apply (quiet_named validate_child_decl child_ok child_name (λ _, True) (λ s n, n ∈ all_children s) next_child); try done.
  - intros. grow. intros s'. cbn. by apply prefix_app_r.
  - intros x [(n&->&_) _]. done.
  - intros. apply quiet_child.
  - intros. cbn. set_solver.
Qed.
Lemma quiet_collections (l : list CollectionDecl) (s : ValidationContext) (Q : unit → ValidationContext → Prop) :
  quiet (for_each validate_collection_decl l) s Q ↔
  Forall collection_ok l ∧ (NoDup (omap collection_name l) ∧ ∀ n, n ∈ omap collection_name l → ¬ n ∈ all_collections s) ∧
  Q tt (after collection_name next_collection l s).
Proof.
  apply (quiet_named validate_collection_decl collection_ok collection_name (λ _, True) (λ s n, n ∈ all_collections s)
    next_collection); try done.
  - intros. grow.
  - intros x [(n&->&_) _]. done.
  - intros. apply quiet_collection.
  - intros. cbn. set_solver.
Qed.
Lemma quiet_storages (ch : list str) (l : list StorageDecl) (s : ValidationContext) (Q : unit → ValidationContext → Prop) :
  (∀ n, n ∈ all_children s ↔ n ∈ ch) →
  quiet (for_each validate_storage_decl l) s Q ↔
  Forall (storage_ok ch) l ∧ (NoDup (omap storage_name l) ∧ ∀ n, n ∈ omap storage_name l → ¬ is_Some (all_storage_and_sources s !! n)) ∧
  Q tt (after storage_name next_storage l s).
Proof.
  apply (quiet_named validate_storage_decl (storage_ok ch) storage_name (λ s, ∀ n, n ∈ all_children s ↔ n ∈ ch)
    (λ s n, is_Some (all_storage_and_sources s !! n)) next_storage); try done.
  - intros. grow.
  - intros x (_&_&(n&->&_)). done.
  - intros. by apply quiet_storage.
  - intros x n s' m. cbn. rewrite lookup_insert_is_Some. destruct (decide (m = n)); naive_solver.
Qed.
(** The sources of the storage capabilities. *)
Lemma storage_after (l : list StorageDecl) (s : ValidationContext) n x :
  NoDup (omap storage_name l) → (∀ n, n ∈ omap storage_name l → all_storage_and_sources s !! n = None) →
  all_storage_and_sources (after storage_name next_storage l s) !! n = Some x ↔
  (∃ st, st ∈ l ∧ storage_name st = Some n ∧ source_child st = x) ∨ all_storage_and_sources s !! n = Some x.
Proof.
  revert s. induction l as [|st l IH]; intros s Hd Hn; [cbn; set_solver|]. cbn in *. unfold after in IH.
  setoid_rewrite elem_of_cons. destruct (storage_name st) as [m|] eqn:Em; [|rewrite IH by done; naive_solver].
  apply NoDup_cons in Hd as [Hm Hd]. rewrite IH; [|done|].
  - cbn. destruct (decide (m = n)) as [<-|].
    + rewrite lookup_insert_eq, (Hn m) by left. split; [naive_solver|]. intros [(st'&[->|Hin]&?&<-)|]; [by right| |done].
      destruct Hm. apply list_elem_of_omap. eauto.
    + rewrite lookup_insert_ne by done. naive_solver.
  - intros n' Hn'. cbn. rewrite lookup_insert_ne by (intros ->; done). apply Hn. by right.
Qed.
Lemma quiet_uses (l : list UseDecl) (s : ValidationContext) (Q : unit → ValidationContext → Prop) :
  quiet (for_each validate_use_decl l) s Q ↔ Forall use_ok l ∧ Q tt s.
Proof.
  induction l as [|u l IH]; cbn [for_each]; [rewrite quiet_ret; naive_solver|].
  rewrite quiet_bind; [|grow|intros; apply grows_for_each; grow]. rewrite quiet_use, Forall_cons, IH. tauto.
Qed.
End lists.

(** * The validator *)
Section whole.
Context `{RX : !Regex, RS : !RegexSpec}.
Lemma in_some_for_each {A} (f : A → M Empty_set ValidationContext unit) l : in_some (for_each f) l = for_each f (items l).
Proof. by destruct l. Qed.
Lemma in_some_exposes l : in_some (λ l, for_exposes l ∅) l = for_exposes (items l) ∅.
Proof. by destruct l. Qed.
Lemma grows_child_decl c : grows (validate_child_decl c).
Proof. grow. intros s. cbn. by apply prefix_app_r. Qed.
Lemma grows_exposes l : ∀ paths, grows (for_exposes l paths).
Proof. induction l as [|e l IH]; intros paths; cbn; grow. Qed.

Ltac lbind :=
  rewrite quiet_bind;
  [cbn beta
  |repeat first [progress intros | apply grows_child_decl | apply grows_exposes | apply grows_for_each | apply grows_bind | progress grow]..].
(** What the context holds after the children, the collections and the storage. *)
Definition declared {D : Type} (d : ComponentDecl D) : ValidationContext :=
  after storage_name next_storage (items (storage d))
    (after collection_name next_collection (items (collections d)) (after child_name next_child (items (children d)) context_new)).
Lemma declared_children {D : Type} (d : ComponentDecl D) n : n ∈ all_children (declared d) ↔ n ∈ omap child_name (items (children d)).
Proof.
  unfold declared. rewrite !(after_keeps _ _ all_children) by done.
  rewrite (known_after child_name (λ s n, n ∈ all_children s)); [cbn; set_solver|cbn; set_solver].
Qed.
Lemma declared_collections {D : Type} (d : ComponentDecl D) n :
  n ∈ all_collections (declared d) ↔ n ∈ omap collection_name (items (collections d)).
Proof.
  unfold declared. rewrite (after_keeps _ _ all_collections) by done.
  rewrite (known_after collection_name (λ s n, n ∈ all_collections s)); [|cbn; set_solver].
  rewrite (after_keeps _ _ all_collections) by done. cbn. set_solver.
Qed.
Lemma declared_storage {D : Type} (d : ComponentDecl D) n x :
  NoDup (omap storage_name (items (storage d))) →
  all_storage_and_sources (declared d) !! n = Some x ↔
  ∃ st, st ∈ items (storage d) ∧ storage_name st = Some n ∧ source_child st = x.
Proof.
  intros Hd. unfold declared. rewrite storage_after; [|done|]; rewrite !(after_keeps _ _ all_storage_and_sources) by done; cbn.
  - rewrite lookup_empty. naive_solver.
  - intros. apply lookup_empty.
Qed.
Lemma quiet_rest {D : Type} (d : ComponentDecl D) :
  NoDup (omap storage_name (items (storage d))) →
  quiet (for_exposes (items (exposes d)) ∅ ;;; for_each validate_offers_decl (items (offers d))) (declared d) (λ _ _, True) ↔
  Forall (expose_ok (omap child_name (items (children d)))) (items (exposes d)) ∧ NoDup (omap expose_path (items (exposes d))) ∧
  Forall (offer_ok (omap child_name (items (children d))) (omap collection_name (items (collections d))) (items (storage d)))
    (items (offers d)) ∧
  NoDup (omap child_target (items (offers d))) ∧ NoDup (omap collection_target (items (offers d))).
Proof.
  intros Hd. lbind. rewrite (quiet_exposes _ _ (declared_children d)).
  rewrite (quiet_offers _ _ _ _ _ (declared_children d) (declared_collections d)) by (intros; by apply declared_storage).
  unfold declared. rewrite !(after_keeps _ _ child_target_paths), !(after_keeps _ _ collection_target_paths) by done. cbn.
  unfold offered. setoid_rewrite lookup_empty. set_solver.
Qed.
Lemma quiet_validate_all {D : Type} (d : ComponentDecl D) :
  quiet (validate_all d) context_new (λ _ _, True) ↔ decl_ok d.
Proof.
  unfold validate_all. rewrite !in_some_for_each, in_some_exposes. lbind. rewrite quiet_children. lbind. rewrite quiet_collections. lbind.
  rewrite (quiet_storages (omap child_name (items (children d)))).
  2: { intros n. pose proof (declared_children d n) as H. unfold declared in H. by rewrite (after_keeps _ _ all_children) in H. }
  fold (declared d). lbind. rewrite quiet_uses. rewrite !(after_keeps _ _ all_storage_and_sources), (after_keeps _ _ all_collections) by done.
  cbn [context_new all_children all_collections all_storage_and_sources]. setoid_rewrite lookup_empty. split.
  - intros (?&[? _]&?&[? _]&?&[? _]&?&Hrest). apply quiet_rest in Hrest as (?&?&?&?&?); [|done]. by constructor.
  - intros []. split_and!; try done; try set_solver. by apply quiet_rest.
Qed.

(** No validator panics: what is unwrapped has been checked. *)
Definition total {A : Type} (m : M Empty_set ValidationContext A) : Prop := ∀ s, ∃ a, (m s).1 = Ok a.
Lemma total_ret {A} (a : A) : total (ret a).
Proof. intros s. by exists a. Qed.
Lemma total_bind {A B} (m : M Empty_set ValidationContext A) (k : A → M Empty_set ValidationContext B) :
  total m → (∀ a, total (k a)) → total (x <- m ;; k x).
Proof.
  intros Hm Hk s. unfold bind. destruct (Hm s) as [a Ha]. destruct (m s) as [r s']. cbn in Ha. subst r. apply Hk.
Qed.
Lemma total_check {B} id prop d kw (k : bool → M Empty_set ValidationContext B) :
  (∀ x, prop = Some x → total (k true)) → total (k false) → total (valid <- check_field id prop d kw ;; k valid).
Proof.
  intros Ht Hf s. unfold bind, check_field. destruct (check_spec id prop d kw (errors s)) as ([|e new]&->&H).
  - destruct (proj1 H eq_refl) as (x&Hx&_). by apply (Ht x).
  - apply Hf.
Qed.
Lemma total_step {A} (f : ValidationContext → A) (g : ValidationContext → ValidationContext) : total (λ s, (Ok (f s), g s)).
Proof. intros s. by eexists. Qed.
Lemma total_for_each {A} (f : A → M Empty_set ValidationContext unit) l : (∀ x, total (f x)) → total (for_each f l).
Proof. intros Hf. induction l; cbn; [apply total_ret|]. by apply total_bind. Qed.
Lemma total_unwrap {A} (o : option A) x : o = Some x → total (lift (ounwrap o)).
Proof. intros ->. apply total_ret. Qed.
Ltac totally :=
  repeat first
    [ progress intros
    | apply total_ret | apply total_check | apply total_step
    | by eapply total_unwrap
    | apply total_bind
    | match goal with |- total (match ?x with _ => _ end) => destruct x eqn:? end
    | match goal with |- total (?f _) => unfold f | |- total (?f _ _) => unfold f | |- total (?f _ _ _) => unfold f
      | |- total (?f _ _ _ _) => unfold f | |- total (?f _ _ _ _ _) => unfold f end ].
Lemma total_exposes l : ∀ paths, total (for_exposes l paths).
Proof. induction l as [|e l IH]; intros paths; cbn; [apply total_ret|]. apply total_bind; [totally|done]. Qed.
Lemma total_validate_all {D : Type} (d : ComponentDecl D) : total (validate_all d).
Proof.
  unfold validate_all. rewrite !in_some_for_each, in_some_exposes.
  repeat first [apply total_exposes | apply total_for_each; totally | apply total_bind; intros].
Qed.
Lemma validate_spec {D : Type} (d : ComponentDecl D) :
  match validate d with
  | Ok _ => decl_ok d
  | Err es => ¬ decl_ok d ∧ es ≠ []
  | Panic | OutOfFuel => False
  end.
Proof.
  pose proof (quiet_validate_all d) as Hd. unfold quiet in Hd. unfold validate. destruct (total_validate_all d context_new) as [a Ha].
  destruct (validate_all d context_new) as [r s]. cbn in Ha. subst r. destruct (errors s) eqn:Es; [by apply Hd; exists a, s|].
  split; [|done]. intros (?&?&[= <- <-]&He&_)%Hd. cbn in He. congruence.
Qed.
End whole.
