(* ===== verification/CmRust.v ===== *)
(** The native form of component declarations ([lib/rust/cm_rust/src/lib.rs]): the conversions
    from and to the declarations of [fuchsia.sys2], which unwrap what the validator has checked,
    capability paths, and the look-ups by which a realm routes a capability.  Dictionaries are
    those of [data.rs]. *)

From S2P Require Import Prelude Std CmValidator.
Open Scope rust_scope.
Set Warnings "-register-all".

(** * Dictionaries

    The values of [fuchsia.data]; a double is its bits. *)
Module fdata.
Inductive Value :=
| Bit (b : bool) | Inum (i : Z) | Fnum (f : Z) | Str (s : str)
| Vec (values : list (option Value))
| Dict (entries : list (str * option Value)).
End fdata.
Abbreviation Dictionary := (list (str * option fdata.Value)).

(** [DictionaryExt::find] *)
Fixpoint dictionary_find (self : Dictionary) (key : str) : option fdata.Value :=
  match self with
  | [] => None
  | (k, v) :: self => if decide (k = key) then v else dictionary_find self key
  end.
Fixpoint clone_value (v : fdata.Value) : fdata.Value :=
  match v with
  | fdata.Bit x => fdata.Bit x
  | fdata.Inum x => fdata.Inum x
  | fdata.Fnum x => fdata.Fnum x
  | fdata.Str x => fdata.Str x
  | fdata.Vec x => fdata.Vec (map (option_map clone_value) x)
  | fdata.Dict x => fdata.Dict (map (λ e, (e.1, option_map clone_value e.2)) x)
  end.
Definition clone_dictionary (v : Dictionary) : Dictionary := map (λ e, (e.1, option_map clone_value e.2)) v.

(** The dictionary as a map: of two entries with one key the later one stays. *)
Inductive Value :=
| Bit (b : bool) | Inum (i : Z) | Fnum (f : Z) | Str (s : str)
| Vec (values : list Value)
| Dict (entries : gmap str Value)
| Null.
Definition collect (l : list (str * Value)) : gmap str Value := foldl (λ m e, <[e.1 := e.2]> m) ∅ l.
Fixpoint from_value (v : fdata.Value) : Value :=
  match v with
  | fdata.Bit b => Bit b
  | fdata.Inum i => Inum i
  | fdata.Fnum f => Fnum f
  | fdata.Str s => Str s
  | fdata.Vec v => Vec (map (λ v, match v with Some v => from_value v | None => Null end) v)
  | fdata.Dict d => Dict (collect (map (λ e, (e.1, match e.2 with Some v => from_value v | None => Null end)) d))
  end.
Definition from_option (v : option fdata.Value) : Value := match v with Some v => from_value v | None => Null end.
Definition from_fidl_dict (dict : Dictionary) : gmap str Value := collect (map (λ e, (e.1, from_option e.2)) dict).

(** * Capability paths *)
Module cm.
Record CapabilityPath := { dirname : str; basename : str }.
#[export] Instance CapabilityPath_eq_dec : EqDecision CapabilityPath.
Proof. solve_decision. Defined.
Inductive Error := Validate (err : list CmValidator.Error) | InvalidCapabilityPath (raw : str).

(** The loop of [try_from]: [parts] are those pushed so far. *)
Fixpoint push_parts (path : str) (parts_iter parts : list str) : result Error (list str) :=
  match parts_iter with
  | [] => Ok parts
  | part :: parts_iter =>
      if decide (part = []) then Err (InvalidCapabilityPath path) else push_parts path parts_iter (parts ++ [part])
  end.
Definition path_try_from (path : str) : result Error CapabilityPath :=
  if negb (match path with c :: _ => c =? slash | [] => false end) then Err (InvalidCapabilityPath path)
  else
    parts <-? push_parts path (drop 1 (str_split slash path)) [] ;;
    match last parts with
    | None => Err (InvalidCapabilityPath path)
    | Some basename => Ok {| dirname := slash :: str_join slash (removelast parts); basename := basename |}
    end.
Definition to_string (self : CapabilityPath) : str :=
  if decide (dirname self = [slash]) then slash :: basename self else dirname self ++ slash :: basename self.
Definition path_split (self : CapabilityPath) : list str := filter (λ s, s ≠ []) (str_split slash (to_string self)).

(** * Native declarations *)
Inductive UseSource := UseRealm | UseFramework.
Inductive ExposeSource := ExposeSelf | ExposeChild (name : str).
(** [OfferServiceSource] and [OfferDirectorySource], which have the same variants. *)
Inductive OfferSource := OfferRealm | OfferSelf | OfferChild (name : str).
Inductive OfferStorageSource := StorageRealm | StorageNamed (name : str).
Inductive OfferTarget := TargetChild (name : str) | TargetCollection (name : str).

Record UseCapability := { u_source : UseSource; u_source_path : CapabilityPath; u_target_path : CapabilityPath }.
Inductive UseStorageDecl := UseData (p : CapabilityPath) | UseCache (p : CapabilityPath) | UseMeta.
Inductive UseDecl := UseService (u : UseCapability) | UseDirectory (u : UseCapability) | UseStorage (u : UseStorageDecl).
Record ExposeCapability := { e_source : ExposeSource; e_source_path : CapabilityPath; e_target_path : CapabilityPath }.
Inductive ExposeDecl := ExposeService (e : ExposeCapability) | ExposeDirectory (e : ExposeCapability).
Record OfferCapability := {
  o_source : OfferSource; o_source_path : CapabilityPath; o_target : OfferTarget; o_target_path : CapabilityPath }.
Record OfferStorage := { os_source : OfferStorageSource; os_target : OfferTarget }.
Inductive OfferStorageDecl := OfferData (o : OfferStorage) | OfferCache (o : OfferStorage) | OfferMeta (o : OfferStorage).
Inductive OfferDecl := OfferService (o : OfferCapability) | OfferDirectory (o : OfferCapability) | OfferStorageD (o : OfferStorageDecl).
Record ChildDecl := { child_name : str; child_url : str; child_startup : StartupMode }.
Record CollectionDecl := { collection_name : str; collection_durability : Durability }.
Record StorageDecl := { storage_name : str; storage_source_path : CapabilityPath; storage_source : OfferSource }.
Record ComponentDecl := {
  program : option Dictionary;
  uses : list UseDecl; exposes : list ExposeDecl; offers : list OfferDecl;
  children : list ChildDecl; collections : list CollectionDecl; storage : list StorageDecl;
  facets : option Dictionary }.
(** * From a FIDL declaration

    Each conversion panics on what is missing or of the wrong variant; none returns an error. *)
Abbreviation R := (result Error).
Definition expect {A : Type} (r : R A) : R A := match r with Ok x => Ok x | OutOfFuel => OutOfFuel | _ => Panic end.
Definition path_into_native (self : option str) : R CapabilityPath := s <-? ounwrap self ;; expect (path_try_from s).
Fixpoint into_vec {A B : Type} (f : A → R B) (l : list A) : R (list B) :=
  match l with [] => Ok [] | x :: l => y <-? f x ;; ys <-? into_vec f l ;; Ok (y :: ys) end.
(** [fidl_into_vec!] *)
Definition vec_into_native {A B : Type} (f : A → R B) (self : option (list A)) : R (list B) :=
  match self with Some from => into_vec f from | None => Ok [] end.

Definition use_source_into_native (self : option Ref) : R UseSource :=
  r <-? ounwrap self ;;
  match r with RealmRef => Ok UseRealm | FrameworkRef => Ok UseFramework | _ => Panic end.
Definition expose_source_into_native (self : option Ref) : R ExposeSource :=
  r <-? ounwrap self ;;
  match r with
  | SelfRef => Ok ExposeSelf
  | RefChild c => name <-? ounwrap (cr_name c) ;; Ok (ExposeChild name)
  | _ => Panic
  end.
Definition offer_source_into_native (self : option Ref) : R OfferSource :=
  r <-? ounwrap self ;;
  match r with
  | RealmRef => Ok OfferRealm
  | SelfRef => Ok OfferSelf
  | RefChild c => name <-? ounwrap (cr_name c) ;; Ok (OfferChild name)
  | _ => Panic
  end.
Definition storage_source_into_native (self : option Ref) : R OfferStorageSource :=
  r <-? ounwrap self ;;
  match r with
  | RealmRef => Ok StorageRealm
  | RefStorage c => name <-? ounwrap (sr_name c) ;; Ok (StorageNamed name)
  | _ => Panic
  end.
Definition target_into_native (self : option Ref) : R OfferTarget :=
  r <-? ounwrap self ;;
  match r with
  | RefChild c => name <-? ounwrap (cr_name c) ;; Ok (TargetChild name)
  | RefCollection c => name <-? ounwrap (colr_name c) ;; Ok (TargetCollection name)
  | _ => Panic
  end.

Definition use_fields_into_native (u : UseFields) : R UseCapability :=
  source <-? use_source_into_native (CmValidator.u_source u) ;;
  source_path <-? path_into_native (CmValidator.u_source_path u) ;;
  target_path <-? path_into_native (CmValidator.u_target_path u) ;;
  Ok {| u_source := source; u_source_path := source_path; u_target_path := target_path |}.
Definition use_storage_into_native (u : UseStorageFields) : R UseStorageDecl :=
  type_ <-? ounwrap (us_type u) ;;
  match type_ with
  | SData => p <-? path_into_native (us_target_path u) ;; Ok (UseData p)
  | SCache => p <-? path_into_native (us_target_path u) ;; Ok (UseCache p)
  | SMeta => Ok UseMeta
  end.
Definition use_into_native (u : CmValidator.UseDecl) : R UseDecl :=
  match u with
  | CmValidator.UseService u => u <-? use_fields_into_native u ;; Ok (UseService u)
  | CmValidator.UseDirectory u => u <-? use_fields_into_native u ;; Ok (UseDirectory u)
  | CmValidator.UseStorage u => u <-? use_storage_into_native u ;; Ok (UseStorage u)
  | UnknownUse _ => Panic
  end.
Definition expose_fields_into_native (e : ExposeFields) : R ExposeCapability :=
  source <-? expose_source_into_native (CmValidator.e_source e) ;;
  source_path <-? path_into_native (CmValidator.e_source_path e) ;;
  target_path <-? path_into_native (CmValidator.e_target_path e) ;;
  Ok {| e_source := source; e_source_path := source_path; e_target_path := target_path |}.
Definition expose_into_native (e : CmValidator.ExposeDecl) : R ExposeDecl :=
  match e with
  | CmValidator.ExposeService e => e <-? expose_fields_into_native e ;; Ok (ExposeService e)
  | CmValidator.ExposeDirectory e => e <-? expose_fields_into_native e ;; Ok (ExposeDirectory e)
  | UnknownExpose _ => Panic
  end.
Definition offer_fields_into_native (o : OfferFields) : R OfferCapability :=
  source <-? offer_source_into_native (CmValidator.o_source o) ;;
  source_path <-? path_into_native (CmValidator.o_source_path o) ;;
  target <-? target_into_native (CmValidator.o_target o) ;;
  target_path <-? path_into_native (CmValidator.o_target_path o) ;;
  Ok {| o_source := source; o_source_path := source_path; o_target := target; o_target_path := target_path |}.
Definition offer_storage_into_native (o : OfferStorageFields) : R OfferStorageDecl :=
  type_ <-? ounwrap (os_type o) ;;
  source <-? storage_source_into_native (CmValidator.os_source o) ;;
  target <-? target_into_native (CmValidator.os_target o) ;;
  let o := {| os_source := source; os_target := target |} in
  Ok (match type_ with SData => OfferData o | SCache => OfferCache o | SMeta => OfferMeta o end).
Definition offer_into_native (o : CmValidator.OfferDecl) : R OfferDecl :=
  match o with
  | CmValidator.OfferService o => o <-? offer_fields_into_native o ;; Ok (OfferService o)
  | CmValidator.OfferDirectory o => o <-? offer_fields_into_native o ;; Ok (OfferDirectory o)
  | CmValidator.OfferStorage o => o <-? offer_storage_into_native o ;; Ok (OfferStorageD o)
  | UnknownOffer _ => Panic
  end.
Definition child_into_native (c : CmValidator.ChildDecl) : R ChildDecl :=
  name <-? ounwrap (CmValidator.child_name c) ;;
  url <-? ounwrap (CmValidator.child_url c) ;;
  startup <-? ounwrap (CmValidator.child_startup c) ;;
  Ok {| child_name := name; child_url := url; child_startup := startup |}.
Definition collection_into_native (c : CmValidator.CollectionDecl) : R CollectionDecl :=
  name <-? ounwrap (CmValidator.collection_name c) ;;
  durability <-? ounwrap (CmValidator.collection_durability c) ;;
  Ok {| collection_name := name; collection_durability := durability |}.
Definition storage_into_native (st : CmValidator.StorageDecl) : R StorageDecl :=
  name <-? ounwrap (CmValidator.storage_name st) ;;
  source_path <-? path_into_native (CmValidator.storage_source_path st) ;;
  source <-? offer_source_into_native (CmValidator.storage_source st) ;;
  Ok {| storage_name := name; storage_source_path := source_path; storage_source := source |}.
Definition fidl_into_native (d : CmValidator.ComponentDecl Dictionary) : R ComponentDecl :=
  uses <-? vec_into_native use_into_native (CmValidator.uses d) ;;
  exposes <-? vec_into_native expose_into_native (CmValidator.exposes d) ;;
  offers <-? vec_into_native offer_into_native (CmValidator.offers d) ;;
  children <-? vec_into_native child_into_native (CmValidator.children d) ;;
  collections <-? vec_into_native collection_into_native (CmValidator.collections d) ;;
  storage <-? vec_into_native storage_into_native (CmValidator.storage d) ;;
  Ok {| program := CmValidator.program d; uses := uses; exposes := exposes; offers := offers; children := children;
        collections := collections; storage := storage; facets := CmValidator.facets d |}.
Definition try_from `{!Regex} (decl : CmValidator.ComponentDecl Dictionary) : R ComponentDecl :=
  match validate decl with
  | Ok _ => fidl_into_native decl
  | Err err => Err (Validate err)
  | Panic => Panic
  | OutOfFuel => OutOfFuel
  end.

(** * To a FIDL declaration *)
Definition path_into_fidl (self : CapabilityPath) : option str := Some (to_string self).
Definition vec_into_fidl {A B : Type} (f : B → A) (self : list B) : option (list A) :=
  match self with [] => None | _ => Some (map f self) end.
Definition child_ref (name : str) : Ref := RefChild {| cr_name := Some name; cr_collection := None |}.
Definition use_source_into_fidl (self : UseSource) : option Ref :=
  Some (match self with UseRealm => RealmRef | UseFramework => FrameworkRef end).
Definition expose_source_into_fidl (self : ExposeSource) : option Ref :=
  Some (match self with ExposeSelf => SelfRef | ExposeChild name => child_ref name end).
Definition offer_source_into_fidl (self : OfferSource) : option Ref :=
  Some (match self with OfferRealm => RealmRef | OfferSelf => SelfRef | OfferChild name => child_ref name end).
Definition storage_source_into_fidl (self : OfferStorageSource) : option Ref :=
  Some (match self with StorageRealm => RealmRef | StorageNamed name => RefStorage {| sr_name := Some name |} end).
Definition target_into_fidl (self : OfferTarget) : option Ref :=
  Some (match self with
        | TargetChild name => child_ref name
        | TargetCollection name => RefCollection {| colr_name := Some name |}
        end).
Definition use_fields_into_fidl (u : UseCapability) : UseFields :=
  {| CmValidator.u_source := use_source_into_fidl (u_source u);
     CmValidator.u_source_path := path_into_fidl (u_source_path u);
     CmValidator.u_target_path := path_into_fidl (u_target_path u) |}.
Definition use_storage_into_fidl (u : UseStorageDecl) : UseStorageFields :=
  match u with
  | UseData p => {| us_type := Some SData; us_target_path := path_into_fidl p |}
  | UseCache p => {| us_type := Some SCache; us_target_path := path_into_fidl p |}
  | UseMeta => {| us_type := Some SMeta; us_target_path := None |}
  end.
Definition use_into_fidl (u : UseDecl) : CmValidator.UseDecl :=
  match u with
  | UseService u => CmValidator.UseService (use_fields_into_fidl u)
  | UseDirectory u => CmValidator.UseDirectory (use_fields_into_fidl u)
  | UseStorage u => CmValidator.UseStorage (use_storage_into_fidl u)
  end.
Definition expose_fields_into_fidl (e : ExposeCapability) : ExposeFields :=
  {| CmValidator.e_source := expose_source_into_fidl (e_source e);
     CmValidator.e_source_path := path_into_fidl (e_source_path e);
     CmValidator.e_target_path := path_into_fidl (e_target_path e) |}.
Definition expose_into_fidl (e : ExposeDecl) : CmValidator.ExposeDecl :=
  match e with
  | ExposeService e => CmValidator.ExposeService (expose_fields_into_fidl e)
  | ExposeDirectory e => CmValidator.ExposeDirectory (expose_fields_into_fidl e)
  end.
Definition offer_fields_into_fidl (o : OfferCapability) : OfferFields :=
  {| CmValidator.o_source := offer_source_into_fidl (o_source o);
     CmValidator.o_source_path := path_into_fidl (o_source_path o);
     CmValidator.o_target := target_into_fidl (o_target o);
     CmValidator.o_target_path := path_into_fidl (o_target_path o) |}.
(** [OfferStorageDecl::type_], [source] and [target]. *)
Definition offer_type (self : OfferStorageDecl) : StorageType :=
  match self with OfferData _ => SData | OfferCache _ => SCache | OfferMeta _ => SMeta end.
Definition offer_storage (self : OfferStorageDecl) : OfferStorage :=
  match self with OfferData o | OfferCache o | OfferMeta o => o end.
Definition offer_storage_into_fidl (self : OfferStorageDecl) : OfferStorageFields :=
  {| os_type := Some (offer_type self);
     CmValidator.os_source := storage_source_into_fidl (os_source (offer_storage self));
     CmValidator.os_target := target_into_fidl (os_target (offer_storage self)) |}.
Definition offer_into_fidl (o : OfferDecl) : CmValidator.OfferDecl :=
  match o with
  | OfferService o => CmValidator.OfferService (offer_fields_into_fidl o)
  | OfferDirectory o => CmValidator.OfferDirectory (offer_fields_into_fidl o)
  | OfferStorageD o => CmValidator.OfferStorage (offer_storage_into_fidl o)
  end.
Definition child_into_fidl (c : ChildDecl) : CmValidator.ChildDecl :=
  {| CmValidator.child_name := Some (child_name c); CmValidator.child_url := Some (child_url c);
     CmValidator.child_startup := Some (child_startup c) |}.
Definition collection_into_fidl (c : CollectionDecl) : CmValidator.CollectionDecl :=
  {| CmValidator.collection_name := Some (collection_name c);
     CmValidator.collection_durability := Some (collection_durability c) |}.
Definition storage_into_fidl (st : StorageDecl) : CmValidator.StorageDecl :=
  {| CmValidator.storage_name := Some (storage_name st);
     CmValidator.storage_source_path := path_into_fidl (storage_source_path st);
     CmValidator.storage_source := offer_source_into_fidl (storage_source st) |}.
Definition native_into_fidl (d : ComponentDecl) : CmValidator.ComponentDecl Dictionary :=
  {| CmValidator.program := program d;
     CmValidator.uses := vec_into_fidl use_into_fidl (uses d);
     CmValidator.exposes := vec_into_fidl expose_into_fidl (exposes d);
     CmValidator.offers := vec_into_fidl offer_into_fidl (offers d);
     CmValidator.children := vec_into_fidl child_into_fidl (children d);
     CmValidator.collections := vec_into_fidl collection_into_fidl (collections d);
     CmValidator.storage := vec_into_fidl storage_into_fidl (storage d);
     CmValidator.facets := facets d |}.
(** [Clone], which copies the dictionaries by [data.rs]. *)
Definition clone (d : ComponentDecl) : ComponentDecl :=
  {| program := option_map clone_dictionary (program d); uses := uses d; exposes := exposes d; offers := offers d;
     children := children d; collections := collections d; storage := storage d;
     facets := option_map clone_dictionary (facets d) |}.

(** * Routing *)
Inductive Capability := Service (p : CapabilityPath) | Directory (p : CapabilityPath) | Storage (t : StorageType).
Definition capability_path (self : Capability) : option CapabilityPath :=
  match self with Service s => Some s | Directory d => Some d | Storage _ => None end.
Definition use_type (self : UseStorageDecl) : StorageType :=
  match self with UseData _ => SData | UseCache _ => SCache | UseMeta => SMeta end.
Definition capability_of_use (d : UseDecl) : Capability :=
  match d with
  | UseService d => Service (u_source_path d)
  | UseDirectory d => Directory (u_source_path d)
  | UseStorage s => Storage (use_type s)
  end.
Definition capability_of_expose (d : ExposeDecl) : Capability :=
  match d with ExposeService d => Service (e_source_path d) | ExposeDirectory d => Directory (e_source_path d) end.
Definition capability_of_offer (d : OfferDecl) : Capability :=
  match d with
  | OfferService d => Service (o_source_path d)
  | OfferDirectory d => Directory (o_source_path d)
  | OfferStorageD d => Storage (offer_type d)
  end.

Definition exposes_capability (capability : Capability) (e : ExposeDecl) : bool :=
  match capability, e with
  | Service p, ExposeService d => bool_decide (e_target_path d = p)
  | Directory p, ExposeDirectory d => bool_decide (e_target_path d = p)
  | _, _ => false
  end.
Definition find_expose_source (self : ComponentDecl) (capability : Capability) : option ExposeDecl :=
  List.find (exposes_capability capability) (exposes self).
Definition is_capability_match (child_name : str) (collection : option str) (path : CapabilityPath) (target : OfferTarget)
    (target_path : CapabilityPath) : bool :=
  match target with
  | TargetChild target_child_name =>
      match collection with
      | Some _ => false
      | None => bool_decide (target_path = path) && bool_decide (target_child_name = child_name)
      end
  | TargetCollection target_collection_name =>
      match collection with
      | Some collection => bool_decide (target_path = path) && bool_decide (target_collection_name = collection)
      | None => false
      end
  end.
Definition offers_capability (capability : Capability) (child_name : str) (collection : option str) (offer : OfferDecl) : bool :=
  match capability, offer with
  | Service p, OfferService d => is_capability_match child_name collection p (o_target d) (o_target_path d)
  | Directory p, OfferDirectory d => is_capability_match child_name collection p (o_target d) (o_target_path d)
  | Storage type_, OfferStorageD s =>
      bool_decide (offer_type s = type_) &&
      match os_target (offer_storage s), collection with
      | TargetChild target_child_name, None => bool_decide (target_child_name = child_name)
      | TargetCollection target_collection_name, Some collection => bool_decide (target_collection_name = collection)
      | _, _ => false
      end
  | _, _ => false
  end.
Definition find_offer_source (self : ComponentDecl) (capability : Capability) (child_name : str) (collection : option str)
    : option OfferDecl :=
  List.find (offers_capability capability child_name collection) (offers self).
Definition find_storage_source (self : ComponentDecl) (name : str) : option StorageDecl :=
  List.find (λ s, bool_decide (storage_name s = name)) (storage self).
End cm.
