(* ===== verification/CmClaims.v ===== *)
(** Component declarations: what the validator accepts, the native form of what it accepts and
    back, capability paths, and the routing of capabilities in a declaration. *)

From S2P Require Import Prelude Std CmValidator CmValid CmRust.
Open Scope rust_scope.

Lemma push_parts_spec path iter parts :
  cm.push_parts path iter parts =
  if decide (Forall (λ p, p ≠ []) iter) then Ok (parts ++ iter) else Err (cm.InvalidCapabilityPath path).
Proof.
  revert parts. induction iter as [|p iter IH]; intros parts; cbn; [by rewrite app_nil_r|].
  destruct (decide (p = [])) as [->|Hp].
  - rewrite decide_False; [done|]. by intros [? _]%Forall_cons.
  - rewrite IH. rewrite (decide_ext _ (Forall (λ p, p ≠ []) (p :: iter))) by (rewrite Forall_cons; naive_solver).
    by rewrite <- app_assoc.
Qed.

(** * Capability paths *)
Lemma filter_true {A} (P : A → Prop) `{!∀ x, Decision (P x)} (l : list A) : Forall P l → filter P l = l.
Proof. induction 1 as [|x l Hx _ IH]; [done|]. rewrite filter_cons_True by done. by rewrite IH. Qed.
Lemma try_from_parts (parts : list str) (b : str) :
  Forall (λ p, p ≠ [] ∧ slash ∉ p) (parts ++ [b]) →
  ∃ p, cm.path_try_from (concat (cons slash <$> parts ++ [b])) = Ok p ∧
    cm.to_string p = concat (cons slash <$> parts ++ [b]) ∧ cm.path_split p = parts ++ [b].
Proof.
  intros Hall. set (all := parts ++ [b]) in *.
  assert (str_split slash (concat (cons slash <$> all)) = [] :: all) as Hs.
  { apply (split_app slash []); [set_solver|]. eapply Forall_impl; [done|]. by intros ? []. }
  assert (Forall (λ p, p ≠ []) all) as Hne by (eapply Forall_impl; [done|by intros ? []]).
  set (p := {| cm.dirname := slash :: str_join slash parts; cm.basename := b |}).
  assert (cm.to_string p = concat (cons slash <$> all)) as Ht.
  { unfold cm.to_string, all. cbn [cm.dirname cm.basename p]. rewrite fmap_app, concat_app. cbn. rewrite app_nil_r.
    destruct parts as [|q parts]; [done|]. rewrite join_concat.
    rewrite decide_False; [done|]. intros [= [-> _]%app_eq_nil]. by apply Forall_cons in Hne as [? _]. }
  exists p. split_and!; [|done|].
  - unfold cm.path_try_from.
    assert (match concat (cons slash <$> all) with c :: _ => c =? slash | [] => false end = true) as -> by (unfold all; by destruct parts).
    rewrite Hs. cbn [negb]. change (drop 1 ([] :: all)) with all. rewrite push_parts_spec, decide_True by done. cbn [rbind app].
    unfold all. by rewrite last_snoc, removelast_last.
  - unfold cm.path_split. rewrite Ht, Hs, filter_cons_False by naive_solver. by apply filter_true.
Qed.
Lemma path_spec s :
  match cm.path_try_from s with
  | Ok p => is_path s ∧ cm.to_string p = s ∧
      Forall (λ c, c ≠ [] ∧ slash ∉ c) (cm.path_split p) ∧ s = concat (cons slash <$> cm.path_split p)
  | Err e => ¬ is_path s ∧ e = cm.InvalidCapabilityPath s
  | Panic | OutOfFuel => False
  end.
Proof.
  destruct (split_spec slash s) as (a&parts&E&Hs&Hf). apply Forall_cons in Hf as [Ha Hf].
  destruct (decide (a = [] ∧ parts ≠ [] ∧ Forall (λ p, p ≠ []) parts)) as [(->&Hn&Hne)|Hbad].
  - assert (Forall (λ p, p ≠ [] ∧ slash ∉ p) parts) as Hall by (apply Forall_and; done).
    destruct parts as [|b parts _] using rev_ind; [done|]. destruct (try_from_parts parts b Hall) as (p&Ep&Et&Esp).
    cbn [app] in Hs. rewrite <- Hs in *. rewrite Ep. split_and!; [by exists (parts ++ [b])|done|by rewrite Esp..].
  - assert (¬ is_path s) as Hnp.
    { intros (qs&Hq&Hqs&->). assert (str_split slash (concat (cons slash <$> qs)) = [] :: qs) as Es.
      { apply (split_app slash []); [set_solver|]. eapply Forall_impl; [done|]. by intros ? []. }
      rewrite Es in E. injection E as <- <-. apply Hbad. split_and!; [done..|]. eapply Forall_impl; [done|]. by intros ? []. }
    assert (cm.path_try_from s = Err (cm.InvalidCapabilityPath s)) as ->; [|done].
    unfold cm.path_try_from. rewrite E. cbn [drop]. rewrite push_parts_spec. cbn [app].
    destruct s as [|c s']; [done|]. destruct (Z.eqb_spec c slash) as [->|]; [|done]. cbn [negb].
    destruct (decide _) as [Hne|]; [|done]. destruct Hbad. destruct a as [|x a]; [|cbn in Hs; set_solver].
    destruct parts; done.
Qed.

(** * A matcher of the three expressions *)
Fixpoint scheme_of (s : str) : str * str :=
  match s with
  | c :: s' => if scheme_char c then let (a, b) := scheme_of s' in (c :: a, b) else ([], s)
  | [] => ([], [])
  end.
Definition url_match (s : str) : bool :=
  let (a, b) := scheme_of s in
  bool_decide (a ≠ [] ∧ take 3 b = [58; 47; 47] ∧ drop 3 b ≠ []) && forallb (λ c, negb (c =? 10)) (drop 3 b).
#[export] Instance matcher : Regex := λ re s,
  if String.eqb re PATH_RE then match cm.path_try_from s with Ok _ => true | _ => false end
  else if String.eqb re NAME_RE then negb (bool_decide (s = [])) && forallb name_char s
  else if String.eqb re URL_RE then url_match s
  else false.
Lemma scheme_of_app (a b : str) :
  Forall (λ c, scheme_char c = true) a → scheme_of (a ++ 58 :: b) = (a, 58 :: b).
Proof. induction 1 as [|c a Hc _ IH]; [done|]. cbn. by rewrite Hc, IH. Qed.
Lemma scheme_of_spec s : Forall (λ c, scheme_char c = true) (scheme_of s).1 ∧ s = (scheme_of s).1 ++ (scheme_of s).2.
Proof.
  induction s as [|c s IH]; [done|]. cbn. destruct (scheme_char c) eqn:Ec; [|done].
  destruct (scheme_of s) as [a b]. cbn in *. destruct IH as [? ->]. split; [by constructor|done].
Qed.
Lemma forallb_Forall_iff {A} (f : A → bool) (P : A → Prop) l : (∀ x, f x = true ↔ P x) → forallb f l = true ↔ Forall P l.
Proof. intros H. induction l as [|x l IH]; cbn; [naive_solver|]. rewrite andb_true_iff, IH, Forall_cons, H. done. Qed.
Lemma url_match_spec s : url_match s = true ↔ is_url s.
Proof.
  unfold url_match. pose proof (scheme_of_spec s) as [Ha Hs]. destruct (scheme_of s) as [a b] eqn:E. cbn in Ha, Hs.
  rewrite andb_true_iff, bool_decide_eq_true, (forallb_Forall_iff _ (λ c, c ≠ 10)) by (intros; lia). split.
  - intros [(Hn&Ht&Hd) Hr]. exists a, (drop 3 b). split_and!; [done..|]. by rewrite Hs, <- Ht, take_drop.
  - intros (a'&r&Ha'&Hsc&Hr&Hf&->). change ([58; 47; 47] ++ r) with (58 :: 47 :: 47 :: r) in E.
    rewrite scheme_of_app in E by done. by injection E as <- <-.
Qed.
#[export] Instance matcher_spec : RegexSpec.
Proof.
  split; intros s; unfold is_match, matcher; cbn [String.eqb].
  - pose proof (path_spec s) as H. rewrite String.eqb_refl. destruct (cm.path_try_from s); naive_solver.
  - change (NAME_RE =? PATH_RE)%string with false. rewrite String.eqb_refl. unfold is_name.
    by rewrite andb_true_iff, negb_true_iff, bool_decide_eq_false, (forallb_Forall_iff _ (λ c, name_char c = true)).
  - change (URL_RE =? PATH_RE)%string with false. change (URL_RE =? NAME_RE)%string with false. rewrite String.eqb_refl.
    apply url_match_spec.
Qed.

(** * Conversions

    [f] converts what [P] holds of, and [g] gives it back. *)
Definition converts {A B : Type} (f : A → result cm.Error B) (g : B → A) (P : A → Prop) : Prop :=
  ∀ x, P x → ∃ y, f x = Ok y ∧ g y = x.
Lemma converts_vec {A B} (f : A → result cm.Error B) g (P : A → Prop) (l : list A) :
  converts f g P → Forall P l → ∃ ys, cm.into_vec f l = Ok ys ∧ map g ys = l.
Proof.
  intros H. induction 1 as [|x l Hx _ (ys&E&Hys)]; [by exists []|]. destruct (H x Hx) as (y&Ey&Hy).
  exists (y :: ys). cbn. rewrite Ey. cbn. rewrite E. cbn. by rewrite Hy, Hys.
Qed.
(** [Some] of no item is [None] again. *)
Definition normal {A : Type} (l : option (list A)) : option (list A) := match l with Some [] => None | _ => l end.
Lemma converts_list {A B} (f : A → result cm.Error B) g (P : A → Prop) l :
  converts f g P → Forall P (items l) → ∃ ys, cm.vec_into_native f l = Ok ys ∧ cm.vec_into_fidl g ys = normal l.
Proof.
  intros H Hl. destruct l as [l|]; [|by exists []]. destruct (converts_vec f g P l H Hl) as (ys&E&<-).
  exists ys. split; [done|]. by destruct ys.
Qed.

Lemma path_converts x : has ok_path x → ∃ p, cm.path_into_native x = Ok p ∧ cm.path_into_fidl p = x.
Proof.
  intros (s&->&[Hp _]). unfold cm.path_into_native, cm.path_into_fidl. cbn. pose proof (path_spec s) as H.
  destruct (cm.path_try_from s) as [p|e| |]; [|naive_solver..]. exists p. destruct H as (_&->&_). done.
Qed.
Lemma refers_child ch c : refers ch c → ∃ n, c = {| cr_name := Some n; cr_collection := None |}.
Proof. destruct c. intros [(n&?&_) ?]. cbn in *. subst. by exists n. Qed.
Lemma expose_source_converts ch x :
  has (λ r, match r with SelfRef => True | RefChild c => refers ch c | _ => False end) x →
  ∃ y, cm.expose_source_into_native x = Ok y ∧ cm.expose_source_into_fidl y = x.
Proof.
  intros (r&->&Hr). destruct r; try done; [by exists cm.ExposeSelf|].
  apply refers_child in Hr as [n ->]. by exists (cm.ExposeChild n).
Qed.
Lemma offer_source_converts ch x :
  has (λ r, match r with RealmRef | SelfRef => True | RefChild c => refers ch c | _ => False end) x →
  ∃ y, cm.offer_source_into_native x = Ok y ∧ cm.offer_source_into_fidl y = x.
Proof.
  intros (r&->&Hr). destruct r; try done; [by exists cm.OfferRealm|by exists cm.OfferSelf|].
  apply refers_child in Hr as [n ->]. by exists (cm.OfferChild n).
Qed.
Lemma target_converts (ch cols : list str) (P : str → Prop) x :
  has (λ r, match r with
            | RefChild c => refers ch c ∧ ∀ n, cr_name c = Some n → P n
            | RefCollection c => has (λ n, ok_name n ∧ n ∈ cols) (colr_name c)
            | _ => False
            end) x →
  ∃ y, cm.target_into_native x = Ok y ∧ cm.target_into_fidl y = x.
Proof.
  intros (r&->&Hr). destruct r as [| |c|[c]| | |]; try done.
  - destruct Hr as [[n ->]%refers_child _]. by exists (cm.TargetChild n).
  - destruct Hr as (n&?&_). cbn in *. subst. by exists (cm.TargetCollection n).
Qed.
(** Goals [∃ y, f x = Ok y ∧ g y = x] for a record, from the same of its fields. *)
Ltac fields :=
  repeat match goal with H : ∃ y, ?f = Ok y ∧ _ |- _ => let E := fresh "E" in destruct H as (?&E&?); rewrite ?E; cbn [rbind] end;
  eexists; split; [reflexivity|]; subst; cbn; try congruence.

Lemma use_fields_converts : converts cm.use_fields_into_native cm.use_fields_into_fidl use_fields_ok.
Proof.
  intros [s sp tp] [(r&Hs&Hr) [H1%path_converts H2%path_converts]]. cbn in *. subst s.
  assert (∃ y, cm.use_source_into_native (Some r) = Ok y ∧ cm.use_source_into_fidl y = Some r) as Hsrc.
  { destruct r; try done; [by exists cm.UseRealm|by exists cm.UseFramework]. }
  unfold cm.use_fields_into_native. cbn [CmValidator.u_source CmValidator.u_source_path CmValidator.u_target_path]. fields.
  unfold cm.use_fields_into_fidl. cbn. congruence.
Qed.
Lemma use_converts : converts cm.use_into_native cm.use_into_fidl use_ok.
Proof.
  intros [u|u|[t tp]|] Hu; [apply use_fields_converts in Hu as (y&E&<-)..| |done].
  - exists (cm.UseService y). cbn. by rewrite E.
  - exists (cm.UseDirectory y). cbn. by rewrite E.
  - destruct Hu as (ty&Ht&Hu). cbn in Ht. subst t. cbn [us_target_path] in Hu.
    destruct ty; [apply path_converts in Hu as (p&E&<-)..|].
    + exists (cm.UseStorage (cm.UseData p)). cbn [cm.use_into_native cm.use_storage_into_native us_type us_target_path ounwrap rbind]. by rewrite E.
    + exists (cm.UseStorage (cm.UseCache p)). cbn [cm.use_into_native cm.use_storage_into_native us_type us_target_path ounwrap rbind]. by rewrite E.
    + subst tp. by exists (cm.UseStorage cm.UseMeta).
Qed.
Lemma expose_fields_converts ch : converts cm.expose_fields_into_native cm.expose_fields_into_fidl (expose_fields_ok ch).
Proof.
  intros [s sp tp] (Hs%expose_source_converts&H1%path_converts&H2%path_converts).
  unfold cm.expose_fields_into_native. cbn [e_source e_source_path e_target_path] in *. by fields.
Qed.
Lemma expose_converts ch : converts cm.expose_into_native cm.expose_into_fidl (expose_ok ch).
Proof.
  intros [e|e|] He; [apply expose_fields_converts in He as (y&E&<-)..|done].
  - exists (cm.ExposeService y). cbn. by rewrite E.
  - exists (cm.ExposeDirectory y). cbn. by rewrite E.
Qed.
Lemma offer_fields_converts ch cols : converts cm.offer_fields_into_native cm.offer_fields_into_fidl (offer_fields_ok ch cols).
Proof.
  intros [s sp t tp] (Hs%offer_source_converts&H1%path_converts&Ht&H2%path_converts). cbn [o_source] in Ht.
  apply (target_converts ch cols (λ n, not_source n s)) in Ht.
  unfold cm.offer_fields_into_native. cbn [o_source o_source_path o_target o_target_path] in *. by fields.
Qed.
Lemma offer_storage_converts ch cols sts :
  converts cm.offer_storage_into_native cm.offer_storage_into_fidl (offer_storage_ok ch cols sts).
Proof.
  intros [ty s t] (Hty&(r&Hs&Hr)&(r'&Ht&Hr')). cbn in *. destruct ty as [ty|]; [|done]. subst s t.
  assert (∃ y, cm.storage_source_into_native (Some r) = Ok y ∧ cm.storage_source_into_fidl y = Some r) as Hsrc.
  { destruct r as [| | | |[n]| |]; try done; [by exists cm.StorageRealm|]. destruct Hr as (m&Hm&_). cbn in Hm. subst n.
    by exists (cm.StorageNamed m). }
  assert (∃ y, cm.target_into_native (Some r') = Ok y ∧ cm.target_into_fidl y = Some r') as Htgt.
  { apply (target_converts ch cols (λ _, True)). exists r'. split; [done|]. destruct r'; try done. by destruct Hr'. }
  unfold cm.offer_storage_into_native. cbn [os_type os_source os_target ounwrap rbind].
  destruct Hsrc as (y&->&E1), Htgt as (y'&->&E2). cbn [rbind]. eexists. split; [done|].
  unfold cm.offer_storage_into_fidl. destruct ty; cbn; by rewrite E1, E2.
Qed.
Lemma offer_converts ch cols sts : converts cm.offer_into_native cm.offer_into_fidl (offer_ok ch cols sts).
Proof.
  intros [o|o|o|] Ho; [apply offer_fields_converts in Ho as (y&E&<-)..|apply offer_storage_converts in Ho as (y&E&<-)|done].
  - exists (cm.OfferService y). cbn. by rewrite E.
  - exists (cm.OfferDirectory y). cbn. by rewrite E.
  - exists (cm.OfferStorageD y). cbn [cm.offer_into_native]. by rewrite E.
Qed.
Lemma child_converts : converts cm.child_into_native cm.child_into_fidl child_ok.
Proof.
  intros [n u [st|]] ((n'&Hn&_)&(u'&Hu&_)&Hst); [|done]. cbn in *. subst. by eexists.
Qed.
Lemma collection_converts : converts cm.collection_into_native cm.collection_into_fidl collection_ok.
Proof. intros [n [du|]] ((n'&Hn&_)&Hd); [|done]. cbn in *. subst. by eexists. Qed.
Lemma storage_converts ch : converts cm.storage_into_native cm.storage_into_fidl (storage_ok ch).
Proof.
  intros [n sp s] (H1%path_converts&Hs%offer_source_converts&(n'&Hn&_)). cbn in Hn. subst n.
  unfold cm.storage_into_native. cbn [storage_name storage_source_path storage_source ounwrap rbind] in *. by fields.
Qed.

Definition normal_decl {D : Type} (d : ComponentDecl D) : ComponentDecl D :=
  {| program := program d; uses := normal (uses d); exposes := normal (exposes d); offers := normal (offers d);
     children := normal (children d); collections := normal (collections d); storage := normal (storage d); facets := facets d |}.
Lemma normal_items {A} (l : option (list A)) : items (normal l) = items l.
Proof. by destruct l as [[|]|]. Qed.
Lemma normal_ok {D : Type} (d : ComponentDecl D) : decl_ok d → decl_ok (normal_decl d).
Proof. intros []. constructor; cbn; by rewrite ?normal_items. Qed.
Lemma normal_native {A B} (f : A → result cm.Error B) l : cm.vec_into_native f (normal l) = cm.vec_into_native f l.
Proof. by destruct l as [[|]|]. Qed.
Lemma decl_converts d :
  decl_ok d → ∃ n, cm.fidl_into_native d = Ok n ∧ cm.native_into_fidl n = normal_decl d ∧
    cm.fidl_into_native (cm.native_into_fidl n) = Ok n.
Proof.
  intros [Hch _ Hco _ Hst _ Hu He _ Ho _ _].
  destruct (converts_list _ _ _ _ child_converts Hch) as (ch&E1&F1).
  destruct (converts_list _ _ _ _ collection_converts Hco) as (co&E2&F2).
  destruct (converts_list _ _ _ _ (storage_converts _) Hst) as (st&E3&F3).
  destruct (converts_list _ _ _ _ use_converts Hu) as (us&E4&F4).
  destruct (converts_list _ _ _ _ (expose_converts _) He) as (ex&E5&F5).
  destruct (converts_list _ _ _ _ (offer_converts _ _ _) Ho) as (os&E6&F6).
  set (n := {| cm.program := program d; cm.uses := us; cm.exposes := ex; cm.offers := os; cm.children := ch;
    cm.collections := co; cm.storage := st; cm.facets := facets d |}).
  assert (cm.fidl_into_native d = Ok n) as En.
  { unfold cm.fidl_into_native. rewrite E4, E5, E6, E1, E2, E3. done. }
  assert (cm.native_into_fidl n = normal_decl d) as Fn.
  { unfold cm.native_into_fidl, normal_decl. cbn. by rewrite F1, F2, F3, F4, F5, F6. }
  exists n. split_and!; [done..|]. rewrite Fn, <- En. unfold cm.fidl_into_native, normal_decl. cbn. by rewrite !normal_native.
Qed.

(** * Dictionaries *)
Fixpoint clone_value_id (v : fdata.Value) : clone_value v = v.
Proof.
  destruct v as [| | | |l|l]; cbn; [done..| |].
  - f_equal. induction l as [|[v|] l IH]; cbn; [done|by rewrite clone_value_id, IH|by rewrite IH].
  - f_equal. induction l as [|[k [v|]] l IH]; cbn; [done|by rewrite clone_value_id, IH|by rewrite IH].
Qed.
Lemma clone_dictionary_id (d : Dictionary) : clone_dictionary d = d.
Proof. induction d as [|[k [v|]] d IH]; cbn; [done|..]; unfold clone_dictionary in IH; by rewrite ?clone_value_id, IH. Qed.
Lemma clone_id n : cm.clone n = n.
Proof. destruct n as [[p|] ? ? ? ? ? ? [f|]]; unfold cm.clone; cbn; by rewrite ?clone_dictionary_id. Qed.
Lemma collect_skips (l : list (str * Value)) m k :
  k ∉ map fst l → foldl (λ m e, <[e.1 := e.2]> m) m l !! k = (m : gmap str Value) !! k.
Proof.
  revert m. induction l as [|[k' v] l IH]; intros m Hk; [done|]. cbn in *. rewrite IH by set_solver.
  rewrite lookup_insert_ne; [done|]. set_solver.
Qed.
(** With distinct keys the map has what [find] finds, and [Null] where there is no value. *)
Lemma dictionary_agrees (d : Dictionary) k :
  NoDup (map fst d) →
  match dictionary_find d k with
  | Some v => from_fidl_dict d !! k = Some (from_value v)
  | None => from_fidl_dict d !! k = if decide (k ∈ map fst d) then Some Null else None
  end.
Proof.
  unfold from_fidl_dict, collect. generalize (∅ : gmap str Value) (lookup_empty k : (∅ : gmap str Value) !! k = None).
  induction d as [|[k' v] d IH]; intros m Hm Hd; [done|]. cbn in *. apply NoDup_cons in Hd as [Hk Hd].
  assert (map fst (map (λ e : str * option fdata.Value, (e.1, from_option e.2)) d) = map fst d) as Hfst by (by rewrite map_map).
  destruct (decide (k' = k)) as [->|Hn].
  - rewrite collect_skips by (by rewrite Hfst). rewrite lookup_insert_eq. destruct v as [v|]; cbn; [done|].
    by rewrite decide_True by left.
  - specialize (IH (<[k' := from_option v]> m)). rewrite lookup_insert_ne in IH by done. specialize (IH Hm Hd).
    destruct (dictionary_find d k); [done|]. rewrite IH. apply decide_ext. set_solver.
Qed.

(** * Routing *)
Lemma find_unique {A} (f : A → bool) (l : list A) x :
  (∀ y z, y ∈ l → z ∈ l → f y = true → f z = true → y = z) → List.find f l = Some x ↔ x ∈ l ∧ f x = true.
Proof.
  intros Hu. split.
  - intros H%find_some. by rewrite list_elem_of_In.
  - intros [Hx Hf]. destruct (List.find f l) as [y|] eqn:E.
    + apply find_some in E as [Hy Hfy]. f_equal. apply Hu; [by apply list_elem_of_In|done..].
    + apply list_elem_of_In in Hx. by rewrite (find_none _ _ E x Hx) in Hf.
Qed.
Lemma omap_once {A B} (k : A → option B) (l : list A) x y b :
  NoDup (omap k l) → x ∈ l → y ∈ l → k x = Some b → k y = Some b → x = y.
Proof.
  induction l as [|z l IH]; intros Hd Hx Hy Ex Ey; [by apply not_elem_of_nil in Hx|].
  cbn in Hd. destruct (k z) as [c|] eqn:Ez.
  - apply NoDup_cons in Hd as [Hc Hd]. apply elem_of_cons in Hx as [->|Hx], Hy as [->|Hy]; [done| | |by apply IH].
    + destruct Hc. apply list_elem_of_omap. exists y. split; [done|congruence].
    + destruct Hc. apply list_elem_of_omap. exists x. split; [done|congruence].
  - apply elem_of_cons in Hx as [->|Hx], Hy as [->|Hy]; [done|congruence|congruence|by apply IH].
Qed.
Lemma items_into_fidl {A B} (g : B → A) l : items (cm.vec_into_fidl g l) = map g l.
Proof. by destruct l. Qed.
Lemma elem_of_map {A B} (g : A → B) (l : list A) x : x ∈ l → g x ∈ map g l.
Proof. rewrite !list_elem_of_In. apply in_map. Qed.
Lemma omap_map {A B C} (k : B → option C) (g : A → B) l : omap k (map g l) = omap (λ x, k (g x)) l.
Proof. induction l as [|x l IH]; [done|]. cbn. by rewrite IH. Qed.

Definition declared_child (n : cm.ComponentDecl) (c : str) : Prop := ∃ x, x ∈ cm.children n ∧ cm.child_name x = c.
Definition declared_collection (n : cm.ComponentDecl) (c : str) : Prop :=
  ∃ x, x ∈ cm.collections n ∧ cm.collection_name x = c.
Definition expose_source (e : cm.ExposeDecl) : cm.ExposeSource :=
  match e with cm.ExposeService e | cm.ExposeDirectory e => cm.e_source e end.
Definition offer_target (o : cm.OfferDecl) : cm.OfferTarget :=
  match o with
  | cm.OfferService o | cm.OfferDirectory o => cm.o_target o
  | cm.OfferStorageD o => cm.os_target (cm.offer_storage o)
  end.
(** What an offer is from: a child, or the storage the component declares. *)
Definition from_child (o : cm.OfferDecl) (c : str) : Prop :=
  match o with cm.OfferService o | cm.OfferDirectory o => cm.o_source o = cm.OfferChild c | _ => False end.
Definition from_storage (o : cm.OfferDecl) (name : str) : Prop :=
  match o with cm.OfferStorageD o => cm.os_source (cm.offer_storage o) = cm.StorageNamed name | _ => False end.
(** A declaration in which capabilities can be routed. *)
Record routes (n : cm.ComponentDecl) : Prop := {
  r_expose cap e : cm.find_expose_source n cap = Some e ↔ e ∈ cm.exposes n ∧ cm.exposes_capability cap e = true;
  r_offer cap child coll o :
    cm.capability_path cap ≠ None →
    cm.find_offer_source n cap child coll = Some o ↔ o ∈ cm.offers n ∧ cm.offers_capability cap child coll o = true;
  r_storage name st : cm.find_storage_source n name = Some st ↔ st ∈ cm.storage n ∧ cm.storage_name st = name;
  r_expose_child e c : e ∈ cm.exposes n → expose_source e = cm.ExposeChild c → declared_child n c;
  r_offer_child o c : o ∈ cm.offers n → from_child o c → declared_child n c ∧ offer_target o ≠ cm.TargetChild c;
  r_target o :
    o ∈ cm.offers n →
    match offer_target o with cm.TargetChild c => declared_child n c | cm.TargetCollection c => declared_collection n c end;
  r_offer_storage o name :
    o ∈ cm.offers n → from_storage o name →
    ∃ st, cm.find_storage_source n name = Some st ∧
      ∀ c, cm.storage_source st = cm.OfferChild c → declared_child n c ∧ offer_target o ≠ cm.TargetChild c }.

Section routing.
Context (n : cm.ComponentDecl) (Hn : decl_ok (cm.native_into_fidl n)).
Lemma known_child c : c ∈ omap child_name (items (children (cm.native_into_fidl n))) ↔ declared_child n c.
Proof.
  cbn. rewrite items_into_fidl, omap_map, list_elem_of_omap. unfold declared_child. cbn. naive_solver.
Qed.
Lemma known_collection c : c ∈ omap collection_name (items (collections (cm.native_into_fidl n))) ↔ declared_collection n c.
Proof.
  cbn. rewrite items_into_fidl, omap_map, list_elem_of_omap. unfold declared_collection. cbn. naive_solver.
Qed.
Lemma routes_expose cap e : cm.find_expose_source n cap = Some e ↔ e ∈ cm.exposes n ∧ cm.exposes_capability cap e = true.
Proof.
  apply find_unique. pose proof (d_exposes_once _ Hn) as Hd. cbn in Hd. rewrite items_into_fidl, omap_map in Hd.
  intros y z Hy Hz Ey Ez. destruct (cm.capability_path cap) as [p|] eqn:Ep; [|by destruct cap, y].
  apply (omap_once _ _ y z (cm.to_string p) Hd); [done..| |].
  - destruct cap, y; try done; cbn in *; apply bool_decide_eq_true in Ey; injection Ep as <-; by rewrite <- Ey.
  - destruct cap, z; try done; cbn in *; apply bool_decide_eq_true in Ez; injection Ep as <-; by rewrite <- Ez.
Qed.
Lemma routes_storage name st : cm.find_storage_source n name = Some st ↔ st ∈ cm.storage n ∧ cm.storage_name st = name.
Proof.
  unfold cm.find_storage_source. rewrite find_unique; [by rewrite bool_decide_eq_true|].
  pose proof (d_storage_once _ Hn) as Hd. cbn in Hd. rewrite items_into_fidl, omap_map in Hd.
  intros y z Hy Hz Ey%bool_decide_eq_true Ez%bool_decide_eq_true. apply (omap_once _ _ y z name Hd); [done..|cbn; congruence|cbn; congruence].
Qed.
(** An offer that matches is to the child or to the collection, under the path. *)
Lemma offer_matches cap p child coll o :
  cm.capability_path cap = Some p → cm.offers_capability cap child coll o = true →
  match coll with
  | None => child_target (cm.offer_into_fidl o) = Some (child, cm.to_string p)
  | Some c => collection_target (cm.offer_into_fidl o) = Some (c, cm.to_string p)
  end.
Proof.
  intros Ep Ho.
  assert (∀ f, cm.is_capability_match child coll p (cm.o_target f) (cm.o_target_path f) = true →
    match coll with
    | None => to_child (cm.offer_fields_into_fidl f) = Some (child, cm.to_string p)
    | Some c => to_collection (cm.offer_fields_into_fidl f) = Some (c, cm.to_string p)
    end) as Hm.
  { intros [s sp [t|t] tp]; cbn; destruct coll; try done; intros [->%bool_decide_eq_true ->%bool_decide_eq_true]%andb_true_iff; done. }
  destruct cap, o; try done; cbn in Ep; injection Ep as <-; by apply Hm.
Qed.
Lemma routes_offer cap child coll o :
  cm.capability_path cap ≠ None →
  cm.find_offer_source n cap child coll = Some o ↔ o ∈ cm.offers n ∧ cm.offers_capability cap child coll o = true.
Proof.
  intros Hc. apply find_unique. destruct (cm.capability_path cap) as [p|] eqn:Ep; [|done].
  pose proof (d_child_targets_once _ Hn) as H1. pose proof (d_collection_targets_once _ Hn) as H2. cbn in H1, H2.
  rewrite items_into_fidl, omap_map in H1, H2.
  intros y z Hy Hz Ey%(offer_matches _ p) Ez%(offer_matches _ p); [|done..].
  destruct coll; [by eapply (omap_once _ _ y z _ H2)|by eapply (omap_once _ _ y z _ H1)].
Qed.
Lemma refers_declared c : refers (omap child_name (items (children (cm.native_into_fidl n))))
    {| cr_name := Some c; cr_collection := None |} → declared_child n c.
Proof. intros [(m&Hm&_&Hin) _]. cbn in Hm. injection Hm as <-. by apply known_child. Qed.
Lemma offer_is_ok o : o ∈ cm.offers n →
  offer_ok (omap child_name (items (children (cm.native_into_fidl n))))
    (omap collection_name (items (collections (cm.native_into_fidl n)))) (items (storage (cm.native_into_fidl n))) (cm.offer_into_fidl o).
Proof.
  intros Ho. pose proof (d_offers _ Hn) as Hall. rewrite Forall_forall in Hall. apply Hall. cbn. rewrite items_into_fidl.
  by apply elem_of_map.
Qed.
Lemma storage_is_ok st : st ∈ cm.storage n →
  storage_ok (omap child_name (items (children (cm.native_into_fidl n)))) (cm.storage_into_fidl st).
Proof.
  intros Hst. pose proof (d_storage _ Hn) as Hall. rewrite Forall_forall in Hall. apply Hall. cbn. rewrite items_into_fidl.
  by apply elem_of_map.
Qed.
Lemma routes_expose_child e c : e ∈ cm.exposes n → expose_source e = cm.ExposeChild c → declared_child n c.
Proof.
  intros He Ec. pose proof (d_exposes _ Hn) as Hall. rewrite Forall_forall in Hall. cbn in Hall. rewrite items_into_fidl in Hall.
  specialize (Hall _ (elem_of_map cm.expose_into_fidl _ _ He)).
  destruct e as [[s sp tp]|[s sp tp]]; cbn in Ec; subst s; destruct Hall as [(r&[= <-]&Hr) _]; by apply refers_declared.
Qed.
Lemma routes_offer_child o c : o ∈ cm.offers n → from_child o c → declared_child n c ∧ offer_target o ≠ cm.TargetChild c.
Proof.
  intros Ho Ec. apply offer_is_ok in Ho.
  destruct o as [[s sp t tp]|[s sp t tp]|]; [cbn in Ec; subst s; destruct Ho as ((r&[= <-]&Hr)&_&(r'&[= <-]&Ht)&_)..|done].
  all: split; [by apply refers_declared|]; cbn; intros ->; destruct Ht as [_ Ht]; by apply (Ht c eq_refl _ eq_refl).
Qed.
Lemma routes_target o : o ∈ cm.offers n →
  match offer_target o with cm.TargetChild c => declared_child n c | cm.TargetCollection c => declared_collection n c end.
Proof.
  intros Ho%offer_is_ok.
  assert (∃ r, Some r = cm.target_into_fidl (offer_target o) ∧
    match r with
    | RefChild c => refers (omap child_name (items (children (cm.native_into_fidl n)))) c
    | RefCollection c => has (λ m, ok_name m ∧ m ∈ omap collection_name (items (collections (cm.native_into_fidl n)))) (colr_name c)
    | _ => False
    end) as (r&Er&Hr).
  { destruct o as [o|o|o]; [destruct Ho as (_&_&(r&Er&Hr)&_)..|destruct Ho as (_&_&(r&Er&Hr))]; exists r;
      (split; [by rewrite <- Er|]); destruct r; try done; by destruct Hr. }
  destruct (offer_target o); injection Er as ->; [by apply refers_declared|].
  destruct Hr as (m&[= <-]&_&Hin). by apply known_collection.
Qed.
Lemma routes_offer_storage o name : o ∈ cm.offers n → from_storage o name →
  ∃ st, cm.find_storage_source n name = Some st ∧
    ∀ c, cm.storage_source st = cm.OfferChild c → declared_child n c ∧ offer_target o ≠ cm.TargetChild c.
Proof.
  intros Ho%offer_is_ok Ec. destruct o as [| |o]; [done..|]. cbn in Ec. destruct Ho as (_&(r&Er&Hr)&(r'&Er'&Hr')). cbn in Er, Er'.
  rewrite Ec in Er. injection Er as <-. destruct Hr as (m&[= <-]&_&Hin).
  assert (∃ st, st ∈ cm.storage n ∧ cm.storage_name st = name) as (st&Hst&Hname).
  { cbn in Hin. rewrite items_into_fidl, omap_map, list_elem_of_omap in Hin. cbn in Hin. naive_solver. }
  exists st. split; [by apply routes_storage|]. intros c Hc. split.
  - destruct (storage_is_ok st Hst) as (_&(r&Er&Hr)&_). cbn in Er. rewrite Hc in Er. injection Er as <-. by apply refers_declared.
  - cbn [offer_target]. intros Ht. rewrite Ht in Er'. injection Er' as <-. destruct Hr' as [_ Hno].
    apply (Hno c name (cm.storage_into_fidl st) eq_refl); [cbn; by rewrite Ec| |cbn; congruence|].
    + cbn. rewrite items_into_fidl. by apply elem_of_map.
    + unfold source_child. cbn. by rewrite Hc.
Qed.
Lemma decl_routes : routes n.
Proof.
  exact (Build_routes n routes_expose routes_offer routes_storage routes_expose_child routes_offer_child routes_target
    routes_offer_storage).
Qed.
End routing.

(** * Examples *)
Definition text (s : string) : str := map (λ c, Z.of_nat (Ascii.nat_of_ascii c)) (String.list_ascii_of_string s).
Definition to_logger : Ref := RefChild {| cr_name := Some (text "logger"); cr_collection := None |}.
Definition data_from (source : Ref) : OfferDecl :=
  OfferStorage {| os_type := Some SData; os_source := Some source; os_target := Some to_logger |}.
(** A realm with two children: the service of one is offered to the other and exposed. *)
Definition realm (us : list UseDecl) (os : list OfferDecl) : ComponentDecl Dictionary :=
  {| program := None; uses := Some us;
     exposes := Some [ExposeService {| e_source := Some to_logger; e_source_path := Some (text "/svc/log");
       e_target_path := Some (text "/svc/fuchsia.log") |}];
     offers := Some (OfferService {| o_source := Some to_logger; o_source_path := Some (text "/svc/log");
       o_target := Some (RefChild {| cr_name := Some (text "net"); cr_collection := None |});
       o_target_path := Some (text "/svc/log") |} :: os);
     children := Some [
       {| child_name := Some (text "logger"); child_url := Some (text "fuchsia-pkg://logger"); child_startup := Some Lazy |};
       {| child_name := Some (text "net"); child_url := Some (text "fuchsia-pkg://net"); child_startup := Some Eager |}];
     collections := Some [];
     storage := Some [{| storage_name := Some (text "memfs"); storage_source_path := Some (text "/memfs");
       storage_source := Some SelfRef |}];
     facets := Some [(text "k", Some (fdata.Bit true))] |}.
Definition uses_path (source : string) : UseDecl :=
  UseService {| u_source := Some RealmRef; u_source_path := Some (text source); u_target_path := Some (text "/svc/a") |}.
(** The target paths of [uses] are not compared. *)
Example uses_may_collide : validate (realm [uses_path "/svc/a"; uses_path "/svc/b"] []) = Ok tt.
Proof. vm_compute. reflexivity. Qed.
(** Two offers of one storage type to one child are accepted, and the first is taken. *)
Example storage_offers_may_collide :
  let os := [data_from RealmRef; data_from (RefStorage {| sr_name := Some (text "memfs") |})] in
  validate (realm [] os) = Ok tt ∧
  (n <-? cm.try_from (realm [] os) ;;
   Ok (option_map cm.capability_of_offer (cm.find_offer_source n (cm.Storage SData) (text "logger") None),
       option_map (λ o, match o with cm.OfferStorageD o => Some (cm.os_source (cm.offer_storage o)) | _ => None end)
         (cm.find_offer_source n (cm.Storage SData) (text "logger") None)))
  = Ok (Some (cm.Storage SData), Some (Some cm.StorageRealm)).
Proof. vm_compute. done. Qed.
(** With a key twice the map has the last value and [find] the first. *)
Example dictionary_key_twice :
  let d := [(text "k", Some (fdata.Inum 1)); (text "k", Some (fdata.Inum 2))] in
  dictionary_find d (text "k") = Some (fdata.Inum 1) ∧ from_fidl_dict d !! text "k" = Some (Inum 2).
Proof. vm_compute. done. Qed.

(** * What is shown *)
(** C20: The validator returns for every declaration. It accepts the well-formed ones: all required
    fields, unique names and target paths, references to what is declared. For any other it
    returns its errors. *)
Theorem manifest_validated `{RS : RegexSpec} {D : Type} (d : ComponentDecl D) :
  match validate d with
  | Ok _ => decl_ok d
  | Err es => ¬ decl_ok d ∧ es ≠ []
  | Panic | OutOfFuel => False
  end.
Proof. apply validate_spec. Qed.

Lemma manifest_validated_witness :
  validate (realm [uses_path "/svc/a"] []) = Ok tt ∧ decl_ok (realm [uses_path "/svc/a"] []).
Proof.
  assert (validate (realm [uses_path "/svc/a"] []) = Ok tt) as E by (vm_compute; reflexivity).
  split; [exact E|]. pose proof (manifest_validated (realm [uses_path "/svc/a"] [])) as H. rewrite E in H. exact H.
Defined.

(** C21: The conversion of a declaration never panics. The native form of a valid declaration
    converts back to it, with an empty list as no list at all; what it converts to is valid
    again and has the same native form. *)
Theorem manifest_roundtrip `{RS : RegexSpec} (d : ComponentDecl Dictionary) :
  match cm.try_from d with
  | Ok n => decl_ok d ∧ cm.native_into_fidl n = normal_decl d ∧ cm.try_from (cm.native_into_fidl n) = Ok n ∧ cm.clone n = n
  | Err (cm.Validate es) => ¬ decl_ok d ∧ es ≠ []
  | _ => False
  end.
Proof.
  unfold cm.try_from. pose proof (validate_spec d) as Hv. destruct (validate d) as [[]|es| |]; [|done..].
  destruct (decl_converts d Hv) as (n&En&Fn&Bn). rewrite En. split_and!; [done..| |apply clone_id].
  pose proof (validate_spec (cm.native_into_fidl n)) as Hv'. rewrite Fn in *. apply normal_ok in Hv.
  destruct (validate (normal_decl d)); naive_solver.
Qed.

Lemma manifest_roundtrip_witness :
  ∃ n, cm.try_from (realm [uses_path "/svc/a"] []) = Ok n ∧
    cm.native_into_fidl n = normal_decl (realm [uses_path "/svc/a"] []) ∧ cm.try_from (cm.native_into_fidl n) = Ok n.
Proof.
  destruct (cm.try_from (realm [uses_path "/svc/a"] [])) as [n|e| |] eqn:E.
  2-4: by vm_compute in E.
  exists n. pose proof (manifest_roundtrip (realm [uses_path "/svc/a"] [])) as H. rewrite E in H.
  split; [reflexivity|]. split; apply H.
Defined.

(** C22: In a declaration that was converted the look-ups find the one match there is, and what
    capabilities come from and go to is declared. *)
Theorem manifest_routes `{RS : RegexSpec} (d : ComponentDecl Dictionary) (n : cm.ComponentDecl) :
  cm.try_from d = Ok n → routes n.
Proof.
  unfold cm.try_from. pose proof (validate_spec d) as Hv. destruct (validate d) as [[]|es| |]; [|done..].
  destruct (decl_converts d Hv) as (n'&->&Fn&_). intros [= <-]. apply decl_routes. rewrite Fn. by apply normal_ok.
Qed.

Lemma manifest_routes_witness :
  ∃ n, cm.try_from (realm [] [data_from (RefStorage {| sr_name := Some (text "memfs") |})]) = Ok n ∧ routes n.
Proof.
  destruct (cm.try_from (realm [] [data_from (RefStorage {| sr_name := Some (text "memfs") |})])) as [n|e| |] eqn:E.
  2-4: by vm_compute in E.
  exists n. split; [reflexivity|]. exact (manifest_routes _ n E).
Defined.

(** A capability path is parsed from exactly the absolute paths without empty components, and
    is printed and split as them. *)
Theorem capability_path_parsed s :
  match cm.path_try_from s with
  | Ok p => is_path s ∧ cm.to_string p = s ∧
      Forall (λ c, c ≠ [] ∧ slash ∉ c) (cm.path_split p) ∧ s = concat (cons slash <$> cm.path_split p)
  | Err e => ¬ is_path s ∧ e = cm.InvalidCapabilityPath s
  | Panic | OutOfFuel => False
  end.
Proof. apply path_spec. Qed.
