(* ===== verification/VfsFile.v ===== *)
(** Pseudo files ([public/rust/fuchsia-vfs/pseudo-fs/src/file]: [connection.rs], [simple.rs],
    [common.rs]; and [common.rs] of [src]): the flags and rights of connections, the requests a
    connection serves from its buffer, and files backed by handlers.  A channel is represented by
    a number.  The constants of [fuchsia.io] are parameters. *)

From S2P Require Import Prelude Std.
Open Scope rust_scope.

(** * Constants of [fuchsia.io] *)
Class IoConstants := {
  OPEN_RIGHT_READABLE : Z; OPEN_RIGHT_WRITABLE : Z; OPEN_RIGHT_ADMIN : Z;
  OPEN_FLAG_CREATE : Z; OPEN_FLAG_CREATE_IF_ABSENT : Z; OPEN_FLAG_TRUNCATE : Z; OPEN_FLAG_DIRECTORY : Z;
  OPEN_FLAG_APPEND : Z; OPEN_FLAG_NODE_REFERENCE : Z; OPEN_FLAG_DESCRIBE : Z; OPEN_FLAG_POSIX : Z;
  CLONE_FLAG_SAME_RIGHTS : Z; OPEN_FLAGS_ALLOWED_WITH_NODE_REFERENCE : Z;
  MODE_PROTECTION_MASK : Z; MODE_TYPE_FILE : Z; MODE_TYPE_DIRECTORY : Z;
  INO_UNKNOWN : Z;
  DIRENT_TYPE_UNKNOWN : Z; DIRENT_TYPE_DIRECTORY : Z; DIRENT_TYPE_BLOCK_DEVICE : Z; DIRENT_TYPE_FILE : Z;
  DIRENT_TYPE_SOCKET : Z; DIRENT_TYPE_SERVICE : Z;
  MAX_FILENAME : Z; MAX_BUF : Z;
  WATCH_MASK_EXISTING : Z; WATCH_MASK_IDLE : Z; WATCH_MASK_ADDED : Z; WATCH_MASK_REMOVED : Z;
  WATCH_EVENT_EXISTING : Z; WATCH_EVENT_IDLE : Z; WATCH_EVENT_ADDED : Z; WATCH_EVENT_REMOVED : Z }.
(** The flags are bits, and different ones. *)
Class IoSpec `{!IoConstants} := {
  flag_bits : list Z;
  flags_are_bits :
    [OPEN_RIGHT_READABLE; OPEN_RIGHT_WRITABLE; OPEN_RIGHT_ADMIN; OPEN_FLAG_CREATE; OPEN_FLAG_CREATE_IF_ABSENT;
     OPEN_FLAG_TRUNCATE; OPEN_FLAG_DIRECTORY; OPEN_FLAG_APPEND; OPEN_FLAG_NODE_REFERENCE; OPEN_FLAG_DESCRIBE;
     OPEN_FLAG_POSIX; CLONE_FLAG_SAME_RIGHTS] = Z.pow 2 <$> flag_bits;
  flag_bits_range : Forall (λ b, 0 ≤ b < 32) flag_bits;
  flag_bits_once : NoDup flag_bits;
  node_reference_flags : OPEN_FLAGS_ALLOWED_WITH_NODE_REFERENCE = Z.lor OPEN_FLAG_DIRECTORY OPEN_FLAG_DESCRIBE;
  max_filename : 1 < MAX_FILENAME ≤ 255;
  max_buf : MAX_FILENAME + 2 ≤ MAX_BUF < 2 ^ 32;
  ino_unknown : 0 ≤ INO_UNKNOWN < 2 ^ 64;
  dirent_types : is_byte DIRENT_TYPE_FILE ∧ is_byte DIRENT_TYPE_DIRECTORY;
  watch_events : Forall is_byte [WATCH_EVENT_EXISTING; WATCH_EVENT_IDLE; WATCH_EVENT_ADDED; WATCH_EVENT_REMOVED];
  watch_events_once : NoDup [WATCH_EVENT_EXISTING; WATCH_EVENT_IDLE; WATCH_EVENT_ADDED; WATCH_EVENT_REMOVED] }.

(** [fuchsia_zircon::Status] *)
Inductive Status :=
| OK | ACCESS_DENIED | NOT_SUPPORTED | OUT_OF_RANGE | INVALID_ARGS | NOT_DIR | NOT_FILE | BAD_PATH | NOT_FOUND
| ALREADY_EXISTS | BUFFER_TOO_SMALL | IO_REFUSED
| OtherStatus (raw : Z).
#[global] Instance Status_eq_dec : EqDecision Status.
Proof. solve_decision. Defined.

(** * Channels

    The messages sent on each channel, in order. *)
Inductive NodeInfo := FileInfo | DirectoryInfo.
Record NodeAttributes := { attr_mode : Z; attr_id : Z; content_size : Z; storage_size : Z; link_count : Z }.
Inductive Message :=
| OnOpen (s : Status) (info : option NodeInfo)
| DescribeReply (info : NodeInfo)
| StatusReply (s : Status)
| AttrReply (s : Status) (attributes : NodeAttributes)
| IoctlReply (s : Status)
| ReadReply (s : Status) (content : list Z)
| CountReply (s : Status) (n : Z)
| FlagsReply (s : Status) (flags : Z)
| BufferReply (s : Status) (content : option (list Z))
| DirentsReply (s : Status) (content : list Z)
| TokenReply (s : Status)
| WatchMessage (content : list Z).
(** Channels whose other end is closed, channels the executor cannot wait for, channels with a
    message to read, the messages that are not too long for the kernel, and what was sent. *)
Record Wire := {
  closed : gset Z; unattached : gset Z; readable : gset Z; takes : Message → bool; sent : list (Z * Message) }.
Inductive FidlError := FidlWrite | FidlAttach.
Definition write (channel : Z) (m : Message) : M FidlError Wire unit :=
  λ w, if bool_decide (channel ∈ closed w) || negb (takes w m) then (Err FidlWrite, w)
       else (Ok tt, {| closed := closed w; unattached := unattached w; readable := readable w; takes := takes w;
                       sent := sent w ++ [(channel, m)] |}).
(** [ServerEnd::into_stream_and_control_handle], [Channel::from_channel] *)
Definition attach (channel : Z) : M FidlError Wire unit :=
  reading (λ w, if bool_decide (channel ∈ unattached w) then Err FidlAttach else Ok tt).
(** An error that is ignored. *)
Definition ignore {E E' S : Type} (m : M E S unit) : M E' S unit :=
  λ s, match m s with
       | (Ok _, s) | (Err _, s) => (Ok tt, s)
       | (Panic, s) => (Panic, s)
       | (OutOfFuel, s) => (OutOfFuel, s)
       end.

(** Whether the kernel can create a VMO of a size, and write to it. *)
Class VmoSystem := { vmo_create : Z → bool; vmo_write : list Z → bool }.

Section vfs.
Context `{IO : !IoConstants, VM : !VmoSystem}.

(** * Flags and rights *)
Definition has_flag (flags f : Z) : bool := negb (Z.land flags f =? 0).
Definition FS_RIGHTS : Z := Z.lor (Z.lor OPEN_RIGHT_READABLE OPEN_RIGHT_WRITABLE) OPEN_RIGHT_ADMIN.
Definition stricter_or_same_rights (parent_flags flags : Z) : bool :=
  let parent_rights := Z.land parent_flags FS_RIGHTS in
  let rights := Z.land flags FS_RIGHTS in
  Z.ldiff rights parent_rights =? 0.
Definition inherit_rights_for_clone (parent_flags flags : Z) : result Status Z :=
  if has_flag flags CLONE_FLAG_SAME_RIGHTS && has_flag flags FS_RIGHTS then Err INVALID_ARGS
  else
    let flags := Z.lor flags (Z.land parent_flags (Z.lor OPEN_FLAG_APPEND OPEN_FLAG_NODE_REFERENCE)) in
    let flags :=
      if has_flag flags CLONE_FLAG_SAME_RIGHTS
      then Z.lor (Z.ldiff flags CLONE_FLAG_SAME_RIGHTS) (Z.land parent_flags FS_RIGHTS) else flags in
    if negb (stricter_or_same_rights parent_flags flags) then Err ACCESS_DENIED else Ok flags.
Definition send_on_open_with_error {E : Type} (flags server_end : Z) (status : Status) : M E Wire unit :=
  if bool_decide (status = OK) then panic
  else if negb (has_flag flags OPEN_FLAG_DESCRIBE) then ret tt
  else ignore (attach server_end ;;; write server_end (OnOpen status None)).

(** [new_connection_validate_flags] of [file/common.rs]; the bits [x & !y] are [Z.ldiff x y]. *)
Definition file_validate_flags (flags mode : Z) (readable writable : bool) : result Status Z :=
  if negb (Z.ldiff (Z.ldiff mode MODE_PROTECTION_MASK) MODE_TYPE_FILE =? 0) then
    if negb (Z.land (Z.ldiff mode MODE_PROTECTION_MASK) MODE_TYPE_DIRECTORY =? 0) then Err NOT_DIR else Err INVALID_ARGS
  else
    let flags :=
      if has_flag flags OPEN_FLAG_NODE_REFERENCE
      then Z.land (Z.ldiff flags OPEN_FLAG_NODE_REFERENCE) (Z.lor OPEN_FLAG_DIRECTORY OPEN_FLAG_DESCRIBE) else flags in
    if has_flag flags OPEN_FLAG_DIRECTORY then Err NOT_DIR
    else
      let flags := Z.ldiff flags OPEN_FLAG_POSIX in
      let allowed_flags :=
        Z.lor (Z.lor OPEN_FLAG_DESCRIBE (if readable then OPEN_RIGHT_READABLE else 0))
          (if writable then Z.lor OPEN_RIGHT_WRITABLE OPEN_FLAG_TRUNCATE else 0) in
      let prohibited_flags :=
        Z.ldiff (Z.lor (if readable then OPEN_FLAG_TRUNCATE else 0) (if writable then OPEN_FLAG_APPEND else 0)) allowed_flags in
      if negb readable && has_flag flags OPEN_RIGHT_READABLE then Err ACCESS_DENIED
      else if negb writable && has_flag flags OPEN_RIGHT_WRITABLE then Err ACCESS_DENIED
      else if has_flag flags prohibited_flags then Err INVALID_ARGS
      else if negb (Z.ldiff flags allowed_flags =? 0) then Err NOT_SUPPORTED
      else Ok flags.

(** * Connections to files *)
Record FileConnection := {
  requests : Z; flags : Z; protection_attributes : Z; seek : Z; capacity : Z; buffer : list Z; was_written : bool }.
Definition with_seek (x : Z) (c : FileConnection) : FileConnection :=
  {| requests := requests c; flags := flags c; protection_attributes := protection_attributes c; seek := x;
     capacity := capacity c; buffer := buffer c; was_written := was_written c |}.
Definition with_buffer (x : list Z) (c : FileConnection) : FileConnection :=
  {| requests := requests c; flags := flags c; protection_attributes := protection_attributes c; seek := seek c;
     capacity := capacity c; buffer := x; was_written := was_written c |}.
Definition written (c : FileConnection) : FileConnection :=
  {| requests := requests c; flags := flags c; protection_attributes := protection_attributes c; seek := seek c;
     capacity := capacity c; buffer := buffer c; was_written := true |}.

Inductive SeekOrigin := Start | Current | End_.
#[global] Instance SeekOrigin_eq_dec : EqDecision SeekOrigin.
Proof. solve_decision. Defined.
Inductive FileRequest :=
| FClone (flags object : Z) | FClose | FDescribe | FSync | FGetAttr | FSetAttr | FIoctl
| FRead (count : Z) | FReadAt (offset count : Z) | FWrite (data : list Z) | FWriteAt (offset : Z) (data : list Z)
| FSeek (offset : Z) (start : SeekOrigin) | FTruncate (length : Z) | FGetFlags | FSetFlags (flags : Z) | FGetBuffer (flags : Z).
#[global] Instance FileRequest_eq_dec : EqDecision FileRequest.
Proof. solve_decision. Defined.

(** Requests that change the connection return it changed; the connection of a request that fails
    is dropped. *)
Abbreviation W := (M FidlError Wire).
(** [self.buffer[from..to]] *)
Definition slice_range (b : list Z) (from to_ : Z) : result FidlError (list Z) :=
  if (from <=? to_) && (to_ <=? zlen b) then Ok (slice from (to_ - from) b) else Panic.
(** [Vec::resize]: a vector has at most [isize::MAX] bytes. *)
Definition resize (n : Z) (b : list Z) : result FidlError (list Z) :=
  if n <? 2 ^ 63 then Ok (take (Z.to_nat n) b ++ zeros (n - zlen b)) else Panic.
Definition handle_read_at (self : FileConnection) (offset count : Z) : W Z :=
  if negb (has_flag (flags self) OPEN_RIGHT_READABLE) then write (requests self) (ReadReply ACCESS_DENIED []) ;;; ret 0
  else
    let len := zlen (buffer self) in
    if len <=? offset then write (requests self) (ReadReply OK []) ;;; ret 0
    else
      rest <- lift (usub len offset) ;;
      let count := Z.min count rest in
      to_ <- lift (uadd 64 offset count) ;;
      content <- lift (slice_range (buffer self) offset to_) ;;
      write (requests self) (ReadReply OK content) ;;;
      ret count.
Definition handle_read (self : FileConnection) (count : Z) : W FileConnection :=
  actual <- handle_read_at self (seek self) count ;;
  pos <- lift (uadd 64 (seek self) actual) ;;
  ret (with_seek pos self).
Definition handle_write_at (self : FileConnection) (offset : Z) (content : list Z) : W (FileConnection * Z) :=
  if negb (has_flag (flags self) OPEN_RIGHT_WRITABLE) then write (requests self) (CountReply ACCESS_DENIED 0) ;;; ret (self, 0)
  else
    let effective_capacity := Z.max (zlen (buffer self)) (capacity self) in
    if effective_capacity <=? offset then write (requests self) (CountReply OUT_OF_RANGE 0) ;;; ret (self, 0)
    else
      rest <- lift (usub effective_capacity offset) ;;
      let actual := Z.min rest (zlen content) in
      to_ <- lift (uadd 64 offset actual) ;;
      buffer' <- lift (if zlen (buffer self) <=? to_ then resize to_ (buffer self) else Ok (buffer self)) ;;
      lift (slice_range buffer' offset to_) ;;;
      source <- lift (slice_range content 0 actual) ;;
      let self := written (with_buffer (splice offset source buffer') self) in
      write (requests self) (CountReply OK actual) ;;;
      ret (self, actual).
Definition handle_write (self : FileConnection) (content : list Z) : W FileConnection :=
  r <- handle_write_at self (seek self) content ;;
  let (self, actual) := (r : FileConnection * Z) in
  pos <- lift (uadd 64 (seek self) actual) ;;
  ret (with_seek pos self).
(** The sums are of [i128]. *)
Definition handle_seek (self : FileConnection) (offset : Z) (start : SeekOrigin) : W FileConnection :=
  let new_seek :=
    match start with Start => offset | Current => seek self + offset | End_ => zlen (buffer self) + offset end in
  let effective_capacity := Z.max (zlen (buffer self)) (capacity self) in
  if (new_seek <? 0) || (effective_capacity <=? new_seek)
  then write (requests self) (CountReply OUT_OF_RANGE (seek self)) ;;; ret self
  else write (requests self) (CountReply OK new_seek) ;;; ret (with_seek new_seek self).
Definition handle_truncate (self : FileConnection) (length : Z) : W FileConnection :=
  if negb (has_flag (flags self) OPEN_RIGHT_WRITABLE) then write (requests self) (StatusReply ACCESS_DENIED) ;;; ret self
  else
    let effective_capacity := Z.max (zlen (buffer self)) (capacity self) in
    if effective_capacity <? length then write (requests self) (StatusReply OUT_OF_RANGE) ;;; ret self
    else
      buffer' <- lift (resize length (buffer self)) ;;
      let new_effective_capacity := Z.max length (capacity self) in
      write (requests self) (StatusReply OK) ;;;
      ret (with_seek (Z.min (seek self) new_effective_capacity) (with_buffer buffer' self)).
(** The content of the VMO stands for it. *)
Definition handle_get_buffer (self : FileConnection) (flags_ : Z) : W unit :=
  match has_flag (flags self) OPEN_RIGHT_READABLE, has_flag (flags self) OPEN_RIGHT_WRITABLE,
        has_flag flags_ OPEN_RIGHT_READABLE, has_flag flags_ OPEN_RIGHT_WRITABLE with
  | true, false, true, false =>
      lift (if vmo_create (zlen (buffer self)) then Ok tt else Panic) ;;;
      lift (if vmo_write (buffer self) then Ok tt else Panic) ;;;
      write (requests self) (BufferReply OK (Some (buffer self)))
  | _, true, _, _ => write (requests self) (BufferReply NOT_SUPPORTED None)
  | _, _, _, _ => write (requests self) (BufferReply ACCESS_DENIED None)
  end.
Definition file_attributes (mode : Z) : NodeAttributes :=
  {| attr_mode := mode; attr_id := INO_UNKNOWN; content_size := 0; storage_size := 0; link_count := 1 |}.
(** [FileConnection::handle_request] *)
Definition connection_request (self : FileConnection) (req : FileRequest) : W FileConnection :=
  match req with
  | FClone _ _ | FClose => panic
  | FDescribe => write (requests self) (DescribeReply FileInfo) ;;; ret self
  | FSync => write (requests self) (StatusReply NOT_SUPPORTED) ;;; ret self
  | FGetAttr =>
      write (requests self) (AttrReply OK (file_attributes (Z.lor MODE_TYPE_FILE (protection_attributes self)))) ;;; ret self
  | FSetAttr => write (requests self) (StatusReply NOT_SUPPORTED) ;;; ret self
  | FIoctl => write (requests self) (IoctlReply NOT_SUPPORTED) ;;; ret self
  | FRead count => handle_read self count
  | FReadAt offset count => handle_read_at self offset count ;;; ret self
  | FWrite data => handle_write self data
  | FWriteAt offset data => r <- handle_write_at self offset data ;; ret (fst r)
  | FSeek offset start => handle_seek self offset start
  | FTruncate length => handle_truncate self length
  | FGetFlags => write (requests self) (FlagsReply OK (flags self)) ;;; ret self
  | FSetFlags _ => write (requests self) (StatusReply NOT_SUPPORTED) ;;; ret self
  | FGetBuffer flags_ => handle_get_buffer self flags_ ;;; ret self
  end.
(** An error of the channel of a new connection drops the connection. *)
Definition ok_or_none {E A : Type} (m : M FidlError Wire A) : M E Wire (option A) :=
  λ w, match m w with
       | (Ok a, w) => (Ok (Some a), w)
       | (Err _, w) => (Ok None, w)
       | (Panic, w) => (Panic, w)
       | (OutOfFuel, w) => (OutOfFuel, w)
       end.
Definition create_connection {E : Type} (flags_ protection server_end capacity_ : Z) (buffer_ : list Z) (was_written_ : bool)
    : M E Wire (option FileConnection) :=
  ok_or_none
    (attach server_end ;;;
     (if has_flag flags_ OPEN_FLAG_DESCRIBE then write server_end (OnOpen OK (Some FileInfo)) else ret tt) ;;;
     ret {| requests := server_end; flags := flags_; protection_attributes := protection; seek := 0; capacity := capacity_;
            buffer := buffer_; was_written := was_written_ |}).

End vfs.

(** * Files

    The handlers of the owner change a state of the owner. *)
Section file.
Context `{IO : !IoConstants, VM : !VmoSystem} {O : Type}.
Record PseudoFile := {
  file_protection : Z;
  on_read : option (M Status O (list Z));
  file_capacity : Z;
  on_write : option (list Z → M Status O unit);
  connections : list FileConnection }.
Definition with_connections (x : list FileConnection) (f : PseudoFile) : PseudoFile :=
  {| file_protection := file_protection f; on_read := on_read f; file_capacity := file_capacity f; on_write := on_write f;
     connections := x |}.
Definition file_new (protection : Z) (on_read_ : option (M Status O (list Z))) (capacity_ : Z)
    (on_write_ : option (list Z → M Status O unit)) : PseudoFile :=
  {| file_protection := protection; on_read := on_read_; file_capacity := capacity_; on_write := on_write_; connections := [] |}.
Definition read_only_attr (protection : Z) (on_read_ : M Status O (list Z)) : PseudoFile :=
  file_new (Z.land protection MODE_PROTECTION_MASK) (Some on_read_) 0 None.
Definition write_only_attr (protection capacity_ : Z) (on_write_ : list Z → M Status O unit) : PseudoFile :=
  file_new (Z.land protection MODE_PROTECTION_MASK) None capacity_ (Some on_write_).
Definition read_write_attr (protection : Z) (on_read_ : M Status O (list Z)) (capacity_ : Z)
    (on_write_ : list Z → M Status O unit) : PseudoFile :=
  file_new (Z.land protection MODE_PROTECTION_MASK) (Some on_read_) capacity_ (Some on_write_).
(** The handler of the [_str] files: only UTF-8 is passed on. *)
Definition write_str (on_write_ : list Z → M Status O unit) (bytes : list Z) : M Status O unit :=
  if utf8_valid bytes then on_write_ bytes else fail INVALID_ARGS.

(** The state of the owner and the channels. *)
Record World := { owner : O; wire : Wire }.
Abbreviation V E := (M E World).
Definition on_wire {E A : Type} (m : M E Wire A) : V E A :=
  λ w, let (r, x) := m (wire w) in (r, {| owner := owner w; wire := x |}).
Definition on_owner {E A : Type} (m : M E O A) : V E A :=
  λ w, let (r, x) := m (owner w) in (r, {| owner := x; wire := wire w |}).

(** The outcome as a value. *)
Definition attempt {E E' S A : Type} (m : M E S A) : M E' S (A + E) :=
  λ s, match m s with
       | (Ok a, s) => (Ok (inl a), s)
       | (Err e, s) => (Ok (inr e), s)
       | (Panic, s) => (Panic, s)
       | (OutOfFuel, s) => (OutOfFuel, s)
       end.

Definition init_buffer (self : PseudoFile) (flags_ : Z) : V Status (list Z * bool) :=
  if negb (has_flag flags_ OPEN_RIGHT_READABLE) then ret ([], false)
  else
    match on_read self with
    | None => ret ([], false)
    | Some on_read_ =>
        if has_flag flags_ OPEN_FLAG_TRUNCATE then ret ([], true)
        else buffer_ <- on_owner on_read_ ;; ret (buffer_, false)
    end.
(** [FileConnection::connect] with the buffer of the file. *)
Definition connect (self : PseudoFile) (flags_ mode server_end : Z) : V Empty_set (option FileConnection) :=
  match file_validate_flags flags_ mode (match on_read self with Some _ => true | None => false end)
          (match on_write self with Some _ => true | None => false end) with
  | Ok flags_ =>
      r <- attempt (init_buffer self flags_) ;;
      match r with
      | inl (buffer_, was_written_) =>
          on_wire (create_connection flags_ (file_protection self) server_end (file_capacity self) buffer_ was_written_)
      | inr status => on_wire (send_on_open_with_error flags_ server_end status) ;;; ret None
      end
  | Err status => on_wire (send_on_open_with_error flags_ server_end status) ;;; ret None
  | Panic => panic
  | OutOfFuel => lift OutOfFuel
  end.
Definition add_connection (self : PseudoFile) (flags_ mode server_end : Z) : V Empty_set PseudoFile :=
  conn <- connect self flags_ mode server_end ;;
  ret (match conn with Some conn => with_connections (connections self ++ [conn]) self | None => self end).
Definition handle_clone (self : PseudoFile) (parent_flags flags_ server_end : Z) : V Empty_set PseudoFile :=
  match inherit_rights_for_clone parent_flags flags_ with
  | Ok flags_ => add_connection self flags_ 0 server_end
  | Err status => on_wire (send_on_open_with_error flags_ server_end status) ;;; ret self
  | Panic => panic
  | OutOfFuel => lift OutOfFuel
  end.
(** [PseudoFile::handle_close], with [FileConnection::handle_close]. *)
Definition handle_close (self : PseudoFile) (connection : FileConnection) : V FidlError unit :=
  match on_write self with
  | None => on_wire (write (requests connection) (StatusReply OK))
  | Some on_write_ =>
      r <- (if was_written connection then attempt (on_owner (on_write_ (buffer connection))) else ret (inl tt)) ;;
      match r with
      | inl _ => on_wire (write (requests connection) (StatusReply OK))
      | inr status => on_wire (write (requests connection) (StatusReply status))
      end
  end.
(** An error that cannot happen becomes any type of error. *)
Definition weaken {E S A : Type} (m : M Empty_set S A) : M E S A :=
  λ s, match m s with
       | (Ok a, s) => (Ok a, s)
       | (Err e, _) => match e with end
       | (Panic, s) => (Panic, s)
       | (OutOfFuel, s) => (OutOfFuel, s)
       end.
(** [PseudoFile::handle_request]: the connection, unless it is closed. *)
Definition handle_request (self : PseudoFile) (req : FileRequest) (connection : FileConnection)
    : V FidlError (PseudoFile * option FileConnection) :=
  match req with
  | FClone flags_ object =>
      self <- weaken (handle_clone self (flags connection) flags_ object) ;;
      ret (self, Some connection)
  | FClose => handle_close self connection ;;; ret (self, None)
  | _ => connection <- on_wire (connection_request connection req) ;; ret (self, Some connection)
  end.

(** What a connection yields: a request, or an error or the end of the channel. *)
Inductive Arrival (R : Type) := Request (r : R) | Gone.
Arguments Request {R} r.
Arguments Gone {R}.
(** The connection of a channel, taken out of the set of connections. *)
Fixpoint take_connection (channel : Z) (l : list FileConnection) : option (FileConnection * list FileConnection) :=
  match l with
  | [] => None
  | c :: l =>
      if requests c =? channel then Some (c, l)
      else match take_connection channel l with Some (x, l) => Some (x, c :: l) | None => None end
  end.
(** One round of the loop of [PseudoFile::poll]: the connection of [channel] has something. *)
Definition serve (self : PseudoFile) (channel : Z) (arrival : Arrival FileRequest) : V Empty_set PseudoFile :=
  match take_connection channel (connections self) with
  | None => ret self
  | Some (connection, rest) =>
      let self := with_connections rest self in
      match arrival with
      | Gone => ret self
      | Request request =>
          r <- attempt (handle_request self request connection) ;;
          match r with
          | inl (self, Some connection) => ret (with_connections (connections self ++ [connection]) self)
          | inl (self, None) => ret self
          | inr _ => ret self
          end
      end
  end.
(** [PseudoFile::poll]: the requests that have come, in any order of the connections. *)
Fixpoint poll (self : PseudoFile) (arrivals : list (Z * Arrival FileRequest)) : V Empty_set PseudoFile :=
  match arrivals with
  | [] => ret self
  | (channel, arrival) :: arrivals => self <- serve self channel arrival ;; poll self arrivals
  end.
(** [DirectoryEntry::open] *)
Definition file_open (self : PseudoFile) (flags_ mode : Z) (path : list (list Z)) (server_end : Z) : V Empty_set PseudoFile :=
  match path with
  | _ :: _ => on_wire (send_on_open_with_error flags_ server_end NOT_DIR) ;;; ret self
  | [] => add_connection self flags_ mode server_end
  end.
Definition is_terminated (self : PseudoFile) : bool := zlen (connections self) =? 0.
End file.
Arguments Request {R} r.
Arguments Gone {R}.
Arguments PseudoFile : clear implicits.
Arguments World : clear implicits.
