(* ===== verification/VfsFileTheorems.v ===== *)
(** Pseudo files: rights never grow, and a connection serves its requests as a file of bytes with a
    position, whatever the other connections do. *)

From S2P Require Import Prelude Std VfsFile.
Open Scope rust_scope.

(** * Flags *)
Definition within (a b : Z) : Prop := Z.ldiff a b = 0.
Lemma within_bits a b : within a b ↔ ∀ i, 0 ≤ i → Z.testbit a i = true → Z.testbit b i = true.
Proof.
  unfold within. split.
  - intros H i Hi Ha. destruct (Z.testbit b i) eqn:Hb; [done|].
    assert (Z.testbit (Z.ldiff a b) i = true) as E by (by rewrite Z.ldiff_spec, Ha, Hb). by rewrite H, Z.bits_0 in E.
  - intros H. apply Z.bits_inj'. intros i Hi. rewrite Z.ldiff_spec, Z.bits_0. specialize (H i Hi).
    destruct (Z.testbit a i), (Z.testbit b i); naive_solver.
Qed.
Lemma within_refl a : within a a.
Proof. apply Z.ldiff_diag. Qed.
Lemma flags_within_trans a b c : within a b → within b c → within a c.
Proof. rewrite !within_bits. eauto. Qed.
Lemma within_land_l a b : within (Z.land a b) a.
Proof. apply within_bits. intros i Hi. rewrite Z.land_spec. by intros [? _]%andb_true_iff. Qed.
Lemma within_ldiff a b : within (Z.ldiff a b) a.
Proof. apply within_bits. intros i Hi. rewrite Z.ldiff_spec. by intros [? _]%andb_true_iff. Qed.
Lemma within_land_mono a b c : within a b → within (Z.land a c) (Z.land b c).
Proof.
  rewrite !within_bits. intros H i Hi. rewrite !Z.land_spec. intros [Ha Hc]%andb_true_iff. by rewrite (H i Hi Ha), Hc.
Qed.
Lemma has_flag_bit f b : 0 ≤ b → has_flag f (2 ^ b) = Z.testbit f b.
Proof.
  intros Hb. unfold has_flag. destruct (Z.testbit f b) eqn:E.
  - apply negb_true_iff, Z.eqb_neq. intros H. assert (Z.testbit (Z.land f (2 ^ b)) b = true) as E'.
    { by rewrite Z.land_spec, E, Z.pow2_bits_true. } by rewrite H, Z.bits_0 in E'.
  - apply negb_false_iff, Z.eqb_eq, Z.bits_inj'. intros i Hi. rewrite Z.land_spec, Z.bits_0, Z.pow2_bits_eqb by done.
    destruct (Z.eqb_spec b i) as [->|]; [by rewrite E|by rewrite andb_false_r].
Qed.
Lemma has_flag_mono a b f : within a b → has_flag a f = true → has_flag b f = true.
Proof.
  intros Hw. unfold has_flag. rewrite !negb_true_iff, !Z.eqb_neq. intros Ha Hb. apply Ha, Z.bits_inj'. intros i Hi.
  rewrite Z.land_spec, Z.bits_0. destruct (Z.testbit a i) eqn:Ea; [|done]. destruct (Z.testbit f i) eqn:Ef; [|done].
  assert (Z.testbit (Z.land b f) i = true) as E; [|by rewrite Hb, Z.bits_0 in E].
  rewrite Z.land_spec, Ef, andb_true_r. by apply (proj1 (within_bits a b) Hw).
Qed.

Section rights.
Context `{IO : !IoConstants}.
(** The rights of [f] are among those of [p]. *)
Definition rights_within (f p : Z) : Prop := within (Z.land f FS_RIGHTS) (Z.land p FS_RIGHTS).
Lemma rights_within_of f p : within f p → rights_within f p.
Proof. apply within_land_mono. Qed.
Lemma stricter_spec p f : stricter_or_same_rights p f = true ↔ rights_within f p.
Proof. unfold stricter_or_same_rights, rights_within, within. by rewrite Z.eqb_eq. Qed.
Lemma inherit_within p f f' : inherit_rights_for_clone p f = Ok f' → rights_within f' p.
Proof.
  unfold inherit_rights_for_clone. cbv zeta. destruct (_ && _); [done|]. intros H.
  match goal with _ : (if negb (stricter_or_same_rights ?a ?b) then _ else _) = _ |- _ =>
    destruct (stricter_or_same_rights a b) eqn:E; [|done] end.
  injection H as <-. by apply stricter_spec.
Qed.
(** A connection to a file has the rights that were asked for, which the file has to have. *)
Lemma file_flags f m r w f' :
  file_validate_flags f m r w = Ok f' →
  within f' f ∧ (has_flag f' OPEN_RIGHT_READABLE = true → r = true) ∧ (has_flag f' OPEN_RIGHT_WRITABLE = true → w = true).
Proof.
  unfold file_validate_flags. cbv zeta. destruct (negb (_ =? 0)); [by destruct (negb _)|].
  set (f1 := if has_flag f OPEN_FLAG_NODE_REFERENCE then _ else f).
  assert (within f1 f) as H1.
  { subst f1. destruct (has_flag f OPEN_FLAG_NODE_REFERENCE); [|apply within_refl].
    eapply flags_within_trans; [apply within_land_l|apply within_ldiff]. }
  destruct (has_flag f1 OPEN_FLAG_DIRECTORY); [done|].
  destruct (negb r && has_flag (Z.ldiff f1 OPEN_FLAG_POSIX) OPEN_RIGHT_READABLE) eqn:Er; [done|].
  destruct (negb w && has_flag (Z.ldiff f1 OPEN_FLAG_POSIX) OPEN_RIGHT_WRITABLE) eqn:Ew; [done|].
  do 2 (match goal with |- (if ?b then _ else _) = _ → _ => destruct b; [done|] end). intros [= <-].
  split_and!; [eapply flags_within_trans; [apply within_ldiff|done]| |].
  - intros H. rewrite H, andb_true_r in Er. by apply negb_false_iff in Er.
  - intros H. rewrite H, andb_true_r in Ew. by apply negb_false_iff in Ew.
Qed.
Lemma file_flags_total f m r w :
  (∃ f', file_validate_flags f m r w = Ok f') ∨ (∃ s, file_validate_flags f m r w = Err s ∧ s ≠ OK).
Proof.
  unfold file_validate_flags. cbv zeta.
  repeat (match goal with |- context [if ?b then _ else _] => destruct b end; eauto).
Qed.
End rights.

(** * A connection, as a file of bytes with a position *)
(** The bytes after the end are zero. *)
Definition byte (b : list Z) (i : Z) : Z := default 0 (b !! Z.to_nat i).
Definition limit (c : FileConnection) : Z := Z.max (zlen (buffer c)) (capacity c).
Record conn_ok (c : FileConnection) : Prop := {
  ok_capacity : 0 ≤ capacity c < 2 ^ 63;
  ok_buffer : zlen (buffer c) < 2 ^ 63;
  ok_seek : 0 ≤ seek c ≤ limit c }.
(** What stays the same. *)
Definition same_conn (c c' : FileConnection) : Prop :=
  requests c' = requests c ∧ flags c' = flags c ∧ protection_attributes c' = protection_attributes c ∧ capacity c' = capacity c.

(** [bs] are the bytes at [off], up to [n] of them. *)
Definition bytes_at (b : list Z) (off n : Z) (bs : list Z) : Prop :=
  zlen bs = Z.max 0 (Z.min n (zlen b - off)) ∧ ∀ i, 0 ≤ i < zlen bs → byte bs i = byte b (off + i).
(** [b'] has the first [k] bytes of [data] at [off], and nothing else has changed. *)
Definition overlaid (b : list Z) (off : Z) (data : list Z) (k : Z) (b' : list Z) : Prop :=
  zlen b' = Z.max (zlen b) (off + k) ∧
  ∀ i, 0 ≤ i → byte b' i = if decide (off ≤ i < off + k) then byte data (i - off) else byte b i.
Definition resized (b : list Z) (n : Z) (b' : list Z) : Prop :=
  zlen b' = n ∧ ∀ i, 0 ≤ i → byte b' i = if decide (i < n) then byte b i else 0.

Lemma byte_beyond b i : 0 ≤ i → zlen b ≤ i → byte b i = 0.
Proof. intros ??. unfold byte. rewrite lookup_ge_None_2; [done|]. unfold zlen in *. lia. Qed.
Lemma byte_app b b' i : 0 ≤ i → byte (b ++ b') i = if decide (i < zlen b) then byte b i else byte b' (i - zlen b).
Proof.
  intros Hi. unfold byte, zlen. case_decide.
  - by rewrite lookup_app_l by lia.
  - rewrite lookup_app_r by lia. do 2 f_equal. lia.
Qed.
Lemma byte_zeros n i : byte (zeros n) i = 0.
Proof.
  unfold byte, zeros. destruct (replicate (Z.to_nat n) 0 !! Z.to_nat i) as [x|] eqn:E; [|done].
  by apply lookup_replicate in E as [-> _].
Qed.
Lemma byte_take b n i : 0 ≤ i → byte (take (Z.to_nat n) b) i = if decide (i < n) then byte b i else 0.
Proof.
  intros Hi. unfold byte. case_decide.
  - by rewrite lookup_take_lt by lia.
  - by rewrite lookup_take_ge by lia.
Qed.
Lemma byte_slice b off n i : 0 ≤ off → 0 ≤ i < n → byte (slice off n b) i = byte b (off + i).
Proof.
  intros ? ?. unfold byte. rewrite lookup_slice, decide_True by lia. do 2 f_equal. lia.
Qed.
Lemma byte_splice b off bs i :
  0 ≤ off → 0 ≤ i → off + zlen bs ≤ zlen b →
  byte (splice off bs b) i = if decide (off ≤ i < off + zlen bs) then byte bs (i - off) else byte b i.
Proof.
  intros ???. unfold byte. rewrite lookup_splice by done. rewrite Z2Nat.id by done. case_decide; [|done].
  do 2 f_equal. lia.
Qed.

Lemma resize_ok b n : 0 ≤ n < 2 ^ 63 → ∃ b', resize n b = Ok b' ∧ resized b n b'.
Proof.
  intros Hn. unfold resize. rewrite (proj2 (Z.ltb_lt _ _)) by lia. eexists. split; [done|]. unfold resized.
  assert (zlen (take (Z.to_nat n) b) = Z.min n (zlen b)) as Ht by (unfold zlen; rewrite length_take; lia).
  split.
  - rewrite zlen_app, Ht. destruct (Z.le_gt_cases n (zlen b)); [|rewrite zlen_zeros; lia].
    replace (zeros (n - zlen b)) with (@nil Z); [change (zlen (@nil Z)) with 0; lia|]. unfold zeros. by rewrite Z2Nat.nonpos by lia.
  - intros i Hi. rewrite byte_app, Ht by done. case_decide as H1.
    + by rewrite byte_take.
    + rewrite byte_zeros. case_decide; [|done]. symmetry. apply byte_beyond; lia.
Qed.

(** * Requests *)
Definition u64 (n : Z) : Prop := 0 ≤ n < 2 ^ 64.
Definition request_ok (req : FileRequest) : Prop :=
  match req with
  | FRead n | FTruncate n => u64 n
  | FReadAt off n => u64 off ∧ u64 n
  | FWrite data => zlen data < 2 ^ 63
  | FWriteAt off data => u64 off ∧ zlen data < 2 ^ 63
  | FSeek off _ => - 2 ^ 63 ≤ off < 2 ^ 63
  | _ => True
  end.

Section requests.
Context `{IO : !IoConstants, VM : !VmoSystem}.
Definition may_read (c : FileConnection) : bool := has_flag (flags c) OPEN_RIGHT_READABLE.
Definition may_write (c : FileConnection) : bool := has_flag (flags c) OPEN_RIGHT_WRITABLE.
Definition origin (c : FileConnection) (start : SeekOrigin) : Z :=
  match start with Start => 0 | Current => seek c | End_ => zlen (buffer c) end.
(** Reads and writes at an offset, with the number of bytes. *)
Definition read_served (c : FileConnection) (off n k : Z) (m : Message) : Prop :=
  if may_read c then ∃ bs, m = ReadReply OK bs ∧ bytes_at (buffer c) off n bs ∧ k = zlen bs
  else m = ReadReply ACCESS_DENIED [] ∧ k = 0.
Definition write_served (c : FileConnection) (off : Z) (data : list Z) (k : Z) (c' : FileConnection) (m : Message) : Prop :=
  if may_write c then
    if decide (off < limit c) then
      k = Z.min (limit c - off) (zlen data) ∧ m = CountReply OK k ∧
      ∃ b, overlaid (buffer c) off data k b ∧ c' = written (with_buffer b c)
    else k = 0 ∧ m = CountReply OUT_OF_RANGE 0 ∧ c' = c
  else k = 0 ∧ m = CountReply ACCESS_DENIED 0 ∧ c' = c.
Definition truncate_served (c : FileConnection) (n : Z) (c' : FileConnection) (m : Message) : Prop :=
  if may_write c then
    if decide (n ≤ limit c) then
      m = StatusReply OK ∧
      ∃ b, resized (buffer c) n b ∧ c' = with_seek (Z.min (seek c) (Z.max n (capacity c))) (with_buffer b c)
    else m = StatusReply OUT_OF_RANGE ∧ c' = c
  else m = StatusReply ACCESS_DENIED ∧ c' = c.
(** What is sent for a request, and the connection after it. *)
Definition served (c : FileConnection) (req : FileRequest) (c' : FileConnection) (m : Message) : Prop :=
  match req with
  | FClone _ _ | FClose => False
  | FReadAt off n => c' = c ∧ ∃ k, read_served c off n k m
  | FRead n => ∃ k, read_served c (seek c) n k m ∧ c' = with_seek (seek c + k) c
  | FWriteAt off data => ∃ k, write_served c off data k c' m
  | FWrite data => ∃ k c1, write_served c (seek c) data k c1 m ∧ c' = with_seek (seek c + k) c1
  | FSeek off start =>
      let p := origin c start + off in
      if decide (0 ≤ p < limit c) then c' = with_seek p c ∧ m = CountReply OK p
      else c' = c ∧ m = CountReply OUT_OF_RANGE (seek c)
  | FTruncate n => truncate_served c n c' m
  | FGetBuffer flags_ =>
      c' = c ∧
      m = if may_write c then BufferReply NOT_SUPPORTED None
          else if may_read c && has_flag flags_ OPEN_RIGHT_READABLE && negb (has_flag flags_ OPEN_RIGHT_WRITABLE)
          then BufferReply OK (Some (buffer c)) else BufferReply ACCESS_DENIED None
  | FGetFlags => c' = c ∧ m = FlagsReply OK (flags c)
  | FGetAttr => c' = c ∧ m = AttrReply OK (file_attributes (Z.lor MODE_TYPE_FILE (protection_attributes c)))
  | FDescribe => c' = c ∧ m = DescribeReply FileInfo
  | FIoctl => c' = c ∧ m = IoctlReply NOT_SUPPORTED
  | FSync | FSetAttr | FSetFlags _ => c' = c ∧ m = StatusReply NOT_SUPPORTED
  end.

(** The reply of a handler, or the error of a channel that does not take it. *)
Definition said (h : Z) (m : Message) (w : Wire) : Wire :=
  {| closed := closed w; unattached := unattached w; readable := readable w; takes := takes w; sent := sent w ++ [(h, m)] |}.
Definition refuses (w : Wire) (h : Z) (m : Message) : Prop := h ∈ closed w ∨ takes w m = false.
#[global] Instance refuses_dec w h m : Decision (refuses w h m).
Proof. apply _. Defined.
Lemma write_spec h m x :
  write h m x = if decide (refuses x h m) then (Err FidlWrite, x) else (Ok tt, said h m x).
Proof.
  unfold write, refuses. destruct (decide _) as [[Hc|Ht]|Hn].
  - by rewrite bool_decide_true by done.
  - by rewrite Ht, orb_true_r.
  - rewrite bool_decide_false by auto. destruct (takes x m); [done|]. destruct Hn. by right.
Qed.
Definition replies {A : Type} (h : Z) (p : M FidlError Wire A) (P : A → Message → Prop) : Prop :=
  ∀ w, ∃ a m, P a m ∧ p w = if decide (refuses w h m) then (Err FidlWrite, w) else (Ok a, said h m w).
Lemma replies_write {A} h m (a : A) (P : A → Message → Prop) : P a m → replies h (write h m ;;; ret a) P.
Proof. intros HP w. exists a, m. split; [done|]. unfold bind. rewrite write_spec. by case_decide. Qed.
Lemma replies_bind {A B} h (p : M FidlError Wire A) (f : A → B) (k : A → M FidlError Wire B) P (Q : B → Message → Prop) :
  replies h p P → (∀ a m w, P a m → k a w = (Ok (f a), w) ∧ Q (f a) m) → replies h (x <- p ;; k x) Q.
Proof.
  intros Hp Hk w. destruct (Hp w) as (a&m&HP&Ep). destruct (Hk a m (said h m w) HP) as [Ek HQ].
  exists (f a), m. split; [done|]. unfold bind. rewrite Ep. by case_decide.
Qed.
Lemma replies_lift {A B} h (r : result FidlError A) (k : A → M FidlError Wire B) a Q :
  r = Ok a → replies h (k a) Q → replies h (x <- lift r ;; k x) Q.
Proof. intros -> Hk. exact Hk. Qed.

Lemma read_at_replies c off n :
  conn_ok c → u64 off → u64 n → replies (requests c) (handle_read_at c off n) (read_served c off n).
Proof.
  intros Hc Hoff Hn. unfold handle_read_at, read_served, u64 in *. fold (may_read c).
  destruct (may_read c); cbn [negb]; [|by apply replies_write].
  pose proof (ok_buffer c Hc). pose proof (zlen_nonneg (buffer c)). destruct (Z.leb_spec (zlen (buffer c)) off).
  - apply replies_write. exists []. split_and!; [done| |done]. split; [change (zlen (@nil Z)) with 0; lia|].
    intros i. change (zlen (@nil Z)) with 0. lia.
  - eapply replies_lift; [apply usub_ok; lia|]. eapply replies_lift; [apply uadd_ok; lia|].
    set (k := Z.min n (zlen (buffer c) - off)). eapply replies_lift.
    { unfold slice_range. rewrite (proj2 (Z.leb_le _ _)), (proj2 (Z.leb_le _ _)) by lia. done. }
    replace (off + k - off) with k by lia. apply replies_write. eexists. split; [done|].
    assert (zlen (slice off k (buffer c)) = k) as E by (apply zlen_slice; lia). rewrite E. split; [|done].
    split; [lia|]. intros i Hi. apply byte_slice; lia.
Qed.
Lemma slice_range_ok b from to_ : 0 ≤ from ≤ to_ → to_ ≤ zlen b → slice_range b from to_ = Ok (slice from (to_ - from) b).
Proof. intros. unfold slice_range. by rewrite (proj2 (Z.leb_le _ _)), (proj2 (Z.leb_le _ _)) by lia. Qed.
Lemma overlay_ok b off data k b' :
  0 ≤ off → 0 ≤ k ≤ zlen data → (zlen b' = Z.max (zlen b) (off + k)) → (∀ i, 0 ≤ i → byte b' i = byte b i) →
  overlaid b off data k (splice off (slice 0 k data) b').
Proof.
  intros Hoff Hk Hl Hb. assert (zlen (slice 0 k data) = k) as E by (apply zlen_slice; lia). split.
  - rewrite zlen_splice; lia.
  - intros i Hi. rewrite byte_splice by lia. rewrite E. case_decide; [|by apply Hb]. rewrite byte_slice by lia. f_equal.
Qed.
Lemma write_at_replies c off data :
  conn_ok c → u64 off → replies (requests c) (handle_write_at c off data) (λ r, write_served c off data (snd r) (fst r)).
Proof.
  intros Hc Hoff. unfold handle_write_at, write_served, u64 in *. fold (may_write c). fold (limit c).
  destruct (may_write c); cbn [negb]; [|by apply replies_write].
  destruct (Z.leb_spec (limit c) off) as [Hl|Hl]; [apply replies_write; by rewrite decide_False by lia|].
  pose proof (ok_buffer c Hc). pose proof (ok_capacity c Hc).
  assert (limit c < 2 ^ 63) by (unfold limit; lia). pose proof (zlen_nonneg (buffer c)). pose proof (zlen_nonneg data).
  assert (zlen (buffer c) ≤ limit c) by (unfold limit; lia).
  eapply replies_lift; [apply usub_ok; lia|]. set (k := Z.min (limit c - off) (zlen data)).
  eapply replies_lift; [apply uadd_ok; lia|].
  assert (∃ b', (if zlen (buffer c) <=? off + k then resize (off + k) (buffer c) else Ok (buffer c)) = Ok b' ∧
    zlen b' = Z.max (zlen (buffer c)) (off + k) ∧ ∀ i, 0 ≤ i → byte b' i = byte (buffer c) i) as (b'&Hb&Hlen&Hbytes).
  { destruct (Z.leb_spec (zlen (buffer c)) (off + k)) as [Hle|Hle]; [|exists (buffer c); split_and!; [done|lia|done]].
    destruct (resize_ok (buffer c) (off + k)) as (b'&->&Hz&Hi); [lia|]. exists b'. split_and!; [done|lia|].
    intros i Hpos. rewrite Hi by done. case_decide; [done|]. symmetry. apply byte_beyond; lia. }
  eapply replies_lift; [exact Hb|]. eapply replies_lift; [apply slice_range_ok; lia|].
  eapply replies_lift; [apply slice_range_ok; lia|]. rewrite Z.sub_0_r. change (requests c) with
    (requests (written (with_buffer (splice off (slice 0 k data) b') c))) at 1. apply replies_write. cbn [fst snd].
  rewrite decide_True by lia. split_and!; [done..|]. eexists. split; [|done]. apply overlay_ok; [lia|lia|done|done].
Qed.
Lemma truncate_replies c n :
  conn_ok c → u64 n → replies (requests c) (handle_truncate c n) (truncate_served c n).
Proof.
  intros Hc Hn. unfold handle_truncate, truncate_served, u64 in *. fold (may_write c). fold (limit c).
  destruct (may_write c); cbn [negb]; [|by apply replies_write].
  pose proof (ok_buffer c Hc). pose proof (ok_capacity c Hc). assert (limit c < 2 ^ 63) by (unfold limit; lia).
  destruct (Z.ltb_spec (limit c) n); [apply replies_write; by rewrite decide_False by lia|].
  destruct (resize_ok (buffer c) n) as (b&Hb&Hr); [lia|]. eapply replies_lift; [exact Hb|]. apply replies_write. rewrite decide_True by lia. eauto.
Qed.
Lemma seek_replies c off start :
  replies (requests c) (handle_seek c off start) (served c (FSeek off start)).
Proof.
  unfold handle_seek, served. fold (limit c).
  assert (match start with Start => off | Current => seek c + off | End_ => zlen (buffer c) + off end = origin c start + off) as ->
    by (by destruct start).
  destruct (Z.ltb_spec (origin c start + off) 0); cbn [orb]; [apply replies_write; by rewrite decide_False by lia|].
  destruct (Z.leb_spec (limit c) (origin c start + off)); apply replies_write; [by rewrite decide_False by lia|].
  by rewrite decide_True by lia.
Qed.
(** A request for a buffer for which the kernel does not create the VMO, or does not write to it. *)
Definition vmo_refused (c : FileConnection) (req : FileRequest) : bool :=
  match req with
  | FGetBuffer fl =>
      may_read c && negb (may_write c) && has_flag fl OPEN_RIGHT_READABLE && negb (has_flag fl OPEN_RIGHT_WRITABLE)
      && negb (vmo_create (zlen (buffer c)) && vmo_write (buffer c))
  | _ => false
  end.
(** Every request but [Clone] and [Close], which are those of the file. *)
Lemma request_replies c req :
  conn_ok c → request_ok req → (∀ f o, req ≠ FClone f o) → req ≠ FClose → vmo_refused c req = false →
  replies (requests c) (connection_request c req) (served c req).
Proof.
  intros Hc Hreq Hnc Hncl Hvmo. pose proof (ok_seek c Hc). pose proof (ok_buffer c Hc). pose proof (ok_capacity c Hc).
  assert (u64 (seek c)) as Hseek by (unfold u64, limit in *; lia).
  destruct req as [f o| | | | | | |n|off n|data|off data|off start|n| |fl|fl]; cbn [connection_request request_ok] in *;
    try (by apply replies_write); try done.
  - by destruct (Hnc f o).
  - eapply (replies_bind _ _ (λ k, with_seek (seek c + k) c)); [by apply read_at_replies|].
    intros k m w Hk. assert (seek c + k < 2 ^ 64).
    { unfold read_served in Hk. destruct (may_read c); [|destruct Hk as [_ ->]; unfold limit in *; lia].
      destruct Hk as (bs&_&[Hz _]&->). unfold limit in *. lia. }
    unfold bind, lift. rewrite uadd_ok by done. split; [done|]. cbn. eauto.
  - eapply (replies_bind _ _ (λ _, c)); [by apply read_at_replies; destruct Hreq|]. intros k m w Hk. split; [done|]. cbn. eauto.
  - eapply (replies_bind _ _ (λ r, with_seek (seek c + snd r) (fst r))); [by apply write_at_replies|].
    intros [c1 k] m w Hk. cbn [fst snd] in *. assert (seek c1 = seek c ∧ seek c + k < 2 ^ 64) as [Es Hlt].
    { unfold write_served in Hk. destruct (may_write c); [case_decide|]; destruct Hk as (->&_&Hc1); [|subst; unfold limit in *; lia..].
      destruct Hc1 as (b&_&->). cbn. unfold limit in *. lia. }
    unfold bind, lift. rewrite Es, uadd_ok by done. split; [done|]. cbn. eauto.
  - eapply (replies_bind _ _ fst); [by apply write_at_replies; destruct Hreq|]. intros [c1 k] m w Hk. split; [done|]. cbn. eauto.
  - apply seek_replies.
  - by apply truncate_replies.
  - cbn [vmo_refused] in Hvmo. unfold handle_get_buffer, served. fold (may_read c). fold (may_write c).
    destruct (may_read c), (may_write c), (has_flag fl OPEN_RIGHT_READABLE), (has_flag fl OPEN_RIGHT_WRITABLE);
      cbn [andb negb] in *; try (by apply replies_write).
    destruct (vmo_create _), (vmo_write _); try done. by apply replies_write.
Qed.
Lemma request_panics c req x : vmo_refused c req = true → connection_request c req x = (Panic, x).
Proof.
  destruct req as [f o| | | | | | |n|off n|data|off data|off start|n| |fl|fl]; cbn [vmo_refused connection_request]; try done. unfold handle_get_buffer.
  fold (may_read c). fold (may_write c).
  destruct (may_read c), (may_write c), (has_flag fl OPEN_RIGHT_READABLE), (has_flag fl OPEN_RIGHT_WRITABLE); cbn [andb negb]; try done.
  by destruct (vmo_create _), (vmo_write _).
Qed.
End requests.

Section served.
Context `{IO : !IoConstants}.
Lemma write_served_same c off data k c' m : write_served c off data k c' m →
  same_conn c c' ∧ seek c' = seek c ∧ (was_written c = true → was_written c' = true) ∧ (0 ≤ off → conn_ok c → conn_ok c' ∧ off + k ≤ limit c' ∨ k = 0 ∧ c' = c).
Proof.
  unfold write_served. intros H. assert (∀ x, same_conn x x) as Hsame by done.
  destruct (may_write c); [case_decide|]; [|naive_solver..].
  destruct H as (Hk&_&b&[Hz _]&->). split_and!; [done..|]. intros Hoff [[? ?] Hb Hs]. left.
  pose proof (zlen_nonneg data). pose proof (zlen_nonneg (buffer c)). unfold limit in *. cbn in *. split; [|lia]. constructor; cbn; unfold limit in *; cbn; lia.
Qed.
Lemma served_ok c req c' m : request_ok req → served c req c' m → conn_ok c → conn_ok c'.
Proof.
  intros Hreq Hs Hc. pose proof (ok_seek c Hc) as [Hs0 Hsl].
  destruct req as [f o| | | | | | |n|off n|data|off data|off start|n| |fl|fl]; cbn in Hs; try done; try (by destruct Hs as [-> _]).
  - destruct Hs as (k&Hr&->). unfold read_served in Hr. destruct Hc as [Hcap Hb Hk].
    assert (0 ≤ k ∧ seek c + k ≤ limit c) as [??].
    { destruct (may_read c); [|destruct Hr; lia]. destruct Hr as (bs&_&[Hz _]&->). unfold limit in *. lia. }
    constructor; cbn; [done..|]. unfold limit in *. cbn. lia.
  - destruct Hs as (k&c1&Hw&->). pose proof (write_served_same _ _ _ _ _ _ Hw) as (Hsame&Hseek&_&Hok).
    destruct (Hok Hs0 Hc) as [[[Hcap Hb Hk] Hl]|[-> ->]]; [|constructor; cbn; [apply Hc..|unfold limit in *; cbn; lia]].
    constructor; cbn; [done..|]. assert (0 ≤ k).
    { unfold write_served in Hw. pose proof (zlen_nonneg data). destruct (may_write c); [case_decide|]; lia. }
    unfold limit in *. cbn. lia.
  - destruct Hs as (k&Hw). destruct (write_served_same _ _ _ _ _ _ Hw) as (_&_&_&Hok). destruct Hreq as [Hoff _]. unfold u64 in Hoff.
    destruct (Hok (proj1 Hoff) Hc) as [[? _]|[_ ->]]; done.
  - destruct (decide _); destruct Hs as [-> _]; [|done]. destruct Hc. constructor; cbn; [done..|]. unfold limit in *. cbn. lia.
  - unfold truncate_served in Hs. destruct (may_write c); [case_decide|]; [|by destruct Hs as [_ ->]..].
    destruct Hs as (_&b&[Hz _]&->). destruct Hc. unfold u64 in Hreq. constructor; cbn; unfold limit in *; cbn; lia.
Qed.
Lemma served_same c req c' m : served c req c' m → same_conn c c' ∧ (was_written c = true → was_written c' = true).
Proof.
  intros Hs. assert (∀ x, same_conn x x) as Hsame by done.
  destruct req as [f o| | | | | | |n|off n|data|off data|off start|n| |fl|fl]; cbn in Hs; try done; try (by destruct Hs as [-> _]).
  - destruct Hs as (k&_&->). done.
  - destruct Hs as (k&c1&Hw&->). destruct (write_served_same _ _ _ _ _ _ Hw) as ((?&?&?&?)&_&?&_). done.
  - destruct Hs as (k&Hw). destruct (write_served_same _ _ _ _ _ _ Hw) as (?&_&?&_). done.
  - destruct (decide _); by destruct Hs as [-> _].
  - unfold truncate_served in Hs. destruct (may_write c); [case_decide|]; [|by destruct Hs as [_ ->]..].
    by destruct Hs as (_&b&_&->).
Qed.
(** Without the right to write nothing changes, without the right to read nothing is shown. *)
Lemma served_read_only c req c' m :
  served c req c' m → may_write c = false → buffer c' = buffer c ∧ was_written c' = was_written c.
Proof.
  intros Hs Hw. unfold served, write_served, truncate_served in Hs.
  destruct req; rewrite ?Hw in Hs; try (destruct (decide _)); naive_solver.
Qed.
End served.

(** * Files with several connections *)
Section files.
Context `{IO : !IoConstants, VM : !VmoSystem} {O : Type}.
Implicit Types (f : PseudoFile O) (w : World O) (c : FileConnection).

(** The handlers return, and with an error when they fail. *)
Definition reader_ok (r : M Status O (list Z)) : Prop :=
  ∀ o, match fst (r o) with Ok b => zlen b < 2 ^ 63 | Err s => s ≠ OK | _ => False end.
Definition writer_ok (r : list Z → M Status O unit) : Prop :=
  ∀ b o, match fst (r b o) with Ok _ | Err _ => True | _ => False end.
Record handlers_ok f : Prop := {
  ok_on_read r : on_read f = Some r → reader_ok r;
  ok_on_write r : on_write f = Some r → writer_ok r;
  ok_file_capacity : 0 ≤ file_capacity f < 2 ^ 63 }.
Definition channels f : list Z := requests <$> connections f.
Record file_ok f : Prop := {
  ok_handlers : handlers_ok f;
  ok_connections : Forall conn_ok (connections f);
  ok_channels : NoDup (channels f) }.

(** [w'] is [w] with messages on the channel [h]. *)
Definition only_to (h : Z) (x x' : Wire) : Prop :=
  closed x' = closed x ∧ unattached x' = unattached x ∧ readable x' = readable x ∧ takes x' = takes x ∧
  ∃ ms, sent x' = sent x ++ ((h,.) <$> ms).
Lemma only_to_refl h x : only_to h x x.
Proof. split_and!; [done..|]. exists []. by rewrite app_nil_r. Qed.
Lemma only_to_said h m x : only_to h x (said h m x).
Proof. split_and!; [done..|]. by exists [m]. Qed.
Lemma attach_spec h x : attach h x = (if decide (h ∈ unattached x) then Err FidlAttach else Ok tt, x).
Proof. unfold attach, reading. case_decide; [by rewrite bool_decide_true|by rewrite bool_decide_false]. Qed.
Lemma send_error_spec {E} flags_ h s x :
  s ≠ OK → ∃ x', @send_on_open_with_error IO E flags_ h s x = (Ok tt, x') ∧ only_to h x x'.
Proof.
  intros Hs. unfold send_on_open_with_error. rewrite bool_decide_false by done.
  destruct (has_flag flags_ OPEN_FLAG_DESCRIBE); [|by eexists; split; [done|apply only_to_refl]]. unfold ignore, bind. cbn [negb].
  rewrite attach_spec. case_decide; [by eexists; split; [done|apply only_to_refl]|]. rewrite write_spec.
  case_decide; eexists; (split; [done|]); [apply only_to_refl|apply only_to_said].
Qed.
Lemma new_connection_spec {E} flags_ prot h cap b ww x :
  ∃ oc x', @create_connection IO E flags_ prot h cap b ww x = (Ok oc, x') ∧ only_to h x x' ∧
    ∀ c, oc = Some c → c = {| requests := h; flags := flags_; protection_attributes := prot; seek := 0; capacity := cap;
                             buffer := b; was_written := ww |}.
Proof.
  unfold create_connection, ok_or_none, bind. rewrite attach_spec.
  case_decide; [by eexists _, _; split_and!; [done|apply only_to_refl|]|].
  destruct (has_flag flags_ OPEN_FLAG_DESCRIBE).
  - rewrite write_spec. case_decide; [by eexists _, _; split_and!; [done|apply only_to_refl|]|].
    eexists _, _. split_and!; [done|apply only_to_said|]. by intros c [= <-].
  - eexists _, _. split_and!; [done|apply only_to_refl|]. by intros c [= <-].
Qed.
(** A new connection. *)
Definition connects f (flags_ h : Z) c : Prop :=
  requests c = h ∧ conn_ok c ∧ capacity c = file_capacity f ∧ within (flags c) flags_ ∧
  (may_read c = true → on_read f ≠ None) ∧ (may_write c = true → on_write f ≠ None) ∧
  (may_read c = false → buffer c = [] ∧ was_written c = false).
Lemma init_spec f flags_ w :
  handlers_ok f →
  ∃ r w', init_buffer f flags_ w = (r, w') ∧ wire w' = wire w ∧
    match r with
    | Ok (b, ww) => zlen b < 2 ^ 63 ∧ (has_flag flags_ OPEN_RIGHT_READABLE = false → b = [] ∧ ww = false)
    | Err s => s ≠ OK
    | _ => False
    end.
Proof.
  intros [Hr _ _]. unfold init_buffer. destruct (has_flag flags_ OPEN_RIGHT_READABLE); cbn [negb]; [|by eexists _, _].
  destruct (on_read f) as [r|]; [|by eexists _, _]. destruct (has_flag flags_ OPEN_FLAG_TRUNCATE); [by eexists _, _|].
  specialize (Hr r eq_refl (owner w)). unfold bind, on_owner. destruct (r (owner w)) as [[b|s| |] o]; cbn in Hr; try done.
  - eexists _, _. split; [done|]. done.
  - eexists _, _. split; [done|]. done.
Qed.
Lemma connect_spec f flags_ mode h w :
  handlers_ok f →
  ∃ oc w', connect f flags_ mode h w = (Ok oc, w') ∧ only_to h (wire w) (wire w') ∧ ∀ c, oc = Some c → connects f flags_ h c.
Proof.
  intros Hf. unfold connect.
  set (rd := match on_read f with Some _ => true | None => false end). set (wr := match on_write f with Some _ => true | None => false end).
  destruct (file_flags_total flags_ mode rd wr) as [[fl Hfl]|(s&->&Hs)].
  2: { destruct (@send_error_spec Empty_set flags_ h s (wire w) Hs) as (x&Ex&Hx). exists None. unfold bind, on_wire. rewrite Ex.
    eexists. split_and!; [done|exact Hx|done]. }
  rewrite Hfl. pose proof (file_flags _ _ _ _ _ Hfl) as (Hw&Hrd&Hwr). destruct (init_spec f fl w Hf) as (r&w1&Er&Ew&Hr).
  unfold bind, attempt. rewrite Er. destruct r as [[b ww]|s| |]; [| |done..].
  - unfold on_wire. destruct (@new_connection_spec Empty_set fl (file_protection f) h (file_capacity f) b ww (wire w1)) as (oc&x&Ex&Hx&Hc). rewrite Ex.
    exists oc. eexists. split_and!; [done|by rewrite <- Ew|]. intros c Hoc. rewrite (Hc c Hoc). destruct Hr as [Hb Hb'].
    pose proof (ok_file_capacity f Hf). pose proof (zlen_nonneg b).
    unfold connects, may_read, may_write. cbn. split_and!; [done| |done|done| | |done].
    + constructor; cbn; [done..|]. unfold limit. cbn. lia.
    + intros Hy. specialize (Hrd Hy). subst rd. by destruct (on_read f).
    + intros Hy. specialize (Hwr Hy). subst wr. by destruct (on_write f).
  - unfold on_wire. destruct (@send_error_spec Empty_set fl h s (wire w1) Hr) as (x&Ex&Hx). rewrite Ex. exists None. eexists.
    split_and!; [done|by rewrite <- Ew|done].
Qed.
(** What stays the same of a file: its handlers. *)
Definition same_file f f' : Prop :=
  on_read f' = on_read f ∧ on_write f' = on_write f ∧ file_capacity f' = file_capacity f ∧ file_protection f' = file_protection f.
Definition opens f (flags_ h : Z) f' : Prop :=
  f' = f ∨ ∃ c, connects f flags_ h c ∧ f' = with_connections (connections f ++ [c]) f.
Lemma add_spec f flags_ mode h w :
  handlers_ok f →
  ∃ f' w', add_connection f flags_ mode h w = (Ok f', w') ∧ only_to h (wire w) (wire w') ∧ opens f flags_ h f'.
Proof.
  intros Hf. unfold add_connection, bind. destruct (connect_spec f flags_ mode h w Hf) as (oc&w'&->&Hx&Hc).
  destruct oc as [c|]; eexists _, _; (split_and!; [done|done|]); [right; eauto|by left].
Qed.
Lemma clone_spec f parent_flags flags_ h w :
  handlers_ok f →
  ∃ f' w', handle_clone f parent_flags flags_ h w = (Ok f', w') ∧ only_to h (wire w) (wire w') ∧
    (f' = f ∨ ∃ c, connects f (flags c) h c ∧ rights_within (flags c) parent_flags ∧ f' = with_connections (connections f ++ [c]) f).
Proof.
  intros Hf. unfold handle_clone. destruct (inherit_rights_for_clone parent_flags flags_) as [fl|s| |] eqn:Ei.
  - destruct (add_spec f fl 0 h w Hf) as (f'&w'&->&Hx&Ho). exists f', w'. split_and!; [done..|].
    destruct Ho as [->|(c&Hc&->)]; [by left|right]. exists c. pose proof Hc as (?&?&?&Hw&?).
    split_and!; [unfold connects in *; intuition eauto using within_refl| |done].
    eapply flags_within_trans; [by apply rights_within_of|by eapply inherit_within].
  - assert (s ≠ OK) as Hs.
    { unfold inherit_rights_for_clone in Ei. repeat case_match; simplify_eq; done. }
    destruct (@send_error_spec Empty_set flags_ h s (wire w) Hs) as (x&Ex&Hx). exists f. unfold bind, on_wire. rewrite Ex.
    eexists. split_and!; [done|exact Hx|by left].
  - unfold inherit_rights_for_clone in Ei. repeat case_match; simplify_eq.
  - unfold inherit_rights_for_clone in Ei. repeat case_match; simplify_eq.
Qed.

(** Closing calls the handler with what was written, and says what it returned. *)
Definition closes f c (o : O) : Status * O :=
  match on_write f with
  | Some wr =>
      if was_written c then
        let (r, o') := wr (buffer c) o in (match r with Err s => s | _ => OK end, o')
      else (OK, o)
  | None => (OK, o)
  end.
Lemma close_spec f c w :
  handlers_ok f →
  handle_close f c w =
  let m := StatusReply (closes f c (owner w)).1 in
  (if decide (refuses (wire w) (requests c) m) then Err FidlWrite else Ok tt,
   {| owner := (closes f c (owner w)).2;
      wire := if decide (refuses (wire w) (requests c) m) then wire w else said (requests c) m (wire w) |}).
Proof.
  intros [_ Hw _]. unfold handle_close, closes.
  assert (∀ (st : Status) (w0 : World O), on_wire (write (requests c) (StatusReply st)) w0 =
    (if decide (refuses (wire w0) (requests c) (StatusReply st)) then Err FidlWrite else Ok tt,
     {| owner := owner w0;
        wire := if decide (refuses (wire w0) (requests c) (StatusReply st)) then wire w0 else said (requests c) (StatusReply st) (wire w0) |})) as Hsend.
  { intros st w0. unfold on_wire. rewrite write_spec. by case_decide. }
  destruct (on_write f) as [wr|]; [|by rewrite Hsend].
  destruct (was_written c); unfold bind; [|cbn; by rewrite Hsend].
  specialize (Hw wr eq_refl (buffer c) (owner w)). unfold attempt, on_owner.
  destruct (wr (buffer c) (owner w)) as [[[]|st| |] o]; cbn in Hw; try done; cbn; by rewrite Hsend.
Qed.

(** * Serving *)
Definition objects (a : Arrival FileRequest) : list Z := match a with Request (FClone _ object) => [object] | _ => [] end.
Definition arrival_ok (a : Arrival FileRequest) : Prop := match a with Request r => request_ok r | Gone => True end.
Definition msgs_to (h : Z) (x : Wire) : list Message := omap (λ hm, if decide (hm.1 = h) then Some hm.2 else None) (sent x).
Lemma msgs_only_to h h' x x' : only_to h x x' → h' ≠ h → msgs_to h' x' = msgs_to h' x.
Proof.
  intros (_&_&_&_&ms&E) Hn. unfold msgs_to. rewrite E, omap_app.
  assert (∀ l : list Message, omap (λ hm : Z * Message, if decide (hm.1 = h') then Some hm.2 else None) ((h,.) <$> l) = []) as ->.
  { intros l. induction l as [|m l IH]; [done|]. cbn. by rewrite decide_False by done. }
  apply app_nil_r.
Qed.
Lemma msgs_said h m x : msgs_to h (said h m x) = msgs_to h x ++ [m].
Proof. unfold msgs_to. cbn. rewrite omap_app. cbn. by rewrite decide_True by done. Qed.
Lemma take_spec h l :
  NoDup (requests <$> l) →
  match take_connection h l with
  | Some (c, l') => requests c = h ∧ Permutation l (c :: l') ∧ h ∉ requests <$> l'
  | None => h ∉ requests <$> l
  end.
Proof.
  induction l as [|c l IH]; cbn; [set_solver|]. intros [Hc Hd]%NoDup_cons. destruct (Z.eqb_spec (requests c) h) as [<-|Hn]; [done|].
  specialize (IH Hd). destruct (take_connection h l) as [[x l']|].
  - destruct IH as (Hx&Hp&Hl). split_and!; [done| |set_solver]. rewrite Hp. apply Permutation_swap.
  - set_solver.
Qed.

(** A sequence of requests on a connection and what is sent for it. *)
Inductive session : FileConnection → list FileRequest → FileConnection → list Message → Prop :=
| session_nil c : session c [] c []
| session_clone c fl h rs c' ms : session c rs c' ms → session c (FClone fl h :: rs) c' ms
| session_step c r c1 m rs c' ms : served c r c1 m → session c1 rs c' ms → session c (r :: rs) c' (m :: ms).
Lemma session_app c rs1 c1 ms1 rs2 c2 ms2 :
  session c rs1 c1 ms1 → session c1 rs2 c2 ms2 → session c (rs1 ++ rs2) c2 (ms1 ++ ms2).
Proof. induction 1; intros H2; cbn; [done|constructor; auto|econstructor; eauto]. Qed.

Lemma file_ok_with f l : handlers_ok f → Forall conn_ok l → NoDup (requests <$> l) → file_ok (with_connections l f).
Proof. intros [? ? ?] ??. by constructor. Qed.
Lemma connection_spec c req w :
  conn_ok c → request_ok req → (∀ fl o, req ≠ FClone fl o) → req ≠ FClose → vmo_refused c req = false →
  ∃ r w', on_wire (connection_request c req) w = (r, w') ∧ only_to (requests c) (wire w) (wire w') ∧ owner w' = owner w ∧
    match r with
    | Ok c' => requests c' = requests c ∧ conn_ok c' ∧
        (∃ m, served c req c' m ∧ wire w' = said (requests c) m (wire w))
    | Err _ => ∃ c' m, served c req c' m ∧ refuses (wire w) (requests c) m
    | _ => False
    end.
Proof.
  intros Hc Hreq H1 H2 Hv. pose proof (request_replies c req Hc Hreq H1 H2 Hv (wire w)) as (c'&m&Hs&E). unfold on_wire.
  rewrite E. case_decide as Hcl.
  - exists (Err FidlWrite). eexists. split_and!; [done|apply only_to_refl|done|by exists c', m].
  - exists (Ok c'). eexists. split_and!; [done|apply only_to_said|done| |by eapply served_ok|eauto].
    by apply served_same in Hs as [[? _] _].
Qed.

(** The channel takes the reply. *)
Context {IS : IoSpec}.
Definition content_length (m : Message) : Z :=
  match m with ReadReply _ content | DirentsReply _ content | WatchMessage content => zlen content | _ => 0 end.
Definition takes_short (x : Wire) : Prop := ∀ m, content_length m ≤ MAX_BUF → takes x m = true.
Definition short (req : FileRequest) : Prop := match req with FRead n | FReadAt _ n => n ≤ MAX_BUF | _ => True end.
Definition can_reply (x : Wire) (h : Z) (req : FileRequest) : Prop := (h ∉ closed x) ∧ takes_short x ∧ short req.
Lemma served_short c req c' m : served c req c' m → short req → content_length m ≤ MAX_BUF.
Proof.
  pose proof max_filename as Hf. pose proof max_buf as Hb.
  assert (∀ off n k, n ≤ MAX_BUF → read_served c off n k m → content_length m ≤ MAX_BUF) as Hread.
  { intros off n k Hn. unfold read_served. destruct (may_read c); [|intros [-> _]; change (0 ≤ MAX_BUF); lia].
    intros (bs&->&[Hl _]&_). cbn [content_length]. lia. }
  assert (∀ off d k c1, write_served c off d k c1 m → content_length m ≤ MAX_BUF) as Hwrite.
  { intros off d k c1. unfold write_served. destruct (may_write c); [case_decide|]; intros (_&->&_); cbn; lia. }
  destruct req; cbn [served short]; intros Hs Hsh; try done; try (destruct Hs as [_ ->]; cbn; lia).
  - destruct Hs as (k&Hk&_). by eapply Hread.
  - destruct Hs as (_&k&Hk). by eapply Hread.
  - destruct Hs as (k&c1&Hk&_). by eapply Hwrite.
  - destruct Hs as (k&Hk). by eapply Hwrite.
  - case_decide; destruct Hs as [_ ->]; cbn; lia.
  - unfold truncate_served in Hs. destruct (may_write c); [case_decide|]; destruct Hs as [-> _]; cbn; lia.
  - destruct Hs as [_ ->]. repeat case_match; cbn; lia.
Qed.
Lemma can_reply_takes x c req c' m : can_reply x (requests c) req → served c req c' m → ¬ refuses x (requests c) m.
Proof. intros (Hcl&Ht&Hsh) Hs [?|Hf]; [done|]. rewrite Ht in Hf; [done|]. by eapply served_short. Qed.

Record serves f (h : Z) (a : Arrival FileRequest) w f' w' : Prop := {
  sv_ok : file_ok f';
  sv_same : same_file f f';
  sv_wire : closed (wire w') = closed (wire w) ∧ takes (wire w') = takes (wire w);
  sv_channels k : k ∈ channels f' → k ∈ channels f ∨ k ∈ objects a;
  sv_others c : c ∈ connections f → requests c ≠ h → c ∈ connections f';
  sv_msgs k : k ≠ h → k ∉ objects a → msgs_to k (wire w') = msgs_to k (wire w);
  sv_mine c r : c ∈ connections f → requests c = h → a = Request r → r ≠ FClose → can_reply (wire w) h r → h ∉ objects a →
    ∃ c' ms, session c [r] c' ms ∧ c' ∈ connections f' ∧ requests c' = h ∧ msgs_to h (wire w') = msgs_to h (wire w) ++ ms }.
(** The connection [c0] of [h] was taken out of the others, and [l] are put in. *)
Lemma serves_intro f h a w w' c0 rest l :
  file_ok f → Permutation (connections f) (c0 :: rest) → requests c0 = h → h ∉ requests <$> rest →
  (∀ k, k ∈ objects a → k ∉ channels f) → Forall conn_ok l → NoDup (requests <$> l) →
  (∀ k, k ∈ requests <$> l → k = h ∨ k ∈ objects a) → closed (wire w') = closed (wire w) ∧ takes (wire w') = takes (wire w) →
  (∀ k, k ≠ h → k ∉ objects a → msgs_to k (wire w') = msgs_to k (wire w)) →
  (∀ r, a = Request r → r ≠ FClose → can_reply (wire w) h r → h ∉ objects a →
    ∃ c' ms, session c0 [r] c' ms ∧ c' ∈ l ∧ requests c' = h ∧ msgs_to h (wire w') = msgs_to h (wire w) ++ ms) →
  serves f h a w (with_connections (rest ++ l) f) w'.
Proof.
  intros [Hh Hcs Hd] Hp Hc0 Hrest Hobj Hl Hdl Hkl Hcl Hm Hmine. unfold channels in *. rewrite Hp in Hcs, Hd. rewrite fmap_cons in Hd.
  apply Forall_cons in Hcs as [Hc0ok Hrok]. apply NoDup_cons in Hd as [_ Hd].
  assert (∀ k, k ∈ requests <$> rest → k ∈ requests <$> connections f) as Hsub.
  { intros k Hk. rewrite Hp. cbn. by right. }
  constructor; [|done|done| | |done|].
  - apply file_ok_with; [done|by apply Forall_app|]. rewrite fmap_app. apply NoDup_app. split_and!; [done| |done].
    intros k Hk Hk'. destruct (Hkl k Hk') as [->|Ho]; [done|]. by apply (Hobj k Ho), Hsub.
  - intros k. unfold channels. cbn. rewrite fmap_app, elem_of_app. intros [Hk|Hk]; [left; by apply Hsub|].
    destruct (Hkl k Hk) as [->|?]; [left|by right]. rewrite Hp. cbn. rewrite Hc0. by left.
  - intros c Hc Hn. cbn. rewrite Hp in Hc. apply elem_of_cons in Hc as [->|Hc]; [done|]. apply elem_of_app. by left.
  - intros c r Hc Hreq Ha Hr Hcl' Ho. rewrite Hp in Hc. apply elem_of_cons in Hc as [->|Hc].
    + destruct (Hmine r Ha Hr Hcl' Ho) as (c'&ms&?&?&?&?). exists c', ms. split_and!; [done| |done|done]. cbn. apply elem_of_app. by right.
    + destruct Hrest. rewrite <- Hreq. by apply list_elem_of_fmap_2.
Qed.
Lemma serves_drop f h a w w' c0 rest :
  file_ok f → Permutation (connections f) (c0 :: rest) → requests c0 = h → h ∉ requests <$> rest →
  (∀ k, k ∈ objects a → k ∉ channels f) → closed (wire w') = closed (wire w) ∧ takes (wire w') = takes (wire w) →
  (∀ k, k ≠ h → k ∉ objects a → msgs_to k (wire w') = msgs_to k (wire w)) →
  (∀ r, a = Request r → r ≠ FClose → ¬ can_reply (wire w) h r) →
  serves f h a w (with_connections rest f) w'.
Proof.
  intros Hf Hp Hc Hr Ho Hcl Hm Hmine. rewrite <- (app_nil_r rest). eapply (serves_intro f h a w w' c0 rest []); try done; [cbn; constructor|set_solver|].
  intros r Ha Hn Hreply _. by destruct (Hmine r Ha Hn).
Qed.

Section one.
Context f (h : Z) c (rest : list FileConnection) w.
Context (Hf : file_ok f) (Hc : requests c = h) (Hp : Permutation (connections f) (c :: rest)) (Hrest : h ∉ requests <$> rest).
(** The round of the loop once the connection is taken out. *)
Definition handled (req : FileRequest) : M Empty_set (World O) (PseudoFile O) :=
  r <- attempt (handle_request (with_connections rest f) req c) ;;
  match r with
  | inl (self, Some connection) => ret (with_connections (connections self ++ [connection]) self)
  | inl (self, None) => ret self
  | inr _ => ret (with_connections rest f)
  end.
Lemma rest_handlers : handlers_ok (with_connections rest f).
Proof. destruct (ok_handlers f Hf). by constructor. Qed.
Lemma taken_ok : conn_ok c.
Proof. pose proof (ok_connections f Hf) as Hall. rewrite Hp in Hall. by apply Forall_cons in Hall as [? _]. Qed.
Lemma serve_close : ∃ f' w', handled FClose w = (Ok f', w') ∧ serves f h (Request FClose) w f' w'.
Proof.
  unfold handled. cbn [handle_request]. unfold attempt, bind. rewrite (close_spec (with_connections rest f) c w rest_handlers). rewrite Hc.
  match goal with |- context [closes ?a ?b ?c] => generalize (closes a b c) end. intros [st o]. cbn [fst snd].
  case_decide as Hcl; (eexists _, _; split; [done|]); eapply serves_drop; try done; try set_solver; try naive_solver.
  intros k Hk _. by apply (msgs_only_to h), Hk; apply only_to_said.
Qed.
Lemma serve_clone fl o : o ∉ channels f →
  ∃ f' w', handled (FClone fl o) w = (Ok f', w') ∧ serves f h (Request (FClone fl o)) w f' w'.
Proof.
  intros Ho. unfold handled. cbn [handle_request]. unfold attempt, bind, weaken.
  destruct (clone_spec (with_connections rest f) (flags c) fl o w rest_handlers) as (f1&w1&->&Hx&Hf1). cbn.
  pose proof Hx as (Hcl&_&_&Htk&_). pose proof taken_ok as Hcok.
  assert (o ≠ h) as Hoh. { intros ->. apply Ho. unfold channels. rewrite Hp. cbn. rewrite Hc. by left. }
  assert (∀ k, k ∈ objects (Request (FClone fl o)) → k ∉ channels f) as Hobj by (cbn; set_solver).
  eexists _, _. split; [done|].
  assert (∀ k, k ≠ h → k ∉ objects (Request (FClone fl o)) → msgs_to k (wire w1) = msgs_to k (wire w)) as Hmsgs.
  { intros k Hk Hko. eapply msgs_only_to; [done|]. cbn in Hko. set_solver. }
  assert (∀ (l : list FileConnection) r, c ∈ l → Request (FClone fl o) = Request r → ∃ c' ms, session c [r] c' ms ∧ c' ∈ l ∧ requests c' = h ∧
    msgs_to h (wire w1) = msgs_to h (wire w) ++ ms) as Hsess.
  { intros l r Hl [= <-]. exists c, []. split_and!; [constructor; constructor|done|done|]. rewrite app_nil_r. by eapply msgs_only_to. }
  destruct Hf1 as [->|(c1&Hc1&_&->)]; cbn [connections with_connections].
  - change (with_connections (rest ++ [c]) (with_connections rest f)) with (with_connections (rest ++ [c]) f).
    eapply (serves_intro f h _ w w1 c rest [c]); try done; [by constructor|cbn; by apply NoDup_singleton|cbn; set_solver|].
    intros r Hr _ _ _. apply Hsess; [by left|done].
  - destruct Hc1 as (Hr1&Hok1&_).
    change (with_connections ((rest ++ [c1]) ++ [c]) (with_connections (rest ++ [c1]) (with_connections rest f)))
      with (with_connections ((rest ++ [c1]) ++ [c]) f). rewrite <- app_assoc.
    eapply (serves_intro f h _ w w1 c rest ([c1] ++ [c])); try done; [apply Forall_cons; split; [done|by apply Forall_singleton]| |cbn; set_solver|].
    + cbn. rewrite Hr1, Hc. apply NoDup_cons. split; [set_solver|apply NoDup_singleton].
    + intros r Hr _ _ _. apply Hsess; [set_solver|done].
Qed.
Lemma serve_refused req : vmo_refused c req = true → handled req w = (Panic, w).
Proof.
  intros Hv. unfold handled, attempt, bind.
  assert (handle_request (with_connections rest f) req c w = (Panic, w)) as ->; [|done].
  destruct req; try done. cbn [handle_request]. unfold bind, on_wire. rewrite request_panics by done. by destruct w.
Qed.
Lemma serve_other req : request_ok req → (∀ fl o, req ≠ FClone fl o) → req ≠ FClose → vmo_refused c req = false →
  ∃ f' w', handled req w = (Ok f', w') ∧ serves f h (Request req) w f' w'.
Proof.
  intros Hreq Hnc Hncl Hv. unfold handled.
  assert (handle_request (with_connections rest f) req c =
    (connection <- on_wire (connection_request c req) ;; ret (with_connections rest f, Some connection))) as ->.
  { destruct req; try done. by destruct (Hnc flags object). }
  unfold attempt, bind. destruct (connection_spec c req w taken_ok Hreq Hnc Hncl Hv) as (r&w1&->&Hx&_&Hr).
  assert (objects (Request req) = []) as Hno by (destruct req; try done; by destruct (Hnc flags object)).
  pose proof Hx as (Hcl&_&_&Htk&_). destruct r as [c'|e| |]; [| |done..]; rewrite Hc in Hx.
  - destruct Hr as (Hr'&Hok'&(m&Hs&Ew)). eexists _, _. split; [done|].
    change (with_connections (connections (with_connections rest f) ++ [c']) (with_connections rest f)) with (with_connections (rest ++ [c']) f).
    eapply (serves_intro f h _ w w1 c rest [c']); try done; [rewrite Hno; set_solver|by constructor|cbn; apply NoDup_singleton|cbn; set_solver| |].
    + intros k Hk Hko. by eapply msgs_only_to.
    + intros r0 [= <-] _ _ _. exists c', [m]. split_and!; [eapply session_step; [done|constructor]|by left|congruence|].
      rewrite Ew, Hc. apply msgs_said.
  - eexists _, _. split; [done|]. eapply serves_drop; try done; [rewrite Hno; set_solver| |].
    + intros k Hk Hko. by eapply msgs_only_to.
    + intros r [= <-] _ Hcan. destruct Hr as (c'&m&Hs&Href). rewrite <- Hc in Hcan. by eapply can_reply_takes.
Qed.
End one.
(** A request for a buffer that the kernel does not provide, on a connection of the channel. *)
Definition refused (h : Z) (a : Arrival FileRequest) : Prop :=
  ∃ c fl, requests c = h ∧ a = Request (FGetBuffer fl) ∧ vmo_refused c (FGetBuffer fl) = true.
Lemma serve_spec f h a w :
  file_ok f → arrival_ok a → (∀ k, k ∈ objects a → k ∉ channels f) →
  (serve f h a w = (Panic, w) ∧ refused h a) ∨ ∃ f' w', serve f h a w = (Ok f', w') ∧ serves f h a w f' w'.
Proof.
  intros Hf Ha Hobj. unfold serve. pose proof (take_spec h (connections f) (ok_channels f Hf)) as Ht.
  destruct (take_connection h (connections f)) as [[c rest]|].
  2: { right. exists f, w. split; [done|]. constructor; try done; [by left|]. intros c r Hc <-. destruct Ht. by apply list_elem_of_fmap_2. }
  destruct Ht as (Hc&Hp&Hrest). destruct a as [req|]; [|by right; eexists _, _; split; [done|by eapply serves_drop]].
  fold (handled f c rest req). destruct (decide (req = FClose)) as [->|Hncl]; [right; by apply serve_close|].
  assert ((∃ fl o, req = FClone fl o) ∨ ∀ fl o, req ≠ FClone fl o) as [(fl&o&->)|Hnc] by (destruct req; eauto).
  - right. apply serve_clone; try done. apply Hobj. by left.
  - destruct (vmo_refused c req) eqn:Hv; [left|right; by apply serve_other].
    split; [by apply serve_refused|]. destruct req; try done. by eexists c, _.
Qed.

(** The requests of a channel among all that arrive. *)
Definition requests_of (h : Z) (arrivals : list (Z * Arrival FileRequest)) : list FileRequest :=
  omap (λ ka, if decide (ka.1 = h) then match ka.2 with Request r => Some r | Gone => None end else None) arrivals.
Definition all_objects (arrivals : list (Z * Arrival FileRequest)) : list Z := concat (map (λ ka, objects ka.2) arrivals).
Definition stays_open (h : Z) (arrivals : list (Z * Arrival FileRequest)) : Prop :=
  ∀ a, (h, a) ∈ arrivals → ∃ r, a = Request r ∧ r ≠ FClose ∧ short r.
Lemma poll_spec arrivals f w :
  file_ok f → Forall (λ ka, arrival_ok ka.2) arrivals → NoDup (all_objects arrivals) →
  (∀ k, k ∈ all_objects arrivals → k ∉ channels f) →
  (fst (poll f arrivals w) = Panic ∧ Exists (λ ka, refused ka.1 ka.2) arrivals) ∨
  ∃ f' w', poll f arrivals w = (Ok f', w') ∧ file_ok f' ∧ same_file f f' ∧ closed (wire w') = closed (wire w) ∧ takes (wire w') = takes (wire w) ∧
    ∀ c, c ∈ connections f → takes_short (wire w) → requests c ∉ closed (wire w) → stays_open (requests c) arrivals →
      ∃ c' ms, session c (requests_of (requests c) arrivals) c' ms ∧ c' ∈ connections f' ∧ requests c' = requests c ∧
        msgs_to (requests c) (wire w') = msgs_to (requests c) (wire w) ++ ms.
Proof.
  revert f w. induction arrivals as [|[h a] arrivals IH]; intros f w Hf Hok Hd Hfresh.
  { right. exists f, w. split_and!; [done..|]. intros c Hc _ _ _. exists c, []. rewrite app_nil_r. split_and!; [constructor|done..]. }
  apply Forall_cons in Hok as [Ha Hok]. unfold all_objects in Hd, Hfresh. cbn in Hd, Hfresh. apply NoDup_app in Hd as (_&Hda&Hd).
  destruct (serve_spec f h a w Hf Ha) as [[E1 Hr]|(f1&w1&E1&S1)]; [set_solver| |].
  { left. cbn [poll]. unfold bind. rewrite E1. split; [done|by apply Exists_cons_hd]. }
  destruct (sv_wire _ _ _ _ _ _ S1) as [Hcl1 Ht1].
  destruct (IH f1 w1) as [[E2 Hr]|(f2&w2&E2&Hf2&Hs2&Hcl2&Ht2&Hmine)]; [apply S1|done|done| | |].
  { intros k Hk Hin. destruct (sv_channels _ _ _ _ _ _ S1 k Hin) as [?|?]; [apply (Hfresh k); [set_solver|done]|by apply (Hda k)]. }
  { left. cbn [poll]. unfold bind. rewrite E1. split; [done|by apply Exists_cons_tl]. }
  right. exists f2, w2. cbn [poll]. unfold bind. rewrite E1, E2. split_and!; [done|done| |by rewrite Hcl2|by rewrite Ht2|].
  { destruct (sv_same _ _ _ _ _ _ S1) as (?&?&?&?), Hs2 as (?&?&?&?). unfold same_file. by split_and!; etrans. }
  intros c Hc Ht Hcl Hopen. assert (takes_short (wire w1)) as Htw1 by (unfold takes_short; by rewrite Ht1).
  assert (stays_open (requests c) arrivals) as Hopen' by (intros x Hx; apply Hopen; by right).
  assert (requests c ∉ objects a) as Hnobj.
  { intros Ho. apply (Hfresh (requests c)); [set_solver|]. by apply list_elem_of_fmap_2. }
  unfold requests_of. cbn. destruct (decide (h = requests c)) as [->|Hn].
  - destruct (Hopen a ltac:(by left)) as (r&->&Hr&Hsh).
    destruct (sv_mine _ _ _ _ _ _ S1 c r Hc eq_refl eq_refl Hr (conj Hcl (conj Ht Hsh)) Hnobj) as (c1&ms1&Hs1&Hc1&Hr1&Hm1).
    destruct (Hmine c1 Hc1) as (c2&ms2&Hs&Hc2&Hr2&Hm2); [done|by rewrite Hr1, Hcl1|by rewrite Hr1|].
    rewrite Hr1 in *. exists c2, (ms1 ++ ms2). split_and!; [by eapply (session_app c [r])|done|done|].
    by rewrite Hm2, Hm1, <- app_assoc.
  - destruct (Hmine c) as (c2&ms2&Hs&Hc2&Hr2&Hm2); [by apply (sv_others _ _ _ _ _ _ S1)|done|by rewrite Hcl1|done|].
    exists c2, ms2. split_and!; [done..|]. rewrite Hm2. f_equal. by apply (sv_msgs _ _ _ _ _ _ S1).
Qed.
End files.
