(* ===== verification/VfsDirectory.v ===== *)
(** Pseudo directories ([public/rust/fuchsia-vfs/pseudo-fs/src/directory]: [common.rs],
    [connection.rs], [entry.rs], [watchers.rs], [simple.rs], [traversal_position.rs]): the tree of
    directories and files of a server, the requests of the connections to a directory, and the
    watchers that are told of its entries.  Of the entries, the files of [VfsFile] and simple
    directories are modelled. *)

From S2P Require Import Prelude Std VfsFile.
Open Scope rust_scope.
Set Warnings "-register-all".

(** * Flags and paths *)
Section flags.
Context `{IO : !IoConstants}.
Definition dir_validate_flags (flags_ mode : Z) : result Status Z :=
  if negb (Z.ldiff (Z.ldiff mode MODE_PROTECTION_MASK) MODE_TYPE_DIRECTORY =? 0) then
    if negb (Z.land (Z.ldiff mode MODE_PROTECTION_MASK) MODE_TYPE_FILE =? 0) then Err NOT_FILE else Err INVALID_ARGS
  else
    let flags_ :=
      if has_flag flags_ OPEN_FLAG_NODE_REFERENCE
      then Z.land (Z.ldiff flags_ OPEN_FLAG_NODE_REFERENCE) OPEN_FLAGS_ALLOWED_WITH_NODE_REFERENCE else flags_ in
    let flags_ :=
      if has_flag flags_ OPEN_FLAG_POSIX then Z.lor (Z.ldiff flags_ OPEN_FLAG_POSIX) OPEN_RIGHT_WRITABLE else flags_ in
    let allowed_flags :=
      Z.lor (Z.lor (Z.lor OPEN_FLAG_DESCRIBE OPEN_FLAG_DIRECTORY) OPEN_RIGHT_READABLE) OPEN_RIGHT_WRITABLE in
    let prohibited_flags :=
      Z.lor (Z.lor (Z.lor OPEN_FLAG_APPEND OPEN_FLAG_CREATE) OPEN_FLAG_CREATE_IF_ABSENT) OPEN_FLAG_TRUNCATE in
    if has_flag flags_ OPEN_RIGHT_ADMIN then Err ACCESS_DENIED
    else if has_flag flags_ prohibited_flags then Err INVALID_ARGS
    else if negb (Z.ldiff flags_ allowed_flags =? 0) then Err NOT_SUPPORTED
    else Ok flags_.
Definition check_child_connection_flags (parent_flags flags_ : Z) : result Status Z :=
  let flags_ := if negb (has_flag parent_flags OPEN_RIGHT_WRITABLE) then Z.ldiff flags_ OPEN_FLAG_POSIX else flags_ in
  if stricter_or_same_rights parent_flags flags_ then Ok flags_ else Err ACCESS_DENIED.

Definition slash : Z := 47.
Definition dot : list Z := [46].
Definition dotdot : list Z := [46; 46].
(** The components, and whether the path ends with a slash. *)
Definition validate_and_split_path (path : list Z) : result Status (list (list Z) * bool) :=
  let is_dir := bool_decide (last path = Some slash) in
  let components := if is_dir then removelast (str_split slash path) else str_split slash path in
  if existsb (λ c, bool_decide (c = []) || bool_decide (c = dotdot) || bool_decide (c = dot)) components then Err INVALID_ARGS
  else Ok (components, is_dir).

(** * Entries of a listing *)
Record EntryInfo := { inode : Z; type_ : Z }.
Definition entry_info_new {E : Type} (inode_ type : Z) : result E EntryInfo :=
  if bool_decide (type ∈ [DIRENT_TYPE_UNKNOWN; DIRENT_TYPE_DIRECTORY; DIRENT_TYPE_BLOCK_DEVICE; DIRENT_TYPE_FILE;
                          DIRENT_TYPE_SOCKET; DIRENT_TYPE_SERVICE])
  then Ok {| inode := inode_; type_ := type |} else Panic.
(** The buffer with the entry, or [None] when there is no room for it. *)
Definition encode_dirent `{!ByteOrder} {E : Type} (buf : list Z) (max_bytes : Z) (entry : EntryInfo) (name : list Z)
    : result E (option (list Z)) :=
  header <-? uadd 64 (zlen buf) 10 ;;
  total <-? uadd 64 header (zlen name) ;;
  if max_bytes <? total then Ok None
  else if negb (zlen name <? MAX_FILENAME) then Panic
  else if negb (MAX_FILENAME <=? 255) then Panic
  else Ok (Some (buf ++ write_int 8 (inode entry) ++ [to_unsigned 8 (zlen name)] ++ [type_ entry] ++ name)).

(** * Watchers *)
Record Watcher := { mask : Z; channel : Z }.
Inductive SendError := NameTooLong | FIDL (e : FidlError).
Definition watch_write (self : Watcher) (buf : list Z) : M SendError Wire unit :=
  λ w, match write (channel self) (WatchMessage buf) w with
       | (Ok _, w) => (Ok tt, w)
       | (Err e, w) => (Err (FIDL e), w)
       | (Panic, w) => (Panic, w)
       | (OutOfFuel, w) => (OutOfFuel, w)
       end.
(** The events are pairs of the event and the name; [res] is the error so far. *)
Fixpoint send_loop (self : Watcher) (events : list (Z * list Z)) (buf : list Z) (res : option SendError) : M SendError Wire unit :=
  match events with
  | [] =>
      (if 0 <? zlen buf then watch_write self buf else ret tt) ;;;
      match res with Some e => fail e | None => ret tt end
  | (event, name) :: events =>
      if MAX_FILENAME <=? zlen name then send_loop self events buf (match res with Some e => Some e | None => Some NameTooLong end)
      else
        buf <- (if MAX_BUF <? zlen buf + (2 + zlen name) then watch_write self buf ;;; ret [] else ret buf) ;;
        lift (if MAX_FILENAME <=? 255 then Ok tt else Panic) ;;;
        send_loop self events (buf ++ [event] ++ [to_unsigned 8 (zlen name)] ++ name) res
  end.
Definition send_event_structs (self : Watcher) (events : list (Z * list Z)) : M SendError Wire unit := send_loop self events [] None.
Definition connection_send_event (self : Watcher) (event : Z) (name : list Z) : M SendError Wire unit :=
  send_event_structs self [(event, name)].
Definition send_event_check_mask (self : Watcher) (mask_ event : Z) (name : list Z) : M SendError Wire unit :=
  if Z.land (mask self) mask_ =? 0 then ret tt else connection_send_event self event name.
Definition send_events_existing (self : Watcher) (names : list (list Z)) : M SendError Wire unit :=
  if Z.land (mask self) WATCH_MASK_EXISTING =? 0 then ret tt
  else send_event_structs self ((WATCH_EVENT_EXISTING,.) <$> names).
Definition send_event_idle (self : Watcher) : M SendError Wire unit :=
  if Z.land (mask self) WATCH_MASK_IDLE =? 0 then ret tt else connection_send_event self WATCH_EVENT_IDLE [].
Definition watchers_add (self : list Watcher) (names : list (list Z)) (mask_ channel_ : Z) : M SendError Wire (list Watcher) :=
  let conn := {| mask := mask_; channel := channel_ |} in
  send_events_existing conn names ;;;
  send_event_idle conn ;;;
  ret (self ++ [conn]).
(** [retain]: a watcher that cannot be written to is dropped. *)
Fixpoint retain_sent (self : list Watcher) (mask_ event : Z) (name : list Z) : M SendError Wire (list Watcher) :=
  match self with
  | [] => ret []
  | watcher :: self =>
      λ w, match send_event_check_mask watcher mask_ event name w with
           | (Ok _, w) => (rest <- retain_sent self mask_ event name ;; ret (watcher :: rest)) w
           | (Err (FIDL _), w) => retain_sent self mask_ event name w
           | (Err NameTooLong, w) => (Panic, w)
           | (Panic, w) => (Panic, w)
           | (OutOfFuel, w) => (OutOfFuel, w)
           end
  end.
Definition watchers_send_event (self : list Watcher) (mask_ event : Z) (name : list Z) : M SendError Wire (list Watcher) :=
  if MAX_FILENAME <=? zlen name then fail NameTooLong else retain_sent self mask_ event name.
Definition is_dead (self : Watcher) (w : Wire) : bool :=
  bool_decide (channel self ∈ closed w) || bool_decide (channel self ∈ readable w).
Definition remove_dead (self : list Watcher) (w : Wire) : list Watcher := List.filter (λ x, negb (is_dead x w)) self.
End flags.

(** * Directories *)
Inductive AlphabeticalTraversal := TStart | TDot | TName (last : list Z) | TEnd.
Record DirectoryConnection := { dir_requests : Z; dir_flags : Z; dir_seek : AlphabeticalTraversal }.
Definition seek_to (x : AlphabeticalTraversal) (c : DirectoryConnection) : DirectoryConnection :=
  {| dir_requests := dir_requests c; dir_flags := dir_flags c; dir_seek := x |}.
Inductive DirectoryRequest :=
| DClone (flags object : Z) | DClose | DDescribe | DSync | DGetAttr | DSetAttr | DIoctl
| DOpen (flags mode : Z) (path : list Z) (object : Z)
| DUnlink | DReadDirents (max_bytes : Z) | DRewind | DGetToken | DRename | DLink
| DWatch (mask options watcher : Z).

(** [BTreeMap::remove] and [range] after a key. *)
Definition bt_remove {V : Type} (k : list Z) (m : BTreeMap V) : BTreeMap V := List.filter (λ e, negb (bool_decide (e.1 = k))) m.
Definition bt_after {V : Type} (k : list Z) (m : BTreeMap V) : BTreeMap V :=
  List.filter (λ e, match bytes_compare k e.1 with Lt => true | _ => false end) m.

Record Simple (N : Type) := {
  dir_protection : Z; entries : list (list Z * N); dir_connections : list DirectoryConnection; watchers : list Watcher }.
Arguments dir_protection {N}.
Arguments entries {N}.
Arguments dir_connections {N}.
Arguments watchers {N}.
Definition with_entries {N : Type} (x : list (list Z * N)) (d : Simple N) : Simple N :=
  {| dir_protection := dir_protection d; entries := x; dir_connections := dir_connections d; watchers := watchers d |}.
Definition with_dir_connections {N : Type} (x : list DirectoryConnection) (d : Simple N) : Simple N :=
  {| dir_protection := dir_protection d; entries := entries d; dir_connections := x; watchers := watchers d |}.
Definition with_watchers {N : Type} (x : list Watcher) (d : Simple N) : Simple N :=
  {| dir_protection := dir_protection d; entries := entries d; dir_connections := dir_connections d; watchers := x |}.
(** The entries of the tree. *)
Inductive Node (O : Type) := FileNode (f : PseudoFile O) | DirectoryNode (d : Simple (Node O)).
Arguments FileNode {O} f.
Arguments DirectoryNode {O} d.

Section directory.
Context `{IO : !IoConstants, VM : !VmoSystem, BO : !ByteOrder} {O : Type}.
Abbreviation V E := (M E (World O)).
Abbreviation node := (Node O).
Abbreviation dir := (Simple (Node O)).

Definition empty_attr (protection : Z) : dir := {| dir_protection := protection; entries := []; dir_connections := []; watchers := [] |}.
(** [DirectoryConnection::connect] *)
Definition dir_connect {E : Type} (flags_ mode server_end : Z) : M E Wire (option DirectoryConnection) :=
  match dir_validate_flags flags_ mode with
  | Ok flags_ =>
      ok_or_none
        (attach server_end ;;;
         (if has_flag flags_ OPEN_FLAG_DESCRIBE then write server_end (OnOpen OK (Some DirectoryInfo)) else ret tt) ;;;
         ret {| dir_requests := server_end; dir_flags := flags_; dir_seek := TStart |})
  | Err status => send_on_open_with_error flags_ server_end status ;;; ret None
  | Panic => panic
  | OutOfFuel => lift OutOfFuel
  end.
Definition dir_add_connection {E : Type} (self : dir) (flags_ mode server_end : Z) : V E dir :=
  conn <- on_wire (dir_connect flags_ mode server_end) ;;
  ret (match conn with Some conn => with_dir_connections (dir_connections self ++ [conn]) self | None => self end).
Definition dir_handle_clone {E : Type} (self : dir) (parent_flags flags_ mode server_end : Z) : V E dir :=
  match inherit_rights_for_clone parent_flags flags_ with
  | Ok flags_ => dir_add_connection self flags_ mode server_end
  | Err status => on_wire (send_on_open_with_error flags_ server_end status) ;;; ret self
  | Panic => panic
  | OutOfFuel => lift OutOfFuel
  end.
(** [DirectoryEntry::open] of directories and files. *)
Fixpoint open (path : list (list Z)) (self : node) (flags_ mode server_end : Z) : V Empty_set node :=
  match self with
  | FileNode f => f <- file_open f flags_ mode path server_end ;; ret (FileNode f)
  | DirectoryNode d =>
      match path with
      | [] => d <- dir_add_connection d flags_ mode server_end ;; ret (DirectoryNode d)
      | name :: path =>
          match bt_get name (entries d) with
          | None => on_wire (send_on_open_with_error flags_ server_end NOT_FOUND) ;;; ret (DirectoryNode d)
          | Some entry =>
              entry <- open path entry flags_ mode server_end ;;
              ret (DirectoryNode (with_entries (bt_insert name entry (entries d)) d))
          end
      end
  end.
(** [self.open] of a directory, which stays one. *)
Definition dir_open (self : dir) (flags_ mode : Z) (path : list (list Z)) (server_end : Z) : V Empty_set dir :=
  n <- open path (DirectoryNode self) flags_ mode server_end ;;
  ret (match n with DirectoryNode d => d | FileNode _ => self end).
Definition handle_open (self : dir) (parent_flags flags_ mode : Z) (path : list Z) (server_end : Z) : V Empty_set dir :=
  if bool_decide (path = [slash] ∨ path = []) then on_wire (send_on_open_with_error flags_ server_end BAD_PATH) ;;; ret self
  else if bool_decide (path = dot ∨ path = dot ++ [slash]) then dir_handle_clone self parent_flags flags_ mode server_end
  else
    match validate_and_split_path path with
    | Ok (names, is_dir) =>
        let mode := if is_dir : bool then Z.lor mode MODE_TYPE_DIRECTORY else mode in
        match check_child_connection_flags parent_flags flags_ with
        | Ok flags_ => dir_open self flags_ mode names server_end
        | Err status => on_wire (send_on_open_with_error flags_ server_end status) ;;; ret self
        | Panic => panic
        | OutOfFuel => lift OutOfFuel
        end
    | Err status => on_wire (send_on_open_with_error flags_ server_end status) ;;; ret self
    | Panic => panic
    | OutOfFuel => lift OutOfFuel
    end.

Definition node_info {E : Type} (n : node) : result E EntryInfo :=
  match n with
  | FileNode _ => entry_info_new INO_UNKNOWN DIRENT_TYPE_FILE
  | DirectoryNode _ => entry_info_new INO_UNKNOWN DIRENT_TYPE_DIRECTORY
  end.
(** The loop over the entries: where it stopped, the status and the buffer. *)
Fixpoint dirents_loop {E : Type} (l : list (list Z * node)) (max_bytes : Z) (buf : list Z) (fit_one : bool)
    (last_returned : AlphabeticalTraversal) : result E (AlphabeticalTraversal * Status * list Z) :=
  match l with
  | [] => Ok (TEnd, OK, buf)
  | (name, entry) :: l =>
      info <-? node_info entry ;;
      r <-? encode_dirent buf max_bytes info name ;;
      match r with
      | None => Ok (last_returned, if fit_one then OK else BUFFER_TOO_SMALL, buf)
      | Some buf => dirents_loop l max_bytes buf true (TName name)
      end
  end.
Definition read_dirents {E : Type} (self : dir) (seek_ : AlphabeticalTraversal) (max_bytes : Z)
    : result E (AlphabeticalTraversal * Status * list Z) :=
  match seek_ with
  | TStart =>
      info <-? entry_info_new INO_UNKNOWN DIRENT_TYPE_DIRECTORY ;;
      r <-? encode_dirent [] max_bytes info dot ;;
      match r with
      | None => Ok (TStart, BUFFER_TOO_SMALL, [])
      | Some buf => dirents_loop (entries self) max_bytes buf true TDot
      end
  | TDot => dirents_loop (entries self) max_bytes [] false TDot
  | TName last_returned_name => dirents_loop (bt_after last_returned_name (entries self)) max_bytes [] false (TName last_returned_name)
  | TEnd => Ok (TEnd, OK, [])
  end.
Definition handle_read_dirents (self : dir) (connection : DirectoryConnection) (max_bytes : Z) : V FidlError DirectoryConnection :=
  r <- lift (read_dirents self (dir_seek connection) max_bytes) ;;
  let '(seek_, status, buf) := r in
  on_wire (write (dir_requests connection) (DirentsReply status buf)) ;;;
  ret (seek_to seek_ connection).

(** When the reply cannot be sent the connection is closed, but the watcher has been added. *)
Definition handle_watch (self : dir) (connection : DirectoryConnection) (mask_ options watcher : Z)
    : V FidlError (dir * option DirectoryConnection) :=
  if negb (options =? 0) then
    on_wire (write (dir_requests connection) (StatusReply INVALID_ARGS)) ;;; ret (self, Some connection)
  else
    on_wire (attach watcher) ;;;
    r <- attempt (on_wire (watchers_add (watchers self) (dot :: bt_keys (entries self)) mask_ watcher)) ;;
    p <- lift (match r with
               | inl ws => Ok (with_watchers ws self, OK)
               | inr NameTooLong => Panic
               | inr (FIDL _) => Ok (self, IO_REFUSED)
               end) ;;
    let (self, status) := (p : dir * Status) in
    replied <- attempt (on_wire (write (dir_requests connection) (StatusReply status))) ;;
    ret (self, match replied with inl _ => Some connection | inr _ => None end).
(** [Simple::handle_request]: the connection, unless it is closed, and whether a child may have a
    new connection. *)
Definition dir_handle_request (self : dir) (req : DirectoryRequest) (connection : DirectoryConnection)
    : V FidlError (dir * option DirectoryConnection * bool) :=
  let reply (m : Message) := on_wire (write (dir_requests connection) m) ;;; ret (self, Some connection, false) in
  match req with
  | DClone flags_ object =>
      self <- dir_handle_clone self (dir_flags connection) flags_ 0 object ;; ret (self, Some connection, false)
  | DClose => on_wire (write (dir_requests connection) (StatusReply OK)) ;;; ret (self, None, false)
  | DDescribe => reply (DescribeReply DirectoryInfo)
  | DSync | DSetAttr | DUnlink | DRename | DLink => reply (StatusReply NOT_SUPPORTED)
  | DGetAttr => reply (AttrReply OK (file_attributes (Z.lor MODE_TYPE_DIRECTORY (dir_protection self))))
  | DIoctl => reply (IoctlReply NOT_SUPPORTED)
  | DOpen flags_ mode path object =>
      self <- weaken (handle_open self (dir_flags connection) flags_ mode path object) ;; ret (self, Some connection, true)
  | DReadDirents max_bytes => c <- handle_read_dirents self connection max_bytes ;; ret (self, Some c, false)
  | DRewind => on_wire (write (dir_requests connection) (StatusReply OK)) ;;; ret (self, Some (seek_to TStart connection), false)
  | DGetToken => reply (TokenReply NOT_SUPPORTED)
  | DWatch mask_ options watcher => r <- handle_watch self connection mask_ options watcher ;; ret (r, false)
  end.

(** * Entries *)
Definition unwatched {E A : Type} (m : M SendError Wire A) : V E A :=
  λ w, match m (wire w) with
       | (Ok a, x) => (Ok a, {| owner := owner w; wire := x |})
       | (Err _, x) => (Panic, {| owner := owner w; wire := x |})
       | (Panic, x) => (Panic, {| owner := owner w; wire := x |})
       | (OutOfFuel, x) => (OutOfFuel, {| owner := owner w; wire := x |})
       end.
Definition add_boxed_entry (self : dir) (name : list Z) (entry : node) : V (Status * node) dir :=
  if MAX_FILENAME <=? zlen name then fail (INVALID_ARGS, entry)
  else if bool_decide (name ∈ bt_keys (entries self)) then fail (ALREADY_EXISTS, entry)
  else
    ws <- unwatched (watchers_send_event (watchers self) WATCH_MASK_ADDED WATCH_EVENT_ADDED name) ;;
    ret (with_entries (bt_insert name entry (entries self)) (with_watchers ws self)).
Definition remove_entry (self : dir) (name : list Z) : V Status (dir * option node) :=
  if MAX_FILENAME <=? zlen name then fail INVALID_ARGS
  else
    ws <- unwatched (watchers_send_event (watchers self) WATCH_MASK_REMOVED WATCH_EVENT_REMOVED name) ;;
    ret (with_entries (bt_remove name (entries self)) (with_watchers ws self), bt_get name (entries self)).

(** * Running *)
Fixpoint take_dir_connection (h : Z) (l : list DirectoryConnection) : option (DirectoryConnection * list DirectoryConnection) :=
  match l with
  | [] => None
  | c :: l =>
      if dir_requests c =? h then Some (c, l)
      else match take_dir_connection h l with Some (x, l) => Some (x, c :: l) | None => None end
  end.
(** One round of the loop of [poll_connections]; whether the children have to be polled again. *)
Definition dir_serve (self : dir) (h : Z) (arrival : Arrival DirectoryRequest) : V Empty_set (dir * bool) :=
  match take_dir_connection h (dir_connections self) with
  | None => ret (self, false)
  | Some (connection, rest) =>
      let self := with_dir_connections rest self in
      match arrival with
      | Gone => ret (self, false)
      | Request request =>
          r <- attempt (dir_handle_request self request connection) ;;
          match r with
          | inl (self, Some connection, rerun) => ret (with_dir_connections (dir_connections self ++ [connection]) self, rerun)
          | inl (self, None, rerun) => ret (self, rerun)
          | inr _ => ret (self, false)
          end
      end
  end.
Fixpoint poll_connections (self : dir) (arrivals : list (Z * Arrival DirectoryRequest)) (rerun_children : bool)
    : V Empty_set (dir * bool) :=
  match arrivals with
  | [] => ret (self, rerun_children)
  | (h, arrival) :: arrivals =>
      r <- dir_serve self h arrival ;;
      let (self, rerun) := (r : dir * bool) in
      poll_connections self arrivals (rerun_children || rerun)
  end.
(** The end of [Simple::poll]. *)
Definition poll_watchers (self : dir) : V Empty_set dir := reading (λ w, Ok (with_watchers (remove_dead (watchers self) (wire w)) self)).

(** What happens to a tree: requests that come in on a connection of a node, what its owner
    does, and [poll].  The order in which [poll] visits nodes and connections is any. *)
Inductive TreeEvent :=
| FileArrival (h : Z) (a : Arrival FileRequest)
| DirectoryArrival (h : Z) (a : Arrival DirectoryRequest)
| AddEntry (name : list Z) (entry : node)
| RemoveEntry (name : list Z)
| PollWatchers
| OwnerOpen (flags_ mode : Z) (path : list (list Z)) (server_end : Z).
Definition node_step (ev : TreeEvent) (n : node) : V Empty_set node :=
  match ev, n with
  | FileArrival h a, FileNode f => f <- serve f h a ;; ret (FileNode f)
  | DirectoryArrival h a, DirectoryNode d => r <- dir_serve d h a ;; ret (DirectoryNode (fst r))
  | AddEntry name entry, DirectoryNode d =>
      r <- attempt (add_boxed_entry d name entry) ;;
      ret (match r with inl d => DirectoryNode d | inr _ => n end)
  | RemoveEntry name, DirectoryNode d =>
      r <- attempt (remove_entry d name) ;;
      ret (match r with inl (d, _) => DirectoryNode d | inr _ => n end)
  | PollWatchers, DirectoryNode d => d <- poll_watchers d ;; ret (DirectoryNode d)
  | OwnerOpen flags_ mode path server_end, _ => open path n flags_ mode server_end
  | _, _ => ret n
  end.
(** A step at the node at [path]. *)
Fixpoint tree_step (path : list (list Z)) (ev : TreeEvent) (n : node) : V Empty_set node :=
  match path with
  | [] => node_step ev n
  | name :: path =>
      match n with
      | FileNode _ => ret n
      | DirectoryNode d =>
          match bt_get name (entries d) with
          | None => ret n
          | Some entry => entry <- tree_step path ev entry ;; ret (DirectoryNode (with_entries (bt_insert name entry (entries d)) d))
          end
      end
  end.
Fixpoint tree_run (events : list (list (list Z) * TreeEvent)) (n : node) : V Empty_set node :=
  match events with
  | [] => ret n
  | (path, ev) :: events => n <- tree_step path ev n ;; tree_run events n
  end.
(** [is_terminated] *)
Fixpoint node_terminated (n : node) : bool :=
  match n with
  | FileNode f => is_terminated f
  | DirectoryNode d =>
      forallb (λ e, node_terminated (snd e)) (entries d) && (zlen (watchers d) =? 0) && (zlen (dir_connections d) =? 0)
  end.
End directory.
