(* ===== verification/VfsDirectoryTheorems.v ===== *)
(** The tree of a pseudo file system: no request makes it panic, and connections never have more
    rights than those they were asked for on, whatever happens to the tree meanwhile. *)

From Stdlib Require Import Sorted.
From S2P Require Import Prelude Std VfsFile VfsFileTheorems VfsDirectory.
Open Scope rust_scope.
Set Warnings "-register-all".

(** * Flags *)
Section flags.
Context `{IO : !IoConstants, IS : !IoSpec}.
Lemma writable_bit : ∃ b, 0 ≤ b ∧ OPEN_RIGHT_WRITABLE = 2 ^ b.
Proof.
  pose proof flags_are_bits as Hf. pose proof flag_bits_range as Hr. destruct flag_bits as [|b0 [|b1 bits]]; try done.
  exists b1. apply Forall_cons in Hr as [_ Hr]. apply Forall_cons in Hr as [Hb _]. split; [lia|]. by injection Hf as _ ->.
Qed.
(** A flag that is a bit is in what it has a bit in common with. *)
Lemma has_writable f : has_flag f OPEN_RIGHT_WRITABLE = true → within OPEN_RIGHT_WRITABLE f.
Proof.
  destruct writable_bit as (b&Hb&->). rewrite has_flag_bit by done. intros H. apply within_bits. intros i Hi.
  rewrite Z.pow2_bits_eqb by done. by intros <-%Z.eqb_eq.
Qed.
Lemma within_lor a b c : within a c → within b c → within (Z.lor a b) c.
Proof.
  rewrite !within_bits. intros Ha Hb i Hi. rewrite Z.lor_spec. intros [?|?]%orb_true_iff; auto.
Qed.
Lemma rights_lor a b c : rights_within a c → rights_within b c → rights_within (Z.lor a b) c.
Proof. unfold rights_within. rewrite Z.land_lor_distr_l. apply within_lor. Qed.
Lemma dir_flags_within f m f' p :
  dir_validate_flags f m = Ok f' → rights_within f p →
  (has_flag f OPEN_FLAG_POSIX = true → has_flag p OPEN_RIGHT_WRITABLE = true) → rights_within f' p.
Proof.
  unfold dir_validate_flags. cbv zeta. destruct (negb (_ =? 0)); [by destruct (negb _)|].
  set (f1 := if has_flag f OPEN_FLAG_NODE_REFERENCE then _ else f).
  assert (within f1 f) as H1.
  { subst f1. destruct (has_flag f OPEN_FLAG_NODE_REFERENCE); [|apply within_refl].
    eapply flags_within_trans; [apply within_land_l|apply within_ldiff]. }
  do 3 (match goal with |- (if ?b then _ else _) = _ → _ => destruct b; [done|] end). intros [= <-] Hp Hposix.
  destruct (has_flag f1 OPEN_FLAG_POSIX) eqn:Ep; [|eapply flags_within_trans; [by apply rights_within_of|done]].
  apply rights_lor; [eapply flags_within_trans; [|exact Hp]; apply rights_within_of; eapply flags_within_trans; [apply within_ldiff|done]|].
  apply rights_within_of, has_writable, Hposix. by eapply has_flag_mono.
Qed.
Lemma dir_flags_total f m : (∃ f', dir_validate_flags f m = Ok f') ∨ (∃ s, dir_validate_flags f m = Err s ∧ s ≠ OK).
Proof.
  unfold dir_validate_flags. cbv zeta.
  repeat (match goal with |- context [if ?b then Err _ else _] => destruct b end; eauto); eauto.
Qed.
Lemma ldiff_no_flag f x : has_flag (Z.ldiff f x) x = false.
Proof.
  unfold has_flag. apply negb_false_iff, Z.eqb_eq, Z.bits_inj'. intros i Hi. rewrite Z.land_spec, Z.ldiff_spec, Z.bits_0.
  by destruct (Z.testbit f i), (Z.testbit x i).
Qed.
(** Dropping another flag leaves the right to write. *)
Lemma writable_ldiff f x : x ∈ [OPEN_FLAG_POSIX; CLONE_FLAG_SAME_RIGHTS] →
  has_flag f OPEN_RIGHT_WRITABLE = true → has_flag (Z.ldiff f x) OPEN_RIGHT_WRITABLE = true.
Proof.
  intros Hx. pose proof flags_are_bits as Hf. pose proof flag_bits_range as Hr. pose proof flag_bits_once as Hd.
  do 12 (destruct flag_bits as [|? flag_bits]; [done|]). destruct flag_bits; [|done].
  injection Hf as _ -> _ _ _ _ _ _ _ _ Hp Hs. rewrite !Forall_cons in Hr. rewrite !NoDup_cons in Hd. destruct_and!.
  apply list_elem_of_In in Hx. cbn in Hx. rewrite !has_flag_bit, Z.ldiff_spec by lia. intros ->.
  destruct Hx as [<-|[<-|[]]]; [rewrite Hp|rewrite Hs]; rewrite Z.pow2_bits_false; [done| |done|]; intros ->; set_solver.
Qed.
Lemma child_flags p f :
  (∃ f', check_child_connection_flags p f = Ok f' ∧ rights_within f' p ∧ within f' f ∧
     (has_flag f OPEN_RIGHT_WRITABLE = true → has_flag f' OPEN_RIGHT_WRITABLE = true) ∧
     (has_flag f' OPEN_FLAG_POSIX = true → has_flag p OPEN_RIGHT_WRITABLE = true)) ∨
  check_child_connection_flags p f = Err ACCESS_DENIED.
Proof.
  unfold check_child_connection_flags. cbv zeta.
  match goal with |- context [stricter_or_same_rights p ?x] => set (f' := x) end.
  destruct (stricter_or_same_rights p f') eqn:E; [left|by right]. apply stricter_spec in E. exists f'. split_and!; [done|done| | |].
  - subst f'. destruct (negb _); [apply within_ldiff|apply within_refl].
  - subst f'. destruct (negb _); [|done]. apply writable_ldiff. by left.
  - subst f'. destruct (has_flag p OPEN_RIGHT_WRITABLE); cbn [negb]; [done|]. by rewrite ldiff_no_flag.
Qed.
(** Cloning asks for no truncation and no [OPEN_FLAG_POSIX] that was not asked for. *)
Lemma not_inherited x : x ∈ [OPEN_FLAG_TRUNCATE; OPEN_FLAG_POSIX] →
  ∃ b, 0 ≤ b ∧ x = 2 ^ b ∧ Z.testbit (Z.lor (Z.lor OPEN_FLAG_APPEND OPEN_FLAG_NODE_REFERENCE) FS_RIGHTS) b = false.
Proof.
  intros Hx. pose proof flags_are_bits as Hf. pose proof flag_bits_range as Hr. pose proof flag_bits_once as Hd.
  unfold FS_RIGHTS. do 12 (destruct flag_bits as [|? flag_bits]; [done|]). destruct flag_bits; [|done].
  injection Hf as -> -> -> _ _ Ht _ -> -> _ Hp _. rewrite !Forall_cons in Hr. rewrite !NoDup_cons in Hd.
  destruct_and!. apply list_elem_of_In in Hx. cbn in Hx. destruct Hx as [<-|[<-|[]]].
  - eexists. split_and!; [|exact Ht|]; [lia|]. rewrite !Z.lor_spec, !Z.pow2_bits_eqb by lia.
    rewrite !elem_of_cons in *. rewrite !orb_false_iff, !Z.eqb_neq. naive_solver.
  - eexists. split_and!; [|exact Hp|]; [lia|]. rewrite !Z.lor_spec, !Z.pow2_bits_eqb by lia.
    rewrite !elem_of_cons in *. rewrite !orb_false_iff, !Z.eqb_neq. naive_solver.
Qed.
Lemma inherit_total p f :
  (∃ f', inherit_rights_for_clone p f = Ok f' ∧ rights_within f' p ∧
     (has_flag f OPEN_RIGHT_WRITABLE = true → has_flag f' OPEN_RIGHT_WRITABLE = true) ∧
     ∀ x, x ∈ [OPEN_FLAG_TRUNCATE; OPEN_FLAG_POSIX] → has_flag f' x = true → has_flag f x = true) ∨
  (∃ s, inherit_rights_for_clone p f = Err s ∧ s ≠ OK).
Proof.
  unfold inherit_rights_for_clone. cbv zeta. destruct (_ && _); [by right; eauto|].
  match goal with |- context [stricter_or_same_rights p ?x] => set (f' := x) end.
  destruct (stricter_or_same_rights p f') eqn:E; [left|by right; eauto]. apply stricter_spec in E. exists f'. split_and!; [done..| |].
  { intros Hf. subst f'. assert (∀ x, has_flag (Z.lor f x) OPEN_RIGHT_WRITABLE = true) as Hor.
    { intros x. eapply has_flag_mono; [|exact Hf]. apply within_bits. intros i Hi Ht. by rewrite Z.lor_spec, Ht. }
    destruct (has_flag _ CLONE_FLAG_SAME_RIGHTS); [|apply Hor]. eapply has_flag_mono; [|apply writable_ldiff, Hor; by right; left].
    apply within_bits. intros i Hi Ht. by rewrite Z.lor_spec, Ht. }
  intros x (b&Hb&->&Hnot)%not_inherited. rewrite !has_flag_bit by done. rewrite !Z.lor_spec, !orb_false_iff in Hnot.
  destruct Hnot as [[H1 H2] H3]. subst f'.
  destruct (has_flag _ CLONE_FLAG_SAME_RIGHTS); rewrite ?Z.lor_spec, ?Z.ldiff_spec, ?Z.land_spec, ?Z.lor_spec, ?Z.land_spec, ?Z.lor_spec, ?H1, ?H2, ?H3;
    destruct (Z.testbit f b), (Z.testbit p b); cbn; done.
Qed.
End flags.

(** * Events to watchers *)
Section watch.
Context `{IO : !IoConstants, IS : !IoSpec}.
Definition encode_event (e : Z * list Z) : list Z := [e.1; to_unsigned 8 (zlen e.2)] ++ e.2.
Definition encode_events (l : list (Z * list Z)) : list Z := concat (encode_event <$> l).
Definition short_name (name : list Z) : Prop := zlen name < MAX_FILENAME.
(** The messages [ms] to the watcher [h]. *)
Definition told (h : Z) (ms : list (list Z)) (x : Wire) : Wire :=
  {| closed := closed x; unattached := unattached x; readable := readable x; takes := takes x;
     sent := sent x ++ ((λ m, (h, WatchMessage m)) <$> ms) |}.
Lemma told_nil h x : told h [] x = x.
Proof. destruct x. unfold told. cbn. by rewrite app_nil_r. Qed.
Lemma told_told h ms ms' x : told h ms' (told h ms x) = told h (ms ++ ms') x.
Proof. unfold told. cbn. by rewrite fmap_app, app_assoc. Qed.
Definition able (h : Z) (x : Wire) : Prop := (h ∉ closed x) ∧ takes_short x.
(** An error only when the watcher does not take a message that is short. *)
Definition tells {A : Type} (h : Z) (p : M SendError Wire A) (Q : A → list Z → Prop) : Prop :=
  ∀ x, ∃ ms r, p x = (r, told h ms x) ∧ Forall (λ m, zlen m ≤ MAX_BUF) ms ∧
    match r with
    | Ok a => Q a (concat ms)
    | Err e => e = FIDL FidlWrite ∧ ¬ able h x
    | _ => False
    end.
Lemma tells_ret {A} h (a : A) (Q : A → list Z → Prop) : Q a [] → tells h (ret a) Q.
Proof. intros HQ x. exists [], (Ok a). by rewrite told_nil. Qed.
Lemma tells_mono {A} h (p : M SendError Wire A) (Q Q' : A → list Z → Prop) : tells h p Q → (∀ a b, Q a b → Q' a b) → tells h p Q'.
Proof. intros Hp HQ x. destruct (Hp x) as (ms&r&E&Hms&Hr). exists ms, r. split_and!; [done..|]. destruct r; auto. Qed.
Lemma tells_bind {A B} h (p : M SendError Wire A) (k : A → M SendError Wire B) Q (Q' : B → list Z → Prop) :
  tells h p Q → (∀ a b, Q a b → tells h (k a) (λ a' b', Q' a' (b ++ b'))) → tells h (y <- p ;; k y) Q'.
Proof.
  intros Hp Hk x. destruct (Hp x) as (ms&r&E&Hms&Hr). unfold bind. rewrite E. destruct r as [a|e| |]; [|by exists ms, (Err e)|done..].
  destruct (Hk a _ Hr (told h ms x)) as (ms'&r'&E'&Hms'&Hr'). exists (ms ++ ms'), r'. rewrite E', told_told, concat_app.
  split_and!; [done|by apply Forall_app|]. by destruct r'.
Qed.
Lemma tells_write self buf : zlen buf ≤ MAX_BUF → tells (channel self) (watch_write self buf) (λ _ b, b = buf).
Proof.
  intros Hl x. unfold watch_write. rewrite write_spec. case_decide as Hr.
  - exists [], (Err (FIDL FidlWrite)). rewrite told_nil. split_and!; [done..|]. intros [Hcl Ht]. destruct Hr as [?|Hf]; [done|].
    by rewrite Ht in Hf.
  - exists [buf], (Ok tt). split_and!; [done|by constructor|]. cbn. apply app_nil_r.
Qed.
Lemma send_loop_tells self events buf :
  Forall (λ e, short_name e.2) events → zlen buf ≤ MAX_BUF →
  tells (channel self) (send_loop self events buf None) (λ _ b, b = buf ++ encode_events events).
Proof.
  pose proof max_filename as Hf. pose proof max_buf as Hb. intros Hev. revert buf.
  induction Hev as [|[event name] events Hn Hev IH]; intros buf Hl; cbn [send_loop].
  - unfold encode_events. cbn. rewrite app_nil_r. eapply (tells_bind _ _ _ (λ _ b, b = buf)).
    + destruct (Z.ltb_spec 0 (zlen buf)); [by apply tells_write|]. apply tells_ret.
      destruct buf; [done|]. unfold zlen in *. cbn [length] in *. lia.
    + intros [] b ->. apply tells_ret. apply app_nil_r.
  - unfold short_name in Hn. cbn [snd] in Hn. rewrite (proj2 (Z.leb_gt _ _)) by lia. pose proof (zlen_nonneg name).
    eapply (tells_bind _ _ _ (λ buf' b, b ++ buf' = buf ∧ zlen buf' + (2 + zlen name) ≤ MAX_BUF)).
    + destruct (Z.ltb_spec MAX_BUF (zlen buf + (2 + zlen name))).
      * eapply tells_bind; [by apply tells_write|]. intros [] b ->. apply tells_ret. rewrite !app_nil_r.
        split; [done|]. change (zlen (@nil Z)) with 0. lia.
      * apply tells_ret. done.
    + intros buf' b [<- Hl']. unfold lift. rewrite (proj2 (Z.leb_le _ _)) by lia.
      eapply (tells_bind _ _ _ (λ _ b0, b0 = [])); [by apply tells_ret|]. intros [] ? ->. cbn [app].
      eapply tells_mono; [apply IH|].
      * rewrite zlen_app. unfold zlen in *. cbn [length]. lia.
      * intros _ b0 ->. unfold encode_events. cbn. rewrite <- !app_assoc. by cbn.
Qed.
Lemma events_tells self events :
  Forall (λ e, short_name e.2) events → tells (channel self) (send_event_structs self events) (λ _ b, b = encode_events events).
Proof. pose proof max_filename. pose proof max_buf. intros H1. apply send_loop_tells; [done|]. change (zlen (@nil Z)) with 0. lia. Qed.
Definition when (b : bool) (l : list (Z * list Z)) : list (Z * list Z) := if b then l else [].
(** What a new watcher is told. *)
Definition first_events (mask_ : Z) (names : list (list Z)) : list (Z * list Z) :=
  when (has_flag mask_ WATCH_MASK_EXISTING) ((WATCH_EVENT_EXISTING,.) <$> names) ++
  when (has_flag mask_ WATCH_MASK_IDLE) [(WATCH_EVENT_IDLE, [])].
Lemma encode_events_app a b : encode_events (a ++ b) = encode_events a ++ encode_events b.
Proof. unfold encode_events. by rewrite fmap_app, concat_app. Qed.
Lemma add_tells l names mask_ h :
  Forall short_name names →
  tells h (watchers_add l names mask_ h) (λ l' b, l' = l ++ [{| mask := mask_; channel := h |}] ∧ b = encode_events (first_events mask_ names)).
Proof.
  intros Hn. unfold watchers_add. cbv zeta.
  eapply (tells_bind _ _ _ (λ _ b, b = encode_events (when (has_flag mask_ WATCH_MASK_EXISTING) ((WATCH_EVENT_EXISTING,.) <$> names)))).
  { unfold send_events_existing, has_flag. cbn [mask]. destruct (_ =? 0); [by apply tells_ret|].
    apply (events_tells {| mask := mask_; channel := h |}). by apply Forall_fmap. }
  intros [] b ->. eapply (tells_bind _ _ _ (λ _ b, b = encode_events (when (has_flag mask_ WATCH_MASK_IDLE) [(WATCH_EVENT_IDLE, [])]))).
  { unfold send_event_idle, connection_send_event, has_flag. cbn [mask]. destruct (_ =? 0); [by apply tells_ret|].
    apply (events_tells {| mask := mask_; channel := h |}). constructor; [|done]. unfold short_name. pose proof max_filename. change (0 < MAX_FILENAME). lia. }
  intros [] b ->. apply tells_ret. split; [done|]. unfold first_events. by rewrite encode_events_app, app_nil_r.
Qed.
Lemma check_tells self mask_ event name :
  short_name name →
  tells (channel self) (send_event_check_mask self mask_ event name)
    (λ _ b, b = encode_events (when (has_flag (mask self) mask_) [(event, name)])).
Proof.
  intros Hn. unfold send_event_check_mask, has_flag. destruct (_ =? 0); [by apply tells_ret|]. apply events_tells. by constructor.
Qed.

(** The bytes a watcher was sent. *)
Definition watched (h : Z) (x : Wire) : list Z :=
  concat (omap (λ hm, if decide (hm.1 = h) then match hm.2 with WatchMessage b => Some b | _ => None end else None) (sent x)).
Definition same_ends (x x' : Wire) : Prop :=
  closed x' = closed x ∧ unattached x' = unattached x ∧ readable x' = readable x ∧ takes x' = takes x.
Lemma watched_told h ms x : watched h (told h ms x) = watched h x ++ concat ms.
Proof.
  unfold watched, told. cbn [sent]. rewrite omap_app, concat_app. f_equal.
  induction ms as [|m ms IH]; [done|]. cbn. rewrite decide_True by done. cbn. by rewrite IH.
Qed.
Lemma watched_other h h' ms x : h' ≠ h → watched h (told h' ms x) = watched h x.
Proof.
  intros Hn. unfold watched, told. cbn [sent]. rewrite omap_app, concat_app.
  assert (∀ l : list (list Z), omap (λ hm : Z * Message, if decide (hm.1 = h) then match hm.2 with WatchMessage b => Some b | _ => None end
    else None) ((λ m, (h', WatchMessage m)) <$> l) = []) as ->.
  { intros l. induction l as [|m l IH]; [done|]. cbn. by rewrite decide_False by done. }
  apply app_nil_r.
Qed.
Lemma able_same h x x' : same_ends x x' → able h x → able h x'.
Proof. unfold able, takes_short. by intros (->&_&_&->). Qed.
(** The watchers of a channel. *)
Definition mine (h : Z) (l : list Watcher) : list Watcher := List.filter (λ v, bool_decide (channel v = h)) l.
Definition event_to (mask_ event : Z) (name : list Z) (v : Watcher) : list Z :=
  encode_events (when (has_flag (mask v) mask_) [(event, name)]).
Lemma retain_spec l mask_ event name x :
  short_name name →
  ∃ l' x', retain_sent l mask_ event name x = (Ok l', x') ∧ same_ends x x' ∧
    ∀ h, able h x → mine h l' = mine h l ∧ watched h x' = watched h x ++ concat (event_to mask_ event name <$> mine h l).
Proof.
  intros Hn. revert x. induction l as [|v l IH]; intros x; cbn [retain_sent].
  { exists [], x. split_and!; [done..|]. intros h _. cbn. by rewrite app_nil_r. }
  destruct (check_tells v mask_ event name Hn x) as (ms&r&E&_&Hr). rewrite E.
  destruct (IH (told (channel v) ms x)) as (l'&x'&E'&Hs&Hl'). unfold bind, mine. cbn [List.filter].
  destruct r as [[]|e| |]; [| |done..].
  - rewrite E'. exists (v :: l'), x'. split_and!; [done|done|]. intros h Hh. destruct (Hl' h Hh) as [Em Ew].
    cbn [List.filter]. unfold mine in *. destruct (decide (channel v = h)) as [<-|Hne].
    + rewrite bool_decide_true, Em by done. rewrite Ew, watched_told, Hr, <- app_assoc. done.
    + rewrite bool_decide_false by done. by rewrite Ew, watched_other.
  - destruct Hr as [-> Hnot]. exists l', x'. split_and!; [done|done|]. intros h Hh. destruct (Hl' h Hh) as [Em Ew].
    unfold mine in *. assert (channel v ≠ h) by congruence. rewrite bool_decide_false by done. by rewrite Ew, watched_other.
Qed.
End watch.

(** * Listings *)
Section dirents.
Context `{IO : !IoConstants, IS : !IoSpec, BO : !ByteOrder, BS : !ByteOrderSpec} {O : Type}.
Definition dirent_type (n : Node O) : Z := match n with FileNode _ => DIRENT_TYPE_FILE | DirectoryNode _ => DIRENT_TYPE_DIRECTORY end.
Definition dirent (ty : Z) (name : list Z) : list Z := write_int 8 INO_UNKNOWN ++ [to_unsigned 8 (zlen name)] ++ [ty] ++ name.
Definition dirents (l : list (list Z * Node O)) : list Z := concat ((λ e, dirent (dirent_type e.2) e.1) <$> l).
Lemma dirent_length ty name : zlen (dirent ty name) = 10 + zlen name.
Proof. unfold dirent. rewrite !zlen_app, write_int_length by done. change (zlen [to_unsigned 8 (zlen name)]) with 1. change (zlen [ty]) with 1. lia. Qed.
Lemma dirents_app a b : dirents (a ++ b) = dirents a ++ dirents b.
Proof. unfold dirents. by rewrite fmap_app, concat_app. Qed.
Lemma encode_dirent_spec {E} buf max_bytes ty name :
  zlen buf ≤ max_bytes < 2 ^ 63 → short_name name →
  encode_dirent (E := E) buf max_bytes {| inode := INO_UNKNOWN; type_ := ty |} name
  = Ok (if max_bytes <? zlen buf + (10 + zlen name) then None else Some (buf ++ dirent ty name)).
Proof.
  unfold short_name. pose proof max_filename. pose proof (zlen_nonneg buf). pose proof (zlen_nonneg name). intros Hm Hn.
  unfold encode_dirent. rewrite uadd_ok by lia. cbn. rewrite uadd_ok by lia. cbn. rewrite Z.add_assoc.
  destruct (max_bytes <? _); [done|]. rewrite (proj2 (Z.ltb_lt _ _)), (proj2 (Z.leb_le _ _)) by lia. done.
Qed.
Lemma node_info_spec {E} (n : Node O) : node_info (E := E) n = Ok {| inode := INO_UNKNOWN; type_ := dirent_type n |}.
Proof.
  destruct n; cbn [node_info dirent_type]; unfold entry_info_new; (rewrite bool_decide_true; [done|]); rewrite !elem_of_cons; auto.
Qed.
(** The entries that fit, and why it stopped. *)
Lemma dirents_loop_spec {E} l max_bytes buf fit last_ :
  Forall (λ e, short_name e.1) l → zlen buf ≤ max_bytes < 2 ^ 63 →
  ∃ taken rest, l = taken ++ rest ∧ zlen (buf ++ dirents taken) ≤ max_bytes ∧
    match rest with
    | [] => dirents_loop (E := E) l max_bytes buf fit last_ = Ok (TEnd, OK, buf ++ dirents taken)
    | e :: _ =>
        dirents_loop (E := E) l max_bytes buf fit last_ =
        Ok (match last taken with Some t => TName t.1 | None => last_ end,
            if fit || bool_decide (taken ≠ []) then OK else BUFFER_TOO_SMALL, buf ++ dirents taken) ∧
        max_bytes < zlen (buf ++ dirents taken) + (10 + zlen e.1)
    end.
Proof.
  intros Hl. revert buf fit last_. induction Hl as [|[name n] l Hn Hl IH]; intros buf fit last_ Hm; cbn [dirents_loop].
  { exists [], []. unfold dirents. cbn. rewrite app_nil_r. split_and!; [done|apply Hm|done]. }
  rewrite node_info_spec. cbn. rewrite encode_dirent_spec by done. cbn. destruct (Z.ltb_spec max_bytes (zlen buf + (10 + zlen name))).
  - exists [], ((name, n) :: l). unfold dirents. cbn. rewrite app_nil_r, orb_false_r. split_and!; [done|lia|done|done].
  - destruct (IH (buf ++ dirent (dirent_type n) name) true (TName name)) as (taken&rest&->&Hz&Hrest).
    { rewrite zlen_app, dirent_length. lia. }
    exists ((name, n) :: taken), rest. change (dirents ((name, n) :: taken)) with (dirent (dirent_type n) name ++ dirents taken).
    rewrite app_assoc. split_and!; [done|done|]. destruct rest as [|e rest]; [done|]. destruct Hrest as [-> Hlt]. split; [|done].
    cbn [orb]. rewrite (bool_decide_true ((name, n) :: taken ≠ [])) by done. rewrite orb_true_r. destruct taken as [|e1 taken]; [done|].
    do 3 f_equal. rewrite last_cons_cons, last_cons. by destruct (last taken).
Qed.
(** Some entries of a map. *)
Lemma filter_forall {A} (Q : A → Prop) f l : Forall Q l → Forall Q (List.filter f l).
Proof. rewrite !Forall_forall. intros H e He. apply H, list_elem_of_In. apply list_elem_of_In, filter_In in He. apply He. Qed.
Lemma bt_filter_sorted {V} f (m : BTreeMap V) : bt_sorted m → bt_sorted (List.filter f m).
Proof.
  unfold bt_sorted. induction m as [|[k' v'] m IH]; cbn [List.filter bt_keys map fst]; [done|].
  intros [Hm Hf]%StronglySorted_inv. destruct (f _); [|by apply IH]. cbn [bt_keys map fst]. constructor; [by apply IH|].
  apply bt_keys_forall, filter_forall. by apply bt_keys_forall.
Qed.
(** The entries that are still to come, and what comes before them. *)
Definition remaining (pos : AlphabeticalTraversal) (l : list (list Z * Node O)) : list (list Z * Node O) :=
  match pos with TStart | TDot => l | TName k => bt_after k l | TEnd => [] end.
Definition self_entry (pos : AlphabeticalTraversal) : list Z :=
  match pos with TStart => dirent DIRENT_TYPE_DIRECTORY dot | _ => [] end.
Definition position_after (pos : AlphabeticalTraversal) (taken rest : list (list Z * Node O)) : AlphabeticalTraversal :=
  match rest with
  | [] => TEnd
  | _ => match last taken with Some t => TName t.1 | None => match pos with TStart => TDot | _ => pos end end
  end.
(** What a call returns: the entries that fit, and at least one unless the status says so. *)
Definition reads (d : Simple (Node O)) (pos : AlphabeticalTraversal) (max_bytes : Z)
    (r : AlphabeticalTraversal * Status * list Z) : Prop :=
  r = (pos, BUFFER_TOO_SMALL, []) ∧ max_bytes < 10 + MAX_FILENAME ∨
  ∃ taken rest, remaining pos (entries d) = taken ++ rest ∧ r = (position_after pos taken rest, OK, self_entry pos ++ dirents taken) ∧
    zlen (self_entry pos ++ dirents taken) ≤ max_bytes ∧ (pos = TStart ∨ taken ≠ [] ∨ rest = []).
Lemma read_dirents_spec {E} d pos max_bytes :
  Forall (λ e, short_name e.1) (entries d) → 0 ≤ max_bytes < 2 ^ 63 →
  ∃ r, read_dirents (E := E) d pos max_bytes = Ok r ∧ reads d pos max_bytes r.
Proof.
  intros Hl Hm. pose proof max_filename as Hmax.
  assert (∀ l buf fit, Forall (λ e, short_name e.1) l → zlen buf ≤ max_bytes → buf = self_entry pos → remaining pos (entries d) = l →
    (fit = true ↔ pos = TStart) → pos ≠ TEnd →
    ∃ r, dirents_loop (E := E) l max_bytes buf fit (match pos with TStart => TDot | _ => pos end) = Ok r ∧ reads d pos max_bytes r) as Hloop.
  { intros l buf fit Hsl Hz Hbuf Hrem Hfit Hne.
    destruct (dirents_loop_spec (E := E) l max_bytes buf fit (match pos with TStart => TDot | _ => pos end) Hsl) as (taken&rest&Happ&Hlen&Hrest); [lia|].
    destruct rest as [|e rest]; [|destruct Hrest as [Hrest Hlt]]; rewrite Hrest; eexists; (split; [done|]); subst buf.
    - right. exists taken, []. split_and!; [congruence|done|done|auto].
    - destruct (fit || bool_decide (taken ≠ [])) eqn:Ef.
      + right. exists taken, (e :: rest). split_and!; [congruence|done|done|].
        apply orb_true_iff in Ef as [Ef|Ef]; [left; by apply Hfit|right; left; by apply bool_decide_eq_true in Ef].
      + apply orb_false_iff in Ef as [-> Et]. apply bool_decide_eq_false in Et. left.
        assert (taken = []) as -> by (by destruct taken; [|destruct Et]). rewrite Happ in Hsl. apply Forall_cons in Hsl as [He _].
        unfold short_name in He. destruct pos; [discriminate (proj2 Hfit eq_refl)|..|done]; (split; [done|]);
          cbn [self_entry app] in Hlt; change (zlen (dirents [])) with 0 in Hlt; lia. }
  destruct pos as [| |k|]; cbn [read_dirents].
  - unfold entry_info_new. rewrite bool_decide_true by (rewrite !elem_of_cons; auto). cbn.
    rewrite encode_dirent_spec; [|change (zlen (@nil Z)) with 0; lia|unfold short_name; change (zlen dot) with 1; lia]. cbn.
    change (zlen (@nil Z) + (10 + zlen dot)) with 11. destruct (Z.ltb_spec max_bytes 11).
    2: { apply Hloop; try done. rewrite dirent_length. change (zlen dot) with 1. lia. }
    eexists. split; [done|]. left. split; [done|]. lia.
  - apply Hloop; try done. change (zlen (@nil Z)) with 0. lia.
  - apply Hloop; try done; [by apply filter_forall|]. change (zlen (@nil Z)) with 0. lia.
  - eexists. split; [done|]. right. exists [], []. split_and!; [done..| |auto]. change (0 ≤ max_bytes). lia.
Qed.
End dirents.

(** * What the steps keep

    [R] bounds the rights of all connections, [P] is what the handlers of the owner keep, and
    [X] holds when a step panics. *)
Section tree.
Context `{IO : !IoConstants, IS : !IoSpec, VM : !VmoSystem, BO : !ByteOrder, BS : !ByteOrderSpec} {O : Type} (R : Z) (P : O → Prop) (X : Prop).

Definition may_all_write : Prop := has_flag R OPEN_RIGHT_WRITABLE = true.
(** Flags with which [x] is only asked for by those who may write, or ask to. *)
Definition asks (x fl : Z) : Prop := has_flag fl x = true → may_all_write ∨ has_flag fl OPEN_RIGHT_WRITABLE = true.
Record conn_good (c : FileConnection) : Prop := {
  good_conn_ok : conn_ok c;
  good_rights : rights_within (flags c) R;
  good_written : was_written c = true → may_all_write }.
Record file_good (f : PseudoFile O) : Prop := {
  good_handlers : handlers_ok f;
  good_on_read r : on_read f = Some r → ∀ o, P o → P (snd (r o));
  good_on_write r : may_all_write → on_write f = Some r → ∀ b o, P o → P (snd (r b o));
  good_conns : Forall conn_good (connections f) }.
Definition dir_conn_good (c : DirectoryConnection) : Prop := rights_within (dir_flags c) R.
Inductive node_good : Node O → Prop :=
| file_node_good f : file_good f → node_good (FileNode f)
| dir_node_good d :
    Forall dir_conn_good (dir_connections d) → bt_sorted (entries d) →
    Forall (λ e, short_name e.1) (entries d) → Forall (λ e, node_good e.2) (entries d) → node_good (DirectoryNode d).
Definition dir_good (d : Simple (Node O)) : Prop := node_good (DirectoryNode d).

Definition keeps {E A : Type} (m : M E (World O) A) (Q : A → Prop) : Prop :=
  ∀ w, P (owner w) →
    match m w with
    | (Ok a, w') => Q a ∧ P (owner w')
    | (Err _, w') => P (owner w')
    | (Panic, _) => X
    | (OutOfFuel, _) => False
    end.
Lemma keeps_ret {E A} (a : A) (Q : A → Prop) : Q a → keeps (E := E) (ret a) Q.
Proof. by intros HQ w. Qed.
Lemma keeps_bind {E A B} (m : M E (World O) A) (k : A → M E (World O) B) Q Q' :
  keeps m Q → (∀ a, Q a → keeps (k a) Q') → keeps (x <- m ;; k x) Q'.
Proof.
  intros Hm Hk w Hw. specialize (Hm w Hw). unfold bind. destruct (m w) as [[a|e| |] w']; try done.
  destruct Hm as [HQ Hw']. by apply Hk.
Qed.
Lemma keeps_wire {E A} (m : M E Wire A) (Q : A → Prop) :
  (∀ x, match fst (m x) with Ok a => Q a | Err _ => True | Panic => X | OutOfFuel => False end) → keeps (on_wire m) Q.
Proof. intros H w Hw. unfold on_wire. specialize (H (wire w)). destruct (m (wire w)) as [[]]; done. Qed.
Lemma keeps_lift {E A} (r : result E A) (Q : A → Prop) :
  match r with Ok a => Q a | Err _ => True | Panic => X | OutOfFuel => False end → keeps (lift r) Q.
Proof. intros H w Hw. by destruct r. Qed.
Lemma keeps_attempt {E E' A} (m : M E (World O) A) (Q : A → Prop) :
  keeps m Q → keeps (E := E') (attempt m) (λ r, match r with inl a => Q a | inr _ => True end).
Proof. intros H w Hw. specialize (H w Hw). unfold attempt. by destruct (m w) as [[]]. Qed.
Lemma keeps_weaken {E A} (m : M Empty_set (World O) A) (Q : A → Prop) : keeps m Q → keeps (E := E) (weaken m) Q.
Proof. intros H w Hw. specialize (H w Hw). unfold weaken. by destruct (m w) as [[|[]| |]]. Qed.
Lemma keeps_mono {E A} (m : M E (World O) A) (Q Q' : A → Prop) : keeps m Q → (∀ a, Q a → Q' a) → keeps m Q'.
Proof. intros H HQ w Hw. specialize (H w Hw). destruct (m w) as [[]]; naive_solver. Qed.

Lemma keeps_write h m : keeps (on_wire (write h m)) (λ _, True).
Proof. apply keeps_wire. intros x. rewrite write_spec. by case_decide. Qed.
Lemma keeps_error {E} fl h s : s ≠ OK → keeps (E := E) (on_wire (send_on_open_with_error fl h s)) (λ _, True).
Proof. intros Hs. apply keeps_wire. intros x. by destruct (@send_error_spec IO E fl h s x Hs) as (x'&->&_). Qed.
Lemma rights_trans a b c : rights_within a b → rights_within b c → rights_within a c.
Proof. apply flags_within_trans. Qed.
Lemma writable_rights fl : rights_within fl R → has_flag fl OPEN_RIGHT_WRITABLE = true → may_all_write.
Proof.
  intros Hr Em. unfold may_all_write. apply has_writable in Em. destruct writable_bit as (b&Hb&Eb).
  assert (within (Z.land fl FS_RIGHTS) R) as Hin by (eapply flags_within_trans; [exact Hr|apply within_land_l]).
  rewrite Eb in *. rewrite has_flag_bit by done. apply (proj1 (within_bits _ _) Hin b Hb). rewrite Z.land_spec.
  rewrite (proj1 (within_bits _ _) Em b Hb) by (by apply Z.pow2_bits_true). unfold FS_RIGHTS. rewrite !Z.lor_spec, Eb.
  rewrite Z.pow2_bits_true by done. by rewrite orb_true_r.
Qed.

(** ** Files *)
Lemma keeps_init f fl :
  file_good f → (has_flag fl OPEN_FLAG_TRUNCATE = true → may_all_write) →
  keeps (init_buffer f fl) (λ bw, zlen bw.1 < 2 ^ 63 ∧ (bw.2 = true → may_all_write)).
Proof.
  intros [Hh Hr _ _] Ht. unfold init_buffer. destruct (negb _); [by apply keeps_ret|].
  destruct (on_read f) as [r|] eqn:Er; [|by apply keeps_ret].
  destruct (has_flag fl OPEN_FLAG_TRUNCATE); [apply keeps_ret; split; [done|auto]|].
  eapply (keeps_bind _ _ (λ b, zlen b < 2 ^ 63)); [|intros b Hb; by apply keeps_ret].
  intros w Hw. unfold on_owner. pose proof (ok_on_read f Hh r Er (owner w)) as Hb. specialize (Hr r eq_refl (owner w) Hw).
  destruct (r (owner w)) as [[b|s| |] o]; done.
Qed.
Lemma asks_granted x fl : asks x fl → rights_within fl R → has_flag fl x = true → may_all_write.
Proof. intros Ha Hr Hx. destruct (Ha Hx) as [?|Hw]; [done|]. by eapply writable_rights. Qed.
Lemma keeps_connect f fl mode h :
  file_good f → rights_within fl R → (has_flag fl OPEN_FLAG_TRUNCATE = true → may_all_write) →
  keeps (connect f fl mode h) (λ oc, ∀ c, oc = Some c → conn_good c).
Proof.
  intros Hf Hr Ht. unfold connect.
  set (rd := match on_read f with Some _ => true | None => false end). set (wr := match on_write f with Some _ => true | None => false end).
  destruct (file_flags_total fl mode rd wr) as [[fl' Hfl]|(s&->&Hs)].
  2: { eapply keeps_bind; [by apply keeps_error|]. intros _ _. by apply keeps_ret. }
  rewrite Hfl. pose proof (file_flags _ _ _ _ _ Hfl) as (Hw&_&_).
  assert (has_flag fl' OPEN_FLAG_TRUNCATE = true → may_all_write) as Ht' by (intros Hx; apply Ht; by eapply has_flag_mono).
  eapply (keeps_bind _ _ (λ r, match r with inl bw => zlen bw.1 < 2 ^ 63 ∧ (bw.2 = true → may_all_write) | inr s => s ≠ OK end)).
  - intros w HP. destruct (init_spec f fl' w (good_handlers f Hf)) as (r&w'&Er&_&Hm). pose proof (keeps_init f fl' Hf Ht' w HP) as Hk.
    unfold attempt. rewrite Er in *. by destruct r as [[b ww]|s| |].
  - intros [[b ww]|s] Hm; [|eapply keeps_bind; [by apply keeps_error|]; intros _ _; by apply keeps_ret].
    apply keeps_wire. intros x.
    destruct (@new_connection_spec IO Empty_set fl' (file_protection f) h (file_capacity f) b ww x) as (oc&x'&->&_&Hc).
    cbn. intros c Hoc. rewrite (Hc c Hoc). destruct Hm as [Hb Hww]. pose proof (ok_file_capacity f (good_handlers f Hf)). pose proof (zlen_nonneg b).
    constructor; [constructor; cbn; [done..|unfold limit; cbn; lia]| |done].
    cbn. eapply rights_trans; [by apply rights_within_of|done].
Qed.
Lemma file_good_with f l : file_good f → Forall conn_good l → file_good (with_connections l f).
Proof. intros [[? ? ?] ? ? ?] ?. by repeat (constructor; try done). Qed.
Lemma keeps_add f fl mode h :
  file_good f → rights_within fl R → (has_flag fl OPEN_FLAG_TRUNCATE = true → may_all_write) →
  keeps (add_connection f fl mode h) file_good.
Proof.
  intros Hf Hr Ht. eapply keeps_bind; [by apply keeps_connect|]. intros oc Hoc. apply keeps_ret. destruct oc as [c|]; [|done].
  apply file_good_with; [done|]. apply Forall_app. split; [apply Hf|]. apply Forall_singleton. by apply Hoc.
Qed.
Lemma keeps_clone f p fl h :
  file_good f → rights_within p R → asks OPEN_FLAG_TRUNCATE fl → keeps (handle_clone f p fl h) file_good.
Proof.
  intros Hf Hp Ha. unfold handle_clone. destruct (inherit_total p fl) as [(fl'&->&Hr&Hw&Hx)|(s&->&Hs)].
  - assert (rights_within fl' R) as Hr' by (by eapply rights_trans). apply keeps_add; [done..|].
    apply asks_granted; [|done]. intros Hy. destruct (Ha (Hx _ ltac:(by left) Hy)); auto.
  - eapply keeps_bind; [by apply keeps_error|]. intros _ _. by apply keeps_ret.
Qed.
Lemma keeps_close f c : file_good f → conn_good c → keeps (handle_close f c) (λ _, True).
Proof.
  intros Hf Hc w HP. rewrite (close_spec f c w (good_handlers f Hf)). cbv zeta.
  assert (P (closes f c (owner w)).2) as HP'.
  { unfold closes. destruct (on_write f) as [wr|] eqn:Ew; [|done]. destruct (was_written c) eqn:Eww; [|done].
    pose proof (good_on_write f Hf wr (good_written c Hc Eww) Ew (buffer c) (owner w) HP).
    by destruct (wr (buffer c) (owner w)). }
  by case_decide.
Qed.
Lemma keeps_request c req :
  conn_good c → request_ok req → (∀ fl o, req ≠ FClone fl o) → req ≠ FClose → (vmo_refused c req = true → X) →
  keeps (on_wire (connection_request c req)) conn_good.
Proof.
  intros [Hc Hr Hw] Hreq H1 H2 HX. apply keeps_wire. intros x. destruct (vmo_refused c req) eqn:Hv; [rewrite request_panics by done; by apply HX|].
  pose proof (request_replies c req Hc Hreq H1 H2 Hv x) as (c'&m&Hs&->).
  case_decide; [done|]. cbn.
  pose proof (served_same _ _ _ _ Hs) as [(_&Hfl&_) _]. constructor; [by eapply served_ok|by rewrite Hfl|].
  intros Hww. destruct (may_write c) eqn:Em.
  - by eapply writable_rights.
  - apply Hw. by rewrite <- (proj2 (served_read_only _ _ _ _ Hs Em)).
Qed.
Lemma take_forall (Q : FileConnection → Prop) h l c l' :
  take_connection h l = Some (c, l') → Forall Q l → Q c ∧ Forall Q l'.
Proof.
  revert c l'. induction l as [|c0 l IH]; intros c l'; cbn [take_connection]; [done|]. intros E [H0 Hl]%Forall_cons.
  destruct (requests c0 =? h); [by injection E as <- <-|]. destruct (take_connection h l) as [[x l1]|]; [|done].
  injection E as <- <-. destruct (IH x l1 eq_refl Hl). split; [done|by constructor].
Qed.
(** What is asked for of a file. *)
Definition file_arrival_ok (a : Arrival FileRequest) : Prop :=
  arrival_ok a ∧ ∀ fl h, a = Request (FClone fl h) → asks OPEN_FLAG_TRUNCATE fl.
Lemma take_requests h l c l' : take_connection h l = Some (c, l') → requests c = h.
Proof.
  revert c l'. induction l as [|c0 l IH]; intros c l'; cbn [take_connection]; [done|].
  destruct (Z.eqb_spec (requests c0) h); [by intros [= <- <-]|]. destruct (take_connection h l) as [[x l1]|]; [|done].
  intros [= <- <-]. by eapply IH.
Qed.
Lemma keeps_serve f h a : file_good f → file_arrival_ok a → (refused h a → X) → keeps (serve f h a) file_good.
Proof.
  intros Hf [Ha Hask] HX. unfold serve. destruct (take_connection h (connections f)) as [[c rest]|] eqn:Et; [|by apply keeps_ret].
  destruct (take_forall _ _ _ _ _ Et (good_conns f Hf)) as [Hc Hrest].
  assert (file_good (with_connections rest f)) as Hf1 by (by apply file_good_with).
  destruct a as [req|]; [|by apply keeps_ret].
  eapply (keeps_bind _ _ (λ r, match r with
    | inl a => file_good a.1 ∧ match a.2 with Some c' => conn_good c' | None => True end | inr _ => True end)).
  - apply (keeps_attempt (E' := Empty_set) _ (λ r, file_good r.1 ∧ match r.2 with Some c' => conn_good c' | None => True end)).
    destruct (decide (req = FClose)) as [->|Hncl].
    { eapply keeps_bind; [by apply keeps_close|]. intros _ _. by apply keeps_ret. }
    assert ((∃ fl o, req = FClone fl o) ∨ ∀ fl o, req ≠ FClone fl o) as [(fl&o&->)|Hnc] by (destruct req; eauto).
    + eapply keeps_bind; [apply keeps_weaken, keeps_clone; [done|apply Hc|by eapply Hask]|]. intros f' Hf'. by apply keeps_ret.
    + assert (handle_request (with_connections rest f) req c =
        (connection <- on_wire (connection_request c req) ;; ret (with_connections rest f, Some connection))) as ->
        by (destruct req; try done; by destruct (Hnc flags object)).
      eapply keeps_bind; [apply keeps_request; try done|intros c' Hc'; by apply keeps_ret].
      intros Hv. apply HX. destruct req; try done. exists c, flags. by rewrite (take_requests _ _ _ _ Et).
  - intros [[f' [c'|]]|e] Hr; apply keeps_ret; [|apply Hr|done]. destruct Hr as [Hf' Hc']. apply file_good_with; [done|].
    apply Forall_app. split; [apply Hf'|by apply Forall_singleton].
Qed.

(** ** Directories *)
Lemma keeps_dir_connect {E} fl mode h :
  rights_within fl R → (has_flag fl OPEN_FLAG_POSIX = true → may_all_write) →
  keeps (E := E) (on_wire (dir_connect fl mode h)) (λ oc, ∀ c, oc = Some c → dir_conn_good c).
Proof.
  intros Hr Hp. apply keeps_wire. intros x. unfold dir_connect.
  destruct (dir_flags_total fl mode) as [[fl' Hfl]|(s&->&Hs)].
  2: { unfold bind. by destruct (@send_error_spec IO E fl h s x Hs) as (x'&->&_). }
  rewrite Hfl. assert (dir_conn_good {| dir_requests := h; dir_flags := fl'; dir_seek := TStart |}) by (by eapply dir_flags_within).
  unfold ok_or_none, bind. rewrite attach_spec. case_decide; [done|].
  destruct (has_flag fl' OPEN_FLAG_DESCRIBE); [rewrite write_spec; case_decide; [done|]|]; by intros c [= <-].
Qed.
Lemma dir_good_parts d :
  dir_good d ↔ Forall dir_conn_good (dir_connections d) ∧ bt_sorted (entries d) ∧
    Forall (λ e, short_name e.1) (entries d) ∧ Forall (λ e, node_good e.2) (entries d).
Proof. split; [by inversion 1|]. intros (?&?&?&?). by constructor. Qed.
Lemma dir_good_connections d l : dir_good d → Forall dir_conn_good l → dir_good (with_dir_connections l d).
Proof. rewrite !dir_good_parts. naive_solver. Qed.
Lemma dir_good_watchers d l : dir_good d → dir_good (with_watchers l d).
Proof. rewrite !dir_good_parts. done. Qed.
Lemma dir_good_insert d name n :
  dir_good d → short_name name → node_good n → dir_good (with_entries (bt_insert name n (entries d)) d).
Proof.
  rewrite !dir_good_parts. intros (Hc&Hs&Hl&Hn) Hname Hnode. cbn.
  split_and!; [done|by apply bt_insert_sorted|by apply bt_insert_forall|by apply bt_insert_forall].
Qed.
Lemma dir_good_entry d name n : dir_good d → bt_get name (entries d) = Some n → short_name name ∧ node_good n.
Proof.
  rewrite dir_good_parts. intros (_&_&Hl&Hn) Hg%bt_get_elem. rewrite Forall_forall in Hl, Hn.
  split; [apply (Hl _ Hg)|apply (Hn _ Hg)].
Qed.
Lemma keeps_dir_add {E} d fl mode h :
  dir_good d → rights_within fl R → (has_flag fl OPEN_FLAG_POSIX = true → may_all_write) →
  keeps (E := E) (dir_add_connection d fl mode h) dir_good.
Proof.
  intros Hd Hr Hp. eapply keeps_bind; [by apply keeps_dir_connect|]. intros oc Hoc. apply keeps_ret. destruct oc as [c|]; [|done].
  apply dir_good_connections; [done|]. apply Forall_app. split; [by apply dir_good_parts|]. apply Forall_singleton. by apply Hoc.
Qed.
Lemma keeps_dir_clone {E} d p fl mode h :
  dir_good d → rights_within p R → asks OPEN_FLAG_POSIX fl → keeps (E := E) (dir_handle_clone d p fl mode h) dir_good.
Proof.
  intros Hd Hp Ha. unfold dir_handle_clone. destruct (inherit_total p fl) as [(fl'&->&Hr&Hw&Hx)|(s&->&Hs)].
  - assert (rights_within fl' R) as Hr' by (by eapply rights_trans). apply keeps_dir_add; [done..|].
    apply asks_granted; [|done]. intros Hy. destruct (Ha (Hx _ ltac:(by right; left) Hy)); auto.
  - eapply keeps_bind; [by apply keeps_error|]. intros _ _. by apply keeps_ret.
Qed.
Definition is_directory (n : Node O) : bool := match n with DirectoryNode _ => true | FileNode _ => false end.
Lemma keeps_open path n fl mode h :
  node_good n → rights_within fl R → (has_flag fl OPEN_FLAG_TRUNCATE = true → may_all_write) →
  (has_flag fl OPEN_FLAG_POSIX = true → may_all_write) →
  keeps (open path n fl mode h) (λ n', node_good n' ∧ is_directory n' = is_directory n).
Proof.
  intros Hn Hr Ht Hp. revert n Hn. induction path as [|name path IH]; intros [f|d] Hn; cbn [open].
  - inversion Hn. subst. eapply keeps_bind; [by apply keeps_add|]. intros f' Hf'. apply keeps_ret. split; [by constructor|done].
  - eapply keeps_bind; [by apply keeps_dir_add|]. intros d' Hd'. apply keeps_ret. split; done.
  - inversion Hn. subst. eapply (keeps_bind _ _ file_good).
    + eapply keeps_bind; [by apply keeps_error|]. intros _ _. by apply keeps_ret.
    + intros f' Hf'. apply keeps_ret. split; [by constructor|done].
  - destruct (bt_get name (entries d)) as [n|] eqn:Eg.
    + destruct (dir_good_entry d name n Hn Eg) as [Hl Hg]. eapply keeps_bind; [by apply IH|]. intros n' [Hn' _].
      apply keeps_ret. split; [by apply dir_good_insert|done].
    + eapply keeps_bind; [by apply keeps_error|]. intros _ _. apply keeps_ret. done.
Qed.
Lemma path_total path : (∃ r, validate_and_split_path path = Ok r) ∨ validate_and_split_path path = Err INVALID_ARGS.
Proof. unfold validate_and_split_path. cbv zeta. destruct (existsb _ _); [by right|left; eauto]. Qed.
Definition names_itself (path : list Z) : Prop := path = dot ∨ path = dot ++ [slash].
Lemma keeps_handle_open d p fl mode path h :
  dir_good d → rights_within p R → asks OPEN_FLAG_TRUNCATE fl → (names_itself path → asks OPEN_FLAG_POSIX fl) →
  keeps (handle_open d p fl mode path h) dir_good.
Proof.
  intros Hd Hp Ht Hself. unfold handle_open.
  assert (∀ s, s ≠ OK → keeps (E := Empty_set) (on_wire (send_on_open_with_error fl h s) ;;; ret d) dir_good) as Herr.
  { intros s Hs. eapply keeps_bind; [by apply keeps_error|]. intros _ _. by apply keeps_ret. }
  destruct (bool_decide _); [by apply Herr|]. destruct (bool_decide (path = dot ∨ _)) eqn:Ed.
  { apply bool_decide_eq_true in Ed. apply keeps_dir_clone; auto. }
  destruct (path_total path) as [[[names is_dir] ->]| ->]; [|by apply Herr].
  destruct (child_flags p fl) as [(fl'&->&Hr&Hw&Hwr&Hx)| ->]; [|by apply Herr].
  assert (rights_within fl' R) as Hr' by (by eapply rights_trans).
  unfold dir_open. eapply keeps_bind.
  - apply (keeps_open names (DirectoryNode d)); [done..| |].
    + intros Hy. destruct (Ht (has_flag_mono _ _ _ Hw Hy)) as [?|Hy']; [done|]. by eapply writable_rights; [exact Hr'|apply Hwr].
    + intros Hy. eapply writable_rights; [exact Hp|]. by apply Hx.
  - intros [f|d'] [Hn Hi]; [done|]. by apply keeps_ret.
Qed.
Lemma good_names d : dir_good d → Forall short_name (dot :: bt_keys (entries d)).
Proof.
  intros (_&_&Hl&_)%dir_good_parts. constructor; [|by apply bt_keys_forall]. pose proof max_filename. unfold short_name. change (zlen dot) with 1. lia.
Qed.
Definition dir_conn_kept (oc : option DirectoryConnection) : Prop := match oc with Some c => dir_conn_good c | None => True end.
Lemma keeps_watch d c mask_ options h :
  dir_good d → dir_conn_good c → keeps (handle_watch d c mask_ options h) (λ r, dir_good r.1 ∧ dir_conn_kept r.2).
Proof.
  intros Hd Hc. unfold handle_watch. destruct (negb _).
  { eapply keeps_bind; [apply keeps_write|]. intros _ _. by apply keeps_ret. }
  eapply (keeps_bind _ _ (λ _, True)); [apply keeps_wire; intros x; rewrite attach_spec; by case_decide|]. intros _ _.
  eapply (keeps_bind _ _ (λ r, r ≠ inr NameTooLong)).
  { intros w HP. unfold attempt, on_wire.
    destruct (add_tells (watchers d) _ mask_ h (good_names d Hd) (wire w)) as (ms&r&->&_&Hr).
    destruct r as [l|e| |]; cbn; [done| |done..]. by destruct Hr as [-> _]. }
  intros r Hr. eapply (keeps_bind _ _ (λ p, dir_good p.1)).
  { apply keeps_lift. destruct r as [l|[|e]]; [by apply dir_good_watchers|done|done]. }
  intros [d' st] Hd'. eapply keeps_bind; [apply (keeps_attempt _ (λ _, True)), keeps_write|].
  intros [|] _; apply keeps_ret; done.
Qed.
Definition dir_request_ok (req : DirectoryRequest) : Prop :=
  match req with
  | DReadDirents max_bytes => 0 ≤ max_bytes < 2 ^ 63
  | DClone fl _ => asks OPEN_FLAG_POSIX fl
  | DOpen fl _ path _ => asks OPEN_FLAG_TRUNCATE fl ∧ (names_itself path → asks OPEN_FLAG_POSIX fl)
  | _ => True
  end.
Lemma keeps_dir_request d req c :
  dir_good d → dir_conn_good c → dir_request_ok req →
  keeps (dir_handle_request d req c) (λ r, dir_good r.1.1 ∧ dir_conn_kept r.1.2).
Proof.
  intros Hd Hc Hreq.
  assert (∀ m oc (b : bool), dir_conn_kept oc →
    keeps (on_wire (write (dir_requests c) m) ;;; ret (d, oc, b)) (λ r, dir_good r.1.1 ∧ dir_conn_kept r.1.2)) as Hreply.
  { intros m oc b Hoc. eapply keeps_bind; [apply keeps_write|]. intros _ _. by apply keeps_ret. }
  destruct req; cbn [dir_handle_request dir_request_ok] in *; try (by apply Hreply).
  - eapply keeps_bind; [by apply keeps_dir_clone|]. intros d' Hd'. by apply keeps_ret.
  - destruct Hreq. eapply keeps_bind; [by apply keeps_weaken, keeps_handle_open|]. intros d' Hd'. by apply keeps_ret.
  - eapply (keeps_bind _ _ dir_conn_good).
    + unfold handle_read_dirents. eapply (keeps_bind _ _ (λ _, True)).
      { apply keeps_lift. assert (Forall (λ e, short_name e.1) (entries d)) as Hl by (by apply dir_good_parts).
        by destruct (read_dirents_spec (E := FidlError) d (dir_seek c) max_bytes Hl Hreq) as (r&->&_). }
      intros [[pos st] buf] _. eapply keeps_bind; [apply keeps_write|]. intros _ _. by apply keeps_ret.
    + intros c' Hc'. by apply keeps_ret.
  - eapply keeps_bind; [by apply keeps_watch|]. intros r Hr. by apply keeps_ret.
Qed.
Lemma take_dir_forall (Q : DirectoryConnection → Prop) h l c l' :
  take_dir_connection h l = Some (c, l') → Forall Q l → Q c ∧ Forall Q l'.
Proof.
  revert c l'. induction l as [|c0 l IH]; intros c l'; cbn [take_dir_connection]; [done|]. intros E [H0 Hl]%Forall_cons.
  destruct (dir_requests c0 =? h); [by injection E as <- <-|]. destruct (take_dir_connection h l) as [[x l1]|]; [|done].
  injection E as <- <-. destruct (IH x l1 eq_refl Hl). split; [done|by constructor].
Qed.
Definition dir_arrival_ok (a : Arrival DirectoryRequest) : Prop := match a with Request r => dir_request_ok r | Gone => True end.
Lemma keeps_dir_serve d h a : dir_good d → dir_arrival_ok a → keeps (dir_serve d h a) (λ r, dir_good r.1).
Proof.
  intros Hd Ha. unfold dir_serve. destruct (take_dir_connection h (dir_connections d)) as [[c rest]|] eqn:Et; [|by apply keeps_ret].
  assert (Forall dir_conn_good (dir_connections d)) as Hall by (by apply dir_good_parts).
  destruct (take_dir_forall _ _ _ _ _ Et Hall) as [Hc Hrest].
  assert (dir_good (with_dir_connections rest d)) as Hd1 by (by apply dir_good_connections).
  destruct a as [req|]; [|by apply keeps_ret].
  eapply keeps_bind; [apply keeps_attempt; by apply keeps_dir_request|].
  intros [[[d' [c'|]] b]|e] Hr; apply keeps_ret; [|apply Hr|done]. destruct Hr as [Hd' Hc']. apply dir_good_connections; [done|].
  apply Forall_app. split; [by apply dir_good_parts|by apply Forall_singleton].
Qed.

(** ** The tree *)
Lemma keeps_unwatched {E} l mask_ event name :
  short_name name → keeps (E := E) (unwatched (watchers_send_event l mask_ event name)) (λ _, True).
Proof.
  intros Hn w HP. unfold unwatched, watchers_send_event. rewrite (proj2 (Z.leb_gt _ _)) by done.
  by destruct (retain_spec l mask_ event name (wire w) Hn) as (l'&x'&->&_).
Qed.
Lemma keeps_add_entry d name n : dir_good d → node_good n → keeps (add_boxed_entry d name n) dir_good.
Proof.
  intros Hd Hn. unfold add_boxed_entry. destruct (Z.leb_spec MAX_FILENAME (zlen name)); [by intros w HP|].
  destruct (bool_decide _); [by intros w HP|]. eapply keeps_bind; [by apply keeps_unwatched|]. intros l _. apply keeps_ret.
  apply (dir_good_insert (with_watchers l d)); [by apply dir_good_watchers|done|done].
Qed.
Lemma keeps_remove_entry d name : dir_good d → keeps (remove_entry d name) (λ r, dir_good r.1).
Proof.
  intros Hd. unfold remove_entry. destruct (Z.leb_spec MAX_FILENAME (zlen name)); [by intros w HP|].
  eapply keeps_bind; [by apply keeps_unwatched|]. intros l _. apply keeps_ret. cbn [fst].
  apply dir_good_parts in Hd as (?&?&?&?). apply dir_good_parts. cbn.
  split_and!; [done|by apply bt_filter_sorted|by apply filter_forall|by apply filter_forall].
Qed.
(** What may happen to a tree. *)
Definition event_ok (ev : TreeEvent) : Prop :=
  match ev with
  | FileArrival _ a => file_arrival_ok a
  | DirectoryArrival _ a => dir_arrival_ok a
  | AddEntry _ entry => node_good entry
  | RemoveEntry _ | PollWatchers => True
  | OwnerOpen fl _ _ _ => rights_within fl R ∧ asks OPEN_FLAG_TRUNCATE fl ∧ asks OPEN_FLAG_POSIX fl
  end.
(** A file's connection asks for a buffer that the kernel does not provide. *)
Definition event_refused (ev : TreeEvent (O := O)) : Prop := match ev with FileArrival h a => refused h a | _ => False end.
Lemma keeps_step ev n :
  node_good n → event_ok ev → (is_directory n = false → event_refused ev → X) →
  keeps (node_step ev n) (λ n', node_good n' ∧ is_directory n' = is_directory n).
Proof.
  intros Hn Hev HX. destruct ev as [h a|h a|name entry|name| |fl mode path h], n as [f|d]; cbn [node_step event_ok] in *;
    try (by apply keeps_ret).
  - inversion Hn. eapply keeps_bind; [apply keeps_serve; auto|]. intros f' Hf'. apply keeps_ret. split; [by constructor|done].
  - eapply keeps_bind; [by apply keeps_dir_serve|]. intros r Hr. by apply keeps_ret.
  - eapply keeps_bind; [apply keeps_attempt; by apply keeps_add_entry|]. intros [d'|e] Hd'; by apply keeps_ret.
  - eapply keeps_bind; [apply keeps_attempt; by apply keeps_remove_entry|]. intros [[d' o]|e] Hd'; by apply keeps_ret.
  - eapply (keeps_bind _ _ dir_good); [|intros d' Hd'; by apply keeps_ret]. intros w HP. unfold poll_watchers, reading. cbn.
    split; [by apply dir_good_watchers|done].
  - destruct Hev as (Hr&Ht&Hp). apply keeps_open; [done|done|by apply asks_granted|by apply asks_granted].
  - destruct Hev as (Hr&Ht&Hp). apply keeps_open; [done|done|by apply asks_granted|by apply asks_granted].
Qed.
Lemma keeps_tree_step path ev n :
  node_good n → event_ok ev → (event_refused ev → X) →
  keeps (tree_step path ev n) (λ n', node_good n' ∧ is_directory n' = is_directory n).
Proof.
  intros Hn Hev HX. revert n Hn. induction path as [|name path IH]; intros n Hn; cbn [tree_step]; [by apply keeps_step|].
  destruct n as [f|d]; [by apply keeps_ret|]. destruct (bt_get name (entries d)) as [n|] eqn:Eg; [|by apply keeps_ret].
  destruct (dir_good_entry d name n Hn Eg). eapply keeps_bind; [by apply IH|]. intros n' [Hn' _]. apply keeps_ret.
  split; [by apply dir_good_insert|done].
Qed.
Lemma keeps_run events n :
  node_good n → Forall (λ e, event_ok e.2) events → (Exists (λ e, event_refused e.2) events → X) →
  keeps (tree_run events n) (λ n', node_good n' ∧ is_directory n' = is_directory n).
Proof.
  intros Hn Hev. revert n Hn. induction Hev as [|[path ev] events He Hev IH]; intros n Hn HX; cbn [tree_run]; [by apply keeps_ret|].
  rewrite Exists_cons in HX. eapply keeps_bind; [apply keeps_tree_step; auto|]. intros n' [Hn' Hi]. eapply keeps_mono; [apply IH; auto|].
  intros n'' [??]. split; [done|congruence].
Qed.
End tree.
