(* ===== verification/VfsClaims.v ===== *)
(** The theorems on pseudo file systems: sessions of files, rights, listings and watchers. *)

From Stdlib Require Import Sorted.
From S2P Require Import Prelude Std VfsFile VfsFileTheorems VfsDirectory VfsDirectoryTheorems.
Open Scope rust_scope.

(** * Listings *)
Section listing.
Context `{IO : !IoConstants, IS : !IoSpec, BO : !ByteOrder, BS : !ByteOrderSpec} {O : Type}.

(** Calls of [ReadDirents] on one connection, each with the directory at its time. *)
Fixpoint list_calls (pos : AlphabeticalTraversal) (calls : list (Simple (Node O) * Z))
    : result Status (AlphabeticalTraversal * list (list Z)) :=
  match calls with
  | [] => Ok (pos, [])
  | (d, max_bytes) :: calls =>
      r <-? read_dirents d pos max_bytes ;;
      r' <-? list_calls (fst (fst r)) calls ;;
      Ok (fst r', snd r :: snd r')
  end.
(** The types and names of entries, the reader's side. *)
Fixpoint decode_dirents (fuel : nat) (b : list Z) : option (list (Z * list Z)) :=
  match b, fuel with
  | [], _ => Some []
  | _, 0%nat => None
  | _, S fuel =>
      match drop 8 b with
      | n :: ty :: b => l ← decode_dirents fuel (drop (Z.to_nat n) b); Some ((ty, take (Z.to_nat n) b) :: l)
      | _ => None
      end
  end.
Definition listed (e : list Z * Node O) : Z * list Z := (dirent_type e.2, e.1).
Lemma decode_dirent fuel ty name b :
  short_name name → decode_dirents (S fuel) (dirent ty name ++ b) = l ← decode_dirents fuel b; Some ((ty, name) :: l).
Proof.
  intros Hn. unfold dirent. pose proof (write_int_length 8 INO_UNKNOWN ltac:(lia)) as Hw. set (i := write_int 8 INO_UNKNOWN) in *.
  assert (drop 8 ((i ++ [to_unsigned 8 (zlen name)] ++ [ty] ++ name) ++ b) = to_unsigned 8 (zlen name) :: ty :: name ++ b) as Hd.
  { rewrite <- !app_assoc. rewrite drop_app_length'; [done|]. unfold zlen in Hw. lia. }
  assert (to_unsigned 8 (zlen name) = zlen name) as Ez.
  { unfold to_unsigned, short_name in *. pose proof max_filename. pose proof (zlen_nonneg name). apply Z.mod_small. lia. }
  destruct ((i ++ _) ++ b) eqn:E; [done|]. cbn [decode_dirents]. rewrite Hd, Ez.
  assert (Z.to_nat (zlen name) = length name) as -> by (unfold zlen; lia). by rewrite drop_app_length, take_app_length.
Qed.
Lemma decode_fuel fuel fuel' b l : (fuel ≤ fuel')%nat → decode_dirents fuel b = Some l → decode_dirents fuel' b = Some l.
Proof.
  revert fuel' b l. induction fuel as [|fuel IH]; intros [|fuel'] [|x b] l Hle; cbn [decode_dirents]; try done; [lia|].
  destruct (drop 8 (x :: b)) as [|n [|ty b']]; try done. destruct (decode_dirents fuel _) eqn:E; [|done].
  apply (IH fuel') in E; [|lia]. by rewrite E.
Qed.
Definition raw (l : list (Z * list Z)) : list Z := concat ((λ e, dirent e.1 e.2) <$> l).
Lemma dirents_raw l : dirents l = raw (listed <$> l).
Proof. unfold dirents, raw. by rewrite <- list_fmap_compose. Qed.
Lemma decode_raw l : Forall (λ e, short_name e.2) l → decode_dirents (length (raw l)) (raw l) = Some l.
Proof.
  intros Hl. apply (decode_fuel (length l)).
  - clear Hl. induction l as [|[ty name] l IH]; [done|]. change (raw ((ty, name) :: l)) with (dirent ty name ++ raw l).
    rewrite length_app. pose proof (dirent_length ty name). unfold zlen in *. cbn [length]. lia.
  - induction Hl as [|[ty name] l Hn Hl IH]; [done|]. change (raw ((ty, name) :: l)) with (dirent ty name ++ raw l).
    cbn [length]. rewrite decode_dirent by done. by rewrite IH.
Qed.

(** Names that come after a position. *)
Definition above (pos : AlphabeticalTraversal) (name : list Z) : Prop :=
  match pos with TStart | TDot => True | TName k => bytes_lt k name | TEnd => False end.
Lemma elem_after {V} k (m : BTreeMap V) e : e ∈ bt_after k m ↔ e ∈ m ∧ bytes_lt k e.1.
Proof.
  unfold bt_after, bytes_lt. rewrite !list_elem_of_In, filter_In. destruct (bytes_compare k e.1); naive_solver.
Qed.
Lemma elem_remaining pos (l : list (list Z * Node O)) e : e ∈ remaining pos l ↔ e ∈ l ∧ above pos e.1.
Proof. destruct pos; cbn; [tauto|tauto|apply elem_after|]. rewrite elem_of_nil. tauto. Qed.
Lemma remaining_sorted pos (l : list (list Z * Node O)) : bt_sorted l → bt_sorted (remaining pos l).
Proof. intros Hl. destruct pos; [done|done|by apply bt_filter_sorted|constructor]. Qed.
Lemma sorted_app {V} (a b : BTreeMap V) :
  bt_sorted (a ++ b) ↔ bt_sorted a ∧ bt_sorted b ∧ ∀ x y, x ∈ a → y ∈ b → bytes_lt x.1 y.1.
Proof.
  unfold bt_sorted, bt_keys. induction a as [|[k v] a IH]; cbn [app map fst].
  { split; [|tauto]. intros ?. split_and!; [constructor|done|]. by intros ?? ?%not_elem_of_nil. }
  assert (∀ m : BTreeMap V, Forall (bytes_lt k) (map fst m) ↔ ∀ y, y ∈ m → bytes_lt k y.1) as Hm.
  { intros m. rewrite (bt_keys_forall (bytes_lt k) m), Forall_forall. done. }
  split.
  - intros [Hs Hf]%StronglySorted_inv. apply IH in Hs as (Ha&Hb&Hab). rewrite Hm in Hf. split_and!; [|done|].
    + constructor; [done|]. apply Hm. intros y Hy. apply Hf, elem_of_app. by left.
    + intros x y [->|Hx]%elem_of_cons Hy; [|by apply Hab]. apply Hf, elem_of_app. by right.
  - intros ([Ha Hf]%StronglySorted_inv&Hb&Hab). constructor.
    + apply IH. split_and!; [done|done|]. intros x y Hx Hy. apply Hab; [by right|done].
    + apply Hm. intros y [Hy|Hy]%elem_of_app; [by apply (proj1 (Hm a) Hf)|]. apply (Hab (k, v) y); [by left|done].
Qed.
(** A call lists what it takes from what remains, and what remains then is above. *)
Lemma position_above pos (taken rest : list (list Z * Node O)) name :
  (∀ x y, x ∈ taken → y ∈ rest → bytes_lt x.1 y.1) → bt_sorted taken → (∀ x, x ∈ taken → above pos x.1) →
  above (position_after pos taken rest) name → above pos name ∧ ∀ x, x ∈ taken → bytes_lt x.1 name.
Proof.
  intros Hlt Hs Hab. destruct rest as [|e rest]; [done|]. cbn [position_after].
  destruct (last taken) as [t|] eqn:El; cycle 1.
  { apply last_None in El as ->. intros Hn. split; [by destruct pos|]. by intros x ?%not_elem_of_nil. }
  apply last_Some in El as [init ->]. intros Hn. cbn in Hn. assert (t ∈ init ++ [t]) as Ht by (apply elem_of_app; right; by left).
  apply sorted_app in Hs as (_&_&Hs). split.
  - specialize (Hab t Ht). destruct pos; try done. cbn in *. by etrans.
  - intros x [Hx|Hx]%elem_of_app; [etrans; [apply (Hs x t); [done|by left]|done]|]. apply list_elem_of_singleton in Hx as ->. done.
Qed.
Lemma position_covers pos (taken rest : list (list Z * Node O)) y :
  (∀ x y, x ∈ taken → y ∈ rest → bytes_lt x.1 y.1) → y ∈ rest → above pos y.1 → above (position_after pos taken rest) y.1.
Proof.
  intros Hlt Hy Hab. destruct rest as [|e rest]; [by apply not_elem_of_nil in Hy|]. cbn [position_after].
  destruct (last taken) as [t|] eqn:El; [|by destruct pos]. apply Hlt; [|done]. apply last_Some in El as [init ->].
  apply elem_of_app. right. by left.
Qed.
Definition call_ok (c : Simple (Node O) * Z) : Prop :=
  bt_sorted (entries c.1) ∧ Forall (λ e, short_name e.1) (entries c.1) ∧ 0 ≤ c.2 < 2 ^ 63.
(** The entry of the directory itself, when the listing has begun. *)
Definition lead (pos pos' : AlphabeticalTraversal) : list Z :=
  match pos, pos' with TStart, TStart => [] | TStart, _ => dirent DIRENT_TYPE_DIRECTORY dot | _, _ => [] end.
(** [l] is what calls from [pos] on list. *)
Record lists (pos : AlphabeticalTraversal) (calls : list (Simple (Node O) * Z)) (pos' : AlphabeticalTraversal)
    (bufs : list (list Z)) (l : list (list Z * Node O)) : Prop := {
  ls_bound : Forall2 (λ c b, zlen b ≤ c.2) calls bufs;
  ls_bytes : concat bufs = lead pos pos' ++ dirents l;
  ls_sorted : bt_sorted l;
  ls_sound e : e ∈ l → above pos e.1 ∧ ∃ c, c ∈ calls ∧ e ∈ entries c.1;
  ls_complete name : pos' = TEnd → above pos name → (∀ c, c ∈ calls → name ∈ bt_keys (entries c.1)) → name ∈ bt_keys l;
  ls_start : pos' = TStart → pos = TStart ∧ l = [] }.
Lemma elem_keys {V} (m : BTreeMap V) k : k ∈ bt_keys m ↔ ∃ e, e ∈ m ∧ e.1 = k.
Proof. unfold bt_keys. rewrite list_elem_of_In, in_map_iff. setoid_rewrite list_elem_of_In. naive_solver. Qed.
Lemma position_not_start pos taken (rest : list (list Z * Node O)) : position_after pos taken rest ≠ TStart.
Proof. unfold position_after. by repeat case_match. Qed.
Lemma lists_taken pos d max_bytes calls taken rest pos' bufs l :
  call_ok (d, max_bytes) → remaining pos (entries d) = taken ++ rest → zlen (self_entry pos ++ dirents taken) ≤ max_bytes →
  lists (position_after pos taken rest) calls pos' bufs l →
  lists pos ((d, max_bytes) :: calls) pos' ((self_entry pos ++ dirents taken) :: bufs) (taken ++ l).
Proof.
  intros (Hs&_&_) Hrem Hz [Hb Hc Hl Hsound Hcomp Hst]. cbn [fst] in Hs. set (pos1 := position_after pos taken rest) in *.
  assert (pos1 ≠ TStart) as Hne by apply position_not_start.
  pose proof (remaining_sorted pos _ Hs) as Hsr. rewrite Hrem in Hsr. apply sorted_app in Hsr as (Hst'&_&Hlt).
  assert (∀ x, x ∈ taken ++ rest → x ∈ entries d ∧ above pos x.1) as Hin by (intros x; rewrite <- Hrem; apply elem_remaining).
  assert (∀ name, above pos1 name → above pos name ∧ ∀ x, x ∈ taken → bytes_lt x.1 name) as Habove.
  { intros name. apply position_above; [done|done|]. intros x Hx. apply Hin, elem_of_app. by left. }
  assert (pos' ≠ TStart) as Hne' by (intros ->; by destruct (Hst eq_refl)).
  constructor.
  - by constructor.
  - cbn [concat]. rewrite Hc, dirents_app. assert (lead pos1 pos' = []) as -> by (by destruct pos1).
    assert (lead pos pos' = self_entry pos) as -> by (by destruct pos, pos'). cbn [app]. by rewrite app_assoc.
  - apply sorted_app. split_and!; [done..|]. intros x y Hx Hy. apply Habove; [|done]. by apply Hsound.
  - intros e [He|He]%elem_of_app.
    + destruct (Hin e) as [Hed Hea]; [apply elem_of_app; by left|]. split; [done|]. exists (d, max_bytes). split; [by left|done].
    + destruct (Hsound e He) as (Hea&c&Hcin&Hce). split; [by apply Habove|]. exists c. split; [by right|done].
  - intros name Hend Hab Hall. destruct (proj1 (elem_keys _ _) (Hall (d, max_bytes) ltac:(by left))) as (e&He&<-).
    assert (e ∈ taken ++ rest) as Het by (rewrite <- Hrem; by apply elem_remaining). apply elem_keys.
    apply elem_of_app in Het as [Het|Het]; [exists e; split; [apply elem_of_app; by left|done]|].
    destruct (proj1 (elem_keys _ _) (Hcomp e.1 Hend (position_covers pos taken rest e Hlt Het Hab) ltac:(intros c Hcin; apply Hall; by right)))
      as (e'&He'&Ee'). exists e'. split; [apply elem_of_app; by right|done].
  - done.
Qed.
Lemma list_calls_spec calls pos :
  Forall call_ok calls → ∃ pos' bufs l, list_calls pos calls = Ok (pos', bufs) ∧ lists pos calls pos' bufs l.
Proof.
  intros Hok. revert pos. induction Hok as [|[d max_bytes] calls Hc Hok IH]; intros pos; cbn [list_calls].
  { exists pos, [], []. split; [done|]. constructor; [done| |constructor| | |done].
    - by destruct pos.
    - by intros e ?%not_elem_of_nil.
    - intros name -> []. }
  pose proof Hc as (Hs&Hn&Hm). destruct (read_dirents_spec (E := Status) d pos max_bytes Hn Hm) as (r&->&[[-> _]|(taken&rest&Hrem&->&Hz&_)]); cbn.
  - destruct (IH pos) as (pos'&bufs&l&->&[Hb Hcc Hl Hsound Hcomp Hst]). cbn. exists pos', ([] :: bufs), l. split; [done|].
    constructor; [constructor; [apply Hm|done]|done|done| | |done].
    + intros e He. destruct (Hsound e He) as (?&c&?&?). split; [done|]. exists c. split; [by right|done].
    + intros name Hend Hab Hall. apply Hcomp; [done|done|]. intros c Hcin. apply Hall. by right.
  - destruct (IH (position_after pos taken rest)) as (pos'&bufs&l&->&Hl). cbn. eexists _, _, _. split; [done|]. by apply (lists_taken _ _ _ _ _ rest).
Qed.
(** Each call with room for an entry lists one, so that calls come to the end. *)
Lemma rest_shorter pos taken rest (m : list (list Z * Node O)) :
  bt_sorted m → remaining pos m = taken ++ rest → taken ≠ [] → (length (remaining (position_after pos taken rest) m) ≤ length rest)%nat.
Proof.
  intros Hs Hrem Hne. destruct rest as [|e rest]; [cbn; lia|]. cbn [position_after].
  destruct (last taken) as [t|] eqn:El; [|by apply last_None in El]. cbn [remaining].
  pose proof (remaining_sorted pos _ Hs) as Hsr. rewrite Hrem in Hsr. apply sorted_app in Hsr as (Hst&_&_).
  apply last_Some in El as [init ->].
  assert (above pos t.1) as Ht. { apply (elem_remaining pos m t). rewrite Hrem. set_solver. }
  assert (bt_after t.1 m = bt_after t.1 (remaining pos m)) as ->.
  { destruct pos as [| |k|]; cbn [remaining]; [done..| |done]. cbn in Ht. clear -Ht. unfold bt_after. induction m as [|x m IH]; [done|].
    cbn [List.filter]. destruct (bytes_compare t.1 x.1) eqn:Ex; cbn [List.filter].
    - destruct (bytes_compare k x.1); cbn [List.filter]; by rewrite ?Ex.
    - assert (bytes_compare k x.1 = Lt) as -> by (by apply (bytes_lt_trans k t.1)). cbn [List.filter]. rewrite Ex. by f_equal.
    - destruct (bytes_compare k x.1); cbn [List.filter]; by rewrite ?Ex. }
  rewrite Hrem. unfold bt_after. rewrite List.filter_app.
  assert (List.filter (λ x, match bytes_compare t.1 x.1 with Lt => true | _ => false end) (init ++ [t]) = []) as ->.
  { apply sorted_app in Hst as (_&_&Hlt). apply elem_of_nil_inv. intros x. rewrite list_elem_of_In, filter_In, <- list_elem_of_In.
    intros [Hx Hc]. destruct (bytes_compare t.1 x.1) eqn:Ex; try done.
    apply elem_of_app in Hx as [Hx|Hx%list_elem_of_singleton]; [|by subst x; eapply bytes_lt_irrefl].
    apply (bytes_lt_irrefl t.1). etrans; [exact Ex|]. apply Hlt; [done|by left]. }
  cbn [app]. apply List.filter_length_le.
Qed.
Definition still_to_call (pos : AlphabeticalTraversal) (d : Simple (Node O)) : nat :=
  match pos with TStart => S (length (entries d)) | TEnd => 0 | _ => Nat.max 1 (length (remaining pos (entries d))) end.
Lemma list_calls_ends calls pos d pos' bufs :
  bt_sorted (entries d) → Forall (λ e, short_name e.1) (entries d) →
  Forall (λ c, c.1 = d ∧ 10 + MAX_FILENAME ≤ c.2 < 2 ^ 63) calls → (still_to_call pos d ≤ length calls)%nat →
  list_calls pos calls = Ok (pos', bufs) → pos' = TEnd.
Proof.
  intros Hs Hn Hok. pose proof max_filename. revert pos bufs. induction Hok as [|[d' max_bytes] calls [Hd Hm] Hok IH]; intros pos bufs Hle; cbn [list_calls].
  { destruct pos; cbn in Hle; try lia. by intros [= <- <-]. }
  cbn [fst snd] in *. subst d'.
  destruct (read_dirents_spec (E := Status) d pos max_bytes Hn) as (r&->&[[_ ?]|(taken&rest&Hrem&->&_&Hprog)]); [lia|lia|]. cbn.
  destruct (list_calls (position_after pos taken rest) calls) as [[p b]| | |] eqn:El; cbn; try done. intros [= <- <-].
  eapply IH; [|exact El]. clear IH El. cbn [length] in Hle.
  destruct rest as [|e rest]; [cbn; lia|]. assert (length (remaining pos (entries d)) = length taken + S (length rest))%nat as Hlen
    by (rewrite Hrem, length_app; done).
  destruct (decide (taken = [])) as [->|Ht].
  - destruct Hprog as [->|[?|?]]; [|done..]. cbn in *. lia.
  - pose proof (rest_shorter pos taken (e :: rest) _ Hs Hrem Ht) as Hsh. cbn [length] in Hsh.
    assert (1 ≤ length taken)%nat by (destruct taken; [done|cbn; lia]).
    assert (∃ t, position_after pos taken (e :: rest) = TName t) as [t Ep].
    { cbn. destruct (last taken) eqn:E1; [eauto|]. by apply last_None in E1. }
    rewrite Ep in *. destruct pos; cbn [still_to_call remaining length] in *; lia.
Qed.

(** C26: Calls of [ReadDirents] from the start, with any room and while entries come and go, never
    fail and never return more than there is room for.  Their replies decode to the directory
    itself and entries of it in the order of their names, each at most once; when they come to the end, to
    all entries that were there all the time.  With room for an entry in each call, a directory
    that does not change is listed in at most one call more than it has entries. *)
Theorem dirents_listing calls :
  Forall call_ok calls →
  ∃ pos bufs names, list_calls TStart calls = Ok (pos, bufs) ∧
    Forall2 (λ c b, zlen b ≤ c.2) calls bufs ∧
    decode_dirents (length (concat bufs)) (concat bufs) = Some names ∧
    (pos = TStart ∧ names = [] ∨
     ∃ l, names = (DIRENT_TYPE_DIRECTORY, dot) :: l ∧ StronglySorted bytes_lt (snd <$> l) ∧
       (∀ ty name, (ty, name) ∈ l → ∃ c n, c ∈ calls ∧ (name, n) ∈ entries c.1 ∧ ty = dirent_type n) ∧
       (pos = TEnd → ∀ name, (∀ c, c ∈ calls → name ∈ bt_keys (entries c.1)) → name ∈ snd <$> l)) ∧
    (∀ d, Forall (λ c, c.1 = d ∧ 10 + MAX_FILENAME ≤ c.2) calls → (length (entries d) < length calls)%nat → pos = TEnd).
Proof.
  intros Hok. destruct (list_calls_spec calls TStart Hok) as (pos&bufs&l&El&[Hb Hc Hs Hsound Hcomp Hst]).
  assert (Forall (λ e, short_name e.2) (listed <$> l)) as Hshort.
  { apply Forall_fmap, Forall_forall. intros e He. destruct (Hsound e He) as (_&c&Hcin&Hce).
    rewrite Forall_forall in Hok. destruct (Hok c Hcin) as (_&Hn&_). rewrite Forall_forall in Hn. by apply (Hn e). }
  set (names := match pos with TStart => [] | _ => (DIRENT_TYPE_DIRECTORY, dot) :: (listed <$> l) end).
  exists pos, bufs, names. split_and!; [done|done| | |].
  - assert (concat bufs = raw names) as ->.
    { rewrite Hc, dirents_raw. subst names. destruct pos; [|done..]. destruct (Hst eq_refl) as [_ ->]. done. }
    apply decode_raw. subst names. destruct pos; [constructor|..]; (constructor; [|done]); unfold short_name; pose proof max_filename; cbn [snd];
      change (zlen dot) with 1; lia.
  - assert (snd <$> (listed <$> l) = bt_keys l) as Ek by (by rewrite <- list_fmap_compose).
    assert (pos = TStart ∨ pos ≠ TStart) as [->|Hn] by (destruct pos; auto); [by left|right]. exists (listed <$> l). rewrite Ek. split_and!; [by destruct pos|done| |].
    + intros ty name ([k n]&[= -> ->]&He)%list_elem_of_fmap. destruct (Hsound _ He) as (_&c&?&?). by exists c, n.
    + intros Hend name Hall. by apply Hcomp.
  - intros d Hd Hlen. destruct calls as [|[d0 m] calls]; [cbn in Hlen; lia|]. pose proof Hd as [[E _] _]%Forall_cons. cbn in E. subst d0.
    pose proof Hok as [(Hsd&Hnd&_) _]%Forall_cons. eapply (list_calls_ends ((d, m) :: calls) TStart d); [done|done| |cbn in *; lia|exact El].
    rewrite Forall_forall in Hd, Hok |- *. intros c Hcin. destruct (Hd c Hcin), (Hok c Hcin) as (_&_&_&?). done.
Qed.
End listing.

(** * Watchers *)
Section silent.
Context `{IO : !IoConstants, IS : !IoSpec, VM : !VmoSystem, BO : !ByteOrder, BS : !ByteOrderSpec} {O : Type} (h : Z).
Abbreviation V E := (M E (World O)).
(** Nothing is told the watcher [h]. *)
Definition unheard (x x' : Wire) : Prop := same_ends x x' ∧ watched h x' = watched h x.
#[local] Instance unheard_preorder : PreOrder unheard.
Proof.
  split; [done|]. intros x y z [(?&?&?&?) ?] [(?&?&?&?) ?]. unfold unheard, same_ends. split_and!; congruence.
Qed.
Definition silent {E A : Type} (m : V E A) (Q : A → Prop) : Prop :=
  ∀ w, unheard (wire w) (wire (snd (m w))) ∧ ∀ a, fst (m w) = Ok a → Q a.
Lemma silent_ret {E A} (a : A) (Q : A → Prop) : Q a → silent (E := E) (ret a) Q.
Proof. intros HQ w. split; [reflexivity|]. by intros a' [= <-]. Qed.
Lemma silent_bind {E A B} (m : V E A) (k : A → V E B) Q Q' :
  silent m Q → (∀ a, Q a → silent (k a) Q') → silent (x <- m ;; k x) Q'.
Proof.
  intros Hm Hk w. destruct (Hm w) as [Hu HQ]. unfold bind. destruct (m w) as [[a|e| |] w']; cbn in *; try done.
  destruct (Hk a (HQ a eq_refl) w') as [Hu' HQ']. split; [by etrans|done].
Qed.
Lemma silent_then {E A B} (m : V E A) (k : V E B) Q : silent m (λ _, True) → silent k Q → silent (m ;;; k) Q.
Proof. intros Hm Hk. by eapply silent_bind; [exact Hm|]. Qed.
Lemma silent_wire {E A} (m : M E Wire A) (Q : A → Prop) :
  (∀ x, unheard x (snd (m x)) ∧ ∀ a, fst (m x) = Ok a → Q a) → silent (on_wire m) Q.
Proof. intros H w. specialize (H (wire w)). unfold on_wire. by destruct (m (wire w)). Qed.
Lemma silent_owner {E A} (m : M E O A) : silent (on_owner m) (λ _, True).
Proof. intros w. unfold on_owner. destruct (m (owner w)). cbn. split; [reflexivity|done]. Qed.
Lemma silent_lift {E A} (r : result E A) (Q : A → Prop) : (∀ a, r = Ok a → Q a) → silent (lift r) Q.
Proof. intros H w. split; [reflexivity|]. exact H. Qed.
Lemma silent_attempt {E E' A} (m : V E A) (Q : A → Prop) :
  silent m Q → silent (E := E') (attempt m) (λ r, match r with inl a => Q a | inr _ => True end).
Proof.
  intros H w. specialize (H w). unfold attempt. destruct (m w) as [[a|e| |] w']; cbn in *; (split; [apply H|]); intros r [= <-]; try done. by apply H.
Qed.
Lemma silent_weaken {E A} (m : V Empty_set A) (Q : A → Prop) : silent m Q → silent (E := E) (weaken m) Q.
Proof.
  intros H w. destruct (H w) as [Hu HQ]. unfold weaken. destruct (m w) as [[a|[]| |] w']; (split; [done|]); intros a' [= <-]. by apply HQ.
Qed.
Lemma unheard_said k m x : (∀ b, m ≠ WatchMessage b) → unheard x (said k m x).
Proof.
  intros Hm. split; [done|]. unfold watched, said. cbn [sent]. rewrite omap_app, concat_app. cbn.
  case_decide; [destruct m; cbn; rewrite ?app_nil_r; try done; by destruct (Hm content)|apply app_nil_r].
Qed.
Lemma unheard_write k m x : (∀ b, m ≠ WatchMessage b) → unheard x (snd (write k m x)).
Proof. intros Hm. rewrite write_spec. case_decide; [reflexivity|by apply unheard_said]. Qed.
Lemma silent_write k m (Hm : ∀ b, m ≠ WatchMessage b) : silent (on_wire (write k m)) (λ _, True).
Proof. apply silent_wire. intros x. split; [by apply unheard_write|done]. Qed.
Lemma unheard_error {E} fl k s x : unheard x (snd (@send_on_open_with_error IO E fl k s x)).
Proof.
  unfold send_on_open_with_error. destruct (bool_decide _); [done|]. destruct (negb _); [done|]. unfold ignore, bind. rewrite attach_spec.
  case_decide; [done|]. pose proof (unheard_write k (OnOpen s None) x ltac:(done)) as Hw.
  by destruct (write k (OnOpen s None) x) as [[[]|e| |] x'].
Qed.
Lemma silent_error {E} fl k s : silent (E := E) (on_wire (send_on_open_with_error fl k s)) (λ _, True).
Proof. apply silent_wire. intros x. split; [apply unheard_error|done]. Qed.
Lemma silent_connection {E A} k fl (info : NodeInfo) (c : A) :
  silent (E := E) (on_wire (ok_or_none
    (attach k ;;; (if has_flag fl OPEN_FLAG_DESCRIBE then write k (OnOpen OK (Some info)) else ret tt) ;;; ret c))) (λ _, True).
Proof.
  apply silent_wire. intros x. split; [|done]. unfold ok_or_none, bind. rewrite attach_spec. case_decide; [done|].
  destruct (has_flag fl OPEN_FLAG_DESCRIBE); [|done].
  pose proof (unheard_write k (OnOpen OK (Some info)) x ltac:(done)) as Hw. by destruct (write _ _ x) as [[[]|e| |] x'].
Qed.
Lemma silent_report {E A} fl k s (a : A) (Q : A → Prop) :
  Q a → silent (E := E) (on_wire (send_on_open_with_error fl k s) ;;; ret a) Q.
Proof. intros HQ. apply silent_then; [apply silent_error|by apply silent_ret]. Qed.
Lemma silent_reply {A} k m (a : A) (Q : A → Prop) : (∀ b, m ≠ WatchMessage b) → Q a → silent (on_wire (write k m) ;;; ret a) Q.
Proof. intros Hm HQ. apply silent_then; [by apply silent_write|by apply silent_ret]. Qed.
Lemma silent_panic {E A} (Q : A → Prop) : silent (E := E) panic Q ∧ silent (E := E) (lift OutOfFuel) Q.
Proof. split; intros w; (split; [reflexivity|done]). Qed.
Lemma silent_add (f : PseudoFile O) fl mode k : silent (add_connection f fl mode k) (λ _, True).
Proof.
  unfold add_connection. eapply (silent_bind _ _ (λ _, True)); [|intros oc _; by apply silent_ret]. unfold connect.
  destruct (file_validate_flags _ _ _ _) as [fl'|s| |]; [|by apply silent_report|apply silent_panic|apply silent_panic].
  eapply (silent_bind _ _ (λ _, True)); [|intros [[b ww]|s] _; [apply silent_connection|by apply silent_report]].
  intros w. destruct (silent_attempt (E' := Empty_set) (init_buffer f fl') (λ _, True)) with (w := w) as [Hu _]; [|done].
  unfold init_buffer. destruct (negb _); [by apply silent_ret|]. destruct (on_read f); [|by apply silent_ret].
  destruct (has_flag fl' OPEN_FLAG_TRUNCATE); [by apply silent_ret|]. eapply silent_bind; [apply silent_owner|]. intros b _. by apply silent_ret.
Qed.
(** The watchers and the names of a directory stay. *)
Definition same_watch (d d' : Simple (Node O)) : Prop := watchers d' = watchers d ∧ bt_keys (entries d') = bt_keys (entries d).
Lemma insert_keys {V} k v v' (m : BTreeMap V) : bt_sorted m → bt_get k m = Some v → bt_keys (bt_insert k v' m) = bt_keys m.
Proof.
  unfold bt_sorted. induction m as [|[k0 v0] m IH]; cbn [bt_get bt_insert bt_keys map fst]; [done|].
  intros [Hm Hf]%StronglySorted_inv. case_decide as Hk.
  - intros _. subst k0. by rewrite (proj2 (bytes_compare_eq k k)).
  - intros Hg. assert (k ∈ bt_keys m) as Hin.
    { apply elem_keys. exists (k, v). split; [by apply bt_get_elem|done]. }
    rewrite Forall_forall in Hf. specialize (Hf k Hin). rewrite bytes_compare_antisym, Hf. cbn. f_equal. by apply IH.
Qed.
Lemma silent_dir_add {E} (d : Simple (Node O)) fl mode k : silent (E := E) (dir_add_connection d fl mode k) (same_watch d).
Proof.
  unfold dir_add_connection. eapply (silent_bind _ _ (λ _, True)); [|intros [c|] _; by apply silent_ret]. unfold dir_connect.
  destruct (dir_validate_flags fl mode) as [fl'|s| |] eqn:Ef.
  - apply silent_connection.
  - apply silent_wire. intros x. split; [|done]. unfold bind. pose proof (unheard_error (E := E) fl k s x) as Hu.
    by destruct (send_on_open_with_error fl k s x) as [[[]|e| |] x'].
  - destruct (dir_flags_total fl mode) as [[? ?]|(?&?&?)]; congruence.
  - destruct (dir_flags_total fl mode) as [[? ?]|(?&?&?)]; congruence.
Qed.
Lemma silent_dir_clone {E} (d : Simple (Node O)) p fl mode k : silent (E := E) (dir_handle_clone d p fl mode k) (same_watch d).
Proof.
  unfold dir_handle_clone. destruct (inherit_rights_for_clone p fl) as [fl'|s| |];
    [apply silent_dir_add|by apply silent_report|apply silent_panic|apply silent_panic].
Qed.
Definition same_node_watch (n n' : Node O) : Prop :=
  match n, n' with DirectoryNode d, DirectoryNode d' => same_watch d d' | FileNode _, FileNode _ => True | _, _ => False end.
Lemma silent_open path n fl mode k :
  match n with DirectoryNode d => bt_sorted (entries d) | FileNode _ => True end →
  (∀ d, n = DirectoryNode d → Forall (λ e, node_good (-1) (λ _, True) e.2) (entries d)) →
  silent (open path n fl mode k) (same_node_watch n).
Proof.
  revert n. induction path as [|name path IH]; intros [f|d] Hs Hn; cbn [open].
  - eapply silent_bind; [apply silent_add|]. intros f' _. by apply silent_ret.
  - eapply silent_bind; [apply silent_dir_add|]. intros d' Hd'. by apply silent_ret.
  - eapply (silent_bind _ _ (λ _, True)); [by apply silent_report|]. intros f' _. by apply silent_ret.
  - destruct (bt_get name (entries d)) as [n|] eqn:Eg; [|by apply silent_report].
    pose proof (bt_get_elem _ _ _ Eg) as Hin. specialize (Hn d eq_refl). rewrite Forall_forall in Hn. specialize (Hn _ Hin). cbn in Hn.
    eapply (silent_bind _ _ (same_node_watch n)).
    + apply IH; [by inversion Hn|]. intros d' ->. by inversion Hn.
    + intros n' _. apply silent_ret. split; [done|]. by eapply insert_keys.
Qed.
Abbreviation good := (dir_good (-1) (λ _ : O, True)).
Lemma good_parts d : good d → bt_sorted (entries d) ∧ Forall (λ e, node_good (-1) (λ _, True) e.2) (entries d).
Proof. rewrite dir_good_parts. tauto. Qed.
Lemma silent_handle_open d p fl mode path k : good d → silent (handle_open d p fl mode path k) (same_watch d).
Proof.
  intros [Hs Hn]%good_parts. unfold handle_open. destruct (bool_decide _); [by apply silent_report|].
  destruct (bool_decide _); [apply silent_dir_clone|].
  destruct (validate_and_split_path path) as [[names is_dir]|s| |]; [|by apply silent_report|apply silent_panic|apply silent_panic].
  destruct (check_child_connection_flags p fl) as [fl'|s| |]; [|by apply silent_report|apply silent_panic|apply silent_panic].
  unfold dir_open. eapply silent_bind; [apply silent_open; [done|by intros ? [= <-]]|].
  intros [f|d'] Hd'; [done|]. by apply silent_ret.
Qed.
(** The other requests, and watching on another channel. *)
Definition other_watch (d d' : Simple (Node O)) : Prop :=
  mine h (watchers d') = mine h (watchers d) ∧ bt_keys (entries d') = bt_keys (entries d).
Lemma same_other d d' : same_watch d d' → other_watch d d'.
Proof. intros [E1 E2]. split; [by rewrite E1|done]. Qed.
Lemma silent_mono {E A} (m : V E A) (Q Q' : A → Prop) : silent m Q → (∀ a, Q a → Q' a) → silent m Q'.
Proof. intros H HQ w. destruct (H w) as [Hu H']. split; [done|]. eauto. Qed.
Lemma silent_watch d c mask_ options k :
  good d → k ≠ h → silent (handle_watch d c mask_ options k) (λ r, other_watch d r.1).
Proof.
  intros Hd Hk. unfold handle_watch. destruct (negb _); [by apply silent_reply|].
  apply silent_then; [apply silent_wire; intros x; rewrite attach_spec; split; [done|done]|].
  eapply (silent_bind _ _ (λ r, match r with inl l => mine h l = mine h (watchers d) | inr _ => True end)).
  { apply (silent_attempt _ (λ l, mine h l = mine h (watchers d))), silent_wire. intros x.
    destruct (add_tells (watchers d) _ mask_ k (good_names _ _ d Hd) x) as (ms&r&->&_&Hr). cbn [fst snd]. split.
    - split; [done|]. by apply watched_other.
    - intros l ->. destruct Hr as [-> _]. unfold mine. rewrite List.filter_app. cbn. rewrite bool_decide_false by done. apply app_nil_r. }
  intros r Hr. eapply (silent_bind _ _ (λ p, other_watch d p.1)).
  { apply silent_lift. intros [d' s]. by destruct r as [l|[|e]]; intros [= <- <-]. }
  intros [d' s] Hd'. eapply silent_bind; [apply (silent_attempt _ (λ _, True)); by apply silent_write|].
  intros r' _. by apply silent_ret.
Qed.
Definition watches (a : Arrival DirectoryRequest) : Prop := ∃ mask_ options, a = Request (DWatch mask_ options h).
Lemma silent_dir_request d req c :
  good d → ¬ watches (Request req) → silent (dir_handle_request d req c) (λ r, other_watch d r.1.1).
Proof.
  intros Hd Hw. destruct req; cbn [dir_handle_request]; try (by apply silent_reply).
  - eapply silent_bind; [apply silent_dir_clone|]. intros d' Hd'. apply silent_ret. by apply same_other.
  - eapply silent_bind; [by apply silent_weaken, silent_handle_open|]. intros d' Hd'. apply silent_ret. by apply same_other.
  - eapply (silent_bind _ _ (λ _, True)); [|intros c' _; by apply silent_ret]. unfold handle_read_dirents.
    eapply (silent_bind _ _ (λ _, True)); [by apply silent_lift|]. intros [[pos s] b] _. by apply silent_reply.
  - eapply silent_bind; [apply silent_watch; [done|]|intros r Hr; by apply silent_ret]. intros ->. apply Hw. by eexists _, _.
Qed.
Lemma silent_dir_serve d k a : good d → ¬ watches a → silent (dir_serve d k a) (λ r, other_watch d r.1).
Proof.
  intros Hd Ha. unfold dir_serve. destruct (take_dir_connection k (dir_connections d)) as [[c rest]|] eqn:Et; [|by apply silent_ret].
  destruct a as [req|]; [|by apply silent_ret].
  assert (good (with_dir_connections rest d)) as Hd'.
  { apply dir_good_connections; [done|]. apply dir_good_parts in Hd as (Hc&_). by destruct (take_dir_forall _ _ _ _ _ Et Hc). }
  eapply silent_bind; [apply silent_attempt; by apply silent_dir_request|].
  intros [[[d' [c'|]] b]|e] Hr; by apply silent_ret.
Qed.

(** The watcher's side: the events of the bytes it got, and the names they tell. *)
Fixpoint decode_events (fuel : nat) (b : list Z) : option (list (Z * list Z)) :=
  match b, fuel with
  | [], _ => Some []
  | event :: n :: b, S fuel => l ← decode_events fuel (drop (Z.to_nat n) b); Some ((event, take (Z.to_nat n) b) :: l)
  | _, _ => None
  end.
Definition apply_event (names : gset (list Z)) (e : Z * list Z) : gset (list Z) :=
  if decide (e.1 = WATCH_EVENT_EXISTING ∨ e.1 = WATCH_EVENT_ADDED) then {[e.2]} ∪ names
  else if decide (e.1 = WATCH_EVENT_REMOVED) then names ∖ {[e.2]} else names.
Definition view (l : list (Z * list Z)) : gset (list Z) := foldl apply_event ∅ l.
Lemma decode_encoded l fuel :
  Forall (λ e, short_name e.2) l → (length l ≤ fuel)%nat → decode_events fuel (encode_events l) = Some l.
Proof.
  intros Hl. revert fuel. induction Hl as [|[event name] l Hn Hl IH]; intros fuel Hf; [by destruct fuel|].
  change (encode_events ((event, name) :: l)) with (event :: to_unsigned 8 (zlen name) :: name ++ encode_events l).
  destruct fuel as [|fuel]; [cbn in Hf; lia|]. cbn [decode_events].
  assert (to_unsigned 8 (zlen name) = zlen name) as ->.
  { unfold to_unsigned, short_name in *. cbn in Hn. pose proof max_filename. pose proof (zlen_nonneg name). apply Z.mod_small. lia. }
  assert (Z.to_nat (zlen name) = length name) as -> by (unfold zlen; lia). rewrite drop_app_length, take_app_length.
  cbn in Hf. by rewrite IH by lia.
Qed.
Lemma encoded_length l : (length l ≤ length (encode_events l))%nat.
Proof. induction l as [|e l IH]; [done|]. unfold encode_events in *. cbn. rewrite length_app. lia. Qed.
Lemma view_app l e : view (l ++ [e]) = apply_event (view l) e.
Proof. unfold view. by rewrite foldl_app. Qed.

(** The watcher, once added, knows the names of the directory. *)
Definition watcher_ok (v : Watcher) : Prop :=
  has_flag (mask v) WATCH_MASK_ADDED = true ∧ has_flag (mask v) WATCH_MASK_REMOVED = true.
Record follows (v : Watcher) (d : Simple (Node O)) (w : World O) (l : list (Z * list Z)) : Prop := {
  fo_good : good d;
  fo_mine : mine h (watchers d) = [v];
  fo_bytes : watched h (wire w) = encode_events l;
  fo_short : Forall (λ e, short_name e.2) l;
  fo_view name : name ≠ dot → name ∈ view l ↔ name ∈ bt_keys (entries d);
  fo_able : able h (wire w);
  fo_waits : h ∉ readable (wire w) }.
Lemma follows_same v d w l d' w' : follows v d w l → good d' → other_watch d d' → unheard (wire w) (wire w') → follows v d' w' l.
Proof.
  intros [Hg Hm Hb Hsh Hv Ha Hr] Hg' [E1 E2] [Hs Hw]. constructor; [done|congruence|congruence|done|by rewrite E2|by eapply able_same|].
  by destruct Hs as (_&_&->&_).
Qed.
(** One more event, for a change of the names. *)
Lemma follows_told v d w l event mask_ name es w' ws x' :
  follows v d w l → short_name name → has_flag (mask v) mask_ = true →
  retain_sent (watchers d) mask_ event name (wire w) = (Ok ws, x') → wire w' = x' →
  good (with_entries es (with_watchers ws d)) →
  (∀ k, k ≠ dot → k ∈ apply_event (view l) (event, name) ↔ k ∈ bt_keys es) →
  follows v (with_entries es (with_watchers ws d)) w' (l ++ [(event, name)]).
Proof.
  intros [Hg Hm Hb Hsh Hv Ha Hr] Hn Hmask E <- Hg' Hes.
  destruct (retain_spec (watchers d) mask_ event name (wire w) Hn) as (ws'&x&E'&Hs&Hh). rewrite E in E'. injection E' as <- <-.
  destruct (Hh h Ha) as [Em Ew]. constructor; [done|by etrans| |by apply Forall_app; split; [|by constructor]| |by eapply able_same|].
  - rewrite Ew, Hb, Hm, encode_events_app. cbn. unfold event_to, when. rewrite Hmask. by rewrite app_nil_r.
  - intros k Hk. rewrite view_app. by apply Hes.
  - by destruct Hs as (_&_&->&_).
Qed.

Abbreviation happens := (event_ok (-1) (λ _ : O, True)).
(** Steps that return. *)
Lemma step_returns ev d w :
  good d → happens ev → ∃ d' w', node_step ev (DirectoryNode d) w = (Ok (DirectoryNode d'), w') ∧ good d'.
Proof.
  intros Hd Hev. pose proof (keeps_step (-1) (λ _, True) False ev (DirectoryNode d) Hd Hev ltac:(done) w I) as Hk.
  destruct (node_step ev (DirectoryNode d) w) as [[n|[]| |] w']; [|done..]. destruct Hk as [[Hn Hi] _]. destruct n as [f|d']; [done|]. eauto.
Qed.
Lemma apply_added names name k : k ∈ apply_event names (WATCH_EVENT_ADDED, name) ↔ k = name ∨ k ∈ names.
Proof. unfold apply_event. rewrite decide_True by (cbn; auto). set_solver. Qed.
Lemma apply_removed names name k : k ∈ apply_event names (WATCH_EVENT_REMOVED, name) ↔ k ≠ name ∧ k ∈ names.
Proof.
  pose proof watch_events_once as Hd. rewrite !NoDup_cons, !elem_of_cons in Hd. unfold apply_event.
  rewrite decide_False by (cbn; naive_solver). rewrite decide_True by done. set_solver.
Qed.
Lemma insert_elem {V} k (v : V) m k' : k' ∈ bt_keys (bt_insert k v m) ↔ k' = k ∨ k' ∈ bt_keys m.
Proof.
  induction m as [|[k0 v0] m IH]; cbn [bt_insert bt_keys map fst]; [set_solver|].
  destruct (bytes_compare k k0) eqn:E; cbn [bt_keys map fst].
  - apply bytes_compare_eq in E as ->. set_solver.
  - set_solver.
  - unfold bt_keys in IH. set_solver.
Qed.
Lemma remove_elem {V} k (m : BTreeMap V) k' : k' ∈ bt_keys (bt_remove k m) ↔ k' ≠ k ∧ k' ∈ bt_keys m.
Proof.
  rewrite !elem_keys. unfold bt_remove. setoid_rewrite list_elem_of_In. setoid_rewrite filter_In.
  split; [intros (e&[He Hk]%and_comm&<-)|intros (Hne&e&He&<-)].
  - split; [by apply negb_true_iff, bool_decide_eq_false in He|eauto].
  - exists e. split_and!; [done|by rewrite bool_decide_false|done].
Qed.
Lemma follows_add v d w l name n :
  follows v d w l → watcher_ok v → node_good (-1) (λ _, True) n →
  ∃ d' w' l', node_step (AddEntry name n) (DirectoryNode d) w = (Ok (DirectoryNode d'), w') ∧ follows v d' w' l'.
Proof.
  intros Hf [Hadd _] Hn. cbn [node_step]. unfold attempt, add_boxed_entry, bind.
  destruct (Z.leb_spec MAX_FILENAME (zlen name)); [by exists d, w, l|]. destruct (bool_decide _); [by exists d, w, l|].
  unfold unwatched, watchers_send_event. rewrite (proj2 (Z.leb_gt _ _)) by done.
  destruct (retain_spec (watchers d) WATCH_MASK_ADDED WATCH_EVENT_ADDED name (wire w)) as (ws&x'&E&_); [done|]. rewrite E.
  eexists _, _, _. split; [done|]. eapply follows_told; [done..| |].
  - apply (dir_good_insert _ _ (with_watchers ws d)); [apply dir_good_watchers, Hf|done|done].
  - intros k Hk. rewrite apply_added, insert_elem, (fo_view _ _ _ _ Hf k Hk). done.
Qed.
Lemma follows_remove v d w l name :
  follows v d w l → watcher_ok v →
  ∃ d' w' l', node_step (RemoveEntry name) (DirectoryNode d) w = (Ok (DirectoryNode d'), w') ∧ follows v d' w' l'.
Proof.
  intros Hf [_ Hrem]. destruct (step_returns (RemoveEntry name) d w (fo_good _ _ _ _ Hf) I) as (d'&w'&E'&Hg'). rewrite E'.
  cbn [node_step] in E'. unfold attempt, remove_entry, bind in E'.
  destruct (Z.leb_spec MAX_FILENAME (zlen name)); [injection E' as <- <-; by exists d, w, l|].
  unfold unwatched, watchers_send_event in E'. rewrite (proj2 (Z.leb_gt _ _)) in E' by done.
  destruct (retain_spec (watchers d) WATCH_MASK_REMOVED WATCH_EVENT_REMOVED name (wire w)) as (ws&x'&E&_); [done|]. rewrite E in E'.
  injection E' as <- <-. eexists _, _, _. split; [done|]. eapply follows_told; [done..|].
  intros k Hk. rewrite apply_removed, remove_elem, (fo_view _ _ _ _ Hf k Hk). done.
Qed.
(** Events by which nobody else begins to watch on the channel. *)
Definition elsewhere (ev : TreeEvent (O := O)) : Prop := ∀ k a, ev = DirectoryArrival k a → ¬ watches a.
Lemma follows_step v d w l ev :
  follows v d w l → watcher_ok v → happens ev → elsewhere ev →
  ∃ d' w' l', node_step ev (DirectoryNode d) w = (Ok (DirectoryNode d'), w') ∧ follows v d' w' l'.
Proof.
  intros Hf Hv Hev He. pose proof (fo_good _ _ _ _ Hf) as Hg. destruct (step_returns ev d w Hg Hev) as (d'&w'&E&Hg').
  assert (∀ Q, silent (node_step ev (DirectoryNode d)) Q → Q (DirectoryNode d') ∧ unheard (wire w) (wire w')) as Hsil.
  { intros Q Hq. destruct (Hq w) as [Hu HQ]. rewrite E in *. split; [by apply HQ|done]. }
  destruct ev as [k a|k a|name n|name| |fl mode path k].
  - injection E as <- <-. by exists d, w, l.
  - exists d', w', l. split; [done|]. destruct (Hsil (λ n, ∃ d', n = DirectoryNode d' ∧ other_watch d d')) as [(?&[= <-]&Ho) Hu]; [|by eapply follows_same].
    cbn [node_step]. eapply silent_bind; [apply silent_dir_serve; [done|by eapply He]|]. intros r Hr. apply silent_ret. eauto.
  - by eapply follows_add.
  - by eapply follows_remove.
  - exists d', w', l. split; [done|]. cbn in E. injection E as <- <-. eapply follows_same; [done|done| |reflexivity].
    split; [|done]. cbn. destruct Hf as [_ _ _ _ _ [Hcl _] Hr]. clear -Hcl Hr. unfold remove_dead, mine.
    induction (watchers d) as [|x ws IH]; [done|]. cbn [List.filter]. unfold is_dead at 1.
    destruct (decide (channel x = h)) as [Ex|Ex].
    + rewrite Ex, !bool_decide_false by done. cbn. rewrite Ex, !bool_decide_true by done. by f_equal.
    + destruct (negb _); cbn [List.filter]; rewrite ?(bool_decide_false (channel x = h)) by done; done.
  - exists d', w', l. split; [done|]. destruct (good_parts d Hg) as [Hs Hn]. destruct (Hsil (same_node_watch (DirectoryNode d))) as [Ho Hu].
    + apply silent_open; [done|by intros ? [= <-]].
    + eapply follows_same; [done|done|by apply same_other|done].
Qed.
Lemma follows_run v evs d w l :
  follows v d w l → watcher_ok v → Forall (λ ev, happens ev ∧ elsewhere ev) evs →
  ∃ d' w' l', tree_run (([],.) <$> evs) (DirectoryNode d) w = (Ok (DirectoryNode d'), w') ∧ follows v d' w' l'.
Proof.
  intros Hf Hv Hev. revert d w l Hf. induction Hev as [|ev evs [Ho He] Hev IH]; intros d w l Hf; [by exists d, w, l|].
  destruct (follows_step v d w l ev Hf Hv Ho He) as (d1&w1&l1&E1&Hf1). destruct (IH d1 w1 l1 Hf1) as (d2&w2&l2&E2&Hf2).
  exists d2, w2, l2. split; [|done]. rewrite fmap_cons. cbn [tree_run tree_step]. unfold bind. by rewrite E1.
Qed.
Lemma foldl_existing names s k : k ∈ foldl apply_event s ((WATCH_EVENT_EXISTING,.) <$> names) ↔ k ∈ names ∨ k ∈ s.
Proof.
  revert s. induction names as [|name names IH]; intros s; cbn; [set_solver|]. rewrite IH. unfold apply_event.
  rewrite decide_True by (cbn; auto). set_solver.
Qed.
Lemma view_first mask_ names k : has_flag mask_ WATCH_MASK_EXISTING = true → k ∈ view (first_events mask_ names) ↔ k ∈ names.
Proof.
  intros Hm. unfold view, first_events, when. rewrite Hm, foldl_app.
  assert (∀ s : gset (list Z), foldl apply_event s (if has_flag mask_ WATCH_MASK_IDLE then [(WATCH_EVENT_IDLE, [])] else []) = s) as ->.
  { intros s. destruct (has_flag mask_ WATCH_MASK_IDLE); [|done]. change (apply_event s (WATCH_EVENT_IDLE, []) = s). pose proof watch_events_once as Hd. rewrite !NoDup_cons, !elem_of_cons in Hd.
    unfold apply_event. rewrite !decide_False by (cbn [fst]; naive_solver). done. }
  rewrite foldl_existing. set_solver.
Qed.
Lemma first_short mask_ names : Forall short_name names → Forall (λ e, short_name e.2) (first_events mask_ names).
Proof.
  intros Hn. unfold first_events, when. apply Forall_app. split.
  - destruct (has_flag _ _); [by apply Forall_fmap|done].
  - destruct (has_flag _ _); [|done]. constructor; [|done]. unfold short_name. pose proof max_filename. change (0 < MAX_FILENAME). lia.
Qed.
Lemma take_dir_some k l : k ∈ dir_requests <$> l → ∃ c rest, take_dir_connection k l = Some (c, rest).
Proof.
  induction l as [|c l IH]; cbn; [by intros ?%not_elem_of_nil|]. rewrite elem_of_cons. destruct (Z.eqb_spec (dir_requests c) k); [eauto|].
  intros [?|Hk]; [congruence|]. destruct (IH Hk) as (x&rest&->). eauto.
Qed.
(** A channel that is open, that nobody else watches on and that no event was sent on. *)
Record fresh (d : Simple (Node O)) (x : Wire) : Prop := {
  fr_able : able h x;
  fr_attached : h ∉ unattached x;
  fr_waits : h ∉ readable x;
  fr_mine : mine h (watchers d) = [];
  fr_bytes : watched h x = [] }.
Lemma follows_watch d k mask_ w :
  good d → k ∈ dir_requests <$> dir_connections d → fresh d (wire w) → has_flag mask_ WATCH_MASK_EXISTING = true →
  ∃ d' w', node_step (DirectoryArrival k (Request (DWatch mask_ 0 h))) (DirectoryNode d) w = (Ok (DirectoryNode d'), w') ∧
    follows {| mask := mask_; channel := h |} d' w' (first_events mask_ (dot :: bt_keys (entries d))).
Proof.
  intros Hd Hk [Ha Hat Hr Hm Hb] Hmask. destruct (step_returns (DirectoryArrival k (Request (DWatch mask_ 0 h))) d w Hd I) as (d'&w'&E&Hg').
  exists d', w'. split; [done|]. cbn [node_step] in E. unfold dir_serve in E.
  destruct (take_dir_some k _ Hk) as (c&rest&Et). rewrite Et in E. cbn [dir_handle_request] in E. unfold handle_watch in E.
  unfold bind, attempt, on_wire in E. cbn [negb Z.eqb] in E. rewrite attach_spec, decide_False in E by done. cbn [wire watchers entries with_dir_connections] in E.
  pose proof (good_names _ _ d Hd) as Hn.
  destruct (add_tells (watchers d) (dot :: bt_keys (entries d)) mask_ h Hn (wire w)) as (ms&r&E'&_&Hr'). rewrite E' in E.
  destruct r as [ws|e| |]; [|by destruct Hr'|done..]. destruct Hr' as [-> Hms]. cbn in E.
  pose proof (unheard_write (dir_requests c) (StatusReply OK) (told h ms (wire w)) ltac:(done)) as [Hs Hw].
  assert (watchers d' = watchers d ++ [{| mask := mask_; channel := h |}] ∧ entries d' = entries d ∧
    wire w' = snd (write (dir_requests c) (StatusReply OK) (told h ms (wire w)))) as (Hws&Hes&Hwire).
  { destruct (write _ _ _) as [[[]|e| |] x'] eqn:Ew; cbn in E; [by injection E as <- <-|by injection E as <- <-| |]; done. }
  constructor; [done| | |by apply first_short| | |].
  - rewrite Hws. unfold mine. rewrite List.filter_app. fold (mine h (watchers d)). rewrite Hm. cbn. by rewrite bool_decide_true.
  - by rewrite Hwire, Hw, watched_told, Hb.
  - intros name Hne. rewrite view_first, Hes by done. set_solver.
  - rewrite Hwire. by eapply able_same; [exact Hs|].
  - rewrite Hwire. by destruct Hs as (_&_&->&_).
Qed.

(** C25: A client that watches a directory for existing, added and removed entries can tell the
    names of the directory at any time from the bytes it was sent, whatever requests, additions
    and removals come, as long as its channel is open. *)
Theorem watch_consistent d k mask_ w evs :
  dir_good (-1) (λ _, True) d → k ∈ dir_requests <$> dir_connections d → fresh d (wire w) →
  (∀ m, m ∈ [WATCH_MASK_EXISTING; WATCH_MASK_ADDED; WATCH_MASK_REMOVED] → has_flag mask_ m = true) →
  Forall (λ ev, event_ok (-1) (λ _, True) ev ∧ elsewhere ev) evs →
  ∃ d' w' l,
    tree_run (([],.) <$> DirectoryArrival k (Request (DWatch mask_ 0 h)) :: evs) (DirectoryNode d) w = (Ok (DirectoryNode d'), w') ∧
    decode_events (length (watched h (wire w'))) (watched h (wire w')) = Some l ∧
    ∀ name, name ≠ dot → name ∈ view l ↔ name ∈ bt_keys (entries d').
Proof.
  intros Hd Hk Hfr Hm Hev. destruct (follows_watch d k mask_ w Hd Hk Hfr) as (d1&w1&E1&Hf1); [apply Hm; set_solver|].
  destruct (follows_run _ evs d1 w1 _ Hf1) as (d2&w2&l&E2&Hf2); [split; apply Hm; set_solver|done|].
  exists d2, w2, l. split_and!.
  - rewrite fmap_cons. cbn [tree_run tree_step]. unfold bind. by rewrite E1.
  - rewrite (fo_bytes _ _ _ _ Hf2). apply decode_encoded; [apply Hf2|apply encoded_length].
  - apply Hf2.
Qed.
End silent.

(** * Files and trees *)
Section claims.
Context `{IO : !IoConstants, IS : !IoSpec, VM : !VmoSystem, BO : !ByteOrder, BS : !ByteOrderSpec} {O : Type}.

(** C24: A file serves requests of its connections in any order and keeps its invariant; it
    panics only when a connection asks for a buffer and the kernel does not create its VMO, or
    does not write to it.  Each connection that stays open, whose reads are of at most [MAX_BUF]
    bytes, and whose channel takes messages of that length, sees only its own requests: it gets the
    replies of a [session] of them, in which reads return bytes of the connection's buffer, writes
    change the bytes they name and no others, within the capacity, and the rights of the connection
    decide what is allowed. *)
Theorem file_sessions (arrivals : list (Z * Arrival FileRequest)) (f : PseudoFile O) w :
  file_ok f → Forall (λ ka, arrival_ok ka.2) arrivals → NoDup (all_objects arrivals) →
  (∀ k, k ∈ all_objects arrivals → k ∉ channels f) →
  (fst (poll f arrivals w) = Panic ∧ Exists (λ ka, refused ka.1 ka.2) arrivals) ∨
  ∃ f' w', poll f arrivals w = (Ok f', w') ∧ file_ok f' ∧ same_file f f' ∧
    ∀ c, c ∈ connections f → takes_short (wire w) → requests c ∉ closed (wire w) → stays_open (requests c) arrivals →
      ∃ c' ms, session c (requests_of (requests c) arrivals) c' ms ∧ c' ∈ connections f' ∧ requests c' = requests c ∧
        msgs_to (requests c) (wire w') = msgs_to (requests c) (wire w) ++ ms.
Proof.
  intros H3 H4 H5 H6. destruct (poll_spec arrivals f w H3 H4 H5 H6) as [?|(f'&w'&?&?&?&_&_&?)]; [by left|right].
  by exists f', w'.
Qed.

(** C23: A sequence of requests, additions, removals and openings makes a tree panic only when a
    connection to a file asks for a buffer and the kernel does not create its VMO, or does not
    write to it; nothing else makes it fail.  When
    all connections have rights within [R], all that are ever made have, as long as those who may
    not write do not ask for truncation, and do not clone a directory with [OPEN_FLAG_POSIX].
    Handlers that keep [P] when files are read, and when they are written if [R] allows writing,
    are all that is called, so that [P] is kept; without the right to write in [R] nothing is
    written. *)
Theorem vfs_rights (R : Z) (P : O → Prop) events n w :
  node_good R P n → Forall (λ e, event_ok R P e.2) events → P (owner w) →
  (fst (tree_run events n w) = Panic ∧ Exists (λ e, event_refused e.2) events) ∨
  ∃ n' w', tree_run events n w = (Ok n', w') ∧ node_good R P n' ∧ P (owner w').
Proof.
  intros Hn Hev HP. pose proof (keeps_run R P (Exists (λ e, event_refused e.2) events) events n Hn Hev id w HP) as Hk.
  destruct (tree_run events n w) as [[n'|[]| |] w']; [right|by left|done]. destruct Hk as [[? _] ?]. by exists n', w'.
Qed.
End claims.

(** * Examples *)
Definition fuchsia_io : IoConstants := {|
  OPEN_RIGHT_READABLE := 1; OPEN_RIGHT_WRITABLE := 2; OPEN_RIGHT_ADMIN := 4;
  OPEN_FLAG_CREATE := 2 ^ 16; OPEN_FLAG_CREATE_IF_ABSENT := 2 ^ 17; OPEN_FLAG_TRUNCATE := 2 ^ 18; OPEN_FLAG_DIRECTORY := 2 ^ 19;
  OPEN_FLAG_APPEND := 2 ^ 20; OPEN_FLAG_NODE_REFERENCE := 2 ^ 22; OPEN_FLAG_DESCRIBE := 2 ^ 23; OPEN_FLAG_POSIX := 2 ^ 24;
  CLONE_FLAG_SAME_RIGHTS := 2 ^ 26; OPEN_FLAGS_ALLOWED_WITH_NODE_REFERENCE := 2 ^ 19 + 2 ^ 23;
  MODE_PROTECTION_MASK := 4095; MODE_TYPE_FILE := 2 ^ 15; MODE_TYPE_DIRECTORY := 2 ^ 14;
  INO_UNKNOWN := 2 ^ 64 - 1;
  DIRENT_TYPE_UNKNOWN := 0; DIRENT_TYPE_DIRECTORY := 4; DIRENT_TYPE_BLOCK_DEVICE := 6; DIRENT_TYPE_FILE := 8;
  DIRENT_TYPE_SOCKET := 12; DIRENT_TYPE_SERVICE := 16;
  MAX_FILENAME := 255; MAX_BUF := 8192;
  WATCH_MASK_EXISTING := 8; WATCH_MASK_IDLE := 16; WATCH_MASK_ADDED := 2; WATCH_MASK_REMOVED := 4;
  WATCH_EVENT_EXISTING := 3; WATCH_EVENT_IDLE := 4; WATCH_EVENT_ADDED := 1; WATCH_EVENT_REMOVED := 2 |}.
#[local] Existing Instance fuchsia_io.
Lemma fuchsia_io_spec : IoSpec.
Proof.
  refine {| flag_bits := [0; 1; 2; 16; 17; 18; 19; 20; 22; 23; 24; 26] |}; try done.
  - repeat (constructor; [done|]). constructor.
  - repeat (constructor; [rewrite list_elem_of_In; cbn; lia|]). constructor.
  - repeat (constructor; [done|]). constructor.
  - repeat (constructor; [rewrite list_elem_of_In; cbn; lia|]). constructor.
Qed.
#[local] Existing Instance fuchsia_io_spec.
Definition vmos : VmoSystem := {| vmo_create := λ _, true; vmo_write := λ _, true |}.
#[local] Existing Instance vmos.
#[local] Existing Instance le_order.
#[local] Existing Instance le_order_spec.

(** A file with the bytes of its owner, in a directory. *)
Definition notes : PseudoFile (list Z) :=
  read_write_attr 384 (λ o, (if zlen o <? 2 ^ 63 then Ok o else Err (OtherStatus 0), o)) 100 (λ b _, (Ok tt, b)).
Definition notes_name : list Z := [110].
Definition notes_tree : Node (list Z) := DirectoryNode (with_entries [(notes_name, FileNode notes)] (empty_attr 0)).
Definition quiet_wire : Wire := {| closed := ∅; unattached := ∅; readable := ∅; takes := λ m, content_length m <=? 65000; sent := [] |}.
Definition first_world : World (list Z) := {| owner := [1; 2; 3]; wire := quiet_wire |}.
Definition runs (events : list (list (list Z) * TreeEvent)) : list Z := owner (snd (tree_run events notes_tree first_world)).
Abbreviation READ := OPEN_RIGHT_READABLE.
Abbreviation WRITE := OPEN_RIGHT_WRITABLE.
Abbreviation TRUNCATE := OPEN_FLAG_TRUNCATE.

(** A client that may only read empties the file when it asks for truncation. *)
Example reader_erases :
  runs [([], OwnerOpen READ 0 [] 1);
        ([], DirectoryArrival 1 (Request (DOpen (Z.lor READ TRUNCATE) 0 notes_name 2)));
        ([notes_name], FileArrival 2 (Request FClose))] = [].
Proof. by vm_compute. Qed.
(** Truncation is lost for those who write without reading. *)
Example writer_does_not_truncate :
  runs [([], OwnerOpen (Z.lor READ WRITE) 0 [] 1);
        ([], DirectoryArrival 1 (Request (DOpen (Z.lor WRITE TRUNCATE) 0 notes_name 2)));
        ([notes_name], FileArrival 2 (Request FClose))] = [1; 2; 3].
Proof. by vm_compute. Qed.
Example truncation_lost :
  runs [([], OwnerOpen (Z.lor READ WRITE) 0 [notes_name] 2);
        ([notes_name], FileArrival 2 (Request (FTruncate 0)));
        ([notes_name], FileArrival 2 (Request FClose))] = [1; 2; 3].
Proof. by vm_compute. Qed.
(** A clone of a connection that may only read may write. *)
Example clone_gains_writing :
  runs [([], OwnerOpen READ 0 [] 1);
        ([], DirectoryArrival 1 (Request (DClone (Z.lor CLONE_FLAG_SAME_RIGHTS OPEN_FLAG_POSIX) 2)));
        ([], DirectoryArrival 2 (Request (DOpen WRITE 0 notes_name 3)));
        ([notes_name], FileArrival 3 (Request (FWrite [9])));
        ([notes_name], FileArrival 3 (Request FClose))] = [9].
Proof. by vm_compute. Qed.
(** Watchers are told of the removal of an entry that there is not. *)
Example removal_of_nothing :
  watched 5 (wire (snd (tree_run [([], OwnerOpen READ 0 [] 1); ([], DirectoryArrival 1 (Request (DWatch WATCH_MASK_REMOVED 0 5)));
                                  ([], RemoveEntry [120])] notes_tree first_world))) = [WATCH_EVENT_REMOVED; 1; 120].
Proof. by vm_compute. Qed.

(** Two clients of the file at the same time. *)
Definition client (h flags_ : Z) : FileConnection :=
  {| requests := h; flags := flags_; protection_attributes := 0; seek := 0; capacity := 100; buffer := [1; 2; 3]; was_written := false |}.
Definition two_clients : list (Z * Arrival FileRequest) :=
  [(1, Request (FRead 2)); (2, Request (FWrite [7])); (1, Request (FRead 2)); (2, Request (FSeek 0 Start)); (2, Request (FClone 1 3))].
Definition shared_notes : PseudoFile (list Z) := with_connections [client 1 1; client 2 3] notes.
Lemma notes_handlers l : handlers_ok (with_connections l notes).
Proof.
  constructor; cbn; [intros r [= <-] o|intros r [= <-] b o; done|lia]. cbn. by destruct (Z.ltb_spec (zlen o) (2 ^ 63)).
Qed.
Lemma client_ok h fl : conn_ok (client h fl).
Proof. constructor; [done|by vm_compute|by vm_compute]. Qed.
Lemma file_sessions_witness :
  ∃ f' w', poll shared_notes two_clients first_world = (Ok f', w') ∧ file_ok f' ∧
    ∃ ms, msgs_to 1 (wire w') = ms ∧ ∃ c', session (client 1 1) [FRead 2; FRead 2] c' ms.
Proof.
  destruct (file_sessions two_clients shared_notes first_world) as [[E _]|(f'&w'&E&Hok&_&Hs)]; try done.
  - constructor; [apply notes_handlers|repeat constructor; apply client_ok|]. repeat (constructor; [rewrite list_elem_of_In; cbn; lia|]). constructor.
  - by repeat (constructor; [vm_compute; done|]).
  - constructor; [rewrite list_elem_of_In; cbn; lia|constructor].
  - intros k. cbn. rewrite !list_elem_of_In. cbn. lia.
  - exists f', w'. split_and!; [done|done|]. destruct (Hs (client 1 1)) as (c'&ms&Hses&_&_&Hm).
    + by left.
    + intros m Hm. cbn in Hm |- *. apply Z.leb_le. change MAX_BUF with 8192 in Hm. lia.
    + done.
    + intros a Ha. cbn in Ha. rewrite list_elem_of_In in Ha. cbn in Ha. exists (FRead 2). destruct_or? Ha; try done; by injection Ha as <-.
    + exists ms. split; [exact Hm|]. by exists c'.
Defined.

(** A tree of which clients may only read: nothing is written. *)
Definition reader_events : list (list (list Z) * TreeEvent (O := list Z)) :=
  [([], OwnerOpen READ 0 [] 1); ([], DirectoryArrival 1 (Request (DOpen (Z.lor READ OPEN_FLAG_POSIX) 0 notes_name 2)));
   ([notes_name], FileArrival 2 (Request (FWrite [5]))); ([notes_name], FileArrival 2 (Request FClose))].
Lemma notes_good R P : (∀ o b : list Z, has_flag R WRITE = true → P o → P b) → node_good R P notes_tree.
Proof.
  intros HP. constructor; [constructor|repeat constructor|repeat constructor|]. constructor; [|constructor]. constructor.
  constructor; [apply (notes_handlers [])|cbn; intros r [= <-]; done|cbn; intros r Hw [= <-] b o; by apply HP|constructor].
Qed.
Lemma vfs_rights_witness : ∃ n' w', tree_run reader_events notes_tree first_world = (Ok n', w') ∧ owner w' = [1; 2; 3].
Proof.
  destruct (vfs_rights READ (λ o, o = [1; 2; 3]) reader_events notes_tree first_world) as [[E _]|(n'&w'&E&_&Ho)]; try done.
  - by apply notes_good.
  - constructor; [split_and!; [done|by intros ?|by intros ?]|]. constructor; [split; [by intros ?|intros [?|?]; done]|].
    constructor; [split; [done|by intros ???]|]. constructor; [split; [done|by intros ???]|constructor].
  - by exists n', w'.
Defined.

(** A directory from which an entry is removed while it is listed. *)
Definition many (names : list (list Z)) : Simple (Node (list Z)) := with_entries ((λ n, (n, FileNode notes)) <$> names) (empty_attr 0).
Definition listing_calls : list (Simple (Node (list Z)) * Z) :=
  [(many [[97]; [98]; [99]], 265); (many [[97]; [99]], 10); (many [[97]; [99]], 265)].
Lemma dirents_listing_witness :
  ∃ pos bufs names, list_calls TStart listing_calls = Ok (pos, bufs) ∧ decode_dirents (length (concat bufs)) (concat bufs) = Some names.
Proof.
  destruct (dirents_listing listing_calls) as (pos&bufs&names&E&_&Hd&_).
  - repeat (constructor; [split_and!; [repeat constructor|repeat constructor|done|done]|]). constructor.
  - by exists pos, bufs, names.
Defined.
(** Its entries, watched while one is added and one removed. *)
Definition watched_dir : Simple (Node (list Z)) :=
  with_dir_connections [{| dir_requests := 1; dir_flags := 1; dir_seek := TStart |}] (many [[97]; [98]]).
Lemma watch_consistent_witness :
  ∃ d' w' l, tree_run [([], DirectoryArrival 1 (Request (DWatch 30 0 5))); ([], AddEntry [99] (FileNode notes)); ([], RemoveEntry [97])]
      (DirectoryNode watched_dir) first_world = (Ok (DirectoryNode d'), w') ∧
    decode_events (length (watched 5 (wire w'))) (watched 5 (wire w')) = Some l ∧
    ∀ name, name ≠ dot → name ∈ view l ↔ name ∈ bt_keys (entries d').
Proof.
  assert (node_good (-1) (λ _ : list Z, True) (FileNode notes)) as Hnotes.
  { constructor. constructor; [apply (notes_handlers [])|done|done|constructor]. }
  apply (watch_consistent 5 watched_dir 1 30 first_world [AddEntry [99] (FileNode notes); RemoveEntry [97]]).
  - apply dir_good_parts. split_and!; [by apply Forall_singleton|repeat constructor|repeat constructor|by repeat (constructor; [exact Hnotes|]); constructor].
  - by left.
  - constructor; try done. split; [done|]. intros m Hm. cbn in Hm |- *. apply Z.leb_le. change MAX_BUF with 8192 in Hm. lia.
  - intros m. rewrite list_elem_of_In. cbn. intros Hm. destruct_or? Hm; try done; by subst m.
  - constructor; [split; [done|by intros ???]|]. constructor; [split; [done|by intros ???]|constructor].
Defined.
